(* ===== verification/_CoqProject ===== *)
-Q . S2P
Prelude.v
Identity.v
Resources.v
ResourceProofs.v
Model.v
Validation.v
Transitions.v
WellFormed.v
Reducer.v
ReducerProofs.v
OperationProofs.v
SettleProofs.v
AdvanceProofs.v
InterruptProofs.v
ConfirmationProofs.v
Bdd.v
BddProofs.v
Failover.v
FailoverGraph.v
FailoverProofs.v
Topology.v
GraphDefinition.v
ControlGraph.v
ControlGraphProofs.v
LevelProofs.v
JoinPlans.v
RouteProofs.v
JointProofs.v
ControlTheorems.v
Bindings.v
DefinitionProofs.v
FrontierRelation.v
Compiler.v
ControlTopologyProofs.v
FrontierSystem.v
FrontierAlloc.v
FrontierMeaning.v
FrontierFixpoint.v
FrontierProofs.v
BindingProofs.v
AnalysisProofs.v
CompilerProofs.v
CompilerTheorems.v
TypedGraphs.v
NextFrontier.v
Routing.v
Engine.v
DemoGraph.v
EngineProofs.v
RoutingProofs.v
AdmittedRuns.v
CompositionProofs.v
Values.v
RunContext.v
RunContextProofs.v
Materialization.v
Superstep.v
Session.v
SessionState.v
SessionPool.v
SessionProofs.v
SessionTheorems.v
Commit.v
ResumeAdmission.v
CommitProofs.v
ResumeProofs.v
TypeSafety.v
TypeTheorems.v
Commitment.v
SessionCodec.v
Persistence.v
PersistenceProofs.v
Invocation.v
Checkpoint.v
DurableProofs.v
RestoreProofs.v
Recovery.v
RecoveryProofs.v
RecoveryCoverage.v
