(* ===== verification/Prelude.v ===== *)
(** * Mote kernel: a verification library

    A shallow embedding of the execution core of [mote-kernel/src/mote_kernel]: the durable
    graph-run state with its reducer, the graph compiler, the engine that drives a compiled
    graph, persistence and recovery, and failover.  Paths below are relative to that
    directory.  Every operation of the source is one executable definition, with the
    source's name (without leading underscores), in the source's order of checks; the
    theorems marked [C1] to [C40] are the properties of the library, the other lemmas carry
    them.

    ** The program, and how its parts interact

    - A _definition_ (nodes, edges, value bindings, nested definitions) is validated and
      compiled into a [CompiledGraph]: tables of targets, Join plans with the offset of each
      source, input materializations, publications, completion routes.
    - A _run_ of a compiled graph is a [GraphRunState]: superstep, frontier, settlement
      ledger, pending Joins, resources, lease, Config cursor.  It changes only through
      [reduce_graph_run], which applies one command and re-validates the whole result.
    - The _engine_ alternates: [prepare_superstep] checks the snapshot against the graph and
      plans the pending nodes; a claim leases the run; a session runs the nodes and yields
      one settlement at a time; when the frontier is settled, the resolver of [routing.py]
      derives the advance or the completion.  A commit reduces a command, writes frames and
      evidence, and after confirmation installs the frames in the index of the family.
    - _Persistence_ captures frames and evidence commitments; _recovery_ restores the frame
      index of a checkpoint and proves, by simulation on availability coordinates, that no
      branch of the resumed family can miss a value.
    - _Failover_ is itself a small graph that wraps one Port call in bounded retries.

    ** Files

    Foundations.  [Prelude]: exceptions, the [result] monad, Python loops and dicts, orders
    and sorting, the [checks] rewriting base.  [Identity]: [state/graph_state/identity.py].

    Graph state ([state/graph_state/]).  [Resources]: [resource_*.py]; [ResourceProofs] (C39,
    C40).  [Model]: [model.py], [frontier_model.py], [routing.py], [command.py].
    [Validation]: [validation.py]; [WellFormed]: the invariant it decides (C1).
    [Transitions]: [execution_transitions.py], [lifecycle_transitions.py],
    [recovery_transitions.py], [reducer.py].  [Reducer]: inversion lemmas, the step relation;
    [ReducerProofs]: histories (C28, C32); [OperationProofs]: claim, fence, abort, resume;
    [SettleProofs] (C29); [AdvanceProofs] (C2, C30, C31); [InterruptProofs] (C34);
    [ConfirmationProofs] (C38).

    Definitions and the compiler ([execution/graph/]).  [Topology]: compiled data of
    [edge.py], [ports.py], [topology.py] and [execution/identity.py].  [GraphDefinition]:
    [definition.py], [validation.py].  [compiler.py] is in four files: [ControlGraph]
    (reachability, cycles, levels, guarantees), [JoinPlans] (route requirements, joint
    activation, Join offsets), [Bindings] (values) and [Compiler] (control topology,
    assembly, the table of plans).  [frontier_proof.py] is [Bdd] (the decision diagrams) and
    [FrontierRelation] (the symbolic relation and the completion proof).  Their theory:
    [ControlGraphProofs], [LevelProofs], [RouteProofs], [JointProofs], [ControlTheorems]
    (C24, C25); [BddProofs], [FrontierSystem] (the explicit transition system),
    [FrontierAlloc], [FrontierMeaning], [FrontierFixpoint], [FrontierProofs] (C23);
    [DefinitionProofs], [ControlTopologyProofs], [BindingProofs], [AnalysisProofs],
    [CompilerProofs] and [CompilerTheorems] (C4, C10, C11, C26, C27), [TypedGraphs].

    Engine ([execution/engine/]).  [Routing]: [routing.py].  [Engine]: [snapshot_guard.py],
    [task.py], [planner.py], [admission.py], [settlement.py], [claim_stage.py]; [EngineProofs]
    (C33).  [NextFrontier]: an abstract account of what an advance must supply, and that the
    reducer accepts it; [RoutingProofs]: the resolver supplies it; [AdmittedRuns]: along runs
    of a compiled graph supersteps are levels, so Joins stay aligned; [CompositionProofs]:
    from definition to accepted command (C3).  [DemoGraph]: the graph of many witnesses.
    [Values]: [values.py], [outcome.py], [codec.py].  [RunContext]: [run_context.py];
    [RunContextProofs] (C22).  [Materialization]: [resume_input.py].  [Superstep]:
    [superstep.py], [frontier.py], [claim.py], [request.py], [executor.py], [graph_run.py],
    [result.py].  [Session]: [session.py] and [scheduler.py]; [SessionState], [SessionPool],
    [SessionProofs], [SessionTheorems] (C6 to C9).  [Commit]: [execution/commit.py];
    [CommitProofs] (C16, C17).  [ResumeAdmission]: [resume_admission.py]; [ResumeProofs]
    (C18).  [TypeSafety], [TypeTheorems]: executed histories are typed (C5, C21).

    Durability.  [Commitment]: canonical JSON and SHA-256.  [SessionCodec]: the codec part of
    [session.py].  [Persistence] and [Checkpoint]: [execution/persistence.py]; [Invocation]:
    [execution/invocation.py]; [PersistenceProofs] (C15), [DurableProofs] (C19),
    [RestoreProofs] (C12, C20).  [Recovery]: [engine/recovery.py]; [RecoveryProofs] (C14),
    [RecoveryCoverage] (C13).

    Failover ([failover/]).  [Failover]: [contract.py], [plan.py], [policy.py];
    [FailoverGraph]: the retry graph of [assembly.py]; [FailoverProofs] (C35, C36, C37).

    ** What the theorems show

    - _One run_: the validator decides a declarative invariant, and it holds of everything
      the reducer returns; each command has exactly the stated guards and effect; over whole
      histories the ledger is append-only, supersteps are causally linked, Join arrivals are
      conserved, fenced tokens and answered interrupts never return.
    - _The compiler_: it returns or rejects, in bounded time; what it accepts has available
      inputs and outputs, agreeing Join coordinates, no colliding activations, and exactly the
      completion routes of an explicit transition system; memoization is invisible.
    - _The engine_: what it derives, the reducer accepts; sessions refine sequential
      settlement under every interleaving and never get stuck; along executed histories no
      node misses a value or gets one of a wrong class.
    - _Durability_: the frame index mirrors the ledger; evidence binds its record; frames,
      resumes and checkpoints come back; the recovery proof ends and explores every branch.
    - _Failover_: calls end, are accounted for and are routed by the table.

    ** Conventions

    A Python [str] is the list of its code points, [int] is [Z] (unbounded in the source
    too), [bytes] a list of bytes.  An exception is its class and its literal message; the
    identifiers an f-string interpolates are left out of the text.  Dicts whose order shows
    are association lists in insertion order, others [gmap]; a set the code iterates over is
    visited in sorted order, and no theorem depends on that order except where the code sorts.
    [isinstance] and seal checks that the types of the model enforce are omitted.

    Parameters, each an argument of the definitions that use it: the classes and values of
    ports ([type_of], [value_type]), Config and Session payloads, the user's codec functions,
    what a node callable answers, [repr] of a tuple and of a descriptor, the wrapped Port with
    its preparation, and the commit port, of which only the confirmed state is seen.

    Loops that are not structural carry fuel computed from their arguments, and a theorem
    says that it is enough: BDD operations carry three steps per pair of (smaller)
    references; the graph searches one step per edge or node, plus two; repeatable nodes one
    per gate, plus one; guarantees [N * N + 2] and levels [N + 2] passes over [N] nodes; the
    symbolic fixpoint [2 ^ (n + 1)] iterations for [n] frontier bits, of which as many run as
    the source's loop runs; bisection the length of the list; hash blocks the number of
    words; the retry graph the number of wire attempts the plan allows; the recovery search
    [4096 - budget + 1] items, with recursion bounded by nesting (its unbounded loop is also
    stated as a relation, and proved to return).

    ** Conditions worth knowing

    - C3 is about runs whose start and whose new frontiers passed the graph's admission,
      which [prepare_transition] checks of every commit.
    - C5 and C20 allow one failure: Config.  The code admits frames with different historical
      Configs, and combining them in one input raises [SnapshotMismatchError].
    - C15 is exact up to UTF-16: the hashed JSON does not tell a code point beyond the basic
      plane from its two surrogates.
    - C19 compares re-encodings when the decoder added no Session to the values; the source
      does not check that it did not.
    - C38 and the commit theorems: a confirmed state may differ from the reducer's successor
      in the one commitment its command leaves open.

    ** What is not modelled

    [aclose] of a session is one atomic step: the window in which it awaits the tasks it
    cancelled is left out (a call of [next] in that window is refused in the source).  The
    asyncio orchestration of a family of runs ([facade.py], [family_driver.py],
    [cancellation.py]), the adapters around user classes ([node.py], [node_adapter.py],
    [graph_result.py]), Pydantic Config schemas ([config.py], [failover/config.py]) and the
    agent's nodes and sinks ([think], [act], [observe], [loop], [hooks], [events], [logging],
    [observability], [agent.py], and the top-level [persistence.py] and [invocation.py]) are
    outside: they call the modelled operations around user callables and external services. *)

From Stdlib Require Import ZArith NArith Lia Bool String Ascii Sorting.Sorted.
From stdpp Require Import prelude strings gmap sorting.

Set Default Goal Selector "!".

(* ------------------------------------------------------------------ *)
(** ** Exceptions and the result monad *)

(** The exception classes the modelled code raises or catches. *)
Inductive exn_class :=
| AttributeError
| TypeError
| ValueError
| KeyError
| IndexError
| AssertionError
| GraphStateTransitionError
| ResourceTransitionError
| FailoverContractError
| ConfigContractError
| SnapshotMismatchError
| InvalidExecutionSnapshotError
| ExecutionLimitError
| ResultCollectionError
| UnknownRouteError
| InvalidRoutingCommandError
| JoinProgressError
| RoutingDeadlockError
| GraphValidationError
| DuplicateNodeError
| DuplicateBoundaryError
| DuplicateEdgeError
| DuplicateGraphDefinitionError
| RecursiveGraphDefinitionError
| UnknownNodeError
| MissingEntryError
| UnreachableNodeError
| InvalidJoinError
| InvalidGraphIdentityError
| InvalidResourceDefinitionError
| NodeExecutionContractError
| GraphValueAdmissionError
| GraphValueUnavailableError
| GraphValuePublicationError
| FrameInstallationInvariantError
| AgentSessionContractError
| GraphCommitError
| StopAsyncIteration
| CancelledError
| NodeError  (** whatever a node callable raises *)
| Diverged.  (** model only: a loop ran out of fuel *)

(** An exception value: its class and its message. *)
Record exn := Exn { exn_kind : exn_class; exn_message : string }.

#[export] Instance exn_class_eq_dec : EqDecision exn_class.
Proof. solve_decision. Defined.
#[export] Instance exn_eq_dec : EqDecision exn.
Proof. solve_decision. Defined.

(** A computation that returns or raises. *)
Inductive result (A : Type) :=
| Ok (a : A)
| Raise (e : exn).
Arguments Ok {A} a.
Arguments Raise {A} e.

#[export] Instance result_eq_dec {A} `{EqDecision A} : EqDecision (result A).
Proof. solve_decision. Defined.

#[export] Instance result_ret : MRet result := λ A a, Ok a.
#[export] Instance result_bind : MBind result := λ A B f m,
  match m with Ok a => f a | Raise e => Raise e end.

(** [raise_if b k m] is the statement [if b: raise k(m)]. *)
Definition raise_if (b : bool) (k : exn_class) (m : string) : result unit :=
  if b then Raise (Exn k m) else Ok tt.

(** [except p k m body] is [try: body / except <p>: raise k(m) from error]. *)
Definition except {A} (p : exn_class → bool) (k : exn_class) (m : string)
    (body : result A) : result A :=
  match body with
  | Ok a => Ok a
  | Raise e => if p (exn_kind e) then Raise (Exn k m) else Raise e
  end.

(** [except_str p k body] is [except <p> as error: raise k(str(error)) from error]. *)
Definition except_str {A} (p : exn_class → bool) (k : exn_class)
    (body : result A) : result A :=
  match body with
  | Ok a => Ok a
  | Raise e => if p (exn_kind e) then Raise (Exn k (exn_message e)) else Raise e
  end.

(** [try: a = body / except <p> as error: handler(error)], then the rest with [a]. *)
Definition try_or {A B} (p : exn_class → bool) (body : result A) (handler : exn → result B)
    (rest : A → result B) : result B :=
  match body with
  | Ok a => rest a
  | Raise e => if p (exn_kind e) then handler e else Raise e
  end.

(** [except (k1, ..., kn)] for classes without subclasses. *)
Definition one_of (ks : list exn_class) (k : exn_class) : bool := bool_decide (k ∈ ks).

(** [except ValueError] also catches the subclasses the kernel declares. *)
Definition is_value_error (k : exn_class) : bool :=
  match k with
  | ValueError | GraphStateTransitionError | ResourceTransitionError
  | FailoverContractError | ConfigContractError | AgentSessionContractError => true
  | _ => false
  end.

Definition is_type_error (k : exn_class) : bool :=
  match k with TypeError => true | _ => false end.

(** [except (AttributeError, TypeError, ValueError)]. *)
Definition is_admission_error (k : exn_class) : bool :=
  match k with AttributeError | TypeError => true | _ => is_value_error k end.

(** What a loop of the model answers when its fuel is used up. *)
Definition diverged {A} : result A := Raise (Exn Diverged "out of fuel").

(** [for x in xs: body(x)] where the body only raises or falls through. *)
Fixpoint py_for {A} (xs : list A) (body : A → result unit) : result unit :=
  match xs with
  | [] => Ok tt
  | x :: rest => body x;; py_for rest body
  end.

(** A [for] loop that also updates local variables [s]. *)
Fixpoint py_for_state {A S} (xs : list A) (s : S) (body : S → A → result S) : result S :=
  match xs with
  | [] => Ok s
  | x :: rest => s' ← body s x; py_for_state rest s' body
  end.

(** [d[k]] on a dict and [xs[i]] on a list, for a non-negative index. *)
Definition dict_get `{Countable K} {A} (d : gmap K A) (k : K) : result A :=
  match d !! k with Some v => Ok v | None => Raise (Exn KeyError "key") end.
Definition list_get {A} (xs : list A) (i : nat) : result A :=
  match xs !! i with Some v => Ok v | None => Raise (Exn IndexError "list index out of range") end.

(* ------------------------------------------------------------------ *)
(** ** Functional record update, the [dataclasses.replace] of the source *)

Class Eta (R : Type) := eta : R → R.

Class Setter {R T : Type} (proj : R → T) := set_field : (T → T) → R → R.

Ltac derive_setter proj :=
  match type of proj with
  | ?R → ?T =>
      let e := eval unfold eta in (eta : R → R) in
      let e := eval hnf in e in
      let p := eval pattern proj in e in
      match p with
      | ?body proj => exact (λ f : T → T, body (λ r : R, f (proj r)))
      end
  end.

#[export] Hint Extern 1 (Setter ?proj) => (derive_setter proj) : typeclass_instances.

Notation "s <| proj := v |>" := (set_field (proj := proj) (λ _, v) s)
  (at level 1, left associativity, format "s  <| proj  :=  v |>").

(* ------------------------------------------------------------------ *)
(** ** Python's total orders, [sorted] and [set] *)

(** Three-way comparison for the values Python's [<] orders. *)
Class Cmp (A : Type) := cmp : A → A → comparison.

(** The laws of a total order whose [Eq] is equality. *)
Class CmpLaws (A : Type) `{Cmp A} := {
  cmp_eq : ∀ x y : A, cmp x y = Eq ↔ x = y;
  cmp_antisym : ∀ x y : A, cmp y x = CompOpp (cmp x y);
  cmp_trans : ∀ x y z : A, cmp x y = Lt → cmp y z = Lt → cmp x z = Lt
}.

Definition cmp_lt `{Cmp A} (x y : A) : Prop := cmp x y = Lt.
Definition cmp_leb `{Cmp A} (x y : A) : bool :=
  match cmp x y with Gt => false | _ => true end.
Definition cmp_ltb `{Cmp A} (x y : A) : bool :=
  match cmp x y with Lt => true | _ => false end.

#[export] Instance cmp_N : Cmp N := N.compare.
#[export] Instance cmp_Z : Cmp Z := Z.compare.
#[export] Instance cmp_nat : Cmp nat := Nat.compare.
(** [False < True]. *)
#[export] Instance cmp_bool : Cmp bool := λ x y,
  match x, y with
  | false, true => Lt | true, false => Gt | _, _ => Eq
  end.
(** Tuples compare lexicographically. *)
#[export] Instance cmp_prod {A B} `{Cmp A} `{Cmp B} : Cmp (A * B) := λ x y,
  match cmp x.1 y.1 with Eq => cmp x.2 y.2 | c => c end.
(** So do strings and homogeneous tuples, a proper prefix coming first. *)
#[export] Instance cmp_list {A} `{Cmp A} : Cmp (list A) :=
  fix go xs ys := match xs, ys with
  | [], [] => Eq
  | [], _ :: _ => Lt
  | _ :: _, [] => Gt
  | x :: xs', y :: ys' => match cmp x y with Eq => go xs' ys' | c => c end
  end.

(** Comparison through a key. *)
Definition cmp_by {A B} `{Cmp B} (key : A → B) : Cmp A := λ x y, cmp (key x) (key y).

(** Stable insertion sort: [sorted(xs)] under the order [le]. *)
Fixpoint insert_by {A} (le : A → A → bool) (x : A) (xs : list A) : list A :=
  match xs with
  | [] => [x]
  | y :: rest => if le x y then x :: y :: rest else y :: insert_by le x rest
  end.
Definition sort_by {A} (le : A → A → bool) (xs : list A) : list A :=
  foldr (insert_by le) [] xs.

(** [sorted(xs)] *)
Definition sorted `{Cmp A} (xs : list A) : list A := sort_by cmp_leb xs.
(** [sorted(xs, key=key)] *)
Definition sorted_key {A B} `{Cmp B} (key : A → B) (xs : list A) : list A :=
  sort_by (λ x y, cmp_leb (key x) (key y)) xs.
(** [tuple(sorted(set(xs)))] and its keyed form.  The iteration order of a
    Python [set] does not show: the keys used are injective. *)
Definition sorted_set `{Cmp A} `{EqDecision A} (xs : list A) : list A :=
  sorted (remove_dups xs).
Definition sorted_set_key {A B} `{Cmp B} `{EqDecision A} (key : A → B) (xs : list A) : list A :=
  sorted_key key (remove_dups xs).

(** [len(xs) == len(set(xs))] *)
Definition no_repeats `{EqDecision A} (xs : list A) : bool :=
  Nat.eqb (length xs) (length (remove_dups xs)).
(** [x in xs] *)
Definition mem `{EqDecision A} (x : A) (xs : list A) : bool := bool_decide (x ∈ xs).
(** [set(xs) <= set(ys)], [set(xs) == set(ys)], [set(xs) < set(ys)] *)
Definition subset_of `{EqDecision A} (xs ys : list A) : bool := forallb (λ x, mem x ys) xs.
Definition same_set `{EqDecision A} (xs ys : list A) : bool := subset_of xs ys && subset_of ys xs.
Definition strict_subset_of `{EqDecision A} (xs ys : list A) : bool :=
  subset_of xs ys && negb (subset_of ys xs).
(** [not xs] for a tuple *)
Definition is_nil {A} (xs : list A) : bool := match xs with [] => true | _ => false end.
(** [d.get(key)] on a dict kept as an association list *)
Fixpoint assoc {A B} `{EqDecision A} (k : A) (d : list (A * B)) : option B :=
  match d with
  | [] => None
  | (k', v) :: rest => if decide (k = k') then Some v else assoc k rest
  end.

(** [d[k] = v] on a dict kept as an association list: a present key keeps its place. *)
Fixpoint dict_set {A B} `{EqDecision A} (k : A) (v : B) (d : list (A * B)) : list (A * B) :=
  match d with
  | [] => [(k, v)]
  | (k', v') :: rest => if decide (k = k') then (k', v) :: rest else (k', v') :: dict_set k v rest
  end.
(** [d[k]] on such a dict. *)
Definition assoc_get {A C} `{EqDecision A} (d : list (A * C)) (k : A) : result C :=
  match assoc k d with Some v => Ok v | None => Raise (Exn KeyError "key") end.
(** [d.setdefault(k, []).append(v)] *)
Definition dict_append {A B} `{EqDecision A} (k : A) (v : B) (d : list (A * list B))
    : list (A * list B) :=
  dict_set k (default [] (assoc k d) ++ [v]) d.

(* ------------------------------------------------------------------ *)
(** ** Lemmas: the result monad *)

Lemma bind_Ok {A B} (m : result A) (f : A → result B) b :
  m ≫= f = Ok b ↔ ∃ a, m = Ok a ∧ f a = Ok b.
Proof. destruct m; cbn; naive_solver. Qed.

Lemma bind_ext {A B} (m : result A) (f g : A → result B) : (∀ a, f a = g a) → m ≫= f = m ≫= g.
Proof. destruct m; cbn; auto. Qed.

Lemma raise_if_Ok b k m u : raise_if b k m = Ok u ↔ b = false.
Proof. destruct b, u; naive_solver. Qed.

Lemma except_Ok {A} p k m (body : result A) a : except p k m body = Ok a ↔ body = Ok a.
Proof. destruct body; cbn; [naive_solver|]. case_match; naive_solver. Qed.

Lemma except_str_Ok {A} p k (body : result A) a : except_str p k body = Ok a ↔ body = Ok a.
Proof. destruct body; cbn; [naive_solver|]. case_match; naive_solver. Qed.

(** Sequencing checks, in the direction that builds a success. *)
Lemma seq_Ok {B} (m : result unit) (k : result B) b :
  m = Ok tt → k = Ok b → (m ≫= λ _, k) = Ok b.
Proof. by intros -> ->. Qed.

Lemma seq_Ok_iff {B} (m : result unit) (k : result B) b :
  (m ≫= λ _, k) = Ok b ↔ m = Ok tt ∧ k = Ok b.
Proof. destruct m as [[]|]; cbn; naive_solver. Qed.

Lemma raise_if_pass b k m : b = false → raise_if b k m = Ok tt.
Proof. by intros ->. Qed.

Lemma py_for_Ok {A} (xs : list A) body :
  py_for xs body = Ok tt ↔ ∀ x, x ∈ xs → body x = Ok tt.
Proof.
  induction xs as [|x xs IH].
  - split; [intros _ y Hy; by apply elem_of_nil in Hy | done].
  - change (py_for (x :: xs) body) with (body x ≫= λ _, py_for xs body).
    rewrite bind_Ok. split.
    + intros ([] & Hx & Hxs) y [->|Hy]%elem_of_cons; [done|]. by apply IH.
    + intros Hall. exists tt. split; [apply Hall; by left|].
      apply IH. intros y Hy. apply Hall. by right.
Qed.

(** Invariant of a loop, stated over the prefix already processed. *)
Lemma py_for_state_prefix {A S} (P : list A → S → Prop) body :
  (∀ dn x st st', P dn st → body st x = Ok st' → P (dn ++ [x]) st') →
  ∀ xs st st', P [] st → py_for_state xs st body = Ok st' → P xs st'.
Proof.
  intros Hstep.
  assert (∀ xs dn st st', P dn st → py_for_state xs st body = Ok st' → P (dn ++ xs) st') as H.
  { induction xs as [|x xs IH]; intros dn st st' HP.
    - intros [= <-]. by rewrite app_nil_r.
    - intros (st1 & Hx & Hrest)%bind_Ok. rewrite cons_middle, app_assoc. eauto. }
  intros xs st st'. apply (H xs []).
Qed.

(** The same rule for total correctness: every iteration succeeds and keeps [P]. *)
Lemma py_for_state_total {A S} (P : list A → S → Prop) body xs :
  (∀ dn x st, x ∈ xs → P dn st → ∃ st', body st x = Ok st' ∧ P (dn ++ [x]) st') →
  ∀ st, P [] st → ∃ st', py_for_state xs st body = Ok st' ∧ P xs st'.
Proof.
  intros Hstep.
  assert (∀ ys dn st, ys ⊆ xs → P dn st →
    ∃ st', py_for_state ys st body = Ok st' ∧ P (dn ++ ys) st') as H.
  { induction ys as [|y ys IH]; intros dn st Hsub HP.
    - exists st. by rewrite app_nil_r.
    - destruct (Hstep dn y st) as (st1 & H1 & HP1); [apply Hsub; by left|done|].
      destruct (IH (dn ++ [y]) st1) as (st2 & H2 & HP2); [intros z Hz; apply Hsub; by right|done|].
      exists st2. cbn. rewrite H1. split; [done|]. by rewrite <-app_assoc in HP2. }
  intros st HP. by apply (H xs [] st).
Qed.

Lemma list_get_Ok {A} (xs : list A) i v : list_get xs i = Ok v ↔ xs !! i = Some v.
Proof. unfold list_get. destruct (xs !! i); naive_solver. Qed.

Lemma dict_get_Ok `{Countable K} {A} (d : gmap K A) k v : dict_get d k = Ok v ↔ d !! k = Some v.
Proof. unfold dict_get. destruct (d !! k); naive_solver. Qed.

(** Turn hypotheses [... = Ok _] about monadic code into their parts. *)
Ltac inv_ok_step :=
  match goal with
  | H : _ ≫= _ = Ok _ |- _ => apply bind_Ok in H as (? & ? & H)
  | H : mbind _ _ = Ok _ |- _ => apply bind_Ok in H as (? & ? & H)
  | H : raise_if _ _ _ = Ok _ |- _ => apply raise_if_Ok in H
  | H : except _ _ _ _ = Ok _ |- _ => apply except_Ok in H
  | H : except_str _ _ _ = Ok _ |- _ => apply except_str_Ok in H
  | H : Ok _ = Ok _ |- _ => injection H as H
  | H : Raise _ = Ok _ |- _ => discriminate H
  | H : Ok _ = Raise _ |- _ => discriminate H
  | H : mret _ = Ok _ |- _ => injection H as H
  end.
Ltac inv_ok := repeat inv_ok_step.

(* ------------------------------------------------------------------ *)
(** ** Lemmas: orders *)

Section cmp_facts.
Context `{Cmp A} `{!CmpLaws A}.

Lemma cmp_refl (x : A) : cmp x x = Eq.
Proof. by apply cmp_eq. Qed.

Lemma cmp_lt_irrefl (x : A) : ¬ cmp_lt x x.
Proof. unfold cmp_lt. by rewrite cmp_refl. Qed.

#[export] Instance cmp_lt_trans : Transitive (@cmp_lt A _).
Proof. intros x y z. apply cmp_trans. Qed.

Lemma cmp_gt_lt (x y : A) : cmp x y = Gt → cmp_lt y x.
Proof. unfold cmp_lt. rewrite (cmp_antisym x y). by intros ->. Qed.

Lemma cmp_lt_asym (x y : A) : cmp_lt x y → ¬ cmp_lt y x.
Proof. unfold cmp_lt. rewrite (cmp_antisym x y). by intros ->. Qed.

Lemma cmp_leb_spec (x y : A) : cmp_leb x y = true ↔ cmp_lt x y ∨ x = y.
Proof.
  unfold cmp_leb, cmp_lt. pose proof (cmp_eq x y).
  destruct (cmp x y) eqn:E; naive_solver.
Qed.

Lemma cmp_leb_gt (x y : A) : cmp_leb x y = false ↔ cmp_lt y x.
Proof.
  unfold cmp_leb, cmp_lt. rewrite (cmp_antisym x y). destruct (cmp x y); naive_solver.
Qed.

Lemma cmp_ltb_spec (x y : A) : cmp_ltb x y = true ↔ cmp_lt x y.
Proof. unfold cmp_ltb, cmp_lt. destruct (cmp x y); naive_solver. Qed.
End cmp_facts.

#[export] Instance cmp_N_laws : CmpLaws N.
Proof.
  split; unfold cmp, cmp_N.
  - apply N.compare_eq_iff.
  - intros. apply N.compare_antisym.
  - intros x y z. rewrite !N.compare_lt_iff. lia.
Qed.

#[export] Instance cmp_Z_laws : CmpLaws Z.
Proof.
  split; unfold cmp, cmp_Z.
  - apply Z.compare_eq_iff.
  - intros. apply Z.compare_antisym.
  - intros x y z. rewrite !Z.compare_lt_iff. lia.
Qed.

#[export] Instance cmp_nat_laws : CmpLaws nat.
Proof.
  split; unfold cmp, cmp_nat.
  - apply Nat.compare_eq_iff.
  - intros. apply Nat.compare_antisym.
  - intros x y z. rewrite !Nat.compare_lt_iff. lia.
Qed.

#[export] Instance cmp_bool_laws : CmpLaws bool.
Proof. split; intros; repeat match goal with x : bool |- _ => destruct x end; cbn in *; naive_solver. Qed.

#[export] Instance cmp_prod_laws {A B} `{CmpLaws A} `{CmpLaws B} : CmpLaws (A * B).
Proof.
  split; unfold cmp, cmp_prod.
  - intros [a b] [a' b']; cbn. pose proof (cmp_eq a a'). pose proof (cmp_eq b b').
    destruct (cmp a a'); naive_solver.
  - intros [a b] [a' b']; cbn. rewrite (cmp_antisym a a'), (cmp_antisym b b').
    by destruct (cmp a a').
  - intros [a b] [a' b'] [a'' b'']; cbn.
    destruct (cmp a a') eqn:E1; [|intros _|done].
    + apply cmp_eq in E1 as ->. destruct (cmp a' a''); [|done..]. apply cmp_trans.
    + destruct (cmp a' a'') eqn:E2; [|intros _|done].
      * apply cmp_eq in E2 as <-. by rewrite E1.
      * by rewrite (cmp_trans _ _ _ E1 E2).
Qed.

#[export] Instance cmp_list_laws {A} `{CmpLaws A} : CmpLaws (list A).
Proof.
  split.
  - intros xs; induction xs as [|x xs IH]; intros [|y ys]; cbn; [done..|].
    pose proof (cmp_eq x y). specialize (IH ys).
    destruct (cmp x y); naive_solver.
  - intros xs; induction xs as [|x xs IH]; intros [|y ys]; cbn; [done..|].
    rewrite (cmp_antisym x y). destruct (cmp x y); cbn; [apply IH|done..].
  - intros xs; induction xs as [|x xs IH]; intros [|y ys] [|z zs]; cbn; try done.
    destruct (cmp x y) eqn:E1; [|intros _|done].
    + apply cmp_eq in E1 as ->. destruct (cmp y z); [|done..]. apply IH.
    + destruct (cmp y z) eqn:E2; [|intros _|done].
      * apply cmp_eq in E2 as <-. by rewrite E1.
      * by rewrite (cmp_trans _ _ _ E1 E2).
Qed.

(** An injective key carries the order laws over. *)
Lemma cmp_by_laws {A B} `{CmpLaws B} (key : A → B) `{!Inj (=) (=) key} :
  @CmpLaws A (cmp_by key).
Proof.
  split; unfold cmp, cmp_by.
  - intros x y. rewrite cmp_eq. split; [apply (inj key)|by intros ->].
  - intros. apply cmp_antisym.
  - intros x y z. apply cmp_trans.
Qed.

(* ------------------------------------------------------------------ *)
(** ** Lemmas: sorting and sets *)

Lemma insert_by_perm {A} (le : A → A → bool) x xs : insert_by le x xs ≡ₚ x :: xs.
Proof.
  induction xs as [|y xs IH]; cbn; [done|]. destruct (le x y); [done|].
  rewrite IH. by constructor.
Qed.

Lemma sort_by_perm {A} (le : A → A → bool) xs : sort_by le xs ≡ₚ xs.
Proof.
  induction xs as [|x xs IH]; cbn; [done|]. by rewrite insert_by_perm, IH.
Qed.

Section sorting_facts.
Context {A B : Type} `{CmpLaws B} (key : A → B).

(** Strictly increasing keys: the canonical form the kernel demands. *)
Definition strictly_sorted (xs : list A) : Prop :=
  StronglySorted (λ x y, cmp_lt (key x) (key y)) xs.

Lemma insert_by_front x xs :
  Forall (λ y, cmp_lt (key x) (key y)) xs →
  insert_by (λ x y, cmp_leb (key x) (key y)) x xs = x :: xs.
Proof.
  destruct 1 as [|y xs Hy _]; cbn; [done|].
  assert (cmp_leb (key x) (key y) = true) as ->; [apply cmp_leb_spec; by left|done].
Qed.

Lemma sorted_key_id xs : strictly_sorted xs → sorted_key key xs = xs.
Proof.
  unfold sorted_key, sort_by. induction 1 as [|x xs Hs IH Hx]; cbn; [done|].
  rewrite IH. by apply insert_by_front.
Qed.

Definition weakly_sorted (xs : list A) : Prop :=
  StronglySorted (λ x y, cmp_leb (key x) (key y) = true) xs.

Lemma cmp_leb_trans (x y z : B) :
  cmp_leb x y = true → cmp_leb y z = true → cmp_leb x z = true.
Proof.
  rewrite !cmp_leb_spec. intros [Hxy| ->]; [|done]. intros [Hyz| <-]; left; [|done].
  by etrans.
Qed.

Lemma insert_by_weak x xs :
  weakly_sorted xs → weakly_sorted (insert_by (λ x y, cmp_leb (key x) (key y)) x xs).
Proof.
  induction 1 as [|y xs Hs IH Hy]; cbn.
  - repeat constructor.
  - destruct (cmp_leb (key x) (key y)) eqn:E.
    + constructor; [by constructor|]. constructor; [done|].
      eapply Forall_impl; [apply Hy|]. intros z Hz. by eapply cmp_leb_trans.
    + constructor; [done|]. rewrite insert_by_perm. constructor; [|done].
      apply cmp_leb_gt in E. apply cmp_leb_spec. by left.
Qed.

Lemma sorted_key_weak xs : weakly_sorted (sorted_key key xs).
Proof.
  unfold sorted_key, sort_by. induction xs as [|x xs IH]; cbn; [constructor|].
  by apply insert_by_weak.
Qed.

Lemma sorted_key_id_iff xs : sorted_key key xs = xs ↔ weakly_sorted xs.
Proof.
  split; [intros <-; apply sorted_key_weak|].
  unfold sorted_key, sort_by. induction 1 as [|x xs Hs IH Hx]; cbn; [done|].
  rewrite IH. destruct Hx as [|y xs Hy _]; cbn; [done|]. by rewrite Hy.
Qed.

Lemma strictly_sorted_weak xs : strictly_sorted xs → weakly_sorted xs.
Proof.
  induction 1 as [|x xs Hs IH Hx]; constructor; [done|].
  eapply Forall_impl; [apply Hx|]. intros y Hy. apply cmp_leb_spec. by left.
Qed.

Lemma strictly_sorted_NoDup_key xs : strictly_sorted xs → NoDup (key <$> xs).
Proof.
  induction 1 as [|x xs Hs IH Hx]; cbn; constructor; [|done].
  rewrite list_elem_of_fmap. intros (y & Hk & Hy).
  rewrite Forall_forall in Hx. specialize (Hx y Hy). rewrite Hk in Hx.
  by eapply cmp_lt_irrefl.
Qed.

Lemma strictly_sorted_NoDup xs : strictly_sorted xs → NoDup xs.
Proof. intros Hs. by eapply NoDup_fmap_1, strictly_sorted_NoDup_key. Qed.

Lemma weakly_sorted_strict xs :
  weakly_sorted xs → NoDup (key <$> xs) → strictly_sorted xs.
Proof.
  induction 1 as [|x xs Hs IH Hx]; cbn; intros Hnd; constructor.
  - apply IH. by inversion Hnd.
  - apply NoDup_cons in Hnd as [Hnin _]. rewrite Forall_forall in Hx |- *.
    intros y Hy. specialize (Hx y Hy). apply cmp_leb_spec in Hx as [?|Hk]; [done|].
    destruct Hnin. rewrite Hk. by apply list_elem_of_fmap_2.
Qed.

Lemma strictly_sorted_filter (P : A → Prop) `{!∀ x, Decision (P x)} xs :
  strictly_sorted xs → strictly_sorted (filter P xs).
Proof.
  induction 1 as [|x xs Hs IH Hx]; [constructor|].
  rewrite filter_cons. case_decide; [|done]. constructor; [done|].
  rewrite Forall_forall in Hx |- *. intros y Hy. apply Hx.
  by apply list_elem_of_filter in Hy as [_ ?].
Qed.
End sorting_facts.

Lemma remove_dups_id `{EqDecision A} (xs : list A) : NoDup xs → remove_dups xs = xs.
Proof.
  induction 1 as [|x xs Hx Hnd IH]; cbn; [done|].
  case_decide; [done|]. by rewrite IH.
Qed.

Lemma remove_dups_length `{EqDecision A} (xs : list A) : length (remove_dups xs) ≤ length xs.
Proof. induction xs as [|x xs IH]; cbn; [done|]. case_decide; cbn; lia. Qed.

Lemma no_repeats_spec `{EqDecision A} (xs : list A) : no_repeats xs = true ↔ NoDup xs.
Proof.
  unfold no_repeats. rewrite Nat.eqb_eq. split.
  - induction xs as [|x xs IH]; cbn; [intros; constructor|].
    pose proof (remove_dups_length xs). case_decide; cbn; [lia|].
    intros. constructor; [done|]. apply IH. lia.
  - intros. by rewrite remove_dups_id.
Qed.

(** [xs == tuple(sorted(set(xs), key=key))] says exactly that the keys are
    strictly increasing, when the key is injective. *)
Lemma sorted_set_key_canonical {A B} `{CmpLaws B} `{EqDecision A} (key : A → B)
    `{!Inj (=) (=) key} (xs : list A) :
  xs = sorted_set_key key xs ↔ strictly_sorted key xs.
Proof.
  unfold sorted_set_key. split.
  - intros Heq.
    assert (NoDup xs) as Hnd.
    { rewrite Heq. eapply (NoDup_Permutation_proper _ _ (sort_by_perm _ _)), NoDup_remove_dups. }
    rewrite remove_dups_id in Heq by done.
    apply weakly_sorted_strict; [|by apply NoDup_fmap].
    rewrite Heq. apply sorted_key_weak.
  - intros Hs. rewrite remove_dups_id by (by eapply strictly_sorted_NoDup).
    by rewrite sorted_key_id.
Qed.

#[export] Instance id_inj_eq {A} : Inj (=) (=) (λ x : A, x).
Proof. by intros x y. Qed.

Lemma sorted_set_canonical `{CmpLaws A} `{EqDecision A} (xs : list A) :
  xs = sorted_set xs ↔ strictly_sorted (λ x, x) xs.
Proof. apply (sorted_set_key_canonical (λ x, x)). Qed.

Lemma mem_spec `{EqDecision A} (x : A) xs : mem x xs = true ↔ x ∈ xs.
Proof. apply bool_decide_eq_true. Qed.
Lemma mem_false `{EqDecision A} (x : A) xs : mem x xs = false ↔ x ∉ xs.
Proof. apply bool_decide_eq_false. Qed.

Lemma subset_of_spec `{EqDecision A} (xs ys : list A) : subset_of xs ys = true ↔ xs ⊆ ys.
Proof.
  unfold subset_of. rewrite forallb_forall. setoid_rewrite <-list_elem_of_In.
  by setoid_rewrite mem_spec.
Qed.

Lemma same_set_spec `{EqDecision A} (xs ys : list A) :
  same_set xs ys = true ↔ ∀ x, x ∈ xs ↔ x ∈ ys.
Proof.
  unfold same_set. rewrite andb_true_iff, !subset_of_spec.
  unfold subseteq, list_subseteq. naive_solver.
Qed.

Lemma strict_subset_of_spec `{EqDecision A} (xs ys : list A) :
  strict_subset_of xs ys = true ↔ xs ⊆ ys ∧ ¬ ys ⊆ xs.
Proof.
  unfold strict_subset_of. rewrite andb_true_iff, negb_true_iff, subset_of_spec.
  rewrite <-not_true_iff_false, subset_of_spec. done.
Qed.

Lemma is_nil_spec {A} (xs : list A) : is_nil xs = true ↔ xs = [].
Proof. destruct xs; naive_solver. Qed.
Lemma is_nil_false {A} (xs : list A) : is_nil xs = false ↔ xs ≠ [].
Proof. destruct xs; naive_solver. Qed.

Lemma List_filter_elem {A} (p : A → bool) xs x : x ∈ List.filter p xs ↔ p x = true ∧ x ∈ xs.
Proof. rewrite list_elem_of_In, filter_In, <-list_elem_of_In. tauto. Qed.

Lemma existsb_false_iff {A} (f : A → bool) xs :
  existsb f xs = false ↔ ∀ x, x ∈ xs → f x = false.
Proof.
  rewrite <-not_true_iff_false, existsb_exists. setoid_rewrite <-list_elem_of_In.
  setoid_rewrite <-not_true_iff_false. naive_solver.
Qed.

Lemma existsb_true_iff {A} (f : A → bool) xs :
  existsb f xs = true ↔ ∃ x, x ∈ xs ∧ f x = true.
Proof. rewrite existsb_exists. by setoid_rewrite <-list_elem_of_In. Qed.

Lemma mapM_Ok_fmap {A B} (f : A → result B) (g : A → B) (P : A → Prop) :
  (∀ x y, f x = Ok y ↔ y = g x ∧ P x) →
  ∀ xs ys, mapM f xs = Ok ys ↔ ys = g <$> xs ∧ Forall P xs.
Proof.
  intros Hf. induction xs as [|x xs IH]; intros ys; cbn.
  - split; [intros [= <-]; done|]. by intros [-> _].
  - rewrite bind_Ok. split.
    + intros (y & Hy & H). apply Hf in Hy as [-> Hx]. inv_ok. subst.
      match goal with H : mapM _ _ = _ |- _ => apply IH in H as [-> ?] end.
      split; [done|by constructor].
    + intros [-> Hall]. inversion_clear Hall. exists (g x). split; [by apply Hf|].
      by rewrite (proj2 (IH (g <$> xs))).
Qed.

(* ------------------------------------------------------------------ *)
(** ** Automation: the [checks] database

    [autorewrite with checks] turns an equation "this check passes" into the
    proposition the check decides. *)
#[export] Hint Rewrite @seq_Ok_iff @raise_if_Ok @except_Ok @except_str_Ok
  orb_false_iff negb_false_iff @bool_decide_eq_true @bool_decide_eq_false
  Z.ltb_ge Z.leb_gt Z.eqb_eq Nat.ltb_ge Nat.eqb_eq @is_nil_false
  @no_repeats_spec @mem_spec @subset_of_spec @same_set_spec @strict_subset_of_spec : checks.

Ltac checks := autorewrite with checks.
Tactic Notation "checks" "in" hyp(H) := autorewrite with checks in H.

Lemma mapM_Forall2 {A B} (f : A → result B) xs ys :
  mapM f xs = Ok ys → Forall2 (λ x y, f x = Ok y) xs ys.
Proof.
  revert ys. induction xs as [|x xs IH]; intros ys; cbn; [by intros [= <-]|].
  intros (y & Hy & (ys' & Hys & [= <-])%bind_Ok)%bind_Ok. constructor; auto.
Qed.

Lemma mapM_Ok_id {A} (f : A → result A) (P : A → Prop) :
  (∀ x y, f x = Ok y ↔ y = x ∧ P x) →
  ∀ xs ys, mapM f xs = Ok ys ↔ ys = xs ∧ Forall P xs.
Proof.
  intros Hf xs ys. rewrite (mapM_Ok_fmap f (λ x, x) P) by done. by rewrite list_fmap_id.
Qed.

(* ------------------------------------------------------------------ *)
(** ** Lemmas: dicts kept as association lists *)

Section dict_facts.
Context {A B : Type} `{EqDecision A}.
Implicit Types (d : list (A * B)).

Lemma assoc_Some_elem k d v : assoc k d = Some v → (k, v) ∈ d.
Proof.
  induction d as [|[k' v'] d IH]; cbn; [done|]. case_decide as E.
  - intros [= <-]. subst. by left.
  - intros ?%IH. by right.
Qed.

Lemma assoc_elem k d v : NoDup (fst <$> d) → (k, v) ∈ d → assoc k d = Some v.
Proof.
  induction d as [|[k' v'] d IH]; cbn; [by intros _ ?%elem_of_nil|].
  intros [Hk Hnd]%NoDup_cons [[= <- <-]|Hin]%elem_of_cons; [by rewrite decide_True|].
  case_decide as E; [|auto]. subst. destruct Hk. by apply (list_elem_of_fmap_2 fst _ (k', v)).
Qed.

Lemma assoc_None k d : assoc k d = None ↔ k ∉ fst <$> d.
Proof.
  induction d as [|[k' v'] d IH]; cbn.
  - split; [intros _ ?%elem_of_nil; done|done].
  - rewrite not_elem_of_cons. case_decide as E; [naive_solver|]. rewrite IH. naive_solver.
Qed.

Lemma assoc_dict_set k k' v d :
  assoc k (dict_set k' v d) = if decide (k = k') then Some v else assoc k d.
Proof.
  induction d as [|[k'' v''] d IH]; cbn; [by case_decide|].
  destruct (decide (k' = k'')) as [<-|Hne]; cbn.
  - by repeat case_decide.
  - rewrite IH. repeat case_decide; congruence.
Qed.

Lemma dict_set_keys k k' v d : k ∈ fst <$> dict_set k' v d ↔ k = k' ∨ k ∈ fst <$> d.
Proof.
  induction d as [|[k'' v''] d IH]; cbn.
  - rewrite list_elem_of_singleton, elem_of_nil. naive_solver.
  - case_decide as E; cbn; rewrite !elem_of_cons; [naive_solver|]. rewrite IH. naive_solver.
Qed.

Lemma dict_set_NoDup k v d : NoDup (fst <$> d) → NoDup (fst <$> dict_set k v d).
Proof.
  induction d as [|[k' v'] d IH]; cbn; [intros; apply NoDup_singleton|].
  intros [Hk Hnd]%NoDup_cons. case_decide as E; cbn; apply NoDup_cons; split; auto.
  rewrite dict_set_keys. naive_solver.
Qed.

(** [{key(x): val(x) for x in xs}] over distinct keys. *)
Lemma assoc_comprehension {X} (key : X → A) (val : X → B) (xs : list X) k v :
  NoDup (key <$> xs) →
  assoc k (fold_left (λ acc x, dict_set (key x) (val x) acc) xs []) = Some v
  ↔ ∃ x, x ∈ xs ∧ key x = k ∧ val x = v.
Proof.
  intros Hnd.
  assert (∀ d, (∀ x, x ∈ xs → key x ∉ fst <$> d) →
    assoc k (fold_left (λ acc x, dict_set (key x) (val x) acc) xs d) = Some v
    ↔ assoc k d = Some v ∨ ∃ x, x ∈ xs ∧ key x = k ∧ val x = v) as Hgo.
  { induction xs as [|x xs IH]; intros d Hd; cbn.
    - split; [by left|]. intros [?|(x & Hx & _)]; [done|]. by apply elem_of_nil in Hx.
    - apply NoDup_cons in Hnd as [Hx Hnd]. rewrite IH; [|done|].
      + rewrite assoc_dict_set. setoid_rewrite elem_of_cons. case_decide as E.
        * assert (assoc k d = None) as ->; [|naive_solver].
          rewrite E. apply assoc_None, Hd. by left.
        * naive_solver.
      + intros y Hy. rewrite dict_set_keys. intros [Heq|Hin].
        * destruct Hx. rewrite <-Heq. by apply list_elem_of_fmap_2.
        * apply (Hd y); [by right|done]. }
  rewrite Hgo; [|intros x _ ?%elem_of_nil; done]. cbn. naive_solver.
Qed.
End dict_facts.

Lemma assoc_dict_append {A B} `{EqDecision A} k k' (v : B) (d : list (A * list B)) :
  assoc k (dict_append k' v d)
  = if decide (k = k') then Some (default [] (assoc k d) ++ [v]) else assoc k d.
Proof. unfold dict_append. rewrite assoc_dict_set. by case_decide; subst. Qed.
