(* ===== verification/Identity.v ===== *)
(** * Identities: [state/graph_state/identity.py]

    Stable scalar identities, activation coordinates, Join identities and the
    length-prefixed projections that turn coordinates into run and interrupt
    ids.  A Python [str] is the list of its code points, so lengths, ordering
    and whitespace are those of the language. *)

From Stdlib Require Import ZArith NArith Lia ZifyBool ZifyN Bool String Ascii.
From Stdlib Require Import DecimalFacts DecimalN DecimalZ.
From stdpp Require Import prelude strings gmap sorting.
From S2P Require Import Prelude.

Set Default Goal Selector "!".

(* ------------------------------------------------------------------ *)
(** ** Python strings *)

(** A Python [str]: its Unicode code points. *)
Abbreviation str := (list N).

(** Source literals. *)
Fixpoint lit (s : string) : str :=
  match s with
  | EmptyString => []
  | String c rest => N_of_ascii c :: lit rest
  end.

(** [str.isspace] on one code point (what [str.strip()] removes). *)
Definition is_space (c : N) : bool :=
  ((9 <=? c) && (c <=? 13) || (28 <=? c) && (c <=? 32) || (c =? 133) || (c =? 160)
   || (c =? 5760) || (8192 <=? c) && (c <=? 8202) || (c =? 8232) || (c =? 8233)
   || (c =? 8239) || (c =? 8287) || (c =? 12288))%N.

Fixpoint lstrip (s : str) : str :=
  match s with
  | [] => []
  | c :: rest => if is_space c then lstrip rest else s
  end.
(** [value.strip()] *)
Definition strip (s : str) : str := reverse (lstrip (reverse (lstrip s))).

Definition newline : N := 10%N.
Definition carriage_return : N := 13%N.
Definition colon : N := 58%N.

(** The decimal digits of a number, [str(n)] for [n >= 0]. *)
Fixpoint uint_digits (u : Decimal.uint) : str :=
  match u with
  | Decimal.Nil => []
  | Decimal.D0 u => 48%N :: uint_digits u
  | Decimal.D1 u => 49%N :: uint_digits u
  | Decimal.D2 u => 50%N :: uint_digits u
  | Decimal.D3 u => 51%N :: uint_digits u
  | Decimal.D4 u => 52%N :: uint_digits u
  | Decimal.D5 u => 53%N :: uint_digits u
  | Decimal.D6 u => 54%N :: uint_digits u
  | Decimal.D7 u => 55%N :: uint_digits u
  | Decimal.D8 u => 56%N :: uint_digits u
  | Decimal.D9 u => 57%N :: uint_digits u
  end.
(** [str(value)] for an [int]. *)
Definition str_int (z : Z) : str :=
  match Z.to_int z with
  | Decimal.Pos u => uint_digits u
  | Decimal.Neg u => 45%N :: uint_digits u
  end.
(** [str(len(value))] *)
Definition str_len (s : str) : str := uint_digits (N.to_uint (N.of_nat (length s))).

(* ------------------------------------------------------------------ *)
(** ** Canonical identities *)

Definition is_canonical_identity (value : str) : bool :=
  negb (is_nil value) && bool_decide (value = strip value)
  && negb (mem newline value) && negb (mem carriage_return value).

(** The durable identity of one node activation in one graph run. *)
Record GraphActivationIdentity := mkActivation {
  act_run_id : str;
  act_superstep : Z;
  act_node_id : str
}.

(** A durable reference to a settled source activation and its route. *)
Record ActivationReference := mkReference {
  ref_activation : GraphActivationIdentity;
  ref_route : option str
}.

(** The canonical identity of one declared control Join. *)
Record GraphJoinIdentity := mkJoin {
  join_sources : list str;
  join_target : str
}.

(** One Join definition at one compiler-projected target coordinate. *)
Record GraphJoinOccurrenceIdentity := mkOccurrence {
  occ_join : GraphJoinIdentity;
  occ_run_id : str;
  occ_target_superstep : Z
}.

#[export] Instance activation_eq_dec : EqDecision GraphActivationIdentity.
Proof. solve_decision. Defined.
#[export] Instance reference_eq_dec : EqDecision ActivationReference.
Proof. solve_decision. Defined.
#[export] Instance join_eq_dec : EqDecision GraphJoinIdentity.
Proof. solve_decision. Defined.
#[export] Instance occurrence_eq_dec : EqDecision GraphJoinOccurrenceIdentity.
Proof. solve_decision. Defined.

(** The checked constructors ([__post_init__] of each dataclass). *)
Definition GraphActivationIdentity_new (run_id : str) (superstep : Z) (node_id : str)
    : result GraphActivationIdentity :=
  raise_if (negb (is_canonical_identity run_id)) ValueError
    "graph activation run_id must be canonical";;
  raise_if (superstep <? 0)%Z ValueError
    "graph activation superstep must be a non-negative integer";;
  raise_if (negb (is_canonical_identity node_id)) ValueError
    "graph activation node_id must be canonical";;
  Ok (mkActivation run_id superstep node_id).

Definition ActivationReference_new (activation : GraphActivationIdentity) (route : option str)
    : result ActivationReference :=
  raise_if (match route with Some r => negb (is_canonical_identity r) | None => false end)
    ValueError "activation reference route must be canonical";;
  Ok (mkReference activation route).

(** The one ordering used by every durable reference collection. *)
Definition canonical_key (r : ActivationReference) : str * (Z * (str * (bool * str))) :=
  (act_run_id (ref_activation r),
   (act_superstep (ref_activation r),
    (act_node_id (ref_activation r),
     (bool_decide (is_Some (ref_route r)), default [] (ref_route r))))).

Definition GraphJoinIdentity_new (sources : list str) (target : str) : result GraphJoinIdentity :=
  raise_if ((length sources <? 2)%nat
            || existsb (λ source, negb (is_canonical_identity source)) sources
            || negb (bool_decide (sources = sorted_set sources)))
    ValueError "graph Join sources must be distinct and canonical";;
  raise_if (negb (is_canonical_identity target) || mem target sources)
    ValueError "graph Join target must be canonical and distinct from its sources";;
  Ok (mkJoin sources target).

Definition GraphJoinOccurrenceIdentity_new (join : GraphJoinIdentity) (run_id : str)
    (target_superstep : Z) : result GraphJoinOccurrenceIdentity :=
  raise_if (negb (is_canonical_identity run_id)) ValueError
    "graph Join occurrence run_id must be canonical";;
  raise_if (target_superstep <? 1)%Z ValueError
    "graph Join target superstep must be a positive integer";;
  Ok (mkOccurrence join run_id target_superstep).

(** The dataclass order of Join occurrences: field by field. *)
Definition occurrence_key (o : GraphJoinOccurrenceIdentity) : (list str * str) * (str * Z) :=
  ((join_sources (occ_join o), join_target (occ_join o)),
   (occ_run_id o, occ_target_superstep o)).
#[export] Instance occurrence_cmp : Cmp GraphJoinOccurrenceIdentity := cmp_by occurrence_key.

(* ------------------------------------------------------------------ *)
(** ** Length-prefixed projections *)

Definition identity_field (value : str) : str := str_len value ++ colon :: value.

(** ["".join(_identity_field(value) for value in values)] *)
Definition identity_fields (values : list str) : str := concat (identity_field <$> values).

Definition graph_interrupt_id (run_id : str) (superstep : Z) (node_id : str)
    (execution_generation : Z) : str :=
  identity_fields [lit "mote.graph-node-interrupt.v1"; run_id; str_int superstep; node_id;
                   str_int execution_generation].

Definition child_graph_run_id (parent_run_id : str) (parent_superstep : Z)
    (parent_node_id : str) : str :=
  identity_fields [lit "mote.child-graph-run.v1"; parent_run_id; str_int parent_superstep;
                   parent_node_id].

(** [engine/task.py]: the execution-local task identity. *)
Definition task_identity (run_id : str) (superstep : Z) (node_id : str) : str :=
  str_len run_id ++ colon :: run_id ++ colon :: str_int superstep ++ colon
    :: str_len node_id ++ colon :: node_id.

(* ------------------------------------------------------------------ *)
(** ** Orders *)

#[export] Instance canonical_key_inj : Inj (=) (=) canonical_key.
Proof.
  intros [[] r] [[] r']; unfold canonical_key; cbn. intros [= -> -> -> Hs Hd].
  f_equal. destruct r, r'; cbn in *; try done; by subst.
Qed.

#[export] Instance occurrence_key_inj : Inj (=) (=) occurrence_key.
Proof. intros [[] ??] [[] ??]; unfold occurrence_key; cbn. by intros [= -> -> -> ->]. Qed.

#[export] Instance occurrence_cmp_laws : CmpLaws GraphJoinOccurrenceIdentity.
Proof. apply (cmp_by_laws occurrence_key). Qed.

(* ------------------------------------------------------------------ *)
(** ** Decimal and length-prefix facts *)

Definition is_digit (c : N) : Prop := (48 <= c <= 57)%N.

Lemma uint_digits_digit u : Forall is_digit (uint_digits u).
Proof. induction u; cbn; constructor; unfold is_digit; try lia; done. Qed.

Lemma uint_digits_inj u v : uint_digits u = uint_digits v → u = v.
Proof. revert v. induction u; intros []; cbn; intros [=]; f_equal; auto. Qed.

Lemma str_len_digit s : Forall is_digit (str_len s).
Proof. apply uint_digits_digit. Qed.

Lemma str_len_length s t : str_len s = str_len t → length s = length t.
Proof.
  unfold str_len. intros H%uint_digits_inj%DecimalN.Unsigned.to_uint_inj. lia.
Qed.

Lemma str_int_inj z w : str_int z = str_int w → z = w.
Proof.
  unfold str_int. intros H. apply DecimalZ.to_int_inj.
  pose proof (λ u, uint_digits_digit u) as Hd.
  destruct (Z.to_int z) as [u|u], (Z.to_int w) as [v|v].
  - by apply uint_digits_inj in H as ->.
  - exfalso. specialize (Hd u). rewrite H in Hd. apply Forall_inv in Hd. unfold is_digit in Hd. lia.
  - exfalso. specialize (Hd v). rewrite <-H in Hd. apply Forall_inv in Hd. unfold is_digit in Hd. lia.
  - injection H as H. by apply uint_digits_inj in H as ->.
Qed.

(** Two digit runs ended by the same non-digit are the same run. *)
Lemma digits_sep_inj (c : N) p q x y :
  ¬ is_digit c → Forall is_digit p → Forall is_digit q →
  p ++ c :: x = q ++ c :: y → p = q ∧ x = y.
Proof.
  intros Hc Hp. revert q. induction Hp as [|d p Hd Hp IH]; intros q Hq.
  - destruct Hq; cbn; [naive_solver|]. intros [= -> _]. done.
  - destruct Hq as [|e q He Hq]; cbn; [intros [= -> _]; done|].
    intros [= -> H]. destruct (IH q Hq H). naive_solver.
Qed.

Lemma colon_not_digit : ¬ is_digit colon.
Proof. unfold is_digit, colon. lia. Qed.

(** One field is a prefix code: it can be cut off the front unambiguously. *)
Lemma identity_field_app_inj a b x y :
  identity_field a ++ x = identity_field b ++ y → a = b ∧ x = y.
Proof.
  unfold identity_field. rewrite <-!app_assoc. cbn. intros H.
  apply digits_sep_inj in H as [Hl H]; auto using colon_not_digit, str_len_digit.
  apply str_len_length in Hl. by apply app_inj_1 in H.
Qed.

Lemma identity_field_nonempty a x : identity_field a ++ x ≠ [].
Proof. unfold identity_field. destruct (str_len a); done. Qed.

Lemma identity_fields_cons a xs :
  identity_fields (a :: xs) = identity_field a ++ identity_fields xs.
Proof. done. Qed.

Lemma identity_fields_inj xs ys : identity_fields xs = identity_fields ys → xs = ys.
Proof.
  revert ys. induction xs as [|x xs IH]; intros [|y ys]; [done|..];
    rewrite ?identity_fields_cons; intros H.
  - by destruct (identity_field_nonempty y (identity_fields ys)).
  - by destruct (identity_field_nonempty x (identity_fields xs)).
  - apply identity_field_app_inj in H as [-> H]. by rewrite (IH ys).
Qed.

(* ------------------------------------------------------------------ *)
(** ** Canonical identities: what the test accepts *)

Definition edge_ok (s : str) : Prop := match head s with Some c => is_space c = false | None => True end.

Lemma lstrip_suffix s : ∃ p, s = p ++ lstrip s.
Proof.
  induction s as [|c s [p Hp]]; cbn; [by exists []|].
  destruct (is_space c); [|by exists []]. exists (c :: p). cbn. by f_equal.
Qed.

Lemma lstrip_id s : lstrip s = s ↔ edge_ok s.
Proof.
  destruct s as [|c s]; cbn; [done|]. unfold edge_ok; cbn.
  destruct (is_space c) eqn:E; [|done]. split; [|done].
  intros H. destruct (lstrip_suffix s) as [p Hp]. rewrite H in Hp.
  apply (f_equal length) in Hp. rewrite length_app in Hp. cbn in Hp. lia.
Qed.

Lemma lstrip_length s : length (lstrip s) ≤ length s.
Proof. destruct (lstrip_suffix s) as [p Hp]. rewrite Hp at 2. rewrite length_app. lia. Qed.

Lemma lstrip_same_length s : length (lstrip s) = length s → lstrip s = s.
Proof.
  destruct (lstrip_suffix s) as [p Hp]. intros Hl. rewrite Hp in Hl at 2.
  rewrite length_app in Hl. destruct p; [|cbn in Hl; lia]. by rewrite Hp at 2.
Qed.

(** Trimmed means: neither edge is whitespace. *)
Lemma strip_id s : s = strip s ↔ edge_ok s ∧ edge_ok (reverse s).
Proof.
  unfold strip. split.
  - intros H.
    assert (lstrip s = s) as Hl.
    { apply lstrip_same_length. apply (f_equal length) in H.
      rewrite length_reverse in H. pose proof (lstrip_length (reverse (lstrip s))) as H1.
      pose proof (lstrip_length s) as H2. rewrite length_reverse in H1. lia. }
    rewrite Hl in H. split; [by apply lstrip_id|]. apply lstrip_id.
    apply (f_equal reverse) in H. by rewrite reverse_involutive in H.
  - intros [H1%lstrip_id H2%lstrip_id]. by rewrite H1, H2, reverse_involutive.
Qed.

(** The declarative content of [is_canonical_identity]. *)
Definition canonical (s : str) : Prop :=
  s ≠ [] ∧ edge_ok s ∧ edge_ok (reverse s) ∧ newline ∉ s ∧ carriage_return ∉ s.

Lemma canonical_spec s : is_canonical_identity s = true ↔ canonical s.
Proof.
  unfold is_canonical_identity, canonical.
  rewrite !andb_true_iff, !negb_true_iff, !mem_false, is_nil_false, bool_decide_eq_true, strip_id.
  naive_solver.
Qed.

Lemma canonical_negb s : negb (is_canonical_identity s) = false ↔ canonical s.
Proof. by rewrite negb_false_iff, canonical_spec. Qed.

Lemma digit_not_special c : is_digit c →
  is_space c = false ∧ c ≠ newline ∧ c ≠ carriage_return.
Proof. unfold is_digit, is_space, newline, carriage_return. intros. split_and!; lia. Qed.

Lemma digits_clean s : Forall is_digit s → newline ∉ s ∧ carriage_return ∉ s.
Proof.
  rewrite Forall_forall. intros H. split; intros Hin%H%digit_not_special; naive_solver.
Qed.

Lemma str_len_nonempty s : str_len s ≠ [].
Proof.
  unfold str_len. destruct (N.of_nat (length s)) eqn:E; [done|]. cbn.
  intros H. assert (Pos.to_uint p = Decimal.Nil) as Hp.
  { by apply uint_digits_inj. }
  assert (N.to_uint (Npos p) = Decimal.Nil) as HN by done.
  apply (f_equal N.of_uint) in HN. rewrite DecimalN.Unsigned.of_to in HN. done.
Qed.

Lemma identity_field_clean v :
  newline ∉ v → carriage_return ∉ v →
  newline ∉ identity_field v ∧ carriage_return ∉ identity_field v.
Proof.
  intros Hn Hc. destruct (digits_clean _ (str_len_digit v)).
  unfold identity_field. rewrite !elem_of_app, !elem_of_cons. unfold newline, carriage_return, colon in *.
  naive_solver lia.
Qed.

Lemma str_int_clean z : newline ∉ str_int z ∧ carriage_return ∉ str_int z.
Proof.
  unfold str_int. destruct (Z.to_int z) as [u|u];
    destruct (digits_clean _ (uint_digits_digit u)); [done|].
  rewrite !elem_of_cons. unfold newline, carriage_return in *. naive_solver lia.
Qed.

(** A concatenation of fields is canonical when no field holds a line break and
    the last field ends in a non-space. *)
Lemma identity_fields_canonical xs v :
  Forall (λ x, newline ∉ x ∧ carriage_return ∉ x) (xs ++ [v]) →
  v ≠ [] → edge_ok (reverse v) → canonical (identity_fields (xs ++ [v])).
Proof.
  intros Hall Hv He. unfold canonical.
  assert (newline ∉ identity_fields (xs ++ [v]) ∧ carriage_return ∉ identity_fields (xs ++ [v])) as [? ?].
  { clear Hv He. induction Hall as [|x l [Hn Hc] Hl [IHn IHc]]; [split; apply not_elem_of_nil|].
    rewrite identity_fields_cons, !not_elem_of_app. destruct (identity_field_clean x Hn Hc). done. }
  assert (∃ p, identity_fields (xs ++ [v]) = p ++ v) as [p Hp].
  { unfold identity_fields. rewrite fmap_app, concat_app. cbn. rewrite app_nil_r.
    unfold identity_field at 2. exists (concat (identity_field <$> xs) ++ str_len v ++ [colon]).
    rewrite <-!app_assoc. done. }
  assert (edge_ok (identity_fields (xs ++ [v]))) as Hh.
  { destruct (xs ++ [v]) as [|x l]; [done|]. rewrite identity_fields_cons.
    unfold identity_field, edge_ok. pose proof (str_len_digit x) as Hd.
    pose proof (str_len_nonempty x). destruct Hd as [|d ds Hd _]; [done|]. cbn.
    by apply digit_not_special. }
  split_and!; try done.
  - rewrite Hp. destruct p; [done|]. by intros [=].
  - rewrite Hp, reverse_app. destruct v as [|c v] using rev_ind; [done|].
    rewrite reverse_snoc in *. done.
Qed.

(* ------------------------------------------------------------------ *)
(** ** Properties of the projections *)

(** the interrupt id names its coordinate: two coordinates (run, superstep,
    node, execution generation) project to the same id exactly when they agree,
    so a resume action can only match the interrupt it was issued for. *)
Lemma graph_interrupt_id_identifies r s n g r' s' n' g' :
  graph_interrupt_id r s n g = graph_interrupt_id r' s' n' g' ↔
  r = r' ∧ s = s' ∧ n = n' ∧ g = g'.
Proof.
  split; [|by intros (-> & -> & -> & ->)].
  intros H%identity_fields_inj. injection H as -> Hs -> Hg.
  by apply str_int_inj in Hs, Hg.
Qed.

(** a child run id identifies the parent activation it was projected from,
    and no child run id is an interrupt id. *)
Lemma child_graph_run_id_identifies r s n r' s' n' g :
  (child_graph_run_id r s n = child_graph_run_id r' s' n' ↔ r = r' ∧ s = s' ∧ n = n')
  ∧ child_graph_run_id r s n ≠ graph_interrupt_id r' s' n' g.
Proof.
  split; [split; [|by intros (-> & -> & ->)]|].
  - intros H%identity_fields_inj. injection H as -> Hs ->. by apply str_int_inj in Hs.
  - intros H%identity_fields_inj. discriminate H.
Qed.

(** [child_of p c]: the run [c] is a nested run started by some activation of [p]. *)
Definition child_of (p c : str) : Prop := ∃ s n, c = child_graph_run_id p s n.

Lemma child_graph_run_id_longer r s n : length r < length (child_graph_run_id r s n).
Proof.
  unfold child_graph_run_id. rewrite !identity_fields_cons, !length_app.
  unfold identity_field at 2. rewrite length_app. cbn [length]. lia.
Qed.

(** the ancestry of nested runs has no cycle: no run is its own ancestor,
    whatever activations spawned the runs in between. *)
Lemma run_ancestry_acyclic r : ¬ tc child_of r r.
Proof.
  assert (∀ p c, tc child_of p c → length p < length c) as Hlt.
  { induction 1 as [p c (s & n & ->)|p q c (s & n & ->) _ IH].
    - apply child_graph_run_id_longer.
    - pose proof (child_graph_run_id_longer p s n). lia. }
  intros H%Hlt. lia.
Qed.

(** nested run ids stay canonical: the child of a canonical run at a
    canonical node passes the identity test that every durable state applies. *)
Lemma child_graph_run_id_canonical r s n :
  is_canonical_identity r = true → is_canonical_identity n = true →
  is_canonical_identity (child_graph_run_id r s n) = true.
Proof.
  rewrite !canonical_spec. intros (Hr & _ & _ & Hrn & Hrc) (Hn & _ & Hne & Hnn & Hnc).
  apply (identity_fields_canonical [lit "mote.child-graph-run.v1"; r; str_int s] n); [|done..].
  repeat (constructor; [first [done | apply str_int_clean | vm_compute; split; intros H; repeat (apply elem_of_cons in H as [H|H]; [done|]); by apply elem_of_nil in H]|]).
  constructor.
Qed.

Lemma str_int_nonneg z : (0 ≤ z)%Z → Forall is_digit (str_int z).
Proof. unfold str_int. destruct z; [intros _..|lia]; apply uint_digits_digit. Qed.

(** task ids identify their coordinates on every superstep a run can
    reach (a superstep counter is never negative). *)
Lemma task_identity_identifies r s n r' s' n' :
  (0 ≤ s)%Z → (0 ≤ s')%Z →
  task_identity r s n = task_identity r' s' n' → r = r' ∧ s = s' ∧ n = n'.
Proof.
  intros Hs Hs' H. unfold task_identity in H.
  apply digits_sep_inj in H as [Hl H]; auto using colon_not_digit, str_len_digit.
  apply app_inj_1 in H as [-> H]; [|by apply str_len_length].
  injection H as H. apply digits_sep_inj in H as [Hz H]; auto using colon_not_digit, str_int_nonneg.
  apply str_int_inj in Hz as ->.
  apply digits_sep_inj in H as [_ ->]; auto using colon_not_digit, str_len_digit.
Qed.

