(* ===== verification/Resources.v ===== *)
(** * Ordered exclusive resources: [state/graph_state/resource_*.py]

    Snapshots of resource locks and acquisitions, the pure acquire/release
    transitions, and the two layers of snapshot validation (shape and replay). *)

From Stdlib Require Import ZArith NArith Lia Bool String.
From stdpp Require Import prelude strings gmap sorting.
From S2P Require Import Prelude Identity.

Set Default Goal Selector "!".

(* ------------------------------------------------------------------ *)
(** ** Data *)

Record ResourceLock := mkLock {
  lock_resource_id : str;
  lock_owner : option str;
  lock_waiters : list str
}.

Record ResourceAcquisition := mkAcquisition {
  acq_node_id : str;
  acq_required : list str;
  acq_acquired : list str;
  acq_waiting_for : option str
}.

Record ResourceSnapshot := mkSnapshot {
  snap_resources : list ResourceLock;
  snap_acquisitions : list ResourceAcquisition
}.

Inductive ResourceCommand :=
| AcquireResources (node_id : str) (resources : list str)
| ReleaseResources (node_id : str).

#[export] Instance lock_eq_dec : EqDecision ResourceLock.
Proof. solve_decision. Defined.
#[export] Instance acquisition_eq_dec : EqDecision ResourceAcquisition.
Proof. solve_decision. Defined.
#[export] Instance snapshot_eq_dec : EqDecision ResourceSnapshot.
Proof. solve_decision. Defined.

#[export] Instance lock_eta : Eta ResourceLock := λ r,
  mkLock (lock_resource_id r) (lock_owner r) (lock_waiters r).
#[export] Instance acquisition_eta : Eta ResourceAcquisition := λ r,
  mkAcquisition (acq_node_id r) (acq_required r) (acq_acquired r) (acq_waiting_for r).

(** [ResourceAcquisition.admitted] *)
Definition admitted (a : ResourceAcquisition) : bool :=
  bool_decide (acq_acquired a = acq_required a) && bool_decide (acq_waiting_for a = None).

(** [{resource.resource_id: position for position, resource in enumerate(resources)}];
    a dict comprehension keeps the last value of a repeated key. *)
Definition positions_of (resources : list ResourceLock) : gmap str nat :=
  list_to_map (reverse (imap (λ i r, (lock_resource_id r, i)) resources)).

(** [{acquisition.node_id: acquisition for acquisition in acquisitions}] *)
Definition acquisitions_by_node (acquisitions : list ResourceAcquisition)
    : gmap str ResourceAcquisition :=
  list_to_map (reverse ((λ a, (acq_node_id a, a)) <$> acquisitions)).

(* ------------------------------------------------------------------ *)
(** ** Shape validation *)

Definition require_identity (value : str) (kind : string) : result unit :=
  raise_if (negb (is_canonical_identity value)) ResourceTransitionError
    (kind ++ " identity must be non-empty and trimmed").

Definition validate_lock (resource : ResourceLock) : result unit :=
  require_identity (lock_resource_id resource) "resource";;
  raise_if (negb (no_repeats (lock_waiters resource))) ResourceTransitionError
    "resource waiters must be unique";;
  match lock_owner resource with
  | Some owner =>
      require_identity owner "node";;
      raise_if (mem owner (lock_waiters resource)) ResourceTransitionError
        "resource owner cannot also be waiting"
  | None => Ok tt
  end;;
  py_for (lock_waiters resource) (λ waiter, require_identity waiter "node").

Definition validate_acquisition (snapshot : ResourceSnapshot) (acquisition : ResourceAcquisition)
    : result unit :=
  let resource_ids := lock_resource_id <$> snap_resources snapshot in
  let positions := positions_of (snap_resources snapshot) in
  require_identity (acq_node_id acquisition) "node";;
  raise_if (is_nil (acq_required acquisition)) ResourceTransitionError
    "an acquisition requires at least one resource";;
  raise_if (negb (no_repeats (acq_required acquisition))) ResourceTransitionError
    "an acquisition repeats a resource";;
  raise_if (negb (subset_of (acq_required acquisition) resource_ids)) ResourceTransitionError
    "an acquisition references an unknown resource";;
  raise_if (negb (bool_decide
      (sorted_key (λ r, default 0 (positions !! r)) (acq_required acquisition)
       = acq_required acquisition)))
    ResourceTransitionError "resources must be acquired in snapshot order";;
  raise_if (negb (bool_decide
      (acq_acquired acquisition
       = take (length (acq_acquired acquisition)) (acq_required acquisition))))
    ResourceTransitionError "acquired resources must be a required-resource prefix";;
  let expected_waiting := acq_required acquisition !! length (acq_acquired acquisition) in
  raise_if (negb (bool_decide (acq_waiting_for acquisition = expected_waiting)))
    ResourceTransitionError "an acquisition can only wait for its next resource";;
  py_for (acq_acquired acquisition) (λ resource_id,
    position ← dict_get positions resource_id;
    resource ← list_get (snap_resources snapshot) position;
    raise_if (negb (bool_decide (lock_owner resource = Some (acq_node_id acquisition))))
      ResourceTransitionError "acquired resource ownership does not match its acquisition");;
  match acq_waiting_for acquisition with
  | Some waiting_for =>
      position ← dict_get positions waiting_for;
      resource ← list_get (snap_resources snapshot) position;
      raise_if (negb (mem (acq_node_id acquisition) (lock_waiters resource)))
        ResourceTransitionError "waiting acquisition is absent from the resource queue"
  | None => Ok tt
  end.

Definition validate_lock_links (acquisitions : list ResourceAcquisition) (resource : ResourceLock)
    : result unit :=
  let participants := acq_node_id <$> acquisitions in
  raise_if (match lock_owner resource with
            | Some owner => negb (mem owner participants) | None => false end)
    ResourceTransitionError "resource owner has no acquisition";;
  raise_if (negb (subset_of (lock_waiters resource) participants)) ResourceTransitionError
    "resource waiter has no acquisition";;
  raise_if (existsb (λ waiter,
      match acquisitions_by_node acquisitions !! waiter with
      | Some a => negb (bool_decide (acq_waiting_for a = Some (lock_resource_id resource)))
      | None => false
      end) (lock_waiters resource))
    ResourceTransitionError "resource queue contains a participant waiting elsewhere".

(** [_validate_snapshot]: the shape of a snapshot and its ownership links. *)
Definition validate_snapshot (snapshot : ResourceSnapshot) : result unit :=
  raise_if (negb (no_repeats (lock_resource_id <$> snap_resources snapshot)))
    ResourceTransitionError "resources snapshot repeats a resource";;
  py_for (snap_resources snapshot) validate_lock;;
  raise_if (negb (no_repeats (acq_node_id <$> snap_acquisitions snapshot)))
    ResourceTransitionError "resources snapshot repeats an acquisition";;
  py_for (snap_acquisitions snapshot) (validate_acquisition snapshot);;
  py_for (snap_resources snapshot) (validate_lock_links (snap_acquisitions snapshot)).

(* ------------------------------------------------------------------ *)
(** ** Transitions *)

(** The [while] loop of [_advance]; [todo] is [required[len(acquired):]]. *)
Fixpoint advance_loop (positions : gmap str nat) (node_id : str) (todo : list str)
    (resources : list ResourceLock) (acquired : list str)
    : result (list ResourceLock * list str * option str) :=
  match todo with
  | [] => Ok (resources, acquired, None)
  | next_resource_id :: rest =>
      position ← dict_get positions next_resource_id;
      resource ← list_get resources position;
      let can_acquire :=
        bool_decide (lock_owner resource = None)
        && match lock_waiters resource with [] => true | w :: _ => bool_decide (w = node_id) end in
      if can_acquire then
        advance_loop positions node_id rest
          (<[position := resource <| lock_owner := Some node_id |>
                                  <| lock_waiters := tail (lock_waiters resource) |>]> resources)
          (acquired ++ [next_resource_id])
      else
        Ok (<[position := resource <| lock_waiters := lock_waiters resource ++ [node_id] |>]> resources,
            acquired, Some next_resource_id)
  end.

(** [_advance]: the mutated lock list and the updated acquisition. *)
Definition advance (resources : list ResourceLock) (acquisition : ResourceAcquisition)
    (positions : gmap str nat) : result (list ResourceLock * ResourceAcquisition) :=
  '(resources', acquired, waiting_for) ←
    advance_loop positions (acq_node_id acquisition)
      (drop (length (acq_acquired acquisition)) (acq_required acquisition))
      resources (acq_acquired acquisition);
  Ok (resources', acquisition <| acq_acquired := acquired |> <| acq_waiting_for := waiting_for |>).

Definition acquire (snapshot : ResourceSnapshot) (node_id : str) (required : list str)
    : result ResourceSnapshot :=
  require_identity node_id "node";;
  if is_nil required then Ok snapshot else
  raise_if (existsb (λ a, bool_decide (acq_node_id a = node_id)) (snap_acquisitions snapshot))
    ResourceTransitionError "node already has an acquisition";;
  let positions := positions_of (snap_resources snapshot) in
  raise_if (negb (no_repeats required)) ResourceTransitionError
    "resource request contains duplicates";;
  raise_if (negb (subset_of required (lock_resource_id <$> snap_resources snapshot)))
    ResourceTransitionError "resource request references an unknown resource";;
  raise_if (negb (bool_decide (sorted_key (λ r, default 0 (positions !! r)) required = required)))
    ResourceTransitionError "resource request violates the global resource order";;
  '(resources, acquisition) ←
    advance (snap_resources snapshot) (mkAcquisition node_id required [] None) positions;
  Ok (mkSnapshot resources (snap_acquisitions snapshot ++ [acquisition])).

(** One pass of the wake-up loop of [_release], at one lock position. *)
Definition wake_at (positions : gmap str nat)
    (st : list ResourceLock * gmap str ResourceAcquisition) (position : nat)
    : result (list ResourceLock * gmap str ResourceAcquisition) :=
  let '(resources, by_node) := st in
  current ← list_get resources position;
  match lock_owner current, lock_waiters current with
  | None, waiter :: _ =>
      waiting ← dict_get by_node waiter;
      '(resources', acquisition) ← advance resources waiting positions;
      Ok (resources', <[waiter := acquisition]> by_node)
  | _, _ => Ok (resources, by_node)
  end.

Definition release (snapshot : ResourceSnapshot) (node_id : str) : result ResourceSnapshot :=
  match List.find (λ item, bool_decide (acq_node_id item = node_id)) (snap_acquisitions snapshot) with
  | None => Raise (Exn ResourceTransitionError "node has no acquisition to release")
  | Some acquisition =>
      raise_if (negb (admitted acquisition)) ResourceTransitionError
        "only an admitted participant can release resources";;
      let positions := positions_of (snap_resources snapshot) in
      resources ← py_for_state (reverse (acq_acquired acquisition)) (snap_resources snapshot)
        (λ resources resource_id,
          position ← dict_get positions resource_id;
          resource ← list_get resources position;
          Ok (<[position := resource <| lock_owner := None |>]> resources));
      let acquisitions :=
        filter (λ item, acq_node_id item ≠ node_id) (snap_acquisitions snapshot) in
      '(resources', by_node) ←
        py_for_state (seq 0 (length resources)) (resources, acquisitions_by_node acquisitions)
          (wake_at positions);
      updated ← mapM (λ item, dict_get by_node (acq_node_id item)) acquisitions;
      Ok (mkSnapshot resources' updated)
  end.

(** [_apply_command] *)
Definition apply_command (snapshot : ResourceSnapshot) (command : ResourceCommand)
    : result ResourceSnapshot :=
  match command with
  | AcquireResources node_id resources => acquire snapshot node_id resources
  | ReleaseResources node_id => require_identity node_id "node";; release snapshot node_id
  end.

(** The snapshot with the same locks, all free, and no acquisition. *)
Definition blank (resources : list ResourceLock) : ResourceSnapshot :=
  mkSnapshot ((λ r, mkLock (lock_resource_id r) None []) <$> resources) [].

(** Re-run the acquisitions of a snapshot, in order, from free locks. *)
Definition replay (resources : list ResourceLock) (acquisitions : list ResourceAcquisition)
    : result ResourceSnapshot :=
  py_for_state acquisitions (blank resources)
    (λ replayed a, apply_command replayed (AcquireResources (acq_node_id a) (acq_required a))).

Definition validate_resource_snapshot (snapshot : ResourceSnapshot) : result unit :=
  validate_snapshot snapshot;;
  replayed ← replay (snap_resources snapshot) (snap_acquisitions snapshot);
  raise_if (negb (bool_decide (replayed = snapshot))) ResourceTransitionError
    "resources snapshot does not match its replayed acquisition sequence".

Definition reduce_resources (snapshot : ResourceSnapshot) (command : ResourceCommand)
    : result ResourceSnapshot :=
  validate_resource_snapshot snapshot;;
  result ← apply_command snapshot command;
  validate_resource_snapshot result;;
  Ok result.
