(* ===== verification/ResourceProofs.v ===== *)
(** * Ordered exclusive resources: invariant, progress and release

    The ownership invariant that every replayed snapshot satisfies, the exact
    success condition of an acquisition, mutual exclusion, freedom from
    deadlock, and what the release transition does and does not guarantee. *)

From Stdlib Require Import ZArith NArith Lia Bool String.
From stdpp Require Import prelude strings gmap sorting.
From S2P Require Import Prelude Identity Resources.

Set Default Goal Selector "!".

(* ------------------------------------------------------------------ *)
(** ** Dictionaries built by comprehension *)

Abbreviation ids resources := (fmap (M := list) lock_resource_id resources).

Lemma reverse_list_to_map_lookup {A B} (key : A → str) (val : A → B) (xs : list A) x :
  NoDup (key <$> xs) → x ∈ xs →
  (list_to_map (reverse ((λ a, (key a, val a)) <$> xs)) : gmap str B) !! key x = Some (val x).
Proof.
  intros Hnd Hx. apply elem_of_list_to_map.
  - rewrite fmap_reverse, <-list_fmap_compose.
    by rewrite (NoDup_Permutation_proper _ _ (reverse_Permutation _)).
  - rewrite elem_of_reverse. by apply (list_elem_of_fmap_2 (λ a, (key a, val a))).
Qed.

Lemma acquisitions_by_node_lookup acqs a :
  NoDup (acq_node_id <$> acqs) → a ∈ acqs →
  acquisitions_by_node acqs !! acq_node_id a = Some a.
Proof. apply (reverse_list_to_map_lookup acq_node_id (λ a, a)). Qed.

Lemma positions_of_ids R1 R2 : ids R1 = ids R2 → positions_of R1 = positions_of R2.
Proof.
  intros H. unfold positions_of. do 2 f_equal.
  assert (∀ R, imap (λ i r, (lock_resource_id r, i)) R = imap (λ i x, (x, i)) (ids R)) as Hf.
  { intros R. by rewrite imap_fmap. }
  by rewrite !Hf, H.
Qed.

Lemma positions_of_lookup R x p :
  NoDup (ids R) → positions_of R !! x = Some p ↔ ids R !! p = Some x.
Proof.
  intros Hnd. unfold positions_of.
  rewrite <-elem_of_list_to_map.
  - rewrite elem_of_reverse, elem_of_lookup_imap. rewrite list_lookup_fmap. split.
    + intros (i & l & Heq & Hl). simplify_eq. by rewrite Hl.
    + intros (l & Hl & ->)%fmap_Some. naive_solver.
  - rewrite fmap_reverse, (NoDup_Permutation_proper _ _ (reverse_Permutation _)).
    rewrite fmap_imap. rewrite <-imap_const in Hnd. exact Hnd.
Qed.

(* ------------------------------------------------------------------ *)
(** ** The invariant *)

(** Locks and acquisitions agree: a lock is owned by exactly the acquisition that
    acquired it, its queue holds exactly the acquisitions waiting for it, and a
    queue only forms behind an owner. *)
Record lock_linked (acqs : list ResourceAcquisition) (l : ResourceLock) : Prop := {
  linked_owner : ∀ n, lock_owner l = Some n ↔
    ∃ a, a ∈ acqs ∧ acq_node_id a = n ∧ lock_resource_id l ∈ acq_acquired a;
  linked_waiters : ∀ n, n ∈ lock_waiters l ↔
    ∃ a, a ∈ acqs ∧ acq_node_id a = n ∧ acq_waiting_for a = Some (lock_resource_id l);
  linked_nodup : NoDup (lock_waiters l);
  linked_queue : lock_waiters l ≠ [] → lock_owner l ≠ None
}.

(** One acquisition is well formed against the global resource order. *)
Record acquisition_ok (R : list ResourceLock) (a : ResourceAcquisition) : Prop := {
  ok_node : canonical (acq_node_id a);
  ok_nonempty : acq_required a ≠ [];
  ok_nodup : NoDup (acq_required a);
  ok_known : acq_required a ⊆ ids R;
  ok_order : sorted_key (λ r, default 0 (positions_of R !! r)) (acq_required a) = acq_required a;
  ok_prefix : acq_acquired a = take (length (acq_acquired a)) (acq_required a);
  ok_waiting : acq_waiting_for a = acq_required a !! length (acq_acquired a)
}.

Record snapshot_inv (s : ResourceSnapshot) : Prop := {
  inv_ids : NoDup (ids (snap_resources s));
  inv_nodes : NoDup (acq_node_id <$> snap_acquisitions s);
  inv_links : Forall (lock_linked (snap_acquisitions s)) (snap_resources s);
  inv_acqs : Forall (acquisition_ok (snap_resources s)) (snap_acquisitions s)
}.

Lemma acquisition_ok_ids R R' a : ids R = ids R' → acquisition_ok R a → acquisition_ok R' a.
Proof.
  intros H []. split; try done; [by rewrite <-H|]. by rewrite <-(positions_of_ids R).
Qed.

(* ------------------------------------------------------------------ *)
(** ** One step of the acquisition loop *)

Lemma ids_insert (R : list ResourceLock) (p : nat) (l l' : ResourceLock) :
  R !! p = Some l → lock_resource_id l' = lock_resource_id l → ids (<[p:=l']> R) = ids R.
Proof.
  intros Hl Hid. rewrite list_fmap_insert, Hid. apply list_insert_id.
  by rewrite list_lookup_fmap, Hl.
Qed.

(** Replacing one lock keeps the links when the new lock is linked and the other
    locks do not notice the changed acquisition. *)
Lemma links_insert (R : list ResourceLock) (p : nat) l l' acqs acqs' :
  NoDup (ids R) → R !! p = Some l → lock_resource_id l' = lock_resource_id l →
  Forall (lock_linked acqs) R → lock_linked acqs' l' →
  (∀ k, lock_resource_id k ≠ lock_resource_id l → lock_linked acqs k → lock_linked acqs' k) →
  Forall (lock_linked acqs') (<[p:=l']> R).
Proof.
  intros Hnd Hl Hid Hall Hl' Hother. apply Forall_lookup. intros i k.
  destruct (decide (i = p)) as [->|Hne].
  - rewrite list_lookup_insert_eq by (by eapply lookup_lt_Some). by intros [= <-].
  - rewrite list_lookup_insert_ne by done. intros Hk. apply Hother; [|by eapply Forall_lookup_1].
    intros Heq. apply Hne. eapply NoDup_lookup; [exact Hnd|..]; rewrite list_lookup_fmap.
    + by rewrite Hk; cbn; rewrite Heq.
    + by rewrite Hl.
Qed.

Definition part (n : str) (req acquired : list str) (w : option str) : ResourceAcquisition :=
  mkAcquisition n req acquired w.

Lemma elem_of_snoc {A} (x y : A) xs : x ∈ xs ++ [y] ↔ x ∈ xs ∨ x = y.
Proof. by rewrite elem_of_app, list_elem_of_singleton. Qed.

(** Taking a free lock. *)
Lemma step_take (R : list ResourceLock) (p : nat) l acqs n req acq :
  NoDup (ids R) → R !! p = Some l → lock_owner l = None →
  Forall (lock_linked (acqs ++ [part n req acq None])) R →
  Forall (lock_linked (acqs ++ [part n req (acq ++ [lock_resource_id l]) None]))
    (<[p := l <| lock_owner := Some n |> <| lock_waiters := tail (lock_waiters l) |>]> R).
Proof.
  intros Hnd Hl Hfree Hall.
  assert (lock_linked (acqs ++ [part n req acq None]) l) as Hlk by (by eapply Forall_lookup_1).
  assert (lock_waiters l = []) as Hw.
  { destruct (lock_waiters l) eqn:E; [done|]. exfalso. eapply (linked_queue _ _ Hlk); [|done]. by rewrite E. }
  assert (∀ a, a ∈ acqs ++ [part n req acq None] → lock_resource_id l ∉ acq_acquired a) as Hnot.
  { intros a Ha Hin. pose proof (proj2 (linked_owner _ _ Hlk (acq_node_id a))) as H.
    rewrite Hfree in H. discriminate H. by exists a. }
  eapply links_insert; [done|done|done|exact Hall| |].
  - destruct Hlk as [Ho Hwt _ _]. split; cbn; rewrite ?Hw; cbn.
    + intros m. setoid_rewrite elem_of_snoc. split.
      * intros [= <-]. exists (part n req (acq ++ [lock_resource_id l]) None). cbn.
        split_and!; [by right|done|]. rewrite elem_of_snoc. by right.
      * intros (a & [Ha| ->] & Hm & Hin); [|by cbn in Hm; subst].
        destruct (Hnot a); [|done]. rewrite elem_of_snoc. by left.
    + intros m. specialize (Hwt m). rewrite Hw in Hwt. rewrite Hwt. setoid_rewrite elem_of_snoc.
      split; intros (a & [Ha| ->] & ?); naive_solver.
    + constructor.
    + done.
  - intros k Hk [Ho Hwt Hn Hq]. split; cbn; try done.
    + intros m. rewrite Ho. setoid_rewrite elem_of_snoc. split.
      * intros (a & [Ha| ->] & Hm & Hin); [naive_solver|].
        exists (part n req (acq ++ [lock_resource_id l]) None). cbn in *.
        rewrite elem_of_snoc. naive_solver.
      * intros (a & [Ha| ->] & Hm & Hin); [naive_solver|]. cbn in *.
        apply elem_of_snoc in Hin as [?|?]; [|done]. exists (part n req acq None). naive_solver.
    + intros m. rewrite Hwt. setoid_rewrite elem_of_snoc.
      split; intros (a & [Ha| ->] & ?); naive_solver.
Qed.

(** Joining the queue of an owned lock. *)
Lemma step_wait (R : list ResourceLock) (p : nat) l acqs n req acq :
  NoDup (ids R) → R !! p = Some l → lock_owner l ≠ None → n ∉ acq_node_id <$> acqs →
  Forall (lock_linked (acqs ++ [part n req acq None])) R →
  Forall (lock_linked (acqs ++ [part n req acq (Some (lock_resource_id l))]))
    (<[p := l <| lock_waiters := lock_waiters l ++ [n] |>]> R).
Proof.
  intros Hnd Hl Hown Hfresh Hall.
  assert (lock_linked (acqs ++ [part n req acq None]) l) as Hlk by (by eapply Forall_lookup_1).
  assert (n ∉ lock_waiters l) as Hnw.
  { intros (a & Ha & Hm & Hw)%(linked_waiters _ _ Hlk). apply elem_of_snoc in Ha as [Ha| ->]; [|done].
    apply Hfresh. rewrite <-Hm. by apply list_elem_of_fmap_2. }
  assert (∀ k w, lock_linked (acqs ++ [part n req acq None]) k →
    ∀ m, lock_owner k = Some m ↔ ∃ a, a ∈ acqs ++ [part n req acq w] ∧ acq_node_id a = m
                                     ∧ lock_resource_id k ∈ acq_acquired a) as Howner.
  { intros k w [Ho _ _ _] m. rewrite Ho. setoid_rewrite elem_of_snoc. split.
    - intros (a & [Ha| ->] & ?); [naive_solver|]. exists (part n req acq w). naive_solver.
    - intros (a & [Ha| ->] & ?); [naive_solver|]. exists (part n req acq None). naive_solver. }
  eapply links_insert; [done|done|done|exact Hall| |].
  - split; cbn.
    + by apply Howner.
    + intros m. rewrite elem_of_snoc, (linked_waiters _ _ Hlk). setoid_rewrite elem_of_snoc. split.
      * intros [(a & [Ha| ->] & ?)| ->]; [naive_solver..|].
        exists (part n req acq (Some (lock_resource_id l))). naive_solver.
      * intros (a & [Ha| ->] & Hm & Hw); [naive_solver|]. by right.
    + apply NoDup_app. split_and!; [apply (linked_nodup _ _ Hlk)| |repeat constructor; set_solver].
      intros m Hm ->%list_elem_of_singleton. done.
    + done.
  - intros k Hk Hlk'. pose proof (Howner k (Some (lock_resource_id l)) Hlk') as Ho.
    destruct Hlk' as [_ Hwt Hn Hq]. split; [done| |done..].
    intros m. rewrite Hwt. setoid_rewrite elem_of_snoc. split.
    + intros (a & [Ha| ->] & ?); naive_solver.
    + intros (a & [Ha| ->] & Hm & Hw); [naive_solver|]. naive_solver.
Qed.

(** The whole loop: it returns, takes a prefix of what is left and either
    finishes or queues at the first owned lock, keeping the links. *)
Lemma advance_loop_spec acqs n req pos todo :
  ∀ (R : list ResourceLock) acq,
  pos = positions_of R → NoDup (ids R) → todo ⊆ ids R → n ∉ acq_node_id <$> acqs →
  Forall (lock_linked (acqs ++ [part n req acq None])) R →
  ∃ R' got rest, advance_loop pos n todo R acq = Ok (R', acq ++ got, head rest)
    ∧ todo = got ++ rest ∧ ids R' = ids R
    ∧ Forall (lock_linked (acqs ++ [part n req (acq ++ got) (head rest)])) R'.
Proof.
  induction todo as [|x todo IH]; intros R acq -> Hnd Hsub Hfresh Hall.
  { exists R, [], []. cbn. by rewrite app_nil_r. }
  assert (x ∈ ids R) as Hx by (apply Hsub; by left).
  apply list_elem_of_lookup in Hx as [p Hp].
  assert (Hp' := Hp). apply (positions_of_lookup R x p Hnd) in Hp'.
  rewrite list_lookup_fmap in Hp. apply fmap_Some in Hp as (l & Hl & ->).
  cbn. unfold dict_get. rewrite Hp'. cbn. unfold list_get. rewrite Hl. cbn.
  assert (lock_linked (acqs ++ [part n req acq None]) l) as Hlk by (by eapply Forall_lookup_1).
  destruct (decide (lock_owner l = None)) as [Ho|Ho].
  - assert (lock_waiters l = []) as Hw.
    { destruct (lock_waiters l) eqn:E; [done|]. exfalso. eapply (linked_queue _ _ Hlk); [|done]. by rewrite E. }
    rewrite (bool_decide_true _ Ho). rewrite Hw. cbn.
    set (l' := l <| lock_owner := Some n |> <| lock_waiters := [] |>).
    assert (ids (<[p:=l']> R) = ids R) as Hids by (by eapply ids_insert).
    destruct (IH (<[p:=l']> R) (acq ++ [lock_resource_id l])) as (R' & got & rest & -> & -> & Hi & HF).
    + by apply positions_of_ids.
    + by rewrite Hids.
    + rewrite Hids. intros y Hy. apply Hsub. by right.
    + done.
    + subst l'. pose proof (step_take R p l acqs n req acq Hnd Hl Ho Hall) as Hst.
      by rewrite Hw in Hst.
    + exists R', (lock_resource_id l :: got), rest. rewrite <-app_assoc in *. cbn in *.
      split_and!; try done. by rewrite Hi.
  - rewrite (bool_decide_false _ Ho). cbn.
    eexists _, [], (lock_resource_id l :: todo). rewrite app_nil_r. cbn.
    split_and!; [done|done| |].
    + by eapply ids_insert.
    + by apply step_wait.
Qed.

Lemma head_drop {A} (xs : list A) k : head (drop k xs) = xs !! k.
Proof. by rewrite <-(Nat.add_0_r k), <-lookup_drop, Nat.add_0_r; destruct (drop k xs). Qed.

(** The exact success condition of [_acquire] on a non-empty request. *)
Record request_ok (s : ResourceSnapshot) (n : str) (req : list str) : Prop := {
  req_node : canonical n;
  req_fresh : n ∉ acq_node_id <$> snap_acquisitions s;
  req_nodup : NoDup req;
  req_known : req ⊆ ids (snap_resources s);
  req_order : sorted_key (λ r, default 0 (positions_of (snap_resources s) !! r)) req = req
}.

Lemma links_fresh acqs n req l :
  lock_linked acqs l → lock_linked (acqs ++ [part n req [] None]) l.
Proof.
  intros [Ho Hw Hn Hq]. split; [| |done..]; intros m; rewrite ?Ho, ?Hw; setoid_rewrite elem_of_snoc.
  - split; [naive_solver|]. intros (a & [Ha| ->] & Hm & Hin); [by exists a|]. by apply elem_of_nil in Hin.
  - split; [naive_solver|]. intros (a & [Ha| ->] & ?); naive_solver.
Qed.

Lemma acquire_spec s n req :
  snapshot_inv s → request_ok s n req → req ≠ [] →
  ∃ R' got rest, acquire s n req
      = Ok (mkSnapshot R' (snap_acquisitions s ++ [part n req got (head rest)]))
    ∧ req = got ++ rest ∧ ids R' = ids (snap_resources s)
    ∧ snapshot_inv (mkSnapshot R' (snap_acquisitions s ++ [part n req got (head rest)])).
Proof.
  intros Hinv Hreq Hne. destruct Hreq as [Hnode Hfresh Hnd Hknown Hord].
  pose proof Hinv as [Hids Hnodes Hlinks Hacqs].
  destruct (advance_loop_spec (snap_acquisitions s) n req _ req (snap_resources s) [] eq_refl Hids Hknown Hfresh)
    as (R' & got & rest & Hloop & Hsplit & HidsR' & HF).
  { eapply Forall_impl; [done|]. intros l. apply links_fresh. }
  exists R', got, rest. cbn in Hloop. split_and!; [|done|done|].
  - unfold acquire, require_identity.
    rewrite (proj2 (canonical_negb n) Hnode). cbn.
    rewrite (proj2 (is_nil_false req) Hne).
    assert (existsb (λ a, bool_decide (acq_node_id a = n)) (snap_acquisitions s) = false) as ->.
    { apply existsb_false_iff. intros a Ha. apply bool_decide_false. intros <-.
      apply Hfresh. by apply list_elem_of_fmap_2. }
    cbn. rewrite (proj2 (no_repeats_spec req) Hnd). cbn.
    rewrite (proj2 (subset_of_spec req _) Hknown). cbn.
    rewrite (bool_decide_true _ Hord). cbn.
    unfold advance. cbn. rewrite drop_0, Hloop. done.
  - split; cbn.
    + by rewrite HidsR'.
    + rewrite fmap_app, NoDup_app. split_and!; [done| |apply NoDup_singleton].
      intros m Hm ->%list_elem_of_singleton. done.
    + done.
    + apply Forall_app. split.
      { eapply Forall_impl; [exact Hacqs|]. intros a. by apply acquisition_ok_ids. }
      constructor; [|done]. split; cbn; try done.
      * by rewrite HidsR'.
      * by rewrite (positions_of_ids R' (snap_resources s)).
      * by rewrite Hsplit, take_app_length.
      * rewrite Hsplit, <-head_drop, drop_app_length. done.
Qed.

Lemma acquire_request_ok s n req s' :
  acquire s n req = Ok s' → req ≠ [] → request_ok s n req.
Proof.
  unfold acquire, require_identity. intros H Hne. inv_ok.
  rewrite (proj2 (is_nil_false req) Hne) in *. inv_ok.
  repeat match goal with
  | H : negb _ = false |- _ => apply negb_false_iff in H
  end.
  split.
  - by apply canonical_spec.
  - intros (a & -> & Ha)%list_elem_of_fmap.
    match goal with H : existsb _ _ = false |- _ => rewrite existsb_false_iff in H; specialize (H a Ha); by apply bool_decide_eq_false in H end.
  - by apply no_repeats_spec.
  - by apply subset_of_spec.
  - by eapply bool_decide_eq_true.
Qed.

Lemma acquire_inv s n req s' : snapshot_inv s → acquire s n req = Ok s' →
  snapshot_inv s' ∧ ids (snap_resources s') = ids (snap_resources s).
Proof.
  intros Hinv H. destruct (decide (req = [])) as [->|Hne].
  { unfold acquire in H. inv_ok. cbn in H. inv_ok. by subst. }
  destruct (acquire_spec s n req Hinv (acquire_request_ok _ _ _ _ H Hne) Hne)
    as (R' & got & rest & H' & _ & Hids & Hs).
  rewrite H' in H. inv_ok. by subst.
Qed.

(* ------------------------------------------------------------------ *)
(** ** Replayed snapshots satisfy the invariant *)

Lemma blank_inv R : NoDup (ids R) → snapshot_inv (blank R).
Proof.
  intros Hnd. split; cbn; [|constructor| |constructor].
  - by rewrite <-list_fmap_compose.
  - apply Forall_fmap, Forall_true. intros l. split; cbn; [| |constructor|done].
    + intros n. split; [done|]. intros (a & Ha & _). by apply elem_of_nil in Ha.
    + intros n. split; [by intros ?%elem_of_nil|]. intros (a & Ha & _). by apply elem_of_nil in Ha.
Qed.

Lemma blank_ids R : ids (snap_resources (blank R)) = ids R.
Proof. cbn. by rewrite <-list_fmap_compose. Qed.

Lemma py_for_state_inv {A S} (P : S → Prop) (xs : list A) s body s' :
  P s → (∀ s x s', x ∈ xs → P s → body s x = Ok s' → P s') →
  py_for_state xs s body = Ok s' → P s'.
Proof.
  revert s. induction xs as [|x xs IH]; intros s Hs Hstep H; cbn in H.
  - inv_ok. by subst.
  - destruct (body s x) as [s1|e] eqn:E; [|done]. eapply (IH s1); [|intros; eapply Hstep; [by right|done..]|done].
    eapply Hstep; [by left|exact Hs|exact E].
Qed.

Lemma replay_inv R acqs s :
  NoDup (ids R) → replay R acqs = Ok s → snapshot_inv s ∧ ids (snap_resources s) = ids R.
Proof.
  intros Hnd. eapply (py_for_state_inv (λ s, snapshot_inv s ∧ ids (snap_resources s) = ids R)).
  - split; [by apply blank_inv|apply blank_ids].
  - intros s0 a s1 _ [Hinv Hids] [Hinv' Hids']%acquire_inv; [|done]. split; [done|]. by rewrite Hids'.
Qed.

(** An acquisition never waits for a lock it holds. *)
Lemma waiting_not_acquired R a r :
  acquisition_ok R a → acq_waiting_for a = Some r → r ∉ acq_acquired a.
Proof.
  intros [_ _ Hnd _ _ Hpre Hw] Hr Hin. rewrite Hw in Hr. rewrite Hpre in Hin.
  apply list_elem_of_lookup in Hin as [i Hi]. assert (Hlt := lookup_lt_Some _ _ _ Hi).
  rewrite length_take in Hlt. rewrite lookup_take_lt in Hi by lia.
  pose proof (NoDup_lookup _ _ _ _ Hnd Hi Hr). lia.
Qed.

Lemma same_node_same_acquisition acqs a b :
  NoDup (acq_node_id <$> acqs) → a ∈ acqs → b ∈ acqs → acq_node_id a = acq_node_id b → a = b.
Proof.
  intros Hnd Ha Hb Hab. pose proof (acquisitions_by_node_lookup acqs a Hnd Ha) as H1.
  rewrite Hab, (acquisitions_by_node_lookup acqs b Hnd Hb) in H1. congruence.
Qed.

Lemma known_lock R r : NoDup (ids R) → r ∈ ids R →
  ∃ p l, positions_of R !! r = Some p ∧ R !! p = Some l ∧ lock_resource_id l = r.
Proof.
  intros Hnd [p Hp]%list_elem_of_lookup. assert (Hp' := Hp).
  rewrite list_lookup_fmap in Hp. apply fmap_Some in Hp as (l & Hl & ->).
  exists p, l. split; [by apply positions_of_lookup|done].
Qed.

Lemma inv_validate_lock s l :
  snapshot_inv s → canonical (lock_resource_id l) → l ∈ snap_resources s → validate_lock l = Ok tt.
Proof.
  intros [_ Hnodes Hlinks Hacqs] Hc Hl. rewrite Forall_forall in Hlinks; rewrite Forall_forall in Hacqs.
  destruct (Hlinks l Hl) as [Ho Hw Hn _]. unfold validate_lock, require_identity.
  apply seq_Ok; [by apply raise_if_pass, canonical_negb|].
  apply seq_Ok; [apply raise_if_pass; by rewrite (proj2 (no_repeats_spec _) Hn)|].
  apply seq_Ok.
  - destruct (lock_owner l) as [n|]; [|done].
    destruct (proj1 (Ho n) eq_refl) as (a & Ha & <- & Hin).
    apply seq_Ok; [apply raise_if_pass, canonical_negb; by destruct (Hacqs a Ha)|].
    apply raise_if_pass, mem_false. intros (b & Hb & Hab & Hwait)%Hw.
    assert (b = a) as -> by (by eapply same_node_same_acquisition).
    by eapply waiting_not_acquired in Hin; [|by apply Hacqs|].
  - apply py_for_Ok. intros n (a & Ha & <- & _)%Hw. apply raise_if_pass, canonical_negb.
    by destruct (Hacqs a Ha).
Qed.

Lemma inv_validate_acquisition s a :
  snapshot_inv s → a ∈ snap_acquisitions s → validate_acquisition s a = Ok tt.
Proof.
  intros [Hids Hnodes Hlinks Hacqs] Ha. rewrite Forall_forall in Hlinks; rewrite Forall_forall in Hacqs.
  destruct (Hacqs a Ha) as [Hnode Hne Hnd Hknown Hord Hpre Hwait].
  unfold validate_acquisition, require_identity.
  apply seq_Ok; [by apply raise_if_pass, canonical_negb|].
  apply seq_Ok; [by apply raise_if_pass, is_nil_false|].
  apply seq_Ok; [apply raise_if_pass; by rewrite (proj2 (no_repeats_spec _) Hnd)|].
  apply seq_Ok; [apply raise_if_pass; by rewrite (proj2 (subset_of_spec _ _) Hknown)|].
  apply seq_Ok; [apply raise_if_pass; by rewrite (bool_decide_true _ Hord)|].
  apply seq_Ok; [apply raise_if_pass; by rewrite (bool_decide_true _ Hpre)|].
  apply seq_Ok; [apply raise_if_pass; by rewrite (bool_decide_true _ Hwait)|].
  apply seq_Ok.
  - apply py_for_Ok. intros r Hr.
    assert (r ∈ ids (snap_resources s)) as Hin.
    { apply Hknown. rewrite Hpre in Hr. by eapply elem_of_take in Hr as (? & ? & _); eapply list_elem_of_lookup_2. }
    destruct (known_lock _ r Hids Hin) as (p & l & Hp & Hl & <-).
    unfold dict_get, list_get. rewrite Hp; cbn; rewrite Hl; cbn.
    apply raise_if_pass. rewrite bool_decide_true; [done|].
    apply (linked_owner (snap_acquisitions s) l); [|by exists a].
    apply Hlinks. by eapply list_elem_of_lookup_2.
  - destruct (acq_waiting_for a) as [r|] eqn:Ew; [|done].
    assert (r ∈ ids (snap_resources s)) as Hin.
    { apply Hknown. symmetry in Hwait. by eapply list_elem_of_lookup_2. }
    destruct (known_lock _ r Hids Hin) as (p & l & Hp & Hl & <-).
    unfold dict_get, list_get. rewrite Hp; cbn; rewrite Hl; cbn.
    apply raise_if_pass. rewrite (proj2 (mem_spec _ _)); [done|].
    apply (linked_waiters (snap_acquisitions s) l); [|by exists a].
    apply Hlinks. by eapply list_elem_of_lookup_2.
Qed.

Lemma inv_validate_links s l :
  snapshot_inv s → l ∈ snap_resources s → validate_lock_links (snap_acquisitions s) l = Ok tt.
Proof.
  intros [_ Hnodes Hlinks _] Hl. rewrite Forall_forall in Hlinks.
  destruct (Hlinks l Hl) as [Ho Hw _ _]. unfold validate_lock_links.
  apply seq_Ok.
  { apply raise_if_pass. destruct (lock_owner l) as [n|]; [|done].
    apply negb_false_iff, mem_spec. destruct (proj1 (Ho n) eq_refl) as (a & Ha & <- & _).
    by apply list_elem_of_fmap_2. }
  apply seq_Ok.
  { apply raise_if_pass, negb_false_iff, subset_of_spec. intros n (a & Ha & <- & _)%Hw.
    by apply list_elem_of_fmap_2. }
  apply raise_if_pass, existsb_false_iff. intros n (a & Ha & <- & Hwait)%Hw.
  rewrite acquisitions_by_node_lookup by done. by rewrite bool_decide_true.
Qed.

Lemma inv_validates s :
  snapshot_inv s → Forall canonical (ids (snap_resources s)) → validate_snapshot s = Ok tt.
Proof.
  intros Hinv Hc. pose proof Hinv as [Hids Hnodes _ _]. unfold validate_snapshot.
  apply seq_Ok; [apply raise_if_pass; by rewrite (proj2 (no_repeats_spec _) Hids)|].
  apply seq_Ok.
  { apply py_for_Ok. intros l Hl. eapply inv_validate_lock; [done| |done].
    rewrite Forall_forall in Hc. apply Hc. by apply list_elem_of_fmap_2. }
  apply seq_Ok; [apply raise_if_pass; by rewrite (proj2 (no_repeats_spec _) Hnodes)|].
  apply seq_Ok; apply py_for_Ok; intros; [by apply inv_validate_acquisition|by apply inv_validate_links].
Qed.

(** What validation accepts: replayed snapshots over distinct canonical ids. *)
Lemma valid_iff s :
  validate_resource_snapshot s = Ok tt ↔
  NoDup (ids (snap_resources s)) ∧ Forall canonical (ids (snap_resources s))
  ∧ replay (snap_resources s) (snap_acquisitions s) = Ok s.
Proof.
  unfold validate_resource_snapshot. split.
  - intros H. inv_ok. apply negb_false_iff, bool_decide_eq_true in H as ->.
    match goal with H : validate_snapshot s = _ |- _ => unfold validate_snapshot in H end.
    inv_ok.
    repeat match goal with H : negb (no_repeats _) = false |- _ =>
      apply negb_false_iff, no_repeats_spec in H end.
    split_and!; [done| |done].
    match goal with u : unit, H : py_for _ validate_lock = Ok ?u |- _ => destruct u;
      rename H into Hlocks end.
    rewrite py_for_Ok in Hlocks. apply Forall_fmap, Forall_forall. intros l Hl. cbn.
    specialize (Hlocks l Hl). unfold validate_lock, require_identity in Hlocks. inv_ok.
    by apply canonical_negb.
  - intros (Hnd & Hc & Hr). apply seq_Ok.
    + apply inv_validates; [|done]. by eapply replay_inv.
    + rewrite Hr. cbn. by rewrite bool_decide_true.
Qed.

Lemma valid_inv s : validate_resource_snapshot s = Ok tt → snapshot_inv s.
Proof. intros (Hnd & _ & Hr)%valid_iff. by eapply replay_inv. Qed.

(* ------------------------------------------------------------------ *)
(** ** Mutual exclusion and progress *)

Lemma admitted_iff R a : acquisition_ok R a → admitted a = true ↔ acq_waiting_for a = None.
Proof.
  intros [_ _ _ _ _ Hpre Hw]. unfold admitted. rewrite andb_true_iff, !bool_decide_eq_true.
  split; [naive_solver|]. intros Hn. split; [|done]. rewrite Hn in Hw. symmetry in Hw.
  apply lookup_ge_None in Hw. by rewrite Hpre, take_ge.
Qed.

(** A held lock precedes the awaited one in the global order. *)
Lemma held_before_awaited R a r r' p p' :
  NoDup (ids R) → acquisition_ok R a →
  r ∈ acq_acquired a → acq_waiting_for a = Some r' →
  positions_of R !! r = Some p → positions_of R !! r' = Some p' → p < p'.
Proof.
  intros Hids Hok Hr Hw Hp Hp'. pose proof Hok as [_ _ Hnd _ Hord Hpre Hwait].
  apply sorted_key_id_iff in Hord. unfold weakly_sorted in Hord.
  set (k := length (acq_acquired a)) in *.
  rewrite <-(take_drop k (acq_required a)) in Hord.
  assert (r' ∈ drop k (acq_required a)) as Hr'.
  { rewrite Hw in Hwait. symmetry in Hwait. apply list_elem_of_lookup. exists 0.
    by rewrite lookup_drop, Nat.add_0_r. }
  rewrite Hpre in Hr. apply StronglySorted_app in Hord as [Hord _]. specialize (Hord r r' Hr Hr').
  rewrite Hp, Hp' in Hord. cbn in Hord. apply cmp_leb_spec in Hord as [Hlt|Heq].
  - by apply Nat.compare_lt_iff in Hlt.
  - subst p'. apply (positions_of_lookup R) in Hp, Hp'; [|done..]. rewrite Hp in Hp'.
    injection Hp' as ->. rewrite <-Hpre in Hr. by destruct (waiting_not_acquired R a r').
Qed.

Lemma held_by_one s a b r :
  snapshot_inv s → a ∈ snap_acquisitions s → b ∈ snap_acquisitions s →
  r ∈ acq_acquired a → r ∈ acq_acquired b → a = b.
Proof.
  intros [Hids Hnodes Hlinks Hacqs] Ha Hb Hra Hrb.
  rewrite Forall_forall in Hacqs. destruct (Hacqs a Ha) as [_ _ _ Hknown _ Hpre _].
  assert (r ∈ ids (snap_resources s)) as Hin.
  { apply Hknown. rewrite Hpre in Hra. apply elem_of_take in Hra as (i & Hi & _). by eapply list_elem_of_lookup_2. }
  destruct (known_lock _ r Hids Hin) as (p & l & _ & Hl & <-).
  rewrite Forall_lookup in Hlinks. destruct (Hlinks p l Hl) as [Ho _ _ _].
  eapply same_node_same_acquisition; [done..|].
  assert (lock_owner l = Some (acq_node_id a)) as H1 by (apply Ho; eauto).
  assert (lock_owner l = Some (acq_node_id b)) as H2 by (apply Ho; eauto).
  congruence.
Qed.

(** mutual exclusion: in a valid snapshot no resource is held by two
    acquisitions. *)
Lemma resource_mutual_exclusion s a b r :
  validate_resource_snapshot s = Ok tt →
  a ∈ snap_acquisitions s → b ∈ snap_acquisitions s →
  r ∈ acq_acquired a → r ∈ acq_acquired b → a = b.
Proof. intros Hinv%valid_inv. by apply held_by_one. Qed.

Lemma some_admitted s :
  validate_resource_snapshot s = Ok tt → snap_acquisitions s ≠ [] →
  ∃ a, a ∈ snap_acquisitions s ∧ admitted a = true.
Proof.
  intros Hinv%valid_inv Hne. destruct Hinv as [Hids Hnodes Hlinks Hacqs].
  rewrite Forall_forall in Hacqs. rewrite Forall_lookup in Hlinks.
  assert (∀ k a r p, a ∈ snap_acquisitions s → acq_waiting_for a = Some r →
    positions_of (snap_resources s) !! r = Some p → length (snap_resources s) - p ≤ k →
    ∃ b, b ∈ snap_acquisitions s ∧ admitted b = true) as Hgo.
  { induction k as [|k IH]; intros a r p Ha Hw Hp Hk.
    - apply positions_of_lookup, lookup_lt_Some in Hp; [|done]. rewrite length_fmap in Hp. lia.
    - assert (Hp' := Hp). apply positions_of_lookup in Hp'; [|done].
      rewrite list_lookup_fmap in Hp'. apply fmap_Some in Hp' as (l & Hl & ->).
      destruct (Hlinks p l Hl) as [Ho Hwt _ Hq].
      assert (acq_node_id a ∈ lock_waiters l) as Hin by (apply Hwt; eauto).
      destruct (lock_owner l) as [m|] eqn:Em; [|destruct Hq; [by intros Hn; rewrite Hn in Hin; apply elem_of_nil in Hin|done]].
      destruct (proj1 (Ho m) eq_refl) as (b & Hb & _ & Hheld).
      destruct (acq_waiting_for b) as [r'|] eqn:Ew.
      + destruct (Hacqs b Hb) as [_ _ _ Hknown _ _ Hwait].
        destruct (known_lock (snap_resources s) r' Hids) as (p' & l' & Hpos' & Hl' & _).
        { apply Hknown. rewrite Ew in Hwait. symmetry in Hwait. by eapply list_elem_of_lookup_2. }
        pose proof (held_before_awaited _ b _ _ _ _ Hids (Hacqs b Hb) Hheld Ew Hp Hpos').
        apply (IH b r' p'); [done..|]. lia.
      + exists b. split; [done|]. by eapply admitted_iff; [apply Hacqs|]. }
  destruct (snap_acquisitions s) as [|a acqs] eqn:E; [done|]. rewrite <-E in *.
  assert (a ∈ snap_acquisitions s) as Ha by (rewrite E; by left).
  destruct (acq_waiting_for a) as [r|] eqn:Ew.
  - destruct (Hacqs a Ha) as [_ _ _ Hknown _ _ Hwait].
    destruct (known_lock (snap_resources s) r Hids) as (p & l & Hpos & _ & _).
    { apply Hknown. rewrite Ew in Hwait. symmetry in Hwait. by eapply list_elem_of_lookup_2. }
    by eapply Hgo.
  - exists a. split; [done|]. by eapply admitted_iff; [apply Hacqs|].
Qed.

(** C39: no deadlock: as long as a valid snapshot has acquisitions, at least one
    of them holds everything it asked for and can run. *)
Theorem resource_deadlock_freedom s :
  validate_resource_snapshot s = Ok tt → snap_acquisitions s ≠ [] →
  ∃ a, a ∈ snap_acquisitions s ∧ admitted a = true.
Proof. apply some_admitted. Qed.

(* ------------------------------------------------------------------ *)
(** ** Acquisition through the public reducer *)

Lemma replay_snoc R acqs a :
  replay R (acqs ++ [a]) = (s ← replay R acqs; acquire s (acq_node_id a) (acq_required a)).
Proof.
  unfold replay. generalize (blank R). induction acqs as [|b acqs IH]; intros s; cbn.
  - by destruct (acquire s _ _).
  - destruct (acquire s _ _) as [s'|e]; cbn; [apply IH|done].
Qed.

Lemma replay_ids R R' acqs : ids R = ids R' → replay R acqs = replay R' acqs.
Proof.
  intros H. unfold replay. f_equal. unfold blank. f_equal.
  assert (∀ Q : list ResourceLock, (λ r, mkLock (lock_resource_id r) None []) <$> Q
            = (λ x, mkLock x None []) <$> ids Q) as Hf by (intros; by rewrite <-list_fmap_compose).
  by rewrite !Hf, H.
Qed.

(** a request succeeds exactly when it should: on a valid snapshot,
    [reduce_resources] accepts a non-empty acquisition iff the node is canonical and has
    no acquisition yet, and the resources are known, distinct and in the global order.
    In particular neither re-validation of the result nor the replay ever rejects it. *)
Lemma reduce_acquire_exact s n req :
  validate_resource_snapshot s = Ok tt → req ≠ [] →
  (∃ s', reduce_resources s (AcquireResources n req) = Ok s') ↔ request_ok s n req.
Proof.
  intros Hv Hne. unfold reduce_resources. rewrite Hv. cbn. split.
  - intros (s' & H). inv_ok. by eapply acquire_request_ok.
  - intros Hreq. destruct (acquire_spec s n req (valid_inv _ Hv) Hreq Hne)
      as (R' & got & rest & Hacq & _ & Hids & Hinv').
    rewrite Hacq. cbn. eexists. apply bind_Ok. exists tt. split; [|reflexivity].
    apply valid_iff in Hv as (Hnd & Hc & Hr). apply valid_iff.
    cbn [snap_resources snap_acquisitions]. rewrite Hids. split_and!; [done..|].
    by rewrite replay_snoc, (replay_ids _ (snap_resources s)), Hr by done.
Qed.

(** What an accepted acquisition leads to: a valid snapshot over the same locks, in which the
    node holds the longest prefix of free locks it asked for. *)
Lemma acquired_prefix s n req s' :
  snapshot_inv s → req ≠ [] → acquire s n req = Ok s' →
  ids (snap_resources s') = ids (snap_resources s)
  ∧ ∃ got rest, req = got ++ rest ∧ snap_acquisitions s' = snap_acquisitions s ++ [mkAcquisition n req got (head rest)]
    ∧ (∀ r a, r ∈ got → a ∈ snap_acquisitions s → r ∉ acq_acquired a)
    ∧ (∀ r, head rest = Some r → ∃ a, a ∈ snap_acquisitions s ∧ r ∈ acq_acquired a).
Proof.
  intros Hinv Hne E. pose proof (acquire_request_ok _ _ _ _ E Hne) as Hreq.
  destruct (acquire_spec s n req Hinv Hreq Hne) as (R' & got & rest & E' & Hsplit & Hids & [Hnd Hnodes Hlinks Hacqs]).
  rewrite E in E'. injection E' as ->. cbn [snap_resources snap_acquisitions] in *. split; [done|]. exists got, rest.
  assert (∀ r, r ∈ req → ∃ l, l ∈ R' ∧ lock_resource_id l = r) as Hlock.
  { intros r Hr%(req_known _ _ _ Hreq). rewrite <- Hids in Hr. apply list_elem_of_fmap in Hr as (l & -> & Hl). by exists l. }
  rewrite Forall_forall in Hlinks. assert (part n req got (head rest) ∈ snap_acquisitions s ++ [part n req got (head rest)]) as Hlast by set_solver.
  split_and!; [done|done| |].
  - intros r a Hr Ha Hin. destruct (Hlock r) as (l & Hl & <-); [rewrite Hsplit; set_solver|].
    assert (lock_owner l = Some n) as Hn by (apply (linked_owner _ _ (Hlinks _ Hl)); by eexists).
    assert (lock_owner l = Some (acq_node_id a)) as Ha' by (apply (linked_owner _ _ (Hlinks _ Hl)); exists a; set_solver).
    apply (req_fresh _ _ _ Hreq). rewrite Hn in Ha'. injection Ha' as ->. by apply list_elem_of_fmap_2.
  - intros r Hr. destruct (Hlock r) as (l & Hl & Hid); [rewrite Hsplit; destruct rest; [done|injection Hr as ->; set_solver]|].
    pose proof (Hlinks _ Hl) as [Ho Hw _ Hq]. assert (n ∈ lock_waiters l) as Hin by (apply Hw; eexists; split; [exact Hlast|]; cbn; by rewrite Hr, Hid).
    destruct (lock_owner l) as [m|] eqn:Em; [|exfalso; apply Hq; [|done]; intros Hnil; rewrite Hnil in Hin; by apply elem_of_nil in Hin].
    destruct (proj1 (Ho m) eq_refl) as (a & [Ha| ->%list_elem_of_singleton]%elem_of_app & _ & Hacq); [exists a; by rewrite <- Hid|].
    exfalso. cbn in Hacq. rewrite Hid in Hacq. pose proof (req_nodup _ _ _ Hreq) as Hnodup. rewrite Hsplit in Hnodup.
    apply NoDup_app in Hnodup as (_ & Hdisj & _). apply (Hdisj r Hacq). destruct rest; [done|]. injection Hr as ->. by left.
Qed.

(** C40: acquisition is exact.  From every valid snapshot, [reduce_resources] accepts a
    non-empty acquisition if and only if the node is canonical and has no acquisition yet,
    and the resources are known, distinct and in the global order; the result is again
    valid over the same locks, every other acquisition is as before, and the node holds the
    longest prefix of what it asked for that nobody held, waiting for the first resource
    after it, which an earlier node holds. *)
Theorem acquisition_exact s n req :
  validate_resource_snapshot s = Ok tt → req ≠ [] →
  ((∃ s', reduce_resources s (AcquireResources n req) = Ok s') ↔ request_ok s n req)
  ∧ ∀ s', reduce_resources s (AcquireResources n req) = Ok s' →
      validate_resource_snapshot s' = Ok tt ∧ ids (snap_resources s') = ids (snap_resources s)
      ∧ ∃ got rest, req = got ++ rest ∧ snap_acquisitions s' = snap_acquisitions s ++ [mkAcquisition n req got (head rest)]
        ∧ (∀ r a, r ∈ got → a ∈ snap_acquisitions s → r ∉ acq_acquired a)
        ∧ (∀ r, head rest = Some r → ∃ a, a ∈ snap_acquisitions s ∧ r ∈ acq_acquired a).
Proof.
  intros Hv Hne. split; [by apply reduce_acquire_exact|]. intros s' E. unfold reduce_resources in E. rewrite Hv in E. cbn in E.
  apply bind_Ok in E as (s1 & Ha & E). apply seq_Ok_iff in E as [Hv' [= <-]]. split; [done|].
  apply acquired_prefix; [by apply valid_inv|done..].
Qed.

(** A snapshot over two resources in which node [a] holds the first, node [c] the
    second, and node [b] queues for both. *)
Definition two_locks : list ResourceLock := [mkLock (lit "r1") None []; mkLock (lit "r2") None []].
Definition contended : result ResourceSnapshot :=
  s1 ← reduce_resources (mkSnapshot two_locks []) (AcquireResources (lit "a") [lit "r1"]);
  s2 ← reduce_resources s1 (AcquireResources (lit "b") [lit "r1"; lit "r2"]);
  reduce_resources s2 (AcquireResources (lit "c") [lit "r2"]).


Lemma resource_deadlock_freedom_witness :
  ∃ a, a ∈ [mkAcquisition (lit "a") [lit "r1"] [lit "r1"] None;
            mkAcquisition (lit "b") [lit "r1"] [] (Some (lit "r1"))] ∧ admitted a = true.
Proof.
  apply (resource_deadlock_freedom (mkSnapshot
    [mkLock (lit "r1") (Some (lit "a")) [lit "b"]] _)); [vm_compute; reflexivity|done].
Defined.


(** A release can be refused although it should not: there is a snapshot, reached
    from free locks by accepted acquisitions only, in which a node is admitted (it holds
    all it asked for), yet [reduce_resources] rejects its release.  Handing the first lock
    to the queued node lets a later node keep the lock the replay would give to the earlier
    one, so the released snapshot is not the replay of its own acquisitions. *)
Lemma release_of_admitted_rejected :
  ∃ s a, contended = Ok s ∧ a ∈ snap_acquisitions s ∧ admitted a = true
    ∧ reduce_resources s (ReleaseResources (acq_node_id a))
      = Raise (Exn ResourceTransitionError
          "resources snapshot does not match its replayed acquisition sequence").
Proof.
  eexists _, (mkAcquisition (lit "a") [lit "r1"] [lit "r1"] None).
  split; [vm_compute; reflexivity|]. split; [by left|]. split; vm_compute; reflexivity.
Qed.

(** Node [d] asks for a free and a held resource, and gets the first. *)
Lemma acquisition_exact_witness :
  let s := mkSnapshot [mkLock (lit "r1") None []; mkLock (lit "r2") (Some (lit "c")) []]
    [mkAcquisition (lit "c") [lit "r2"] [lit "r2"] None] in
  validate_resource_snapshot s = Ok tt
  ∧ ((∃ s', reduce_resources s (AcquireResources (lit "d") [lit "r1"; lit "r2"]) = Ok s') ↔ request_ok s (lit "d") [lit "r1"; lit "r2"])
  ∧ ∃ s' got rest, reduce_resources s (AcquireResources (lit "d") [lit "r1"; lit "r2"]) = Ok s'
    ∧ snap_acquisitions s' = snap_acquisitions s ++ [mkAcquisition (lit "d") [lit "r1"; lit "r2"] got (head rest)].
Proof.
  intros s. assert (validate_resource_snapshot s = Ok tt) as Hv by (vm_compute; reflexivity).
  destruct (acquisition_exact s (lit "d") [lit "r1"; lit "r2"] Hv ltac:(discriminate)) as [Hi Hs].
  split; [exact Hv|]. split; [exact Hi|]. eexists. edestruct Hs as (_ & _ & got & rest & _ & Ha & _); [vm_compute; reflexivity|].
  exists got, rest. split; [vm_compute; reflexivity|exact Ha].
Defined.
