(* ===== verification/Model.v ===== *)
(** * The graph-run state and its commands

    [state/graph_state/model.py], [frontier_model.py], [routing.py] and
    [command.py]: the durable records, their checked constructors ([__post_init__])
    and re-admission functions, the frontier queries, and the command types. *)

From Stdlib Require Import ZArith NArith Lia Bool String Strings.Byte.
From stdpp Require Import prelude strings gmap sorting.
From S2P Require Import Prelude Identity Resources.

Set Default Goal Selector "!".

(** Python [bytes]. *)
Abbreviation bytes := (list byte).
#[export] Instance byte_eq_decision : EqDecision byte := Byte.byte_eq_dec.

(* ------------------------------------------------------------------ *)
(** ** Routing contributions: [routing.py] *)

Inductive GraphRoutingContribution :=
| ContinueGraphRouting
| SelectGraphRoute (route : str).

#[export] Instance routing_eq_dec : EqDecision GraphRoutingContribution.
Proof. solve_decision. Defined.

(** [routing.route if isinstance(routing, SelectGraphRoute) else None] *)
Definition selected_route (routing : GraphRoutingContribution) : option str :=
  match routing with SelectGraphRoute route => Some route | ContinueGraphRouting => None end.

(* ------------------------------------------------------------------ *)
(** ** Frontier: [frontier_model.py] *)

Inductive GraphActivationCause :=
| StartActivationCause
| RoutedActivationCause (references : list ActivationReference)
    (join_occurrence : option GraphJoinOccurrenceIdentity).

Record GraphFrontierActivation := mkFrontierActivation {
  fa_node_id : str;
  fa_cause : GraphActivationCause
}.

Inductive GraphFrontierStatus := EXECUTABLE | FRONTIER_FAILED | AWAITING_RESUME | SETTLED.

Record GraphResumeInputCodec := mkCodec { codec_id : str; codec_version : Z }.

Inductive GraphNodeInputBinding :=
| UseStepRequestInput
| OverrideGraphNodeInput (payload : bytes).

Record GraphNodeInterruptIdentity := mkInterruptIdentity {
  int_run_id : str;
  int_superstep : Z;
  int_node_id : str;
  int_execution_generation : Z
}.

Record GraphNodeInterrupt := mkInterrupt {
  interrupt_identity : GraphNodeInterruptIdentity;
  interrupt_request_payload : bytes
}.

Inductive GraphNodeSettlement :=
| PendingGraphNode (input : GraphNodeInputBinding)
| SucceededGraphNode (routing : GraphRoutingContribution)
| FailedGraphNode (failure : str)
| InterruptedGraphNode (interrupt : GraphNodeInterrupt).

Record GraphFrontierNode := mkFrontierNode {
  fn_node_id : str;
  fn_settlement : GraphNodeSettlement;
  fn_cause : GraphActivationCause
}.

(** [GraphFrontierState] has the one field [nodes]. *)
Record GraphFrontierState := mkFrontier { frontier_nodes : list GraphFrontierNode }.

#[export] Instance cause_eq_dec : EqDecision GraphActivationCause.
Proof. solve_decision. Defined.
#[export] Instance frontier_status_eq_dec : EqDecision GraphFrontierStatus.
Proof. solve_decision. Defined.
#[export] Instance codec_eq_dec : EqDecision GraphResumeInputCodec.
Proof. solve_decision. Defined.
#[export] Instance input_eq_dec : EqDecision GraphNodeInputBinding.
Proof. solve_decision. Defined.
#[export] Instance interrupt_identity_eq_dec : EqDecision GraphNodeInterruptIdentity.
Proof. solve_decision. Defined.
#[export] Instance interrupt_eq_dec : EqDecision GraphNodeInterrupt.
Proof. solve_decision. Defined.
#[export] Instance settlement_eq_dec : EqDecision GraphNodeSettlement.
Proof. solve_decision. Defined.
#[export] Instance frontier_node_eq_dec : EqDecision GraphFrontierNode.
Proof. solve_decision. Defined.
#[export] Instance frontier_eq_dec : EqDecision GraphFrontierState.
Proof. solve_decision. Defined.

(** [RoutedActivationCause.__post_init__] *)
Definition RoutedActivationCause_new (references : list ActivationReference)
    (join_occurrence : option GraphJoinOccurrenceIdentity) : result GraphActivationCause :=
  raise_if (is_nil references) ValueError
    "routed activation cause requires at least one reference";;
  raise_if (negb (bool_decide (references = sorted_set_key canonical_key references))) ValueError
    "routed activation cause references must be canonical and distinct";;
  match join_occurrence with
  | None =>
      raise_if (negb (length references =? 1)) ValueError
        "non-Join routed cause requires exactly one reference"
  | Some occurrence =>
      let source_ids := act_node_id ∘ ref_activation <$> references in
      raise_if (negb (no_repeats source_ids)
                || negb (same_set source_ids (join_sources (occ_join occurrence)))) ValueError
        "routed Join cause must contain exactly one reference per source";;
      raise_if (existsb (λ reference,
          negb (bool_decide (act_run_id (ref_activation reference) = occ_run_id occurrence))
          || (occ_target_superstep occurrence <=? act_superstep (ref_activation reference))%Z)
          references) ValueError
        "routed Join cause references must precede their target coordinate"
  end;;
  Ok (RoutedActivationCause references join_occurrence).

(** [GraphFrontierActivation.__post_init__] *)
Definition GraphFrontierActivation_new (node_id : str) (cause : GraphActivationCause)
    : result GraphFrontierActivation :=
  raise_if (negb (is_canonical_identity node_id)) ValueError
    "frontier activation node_id must be canonical";;
  Ok (mkFrontierActivation node_id cause).

(** [GraphFrontierNode.activation] *)
Definition node_activation (node : GraphFrontierNode) : result GraphFrontierActivation :=
  GraphFrontierActivation_new (fn_node_id node) (fn_cause node).

(** [isinstance(settlement, ...)] *)
Definition is_pending (s : GraphNodeSettlement) : bool :=
  match s with PendingGraphNode _ => true | _ => false end.
Definition is_succeeded (s : GraphNodeSettlement) : bool :=
  match s with SucceededGraphNode _ => true | _ => false end.
Definition is_failed (s : GraphNodeSettlement) : bool :=
  match s with FailedGraphNode _ => true | _ => false end.
Definition is_interrupted (s : GraphNodeSettlement) : bool :=
  match s with InterruptedGraphNode _ => true | _ => false end.

Definition frontier_status (frontier : GraphFrontierState) : result GraphFrontierStatus :=
  let settlements := fn_settlement <$> frontier_nodes frontier in
  if existsb is_pending settlements then Ok EXECUTABLE
  else if existsb is_failed settlements then Ok FRONTIER_FAILED
  else if existsb is_interrupted settlements then Ok AWAITING_RESUME
  else if negb (is_nil settlements) && forallb is_succeeded settlements then Ok SETTLED
  else Raise (Exn ValueError "a graph frontier has no valid derived status").

Definition frontier_node (frontier : GraphFrontierState) (node_id : str) : option GraphFrontierNode :=
  List.find (λ node, bool_decide (fn_node_id node = node_id)) (frontier_nodes frontier).

(** [_node_ids] *)
Definition node_ids_with (frontier : GraphFrontierState) (p : GraphNodeSettlement → bool) : list str :=
  fn_node_id <$> List.filter (λ node, p (fn_settlement node)) (frontier_nodes frontier).
Definition pending_node_ids (frontier : GraphFrontierState) : list str :=
  node_ids_with frontier is_pending.
Definition interrupted_node_ids (frontier : GraphFrontierState) : list str :=
  node_ids_with frontier is_interrupted.

Definition routing_contributions (frontier : GraphFrontierState)
    : list (str * GraphRoutingContribution) :=
  omap (λ node, match fn_settlement node with
                | SucceededGraphNode routing => Some (fn_node_id node, routing)
                | _ => None end) (frontier_nodes frontier).

(* ------------------------------------------------------------------ *)
(** ** The Config cursor: [model.py] *)

Record GraphConfigCursor := mkCursor {
  cur_definition_id : str;
  cur_definition_version : Z;
  cur_revision : Z;
  cur_digest : option str
}.
#[export] Instance cursor_eq_dec : EqDecision GraphConfigCursor.
Proof. solve_decision. Defined.

(** [GraphConfigCursor.__post_init__] *)
Definition GraphConfigCursor_new (definition_id : str) (definition_version revision : Z)
    (digest : option str) : result GraphConfigCursor :=
  raise_if (negb (is_canonical_identity definition_id)) ValueError
    "config definition identity must be canonical";;
  raise_if (definition_version <? 1)%Z ValueError "config definition version must be positive";;
  raise_if (revision <? 1)%Z ValueError "config revision must be positive";;
  raise_if (match digest with
            | Some d => is_nil d || negb (bool_decide (d = strip d)) | None => false end)
    ValueError "config digest must be a non-empty string when present";;
  raise_if ((1 <? revision)%Z && bool_decide (digest = None)) ValueError
    "a successor Config revision requires its snapshot digest";;
  Ok (mkCursor definition_id definition_version revision digest).

(** [GraphConfigCursor.admit]: a rejected cursor is a [TypeError]. *)
Definition GraphConfigCursor_admit (c : GraphConfigCursor) : result GraphConfigCursor :=
  except is_admission_error TypeError "Config cursor is malformed"
    (GraphConfigCursor_new (cur_definition_id c) (cur_definition_version c)
       (cur_revision c) (cur_digest c)).

Definition transition_to (self candidate : GraphConfigCursor) : result GraphConfigCursor :=
  candidate ← GraphConfigCursor_admit candidate;
  raise_if (negb (bool_decide (cur_definition_id candidate = cur_definition_id self))
            || negb (cur_definition_version candidate =? cur_definition_version self)%Z)
    ValueError "node settlement cannot change the Config identity or version";;
  if (cur_revision candidate =? cur_revision self)%Z then
    raise_if (match cur_digest self, cur_digest candidate with
              | Some d, Some d' => negb (bool_decide (d' = d)) | _, _ => false end)
      ValueError "node settlement Config digest conflicts at the same revision";;
    match cur_digest self, cur_digest candidate with
    | None, Some _ => Ok candidate
    | _, _ => Ok self
    end
  else if (cur_revision candidate =? cur_revision self + 1)%Z then Ok candidate
  else if (cur_revision candidate <? cur_revision self)%Z then
    Raise (Exn ValueError "node settlement Config revision cannot move backwards")
  else Raise (Exn ValueError "node settlement Config revision must advance exactly once").

Definition admit_history (self reference : GraphConfigCursor) : result unit :=
  reference ← GraphConfigCursor_admit reference;
  raise_if (negb (bool_decide (cur_definition_id reference = cur_definition_id self))
            || negb (cur_definition_version reference =? cur_definition_version self)%Z)
    ValueError "historical Config must belong to the same definition and version";;
  raise_if (cur_revision self <? cur_revision reference)%Z ValueError
    "historical Config cannot be newer than its authoritative state";;
  raise_if ((cur_revision reference =? cur_revision self)%Z
            && negb (bool_decide (cur_digest reference = cur_digest self))) ValueError
    "historical Config digest must match its authoritative revision".

(* ------------------------------------------------------------------ *)
(** ** Execution tokens, evidence and publication settlements: [model.py] *)

Inductive GraphRunStatus := RUNNING | COMPLETED | FAILED | ABORTED.

Record GraphAbort := mkAbort { abort_reason : str }.

Record GraphExecutionToken := mkToken { tok_generation : Z; tok_attempt_id : str }.

Record GraphEvidenceCommitment := mkCommitment { digest : bytes }.

Record GraphPublicationSettlement := mkPublication {
  pub_reference : ActivationReference;
  pub_commit_revision : Z;
  pub_execution : GraphExecutionToken;
  pub_evidence : option GraphEvidenceCommitment
}.

Record GraphExecutionLease := mkLease { lease_token : GraphExecutionToken }.

Record GraphJoinProgress := mkJoinProgress {
  jp_occurrence : GraphJoinOccurrenceIdentity;
  jp_arrived : list ActivationReference
}.

#[export] Instance run_status_eq_dec : EqDecision GraphRunStatus.
Proof. solve_decision. Defined.
#[export] Instance abort_eq_dec : EqDecision GraphAbort.
Proof. solve_decision. Defined.
#[export] Instance token_eq_dec : EqDecision GraphExecutionToken.
Proof. solve_decision. Defined.
#[export] Instance commitment_eq_dec : EqDecision GraphEvidenceCommitment.
Proof. solve_decision. Defined.
#[export] Instance publication_eq_dec : EqDecision GraphPublicationSettlement.
Proof. solve_decision. Defined.
#[export] Instance lease_eq_dec : EqDecision GraphExecutionLease.
Proof. solve_decision. Defined.
#[export] Instance join_progress_eq_dec : EqDecision GraphJoinProgress.
Proof. solve_decision. Defined.

(** [GraphExecutionToken.admit] *)
Definition GraphExecutionToken_admit (token : GraphExecutionToken) : result GraphExecutionToken :=
  raise_if (tok_generation token <? 1)%Z ValueError
    "execution token generation must be an exact positive integer";;
  raise_if (negb (is_canonical_identity (tok_attempt_id token))) ValueError
    "execution attempt identity must be canonical";;
  Ok (mkToken (tok_generation token) (tok_attempt_id token)).

(** [GraphEvidenceCommitment.__post_init__] *)
Definition GraphEvidenceCommitment_new (d : bytes) : result GraphEvidenceCommitment :=
  raise_if (negb (length d =? 32)) ValueError
    "graph evidence commitment must be an exact SHA-256 digest";;
  Ok (mkCommitment d).

Definition GraphEvidenceCommitment_admit (c : GraphEvidenceCommitment)
    : result GraphEvidenceCommitment :=
  except is_admission_error ValueError "graph evidence commitment is malformed"
    (GraphEvidenceCommitment_new (digest c)).

(** Admission of an optional commitment ([admit(x) if x is not None else None]). *)
Definition admit_evidence (o : option GraphEvidenceCommitment)
    : result (option GraphEvidenceCommitment) :=
  match o with
  | Some c => c' ← GraphEvidenceCommitment_admit c; Ok (Some c')
  | None => Ok None
  end.

(** [GraphPublicationSettlement.admit] *)
Definition GraphPublicationSettlement_admit (p : GraphPublicationSettlement)
    : result GraphPublicationSettlement :=
  except is_admission_error ValueError "graph publication settlement is malformed" (
    let reference := pub_reference p in
    let activation := ref_activation reference in
    activation' ← GraphActivationIdentity_new (act_run_id activation) (act_superstep activation)
                    (act_node_id activation);
    reference' ← ActivationReference_new activation' (ref_route reference);
    raise_if (pub_commit_revision p <? 1)%Z ValueError
      "publication settlement revision must be positive";;
    execution ← GraphExecutionToken_admit (pub_execution p);
    evidence ← admit_evidence (pub_evidence p);
    Ok (mkPublication reference' (pub_commit_revision p) execution evidence)).

(** [GraphPublicationSettlement.canonical_key] *)
Definition pub_canonical_key (p : GraphPublicationSettlement) := canonical_key (pub_reference p).

(* ------------------------------------------------------------------ *)
(** ** The authoritative run state: [model.py] *)

Record GraphRunState := mkRunState {
  st_run_id : str;
  st_definition_id : str;
  st_definition_version : Z;
  st_status : GraphRunStatus;
  st_superstep : Z;
  st_frontier : GraphFrontierState;
  st_execution_sequence : Z;
  st_resume_input_codec : option GraphResumeInputCodec;
  st_join_progress : list GraphJoinProgress;
  st_graph_input_evidence : option GraphEvidenceCommitment;
  st_settled_publications : list GraphPublicationSettlement;
  st_resources : option ResourceSnapshot;
  st_execution : option GraphExecutionLease;
  st_abort : option GraphAbort;
  st_parent : option GraphActivationIdentity;
  st_revision : Z;
  st_completion_route : option str;
  st_config_revision : Z;
  st_config_definition_id : option str;
  st_config_definition_version : option Z;
  st_config_digest : option str
}.
#[export] Instance run_state_eq_dec : EqDecision GraphRunState.
Proof. solve_decision. Defined.

#[export] Instance run_state_eta : Eta GraphRunState := λ s,
  mkRunState (st_run_id s) (st_definition_id s) (st_definition_version s) (st_status s)
    (st_superstep s) (st_frontier s) (st_execution_sequence s) (st_resume_input_codec s)
    (st_join_progress s) (st_graph_input_evidence s) (st_settled_publications s)
    (st_resources s) (st_execution s) (st_abort s) (st_parent s) (st_revision s)
    (st_completion_route s) (st_config_revision s) (st_config_definition_id s)
    (st_config_definition_version s) (st_config_digest s).

(** [GraphRunState.__post_init__]: an omitted Config identity defaults to the
    topology identity.  [dataclasses.replace] runs it again. *)
Definition post_init (s : GraphRunState) : GraphRunState :=
  s <| st_config_definition_id :=
         Some (default (st_definition_id s) (st_config_definition_id s)) |>
    <| st_config_definition_version :=
         Some (default (st_definition_version s) (st_config_definition_version s)) |>.

(** [GraphRunState.config_cursor] *)
Definition config_cursor (s : GraphRunState) : result GraphConfigCursor :=
  match st_config_definition_id s, st_config_definition_version s with
  | Some definition_id, Some definition_version =>
      GraphConfigCursor_new definition_id definition_version (st_config_revision s) (st_config_digest s)
  | _, _ => Raise (Exn ValueError "graph state is missing its Config identity")
  end.

(* ------------------------------------------------------------------ *)
(** ** Commands: [command.py] *)

Inductive GraphNodeOutcome :=
| SucceededGraphNodeOutcome (node_id : str) (routing : GraphRoutingContribution)
| FailedGraphNodeOutcome (node_id : str) (failure : str)
| InterruptedGraphNodeOutcome (node_id : str) (identity : GraphNodeInterruptIdentity)
    (request_payload : bytes).

Definition outcome_node_id (o : GraphNodeOutcome) : str :=
  match o with
  | SucceededGraphNodeOutcome n _ | FailedGraphNodeOutcome n _ | InterruptedGraphNodeOutcome n _ _ => n
  end.

Record AdvanceGraphFrontier := mkAdvance {
  adv_expected_revision : Z;
  adv_activations : list GraphFrontierActivation;
  adv_join_progress : list GraphJoinProgress;
  adv_consumed_join_progress : list GraphJoinOccurrenceIdentity
}.

Record CompleteGraphFrontier := mkComplete {
  com_expected_revision : Z;
  com_consumed_join_progress : list GraphJoinOccurrenceIdentity;
  com_completion_route : option str
}.

Record ResumeInterruptedNode := mkResumeAction {
  res_node_id : str;
  res_interrupt_id : str;
  res_input : bytes  (** the payload of the [OverrideGraphNodeInput] it carries *)
}.

Record StartGraphRun := mkStart {
  start_run_id : str;
  start_definition_id : str;
  start_definition_version : Z;
  start_activations : list GraphFrontierActivation;
  start_parent : option GraphActivationIdentity;
  start_resume_input_codec : option GraphResumeInputCodec;
  start_config_cursor : option GraphConfigCursor;
  start_graph_input_evidence : option GraphEvidenceCommitment
}.

Record ClaimGraphExecution := mkClaim {
  claim_expected_revision : Z;
  claim_attempt_id : str;
  claim_resources : option ResourceSnapshot
}.

Record FenceGraphExecution := mkFence {
  fence_expected_revision : Z;
  fence_execution : GraphExecutionToken
}.

Record SettleGraphNode := mkSettle {
  set_expected_revision : Z;
  set_execution : GraphExecutionToken;
  set_outcome : GraphNodeOutcome;
  set_config_cursor : option GraphConfigCursor;
  set_publication_evidence : option GraphEvidenceCommitment
}.

Record ResumeGraphNodes := mkResume {
  resume_expected_revision : Z;
  resume_actions : list ResumeInterruptedNode
}.

Record AbortGraphRun := mkAbortCommand {
  abort_expected_revision : Z;
  abort_command_reason : str
}.

Inductive GraphRunCommand :=
| CmdStart (c : StartGraphRun)
| CmdClaim (c : ClaimGraphExecution)
| CmdFence (c : FenceGraphExecution)
| CmdSettle (c : SettleGraphNode)
| CmdResume (c : ResumeGraphNodes)
| CmdAdvance (c : AdvanceGraphFrontier)
| CmdComplete (c : CompleteGraphFrontier)
| CmdAbort (c : AbortGraphRun).

#[export] Instance start_eta : Eta StartGraphRun := λ c,
  mkStart (start_run_id c) (start_definition_id c) (start_definition_version c)
    (start_activations c) (start_parent c) (start_resume_input_codec c)
    (start_config_cursor c) (start_graph_input_evidence c).
#[export] Instance settle_eta : Eta SettleGraphNode := λ c,
  mkSettle (set_expected_revision c) (set_execution c) (set_outcome c) (set_config_cursor c)
    (set_publication_evidence c).
