(* ===== verification/Validation.v ===== *)
(** * Authoritative invariants of a recovered state: [state/graph_state/validation.py]

    The executable validator, one definition per function of the source, each in the
    result monad with the source's order of checks and messages. *)

From Stdlib Require Import ZArith NArith Lia Bool String.
From stdpp Require Import prelude strings gmap sorting.
From S2P Require Import Prelude Identity Resources Model.

Set Default Goal Selector "!".

(** [raise GraphStateTransitionError(m)] when the condition holds. *)
Definition fail_if (b : bool) (m : string) : result unit := raise_if b GraphStateTransitionError m.

Definition require_graph_identity (value : str) (field : string) : result unit :=
  fail_if (negb (is_canonical_identity value)) (field ++ " must be non-empty and trimmed").

(** [_canonical_references] (its result is the argument itself). *)
Definition canonical_references (references : list ActivationReference) (field : string)
    : result unit :=
  fail_if (negb (bool_decide (references = sorted_set_key canonical_key references)))
    (field ++ " must be canonical and distinct").

(** [_reference_activation] *)
Definition reference_activation (reference : ActivationReference) (field : string)
    : result GraphActivationIdentity :=
  let activation := ref_activation reference in
  require_graph_identity (act_run_id activation) (field ++ " run identity");;
  fail_if (act_superstep activation <? 0)%Z (field ++ " superstep must be a non-negative integer");;
  require_graph_identity (act_node_id activation) (field ++ " node identity");;
  match ref_route reference with
  | Some route => require_graph_identity route (field ++ " route identity")
  | None => Ok tt
  end;;
  Ok activation.

(** [{item.reference for item in state.settled_publications}] *)
Definition settled_references (s : GraphRunState) : list ActivationReference :=
  pub_reference <$> st_settled_publications s.

(** The references of the frontier's successes, as a set comprehension in
    [_validate_settled_publications] builds it (checked constructors). *)
Definition frontier_publications (s : GraphRunState) : result (list ActivationReference) :=
  mapM (λ '(node_id, routing),
      activation ← GraphActivationIdentity_new (st_run_id s) (st_superstep s) node_id;
      ActivationReference_new activation (selected_route routing))
    (routing_contributions (st_frontier s)).

(** The loop body over the admitted ledger records. *)
Definition validate_publication (s : GraphRunState) (item : GraphPublicationSettlement)
    : result unit :=
  let reference := pub_reference item in
  activation ← reference_activation reference "settled publication evidence";
  fail_if (negb (bool_decide (act_run_id activation = st_run_id s))
           || (st_superstep s <? act_superstep activation)%Z)
    "settled publication evidence has an invalid coordinate";;
  fail_if (st_revision s <? pub_commit_revision item)%Z
    "settled publication revision exceeds its authoritative state";;
  fail_if (st_execution_sequence s <? tok_generation (pub_execution item))%Z
    "settled publication execution exceeds its authoritative state";;
  if (act_superstep activation =? st_superstep s)%Z && negb (bool_decide (st_status s = COMPLETED))
  then
    match frontier_node (st_frontier s) (act_node_id activation) with
    | Some (mkFrontierNode _ (SucceededGraphNode routing) _) =>
        fail_if (negb (bool_decide (ref_route reference = selected_route routing)))
          "settled publication route does not match its frontier settlement"
    | _ => fail_if true "current settled publication has no successful frontier node"
    end
  else Ok tt.

(** [_validate_settled_publications] *)
Definition validate_settled_publications (s : GraphRunState) : result unit :=
  admitted ← except is_value_error GraphStateTransitionError
    "settled publication evidence contains a malformed record"
    (mapM GraphPublicationSettlement_admit (st_settled_publications s));
  let references := pub_reference <$> admitted in
  canonical_references references "settled publication evidence";;
  fail_if (negb (no_repeats (ref_activation <$> references)))
    "settled publication evidence repeats one activation";;
  fail_if (negb (no_repeats (pub_commit_revision <$> admitted)))
    "settled publication evidence repeats one commit revision";;
  py_for admitted (validate_publication s);;
  if bool_decide (st_status s = COMPLETED) then Ok tt else
  let current_publications :=
    pub_reference <$> List.filter
      (λ item, act_superstep (ref_activation (pub_reference item)) =? st_superstep s)%Z admitted in
  published ← frontier_publications s;
  fail_if (negb (same_set current_publications published))
    "current successful frontier and publication ledger disagree".

(** [_validate_completed_graph_provenance] *)
Definition validate_completed_graph_provenance (s : GraphRunState) : result unit :=
  let terminal := List.filter
    (λ item, act_superstep (ref_activation (pub_reference item)) =? st_superstep s)%Z
    (st_settled_publications s) in
  fail_if (is_nil terminal) "completed graph lacks terminal settlement provenance";;
  fail_if (existsb (λ item, st_revision s <=? pub_commit_revision item)%Z terminal)
    "terminal settlement must precede the completed state revision";;
  let routes := remove_dups ((ref_route ∘ pub_reference) <$> terminal) in
  fail_if (negb (bool_decide (routes = [st_completion_route s])))
    "completed graph route does not match terminal settlement provenance".

(** [_validate_join_occurrence] *)
Definition validate_join_occurrence (s : GraphRunState) (occurrence : GraphJoinOccurrenceIdentity)
    : result unit :=
  let sources := join_sources (occ_join occurrence) in
  fail_if ((length sources <? 2)%nat
           || existsb (λ source, negb (is_canonical_identity source)) sources
           || negb (bool_decide (sources = sorted_set sources)))
    "join definition sources must be distinct and canonical";;
  fail_if (negb (is_canonical_identity (join_target (occ_join occurrence)))
           || mem (join_target (occ_join occurrence)) sources)
    "join definition target is invalid";;
  fail_if (negb (bool_decide (occ_run_id occurrence = st_run_id s))
           || negb (is_canonical_identity (occ_run_id occurrence)))
    "join occurrence belongs to the wrong graph run";;
  fail_if (occ_target_superstep occurrence <? 1)%Z
    "join occurrence target superstep must be positive".

(** The loop body of [_validate_join_progress]; [seen] is threaded by the caller. *)
Definition validate_join_record (s : GraphRunState) (join : GraphJoinProgress) : result unit :=
  let occurrence := jp_occurrence join in
  let sources := join_sources (occ_join occurrence) in
  fail_if (occ_target_superstep occurrence <=? st_superstep s)%Z
    "pending join occurrence must target a future superstep";;
  let arrived := jp_arrived join in
  fail_if (is_nil arrived) "join progress arrivals must be canonical and distinct";;
  canonical_references arrived "join progress arrivals";;
  let arrived_sources := (act_node_id ∘ ref_activation) <$> arrived in
  fail_if (negb (no_repeats arrived_sources) || negb (strict_subset_of arrived_sources sources))
    "join progress must contain partial arrivals";;
  py_for arrived (λ reference,
    activation ← reference_activation reference "join progress arrivals";
    fail_if (negb (bool_decide (act_run_id activation = occ_run_id occurrence))
             || (st_superstep s <=? act_superstep activation)%Z
             || (occ_target_superstep occurrence <=? act_superstep activation)%Z
             || negb (mem (act_node_id activation) sources))
      "join progress contains an invalid predecessor arrival";;
    fail_if (negb (mem reference (settled_references s)))
      "join progress arrival lacks committed settlement evidence").

(** [_validate_join_progress] *)
Definition validate_join_progress (s : GraphRunState) : result unit :=
  let progress := st_join_progress s in
  py_for progress (λ item, validate_join_occurrence s (jp_occurrence item));;
  fail_if (negb (bool_decide (progress = sorted_key jp_occurrence progress)))
    "join progress must use canonical order";;
  _ ← py_for_state progress [] (λ seen join,
    validate_join_record s join;;
    fail_if (mem (jp_occurrence join) seen) "graph state repeats join progress";;
    Ok (jp_occurrence join :: seen));
  Ok tt.

(** [_validate_interrupt_identity] *)
Definition validate_interrupt_identity (s : GraphRunState) (identity : GraphNodeInterruptIdentity)
    : result unit :=
  fail_if (negb (bool_decide (int_run_id identity = st_run_id s))
           || negb (int_superstep identity =? st_superstep s)%Z
           || (int_execution_generation identity <? 1)%Z
           || (st_execution_sequence s <? int_execution_generation identity)%Z)
    "interrupt identity does not match its current activation".

(** [_validate_routing] *)
Definition validate_routing (routing : GraphRoutingContribution) : result unit :=
  match routing with
  | SelectGraphRoute route => require_graph_identity route "graph route identity"
  | ContinueGraphRouting => Ok tt
  end.

(** [_validate_activation_cause] *)
Definition validate_activation_cause (s : GraphRunState) (node_id : str)
    (cause : GraphActivationCause) : result unit :=
  match cause with
  | StartActivationCause =>
      fail_if (negb (st_superstep s =? 0)%Z) "START activation cause is valid only at superstep zero"
  | RoutedActivationCause references join_occurrence =>
      fail_if (st_superstep s =? 0)%Z "initial frontier nodes must carry the START cause";;
      fail_if (is_nil references) "routed activation cause requires non-empty references";;
      canonical_references references "routed activation cause references";;
      py_for references (λ reference,
        activation ← reference_activation reference "routed activation cause";
        fail_if (negb (bool_decide (act_run_id activation = st_run_id s))
                 || (st_superstep s <=? act_superstep activation)%Z)
          "routed activation cause references a non-predecessor activation";;
        fail_if (negb (mem reference (settled_references s)))
          "routed activation cause lacks committed settlement evidence");;
      match join_occurrence with
      | None =>
          fail_if (negb (length references =? 1))
            "non-Join routed cause requires exactly one reference"
      | Some occurrence =>
          validate_join_occurrence s occurrence;;
          fail_if (negb (bool_decide (join_target (occ_join occurrence) = node_id))
                   || negb (occ_target_superstep occurrence =? st_superstep s)%Z)
            "routed Join cause does not match its target activation";;
          let source_ids := (act_node_id ∘ ref_activation) <$> references in
          fail_if (negb (no_repeats source_ids)
                   || negb (same_set source_ids (join_sources (occ_join occurrence))))
            "routed Join cause must exactly cover its occurrence sources"
      end
  end.

(** One node of [validate_graph_frontier]; returns whether it needs a codec. *)
Definition validate_frontier_node (s : GraphRunState) (node : GraphFrontierNode) : result bool :=
  require_graph_identity (fn_node_id node) "frontier node identity";;
  validate_activation_cause s (fn_node_id node) (fn_cause node);;
  match fn_settlement node with
  | PendingGraphNode (OverrideGraphNodeInput _) => Ok true
  | PendingGraphNode UseStepRequestInput => Ok false
  | SucceededGraphNode routing => validate_routing routing;; Ok false
  | FailedGraphNode failure => require_graph_identity failure "graph failure";; Ok false
  | InterruptedGraphNode interrupt =>
      let identity := interrupt_identity interrupt in
      fail_if (negb (bool_decide (int_node_id identity = fn_node_id node)))
        "interrupt identity node does not match its frontier node";;
      validate_interrupt_identity s identity;;
      Ok true
  end.

Definition validate_graph_frontier (s : GraphRunState) (frontier : GraphFrontierState)
    : result unit :=
  let node_ids := fn_node_id <$> frontier_nodes frontier in
  fail_if (negb (bool_decide (node_ids = sorted_set node_ids)))
    "frontier node identities must be distinct and canonical";;
  needs_codec ← py_for_state (frontier_nodes frontier) false
    (λ needs node, b ← validate_frontier_node s node; Ok (needs || b));
  fail_if (needs_codec && bool_decide (st_resume_input_codec s = None))
    "override or interrupt settlement requires a resume input codec";;
  match st_resume_input_codec s with
  | Some codec =>
      require_graph_identity (codec_id codec) "resume input codec identity";;
      fail_if (codec_version codec <? 1)%Z "resume input codec version must be positive"
  | None => Ok tt
  end.

(** The parent checks of [_validate_graph_run_state]. *)
Definition validate_parent (s : GraphRunState) : result unit :=
  match st_parent s with
  | Some parent =>
      require_graph_identity (act_run_id parent) "parent graph run identity";;
      require_graph_identity (act_node_id parent) "parent graph node identity";;
      fail_if ((act_superstep parent <? 0)%Z || bool_decide (act_run_id parent = st_run_id s))
        "parent graph activation is invalid";;
      fail_if (negb (bool_decide (st_run_id s =
          child_graph_run_id (act_run_id parent) (act_superstep parent) (act_node_id parent))))
        "child graph run identity does not match its parent activation"
  | None => Ok tt
  end.

(** The resource checks of [_validate_graph_run_state]. *)
Definition validate_state_resources (s : GraphRunState) : result unit :=
  match st_resources s with
  | Some resources =>
      except (λ k, bool_decide (k = ResourceTransitionError)) GraphStateTransitionError
        "graph resources state is invalid" (validate_resource_snapshot resources);;
      fail_if (is_nil (snap_acquisitions resources))
        "authoritative graph resources cannot be empty";;
      fail_if (bool_decide (st_execution s = None))
        "graph resources require an active execution lease";;
      let pending := pending_node_ids (st_frontier s) in
      fail_if (is_nil pending) "resource admission requires current pending nodes";;
      fail_if (negb (subset_of (acq_node_id <$> snap_acquisitions resources) pending))
        "resource participant is outside current pending nodes"
  | None => Ok tt
  end.

(** The lease checks of [_validate_graph_run_state]. *)
Definition validate_lease (s : GraphRunState) : result unit :=
  match st_execution s with
  | Some execution =>
      fail_if (negb (bool_decide (st_status s = RUNNING)))
        "only a running graph may retain an execution lease";;
      token ← except_str is_value_error GraphStateTransitionError
        (GraphExecutionToken_admit (lease_token execution));
      fail_if (negb (tok_generation token =? st_execution_sequence s)%Z)
        "execution lease generation must match the graph sequence";;
      fail_if (is_nil (pending_node_ids (st_frontier s)))
        "an active execution lease requires pending nodes"
  | None => Ok tt
  end.

(** The lifecycle checks of [_validate_graph_run_state]. *)
Definition validate_lifecycle (s : GraphRunState) : result unit :=
  match st_status s with
  | RUNNING =>
      fail_if (is_nil (frontier_nodes (st_frontier s)))
        "a running graph requires a non-empty frontier";;
      status ← frontier_status (st_frontier s);
      fail_if (bool_decide (status = FRONTIER_FAILED))
        "a quiescent failed frontier requires terminal failed status";;
      fail_if (bool_decide (is_Some (st_abort s))) "a running graph cannot retain an abort";;
      fail_if (bool_decide (is_Some (st_completion_route s)))
        "a running graph cannot retain a completion route"
  | COMPLETED =>
      fail_if (negb (is_nil (frontier_nodes (st_frontier s)))
               || negb (is_nil (st_join_progress s))
               || bool_decide (is_Some (st_resources s)))
        "a completed graph must use the canonical empty position";;
      fail_if (bool_decide (is_Some (st_abort s))) "a completed graph cannot retain an abort";;
      if bool_decide (is_Some (st_graph_input_evidence s))
      then validate_completed_graph_provenance s else Ok tt
  | FAILED =>
      fail_if (is_nil (frontier_nodes (st_frontier s)))
        "a failed graph must retain one quiescent failed diagnostic frontier";;
      status ← frontier_status (st_frontier s);
      fail_if (negb (bool_decide (status = FRONTIER_FAILED))
               || bool_decide (is_Some (st_resources s)) || bool_decide (is_Some (st_execution s))
               || bool_decide (is_Some (st_abort s))
               || bool_decide (is_Some (st_completion_route s)))
        "a failed graph must retain one quiescent failed diagnostic frontier"
  | ABORTED =>
      match st_abort s with
      | Some abort =>
          fail_if (is_nil (frontier_nodes (st_frontier s))
                   || bool_decide (is_Some (st_resources s))
                   || bool_decide (is_Some (st_completion_route s)))
            "an aborted graph must retain one quiescent diagnostic frontier";;
          require_graph_identity (abort_reason abort) "graph abort reason"
      | None => fail_if true "an aborted graph must retain one quiescent diagnostic frontier"
      end
  end.

(** [_validate_graph_run_state] *)
Definition validate_graph_run_state_body (s : GraphRunState) : result unit :=
  require_graph_identity (st_run_id s) "graph run identity";;
  require_graph_identity (st_definition_id s) "graph definition identity";;
  fail_if (st_definition_version s <? 1)%Z "graph definition version must be positive";;
  fail_if ((st_superstep s <? 0)%Z || (st_revision s <? 0)%Z || (st_execution_sequence s <? 0)%Z)
    "graph counters must be non-negative integers";;
  _ ← except is_admission_error GraphStateTransitionError "graph Config cursor is malformed"
    (config_cursor s);
  validate_settled_publications s;;
  match st_completion_route s with
  | Some route => require_graph_identity route "graph completion route identity"
  | None => Ok tt
  end;;
  validate_parent s;;
  validate_join_progress s;;
  validate_graph_frontier s (st_frontier s);;
  validate_state_resources s;;
  validate_lease s;;
  validate_lifecycle s.

(** [except GraphStateTransitionError: raise / except (...): raise ... malformed] *)
Definition validate_graph_run_state (s : GraphRunState) : result unit :=
  except (λ k, is_admission_error k && negb (bool_decide (k = GraphStateTransitionError)))
    GraphStateTransitionError "graph snapshot is malformed"
    (validate_graph_run_state_body s).

Definition validated_graph_run_state (s : GraphRunState) : result GraphRunState :=
  validate_graph_run_state s;; Ok s.
