(* ===== verification/Transitions.v ===== *)
(** * Pure state transitions and the reducer

    [state/graph_state/execution_transitions.py], [lifecycle_transitions.py],
    [recovery_transitions.py] and [reducer.py]: start, claim, fence, settle, resume,
    advance, complete and abort, the single dispatch entry point, and the admission of a
    confirmed successor. *)

From Stdlib Require Import ZArith NArith Lia Bool String.
From stdpp Require Import prelude strings gmap sorting.
From S2P Require Import Prelude Identity Resources Model Validation.

Set Default Goal Selector "!".

(* ------------------------------------------------------------------ *)
(** ** Start *)

(** [_validate_activation_batch] *)
Definition validate_activation_batch (declared : list GraphFrontierActivation) (label : string)
    : result unit :=
  fail_if (is_nil declared) (label ++ " activations are malformed");;
  let node_ids := fa_node_id <$> declared in
  fail_if (negb (bool_decide (node_ids = sorted_set node_ids)))
    (label ++ " activations must use canonical node order").

(** [_start_activations] *)
Definition check_start_activations (declared : list GraphFrontierActivation) : result unit :=
  validate_activation_batch declared "initial";;
  fail_if (existsb (λ a, negb (bool_decide (fa_cause a = StartActivationCause))) declared)
    "initial activations must use the START cause".

(** A frontier of pending nodes, one per activation. *)
Definition pending_frontier (activations : list GraphFrontierActivation) : GraphFrontierState :=
  mkFrontier ((λ a, mkFrontierNode (fa_node_id a) (PendingGraphNode UseStepRequestInput) (fa_cause a))
              <$> activations).

Definition start_graph_run (command : StartGraphRun) : result GraphRunState :=
  check_start_activations (start_activations command);;
  let frontier := pending_frontier (start_activations command) in
  cursor ← except is_admission_error GraphStateTransitionError
    "graph start Config cursor is malformed"
    (match start_config_cursor command with
     | None => GraphConfigCursor_new (start_definition_id command)
                 (start_definition_version command) 1 None
     | Some cursor => GraphConfigCursor_admit cursor
     end);
  graph_input_evidence ← except is_admission_error GraphStateTransitionError
    "graph start input evidence is malformed"
    (admit_evidence (start_graph_input_evidence command));
  validated_graph_run_state (post_init {|
    st_run_id := start_run_id command;
    st_definition_id := start_definition_id command;
    st_definition_version := start_definition_version command;
    st_status := RUNNING;
    st_superstep := 0;
    st_frontier := frontier;
    st_execution_sequence := 0;
    st_resume_input_codec := start_resume_input_codec command;
    st_join_progress := [];
    st_graph_input_evidence := graph_input_evidence;
    st_settled_publications := [];
    st_resources := None;
    st_execution := None;
    st_abort := None;
    st_parent := start_parent command;
    st_revision := 0;
    st_completion_route := None;
    st_config_revision := cur_revision cursor;
    st_config_definition_id := Some (cur_definition_id cursor);
    st_config_definition_version := Some (cur_definition_version cursor);
    st_config_digest := cur_digest cursor
  |}).

(* ------------------------------------------------------------------ *)
(** ** Join progress *)

(** [_index_join_progress]: a dict keyed by occurrence, as an association list in
    insertion order. *)
Definition index_join_progress (progress : list GraphJoinProgress) (label : string)
    : result (list (GraphJoinOccurrenceIdentity * GraphJoinProgress)) :=
  py_for_state progress [] (λ indexed item,
    let key := jp_occurrence item in
    fail_if (mem key (fst <$> indexed)) (label ++ " join progress repeats one join");;
    Ok (indexed ++ [(key, item)])).

(** The reference loop of [_validate_next_activations]: current and historical
    references of one cause. *)
Definition classify_references (s : GraphRunState) (references : list ActivationReference)
    : result (list ActivationReference * list ActivationReference) :=
  py_for_state references ([], []) (λ '(current, historical) reference,
    let source := ref_activation reference in
    fail_if (negb (bool_decide (act_run_id source = st_run_id s))
             || (st_superstep s <? act_superstep source)%Z)
      "next activation cause references the wrong frontier";;
    if (act_superstep source <? st_superstep s)%Z then Ok (current, historical ++ [reference]) else
    match frontier_node (st_frontier s) (act_node_id source) with
    | Some (mkFrontierNode _ (SucceededGraphNode routing) _) =>
        fail_if (negb (bool_decide (ref_route reference = selected_route routing)))
          "next activation cause route does not match source settlement";;
        Ok (current ++ [reference], historical)
    | _ => Raise (Exn GraphStateTransitionError
             "next activation cause source is not a settled success")
    end).

(** One activation of [_validate_next_activations]; returns the consumed set so far. *)
Definition validate_next_activation (s : GraphRunState)
    (progress_by_occurrence : list (GraphJoinOccurrenceIdentity * GraphJoinProgress))
    (consumed : list GraphJoinOccurrenceIdentity) (activation : GraphFrontierActivation)
    : result (list GraphJoinOccurrenceIdentity) :=
  match fa_cause activation with
  | StartActivationCause =>
      Raise (Exn GraphStateTransitionError "next frontier activations must carry routed causes")
  | RoutedActivationCause references join_occurrence =>
      let source_ids := (act_node_id ∘ ref_activation) <$> references in
      fail_if (negb (no_repeats source_ids))
        "next activation cause cannot repeat one source node";;
      '(current, historical) ← classify_references s references;
      fail_if (is_nil current) "next activation cause requires a current settled source";;
      match join_occurrence with
      | None =>
          fail_if (negb (is_nil historical) || negb (length references =? 1))
            "non-Join activation cause must carry one current source";;
          Ok consumed
      | Some occurrence =>
          fail_if (negb (bool_decide (occ_run_id occurrence = st_run_id s))
                   || negb (bool_decide (join_target (occ_join occurrence) = fa_node_id activation))
                   || negb (occ_target_superstep occurrence =? st_superstep s + 1)%Z
                   || negb (same_set source_ids (join_sources (occ_join occurrence))))
            "next Join activation cause has the wrong occurrence identity";;
          match assoc occurrence progress_by_occurrence with
          | None =>
              fail_if (negb (is_nil historical))
                "historical Join references lack matching pending progress";;
              Ok consumed
          | Some progress =>
              fail_if (negb (bool_decide (jp_arrived progress = historical)))
                "Join activation history does not match pending progress";;
              Ok (occurrence :: consumed)
          end
      end
  end.

(** [_validate_next_activations] *)
Definition validate_next_activations (s : GraphRunState) (declared : list GraphFrontierActivation)
    : result (list GraphJoinOccurrenceIdentity) :=
  validate_activation_batch declared "next frontier";;
  progress_by_occurrence ← index_join_progress (st_join_progress s) "state";
  py_for_state declared [] (validate_next_activation s progress_by_occurrence).

(** [_current_successful_references]: the frozenset of the frontier's successes. *)
Definition current_successful_references (s : GraphRunState) : result (list ActivationReference) :=
  references ← mapM (λ '(node_id, routing),
      activation ← GraphActivationIdentity_new (st_run_id s) (st_superstep s) node_id;
      ActivationReference_new activation (selected_route routing))
    (routing_contributions (st_frontier s));
  Ok (remove_dups references).

(** One occurrence of [_validate_join_consumption]. *)
Definition consume_occurrence (s : GraphRunState)
    (previous : list (GraphJoinOccurrenceIdentity * GraphJoinProgress))
    (current : list ActivationReference)
    (consumed : list GraphJoinOccurrenceIdentity) (occurrence : GraphJoinOccurrenceIdentity)
    : result (list GraphJoinOccurrenceIdentity) :=
  fail_if (negb (bool_decide (occ_run_id occurrence = st_run_id s)
                 && (occ_target_superstep occurrence =? st_superstep s + 1)%Z))
    "consumed join occurrence has the wrong target coordinate";;
  fail_if (mem occurrence consumed) "consumed join progress keys must be canonical and distinct";;
  match assoc occurrence previous with
  | None => Raise (Exn GraphStateTransitionError
              "consumed join progress does not exist in the current state")
  | Some progress =>
      let sources := join_sources (occ_join occurrence) in
      let current_arrivals :=
        List.filter (λ r, mem (act_node_id (ref_activation r)) sources) current in
      let source_ids := (act_node_id ∘ ref_activation) <$> (jp_arrived progress ++ current_arrivals) in
      fail_if (negb (no_repeats source_ids)) "join progress repeats one source activation";;
      fail_if (negb (same_set source_ids sources)) "consumed join progress is not complete";;
      Ok (occurrence :: consumed)
  end.

(** [_validate_join_consumption] *)
Definition validate_join_consumption (s : GraphRunState)
    (declared : list GraphJoinOccurrenceIdentity) (current : list ActivationReference)
    : result (list GraphJoinOccurrenceIdentity) :=
  previous ← index_join_progress (st_join_progress s) "state";
  consumed ← py_for_state declared [] (consume_occurrence s previous current);
  fail_if (negb (bool_decide (sorted consumed = declared)))
    "consumed join progress keys must use canonical order";;
  Ok consumed.

(** One updated record of [_validate_join_progress_delta]. *)
Definition validate_progress_update
    (previous : list (GraphJoinOccurrenceIdentity * GraphJoinProgress))
    (current : list ActivationReference) (consumable : list GraphJoinOccurrenceIdentity)
    (entry : GraphJoinOccurrenceIdentity * GraphJoinProgress) : result unit :=
  let '(key, progress) := entry in
  let arrived := jp_arrived progress in
  match assoc key previous with
  | None =>
      fail_if (negb (subset_of arrived current))
        "new join progress must contain only current settled successes"
  | Some prior =>
      fail_if (mem key consumable) "consumed join progress cannot be retained";;
      fail_if (negb (subset_of (jp_arrived prior) arrived))
        "join progress cannot remove or replace historical arrivals";;
      fail_if (negb (subset_of
          (List.filter (λ r, negb (mem r (jp_arrived prior))) arrived) current))
        "join progress additions must be current settled successes"
  end.

(** [_validate_join_progress_delta] *)
Definition validate_join_progress_delta (s : GraphRunState) (declared : list GraphJoinProgress)
    (consumed explicitly_consumed : list GraphJoinOccurrenceIdentity) : result unit :=
  previous ← index_join_progress (st_join_progress s) "state";
  updated ← index_join_progress declared "command";
  current ← current_successful_references s;
  explicit ← validate_join_consumption s explicitly_consumed current;
  fail_if (existsb (λ o, mem o explicit) consumed)
    "one pending join cannot be consumed more than once";;
  let consumable := consumed ++ explicit in
  py_for updated (validate_progress_update previous current consumable);;
  py_for (fst <$> previous) (λ key,
    fail_if (negb (mem key (fst <$> updated)) && negb (mem key consumable))
      "unrelated join progress cannot be discarded").

(* ------------------------------------------------------------------ *)
(** ** Claim and fence *)

(** [_validate_claim_resources] *)
Definition validate_claim_resources (s : GraphRunState) (resources : option ResourceSnapshot)
    : result unit :=
  match resources with
  | None => Ok tt
  | Some resources =>
      except (λ k, bool_decide (k = ResourceTransitionError)) GraphStateTransitionError
        "claim resource snapshot is invalid" (validate_resource_snapshot resources);;
      fail_if (is_nil (snap_acquisitions resources))
        "an active claim cannot persist an empty resource snapshot";;
      fail_if (negb (subset_of (acq_node_id <$> snap_acquisitions resources)
                               (pending_node_ids (st_frontier s))))
        "claim resource participant is outside current pending nodes"
  end.

(** [_require_execution_lease] *)
Definition require_execution_lease (s : GraphRunState) (token : GraphExecutionToken) : result unit :=
  fail_if (negb (bool_decide (st_execution s = Some (mkLease token))))
    "graph command does not own the active execution lease".

Definition claim_graph_execution (s : GraphRunState) (command : ClaimGraphExecution)
    : result GraphRunState :=
  fail_if (negb (bool_decide (st_status s = RUNNING))
           || bool_decide (is_Some (st_execution s)) || bool_decide (is_Some (st_resources s)))
    "only a quiescent running graph can claim execution";;
  status ← frontier_status (st_frontier s);
  fail_if (negb (bool_decide (status = EXECUTABLE)))
    "only an executable frontier can claim execution";;
  fail_if (is_nil (pending_node_ids (st_frontier s)))
    "an execution claim requires pending nodes";;
  validate_claim_resources s (claim_resources command);;
  let token := mkToken (st_execution_sequence s + 1) (claim_attempt_id command) in
  Ok (post_init (s <| st_execution_sequence := tok_generation token |>
                   <| st_execution := Some (mkLease token) |>
                   <| st_resources := claim_resources command |>)).

Definition fence_graph_execution (s : GraphRunState) (command : FenceGraphExecution)
    : result GraphRunState :=
  fail_if (negb (bool_decide (st_status s = RUNNING))) "only a running graph can fence execution";;
  require_execution_lease s (fence_execution command);;
  Ok (post_init (s <| st_execution := None |> <| st_resources := None |>)).

(* ------------------------------------------------------------------ *)
(** ** Frontier resolution: advance and complete *)

(** [_resolution_base] *)
Definition resolution_base (s : GraphRunState) : result unit :=
  fail_if (negb (bool_decide (st_status s = RUNNING)))
    "frontier resolution requires a running graph";;
  status ← frontier_status (st_frontier s);
  fail_if (negb (bool_decide (status = SETTLED))) "frontier resolution requires a settled frontier";;
  fail_if (bool_decide (is_Some (st_execution s)) || bool_decide (is_Some (st_resources s)))
    "a settled frontier must be quiescent".

Definition advance_graph_frontier (s : GraphRunState) (command : AdvanceGraphFrontier)
    : result GraphRunState :=
  resolution_base s;;
  consumed ← validate_next_activations s (adv_activations command);
  validate_join_progress_delta s (adv_join_progress command) consumed
    (adv_consumed_join_progress command);;
  Ok (post_init (s <| st_superstep := (st_superstep s + 1)%Z |>
                   <| st_frontier := pending_frontier (adv_activations command) |>
                   <| st_join_progress := adv_join_progress command |>
                   <| st_completion_route := None |>)).

Definition complete_graph_frontier (s : GraphRunState) (command : CompleteGraphFrontier)
    : result GraphRunState :=
  resolution_base s;;
  current ← current_successful_references s;
  consumed ← validate_join_consumption s (com_consumed_join_progress command) current;
  fail_if (negb (length consumed =? length (st_join_progress s)))
    "a completed graph cannot discard unresolved join progress";;
  Ok (post_init (s <| st_status := COMPLETED |>
                   <| st_frontier := mkFrontier [] |>
                   <| st_join_progress := [] |>
                   <| st_completion_route := com_completion_route command |>)).

(* ------------------------------------------------------------------ *)
(** ** Settle one node *)

(** The settlement and the new publication ledger one outcome produces. *)
Definition settle_outcome (s : GraphRunState) (command : SettleGraphNode)
    : result (GraphNodeSettlement * list GraphPublicationSettlement) :=
  match set_outcome command with
  | SucceededGraphNodeOutcome node_id routing =>
      activation ← GraphActivationIdentity_new (st_run_id s) (st_superstep s) node_id;
      evidence ← ActivationReference_new activation (selected_route routing);
      fail_if (existsb (λ item, bool_decide (pub_reference item = evidence))
                 (st_settled_publications s))
        "node activation has already been committed as settled";;
      Ok (SucceededGraphNode routing,
          sorted_key pub_canonical_key
            (st_settled_publications s ++
             [mkPublication evidence (set_expected_revision command + 1) (set_execution command)
                (set_publication_evidence command)]))
  | FailedGraphNodeOutcome node_id failure =>
      fail_if (bool_decide (is_Some (set_publication_evidence command)))
        "failed node settlement cannot carry publication evidence";;
      Ok (FailedGraphNode failure, st_settled_publications s)
  | InterruptedGraphNodeOutcome node_id identity request_payload =>
      fail_if (bool_decide (is_Some (set_publication_evidence command)))
        "interrupted node settlement cannot carry publication evidence";;
      fail_if (negb (bool_decide (identity = mkInterruptIdentity (st_run_id s) (st_superstep s)
                                   node_id (tok_generation (set_execution command)))))
        "interrupt outcome identity does not match the active execution";;
      fail_if (bool_decide (st_resume_input_codec s = None))
        "an interrupted node requires a resume input codec";;
      Ok (InterruptedGraphNode (mkInterrupt identity request_payload), st_settled_publications s)
  end.

(** The Config cursor after one settlement. *)
Definition settle_config (s : GraphRunState) (command : SettleGraphNode) : result GraphConfigCursor :=
  next_config_cursor ← config_cursor s;
  match set_config_cursor command with
  | None => Ok next_config_cursor
  | Some candidate =>
      match transition_to next_config_cursor candidate with
      | Ok cursor => Ok cursor
      | Raise e =>
          if is_type_error (exn_kind e)
          then Raise (Exn GraphStateTransitionError "node settlement Config cursor is malformed")
          else if is_admission_error (exn_kind e)
          then Raise (Exn GraphStateTransitionError (exn_message e))
          else Raise e
      end
  end.

(** The frontier with one node's settlement replaced. *)
Definition settle_frontier (frontier : GraphFrontierState) (node_id : str)
    (settlement : GraphNodeSettlement) : GraphFrontierState :=
  mkFrontier ((λ node, mkFrontierNode (fn_node_id node)
                 (if bool_decide (fn_node_id node = node_id) then settlement else fn_settlement node)
                 (fn_cause node)) <$> frontier_nodes frontier).

(** The resources left after one node settles. *)
Definition settle_resources (resources : option ResourceSnapshot) (node_id : str)
    : result (option ResourceSnapshot) :=
  match resources with
  | Some snapshot =>
      if existsb (λ item, bool_decide (acq_node_id item = node_id)) (snap_acquisitions snapshot) then
        released ← except (λ k, bool_decide (k = ResourceTransitionError)) GraphStateTransitionError
          "completed node cannot release its resource acquisition"
          (reduce_resources snapshot (ReleaseResources node_id));
        if is_nil (snap_acquisitions released) then Ok None else Ok (Some released)
      else Ok resources
  | None => Ok None
  end.

Definition settle_graph_node (s : GraphRunState) (command : SettleGraphNode)
    : result GraphRunState :=
  fail_if (negb (bool_decide (st_status s = RUNNING)))
    "only a running graph execution can settle a node";;
  require_execution_lease s (set_execution command);;
  let node_id := outcome_node_id (set_outcome command) in
  fail_if (match frontier_node (st_frontier s) node_id with
           | Some current => negb (is_pending (fn_settlement current)) | None => true end)
    "node settlement requires a current pending node";;
  '(settlement, settled_publications) ← settle_outcome s command;
  next_config_cursor ← settle_config s command;
  let frontier := settle_frontier (st_frontier s) node_id settlement in
  resources ← settle_resources (st_resources s) node_id;
  derived ← frontier_status frontier;
  let executable := bool_decide (derived = EXECUTABLE) in
  Ok (post_init (s <| st_status := if bool_decide (derived = FRONTIER_FAILED) then FAILED else RUNNING |>
                   <| st_frontier := frontier |>
                   <| st_execution := if executable then st_execution s else None |>
                   <| st_resources := if executable then resources else None |>
                   <| st_settled_publications := settled_publications |>
                   <| st_config_revision := cur_revision next_config_cursor |>
                   <| st_config_definition_id := Some (cur_definition_id next_config_cursor) |>
                   <| st_config_definition_version :=
                        Some (cur_definition_version next_config_cursor) |>
                   <| st_config_digest := cur_digest next_config_cursor |>)).

(* ------------------------------------------------------------------ *)
(** ** Abort and resume *)

Definition abort_graph_run (s : GraphRunState) (command : AbortGraphRun) : result GraphRunState :=
  fail_if (negb (bool_decide (st_status s = RUNNING)) || bool_decide (is_Some (st_execution s)))
    "only a quiescent running graph can abort";;
  Ok (post_init (s <| st_status := ABORTED |> <| st_resources := None |>
                   <| st_abort := Some (mkAbort (abort_command_reason command)) |>)).

(** One frontier node under [actions], a dict from which [pop] removes the action. *)
Definition resume_node (st : list GraphFrontierNode * list (str * ResumeInterruptedNode))
    (node : GraphFrontierNode)
    : result (list GraphFrontierNode * list (str * ResumeInterruptedNode)) :=
  let '(updated, actions) := st in
  match assoc (fn_node_id node) actions with
  | None => Ok (updated ++ [node], actions)
  | Some action =>
      let actions := filter (λ entry, entry.1 ≠ fn_node_id node) actions in
      match fn_settlement node with
      | InterruptedGraphNode interrupt =>
          let identity := interrupt_identity interrupt in
          fail_if (negb (bool_decide (res_interrupt_id action =
              graph_interrupt_id (int_run_id identity) (int_superstep identity)
                (int_node_id identity) (int_execution_generation identity))))
            "interrupt resume ID does not match the current node interrupt";;
          Ok (updated ++ [mkFrontierNode (fn_node_id node)
                (PendingGraphNode (OverrideGraphNodeInput (res_input action))) (fn_cause node)],
              actions)
      | _ => Raise (Exn GraphStateTransitionError
               "resume action does not match its current node settlement")
      end
  end.

Definition resume_graph_nodes (s : GraphRunState) (command : ResumeGraphNodes)
    : result GraphRunState :=
  fail_if (negb (bool_decide (st_status s = RUNNING))
           || bool_decide (is_Some (st_execution s)) || bool_decide (is_Some (st_resources s)))
    "node resume requires one quiescent running graph";;
  let action_ids := res_node_id <$> resume_actions command in
  fail_if (is_nil action_ids || negb (bool_decide (action_ids = sorted_set action_ids)))
    "resume actions must be non-empty, distinct, and canonical";;
  '(updated, unmatched) ← py_for_state (frontier_nodes (st_frontier s))
    ([], (λ a, (res_node_id a, a)) <$> resume_actions command) resume_node;
  fail_if (negb (is_nil unmatched)) "resume action references an unknown frontier node";;
  Ok (post_init (s <| st_frontier := mkFrontier updated |>)).

(* ------------------------------------------------------------------ *)
(** ** The reducer *)

(** [command.expected_revision]; a start command has none. *)
Definition expected_revision (command : GraphRunCommand) : option Z :=
  match command with
  | CmdStart _ => None
  | CmdClaim c => Some (claim_expected_revision c)
  | CmdFence c => Some (fence_expected_revision c)
  | CmdSettle c => Some (set_expected_revision c)
  | CmdResume c => Some (resume_expected_revision c)
  | CmdAdvance c => Some (adv_expected_revision c)
  | CmdComplete c => Some (com_expected_revision c)
  | CmdAbort c => Some (abort_expected_revision c)
  end.

(** The dispatch on the command's class. *)
Definition apply_transition (s : GraphRunState) (command : GraphRunCommand) : result GraphRunState :=
  match command with
  | CmdStart _ => Raise (Exn GraphStateTransitionError
                    "an existing graph run cannot be started again")
  | CmdClaim c => claim_graph_execution s c
  | CmdFence c => fence_graph_execution s c
  | CmdSettle c => settle_graph_node s c
  | CmdResume c => resume_graph_nodes s c
  | CmdAdvance c => advance_graph_frontier s c
  | CmdComplete c => complete_graph_frontier s c
  | CmdAbort c => abort_graph_run s c
  end.

Definition reduce_graph_run (state : option GraphRunState) (command : GraphRunCommand)
    : result GraphRunState :=
  match command, state with
  | CmdStart _, Some _ => Raise (Exn GraphStateTransitionError
                            "an existing graph run cannot be started again")
  | CmdStart c, None => start_graph_run c
  | _, None => Raise (Exn GraphStateTransitionError
                 "a graph run must be started before it can transition")
  | _, Some s =>
      validate_graph_run_state s;;
      fail_if (negb (bool_decide (expected_revision command = Some (st_revision s))))
        "graph command was based on a stale revision";;
      updated ← apply_transition s command;
      validated_graph_run_state (post_init (updated <| st_revision := (st_revision s + 1)%Z |>))
  end.

Definition not_exact_successor {A} : result A :=
  Raise (Exn GraphStateTransitionError "confirmed graph state is not the exact reducer successor").

(** The command with the durable evidence of the confirmed state bound into it. *)
Definition bind_confirmed_evidence (command : GraphRunCommand) (confirmed : GraphRunState)
    : result GraphRunCommand :=
  match command with
  | CmdStart c =>
      match st_graph_input_evidence confirmed, start_graph_input_evidence c with
      | Some commitment, None =>
          commitment' ← GraphEvidenceCommitment_admit commitment;
          Ok (CmdStart (c <| start_graph_input_evidence := Some commitment' |>))
      | _, _ => not_exact_successor
      end
  | CmdSettle c =>
      match set_outcome c with
      | SucceededGraphNodeOutcome node_id _ =>
          let matches := List.filter (λ item,
            bool_decide (act_run_id (ref_activation (pub_reference item)) = st_run_id confirmed)
            && (act_superstep (ref_activation (pub_reference item)) =? st_superstep confirmed)%Z
            && bool_decide (act_node_id (ref_activation (pub_reference item)) = node_id))
            (st_settled_publications confirmed) in
          match matches, set_publication_evidence c with
          | [item], None =>
              match pub_evidence item with
              | Some evidence =>
                  evidence' ← GraphEvidenceCommitment_admit evidence;
                  Ok (CmdSettle (c <| set_publication_evidence := Some evidence' |>))
              | None => not_exact_successor
              end
          | _, _ => not_exact_successor
          end
      | _ => not_exact_successor
      end
  | _ => not_exact_successor
  end.

Definition admit_graph_run_confirmation (state : option GraphRunState) (command : GraphRunCommand)
    (confirmed : GraphRunState) : result GraphRunState :=
  validate_graph_run_state confirmed;;
  expected ← reduce_graph_run state command;
  if bool_decide (confirmed = expected) then Ok confirmed else
  bound ← bind_confirmed_evidence command confirmed;
  rebuilt ← reduce_graph_run state bound;
  if bool_decide (confirmed = rebuilt) then Ok confirmed else not_exact_successor.
