(* ===== verification/WellFormed.v ===== *)
(** * What [validate_graph_run_state] decides

    A declarative well-formedness predicate for durable run states, one record per
    validator of [validation.py], and the proof that the executable validators accept
    exactly the states that satisfy it. *)

From Stdlib Require Import ZArith NArith Lia Bool String.
From stdpp Require Import prelude strings gmap sorting.
From S2P Require Import Prelude Identity Resources ResourceProofs Model Validation.

Set Default Goal Selector "!".

(* ------------------------------------------------------------------ *)
(** ** Scalars and references *)

Definition on_some {A} (o : option A) (P : A → Prop) : Prop := ∀ x, o = Some x → P x.

Lemma on_some_None {A} (P : A → Prop) : on_some None P.
Proof. intros x. done. Qed.
Lemma on_some_Some {A} (x : A) P : on_some (Some x) P ↔ P x.
Proof. unfold on_some. naive_solver. Qed.
#[export] Hint Resolve on_some_None : core.
#[export] Hint Rewrite canonical_spec @on_some_Some : checks.

Record activation_ok (a : GraphActivationIdentity) : Prop := {
  ao_run : canonical (act_run_id a);
  ao_superstep : (0 ≤ act_superstep a)%Z;
  ao_node : canonical (act_node_id a)
}.

Record reference_ok (r : ActivationReference) : Prop := {
  ro_activation : activation_ok (ref_activation r);
  ro_route : on_some (ref_route r) canonical
}.

Record token_ok (t : GraphExecutionToken) : Prop := {
  to_generation : (1 ≤ tok_generation t)%Z;
  to_attempt : canonical (tok_attempt_id t)
}.

Definition commitment_ok (c : GraphEvidenceCommitment) : Prop := length (digest c) = 32.

Record publication_ok (p : GraphPublicationSettlement) : Prop := {
  po_reference : reference_ok (pub_reference p);
  po_revision : (1 ≤ pub_commit_revision p)%Z;
  po_execution : token_ok (pub_execution p);
  po_evidence : on_some (pub_evidence p) commitment_ok
}.

Record cursor_ok (c : GraphConfigCursor) : Prop := {
  co_id : canonical (cur_definition_id c);
  co_version : (1 ≤ cur_definition_version c)%Z;
  co_revision : (1 ≤ cur_revision c)%Z;
  co_digest : on_some (cur_digest c) (λ d, d ≠ [] ∧ d = strip d);
  co_successor : (1 < cur_revision c)%Z → cur_digest c ≠ None
}.

Lemma fail_if_Ok b m u : fail_if b m = Ok u ↔ b = false.
Proof. apply raise_if_Ok. Qed.
Lemma require_graph_identity_Ok v f u : require_graph_identity v f = Ok u ↔ canonical v.
Proof. unfold require_graph_identity. rewrite fail_if_Ok. apply canonical_negb. Qed.
#[export] Hint Rewrite fail_if_Ok require_graph_identity_Ok : checks.

Lemma GraphActivationIdentity_new_Ok r s n a :
  GraphActivationIdentity_new r s n = Ok a ↔ a = mkActivation r s n ∧ activation_ok a.
Proof.
  unfold GraphActivationIdentity_new. checks. split.
  - intros (? & ? & ? & [= <-]). done.
  - intros [-> []]. done.
Qed.

Lemma ActivationReference_new_Ok a route r :
  ActivationReference_new a route = Ok r ↔ r = mkReference a route ∧ on_some route canonical.
Proof.
  unfold ActivationReference_new. destruct route; checks; naive_solver.
Qed.

Lemma GraphExecutionToken_admit_Ok t t' :
  GraphExecutionToken_admit t = Ok t' ↔ t' = t ∧ token_ok t.
Proof.
  unfold GraphExecutionToken_admit. checks. destruct t; cbn. split.
  - intros (? & ? & [= <-]). done.
  - intros [-> []]. done.
Qed.

Lemma GraphEvidenceCommitment_admit_Ok c c' :
  GraphEvidenceCommitment_admit c = Ok c' ↔ c' = c ∧ commitment_ok c.
Proof.
  unfold GraphEvidenceCommitment_admit, GraphEvidenceCommitment_new, commitment_ok. checks.
  destruct c; naive_solver.
Qed.

Lemma admit_evidence_Ok o o' : admit_evidence o = Ok o' ↔ o' = o ∧ on_some o commitment_ok.
Proof.
  destruct o as [c|]; cbn; [|naive_solver]. rewrite on_some_Some.
  unfold mbind, result_bind. destruct (GraphEvidenceCommitment_admit c) as [c'|] eqn:E.
  - apply GraphEvidenceCommitment_admit_Ok in E as [-> ?]. naive_solver.
  - split; [done|]. intros [_ Hc]. by rewrite (proj2 (GraphEvidenceCommitment_admit_Ok c c)) in E.
Qed.

Lemma GraphPublicationSettlement_admit_Ok p p' :
  GraphPublicationSettlement_admit p = Ok p' ↔ p' = p ∧ publication_ok p.
Proof.
  unfold GraphPublicationSettlement_admit. rewrite except_Ok. split.
  - intros H. inv_ok. subst.
    repeat match goal with
    | H : GraphActivationIdentity_new _ _ _ = _ |- _ =>
        apply GraphActivationIdentity_new_Ok in H as [-> ?]
    | H : ActivationReference_new _ _ = _ |- _ => apply ActivationReference_new_Ok in H as [-> ?]
    | H : GraphExecutionToken_admit _ = _ |- _ => apply GraphExecutionToken_admit_Ok in H as [-> ?]
    | H : admit_evidence _ = _ |- _ => apply admit_evidence_Ok in H as [-> ?]
    | H : (_ <? _)%Z = false |- _ => apply Z.ltb_ge in H
    end.
    destruct p as [[[]] ???]; cbn in *. done.
  - intros [-> [[Ha Hr] Hv Ht He]].
    rewrite (proj2 (GraphActivationIdentity_new_Ok _ _ _ (ref_activation (pub_reference p))))
      by (split; [by destruct (ref_activation (pub_reference p))|done]).
    cbn. rewrite (proj2 (ActivationReference_new_Ok _ _ (pub_reference p)))
      by (split; [by destruct (pub_reference p)|done]).
    cbn. apply Z.ltb_ge in Hv. rewrite Hv. cbn.
    rewrite (proj2 (GraphExecutionToken_admit_Ok _ (pub_execution p))) by done. cbn.
    rewrite (proj2 (admit_evidence_Ok _ (pub_evidence p))) by done. cbn. by destruct p.
Qed.

Lemma GraphConfigCursor_new_Ok i v r d c :
  GraphConfigCursor_new i v r d = Ok c ↔ c = mkCursor i v r d ∧ cursor_ok c.
Proof.
  unfold GraphConfigCursor_new. checks. rewrite andb_false_iff, Z.ltb_ge. split.
  - intros (? & ? & ? & Hd & Hs & [= <-]). split; [done|]. split; cbn; [done..| |].
    + intros x ->. checks in Hd. done.
    + intros Hr. destruct Hs as [Hs|Hs]; [lia|]. by apply bool_decide_eq_false in Hs.
  - intros [-> [? ? ? Hd Hs]]; cbn in *. split_and!; try done.
    + destruct d; [|done]. specialize (Hd _ eq_refl). by checks.
    + destruct (decide (1 < r)%Z); [|left; lia]. right. apply bool_decide_eq_false. auto.
Qed.

Lemma GraphConfigCursor_admit_Ok c c' : GraphConfigCursor_admit c = Ok c' ↔ c' = c ∧ cursor_ok c.
Proof.
  unfold GraphConfigCursor_admit. rewrite except_Ok, GraphConfigCursor_new_Ok.
  destruct c; naive_solver.
Qed.

Lemma reference_activation_Ok r f a :
  reference_activation r f = Ok a ↔ a = ref_activation r ∧ reference_ok r.
Proof.
  unfold reference_activation. checks. destruct r as [a' [route|]]; cbn; checks; split.
  - intros (? & ? & ? & ? & [= <-]). split; [done|]. split; cbn; [done|by checks].
  - intros [-> [[] Hr]]; cbn in *. checks in Hr. done.
  - intros (? & ? & ? & ? & [= <-]). split; [done|]. split; cbn; [done|auto].
  - intros [-> [[] Hr]]; cbn in *. done.
Qed.

Lemma canonical_references_Ok rs f u :
  canonical_references rs f = Ok u ↔ strictly_sorted canonical_key rs.
Proof. unfold canonical_references. checks. apply (sorted_set_key_canonical canonical_key). Qed.
#[export] Hint Rewrite canonical_references_Ok : checks.

(* ------------------------------------------------------------------ *)
(** ** The publication ledger *)

(** The reference one successful frontier node stands for. *)
Definition node_reference (s : GraphRunState) (c : str * GraphRoutingContribution)
    : ActivationReference :=
  mkReference (mkActivation (st_run_id s) (st_superstep s) c.1) (selected_route c.2).
Definition frontier_references (s : GraphRunState) : list ActivationReference :=
  node_reference s <$> routing_contributions (st_frontier s).

(** Where a ledger record sits relative to its state. *)
Record publication_in (s : GraphRunState) (p : GraphPublicationSettlement) : Prop := {
  pi_run : act_run_id (ref_activation (pub_reference p)) = st_run_id s;
  pi_superstep : (act_superstep (ref_activation (pub_reference p)) ≤ st_superstep s)%Z;
  pi_revision : (pub_commit_revision p ≤ st_revision s)%Z;
  pi_generation : (tok_generation (pub_execution p) ≤ st_execution_sequence s)%Z
}.

Record ledger_ok (s : GraphRunState) : Prop := {
  lo_records : Forall publication_ok (st_settled_publications s);
  lo_sorted : strictly_sorted canonical_key (settled_references s);
  lo_activations : NoDup (ref_activation <$> settled_references s);
  lo_revisions : NoDup (pub_commit_revision <$> st_settled_publications s);
  lo_position : Forall (publication_in s) (st_settled_publications s);
  lo_current : st_status s ≠ COMPLETED → ∀ r,
    r ∈ settled_references s ∧ act_superstep (ref_activation r) = st_superstep s
    ↔ r ∈ frontier_references s
}.

(* ------------------------------------------------------------------ *)
(** ** Join progress *)

Record occurrence_ok (s : GraphRunState) (o : GraphJoinOccurrenceIdentity) : Prop := {
  oo_two : 2 ≤ length (join_sources (occ_join o));
  oo_sources : Forall canonical (join_sources (occ_join o));
  oo_sorted : strictly_sorted (λ x, x) (join_sources (occ_join o));
  oo_target : canonical (join_target (occ_join o));
  oo_no_self : join_target (occ_join o) ∉ join_sources (occ_join o);
  oo_run : occ_run_id o = st_run_id s;
  oo_run_canonical : canonical (occ_run_id o);
  oo_superstep : (1 ≤ occ_target_superstep o)%Z
}.

(** One arrival of a pending Join. *)
Record arrival_ok (s : GraphRunState) (o : GraphJoinOccurrenceIdentity)
    (r : ActivationReference) : Prop := {
  ar_reference : reference_ok r;
  ar_run : act_run_id (ref_activation r) = occ_run_id o;
  ar_past : (act_superstep (ref_activation r) < st_superstep s)%Z;
  ar_before : (act_superstep (ref_activation r) < occ_target_superstep o)%Z;
  ar_source : act_node_id (ref_activation r) ∈ join_sources (occ_join o);
  ar_settled : r ∈ settled_references s
}.

Definition reference_nodes (rs : list ActivationReference) : list str :=
  (act_node_id ∘ ref_activation) <$> rs.

Record join_record_ok (s : GraphRunState) (j : GraphJoinProgress) : Prop := {
  jo_occurrence : occurrence_ok s (jp_occurrence j);
  jo_future : (st_superstep s < occ_target_superstep (jp_occurrence j))%Z;
  jo_some : jp_arrived j ≠ [];
  jo_sorted : strictly_sorted canonical_key (jp_arrived j);
  jo_distinct : NoDup (reference_nodes (jp_arrived j));
  jo_sources : reference_nodes (jp_arrived j) ⊆ join_sources (occ_join (jp_occurrence j));
  jo_partial : ¬ join_sources (occ_join (jp_occurrence j)) ⊆ reference_nodes (jp_arrived j);
  jo_arrivals : ∀ r, r ∈ jp_arrived j → arrival_ok s (jp_occurrence j) r
}.

Record joins_ok (s : GraphRunState) : Prop := {
  js_records : ∀ j, j ∈ st_join_progress s → join_record_ok s j;
  js_sorted : strictly_sorted jp_occurrence (st_join_progress s)
}.

(* ------------------------------------------------------------------ *)
(** ** The frontier *)

(** One committed predecessor a routed cause names. *)
Record predecessor_ok (s : GraphRunState) (r : ActivationReference) : Prop := {
  pr_reference : reference_ok r;
  pr_run : act_run_id (ref_activation r) = st_run_id s;
  pr_past : (act_superstep (ref_activation r) < st_superstep s)%Z;
  pr_settled : r ∈ settled_references s
}.

Definition cause_ok (s : GraphRunState) (node_id : str) (cause : GraphActivationCause) : Prop :=
  match cause with
  | StartActivationCause => st_superstep s = 0%Z
  | RoutedActivationCause references join_occurrence =>
      st_superstep s ≠ 0%Z ∧ references ≠ [] ∧ strictly_sorted canonical_key references
      ∧ (∀ r, r ∈ references → predecessor_ok s r)
      ∧ match join_occurrence with
        | None => length references = 1
        | Some o =>
            occurrence_ok s o ∧ join_target (occ_join o) = node_id
            ∧ occ_target_superstep o = st_superstep s
            ∧ NoDup (reference_nodes references)
            ∧ ∀ x, x ∈ reference_nodes references ↔ x ∈ join_sources (occ_join o)
        end
  end.

Record interrupt_ok (s : GraphRunState) (node_id : str) (i : GraphNodeInterruptIdentity) : Prop := {
  io_node : int_node_id i = node_id;
  io_run : int_run_id i = st_run_id s;
  io_superstep : int_superstep i = st_superstep s;
  io_generation : (1 ≤ int_execution_generation i ≤ st_execution_sequence s)%Z
}.

Definition settlement_ok (s : GraphRunState) (node_id : str) (x : GraphNodeSettlement) : Prop :=
  match x with
  | PendingGraphNode _ => True
  | SucceededGraphNode routing => on_some (selected_route routing) canonical
  | FailedGraphNode failure => canonical failure
  | InterruptedGraphNode i => interrupt_ok s node_id (interrupt_identity i)
  end.

(** Settlements whose payloads only a codec can read. *)
Definition needs_codec (x : GraphNodeSettlement) : bool :=
  match x with
  | PendingGraphNode (OverrideGraphNodeInput _) | InterruptedGraphNode _ => true
  | _ => false
  end.

Record node_ok (s : GraphRunState) (n : GraphFrontierNode) : Prop := {
  no_id : canonical (fn_node_id n);
  no_cause : cause_ok s (fn_node_id n) (fn_cause n);
  no_settlement : settlement_ok s (fn_node_id n) (fn_settlement n);
  no_codec : needs_codec (fn_settlement n) = true → st_resume_input_codec s ≠ None
}.

Record frontier_ok (s : GraphRunState) : Prop := {
  fo_sorted : strictly_sorted fn_node_id (frontier_nodes (st_frontier s));
  fo_nodes : ∀ n, n ∈ frontier_nodes (st_frontier s) → node_ok s n;
  fo_codec : on_some (st_resume_input_codec s)
    (λ c, canonical (codec_id c) ∧ (1 ≤ codec_version c)%Z)
}.

(* ------------------------------------------------------------------ *)
(** ** Parent, lease, resources, lifecycle *)

Definition parent_ok (s : GraphRunState) : Prop :=
  on_some (st_parent s) (λ p, activation_ok p ∧ act_run_id p ≠ st_run_id s
    ∧ st_run_id s = child_graph_run_id (act_run_id p) (act_superstep p) (act_node_id p)).

Definition lease_ok (s : GraphRunState) : Prop :=
  on_some (st_execution s) (λ l,
    st_status s = RUNNING ∧ token_ok (lease_token l)
    ∧ tok_generation (lease_token l) = st_execution_sequence s
    ∧ pending_node_ids (st_frontier s) ≠ []).

Definition resources_ok (s : GraphRunState) : Prop :=
  on_some (st_resources s) (λ r,
    validate_resource_snapshot r = Ok tt ∧ snap_acquisitions r ≠ []
    ∧ st_execution s ≠ None
    ∧ pending_node_ids (st_frontier s) ≠ []
    ∧ (acq_node_id <$> snap_acquisitions r) ⊆ pending_node_ids (st_frontier s)).

(** The terminal settlements a completed graph's route is read from. *)
Definition terminal_publications (s : GraphRunState) : list GraphPublicationSettlement :=
  List.filter (λ p, act_superstep (ref_activation (pub_reference p)) =? st_superstep s)%Z
    (st_settled_publications s).

Record provenance_ok (s : GraphRunState) : Prop := {
  pv_some : terminal_publications s ≠ [];
  pv_terminal : ∀ p, p ∈ terminal_publications s →
    (pub_commit_revision p < st_revision s)%Z
    ∧ ref_route (pub_reference p) = st_completion_route s
}.

Definition lifecycle_ok (s : GraphRunState) : Prop :=
  match st_status s with
  | RUNNING =>
      frontier_nodes (st_frontier s) ≠ []
      ∧ frontier_status (st_frontier s) ≠ Ok FRONTIER_FAILED
      ∧ st_abort s = None ∧ st_completion_route s = None
  | COMPLETED =>
      frontier_nodes (st_frontier s) = [] ∧ st_join_progress s = [] ∧ st_resources s = None
      ∧ st_abort s = None
      ∧ (st_graph_input_evidence s ≠ None → provenance_ok s)
  | FAILED =>
      frontier_nodes (st_frontier s) ≠ []
      ∧ frontier_status (st_frontier s) = Ok FRONTIER_FAILED
      ∧ st_resources s = None ∧ st_execution s = None ∧ st_abort s = None
      ∧ st_completion_route s = None
  | ABORTED =>
      (∃ a, st_abort s = Some a ∧ canonical (abort_reason a))
      ∧ frontier_nodes (st_frontier s) ≠ [] ∧ st_resources s = None
      ∧ st_completion_route s = None
  end.

(** The whole invariant of a durable run state. *)
Record wf (s : GraphRunState) : Prop := {
  wf_run_id : canonical (st_run_id s);
  wf_definition_id : canonical (st_definition_id s);
  wf_definition_version : (1 ≤ st_definition_version s)%Z;
  wf_superstep : (0 ≤ st_superstep s)%Z;
  wf_revision : (0 ≤ st_revision s)%Z;
  wf_sequence : (0 ≤ st_execution_sequence s)%Z;
  wf_cursor : ∃ c, config_cursor s = Ok c;
  wf_ledger : ledger_ok s;
  wf_route : on_some (st_completion_route s) canonical;
  wf_parent : parent_ok s;
  wf_joins : joins_ok s;
  wf_frontier : frontier_ok s;
  wf_resources : resources_ok s;
  wf_lease : lease_ok s;
  wf_lifecycle : lifecycle_ok s
}.

(* ------------------------------------------------------------------ *)
(** ** Loop shapes the validators use *)

(** A loop that checks each item and remembers its key. *)
Lemma seen_loop_Ok {A K} `{EqDecision K} (key : A → K) (check : A → result unit) m xs seen :
  (∃ r, py_for_state xs seen (λ seen x,
     check x;; fail_if (mem (key x) seen) m;; Ok (key x :: seen)) = Ok r)
  ↔ (∀ x, x ∈ xs → check x = Ok tt) ∧ NoDup (key <$> xs) ∧ ∀ x, x ∈ xs → key x ∉ seen.
Proof.
  revert seen. induction xs as [|x xs IH]; intros seen; cbn [py_for_state fmap list_fmap].
  - split; [|eauto]. intros _. split_and!; [|constructor|]; intros y Hy; by apply elem_of_nil in Hy.
  - destruct (check x) as [[]|] eqn:Ex; cbn.
    2: { split; [intros [? [=]]|]. intros [H _]. rewrite H in Ex; [done|by left]. }
    unfold fail_if, raise_if. destruct (mem (key x) seen) eqn:Em; cbn.
    { split; [intros [? [=]]|]. intros (_ & _ & H). apply mem_spec in Em.
      by destruct (H x); [left|]. }
    rewrite IH. apply mem_false in Em. rewrite NoDup_cons, list_elem_of_fmap.
    setoid_rewrite elem_of_cons. naive_solver.
Qed.

(** A loop that accumulates a boolean. *)
Lemma any_loop_Ok {A} (v : A → result bool) (f : A → bool) (P : A → Prop) :
  (∀ x b, v x = Ok b ↔ b = f x ∧ P x) →
  ∀ xs acc b, py_for_state xs acc (λ acc x, b ← v x; Ok (acc || b)) = Ok b
    ↔ b = acc || existsb f xs ∧ ∀ x, x ∈ xs → P x.
Proof.
  intros Hv. induction xs as [|x xs IH]; intros acc b; cbn [py_for_state existsb].
  - rewrite orb_false_r. setoid_rewrite elem_of_nil. naive_solver.
  - destruct (v x) as [b'|e] eqn:Ex; cbn.
    + apply Hv in Ex as [-> Hx]. rewrite IH, orb_assoc. setoid_rewrite elem_of_cons. naive_solver.
    + split; [done|]. intros [_ H].
      assert (v x = Ok (f x)) by (apply Hv; split; [done|apply H; by left]). congruence.
Qed.

Lemma strictly_sorted_fmap {A B} `{CmpLaws B} (key : A → B) xs :
  strictly_sorted (λ x, x) (key <$> xs) ↔ strictly_sorted key xs.
Proof.
  unfold strictly_sorted. induction xs as [|x xs IH]; cbn.
  - split; constructor.
  - split; intros Hs; inversion_clear Hs as [|?? Hs' Hx]; constructor; try (by apply IH).
    + exact (proj1 (Forall_fmap key (cmp_lt (key x)) xs) Hx).
    + exact (proj2 (Forall_fmap key (cmp_lt (key x)) xs) Hx).
Qed.

(* ------------------------------------------------------------------ *)
(** ** Each validator decides its predicate *)

Lemma validate_join_occurrence_Ok s o : validate_join_occurrence s o = Ok tt ↔ occurrence_ok s o.
Proof.
  unfold validate_join_occurrence. checks.
  rewrite existsb_false_iff, sorted_set_canonical, mem_false.
  setoid_rewrite canonical_negb. rewrite <-(Forall_forall canonical).
  split; [intros; destruct_and!; by constructor|]. intros []; split_and!; done.
Qed.

Lemma arrival_check_Ok s o r :
  (activation ← reference_activation r "join progress arrivals";
   fail_if (negb (bool_decide (act_run_id activation = occ_run_id o))
            || (st_superstep s <=? act_superstep activation)%Z
            || (occ_target_superstep o <=? act_superstep activation)%Z
            || negb (mem (act_node_id activation) (join_sources (occ_join o))))
     "join progress contains an invalid predecessor arrival";;
   fail_if (negb (mem r (settled_references s)))
     "join progress arrival lacks committed settlement evidence") = Ok tt ↔ arrival_ok s o r.
Proof.
  rewrite bind_Ok. setoid_rewrite reference_activation_Ok. split.
  - intros (a & [-> Hr] & H). checks in H. destruct_and!. by constructor.
  - intros [Hr ?????]. exists (ref_activation r). split; [done|]. checks. done.
Qed.

Lemma validate_join_record_Ok s j :
  occurrence_ok s (jp_occurrence j) →
  validate_join_record s j = Ok tt ↔ join_record_ok s j.
Proof.
  intros Ho. unfold validate_join_record. checks. rewrite py_for_Ok.
  setoid_rewrite arrival_check_Ok.
  split; [intros; destruct_and!; by constructor|]. intros []; split_and!; done.
Qed.

Lemma validate_join_progress_Ok s : validate_join_progress s = Ok tt ↔ joins_ok s.
Proof.
  unfold validate_join_progress. checks. rewrite py_for_Ok. setoid_rewrite validate_join_occurrence_Ok.
  rewrite bind_Ok.
  match goal with |- context [∃ a, ?l = Ok a ∧ Ok tt = Ok tt] =>
    assert ((∃ a, l = Ok a ∧ Ok tt = Ok tt) ↔ ∃ a, l = Ok a) as -> by naive_solver end.
  rewrite seen_loop_Ok. split.
  - intros (Ho & Hs & Hr & Hnd & _). split.
    + intros j Hj. apply validate_join_record_Ok; auto.
    + apply weakly_sorted_strict; [|done]. by apply sorted_key_id_iff.
  - intros [Hr Hs]. split_and!.
    + intros j Hj. by apply Hr.
    + symmetry. by apply sorted_key_id.
    + intros j Hj. apply validate_join_record_Ok; [by apply Hr|auto].
    + by apply strictly_sorted_NoDup_key.
    + intros j _. apply not_elem_of_nil.
Qed.

Lemma predecessor_check_Ok s r :
  (activation ← reference_activation r "routed activation cause";
   fail_if (negb (bool_decide (act_run_id activation = st_run_id s))
            || (st_superstep s <=? act_superstep activation)%Z)
     "routed activation cause references a non-predecessor activation";;
   fail_if (negb (mem r (settled_references s)))
     "routed activation cause lacks committed settlement evidence") = Ok tt ↔ predecessor_ok s r.
Proof.
  rewrite bind_Ok. setoid_rewrite reference_activation_Ok. split.
  - intros (a & [-> Hr] & H). checks in H. destruct_and!. by constructor.
  - intros [Hr ???]. exists (ref_activation r). split; [done|]. checks. done.
Qed.

Lemma validate_activation_cause_Ok s n c : validate_activation_cause s n c = Ok tt ↔ cause_ok s n c.
Proof.
  destruct c as [|refs [o|]]; cbn [validate_activation_cause cause_ok]; checks; [done|..];
    rewrite py_for_Ok, Z.eqb_neq; setoid_rewrite predecessor_check_Ok;
    rewrite ?validate_join_occurrence_Ok; tauto.
Qed.

Lemma validate_frontier_node_Ok s n b :
  validate_frontier_node s n = Ok b ↔
  b = needs_codec (fn_settlement n)
  ∧ canonical (fn_node_id n) ∧ cause_ok s (fn_node_id n) (fn_cause n)
  ∧ settlement_ok s (fn_node_id n) (fn_settlement n).
Proof.
  unfold validate_frontier_node. checks. rewrite validate_activation_cause_Ok.
  destruct n as [i st c]; cbn.
  destruct st as [[|]|[|r]|f|[x p]]; cbn; checks; try naive_solver.
  unfold validate_interrupt_identity. checks. split.
  - intros (? & ? & ? & ? & [= <-]). destruct_and!. split_and!; [done..|]. by constructor.
  - intros (-> & ? & ? & [? ? ? [? ?]]). cbn in *. split_and!; done.
Qed.

Lemma validate_graph_frontier_Ok s : validate_graph_frontier s (st_frontier s) = Ok tt ↔ frontier_ok s.
Proof.
  unfold validate_graph_frontier. checks.
  rewrite sorted_set_canonical, strictly_sorted_fmap, bind_Ok.
  setoid_rewrite (any_loop_Ok _ _ _ (validate_frontier_node_Ok s)). split.
  - intros (Hs & b & [-> Hn] & H). checks in H. destruct H as [Hc Hcodec]. split; [done| |].
    + intros n Hin. destruct (Hn n Hin) as (? & ? & ?). split; [done..|].
      intros Hneed Hnone. rewrite Hnone, bool_decide_true, andb_true_r in Hc by done.
      rewrite orb_false_l, existsb_false_iff in Hc. specialize (Hc n Hin). cbn in Hc. congruence.
    + destruct (st_resume_input_codec s); [|auto]. checks in Hcodec. by checks.
  - intros [Hs Hn Hcodec]. split; [done|]. eexists; split; [split; [done|]|].
    + intros n Hin. destruct (Hn n Hin); done.
    + checks. split.
      * rewrite orb_false_l, andb_false_iff, bool_decide_eq_false.
        destruct (st_resume_input_codec s) eqn:Ec; [by right|left]. apply existsb_false_iff.
        intros n Hin. destruct (Hn n Hin) as [??? Hc].
        destruct (needs_codec (fn_settlement n)); [by destruct (Hc eq_refl)|done].
      * destruct (st_resume_input_codec s); [|done]. checks in Hcodec. by checks.
Qed.

Lemma frontier_node_Some f i n :
  frontier_node f i = Some n → n ∈ frontier_nodes f ∧ fn_node_id n = i.
Proof.
  unfold frontier_node. intros [H1 H2]%find_some. apply bool_decide_eq_true in H2.
  by rewrite list_elem_of_In.
Qed.

Lemma frontier_node_lookup f n :
  strictly_sorted fn_node_id (frontier_nodes f) → n ∈ frontier_nodes f →
  frontier_node f (fn_node_id n) = Some n.
Proof.
  intros Hs%strictly_sorted_NoDup_key. destruct f as [nodes]; unfold frontier_node; cbn in *.
  induction nodes as [|m nodes IH]; [by intros ?%elem_of_nil|].
  cbn in Hs. apply NoDup_cons in Hs as [Hm Hnd]. intros Hin. cbn.
  case_bool_decide as Heq.
  - apply elem_of_cons in Hin as [->|Hin]; [done|]. destruct Hm. rewrite Heq.
    by apply list_elem_of_fmap_2.
  - apply elem_of_cons in Hin as [->|Hin]; [done|]. by apply IH.
Qed.

Lemma elem_routing_contributions f c :
  c ∈ routing_contributions f ↔
  ∃ n, n ∈ frontier_nodes f ∧ fn_node_id n = c.1 ∧ fn_settlement n = SucceededGraphNode c.2.
Proof.
  unfold routing_contributions. rewrite list_elem_of_omap. split.
  - intros (n & Hn & Hc). exists n. destruct (fn_settlement n); naive_solver.
  - intros (n & Hn & Hi & Hst). exists n. rewrite Hst, Hi. by destruct c.
Qed.

Lemma elem_frontier_references s r :
  r ∈ frontier_references s ↔
  ∃ n routing, n ∈ frontier_nodes (st_frontier s) ∧ fn_settlement n = SucceededGraphNode routing
    ∧ r = mkReference (mkActivation (st_run_id s) (st_superstep s) (fn_node_id n))
            (selected_route routing).
Proof.
  unfold frontier_references, node_reference. rewrite list_elem_of_fmap.
  setoid_rewrite elem_routing_contributions. split.
  - intros ([i rt] & -> & n & Hn & <- & Hst). eauto.
  - intros (n & rt & Hn & Hst & ->). exists (fn_node_id n, rt). split; [done|]. eauto.
Qed.

(** Building the references of the frontier's successes. *)
Lemma frontier_publications_Ok s rs :
  frontier_publications s = Ok rs ↔
  rs = frontier_references s ∧ Forall (λ c, reference_ok (node_reference s c))
    (routing_contributions (st_frontier s)).
Proof.
  unfold frontier_publications, frontier_references. apply mapM_Ok_fmap. intros [i rt] r; cbn.
  rewrite bind_Ok. setoid_rewrite GraphActivationIdentity_new_Ok.
  setoid_rewrite ActivationReference_new_Ok. split.
  - intros (a & [-> Ha] & -> & Hr). done.
  - intros [-> [Ha Hr]]. eauto.
Qed.

Lemma frontier_references_ok s :
  canonical (st_run_id s) → (0 ≤ st_superstep s)%Z → frontier_ok s →
  Forall (λ c, reference_ok (node_reference s c)) (routing_contributions (st_frontier s)).
Proof.
  intros Hr Hs Hf. apply Forall_forall. intros c (n & Hn & Hi & Hst)%elem_routing_contributions.
  destruct (fo_nodes s Hf n Hn) as [Hid _ Hset _]. rewrite Hst in Hset. cbn in Hset.
  rewrite Hi in Hid. done.
Qed.

Lemma validate_publication_Ok s p :
  validate_publication s p = Ok tt →
  reference_ok (pub_reference p) ∧ publication_in s p.
Proof.
  unfold validate_publication. rewrite bind_Ok.
  intros (a & [-> Hr]%reference_activation_Ok & H). checks in H. destruct_and!. done.
Qed.

Lemma current_filter s r :
  r ∈ pub_reference <$> List.filter
        (λ item, act_superstep (ref_activation (pub_reference item)) =? st_superstep s)%Z
        (st_settled_publications s)
  ↔ r ∈ settled_references s ∧ act_superstep (ref_activation r) = st_superstep s.
Proof.
  unfold settled_references. rewrite !list_elem_of_fmap. setoid_rewrite List_filter_elem.
  setoid_rewrite Z.eqb_eq. naive_solver.
Qed.

Lemma ledger_sound s : validate_settled_publications s = Ok tt → ledger_ok s.
Proof.
  unfold validate_settled_publications. rewrite bind_Ok.
  setoid_rewrite except_Ok.
  setoid_rewrite (mapM_Ok_id _ _ GraphPublicationSettlement_admit_Ok).
  intros (ps & [-> Hok] & H). checks in H. destruct H as (Hs & Ha & Hr & Hloop & Hcur).
  rewrite py_for_Ok in Hloop. split; [done..| |].
  - apply Forall_forall. intros p Hp. specialize (Hloop p Hp).
    by apply validate_publication_Ok in Hloop as [].
  - intros Hst r. rewrite bool_decide_false in Hcur by done.
    apply bind_Ok in Hcur as (rs & [-> _]%frontier_publications_Ok & Hcur). checks in Hcur.
    by rewrite <-Hcur, current_filter.
Qed.

Lemma ledger_complete s :
  canonical (st_run_id s) → (0 ≤ st_superstep s)%Z → frontier_ok s → ledger_ok s →
  validate_settled_publications s = Ok tt.
Proof.
  intros Hrun Hss Hf [Hrec Hs Ha Hrev Hpos Hcur]. unfold validate_settled_publications.
  rewrite bind_Ok. exists (st_settled_publications s). split.
  { apply except_Ok, (mapM_Ok_id _ _ GraphPublicationSettlement_admit_Ok). done. }
  checks. split_and!; [done..| |].
  - apply py_for_Ok. intros p Hp. rewrite Forall_forall in Hpos, Hrec.
    specialize (Hpos p Hp) as [H1 H2 H3 H4].
    unfold validate_publication. rewrite bind_Ok. exists (ref_activation (pub_reference p)).
    split; [apply reference_activation_Ok; split; [done|by apply Hrec]|]. checks.
    split_and!; [done..|]. case_match eqn:Ec; [|done].
    apply andb_true_iff in Ec as [Eq Est]. apply Z.eqb_eq in Eq.
    apply negb_true_iff, bool_decide_eq_false in Est.
    specialize (Hcur Est (pub_reference p)).
    assert (pub_reference p ∈ frontier_references s) as Hin.
    { apply Hcur. split; [|done]. by apply list_elem_of_fmap_2. }
    apply elem_frontier_references in Hin as (n & rt & Hn & Hst & Href). rewrite Href. cbn.
    rewrite frontier_node_lookup by (done || apply Hf). destruct n; cbn in *; subst. by checks.
  - case_bool_decide as Est; [done|]. rewrite bind_Ok.
    exists (frontier_references s). split.
    { apply frontier_publications_Ok. split; [done|]. by apply frontier_references_ok. }
    checks. intros r. by rewrite current_filter, Hcur.
Qed.

Lemma validate_parent_Ok s : validate_parent s = Ok tt ↔ parent_ok s.
Proof.
  unfold validate_parent, parent_ok. destruct (st_parent s) as [p|]; [|by split].
  checks. split.
  - intros (? & ? & [? ?] & ?). done.
  - intros ([] & ? & ?). done.
Qed.

Lemma validate_state_resources_Ok s : validate_state_resources s = Ok tt ↔ resources_ok s.
Proof.
  unfold validate_state_resources, resources_ok. destruct (st_resources s) as [r|]; [|by split].
  checks. done.
Qed.

Lemma validate_lease_Ok s : validate_lease s = Ok tt ↔ lease_ok s.
Proof.
  unfold validate_lease, lease_ok. destruct (st_execution s) as [l|]; [|by split].
  checks. rewrite bind_Ok. setoid_rewrite except_str_Ok.
  setoid_rewrite GraphExecutionToken_admit_Ok. split.
  - intros (? & t & [-> ?] & Hc). checks in Hc. tauto.
  - intros (? & ? & ? & ?). split; [done|]. eexists; split; [done|]. by checks.
Qed.

Lemma frontier_status_total f :
  frontier_nodes f ≠ [] → ∃ st, frontier_status f = Ok st.
Proof.
  unfold frontier_status. destruct f as [nodes]; cbn. intros Hne.
  repeat (case_match; [by eauto|]).
  exfalso. match goal with E : _ && _ = false |- _ => apply andb_false_iff in E as [E|E];
    [destruct nodes; done|apply not_true_iff_false in E; apply E] end.
  apply forallb_forall. intros x Hx%list_elem_of_In.
  repeat match goal with E' : existsb _ _ = false |- _ =>
    rewrite existsb_false_iff in E'; specialize (E' x Hx) end.
  by destruct x.
Qed.

Lemma provenance_Ok s : validate_completed_graph_provenance s = Ok tt ↔ provenance_ok s.
Proof.
  unfold validate_completed_graph_provenance. fold (terminal_publications s). checks.
  rewrite existsb_false_iff. setoid_rewrite Z.leb_gt. split.
  - intros (Hne & Hrev & Hroutes). split; [done|]. intros p Hp. split; [auto|].
    assert ((ref_route ∘ pub_reference) p ∈ remove_dups ((ref_route ∘ pub_reference) <$> terminal_publications s)) as Hin.
    { apply elem_of_remove_dups. by apply list_elem_of_fmap_2. }
    rewrite Hroutes in Hin. by apply list_elem_of_singleton in Hin.
  - intros [Hne Ht]. split_and!; [done|naive_solver|].
    assert (∀ x, x ∈ remove_dups ((ref_route ∘ pub_reference) <$> terminal_publications s)
              ↔ x = st_completion_route s) as Hall.
    { intros x. rewrite elem_of_remove_dups, list_elem_of_fmap. cbn. split.
      - intros (p & -> & Hp). by apply Ht.
      - intros ->. destruct (terminal_publications s) as [|p ps]; [done|].
        exists p. split; [|by left]. symmetry. by apply Ht; left. }
    pose proof (NoDup_remove_dups ((ref_route ∘ pub_reference) <$> terminal_publications s)) as Hnd.
    apply Permutation_singleton_r, NoDup_Permutation; [done|apply NoDup_singleton|].
    intros x. by rewrite Hall, list_elem_of_singleton.
Qed.

Lemma not_is_Some {A} (o : option A) : ¬ is_Some o ↔ o = None.
Proof. by rewrite eq_None_not_Some. Qed.

Lemma validate_lifecycle_Ok s : validate_lifecycle s = Ok tt ↔ lifecycle_ok s.
Proof.
  unfold validate_lifecycle, lifecycle_ok. destruct (st_status s).
  - checks. rewrite bind_Ok. split.
    + intros (Hne & st & Hst & H). checks in H. rewrite !not_is_Some in H.
      rewrite Hst. naive_solver.
    + intros (Hne & Hst & ? & ?). split; [done|].
      destruct (frontier_status_total _ Hne) as [st Hst']. exists st. split; [done|]. checks.
      rewrite !not_is_Some. split_and!; [congruence|done..].
  - checks. rewrite !not_is_Some, !is_nil_spec.
    case_bool_decide as He; [rewrite provenance_Ok|].
    + rewrite <-not_eq_None_Some in He. naive_solver.
    + rewrite not_is_Some in He. naive_solver.
  - checks. rewrite bind_Ok. split.
    + intros (Hne & st & Hst & H). checks in H. rewrite !not_is_Some in H. rewrite Hst. naive_solver.
    + intros (Hne & Hst & ?). split; [done|]. eexists; split; [done|]. checks.
      rewrite !not_is_Some. naive_solver.
  - destruct (st_abort s) as [a|]; checks; [|naive_solver].
    rewrite !not_is_Some. naive_solver.
Qed.

(** [validate_graph_run_state] accepts exactly the well-formed states. *)
Lemma validate_graph_run_state_wf s : validate_graph_run_state s = Ok tt ↔ wf s.
Proof.
  unfold validate_graph_run_state, validate_graph_run_state_body. rewrite except_Ok. checks.
  rewrite bind_Ok. setoid_rewrite except_Ok. checks.
  assert (match st_completion_route s with
          | Some route => require_graph_identity route "graph completion route identity"
          | None => Ok tt end = Ok tt ↔ on_some (st_completion_route s) canonical) as Hroute.
  { destruct (st_completion_route s); checks; [done|]. split; auto. }
  split.
  - intros (? & ? & ? & [[? ?] ?] & c & Hc & Hrest). checks in Hrest.
    rewrite Hroute, validate_parent_Ok, validate_join_progress_Ok, validate_graph_frontier_Ok,
      validate_state_resources_Ok, validate_lease_Ok, validate_lifecycle_Ok in Hrest.
    destruct Hrest as (?%ledger_sound & ?). destruct_and!. split; eauto.
  - intros [? ? ? ? ? ? [c Hc] ? ? ? ? ? ? ? ?]. split_and!; [done..|]. exists c. split; [done|].
    checks. rewrite Hroute, validate_parent_Ok, validate_join_progress_Ok, validate_graph_frontier_Ok,
      validate_state_resources_Ok, validate_lease_Ok, validate_lifecycle_Ok.
    split_and!; auto using ledger_complete.
Qed.

Lemma validated_wf s s' : validated_graph_run_state s = Ok s' ↔ s' = s ∧ wf s.
Proof.
  unfold validated_graph_run_state. rewrite seq_Ok_iff, validate_graph_run_state_wf. naive_solver.
Qed.

(** C1: The executable validator is exactly the declarative invariant: a state is
    accepted if and only if its identities, counters, Config cursor, settlement ledger,
    Join progress, frontier, parent link, resources, lease and lifecycle satisfy [wf]. *)
Theorem validation_decides_well_formedness s : validate_graph_run_state s = Ok tt ↔ wf s.
Proof. apply validate_graph_run_state_wf. Qed.
