(* ===== verification/Reducer.v ===== *)
(** * Lemmas about the reducer

    Inversion of each transition, the frame every transition keeps, and the step
    relation whose histories [ReducerProofs] reasons about. *)

From Stdlib Require Import ZArith NArith Lia Bool String.
From stdpp Require Import prelude strings gmap sorting.
From S2P Require Import Prelude Identity Resources ResourceProofs Model Validation Transitions WellFormed.

Set Default Goal Selector "!".

(* ------------------------------------------------------------------ *)
(** ** One step and its inversion *)

(** One command accepted in one state. *)
Definition run_step (s s' : GraphRunState) : Prop :=
  ∃ c, reduce_graph_run (Some s) c = Ok s'.

(** The states of all histories. *)
Inductive reachable : GraphRunState → Prop :=
| reachable_start c s : reduce_graph_run None (CmdStart c) = Ok s → reachable s
| reachable_step s s' : reachable s → run_step s s' → reachable s'.

Lemma post_init_id s : wf s → post_init s = s.
Proof.
  intros Hwf. destruct (wf_cursor s Hwf) as [c Hc]. unfold config_cursor in Hc.
  destruct s as [? ? ? ? ? ? ? ? ? ? ? ? ? ? ? ? ? ? [i|] [v|] ?]; cbn in *; done.
Qed.

Lemma post_init_idem s : post_init (post_init s) = post_init s.
Proof. by destruct s. Qed.

(** The successor of [s] built from the transition's result [u]. *)
Definition bump (s u : GraphRunState) : GraphRunState :=
  post_init (u <| st_revision := (st_revision s + 1)%Z |>).

Lemma reduce_inv s c s' :
  reduce_graph_run (Some s) c = Ok s' ↔
  wf s ∧ expected_revision c = Some (st_revision s)
  ∧ ∃ u, apply_transition s c = Ok u ∧ s' = bump s u ∧ wf s'.
Proof.
  assert ((∃ d, c = CmdStart d) ∨
    reduce_graph_run (Some s) c =
      (validate_graph_run_state s;;
       fail_if (negb (bool_decide (expected_revision c = Some (st_revision s))))
         "graph command was based on a stale revision";;
       updated ← apply_transition s c;
       validated_graph_run_state (bump s updated))) as [[d ->]| ->].
  { destruct c; [left; eauto|right; done..]. }
  { cbn. split; [done|]. intros (_ & [=] & _). }
  checks. rewrite validate_graph_run_state_wf, bind_Ok. setoid_rewrite validated_wf.
  naive_solver.
Qed.

Lemma step_wf s s' : run_step s s' → wf s ∧ wf s'.
Proof. intros [c (? & _ & u & _ & _ & ?)%reduce_inv]. done. Qed.

Lemma start_inv c s : start_graph_run c = Ok s → wf s.
Proof. unfold start_graph_run. intros H. inv_ok. by apply validated_wf in H as [-> ?]. Qed.

Lemma reachable_wf s : reachable s → wf s.
Proof. destruct 1 as [c s H|s s' _ H]; [exact (start_inv c s H)|exact (proj2 (step_wf _ _ H))]. Qed.

(** A transition stops at its first failing guard. *)
Lemma fail_if_true b m : b = true → fail_if b m = Raise (Exn GraphStateTransitionError m).
Proof. by intros ->. Qed.

Lemma require_execution_lease_Ok s t u :
  require_execution_lease s t = Ok u ↔ st_execution s = Some (mkLease t).
Proof. unfold require_execution_lease. by checks. Qed.
#[export] Hint Rewrite require_execution_lease_Ok @not_is_Some : checks.

(* ------------------------------------------------------------------ *)
(** ** Inversion of each transition *)

Lemma claim_inv s c u :
  claim_graph_execution s c = Ok u ↔
  st_status s = RUNNING ∧ st_execution s = None ∧ st_resources s = None
  ∧ frontier_status (st_frontier s) = Ok EXECUTABLE ∧ pending_node_ids (st_frontier s) ≠ []
  ∧ validate_claim_resources s (claim_resources c) = Ok tt
  ∧ u = post_init (s <| st_execution_sequence := (st_execution_sequence s + 1)%Z |>
          <| st_execution := Some (mkLease (mkToken (st_execution_sequence s + 1) (claim_attempt_id c))) |>
          <| st_resources := claim_resources c |>).
Proof.
  unfold claim_graph_execution. checks. rewrite bind_Ok. split.
  - intros ([[? ?] ?] & st & Hst & Hrest). checks in Hrest.
    destruct Hrest as (-> & ? & ? & [= <-]). done.
  - intros (? & ? & ? & ? & ? & ? & ->). split_and!; [done..|]. eexists; split; [done|].
    checks. done.
Qed.

Lemma fence_inv s c u :
  fence_graph_execution s c = Ok u ↔
  st_status s = RUNNING ∧ st_execution s = Some (mkLease (fence_execution c))
  ∧ u = post_init (s <| st_execution := None |> <| st_resources := None |>).
Proof. unfold fence_graph_execution. checks. naive_solver. Qed.

Lemma abort_inv s c u :
  abort_graph_run s c = Ok u ↔
  st_status s = RUNNING ∧ st_execution s = None
  ∧ u = post_init (s <| st_status := ABORTED |> <| st_resources := None |>
          <| st_abort := Some (mkAbort (abort_command_reason c)) |>).
Proof. unfold abort_graph_run. checks. naive_solver. Qed.

Lemma resolution_base_Ok s :
  resolution_base s = Ok tt ↔
  st_status s = RUNNING ∧ frontier_status (st_frontier s) = Ok SETTLED
  ∧ st_execution s = None ∧ st_resources s = None.
Proof.
  unfold resolution_base. checks. rewrite bind_Ok. split.
  - intros (? & st & Hst & Hrest). checks in Hrest. destruct Hrest as (-> & ? & ?). done.
  - intros (? & ? & ? & ?). split; [done|]. eexists; split; [done|]. by checks.
Qed.

Lemma advance_inv s c u :
  advance_graph_frontier s c = Ok u ↔
  resolution_base s = Ok tt
  ∧ (∃ consumed, validate_next_activations s (adv_activations c) = Ok consumed
     ∧ validate_join_progress_delta s (adv_join_progress c) consumed
         (adv_consumed_join_progress c) = Ok tt)
  ∧ u = post_init (s <| st_superstep := (st_superstep s + 1)%Z |>
          <| st_frontier := pending_frontier (adv_activations c) |>
          <| st_join_progress := adv_join_progress c |>
          <| st_completion_route := None |>).
Proof.
  unfold advance_graph_frontier. checks. rewrite bind_Ok. split.
  - intros (? & consumed & Hc & Hrest). checks in Hrest. destruct Hrest as (? & [= <-]). eauto.
  - intros (? & (consumed & ? & ?) & ->). split; [done|]. exists consumed. split; [done|]. by checks.
Qed.

Lemma complete_inv s c u :
  complete_graph_frontier s c = Ok u ↔
  resolution_base s = Ok tt
  ∧ (∃ current consumed, current_successful_references s = Ok current
     ∧ validate_join_consumption s (com_consumed_join_progress c) current = Ok consumed
     ∧ length consumed = length (st_join_progress s))
  ∧ u = post_init (s <| st_status := COMPLETED |> <| st_frontier := mkFrontier [] |>
          <| st_join_progress := [] |> <| st_completion_route := com_completion_route c |>).
Proof.
  unfold complete_graph_frontier. checks. rewrite bind_Ok. split.
  - intros (? & cur & ? & Hrest). apply bind_Ok in Hrest as (consumed & ? & Hrest). checks in Hrest.
    destruct Hrest as (? & [= <-]). eauto 8.
  - intros (? & (cur & consumed & ? & ? & ?) & ->). split; [done|]. exists cur. split; [done|].
    apply bind_Ok. exists consumed. split; [done|]. by checks.
Qed.

(** What settling leaves, from the parts the source computes in order. *)
Definition settled_state (s : GraphRunState) (node_id : str) (settlement : GraphNodeSettlement)
    (ledger : list GraphPublicationSettlement) (cursor : GraphConfigCursor)
    (resources : option ResourceSnapshot) (derived : GraphFrontierStatus) : GraphRunState :=
  let executable := bool_decide (derived = EXECUTABLE) in
  post_init (s <| st_status := if bool_decide (derived = FRONTIER_FAILED) then FAILED else RUNNING |>
    <| st_frontier := settle_frontier (st_frontier s) node_id settlement |>
    <| st_execution := if executable then st_execution s else None |>
    <| st_resources := if executable then resources else None |>
    <| st_settled_publications := ledger |>
    <| st_config_revision := cur_revision cursor |>
    <| st_config_definition_id := Some (cur_definition_id cursor) |>
    <| st_config_definition_version := Some (cur_definition_version cursor) |>
    <| st_config_digest := cur_digest cursor |>).

Lemma settle_inv s c u :
  settle_graph_node s c = Ok u ↔
  let n := outcome_node_id (set_outcome c) in
  st_status s = RUNNING ∧ st_execution s = Some (mkLease (set_execution c))
  ∧ (∃ node, frontier_node (st_frontier s) n = Some node ∧ is_pending (fn_settlement node) = true)
  ∧ ∃ settlement ledger cursor resources derived,
      settle_outcome s c = Ok (settlement, ledger) ∧ settle_config s c = Ok cursor
      ∧ settle_resources (st_resources s) n = Ok resources
      ∧ frontier_status (settle_frontier (st_frontier s) n settlement) = Ok derived
      ∧ u = settled_state s n settlement ledger cursor resources derived.
Proof.
  cbn zeta. unfold settle_graph_node. checks. split.
  - intros (? & ? & Hn & Hrest). inv_ok.
    match goal with p : GraphNodeSettlement * _ |- _ => destruct p as [settlement ledger] end.
    inv_ok. subst. split_and!; [done..| |].
    + destruct (frontier_node _ _) as [node|]; [|done]. apply negb_false_iff in Hn. eauto.
    + unfold settled_state. eauto 12.
  - intros (? & ? & (node & Hn & Hp) & (st & l & cu & r & d & H1 & H2 & H3 & H4 & ->)).
    split_and!; [done..|by rewrite Hn, Hp|]. rewrite H1. cbn. rewrite H2. cbn. rewrite H3. cbn.
    rewrite H4. cbn. done.
Qed.

Lemma resume_inv s c u :
  resume_graph_nodes s c = Ok u ↔
  st_status s = RUNNING ∧ st_execution s = None ∧ st_resources s = None
  ∧ resume_actions c ≠ [] ∧ strictly_sorted res_node_id (resume_actions c)
  ∧ ∃ updated, py_for_state (frontier_nodes (st_frontier s))
      ([], (λ a, (res_node_id a, a)) <$> resume_actions c) resume_node = Ok (updated, [])
    ∧ u = post_init (s <| st_frontier := mkFrontier updated |>).
Proof.
  unfold resume_graph_nodes. checks. rewrite sorted_set_canonical, strictly_sorted_fmap.
  rewrite bind_Ok. split.
  - intros ([[? ?] ?] & [Hne ?] & [updated rest] & Hl & Hrest). checks in Hrest.
    rewrite is_nil_spec in Hrest. destruct Hrest as [-> [= <-]].
    split_and!; [done..| |done|by eauto]. intros E. by rewrite E in Hne.
  - intros (? & ? & ? & Hne & ? & updated & Hl & ->).
    split_and!; [done..| |done|]. { by destruct (resume_actions c). }
    exists (updated, []). by checks.
Qed.

(* ------------------------------------------------------------------ *)
(** ** What one settlement writes *)

Lemma sorted_key_elem {A B} `{Cmp B} (key : A → B) xs x : x ∈ sorted_key key xs ↔ x ∈ xs.
Proof. unfold sorted_key. by rewrite sort_by_perm. Qed.

(** The record a successful settlement appends. *)
Definition settled_record (s : GraphRunState) (c : SettleGraphNode) (node_id : str)
    (routing : GraphRoutingContribution) : GraphPublicationSettlement :=
  mkPublication (node_reference s (node_id, routing)) (set_expected_revision c + 1)
    (set_execution c) (set_publication_evidence c).

Lemma settle_outcome_inv s c settlement ledger :
  settle_outcome s c = Ok (settlement, ledger) ↔
  match set_outcome c with
  | SucceededGraphNodeOutcome n routing =>
      settlement = SucceededGraphNode routing
      ∧ reference_ok (node_reference s (n, routing))
      ∧ node_reference s (n, routing) ∉ settled_references s
      ∧ ledger = sorted_key pub_canonical_key
                   (st_settled_publications s ++ [settled_record s c n routing])
  | FailedGraphNodeOutcome n failure =>
      settlement = FailedGraphNode failure ∧ ledger = st_settled_publications s
      ∧ set_publication_evidence c = None
  | InterruptedGraphNodeOutcome n identity payload =>
      settlement = InterruptedGraphNode (mkInterrupt identity payload)
      ∧ ledger = st_settled_publications s ∧ set_publication_evidence c = None
      ∧ identity = mkInterruptIdentity (st_run_id s) (st_superstep s) n
                     (tok_generation (set_execution c))
      ∧ st_resume_input_codec s ≠ None
  end.
Proof.
  unfold settle_outcome. destruct (set_outcome c) as [n rt|n f|n i p].
  - rewrite bind_Ok. setoid_rewrite GraphActivationIdentity_new_Ok. split.
    + intros (a & [-> Ha] & H). inv_ok.
      match goal with H : ActivationReference_new _ _ = _ |- _ =>
        apply ActivationReference_new_Ok in H as [-> Hr] end.
      match goal with E : fail_if _ _ = _ |- _ => rename E into Hnew end.
      checks in Hnew. rewrite existsb_false_iff in Hnew. subst.
      split_and!; [done..| |done].
      intros (p & Hp & Hin)%list_elem_of_fmap. specialize (Hnew p Hin).
      apply bool_decide_eq_false in Hnew. by destruct Hnew.
    + intros (-> & [Ha Hr] & Hnin & ->). eexists; split; [split; [done|apply Ha]|].
      rewrite (proj2 (ActivationReference_new_Ok _ _ (node_reference s (n, rt)))) by done. cbn.
      rewrite (proj2 (existsb_false_iff _ _)); [done|].
      intros p Hp. apply bool_decide_eq_false. intros He. apply Hnin. rewrite <-He.
      by apply list_elem_of_fmap_2.
  - checks. naive_solver.
  - checks. naive_solver.
Qed.

Lemma transition_to_inv old candidate new :
  transition_to old candidate = Ok new →
  cur_definition_id new = cur_definition_id old
  ∧ cur_definition_version new = cur_definition_version old
  ∧ (cur_revision new = cur_revision old
       ∧ (cur_digest old = None ∨ cur_digest new = cur_digest old)
     ∨ cur_revision new = (cur_revision old + 1)%Z)
  ∧ (new = old ∨ new = candidate ∧ cursor_ok new).
Proof.
  unfold transition_to. intros H. inv_ok.
  match goal with H : GraphConfigCursor_admit _ = _ |- _ =>
    apply GraphConfigCursor_admit_Ok in H as [-> Hok] end.
  match goal with E : _ || _ = false |- _ => checks in E; destruct E as [Hi Hv] end.
  case_match eqn:E1.
  - apply Z.eqb_eq in E1. inv_ok. destruct (cur_digest old) eqn:D1, (cur_digest candidate) eqn:D2;
      inv_ok; subst; rewrite ?D1; split_and!; auto.
  - case_match eqn:E2; inv_ok.
    + apply Z.eqb_eq in E2. subst. split_and!; auto.
    + case_match; done.
Qed.

Lemma settle_config_inv s c cursor :
  settle_config s c = Ok cursor →
  ∃ old, config_cursor s = Ok old
    ∧ cur_definition_id cursor = cur_definition_id old
    ∧ cur_definition_version cursor = cur_definition_version old
    ∧ (cur_revision old ≤ cur_revision cursor ≤ cur_revision old + 1)%Z
    ∧ cursor_ok cursor.
Proof.
  unfold settle_config. intros (x & Hold & H)%bind_Ok. exists x; split; [done|].
  assert (cursor_ok x) as Hx.
  { clear H. unfold config_cursor in Hold. repeat case_match; [|done..].
    by apply GraphConfigCursor_new_Ok in Hold as [_ ?]. }
  destruct (set_config_cursor c) as [cand|].
  - destruct (transition_to x cand) as [new|] eqn:Et.
    + injection H as <-. apply transition_to_inv in Et as (? & ? & ? & ?).
      split_and!; [done|done|naive_solver lia..].
    + repeat case_match; done.
  - injection H as <-. split_and!; [done..| |done]; lia.
Qed.

Lemma config_cursor_fields s c :
  config_cursor s = Ok c →
  st_config_definition_id s = Some (cur_definition_id c)
  ∧ st_config_definition_version s = Some (cur_definition_version c)
  ∧ st_config_revision s = cur_revision c ∧ st_config_digest s = cur_digest c.
Proof.
  unfold config_cursor. destruct (st_config_definition_id s), (st_config_definition_version s);
    try done. by intros [-> _]%GraphConfigCursor_new_Ok.
Qed.

(* ------------------------------------------------------------------ *)
(** ** The order in which states evolve *)

Record evolves (s s' : GraphRunState) : Prop := {
  ev_run_id : st_run_id s' = st_run_id s;
  ev_definition_id : st_definition_id s' = st_definition_id s;
  ev_definition_version : st_definition_version s' = st_definition_version s;
  ev_codec : st_resume_input_codec s' = st_resume_input_codec s;
  ev_evidence : st_graph_input_evidence s' = st_graph_input_evidence s;
  ev_parent : st_parent s' = st_parent s;
  ev_config_id : st_config_definition_id s' = st_config_definition_id s;
  ev_config_version : st_config_definition_version s' = st_config_definition_version s;
  ev_config_revision : (st_config_revision s ≤ st_config_revision s')%Z;
  ev_revision : (st_revision s ≤ st_revision s')%Z;
  ev_superstep : (st_superstep s ≤ st_superstep s')%Z;
  ev_sequence : (st_execution_sequence s ≤ st_execution_sequence s')%Z;
  ev_ledger : st_settled_publications s ⊆ st_settled_publications s';
  ev_new : ∀ p, p ∈ st_settled_publications s' → p ∉ st_settled_publications s →
    (st_revision s < pub_commit_revision p)%Z
}.

#[export] Instance evolves_preorder : PreOrder evolves.
Proof.
  split.
  - intros s. split; try done; lia.
  - intros s1 s2 s3 [] []. split; try congruence; try lia.
    + by etrans.
    + intros p Hp Hn. destruct (decide (p ∈ st_settled_publications s2)); [auto|].
      specialize (ev_new1 p Hp n). lia.
Qed.


Lemma evolves_same_ledger s u :
  wf s → st_settled_publications u = st_settled_publications s →
  st_run_id u = st_run_id s → st_definition_id u = st_definition_id s →
  st_definition_version u = st_definition_version s →
  st_resume_input_codec u = st_resume_input_codec s →
  st_graph_input_evidence u = st_graph_input_evidence s → st_parent u = st_parent s →
  st_config_definition_id u = st_config_definition_id s →
  st_config_definition_version u = st_config_definition_version s →
  (st_config_revision s ≤ st_config_revision u)%Z →
  (st_superstep s ≤ st_superstep u)%Z →
  (st_execution_sequence s ≤ st_execution_sequence u)%Z →
  evolves s (bump s u).
Proof.
  intros Hwf Hl ? ? ? ? ? ? Hci Hcv ? ? ?.
  destruct (wf_cursor s Hwf) as [c (E1 & E2 & _)%config_cursor_fields].
  split; cbn; try done.
  - by rewrite Hci, E1.
  - by rewrite Hcv, E2.
  - lia.
  - by rewrite Hl.
  - intros p. rewrite Hl. naive_solver.
Qed.

Lemma step_evolves s s' : run_step s s' → evolves s s' ∧ st_revision s' = (st_revision s + 1)%Z.
Proof.
  intros [c (Hwf & Hrev & u & Hu & -> & Hwf')%reduce_inv]. split; [|done].
  destruct (wf_cursor s Hwf) as [cu Hcu]. pose proof (config_cursor_fields s cu Hcu) as (E1 & E2 & E3 & _).
  destruct c; cbn in Hu; [done|..].
  - apply claim_inv in Hu as (_ & _ & _ & _ & _ & _ & ->).
    apply evolves_same_ledger; cbn; rewrite ?E1, ?E2; done || lia.
  - apply fence_inv in Hu as (_ & _ & ->).
    apply evolves_same_ledger; cbn; rewrite ?E1, ?E2; done || lia.
  - apply settle_inv in Hu as (_ & _ & _ & st & l & cur & r & d & Ho & Hc & _ & _ & ->).
    apply settle_config_inv in Hc as (old & Hold & Hi & Hv & Hr & _).
    assert (old = cu) as -> by congruence. injection Hrev as Hrev.
    split; cbn; rewrite ?Hi, ?Hv; try done; try lia.
    + apply settle_outcome_inv in Ho. destruct (set_outcome c); [|naive_solver..].
      destruct Ho as (_ & _ & _ & ->). intros p Hp. apply sorted_key_elem.
      apply elem_of_app. by left.
    + intros p. apply settle_outcome_inv in Ho. destruct (set_outcome c); [|naive_solver..].
      destruct Ho as (_ & _ & _ & ->). rewrite sorted_key_elem, elem_of_app, list_elem_of_singleton.
      intros [?| ->]; [done|]. intros _. cbn. lia.
  - apply resume_inv in Hu as (_ & _ & _ & _ & _ & up & _ & ->).
    apply evolves_same_ledger; cbn; rewrite ?E1, ?E2; done || lia.
  - apply advance_inv in Hu as (_ & _ & ->).
    apply evolves_same_ledger; cbn; rewrite ?E1, ?E2; done || lia.
  - apply complete_inv in Hu as (_ & _ & ->).
    apply evolves_same_ledger; cbn; rewrite ?E1, ?E2; done || lia.
  - apply abort_inv in Hu as (_ & _ & ->).
    apply evolves_same_ledger; cbn; rewrite ?E1, ?E2; done || lia.
Qed.

Lemma history_evolves s s' : rtc run_step s s' → evolves s s'.
Proof. induction 1; [done|]. etrans; [by apply step_evolves|done]. Qed.

(* ------------------------------------------------------------------ *)
(** ** Well-formedness under a larger context *)

(** [s'] has [s]'s coordinates and at least its evidence. *)
Record extends (s s' : GraphRunState) : Prop := {
  ex_run_id : st_run_id s' = st_run_id s;
  ex_superstep : st_superstep s' = st_superstep s;
  ex_codec : st_resume_input_codec s' = st_resume_input_codec s;
  ex_sequence : (st_execution_sequence s ≤ st_execution_sequence s')%Z;
  ex_ledger : settled_references s ⊆ settled_references s'
}.

Lemma occurrence_ok_extends s s' o : extends s s' → occurrence_ok s o → occurrence_ok s' o.
Proof. intros [Hr _ _ _ _] []. split; try done. congruence. Qed.

Lemma cause_ok_extends s s' n c : extends s s' → cause_ok s n c → cause_ok s' n c.
Proof.
  intros Hx. pose proof Hx as [Hr Hs _ _ Hl]. unfold cause_ok. rewrite Hs.
  destruct c as [|refs jo]; [done|]. intros (? & ? & ? & Hp & Hj). split_and!; [done..| |].
  - intros r [? ? ? ?]%Hp. split; [done| | |by apply Hl]; congruence.
  - destruct jo; [|done]. destruct Hj as (?%(occurrence_ok_extends s s') & ?); done.
Qed.

Lemma settlement_ok_extends s s' n x : extends s s' → settlement_ok s n x → settlement_ok s' n x.
Proof.
  intros [Hr Hs _ Hq _]. destruct x; try done. cbn. intros []. split; [done|..]; try congruence. lia.
Qed.

Lemma node_ok_extends s s' n : extends s s' → node_ok s n → node_ok s' n.
Proof.
  intros Hx [? Hc Hs Hcodec]. split; [done|..].
  - by eapply cause_ok_extends.
  - by eapply settlement_ok_extends.
  - by rewrite (ex_codec _ _ Hx).
Qed.

Lemma joins_ok_extends s s' :
  extends s s' → st_join_progress s' = st_join_progress s → joins_ok s → joins_ok s'.
Proof.
  intros Hx Hj [Hrec Hsort]. split; rewrite Hj; [|done]. intros j Hin.
  destruct (Hrec j Hin) as [Ho ? ? ? ? ? ? Harr].
  split; try done; [by eapply occurrence_ok_extends|by rewrite (ex_superstep _ _ Hx)|].
  intros r [? ? ? ? ? ?]%Harr. split; try done; [by rewrite (ex_superstep _ _ Hx)|].
  by apply (ex_ledger _ _ Hx).
Qed.

Lemma frontier_ok_extends s s' :
  extends s s' → st_frontier s' = st_frontier s → frontier_ok s → frontier_ok s'.
Proof.
  intros Hx Hf [? Hn ?]. split; rewrite ?Hf; [done| |by rewrite (ex_codec _ _ Hx)].
  intros n Hin. eapply node_ok_extends; eauto.
Qed.

(** A ledger that is only seen from a later position. *)
Lemma ledger_ok_later s s' :
  st_settled_publications s' = st_settled_publications s → st_run_id s' = st_run_id s →
  st_superstep s' = st_superstep s → (st_revision s ≤ st_revision s')%Z →
  (st_execution_sequence s ≤ st_execution_sequence s')%Z →
  (st_status s' ≠ COMPLETED → st_status s ≠ COMPLETED
    ∧ ∀ r, r ∈ frontier_references s' ↔ r ∈ frontier_references s) →
  ledger_ok s → ledger_ok s'.
Proof.
  intros Hl Hr Hs Hrev Hseq Hcur [? ? ? ? Hpos Hc]. split; unfold settled_references; rewrite ?Hl; try done.
  - eapply Forall_impl; [exact Hpos|]. intros p []. split; [congruence| |lia..]. by rewrite Hs.
  - intros Hst r. destruct (Hcur Hst) as [Hst' Hf]. rewrite Hf, Hs. by apply Hc.
Qed.

Lemma list_filter_nil_bool {A} (p : A → bool) xs :
  (∀ x, x ∈ xs → p x = false) → List.filter p xs = [].
Proof.
  induction xs as [|x xs IH]; intros H; cbn; [done|]. rewrite H by (by left).
  apply IH. intros y Hy. apply H. by right.
Qed.

Lemma pending_iff f : pending_node_ids f ≠ [] ↔ frontier_status f = Ok EXECUTABLE.
Proof.
  unfold pending_node_ids, node_ids_with, frontier_status. destruct f as [nodes]; cbn.
  destruct (existsb is_pending (fn_settlement <$> nodes)) eqn:E.
  - split; [done|]. intros _. apply existsb_true_iff in E as (x & (n & -> & Hn)%list_elem_of_fmap & Hp).
    intros Hnil%fmap_nil_inv. assert (n ∈ List.filter (λ n, is_pending (fn_settlement n)) nodes) as Hin
      by (by apply List_filter_elem). rewrite Hnil in Hin. by apply elem_of_nil in Hin.
  - split; [|by repeat case_match]. intros Hne. destruct Hne.
    rewrite existsb_false_iff in E. rewrite list_filter_nil_bool; [done|].
    intros n Hn. apply E. by apply list_elem_of_fmap_2.
Qed.
