(* ===== verification/ReducerProofs.v ===== *)
(** * Properties of graph-run histories

    Safety of the reducer over arbitrary command sequences: optimistic concurrency,
    lease fencing, the append-only settlement ledger, terminal states, causality of
    activations and the freshness of interrupt resumes. *)

From Stdlib Require Import ZArith NArith Lia Bool String.
From stdpp Require Import prelude strings gmap sorting.
From S2P Require Import Prelude Identity Resources ResourceProofs Model Validation Transitions WellFormed Reducer.

Set Default Goal Selector "!".

(* ------------------------------------------------------------------ *)
(** ** Running command sequences *)

Definition run_from (s : GraphRunState) (cs : list GraphRunCommand) : result GraphRunState :=
  py_for_state cs s (λ s c, reduce_graph_run (Some s) c).

Definition run_all (start : StartGraphRun) (cs : list GraphRunCommand) : result GraphRunState :=
  s ← reduce_graph_run None (CmdStart start); run_from s cs.

Lemma run_from_history s cs s' : run_from s cs = Ok s' → rtc run_step s s'.
Proof.
  unfold run_from. revert s. induction cs as [|c cs IH]; intros s; cbn.
  - by intros [= ->].
  - intros (s1 & Hs & Hrest)%bind_Ok. eapply rtc_l; [by exists c|auto].
Qed.

Lemma history_reachable s s' : reachable s → rtc run_step s s' → reachable s'.
Proof. intros Hr. induction 1; [done|]. eauto using reachable_step. Qed.

Lemma run_all_reachable start cs s : run_all start cs = Ok s → reachable s.
Proof.
  unfold run_all. intros (s0 & H0 & Hrest)%bind_Ok.
  eapply history_reachable; [by eapply reachable_start|by eapply run_from_history].
Qed.

(* ------------------------------------------------------------------ *)
(** ** A concrete run *)

Definition demo_start : StartGraphRun :=
  mkStart (lit "run") (lit "def") 1
    [mkFrontierActivation (lit "a") StartActivationCause;
     mkFrontierActivation (lit "b") StartActivationCause]
    None (Some (mkCodec (lit "json") 1)) None None.
Definition demo_token (generation : Z) : GraphExecutionToken := mkToken generation (lit "attempt").
Definition demo_claim (revision : Z) : GraphRunCommand :=
  CmdClaim (mkClaim revision (lit "attempt") None).
Definition demo_success (revision generation : Z) (node_id : str) : GraphRunCommand :=
  CmdSettle (mkSettle revision (demo_token generation)
    (SucceededGraphNodeOutcome node_id ContinueGraphRouting) None None).
Definition demo_interrupt (revision generation superstep : Z) (node_id : str) : GraphRunCommand :=
  CmdSettle (mkSettle revision (demo_token generation)
    (InterruptedGraphNodeOutcome node_id
       (mkInterruptIdentity (lit "run") superstep node_id generation) []) None None).
Definition demo_reference (superstep : Z) (node_id : str) : ActivationReference :=
  mkReference (mkActivation (lit "run") superstep node_id) None.
Definition demo_join : GraphJoinOccurrenceIdentity :=
  mkOccurrence (mkJoin [lit "a"; lit "b"] (lit "c")) (lit "run") 1.
(** Both sources settle, the Join activates [c], [c] settles and the run completes. *)
Definition demo_commands : list GraphRunCommand :=
  [demo_claim 0; demo_success 1 1 (lit "a"); demo_success 2 1 (lit "b");
   CmdAdvance (mkAdvance 3 [mkFrontierActivation (lit "c")
     (RoutedActivationCause [demo_reference 0 (lit "a"); demo_reference 0 (lit "b")]
        (Some demo_join))] [] []);
   demo_claim 4; demo_success 5 2 (lit "c");
   CmdComplete (mkComplete 6 [] None)].

(** The state after the first [k] commands of a run. *)
Definition state_of (r : result GraphRunState) : GraphRunState :=
  match r with
  | Ok s => s
  | Raise _ => mkRunState [] [] 0 RUNNING 0 (mkFrontier []) 0 None [] None [] None None None None 0
                 None 0 None None None
  end.
Definition demo_after (k : nat) : GraphRunState := state_of (run_all demo_start (take k demo_commands)).

(** Discharges reachability of a concrete run. *)
Ltac reach_demo k :=
  apply (run_all_reachable demo_start (take k demo_commands)); vm_compute; reflexivity.

(* ------------------------------------------------------------------ *)
(** ** Optimistic concurrency *)

Lemma stale_rejected s c r :
  wf s → expected_revision c = Some r → r ≠ st_revision s →
  reduce_graph_run (Some s) c
    = Raise (Exn GraphStateTransitionError "graph command was based on a stale revision").
Proof.
  intros Hwf Hr Hne. assert (validate_graph_run_state s = Ok tt) as Hv
    by (by apply validate_graph_run_state_wf).
  destruct c; cbn [reduce_graph_run]; [done|..]; rewrite Hv; cbn [mbind result_bind];
    rewrite bool_decide_false by congruence; done.
Qed.

Lemma tc_revision s s' : tc run_step s s' → (st_revision s < st_revision s')%Z.
Proof. induction 1 as [s s' [_ ->]%step_evolves|s s1 s' [_ H]%step_evolves]; lia. Qed.

Lemma tc_wf s s' : tc run_step s s' → wf s'.
Proof. induction 1 as [s s' [_ ?]%step_wf|]; done. Qed.

(** Commands are linearised by revision: once any command has been accepted in [s],
    every command prepared against [s]'s revision is rejected as stale in every later
    state of the history, so two commands read from one state can never both commit. *)
Lemma stale_commands_never_commit s s' c :
  tc run_step s s' → expected_revision c = Some (st_revision s) →
  reduce_graph_run (Some s') c
    = Raise (Exn GraphStateTransitionError "graph command was based on a stale revision").
Proof.
  intros Hh Hr. eapply stale_rejected; [by eapply tc_wf|done|].
  apply tc_revision in Hh. lia.
Qed.


(* ------------------------------------------------------------------ *)
(** ** Terminal states *)

(** A run that completed, failed or aborted is final: the reducer rejects every
    further command with a transition error. *)
Lemma terminal_states_absorb s c :
  reachable s → st_status s ≠ RUNNING →
  ∃ m, reduce_graph_run (Some s) c = Raise (Exn GraphStateTransitionError m).
Proof.
  intros Hwf%reachable_wf Hst. assert (validate_graph_run_state s = Ok tt) as Hv
    by (by apply validate_graph_run_state_wf).
  destruct (decide (expected_revision c = Some (st_revision s))) as [Hr|Hr].
  - destruct c; cbn [reduce_graph_run]; [by eauto|..]; rewrite Hv; cbn [mbind result_bind];
      rewrite bool_decide_true by done; cbn;
      unfold claim_graph_execution, fence_graph_execution, settle_graph_node, resume_graph_nodes,
        advance_graph_frontier, complete_graph_frontier, resolution_base, abort_graph_run;
      rewrite (bool_decide_eq_false_2 (st_status s = RUNNING)) by done; cbn; eauto.
  - destruct (expected_revision c) as [r|] eqn:E.
    + eexists. apply (stale_rejected s c r); [done..|congruence].
    + destruct c; [cbn; eauto|done..].
Qed.


(* ------------------------------------------------------------------ *)
(** ** Lease fencing *)

(** How one command changes the lease. *)
Lemma step_lease s s' :
  run_step s s' →
  (st_execution s' = st_execution s ∧ st_execution_sequence s' = st_execution_sequence s)
  ∨ (st_execution s' = None ∧ st_execution_sequence s' = st_execution_sequence s)
  ∨ (st_execution s = None ∧ st_execution_sequence s' = (st_execution_sequence s + 1)%Z
     ∧ ∃ a, st_execution s' = Some (mkLease (mkToken (st_execution_sequence s + 1) a))).
Proof.
  intros [c (_ & _ & u & Hu & -> & _)%reduce_inv].
  destruct c; cbn in Hu; [done|..].
  - apply claim_inv in Hu as (_ & ? & _ & _ & _ & _ & ->). right; right. cbn. eauto.
  - apply fence_inv in Hu as (_ & _ & ->). by right; left.
  - apply settle_inv in Hu as (_ & _ & _ & ? & ? & ? & ? & d & _ & _ & _ & _ & ->). cbn.
    case_bool_decide; auto.
  - apply resume_inv in Hu as (_ & _ & _ & _ & _ & ? & _ & ->). by left.
  - apply advance_inv in Hu as (_ & _ & ->). by left.
  - apply complete_inv in Hu as (_ & _ & ->). by left.
  - apply abort_inv in Hu as (_ & ? & ->). by left.
Qed.

(** The token [t] has been superseded in [s]. *)
Definition superseded (t : GraphExecutionToken) (s : GraphRunState) : Prop :=
  (tok_generation t ≤ st_execution_sequence s)%Z
  ∧ on_some (st_execution s) (λ l, tok_generation t < tok_generation (lease_token l))%Z.

Lemma superseded_step t s s' : run_step s s' → superseded t s → superseded t s'.
Proof.
  intros Hstep [Hle Hl]. unfold superseded.
  apply step_lease in Hstep as [[-> ->]|[[-> ->]|(_ & -> & a & ->)]]; [done..|].
  rewrite on_some_Some; cbn. lia.
Qed.

Lemma superseded_history t s s' : rtc run_step s s' → superseded t s → superseded t s'.
Proof. induction 1; eauto using superseded_step. Qed.

Lemma lease_lost t s s' :
  rtc run_step s s' → st_execution s = Some (mkLease t) → wf s →
  st_execution s' = Some (mkLease t) ∨ superseded t s'.
Proof.
  induction 1 as [|s s1 s' Hstep Hrest IH]; [by left|]. intros Ht Hwf.
  assert (tok_generation t = st_execution_sequence s) as Hg.
  { destruct (wf_lease s Hwf _ Ht) as (_ & _ & ? & _). done. }
  pose proof (step_wf _ _ Hstep) as [_ Hwf1].
  apply step_lease in Hstep as [[He Hs]|[[He Hs]|(He & _)]]; [| |congruence].
  - apply IH; [congruence|done].
  - right. eapply superseded_history; [done|]. split; [lia|]. by rewrite He.
Qed.

(** C28: Lease fencing.  Once the execution lease of token [t] has been given up (by a
    fence or by the settlement that ends the claim), no later state of the history
    is leased to [t] again, and every settlement or fence carrying [t] is rejected. *)
Theorem fenced_token_never_returns s t s1 s2 :
  reachable s → st_execution s = Some (mkLease t) →
  rtc run_step s s1 → st_execution s1 ≠ Some (mkLease t) → rtc run_step s1 s2 →
  st_execution s2 ≠ Some (mkLease t)
  ∧ (∀ c s3, set_execution c = t → reduce_graph_run (Some s2) (CmdSettle c) ≠ Ok s3)
  ∧ (∀ c s3, fence_execution c = t → reduce_graph_run (Some s2) (CmdFence c) ≠ Ok s3).
Proof.
  intros Hwf%reachable_wf Ht H1 Hlost H2.
  assert (st_execution s2 ≠ Some (mkLease t)) as Hgone.
  { destruct (lease_lost t s s1) as [|Hs]; [done..|].
    apply (superseded_history t s1 s2) in Hs as [_ Hs]; [|done].
    intros Heq. specialize (Hs _ Heq). cbn in Hs. lia. }
  split_and!; [done|..].
  - intros c s3 <- (_ & _ & u & Hu & _)%reduce_inv. by apply settle_inv in Hu as (_ & ? & _).
  - intros c s3 <- (_ & _ & u & Hu & _)%reduce_inv. by apply fence_inv in Hu as (_ & ? & _).
Qed.

(** Claim, fence, claim again with the same attempt name. *)
Definition fenced_commands : list GraphRunCommand :=
  [demo_claim 0; CmdFence (mkFence 1 (demo_token 1)); demo_claim 2].
Definition fenced_after (k : nat) : GraphRunState := state_of (run_all demo_start (take k fenced_commands)).

Lemma fenced_token_never_returns_witness :
  st_execution (fenced_after 3) = Some (mkLease (demo_token 2))
  ∧ st_execution (fenced_after 3) ≠ Some (mkLease (demo_token 1))
  ∧ ∀ s, reduce_graph_run (Some (fenced_after 3)) (demo_success 3 1 (lit "a")) ≠ Ok s.
Proof.
  destruct (fenced_token_never_returns (fenced_after 1) (demo_token 1) (fenced_after 2) (fenced_after 3))
    as (H1 & H2 & _).
  - apply (run_all_reachable demo_start (take 1 fenced_commands)). vm_compute. reflexivity.
  - vm_compute. reflexivity.
  - apply (run_from_history _ [CmdFence (mkFence 1 (demo_token 1))]). vm_compute. reflexivity.
  - vm_compute. discriminate.
  - apply (run_from_history _ [demo_claim 2]). vm_compute. reflexivity.
  - split_and!; [vm_compute; reflexivity|exact H1|]. intros s. apply H2. reflexivity.
Defined.

(* ------------------------------------------------------------------ *)
(** ** The settlement ledger *)

Lemma bounded_NoDup_length (zs : list Z) a b :
  (a ≤ b)%Z → NoDup zs → Forall (λ z, a < z ≤ b)%Z zs → (Z.of_nat (length zs) ≤ b - a)%Z.
Proof.
  intros Hab Hnd Hall.
  assert (length zs ≤ length (seqZ (a + 1) (b - a))) as Hlen.
  { apply submseteq_length, NoDup_submseteq; [done|]. intros z Hz.
    rewrite Forall_forall in Hall. apply elem_of_seqZ. specialize (Hall z Hz). lia. }
  rewrite length_seqZ in Hlen. lia.
Qed.

(** Two records of one valid ledger with the same activation are the same record. *)
Lemma ledger_functional s p q :
  wf s → p ∈ st_settled_publications s → q ∈ st_settled_publications s →
  ref_activation (pub_reference p) = ref_activation (pub_reference q) → p = q.
Proof.
  intros Hwf Hp Hq Heq. pose proof (lo_activations s (wf_ledger s Hwf)) as Hnd.
  unfold settled_references in Hnd. rewrite <-list_fmap_compose in Hnd.
  apply list_elem_of_lookup in Hp as [i Hi], Hq as [j Hj].
  assert (i = j) as ->; [|congruence].
  eapply NoDup_lookup; [done|..]; rewrite list_lookup_fmap, ?Hi, ?Hj; cbn; by rewrite ?Heq.
Qed.

(** C32: The settlement ledger is append-only and each activation settles at most once.
    Along any history every record is kept unchanged, no later record names an
    activation that already has one, every new record carries a commit revision of the
    history's own interval, and there are at most as many new records as commands. *)
Theorem ledger_append_only s s' :
  reachable s → rtc run_step s s' →
  st_settled_publications s ⊆ st_settled_publications s'
  ∧ (∀ p q, p ∈ st_settled_publications s → q ∈ st_settled_publications s' →
       ref_activation (pub_reference p) = ref_activation (pub_reference q) → p = q)
  ∧ (∀ p, p ∈ st_settled_publications s' → p ∉ st_settled_publications s →
       (st_revision s < pub_commit_revision p ≤ st_revision s')%Z)
  ∧ (Z.of_nat (length (st_settled_publications s'))
      ≤ Z.of_nat (length (st_settled_publications s)) + (st_revision s' - st_revision s))%Z.
Proof.
  intros Hr Hh. pose proof (history_reachable _ _ Hr Hh) as Hr'.
  apply reachable_wf in Hr, Hr'. apply history_evolves in Hh.
  pose proof (wf_ledger s' Hr') as Hl'. destruct Hh as [? ? ? ? ? ? ? ? ? Hrev ? ? Hsub Hnew].
  assert (∀ p, p ∈ st_settled_publications s' → p ∉ st_settled_publications s →
       (st_revision s < pub_commit_revision p ≤ st_revision s')%Z) as Hint.
  { intros p Hp Hn. split; [by apply Hnew|].
    pose proof (lo_position s' Hl') as Hpos. rewrite Forall_forall in Hpos.
    by apply (Hpos p Hp). }
  split_and!; [done| |done|].
  - intros p q Hp Hq. apply (ledger_functional s'); auto.
  - set (old := filter (λ p, p ∈ st_settled_publications s) (st_settled_publications s')).
    set (fresh := filter (λ p, p ∉ st_settled_publications s) (st_settled_publications s')).
    assert (NoDup (st_settled_publications s')) as Hnd by (by eapply NoDup_fmap_1, Hl').
    assert (length old ≤ length (st_settled_publications s)) as Ho.
    { apply submseteq_length, NoDup_submseteq; [by apply NoDup_filter|].
      intros p [? _]%list_elem_of_filter. done. }
    assert (Z.of_nat (length fresh) ≤ st_revision s' - st_revision s)%Z as Hf.
    { rewrite <-(length_fmap pub_commit_revision fresh). apply bounded_NoDup_length; [done|..].
      - eapply sublist_NoDup; [apply (lo_revisions _ Hl')|].
        apply fmap_sublist, sublist_filter.
      - apply Forall_fmap, Forall_forall. intros p [? ?]%list_elem_of_filter. cbn. auto. }
    assert (length (st_settled_publications s') = length old + length fresh) as ->; [|lia].
    clear. subst old fresh. induction (st_settled_publications s') as [|p ps IH]; [done|].
    rewrite !filter_cons. repeat case_decide; cbn; done || lia.
Qed.

Lemma ledger_append_only_witness :
  length (st_settled_publications (demo_after 3)) = 2
  ∧ length (st_settled_publications (demo_after 7)) = 3
  ∧ st_settled_publications (demo_after 3) ⊆ st_settled_publications (demo_after 7).
Proof.
  split_and!; [vm_compute; reflexivity..|]. apply ledger_append_only; [reach_demo 3|].
  apply (run_from_history _ (drop 3 demo_commands)). vm_compute. reflexivity.
Defined.

(* ------------------------------------------------------------------ *)
(** ** What no history changes *)

Lemma nsteps_revision k s s' :
  nsteps run_step k s s' → st_revision s' = (st_revision s + Z.of_nat k)%Z.
Proof. induction 1 as [|k s s1 s' [_ H]%step_evolves _ IH]; lia. Qed.

(** Along every history of [k] accepted commands the state stays well-formed, the
    revision counts the commands exactly, the run, definition, parent, codec, input
    evidence and Config identities never change, and the superstep, execution sequence
    and Config revision never decrease. *)
Lemma histories_preserve_identity s k s' :
  reachable s → nsteps run_step k s s' →
  wf s' ∧ st_revision s' = (st_revision s + Z.of_nat k)%Z
  ∧ st_run_id s' = st_run_id s ∧ st_definition_id s' = st_definition_id s
  ∧ st_definition_version s' = st_definition_version s ∧ st_parent s' = st_parent s
  ∧ st_resume_input_codec s' = st_resume_input_codec s
  ∧ st_graph_input_evidence s' = st_graph_input_evidence s
  ∧ st_config_definition_id s' = st_config_definition_id s
  ∧ st_config_definition_version s' = st_config_definition_version s
  ∧ (st_superstep s ≤ st_superstep s')%Z
  ∧ (st_execution_sequence s ≤ st_execution_sequence s')%Z
  ∧ (st_config_revision s ≤ st_config_revision s')%Z.
Proof.
  intros Hr Hn. assert (rtc run_step s s') as Hh by (apply rtc_nsteps; eauto).
  pose proof (history_evolves _ _ Hh) as [].
  split_and!; try done; [|by apply nsteps_revision].
  by apply reachable_wf, (history_reachable s).
Qed.

