(* ===== verification/OperationProofs.v ===== *)
(** * Exact behaviour of the commands

    For each command: precisely when the reducer accepts it in a reachable state and
    precisely which state it produces.  The re-validation the reducer runs on every
    successor never rejects what the command's own guards admitted. *)

From Stdlib Require Import ZArith NArith Lia Bool String.
From stdpp Require Import prelude strings gmap sorting.
From S2P Require Import Prelude Identity Resources ResourceProofs Model Validation Transitions WellFormed Reducer ReducerProofs.

Set Default Goal Selector "!".

(* ------------------------------------------------------------------ *)
(** ** Claim *)

(** What a claim's resource plan must satisfy. *)
Definition claimable_resources (s : GraphRunState) (r : ResourceSnapshot) : Prop :=
  validate_resource_snapshot r = Ok tt ∧ snap_acquisitions r ≠ []
  ∧ (acq_node_id <$> snap_acquisitions r) ⊆ pending_node_ids (st_frontier s).

Lemma validate_claim_resources_Ok s o :
  validate_claim_resources s o = Ok tt ↔ on_some o (claimable_resources s).
Proof. destruct o; cbn; [|by split]. checks. done. Qed.

Definition claimed (s : GraphRunState) (c : ClaimGraphExecution) : GraphRunState :=
  s <| st_execution_sequence := (st_execution_sequence s + 1)%Z |>
    <| st_execution := Some (mkLease (mkToken (st_execution_sequence s + 1) (claim_attempt_id c))) |>
    <| st_resources := claim_resources c |>
    <| st_revision := (st_revision s + 1)%Z |>.

Lemma no_lease_no_resources s : wf s → st_execution s = None → st_resources s = None.
Proof.
  intros Hwf He. destruct (st_resources s) as [r|] eqn:Er; [|done].
  by destruct (wf_resources s Hwf r Er) as (_ & _ & ? & _).
Qed.

(** Normal form of a successor whose Config fields were not touched. *)
Lemma config_id_some s : wf s →
  Some (default (st_definition_id s) (st_config_definition_id s)) = st_config_definition_id s
  ∧ Some (default (st_definition_version s) (st_config_definition_version s))
    = st_config_definition_version s.
Proof.
  intros Hwf. destruct (wf_cursor s Hwf) as [c (-> & -> & _)%config_cursor_fields]. done.
Qed.

(** Settles an equation between explicit updates of one well-formed state. *)
Ltac state_eq Hwf :=
  match type of Hwf with wf ?s =>
    let Hi := fresh in let Hv := fresh in
    destruct (config_id_some s Hwf) as [Hi Hv]; clear -Hi Hv;
    destruct s as [? ? ? ? ? ? ? ? ? ? ? ? ? ? ? ? ? ? [?|] [?|] ?];
    [vm_compute; reflexivity|discriminate..]
  end.

Lemma extends_same s s' :
  st_run_id s' = st_run_id s → st_superstep s' = st_superstep s →
  st_resume_input_codec s' = st_resume_input_codec s →
  (st_execution_sequence s ≤ st_execution_sequence s')%Z →
  st_settled_publications s' = st_settled_publications s → extends s s'.
Proof. intros ? ? ? ? Hl. split; [done..|]. unfold settled_references. by rewrite Hl. Qed.

Lemma claimed_eq s c :
  wf s →
  bump s (post_init (s <| st_execution_sequence := (st_execution_sequence s + 1)%Z |>
    <| st_execution := Some (mkLease (mkToken (st_execution_sequence s + 1) (claim_attempt_id c))) |>
    <| st_resources := claim_resources c |>)) = claimed s c.
Proof. intros Hwf. state_eq Hwf. Qed.

Lemma wf_claimed s c :
  wf s → st_status s = RUNNING → pending_node_ids (st_frontier s) ≠ [] →
  canonical (claim_attempt_id c) → on_some (claim_resources c) (claimable_resources s) →
  wf (claimed s c).
Proof.
  intros Hwf Hst Hp Ha Hres. pose proof Hwf as [? ? ? ? ? ? Hcur Hled ? ? Hj Hf _ _ Hlife].
  assert (extends s (claimed s c)) as Hx by (apply extends_same; cbn; done || lia).
  split; try done; cbn; try lia.
  - eapply ledger_ok_later; [..|exact Hled]; cbn; try done; lia.
  - by eapply joins_ok_extends.
  - by eapply frontier_ok_extends.
  - intros r Hr. destruct (Hres r Hr) as (? & ? & ?). done.
  - intros l [= <-]. cbn. split_and!; [done| |done|done]. split; cbn; [lia|done].
  - unfold lifecycle_ok in *. cbn. by rewrite Hst in *.
Qed.

Lemma claim_accepted s c :
  wf s → claim_expected_revision c = st_revision s → st_status s = RUNNING → st_execution s = None →
  pending_node_ids (st_frontier s) ≠ [] → canonical (claim_attempt_id c) →
  on_some (claim_resources c) (claimable_resources s) →
  reduce_graph_run (Some s) (CmdClaim c) = Ok (claimed s c).
Proof.
  intros Hwf Hr Hst He Hp Ha Hres. rewrite reduce_inv. cbn. setoid_rewrite claim_inv.
  split; [done|]. split; [by rewrite Hr|]. eexists; split; [split_and!; try done|split].
  - by apply no_lease_no_resources.
  - by apply pending_iff.
  - by apply validate_claim_resources_Ok.
  - by rewrite claimed_eq.
  - by apply wf_claimed.
Qed.

(** A claim on a reachable run is accepted exactly when its revision is current, the
    run is running and unleased, some frontier node is pending, the attempt identity is
    canonical and the resource plan (if any) is a valid non-empty snapshot over pending
    nodes; it then only installs the lease of the next generation and that plan. *)
Lemma claim_exact s c s' :
  reachable s →
  reduce_graph_run (Some s) (CmdClaim c) = Ok s' ↔
  claim_expected_revision c = st_revision s ∧ st_status s = RUNNING ∧ st_execution s = None
  ∧ pending_node_ids (st_frontier s) ≠ [] ∧ canonical (claim_attempt_id c)
  ∧ on_some (claim_resources c) (claimable_resources s)
  ∧ s' = claimed s c.
Proof.
  intros Hwf%reachable_wf. split.
  - rewrite reduce_inv. cbn. setoid_rewrite claim_inv.
    intros (_ & [= Hr] & u & (Hst & He & _ & _ & Hp & Hres & ->) & -> & Hwf').
    apply validate_claim_resources_Ok in Hres. rewrite claimed_eq in Hwf' |- * by done.
    split_and!; try done.
    by destruct (wf_lease _ Hwf' _ eq_refl) as (_ & [_ ?] & _).
  - intros (Hr & Hst & He & Hp & Ha & Hres & ->). by apply claim_accepted.
Qed.


(* ------------------------------------------------------------------ *)
(** ** Fence and abort *)

Definition fenced (s : GraphRunState) : GraphRunState :=
  s <| st_execution := None |> <| st_resources := None |>
    <| st_revision := (st_revision s + 1)%Z |>.

Lemma fenced_eq s :
  wf s → bump s (post_init (s <| st_execution := None |> <| st_resources := None |>)) = fenced s.
Proof. intros Hwf. state_eq Hwf. Qed.

Lemma wf_fenced s : wf s → st_status s = RUNNING → wf (fenced s).
Proof.
  intros Hwf Hst. pose proof Hwf as [? ? ? ? ? ? Hcur Hled ? ? Hj Hf _ _ Hlife].
  assert (extends s (fenced s)) as Hx by (apply extends_same; cbn; done || lia).
  split; try done; cbn; try lia.
  - eapply ledger_ok_later; [..|exact Hled]; cbn; try done; lia.
  - by eapply joins_ok_extends.
  - by eapply frontier_ok_extends.
  - unfold lifecycle_ok in *. cbn. by rewrite Hst in *.
Qed.

Definition aborted (s : GraphRunState) (reason : str) : GraphRunState :=
  s <| st_status := ABORTED |> <| st_resources := None |> <| st_abort := Some (mkAbort reason) |>
    <| st_revision := (st_revision s + 1)%Z |>.

Lemma aborted_eq s reason :
  wf s →
  bump s (post_init (s <| st_status := ABORTED |> <| st_resources := None |>
    <| st_abort := Some (mkAbort reason) |>)) = aborted s reason.
Proof. intros Hwf. state_eq Hwf. Qed.

Lemma wf_aborted s reason :
  wf s → st_status s = RUNNING → st_execution s = None → canonical reason → wf (aborted s reason).
Proof.
  intros Hwf Hst He Hreason. pose proof Hwf as [? ? ? ? ? ? Hcur Hled ? ? Hj Hf _ _ Hlife].
  assert (extends s (aborted s reason)) as Hx by (apply extends_same; cbn; done || lia).
  split; try done; cbn; try lia.
  - eapply ledger_ok_later; [..|exact Hled]; cbn; try done; try lia. intros _. by rewrite Hst.
  - by eapply joins_ok_extends.
  - by eapply frontier_ok_extends.
  - intros l. cbn. congruence.
  - unfold lifecycle_ok in *. cbn. rewrite Hst in Hlife. naive_solver.
Qed.

Lemma abort_accepted s a :
  wf s → abort_expected_revision a = st_revision s → st_status s = RUNNING → st_execution s = None →
  canonical (abort_command_reason a) →
  reduce_graph_run (Some s) (CmdAbort a) = Ok (aborted s (abort_command_reason a)).
Proof.
  intros Hwf Hr Hst He Hc. rewrite reduce_inv. split_and!; [done|cbn; by rewrite Hr|].
  eexists; split; [by apply abort_inv|]. rewrite aborted_eq by done. split; [done|].
  by apply wf_aborted.
Qed.

(** A fence is accepted exactly from the holder of the active lease at the current
    revision, and only withdraws the lease and its resources; an abort is accepted
    exactly on an unleased running graph with a canonical reason, and only records the
    aborted status and that reason. *)
Lemma fence_and_abort_exact s f a s' :
  reachable s →
  (reduce_graph_run (Some s) (CmdFence f) = Ok s' ↔
     fence_expected_revision f = st_revision s
     ∧ st_execution s = Some (mkLease (fence_execution f)) ∧ s' = fenced s)
  ∧ (reduce_graph_run (Some s) (CmdAbort a) = Ok s' ↔
     abort_expected_revision a = st_revision s ∧ st_status s = RUNNING ∧ st_execution s = None
     ∧ canonical (abort_command_reason a) ∧ s' = aborted s (abort_command_reason a)).
Proof.
  intros Hwf%reachable_wf. rewrite !reduce_inv. split; split.
  - intros (_ & [= Hr] & u & (Hst & He & ->)%fence_inv & -> & _). rewrite fenced_eq by done. done.
  - intros (Hr & He & ->). destruct (wf_lease s Hwf _ He) as (Hst & _).
    split_and!; [done|cbn; by rewrite Hr|]. eexists; split; [by apply fence_inv|].
    rewrite fenced_eq by done. split; [done|]. by apply wf_fenced.
  - intros (_ & [= Hr] & u & (Hst & He & ->)%abort_inv & -> & Hwf').
    rewrite aborted_eq in Hwf' |- * by done. split_and!; [done..| |done].
    by destruct (wf_lifecycle _ Hwf') as ((x & [= <-] & ?) & _).
  - intros (Hr & Hst & He & Hc & ->). rewrite <-reduce_inv. by apply abort_accepted.
Qed.


(* ------------------------------------------------------------------ *)
(** ** Resume *)

Definition resumed_node (actions : list ResumeInterruptedNode) (n : GraphFrontierNode)
    : GraphFrontierNode :=
  match List.find (λ a, bool_decide (res_node_id a = fn_node_id n)) actions with
  | Some a => mkFrontierNode (fn_node_id n) (PendingGraphNode (OverrideGraphNodeInput (res_input a)))
                (fn_cause n)
  | None => n
  end.

(** The action's interrupt id is the node's own. *)
Definition answers (a : ResumeInterruptedNode) (n : GraphFrontierNode) : Prop :=
  ∃ i, fn_settlement n = InterruptedGraphNode i
    ∧ res_interrupt_id a = graph_interrupt_id (int_run_id (interrupt_identity i))
        (int_superstep (interrupt_identity i)) (int_node_id (interrupt_identity i))
        (int_execution_generation (interrupt_identity i)).

(** The dict the loop pops from. *)
Definition action_index (actions : list ResumeInterruptedNode) : list (str * ResumeInterruptedNode) :=
  (λ a, (res_node_id a, a)) <$> actions.

Lemma assoc_action_index k actions :
  assoc k (action_index actions) = List.find (λ a, bool_decide (res_node_id a = k)) actions.
Proof.
  induction actions as [|a actions IH]; cbn; [done|]. fold (action_index actions).
  case_decide; case_bool_decide; congruence.
Qed.

Lemma filter_action_index k actions :
  filter (λ entry, entry.1 ≠ k) (action_index actions)
  = action_index (filter (λ a, res_node_id a ≠ k) actions).
Proof.
  induction actions as [|a actions IH]; [done|]. cbn [action_index fmap list_fmap].
  rewrite !filter_cons. cbn. repeat case_decide; try done. cbn. by f_equal.
Qed.

Lemma find_filter_other k i actions :
  i ≠ k →
  List.find (λ a, bool_decide (res_node_id a = i)) (filter (λ a, res_node_id a ≠ k) actions)
  = List.find (λ a, bool_decide (res_node_id a = i)) actions.
Proof.
  intros Hne. induction actions as [|a actions IH]; [done|]. rewrite filter_cons.
  case_decide as Hk; cbn; [by rewrite IH|].
  case_bool_decide; congruence.
Qed.

Lemma find_action_Some k actions a :
  List.find (λ a, bool_decide (res_node_id a = k)) actions = Some a → a ∈ actions ∧ res_node_id a = k.
Proof. intros [H1 H2%bool_decide_eq_true]%find_some. by rewrite list_elem_of_In. Qed.

Lemma find_action_lookup actions a :
  NoDup (res_node_id <$> actions) → a ∈ actions →
  List.find (λ b, bool_decide (res_node_id b = res_node_id a)) actions = Some a.
Proof.
  induction actions as [|b actions IH]; [by intros _ ?%elem_of_nil|].
  cbn. intros [Hb Hnd]%NoDup_cons [->|Hin]%elem_of_cons; [by rewrite bool_decide_true|].
  case_bool_decide as E; [|auto]. destruct Hb. rewrite E. by apply list_elem_of_fmap_2.
Qed.

Lemma find_action_None k actions :
  List.find (λ a, bool_decide (res_node_id a = k)) actions = None →
  ∀ a, a ∈ actions → res_node_id a ≠ k.
Proof.
  intros H a Ha Hk. apply list_elem_of_In in Ha. eapply find_none in H; [|done].
  by apply bool_decide_eq_false in H.
Qed.

Lemma filter_id_list {A} (P : A → Prop) `{!∀ x, Decision (P x)} (xs : list A) :
  (∀ x, x ∈ xs → P x) → filter P xs = xs.
Proof.
  induction xs as [|x xs IH]; intros Hall; [done|].
  rewrite filter_cons_True by (apply Hall; by left).
  f_equal. apply IH. intros y Hy. apply Hall. by right.
Qed.

Lemma filter_nil_list {A} (P : A → Prop) `{!∀ x, Decision (P x)} (xs : list A) :
  (∀ x, x ∈ xs → ¬ P x) → filter P xs = [].
Proof.
  induction xs as [|x xs IH]; intros Hall; [done|].
  rewrite filter_cons_False by (apply Hall; by left). apply IH. intros y Hy. apply Hall. by right.
Qed.

Lemma resume_node_Ok updated actions n st :
  NoDup (res_node_id <$> actions) →
  resume_node (updated, action_index actions) n = Ok st ↔
  st = (updated ++ [resumed_node actions n],
        action_index (filter (λ a, res_node_id a ≠ fn_node_id n) actions))
  ∧ ∀ a, a ∈ actions → res_node_id a = fn_node_id n → answers a n.
Proof.
  intros Hna. unfold resume_node, resumed_node. rewrite assoc_action_index, filter_action_index.
  destruct (List.find _ actions) as [a|] eqn:Ea.
  - pose proof (find_action_Some _ _ _ Ea) as [Hin Hid]. split.
    + destruct (fn_settlement n) as [| | |i] eqn:Es; try done. checks. intros [Hint [= <-]].
      split; [done|]. intros b Hb Heq. apply find_action_lookup in Hb; [|done].
      rewrite Heq, Ea in Hb. injection Hb as <-. by exists i.
    + intros [-> Hall]. destruct (Hall a Hin Hid) as (i & -> & Hint). by checks.
  - pose proof (find_action_None _ _ Ea) as Hno. rewrite filter_id_list by done. naive_solver.
Qed.

Lemma NoDup_fmap_filter {A B} (f : A → B) (P : A → Prop) `{!∀ x, Decision (P x)} (xs : list A) :
  NoDup (f <$> xs) → NoDup (f <$> filter P xs).
Proof. intros Hnd. eapply sublist_NoDup; [done|]. apply fmap_sublist, sublist_filter. Qed.

Lemma resumed_node_other k actions (nodes : list GraphFrontierNode) :
  k ∉ fn_node_id <$> nodes →
  resumed_node (filter (λ a, res_node_id a ≠ k) actions) <$> nodes = resumed_node actions <$> nodes.
Proof.
  intros Hk. apply list_fmap_ext. intros i m Hm%list_elem_of_lookup_2. unfold resumed_node.
  rewrite find_filter_other; [done|]. intros E. apply Hk. rewrite <-E. by apply list_elem_of_fmap_2.
Qed.

(** The whole loop: every node answered by its action becomes pending again. *)
Lemma resume_loop (nodes : list GraphFrontierNode) : ∀ updated actions r,
  NoDup (fn_node_id <$> nodes) → NoDup (res_node_id <$> actions) →
  py_for_state nodes (updated, action_index actions) resume_node = Ok r ↔
  r = (updated ++ (resumed_node actions <$> nodes),
       action_index (filter (λ a, res_node_id a ∉ fn_node_id <$> nodes) actions))
  ∧ ∀ n a, n ∈ nodes → a ∈ actions → res_node_id a = fn_node_id n → answers a n.
Proof.
  induction nodes as [|n nodes IH]; intros updated actions r Hnd Hna.
  - cbn. rewrite app_nil_r, filter_id_list by (intros; apply not_elem_of_nil).
    split; [intros [= <-]|by intros [-> _]]. split; [done|]. intros ? ? []%elem_of_nil.
  - change (py_for_state (n :: nodes) (updated, action_index actions) resume_node)
      with (resume_node (updated, action_index actions) n
            ≫= λ st, py_for_state nodes st resume_node).
    rewrite fmap_cons in Hnd. apply NoDup_cons in Hnd as [Hn Hnd]. rewrite bind_Ok.
    setoid_rewrite (resume_node_Ok updated actions n _ Hna).
    assert (∀ m a, m ∈ nodes → res_node_id a = fn_node_id m → res_node_id a ≠ fn_node_id n) as Hoth.
    { intros m a Hm -> E. apply Hn. rewrite <-E. by apply list_elem_of_fmap_2. }
    assert (filter (λ a, res_node_id a ∉ fn_node_id <$> nodes)
              (filter (λ a, res_node_id a ≠ fn_node_id n) actions)
            = filter (λ a, res_node_id a ∉ fn_node_id <$> n :: nodes) actions) as Hf.
    { rewrite list_filter_filter. apply list_filter_iff. intros b.
      rewrite fmap_cons, not_elem_of_cons. tauto. }
    split.
    + intros (st & [-> Ha] & [-> Hall]%IH); [|done|by apply NoDup_fmap_filter].
      rewrite resumed_node_other, Hf, <-app_assoc by done. split; [done|].
      intros m a [->|Hm]%elem_of_cons Hin Heq; [by apply Ha|]. apply Hall; [done| |done].
      apply list_elem_of_filter. eauto.
    + intros [-> Hall]. eexists; split; [split; [done|]|].
      { intros a Ha. apply Hall; [by left|done]. }
      apply IH; [done|by apply NoDup_fmap_filter|].
      rewrite resumed_node_other, Hf, <-app_assoc by done. split; [done|].
      intros m a Hm [_ Ha]%list_elem_of_filter. apply Hall; [by right|done].
Qed.

Definition resumed (s : GraphRunState) (actions : list ResumeInterruptedNode) : GraphRunState :=
  s <| st_frontier := mkFrontier (resumed_node actions <$> frontier_nodes (st_frontier s)) |>
    <| st_revision := (st_revision s + 1)%Z |>.

Lemma resumed_eq s actions :
  wf s →
  bump s (post_init (s <| st_frontier :=
    mkFrontier (resumed_node actions <$> frontier_nodes (st_frontier s)) |>)) = resumed s actions.
Proof. intros Hwf. state_eq Hwf. Qed.

(** Every action answers the interrupt of its own frontier node. *)
Definition all_answered (s : GraphRunState) (actions : list ResumeInterruptedNode) : Prop :=
  ∀ a, a ∈ actions → ∃ n, frontier_node (st_frontier s) (res_node_id a) = Some n ∧ answers a n.

Lemma resumed_node_id actions n : fn_node_id (resumed_node actions n) = fn_node_id n.
Proof. unfold resumed_node. by case_match. Qed.

(** A resumed node either is untouched or was interrupted and is pending again. *)
Lemma resumed_node_cases s actions n :
  wf s → all_answered s actions → n ∈ frontier_nodes (st_frontier s) →
  resumed_node actions n = n
  ∨ (∃ i a, fn_settlement n = InterruptedGraphNode i ∧ a ∈ actions ∧ answers a n
     ∧ resumed_node actions n = mkFrontierNode (fn_node_id n)
         (PendingGraphNode (OverrideGraphNodeInput (res_input a))) (fn_cause n)).
Proof.
  intros Hwf Hall Hn. unfold resumed_node. destruct (List.find _ actions) as [a|] eqn:Ea; [|by left].
  apply find_action_Some in Ea as [Hin Hid]. right. destruct (Hall a Hin) as (m & Hm & Ha).
  rewrite Hid, frontier_node_lookup in Hm by (done || apply Hwf). injection Hm as <-.
  destruct Ha as (i & Hi & Heq). exists i, a. split_and!; [done..| |done]. by exists i.
Qed.

Lemma resumed_references s actions r :
  wf s → all_answered s actions →
  r ∈ frontier_references (resumed s actions) ↔ r ∈ frontier_references s.
Proof.
  intros Hwf Hall. rewrite !elem_frontier_references. cbn. split.
  - intros (m & rt & (n & -> & Hn)%list_elem_of_fmap & Hs & ->). exists n, rt.
    destruct (resumed_node_cases s actions n) as [E|(i & a & _ & _ & _ & E)]; [done..| |];
      rewrite E in *; done.
  - intros (n & rt & Hn & Hs & ->). exists (resumed_node actions n), rt.
    destruct (resumed_node_cases s actions n) as [E|(i & a & Hi & _)]; [done..| |congruence].
    split; [by apply list_elem_of_fmap_2|]. by rewrite E.
Qed.

Lemma wf_resumed s actions :
  wf s → st_status s = RUNNING → st_execution s = None → actions ≠ [] →
  all_answered s actions → wf (resumed s actions).
Proof.
  intros Hwf Hst He Hne Hall. pose proof Hwf as [? ? ? ? ? ? Hcur Hled ? ? Hj Hf _ _ Hlife].
  assert (extends s (resumed s actions)) as Hx by (apply extends_same; cbn; done || lia).
  assert (pending_node_ids (st_frontier (resumed s actions)) ≠ []) as Hpend.
  { destruct actions as [|a rest]; [done|]. destruct (Hall a) as (n & Hn & Ha); [by left|].
    apply frontier_node_Some in Hn as [Hin Hid]. intros E.
    assert (fn_node_id n ∈ pending_node_ids (st_frontier (resumed s (a :: rest)))) as Hp;
      [|rewrite E in Hp; by apply elem_of_nil in Hp].
    unfold pending_node_ids, node_ids_with. apply list_elem_of_fmap.
    exists (resumed_node (a :: rest) n). rewrite resumed_node_id. split; [done|].
    apply List_filter_elem. split; [|by apply list_elem_of_fmap_2].
    unfold resumed_node. cbn. by rewrite bool_decide_true. }
  split; try done; cbn; try lia.
  - eapply ledger_ok_later; [..|exact Hled]; cbn; try done; try lia.
    intros _. split; [by rewrite Hst|]. intros r. by apply resumed_references.
  - by eapply joins_ok_extends.
  - destruct Hf as [Hsort Hnodes Hcodec]. split; cbn; [|intros m (n & -> & Hn)%list_elem_of_fmap|done].
    + apply strictly_sorted_fmap. rewrite <-list_fmap_compose.
      erewrite list_fmap_ext; [by apply strictly_sorted_fmap|].
      intros i n _. cbn. apply resumed_node_id.
    + apply (node_ok_extends s); [done|]. destruct (Hnodes n Hn) as [? ? ? Hc].
      destruct (resumed_node_cases s actions n) as [-> |(i & a & Hi & _ & _ & ->)]; [done..|].
      split; cbn; [done..|]. intros _. apply Hc. by rewrite Hi.
  - intros r. cbn. by rewrite no_lease_no_resources.
  - intros l. cbn. by rewrite He.
  - unfold lifecycle_ok in *. cbn. rewrite Hst in *. destruct Hlife as (? & ? & ? & ?).
    split_and!; [|apply pending_iff in Hpend; cbn in Hpend; congruence|done..].
    by destruct (frontier_nodes (st_frontier s)).
Qed.

Lemma resume_accepted s c s' :
  wf s → reduce_graph_run (Some s) (CmdResume c) = Ok s' →
  all_answered s (resume_actions c)
  ∧ (resume_expected_revision c = st_revision s ∧ st_status s = RUNNING
     ∧ resume_actions c ≠ [] ∧ strictly_sorted res_node_id (resume_actions c))
  ∧ st_execution s = None ∧ s' = resumed s (resume_actions c).
Proof.
  intros Hwf. rewrite reduce_inv.
  pose proof (strictly_sorted_NoDup_key _ _ (fo_sorted s (wf_frontier s Hwf))) as Hnd.
  intros (_ & [= Hr] & u & (Hst & He & _ & Hne & Hsort & up & Hloop & ->)%resume_inv & -> & _).
  apply resume_loop in Hloop as [[= -> Hnil] Hans]; [|done|by apply strictly_sorted_NoDup_key].
  rewrite resumed_eq by done. split_and!; try done.
  intros a Ha. destruct (decide (res_node_id a ∈ fn_node_id <$> frontier_nodes (st_frontier s)))
    as [(n & Hid & Hn)%list_elem_of_fmap|Hno].
  + exists n. rewrite Hid, frontier_node_lookup by (done || apply Hwf). auto.
  + symmetry in Hnil. apply fmap_nil_inv in Hnil.
    assert (a ∈ filter (λ a, res_node_id a ∉ fn_node_id <$> frontier_nodes (st_frontier s))
              (resume_actions c)) as Hin by (by apply list_elem_of_filter).
    rewrite Hnil in Hin. by apply elem_of_nil in Hin.
Qed.

Lemma resume_accepts s c : wf s →
  resume_expected_revision c = st_revision s → st_status s = RUNNING → st_execution s = None →
  resume_actions c ≠ [] → strictly_sorted res_node_id (resume_actions c) → all_answered s (resume_actions c) →
  reduce_graph_run (Some s) (CmdResume c) = Ok (resumed s (resume_actions c)).
Proof.
  intros Hwf Hr Hst He Hne Hsort Hall. rewrite reduce_inv.
  pose proof (strictly_sorted_NoDup_key _ _ (fo_sorted s (wf_frontier s Hwf))) as Hnd.
  split_and!; [done|cbn; by rewrite Hr|]. eexists; split.
  { apply resume_inv. split_and!; [done|done|by apply no_lease_no_resources|done..|].
    exists (resumed_node (resume_actions c) <$> frontier_nodes (st_frontier s)).
    split; [|reflexivity]. apply resume_loop; [done|by apply strictly_sorted_NoDup_key|].
    split; [f_equal|].
    - symmetry. erewrite (filter_nil_list _ (resume_actions c)); [done|].
      intros a Ha Hno. destruct (Hall a Ha) as (n & [Hn Hid]%frontier_node_Some & _).
      apply Hno. rewrite <-Hid. by apply list_elem_of_fmap_2.
    - intros n a Hn Ha Hid. destruct (Hall a Ha) as (m & Hm & Hans).
      rewrite Hid, frontier_node_lookup in Hm by (done || apply Hwf). by injection Hm as <-. }
  rewrite resumed_eq by done. split; [done|]. by apply wf_resumed.
Qed.

(** A resume is accepted exactly when the run is running and unleased and its
    non-empty, strictly ordered actions each answer, with the right interrupt id, the
    interrupt of a current frontier node; it then makes exactly those nodes pending
    again with the given inputs and leaves every other node and field as it was. *)
Lemma resume_exact s c s' :
  reachable s →
  reduce_graph_run (Some s) (CmdResume c) = Ok s' ↔
  resume_expected_revision c = st_revision s ∧ st_status s = RUNNING ∧ st_execution s = None
  ∧ resume_actions c ≠ [] ∧ strictly_sorted res_node_id (resume_actions c)
  ∧ all_answered s (resume_actions c) ∧ s' = resumed s (resume_actions c).
Proof.
  intros Hwf%reachable_wf. split.
  - intros (? & (? & ? & ? & ?) & ? & ?)%resume_accepted; done.
  - intros (? & ? & ? & ? & ? & ? & ->). by apply resume_accepts.
Qed.

Definition interrupted_commands : list GraphRunCommand :=
  [demo_claim 0; demo_interrupt 1 1 0 (lit "a"); demo_success 2 1 (lit "b")].
Definition interrupted_after (k : nat) : GraphRunState :=
  state_of (run_all demo_start (take k interrupted_commands)).
Definition demo_answer : ResumeInterruptedNode :=
  mkResumeAction (lit "a") (graph_interrupt_id (lit "run") 0 (lit "a") 1) [].

