(* ===== verification/SettleProofs.v ===== *)
(** * Exact behaviour of node settlement

    When [settle_graph_node] is accepted, what it writes to the frontier, the ledger,
    the lease, the resources and the Config cursor, and that the state it leaves
    always re-validates. *)

From Stdlib Require Import ZArith NArith Lia Bool String.
From stdpp Require Import prelude strings gmap sorting.
From S2P Require Import Prelude Identity Resources ResourceProofs Model Validation Transitions WellFormed Reducer ReducerProofs OperationProofs.

Set Default Goal Selector "!".

(* ------------------------------------------------------------------ *)
(** ** Participants after a release *)

(** The (node, requirements) pairs of acquisitions. *)
Definition requests_of (acquisitions : list ResourceAcquisition) : list (str * list str) :=
  (λ a, (acq_node_id a, acq_required a)) <$> acquisitions.

Lemma advance_request R a pos R' a' : advance R a pos = Ok (R', a') →
  acq_node_id a' = acq_node_id a ∧ acq_required a' = acq_required a.
Proof.
  unfold advance. intros ([[R1 acq] w] & _ & H)%bind_Ok. inv_ok. by simplify_eq.
Qed.

(** The dict holds, under its node, an acquisition of the same requirements as [d0] does. *)
Definition keyed (d0 d : gmap str ResourceAcquisition) : Prop :=
  ∀ k a, d !! k = Some a → ∃ a0, d0 !! k = Some a0 ∧ acq_node_id a = k ∧ acq_required a = acq_required a0.

Lemma acquisitions_by_node_keyed acqs : keyed (acquisitions_by_node acqs) (acquisitions_by_node acqs).
Proof.
  intros k a H. exists a. split; [done|]. split; [|done]. unfold acquisitions_by_node in H.
  apply elem_of_list_to_map_2 in H.
  rewrite elem_of_reverse in H. apply list_elem_of_fmap in H as (b & [= -> ->] & _). done.
Qed.

Lemma wake_keyed pos d0 R d i R' d' :
  keyed d0 d → wake_at pos (R, d) i = Ok (R', d') → keyed d0 d'.
Proof.
  intros Hk. unfold wake_at. intros (cur & _ & H)%bind_Ok.
  destruct (lock_owner cur), (lock_waiters cur) as [|w ws]; simplify_eq/=; try (inv_ok; by simplify_eq).
  apply bind_Ok in H as (a & Ha%dict_get_Ok & H). apply bind_Ok in H as ([R1 a'] & Hadv & H).
  apply advance_request in Hadv as [Hn Hr].
  inv_ok. simplify_eq. intros k b. destruct (decide (k = w)) as [->|Hne].
  - rewrite lookup_insert_eq. intros [= <-]. rewrite Hn, Hr. by apply Hk.
  - rewrite lookup_insert_ne by done. apply Hk.
Qed.

Lemma acquisitions_by_node_elem acqs k a : acquisitions_by_node acqs !! k = Some a → a ∈ acqs ∧ acq_node_id a = k.
Proof.
  unfold acquisitions_by_node. intros H%elem_of_list_to_map_2. rewrite elem_of_reverse in H.
  by apply list_elem_of_fmap in H as (b & [= -> ->] & ?).
Qed.

Lemma NoDup_fmap_elem {A B} (f : A → B) xs x y : NoDup (f <$> xs) → x ∈ xs → y ∈ xs → f x = f y → x = y.
Proof.
  intros Hnd (i & Hi)%list_elem_of_lookup (j & Hj)%list_elem_of_lookup Hf.
  assert (i = j) as ->; [|congruence].
  eapply NoDup_lookup; [exact Hnd|by rewrite list_lookup_fmap, Hi|by rewrite list_lookup_fmap, Hj, Hf].
Qed.

(** Releasing drops the node's acquisition; the others keep their requirements. *)
Lemma release_requests s n s' : NoDup (acq_node_id <$> snap_acquisitions s) →
  release s n = Ok s' →
  requests_of (snap_acquisitions s') = requests_of (filter (λ a, acq_node_id a ≠ n) (snap_acquisitions s)).
Proof.
  intros Hnd. unfold release. case_match eqn:Efind; [|done]. intros H. inv_ok.
  match goal with p : list ResourceLock * gmap str ResourceAcquisition |- _ =>
    destruct p as [R d] end. inv_ok. subst. cbn.
  match goal with H : py_for_state (seq _ _) _ _ = _ |- _ => rename H into Hwake end.
  match goal with H : mapM _ _ = _ |- _ => rename H into Hmap end.
  revert Hwake Hmap. set (acqs := filter (λ a, acq_node_id a ≠ n) (snap_acquisitions s)). intros Hwake Hmap.
  assert (NoDup (acq_node_id <$> acqs)) as Hnd'.
  { eapply sublist_NoDup; [exact Hnd|]. apply fmap_sublist, sublist_filter. }
  assert (keyed (acquisitions_by_node acqs) d) as Hd.
  { eapply (py_for_state_inv (λ st, keyed (acquisitions_by_node acqs) st.2)) in Hwake; [exact Hwake|..].
    - apply acquisitions_by_node_keyed.
    - intros [R1 d1] i [R2 d2] _ ?. by apply wake_keyed. }
  assert (∀ a b, a ∈ acqs → d !! acq_node_id a = Some b → (acq_node_id b, acq_required b) = (acq_node_id a, acq_required a)) as Hsame.
  { intros a b Ha (a0 & [Ha0 Hn]%acquisitions_by_node_elem & -> & ->)%Hd. f_equal.
    assert (a0 = a) as ->; [|done]. by eapply NoDup_fmap_elem. }
  clear -Hmap Hsame. clearbody acqs. match type of Hmap with mapM _ _ = Ok ?u => revert Hmap; generalize u end.
  unfold requests_of. induction acqs as [|a acqs IH]; intros u; cbn; [by intros [= <-]|].
  intros (b & Hb%dict_get_Ok & Hrest)%bind_Ok. inv_ok. subst. cbn. f_equal.
  - apply Hsame; [left|done].
  - apply IH; [|done]. intros a' b' ?. apply Hsame. by right.
Qed.

(** The requests a run holds. *)
Definition held (resources : option ResourceSnapshot) : list (str * list str) :=
  match resources with Some r => requests_of (snap_acquisitions r) | None => [] end.

Lemma held_nodes o i : i ∈ acq_node_id <$> (match o with Some r => snap_acquisitions r | None => [] end) ↔ ∃ v, (i, v) ∈ held o.
Proof.
  destruct o as [r|]; cbn; [|split; [by intros ?%elem_of_nil|by intros [? ?%elem_of_nil]]].
  unfold requests_of. rewrite list_elem_of_fmap. setoid_rewrite list_elem_of_fmap. naive_solver.
Qed.

(** Settling a node gives up what it held and nothing else; a valid snapshot remains. *)
Lemma settle_resources_held o n o' :
  on_some o (λ r, validate_resource_snapshot r = Ok tt ∧ snap_acquisitions r ≠ []) →
  settle_resources o n = Ok o' →
  on_some o' (λ r', validate_resource_snapshot r' = Ok tt ∧ snap_acquisitions r' ≠ [] ∧ o ≠ None)
  ∧ ∀ p, p ∈ held o' ↔ p ∈ held o ∧ p.1 ≠ n.
Proof.
  destruct o as [r|]; cbn; [|intros _ [= <-]; split; [done|]; intros p; cbn; rewrite elem_of_nil; naive_solver].
  rewrite on_some_Some. intros [Hv Hne].
  destruct (existsb _ (snap_acquisitions r)) eqn:Ex.
  - intros (rel & Hrel%except_Ok & H)%bind_Ok. unfold reduce_resources in Hrel. checks in Hrel.
    destruct Hrel as (_ & Hrel). apply bind_Ok in Hrel as (r1 & Hrel & Hrest). checks in Hrest.
    destruct Hrest as (Hv1 & [= ->]). cbn in Hrel. checks in Hrel. destruct Hrel as [_ Hrel].
    apply release_requests in Hrel; [|by apply inv_nodes, valid_inv].
    assert (∀ p, p ∈ requests_of (snap_acquisitions rel) ↔ p ∈ requests_of (snap_acquisitions r) ∧ p.1 ≠ n) as Hp.
    { intros p. rewrite Hrel. unfold requests_of. rewrite !list_elem_of_fmap. setoid_rewrite list_elem_of_filter. naive_solver. }
    destruct (snap_acquisitions rel) as [|a acqs] eqn:Ea; cbn in H; inv_ok; subst; [done|].
    rewrite on_some_Some. cbn. rewrite Ea. done.
  - intros [= <-]. rewrite on_some_Some. split; [done|]. rewrite existsb_false_iff in Ex. intros p. cbn.
    split; [|naive_solver]. intros Hp. split; [done|]. apply list_elem_of_fmap in Hp as (a & -> & Ha).
    specialize (Ex a Ha). by apply bool_decide_eq_false in Ex.
Qed.

(** The resources that remain name only other participants of a valid snapshot. *)
Lemma settle_resources_Ok o n o' :
  on_some o (λ r, validate_resource_snapshot r = Ok tt ∧ snap_acquisitions r ≠ []) →
  settle_resources o n = Ok o' →
  on_some o' (λ r', validate_resource_snapshot r' = Ok tt ∧ snap_acquisitions r' ≠ []
    ∧ ∃ r, o = Some r
      ∧ ∀ i, i ∈ acq_node_id <$> snap_acquisitions r' ↔
             i ∈ acq_node_id <$> snap_acquisitions r ∧ i ≠ n).
Proof.
  intros Ho H. destruct (settle_resources_held _ _ _ Ho H) as [Hv Hh]. destruct o' as [r'|]; [|done].
  rewrite on_some_Some in Hv |- *. destruct Hv as (Hv & Hne & Hsome). split_and!; [done..|].
  destruct o as [r|]; [|done]. exists r. split; [done|]. intros i.
  rewrite (held_nodes (Some r')), (held_nodes (Some r)). setoid_rewrite Hh. naive_solver.
Qed.

(* ------------------------------------------------------------------ *)
(** ** The frontier after one settlement *)

Definition settled_node (n : str) (x : GraphNodeSettlement) (m : GraphFrontierNode)
    : GraphFrontierNode :=
  mkFrontierNode (fn_node_id m) (if bool_decide (fn_node_id m = n) then x else fn_settlement m)
    (fn_cause m).

Lemma settle_frontier_nodes f n x :
  frontier_nodes (settle_frontier f n x) = settled_node n x <$> frontier_nodes f.
Proof. done. Qed.

Lemma settled_node_here n x m : fn_node_id m = n → fn_settlement (settled_node n x m) = x.
Proof. intros ?. cbn. by rewrite bool_decide_true. Qed.
Lemma settled_node_other n x m : fn_node_id m ≠ n → settled_node n x m = m.
Proof. intros ?. destruct m; cbn in *. unfold settled_node; cbn. by rewrite bool_decide_false. Qed.

Lemma elem_pending f i :
  i ∈ pending_node_ids f ↔
  ∃ m, m ∈ frontier_nodes f ∧ fn_node_id m = i ∧ is_pending (fn_settlement m) = true.
Proof.
  unfold pending_node_ids, node_ids_with. rewrite list_elem_of_fmap.
  setoid_rewrite List_filter_elem. naive_solver.
Qed.

Lemma pending_settle_frontier f n x i :
  is_pending x = false →
  i ∈ pending_node_ids (settle_frontier f n x) ↔ i ∈ pending_node_ids f ∧ i ≠ n.
Proof.
  intros Hx. rewrite !elem_pending. setoid_rewrite settle_frontier_nodes. split.
  - intros (m' & (m & -> & Hm)%list_elem_of_fmap & Hi & Hp). cbn in Hi, Hp.
    case_bool_decide; [congruence|]. split; [eauto|congruence].
  - intros [(m & Hm & Hi & Hp) Hne]. exists m. split_and!; [|done..].
    apply list_elem_of_fmap. exists m. by rewrite settled_node_other by congruence.
Qed.

(** The references of the frontier's successes after [n] settles as [x]. *)
Lemma references_settle_frontier s s' n x m :
  wf s → frontier_node (st_frontier s) n = Some m → is_pending (fn_settlement m) = true →
  st_run_id s' = st_run_id s → st_superstep s' = st_superstep s →
  st_frontier s' = settle_frontier (st_frontier s) n x →
  ∀ r, r ∈ frontier_references s' ↔
    r ∈ frontier_references s
    ∨ ∃ routing, x = SucceededGraphNode routing ∧ r = node_reference s (n, routing).
Proof.
  intros Hwf [Hm Hid]%frontier_node_Some Hp Hr Hs Hf r. rewrite !elem_frontier_references.
  rewrite Hf, settle_frontier_nodes, Hr, Hs. split.
  - intros (k' & rt & (k & -> & Hk)%list_elem_of_fmap & Hst & ->). cbn in *.
    case_bool_decide as E.
    + right. exists rt. split; [done|]. unfold node_reference; cbn. by rewrite E.
    + left. exists k, rt. done.
  - intros [(k & rt & Hk & Hst & ->)|(rt & -> & ->)].
    + assert (fn_node_id k ≠ n) as Hne.
      { intros E. pose proof (frontier_node_lookup _ k (fo_sorted _ (wf_frontier _ Hwf)) Hk) as E1.
        pose proof (frontier_node_lookup _ m (fo_sorted _ (wf_frontier _ Hwf)) Hm) as E2.
        rewrite E, <-Hid, E2 in E1. injection E1 as ->. by rewrite Hst in Hp. }
      exists k, rt. split_and!; [|done..]. apply list_elem_of_fmap. exists k.
      by rewrite settled_node_other.
    + exists (settled_node n (SucceededGraphNode rt) m), rt. rewrite settled_node_here by done.
      split_and!; [by apply list_elem_of_fmap_2|done|]. cbn. by rewrite Hid.
Qed.

(** A pending node's activation is not in the ledger. *)
Lemma pending_not_settled s n m :
  wf s → st_status s = RUNNING →
  frontier_node (st_frontier s) n = Some m → is_pending (fn_settlement m) = true →
  mkActivation (st_run_id s) (st_superstep s) n ∉ ref_activation <$> settled_references s.
Proof.
  intros Hwf Hst [Hm Hid]%frontier_node_Some Hp (r & Hr & Hin)%list_elem_of_fmap.
  assert (r ∈ frontier_references s) as Hf.
  { apply (lo_current s (wf_ledger s Hwf)); [by rewrite Hst|]. by rewrite <-Hr. }
  apply elem_frontier_references in Hf as (k & rt & Hk & Hset & ->). injection Hr as Hk'.
  pose proof (frontier_node_lookup _ k (fo_sorted _ (wf_frontier _ Hwf)) Hk) as E1.
  pose proof (frontier_node_lookup _ m (fo_sorted _ (wf_frontier _ Hwf)) Hm) as E2.
  rewrite <-Hk', <-Hid, E2 in E1. injection E1 as ->. by rewrite Hset in Hp.
Qed.

(* ------------------------------------------------------------------ *)
(** ** The ledger after one settlement *)

Lemma strictly_sorted_fmap_key {A B C} `{CmpLaws C} (f : A → B) (key : B → C) xs :
  strictly_sorted key (f <$> xs) ↔ strictly_sorted (key ∘ f) xs.
Proof.
  rewrite <-(strictly_sorted_fmap key), <-(strictly_sorted_fmap (key ∘ f)), list_fmap_compose.
  done.
Qed.

Lemma ledger_insert_sorted s p :
  ledger_ok s → pub_reference p ∉ settled_references s →
  strictly_sorted canonical_key
    (pub_reference <$> sorted_key pub_canonical_key (st_settled_publications s ++ [p])).
Proof.
  intros Hl Hn. apply strictly_sorted_fmap_key. apply weakly_sorted_strict.
  { apply (sorted_key_weak pub_canonical_key). }
  apply (NoDup_Permutation_proper _ (pub_canonical_key <$> st_settled_publications s ++ [p])).
  { apply fmap_Permutation, sort_by_perm. }
  rewrite fmap_app. apply NoDup_app. split_and!.
  - pose proof (lo_sorted s Hl) as Hs. unfold settled_references in Hs.
    apply (strictly_sorted_fmap_key pub_reference), strictly_sorted_NoDup_key in Hs. exact Hs.
  - intros k (q & -> & Hq)%list_elem_of_fmap Heq%list_elem_of_singleton.
    apply Hn. apply (inj canonical_key) in Heq. rewrite <-Heq. by apply list_elem_of_fmap_2.
  - apply NoDup_singleton.
Qed.

Lemma NoDup_sorted_insert {A B C} `{Cmp C} (f : A → B) (key : A → C) xs x :
  NoDup (f <$> xs) → f x ∉ f <$> xs → NoDup (f <$> sorted_key key (xs ++ [x])).
Proof.
  intros Hnd Hn. apply (NoDup_Permutation_proper _ (f <$> xs ++ [x])).
  { apply fmap_Permutation, sort_by_perm. }
  rewrite fmap_app. apply NoDup_app. split_and!; [done| |apply NoDup_singleton].
  by intros y Hy ->%list_elem_of_singleton.
Qed.

(** What an outcome must satisfy besides naming a pending node. *)
Definition outcome_ok (s : GraphRunState) (c : SettleGraphNode) : Prop :=
  match set_outcome c with
  | SucceededGraphNodeOutcome n routing =>
      on_some (selected_route routing) canonical
      ∧ on_some (set_publication_evidence c) commitment_ok
  | FailedGraphNodeOutcome n failure =>
      canonical failure ∧ set_publication_evidence c = None
  | InterruptedGraphNodeOutcome n identity payload =>
      identity = mkInterruptIdentity (st_run_id s) (st_superstep s) n
                   (tok_generation (set_execution c))
      ∧ st_resume_input_codec s ≠ None ∧ set_publication_evidence c = None
  end.

(** The settlement an outcome becomes, and the ledger it leaves. *)
Definition outcome_settlement (o : GraphNodeOutcome) : GraphNodeSettlement :=
  match o with
  | SucceededGraphNodeOutcome _ routing => SucceededGraphNode routing
  | FailedGraphNodeOutcome _ failure => FailedGraphNode failure
  | InterruptedGraphNodeOutcome _ identity payload =>
      InterruptedGraphNode (mkInterrupt identity payload)
  end.
Definition outcome_ledger (s : GraphRunState) (c : SettleGraphNode)
    : list GraphPublicationSettlement :=
  match set_outcome c with
  | SucceededGraphNodeOutcome n routing =>
      sorted_key pub_canonical_key (st_settled_publications s ++ [settled_record s c n routing])
  | _ => st_settled_publications s
  end.

Lemma settlement_not_pending o : is_pending (outcome_settlement o) = false.
Proof. by destruct o. Qed.

(** The fields of the state one settlement leaves. *)
Record settled_fields (s s' : GraphRunState) (n : str) (x : GraphNodeSettlement)
    (ledger : list GraphPublicationSettlement) (cursor : GraphConfigCursor)
    (resources : option ResourceSnapshot) (d : GraphFrontierStatus) : Prop := {
  sf_run_id : st_run_id s' = st_run_id s;
  sf_definition_id : st_definition_id s' = st_definition_id s;
  sf_definition_version : st_definition_version s' = st_definition_version s;
  sf_status : st_status s' = if bool_decide (d = FRONTIER_FAILED) then FAILED else RUNNING;
  sf_superstep : st_superstep s' = st_superstep s;
  sf_frontier : st_frontier s' = settle_frontier (st_frontier s) n x;
  sf_sequence : st_execution_sequence s' = st_execution_sequence s;
  sf_codec : st_resume_input_codec s' = st_resume_input_codec s;
  sf_joins : st_join_progress s' = st_join_progress s;
  sf_input_evidence : st_graph_input_evidence s' = st_graph_input_evidence s;
  sf_ledger : st_settled_publications s' = ledger;
  sf_resources : st_resources s' = if bool_decide (d = EXECUTABLE) then resources else None;
  sf_execution : st_execution s' = if bool_decide (d = EXECUTABLE) then st_execution s else None;
  sf_abort : st_abort s' = st_abort s;
  sf_parent : st_parent s' = st_parent s;
  sf_revision : st_revision s' = (st_revision s + 1)%Z;
  sf_route : st_completion_route s' = st_completion_route s;
  sf_config_revision : st_config_revision s' = cur_revision cursor;
  sf_config_id : st_config_definition_id s' = Some (cur_definition_id cursor);
  sf_config_version : st_config_definition_version s' = Some (cur_definition_version cursor);
  sf_config_digest : st_config_digest s' = cur_digest cursor
}.

Lemma settled_state_fields s n x ledger cursor resources d :
  settled_fields s (bump s (settled_state s n x ledger cursor resources d)) n x ledger cursor
    resources d.
Proof. split; reflexivity. Qed.

Lemma settled_fields_eq s s' n x ledger cursor resources d :
  settled_fields s s' n x ledger cursor resources d →
  s' = bump s (settled_state s n x ledger cursor resources d).
Proof.
  intros Hf. pose proof (settled_state_fields s n x ledger cursor resources d) as Hg.
  revert Hg. generalize (bump s (settled_state s n x ledger cursor resources d)). intros t Hg.
  destruct Hf, Hg, s', t. cbn in *. by subst.
Qed.

Section settle.
Context (s : GraphRunState) (c : SettleGraphNode) (m : GraphFrontierNode).
Let n := outcome_node_id (set_outcome c).
Context (Hwf : wf s) (Hst : st_status s = RUNNING).
Context (Hlease : st_execution s = Some (mkLease (set_execution c))).
Context (Hm : frontier_node (st_frontier s) n = Some m).
Context (Hpend : is_pending (fn_settlement m) = true).
Context (Hrev : set_expected_revision c = st_revision s).
Context (Hok : outcome_ok s c).

Lemma settle_node_canonical : canonical n.
Proof using Hwf Hm.
  pose proof Hm as [Hin Hid]%frontier_node_Some. rewrite <-Hid.
  apply (fo_nodes s (wf_frontier s Hwf) m Hin).
Qed.

Lemma settle_outcome_Ok :
  settle_outcome s c = Ok (outcome_settlement (set_outcome c), outcome_ledger s c).
Proof using All.
  apply settle_outcome_inv. unfold outcome_ledger, outcome_ok in *. pose proof settle_node_canonical.
  pose proof (pending_not_settled s n m Hwf Hst Hm Hpend) as Hnew. subst n.
  destruct (set_outcome c) as [n rt|n f|n i p]; cbn in *; [|naive_solver..].
  destruct Hok as [Hr He]. split_and!; [done| | |done].
  - split; [|done]. split; [apply Hwf|apply Hwf|done].
  - intros Hin. apply Hnew. by apply (list_elem_of_fmap_2 ref_activation _ _ Hin).
Qed.

Lemma settle_status_total :
  ∃ d, frontier_status (settle_frontier (st_frontier s) n (outcome_settlement (set_outcome c))) = Ok d.
Proof using Hm.
  apply frontier_status_total. rewrite settle_frontier_nodes.
  pose proof Hm as [Hin _]%frontier_node_Some. intros E%fmap_nil_inv. rewrite E in Hin.
  by apply elem_of_nil in Hin.
Qed.

Section after.
Context (s' : GraphRunState) (cursor : GraphConfigCursor) (resources : option ResourceSnapshot).
Context (d : GraphFrontierStatus).
Let x := outcome_settlement (set_outcome c).
Context (Hd : frontier_status (settle_frontier (st_frontier s) n x) = Ok d).
Context (Hf : settled_fields s s' n x (outcome_ledger s c) cursor resources d).

Lemma settled_references_after r :
  r ∈ frontier_references s' ↔
  r ∈ frontier_references s ∨ ∃ routing, x = SucceededGraphNode routing
                                ∧ r = node_reference s (n, routing).
Proof using Hwf Hm Hpend Hf.
  by eapply references_settle_frontier, Hf; [..|apply Hf|apply Hf].
Qed.

Lemma settled_ledger_ok_unchanged :
  outcome_ledger s c = st_settled_publications s →
  (∀ routing, x ≠ SucceededGraphNode routing) → ledger_ok s'.
Proof using Hwf Hst Hm Hpend Hf.
  intros El Hx. eapply (ledger_ok_later s); [..|apply (wf_ledger s Hwf)].
  - rewrite (sf_ledger _ _ _ _ _ _ _ _ Hf). exact El.
  - apply Hf.
  - apply Hf.
  - rewrite (sf_revision _ _ _ _ _ _ _ _ Hf). lia.
  - rewrite (sf_sequence _ _ _ _ _ _ _ _ Hf). lia.
  - intros _. split; [congruence|]. intros r. rewrite settled_references_after. naive_solver.
Qed.

Lemma settled_ledger_ok_success rt :
  set_outcome c = SucceededGraphNodeOutcome n rt → ledger_ok s'.
Proof using All.
  intros Eo. pose proof (wf_ledger s Hwf) as Hled. pose proof settle_node_canonical as Hcan.
  pose proof (pending_not_settled s n m Hwf Hst Hm Hpend) as Hnew.
  pose proof (sf_ledger _ _ _ _ _ _ _ _ Hf) as El. unfold outcome_ledger in El. rewrite Eo in El.
  pose proof settled_references_after as Href. subst x. rewrite Eo in Href.
  pose proof Hok as Hok'. unfold outcome_ok in Hok'. rewrite Eo in Hok'. destruct Hok' as [Hroute Hev].
  assert (node_reference s (n, rt) ∉ settled_references s) as Hfresh.
  { intros Hin. apply Hnew. apply (list_elem_of_fmap_2 ref_activation _ _ Hin). }
  destruct (wf_lease s Hwf _ Hlease) as (_ & Htok & Hgen & _). cbn in Htok, Hgen.
  destruct Hled as [Hrec Hsort Hact Hrevs Hpos Hcur].
  split; unfold settled_references; rewrite ?El.
  - unfold sorted_key. rewrite sort_by_perm, Forall_app, Forall_singleton. split; [done|].
    split; cbn; [|rewrite Hrev; pose proof (wf_revision s Hwf); lia|done|done].
    split; [|done]. split; [apply Hwf|apply Hwf|done].
  - apply ledger_insert_sorted; [by apply wf_ledger|done].
  - unfold settled_references in Hact, Hnew. rewrite <-list_fmap_compose in Hact, Hnew |- *.
    by apply NoDup_sorted_insert.
  - apply NoDup_sorted_insert; [done|]. cbn. rewrite Hrev.
    intros (p & Hp & Hin)%list_elem_of_fmap. rewrite Forall_forall in Hpos.
    destruct (Hpos p Hin). lia.
  - unfold sorted_key. rewrite sort_by_perm, Forall_app, Forall_singleton.
    destruct Hf as [Er _ _ _ Es _ Eq _ _ _ _ _ _ _ _ Ev _ _ _ _ _]. split.
    + eapply Forall_impl; [exact Hpos|]. intros p []. split; rewrite ?Er, ?Es, ?Eq, ?Ev; done || lia.
    + split; rewrite ?Er, ?Es, ?Eq, ?Ev; cbn; done || lia.
  - intros _ r. rewrite (Href r), <-Hcur by congruence.
    rewrite (sf_superstep _ _ _ _ _ _ _ _ Hf). unfold settled_references.
    rewrite !list_elem_of_fmap. setoid_rewrite sorted_key_elem.
    setoid_rewrite elem_of_app. setoid_rewrite list_elem_of_singleton. cbn. naive_solver.
Qed.

Lemma settled_ledger_ok : ledger_ok s'.
Proof using All.
  assert (∀ o, set_outcome c = o → ledger_ok s') as H; [|by eapply H].
  intros [k rt|k f|k i p] Eo.
  - apply (settled_ledger_ok_success rt). unfold n. by rewrite Eo.
  - apply settled_ledger_ok_unchanged; unfold outcome_ledger, x; by rewrite Eo.
  - apply settled_ledger_ok_unchanged; unfold outcome_ledger, x; by rewrite Eo.
Qed.

Lemma settled_extends : extends s s'.
Proof using Hf.
  split; [apply Hf|apply Hf|apply Hf|rewrite (sf_sequence _ _ _ _ _ _ _ _ Hf); reflexivity|].
  unfold settled_references. rewrite (sf_ledger _ _ _ _ _ _ _ _ Hf). unfold outcome_ledger.
  case (set_outcome c); [|intros; reflexivity..].
  intros k rt r (p & -> & Hp)%list_elem_of_fmap.
  apply list_elem_of_fmap_2, sorted_key_elem, elem_of_app. left. exact Hp.
Qed.

Lemma settled_settlement_ok : settlement_ok s' n x.
Proof using All.
  destruct (wf_lease s Hwf _ Hlease) as (_ & Htok & Hgen & _). cbn in Htok, Hgen.
  destruct Htok as [Htok _].
  assert (∀ o, set_outcome c = o → settlement_ok s' n (outcome_settlement o)) as H; [|by apply H].
  intros o Eo. pose proof Hok as Hok'. unfold outcome_ok in Hok'. rewrite Eo in Hok'.
  destruct o as [k rt|k f|k i p]; cbn; [apply Hok'..|]. destruct Hok' as [-> _].
  destruct Hf. split; cbn; [unfold n; by rewrite Eo|congruence..|lia].
Qed.

Lemma settled_frontier_ok : frontier_ok s'.
Proof using All.
  pose proof settled_extends as Hx. destruct (wf_frontier s Hwf) as [Hsort Hnodes Hcodec].
  split; rewrite ?(sf_frontier _ _ _ _ _ _ _ _ Hf), ?settle_frontier_nodes.
  - apply strictly_sorted_fmap. rewrite <-list_fmap_compose. by apply strictly_sorted_fmap.
  - intros k' (k & -> & Hk)%list_elem_of_fmap.
    pose proof (node_ok_extends _ _ _ Hx (Hnodes k Hk)) as Hkok.
    destruct (decide (fn_node_id k = n)) as [E|E]; [|by rewrite settled_node_other].
    split; [apply Hkok|apply Hkok|..]; rewrite settled_node_here by done.
    + cbn. rewrite E. apply settled_settlement_ok.
    + assert (∀ o, set_outcome c = o → needs_codec (outcome_settlement o) = true →
        st_resume_input_codec s' ≠ None) as H; [|by apply H].
      intros o Eo Hneed. rewrite (sf_codec _ _ _ _ _ _ _ _ Hf).
      unfold outcome_ok in Hok. rewrite Eo in Hok. destruct o; [done..|]. apply Hok.
  - by rewrite (sf_codec _ _ _ _ _ _ _ _ Hf).
Qed.

Context (Hcursor : cursor_ok cursor).
Context (Hres : settle_resources (st_resources s) n = Ok resources).

Lemma settled_resources_ok : resources_ok s'.
Proof using All.
  destruct Hf as [_ _ _ _ _ Ef _ _ _ _ _ Er Ee _ _ _ _ _ _ _ _]. intros r'. rewrite Er, Ee, Ef.
  case_bool_decide as Ed; [|done]. intros ->.
  assert (pending_node_ids (settle_frontier (st_frontier s) n x) ≠ []) as Hp.
  { apply pending_iff. by rewrite Hd, Ed. }
  apply settle_resources_Ok in Hres.
  - destruct (Hres r' eq_refl) as (? & ? & r & Er' & Hids).
    destruct (wf_resources s Hwf r Er') as (_ & _ & _ & _ & Hsub). split_and!; [done..| |done|].
    + by rewrite Hlease.
    + intros i Hi. apply pending_settle_frontier; [apply settlement_not_pending|].
      apply Hids in Hi as [Hi ?]. split; [by apply Hsub|done].
  - intros r Er'. by destruct (wf_resources s Hwf r Er') as (? & ? & _).
Qed.

Lemma wf_settled : wf s'.
Proof using All.
  pose proof settled_frontier_ok. pose proof settled_ledger_ok. pose proof settled_resources_ok.
  assert (joins_ok s') by (eapply joins_ok_extends; [apply settled_extends|apply Hf|apply Hwf]).
  destruct Hf as [Erun Edi Edv Est Ess Ef Eq Eco Ej Eev El Er Ee Eab Epa Erev Ert Ecr Eci Ecv Ecd].
  pose proof Hwf as [? ? ? ? ? ? Hcur Hled ? ? Hj Hfr _ Hl Hlife].
  unfold lifecycle_ok in Hlife. rewrite Hst in Hlife. destruct Hlife as (Hne & _ & Ha & Hr).
  assert (frontier_nodes (st_frontier s') ≠ []) as Hne'.
  { rewrite Ef, settle_frontier_nodes. by destruct (frontier_nodes (st_frontier s)). }
  split; rewrite ?Erun, ?Edi, ?Edv, ?Ess, ?Eq, ?Erev, ?Ert; try done; try lia.
  - exists cursor. unfold config_cursor. rewrite Eci, Ecv, Ecr, Ecd.
    apply GraphConfigCursor_new_Ok. split; [by destruct cursor|done].
  - unfold parent_ok in *. by rewrite Epa, Erun.
  - intros l. rewrite Ee, Est, Eq, Ef. case_bool_decide as Ed; [|done]. intros Hl'.
    destruct (Hl l Hl') as (_ & ? & ? & _). rewrite bool_decide_false by congruence.
    split_and!; [done..|]. apply pending_iff. by rewrite Hd, Ed.
  - unfold lifecycle_ok. rewrite Est, Er, Ee, Eab, Ert, Ef, Hd. rewrite Ef in Hne'.
    destruct (decide (d = FRONTIER_FAILED)) as [->|Ed]; [cbn; by split_and!|].
    rewrite (bool_decide_eq_false_2 (d = FRONTIER_FAILED)) by done.
    split_and!; try done. congruence.
Qed.
End after.
End settle.

Lemma settle_accepted s c s' cur res d :
  let n := outcome_node_id (set_outcome c) in
  wf s → set_expected_revision c = st_revision s → st_execution s = Some (mkLease (set_execution c)) →
  n ∈ pending_node_ids (st_frontier s) → outcome_ok s c →
  settle_config s c = Ok cur → settle_resources (st_resources s) n = Ok res →
  frontier_status (settle_frontier (st_frontier s) n (outcome_settlement (set_outcome c))) = Ok d →
  settled_fields s s' n (outcome_settlement (set_outcome c)) (outcome_ledger s c) cur res d →
  reduce_graph_run (Some s) (CmdSettle c) = Ok s'.
Proof.
  intros n Hwf Hr He (m & Hin & Hid & Hp)%elem_pending Hok Hc Hres Hd Hf. rewrite reduce_inv.
  destruct (wf_lease s Hwf _ He) as (Hst & _).
  assert (frontier_node (st_frontier s) n = Some m) as Hm.
  { rewrite <-Hid. apply frontier_node_lookup; [apply Hwf|done]. }
  split_and!; [done|cbn; by rewrite Hr|].
  exists (settled_state s n (outcome_settlement (set_outcome c)) (outcome_ledger s c) cur res d).
  split_and!.
  - apply settle_inv. split_and!; [done..|by eauto|].
    do 5 eexists. split_and!; [by eapply settle_outcome_Ok|done..].
  - by apply settled_fields_eq.
  - destruct (settle_config_inv _ _ _ Hc) as (_ & _ & _ & _ & _ & Hcur). by eapply wf_settled.
Qed.

(** What an accepted settlement carries and writes. *)
Definition settles (s : GraphRunState) (c : SettleGraphNode) (s' : GraphRunState) : Prop :=
  let n := outcome_node_id (set_outcome c) in
  set_expected_revision c = st_revision s ∧ st_execution s = Some (mkLease (set_execution c))
  ∧ n ∈ pending_node_ids (st_frontier s) ∧ outcome_ok s c
  ∧ ∃ cursor resources d,
      settle_config s c = Ok cursor ∧ settle_resources (st_resources s) n = Ok resources
      ∧ frontier_status (settle_frontier (st_frontier s) n (outcome_settlement (set_outcome c))) = Ok d
      ∧ settled_fields s s' n (outcome_settlement (set_outcome c)) (outcome_ledger s c)
          cursor resources d.

Lemma settle_forward s c s' : wf s → reduce_graph_run (Some s) (CmdSettle c) = Ok s' → settles s c s'.
Proof.
  intros Hwf. rewrite reduce_inv. intros (_ & [= Hr] & u & Hu & -> & Hwf').
  unfold settles. set (n := outcome_node_id (set_outcome c)).
  apply settle_inv in Hu as (Hst & He & (m & Hm & Hp) & x & l & cur & res & d & Ho & Hc & Hres & Hd & ->).
  apply settle_outcome_inv in Ho. revert Hwf'.
  pose proof (settled_state_fields s n x l cur res d) as Hf. fold n in Hd, Hres |- *. revert Hf.
  generalize (bump s (settled_state s n x l cur res d)). intros s' Hf Hwf'.
  pose proof (frontier_node_Some _ _ _ Hm) as [Hin Hid]. fold n in Hid.
  assert (n ∈ pending_node_ids (st_frontier s)) by (apply elem_pending; eauto).
  assert (settlement_ok s' n x) as Hsok.
  { assert (settled_node n x m ∈ frontier_nodes (st_frontier s')) as Hin'.
    { rewrite (sf_frontier _ _ _ _ _ _ _ _ Hf). by apply list_elem_of_fmap_2. }
    pose proof (no_settlement _ _ (fo_nodes _ (wf_frontier _ Hwf') _ Hin')) as Hx.
    rewrite settled_node_here in Hx by done. cbn in Hx. by rewrite Hid in Hx. }
  unfold outcome_ok, outcome_ledger. subst n. split_and!; [done..| |].
  - destruct (set_outcome c) as [k rt|k f|k i p]; cbn in *.
    + destruct Ho as (-> & [_ Hroute] & _ & ->). split; [done|].
      pose proof (lo_records _ (wf_ledger _ Hwf')) as Hrec.
      rewrite (sf_ledger _ _ _ _ _ _ _ _ Hf) in Hrec. unfold sorted_key in Hrec.
      rewrite sort_by_perm, Forall_app, Forall_singleton in Hrec. by destruct Hrec as [_ []].
    + destruct Ho as (-> & _ & ?). done.
    + naive_solver.
  - exists cur, res, d. destruct (set_outcome c); cbn in *; naive_solver.
Qed.

(** C29: A settlement on a reachable run is accepted exactly when it carries the current
    revision and the active lease, names a pending frontier node and an admissible
    outcome, and its Config transition and resource release succeed.  It then replaces
    only that node's settlement, appends one ledger record exactly on success, ends the
    lease when no pending node is left, fails the run when the frontier failed, and
    touches no other field: the final re-validation never rejects the result. *)
Theorem settle_exact s c s' :
  reachable s → reduce_graph_run (Some s) (CmdSettle c) = Ok s' ↔ settles s c s'.
Proof.
  intros Hwf%reachable_wf. split; [by apply settle_forward|].
  intros (Hr & He & Hp & Hok & cur & res & d & Hc & Hres & Hd & Hf). by eapply settle_accepted.
Qed.

Lemma settle_exact_witness :
  ∃ s', reduce_graph_run (Some (demo_after 1))
    (CmdSettle (mkSettle 1 (demo_token 1)
       (SucceededGraphNodeOutcome (lit "a") ContinueGraphRouting) None None)) = Ok s'
  ∧ st_execution s' = Some (mkLease (demo_token 1))
  ∧ settled_references s' = [demo_reference 0 (lit "a")].
Proof.
  eexists. split.
  - apply (settle_exact (demo_after 1)); [reach_demo 1|].
    split_and!; [vm_compute; reflexivity|vm_compute; reflexivity| | |].
    { apply mem_spec. vm_compute. reflexivity. }
    { split; intros ? [=]. }
    do 3 eexists. split_and!; [vm_compute; reflexivity..|apply settled_state_fields].
  - vm_compute. done.
Defined.
