(* ===== verification/AdvanceProofs.v ===== *)
(** * Advancing the frontier: causality and Join accounting

    What the guards of [advance_graph_frontier] and [complete_graph_frontier] imply for
    every reachable run: each superstep has committed settlements, each activation is
    caused by a settlement of the superstep before it, and no Join arrival is lost. *)

From Stdlib Require Import ZArith NArith Lia Bool String.
From stdpp Require Import prelude strings gmap sorting.
From S2P Require Import Prelude Identity Resources ResourceProofs Model Validation Transitions WellFormed Reducer ReducerProofs OperationProofs SettleProofs.

Set Default Goal Selector "!".

(* ------------------------------------------------------------------ *)
(** ** References of one cause *)

Definition at_superstep (k : Z) (r : ActivationReference) : Prop :=
  act_superstep (ref_activation r) = k.
#[export] Instance at_superstep_dec k r : Decision (at_superstep k r) := decide (_ = _).

(** The two halves of a classification: current successes and older references. *)
Record classified (s : GraphRunState) (refs current historical : list ActivationReference) : Prop := {
  cl_split : ∀ r, r ∈ refs ↔ r ∈ current ∨ r ∈ historical;
  cl_current : ∀ r, r ∈ current → r ∈ frontier_references s;
  cl_historical : ∀ r, r ∈ historical → (act_superstep (ref_activation r) < st_superstep s)%Z
}.

Lemma classified_snoc_current s refs cur hist r :
  classified s refs cur hist → r ∈ frontier_references s → classified s (refs ++ [r]) (cur ++ [r]) hist.
Proof.
  intros [H1 H2 H3] Hr. split.
  - intros x. rewrite !elem_of_app, H1. tauto.
  - intros x [?| ->%list_elem_of_singleton]%elem_of_app; auto.
  - auto.
Qed.

Lemma classified_snoc_historical s refs cur hist r :
  classified s refs cur hist → (act_superstep (ref_activation r) < st_superstep s)%Z →
  classified s (refs ++ [r]) cur (hist ++ [r]).
Proof.
  intros [H1 H2 H3] Hr. split.
  - intros x. rewrite !elem_of_app, H1. tauto.
  - auto.
  - intros x [?| ->%list_elem_of_singleton]%elem_of_app; auto.
Qed.

Lemma classify_references_sound s refs cur hist :
  classify_references s refs = Ok (cur, hist) → classified s refs cur hist.
Proof.
  unfold classify_references.
  apply (py_for_state_prefix (λ dn st, classified s dn st.1 st.2)).
  2: { split; intros r; rewrite ?elem_of_nil; tauto. }
  intros dn r [cur0 hist0] [cur1 hist1] Hcl Hstep. cbn in *. checks in Hstep.
  destruct Hstep as [[Hrun Hle] Hstep].
  destruct (Z.ltb_spec (act_superstep (ref_activation r)) (st_superstep s)).
  - injection Hstep as <- <-. by apply classified_snoc_historical.
  - destruct (frontier_node _ _) as [[i [|rt| |] c]|] eqn:En; try done. checks in Hstep.
    destruct Hstep as [Hroute [= <- <-]]. apply classified_snoc_current; [done|].
    apply frontier_node_Some in En as [Hin Hid]. apply elem_frontier_references.
    eexists _, rt. split_and!; [exact Hin|done|]. cbn in *. subst i.
    destruct r as [[run k nd] route]; cbn in *. subst. f_equal. f_equal. lia.
Qed.

(* ------------------------------------------------------------------ *)
(** ** Next activations *)

Definition progress_index (js : list GraphJoinProgress)
    : list (GraphJoinOccurrenceIdentity * GraphJoinProgress) := (λ j, (jp_occurrence j, j)) <$> js.

Lemma fst_progress_index js : fst <$> progress_index js = jp_occurrence <$> js.
Proof. unfold progress_index. by rewrite <-list_fmap_compose. Qed.

Lemma index_join_progress_Ok js label idx :
  index_join_progress js label = Ok idx → idx = progress_index js ∧ NoDup (jp_occurrence <$> js).
Proof.
  unfold index_join_progress.
  apply (py_for_state_prefix (λ dn idx, idx = progress_index dn ∧ NoDup (jp_occurrence <$> dn))).
  - intros dn j st st' [-> Hnd]. checks. rewrite mem_false, fst_progress_index.
    intros [Hn [= <-]]. split; [unfold progress_index; by rewrite fmap_app|].
    rewrite fmap_app. apply NoDup_app. split_and!; [done| |apply NoDup_singleton].
    by intros o Ho ->%list_elem_of_singleton.
  - split; [done|constructor].
Qed.

Lemma assoc_progress_index js o j :
  assoc o (progress_index js) = Some j → j ∈ js ∧ jp_occurrence j = o.
Proof.
  induction js as [|k js IH]; cbn; [done|]. case_decide as E.
  - intros [= <-]. split; [by left|done].
  - intros [? ?]%IH. split; [by right|done].
Qed.

Lemma assoc_progress_index_lookup js j :
  NoDup (jp_occurrence <$> js) → j ∈ js → assoc (jp_occurrence j) (progress_index js) = Some j.
Proof.
  induction js as [|k js IH]; [by intros _ ?%elem_of_nil|].
  cbn. intros [Hk Hnd]%NoDup_cons [->|Hin]%elem_of_cons; [by rewrite decide_True|].
  case_decide as E; [|auto]. destruct Hk. rewrite <-E. by apply list_elem_of_fmap_2.
Qed.

Lemma same_occurrence js j k :
  NoDup (jp_occurrence <$> js) → j ∈ js → k ∈ js → jp_occurrence k = jp_occurrence j → k = j.
Proof.
  intros Hnd Hj Hk Heq. pose proof (assoc_progress_index_lookup _ k Hnd Hk) as E1.
  pose proof (assoc_progress_index_lookup _ j Hnd Hj) as E2. rewrite Heq in E1. congruence.
Qed.

(** An activation caused by at least one current settlement. *)
Definition caused (s : GraphRunState) (a : GraphFrontierActivation) : Prop :=
  ∃ refs jo current historical,
    fa_cause a = RoutedActivationCause refs jo ∧ classified s refs current historical
    ∧ current ≠ [].

(** An activation that takes over the arrivals of a pending Join. *)
Definition takes_over (s : GraphRunState) (js : list GraphJoinProgress)
    (o : GraphJoinOccurrenceIdentity) (a : GraphFrontierActivation) : Prop :=
  ∃ refs current j,
    fa_cause a = RoutedActivationCause refs (Some o) ∧ j ∈ js ∧ jp_occurrence j = o
    ∧ classified s refs current (jp_arrived j).

Lemma validate_next_activation_sound s js consumed a consumed' :
  validate_next_activation s (progress_index js) consumed a = Ok consumed' →
  caused s a
  ∧ ((∃ o, consumed' = o :: consumed ∧ takes_over s js o a) ∨ consumed' = consumed).
Proof.
  unfold validate_next_activation, caused, takes_over. destruct (fa_cause a) as [|refs jo]; [done|].
  checks. intros (_ & ([cur hist] & Hcl%classify_references_sound & H)%bind_Ok). checks in H.
  destruct H as [Hne H]. split; [naive_solver|]. destruct jo as [o|].
  - checks in H. destruct H as [_ H].
    destruct (assoc o (progress_index js)) as [j|] eqn:Ej; checks in H.
    + destruct H as [Hh [= <-]]. left. exists o. split; [done|].
      apply assoc_progress_index in Ej as [? ?]. exists refs, cur, j. by rewrite Hh.
    + destruct H as [_ [= <-]]. by right.
  - checks in H. destruct H as [_ [= <-]]. by right.
Qed.

Lemma validate_next_activations_sound s acts consumed :
  validate_next_activations s acts = Ok consumed →
  acts ≠ [] ∧ (∀ a, a ∈ acts → caused s a)
  ∧ ∀ o, o ∈ consumed → ∃ a, a ∈ acts ∧ takes_over s (st_join_progress s) o a.
Proof.
  unfold validate_next_activations, validate_activation_batch. checks.
  intros ((Hne & _) & (idx & [-> _]%index_join_progress_Ok & H)%bind_Ok). split; [done|].
  revert H. apply (py_for_state_prefix (λ dn consumed, (∀ a, a ∈ dn → caused s a)
    ∧ ∀ o, o ∈ consumed → ∃ a, a ∈ dn ∧ takes_over s (st_join_progress s) o a)).
  - intros dn a st st' [H1 H2] [Ha Hst]%validate_next_activation_sound. split.
    + intros x [?| ->%list_elem_of_singleton]%elem_of_app; auto.
    + assert (∀ o, o ∈ st → ∃ x, x ∈ dn ++ [a] ∧ takes_over s (st_join_progress s) o x) as H3.
      { intros o (x & ? & ?)%H2. exists x. rewrite elem_of_app. auto. }
      destruct Hst as [(o & -> & Ho)| ->]; [|done].
      intros o' [->|?]%elem_of_cons; [|auto]. exists a. rewrite elem_of_app, list_elem_of_singleton. auto.
  - split; intros ? []%elem_of_nil.
Qed.

(* ------------------------------------------------------------------ *)
(** ** Every superstep is evidenced *)

(** The ledger holds a settlement of superstep [k]. *)
Definition evidenced (s : GraphRunState) (k : Z) : Prop :=
  ∃ r, r ∈ settled_references s ∧ at_superstep k r.

(** A cause names a settlement of superstep [k]. *)
Definition caused_at (k : Z) (n : GraphFrontierNode) : Prop :=
  ∃ refs jo r, fn_cause n = RoutedActivationCause refs jo ∧ r ∈ refs ∧ at_superstep k r.

Record causal (s : GraphRunState) : Prop := {
  ca_past : ∀ k, (0 ≤ k < st_superstep s)%Z → evidenced s k;
  ca_frontier : (0 < st_superstep s)%Z →
    ∀ n, n ∈ frontier_nodes (st_frontier s) → caused_at (st_superstep s - 1) n;
  ca_completed : st_status s = COMPLETED → evidenced s (st_superstep s)
}.

Lemma settled_has_reference s :
  wf s → st_status s = RUNNING → frontier_status (st_frontier s) = Ok SETTLED →
  evidenced s (st_superstep s).
Proof.
  intros Hwf Hst Hset. unfold frontier_status in Hset. repeat case_match; try done.
  match goal with H : _ && _ = true |- _ => apply andb_true_iff in H as [Hne Hall] end.
  destruct (frontier_nodes (st_frontier s)) as [|n ns] eqn:En; [done|].
  cbn in Hall. apply andb_true_iff in Hall as [Hn _].
  destruct (fn_settlement n) as [|rt| |] eqn:Es; try done.
  exists (node_reference s (fn_node_id n, rt)).
  apply (lo_current s (wf_ledger s Hwf)); [by rewrite Hst|]. apply elem_frontier_references.
  exists n, rt. rewrite En. split_and!; [by left|done|done].
Qed.

Lemma evidenced_mono s s' k : evolves s s' → evidenced s k → evidenced s' k.
Proof.
  intros Hev (r & (p & -> & Hp)%list_elem_of_fmap & Hk). eexists; split; [|exact Hk].
  apply list_elem_of_fmap_2. by apply (ev_ledger _ _ Hev).
Qed.

(** Steps that keep the superstep and every node's cause keep causality. *)
Lemma causal_same s s' :
  evolves s s' → st_superstep s' = st_superstep s →
  (∀ n', n' ∈ frontier_nodes (st_frontier s') →
     ∃ n, n ∈ frontier_nodes (st_frontier s) ∧ fn_cause n' = fn_cause n) →
  (st_status s' = COMPLETED → evidenced s (st_superstep s)) →
  causal s → causal s'.
Proof.
  intros Hev Hs Hn Hc [Hp Hf _]. split; rewrite ?Hs.
  - intros k Hk. eapply evidenced_mono; eauto.
  - intros Hpos n' (n & Hin & Heq)%Hn. destruct (Hf Hpos n Hin) as (refs & jo & r & ? & ? & ?).
    exists refs, jo, r. by rewrite Heq.
  - intros Hst. eapply evidenced_mono; eauto.
Qed.

Lemma causal_advance s c u :
  wf s → advance_graph_frontier s c = Ok u → evolves s (bump s u) → causal s → causal (bump s u).
Proof.
  intros Hwf Hadv Hev [Hp Hf _]. pose proof (wf_superstep s Hwf).
  apply advance_inv in Hadv as ((Hst & Hset & _)%resolution_base_Ok & (cons & Hnext & _) & ->).
  apply validate_next_activations_sound in Hnext as (_ & Hcaused & _). split; cbn.
  - intros k Hk. eapply evidenced_mono; [exact Hev|].
    destruct (decide (k = st_superstep s)) as [->|]; [by apply settled_has_reference|apply Hp; lia].
  - intros _ n (a & -> & Ha)%list_elem_of_fmap.
    destruct (Hcaused a Ha) as (refs & jo & cur & hist & Hcause & [Hsplit Hcur _] & Hne).
    destruct cur as [|r cur]; [done|]. exists refs, jo, r. cbn. split_and!; [done|apply Hsplit; left; by left|].
    assert (r ∈ frontier_references s) as Hr by (apply Hcur; by left).
    apply elem_frontier_references in Hr as (m & rt & _ & _ & ->). unfold at_superstep; cbn. lia.
  - by rewrite Hst.
Qed.

Lemma causal_step s s' : run_step s s' → causal s → causal s'.
Proof.
  intros Hstep Hca. pose proof (step_evolves _ _ Hstep) as [Hev _].
  destruct Hstep as [c (Hwf & _ & u & Hu & -> & _)%reduce_inv].
  destruct c; cbn in Hu; [done|..].
  - apply claim_inv in Hu as (Hst & _ & _ & _ & _ & _ & ->).
    apply (causal_same s); cbn; [done|done|eauto|congruence|done].
  - apply fence_inv in Hu as (Hst & _ & ->).
    apply (causal_same s); cbn; [done|done|eauto|congruence|done].
  - apply settle_inv in Hu as (Hst & _ & _ & x & l & cur & res & d & _ & _ & _ & _ & ->).
    apply (causal_same s); cbn; [done|done| |by case_match|done].
    intros n' (n & -> & Hn)%list_elem_of_fmap. by exists n.
  - apply resume_inv in Hu as (Hst & _ & _ & _ & Hsort & up & Hloop & ->).
    apply resume_loop in Hloop as [[= -> _] _];
      [|by apply strictly_sorted_NoDup_key, wf_frontier|by apply strictly_sorted_NoDup_key].
    apply (causal_same s); cbn; [done|done| |congruence|done].
    intros n' (n & -> & Hn)%list_elem_of_fmap. exists n. split; [done|].
    unfold resumed_node. by case_match.
  - by eapply causal_advance.
  - apply complete_inv in Hu as ((Hst & Hset & _)%resolution_base_Ok & _ & ->).
    apply (causal_same s); cbn; [done|done|intros n' []%elem_of_nil| |done].
    intros _. by apply settled_has_reference.
  - apply abort_inv in Hu as (Hst & _ & ->).
    apply (causal_same s); cbn; [done|done|eauto|congruence|done].
Qed.

Lemma reachable_causal s : reachable s → causal s.
Proof.
  induction 1 as [c s H|s s' _ IH Hstep]; [|by eapply causal_step].
  cbn in H. unfold start_graph_run in H. inv_ok. apply validated_wf in H as [-> _]. cbn.
  split; cbn; [intros; lia|intros; lia|done].
Qed.

(** C2: No superstep is skipped and none is uncaused.  In every reachable state the
    ledger holds a committed settlement for each superstep already passed, every
    frontier node beyond superstep zero is routed and its cause names a settlement of
    the superstep immediately before that is in the ledger, and a completed run has a
    settlement at its final superstep. *)
Theorem supersteps_are_causally_linked s :
  reachable s →
  (∀ k, (0 ≤ k < st_superstep s)%Z → ∃ r, r ∈ settled_references s ∧ at_superstep k r)
  ∧ ((0 < st_superstep s)%Z → ∀ n, n ∈ frontier_nodes (st_frontier s) →
       ∃ refs jo r, fn_cause n = RoutedActivationCause refs jo ∧ r ∈ refs
         ∧ at_superstep (st_superstep s - 1) r ∧ r ∈ settled_references s)
  ∧ (st_status s = COMPLETED → ∃ r, r ∈ settled_references s ∧ at_superstep (st_superstep s) r).
Proof.
  intros Hr. pose proof (reachable_wf s Hr) as Hwf. pose proof (reachable_causal s Hr) as [Hp Hf Hc].
  split_and!; [exact Hp| |exact Hc].
  intros Hpos n Hn. destruct (Hf Hpos n Hn) as (refs & jo & r & Hcause & Hr' & Hk).
  exists refs, jo, r. split_and!; [done..|].
  pose proof (no_cause _ _ (fo_nodes _ (wf_frontier _ Hwf) n Hn)) as Hok. rewrite Hcause in Hok.
  destruct Hok as (_ & _ & _ & Hpred & _). by apply Hpred.
Qed.

Lemma supersteps_are_causally_linked_witness :
  st_superstep (demo_after 4) = 1%Z
  ∧ ∃ r, r ∈ settled_references (demo_after 4) ∧ at_superstep 0 r.
Proof.
  split; [vm_compute; reflexivity|].
  apply (supersteps_are_causally_linked (demo_after 4)); [reach_demo 4|vm_compute; split; discriminate || reflexivity].
Defined.

(* ------------------------------------------------------------------ *)
(** ** Join accounting *)

Lemma current_successful_references_Ok s rs :
  current_successful_references s = Ok rs → ∀ r, r ∈ rs ↔ r ∈ frontier_references s.
Proof.
  unfold current_successful_references. intros (xs & Hxs & H)%bind_Ok. inv_ok. subst.
  change (frontier_publications s = Ok xs) in Hxs. apply frontier_publications_Ok in Hxs as [-> _].
  intros r. apply elem_of_remove_dups.
Qed.

(** A Join whose sources have all arrived, by older records and current successes. *)
Definition join_complete (s : GraphRunState) (j : GraphJoinProgress) : Prop :=
  ∀ source, source ∈ join_sources (occ_join (jp_occurrence j)) →
    ∃ r, (r ∈ jp_arrived j ∨ r ∈ frontier_references s)
         ∧ act_node_id (ref_activation r) = source.

Lemma consume_occurrence_sound s js current consumed o consumed' :
  (∀ r, r ∈ current → r ∈ frontier_references s) →
  consume_occurrence s (progress_index js) current consumed o = Ok consumed' →
  consumed' = o :: consumed ∧ o ∉ consumed
  ∧ ∃ j, j ∈ js ∧ jp_occurrence j = o ∧ join_complete s j.
Proof.
  intros Hcur. unfold consume_occurrence. checks. rewrite mem_false.
  destruct (assoc o (progress_index js)) as [j|] eqn:Ej; [|naive_solver]. checks.
  intros (_ & Hfresh & _ & Hsame & [= <-]). apply assoc_progress_index in Ej as [Hj <-].
  split_and!; [done|done|]. exists j. split_and!; [done|done|]. intros source Hs.
  apply Hsame, list_elem_of_fmap in Hs as (r & -> & Hr). exists r. split; [|done].
  apply elem_of_app in Hr as [?|[_ ?]%List_filter_elem]; auto.
Qed.

Lemma validate_join_consumption_sound s declared current consumed :
  (∀ r, r ∈ current → r ∈ frontier_references s) →
  validate_join_consumption s declared current = Ok consumed →
  NoDup consumed ∧ (∀ o, o ∈ consumed ↔ o ∈ declared)
  ∧ ∀ o, o ∈ consumed → ∃ j, j ∈ st_join_progress s ∧ jp_occurrence j = o ∧ join_complete s j.
Proof.
  intros Hcur. unfold validate_join_consumption.
  intros (idx & [-> _]%index_join_progress_Ok & H)%bind_Ok.
  apply bind_Ok in H as (cs & Hloop & H). checks in H. destruct H as [_ [= ->]]. revert Hloop.
  apply (py_for_state_prefix (λ dn cs, NoDup cs ∧ (∀ o, o ∈ cs ↔ o ∈ dn) ∧ ∀ o, o ∈ cs →
    ∃ j, j ∈ st_join_progress s ∧ jp_occurrence j = o ∧ join_complete s j)).
  - intros dn o st st' (Hnd & Hdn & Hst) (-> & Hn & Hj)%consume_occurrence_sound; [|done].
    split_and!; [by constructor| |].
    + intros x. rewrite elem_of_cons, elem_of_app, list_elem_of_singleton, Hdn. tauto.
    + intros x [->|?]%elem_of_cons; auto.
  - split_and!; [constructor|done|intros o []%elem_of_nil].
Qed.

(** What may happen to a pending Join record when the frontier advances. *)
Definition retained (s : GraphRunState) (j j' : GraphJoinProgress) : Prop :=
  jp_occurrence j' = jp_occurrence j ∧ jp_arrived j ⊆ jp_arrived j'
  ∧ ∀ r, r ∈ jp_arrived j' → r ∈ jp_arrived j ∨ r ∈ frontier_references s.

Lemma progress_update_sound s js current consumable j' :
  (∀ r, r ∈ current → r ∈ frontier_references s) →
  validate_progress_update (progress_index js) current consumable (jp_occurrence j', j') = Ok tt →
  (∃ j, j ∈ js ∧ jp_occurrence j ∉ consumable ∧ retained s j j')
  ∨ (assoc (jp_occurrence j') (progress_index js) = None
     ∧ ∀ r, r ∈ jp_arrived j' → r ∈ frontier_references s).
Proof.
  intros Hcur. unfold validate_progress_update.
  destruct (assoc _ (progress_index js)) as [j|] eqn:Ej.
  - checks. rewrite mem_false. intros (Hno & Hsub & Hadd). left. exists j.
    apply assoc_progress_index in Ej as [Hj Ho]. rewrite Ho. split_and!; [done|done|].
    split_and!; [done|done|]. intros r Hr. destruct (decide (r ∈ jp_arrived j)) as [?|Hn]; [by left|].
    right. apply Hcur, Hadd. apply List_filter_elem. split; [|done]. by apply negb_true_iff, mem_false.
  - checks. intros Hsub. right. split; [done|]. intros r Hr. apply Hcur. by apply Hsub.
Qed.

Lemma join_progress_delta_sound s declared consumed explicit :
  joins_ok s → validate_join_progress_delta s declared consumed explicit = Ok tt →
  (∀ j, j ∈ st_join_progress s →
     (∃ j', j' ∈ declared ∧ retained s j j') ∨ jp_occurrence j ∈ consumed
     ∨ (jp_occurrence j ∈ explicit ∧ join_complete s j))
  ∧ (∀ j', j' ∈ declared →
     (∃ j, j ∈ st_join_progress s ∧ retained s j j')
     ∨ ∀ r, r ∈ jp_arrived j' → r ∈ frontier_references s).
Proof.
  intros Hjs. pose proof (strictly_sorted_NoDup_key _ _ (js_sorted s Hjs)) as Hnd.
  unfold validate_join_progress_delta.
  intros (prev & [-> _]%index_join_progress_Ok & H)%bind_Ok.
  apply bind_Ok in H as (upd & [-> _]%index_join_progress_Ok & H).
  apply bind_Ok in H as (cur & Hcur & H). apply bind_Ok in H as (ex & Hex & H).
  assert (∀ r, r ∈ cur → r ∈ frontier_references s) as Hcur'.
  { intros r. apply (current_successful_references_Ok s cur Hcur). }
  apply validate_join_consumption_sound in Hex as (_ & Hdecl & Hcomplete); [|done].
  checks in H. rewrite !py_for_Ok in H. destruct H as (_ & Hupd & Hkept).
  pose proof (λ j' Hj', progress_update_sound s _ _ _ j' Hcur'
    (Hupd _ (list_elem_of_fmap_2 (λ j, (jp_occurrence j, j)) declared j' Hj'))) as Hdec.
  split.
  - intros j Hj. specialize (Hkept (jp_occurrence j)).
    rewrite fst_progress_index in Hkept. specialize (Hkept (list_elem_of_fmap_2 _ _ _ Hj)).
    checks in Hkept. rewrite andb_false_iff, !negb_false_iff, !mem_spec, fst_progress_index in Hkept.
    destruct Hkept as [(j' & Ho & Hj')%list_elem_of_fmap|[?|Hin]%elem_of_app]; [|by right; left|].
    + left. exists j'. split; [done|].
      assert (assoc (jp_occurrence j') (progress_index (st_join_progress s)) = Some j) as Ej.
      { rewrite <-Ho. by apply assoc_progress_index_lookup. }
      destruct (Hdec j' Hj') as [(k & Hk & _ & Hret)|[Hnone _]]; [|congruence].
      pose proof Hret as [Hko _].
      assert (k = j) as ->; [|done]. apply (same_occurrence (st_join_progress s)); congruence.
    + right; right. split; [by apply Hdecl|]. destruct (Hcomplete _ Hin) as (k & Hk & Hko & Hc).
      assert (k = j) as ->; [|done]. by apply (same_occurrence (st_join_progress s)).
  - intros j' Hj'. destruct (Hdec j' Hj') as [(k & Hk & _ & Hret)|[_ ?]]; eauto.
Qed.

(** C30: No Join arrival is lost or invented when a run advances.  Every pending Join
    record of the old state is either kept with all its arrivals (growing only by
    current successes), or taken over by a new activation whose references are exactly
    its arrivals plus current successes, or explicitly consumed because every source
    has arrived; and a record that is new in the successor holds current successes only. *)
Theorem advance_conserves_joins s c s' :
  reachable s → reduce_graph_run (Some s) (CmdAdvance c) = Ok s' →
  (∀ j, j ∈ st_join_progress s →
     (∃ j', j' ∈ st_join_progress s' ∧ retained s j j')
     ∨ (∃ n refs, n ∈ frontier_nodes (st_frontier s')
          ∧ fn_cause n = RoutedActivationCause refs (Some (jp_occurrence j))
          ∧ jp_arrived j ⊆ refs
          ∧ ∀ r, r ∈ refs → r ∈ jp_arrived j ∨ r ∈ frontier_references s)
     ∨ (jp_occurrence j ∈ adv_consumed_join_progress c ∧ join_complete s j))
  ∧ (∀ j', j' ∈ st_join_progress s' →
       (∃ j, j ∈ st_join_progress s ∧ retained s j j')
       ∨ ∀ r, r ∈ jp_arrived j' → r ∈ frontier_references s).
Proof.
  intros Hr (Hwf & _ & u & Hu & -> & _)%reduce_inv. clear Hr.
  apply advance_inv in Hu as (_ & (consumed & Hnext & Hdelta) & ->). cbn.
  apply validate_next_activations_sound in Hnext as (_ & _ & Htake).
  apply join_progress_delta_sound in Hdelta as [Hold Hnew]; [|apply Hwf]. split; [|done].
  intros j Hj. destruct (Hold j Hj) as [?|[Hin|?]]; [by left| |by right; right]. right; left.
  destruct (Htake _ Hin) as (a & Ha & refs & cur & k & Hcause & Hk & Hko & [Hsplit Hcur _]).
  assert (k = j) as ->.
  { apply (same_occurrence (st_join_progress s)); [|done..].
    apply strictly_sorted_NoDup_key, js_sorted, Hwf. }
  eexists _, refs. split_and!; [by apply list_elem_of_fmap_2, Ha|done|..].
  - intros r Hr. apply Hsplit. by right.
  - intros r [?|?]%Hsplit; auto.
Qed.

(** Source [a] arrives in superstep 0, source [b] in superstep 1, the Join fires in 2. *)
Definition late_join : GraphJoinOccurrenceIdentity :=
  mkOccurrence (mkJoin [lit "a"; lit "b"] (lit "c")) (lit "run") 2.
Definition late_start : StartGraphRun :=
  mkStart (lit "run") (lit "def") 1 [mkFrontierActivation (lit "a") StartActivationCause]
    None None None None.
Definition late_advance : AdvanceGraphFrontier :=
  mkAdvance 5 [mkFrontierActivation (lit "c") (RoutedActivationCause
    [demo_reference 0 (lit "a"); demo_reference 1 (lit "b")] (Some late_join))] [] [].
Definition late_commands : list GraphRunCommand :=
  [demo_claim 0; demo_success 1 1 (lit "a");
   CmdAdvance (mkAdvance 2 [mkFrontierActivation (lit "b")
     (RoutedActivationCause [demo_reference 0 (lit "a")] None)]
     [mkJoinProgress late_join [demo_reference 0 (lit "a")]] []);
   demo_claim 3; demo_success 4 2 (lit "b"); CmdAdvance late_advance;
   demo_claim 6; demo_success 7 3 (lit "c"); CmdComplete (mkComplete 8 [] None)].
Definition late_after (k : nat) : GraphRunState := state_of (run_all late_start (take k late_commands)).

Ltac reach_late k :=
  apply (run_all_reachable late_start (take k late_commands)); vm_compute; reflexivity.

Lemma advance_conserves_joins_witness :
  st_join_progress (late_after 5) = [mkJoinProgress late_join [demo_reference 0 (lit "a")]]
  ∧ ∀ j', j' ∈ st_join_progress (late_after 6) →
       (∃ j, j ∈ st_join_progress (late_after 5) ∧ retained (late_after 5) j j')
       ∨ ∀ r, r ∈ jp_arrived j' → r ∈ frontier_references (late_after 5).
Proof.
  split; [vm_compute; reflexivity|].
  apply (advance_conserves_joins (late_after 5) late_advance); [reach_late 5|].
  vm_compute. reflexivity.
Defined.

Lemma NoDup_full (xs ys : list GraphJoinOccurrenceIdentity) :
  NoDup xs → xs ⊆ ys → length xs = length ys → NoDup ys → ∀ y, y ∈ ys → y ∈ xs.
Proof.
  intros Hx Hsub Hlen Hy y Hin.
  assert (xs ≡ₚ ys) as ->; [|done]. apply submseteq_length_Permutation; [|lia].
  by apply NoDup_submseteq.
Qed.

(** C31: A run completes only when nothing is outstanding: every frontier node has
    succeeded, no lease or resource is held, and every pending Join is consumed with
    all its sources arrived; the completed state keeps the ledger, has an empty
    frontier and no Join progress, and, when the run's input is evidenced, every final
    settlement precedes completion and selected the recorded completion route. *)
Theorem completion_leaves_nothing_outstanding s c s' :
  reachable s → reduce_graph_run (Some s) (CmdComplete c) = Ok s' →
  (∀ n, n ∈ frontier_nodes (st_frontier s) → is_succeeded (fn_settlement n) = true)
  ∧ st_execution s = None ∧ st_resources s = None
  ∧ (∀ j, j ∈ st_join_progress s →
       jp_occurrence j ∈ com_consumed_join_progress c ∧ join_complete s j)
  ∧ st_status s' = COMPLETED ∧ frontier_nodes (st_frontier s') = [] ∧ st_join_progress s' = []
  ∧ st_settled_publications s' = st_settled_publications s
  ∧ st_completion_route s' = com_completion_route c
  ∧ (st_graph_input_evidence s ≠ None → ∀ p, p ∈ terminal_publications s' →
       (pub_commit_revision p < st_revision s')%Z
       ∧ ref_route (pub_reference p) = com_completion_route c).
Proof.
  intros _ (Hwf & _ & u & Hu & -> & Hwf')%reduce_inv.
  apply complete_inv in Hu as ((Hst & Hset & He & Hres)%resolution_base_Ok
    & (cur & consumed & Hcur & Hcons & Hlen) & ->).
  match goal with |- context [bump s ?u] => remember (bump s u) as s' eqn:Es end.
  assert (st_status s' = COMPLETED) as Est by (by rewrite Es).
  assert (st_completion_route s' = com_completion_route c) as Ert by (by rewrite Es).
  assert (st_graph_input_evidence s' = st_graph_input_evidence s) as Eev by (by rewrite Es).
  split_and!; try done; try (by rewrite Es).
  - intros n Hn. unfold frontier_status in Hset. repeat case_match; try done.
    match goal with H : _ && _ = true |- _ => apply andb_true_iff in H as [_ Hall] end.
    rewrite forallb_forall in Hall. apply Hall, list_elem_of_In. by apply list_elem_of_fmap_2.
  - apply validate_join_consumption_sound in Hcons as (Hnd & Hdecl & Hall).
    2: { intros r. apply (current_successful_references_Ok s cur Hcur). }
    pose proof (strictly_sorted_NoDup_key _ _ (js_sorted s (wf_joins s Hwf))) as Hjnd.
    intros j Hj. assert (jp_occurrence j ∈ consumed) as Hin.
    { apply (NoDup_full _ (jp_occurrence <$> st_join_progress s)); [done| |by rewrite length_fmap|done|].
      - intros o (k & Hk & <- & _)%Hall. by apply list_elem_of_fmap_2.
      - by apply list_elem_of_fmap_2. }
    split; [by apply Hdecl|]. destruct (Hall _ Hin) as (k & Hk & Hko & Hc).
    by rewrite <-(same_occurrence _ _ _ Hjnd Hj Hk Hko).
  - intros Hev p Hp. pose proof (wf_lifecycle _ Hwf') as Hlife. unfold lifecycle_ok in Hlife.
    rewrite Est, Eev in Hlife. destruct Hlife as (_ & _ & _ & _ & Hprov).
    destruct (Hprov Hev) as [_ Ht]. rewrite <-Ert. by apply Ht.
Qed.

Lemma completion_leaves_nothing_outstanding_witness :
  st_status (late_after 9) = COMPLETED
  ∧ length (st_settled_publications (late_after 9)) = 3
  ∧ st_settled_publications (late_after 9) = st_settled_publications (late_after 8).
Proof.
  split_and!; [vm_compute; reflexivity..|].
  apply (completion_leaves_nothing_outstanding (late_after 8) (mkComplete 8 [] None));
    [reach_late 8|vm_compute; reflexivity].
Defined.
