(* ===== verification/InterruptProofs.v ===== *)
(** * Interrupts are answered at most once

    Over any history, an interrupt id that has been resumed never names a current
    interrupt again. *)

From Stdlib Require Import ZArith NArith Lia Bool String.
From stdpp Require Import prelude strings gmap sorting.
From S2P Require Import Prelude Identity Resources ResourceProofs Model Validation Transitions WellFormed Reducer ReducerProofs OperationProofs SettleProofs.

Set Default Goal Selector "!".

Definition interrupt_id (i : GraphNodeInterruptIdentity) : str :=
  graph_interrupt_id (int_run_id i) (int_superstep i) (int_node_id i) (int_execution_generation i).

(** The interrupt of node [n] at superstep [k] and generation [g] is over in [s]. *)
Definition spent (k : Z) (n : str) (g : Z) (s : GraphRunState) : Prop :=
  (g ≤ st_execution_sequence s)%Z
  ∧ ((k < st_superstep s)%Z
     ∨ st_superstep s = k
       ∧ on_some (st_execution s) (λ l, g < tok_generation (lease_token l))%Z
       ∧ ∀ m i, m ∈ frontier_nodes (st_frontier s) → fn_node_id m = n →
           fn_settlement m = InterruptedGraphNode i →
           (g < int_execution_generation (interrupt_identity i))%Z).

(** A later superstep, or the same one with an older or absent interrupt. *)
Lemma spent_same k n g s s' :
  st_superstep s' = st_superstep s → (st_execution_sequence s ≤ st_execution_sequence s')%Z →
  (st_superstep s = k → on_some (st_execution s) (λ l, g < tok_generation (lease_token l))%Z →
     on_some (st_execution s') (λ l, g < tok_generation (lease_token l))%Z
     ∧ ∀ m' i, m' ∈ frontier_nodes (st_frontier s') → fn_node_id m' = n →
         fn_settlement m' = InterruptedGraphNode i →
         (∃ m, m ∈ frontier_nodes (st_frontier s) ∧ fn_node_id m = n
            ∧ fn_settlement m = InterruptedGraphNode i)
         ∨ (g < int_execution_generation (interrupt_identity i))%Z) →
  spent k n g s → spent k n g s'.
Proof.
  intros Hs Hq Hsame [Hg Hcase]. split; [lia|]. rewrite Hs.
  destruct Hcase as [?|(Hk & Hl & Hi)]; [by left|]. right.
  destruct (Hsame Hk Hl) as [Hl' Hi']. split_and!; [done..|].
  intros m' i Hm' Hn Hst. destruct (Hi' m' i Hm' Hn Hst) as [(m & ? & ? & ?)|?]; eauto.
Qed.

Lemma spent_step k n g s s' : run_step s s' → spent k n g s → spent k n g s'.
Proof.
  intros Hstep Hsp. destruct Hstep as [c (Hwf & _ & u & Hu & -> & _)%reduce_inv].
  destruct c; cbn in Hu; [done|..].
  - apply claim_inv in Hu as (_ & He & _ & _ & _ & _ & ->).
    apply (spent_same k n g s); cbn; [done|lia| |done]. intros _ _. split; [|eauto].
    rewrite on_some_Some. cbn. destruct Hsp. lia.
  - apply fence_inv in Hu as (_ & _ & ->).
    apply (spent_same k n g s); cbn; [done|lia| |done]. intros _ _. split; [done|eauto].
  - apply settle_inv in Hu as (_ & He & _ & x & l & cur & res & d & Ho & _ & _ & _ & ->).
    apply (spent_same k n g s); cbn; [done|lia| |done]. intros _ Hl.
    split; [by case_bool_decide|].
    intros m' i (m & -> & Hm)%list_elem_of_fmap Hn. cbn in Hn |- *. case_bool_decide; [|eauto].
    intros ->. right. apply settle_outcome_inv in Ho. rewrite He, on_some_Some in Hl. cbn in Hl.
    destruct (set_outcome c); [naive_solver..|]. destruct Ho as ([= ->] & _ & _ & -> & _). done.
  - apply resume_inv in Hu as (_ & _ & _ & _ & Hsort & up & Hloop & ->).
    apply resume_loop in Hloop as [[= -> _] _];
      [|by apply strictly_sorted_NoDup_key, wf_frontier|by apply strictly_sorted_NoDup_key].
    apply (spent_same k n g s); cbn; [done|lia| |done]. intros _ Hl. split; [done|].
    intros m' i (m & -> & Hm)%list_elem_of_fmap. unfold resumed_node. case_match; [done|]. eauto.
  - apply advance_inv in Hu as (_ & _ & ->). destruct Hsp as [Hg Hcase]. split; cbn; [done|]. left.
    destruct Hcase as [?|[? _]]; lia.
  - apply complete_inv in Hu as (_ & _ & ->).
    apply (spent_same k n g s); cbn; [done|lia| |done]. intros _ Hl.
    split; [done|]. intros ? ? []%elem_of_nil.
  - apply abort_inv in Hu as (_ & He & ->).
    apply (spent_same k n g s); cbn; [done|lia| |done]. intros _ Hl. split; [done|eauto].
Qed.

Lemma spent_history k n g s s' : rtc run_step s s' → spent k n g s → spent k n g s'.
Proof. induction 1; eauto using spent_step. Qed.

Lemma interrupt_id_inj i j : interrupt_id i = interrupt_id j → i = j.
Proof.
  unfold interrupt_id, graph_interrupt_id. intros H%identity_fields_inj.
  injection H as Hr Hs%str_int_inj Hn Hg%str_int_inj. destruct i, j; cbn in *. by subst.
Qed.

(** C34: An interrupt is answered at most once.  After a resume has been accepted, no
    later resume of the same history can carry the interrupt id it answered: a
    duplicated or replayed human answer is always rejected, even though the same node
    may interrupt again in a later claim. *)
Theorem resumed_interrupt_never_recurs s c s1 a s2 c' s3 a' :
  reachable s → reduce_graph_run (Some s) (CmdResume c) = Ok s1 → a ∈ resume_actions c →
  rtc run_step s1 s2 →
  reduce_graph_run (Some s2) (CmdResume c') = Ok s3 → a' ∈ resume_actions c' →
  res_interrupt_id a' ≠ res_interrupt_id a.
Proof.
  intros Hr H1 Ha Hh H2 Ha' Heq.
  pose proof (reachable_step _ _ Hr (ex_intro _ _ H1)) as Hr1.
  pose proof (reachable_wf _ (history_reachable _ _ Hr1 Hh)) as Hwf2.
  pose proof (reachable_wf _ Hr) as Hwf.
  apply resume_accepted in H1 as (Hall & _ & He & ->); [|done].
  apply resume_accepted in H2 as (Hall' & _); [|done].
  destruct (Hall a Ha) as (m & [Hm Hid]%frontier_node_Some & i & Hi & Hint).
  destruct (Hall' a' Ha') as (m' & [Hm' Hid']%frontier_node_Some & i' & Hi' & Hint').
  rewrite Hint, Hint' in Heq. apply interrupt_id_inj in Heq.
  pose proof (no_settlement _ _ (fo_nodes _ (wf_frontier _ Hwf) m Hm)) as Hok.
  pose proof (no_settlement _ _ (fo_nodes _ (wf_frontier _ Hwf2) m' Hm')) as Hok'.
  rewrite Hi in Hok. rewrite Hi' in Hok'. cbn in Hok, Hok'. rewrite Heq in Hok'.
  destruct Hok as [Hn _ Hk Hg], Hok' as [Hn' _ Hk' _].
  assert (spent (st_superstep s) (fn_node_id m) (int_execution_generation (interrupt_identity i)) s2)
    as [_ Hsp].
  { eapply spent_history; [exact Hh|]. split; cbn; [lia|]. right.
    split_and!; [done|by rewrite He|]. intros k j (q & -> & Hq)%list_elem_of_fmap.
    rewrite resumed_node_id. intros Hqid Hj. exfalso.
    assert (q = m) as ->.
    { pose proof (frontier_node_lookup _ q (fo_sorted _ (wf_frontier _ Hwf)) Hq) as E1.
      pose proof (frontier_node_lookup _ m (fo_sorted _ (wf_frontier _ Hwf)) Hm) as E2.
      rewrite Hqid in E1. congruence. }
    unfold resumed_node in Hj. rewrite Hid in Hj.
    destruct (List.find _ (resume_actions c)) eqn:Ef; [done|].
    eapply find_action_None in Ef; [|exact Ha]. done. }
  destruct Hsp as [?|(Hk2 & _ & Hsp)]; [lia|].
  specialize (Hsp m' i' Hm' ltac:(congruence) Hi'). rewrite Heq in Hsp. lia.
Qed.

(** Node [a] interrupts, is resumed, and interrupts again under the next claim. *)
Definition twice_commands : list GraphRunCommand :=
  interrupted_commands ++ [CmdResume (mkResume 3 [demo_answer]); demo_claim 4;
                           demo_interrupt 5 2 0 (lit "a")].
Definition twice_after (k : nat) : GraphRunState :=
  state_of (run_all demo_start (take k twice_commands)).
Definition second_answer : ResumeInterruptedNode :=
  mkResumeAction (lit "a") (graph_interrupt_id (lit "run") 0 (lit "a") 2) [].

Lemma resumed_interrupt_never_recurs_witness :
  res_interrupt_id second_answer ≠ res_interrupt_id demo_answer.
Proof.
  apply (resumed_interrupt_never_recurs (twice_after 3) (mkResume 3 [demo_answer]) (twice_after 4)
    demo_answer (twice_after 6) (mkResume 6 [second_answer])
    (state_of (reduce_graph_run (Some (twice_after 6)) (CmdResume (mkResume 6 [second_answer]))))
    second_answer).
  - apply (run_all_reachable demo_start (take 3 twice_commands)). vm_compute. reflexivity.
  - vm_compute. reflexivity.
  - by left.
  - apply (run_from_history _ (drop 4 twice_commands)). vm_compute. reflexivity.
  - vm_compute. reflexivity.
  - by left.
Defined.
