(* ===== verification/ConfirmationProofs.v ===== *)
(** * Admission of confirmed successors

    [admit_graph_run_confirmation]: what a persistence layer may return as the
    confirmed state of a command. *)

From Stdlib Require Import ZArith NArith Lia Bool String Strings.Byte.
From stdpp Require Import prelude strings gmap sorting.
From S2P Require Import Prelude Identity Resources ResourceProofs Model Validation Transitions WellFormed Reducer ReducerProofs OperationProofs SettleProofs.

Set Default Goal Selector "!".

(** A publication and a state with every evidence commitment removed. *)
Definition erase_publication (p : GraphPublicationSettlement) : GraphPublicationSettlement :=
  mkPublication (pub_reference p) (pub_commit_revision p) (pub_execution p) None.
Definition erase_evidence (s : GraphRunState) : GraphRunState :=
  s <| st_graph_input_evidence := None |>
    <| st_settled_publications := erase_publication <$> st_settled_publications s |>.

Lemma sorted_key_fmap {A B} `{Cmp B} (key : A → B) (f : A → A) xs :
  (∀ x, key (f x) = key x) → f <$> sorted_key key xs = sorted_key key (f <$> xs).
Proof.
  intros Hk. unfold sorted_key, sort_by. induction xs as [|x xs IH]; cbn; [done|].
  rewrite <-IH. generalize (foldr (insert_by (λ x y, cmp_leb (key x) (key y))) [] xs). intros ys.
  induction ys as [|y ys IHy]; cbn; [done|]. rewrite !Hk. case_match; cbn; [done|]. by rewrite IHy.
Qed.

(** The record of the node a settlement command settles, in the state's superstep. *)
Definition settled_here (s : GraphRunState) (node_id : str) (p : GraphPublicationSettlement) : bool :=
  bool_decide (act_run_id (ref_activation (pub_reference p)) = st_run_id s)
  && (act_superstep (ref_activation (pub_reference p)) =? st_superstep s)%Z
  && bool_decide (act_node_id (ref_activation (pub_reference p)) = node_id).

(** The state without the one commitment [command] leaves to be bound: that of the graph
    input of a start, or of the publication of a settled success. *)
Definition unbound (command : GraphRunCommand) (s : GraphRunState) : GraphRunState :=
  match command with
  | CmdStart c =>
      match start_graph_input_evidence c with
      | None => s <| st_graph_input_evidence := None |>
      | Some _ => s
      end
  | CmdSettle c =>
      match set_outcome c, set_publication_evidence c with
      | SucceededGraphNodeOutcome node_id _, None =>
          s <| st_settled_publications := (λ p, if settled_here s node_id p then erase_publication p else p)
                                            <$> st_settled_publications s |>
      | _, _ => s
      end
  | _ => s
  end.

Lemma erase_unbound command s : erase_evidence (unbound command s) = erase_evidence s.
Proof.
  unfold unbound. repeat case_match; try done. unfold erase_evidence, set_field. cbn. f_equal.
  rewrite <- list_fmap_compose. apply list_fmap_ext. intros _ p _. cbn. by case_match.
Qed.

Lemma settled_fields_unbound s s1 s2 c n routing l1 l2 cursor resources d :
  set_outcome c = SucceededGraphNodeOutcome n routing → set_publication_evidence c = None →
  settled_fields s s1 n (SucceededGraphNode routing) l1 cursor resources d →
  settled_fields s s2 n (SucceededGraphNode routing) l2 cursor resources d →
  (∀ u, st_run_id u = st_run_id s → st_superstep u = st_superstep s →
    (λ p, if settled_here u n p then erase_publication p else p) <$> l1
    = (λ p, if settled_here u n p then erase_publication p else p) <$> l2) →
  unbound (CmdSettle c) s1 = unbound (CmdSettle c) s2.
Proof.
  intros Ho He [] [] Hl. unfold unbound. rewrite Ho, He. pose proof (Hl s1 sf_run_id sf_superstep) as Hl1.
  assert (∀ p, settled_here s2 n p = settled_here s1 n p) as Hh.
  { intros p. unfold settled_here. by rewrite sf_run_id, sf_superstep, sf_run_id0, sf_superstep0. }
  assert ((λ p, if settled_here s2 n p then erase_publication p else p) <$> st_settled_publications s2
    = (λ p, if settled_here s1 n p then erase_publication p else p) <$> st_settled_publications s2) as ->
    by (apply list_fmap_ext; intros _ p _; by rewrite Hh).
  rewrite sf_ledger, sf_ledger0, Hl1. clear Hl Hl1 Hh. destruct s1, s2. unfold set_field. cbn in *. by subst.
Qed.

(** Binding evidence into a settlement only changes the evidence of its publication. *)
Lemma settle_unbound s c n routing ev s1 s2 :
  set_outcome c = SucceededGraphNodeOutcome n routing → set_publication_evidence c = None →
  reduce_graph_run (Some s) (CmdSettle c) = Ok s1 →
  reduce_graph_run (Some s) (CmdSettle (c <| set_publication_evidence := Some ev |>)) = Ok s2 →
  unbound (CmdSettle c) s2 = unbound (CmdSettle c) s1.
Proof.
  intros Hout Hev (_ & _ & u1 & Hu1 & -> & _)%reduce_inv (_ & _ & u2 & Hu2 & -> & _)%reduce_inv.
  apply settle_inv in Hu1 as (_ & _ & _ & x1 & l1 & cur1 & res1 & d1 & Ho1 & Hc1 & Hr1 & Hd1 & ->).
  apply settle_inv in Hu2 as (_ & _ & _ & x2 & l2 & cur2 & res2 & d2 & Ho2 & Hc2 & Hr2 & Hd2 & ->).
  change (settle_config s c = Ok cur2) in Hc2.
  change (settle_resources (st_resources s) (outcome_node_id (set_outcome c)) = Ok res2) in Hr2.
  change (frontier_status (settle_frontier (st_frontier s) (outcome_node_id (set_outcome c)) x2) = Ok d2)
    in Hd2.
  apply settle_outcome_inv in Ho1, Ho2. cbn in Ho2. rewrite Hout in Ho1, Ho2.
  destruct Ho1 as (-> & _ & _ & ->), Ho2 as (-> & _ & _ & ->).
  rewrite Hc1 in Hc2. rewrite Hr1 in Hr2. rewrite Hd1 in Hd2.
  injection Hc2 as <-. injection Hr2 as <-. injection Hd2 as <-. cbn [set_outcome set_field]. rewrite Hout. cbn [outcome_node_id].
  eapply settled_fields_unbound; [done|done|apply settled_state_fields..|]. intros u Hrun Hstep.
  rewrite !(sorted_key_fmap pub_canonical_key) by (intros p; by case_match). rewrite !fmap_app. do 2 f_equal. cbn.
  assert (∀ e, settled_here u n (mkPublication (node_reference s (n, routing)) (set_expected_revision c + 1) (set_execution c) e) = true) as Hh.
  { intros e. unfold settled_here. cbn. rewrite Hrun, Hstep, Z.eqb_refl. by rewrite !bool_decide_true. }
  unfold settled_record. cbn. by rewrite !Hh.
Qed.

Lemma start_unbound c ev s1 s2 :
  start_graph_input_evidence c = None →
  start_graph_run c = Ok s1 →
  start_graph_run (c <| start_graph_input_evidence := Some ev |>) = Ok s2 →
  unbound (CmdStart c) s2 = unbound (CmdStart c) s1.
Proof.
  intros Hev. unfold start_graph_run, unbound. checks. rewrite Hev.
  intros (_ & (cu1 & Hcu1 & (ev1 & _ & [-> _]%validated_wf)%bind_Ok)%bind_Ok).
  intros (_ & (cu2 & Hcu2 & (ev2 & _ & [-> _]%validated_wf)%bind_Ok)%bind_Ok).
  change (start_config_cursor (c <| start_graph_input_evidence := Some ev |>))
    with (start_config_cursor c) in Hcu2.
  change (start_definition_id (c <| start_graph_input_evidence := Some ev |>))
    with (start_definition_id c) in Hcu2.
  change (start_definition_version (c <| start_graph_input_evidence := Some ev |>))
    with (start_definition_version c) in Hcu2.
  rewrite Hcu1 in Hcu2. injection Hcu2 as <-. done.
Qed.

(** What is admitted is the confirmed state, equal to the successor but for the one
    commitment the command leaves open. *)
Lemma confirmation_unbound state command confirmed admitted_ :
  admit_graph_run_confirmation state command confirmed = Ok admitted_ →
  admitted_ = confirmed ∧ wf confirmed
  ∧ ∃ expected, reduce_graph_run state command = Ok expected
      ∧ unbound command confirmed = unbound command expected.
Proof.
  unfold admit_graph_run_confirmation. checks. rewrite validate_graph_run_state_wf.
  intros (Hwf & (expected & Hexp & H)%bind_Ok). case_bool_decide as E.
  { inv_ok. subst. eauto. }
  apply bind_Ok in H as (bound & Hbound & H). apply bind_Ok in H as (rebuilt & Hreb & H).
  case_bool_decide as E'; [|done]. inv_ok. subst. split_and!; [done..|].
  exists expected. split; [done|]. unfold bind_confirmed_evidence in Hbound.
  destruct command as [c| |c| | | | |]; try done.
  - repeat case_match; try done. apply bind_Ok in Hbound as (ev & _ & [= <-]).
    destruct state as [s|]; [done|]. by eapply start_unbound.
  - repeat case_match; try done. apply bind_Ok in Hbound as (ev & _ & [= <-]).
    destruct state as [s|]; [|done]. by eapply settle_unbound.
Qed.

(** In particular they agree in everything but evidence. *)
Lemma confirmation_sound state command confirmed admitted_ :
  admit_graph_run_confirmation state command confirmed = Ok admitted_ →
  admitted_ = confirmed ∧ wf confirmed
  ∧ ∃ expected, reduce_graph_run state command = Ok expected
      ∧ erase_evidence confirmed = erase_evidence expected.
Proof.
  intros (-> & Hwf & expected & Hred & E)%confirmation_unbound. split_and!; [done..|]. exists expected. split; [done|].
  by rewrite <- (erase_unbound command confirmed), E, erase_unbound.
Qed.

(** C38: Confirmation is exact.  The reducer's own successor is always admitted, and
    whatever is admitted is the confirmed state itself, well-formed, and equal to the
    reducer's successor of that very command but for one commitment: that of the graph
    input of a start, or of the publication of a settled success, where the command
    carries none.  All other evidence, and the successor of every other command, is
    confirmed unchanged. *)
Theorem confirmation_exact state command confirmed :
  (reduce_graph_run state command = Ok confirmed →
     admit_graph_run_confirmation state command confirmed = Ok confirmed)
  ∧ (∀ admitted_, admit_graph_run_confirmation state command confirmed = Ok admitted_ →
     admitted_ = confirmed ∧ wf confirmed
     ∧ ∃ expected, reduce_graph_run state command = Ok expected
         ∧ unbound command confirmed = unbound command expected).
Proof.
  split; [|intros r; apply confirmation_unbound].
  intros H. unfold admit_graph_run_confirmation. rewrite H. cbn. rewrite bool_decide_true by done.
  apply seq_Ok; [|done]. apply validate_graph_run_state_wf.
  destruct state as [s|]; [by apply reduce_inv in H as (_ & _ & u & _ & _ & ?)|].
  destruct command; try done. exact (start_inv _ _ H).
Qed.

(** The store bound a digest to the settlement it confirmed. *)
Definition bare_settle : SettleGraphNode :=
  mkSettle 1 (demo_token 1) (SucceededGraphNodeOutcome (lit "a") ContinueGraphRouting) None None.
Definition bound_settle : SettleGraphNode :=
  bare_settle <| set_publication_evidence := Some (mkCommitment (repeat Byte.x00 32)) |>.
Definition confirmed_settle : GraphRunState :=
  state_of (reduce_graph_run (Some (demo_after 1)) (CmdSettle bound_settle)).

Lemma confirmation_exact_witness :
  reduce_graph_run (Some (demo_after 1)) (CmdSettle bare_settle) ≠ Ok confirmed_settle
  ∧ ∃ expected, reduce_graph_run (Some (demo_after 1)) (CmdSettle bare_settle) = Ok expected
      ∧ unbound (CmdSettle bare_settle) confirmed_settle = unbound (CmdSettle bare_settle) expected.
Proof.
  split; [vm_compute; discriminate|].
  apply (proj2 (confirmation_exact (Some (demo_after 1)) (CmdSettle bare_settle) confirmed_settle)
    confirmed_settle). vm_compute. reflexivity.
Defined.
