(* ===== verification/Bdd.v ===== *)
(** * The compiler's BDD manager: [execution/graph/frontier_proof.py], class [_Bdd]

    Every operation takes the manager and returns it updated, caches included.  The
    explicit-stack loops carry fuel; the fuel each operation starts with is computed
    from its arguments and [BddProofs] shows it is always enough. *)

From Stdlib Require Import ZArith NArith Lia Bool String.
From stdpp Require Import prelude strings gmap sorting.
From S2P Require Import Prelude.

Set Default Goal Selector "!".

Inductive BddOperation := AND | OR | XOR.

#[export] Instance bdd_operation_eq_dec : EqDecision BddOperation.
Proof. solve_decision. Defined.
#[export] Instance bdd_operation_countable : Countable BddOperation.
Proof.
  apply (inj_countable' (λ op, match op with AND => 0 | OR => 1 | XOR => 2 end)
    (λ n, match n with 0 => AND | 1 => OR | _ => XOR end)).
  by intros [].
Defined.

Record BddNode := mkBddNode { bn_variable : nat; bn_low : nat; bn_high : nat }.

(** The manager's fields, in the order of [_Bdd.__init__]. *)
Record Bdd := mkBdd {
  bdd_nodes : list (option BddNode);
  bdd_unique : gmap (nat * nat * nat) nat;
  bdd_apply_cache : gmap (BddOperation * nat * nat) nat;
  bdd_not_cache : gmap nat nat;
  bdd_exists_cache : gmap (nat * gset nat) nat;
  bdd_rename_cache : gmap (nat * list (nat * nat)) nat;
  bdd_next_variable : nat
}.

#[export] Instance bdd_eta : Eta Bdd := λ B,
  mkBdd (bdd_nodes B) (bdd_unique B) (bdd_apply_cache B) (bdd_not_cache B) (bdd_exists_cache B)
    (bdd_rename_cache B) (bdd_next_variable B).

(** [_Bdd.__init__]: the two terminals and empty tables. *)
Definition bdd_init : Bdd := mkBdd [None; None] ∅ ∅ ∅ ∅ ∅ 0.

Definition bdd_false : nat := 0.
Definition bdd_true : nat := 1.

(** [_node] *)
Definition bdd_node (B : Bdd) (reference : nat) : result (option BddNode) :=
  list_get (bdd_nodes B) reference.

(** [_mk]: hash-consed, reduced node construction. *)
Definition mk (B : Bdd) (variable low high : nat) : nat * Bdd :=
  if (low =? high)%nat then (low, B) else
  match bdd_unique B !! (variable, low, high) with
  | Some existing => (existing, B)
  | None =>
      let reference := length (bdd_nodes B) in
      (reference, B <| bdd_nodes := bdd_nodes B ++ [Some (mkBddNode variable low high)] |>
                    <| bdd_unique := <[(variable, low, high) := reference]> (bdd_unique B) |>)
  end.

(** [variable]: a fresh decision variable, as a reference. *)
Definition new_variable (B : Bdd) : nat * Bdd :=
  let variable := bdd_next_variable B in
  mk (B <| bdd_next_variable := S variable |>) variable bdd_false bdd_true.

Definition variable_index (B : Bdd) (reference : nat) : result nat :=
  node ← bdd_node B reference;
  match node with
  | Some nd => Ok (bn_variable nd)
  | None => Raise (Exn AssertionError "BDD variable reference must be a non-terminal node")
  end.

(** [_cofactor] *)
Definition cofactor (B : Bdd) (reference variable : nat) : result (nat * nat) :=
  node ← bdd_node B reference;
  match node with
  | Some nd => if (bn_variable nd =? variable)%nat then Ok (bn_low nd, bn_high nd)
               else Ok (reference, reference)
  | None => Ok (reference, reference)
  end.

(** [_apply_terminal] *)
Definition apply_terminal (operation : BddOperation) (first second : nat) : option nat :=
  match operation with
  | AND =>
      if (first =? bdd_false)%nat || (second =? bdd_false)%nat then Some bdd_false
      else if (first =? bdd_true)%nat then Some second
      else if (second =? bdd_true)%nat || (first =? second)%nat then Some first
      else None
  | OR =>
      if (first =? bdd_true)%nat || (second =? bdd_true)%nat then Some bdd_true
      else if (first =? bdd_false)%nat then Some second
      else if (second =? bdd_false)%nat || (first =? second)%nat then Some first
      else None
  | XOR =>
      if (first =? bdd_false)%nat then Some second
      else if (first =? second)%nat then Some bdd_false
      else None
  end.

(** [first, second = second, first] when out of order; also [sorted((x, y))]. *)
Definition ordered (first second : nat) : nat * nat :=
  if (second <? first)%nat then (second, first) else (first, second).

(** [min(node.variable for node in (first, second) if node is not None)] *)
Definition top_variable (first second : option BddNode) : result nat :=
  match first, second with
  | Some f, Some s => Ok (Nat.min (bn_variable f) (bn_variable s))
  | Some f, None => Ok (bn_variable f)
  | None, Some s => Ok (bn_variable s)
  | None, None => Raise (Exn ValueError "min() arg is an empty sequence")
  end.

(** The [while pending] loop of [apply]; the head of the list is the top of the stack. *)
Fixpoint apply_loop (fuel : nat) (operation : BddOperation) (pending : list (nat * nat * bool))
    (B : Bdd) : result Bdd :=
  match pending with
  | [] => Ok B
  | (popped_first, popped_second, expanded) :: rest =>
    match fuel with
    | O => Raise (Exn Diverged "apply")
    | S fuel =>
      let '(current_first, current_second) := ordered popped_first popped_second in
      let current_key := (operation, current_first, current_second) in
      match bdd_apply_cache B !! current_key with
      | Some _ => apply_loop fuel operation rest B
      | None =>
        match apply_terminal operation current_first current_second with
        | Some terminal =>
            apply_loop fuel operation rest
              (B <| bdd_apply_cache := <[current_key := terminal]> (bdd_apply_cache B) |>)
        | None =>
            first_node ← bdd_node B current_first;
            second_node ← bdd_node B current_second;
            variable ← top_variable first_node second_node;
            '(first_low, first_high) ← cofactor B current_first variable;
            '(second_low, second_high) ← cofactor B current_second variable;
            if negb expanded then
              apply_loop fuel operation
                ((first_low, second_low, false) :: (first_high, second_high, false)
                 :: (current_first, current_second, true) :: rest) B
            else
              let '(low_first, low_second) := ordered first_low second_low in
              let '(high_first, high_second) := ordered first_high second_high in
              low ← dict_get (bdd_apply_cache B) (operation, low_first, low_second);
              high ← dict_get (bdd_apply_cache B) (operation, high_first, high_second);
              let '(result, B') := mk B variable low high in
              apply_loop fuel operation rest
                (B' <| bdd_apply_cache := <[current_key := result]> (bdd_apply_cache B') |>)
        end
      end
    end
  end.

(** Iterations that suffice: three per pair of smaller references, and one more. *)
Definition apply_fuel (first second : nat) : nat :=
  1 + 3 * (S (first + second) * S (first + second)).

Definition apply (B : Bdd) (operation : BddOperation) (first second : nat) : result (nat * Bdd) :=
  let '(first, second) := ordered first second in
  let key := (operation, first, second) in
  match bdd_apply_cache B !! key with
  | Some cached => Ok (cached, B)
  | None =>
      B' ← apply_loop (apply_fuel first second) operation [(first, second, false)] B;
      value ← dict_get (bdd_apply_cache B') key;
      Ok (value, B')
  end.

(** One round of pairwise combination in [conjunction] and [disjunction]. *)
Fixpoint combine_pairs (operation : BddOperation) (pending : list nat) (B : Bdd)
    : result (list nat * Bdd) :=
  match pending with
  | x :: y :: rest =>
      '(value, B1) ← apply B operation x y;
      '(values, B2) ← combine_pairs operation rest B1;
      Ok (value :: values, B2)
  | odd => Ok (odd, B)
  end.

(** [while len(pending) > 1: ...]; then [pending[0]]. *)
Fixpoint combine_all (fuel : nat) (operation : BddOperation) (pending : list nat) (B : Bdd)
    : result (nat * Bdd) :=
  match pending with
  | [] => Raise (Exn IndexError "list index out of range")
  | [value] => Ok (value, B)
  | _ =>
      match fuel with
      | O => Raise (Exn Diverged "combine")
      | S fuel => '(pending', B') ← combine_pairs operation pending B;
                  combine_all fuel operation pending' B'
      end
  end.

Definition conjunction (B : Bdd) (values : list nat) : result (nat * Bdd) :=
  if is_nil values then Ok (bdd_true, B) else combine_all (length values) AND values B.
Definition disjunction (B : Bdd) (values : list nat) : result (nat * Bdd) :=
  if is_nil values then Ok (bdd_false, B) else combine_all (length values) OR values B.

(** The post-order loop [negate], [exists] and [rename] share: [lookup] consults the
    operation's own cache, [finish] computes and caches one node's result. *)
Fixpoint walk_loop (fuel : nat) (lookup : Bdd → nat → option nat)
    (finish : Bdd → nat → BddNode → nat → nat → result (nat * Bdd))
    (pending : list (nat * bool)) (values : gmap nat nat) (B : Bdd)
    : result (gmap nat nat * Bdd) :=
  match pending with
  | [] => Ok (values, B)
  | (current, expanded) :: rest =>
    match fuel with
    | O => Raise (Exn Diverged "walk")
    | S fuel =>
      match values !! current with
      | Some _ => walk_loop fuel lookup finish rest values B
      | None =>
        match lookup B current with
        | Some cached => walk_loop fuel lookup finish rest (<[current := cached]> values) B
        | None =>
            node ← bdd_node B current;
            match node with
            | None => Raise (Exn AssertionError "")
            | Some nd =>
                if negb expanded then
                  walk_loop fuel lookup finish
                    ((bn_low nd, false) :: (bn_high nd, false) :: (current, true) :: rest) values B
                else
                  low ← dict_get values (bn_low nd);
                  high ← dict_get values (bn_high nd);
                  '(result, B') ← finish B current nd low high;
                  walk_loop fuel lookup finish rest (<[current := result]> values) B'
            end
        end
      end
    end
  end.

Definition walk_fuel (reference : nat) : nat := 1 + 3 * S reference.

(** The [values] dicts the three operations start from. *)
Definition swapped_terminals : gmap nat nat := {[bdd_false := bdd_true; bdd_true := bdd_false]}.
Definition kept_terminals : gmap nat nat := {[bdd_false := bdd_false; bdd_true := bdd_true]}.

Definition walk (B : Bdd) (lookup : Bdd → nat → option nat)
    (finish : Bdd → nat → BddNode → nat → nat → result (nat * Bdd))
    (values : gmap nat nat) (reference : nat) : result (nat * Bdd) :=
  '(values, B') ← walk_loop (walk_fuel reference) lookup finish [(reference, false)] values B;
  value ← dict_get values reference;
  Ok (value, B').

(** The result of one node in [negate]. *)
Definition negate_node (B : Bdd) (current : nat) (node : BddNode) (low high : nat)
    : result (nat * Bdd) :=
  let '(result, B') := mk B (bn_variable node) low high in
  Ok (result, B' <| bdd_not_cache := <[current := result]> (bdd_not_cache B') |>).

Definition negate (B : Bdd) (reference : nat) : result (nat * Bdd) :=
  match bdd_not_cache B !! reference with
  | Some cached => Ok (cached, B)
  | None => walk B (λ B current, bdd_not_cache B !! current) negate_node swapped_terminals reference
  end.

Definition equivalence (B : Bdd) (first second : nat) : result (nat * Bdd) :=
  '(difference, B') ← apply B XOR first second;
  negate B' difference.

Definition ite (B : Bdd) (condition when_true when_false : nat) : result (nat * Bdd) :=
  '(yes, B1) ← apply B AND condition when_true;
  '(negated, B2) ← negate B1 condition;
  '(no, B3) ← apply B2 AND negated when_false;
  apply B3 OR yes no.

(** The result of one node in [exists]. *)
Definition exists_node (variables : gset nat) (B : Bdd) (current : nat) (node : BddNode)
    (low high : nat) : result (nat * Bdd) :=
  '(result, B') ← (if bool_decide (bn_variable node ∈ variables)
                   then apply B OR low high else Ok (mk B (bn_variable node) low high));
  Ok (result, B' <| bdd_exists_cache := <[(current, variables) := result]> (bdd_exists_cache B') |>).

(** [exists] *)
Definition exists_ (B : Bdd) (reference : nat) (variables : gset nat) : result (nat * Bdd) :=
  if (reference <? 2)%nat || bool_decide (variables = ∅) then Ok (reference, B) else
  match bdd_exists_cache B !! (reference, variables) with
  | Some cached => Ok (cached, B)
  | None => walk B (λ B current, bdd_exists_cache B !! (current, variables))
              (exists_node variables) kept_terminals reference
  end.

(** [tuple(sorted(mapping.items()))] *)
Definition frozen_mapping (mapping : gmap nat nat) : list (nat * nat) :=
  sorted (map_to_list mapping).

(** The result of one node in [rename]. *)
Definition rename_node (mapping : gmap nat nat) (B : Bdd) (current : nat) (node : BddNode)
    (low high : nat) : result (nat * Bdd) :=
  let variable := default (bn_variable node) (mapping !! bn_variable node) in
  let '(decision, B1) := mk B variable bdd_false bdd_true in
  '(result, B2) ← ite B1 decision high low;
  Ok (result, B2 <| bdd_rename_cache :=
                      <[(current, frozen_mapping mapping) := result]> (bdd_rename_cache B2) |>).

Definition rename (B : Bdd) (reference : nat) (mapping : gmap nat nat) : result (nat * Bdd) :=
  if (reference <? 2)%nat || bool_decide (mapping = ∅) then Ok (reference, B) else
  match bdd_rename_cache B !! (reference, frozen_mapping mapping) with
  | Some cached => Ok (cached, B)
  | None => walk B (λ B current, bdd_rename_cache B !! (current, frozen_mapping mapping))
              (rename_node mapping) kept_terminals reference
  end.

Definition satisfiable (B : Bdd) (reference : nat) : bool := negb (reference =? bdd_false)%nat.

(* ------------------------------------------------------------------ *)
(** ** Meaning of a reference *)

(** The Boolean function a reference denotes.  Children precede their parents, so the
    reference itself bounds the descent. *)
Fixpoint eval_at (fuel : nat) (nodes : list (option BddNode)) (reference : nat) (ρ : nat → bool)
    : bool :=
  match fuel with
  | O => false
  | S fuel =>
      match nodes !! reference with
      | Some (Some nd) =>
          if ρ (bn_variable nd) then eval_at fuel nodes (bn_high nd) ρ
          else eval_at fuel nodes (bn_low nd) ρ
      | _ => (reference =? bdd_true)%nat
      end
  end.
Definition eval (B : Bdd) (reference : nat) (ρ : nat → bool) : bool :=
  eval_at (S reference) (bdd_nodes B) reference ρ.

Definition denote_operation (operation : BddOperation) : bool → bool → bool :=
  match operation with AND => andb | OR => orb | XOR => xorb end.
