(* ===== verification/BddProofs.v ===== *)
(** * Correctness of the BDD manager

    Every operation terminates within its computed fuel, raises no exception on valid
    references, keeps the manager's invariant and denotes the Boolean operation it is
    named after; references are canonical, so [satisfiable] and reference equality decide
    satisfiability and equivalence. *)

From Stdlib Require Import ZArith NArith Lia Bool String.
From stdpp Require Import prelude strings gmap sorting.
From S2P Require Import Prelude Bdd.

Set Default Goal Selector "!".

(* ------------------------------------------------------------------ *)
(** ** Structure of the node table *)

Definition valid (B : Bdd) (r : nat) : Prop := r < length (bdd_nodes B).
(** Every variable a reference tests comes after [v]. *)
Definition above (B : Bdd) (v r : nat) : Prop :=
  ∀ nd, bdd_nodes B !! r = Some (Some nd) → v < bn_variable nd.
(** The reference tests no variable before [v]. *)
Definition from (B : Bdd) (v r : nat) : Prop :=
  ∀ nd, bdd_nodes B !! r = Some (Some nd) → v ≤ bn_variable nd.

Record node_shape (B : Bdd) (r : nat) (nd : BddNode) : Prop := {
  ns_low : bn_low nd < r;
  ns_high : bn_high nd < r;
  ns_reduced : bn_low nd ≠ bn_high nd;
  ns_low_above : above B (bn_variable nd) (bn_low nd);
  ns_high_above : above B (bn_variable nd) (bn_high nd)
}.

(** Terminals first, then reduced, ordered, hash-consed nodes. *)
Record shape (B : Bdd) : Prop := {
  sh_false : bdd_nodes B !! 0 = Some None;
  sh_true : bdd_nodes B !! 1 = Some None;
  sh_some : ∀ r, 2 ≤ r → valid B r → ∃ nd, bdd_nodes B !! r = Some (Some nd);
  sh_node : ∀ r nd, bdd_nodes B !! r = Some (Some nd) → node_shape B r nd;
  sh_unique : ∀ v l h r,
    bdd_unique B !! (v, l, h) = Some r ↔ bdd_nodes B !! r = Some (Some (mkBddNode v l h))
}.

(** The node table only grows. *)
Definition grows (B B' : Bdd) : Prop := bdd_nodes B `prefix_of` bdd_nodes B'.

#[export] Instance grows_preorder : PreOrder grows.
Proof. split; [intros B; by unfold grows|intros B1 B2 B3; unfold grows; apply transitivity]. Qed.

Lemma grows_lookup B B' r x : grows B B' → bdd_nodes B !! r = Some x → bdd_nodes B' !! r = Some x.
Proof. intros. by eapply prefix_lookup_Some. Qed.

Lemma grows_lookup_valid B B' r :
  grows B B' → valid B r → bdd_nodes B' !! r = bdd_nodes B !! r.
Proof.
  intros Hg Hv. destruct (lookup_lt_is_Some_2 _ _ Hv) as [x Hx]. rewrite Hx.
  by eapply grows_lookup.
Qed.

Lemma valid_grows B B' r : grows B B' → valid B r → valid B' r.
Proof. unfold valid. intros Hg%prefix_length. lia. Qed.

Lemma above_grows B B' v r : grows B B' → valid B r → above B v r → above B' v r.
Proof. intros Hg Hv Ha nd. rewrite (grows_lookup_valid B B') by done. apply Ha. Qed.

Lemma above_weaken B v w r : w ≤ v → above B v r → above B w r.
Proof. intros Hle Ha nd Hnd. specialize (Ha nd Hnd). lia. Qed.

Lemma lookup_valid B r x : bdd_nodes B !! r = Some x → valid B r.
Proof. apply lookup_lt_Some. Qed.

#[export] Hint Resolve valid_grows above_grows lookup_valid : bdd.

Section shape_facts.
Context (B : Bdd) (Hsh : shape B).

Lemma valid_terminal r : r < 2 → valid B r.
Proof. pose proof (lookup_lt_Some _ _ _ (sh_true B Hsh)). unfold valid. lia. Qed.

Lemma above_terminal v r : r < 2 → above B v r.
Proof.
  intros Hr nd Hnd. destruct r as [|[|]]; [|..|lia]; pose proof (sh_false B Hsh);
    pose proof (sh_true B Hsh); congruence.
Qed.

Lemma node_ge r nd : bdd_nodes B !! r = Some (Some nd) → 2 ≤ r.
Proof.
  intros Hnd. pose proof (sh_false B Hsh). pose proof (sh_true B Hsh).
  destruct r as [|[|]]; [congruence..|lia].
Qed.

Lemma lookup_cases r :
  valid B r → (bdd_nodes B !! r = Some None ∧ r < 2) ∨ ∃ nd, bdd_nodes B !! r = Some (Some nd).
Proof.
  intros Hv. destruct (decide (2 ≤ r)) as [|Hlt]; [right; by apply sh_some|left].
  split; [|lia]. destruct r as [|[|]]; [apply Hsh..|lia].
Qed.

Lemma child_valid r nd :
  bdd_nodes B !! r = Some (Some nd) → valid B (bn_low nd) ∧ valid B (bn_high nd).
Proof.
  intros Hnd. pose proof (lookup_valid _ _ _ Hnd). destruct (sh_node B Hsh r nd Hnd).
  unfold valid in *. lia.
Qed.

Lemma eval_at_enough r : ∀ k ρ, valid B r → r < k → eval_at k (bdd_nodes B) r ρ = eval B r ρ.
Proof.
  induction r as [r IH] using lt_wf_ind. intros [|k] ρ Hv Hk; [lia|].
  unfold eval. cbn [eval_at]. destruct (bdd_nodes B !! r) as [[nd|]|] eqn:Hnd; try done.
  destruct (child_valid r nd Hnd), (sh_node B Hsh r nd Hnd).
  rewrite (IH (bn_high nd)), (IH (bn_low nd)) by (done || lia).
  rewrite <-(IH (bn_high nd) ltac:(lia) r), <-(IH (bn_low nd) ltac:(lia) r) by (done || lia). done.
Qed.

Lemma eval_false ρ : eval B 0 ρ = false.
Proof. unfold eval. cbn. by rewrite (sh_false B Hsh). Qed.
Lemma eval_true ρ : eval B 1 ρ = true.
Proof. unfold eval. cbn. by rewrite (sh_true B Hsh). Qed.
Lemma eval_node r nd ρ :
  bdd_nodes B !! r = Some (Some nd) →
  eval B r ρ = if ρ (bn_variable nd) then eval B (bn_high nd) ρ else eval B (bn_low nd) ρ.
Proof.
  intros Hnd. unfold eval at 1. cbn [eval_at]. rewrite Hnd.
  destruct (child_valid r nd Hnd), (sh_node B Hsh r nd Hnd). by rewrite !eval_at_enough.
Qed.

Lemma eval_grows B' r ρ : grows B B' → valid B r → eval B' r ρ = eval B r ρ.
Proof.
  intros Hg. unfold eval. generalize (S r) as k. intros k. revert r.
  induction k as [|k IH]; intros r Hv; cbn; [done|].
  rewrite (grows_lookup_valid B B') by done.
  destruct (bdd_nodes B !! r) as [[nd|]|] eqn:Hnd; try done.
  destruct (child_valid r nd Hnd). by rewrite !IH.
Qed.

(** A reference only depends on the variables it may test. *)
Lemma eval_agree r v ρ ρ' :
  valid B r → above B v r → (∀ x, v < x → ρ x = ρ' x) → eval B r ρ = eval B r ρ'.
Proof.
  revert v. induction r as [r IH] using lt_wf_ind. intros v Hv Ha Heq.
  destruct (lookup_cases r Hv) as [[Hnd Hr]|[nd Hnd]].
  - destruct r as [|[|]]; [by rewrite !eval_false|by rewrite !eval_true|lia].
  - rewrite !(eval_node r nd) by done. specialize (Ha nd Hnd). rewrite (Heq _ Ha).
    destruct (child_valid r nd Hnd), (sh_node B Hsh r nd Hnd).
    assert (∀ x, bn_variable nd < x → ρ x = ρ' x) by (intros; apply Heq; lia).
    case_match; eapply IH; eauto.
Qed.

Lemma eval_ext r ρ ρ' : (∀ x, ρ x = ρ' x) → eval B r ρ = eval B r ρ'.
Proof.
  intros Heq. unfold eval. generalize (S r) as k. intros k. revert r.
  induction k as [|k IH]; intros r; cbn; [done|]. repeat case_match; try done; rewrite ?Heq in *; congruence || auto.
Qed.
End shape_facts.

(* ------------------------------------------------------------------ *)
(** ** Cofactors and canonicity *)

Definition update (ρ : nat → bool) (v : nat) (b : bool) : nat → bool :=
  λ x, if decide (x = v) then b else ρ x.

Lemma update_same ρ v b : update ρ v b v = b.
Proof. unfold update. by rewrite decide_True. Qed.

(** The two halves of [r] with respect to [v]. *)
Record cofactors (B : Bdd) (r v lo hi : nat) : Prop := {
  cf_lo : valid B lo;
  cf_hi : valid B hi;
  cf_lo_above : above B v lo;
  cf_hi_above : above B v hi;
  cf_lo_le : lo ≤ r;
  cf_hi_le : hi ≤ r;
  cf_eval : ∀ ρ, eval B r ρ = if ρ v then eval B hi ρ else eval B lo ρ
}.

Lemma cofactor_spec B r v :
  shape B → valid B r → from B v r →
  ∃ lo hi, cofactor B r v = Ok (lo, hi) ∧ cofactors B r v lo hi
    ∧ ((∃ nd, bdd_nodes B !! r = Some (Some nd) ∧ bn_variable nd = v ∧ lo = bn_low nd ∧ hi = bn_high nd)
       ∨ (lo = r ∧ hi = r ∧ above B v r)).
Proof.
  intros Hsh Hv Hfrom. unfold cofactor, bdd_node, list_get.
  destruct (lookup_cases B Hsh r Hv) as [[Hnd Hr]|[nd Hnd]]; rewrite Hnd; cbn.
  - assert (above B v r) by (by apply above_terminal). exists r, r. split_and!; [done| |auto].
    split; try done. intros ρ. by case_match.
  - destruct (Nat.eqb_spec (bn_variable nd) v) as [<-|Hne].
    + destruct (child_valid B Hsh r nd Hnd), (sh_node B Hsh r nd Hnd).
      exists (bn_low nd), (bn_high nd). split_and!; [done| |left; eauto].
      split; try done; [lia..|]. intros ρ. by apply eval_node.
    + assert (above B v r) as Ha. { intros nd' Hnd'. specialize (Hfrom nd' Hnd'). simplify_eq. lia. }
      exists r, r. split_and!; [done| |auto]. split; try done. intros ρ. by case_match.
Qed.

Lemma cofactors_low B r v lo hi ρ :
  shape B → cofactors B r v lo hi → eval B lo ρ = eval B r (update ρ v false).
Proof.
  intros Hsh [? ? ? ? ? ? He]. rewrite He, update_same. apply (eval_agree B Hsh _ v); [done..|].
  intros x Hx. unfold update. rewrite decide_False by lia. done.
Qed.
Lemma cofactors_high B r v lo hi ρ :
  shape B → cofactors B r v lo hi → eval B hi ρ = eval B r (update ρ v true).
Proof.
  intros Hsh [? ? ? ? ? ? He]. rewrite He, update_same. apply (eval_agree B Hsh _ v); [done..|].
  intros x Hx. unfold update. rewrite decide_False by lia. done.
Qed.

(** The variable [apply] splits on. *)
Lemma top_variable_spec B a b :
  shape B → valid B a → valid B b → 2 ≤ a ∨ 2 ≤ b →
  ∃ na nb v, bdd_node B a = Ok na ∧ bdd_node B b = Ok nb ∧ top_variable na nb = Ok v
    ∧ from B v a ∧ from B v b
    ∧ ((∃ nd, bdd_nodes B !! a = Some (Some nd) ∧ bn_variable nd = v)
       ∨ (∃ nd, bdd_nodes B !! b = Some (Some nd) ∧ bn_variable nd = v)).
Proof.
  intros Hsh Ha Hb Hge. unfold bdd_node.
  destruct (lookup_cases B Hsh a Ha) as [[Hna Hra]|[na Hna]],
    (lookup_cases B Hsh b Hb) as [[Hnb Hrb]|[nb Hnb]]; [lia|..];
    unfold list_get, from; rewrite Hna, Hnb; cbn.
  - exists None, (Some nb), (bn_variable nb). naive_solver.
  - exists (Some na), None, (bn_variable na). naive_solver.
  - exists (Some na), (Some nb), (Nat.min (bn_variable na) (bn_variable nb)).
    split_and!; try done; [intros ? [= <-]; lia..|].
    destruct (Nat.min_spec (bn_variable na) (bn_variable nb)) as [[_ ->]|[_ ->]]; eauto.
Qed.

(** Two valid references that denote the same function are equal. *)
Lemma equal_references B a b :
  shape B → valid B a → valid B b → (∀ ρ, eval B a ρ = eval B b ρ) → a = b.
Proof.
  intros Hsh. remember (a + b) as n eqn:Hn. revert a b Hn.
  induction n as [n IH] using lt_wf_ind. intros a b -> Ha Hb Heq.
  destruct (decide (2 ≤ a ∨ 2 ≤ b)) as [Hge|Hlt].
  2: { specialize (Heq (λ _, false)).
       destruct a as [|[|]], b as [|[|]]; try lia; try done;
         rewrite eval_false, eval_true in Heq by done; done. }
  destruct (top_variable_spec B a b) as (_ & _ & v & _ & _ & _ & Hfa & Hfb & Htop); [done..|].
  destruct (cofactor_spec B a v) as (al & ah & _ & Hca & Hia); [done..|].
  destruct (cofactor_spec B b v) as (bl & bh & _ & Hcb & Hib); [done..|].
  assert (al + bl < a + b ∧ ah + bh < a + b) as [Hl Hh].
  { destruct Hca, Hcb.
    destruct Hia as [(na & Hna & _ & -> & ->)|(-> & -> & Haa)];
      [destruct (sh_node B Hsh a na Hna); lia|].
    destruct Hib as [(nb & Hnb & _ & -> & ->)|(-> & -> & Hab)];
      [destruct (sh_node B Hsh b nb Hnb); lia|].
    exfalso. destruct Htop as [(nd & Hnd & <-)|(nd & Hnd & <-)];
      [specialize (Haa nd Hnd)|specialize (Hab nd Hnd)]; lia. }
  assert (al = bl) as <-.
  { eapply IH; [exact Hl|done|apply Hca|apply Hcb|]. intros ρ.
    by rewrite (cofactors_low B a v al ah), (cofactors_low B b v bl bh). }
  assert (ah = bh) as <-.
  { eapply IH; [exact Hh|done|apply Hca|apply Hcb|]. intros ρ.
    by rewrite (cofactors_high B a v al ah), (cofactors_high B b v al bh). }
  destruct Hia as [(na & Hna & Hva & El & Eh)|(El & Eh & Haa)],
    Hib as [(nb & Hnb & Hvb & El' & Eh')|(El' & Eh' & Hab)].
  - assert (na = nb) as -> by (destruct na, nb; cbn in *; congruence). destruct nb as [x y z].
    apply (sh_unique B Hsh) in Hna, Hnb. congruence.
  - destruct (sh_node B Hsh a na Hna). congruence.
  - destruct (sh_node B Hsh b nb Hnb). congruence.
  - congruence.
Qed.

(** A reference other than the false terminal has a satisfying assignment. *)
Lemma satisfying_exists B a :
  shape B → valid B a → a ≠ 0 → ∃ ρ, eval B a ρ = true.
Proof.
  intros Hsh. induction a as [a IH] using lt_wf_ind. intros Ha Hne.
  destruct (lookup_cases B Hsh a Ha) as [[_ Hlt]|[nd Hnd]].
  { assert (a = 1) as -> by lia. exists (λ _, true). by apply eval_true. }
  destruct (child_valid B Hsh a nd Hnd) as [Vl Vh].
  destruct (sh_node B Hsh a nd Hnd) as [Hl Hh Hr Al Ah].
  destruct (decide (bn_high nd = 0)) as [E|Hhne].
  - destruct (IH (bn_low nd)) as [ρ Hρ]; [done..|congruence|].
    exists (update ρ (bn_variable nd) false). rewrite (eval_node B Hsh a nd), update_same by done.
    rewrite <-Hρ. apply (eval_agree B Hsh _ (bn_variable nd)); [done..|].
    intros x Hx. unfold update. by rewrite decide_False by lia.
  - destruct (IH (bn_high nd)) as [ρ Hρ]; [done..|].
    exists (update ρ (bn_variable nd) true). rewrite (eval_node B Hsh a nd), update_same by done.
    rewrite <-Hρ. apply (eval_agree B Hsh _ (bn_variable nd)); [done..|].
    intros x Hx. unfold update. by rewrite decide_False by lia.
Qed.

(* ------------------------------------------------------------------ *)
(** ** Node construction *)

Lemma grows_snoc B B' x : bdd_nodes B' = bdd_nodes B ++ [x] → grows B B'.
Proof. intros E. unfold grows. rewrite E. by apply prefix_app_r. Qed.

(** What [mk] returns. *)
Record mk_result (B : Bdd) (v l h r : nat) (B' : Bdd) : Prop := {
  mr_shape : shape B';
  mr_grows : grows B B';
  mr_valid : valid B' r;
  mr_eval : ∀ ρ, eval B' r ρ = if ρ v then eval B h ρ else eval B l ρ;
  mr_above : ∀ w, w < v → above B' w r;
  mr_apply : bdd_apply_cache B' = bdd_apply_cache B;
  mr_not : bdd_not_cache B' = bdd_not_cache B;
  mr_exists : bdd_exists_cache B' = bdd_exists_cache B;
  mr_rename : bdd_rename_cache B' = bdd_rename_cache B
}.

Lemma mk_fresh_shape B v l h B' :
  shape B → valid B l → valid B h → above B v l → above B v h → l ≠ h →
  bdd_unique B !! (v, l, h) = None →
  bdd_nodes B' = bdd_nodes B ++ [Some (mkBddNode v l h)] →
  bdd_unique B' = <[(v, l, h) := length (bdd_nodes B)]> (bdd_unique B) →
  shape B'.
Proof.
  intros Hsh Hl Hh Hal Hah Hne Hu En Eu. pose proof (grows_snoc B B' _ En) as Hg.
  assert (∀ r nd, bdd_nodes B' !! r = Some (Some nd) →
    bdd_nodes B !! r = Some (Some nd) ∨ (r = length (bdd_nodes B) ∧ nd = mkBddNode v l h)) as Hcase.
  { intros r nd. rewrite En, lookup_app. destruct (bdd_nodes B !! r) as [x|] eqn:E; [naive_solver|].
    apply lookup_ge_None in E. intros [Hr [= <-]]%list_lookup_singleton_Some. right. split; [lia|done]. }
  assert (bdd_nodes B' !! length (bdd_nodes B) = Some (Some (mkBddNode v l h))) as Hnew.
  { rewrite En, lookup_app_r, Nat.sub_diag by lia. done. }
  split.
  - by eapply grows_lookup, Hsh.
  - by eapply grows_lookup, Hsh.
  - intros r Hr Hv. unfold valid in Hv. rewrite En, length_app in Hv. cbn in Hv.
    destruct (decide (r = length (bdd_nodes B))) as [->|]; [eauto|].
    destruct (sh_some B Hsh r Hr) as [nd Hnd]; [unfold valid; lia|]. exists nd. by eapply grows_lookup.
  - intros r nd [Hnd|[-> ->]]%Hcase.
    + destruct (child_valid B Hsh r nd Hnd), (sh_node B Hsh r nd Hnd). split; eauto with bdd.
    + unfold valid in *. split; cbn; eauto with bdd.
  - intros v' l' h' r. rewrite Eu. destruct (decide ((v', l', h') = (v, l, h))) as [[= -> -> ->]|Hk].
    + rewrite lookup_insert_eq. split; [by intros [= <-]|].
      intros [Hnd|[-> _]]%Hcase; [|done]. apply (sh_unique B Hsh) in Hnd. congruence.
    + rewrite lookup_insert_ne, (sh_unique B Hsh) by congruence. split.
      * by apply grows_lookup.
      * intros [?|[_ [= -> -> ->]]]%Hcase; done.
Qed.

Lemma mk_spec B v l h r B' :
  shape B → valid B l → valid B h → above B v l → above B v h →
  mk B v l h = (r, B') → mk_result B v l h r B'.
Proof.
  intros Hsh Hl Hh Hal Hah. unfold mk. destruct (Nat.eqb_spec l h) as [<-|Hne].
  { intros [= <- <-]. split; try done; [intros ρ; by case_match|].
    intros w Hw. eapply above_weaken; [|done]. lia. }
  destruct (bdd_unique B !! (v, l, h)) as [e|] eqn:Hu.
  - intros [= <- <-]. apply (sh_unique B Hsh) in Hu. split; try done.
    + by eapply lookup_valid.
    + intros ρ. by rewrite (eval_node B Hsh e _ ρ Hu).
    + intros w Hw nd Hnd. by simplify_eq/=.
  - intros [= <- <-].
    match goal with |- mk_result _ _ _ _ _ ?X => set (B' := X) end.
    assert (bdd_nodes B' = bdd_nodes B ++ [Some (mkBddNode v l h)]) as En by done.
    assert (shape B') as Hsh' by (by apply (mk_fresh_shape B v l h B')).
    pose proof (grows_snoc B B' _ En) as Hg.
    assert (bdd_nodes B' !! length (bdd_nodes B) = Some (Some (mkBddNode v l h))) as Hnew.
    { rewrite En, lookup_app_r, Nat.sub_diag by lia. done. }
    split; try done.
    + by eapply lookup_valid.
    + intros ρ. rewrite (eval_node B' Hsh' _ _ ρ Hnew). cbn [bn_variable bn_low bn_high]. by rewrite !(eval_grows B Hsh B').
    + intros w Hw nd Hnd. by simplify_eq/=.
Qed.

(* ------------------------------------------------------------------ *)
(** ** The manager's invariant: every cached result is right *)

Record apply_post (B : Bdd) (op : BddOperation) (a b r : nat) : Prop := {
  ap_first : valid B a;
  ap_second : valid B b;
  ap_valid : valid B r;
  ap_eval : ∀ ρ, eval B r ρ = denote_operation op (eval B a ρ) (eval B b ρ);
  ap_above : ∀ v, above B v a → above B v b → above B v r
}.

(** A unary operation whose meaning is the transformer [F]. *)
Record unary_post (F : ((nat → bool) → bool) → (nat → bool) → Prop) (ordered_ : bool) (B : Bdd)
    (a r : nat) : Prop := {
  up_arg : valid B a;
  up_valid : valid B r;
  up_eval : ∀ ρ, eval B r ρ = true ↔ F (eval B a) ρ;
  up_above : ordered_ = true → ∀ v, above B v a → above B v r
}.

Definition not_meaning (f : (nat → bool) → bool) (ρ : nat → bool) : Prop := f ρ = false.
Definition exists_meaning (vs : gset nat) (f : (nat → bool) → bool) (ρ : nat → bool) : Prop :=
  ∃ ρ', (∀ x, x ∉ vs → ρ' x = ρ x) ∧ f ρ' = true.
Definition renamed (m : gmap nat nat) (ρ : nat → bool) : nat → bool := λ x, ρ (default x (m !! x)).
Definition rename_meaning (m : gmap nat nat) (f : (nat → bool) → bool) (ρ : nat → bool) : Prop :=
  f (renamed m ρ) = true.

Record ok (B : Bdd) : Prop := {
  ok_shape : shape B;
  ok_apply : ∀ op a b r, bdd_apply_cache B !! (op, a, b) = Some r → apply_post B op a b r;
  ok_not : ∀ a r, bdd_not_cache B !! a = Some r → unary_post not_meaning true B a r;
  ok_exists : ∀ a vs r, bdd_exists_cache B !! (a, vs) = Some r →
    unary_post (exists_meaning vs) true B a r;
  ok_rename : ∀ a m r, bdd_rename_cache B !! (a, frozen_mapping m) = Some r →
    unary_post (rename_meaning m) false B a r
}.

Lemma apply_post_grows B B' op a b r :
  shape B → grows B B' → apply_post B op a b r → apply_post B' op a b r.
Proof.
  intros Hsh Hg [Ha Hb Hr He Hab]. split; eauto with bdd.
  - intros ρ. by rewrite !(eval_grows B Hsh B').
  - intros v Hva Hvb. apply (above_grows B); [done..|]. apply Hab; intros nd Hnd.
    + apply Hva. by eapply grows_lookup.
    + apply Hvb. by eapply grows_lookup.
Qed.

(** The meaning [F f] only depends on the values of [f]. *)
Definition respectful_meaning (F : ((nat → bool) → bool) → (nat → bool) → Prop) : Prop :=
  ∀ f g ρ, (∀ ρ, f ρ = g ρ) → F f ρ → F g ρ.

Lemma not_respectful : respectful_meaning not_meaning.
Proof. unfold respectful_meaning, not_meaning. congruence. Qed.
Lemma exists_respectful vs : respectful_meaning (exists_meaning vs).
Proof. intros f g ρ Hfg (ρ' & ? & ?). exists ρ'. by rewrite <-Hfg. Qed.
Lemma rename_respectful m : respectful_meaning (rename_meaning m).
Proof. intros f g ρ Hfg. unfold rename_meaning. by rewrite <-Hfg. Qed.

Lemma unary_post_grows F o B B' a r :
  respectful_meaning F → shape B → grows B B' → unary_post F o B a r → unary_post F o B' a r.
Proof.
  intros HF Hsh Hg [Ha Hr He Hab]. split; eauto with bdd.
  - intros ρ. rewrite (eval_grows B Hsh B'), He by done.
    split; intros H; (eapply HF; [|exact H]); intros ρ'; by rewrite (eval_grows B Hsh B').
  - intros Ho v Hva. apply (above_grows B); [done..|]. apply Hab; [done|]. intros nd Hnd.
    apply Hva. by eapply grows_lookup.
Qed.

(** A later manager whose cache entries are old ones or right answers. *)
Lemma ok_step B B' :
  ok B → shape B' → grows B B' →
  (∀ op a b r, bdd_apply_cache B' !! (op, a, b) = Some r →
     bdd_apply_cache B !! (op, a, b) = Some r ∨ apply_post B op a b r) →
  (∀ a r, bdd_not_cache B' !! a = Some r →
     bdd_not_cache B !! a = Some r ∨ unary_post not_meaning true B a r) →
  (∀ a vs r, bdd_exists_cache B' !! (a, vs) = Some r →
     bdd_exists_cache B !! (a, vs) = Some r ∨ unary_post (exists_meaning vs) true B a r) →
  (∀ a m r, bdd_rename_cache B' !! (a, frozen_mapping m) = Some r →
     bdd_rename_cache B !! (a, frozen_mapping m) = Some r
     ∨ unary_post (rename_meaning m) false B a r) →
  ok B'.
Proof.
  intros [Hsh Hap Hno Hex Hre] Hsh' Hg H1 H2 H3 H4. split; [done|..].
  - intros op a b r Hr. apply (apply_post_grows B); [done..|]. destruct (H1 _ _ _ _ Hr); auto.
  - intros a r Hr. apply (unary_post_grows _ _ B); [apply not_respectful|done..|].
    destruct (H2 _ _ Hr); auto.
  - intros a vs r Hr. apply (unary_post_grows _ _ B); [apply exists_respectful|done..|].
    destruct (H3 _ _ _ Hr); auto.
  - intros a m r Hr. apply (unary_post_grows _ _ B); [apply rename_respectful|done..|].
    destruct (H4 _ _ _ Hr); auto.
Qed.

Lemma mk_ok B v l h r B' : ok B → mk_result B v l h r B' → ok B'.
Proof.
  intros Hok [? ? ? ? ? Ea En Ee Er].
  apply (ok_step B); [done..| | | |]; rewrite ?Ea, ?En, ?Ee, ?Er; auto.
Qed.

Lemma shape_same B B' :
  bdd_nodes B' = bdd_nodes B → bdd_unique B' = bdd_unique B → shape B → shape B'.
Proof.
  intros En Eu [H1 H2 H3 H4 H5].
  assert (∀ r nd, node_shape B r nd → node_shape B' r nd) as Hns.
  { intros r nd []. split; unfold above in *; rewrite ?En; done. }
  split; unfold valid in *; rewrite ?En, ?Eu; auto.
Qed.

Lemma eval_same B B' r ρ : bdd_nodes B' = bdd_nodes B → eval B' r ρ = eval B r ρ.
Proof. intros En. unfold eval. by rewrite En. Qed.

Lemma grows_same B B' : bdd_nodes B' = bdd_nodes B → grows B B'.
Proof. intros En. unfold grows. by rewrite En. Qed.

Lemma insert_cases {K A} `{Countable K} (d : gmap K A) k v k' v' (P : Prop) :
  <[k := v]> d !! k' = Some v' → (k' = k → v' = v → P) → d !! k' = Some v' ∨ P.
Proof.
  destruct (decide (k' = k)) as [->|Hne].
  - rewrite lookup_insert_eq. intros [= <-]. auto.
  - rewrite lookup_insert_ne by done. auto.
Qed.

(** Recording one right answer keeps the invariant. *)
Lemma ok_cache_apply B op a b r :
  ok B → apply_post B op a b r →
  ok (B <| bdd_apply_cache := <[(op, a, b) := r]> (bdd_apply_cache B) |>).
Proof.
  intros Hok Hpost. apply (ok_step B); cbn; auto using grows_same.
  - apply (shape_same B); [done..|apply Hok].
  - intros op' a' b' r' H. eapply insert_cases; [exact H|]. by intros [= -> -> ->] ->.
Qed.

Lemma ok_cache_not B a r :
  ok B → unary_post not_meaning true B a r →
  ok (B <| bdd_not_cache := <[a := r]> (bdd_not_cache B) |>).
Proof.
  intros Hok Hpost. apply (ok_step B); cbn; auto using grows_same.
  - apply (shape_same B); [done..|apply Hok].
  - intros a' r' H. eapply insert_cases; [exact H|]. by intros -> ->.
Qed.

Lemma ok_cache_exists B a vs r :
  ok B → unary_post (exists_meaning vs) true B a r →
  ok (B <| bdd_exists_cache := <[(a, vs) := r]> (bdd_exists_cache B) |>).
Proof.
  intros Hok Hpost. apply (ok_step B); cbn; auto using grows_same.
  - apply (shape_same B); [done..|apply Hok].
  - intros a' vs' r' H. eapply insert_cases; [exact H|]. by intros [= -> ->] ->.
Qed.

Lemma frozen_mapping_inj m m' : frozen_mapping m = frozen_mapping m' → m = m'.
Proof.
  unfold frozen_mapping, sorted. intros E. apply map_to_list_inj.
  by rewrite <-(sort_by_perm cmp_leb (map_to_list m)), E, sort_by_perm.
Qed.

Lemma ok_cache_rename B a m r :
  ok B → unary_post (rename_meaning m) false B a r →
  ok (B <| bdd_rename_cache := <[(a, frozen_mapping m) := r]> (bdd_rename_cache B) |>).
Proof.
  intros Hok Hpost. apply (ok_step B); cbn; auto using grows_same.
  - apply (shape_same B); [done..|apply Hok].
  - intros a' m' r' H. eapply insert_cases; [exact H|]. by intros [= -> ->%frozen_mapping_inj] ->.
Qed.

#[local] Opaque eval.

(* ------------------------------------------------------------------ *)
(** ** [apply] *)

Lemma ordered_spec a b : ordered a b = (Nat.min a b, Nat.max a b).
Proof. unfold ordered. destruct (Nat.ltb_spec b a); f_equal; lia. Qed.

Lemma denote_comm op x y : denote_operation op x y = denote_operation op y x.
Proof. by destruct op, x, y. Qed.

(** The terminal rules are right, and leave only pairs that can be split. *)
Lemma apply_terminal_Some B op a b t :
  shape B → valid B a → valid B b → apply_terminal op a b = Some t → apply_post B op a b t.
Proof.
  intros Hsh Ha Hb. pose proof (eval_false B Hsh) as E0. pose proof (eval_true B Hsh) as E1.
  assert (∀ r, r < 2 → valid B r ∧ ∀ v, above B v r) as Ht.
  { intros r Hr. split; [by apply valid_terminal|intros v; by apply above_terminal]. }
  unfold apply_terminal, bdd_false, bdd_true. intros H.
  destruct op;
    repeat match type of H with
    | context [?x =? ?y] => destruct (Nat.eqb_spec x y); cbn [orb] in H; try subst
    end; simplify_eq;
    (split; [done|done|first [done|apply Ht; lia]| |first [by auto|intros; apply Ht; lia]]);
    intros ρ; rewrite ?E0, ?E1; cbn [denote_operation]; try done;
    repeat match goal with |- context [eval B ?r ρ] => destruct (eval B r ρ) end; done.
Qed.

Lemma apply_terminal_None op a b : a ≤ b → apply_terminal op a b = None → 2 ≤ a ∨ 2 ≤ b.
Proof.
  unfold apply_terminal, bdd_false, bdd_true. intros Hle H.
  destruct op;
    repeat match type of H with
    | context [?x =? ?y] => destruct (Nat.eqb_spec x y); cbn [orb] in H; try done
    end; lia.
Qed.

(** The effect of running the loop over one stack item, in [k] iterations. *)
Record item_result (op : BddOperation) (a b : nat) (B B' : Bdd) (k : nat) : Prop := {
  ir_ok : ok B';
  ir_grows : grows B B';
  ir_cached : is_Some (bdd_apply_cache B' !! (op, Nat.min a b, Nat.max a b));
  ir_sub : bdd_apply_cache B ⊆ bdd_apply_cache B';
  ir_new : ∀ key, is_Some (bdd_apply_cache B' !! key) → bdd_apply_cache B !! key = None →
    ∃ x y, key = (op, x, y) ∧ x + y ≤ a + b;
  ir_steps : k + 3 * size (bdd_apply_cache B) ≤ 1 + 3 * size (bdd_apply_cache B')
}.

(** Combining the answers for the two halves of a pair. *)
Lemma apply_combine B op a b v al ah bl bh low high r B' :
  shape B → valid B a → valid B b → cofactors B a v al ah → cofactors B b v bl bh →
  (∃ nd, bdd_nodes B !! a = Some (Some nd) ∧ bn_variable nd = v)
    ∨ (∃ nd, bdd_nodes B !! b = Some (Some nd) ∧ bn_variable nd = v) →
  apply_post B op al bl low → apply_post B op ah bh high →
  mk B v low high = (r, B') → mk_result B v low high r B' ∧ apply_post B' op a b r.
Proof.
  intros Hsh Ha Hb Hca Hcb Htop Hl Hh Hmk.
  destruct Hca as [Val Vah Aal Aah _ _ Ea], Hcb as [Vbl Vbh Abl Abh _ _ Eb].
  destruct Hl as [_ _ Vl El Al], Hh as [_ _ Vh Eh Ah].
  apply mk_spec in Hmk as Hr; [|done..|by apply Al|by apply Ah]. split; [done|].
  destruct Hr as [Hsh' Hg Hv He Hab _ _ _ _]. split; eauto with bdd.
  - intros ρ. rewrite He, !(eval_grows B Hsh B'), Ea, Eb by done. by case_match.
  - intros w Hwa Hwb. apply Hab.
    destruct Htop as [(nd & Hnd & <-)|(nd & Hnd & <-)]; [apply Hwa|apply Hwb];
      by eapply grows_lookup.
Qed.

Lemma size_insert_new `{Countable K} {A} (d : gmap K A) k v :
  d !! k = None → size (<[k := v]> d) = S (size d).
Proof. intros. by apply map_size_insert_None. Qed.

(** An answered item: the next iteration just drops it. *)
Lemma item_cached op a b e rest B fuel :
  is_Some (bdd_apply_cache B !! (op, Nat.min a b, Nat.max a b)) →
  apply_loop (S fuel) op ((a, b, e) :: rest) B = apply_loop fuel op rest B.
Proof. intros [r Hr]. cbn [apply_loop]. rewrite ordered_spec. by rewrite Hr. Qed.

Lemma apply_post_swap B op a b r :
  apply_post B op (Nat.min a b) (Nat.max a b) r → apply_post B op a b r.
Proof.
  destruct (Nat.le_ge_cases a b).
  - by rewrite Nat.min_l, Nat.max_r.
  - rewrite Nat.min_r, Nat.max_l by done. intros [? ? ? He Hab]. split; auto.
    intros ρ. by rewrite He, denote_comm.
Qed.

Lemma cached_post B op a b r :
  ok B → bdd_apply_cache B !! (op, Nat.min a b, Nat.max a b) = Some r → apply_post B op a b r.
Proof. intros Hok Hr. by apply apply_post_swap, ok_apply. Qed.

(** What one more answered pair adds; it pays for up to four iterations. *)
Lemma item_answer op a b B r k :
  k ≤ 4 → ok B → bdd_apply_cache B !! (op, Nat.min a b, Nat.max a b) = None →
  apply_post B op (Nat.min a b) (Nat.max a b) r →
  item_result op a b B
    (B <| bdd_apply_cache := <[(op, Nat.min a b, Nat.max a b) := r]> (bdd_apply_cache B) |>) k.
Proof.
  intros Hk Hok Hnone Hpost. split; cbn.
  - by apply ok_cache_apply.
  - by apply grows_same.
  - rewrite lookup_insert_eq. eauto.
  - by apply insert_subseteq.
  - intros key Hs Hn. destruct (decide (key = (op, Nat.min a b, Nat.max a b))) as [->|Hne].
    + eexists _, _. split; [done|]. lia.
    + rewrite lookup_insert_ne, Hn in Hs by done. by destruct Hs.
  - rewrite size_insert_new by done. lia.
Qed.

Lemma item_cached_result op a b B :
  ok B → is_Some (bdd_apply_cache B !! (op, Nat.min a b, Nat.max a b)) → item_result op a b B B 1.
Proof.
  intros Hok Hs. split; try done. intros key [r Hr] Hn. congruence.
Qed.

(** The pair that was split comes back on top of its answered halves. *)
Lemma item_finish op a b v al ah bl bh B B1 B2 k1 k2 :
  ok B → valid B a → valid B b → a ≤ b →
  bdd_apply_cache B !! (op, a, b) = None → apply_terminal op a b = None →
  (∃ na nb, bdd_node B a = Ok na ∧ bdd_node B b = Ok nb ∧ top_variable na nb = Ok v) →
  cofactor B a v = Ok (al, ah) → cofactor B b v = Ok (bl, bh) →
  cofactors B a v al ah → cofactors B b v bl bh →
  (∃ nd, bdd_nodes B !! a = Some (Some nd) ∧ bn_variable nd = v)
    ∨ (∃ nd, bdd_nodes B !! b = Some (Some nd) ∧ bn_variable nd = v) →
  al + bl < a + b → ah + bh < a + b →
  item_result op al bl B B1 k1 → item_result op ah bh B1 B2 k2 →
  ∃ B', item_result op a b B B' (2 + k1 + k2)
    ∧ ∀ fuel rest, apply_loop (S fuel) op ((a, b, true) :: rest) B2 = apply_loop fuel op rest B'.
Proof.
  intros Hok Ha Hb Hle Hnone Hterm (na & nb & Hna & Hnb & Htop) Hca Hcb Ca Cb Hvar Hl Hh R1 R2.
  assert (grows B B2) as Hg by (etrans; [apply R1|apply R2]).
  pose proof (ok_shape B Hok) as Hsh. pose proof (ir_ok _ _ _ _ _ _ R2) as Hok2.
  pose proof (ok_shape B2 Hok2) as Hsh2.
  destruct (ir_cached _ _ _ _ _ _ R1) as [low Hlow1].
  destruct (ir_cached _ _ _ _ _ _ R2) as [high Hhigh].
  pose proof (lookup_weaken _ _ _ _ Hlow1 (ir_sub _ _ _ _ _ _ R2)) as Hlow.
  (* the node table of [B] is unchanged in [B2] *)
  assert (∀ r x, bdd_node B r = Ok x → bdd_node B2 r = Ok x) as Hnode.
  { intros r x. unfold bdd_node. rewrite !list_get_Ok. by apply grows_lookup. }
  assert (∀ r w lh, cofactor B r w = Ok lh → cofactor B2 r w = Ok lh) as Hcof.
  { intros r w lh. unfold cofactor. intros (x & Hx%Hnode & H)%bind_Ok. by rewrite Hx. }
  assert (∀ r w lo hi, valid B r → cofactors B r w lo hi → cofactors B2 r w lo hi) as Hcofs.
  { intros r w lo hi Hv [? ? ? ? ? ? He]. split; eauto with bdd.
    intros ρ. rewrite !(eval_grows B Hsh B2) by done. apply He. }
  assert (bdd_apply_cache B2 !! (op, a, b) = None) as Hnone2.
  { destruct (bdd_apply_cache B2 !! (op, a, b)) eqn:E2; [exfalso|done].
    destruct (bdd_apply_cache B1 !! (op, a, b)) eqn:E1.
    - destruct (ir_new _ _ _ _ _ _ R1 (op, a, b)) as (x & y & [= <- <-] & ?); [eauto|done|lia].
    - destruct (ir_new _ _ _ _ _ _ R2 (op, a, b)) as (x & y & [= <- <-] & ?); [eauto|done|lia]. }
  destruct (mk B2 v low high) as [r B3] eqn:Hmk.
  destruct (apply_combine B2 op a b v al ah bl bh low high r B3) as [Hres Hpost].
  { done. } { eauto with bdd. } { eauto with bdd. } { by apply Hcofs. } { by apply Hcofs. }
  { destruct Hvar as [(nd & Hnd & ?)|(nd & Hnd & ?)]; [left|right]; exists nd;
      (split; [by eapply grows_lookup|done]). }
  { by apply cached_post. } { by apply cached_post. } { done. }
  pose proof (mr_apply _ _ _ _ _ _ Hres) as Eapp.
  assert (item_result op a b B3
    (B3 <| bdd_apply_cache := <[(op, a, b) := r]> (bdd_apply_cache B3) |>) 4) as R3.
  { pose proof (item_answer op a b B3 r 4) as R3. rewrite Nat.min_l, Nat.max_r in R3 by done.
    apply R3; [done|by eapply mk_ok|by rewrite Eapp|done]. }
  eexists. split.
  - split; [apply R3| |apply R3|..].
    + etrans; [exact Hg|]. etrans; [apply Hres|]. apply R3.
    + etrans; [apply R1|]. etrans; [apply R2|]. rewrite <-Eapp. apply R3.
    + intros key Hs Hn. destruct (bdd_apply_cache B1 !! key) eqn:E1.
      { destruct (ir_new _ _ _ _ _ _ R1 key) as (x & y & -> & ?); [eauto|done|].
        exists x, y. split; [done|lia]. }
      destruct (bdd_apply_cache B2 !! key) eqn:E2.
      { destruct (ir_new _ _ _ _ _ _ R2 key) as (x & y & -> & ?); [eauto|done|].
        exists x, y. split; [done|lia]. }
      apply (ir_new _ _ _ _ _ _ R3 key); [done|]. by rewrite Eapp.
    + pose proof (ir_steps _ _ _ _ _ _ R1). pose proof (ir_steps _ _ _ _ _ _ R2).
      pose proof (ir_steps _ _ _ _ _ _ R3).
      assert (size (bdd_apply_cache B3) = size (bdd_apply_cache B2)) by (by rewrite Eapp). lia.
  - intros fuel rest. cbn [apply_loop]. rewrite ordered_spec, Nat.min_l, Nat.max_r by done.
    rewrite Hnone2, Hterm, (Hnode _ _ Hna), (Hnode _ _ Hnb). cbn [mbind result_bind].
    rewrite Htop. cbn [mbind result_bind]. rewrite (Hcof _ _ _ Hca), (Hcof _ _ _ Hcb).
    cbn [mbind result_bind negb]. rewrite !ordered_spec.
    rewrite (proj2 (dict_get_Ok _ _ _) Hlow), (proj2 (dict_get_Ok _ _ _) Hhigh).
    cbn [mbind result_bind]. by rewrite Hmk.
Qed.

(** Every stack item is processed in boundedly many iterations. *)
Lemma apply_item op a b B :
  ok B → valid B a → valid B b →
  ∃ B' k, item_result op a b B B' k
    ∧ ∀ fuel rest, apply_loop (k + fuel) op ((a, b, false) :: rest) B = apply_loop fuel op rest B'.
Proof.
  remember (a + b) as n eqn:Hn. revert a b B Hn.
  induction n as [n IH] using lt_wf_ind. intros a b B -> Hok Ha Hb.
  pose proof (ok_shape B Hok) as Hsh.
  destruct (bdd_apply_cache B !! (op, Nat.min a b, Nat.max a b)) as [c|] eqn:Ec.
  { exists B, 1. split; [apply item_cached_result; eauto|]. intros fuel rest.
    apply item_cached. eauto. }
  assert (valid B (Nat.min a b) ∧ valid B (Nat.max a b)) as [Hmin Hmax] by (unfold valid in *; lia).
  destruct (apply_terminal op (Nat.min a b) (Nat.max a b)) as [t|] eqn:Et.
  { eexists _, 1. split.
    - apply item_answer; [lia|done|done|]. by apply apply_terminal_Some.
    - intros fuel rest. cbn [apply_loop Nat.add]. by rewrite ordered_spec, Ec, Et. }
  assert (Nat.min a b ≤ Nat.max a b) as Hle by lia.
  pose proof (apply_terminal_None op _ _ Hle Et) as Hge.
  destruct (top_variable_spec B (Nat.min a b) (Nat.max a b))
    as (na & nb & v & Hna & Hnb & Htop & Hfa & Hfb & Hvar); [done..|].
  destruct (cofactor_spec B (Nat.min a b) v) as (al & ah & Hca & Ca & Hia); [done..|].
  destruct (cofactor_spec B (Nat.max a b) v) as (bl & bh & Hcb & Cb & Hib); [done..|].
  assert (al + bl < Nat.min a b + Nat.max a b ∧ ah + bh < Nat.min a b + Nat.max a b) as [Hl Hh].
  { pose proof Ca as [_ _ _ _ ? ? _]. pose proof Cb as [_ _ _ _ ? ? _].
    destruct Hia as [(nd & Hnd & _ & -> & ->)|(-> & -> & Haa)];
      [destruct (sh_node B Hsh _ nd Hnd); lia|].
    destruct Hib as [(nd & Hnd & _ & -> & ->)|(-> & -> & Hab)];
      [destruct (sh_node B Hsh _ nd Hnd); lia|].
    exfalso. destruct Hvar as [(nd & Hnd & <-)|(nd & Hnd & <-)];
      [specialize (Haa nd Hnd)|specialize (Hab nd Hnd)]; lia. }
  destruct (IH (al + bl) ltac:(lia) al bl B) as (B1 & k1 & R1 & L1); [done|done|apply Ca|apply Cb|].
  destruct (IH (ah + bh) ltac:(lia) ah bh B1) as (B2 & k2 & R2 & L2).
  { done. } { apply R1. } { eapply valid_grows; [apply R1|apply Ca]. }
  { eapply valid_grows; [apply R1|apply Cb]. }
  destruct (item_finish op (Nat.min a b) (Nat.max a b) v al ah bl bh B B1 B2 k1 k2)
    as (B' & R & L); [done|done|done|lia|done|done|by eauto|done..|].
  exists B', (S (k1 + (k2 + 1))). split.
  - destruct R as [R1' R2' R3' R4' R5' R6'].
    rewrite Nat.min_l, Nat.max_r in R3' by lia. split; try done.
    + intros key Hs Hk. destruct (R5' key Hs Hk) as (x & y & -> & ?). exists x, y. split; [done|lia].
    + lia.
  - intros fuel rest. cbn [apply_loop Nat.add]. rewrite ordered_spec, Ec, Et, Hna, Hnb.
    cbn [mbind result_bind]. rewrite Htop. cbn [mbind result_bind]. rewrite Hca, Hcb.
    cbn [mbind result_bind negb]. rewrite <-!Nat.add_assoc, L1, L2. apply L.
Qed.

(** All keys one call can add. *)
Definition key_universe (op : BddOperation) (n : nat) : gset (BddOperation * nat * nat) :=
  list_to_set (x ← seq 0 (S n); y ← seq 0 (S n); [(op, x, y)]).

Lemma elem_key_universe op n x y : x + y ≤ n → (op, x, y) ∈ key_universe op n.
Proof.
  intros Hxy. unfold key_universe. apply elem_of_list_to_set, list_elem_of_bind.
  exists x. split; [|apply elem_of_seq; lia]. apply list_elem_of_bind.
  exists y. split; [by left|apply elem_of_seq; lia].
Qed.

Lemma length_bind_const {A C} (f : A → list C) (xs : list A) k :
  (∀ x, length (f x) = k) → length (xs ≫= f) = length xs * k.
Proof.
  intros Hf. induction xs as [|x xs IH]; cbn; [done|]. by rewrite length_app, Hf, <-IH.
Qed.

Lemma size_list_to_set_length `{Countable A} (xs : list A) :
  size (list_to_set xs : gset A) ≤ length xs.
Proof.
  induction xs as [|x xs IH]; cbn; [by rewrite size_empty|].
  rewrite size_union_alt, size_singleton.
  assert (size (list_to_set xs ∖ {[x]} : gset A) ≤ size (list_to_set xs : gset A)); [|lia].
  apply subseteq_size. set_solver.
Qed.

Lemma size_key_universe op n : size (key_universe op n) ≤ S n * S n.
Proof.
  unfold key_universe. etrans; [apply size_list_to_set_length|].
  erewrite length_bind_const; [by rewrite length_seq|].
  intros x. cbn beta. erewrite length_bind_const; [by rewrite length_seq, Nat.mul_1_r|done].
Qed.

Lemma item_size op a b B B' k :
  item_result op a b B B' k →
  size (bdd_apply_cache B') ≤ size (bdd_apply_cache B) + S (a + b) * S (a + b).
Proof.
  intros R. rewrite <-!(size_dom (D := gset _)).
  assert (dom (bdd_apply_cache B') ⊆ dom (bdd_apply_cache B) ∪ key_universe op (a + b)) as Hsub.
  { intros key Hk%elem_of_dom. destruct (bdd_apply_cache B !! key) eqn:E.
    - apply elem_of_union_l, elem_of_dom. eauto.
    - destruct (ir_new _ _ _ _ _ _ R key Hk E) as (x & y & -> & ?).
      apply elem_of_union_r, elem_key_universe. done. }
  apply subseteq_size in Hsub. pose proof (size_key_universe op (a + b)).
  rewrite size_union_alt in Hsub.
  assert (size (key_universe op (a + b) ∖ dom (bdd_apply_cache B)) ≤ size (key_universe op (a + b)));
    [apply subseteq_size; set_solver|lia].
Qed.

(** What every binary operation delivers. *)
Definition delivers (B : Bdd) (m : result (nat * Bdd)) (P : Bdd → nat → Prop) : Prop :=
  ∃ r B', m = Ok (r, B') ∧ ok B' ∧ grows B B' ∧ P B' r.

Lemma apply_spec B op a b :
  ok B → valid B a → valid B b → delivers B (apply B op a b) (λ B' r, apply_post B' op a b r).
Proof.
  intros Hok Ha Hb. unfold delivers, apply. rewrite ordered_spec.
  destruct (bdd_apply_cache B !! (op, Nat.min a b, Nat.max a b)) as [r|] eqn:Er.
  - exists r, B. split_and!; [done..|]. by apply cached_post.
  - destruct (apply_item op (Nat.min a b) (Nat.max a b) B) as (B' & k & R & L);
      [done|unfold valid in *; lia..|].
    pose proof (item_size _ _ _ _ _ _ R). pose proof (ir_steps _ _ _ _ _ _ R).
    assert (∃ extra, apply_fuel (Nat.min a b) (Nat.max a b) = k + extra) as [extra Hfuel].
    { exists (apply_fuel (Nat.min a b) (Nat.max a b) - k). unfold apply_fuel. lia. }
    rewrite Hfuel, L. destruct (ir_cached _ _ _ _ _ _ R) as [r Hr].
    rewrite Nat.min_l, Nat.max_r in Hr by lia.
    exists r, B'. assert (apply_loop extra op [] B' = Ok B') as -> by (by destruct extra).
    cbn [mbind result_bind]. rewrite (proj2 (dict_get_Ok _ _ _) Hr). cbn [mbind result_bind].
    split_and!; [done|apply R|apply R|]. by apply cached_post; [apply R|].
Qed.

(* ------------------------------------------------------------------ *)
(** ** Conjunction and disjunction of many references *)

Definition fold_operation (op : BddOperation) (bs : list bool) : bool :=
  match op with AND => forallb id bs | OR => existsb id bs | XOR => foldr xorb false bs end.

Lemma fold_operation_app op xs ys :
  fold_operation op (xs ++ ys) = denote_operation op (fold_operation op xs) (fold_operation op ys).
Proof.
  destruct op; cbn.
  - apply forallb_app.
  - apply existsb_app.
  - induction xs as [|x xs IH]; cbn; [by destruct (foldr _ _ ys)|]. rewrite IH.
    by destruct x, (foldr xorb false xs), (foldr xorb false ys).
Qed.

Definition all_valid (B : Bdd) (rs : list nat) : Prop := ∀ r, r ∈ rs → valid B r.
Definition evals (B : Bdd) (rs : list nat) (ρ : nat → bool) : list bool :=
  (λ r, eval B r ρ) <$> rs.

Lemma evals_grows B B' rs ρ :
  shape B → grows B B' → all_valid B rs → evals B' rs ρ = evals B rs ρ.
Proof.
  intros Hsh Hg Hv. unfold evals. apply list_fmap_ext. intros i r Hr%list_elem_of_lookup_2.
  apply eval_grows; auto.
Qed.

Lemma all_valid_grows B B' rs : grows B B' → all_valid B rs → all_valid B' rs.
Proof. intros Hg Hv r Hr. eapply valid_grows; eauto. Qed.

Lemma combine_pairs_spec op rs B :
  ok B → all_valid B rs →
  ∃ rs' B', combine_pairs op rs B = Ok (rs', B') ∧ ok B' ∧ grows B B' ∧ all_valid B' rs'
    ∧ (∀ ρ, fold_operation op (evals B' rs' ρ) = fold_operation op (evals B rs ρ))
    ∧ length rs' ≤ length rs ∧ (2 ≤ length rs → 0 < length rs' < length rs).
Proof.
  remember (length rs) as n eqn:Hn. revert rs B Hn. induction n as [n IH] using lt_wf_ind.
  intros [|x [|y rest]] B -> Hok Hv; cbn [combine_pairs].
  - exists [], B. split_and!; try done; cbn; lia.
  - exists [x], B. split_and!; try done; cbn; lia.
  - destruct (apply_spec B op x y) as (r & B1 & E1 & Hok1 & Hg1 & P1);
      [done|apply Hv; left|apply Hv; right; left|]. rewrite E1. cbn [mbind result_bind].
    assert (all_valid B rest) as Hvr by (intros z Hz; apply Hv; right; by right).
    destruct (IH (length rest) ltac:(cbn; lia) rest B1) as (rs' & B2 & E2 & Hok2 & Hg2 & V2 & F2 & L2 & _);
      [done|done|by eapply all_valid_grows|].
    rewrite E2. cbn [mbind result_bind]. exists (r :: rs'), B2. split_and!; [done|done|by etrans|..].
    + intros z [->|Hz]%elem_of_cons; [|auto]. eapply valid_grows; [done|apply P1].
    + intros ρ. destruct P1 as [Vx Vy Vr Er _].
      change (evals B2 (r :: rs') ρ) with ([eval B2 r ρ] ++ evals B2 rs' ρ).
      change (evals B (x :: y :: rest) ρ) with ([eval B x ρ; eval B y ρ] ++ evals B rest ρ).
      rewrite !fold_operation_app, F2, (evals_grows B B1) by (done || apply Hok). f_equal.
      rewrite (eval_grows B1 (ok_shape _ Hok1) B2), Er by done.
      rewrite !(eval_grows B (ok_shape _ Hok) B1) by (done || (apply Hv; set_solver)).
      by destruct op, (eval B x ρ), (eval B y ρ).
    + cbn. lia.
    + cbn. lia.
Qed.

Lemma combine_all_spec op fuel rs B :
  ok B → all_valid B rs → rs ≠ [] → length rs ≤ fuel →
  delivers B (combine_all fuel op rs B) (λ B' r, valid B' r
    ∧ ∀ ρ, fold_operation op [eval B' r ρ] = fold_operation op (evals B rs ρ)).
Proof.
  revert rs B. induction fuel as [|fuel IH]; intros rs B Hok Hv Hne Hlen.
  { destruct rs; [done|cbn in Hlen; lia]. }
  destruct rs as [|x [|y rest]]; [done|..].
  - exists x, B. split_and!; try done. apply Hv. by left.
  - destruct (combine_pairs_spec op (x :: y :: rest) B)
      as (rs' & B1 & E1 & Hok1 & Hg1 & V1 & F1 & L1 & L2); [done..|].
    destruct (IH rs' B1) as (r & B2 & E2 & Hok2 & Hg2 & V2 & F2); [done|done| |cbn in *; lia|].
    { intros ->. cbn in *. lia. }
    exists r, B2. split_and!; [|done|by etrans|done|].
    + cbn [combine_all]. rewrite E1. exact E2.
    + intros ρ. by rewrite F2, F1.
Qed.

Lemma fold_evals op B rs ρ :
  fold_operation op (evals B rs ρ) =
  match op with
  | AND => forallb (λ r, eval B r ρ) rs
  | OR => existsb (λ r, eval B r ρ) rs
  | XOR => foldr xorb false (evals B rs ρ)
  end.
Proof.
  destruct op; cbn; [| |done]; unfold evals; induction rs as [|r rs IH]; cbn; by rewrite ?IH.
Qed.

Lemma conjunction_spec B rs :
  ok B → all_valid B rs →
  delivers B (conjunction B rs)
    (λ B' r, valid B' r ∧ ∀ ρ, eval B' r ρ = forallb (λ r, eval B r ρ) rs).
Proof.
  intros Hok Hv. unfold conjunction. destruct (is_nil rs) eqn:En.
  - apply is_nil_spec in En as ->. exists 1, B.
    split_and!; try done; [apply valid_terminal; [apply Hok|lia]|].
    intros ρ. apply eval_true, Hok.
  - apply is_nil_false in En.
    destruct (combine_all_spec AND (length rs) rs B) as (r & B' & E & Hok' & Hg & V & F); [done..|].
    exists r, B'. split_and!; try done. intros ρ. specialize (F ρ). rewrite fold_evals in F.
    cbn [fold_operation forallb] in F. by rewrite andb_true_r in F.
Qed.

Lemma disjunction_spec B rs :
  ok B → all_valid B rs →
  delivers B (disjunction B rs)
    (λ B' r, valid B' r ∧ ∀ ρ, eval B' r ρ = existsb (λ r, eval B r ρ) rs).
Proof.
  intros Hok Hv. unfold disjunction. destruct (is_nil rs) eqn:En.
  - apply is_nil_spec in En as ->. exists 0, B.
    split_and!; try done; [apply valid_terminal; [apply Hok|lia]|].
    intros ρ. apply eval_false, Hok.
  - apply is_nil_false in En.
    destruct (combine_all_spec OR (length rs) rs B) as (r & B' & E & Hok' & Hg & V & F); [done..|].
    exists r, B'. split_and!; try done. intros ρ. specialize (F ρ). rewrite fold_evals in F.
    cbn [fold_operation existsb] in F. by rewrite orb_false_r in F.
Qed.

(* ------------------------------------------------------------------ *)
(** ** The shared post-order walk *)

Section walk.
Context (F : ((nat → bool) → bool) → (nat → bool) → Prop) (o : bool).
Context (lookup : Bdd → nat → option nat).
Context (finish : Bdd → nat → BddNode → nat → nat → result (nat * Bdd)).
Context (HF : respectful_meaning F).
Context (Hlookup : ∀ B c r, ok B → lookup B c = Some r → unary_post F o B c r).
Context (Hfinish : ∀ B c nd l h,
  ok B → bdd_nodes B !! c = Some (Some nd) →
  unary_post F o B (bn_low nd) l → unary_post F o B (bn_high nd) h →
  delivers B (finish B c nd l h) (λ B' r, unary_post F o B' c r)).

(** Every local answer is right, and both terminals are answered. *)
Record values_ok (B : Bdd) (values : gmap nat nat) : Prop := {
  vo_right : ∀ c r, values !! c = Some r → unary_post F o B c r;
  vo_terminals : ∀ c, c < 2 → is_Some (values !! c)
}.

Record walk_result (c : nat) (B : Bdd) (values : gmap nat nat) (B' : Bdd) (values' : gmap nat nat)
    (k : nat) : Prop := {
  wr_ok : ok B';
  wr_grows : grows B B';
  wr_values : values_ok B' values';
  wr_answer : is_Some (values' !! c);
  wr_sub : values ⊆ values';
  wr_new : ∀ x, is_Some (values' !! x) → values !! x = None → x ≤ c;
  wr_steps : k + 3 * size values ≤ 1 + 3 * size values'
}.

Lemma values_ok_grows B B' values :
  ok B → grows B B' → values_ok B values → values_ok B' values.
Proof using HF.
  intros Hok Hg [Hr Ht]. split; [|done]. intros c r Hc. eapply unary_post_grows; [done|apply Hok|done|auto].
Qed.

Lemma walk_answer c B values B' r k :
  k ≤ 4 → ok B → ok B' → grows B B' → values_ok B values → values !! c = None →
  unary_post F o B' c r → walk_result c B values B' (<[c := r]> values) k.
Proof using HF.
  intros Hk Hok Hok' Hg Hv Hn Hpost. split; try done.
  - destruct (values_ok_grows B B' values Hok Hg Hv) as [Hr Ht]. split.
    + intros x y Hx. destruct (insert_cases _ _ _ _ _ (unary_post F o B' x y) Hx); [|auto..].
      by intros -> ->.
    + intros x Hx. destruct (decide (x = c)) as [->|Hne]; [rewrite lookup_insert_eq; eauto|].
      rewrite lookup_insert_ne by done. auto.
  - rewrite lookup_insert_eq. eauto.
  - by apply insert_subseteq.
  - intros x Hs Hx. destruct (decide (x = c)) as [->|Hne]; [done|].
    rewrite lookup_insert_ne, Hx in Hs by done. by destruct Hs.
  - rewrite size_insert_new by done. lia.
Qed.

Lemma walk_item c B values :
  ok B → valid B c → values_ok B values →
  ∃ B' values' k, walk_result c B values B' values' k
    ∧ ∀ fuel rest, walk_loop (k + fuel) lookup finish ((c, false) :: rest) values B
                   = walk_loop fuel lookup finish rest values' B'.
Proof using All.
  revert B values. induction c as [c IH] using lt_wf_ind. intros B values Hok Hc Hv.
  destruct (values !! c) as [r|] eqn:Ev.
  { exists B, values, 1. split.
    - split; try done. intros x [y Hy] Hn. congruence.
    - intros fuel rest. cbn [walk_loop Nat.add]. by rewrite Ev. }
  destruct (lookup B c) as [r|] eqn:El.
  { exists B, (<[c := r]> values), 1. split; [apply walk_answer; [lia|done..|auto]|].
    intros fuel rest. cbn [walk_loop Nat.add]. by rewrite Ev, El. }
  destruct (lookup_cases B (ok_shape B Hok) c Hc) as [[_ Hlt]|[nd Hnd]].
  { exfalso. destruct (vo_terminals _ _ Hv c Hlt). congruence. }
  destruct (sh_node B (ok_shape B Hok) c nd Hnd) as [Hl Hh _ _ _].
  destruct (child_valid B (ok_shape B Hok) c nd Hnd) as [Vl Vh].
  destruct (IH (bn_low nd) Hl B values) as (B1 & v1 & k1 & R1 & L1); [done..|].
  destruct (IH (bn_high nd) Hh B1 v1) as (B2 & v2 & k2 & R2 & L2);
    [apply R1|by eapply valid_grows; [apply R1|]|apply R1|].
  destruct (wr_answer _ _ _ _ _ _ R1) as [l Hl1]. destruct (wr_answer _ _ _ _ _ _ R2) as [h Hh2].
  pose proof (lookup_weaken _ _ _ _ Hl1 (wr_sub _ _ _ _ _ _ R2)) as Hl2.
  assert (grows B B2) as Hg by (etrans; [apply R1|apply R2]).
  pose proof (grows_lookup _ _ _ _ Hg Hnd) as Hnd2.
  assert (v2 !! c = None) as Ev2.
  { destruct (v2 !! c) eqn:E2; [exfalso|done]. destruct (v1 !! c) eqn:E1.
    - pose proof (wr_new _ _ _ _ _ _ R1 c ltac:(by rewrite E1) Ev). lia.
    - pose proof (wr_new _ _ _ _ _ _ R2 c ltac:(by rewrite E2) E1). lia. }
  assert (∃ B3 r, walk_result c B2 v2 B3 (<[c := r]> v2) 4
    ∧ ∀ fuel rest, walk_loop (S fuel) lookup finish ((c, true) :: rest) v2 B2
                   = walk_loop fuel lookup finish rest (<[c := r]> v2) B3) as (B3 & r & R3 & L3).
  { destruct (lookup B2 c) as [r|] eqn:El2.
    - exists B2, r. split.
      + apply walk_answer; [done|apply R2|apply R2|done|apply R2|done|]. apply Hlookup; [apply R2|done].
      + intros fuel rest. cbn [walk_loop]. by rewrite Ev2, El2.
    - destruct (Hfinish B2 c nd l h) as (r & B3 & E3 & Hok3 & Hg3 & P3).
      { apply R2. } { done. } { by apply (vo_right _ _ (wr_values _ _ _ _ _ _ R2)). }
      { by apply (vo_right _ _ (wr_values _ _ _ _ _ _ R2)). }
      exists B3, r. split.
      + apply walk_answer; [done|apply R2|done|done|apply R2|done|done].
      + intros fuel rest. cbn [walk_loop]. unfold bdd_node, list_get. rewrite Ev2, El2, Hnd2.
        cbn [mbind result_bind negb]. rewrite (proj2 (dict_get_Ok _ _ _) Hl2).
        cbn [mbind result_bind]. rewrite (proj2 (dict_get_Ok _ _ _) Hh2).
        cbn [mbind result_bind]. by rewrite E3. }
  exists B3, (<[c := r]> v2), (S (k1 + (k2 + 1))). split.
  - split; [apply R3| |apply R3|exact (wr_answer _ _ _ _ _ _ R3)|..].
    + etrans; [exact Hg|apply R3].
    + transitivity v1; [apply (wr_sub _ _ _ _ _ _ R1)|]. transitivity v2; [apply (wr_sub _ _ _ _ _ _ R2)|apply (wr_sub _ _ _ _ _ _ R3)].
    + intros x Hs Hn. destruct (v1 !! x) eqn:E1.
      { pose proof (wr_new _ _ _ _ _ _ R1 x ltac:(by rewrite E1) Hn). lia. }
      destruct (v2 !! x) eqn:E2.
      { pose proof (wr_new _ _ _ _ _ _ R2 x ltac:(by rewrite E2) E1). lia. }
      by apply (wr_new _ _ _ _ _ _ R3 x).
    + pose proof (wr_steps _ _ _ _ _ _ R1). pose proof (wr_steps _ _ _ _ _ _ R2).
      pose proof (wr_steps _ _ _ _ _ _ R3). lia.
  - intros fuel rest. cbn [walk_loop Nat.add]. unfold bdd_node, list_get. rewrite Ev, El, Hnd.
    cbn [mbind result_bind negb]. rewrite <-!Nat.add_assoc, L1, L2. apply L3.
Qed.

Lemma walk_spec c B values :
  ok B → valid B c → values_ok B values →
  delivers B (walk B lookup finish values c) (λ B' r, unary_post F o B' c r).
Proof using All.
  intros Hok Hc Hv. destruct (walk_item c B values) as (B' & v' & k & R & L); [done..|].
  assert (size v' ≤ size values + S c) as Hsize.
  { rewrite <-!(size_dom (D := gset nat)).
    assert (dom v' ⊆ dom values ∪ list_to_set (seq 0 (S c))) as Hsub.
    { intros x Hx%elem_of_dom. destruct (values !! x) eqn:E.
      - apply elem_of_union_l, elem_of_dom. eauto.
      - apply elem_of_union_r, elem_of_list_to_set, elem_of_seq.
        pose proof (wr_new _ _ _ _ _ _ R x Hx E). lia. }
    apply subseteq_size in Hsub. rewrite size_union_alt in Hsub.
    pose proof (size_list_to_set_length (seq 0 (S c))) as Hle. rewrite length_seq in Hle.
    assert (size (list_to_set (seq 0 (S c)) ∖ dom values : gset nat)
            ≤ size (list_to_set (seq 0 (S c)) : gset nat)); [apply subseteq_size; set_solver|lia]. }
  pose proof (wr_steps _ _ _ _ _ _ R).
  assert (∃ extra, walk_fuel c = k + extra) as [extra Hfuel].
  { exists (walk_fuel c - k). unfold walk_fuel. lia. }
  unfold walk. rewrite Hfuel, L. destruct (wr_answer _ _ _ _ _ _ R) as [r Hr]. exists r, B'.
  assert (walk_loop extra lookup finish [] v' B' = Ok (v', B')) as -> by (by destruct extra).
  cbn [mbind result_bind]. rewrite (proj2 (dict_get_Ok _ _ _) Hr). cbn [mbind result_bind].
  split_and!; [done|apply R|apply R|]. by apply (vo_right _ _ (wr_values _ _ _ _ _ _ R)).
Qed.
End walk.

(* ------------------------------------------------------------------ *)
(** ** [negate], [ite], [equivalence], [exists] and [rename] *)

Lemma negate_node_spec B c nd l h :
  ok B → bdd_nodes B !! c = Some (Some nd) →
  unary_post not_meaning true B (bn_low nd) l → unary_post not_meaning true B (bn_high nd) h →
  delivers B (negate_node B c nd l h) (λ B' r, unary_post not_meaning true B' c r).
Proof.
  intros Hok Hnd [Vl Vl' El Al] [Vh Vh' Eh Ah]. pose proof (ok_shape B Hok) as Hsh.
  destruct (sh_node B Hsh c nd Hnd) as [_ _ _ Hal Hah]. unfold negate_node, delivers.
  destruct (mk B (bn_variable nd) l h) as [r B'] eqn:Hmk.
  apply mk_spec in Hmk as R; [|auto..]. destruct R as [Hsh' Hg Hv He Hab Ea En Ee Er] eqn:ER.
  assert (unary_post not_meaning true B' c r) as Hpost.
  { split; eauto with bdd.
    - intros ρ. unfold not_meaning in *. rewrite He, (eval_grows B Hsh B') by (eauto with bdd).
      rewrite (eval_node B Hsh c nd) by done. case_match; [apply Eh|apply El].
    - intros _ v Hva. apply Hab. apply Hva. by eapply grows_lookup. }
  eexists r, _. split; [done|]. split_and!.
  - apply ok_cache_not; [|done]. eapply mk_ok; [exact Hok|exact R].
  - etrans; [exact Hg|]. by apply grows_same.
  - eapply unary_post_grows; [apply not_respectful|exact Hsh'|by apply grows_same|done].
Qed.

(** An answer the caches or the walk gave, seen from the grown manager. *)
Lemma terminal_values_ok F o B values :
  shape B →
  (∀ c, c < 2 → ∃ r, values !! c = Some r ∧ r < 2 ∧ ∀ ρ, (r = 1 ↔ F (eval B c) ρ)) →
  (∀ c, 2 ≤ c → values !! c = None) → values_ok F o B values.
Proof.
  intros Hsh Ht Hn. split.
  - intros c r Hc. destruct (decide (2 ≤ c)) as [|Hlt]; [by rewrite Hn in Hc|].
    destruct (Ht c) as (r' & Hr' & Hlt' & HF); [lia|]. simplify_eq. split.
    + apply valid_terminal; [done|lia].
    + by apply valid_terminal.
    + intros ρ. rewrite <-HF.
      destruct r as [|[|]]; [by rewrite eval_false|by rewrite eval_true|lia].
    + intros _ v _. by apply above_terminal.
  - intros c Hc. destruct (Ht c Hc) as (r & -> & _). eauto.
Qed.

Lemma negate_spec B a :
  ok B → valid B a → delivers B (negate B a) (λ B' r, unary_post not_meaning true B' a r).
Proof.
  intros Hok Ha. unfold negate. destruct (bdd_not_cache B !! a) as [r|] eqn:Er.
  { exists r, B. split_and!; [done..|]. by apply ok_not. }
  apply walk_spec; [apply not_respectful|intros B' c r Hok'; by apply ok_not
    |apply negate_node_spec|done|done|].
  pose proof (ok_shape B Hok) as Hsh. apply terminal_values_ok; [done|..].
  - intros [|[|]] Hc; [exists 1|exists 0|lia]; (split_and!; [reflexivity|lia|]);
      intros ρ; unfold not_meaning; [rewrite eval_false by done|rewrite eval_true by done]; done.
  - intros c Hc. unfold swapped_terminals, bdd_false, bdd_true.
    rewrite lookup_insert_ne, lookup_singleton_ne by lia. done.
Qed.

(** Sequencing two deliveries. *)
Lemma delivers_bind B m P (k : nat → Bdd → result (nat * Bdd)) Q :
  delivers B m P →
  (∀ B1 r, ok B1 → grows B B1 → P B1 r → delivers B1 (k r B1) Q) →
  delivers B ('(r, B1) ← m; k r B1) Q.
Proof.
  intros (r & B1 & -> & Hok & Hg & HP) Hk.
  destruct (Hk B1 r Hok Hg HP) as (r' & B2 & E & Hok2 & Hg2 & HQ).
  exists r', B2. cbn. split_and!; [done|done| |done]. by transitivity B1.
Qed.

Lemma equivalence_spec B a b :
  ok B → valid B a → valid B b →
  delivers B (equivalence B a b) (λ B' r, valid B' r
    ∧ ∀ ρ, eval B' r ρ = eqb (eval B a ρ) (eval B b ρ)).
Proof.
  intros Hok Ha Hb. unfold equivalence. eapply delivers_bind; [by apply apply_spec|].
  intros B1 d Hok1 Hg1 [_ _ Vd Ed _].
  destruct (negate_spec B1 d Hok1 Vd) as (r & B2 & E & Hok2 & Hg2 & [_ Vr Er _]).
  exists r, B2. split_and!; try done. intros ρ. specialize (Er ρ). unfold not_meaning in Er.
  rewrite (eval_grows B1 (ok_shape _ Hok1) B2 d), Ed in Er by done.
  rewrite !(eval_grows B (ok_shape _ Hok) B1) in Er by done. cbn in Er.
  destruct (eval B2 r ρ), (eval B a ρ), (eval B b ρ); cbn in *; naive_solver.
Qed.

Lemma ite_spec B c t e :
  ok B → valid B c → valid B t → valid B e →
  delivers B (ite B c t e) (λ B' r, valid B' r
    ∧ ∀ ρ, eval B' r ρ = if eval B c ρ then eval B t ρ else eval B e ρ).
Proof.
  intros Hok Hc Ht He. unfold ite. eapply delivers_bind; [by apply apply_spec|].
  intros B1 y Hok1 Hg1 [_ _ Vy Ey _]. eapply delivers_bind; [apply negate_spec; eauto with bdd|].
  intros B2 n Hok2 Hg2 [_ Vn En _]. eapply delivers_bind; [apply apply_spec; eauto with bdd|].
  intros B3 z Hok3 Hg3 [_ _ Vz Ez _].
  destruct (apply_spec B3 OR y z) as (r & B4 & E4 & Hok4 & Hg4 & [_ _ Vr Er _]); [eauto with bdd..|].
  exists r, B4. split_and!; try done. intros ρ. rewrite Er.
  rewrite !(eval_grows B3 (ok_shape _ Hok3) B4) by (eauto with bdd). rewrite Ez.
  rewrite !(eval_grows B2 (ok_shape _ Hok2) B3) by (eauto with bdd).
  rewrite (eval_grows B1 (ok_shape _ Hok1) B2 y), Ey by done.
  assert (eval B2 n ρ = negb (eval B c ρ)) as ->.
  { specialize (En ρ). unfold not_meaning in En.
    rewrite (eval_grows B (ok_shape _ Hok) B2 c) in En by (done || by etrans).
    destruct (eval B2 n ρ), (eval B c ρ); cbn; naive_solver. }
  rewrite (eval_grows B (ok_shape _ Hok) B2 e) by (done || by etrans).
  rewrite !(eval_grows B (ok_shape _ Hok) B1) by done. cbn.
  by destruct (eval B c ρ), (eval B t ρ), (eval B e ρ).
Qed.

Lemma exists_node_spec vs B c nd l h :
  ok B → bdd_nodes B !! c = Some (Some nd) →
  unary_post (exists_meaning vs) true B (bn_low nd) l →
  unary_post (exists_meaning vs) true B (bn_high nd) h →
  delivers B (exists_node vs B c nd l h) (λ B' r, unary_post (exists_meaning vs) true B' c r).
Proof.
  intros Hok Hnd [Vl Vl' El Al] [Vh Vh' Eh Ah]. pose proof (ok_shape B Hok) as Hsh.
  destruct (sh_node B Hsh c nd Hnd) as [_ _ _ Hal Hah]. unfold exists_node.
  assert (delivers B (if bool_decide (bn_variable nd ∈ vs) then apply B OR l h
                      else Ok (mk B (bn_variable nd) l h))
    (λ B' r, unary_post (exists_meaning vs) true B' c r)) as Hnode.
  { case_bool_decide as Hin.
    - destruct (apply_spec B OR l h) as (r & B1 & E1 & Hok1 & Hg1 & [_ _ Vr Er Ar]); [done..|].
      exists r, B1. split_and!; [done..|]. split; eauto with bdd.
      + intros ρ. rewrite Er, !(eval_grows B Hsh B1) by done. cbn. rewrite orb_true_iff, El, Eh.
        unfold exists_meaning. split.
        * intros [(ρ' & Hρ & Hev)|(ρ' & Hρ & Hev)];
            [exists (update ρ' (bn_variable nd) false)|exists (update ρ' (bn_variable nd) true)];
            (split; [intros x Hx; unfold update; rewrite decide_False by (by intros ->); auto|]);
            rewrite (eval_grows B Hsh B1), (eval_node B Hsh c nd), update_same by (eauto with bdd);
            (rewrite <-Hev; apply (eval_agree B Hsh _ (bn_variable nd)); [done..|]);
            intros x Hx; unfold update; by rewrite decide_False by lia.
        * intros (ρ' & Hρ & Hev). rewrite (eval_grows B Hsh B1), (eval_node B Hsh c nd) in Hev
            by (eauto with bdd). destruct (ρ' (bn_variable nd)); eauto.
      + intros _ v Hva. assert (v < bn_variable nd) as Hlt by (apply Hva; by eapply grows_lookup).
        apply Ar; (apply (above_grows B); [done|done|]).
        * apply Al; [done|]. eapply above_weaken; [|done]. lia.
        * apply Ah; [done|]. eapply above_weaken; [|done]. lia.
    - destruct (mk B (bn_variable nd) l h) as [r B1] eqn:Hmk.
      apply mk_spec in Hmk as R; [|auto..]. exists r, B1.
      pose proof R as [Hsh1 Hg1 Vr Er Ar _ _ _ _].
      split_and!; [done|by eapply mk_ok|done|]. split; eauto with bdd.
      + intros ρ. rewrite Er. unfold exists_meaning.
        setoid_rewrite (eval_grows B Hsh B1); [|done|by eapply lookup_valid].
        setoid_rewrite (eval_node B Hsh c nd); [|done]. split.
        * intros Hev. destruct (ρ (bn_variable nd)) eqn:Ev;
            [apply Eh in Hev as (ρ' & Hρ & Hev)|apply El in Hev as (ρ' & Hρ & Hev)];
            exists ρ'; (split; [done|]); by rewrite (Hρ _ Hin), Ev.
        * intros (ρ' & Hρ & Hev). rewrite (Hρ _ Hin) in Hev. case_match; [apply Eh|apply El]; by exists ρ'.
      + intros _ v Hva. apply Ar. apply Hva. by eapply grows_lookup. }
  destruct Hnode as (r & B1 & -> & Hok1 & Hg1 & Hpost). cbn. eexists r, _. split; [done|]. split_and!.
  - by apply ok_cache_exists.
  - etrans; [exact Hg1|]. by apply grows_same.
  - eapply unary_post_grows; [apply exists_respectful|apply Hok1|by apply grows_same|done].
Qed.

Lemma kept_values_ok F o B :
  shape B → (∀ c, c < 2 → ∀ ρ, (c = 1 ↔ F (eval B c) ρ)) → values_ok F o B kept_terminals.
Proof.
  intros Hsh HF. apply terminal_values_ok; [done|..].
  - intros [|[|]] Hc; [exists 0|exists 1|lia]; (split_and!; [reflexivity|lia|]); intros ρ; by apply HF.
  - intros c Hc. unfold kept_terminals, bdd_false, bdd_true.
    rewrite lookup_insert_ne, lookup_singleton_ne by lia. done.
Qed.

(** A terminal is its own quantification and renaming. *)
Lemma unary_terminal F o B a :
  shape B → a < 2 → (∀ ρ, (a = 1 ↔ F (eval B a) ρ)) → unary_post F o B a a.
Proof.
  intros Hsh Ha HF. split; [by apply valid_terminal..| |done].
  intros ρ. rewrite <-HF. destruct a as [|[|]]; [by rewrite eval_false|by rewrite eval_true|lia].
Qed.

Lemma exists_terminal vs B c ρ :
  shape B → c < 2 → (c = 1 ↔ exists_meaning vs (eval B c) ρ).
Proof.
  intros Hsh Hc. unfold exists_meaning. destruct c as [|[|]]; [| |lia].
  - split; [done|]. intros (ρ' & _ & H). by rewrite eval_false in H.
  - split; [|done]. intros _. exists ρ. by rewrite eval_true.
Qed.

Lemma exists_spec B a vs :
  ok B → valid B a →
  delivers B (exists_ B a vs) (λ B' r, unary_post (exists_meaning vs) true B' a r).
Proof.
  intros Hok Ha. pose proof (ok_shape B Hok) as Hsh. unfold exists_.
  destruct (Nat.ltb_spec a 2); cbn [orb].
  { exists a, B. split_and!; [done..|]. apply unary_terminal; [done..|]. intros ρ.
    by apply exists_terminal. }
  case_bool_decide as Hvs.
  { subst vs. exists a, B. split_and!; [done..|]. split; [done..| |done].
    intros ρ. split; [intros Hev; by exists ρ|]. intros (ρ' & Hρ & <-).
    apply (eval_ext B). intros x. symmetry. apply Hρ. set_solver. }
  destruct (bdd_exists_cache B !! (a, vs)) as [r|] eqn:Er.
  { exists r, B. split_and!; [done..|]. by apply ok_exists. }
  apply walk_spec; [apply exists_respectful|intros B' c r Hok'; by apply ok_exists
    |apply exists_node_spec|done|done|].
  apply kept_values_ok; [done|]. intros c Hc ρ. by apply exists_terminal.
Qed.

Lemma rename_node_spec m B c nd l h :
  ok B → bdd_nodes B !! c = Some (Some nd) →
  unary_post (rename_meaning m) false B (bn_low nd) l →
  unary_post (rename_meaning m) false B (bn_high nd) h →
  delivers B (rename_node m B c nd l h) (λ B' r, unary_post (rename_meaning m) false B' c r).
Proof.
  intros Hok Hnd [Vl Vl' El _] [Vh Vh' Eh _]. pose proof (ok_shape B Hok) as Hsh.
  unfold rename_node. set (w := default (bn_variable nd) (m !! bn_variable nd)).
  destruct (mk B w bdd_false bdd_true) as [d B1] eqn:Hmk.
  apply mk_spec in Hmk as R; [|done|by apply valid_terminal; [|unfold bdd_false; lia]
    |by apply valid_terminal; [|unfold bdd_true; lia]|by apply above_terminal; [|unfold bdd_false; lia]
    |by apply above_terminal; [|unfold bdd_true; lia]].
  pose proof R as [Hsh1 Hg1 Vd Ed _ _ _ _ _]. pose proof (mk_ok _ _ _ _ _ _ Hok R) as Hok1.
  destruct (ite_spec B1 d h l) as (r & B2 & E2 & Hok2 & Hg2 & Vr & Er); [eauto with bdd..|].
  rewrite E2. cbn [mbind result_bind].
  assert (grows B B2) as Hg by (by transitivity B1).
  assert (unary_post (rename_meaning m) false B2 c r) as Hpost.
  { split; eauto with bdd; [|done]. intros ρ. unfold rename_meaning in *.
    rewrite (eval_grows B Hsh B2 c), (eval_node B Hsh c nd) by (eauto with bdd).
    rewrite Er, Ed, !(eval_grows B Hsh B1) by done.
    rewrite eval_false, eval_true by done.
    assert (renamed m ρ (bn_variable nd) = ρ w) as -> by done.
    destruct (ρ w); [apply Eh|apply El]. }
  eexists r, _. split; [done|]. split_and!.
  - by apply ok_cache_rename.
  - etrans; [exact Hg|]. by apply grows_same.
  - eapply unary_post_grows; [apply rename_respectful|apply Hok2|by apply grows_same|done].
Qed.

Lemma rename_terminal m B c ρ : shape B → c < 2 → (c = 1 ↔ rename_meaning m (eval B c) ρ).
Proof.
  intros Hsh Hc. unfold rename_meaning. destruct c as [|[|]]; [| |lia].
  - by rewrite eval_false.
  - by rewrite eval_true.
Qed.

Lemma rename_spec B a m :
  ok B → valid B a →
  delivers B (rename B a m) (λ B' r, unary_post (rename_meaning m) false B' a r).
Proof.
  intros Hok Ha. pose proof (ok_shape B Hok) as Hsh. unfold rename.
  destruct (Nat.ltb_spec a 2); cbn [orb].
  { exists a, B. split_and!; [done..|]. apply unary_terminal; [done..|]. intros ρ.
    by apply rename_terminal. }
  case_bool_decide as Hm.
  { subst m. exists a, B. split_and!; [done..|]. split; [done..| |done].
    intros ρ. unfold rename_meaning. by rewrite (eval_ext B a (renamed ∅ ρ) ρ). }
  destruct (bdd_rename_cache B !! (a, frozen_mapping m)) as [r|] eqn:Er.
  { exists r, B. split_and!; [done..|]. by apply ok_rename. }
  apply walk_spec; [apply rename_respectful|intros B' c r Hok'; by apply ok_rename
    |apply rename_node_spec|done|done|].
  apply kept_values_ok; [done|]. intros c Hc ρ. by apply rename_terminal.
Qed.

Lemma init_ok : ok bdd_init.
Proof.
  split; cbn; [|intros *; rewrite lookup_empty; done..].
  split; cbn; try done.
  - intros r Hr Hv. unfold valid in Hv. cbn in Hv. lia.
  - intros [|[|]]; done.
  - intros v l h r. rewrite lookup_empty. split; [done|]. by destruct r as [|[|]].
Qed.

Lemma new_variable_spec B :
  ok B → ∃ r B', new_variable B = (r, B') ∧ ok B' ∧ grows B B' ∧ valid B' r
    ∧ bdd_next_variable B' = S (bdd_next_variable B)
    ∧ ∀ ρ, eval B' r ρ = ρ (bdd_next_variable B).
Proof.
  intros Hok. unfold new_variable. set (B0 := B <| bdd_next_variable := S (bdd_next_variable B) |>).
  assert (ok B0) as Hok0.
  { apply (ok_step B); auto; [apply (shape_same B); [done..|apply Hok]|by apply grows_same]. }
  pose proof (ok_shape _ Hok0) as Hsh0.
  destruct (mk B0 (bdd_next_variable B) bdd_false bdd_true) as [r B'] eqn:Hmk.
  assert (bdd_next_variable B' = bdd_next_variable B0) as En.
  { revert Hmk. unfold mk. repeat case_match; by intros [= <- <-]. }
  apply mk_spec in Hmk as R; [|done|by apply valid_terminal; [|unfold bdd_false; lia]
    |by apply valid_terminal; [|unfold bdd_true; lia]|by apply above_terminal; [|unfold bdd_false; lia]
    |by apply above_terminal; [|unfold bdd_true; lia]].
  exists r, B'. pose proof R as [_ Hg V E _ _ _ _ _]. split_and!; [done|by eapply mk_ok|done|done|done|].
  intros ρ. rewrite E, eval_false, eval_true by done. by destruct (ρ _).
Qed.

(* ------------------------------------------------------------------ *)
(** ** Managers the compiler can hold *)

(** A manager obtained from [_Bdd()] by public operations on valid references. *)
Inductive managed : Bdd → Prop :=
| managed_init : managed bdd_init
| managed_variable B r B' : managed B → new_variable B = (r, B') → managed B'
| managed_apply B op a b r B' :
    managed B → valid B a → valid B b → apply B op a b = Ok (r, B') → managed B'
| managed_negate B a r B' : managed B → valid B a → negate B a = Ok (r, B') → managed B'
| managed_exists B a vs r B' : managed B → valid B a → exists_ B a vs = Ok (r, B') → managed B'
| managed_rename B a m r B' : managed B → valid B a → rename B a m = Ok (r, B') → managed B'.

Lemma delivers_ok B m P r B' : delivers B m P → m = Ok (r, B') → ok B' ∧ grows B B' ∧ P B' r.
Proof. intros (r' & B'' & -> & ? & ? & ?) [= <- <-]. done. Qed.

Lemma managed_ok B : managed B → ok B.
Proof.
  induction 1 as [|B r B' _ IH E|B op a b r B' _ IH Ha Hb E|B a r B' _ IH Ha E
                 |B a vs r B' _ IH Ha E|B a m r B' _ IH Ha E].
  - apply init_ok.
  - destruct (new_variable_spec B IH) as (r' & B'' & E' & ? & _). congruence.
  - by eapply delivers_ok in E as [? _]; [|apply apply_spec].
  - by eapply delivers_ok in E as [? _]; [|apply negate_spec].
  - by eapply delivers_ok in E as [? _]; [|apply exists_spec].
  - by eapply delivers_ok in E as [? _]; [|apply rename_spec].
Qed.

(** Old references keep their meaning. *)
Definition keeps (B B' : Bdd) : Prop :=
  ∀ x ρ, valid B x → valid B' x ∧ eval B' x ρ = eval B x ρ.

Lemma grows_keeps B B' : ok B → grows B B' → keeps B B'.
Proof. intros Hok Hg x ρ Hx. split; [eauto with bdd|]. apply eval_grows; [apply Hok|done..]. Qed.

(** [apply] is total and correct.  For any two references of a managed BDD it
    returns (no exception, no exhausted loop) a reference denoting the conjunction,
    disjunction or exclusive-or of the two, in a manager in which every earlier
    reference keeps its meaning. *)
Lemma bdd_apply_correct B op a b :
  managed B → valid B a → valid B b →
  ∃ r B', apply B op a b = Ok (r, B') ∧ managed B' ∧ keeps B B' ∧ valid B' r
    ∧ ∀ ρ, eval B' r ρ = denote_operation op (eval B a ρ) (eval B b ρ).
Proof.
  intros Hm Ha Hb. pose proof (managed_ok B Hm) as Hok.
  destruct (apply_spec B op a b) as (r & B' & E & Hok' & Hg & [_ _ Vr Er _]); [done..|].
  exists r, B'. split_and!; [done|exact (managed_apply B op a b r B' Hm Ha Hb E)|by apply grows_keeps|done|].
  intros ρ. rewrite Er. by rewrite !(eval_grows B (ok_shape _ Hok) B').
Qed.

(** [negate], [exists] and [rename] are total and correct on every reference of a
    managed BDD: they denote negation, existential quantification over the given
    variables, and simultaneous substitution of variables (also when the substitution
    breaks the variable order), and keep the meaning of every earlier reference. *)
Lemma bdd_unary_correct B a vs m :
  managed B → valid B a →
  (∃ r B', negate B a = Ok (r, B') ∧ managed B' ∧ keeps B B' ∧ valid B' r
     ∧ ∀ ρ, eval B' r ρ = negb (eval B a ρ))
  ∧ (∃ r B', exists_ B a vs = Ok (r, B') ∧ managed B' ∧ keeps B B' ∧ valid B' r
     ∧ ∀ ρ, eval B' r ρ = true ↔ ∃ ρ', (∀ x, x ∉ vs → ρ' x = ρ x) ∧ eval B a ρ' = true)
  ∧ (∃ r B', rename B a m = Ok (r, B') ∧ managed B' ∧ keeps B B' ∧ valid B' r
     ∧ ∀ ρ, eval B' r ρ = eval B a (λ x, ρ (default x (m !! x)))).
Proof.
  intros Hm Ha. pose proof (managed_ok B Hm) as Hok. pose proof (ok_shape _ Hok) as Hsh. split_and!.
  - destruct (negate_spec B a) as (r & B' & E & Hok' & Hg & [_ Vr Er _]); [done..|].
    exists r, B'. split_and!; [done|exact (managed_negate B a r B' Hm Ha E)|by apply grows_keeps|done|].
    intros ρ. specialize (Er ρ). unfold not_meaning in Er. rewrite (eval_grows B Hsh B' a) in Er by done.
    destruct (eval B' r ρ), (eval B a ρ); naive_solver.
  - destruct (exists_spec B a vs) as (r & B' & E & Hok' & Hg & [_ Vr Er _]); [done..|].
    exists r, B'. split_and!; [done|exact (managed_exists B a vs r B' Hm Ha E)|by apply grows_keeps|done|].
    intros ρ. rewrite Er. unfold exists_meaning. by setoid_rewrite (eval_grows B Hsh B' a); [|done..].
  - destruct (rename_spec B a m) as (r & B' & E & Hok' & Hg & [_ Vr Er _]); [done..|].
    exists r, B'. split_and!; [done|exact (managed_rename B a m r B' Hm Ha E)|by apply grows_keeps|done|].
    intros ρ. specialize (Er ρ). unfold rename_meaning, renamed in Er.
    rewrite (eval_grows B Hsh B' a) in Er by done.
    destruct (eval B' r ρ), (eval B a (λ x, ρ (default x (m !! x)))); naive_solver.
Qed.

(** References are canonical: two references of a managed BDD are equal exactly
    when they denote the same Boolean function, so [satisfiable], a comparison with the
    false terminal, decides satisfiability exactly. *)
Lemma bdd_canonical B a b :
  managed B → valid B a → valid B b →
  (a = b ↔ ∀ ρ, eval B a ρ = eval B b ρ)
  ∧ (satisfiable B a = true ↔ ∃ ρ, eval B a ρ = true).
Proof.
  intros Hm Ha Hb. pose proof (ok_shape _ (managed_ok B Hm)) as Hsh. split.
  - split; [by intros ->|intros Heq; by apply (equal_references B)].
  - unfold satisfiable, bdd_false. rewrite negb_true_iff, Nat.eqb_neq. split.
    + intros Hne. destruct (satisfying_exists B a Hsh Ha Hne) as [ρ ?]. by exists ρ.
    + intros [ρ Hρ] ->. by rewrite eval_false in Hρ.
Qed.

(** [conjunction], [disjunction], [equivalence] and [ite] are total and denote the
    n-ary conjunction and disjunction (empty ones included), Boolean equality and
    if-then-else of their arguments. *)
Lemma bdd_derived_correct B rs a b c :
  managed B → (∀ r, r ∈ rs → valid B r) → valid B a → valid B b → valid B c →
  (∃ r B', conjunction B rs = Ok (r, B') ∧ keeps B B'
     ∧ ∀ ρ, eval B' r ρ = forallb (λ r, eval B r ρ) rs)
  ∧ (∃ r B', disjunction B rs = Ok (r, B') ∧ keeps B B'
     ∧ ∀ ρ, eval B' r ρ = existsb (λ r, eval B r ρ) rs)
  ∧ (∃ r B', equivalence B a b = Ok (r, B') ∧ keeps B B'
     ∧ ∀ ρ, eval B' r ρ = eqb (eval B a ρ) (eval B b ρ))
  ∧ (∃ r B', ite B c a b = Ok (r, B') ∧ keeps B B'
     ∧ ∀ ρ, eval B' r ρ = if eval B c ρ then eval B a ρ else eval B b ρ).
Proof.
  intros Hm Hrs Ha Hb Hc. pose proof (managed_ok B Hm) as Hok. split_and!.
  - destruct (conjunction_spec B rs) as (r & B' & ? & ? & ? & ? & ?); eauto 6 using grows_keeps.
  - destruct (disjunction_spec B rs) as (r & B' & ? & ? & ? & ? & ?); eauto 6 using grows_keeps.
  - destruct (equivalence_spec B a b) as (r & B' & ? & ? & ? & ? & ?); eauto 6 using grows_keeps.
  - destruct (ite_spec B c a b) as (r & B' & ? & ? & ? & ? & ?); eauto 6 using grows_keeps.
Qed.

(** Three variables, as the compiler allocates them. *)
Definition three_variables : Bdd :=
  let B := snd (new_variable bdd_init) in let B := snd (new_variable B) in snd (new_variable B).

Lemma managed_three : managed three_variables.
Proof.
  do 3 (eapply managed_variable; [|apply surjective_pairing]). apply managed_init.
Qed.

Ltac valid_three := unfold valid; vm_compute; repeat constructor.

