(* ===== verification/Failover.v ===== *)
(** * Failover: contracts, plans, the fixed policy and the retry graph

    [failover/contract.py], [failover/plan.py], [failover/policy.py] and
    [failover/assembly.py].  Seconds are rationals: every finite Python number is one,
    doubling and comparison are exact, and a doubling that overflows to infinity is
    absorbed by the [min] that follows it. *)

From Stdlib Require Import ZArith NArith QArith Lia Bool String.
From stdpp Require Import prelude strings gmap sorting.
From S2P Require Import Prelude Identity.

Set Default Goal Selector "!".
Open Scope Z_scope.

Definition contract_fail_if (b : bool) (m : string) : result unit :=
  raise_if b FailoverContractError m.

(** [a < b] on numbers; Python's two-argument [min] and [max] keep the first on a tie. *)
Definition qltb (a b : Q) : bool := negb (Qle_bool b a).
Definition qmin (a b : Q) : Q := if qltb b a then b else a.
Definition qmax (a b : Q) : Q := if qltb a b then b else a.

(* ------------------------------------------------------------------ *)
(** ** [contract.py] *)

Inductive FailureClass :=
| RATE_LIMITED | AUTH_REJECTED | SERVICE_UNAVAILABLE | INVALID_REQUEST
| REQUEST_TIMEOUT | NO_RESPONSE | UNKNOWN_OUTCOME | POLICY_DENIED.

Inductive FailureStrategy :=
| WAIT | TRANSFORM_REQUEST | REFRESH_CREDENTIAL | ROTATE_CREDENTIAL
| SWITCH_ENDPOINT | RETURN_TO_MODEL | ABORT.

#[export] Instance failure_class_eq_dec : EqDecision FailureClass.
Proof. solve_decision. Defined.
#[export] Instance failure_strategy_eq_dec : EqDecision FailureStrategy.
Proof. solve_decision. Defined.

(** A present string that is empty, untrimmed, multi-line or longer than [limit]. *)
Definition unsafe_text (value : str) (limit : nat) : bool :=
  is_nil value || negb (bool_decide (value = strip value)) || mem newline value
  || mem carriage_return value || (limit <? length value)%nat.

(** [_validate_error_hint] *)
Definition validate_error_hint (value : option str) : result unit :=
  match value with
  | None => Ok tt
  | Some v => contract_fail_if (unsafe_text v 128) "error_hint must be a safe, short, trimmed value"
  end.

Record FailureSignal := mkSignal { sig_status_code : option Z; sig_error_hint : option str }.
#[export] Instance failure_signal_eq_dec : EqDecision FailureSignal.
Proof. solve_decision. Defined.

(** [FailureSignal.__post_init__] *)
Definition FailureSignal_new (status_code : option Z) (error_hint : option str)
    : result FailureSignal :=
  contract_fail_if (match status_code with
                    | Some code => negb ((100 <=? code) && (code <=? 599)) | None => false end)
    "failure signal status_code must be an HTTP status code";;
  validate_error_hint error_hint;;
  Ok (mkSignal status_code error_hint).

Record FailureEvidence := mkEvidence {
  ev_category : FailureClass;
  ev_status_code : option Z;
  ev_error_hint : option str;
  ev_provider_code : option str;
  ev_message : option str;
  ev_retry_after_seconds : option Q
}.

(** [FailureEvidence.__post_init__] *)
Definition FailureEvidence_new (e : FailureEvidence) : result FailureEvidence :=
  _ ← FailureSignal_new (ev_status_code e) (ev_error_hint e);
  contract_fail_if (match ev_provider_code e with Some v => unsafe_text v 256 | None => false end)
    "failure evidence provider_code must be a safe short value";;
  contract_fail_if (match ev_message e with Some v => unsafe_text v 1024 | None => false end)
    "failure evidence message must be a safe bounded value";;
  contract_fail_if (match ev_retry_after_seconds e with Some v => qltb v 0 | None => false end)
    "failure evidence retry_after_seconds must be finite and non-negative";;
  Ok e.

(** [FailureEvidence.signal] *)
Definition evidence_signal (e : FailureEvidence) : result FailureSignal :=
  FailureSignal_new (ev_status_code e) (ev_error_hint e).

Inductive PortOutcome (Result Receipt Handle : Type) :=
| Completed (response : Result)
| Rejected (evidence : FailureEvidence)
| InProgress (receipt : Receipt)
| Unknown (handle : option Handle) (evidence : FailureEvidence).
Arguments Completed {_ _ _}.
Arguments Rejected {_ _ _}.
Arguments InProgress {_ _ _}.
Arguments Unknown {_ _ _}.

Inductive PreparationAction (Transform : Type) :=
| Wait (delay_seconds : Q)
| TransformRequest (instruction : Transform)
| RefreshCredential
| RotateCredential
| SwitchEndpoint.
Arguments Wait {_}.
Arguments TransformRequest {_}.
Arguments RefreshCredential {_}.
Arguments RotateCredential {_}.
Arguments SwitchEndpoint {_}.

(** [Wait.__post_init__] *)
Definition Wait_new {T} (delay_seconds : Q) : result (PreparationAction T) :=
  contract_fail_if (qltb delay_seconds 0) "wait delay_seconds must be finite and non-negative";;
  Ok (Wait delay_seconds).

(* ------------------------------------------------------------------ *)
(** ** [plan.py] *)

Inductive FailoverBindingMode := INHERIT | OVERRIDE | DISABLED.
Inductive OperationSemantics := PURE | IDEMPOTENT | RECEIPT_BASED | NON_REPEATABLE.

Record StrategyLimit := mkLimit { lim_strategy : FailureStrategy; lim_max_uses : Z }.

(** [StrategyLimit.__post_init__] *)
Definition StrategyLimit_new (strategy : FailureStrategy) (max_uses : Z) : result StrategyLimit :=
  contract_fail_if (max_uses <? 0) "strategy limit max_uses must be a non-negative integer";;
  Ok (mkLimit strategy max_uses).

Record RetryBudget := mkBudget {
  max_wire_attempts : Z;
  hard_max_wire_attempts : Z;
  default_max_strategy_uses : Z;
  strategy_limits : list StrategyLimit
}.
Definition default_budget : RetryBudget := mkBudget 3 10 1 [].

(** [RetryBudget.__post_init__] *)
Definition RetryBudget_new (b : RetryBudget) : result RetryBudget :=
  contract_fail_if (max_wire_attempts b <? 1) "max_wire_attempts must be a positive integer";;
  contract_fail_if (hard_max_wire_attempts b <? 1) "hard_max_wire_attempts must be a positive integer";;
  contract_fail_if (hard_max_wire_attempts b <? max_wire_attempts b)
    "max_wire_attempts cannot exceed hard_max_wire_attempts";;
  contract_fail_if (default_max_strategy_uses b <? 0)
    "default_max_strategy_uses must be a non-negative integer";;
  contract_fail_if (negb (no_repeats (lim_strategy <$> strategy_limits b)))
    "strategy_limits cannot contain duplicate strategies";;
  Ok b.

Definition max_uses_for (b : RetryBudget) (strategy : FailureStrategy) : Z :=
  match List.find (λ limit, bool_decide (lim_strategy limit = strategy)) (strategy_limits b) with
  | Some limit => lim_max_uses limit
  | None => default_max_strategy_uses b
  end.

Record RetryTiming := mkTiming {
  base_backoff_seconds : Q;
  max_backoff_seconds : Q;
  attempt_timeout_seconds : Q;
  total_deadline_seconds : Q
}.
Definition default_timing : RetryTiming := mkTiming 0 60 30 300.

(** [RetryTiming.__post_init__] *)
Definition RetryTiming_new (t : RetryTiming) : result RetryTiming :=
  contract_fail_if (existsb (λ value, qltb value 0)
      [base_backoff_seconds t; max_backoff_seconds t; attempt_timeout_seconds t;
       total_deadline_seconds t])
    "retry timing values must be finite and non-negative";;
  contract_fail_if (qltb (max_backoff_seconds t) (base_backoff_seconds t))
    "max_backoff_seconds cannot be less than base_backoff_seconds";;
  contract_fail_if (Qle_bool (attempt_timeout_seconds t) 0 || Qle_bool (total_deadline_seconds t) 0)
    "attempt timeout and total deadline must be positive";;
  contract_fail_if (qltb (total_deadline_seconds t) (attempt_timeout_seconds t))
    "attempt timeout cannot exceed total deadline";;
  Ok t.

Record FailoverProfile (T : Type) := mkProfile {
  profile_id : str;
  prof_budget : RetryBudget;
  prof_timing : RetryTiming;
  prof_semantics : OperationSemantics;
  request_transform : option T  (** the instruction of a [TransformRequest] *)
}.
Arguments mkProfile {_}.
Arguments profile_id {_}.
Arguments prof_budget {_}.
Arguments prof_timing {_}.
Arguments prof_semantics {_}.
Arguments request_transform {_}.

(** [FailoverProfile.__post_init__] *)
Definition FailoverProfile_new {T} (p : FailoverProfile T) : result (FailoverProfile T) :=
  contract_fail_if (negb (is_canonical_identity (profile_id p)))
    "failover profile_id must be canonical";;
  Ok p.

Record FailoverProfileOverride (T : Type) := mkOverride {
  ovr_budget : option RetryBudget;
  ovr_timing : option RetryTiming;
  ovr_semantics : option OperationSemantics;
  ovr_request_transform : option T
}.
Arguments mkOverride {_}.
Arguments ovr_budget {_}.
Arguments ovr_timing {_}.
Arguments ovr_semantics {_}.
Arguments ovr_request_transform {_}.

Record PortBinding (T : Type) := mkBinding {
  bind_mode : FailoverBindingMode;
  bind_override : option (FailoverProfileOverride T)
}.
Arguments mkBinding {_}.
Arguments bind_mode {_}.
Arguments bind_override {_}.

(** [PortBinding.__post_init__] *)
Definition PortBinding_new {T} (mode : FailoverBindingMode)
    (override : option (FailoverProfileOverride T)) : result (PortBinding T) :=
  match mode, override with
  | OVERRIDE, None =>
      Raise (Exn FailoverContractError "override binding requires FailoverProfileOverride")
  | INHERIT, Some _ | DISABLED, Some _ =>
      Raise (Exn FailoverContractError "inherit and disabled bindings cannot carry an override")
  | _, _ => Ok (mkBinding mode override)
  end.

Record FailoverConfigSnapshot (T : Type) := mkConfigSnapshot {
  snap_revision : Z;
  default_profile : FailoverProfile T
}.
Arguments mkConfigSnapshot {_}.
Arguments snap_revision {_}.
Arguments default_profile {_}.

(** [FailoverConfigSnapshot.__post_init__] *)
Definition FailoverConfigSnapshot_new {T} (revision : Z) (profile : FailoverProfile T)
    : result (FailoverConfigSnapshot T) :=
  contract_fail_if (revision <? 1) "failover config revision must be a positive integer";;
  Ok (mkConfigSnapshot revision profile).

Record FailoverPlan (T : Type) := mkPlan {
  plan_revision : Z;
  plan_port_id : str;
  plan_profile : FailoverProfile T
}.
Arguments mkPlan {_}.
Arguments plan_revision {_}.
Arguments plan_port_id {_}.
Arguments plan_profile {_}.

(** [FailoverPlan.__post_init__] *)
Definition FailoverPlan_new {T} (revision : Z) (port_id : str) (profile : FailoverProfile T)
    : result (FailoverPlan T) :=
  contract_fail_if (revision <? 1) "failover plan revision must be a positive integer";;
  contract_fail_if (negb (is_canonical_identity port_id)) "failover plan port_id must be canonical";;
  Ok (mkPlan revision port_id profile).

(** [x if x is not None else default] *)
Definition override_with {A} (o : option A) (d : A) : A := default d o.

Definition merge_profile {T} (default : FailoverProfile T)
    (override : option (FailoverProfileOverride T)) : result (FailoverProfile T) :=
  match override with
  | None => Ok default
  | Some override =>
      FailoverProfile_new (mkProfile (profile_id default)
        (override_with (ovr_budget override) (prof_budget default))
        (override_with (ovr_timing override) (prof_timing default))
        (override_with (ovr_semantics override) (prof_semantics default))
        (match ovr_request_transform override with
         | Some t => Some t | None => request_transform default end))
  end.

Definition resolve_plan {T} (snapshot : FailoverConfigSnapshot T) (port_id : str)
    (binding : PortBinding T) : result (option (FailoverPlan T)) :=
  contract_fail_if (negb (is_canonical_identity port_id))
    "plan resolution port_id must be canonical";;
  match bind_mode binding with
  | DISABLED => Ok None
  | _ =>
      profile ← merge_profile (default_profile snapshot) (bind_override binding);
      plan ← FailoverPlan_new (snap_revision snapshot) port_id profile;
      Ok (Some plan)
  end.

Record StrategyUsage := mkUsage { use_strategy : FailureStrategy; use_used : Z }.

(** [StrategyUsage.__post_init__] *)
Definition StrategyUsage_new (strategy : FailureStrategy) (used : Z) : result StrategyUsage :=
  contract_fail_if (used <? 0) "strategy usage must be a non-negative integer";;
  Ok (mkUsage strategy used).

(** A [datetime]: its instant and whether [tzinfo] is set. *)
Record Datetime := mkDatetime { dt_instant : Z; dt_aware : bool }.

Record RetryContext := mkContext {
  rc_operation_id : str;
  rc_plan_revision : Z;
  rc_request_version : Z;
  rc_attempt_ordinal : Z;
  rc_endpoint_cursor : Z;
  rc_credential_cursor : Z;
  rc_strategy_usages : list StrategyUsage;
  rc_last_failure : option FailureClass;
  rc_last_signal : option FailureSignal;
  rc_last_strategy : option FailureStrategy;
  rc_wait_until : option Datetime
}.
#[export] Instance retry_context_eta : Eta RetryContext := λ c,
  mkContext (rc_operation_id c) (rc_plan_revision c) (rc_request_version c) (rc_attempt_ordinal c)
    (rc_endpoint_cursor c) (rc_credential_cursor c) (rc_strategy_usages c) (rc_last_failure c)
    (rc_last_signal c) (rc_last_strategy c) (rc_wait_until c).

(** [RetryContext.__post_init__], which [replace] runs again. *)
Definition RetryContext_new (c : RetryContext) : result RetryContext :=
  contract_fail_if (negb (is_canonical_identity (rc_operation_id c)))
    "retry context operation_id must be canonical";;
  contract_fail_if (rc_plan_revision c <? 1) "retry context plan_revision must be a positive integer";;
  contract_fail_if (existsb (λ counter, counter <? 0)
      [rc_request_version c; rc_attempt_ordinal c; rc_endpoint_cursor c; rc_credential_cursor c])
    "retry context cursors must be non-negative integers";;
  contract_fail_if (rc_request_version c <? 1) "retry context request_version must be positive";;
  contract_fail_if (negb (no_repeats (use_strategy <$> rc_strategy_usages c)))
    "retry context strategy_usages cannot contain duplicates";;
  contract_fail_if (match rc_wait_until c with Some d => negb (dt_aware d) | None => false end)
    "retry context wait_until must be timezone-aware";;
  Ok c.

Definition uses_for (c : RetryContext) (strategy : FailureStrategy) : Z :=
  match List.find (λ usage, bool_decide (use_strategy usage = strategy)) (rc_strategy_usages c) with
  | Some usage => use_used usage
  | None => 0
  end.

Definition with_strategy_use (c : RetryContext) (strategy : FailureStrategy) : result RetryContext :=
  let current := uses_for c strategy in
  let usages := List.filter (λ usage, negb (bool_decide (use_strategy usage = strategy)))
                  (rc_strategy_usages c) in
  usage ← StrategyUsage_new strategy (current + 1);
  RetryContext_new (c <| rc_strategy_usages := usages ++ [usage] |>
                      <| rc_last_strategy := Some strategy |>).
