(* ===== verification/FailoverGraph.v ===== *)
(** * The failover policy and its retry graph

    [failover/policy.py]: the fixed (status, hint) table, the budget checks and the
    back-off; [failover/assembly.py]: the three nodes OBSERVE, INVOKE and PREPARE, and
    the graph START -> OBSERVE -> INVOKE -> PREPARE -(prepare)-> INVOKE, -(finish)-> END
    run to its end.  The wrapped Port, the preparation capability and the activation
    Config are parameters. *)

From Stdlib Require Import ZArith NArith QArith Lia Bool String.
From stdpp Require Import prelude strings gmap sorting.
From S2P Require Import Prelude Identity Failover.

Set Default Goal Selector "!".
Open Scope Z_scope.

(* ------------------------------------------------------------------ *)
(** ** [policy.py] *)

Inductive ObservationRoute := ROUTE_COMPLETED | ROUTE_PREPARE | ROUTE_RETURN_TO_MODEL | ROUTE_ABORT.
#[export] Instance observation_route_eq_dec : EqDecision ObservationRoute.
Proof. solve_decision. Defined.

Record FailoverDecision (T : Type) := mkDecision {
  dec_route : ObservationRoute;
  dec_strategy : option FailureStrategy;
  dec_preparation : option (PreparationAction T);
  dec_evidence : option FailureEvidence;
  dec_budget_exhausted : bool
}.
Arguments mkDecision {_}.
Arguments dec_route {_}.
Arguments dec_strategy {_}.
Arguments dec_preparation {_}.
Arguments dec_evidence {_}.
Arguments dec_budget_exhausted {_}.

(** [FailoverDecision.__post_init__] *)
Definition FailoverDecision_new {T} (d : FailoverDecision T) : result (FailoverDecision T) :=
  contract_fail_if (dec_budget_exhausted d && negb (bool_decide (dec_route d = ROUTE_RETURN_TO_MODEL)))
    "an exhausted budget must return to the model";;
  match dec_route d with
  | ROUTE_COMPLETED =>
      contract_fail_if (bool_decide (is_Some (dec_strategy d))
                        || match dec_preparation d with Some _ => true | None => false end
                        || match dec_evidence d with Some _ => true | None => false end)
        "completed decisions cannot carry failure data"
  | ROUTE_PREPARE =>
      contract_fail_if (negb (mem (dec_strategy d)
          [Some WAIT; Some TRANSFORM_REQUEST; Some REFRESH_CREDENTIAL; Some ROTATE_CREDENTIAL;
           Some SWITCH_ENDPOINT]))
        "prepare decisions require a preparation strategy";;
      contract_fail_if (match dec_preparation d with Some _ => false | None => true end)
        "prepare decisions require a preparation action"
  | ROUTE_ABORT =>
      contract_fail_if (negb (bool_decide (dec_strategy d = Some ABORT)))
        "abort decisions require the abort strategy";;
      contract_fail_if (match dec_preparation d with Some _ => true | None => false end)
        "abort decisions cannot carry preparation"
  | ROUTE_RETURN_TO_MODEL =>
      contract_fail_if (match dec_preparation d with Some _ => true | None => false end)
        "terminal model decisions cannot carry preparation"
  end;;
  Ok d.

(** [_FIXED_RULES] *)
Definition fixed_rules : list (FailureSignal * FailureStrategy) :=
  [(mkSignal (Some 429) (Some (lit "rate_limited")), WAIT);
   (mkSignal (Some 429) (Some (lit "quota_exceeded")), WAIT);
   (mkSignal (Some 401) (Some (lit "token_expired")), REFRESH_CREDENTIAL);
   (mkSignal (Some 401) (Some (lit "invalid_credential")), ROTATE_CREDENTIAL);
   (mkSignal (Some 401) (Some (lit "invalid_api_key")), ROTATE_CREDENTIAL);
   (mkSignal (Some 503) (Some (lit "service_unavailable")), SWITCH_ENDPOINT);
   (mkSignal (Some 503) (Some (lit "overloaded")), SWITCH_ENDPOINT);
   (mkSignal (Some 408) (Some (lit "request_timeout")), WAIT);
   (mkSignal (Some 504) (Some (lit "request_timeout")), WAIT);
   (mkSignal (Some 400) (Some (lit "bad_payload")), TRANSFORM_REQUEST);
   (mkSignal (Some 403) (Some (lit "forbidden")), RETURN_TO_MODEL);
   (mkSignal (Some 409) (Some (lit "conflict")), ABORT)].

(** [_fixed_strategy] *)
Definition fixed_strategy (evidence : FailureEvidence) : result (option FailureStrategy) :=
  signal ← evidence_signal evidence;
  Ok (snd <$> List.find (λ rule, bool_decide (rule.1 = signal)) fixed_rules).

(** The doubling loop of [_backoff_seconds]. *)
Fixpoint doubled (n : nat) (limit delay : Q) : Q :=
  match n with
  | O => delay
  | S n => doubled n limit (qmin limit (delay * 2))
  end.

(** [_backoff_seconds] *)
Definition backoff_seconds {T} (plan : FailoverPlan T) (context : RetryContext)
    (evidence : FailureEvidence) : Q :=
  let timing := prof_timing (plan_profile plan) in
  let delay := doubled (Z.to_nat (Z.min (rc_attempt_ordinal context) 1024))
                 (max_backoff_seconds timing) (base_backoff_seconds timing) in
  let delay := qmin (max_backoff_seconds timing) delay in
  match ev_retry_after_seconds evidence with
  | Some retry_after => qmax delay retry_after
  | None => delay
  end.

(** [_preparation_for] *)
Definition preparation_for {T} (strategy : FailureStrategy) (evidence : FailureEvidence)
    (plan : FailoverPlan T) (context : RetryContext) : result (PreparationAction T) :=
  match strategy with
  | WAIT => Wait_new (backoff_seconds plan context evidence)
  | REFRESH_CREDENTIAL => Ok RefreshCredential
  | ROTATE_CREDENTIAL => Ok RotateCredential
  | _ => Ok SwitchEndpoint
  end.

(** [FailoverDecision(RETURN_TO_MODEL, ...)] *)
Definition return_to_model {T} (strategy : option FailureStrategy) (evidence : option FailureEvidence)
    (exhausted : bool) : result (FailoverDecision T) :=
  FailoverDecision_new (mkDecision ROUTE_RETURN_TO_MODEL strategy None evidence exhausted).

Definition route_rejected {T} (evidence : FailureEvidence) (plan : FailoverPlan T)
    (context : RetryContext) : result (FailoverDecision T) :=
  contract_fail_if (negb (rc_plan_revision context =? plan_revision plan))
    "rejected routing requires the context's captured plan revision";;
  strategy ← fixed_strategy evidence;
  match strategy with
  | None => return_to_model None (Some evidence) false
  | Some RETURN_TO_MODEL => return_to_model (Some RETURN_TO_MODEL) (Some evidence) false
  | Some ABORT =>
      FailoverDecision_new (mkDecision ROUTE_ABORT (Some ABORT) None (Some evidence) false)
  | Some strategy =>
      let budget := prof_budget (plan_profile plan) in
      if (max_uses_for budget strategy <=? uses_for context strategy)
         || (max_wire_attempts budget - 1 <=? rc_attempt_ordinal context)
      then return_to_model (Some strategy) (Some evidence) true
      else
        preparation ←
          match strategy with
          | TRANSFORM_REQUEST => Ok (TransformRequest <$> request_transform (plan_profile plan))
          | _ => action ← preparation_for strategy evidence plan context; Ok (Some action)
          end;
        match preparation with
        | None => return_to_model (Some strategy) (Some evidence) false
        | Some action =>
            FailoverDecision_new
              (mkDecision ROUTE_PREPARE (Some strategy) (Some action) (Some evidence) false)
        end
  end.

Definition observe_and_route {R C H T} (outcome : PortOutcome R C H) (plan : FailoverPlan T)
    (context : RetryContext) : result (FailoverDecision T) :=
  contract_fail_if (negb (rc_plan_revision context =? plan_revision plan))
    "observation requires the context's captured plan revision";;
  match outcome with
  | Completed _ => FailoverDecision_new (mkDecision ROUTE_COMPLETED None None None false)
  | Rejected evidence => route_rejected evidence plan context
  | InProgress _ => return_to_model None None false
  | Unknown _ evidence => return_to_model None (Some evidence) false
  end.

(* ------------------------------------------------------------------ *)
(** ** [assembly.py] *)

(** What [values.activation_config] gives a node: nothing, or the outcome of
    [config.bind(binding)], a projection [P] or none. *)
Definition Bound (P : Type) : Type := option (result (option P)).

(** [_runtime_plan] and [_runtime_config]: the projection of the current activation. *)
Definition runtime_projection {P} (port_of : P → str) (bound : Bound P) (fallback : P) : result P :=
  match bound with
  | None => Ok fallback
  | Some bind =>
      selected ← except_str (λ k, bool_decide (k = ConfigContractError)) FailoverContractError bind;
      match selected with
      | None => Raise (Exn FailoverContractError
                  "failover Config binding did not provide the compiled Port projection")
      | Some projection =>
          contract_fail_if (negb (bool_decide (port_of projection = port_of fallback)))
            "failover Config binding changed the compiled Port contract";;
          Ok projection
      end
  end.

Section graph.
Context {Request Result Receipt Handle Transform : Type}.
Notation outcome_t := (PortOutcome Result Receipt Handle).
Notation plan_t := (FailoverPlan Transform).

(** A preparation capability: it raises or returns the next request. *)
Definition Preparation : Type := Request → PreparationAction Transform → result Request.

Record FailoverCall := mkCall { call_operation_id : str; call_request : Request }.

(** [FailoverCall.__post_init__] *)
Definition FailoverCall_new (operation_id : str) (request : Request) : result FailoverCall :=
  contract_fail_if (negb (is_canonical_identity operation_id))
    "failover call operation_id must be canonical";;
  Ok (mkCall operation_id request).

(** [_InvokeStep] and [_ObserveStep] *)
Inductive FailoverStep :=
| InvokeStep (request : Request) (context : RetryContext)
| ObserveStep (request : Request) (context : RetryContext) (outcome : outcome_t).

Definition step_context (step : FailoverStep) : RetryContext :=
  match step with InvokeStep _ c | ObserveStep _ c _ => c end.

Record FailoverFrame := mkFrame { frame_step : FailoverStep; frame_plan : plan_t }.

(** [_FailoverFrame.__post_init__] *)
Definition FailoverFrame_new (step : FailoverStep) (plan : plan_t) : result FailoverFrame :=
  contract_fail_if (negb (rc_plan_revision (step_context step) =? plan_revision plan))
    "failover frame context and plan revisions must match";;
  Ok (mkFrame step plan).

Record FailoverResult := mkFailoverResult {
  fr_request : Request;
  fr_context : RetryContext;
  fr_outcome : outcome_t;
  fr_decision : FailoverDecision Transform
}.

(** [FailoverResult.__post_init__] *)
Definition FailoverResult_new (r : FailoverResult) : result FailoverResult :=
  contract_fail_if (bool_decide (dec_route (fr_decision r) = ROUTE_ABORT))
    "failover result cannot carry an abort decision";;
  contract_fail_if (bool_decide (dec_route (fr_decision r) = ROUTE_COMPLETED)
                    && match fr_outcome r with Completed _ => false | _ => true end)
    "a completed failover result requires a completed Port outcome";;
  Ok r.

(** [_ObserveCall.__call__] *)
Definition observe_call (config : plan_t) (bound : Bound plan_t) (call : FailoverCall)
    : result FailoverFrame :=
  plan ← runtime_projection plan_port_id bound config;
  context ← RetryContext_new
    (mkContext (call_operation_id call) (plan_revision plan) 1 0 0 0 [] None None None None);
  FailoverFrame_new (InvokeStep (call_request call) context) plan.

(** [_InvokeOnce.__call__]; [response] is what the one [invoke_once] call did. *)
Definition invoke_once (config : plan_t) (bound : Bound plan_t)
    (port : Request → result outcome_t) (frame : FailoverFrame) : result FailoverFrame :=
  match frame_step frame with
  | ObserveStep _ _ _ => Raise (Exn FailoverContractError "invoke node requires an invoke step")
  | InvokeStep request context =>
      plan ← runtime_projection plan_port_id bound config;
      contract_fail_if (negb (rc_plan_revision context =? plan_revision plan))
        "failover frame context and bound plan revisions must match";;
      outcome ← port request;
      FailoverFrame_new (ObserveStep request context outcome) plan
  end.

(** What the PREPARE node returns to the engine. *)
Inductive PrepareOutcome :=
| GraphFailure (message : string)
| GraphSuccess (frame : FailoverFrame) (result_ : FailoverResult) (prepare_route : bool).

(** The context after observing a failure, [replace(context, last_failure=..., last_signal=...)]. *)
Definition observed_context (context : RetryContext) (outcome : outcome_t) : result RetryContext :=
  match outcome with
  | Rejected evidence | Unknown _ evidence =>
      signal ← evidence_signal evidence;
      RetryContext_new (context <| rc_last_failure := Some (ev_category evidence) |>
                                <| rc_last_signal := Some signal |>)
  | _ => Ok context
  end.

(** [int(isinstance(action, ...))] *)
Definition is_transform (a : PreparationAction Transform) : Z :=
  match a with TransformRequest _ => 1 | _ => 0 end.
Definition is_switch (a : PreparationAction Transform) : Z :=
  match a with SwitchEndpoint => 1 | _ => 0 end.
Definition is_rotate (a : PreparationAction Transform) : Z :=
  match a with RotateCredential => 1 | _ => 0 end.

(** The durable cursor of the next attempt. *)
Definition next_context (context : RetryContext) (strategy : FailureStrategy)
    (action : PreparationAction Transform) : result RetryContext :=
  used ← with_strategy_use context strategy;
  RetryContext_new (used
    <| rc_request_version := rc_request_version used + is_transform action |>
    <| rc_attempt_ordinal := rc_attempt_ordinal used + 1 |>
    <| rc_endpoint_cursor := rc_endpoint_cursor used + is_switch action |>
    <| rc_credential_cursor := rc_credential_cursor used + is_rotate action |>
    <| rc_wait_until := None |>).

(** [_PrepareNextAttempt.__call__] *)
Definition prepare_next_attempt (config : plan_t) (preparation : Preparation)
    (bound : Bound (plan_t * Preparation)) (frame : FailoverFrame) : result PrepareOutcome :=
  match frame_step frame with
  | InvokeStep _ _ => Raise (Exn FailoverContractError "prepare node requires an observe step")
  | ObserveStep request context outcome =>
      '(plan, preparation) ←
        runtime_projection (plan_port_id ∘ fst) bound (config, preparation);
      contract_fail_if (negb (rc_plan_revision context =? plan_revision plan))
        "failover frame context and bound plan revisions must match";;
      decision ← observe_and_route outcome plan context;
      context ← observed_context context outcome;
      match dec_route decision with
      | ROUTE_ABORT => Ok (GraphFailure "failover policy aborted the operation")
      | route =>
          result_ ← FailoverResult_new (mkFailoverResult request context outcome decision);
          match route, dec_strategy decision, dec_preparation decision with
          | ROUTE_PREPARE, Some strategy, Some action =>
              prepared ← preparation request action;
              context ← next_context context strategy action;
              next_frame ← FailoverFrame_new (InvokeStep prepared context) plan;
              Ok (GraphSuccess next_frame result_ true)
          | _, _, _ =>
              next_frame ← FailoverFrame_new (ObserveStep request context outcome) plan;
              Ok (GraphSuccess next_frame result_ false)
          end
      end
  end.

(** How one run of the failover graph ends. *)
Inductive FailoverEnd := Finished (result_ : FailoverResult) | Failed (message : string).

Context (config : plan_t) (preparation : Preparation) (port : Request → result outcome_t).
(** The activation Configs of the INVOKE and PREPARE activations, by round. *)
Context (invoke_config : nat → Bound plan_t) (prepare_config : nat → Bound (plan_t * Preparation)).

(** Alternate INVOKE and PREPARE until the FINISH route; [round] counts completed
    rounds, the result carries the number of wire calls made. *)
Fixpoint rounds (fuel round : nat) (frame : FailoverFrame) : result (FailoverEnd * nat) :=
  match fuel with
  | O => Raise (Exn Diverged "failover")
  | S fuel =>
      observed ← invoke_once config (invoke_config round) port frame;
      outcome ← prepare_next_attempt config preparation (prepare_config round) observed;
      match outcome with
      | GraphFailure message => Ok (Failed message, S round)
      | GraphSuccess next_frame result_ true => rounds fuel (S round) next_frame
      | GraphSuccess _ result_ false => Ok (Finished result_, S round)
      end
  end.

(** One call of the decorated Port. *)
Definition run_failover (fuel : nat) (observe_config : Bound plan_t) (call : FailoverCall)
    : result (FailoverEnd * nat) :=
  frame ← observe_call config observe_config call;
  rounds fuel 0 frame.
End graph.

(** [_definition_id] *)
Definition failover_definition_id (port_id : str) : str :=
  identity_fields [lit "mote.failover.v1"; port_id].
