(* ===== verification/FailoverProofs.v ===== *)
(** * Properties of failover

    Totality and exactness of routing, the closed form of the back-off, the bound on wire
    attempts and strategy uses of a whole run, and plan resolution. *)

From Stdlib Require Import ZArith NArith QArith Qpower Qminmax Lqa Lia Bool String.
From stdpp Require Import prelude strings gmap sorting.
From S2P Require Import Prelude Identity Failover FailoverGraph.

Set Default Goal Selector "!".
Open Scope Z_scope.

Lemma contract_fail_if_Ok b m u : contract_fail_if b m = Ok u ↔ b = false.
Proof. apply raise_if_Ok. Qed.
#[export] Hint Rewrite contract_fail_if_Ok : checks.

(* ------------------------------------------------------------------ *)
(** ** Rational comparisons *)

Lemma qltb_true a b : qltb a b = true ↔ (a < b)%Q.
Proof.
  unfold qltb. rewrite negb_true_iff, <-not_true_iff_false, Qle_bool_iff. split.
  - apply Qnot_le_lt.
  - apply Qlt_not_le.
Qed.
Lemma qltb_false a b : qltb a b = false ↔ (b <= a)%Q.
Proof. unfold qltb. by rewrite negb_false_iff, Qle_bool_iff. Qed.

Lemma qmin_Qmin a b : (qmin a b == Qmin a b)%Q.
Proof.
  unfold qmin. destruct (qltb b a) eqn:E.
  - apply qltb_true in E. symmetry. apply Q.min_r. by apply Qlt_le_weak.
  - apply qltb_false in E. symmetry. by apply Q.min_l.
Qed.
Lemma qmax_Qmax a b : (qmax a b == Qmax a b)%Q.
Proof.
  unfold qmax. destruct (qltb a b) eqn:E.
  - apply qltb_true in E. symmetry. apply Q.max_r. by apply Qlt_le_weak.
  - apply qltb_false in E. symmetry. by apply Q.max_l.
Qed.

(* ------------------------------------------------------------------ *)
(** ** Back-off *)

(** A timing the constructor admits. *)
Definition timing_ok (t : RetryTiming) : Prop := RetryTiming_new t = Ok t.

Lemma timing_bounds t :
  timing_ok t → (0 <= base_backoff_seconds t)%Q ∧ (base_backoff_seconds t <= max_backoff_seconds t)%Q.
Proof.
  unfold timing_ok, RetryTiming_new. checks. rewrite existsb_false_iff.
  intros (Hall & H%qltb_false & _). split; [|done].
  apply qltb_false, Hall. by left.
Qed.

Lemma doubled_closed n : ∀ limit delay,
  (0 <= delay)%Q → (delay <= limit)%Q →
  (doubled n limit delay == Qmin limit (delay * 2 ^ Z.of_nat n))%Q.
Proof.
  induction n as [|n IH]; intros limit delay H0 Hle; cbn [doubled].
  - change (2 ^ Z.of_nat 0)%Q with 1%Q. rewrite Q.min_r; lra.
  - rewrite IH.
    + rewrite Nat2Z.inj_succ, <-Z.add_1_r, Qpower_plus by lra.
      assert (0 < 2 ^ Z.of_nat n)%Q as Hp by (apply Qpower_0_lt; lra).
      assert (1 <= 2 ^ Z.of_nat n)%Q as Hp1 by (apply Qpower_1_le; lra || lia).
      rewrite qmin_Qmin. destruct (Qlt_le_dec limit (delay * 2)) as [Hlt|Hge].
      * rewrite (Q.min_l limit (delay * 2)) by lra.
        rewrite (Q.min_l limit (limit * 2 ^ Z.of_nat n)) by nra.
        rewrite Q.min_l; [lra|]. change (2 ^ 1)%Q with 2%Q. nra.
      * rewrite (Q.min_r limit (delay * 2)) by lra. change (2 ^ 1)%Q with 2%Q.
        apply Q.min_compat; lra.
    + rewrite qmin_Qmin. apply Q.min_glb; lra.
    + rewrite qmin_Qmin. apply Q.le_min_l.
Qed.

(** The delay before an evidence's own demand: the capped exponential. *)
Definition capped_exponential (t : RetryTiming) (attempt : Z) : Q :=
  Qmin (max_backoff_seconds t) (base_backoff_seconds t * 2 ^ Z.min attempt 1024).

Lemma capped_exponential_bounds t attempt :
  timing_ok t → 0 ≤ attempt →
  (base_backoff_seconds t <= capped_exponential t attempt <= max_backoff_seconds t)%Q.
Proof.
  intros [H0 Hle]%timing_bounds Hat. unfold capped_exponential. split; [|apply Q.le_min_l].
  assert (1 <= 2 ^ Z.min attempt 1024)%Q as Hp by (apply Qpower_1_le; lra || lia).
  apply Q.min_glb; nra.
Qed.

Lemma backoff_closed {T} (plan : FailoverPlan T) context evidence :
  timing_ok (prof_timing (plan_profile plan)) → 0 ≤ rc_attempt_ordinal context →
  (backoff_seconds plan context evidence ==
   let cap := capped_exponential (prof_timing (plan_profile plan)) (rc_attempt_ordinal context) in
   match ev_retry_after_seconds evidence with Some r => Qmax cap r | None => cap end)%Q.
Proof.
  intros Ht Hat. pose proof (timing_bounds _ Ht) as [H0 Hle].
  assert (qmin (max_backoff_seconds (prof_timing (plan_profile plan)))
            (doubled (Z.to_nat (Z.min (rc_attempt_ordinal context) 1024))
               (max_backoff_seconds (prof_timing (plan_profile plan)))
               (base_backoff_seconds (prof_timing (plan_profile plan))))
          == capped_exponential (prof_timing (plan_profile plan)) (rc_attempt_ordinal context))%Q as Hc.
  { rewrite qmin_Qmin, doubled_closed by done. rewrite Z2Nat.id by lia.
    apply Q.min_r, Q.le_min_l. }
  unfold backoff_seconds. cbv zeta. destruct (ev_retry_after_seconds evidence) as [r|]; [|exact Hc].
  rewrite qmax_Qmax. by rewrite Hc.
Qed.

Lemma backoff_nonneg {T} (plan : FailoverPlan T) context evidence :
  timing_ok (prof_timing (plan_profile plan)) → 0 ≤ rc_attempt_ordinal context →
  (0 <= backoff_seconds plan context evidence)%Q.
Proof.
  intros Ht Hat. rewrite backoff_closed by done. cbv zeta.
  pose proof (timing_bounds _ Ht) as [H0 _].
  pose proof (capped_exponential_bounds _ _ Ht Hat) as [Hlo _].
  destruct (ev_retry_after_seconds evidence) as [r|]; [|lra].
  pose proof (Q.le_max_l (capped_exponential (prof_timing (plan_profile plan)) (rc_attempt_ordinal context)) r).
  lra.
Qed.

(** the delay of a WAIT is the base delay doubled once per past attempt, capped by
    the profile's maximum, and never shorter than the provider's own Retry-After: it
    lies between the base delay and the larger of the maximum and the Retry-After. *)
Lemma backoff_exact {T} (plan : FailoverPlan T) context evidence :
  RetryTiming_new (prof_timing (plan_profile plan)) = Ok (prof_timing (plan_profile plan)) →
  0 ≤ rc_attempt_ordinal context →
  let timing := prof_timing (plan_profile plan) in
  let delay := backoff_seconds plan context evidence in
  let cap := Qmin (max_backoff_seconds timing)
               (base_backoff_seconds timing * 2 ^ Z.min (rc_attempt_ordinal context) 1024) in
  (base_backoff_seconds timing <= delay)%Q ∧
  match ev_retry_after_seconds evidence with
  | None => (delay == cap)%Q ∧ (delay <= max_backoff_seconds timing)%Q
  | Some r => (delay == Qmax cap r)%Q ∧ (r <= delay)%Q
              ∧ (delay <= Qmax (max_backoff_seconds timing) r)%Q
  end.
Proof.
  intros Ht Hat. cbv zeta. pose proof (backoff_closed plan context evidence Ht Hat) as Hc.
  pose proof (capped_exponential_bounds _ _ Ht Hat) as [Hlo Hhi].
  fold (capped_exponential (prof_timing (plan_profile plan)) (rc_attempt_ordinal context)).
  cbv zeta in Hc. destruct (ev_retry_after_seconds evidence) as [r|]; rewrite Hc.
  - repeat split.
    + eapply Qle_trans; [exact Hlo|apply Q.le_max_l].
    + apply Q.le_max_r.
    + by apply Q.max_le_compat_r.
  - by repeat split.
Qed.

(* ------------------------------------------------------------------ *)
(** ** Routing *)

(** The strategies a PREPARE step can carry out. *)
Definition prepares (s : FailureStrategy) : Prop := s ≠ RETURN_TO_MODEL ∧ s ≠ ABORT.

(** The strategy of the fixed table for a status code and hint. *)
Definition table_strategy (status : option Z) (hint : option str) : option FailureStrategy :=
  snd <$> List.find (λ rule, bool_decide (rule.1 = mkSignal status hint)) fixed_rules.

(** The budget leaves room for one more use of [s] and one more wire attempt. *)
Definition affordable {T} (plan : FailoverPlan T) (context : RetryContext) (s : FailureStrategy) : Prop :=
  uses_for context s < max_uses_for (prof_budget (plan_profile plan)) s
  ∧ rc_attempt_ordinal context + 1 < max_wire_attempts (prof_budget (plan_profile plan)).

(** The action that carries out a strategy. *)
Definition action_for {T} (plan : FailoverPlan T) (context : RetryContext) (evidence : FailureEvidence)
    (s : FailureStrategy) : option (PreparationAction T) :=
  match s with
  | WAIT => Some (Wait (backoff_seconds plan context evidence))
  | TRANSFORM_REQUEST => TransformRequest <$> request_transform (plan_profile plan)
  | REFRESH_CREDENTIAL => Some RefreshCredential
  | ROTATE_CREDENTIAL => Some RotateCredential
  | SWITCH_ENDPOINT => Some SwitchEndpoint
  | _ => None
  end.

(** The decision the policy promises for a definite rejection. *)
Definition rejection_decision {T} (plan : FailoverPlan T) (context : RetryContext)
    (evidence : FailureEvidence) : FailoverDecision T :=
  match table_strategy (ev_status_code evidence) (ev_error_hint evidence) with
  | None => mkDecision ROUTE_RETURN_TO_MODEL None None (Some evidence) false
  | Some ABORT => mkDecision ROUTE_ABORT (Some ABORT) None (Some evidence) false
  | Some s =>
      if decide (prepares s) then
        if decide (affordable plan context s) then
          match action_for plan context evidence s with
          | Some a => mkDecision ROUTE_PREPARE (Some s) (Some a) (Some evidence) false
          | None => mkDecision ROUTE_RETURN_TO_MODEL (Some s) None (Some evidence) false
          end
        else mkDecision ROUTE_RETURN_TO_MODEL (Some s) None (Some evidence) true
      else mkDecision ROUTE_RETURN_TO_MODEL (Some s) None (Some evidence) false
  end.

Lemma affordable_bool {T} (plan : FailoverPlan T) context s :
  ((max_uses_for (prof_budget (plan_profile plan)) s <=? uses_for context s)
   || (max_wire_attempts (prof_budget (plan_profile plan)) - 1 <=? rc_attempt_ordinal context)) = false
  ↔ affordable plan context s.
Proof. unfold affordable. rewrite orb_false_iff, !Z.leb_gt. lia. Qed.

Lemma evidence_signal_ok e :
  FailureEvidence_new e = Ok e →
  evidence_signal e = Ok (mkSignal (ev_status_code e) (ev_error_hint e)).
Proof.
  unfold FailureEvidence_new, evidence_signal. intros H.
  destruct (FailureSignal_new _ _) as [s|] eqn:E; [|done]. clear H.
  unfold FailureSignal_new in E |- *. revert E. checks. by intros (_ & _ & ->).
Qed.

Lemma route_rejected_exact {T} (plan : FailoverPlan T) context evidence :
  FailureEvidence_new evidence = Ok evidence →
  timing_ok (prof_timing (plan_profile plan)) → 0 ≤ rc_attempt_ordinal context →
  rc_plan_revision context = plan_revision plan →
  route_rejected evidence plan context = Ok (rejection_decision plan context evidence).
Proof.
  intros Hev Ht Hat Hrev. unfold route_rejected, rejection_decision, fixed_strategy.
  rewrite Hrev, Z.eqb_refl, evidence_signal_ok by done. cbn [negb contract_fail_if raise_if mbind result_bind].
  fold (table_strategy (ev_status_code evidence) (ev_error_hint evidence)).
  assert (∀ s, affordable plan context s →
    (max_uses_for (prof_budget (plan_profile plan)) s <=? uses_for context s)
    || (max_wire_attempts (prof_budget (plan_profile plan)) - 1 <=? rc_attempt_ordinal context) = false) as Hy
    by (intros; by apply affordable_bool).
  assert (∀ s, ¬ affordable plan context s →
    (max_uses_for (prof_budget (plan_profile plan)) s <=? uses_for context s)
    || (max_wire_attempts (prof_budget (plan_profile plan)) - 1 <=? rc_attempt_ordinal context) = true) as Hn.
  { intros s H. rewrite <-affordable_bool in H. by apply not_false_iff_true in H. }
  destruct (table_strategy _ _) as [s|]; [|reflexivity].
  destruct s; [..|reflexivity|reflexivity];
    (rewrite decide_True by (split; done));
    (destruct (decide _) as [Ha|Ha]; [rewrite (Hy _ Ha)|rewrite (Hn _ Ha); reflexivity]);
    cbn [preparation_for action_for]; try reflexivity.
  - unfold Wait_new. rewrite (proj2 (qltb_false _ _)); [reflexivity|by apply backoff_nonneg].
  - by destruct (request_transform (plan_profile plan)).
Qed.

(** C37: observing any Port outcome whose evidence is well formed always yields a
    decision, never a contract error: success completes; pending and unknown outcomes go
    back to the model and are never retried; a definite rejection is retried exactly
    when the fixed table names a preparation strategy for its status and hint, its own
    use limit and the wire-attempt limit leave room, and (for TRANSFORM_REQUEST) the
    profile has a transform, with the action of that strategy; the budget-exhausted flag
    is set exactly when only the budget prevents it. *)
Theorem observation_routing_exact {R C H T} (outcome : PortOutcome R C H) (plan : FailoverPlan T) context :
  match outcome with
  | Rejected e | Unknown _ e => FailureEvidence_new e = Ok e
  | _ => True
  end →
  RetryTiming_new (prof_timing (plan_profile plan)) = Ok (prof_timing (plan_profile plan)) →
  0 ≤ rc_attempt_ordinal context →
  rc_plan_revision context = plan_revision plan →
  observe_and_route outcome plan context =
  Ok match outcome with
     | Completed _ => mkDecision ROUTE_COMPLETED None None None false
     | InProgress _ => mkDecision ROUTE_RETURN_TO_MODEL None None None false
     | Unknown _ e => mkDecision ROUTE_RETURN_TO_MODEL None None (Some e) false
     | Rejected e => rejection_decision plan context e
     end.
Proof.
  intros Hev Ht Hat Hrev. unfold observe_and_route. rewrite Hrev, Z.eqb_refl.
  destruct outcome as [|e| |]; [reflexivity| |reflexivity..].
  by apply route_rejected_exact.
Qed.

(** What a PREPARE decision says about the plan, the cursor and the action. *)
Record prepare_facts {T} (plan : FailoverPlan T) (context : RetryContext)
    (s : FailureStrategy) (a : PreparationAction T) : Prop := {
  pf_prepares : prepares s;
  pf_affordable : affordable plan context s;
  pf_transform : is_transform a = if decide (s = TRANSFORM_REQUEST) then 1 else 0;
  pf_switch : is_switch a = if decide (s = SWITCH_ENDPOINT) then 1 else 0;
  pf_rotate : is_rotate a = if decide (s = ROTATE_CREDENTIAL) then 1 else 0
}.

Lemma decision_new_Ok {T} (d d' : FailoverDecision T) : FailoverDecision_new d = Ok d' → d' = d.
Proof. unfold FailoverDecision_new. destruct (dec_route d); checks; naive_solver. Qed.

(** Close a branch whose decision is not PREPARE. *)
Ltac not_prepared Hd Hr := exfalso; cbn in Hd; injection Hd as <-; discriminate Hr.

Lemma route_prepare_inv {R C H T} (outcome : PortOutcome R C H) (plan : FailoverPlan T) context d :
  observe_and_route outcome plan context = Ok d → dec_route d = ROUTE_PREPARE →
  ∃ s a, dec_strategy d = Some s ∧ dec_preparation d = Some a ∧ prepare_facts plan context s a.
Proof.
  unfold observe_and_route. intros Hd Hr. apply seq_Ok_iff in Hd as [_ Hd].
  destruct outcome as [|e| |].
  1,3,4: apply decision_new_Ok in Hd as ->; discriminate Hr.
  unfold route_rejected in Hd. apply seq_Ok_iff in Hd as [_ Hd].
  destruct (fixed_strategy e) as [[s|]|]; [|not_prepared Hd Hr|done]. cbn [mbind result_bind] in Hd.
  destruct (decide (prepares s)) as [Hs|Hs].
  2: { destruct s; try (destruct Hs; split; done); not_prepared Hd Hr. }
  destruct (decide (affordable plan context s)) as [Ha|Ha].
  2: { rewrite <-affordable_bool, not_false_iff_true in Ha.
       destruct s; try rewrite Ha in Hd; not_prepared Hd Hr. }
  pose proof (proj2 (affordable_bool plan context s) Ha) as Hb.
  destruct s; try (by destruct Hs); rewrite Hb in Hd; cbn [preparation_for] in Hd.
  1: unfold Wait_new in Hd; destruct (contract_fail_if (qltb _ _) _); [|done].
  2: destruct (request_transform _); [|not_prepared Hd Hr].
  all: cbn in Hd; injection Hd as <-; eexists _, _; split_and!; [reflexivity..|by constructor].
Qed.

(* ------------------------------------------------------------------ *)
(** ** Charging a strategy to the cursor *)

Lemma find_usage_other (s s' : FailureStrategy) usages : s' ≠ s →
  List.find (λ u, bool_decide (use_strategy u = s'))
    (List.filter (λ u, negb (bool_decide (use_strategy u = s))) usages)
  = List.find (λ u, bool_decide (use_strategy u = s')) usages.
Proof.
  intros Hne. induction usages as [|u usages IH]; [done|]. cbn [List.filter List.find].
  destruct (decide (use_strategy u = s)) as [<-|Hu].
  - rewrite bool_decide_true by done. cbn [negb]. rewrite bool_decide_false by done. exact IH.
  - rewrite bool_decide_false by done. cbn [negb List.find]. by rewrite IH.
Qed.

Lemma find_usage_same (s : FailureStrategy) usages :
  List.find (λ u, bool_decide (use_strategy u = s))
    (List.filter (λ u, negb (bool_decide (use_strategy u = s))) usages) = None.
Proof.
  induction usages as [|u usages IH]; [done|]. cbn [List.filter].
  destruct (bool_decide (use_strategy u = s)) eqn:E; cbn [negb List.find]; [done|]. by rewrite E.
Qed.

Lemma find_app {A} (p : A → bool) xs ys :
  List.find p (xs ++ ys) = match List.find p xs with Some x => Some x | None => List.find p ys end.
Proof. induction xs as [|x xs IH]; [done|]. cbn. by destruct (p x). Qed.

Lemma context_new_Ok c c' : RetryContext_new c = Ok c' → c' = c.
Proof. unfold RetryContext_new. checks. naive_solver. Qed.

(** One use of [s] charged: [c'] follows [c]. *)
Record charged (c c' : RetryContext) (s : FailureStrategy) : Prop := {
  ch_uses : ∀ s', uses_for c' s' = uses_for c s' + if decide (s' = s) then 1 else 0;
  ch_attempt : rc_attempt_ordinal c' = rc_attempt_ordinal c + 1;
  ch_request : rc_request_version c' = rc_request_version c + if decide (s = TRANSFORM_REQUEST) then 1 else 0;
  ch_endpoint : rc_endpoint_cursor c' = rc_endpoint_cursor c + if decide (s = SWITCH_ENDPOINT) then 1 else 0;
  ch_credential : rc_credential_cursor c' = rc_credential_cursor c + if decide (s = ROTATE_CREDENTIAL) then 1 else 0;
  ch_revision : rc_plan_revision c' = rc_plan_revision c;
  ch_operation : rc_operation_id c' = rc_operation_id c
}.

Lemma with_strategy_use_uses c s c' s' :
  with_strategy_use c s = Ok c' →
  uses_for c' s' = uses_for c s' + if decide (s' = s) then 1 else 0.
Proof.
  unfold with_strategy_use, StrategyUsage_new. intros H. inv_ok. subst.
  apply context_new_Ok in H as ->. unfold uses_for at 1. cbn. rewrite find_app.
  destruct (decide (s' = s)) as [->|Hne].
  - rewrite find_usage_same. cbn. by rewrite bool_decide_true.
  - rewrite find_usage_other by done. unfold uses_for.
    destruct (List.find _ (rc_strategy_usages c)) as [u|]; [lia|].
    cbn. by rewrite bool_decide_false.
Qed.

Lemma next_context_charged {T} (plan : FailoverPlan T) c0 c s a c' :
  prepare_facts plan c0 s a → next_context c s a = Ok c' → charged c c' s.
Proof.
  intros [_ _ Ht Hs Hr] H. unfold next_context in H.
  apply bind_Ok in H as (used & Hu & H). apply context_new_Ok in H as ->.
  pose proof (λ s', with_strategy_use_uses _ _ _ s' Hu) as Hus.
  unfold with_strategy_use, StrategyUsage_new in Hu. inv_ok. subst.
  apply context_new_Ok in Hu. constructor.
  - exact Hus.
  - by subst.
  - rewrite <-Ht. by subst.
  - rewrite <-Hs. by subst.
  - rewrite <-Hr. by subst.
  - by subst.
  - by subst.
Qed.

(* ------------------------------------------------------------------ *)
(** ** Whole runs *)

Definition strategies : list FailureStrategy :=
  [WAIT; TRANSFORM_REQUEST; REFRESH_CREDENTIAL; ROTATE_CREDENTIAL; SWITCH_ENDPOINT; RETURN_TO_MODEL; ABORT].

(** All strategy uses charged to a cursor. *)
Definition total_uses (c : RetryContext) : Z := foldr Z.add 0 (uses_for c <$> strategies).

(** The cursor after [n] charged retries: every counter is a count of strategy uses. *)
Record accounted (n : nat) (c : RetryContext) : Prop := {
  ac_attempt : rc_attempt_ordinal c = Z.of_nat n;
  ac_total : total_uses c = Z.of_nat n;
  ac_nonneg : ∀ s, 0 ≤ uses_for c s;
  ac_request : rc_request_version c = 1 + uses_for c TRANSFORM_REQUEST;
  ac_endpoint : rc_endpoint_cursor c = uses_for c SWITCH_ENDPOINT;
  ac_credential : rc_credential_cursor c = uses_for c ROTATE_CREDENTIAL
}.

Lemma charged_accounted n c c' s : charged c c' s → accounted n c → accounted (S n) c'.
Proof.
  intros [Hu Hat Hrq He Hc _ _] [Aat Atot Apos Arq Ae Ac]. constructor.
  - lia.
  - revert Atot. unfold total_uses, strategies. cbn [foldr fmap list_fmap]. rewrite !Hu.
    clear -n. destruct s; repeat (case_decide; try done); lia.
  - intros s'. rewrite Hu. specialize (Apos s'). clear -Apos. case_decide; lia.
  - rewrite Hrq, Arq, Hu. repeat case_decide; try congruence; lia.
  - rewrite He, Ae, Hu. repeat case_decide; try congruence; lia.
  - rewrite Hc, Ac, Hu. repeat case_decide; try congruence; lia.
Qed.

(** No loop of the model ran out of fuel. *)
Definition converges {A} (r : result A) : Prop :=
  match r with Ok _ => True | Raise e => exn_kind e ≠ Diverged end.

Lemma converges_bind {A B} (m : result A) (f : A → result B) :
  converges m → (∀ a, m = Ok a → converges (f a)) → converges (m ≫= f).
Proof. destruct m; cbn; auto. Qed.
Lemma converges_fail_if b m : converges (contract_fail_if b m).
Proof. by destruct b. Qed.
Lemma converges_except_str {A} p k (m : result A) : k ≠ Diverged → converges m → converges (except_str p k m).
Proof. destruct m as [|e]; [done|]. cbn. by destruct (p (exn_kind e)). Qed.
Lemma converges_Ok {A} (a : A) : converges (Ok a).
Proof. exact I. Qed.
Lemma converges_Raise {A} e : exn_kind e ≠ Diverged → converges (@Raise A e).
Proof. done. Qed.
Lemma converges_fail_if_seq {B} b m (f : result B) : converges f → converges (contract_fail_if b m;; f).
Proof. intros Hf. apply converges_bind; [apply converges_fail_if|done]. Qed.

Create HintDb converge.
#[export] Hint Resolve converges_bind converges_fail_if converges_fail_if_seq converges_except_str
  converges_Ok converges_Raise : converge.
#[export] Hint Extern 1 (_ ≠ Diverged) => discriminate : converge.

(** Split a goal [converges _] along the code. *)
Ltac converge :=
  repeat match goal with
  | |- converges (mbind _ _) => apply converges_bind; [|intros]
  | |- converges (match ?x with _ => _ end) => destruct x
  | |- converges (if ?x then _ else _) => destruct x
  | |- converges _ => solve [auto with converge]
  end.

Lemma converges_signal e : converges (evidence_signal e).
Proof. unfold evidence_signal, FailureSignal_new, validate_error_hint. converge. Qed.
Lemma converges_decision {T} (d : FailoverDecision T) : converges (FailoverDecision_new d).
Proof. unfold FailoverDecision_new. converge. Qed.
Lemma converges_context c : converges (RetryContext_new c).
Proof. unfold RetryContext_new. converge. Qed.
#[export] Hint Resolve converges_signal converges_decision converges_context : converge.

Lemma converges_route {R C H T} (o : PortOutcome R C H) (plan : FailoverPlan T) c :
  converges (observe_and_route o plan c).
Proof.
  unfold observe_and_route, route_rejected, return_to_model, fixed_strategy, preparation_for, Wait_new.
  converge.
Qed.
Lemma converges_observed {R C H} c (o : PortOutcome R C H) : converges (observed_context c o).
Proof. unfold observed_context. converge. Qed.
Lemma converges_next {T} c s (a : PreparationAction T) : converges (next_context c s a).
Proof. unfold next_context, with_strategy_use, StrategyUsage_new. converge. Qed.
Lemma converges_projection {P} (f : P → str) b d :
  (∀ r, b = Some r → converges r) → converges (runtime_projection f b d).
Proof.
  intros H. unfold runtime_projection. destruct b as [r|]; [|exact I].
  specialize (H r eq_refl). converge.
Qed.
#[export] Hint Resolve converges_route converges_observed converges_next converges_projection : converge.

Section runs.
Context {Request Result Receipt Handle Transform : Type}.
Notation outcome_t := (PortOutcome Result Receipt Handle).
Notation plan_t := (FailoverPlan Transform).
Notation prepare_t := (@Preparation Request Transform).

(** What the PREPARE node did with an observed outcome. *)
Definition prepared_as (plan : plan_t) (request : Request) (c : RetryContext) (o : outcome_t)
    (result_ : @PrepareOutcome Request Result Receipt Handle Transform) : Prop :=
  match result_ with
  | GraphFailure _ => True
  | GraphSuccess frame _ true =>
      ∃ s a request' c1 c2, prepare_facts plan c s a ∧ observed_context c o = Ok c1
        ∧ charged c1 c2 s ∧ frame_step frame = InvokeStep request' c2
  | GraphSuccess _ r false =>
      ∃ c1 d, observed_context c o = Ok c1 ∧ r = mkFailoverResult request c1 o d
        ∧ (dec_route d = ROUTE_RETURN_TO_MODEL ∨ dec_route d = ROUTE_COMPLETED ∧ ∃ x, o = Completed x)
  end.

Lemma result_new_Ok (r r' : @FailoverResult Request Result Receipt Handle Transform) :
  FailoverResult_new r = Ok r' →
  r' = r ∧ (dec_route (fr_decision r) = ROUTE_COMPLETED → ∃ x, fr_outcome r = Completed x).
Proof.
  unfold FailoverResult_new. checks. intros (_ & H & [= <-]). split; [done|]. intros Hr.
  rewrite bool_decide_true in H by done. destruct (fr_outcome r); eauto; done.
Qed.

Lemma frame_new_Ok (step : @FailoverStep Request Result Receipt Handle) (plan : plan_t) f :
  FailoverFrame_new step plan = Ok f → frame_step f = step.
Proof. unfold FailoverFrame_new. checks. by intros [_ [= <-]]. Qed.

Lemma prepare_inv config (prep : prepare_t) bound frame request c (o : outcome_t) result_ :
  frame_step frame = ObserveStep request c o →
  prepare_next_attempt config prep bound frame = Ok result_ →
  ∃ plan prep', runtime_projection (plan_port_id ∘ fst) bound (config, prep) = Ok (plan, prep')
    ∧ prepared_as plan request c o result_.
Proof.
  intros Hf H. unfold prepare_next_attempt in H. rewrite Hf in H.
  apply bind_Ok in H as ([plan prep'] & Hp & H). exists plan, prep'. split; [done|].
  apply seq_Ok_iff in H as [_ H]. apply bind_Ok in H as (d & Hd & H).
  apply bind_Ok in H as (c1 & Hc1 & H).
  destruct (decide (dec_route d = ROUTE_ABORT)) as [E|E]; [by rewrite E in H; injection H as <-|].
  destruct (decide (dec_route d = ROUTE_PREPARE)) as [E'|E'].
  - rewrite E' in H. destruct (route_prepare_inv _ _ _ _ Hd E') as (s & a & Hs & Ha & Hpf).
    rewrite Hs, Ha in H. apply bind_Ok in H as (r & _ & H).
    apply bind_Ok in H as (request' & _ & H). apply bind_Ok in H as (c2 & Hc2 & H).
    apply bind_Ok in H as (f & Hfr & H). injection H as <-.
    apply frame_new_Ok in Hfr. exists s, a, request', c1, c2. split_and!; try done.
    by eapply next_context_charged.
  - assert (∃ f r, result_ = GraphSuccess f r false
              ∧ FailoverResult_new (mkFailoverResult request c1 o d) = Ok r) as (f & r & -> & Hr).
    { destruct (dec_route d); try done;
        apply bind_Ok in H as (r & Hr & H); apply bind_Ok in H as (f & _ & H); injection H as <-; eauto. }
    apply result_new_Ok in Hr as [-> Hr]. exists c1, d. split_and!; try done.
    cbn in Hr. destruct (dec_route d); try done; eauto.
Qed.

Context (config : plan_t) (preparation : prepare_t) (port : Request → result outcome_t).
Context (invoke_config : nat → Bound plan_t) (prepare_config : nat → Bound (plan_t * prepare_t)).
Notation rounds := (rounds config preparation port invoke_config prepare_config).
Notation run_failover := (run_failover config preparation port invoke_config prepare_config).

(** [plan] is the plan the PREPARE activation of [round] works with. *)
Definition projects (round : nat) (plan : plan_t) : Prop :=
  ∃ prep', runtime_projection (plan_port_id ∘ fst) (prepare_config round) (config, preparation)
           = Ok (plan, prep').

Lemma invoke_inv bound frame request c frame' :
  frame_step frame = InvokeStep request c →
  invoke_once config bound port frame = Ok frame' →
  ∃ o, port request = Ok o ∧ frame_step frame' = ObserveStep request c o.
Proof.
  intros Hf H. unfold invoke_once in H. rewrite Hf in H.
  apply bind_Ok in H as (plan & _ & H). apply seq_Ok_iff in H as [_ H].
  apply bind_Ok in H as (o & Ho & H). exists o. split; [done|]. by eapply frame_new_Ok.
Qed.

(** One round: INVOKE and PREPARE. *)
Lemma round_inv round frame request c frame' result_ :
  frame_step frame = InvokeStep request c →
  invoke_once config (invoke_config round) port frame = Ok frame' →
  prepare_next_attempt config preparation (prepare_config round) frame' = Ok result_ →
  ∃ o plan, port request = Ok o ∧ projects round plan ∧ prepared_as plan request c o result_.
Proof.
  intros Hf Hi Hp. destruct (invoke_inv _ _ _ _ _ Hf Hi) as (o & Ho & Hf').
  destruct (prepare_inv _ _ _ _ _ _ _ _ Hf' Hp) as (plan & prep' & ? & ?).
  exists o, plan. split_and!; try done. by exists prep'.
Qed.

Lemma observed_same c (o : outcome_t) c1 n :
  observed_context c o = Ok c1 →
  (accounted n c → accounted n c1) ∧ (∀ s, uses_for c1 s = uses_for c s)
  ∧ rc_attempt_ordinal c1 = rc_attempt_ordinal c ∧ rc_operation_id c1 = rc_operation_id c.
Proof.
  unfold observed_context. destruct o as [|e| |h e].
  1,3: by intros [= <-].
  all: intros (sg & _ & ->%context_new_Ok)%bind_Ok; split_and!; try done.
  all: by intros []; constructor.
Qed.

(** The first frame of a run. *)
Lemma observe_call_inv bound (call : @FailoverCall Request) frame :
  observe_call (Result := Result) (Receipt := Receipt) (Handle := Handle) config bound call = Ok frame →
  ∃ c, frame_step frame = InvokeStep (call_request call) c ∧ accounted 0 c
     ∧ (∀ s, uses_for c s = 0) ∧ rc_operation_id c = call_operation_id call.
Proof.
  intros (plan & _ & H)%bind_Ok. apply bind_Ok in H as (c & ->%context_new_Ok & H).
  apply frame_new_Ok in H. eexists. split_and!; [exact H| |done..].
  by constructor.
Qed.

Lemma rounds_count fuel : ∀ round frame e n,
  rounds fuel round frame = Ok (e, n) → (round < n)%nat.
Proof.
  induction fuel as [|fuel IH]; [done|]. intros round frame e n H. cbn [FailoverGraph.rounds] in H.
  apply bind_Ok in H as (frame' & _ & H). apply bind_Ok in H as (result_ & _ & H).
  destruct result_ as [m|next r [|]]; [|apply IH in H; lia|]; injection H as <- <-; lia.
Qed.

Lemma rounds_accounted (U : FailureStrategy → Z) fuel :
  (∀ s, 0 ≤ U s) →
  (∀ round plan s, projects round plan → max_uses_for (prof_budget (plan_profile plan)) s ≤ U s) →
  ∀ round frame request c e n,
    frame_step frame = InvokeStep request c → accounted round c → (∀ s, uses_for c s ≤ U s) →
    rounds fuel round frame = Ok (e, n) →
    match e with
    | Failed _ => True
    | Finished r =>
        accounted (n - 1) (fr_context r) ∧ (∀ s, uses_for (fr_context r) s ≤ U s)
        ∧ rc_operation_id (fr_context r) = rc_operation_id c
        ∧ (dec_route (fr_decision r) = ROUTE_RETURN_TO_MODEL
           ∨ dec_route (fr_decision r) = ROUTE_COMPLETED ∧ ∃ x, fr_outcome r = Completed x)
    end.
Proof.
  intros HU0 HU. induction fuel as [|fuel IH]; [done|].
  intros round frame request c e n Hf Hacc Huses H. cbn [FailoverGraph.rounds] in H.
  apply bind_Ok in H as (frame' & Hi & H). apply bind_Ok in H as (result_ & Hp & H).
  destruct (round_inv _ _ _ _ _ _ Hf Hi Hp) as (o & plan & _ & Hpl & Has).
  destruct result_ as [m|next r [|]]; cbn in Has.
  - by injection H as <- <-.
  - destruct Has as (s & a & request' & c1 & c2 & Hpf & Ho & Hch & Hn).
    destruct (observed_same _ _ _ round Ho) as (Ha1 & Hu1 & _ & Hop1).
    assert (∀ s, uses_for c2 s ≤ U s) as Hu2.
    { intros s'. rewrite (ch_uses _ _ _ Hch), Hu1. specialize (HU _ _ s' Hpl). specialize (Huses s').
      destruct (pf_affordable _ _ _ _ Hpf) as [? _]. clear -HU Huses H0. case_decide; subst; lia. }
    specialize (IH (S round) next request' c2 e n Hn (charged_accounted _ _ _ _ Hch (Ha1 Hacc)) Hu2 H).
    destruct e; [|done]. by rewrite (ch_operation _ _ _ Hch), Hop1 in IH.
  - injection H as <- <-. destruct Has as (c1 & d & Ho & -> & Hd).
    destruct (observed_same _ _ _ round Ho) as (Ha1 & Hu1 & _ & Hop1).
    cbn. rewrite Nat.sub_0_r. split_and!; auto. intros s. by rewrite Hu1.
Qed.

Lemma invoke_converges bound frame :
  (∀ r, bound = Some r → converges r) → (∀ request, converges (port request)) →
  converges (invoke_once config bound port frame).
Proof. intros Hb Hport. unfold invoke_once, FailoverFrame_new. converge. Qed.

Lemma prepare_converges bound (frame : @FailoverFrame Request Result Receipt Handle Transform) :
  (∀ r, bound = Some r → converges r) →
  (∀ plan prep' request a,
      runtime_projection (plan_port_id ∘ fst) bound (config, preparation) = Ok (plan, prep') →
      converges (prep' request a)) →
  converges (prepare_next_attempt config preparation bound frame).
Proof.
  intros Hb Hprep. unfold prepare_next_attempt, FailoverFrame_new, FailoverResult_new.
  destruct (frame_step frame) as [|request c o]; [by apply converges_Raise|].
  apply converges_bind; [by apply converges_projection|]. intros [plan prep'] Hp.
  pose proof (Hprep plan prep' request) as Hq. clear Hprep Hb. specialize (λ a, Hq a Hp).
  converge.
Qed.

Lemma rounds_converge (M : nat) fuel :
  (∀ round plan, projects round plan →
     max_wire_attempts (prof_budget (plan_profile plan)) ≤ Z.of_nat M) →
  (∀ round r, invoke_config round = Some r → converges r) →
  (∀ round r, prepare_config round = Some r → converges r) →
  (∀ request, converges (port request)) →
  (∀ round plan prep' request a,
     runtime_projection (plan_port_id ∘ fst) (prepare_config round) (config, preparation) = Ok (plan, prep') →
     converges (prep' request a)) →
  ∀ round frame request c,
    frame_step frame = InvokeStep request c → accounted round c → (round < M ≤ fuel + round)%nat →
    converges (rounds fuel round frame)
    ∧ (∀ more, rounds (fuel + more) round frame = rounds fuel round frame)
    ∧ ∀ e n, rounds fuel round frame = Ok (e, n) → (n ≤ M)%nat.
Proof.
  intros HM Hic Hpc Hport Hprep. induction fuel as [|fuel IH]; [lia|].
  intros round frame request c Hf Hacc Hr. cbn [FailoverGraph.rounds Nat.add].
  pose proof (invoke_converges (invoke_config round) frame (Hic round) Hport) as Hi.
  destruct (invoke_once _ _ _ _) as [frame'|] eqn:Ei; [|by split_and!]. cbn [mbind result_bind].
  pose proof (prepare_converges (prepare_config round) frame' (Hpc round) (Hprep round)) as Hp.
  destruct (prepare_next_attempt _ _ _ _) as [result_|] eqn:Ep; [|by split_and!]. cbn [mbind result_bind].
  destruct (round_inv _ _ _ _ _ _ Hf Ei Ep) as (o & plan & _ & Hpl & Has).
  destruct result_ as [m|next r [|]]; cbn in Has.
  1,3: split_and!; try done; intros e n [= <- <-]; lia.
  destruct Has as (s & a & request' & c1 & c2 & Hpf & Ho & Hch & Hn).
  destruct (observed_same _ _ _ round Ho) as (Ha1 & _).
  apply (IH (S round) next request' c2 Hn); [by eapply charged_accounted; eauto|].
  destruct (pf_affordable _ _ _ _ Hpf) as [_ Hw]. specialize (HM _ _ Hpl).
  rewrite (ac_attempt _ _ Hacc) in Hw. lia.
Qed.

(** C35: one call of a decorated Port always ends: when every plan the PREPARE
    activations may be given (Config may replace it between rounds) allows at most [M]
    wire attempts, the retry graph runs to its end within [M] rounds (more fuel changes
    nothing) and makes at least one and at most [M] wire calls. *)
Theorem failover_run_bounded (M : nat) observe_config call :
  (∀ round plan prep',
     runtime_projection (plan_port_id ∘ fst) (prepare_config round) (config, preparation) = Ok (plan, prep') →
     max_wire_attempts (prof_budget (plan_profile plan)) ≤ Z.of_nat M
     ∧ ∀ request a, converges (prep' request a)) →
  (1 ≤ M)%nat →
  (∀ r, observe_config = Some r → converges r) →
  (∀ round r, invoke_config round = Some r → converges r) →
  (∀ round r, prepare_config round = Some r → converges r) →
  (∀ request, converges (port request)) →
  converges (run_failover M observe_config call)
  ∧ (∀ more, run_failover (M + more) observe_config call = run_failover M observe_config call)
  ∧ ∀ e n, run_failover M observe_config call = Ok (e, n) → (1 ≤ n ≤ M)%nat.
Proof.
  intros HM HM1 Hoc Hic Hpc Hport. unfold FailoverGraph.run_failover.
  assert (converges (observe_call (Result := Result) (Receipt := Receipt) (Handle := Handle)
            config observe_config call)) as Hobs.
  { unfold observe_call, FailoverFrame_new. converge. }
  destruct (observe_call _ _ _) as [frame|] eqn:E; [|by split_and!]. cbn [mbind result_bind].
  destruct (observe_call_inv _ _ _ E) as (c & Hf & Hacc & _).
  destruct (rounds_converge M M) with (round := 0%nat) (frame := frame) (request := call_request call) (c := c)
    as (H1 & H2 & H3); try done; [|by intros; eapply HM|lia|].
  { intros round plan [prep' Hp]. by eapply HM. }
  split_and!; [done..|]. intros e n Hn. split; [by eapply (rounds_count _ _ _ _ _ Hn)|by eapply H3].
Qed.

(** C36: what a finished call reports is exactly what it spent: after [n] wire calls the
    cursor's attempt ordinal and the sum of all strategy uses are both [n - 1], the
    request version, endpoint and credential cursors are the numbers of transforms,
    endpoint switches and credential rotations, no strategy is used more often than
    the plans allow, the operation id is the caller's, and the decision either returns
    to the model or completes on a completed outcome. *)
Theorem failover_accounting (U : FailureStrategy → Z) fuel observe_config call r n :
  (∀ s, 0 ≤ U s) →
  (∀ round plan prep' s,
     runtime_projection (plan_port_id ∘ fst) (prepare_config round) (config, preparation) = Ok (plan, prep') →
     max_uses_for (prof_budget (plan_profile plan)) s ≤ U s) →
  run_failover fuel observe_config call = Ok (Finished r, n) →
  let c := fr_context r in
  Z.of_nat n = rc_attempt_ordinal c + 1 ∧ total_uses c = rc_attempt_ordinal c
  ∧ rc_request_version c = 1 + uses_for c TRANSFORM_REQUEST
  ∧ rc_endpoint_cursor c = uses_for c SWITCH_ENDPOINT
  ∧ rc_credential_cursor c = uses_for c ROTATE_CREDENTIAL
  ∧ (∀ s, 0 ≤ uses_for c s ≤ U s)
  ∧ rc_operation_id c = call_operation_id call
  ∧ (dec_route (fr_decision r) = ROUTE_RETURN_TO_MODEL
     ∨ dec_route (fr_decision r) = ROUTE_COMPLETED ∧ ∃ x, fr_outcome r = Completed x).
Proof.
  intros HU0 HU Hrun. cbv zeta. apply bind_Ok in Hrun as (frame & E & Hrun).
  destruct (observe_call_inv _ _ _ E) as (c & Hf & Hacc & Hu0 & Hop).
  pose proof (rounds_count _ _ _ _ _ Hrun) as Hlt.
  eapply (rounds_accounted U fuel) in Hrun as ([Aat Atot Apos Arq Ae Ac] & Hu & Hop' & Hd);
    [|done| |exact Hf|done|by intros; rewrite Hu0].
  2: { intros round plan s [prep' Hp]. by eapply HU. }
  split_and!; try done; try lia; congruence.
Qed.
End runs.

(* ------------------------------------------------------------------ *)
(** ** Plan resolution *)

(** resolving a plan never fails on values their constructors accept and applies
    exactly the binding: a disabled Port has no plan, an inheriting Port has the default
    profile itself, and an overriding Port has the default profile with each field the
    override gives replaced, the profile id kept; always at the snapshot's revision and
    for the asked Port. *)
Lemma plan_resolution_exact {T} revision (profile : FailoverProfile T) snapshot mode override binding port_id :
  FailoverProfile_new profile = Ok profile →
  FailoverConfigSnapshot_new revision profile = Ok snapshot →
  PortBinding_new mode override = Ok binding →
  is_canonical_identity port_id = true →
  match mode with
  | DISABLED => resolve_plan snapshot port_id binding = Ok None
  | INHERIT => resolve_plan snapshot port_id binding = Ok (Some (mkPlan revision port_id profile))
  | OVERRIDE => ∃ o p, override = Some o
      ∧ resolve_plan snapshot port_id binding = Ok (Some (mkPlan revision port_id p))
      ∧ profile_id p = profile_id profile
      ∧ (∀ x, prof_budget p = x ↔ ovr_budget o = Some x ∨ ovr_budget o = None ∧ x = prof_budget profile)
      ∧ (∀ x, prof_timing p = x ↔ ovr_timing o = Some x ∨ ovr_timing o = None ∧ x = prof_timing profile)
      ∧ (∀ x, prof_semantics p = x ↔ ovr_semantics o = Some x ∨ ovr_semantics o = None ∧ x = prof_semantics profile)
      ∧ request_transform p = from_option Some (request_transform profile) (ovr_request_transform o)
  end.
Proof.
  intros Hp Hs Hb Hid. unfold FailoverProfile_new in Hp. unfold FailoverConfigSnapshot_new in Hs.
  destruct (is_canonical_identity (profile_id profile)) eqn:Hcan; [|done].
  destruct (revision <? 1) eqn:Hrev; [done|]. injection Hs as <-.
  unfold resolve_plan. rewrite Hid.
  destruct mode, override as [o|]; try done; injection Hb as <-; cbn.
  - unfold FailoverPlan_new. by rewrite Hrev, Hid.
  - eexists o, _. split; [done|]. split.
    + unfold FailoverProfile_new. cbn. rewrite Hcan. cbn. unfold FailoverPlan_new.
      rewrite Hrev, Hid. cbn. reflexivity.
    + cbn. destruct (ovr_budget o), (ovr_timing o), (ovr_semantics o), (ovr_request_transform o);
        cbn; split_and!; naive_solver.
  - done.
Qed.

(* ------------------------------------------------------------------ *)
(** ** A concrete run

    Requests are numbers; every preparation moves to the next one.  Request 0 is
    answered 503 overloaded, request 1 is answered 429 rate_limited with a Retry-After,
    the third request completes. *)

Definition demo_overloaded : FailureEvidence :=
  mkEvidence SERVICE_UNAVAILABLE (Some 503) (Some (lit "overloaded")) None None None.
Definition demo_rate_limited : FailureEvidence :=
  mkEvidence RATE_LIMITED (Some 429) (Some (lit "rate_limited")) None None (Some 7%Q).
Definition demo_port (request : nat) : result (PortOutcome nat unit unit) :=
  match request with
  | O => Ok (Rejected demo_overloaded)
  | 1%nat => Ok (Rejected demo_rate_limited)
  | _ => Ok (Completed request)
  end.
Definition demo_preparation : @Preparation nat unit := λ request _, Ok (S request).
Definition demo_profile : FailoverProfile unit :=
  mkProfile (lit "default") default_budget (mkTiming 1 60 30 300) IDEMPOTENT None.
Definition demo_plan : FailoverPlan unit := mkPlan 1 (lit "model") demo_profile.
Definition demo_context : RetryContext :=
  mkContext (lit "op-1") 1 1 2 0 0 [] None None None None.
Definition demo_call : @FailoverCall nat := mkCall (lit "op-1") 0%nat.


Lemma observation_routing_exact_witness :
  observe_and_route (R := nat) (C := unit) (H := unit) (Rejected demo_overloaded) demo_plan
    (mkContext (lit "op-1") 1 1 0 0 0 [] None None None None)
  = Ok (mkDecision ROUTE_PREPARE (Some SWITCH_ENDPOINT) (Some SwitchEndpoint) (Some demo_overloaded) false).
Proof.
  rewrite (observation_routing_exact (Rejected demo_overloaded) demo_plan
    (mkContext (lit "op-1") 1 1 0 0 0 [] None None None None));
    [vm_compute; reflexivity|vm_compute; reflexivity|vm_compute; reflexivity|done|reflexivity].
Defined.

Lemma failover_run_bounded_witness :
  converges (run_failover demo_plan demo_preparation demo_port (λ _, None) (λ _, None) 3 None demo_call)
  ∧ match run_failover demo_plan demo_preparation demo_port (λ _, None) (λ _, None) 3 None demo_call with
    | Ok (Finished r, n) => n = 3%nat ∧ fr_outcome r = Completed 2%nat
    | _ => False
    end.
Proof.
  split; [|vm_compute; by split].
  apply (failover_run_bounded demo_plan demo_preparation demo_port (λ _, None) (λ _, None) 3).
  - intros round plan prep' [= <- <-]. by split.
  - lia.
  - done.
  - done.
  - done.
  - intros [|[|]]; exact I.
Defined.

Lemma failover_accounting_witness :
  ∃ r, run_failover demo_plan demo_preparation demo_port (λ _, None) (λ _, None) 3 None demo_call
       = Ok (Finished r, 3%nat)
       ∧ total_uses (fr_context r) = 2 ∧ rc_endpoint_cursor (fr_context r) = 1.
Proof.
  destruct (run_failover demo_plan demo_preparation demo_port (λ _, None) (λ _, None) 3 None demo_call)
    as [[[r|] n]|] eqn:E; [|vm_compute in E; discriminate E|vm_compute in E; discriminate E].
  assert (n = 3%nat) as -> by (vm_compute in E; congruence).
  pose proof (failover_accounting demo_plan demo_preparation demo_port (λ _, None) (λ _, None)
    (λ _, 1) 3 None demo_call r 3 ltac:(done)
    ltac:(intros round plan prep' s [= <- <-]; cbn; lia) E) as (H1 & H2 & _ & H3 & _).
  exists r. split; [done|]. split; [lia|].
  rewrite H3. vm_compute in E. injection E as <-. reflexivity.
Defined.

