(* ===== verification/Topology.v ===== *)
(** * Compiled graphs: ports, topology and scoped coordinates

    [execution/graph/edge.py], [ports.py], [topology.py], [constants.py],
    [execution/identity.py], [limits.py] and the fields of [node.py], [definition.py]
    and [codec.py] that routing and admission read.  [V] stands for the Python classes
    a port may be declared with (the parameter [GraphValueT] of the source); no
    modelled operation looks inside one. *)

From Stdlib Require Import ZArith NArith Lia Bool String.
From stdpp Require Import prelude strings gmap sorting.
From S2P Require Import Prelude Identity Resources Model.

Set Default Goal Selector "!".
Open Scope Z_scope.

(* ------------------------------------------------------------------ *)
(** ** [constants.py], [limits.py] *)

Definition START : str := lit "__start__".
Definition END : str := lit "__end__".

Record ExecutionLimits := mkLimits { max_supersteps : Z; max_parallel_tasks : Z }.

(** [ExecutionLimits.__post_init__] *)
Definition ExecutionLimits_new (supersteps parallel : Z) : result ExecutionLimits :=
  raise_if ((supersteps <? 1) || (parallel <? 1)) ExecutionLimitError
    "execution limits must be exact positive integers";;
  Ok (mkLimits supersteps parallel).

(* ------------------------------------------------------------------ *)
(** ** [execution/identity.py]: scoped coordinates *)

Record ScopeRunCoordinate := mkScopeRun { scope : list str; graph_run_id : str }.

(** [ScopeRunCoordinate.__post_init__] *)
Definition ScopeRunCoordinate_new (sc : list str) (run_id : str) : result ScopeRunCoordinate :=
  raise_if (existsb (λ segment, negb (is_canonical_identity segment)) sc
            || negb (is_canonical_identity run_id)) SnapshotMismatchError
    "scope-run coordinate requires canonical scope and run identity";;
  Ok (mkScopeRun sc run_id).

Record StableActivation := mkStable {
  sa_scope_run : ScopeRunCoordinate;
  sa_superstep : Z;
  sa_node_id : str
}.

(** [StableActivation.__post_init__] *)
Definition StableActivation_new (scope_run : ScopeRunCoordinate) (superstep : Z) (node_id : str)
    : result StableActivation :=
  raise_if ((superstep <? 0) || negb (is_canonical_identity node_id)) SnapshotMismatchError
    "stable activation requires a valid superstep and node identity";;
  Ok (mkStable scope_run superstep node_id).

#[export] Instance scope_run_eq_dec : EqDecision ScopeRunCoordinate.
Proof. solve_decision. Defined.
#[export] Instance stable_eq_dec : EqDecision StableActivation.
Proof. solve_decision. Defined.

Definition root_scope_run (run_id : str) : result ScopeRunCoordinate := ScopeRunCoordinate_new [] run_id.

Definition stable_activation (scope_run : ScopeRunCoordinate) (activation : GraphActivationIdentity)
    : result StableActivation :=
  raise_if (negb (bool_decide (act_run_id activation = graph_run_id scope_run))) SnapshotMismatchError
    "activation does not belong to its scope-run coordinate";;
  StableActivation_new scope_run (act_superstep activation) (act_node_id activation).

Definition child_scope_run (parent_scope_run : ScopeRunCoordinate) (parent_superstep : Z)
    (nested_node_id : str) : result ScopeRunCoordinate :=
  let run_id := child_graph_run_id (graph_run_id parent_scope_run) parent_superstep nested_node_id in
  ScopeRunCoordinate_new (scope parent_scope_run ++ [nested_node_id]) run_id.

Definition child_scope_run_for_activation (parent_scope_run : ScopeRunCoordinate)
    (parent : GraphActivationIdentity) : result ScopeRunCoordinate :=
  raise_if (negb (bool_decide (act_run_id parent = graph_run_id parent_scope_run)))
    SnapshotMismatchError "parent activation does not belong to its scope-run coordinate";;
  child_scope_run parent_scope_run (act_superstep parent) (act_node_id parent).

(** [scope[-1]] and [scope[:-1]] of a non-empty tuple. *)
Definition parent_activation_for_child (child : ScopeRunCoordinate) (parent : GraphActivationIdentity)
    : result StableActivation :=
  raise_if (negb (bool_decide (last (scope child) = Some (act_node_id parent)))) SnapshotMismatchError
    "child lineage binding has inconsistent parent coordinates";;
  parent_scope_run ← ScopeRunCoordinate_new (removelast (scope child)) (act_run_id parent);
  expected ← child_scope_run_for_activation parent_scope_run parent;
  raise_if (negb (bool_decide (expected = child))) SnapshotMismatchError
    "child lineage binding has inconsistent parent coordinates";;
  stable_activation parent_scope_run parent.

(* ------------------------------------------------------------------ *)
(** ** [edge.py] *)

Inductive Edge :=
| DirectEdge (source target : str)
| ConditionalEdge (source route target : str)
| JoinEdge (sources : list str) (target : str).
#[export] Instance edge_eq_dec : EqDecision Edge.
Proof. solve_decision. Defined.

(* ------------------------------------------------------------------ *)
(** ** [ports.py] *)

Record GraphInputPort := mkGraphInput { gi_name : str }.
Record NodeInputPort := mkNodeInput { ni_node_id : str; ni_local_name : str }.
Record NodeOutputPort := mkNodeOutput { no_node_id : str; no_output_name : str }.
Record GraphOutputPort := mkGraphOutput { go_boundary_name : str }.

Inductive ResolvedValueSource :=
| FromGraphInput (port : GraphInputPort)
| FromNodeOutput (port : NodeOutputPort).

(** A gate: source nodes, each with the route domain it may contribute. *)
Definition ActivationGate : Type := list (str * list (option str)).

Inductive PublicationSelectionKind := ABSOLUTE | RELATIVE.
#[export] Instance selection_kind_eq_dec : EqDecision PublicationSelectionKind.
Proof. solve_decision. Defined.
Record PublicationSelection := mkSelection { sel_kind : PublicationSelectionKind; sel_superstep : Z }.

(** [PublicationSelection.resolve] *)
Definition resolve (selection : PublicationSelection) (anchor_superstep : Z) : result Z :=
  let selected := match sel_kind selection with
                  | ABSOLUTE => sel_superstep selection
                  | RELATIVE => anchor_superstep - sel_superstep selection end in
  raise_if (selected <? 0) GraphValidationError "publication selection precedes the graph run";;
  Ok selected.

Record CompiledPredecessorInput := mkPredecessorInput {
  pi_target : str;
  pi_input_name : str;
  pi_sources : list NodeOutputPort;
  pi_start_input : option GraphInputPort
}.

Inductive ResolvedInputSource :=
| ResolvedValue (source : ResolvedValueSource)
| PredecessorInput (input : CompiledPredecessorInput).

Definition require_publication_selection (selection : option PublicationSelection) (error : exn)
    : result PublicationSelection :=
  match selection with Some s => Ok s | None => Raise error end.

Inductive FrameKind := GRAPH_INPUT | NODE_INPUT | NODE_OUTPUT | GRAPH_OUTPUT.

Record FrameDescriptorIdentity := mkFrameIdentity {
  fdi_definition_id : str;
  fdi_definition_version : Z;
  fdi_frame_kind : FrameKind;
  fdi_owner_ordinal : Z
}.

(** [FrameDescriptorIdentity.__post_init__] *)
Definition FrameDescriptorIdentity_new (definition_id : str) (definition_version : Z)
    (frame_kind : FrameKind) (owner_ordinal : Z) : result FrameDescriptorIdentity :=
  raise_if (negb (is_canonical_identity definition_id) || (definition_version <? 1) || (owner_ordinal <? 0))
    GraphValidationError "frame descriptor identity requires canonical, exact typed coordinates";;
  Ok (mkFrameIdentity definition_id definition_version frame_kind owner_ordinal).

Record OutputDeclaration (V : Type) := mkOutputDeclaration { od_name : str; od_descriptor : V }.
Record FrameDescriptor (V : Type) := mkFrameDescriptor {
  fd_identity : FrameDescriptorIdentity;
  fd_declarations : list (OutputDeclaration V)
}.
Record ResolvedInputBinding (V : Type) := mkInputBinding {
  rib_destination : NodeInputPort;
  rib_source : ResolvedInputSource;
  rib_descriptor : V;
  rib_publication : option PublicationSelection
}.
Record GraphOutputBinding (V : Type) := mkOutputBinding {
  gob_destination : GraphOutputPort;
  gob_source : ResolvedValueSource;
  gob_descriptor : V;
  gob_publication : option PublicationSelection
}.
Record MaterializationPlan (V : Type) := mkMaterialization {
  mp_bindings : list (ResolvedInputBinding V);
  mp_descriptor : FrameDescriptor V
}.
Arguments mkOutputDeclaration {_}.
Arguments od_name {_}.
Arguments od_descriptor {_}.
Arguments mkFrameDescriptor {_}.
Arguments fd_identity {_}.
Arguments fd_declarations {_}.
Arguments mkInputBinding {_}.
Arguments rib_destination {_}.
Arguments rib_source {_}.
Arguments rib_descriptor {_}.
Arguments rib_publication {_}.
Arguments mkOutputBinding {_}.
Arguments gob_destination {_}.
Arguments gob_source {_}.
Arguments gob_descriptor {_}.
Arguments gob_publication {_}.
Arguments mkMaterialization {_}.
Arguments mp_bindings {_}.
Arguments mp_descriptor {_}.

(* ------------------------------------------------------------------ *)
(** ** [topology.py] *)

(** [FrozenMap]: its entries. *)
Definition FrozenMap (A : Type) : Type := list (str * A).

(** [FrozenMap.__getitem__], [__contains__] and [items()] of the [Mapping] protocol. *)
Fixpoint map_get {A} (m : FrozenMap A) (key : str) : result A :=
  match m with
  | [] => Raise (Exn KeyError "key")
  | (candidate, value) :: rest => if bool_decide (candidate = key) then Ok value else map_get rest key
  end.
Definition map_has {A} (m : FrozenMap A) (key : str) : bool :=
  match map_get m key with Ok _ => true | Raise _ => false end.
Definition map_items {A} (m : FrozenMap A) : result (list (str * A)) :=
  mapM (λ key, value ← map_get m key; Ok (key, value)) (fst <$> m).

Definition frozen_map {A} (values : list (str * A)) : FrozenMap A := sorted_key fst values.

Record CompiledJoin := mkCompiledJoin {
  cj_identity : GraphJoinIdentity;
  cj_source_target_offsets : list (str * Z)
}.
#[export] Instance compiled_join_eq_dec : EqDecision CompiledJoin.
Proof. solve_decision. Defined.

(** [CompiledJoin.__post_init__] *)
Definition CompiledJoin_new (identity : GraphJoinIdentity) (offsets : list (str * Z))
    : result CompiledJoin :=
  raise_if (negb (bool_decide (fst <$> offsets = join_sources identity))) ValueError
    "compiled Join offsets must exactly cover its canonical sources";;
  raise_if (existsb (λ '(_, offset), offset <? 1) offsets) ValueError
    "compiled Join source offsets must be positive integers";;
  Ok (mkCompiledJoin identity offsets).

Definition target_offset (join : CompiledJoin) (source : str) : result Z :=
  match List.find (λ '(candidate, _), bool_decide (candidate = source)) (cj_source_target_offsets join) with
  | Some (_, offset) => Ok offset
  | None => Raise (Exn SnapshotMismatchError "compiled Join does not contain the arrival source")
  end.

Definition occurrence_for (join : CompiledJoin) (activation : GraphActivationIdentity)
    : result GraphJoinOccurrenceIdentity :=
  offset ← target_offset join (act_node_id activation);
  GraphJoinOccurrenceIdentity_new (cj_identity join) (act_run_id activation)
    (act_superstep activation + offset).

Record FrontierTransitionPlan (V : Type) := mkTransitionPlan {
  tp_entries : list str;
  direct_targets : FrozenMap (list str);
  conditional_targets : FrozenMap (FrozenMap str);
  route_options : FrozenMap (list (option str));
  joins_by_source : FrozenMap (list CompiledJoin);
  materializations : FrozenMap (MaterializationPlan V);
  publications : FrozenMap (FrameDescriptor V);
  graph_outputs : list (GraphOutputBinding V);
  resource_order : list str;
  activation_gates : FrozenMap (list ActivationGate)
}.
Arguments mkTransitionPlan {_}.
Arguments tp_entries {_}.
Arguments direct_targets {_}.
Arguments conditional_targets {_}.
Arguments route_options {_}.
Arguments joins_by_source {_}.
Arguments materializations {_}.
Arguments publications {_}.
Arguments graph_outputs {_}.
Arguments resource_order {_}.
Arguments activation_gates {_}.

(** A node: a callable with its resources and exported routes, or a nested graph. *)
Inductive GraphNode :=
| CallableNodeDefinition (node_id : str) (resources : list str) (exported_routes : list str)
| NestedGraphNodeDefinition (node_id : str).

(** The identity of a [FrameCodec]; its encoder and decoder are not called here. *)
Record FrameCodec := mkFrameCodec { fc_codec_id : str; fc_version : Z }.

Inductive CompiledGraph (V : Type) := mkCompiledGraph {
  cg_definition_id : str;
  cg_version : Z;
  cg_nodes : FrozenMap GraphNode;
  nested_graphs : list (str * CompiledGraph V);
  graph_input_descriptor : FrameDescriptor V;
  graph_output_descriptor : FrameDescriptor V;
  transition : FrontierTransitionPlan V;
  cg_resources : list str;
  resume_input : option FrameCodec;
  completion_routes : list (option str)
}.
Arguments mkCompiledGraph {_}.
Arguments cg_definition_id {_}.
Arguments cg_version {_}.
Arguments cg_nodes {_}.
Arguments nested_graphs {_}.
Arguments graph_input_descriptor {_}.
Arguments graph_output_descriptor {_}.
Arguments transition {_}.
Arguments cg_resources {_}.
Arguments resume_input {_}.
Arguments completion_routes {_}.

(** [_compiled_graph_at_scope] *)
Fixpoint compiled_graph_at_scope {V} (current : CompiledGraph V) (segments : list str)
    : result (CompiledGraph V) :=
  match segments with
  | [] => Ok current
  | segment :: rest =>
      nested ← except (one_of [KeyError]) SnapshotMismatchError
                 "scope references unknown nested node" (map_get (nested_graphs current) segment);
      compiled_graph_at_scope nested rest
  end.
