(* ===== verification/GraphDefinition.v ===== *)
(** * Graph definitions and their static validation

    [execution/graph/definition.py] and [execution/graph/validation.py].  A definition
    carries the identity of its Python object ([id(definition)]), which the visit table
    of the validator and the compiler's memo compare.  [V] is the type of nominal type
    descriptors, compared as objects. *)

From Stdlib Require Import ZArith NArith Lia Bool String.
From stdpp Require Import prelude strings gmap sorting.
From S2P Require Import Prelude Identity Topology.

Set Default Goal Selector "!".
Open Scope Z_scope.

(* ------------------------------------------------------------------ *)
(** ** Port declarations of [ports.py] *)

(** [ValueSourceRef] and [InputBindingSource]. *)
Inductive ValueSourceRef (V : Type) :=
| GraphInputRef (name : str) (descriptor : V)
| NodeOutputRef (node_id output_name : str) (descriptor : option V).
Arguments GraphInputRef {_}.
Arguments NodeOutputRef {_}.

Inductive InputBindingSource (V : Type) :=
| ValueSource (source : ValueSourceRef V)
| PredecessorOutputRef (output_name : str) (descriptor : option V).
Arguments ValueSource {_}.
Arguments PredecessorOutputRef {_}.

Record InputBinding (V : Type) := mkBinding { ib_local_name : str; ib_source : InputBindingSource V }.
Arguments mkBinding {_}.
Arguments ib_local_name {_}.
Arguments ib_source {_}.

Record GraphOutputDeclaration (V : Type) := mkGraphOutputDeclaration {
  gd_boundary_name : str;
  gd_source : ValueSourceRef V
}.
Arguments mkGraphOutputDeclaration {_}.
Arguments gd_boundary_name {_}.
Arguments gd_source {_}.

(* ------------------------------------------------------------------ *)
(** ** [definition.py] *)

(** [GraphNode] and [GraphDefinition]; [object_id] is [id(definition)], and a resource
    definition is its resource id. *)
Inductive NodeDefinition (V : Type) :=
| CallableNode (node_id : str) (inputs : list (InputBinding V)) (outputs : list (OutputDeclaration V))
    (resources : list str) (exported_routes : list str)
| NestedGraphNode (node_id : str) (graph : GraphDefinition V) (inputs : list (InputBinding V))
with GraphDefinition (V : Type) :=
| mkDefinition (object_id : Z) (definition_id : str) (version : Z) (nodes : list (NodeDefinition V))
    (edges : list Edge) (entries : list str) (outputs : list (GraphOutputDeclaration V))
    (resources : list str) (resume_input : option FrameCodec).
Arguments CallableNode {_}.
Arguments NestedGraphNode {_}.
Arguments mkDefinition {_}.

Section fields.
Context {V : Type}.
Implicit Types (definition : GraphDefinition V) (node : NodeDefinition V).

Definition object_id definition : Z := let '(mkDefinition x _ _ _ _ _ _ _ _) := definition in x.
Definition definition_id definition : str := let '(mkDefinition _ x _ _ _ _ _ _ _) := definition in x.
Definition definition_version definition : Z := let '(mkDefinition _ _ x _ _ _ _ _ _) := definition in x.
Definition definition_nodes definition : list (NodeDefinition V) :=
  let '(mkDefinition _ _ _ x _ _ _ _ _) := definition in x.
Definition definition_edges definition : list Edge := let '(mkDefinition _ _ _ _ x _ _ _ _) := definition in x.
Definition definition_entries definition : list str := let '(mkDefinition _ _ _ _ _ x _ _ _) := definition in x.
Definition definition_outputs definition : list (GraphOutputDeclaration V) :=
  let '(mkDefinition _ _ _ _ _ _ x _ _) := definition in x.
Definition definition_resources definition : list str := let '(mkDefinition _ _ _ _ _ _ _ x _) := definition in x.
Definition definition_resume_input definition : option FrameCodec :=
  let '(mkDefinition _ _ _ _ _ _ _ _ x) := definition in x.

Definition node_id node : str :=
  match node with CallableNode i _ _ _ _ => i | NestedGraphNode i _ _ => i end.
Definition node_inputs node : list (InputBinding V) :=
  match node with CallableNode _ x _ _ _ => x | NestedGraphNode _ _ x => x end.
End fields.

(* ------------------------------------------------------------------ *)
(** ** [validation.py] *)

(** [require_graph_identity] *)
Definition require_definition_identity (value : str) : result unit :=
  raise_if (negb (is_canonical_identity value)) InvalidGraphIdentityError
    "identity must be a non-empty trimmed string".

(** [FrameCodec.validate]; its encoder and decoder are callables by type. *)
Definition validate_codec (codec : FrameCodec) : result unit :=
  raise_if (negb (is_canonical_identity (fc_codec_id codec))) InvalidGraphIdentityError
    "frame codec identity must be canonical";;
  raise_if (fc_version codec <? 1) InvalidGraphIdentityError
    "frame codec version must be an exact positive integer".

Section validation.
Context {V : Type}.
Implicit Types (definition : GraphDefinition V) (node : NodeDefinition V).

(** [_validate_callable_declarations] *)
Definition validate_callable_declarations definition : result unit :=
  let resource_ids := definition_resources definition in
  raise_if (negb (no_repeats resource_ids)) InvalidResourceDefinitionError
    "graph resources require unique resource IDs";;
  py_for resource_ids (λ resource_id,
    except_str (one_of [InvalidGraphIdentityError]) InvalidResourceDefinitionError
      (require_definition_identity resource_id));;
  py_for (definition_nodes definition) (λ node,
    match node with
    | NestedGraphNode _ _ _ => Ok tt
    | CallableNode _ _ _ resources exported_routes =>
        raise_if (negb (no_repeats resources)) InvalidResourceDefinitionError
          "node repeats a resource requirement";;
        raise_if (negb (subset_of resources resource_ids)) InvalidResourceDefinitionError
          "node references an unknown resource";;
        py_for exported_routes require_definition_identity
    end).

(** What [_validate_edges] has seen so far. *)
Record EdgesSeen := mkSeen {
  direct_seen : list (str * str);
  conditional_seen : list (str * str);
  join_seen : list (list str * str)
}.

(** An edge target is END or a declared node. *)
Definition known_target (node_ids : list str) (target : str) : bool :=
  bool_decide (target = END) || mem target node_ids.

(** [key in join_seen]: source sets are frozensets. *)
Definition join_repeated (seen : list (list str * str)) (sources : list str) (target : str) : bool :=
  existsb (λ '(sources', target'), same_set sources sources' && bool_decide (target = target')) seen.

(** One edge of [_validate_edges]. *)
Definition validate_edge (node_ids : list str) (seen : EdgesSeen) (edge : Edge) : result EdgesSeen :=
  match edge with
  | DirectEdge source target =>
      raise_if (negb (mem source node_ids) || negb (known_target node_ids target)) UnknownNodeError
        "direct edge references an unknown node";;
      raise_if (mem (source, target) (direct_seen seen)) DuplicateEdgeError "duplicate direct edge";;
      Ok (mkSeen (direct_seen seen ++ [(source, target)]) (conditional_seen seen) (join_seen seen))
  | ConditionalEdge source route target =>
      require_definition_identity route;;
      raise_if (negb (mem source node_ids) || negb (known_target node_ids target)) UnknownNodeError
        "conditional edge references an unknown node";;
      raise_if (mem (source, route) (conditional_seen seen)) DuplicateEdgeError "duplicate conditional route";;
      Ok (mkSeen (direct_seen seen) (conditional_seen seen ++ [(source, route)]) (join_seen seen))
  | JoinEdge sources target =>
      raise_if ((length sources <? 2)%nat || negb (no_repeats sources) || negb (subset_of sources node_ids)
                || negb (known_target node_ids target) || mem target sources) InvalidJoinError
        "invalid join into node";;
      raise_if (join_repeated (join_seen seen) sources target) InvalidJoinError "duplicate join into node";;
      Ok (mkSeen (direct_seen seen) (conditional_seen seen) (join_seen seen ++ [(sources, target)]))
  end.

(** [_validate_edges] *)
Definition validate_edges definition (node_ids : list str) : result unit :=
  raise_if (negb (no_repeats (definition_entries definition))) DuplicateBoundaryError
    "graph definition contains duplicate explicit START entries";;
  raise_if (existsb (λ entry, negb (mem entry node_ids)) (definition_entries definition)) UnknownNodeError
    "START edge references an unknown node";;
  _ ← py_for_state (definition_edges definition) (mkSeen [] [] []) (validate_edge node_ids);
  Ok tt.

(** [_ValidationStatus] and [_DefinitionVisit]: the object and its status. *)
Inductive ValidationStatus := VISITING | VALIDATED.
#[export] Instance validation_status_eq_dec : EqDecision ValidationStatus.
Proof. solve_decision. Defined.
Definition Visits : Type := gmap (str * Z) (Z * ValidationStatus).

(** The node identities of one definition, before its edges are read. *)
Definition validate_node_ids definition : result unit :=
  py_for (definition_nodes definition) (λ node,
    require_definition_identity (node_id node);;
    raise_if (bool_decide (node_id node = START) || bool_decide (node_id node = END)) InvalidGraphIdentityError
      "START and END cannot be concrete graph nodes");;
  raise_if (negb (no_repeats (node_id <$> definition_nodes definition))) DuplicateNodeError
    "graph definition contains duplicate node identities".

(** [_validate_definition], with the nested definitions visited in node order. *)
Fixpoint validate_definition (definition : GraphDefinition V) (visits : Visits) {struct definition}
    : result Visits :=
  match definition with
  | mkDefinition object definition_id version nodes edges entries outputs resources resume_input =>
  let definition := mkDefinition object definition_id version nodes edges entries outputs resources resume_input in
  require_definition_identity definition_id;;
  raise_if (version <? 1) InvalidGraphIdentityError "graph definition version must be a positive integer";;
  match visits !! (definition_id, version) with
  | Some (existing, status) =>
      raise_if (negb (existing =? object)) DuplicateGraphDefinitionError "graph definition identity collision";;
      raise_if (bool_decide (status = VISITING)) RecursiveGraphDefinitionError "recursive graph definition";;
      Ok visits
  | None =>
      let visits : Visits := <[(definition_id, version) := (object, VISITING)]> visits in
      validate_node_ids definition;;
      validate_callable_declarations definition;;
      validate_edges definition (node_id <$> nodes);;
      match resume_input with Some codec => validate_codec codec | None => Ok tt end;;
      visits ← (fix visit (nodes : list (NodeDefinition V)) (visits : Visits) : result Visits :=
          match nodes with
          | [] => Ok visits
          | CallableNode _ _ _ _ _ :: rest => visit rest visits
          | NestedGraphNode _ graph _ :: rest => visits' ← validate_definition graph visits; visit rest visits'
          end) nodes visits;
      Ok (<[(definition_id, version) := (object, VALIDATED)]> visits : Visits)
  end
  end.

Definition validate_graph definition : result unit :=
  _ ← validate_definition definition ∅; Ok tt.
End validation.
