(* ===== verification/ControlGraph.v ===== *)
(** * The compiler's control-graph analyses

    The topology functions of [execution/graph/compiler.py]: reachability, cycles,
    repeatable nodes, guaranteed predecessors, terminal gates and activation levels.
    A dict keyed by node is a [gmap]; the compiler builds each of them over the sorted
    node ids, so [.items()] lists it in key order ([items]).  A Python set is a [gset];
    where the code iterates over one without sorting, the sorted order is used, and
    nothing computed here depends on it.  Worklist and fixpoint loops carry fuel that is
    computed from their arguments; [ControlGraphProofs] shows it is always enough. *)

From Stdlib Require Import ZArith NArith Lia Bool String.
From stdpp Require Import prelude strings gmap sorting.
From S2P Require Import Prelude Identity Topology GraphDefinition.

Set Default Goal Selector "!".

(** [sorted(xs)] of a set and [d.items()] of a dict built over sorted keys. *)
Definition sorted_elements (xs : gset str) : list str := sorted (elements xs).
Definition items {A} (d : gmap str A) : list (str * A) := sorted_key fst (map_to_list d).

Notation Successors := (gmap str (gset str)).
(** [_RawActivationGate]: the sources of one gate with their selected routes. *)
Definition RawGate : Type := list (str * option str).

(** [(route is not None, route or "")] *)
Definition route_key (route : option str) : bool * str := (bool_decide (is_Some route), default [] route).

(* ------------------------------------------------------------------ *)
(** ** Plain reachability *)

(** The worklist of [_can_reach]; the top of the stack is the head of [pending]. *)
Fixpoint can_reach_loop (fuel : nat) (successors : Successors) (target : str) (pending : list str)
    (visited : gset str) : result bool :=
  match fuel with
  | O => diverged
  | S fuel =>
      match pending with
      | [] => Ok false
      | current :: pending =>
          if bool_decide (current = target) then Ok true
          else if bool_decide (current ∈ visited) then can_reach_loop fuel successors target pending visited
          else
            next ← dict_get successors current;
            can_reach_loop fuel successors target (sorted_elements next ++ pending) ({[current]} ∪ visited)
      end
  end.

(** Number of edges that leave the nodes of [xs]. *)
Definition out_edges (successors : Successors) (xs : gset str) : nat :=
  sum_list_with (λ x, size (default ∅ (successors !! x))) (elements xs).

Definition can_reach (source target : str) (successors : Successors) : result bool :=
  if bool_decide (successors !! source = None) || bool_decide (successors !! target = None) then Ok false
  else can_reach_loop (2 + out_edges successors (dom successors)) successors target [source] ∅.

(** [any(f(x) for x in xs)] with a fallible [f]. *)
Fixpoint any_of {A} (xs : list A) (f : A → result bool) : result bool :=
  match xs with
  | [] => Ok false
  | x :: rest => b ← f x; if (b : bool) then Ok true else any_of rest f
  end.

(** [tuple(x for x in xs if f(x))] with a fallible [f]. *)
Fixpoint select {A} (xs : list A) (f : A → result bool) : result (list A) :=
  match xs with
  | [] => Ok []
  | x :: rest => b ← f x; kept ← select rest f; Ok (if (b : bool) then x :: kept else kept)
  end.

(** [_cycle_nodes] *)
Definition cycle_nodes (node_ids : list str) (successors : Successors) : result (gset str) :=
  kept ← select node_ids (λ node_id,
    next ← dict_get successors node_id;
    any_of (sorted_elements next) (λ successor, can_reach successor node_id successors));
  Ok (list_to_set kept).

(** The worklist of [_cycle_reachable_nodes]: a node is pushed when it is first reached. *)
Fixpoint flood_loop (fuel : nat) (successors : Successors) (pending : list str) (reached : gset str)
    : result (gset str) :=
  match fuel with
  | O => diverged
  | S fuel =>
      match pending with
      | [] => Ok reached
      | source :: pending =>
          next ← dict_get successors source;
          let '(pending, reached) := fold_left (λ '(pending, reached) target,
              if bool_decide (target ∈ reached) then (pending, reached)
              else (target :: pending, {[target]} ∪ reached)) (sorted_elements next) (pending, reached) in
          flood_loop fuel successors pending reached
      end
  end.

(** [_cycle_reachable_nodes] *)
Definition cycle_reachable_nodes (node_ids : list str) (successors : Successors) : result (gset str) :=
  cyclic ← cycle_nodes node_ids successors;
  flood_loop (1 + size (dom successors) + size cyclic) successors (reverse (sorted_elements cyclic)) cyclic.

(* ------------------------------------------------------------------ *)
(** ** Reachability with Joins *)

(** One pass of [_reachable]: the successors of a snapshot of [reached], then the Joins. *)
Definition reachable_pass (successors : Successors) (joins : list (list str * str)) (reached : gset str)
    : result (gset str) :=
  grown ← py_for_state (sorted_elements reached) reached (λ reached source,
    next ← dict_get successors source; Ok (reached ∪ next));
  Ok (fold_left (λ reached '(sources, target),
        if negb (bool_decide (target = END)) && forallb (λ source, bool_decide (source ∈ reached)) sources
           && negb (bool_decide (target ∈ reached))
        then {[target]} ∪ reached else reached) joins grown).

(** [changed] holds when the pass added a node. *)
Fixpoint reachable_loop (fuel : nat) (successors : Successors) (joins : list (list str * str))
    (reached : gset str) : result (gset str) :=
  match fuel with
  | O => diverged
  | S fuel =>
      next ← reachable_pass successors joins reached;
      if (size next =? size reached)%nat then Ok next
      else reachable_loop fuel successors joins next
  end.

(** [_reachable] *)
Definition reachable_nodes (entries : list str) (successors : Successors) (joins : list (list str * str))
    : result (gset str) :=
  reachable_loop (2 + size (dom successors)) successors joins (list_to_set entries).

(** [_static_successors] *)
Definition static_successors (node_ids : list str) (direct_targets : Successors)
    (conditional_targets : gmap str (list (str * str))) : result Successors :=
  py_for_state node_ids ∅ (λ successors node_id,
    direct ← dict_get direct_targets node_id;
    conditional ← dict_get conditional_targets node_id;
    Ok (<[node_id := direct ∪ list_to_set (List.filter (λ target, negb (bool_decide (target = END)))
                                             (snd <$> conditional))]> successors)).

(* ------------------------------------------------------------------ *)
(** ** Repeatable nodes *)

Notation ActivationGates := (gmap str (list RawGate)).

(** One pass over the gates in [_repeatable_nodes]. *)
Definition repeatable_pass (activation_gates : ActivationGates) (repeatable : gset str) : gset str :=
  fold_left (λ repeatable '(node_id, gates),
    if bool_decide (node_id ∈ repeatable) then repeatable
    else if existsb (λ gate : RawGate, existsb (λ '(source, _), bool_decide (source ∈ repeatable)) gate) gates
    then {[node_id]} ∪ repeatable else repeatable) (items activation_gates) repeatable.

Fixpoint repeatable_loop (fuel : nat) (activation_gates : ActivationGates) (repeatable : gset str)
    : result (gset str) :=
  match fuel with
  | O => diverged
  | S fuel =>
      let next := repeatable_pass activation_gates repeatable in
      if (size next =? size repeatable)%nat then Ok next else repeatable_loop fuel activation_gates next
  end.

(** [_repeatable_nodes] *)
Definition repeatable_nodes (entries : list str) (activation_gates : ActivationGates)
    (successors : Successors) : result (gset str) :=
  cyclic ← cycle_reachable_nodes (sorted_elements (dom successors)) successors;
  gated ← select entries (λ node_id, gates ← dict_get activation_gates node_id; Ok (negb (is_nil gates)));
  repeatable_loop (1 + size (dom activation_gates)) activation_gates (cyclic ∪ list_to_set gated).

(* ------------------------------------------------------------------ *)
(** ** Guaranteed predecessors *)

Notation Guarantees := (gmap str (gset str)).

(** [guaranteed.update(guarantees[source])] over the sources of one gate. *)
Definition gate_guarantee (guarantees : Guarantees) (sources : list str) : result (gset str) :=
  py_for_state sources ∅ (λ guaranteed source,
    known ← dict_get guarantees source; Ok (guaranteed ∪ known)).

(** The intersection of the alternatives, empty when there is none. *)
Definition common_of (alternatives : list (gset str)) : gset str :=
  match alternatives with [] => ∅ | first :: rest => fold_left (∩) rest first end.

(** The replacement of one node in [_guaranteed_sets]. *)
Definition guarantee_of (entries : gset str) (activation_gates : ActivationGates) (guarantees : Guarantees)
    (node_id : str) : result (gset str) :=
  gates ← dict_get activation_gates node_id;
  by_gate ← mapM (λ gate : RawGate, gate_guarantee guarantees (fst <$> gate)) gates;
  Ok (common_of ((if bool_decide (node_id ∈ entries) then [∅] else []) ++ by_gate) ∪ {[node_id]}).

Fixpoint guaranteed_loop (fuel : nat) (node_ids : list str) (entries : gset str)
    (activation_gates : ActivationGates) (guarantees : Guarantees) : result Guarantees :=
  match fuel with
  | O => diverged
  | S fuel =>
      replacements ← py_for_state node_ids ∅ (λ replacements node_id,
        guaranteed ← guarantee_of entries activation_gates guarantees node_id;
        Ok (<[node_id := guaranteed]> replacements));
      if bool_decide (replacements = guarantees) then Ok guarantees
      else guaranteed_loop fuel node_ids entries activation_gates replacements
  end.

(** [_guaranteed_sets] *)
Definition guaranteed_sets (node_ids entries : list str) (activation_gates : ActivationGates)
    : result Guarantees :=
  guaranteed_loop (2 + length node_ids * length node_ids) node_ids (list_to_set entries) activation_gates
    (list_to_map ((λ node_id, (node_id, {[node_id]})) <$> node_ids)).

(* ------------------------------------------------------------------ *)
(** ** Terminal gates *)

(** [_terminal_gates]; a gate is the sorted list of its sources. *)
Definition terminal_gates (node_ids : list str) (control_gates_to_end : list (gset str))
    (successors : Successors) : result (list (gset str)) :=
  let explicit := remove_dups control_gates_to_end in
  let explicit_sources := ⋃ explicit in
  natural ← select node_ids (λ node_id,
    next ← dict_get successors node_id;
    Ok (bool_decide (next = ∅) && negb (bool_decide (node_id ∈ explicit_sources))));
  Ok (sorted_key sorted_elements (explicit ++ (singleton <$> natural))).

(** [_terminal_guarantees]: [alternatives[0]] raises when there is no terminal gate. *)
Definition terminal_guarantees (guarantees : Guarantees) (gates : list (gset str)) : result (gset str) :=
  alternatives ← mapM (λ gate, gate_guarantee guarantees (sorted_elements gate)) gates;
  raise_if (is_nil alternatives) IndexError "list index out of range";;
  Ok (common_of alternatives).

(** [_validate_cycle_exits] *)
Definition validate_cycle_exits (node_ids : list str) (successors : Successors)
    (gates : list (gset str)) : result unit :=
  cyclic ← cycle_nodes node_ids successors;
  if bool_decide (cyclic = ∅) then Ok tt else
  let terminal_sources := concat (sorted_elements <$> gates) in
  stuck ← (if is_nil terminal_sources then Ok true else
    any_of (sorted_elements cyclic) (λ node_id,
      exits ← any_of terminal_sources (λ terminal, can_reach node_id terminal successors);
      Ok (negb exits)));
  raise_if stuck GraphValidationError "control cycle has no statically reachable successful exit".

(* ------------------------------------------------------------------ *)
(** ** Activation levels *)

Notation Levels := (gmap str (gset Z)).

(** One edge of a pass of [_absolute_activation_levels]. *)
Definition raise_level (source : str) (levels : Levels) (target : str) : result Levels :=
  from ← dict_get levels source;
  known ← dict_get levels target;
  Ok (<[target := known ∪ set_map (λ level, level + 1)%Z from]> levels).

Definition level_pass (node_ids : list str) (variable_nodes : gset str) (successors : Successors)
    (levels : Levels) : result Levels :=
  py_for_state node_ids levels (λ levels source,
    next ← dict_get successors source;
    py_for_state (sorted_elements next) levels (λ levels target,
      if bool_decide (target ∈ variable_nodes) then Ok levels else raise_level source levels target)).

(** [changed] holds when some set grew. *)
Fixpoint level_loop (fuel : nat) (node_ids : list str) (variable_nodes : gset str) (successors : Successors)
    (levels : Levels) : result Levels :=
  match fuel with
  | O => diverged
  | S fuel =>
      next ← level_pass node_ids variable_nodes successors levels;
      if bool_decide (next = levels) then Ok next
      else level_loop fuel node_ids variable_nodes successors next
  end.

(** [next(iter(candidates))] of a singleton. *)
Definition unique_level (candidates : gset Z) : option Z :=
  match elements candidates with [level] => Some level | _ => None end.

(** [_absolute_activation_levels] *)
Definition absolute_activation_levels (node_ids entries : list str) (successors : Successors)
    : result (gmap str Z) :=
  variable_nodes ← cycle_reachable_nodes node_ids successors;
  let empty : Levels := list_to_map ((λ node_id : str, (node_id, (∅ : gset Z))) <$> node_ids) in
  seeded ← py_for_state entries empty (λ (levels : Levels) (entry : str),
    if bool_decide (entry ∈ variable_nodes) then Ok levels else
    (known ← dict_get levels entry; Ok (<[entry := known ∪ ({[0%Z]} : gset Z)]> levels)));
  levels ← level_loop (2 + length node_ids) node_ids variable_nodes successors seeded;
  Ok (omap (M := gmap str) unique_level levels).
