(* ===== verification/ControlGraphProofs.v ===== *)
(** * Correctness of the control-graph analyses

    Each worklist or fixpoint of [ControlGraph] terminates within its fuel and computes
    the relation it stands for: paths, cycles, Join-aware reachability, predecessors on
    every activation history, unique activation levels. *)

From Stdlib Require Import ZArith NArith Lia Bool String.
From stdpp Require Import prelude strings gmap sorting.
From S2P Require Import Prelude Identity Topology GraphDefinition ControlGraph.

Set Default Goal Selector "!".
Open Scope nat_scope.

Lemma sorted_elements_elem (x : str) (xs : gset str) : x ∈ sorted_elements xs ↔ x ∈ xs.
Proof. unfold sorted_elements, sorted. by rewrite sort_by_perm, elem_of_elements. Qed.

Lemma sorted_elements_length (xs : gset str) : length (sorted_elements xs) = size xs.
Proof. unfold sorted_elements, sorted. by rewrite sort_by_perm. Qed.

Lemma sorted_elements_NoDup (xs : gset str) : NoDup (sorted_elements xs).
Proof. unfold sorted_elements, sorted. rewrite sort_by_perm. apply NoDup_elements. Qed.

Lemma any_of_spec {A} (P : A → Prop) (xs : list A) f :
  (∀ x, x ∈ xs → ∃ b, f x = Ok b ∧ (b = true ↔ P x)) →
  ∃ b, any_of xs f = Ok b ∧ (b = true ↔ ∃ x, x ∈ xs ∧ P x).
Proof.
  induction xs as [|x xs IH]; intros Hf; cbn.
  - exists false. split; [done|]. split; [done|]. by intros (x & ?%elem_of_nil & _).
  - destruct (Hf x) as (b & -> & Hb); [by left|]. cbn. setoid_rewrite elem_of_cons.
    destruct b; [exists true; split; [done|]; naive_solver|].
    destruct IH as (b & -> & Hb'); [intros; apply Hf; by right|]. exists b. split; [done|]. naive_solver.
Qed.

Lemma select_spec {A} (P : A → Prop) (xs : list A) f :
  (∀ x, x ∈ xs → ∃ b, f x = Ok b ∧ (b = true ↔ P x)) →
  ∃ kept, select xs f = Ok kept ∧ ∀ x, x ∈ kept ↔ x ∈ xs ∧ P x.
Proof.
  induction xs as [|x xs IH]; intros Hf; cbn.
  - exists []. split; [done|]. intros x. rewrite elem_of_nil. tauto.
  - destruct (Hf x) as (b & -> & Hb); [by left|]. cbn.
    destruct IH as (kept & -> & Hk); [intros; apply Hf; by right|]. cbn.
    eexists. split; [done|]. intros y. rewrite elem_of_cons. destruct b; [rewrite elem_of_cons|]; rewrite Hk; naive_solver.
Qed.

(* ------------------------------------------------------------------ *)
(** ** The control relation *)

Definition edge (successors : Successors) (x y : str) : Prop :=
  ∃ ys, successors !! x = Some ys ∧ y ∈ ys.

(** Every target is a key: what edge validation ensures. *)
Definition closed (successors : Successors) : Prop :=
  ∀ x y, edge successors x y → y ∈ dom successors.

Section graph.
Context (successors : Successors).

Lemma dict_get_dom x : x ∈ dom successors → ∃ ys, dict_get successors x = Ok ys ∧ successors !! x = Some ys.
Proof using. intros [ys Hys]%elem_of_dom. exists ys. unfold dict_get. by rewrite Hys. Qed.

Lemma edge_lookup x ys y : successors !! x = Some ys → edge successors x y ↔ y ∈ ys.
Proof using. intros Hx. split; [|by exists ys]. intros (zs & ? & ?). naive_solver. Qed.

(** A path that leaves a set has a last edge out of it. *)
Lemma path_leaves (visited : gset str) (x t : str) :
  rtc (edge successors) x t → x ∈ visited → t ∉ visited →
  ∃ v y, v ∈ visited ∧ edge successors v y ∧ y ∉ visited ∧ rtc (edge successors) y t.
Proof using.
  induction 1 as [x|x z t Hxz Hzt IH]; intros Hx Ht; [done|].
  destruct (decide (z ∈ visited)) as [Hz|Hz]; [by apply IH|]. exists x, z. done.
Qed.

Lemma out_edges_visit (x : str) (ys xs : gset str) :
  x ∈ xs → successors !! x = Some ys →
  out_edges successors xs = size ys + out_edges successors (xs ∖ {[x]}).
Proof using.
  intros Hx Hys. unfold out_edges. rewrite (union_difference_singleton_L x xs) at 1 by done.
  rewrite elements_disj_union by set_solver. rewrite elements_singleton. cbn. by rewrite Hys.
Qed.

Context (Hclosed : closed successors).

Lemma can_reach_loop_spec target fuel pending visited :
  length pending + out_edges successors (dom successors ∖ visited) < fuel →
  (∀ x, x ∈ pending → x ∈ dom successors) → target ∉ visited →
  (∀ v y, v ∈ visited → edge successors v y → y ∈ visited ∨ y ∈ pending) →
  ∃ b, can_reach_loop fuel successors target pending visited = Ok b
    ∧ (b = true ↔ ∃ x, x ∈ pending ∧ rtc (edge successors) x target).
Proof using Hclosed.
  revert pending visited. induction fuel as [|fuel IH]; [lia|].
  intros [|x pending] visited Hfuel Hdom Htarget Hinv; cbn [can_reach_loop].
  { exists false. split; [done|]. split; [done|]. by intros (x & ?%elem_of_nil & _). }
  case_bool_decide as Ht.
  { exists true. split; [done|]. split; [|done]. intros _. exists x. split; [by left|]. by subst. }
  cbn in Hfuel. case_bool_decide as Hv.
  - destruct (IH pending visited) as (b & -> & Hb); [lia|intros; apply Hdom; by right|done| |].
    { intros v y Hvis Hy. destruct (Hinv v y Hvis Hy) as [?|[->|?]%elem_of_cons]; auto. }
    exists b. split; [done|]. rewrite Hb. split.
    + intros (z & ? & ?). exists z. split; [by right|done].
    + intros (z & [->|Hz]%elem_of_cons & Hzt); [|eauto].
      destruct (path_leaves visited x target) as (v & y & Hvis & Hvy & Hy & Hyt); [done..|].
      destruct (Hinv v y Hvis Hvy) as [?|[->|?]%elem_of_cons]; [done|done|eauto].
  - assert (x ∈ dom successors) as Hx by (apply Hdom; by left).
    destruct (dict_get_dom x Hx) as (ys & -> & Hys). cbn [mbind result_bind].
    destruct (IH (sorted_elements ys ++ pending) ({[x]} ∪ visited)) as (b & -> & Hb).
    + rewrite (out_edges_visit x ys) in Hfuel by (done || set_solver).
      replace (dom successors ∖ ({[x]} ∪ visited)) with (dom successors ∖ visited ∖ {[x]}) by set_solver.
      rewrite length_app, sorted_elements_length. lia.
    + intros y [Hy%sorted_elements_elem|Hy]%elem_of_app; [|apply Hdom; by right].
      apply (Hclosed x). by exists ys.
    + set_solver.
    + intros v y [->%elem_of_singleton|Hvis]%elem_of_union Hy.
      * right. apply elem_of_app. left. apply sorted_elements_elem. by apply (edge_lookup _ _ _ Hys).
      * destruct (Hinv v y Hvis Hy) as [?|[->|?]%elem_of_cons]; [set_solver|set_solver|].
        right. apply elem_of_app. by right.
    + exists b. split; [done|]. rewrite Hb. split.
      * intros (z & [Hz%sorted_elements_elem|Hz]%elem_of_app & Hzt).
        -- exists x. split; [by left|]. eapply rtc_l; [by exists ys|done].
        -- exists z. split; [by right|done].
      * intros (z & [->|Hz]%elem_of_cons & Hzt).
        -- destruct (rtc_inv _ _ Hzt) as [->|(w & Hw & Hwt)]; [done|]. exists w. split; [|done].
           apply elem_of_app. left. apply sorted_elements_elem. by apply (edge_lookup _ _ _ Hys).
        -- exists z. split; [|done]. apply elem_of_app. by right.
Qed.

Lemma can_reach_spec source target :
  ∃ b, can_reach source target successors = Ok b
    ∧ (b = true ↔ source ∈ dom successors ∧ target ∈ dom successors
                  ∧ rtc (edge successors) source target).
Proof using Hclosed.
  unfold can_reach.
  destruct (decide (source ∈ dom successors)) as [Hs|Hs%not_elem_of_dom].
  2: { rewrite bool_decide_true by done. exists false. split; [done|]. split; [done|].
       intros ([ys Hys]%elem_of_dom & _). congruence. }
  destruct (decide (target ∈ dom successors)) as [Ht|Ht%not_elem_of_dom].
  2: { rewrite (bool_decide_true (successors !! target = None)) by done. rewrite orb_true_r.
       exists false. split; [done|]. split; [done|]. intros (_ & [ys Hys]%elem_of_dom & _). congruence. }
  pose proof Hs as [ys Hys]%elem_of_dom. pose proof Ht as [zs Hzs]%elem_of_dom.
  rewrite !bool_decide_false by (intros E; congruence). cbn [orb].
  destruct (can_reach_loop_spec target (2 + out_edges successors (dom successors)) [source] ∅) as (b & -> & Hb).
  - replace (dom successors ∖ ∅) with (dom successors) by set_solver. cbn. lia.
  - by intros x ->%list_elem_of_singleton.
  - set_solver.
  - set_solver.
  - exists b. split; [done|]. rewrite Hb. split.
    + by intros (x & ->%list_elem_of_singleton & ?).
    + intros (_ & _ & ?). exists source. split; [by left|done].
Qed.

(* ------------------------------------------------------------------ *)
(** ** Cycles *)

Lemma cycle_nodes_spec node_ids :
  (∀ n, n ∈ node_ids → n ∈ dom successors) →
  ∃ cyclic, cycle_nodes node_ids successors = Ok cyclic
    ∧ ∀ n, n ∈ cyclic ↔ n ∈ node_ids ∧ tc (edge successors) n n.
Proof using Hclosed.
  intros Hids. unfold cycle_nodes.
  destruct (select_spec (λ n, tc (edge successors) n n) node_ids (λ node_id,
    next ← dict_get successors node_id;
    any_of (sorted_elements next) (λ successor, can_reach successor node_id successors))) as (kept & -> & Hk).
  - intros n Hn. destruct (dict_get_dom n) as (ys & -> & Hys); [auto|]. cbn [mbind result_bind].
    destruct (any_of_spec (λ y, rtc (edge successors) y n) (sorted_elements ys)
      (λ successor, can_reach successor n successors)) as (b & -> & Hb).
    + intros y Hy%sorted_elements_elem. destruct (can_reach_spec y n) as (b & -> & Hb). exists b. split; [done|].
      rewrite Hb. assert (y ∈ dom successors) by (apply (Hclosed n); by exists ys). naive_solver.
    + exists b. split; [done|]. rewrite Hb. setoid_rewrite sorted_elements_elem. split.
      * intros (y & Hy & Hyn). eapply tc_rtc_r; [|done]. apply tc_once. by exists ys.
      * intros Htc. assert (∃ y, edge successors n y ∧ rtc (edge successors) y n) as (y & Hy & Hyn).
        { clear -Htc. inversion Htc; subst; eauto using rtc_refl, tc_rtc. }
        exists y. split; [by apply (edge_lookup _ _ _ Hys)|done].
  - exists (list_to_set kept). split; [done|]. intros n. by rewrite elem_of_list_to_set, Hk.
Qed.

(** The targets of one node enter the flood. *)
Lemma flood_targets (targets pending : list str) (reached : gset str) :
  ∃ fresh, fold_left (λ '(pending, reached) target,
      if bool_decide (target ∈ reached) then (pending, reached)
      else (target :: pending, {[target]} ∪ reached)) targets (pending, reached)
    = (fresh ++ pending, list_to_set fresh ∪ reached)
  ∧ (∀ x, x ∈ fresh → x ∈ targets) ∧ (∀ x, x ∈ targets → x ∈ fresh ∨ x ∈ reached)
  ∧ NoDup fresh ∧ (∀ x, x ∈ fresh → x ∉ reached).
Proof using.
  clear. revert pending reached. induction targets as [|t targets IH]; intros pending reached; cbn.
  { exists []. split_and!; [cbn; f_equal; set_solver|done|auto|constructor|by intros ? ?%elem_of_nil]. }
  case_bool_decide as Ht.
  - destruct (IH pending reached) as (fresh & -> & H1 & H2 & H3 & H4). exists fresh. split_and!; [done|..].
    + intros x Hx. right. auto.
    + intros x [->|?]%elem_of_cons; auto.
    + done.
    + done.
  - destruct (IH (t :: pending) ({[t]} ∪ reached)) as (fresh & -> & H1 & H2 & H3 & H4).
    exists (fresh ++ [t]). split_and!.
    + rewrite <-app_assoc. f_equal. rewrite list_to_set_app_L. cbn. set_solver.
    + intros x [?| ->%list_elem_of_singleton]%elem_of_app; [right; auto|by left].
    + intros x [->|Hx]%elem_of_cons; [left; apply elem_of_app; right; by left|].
      destruct (H2 x Hx) as [?|[->%elem_of_singleton|?]%elem_of_union]; [left|left|by right]; apply elem_of_app; [by left|right; by left].
    + apply NoDup_app. split_and!; [done| |apply NoDup_singleton].
      intros x Hx ->%list_elem_of_singleton. apply (H4 t Hx). set_solver.
    + intros x [Hx| ->%list_elem_of_singleton]%elem_of_app; [|done]. specialize (H4 x Hx). set_solver.
Qed.

Lemma flood_loop_spec fuel pending reached :
  length pending + size (dom successors ∖ reached) < fuel →
  (∀ x, x ∈ pending → x ∈ reached) → reached ⊆ dom successors →
  (∀ v y, v ∈ reached → edge successors v y → v ∈ pending ∨ y ∈ reached) →
  ∃ flooded, flood_loop fuel successors pending reached = Ok flooded
    ∧ ∀ x, x ∈ flooded ↔ ∃ v, v ∈ reached ∧ rtc (edge successors) v x.
Proof using Hclosed.
  revert pending reached. induction fuel as [|fuel IH]; [lia|].
  intros [|s pending] reached Hfuel Hp Hdom Hinv; cbn [flood_loop].
  - exists reached. split; [done|]. intros x. split; [intros; by exists x|].
    intros (v & Hv & Hvx). destruct (decide (x ∈ reached)) as [?|Hx]; [done|].
    destruct (path_leaves reached v x Hvx Hv Hx) as (w & y & Hw & Hwy & Hy & _).
    destruct (Hinv w y Hw Hwy) as [?%elem_of_nil|?]; done.
  - assert (s ∈ reached) as Hs by (apply Hp; by left).
    destruct (dict_get_dom s) as (ys & -> & Hys); [by apply Hdom|]. cbn [mbind result_bind].
    destruct (flood_targets (sorted_elements ys) pending reached) as (fresh & -> & H1 & H2 & H3 & H4).
    assert (∀ x, x ∈ fresh → x ∈ dom successors) as Hfresh.
    { intros x Hx%H1%sorted_elements_elem. apply (Hclosed s). by exists ys. }
    destruct (IH (fresh ++ pending) (list_to_set fresh ∪ reached)) as (flooded & -> & Hfl).
    + cbn in Hfuel. rewrite length_app.
      assert (size (dom successors ∖ reached)
              = length fresh + size (dom successors ∖ (list_to_set fresh ∪ reached))) as Hsize.
      { rewrite <-(size_list_to_set (C := gset str) fresh) by done. rewrite <-size_union by set_solver.
        f_equal. apply set_eq. intros x. destruct (decide (x ∈ fresh)) as [Hx|Hx]; [|set_solver].
        specialize (Hfresh x Hx). specialize (H4 x Hx). set_solver. }
      lia.
    + intros x [?|?]%elem_of_app; [set_solver|]. apply elem_of_union. right. apply Hp. by right.
    + intros x [Hx%elem_of_list_to_set|?]%elem_of_union; auto.
    + intros v y Hv Hvy. rewrite elem_of_app, elem_of_union, elem_of_list_to_set.
      apply elem_of_union in Hv as [Hv%elem_of_list_to_set|Hv]; [by left; left|].
      destruct (Hinv v y Hv Hvy) as [[->|?]%elem_of_cons|?]; [|by left; right|by right; right].
      right. apply H2. apply sorted_elements_elem. by apply (edge_lookup _ _ _ Hys).
    + exists flooded. split; [done|]. intros x. rewrite Hfl. split.
      * intros (v & [Hv%elem_of_list_to_set|Hv]%elem_of_union & Hvx); [|eauto].
        exists s. split; [done|]. eapply rtc_l; [|done]. apply (edge_lookup _ _ _ Hys).
        by apply sorted_elements_elem, H1.
      * intros (v & Hv & Hvx). exists v. split; [set_solver|done].
Qed.

(** A node on a cycle or reachable from one. *)
Definition variable_node (n : str) : Prop :=
  ∃ c, tc (edge successors) c c ∧ rtc (edge successors) c n.

Lemma edge_dom x y : edge successors x y → x ∈ dom successors.
Proof using. intros (ys & Hys & _). apply elem_of_dom. by exists ys. Qed.

Lemma tc_dom x y : tc (edge successors) x y → x ∈ dom successors.
Proof using. induction 1; eauto using edge_dom. Qed.

Lemma cycle_reachable_nodes_spec node_ids :
  (∀ n, n ∈ node_ids ↔ n ∈ dom successors) →
  ∃ nodes, cycle_reachable_nodes node_ids successors = Ok nodes ∧ ∀ n, n ∈ nodes ↔ variable_node n.
Proof using Hclosed.
  intros Hids. unfold cycle_reachable_nodes.
  destruct (cycle_nodes_spec node_ids) as (cyclic & -> & Hc); [intros; by apply Hids|]. cbn [mbind result_bind].
  destruct (flood_loop_spec (1 + size (dom successors) + size cyclic) (reverse (sorted_elements cyclic)) cyclic)
    as (nodes & -> & Hn).
  - rewrite length_reverse, sorted_elements_length.
    assert (size (dom successors ∖ cyclic) ≤ size (dom successors)) by (apply subseteq_size; set_solver). lia.
  - intros x Hx. rewrite reverse_Permutation in Hx. by apply sorted_elements_elem.
  - intros x [? _]%Hc. by apply Hids.
  - intros v y Hv _. left. rewrite reverse_Permutation. by apply sorted_elements_elem.
  - exists nodes. split; [done|]. intros n. rewrite Hn. unfold variable_node. setoid_rewrite Hc. split.
    + intros (v & [_ ?] & ?). eauto.
    + intros (c & Hcc & ?). exists c. split_and!; [apply Hids; by eapply tc_dom|done|done].
Qed.

(* ------------------------------------------------------------------ *)
(** ** Reachability with Joins *)

(** A node that control can reach: an entry, a successor, or the target of a Join all of
    whose sources can be reached. *)
Inductive controlled (entries : list str) (joins : list (list str * str)) : str → Prop :=
| controlled_entry n : n ∈ entries → controlled entries joins n
| controlled_edge x y : controlled entries joins x → edge successors x y → controlled entries joins y
| controlled_join sources target :
    (sources, target) ∈ joins → target ≠ END → (∀ x, x ∈ sources → controlled entries joins x) →
    controlled entries joins target.

Context (entries : list str) (joins : list (list str * str)).
Context (Hentries : ∀ n, n ∈ entries → n ∈ dom successors).
Context (Hjoins : ∀ sources target, (sources, target) ∈ joins → target ≠ END → target ∈ dom successors).

Lemma join_pass (js : list (list str * str)) (reached : gset str) :
  let next := fold_left (λ reached '(sources, target),
        if negb (bool_decide (target = END)) && forallb (λ source, bool_decide (source ∈ reached)) sources
           && negb (bool_decide (target ∈ reached))
        then {[target]} ∪ reached else reached) js reached in
  reached ⊆ next
  ∧ (∀ sources target, (sources, target) ∈ js → target ≠ END → (∀ x, x ∈ sources → x ∈ reached) → target ∈ next)
  ∧ ∀ P : str → Prop, (∀ sources target, (sources, target) ∈ js → target ≠ END →
      (∀ x, x ∈ sources → P x) → P target) → (∀ x, x ∈ reached → P x) → ∀ x, x ∈ next → P x.
Proof using.
  clear. revert reached. induction js as [|[src tgt] js IH]; intros reached; cbn.
  { split_and!; [done|by intros ?? ?%elem_of_nil|auto]. }
  match goal with |- context [fold_left _ js ?r] => set (reached' := r) end. destruct (IH reached') as (H1 & H2 & H3).
  assert (reached ⊆ reached') as Hsub by (unfold reached'; case_match; set_solver).
  split_and!; [set_solver| |].
  - intros s u [[= -> ->]|Hin]%elem_of_cons Hu Hall; [|eapply H2; eauto].
    apply H1. unfold reached'. rewrite bool_decide_false by done. cbn [negb andb].
    rewrite (proj2 (forallb_forall _ _)) by (intros x Hx%list_elem_of_In; by apply bool_decide_eq_true, Hall).
    cbn [andb]. case_bool_decide; cbn; [done|set_solver].
  - intros P HP HR. apply H3; [intros; eapply HP; [right|..]; eauto|]. unfold reached'.
    case_match eqn:E; [|done]. apply andb_true_iff in E as [[E1 E2]%andb_true_iff E3].
    intros x [->%elem_of_singleton|?]%elem_of_union; [|auto]. apply (HP src); [by left|by apply negb_true_iff, bool_decide_eq_false in E1|].
    intros y Hy. rewrite forallb_forall in E2. apply list_elem_of_In in Hy.
    apply E2, bool_decide_eq_true in Hy. auto.
Qed.

Lemma reachable_pass_spec reached :
  reached ⊆ dom successors → (∀ x, x ∈ reached → controlled entries joins x) →
  ∃ next, reachable_pass successors joins reached = Ok next
    ∧ reached ⊆ next ∧ next ⊆ dom successors ∧ (∀ x, x ∈ next → controlled entries joins x)
    ∧ (∀ x y, x ∈ reached → edge successors x y → y ∈ next)
    ∧ (∀ sources target, (sources, target) ∈ joins → target ≠ END → (∀ x, x ∈ sources → x ∈ reached) →
         target ∈ next).
Proof using All.
  intros Hdom Hctl. unfold reachable_pass.
  destruct (py_for_state_total (λ dn r, reached ⊆ r
      ∧ (∀ x, x ∈ r → x ∈ reached ∨ ∃ v, v ∈ reached ∧ edge successors v x)
      ∧ ∀ v y, v ∈ dn → edge successors v y → y ∈ r)
    (λ reached source, next ← dict_get successors source; Ok (reached ∪ next)) (sorted_elements reached))
    with (st := reached) as (grown & -> & Hsub & Hs & Hall).
  - intros dn x st Hx%sorted_elements_elem (H1 & H2 & H3).
    destruct (dict_get_dom x) as (ys & -> & Hys); [by apply Hdom|]. cbn. eexists. split; [done|]. split_and!.
    + set_solver.
    + intros y [?|Hy]%elem_of_union; [auto|]. right. exists x. split; [done|]. by exists ys.
    + intros v y [Hv| ->%list_elem_of_singleton]%elem_of_app Hvy; apply elem_of_union; [left; eauto|right].
      by apply (edge_lookup _ _ _ Hys).
  - split_and!; [done|auto|by intros ?? ?%elem_of_nil].
  - cbn [mbind result_bind]. eexists. split; [done|].
    destruct (join_pass joins grown) as (J1 & J2 & J3).
    assert (∀ x, x ∈ grown → controlled entries joins x) as Hg.
    { intros x [?|(v & Hv & Hvx)]%Hs; [auto|]. eapply controlled_edge; eauto. }
    split_and!.
    + set_solver.
    + intros x. apply (J3 (λ x, x ∈ dom successors)); [intros; eauto|].
      intros y [?|(v & Hv & Hvy)]%Hs; [auto|by eapply Hclosed].
    + apply J3; [intros; by eapply controlled_join|done].
    + intros x y Hx Hxy. apply J1, (Hall x); [by apply sorted_elements_elem|done].
    + intros sources target Hin Hne Hsrc. eapply J2; [done..|]. intros x Hx. apply Hsub. auto.
Qed.

Lemma reachable_loop_spec fuel reached :
  size (dom successors ∖ reached) < fuel → reached ⊆ dom successors →
  (∀ x, x ∈ reached → controlled entries joins x) → list_to_set entries ⊆ reached →
  ∃ nodes, reachable_loop fuel successors joins reached = Ok nodes
    ∧ ∀ x, x ∈ nodes ↔ controlled entries joins x.
Proof using All.
  revert reached. induction fuel as [|fuel IH]; [lia|]. intros reached Hfuel Hdom Hctl Hent. cbn [reachable_loop].
  destruct (reachable_pass_spec reached Hdom Hctl) as (next & -> & Hsub & Hdom' & Hctl' & Hedge & Hjoin).
  cbn [mbind result_bind]. destruct (Nat.eqb_spec (size next) (size reached)) as [Hsize|Hsize].
  - exists next. split; [done|]. intros x. split; [auto|].
    assert (next = reached) as ->.
    { symmetry. apply set_subseteq_size_eq; [done|lia]. }
    induction 1 as [n Hn|x y _ IHx Hxy|sources target Hin Hne _ IHs]; [set_solver|eauto|eauto].
  - apply IH; [|done|done|set_solver].
    assert (reached ⊂ next) as Hss.
    { split; [done|]. intros Hn. apply Hsize. f_equal. set_solver. }
    assert (size (dom successors ∖ next) < size (dom successors ∖ reached)); [|lia].
    apply subset_size. split; [set_solver|]. intros Hn. destruct Hss as [_ Hss]. apply Hss.
    intros x Hx. destruct (decide (x ∈ reached)); [done|]. set_solver.
Qed.

Lemma reachable_nodes_spec :
  ∃ nodes, reachable_nodes entries successors joins = Ok nodes
    ∧ ∀ x, x ∈ nodes ↔ controlled entries joins x.
Proof using All.
  apply reachable_loop_spec; [|set_solver| |done].
  - assert (size (dom successors ∖ list_to_set entries) ≤ size (dom successors)) by (apply subseteq_size; set_solver).
    lia.
  - intros x Hx%elem_of_list_to_set. by apply controlled_entry.
Qed.
End graph.
