(* ===== verification/LevelProofs.v ===== *)
(** * Repeatable nodes, guaranteed predecessors and activation levels

    The fixpoint analyses of [ControlGraph] that the compiler bases its value and Join
    coordinates on. *)

From Stdlib Require Import ZArith NArith Lia Bool String.
From stdpp Require Import prelude strings gmap sorting.
From S2P Require Import Prelude Identity Topology GraphDefinition ControlGraph ControlGraphProofs.

Set Default Goal Selector "!".
Open Scope nat_scope.

(* ------------------------------------------------------------------ *)
(** ** Activation levels *)

Section levels.
Context (successors : Successors) (Hclosed : closed successors).
Context (node_ids entries : list str).
Context (Hids : ∀ n, n ∈ node_ids ↔ n ∈ dom successors).
Context (Hentries : ∀ n, n ∈ entries → n ∈ node_ids).

Notation step := (edge successors).

(** [k] is the length of a path from an entry to [n]. *)
Definition depth (n : str) (k : nat) : Prop := ∃ e, e ∈ entries ∧ nsteps step k e n.

(** Paths to a node off every cycle are short: their inner nodes are distinct. *)
Lemma ancestors k e n :
  nsteps step k e n → ¬ variable_node successors n →
  ∃ xs : gset str, size xs = k ∧ xs ⊆ dom successors ∧ ∀ x, x ∈ xs → tc step x n.
Proof using.
  clear -successors. revert n. induction k as [|k IH]; intros n Hk Hn.
  - exists ∅. split_and!; [apply size_empty|set_solver|set_solver].
  - apply nsteps_inv_r in Hk as (m & Hm & Hmn).
    assert (¬ variable_node successors m) as Hvm.
    { intros (c & Hc & Hcm). apply Hn. exists c. split; [done|]. by eapply rtc_r. }
    destruct (IH m Hm Hvm) as (xs & Hsize & Hdom & Hall). exists ({[m]} ∪ xs).
    assert (m ∉ xs) as Hfresh.
    { intros Hx%Hall. apply Hvm. exists m. split; [done|apply rtc_refl]. }
    split_and!.
    + rewrite size_union by set_solver. rewrite size_singleton. lia.
    + apply union_subseteq. split; [|done]. apply singleton_subseteq_l. by eapply edge_dom.
    + intros x [->%elem_of_singleton|Hx%Hall]%elem_of_union; [by apply tc_once|]. by eapply tc_r.
Qed.

Lemma depth_bound n k :
  n ∈ dom successors → ¬ variable_node successors n → depth n k → k < size (dom successors).
Proof using.
  intros Hd Hn (e & _ & Hk). destruct (ancestors k e n Hk Hn) as (xs & <- & Hdom & Hall).
  apply subset_size. split; [done|]. intros Hsub. apply Hn. exists n. split; [|apply rtc_refl].
  by apply Hall, Hsub.
Qed.

Context (variable_nodes : gset str) (Hvar : ∀ n, n ∈ variable_nodes ↔ variable_node successors n).

Lemma not_variable_pred x y : step x y → y ∉ variable_nodes → x ∉ variable_nodes.
Proof using Hvar.
  rewrite !Hvar. intros Hxy Hy (c & Hc & Hcx). apply Hy. exists c. split; [done|]. by eapply rtc_r.
Qed.

(** Sets of real depths of the nodes off every cycle. *)
Record levels_sound (levels : Levels) : Prop := {
  ls_dom : ∀ n, n ∈ dom levels ↔ n ∈ node_ids;
  ls_sound : ∀ n ls l, levels !! n = Some ls → l ∈ ls → n ∉ variable_nodes ∧ ∃ k, l = Z.of_nat k ∧ depth n k
}.

(** Every depth up to [b] is present. *)
Definition levels_complete (b : nat) (levels : Levels) : Prop :=
  ∀ n ls k, levels !! n = Some ls → n ∉ variable_nodes → depth n k → k ≤ b → Z.of_nat k ∈ ls.

Definition levels_le (levels levels' : Levels) : Prop :=
  ∀ n ls, levels !! n = Some ls → ∃ ls', levels' !! n = Some ls' ∧ ls ⊆ ls'.

Lemma levels_le_refl levels : levels_le levels levels.
Proof using. intros n ls H. by exists ls. Qed.

Lemma levels_le_trans a b c : levels_le a b → levels_le b c → levels_le a c.
Proof using.
  intros H1 H2 n ls (ls' & Hls' & ?)%H1. destruct (H2 n ls' Hls') as (ls'' & ? & ?).
  exists ls''. split; [done|by etrans].
Qed.

(** The level of [source] reaches [target]. *)
Definition raised (levels levels' : Levels) (source target : str) : Prop :=
  ∀ ls ls', levels !! source = Some ls → levels' !! target = Some ls' → ∀ l, l ∈ ls → (l + 1)%Z ∈ ls'.

Lemma raise_level_spec source levels target :
  levels_sound levels → step source target → target ∉ variable_nodes →
  ∃ levels', raise_level source levels target = Ok levels'
    ∧ levels_sound levels' ∧ levels_le levels levels' ∧ raised levels levels' source target.
Proof using Hclosed Hids Hvar.
  intros [Hdom Hs] Hst Ht. unfold raise_level.
  assert (∃ from, levels !! source = Some from) as [from Hfrom].
  { apply elem_of_dom, Hdom, Hids. by eapply edge_dom. }
  assert (∃ known, levels !! target = Some known) as [known Hknown].
  { apply elem_of_dom, Hdom, Hids. by eapply Hclosed. }
  unfold dict_get. rewrite Hfrom, Hknown. cbn. eexists. split; [done|]. split_and!.
  - split.
    + intros n. rewrite <- Hdom. split; intros Hn%elem_of_dom; apply elem_of_dom.
      * apply lookup_insert_is_Some in Hn as [<-|[_ Hn]]; [by exists known|done].
      * apply lookup_insert_is_Some'. by right.
    + intros n ls l [[<- <-]|[_ Hn]]%lookup_insert_Some Hl; [|by eapply Hs].
      apply elem_of_union in Hl as [Hl|(l' & -> & Hl')%elem_of_map]; [by eapply Hs|].
      split; [done|]. destruct (Hs source from l' Hfrom Hl') as [_ (k & -> & e & He & Hk)].
      exists (S k). split; [lia|]. exists e. split; [done|]. by eapply nsteps_r.
  - intros n ls Hn. destruct (decide (n = target)) as [->|Hne].
    + rewrite lookup_insert_eq. eexists. split; [done|]. assert (ls = known) as -> by congruence. apply union_subseteq_l.
    + rewrite lookup_insert_ne by done. by exists ls.
  - intros ls ls' Hls. rewrite lookup_insert_eq. intros [= <-] l Hl. apply elem_of_union. right.
    apply elem_of_map. exists l. split; [done|]. assert (ls = from) as -> by congruence. done.
Qed.

(** One pass keeps real depths and raises every level along every edge. *)
Lemma level_pass_spec levels :
  levels_sound levels →
  ∃ levels', level_pass node_ids variable_nodes successors levels = Ok levels'
    ∧ levels_sound levels' ∧ levels_le levels levels'
    ∧ ∀ x y, step x y → y ∉ variable_nodes → raised levels levels' x y.
Proof using Hclosed Hids Hvar.
  intros Hs. unfold level_pass.
  destruct (py_for_state_total (λ dn ls, levels_sound ls ∧ levels_le levels ls
      ∧ ∀ x y, x ∈ dn → step x y → y ∉ variable_nodes → raised levels ls x y)
    (λ levels source, next ← dict_get successors source;
      py_for_state (sorted_elements next) levels (λ levels target,
        if bool_decide (target ∈ variable_nodes) then Ok levels else raise_level source levels target))
    node_ids) with (st := levels) as (levels' & -> & H1 & H2 & H3).
  - intros dn x st Hx (H1 & H2 & H3).
    destruct (dict_get_dom successors x) as (ys & -> & Hys); [by apply Hids|]. cbn [mbind result_bind].
    destruct (py_for_state_total (λ dn ls, levels_sound ls ∧ levels_le st ls
        ∧ ∀ y, y ∈ dn → y ∉ variable_nodes → raised st ls x y)
      (λ levels target, if bool_decide (target ∈ variable_nodes) then Ok levels else raise_level x levels target)
      (sorted_elements ys)) with (st := st) as (st' & Hst' & G1 & G2 & G3).
    + intros dn' y st1 Hy%sorted_elements_elem (G1 & G2 & G3). case_bool_decide as Hv.
      * exists st1. split_and!; [done..|]. intros y' [?| ->%list_elem_of_singleton]%elem_of_app; [auto|done].
      * destruct (raise_level_spec x st1 y) as (st2 & -> & K1 & K2 & K3); [done|by exists ys|done|].
        exists st2. split_and!; [done|done|by eapply levels_le_trans|].
        intros y' [Hy'| ->%list_elem_of_singleton]%elem_of_app Hv' ls ls' Hls Hls' l Hl.
        -- pose proof (ls_dom _ G1) as Hd1. pose proof (ls_dom _ K1) as Hd2.
           assert (∃ ls1, st1 !! y' = Some ls1) as [ls1 Hls1].
           { apply elem_of_dom, Hd1, Hd2, elem_of_dom. by exists ls'. }
           destruct (K2 y' ls1 Hls1) as (ls2 & Hls2 & Hsub). simplify_eq.
           apply Hsub. by eapply (G3 y' Hy' Hv').
        -- destruct (G2 x ls Hls) as (ls1 & Hls1 & Hsub). eapply (K3 ls1); [done..|]. by apply Hsub.
    + split_and!; [done|apply levels_le_refl|by intros ? ?%elem_of_nil].
    + exists st'. split_and!; [done|done|by eapply levels_le_trans|].
      intros x' y [Hx'| ->%list_elem_of_singleton]%elem_of_app Hxy Hv ls ls' Hls Hls' l Hl.
      * assert (∃ ls1, st !! y = Some ls1) as [ls1 Hls1].
        { apply elem_of_dom, (ls_dom _ H1), (ls_dom _ G1), elem_of_dom. by exists ls'. }
        destruct (G2 y ls1 Hls1) as (ls2 & Hls2 & Hsub). simplify_eq.
        apply Hsub. by eapply (H3 x' y).
      * destruct (H2 x ls Hls) as (ls1 & Hls1 & Hsub). eapply (G3 y); [|done|done|done|by apply Hsub].
        apply sorted_elements_elem. by apply (edge_lookup successors _ _ _ Hys).
  - split_and!; [done|apply levels_le_refl|by intros ?? ?%elem_of_nil].
  - exists levels'. split_and!; [done..|]. intros x y Hxy. apply H3; [|done]. apply Hids. by eapply edge_dom.
Qed.

(** A pass over levels that already hold every depth changes nothing. *)
Lemma levels_fixpoint levels next b :
  levels_sound levels → levels_sound next → levels_le levels next → levels_complete b levels →
  size (dom successors) ≤ S b → next = levels.
Proof using Hids Hvar.
  intros [Hd Hs] [Hd' Hs'] Hle Hc Hb. apply map_eq. intros n.
  destruct (levels !! n) as [ls|] eqn:Hn.
  - destruct (Hle n ls Hn) as (ls' & Hn' & Hsub). rewrite Hn'. f_equal. apply (anti_symm (⊆)); [|done].
    intros l Hl. destruct (Hs' n ls' l Hn' Hl) as (Hv & k & -> & Hk).
    apply (Hc n ls k Hn Hv Hk). assert (n ∈ dom successors) as Hnd.
    { apply Hids, Hd, elem_of_dom. by exists ls. }
    pose proof (depth_bound n k Hnd) as Hbound. rewrite <- Hvar in Hbound. specialize (Hbound Hv Hk). lia.
  - apply not_elem_of_dom. intros Hx%Hd'%Hd. by apply not_elem_of_dom in Hn.
Qed.

Lemma pass_complete levels next b :
  levels_sound levels → levels_sound next → levels_le levels next →
  (∀ x y, step x y → y ∉ variable_nodes → raised levels next x y) →
  levels_complete b levels → levels_complete (S b) next.
Proof using Hids Hvar.
  intros Hs Hs' Hle Hraise Hc n ls k Hn Hv Hk Hkb.
  assert (∃ old, levels !! n = Some old) as [old Hold].
  { apply elem_of_dom, (ls_dom _ Hs), (ls_dom _ Hs'), elem_of_dom. by exists ls. }
  destruct (Hle n old Hold) as (ls' & Hn' & Hsub). simplify_eq.
  destruct (decide (k ≤ b)) as [Hle'|Hgt]; [by apply Hsub, (Hc n old k)|].
  assert (k = S b) as -> by lia. destruct Hk as (e & He & (m & Hem & Hmn)%nsteps_inv_r).
  assert (∃ from, levels !! m = Some from) as [from Hfrom].
  { apply elem_of_dom, (ls_dom _ Hs), Hids. by eapply edge_dom. }
  replace (Z.of_nat (S b)) with (Z.of_nat b + 1)%Z by lia.
  apply (Hraise m n Hmn Hv from ls Hfrom Hn). apply (Hc m from b Hfrom); [|by exists e|done].
  by eapply not_variable_pred.
Qed.

(** The loop stops with exactly the depths of every node off the cycles. *)
Lemma level_loop_spec fuel b levels :
  levels_sound levels → levels_complete b levels → size (dom successors) ≤ b + S fuel →
  ∃ final, level_loop (S fuel) node_ids variable_nodes successors levels = Ok final
    ∧ levels_sound final ∧ ∀ c, levels_complete c final.
Proof using Hclosed Hids Hvar.
  revert b levels. induction fuel as [|fuel IH]; intros b levels Hs Hc Hb;
    destruct (level_pass_spec levels Hs) as (next & Hpass & Hs' & Hle & Hraise);
    cbn [level_loop]; rewrite Hpass; cbn [mbind result_bind]; case_bool_decide as Heq.
  2: { destruct Heq. apply (levels_fixpoint levels next b Hs Hs' Hle Hc). lia. }
  1,2: subst next; exists levels; split_and!; [done|done|]; intros c;
    induction c as [|c IHc]; [intros n ls k Hn Hv Hk Hk0; apply (Hc n ls k Hn Hv Hk); lia|];
    exact (pass_complete levels levels c Hs Hs' Hle Hraise IHc).
  apply (IH (S b)); [done|exact (pass_complete levels next b Hs Hs' Hle Hraise Hc)|lia].
Qed.

Lemma seeds_spec (empty : Levels) :
  levels_sound empty → (∀ n ls, empty !! n = Some ls → ls = ∅) →
  ∃ seeded, py_for_state entries empty (λ (levels : Levels) (entry : str),
      if bool_decide (entry ∈ variable_nodes) then Ok levels else
      (known ← dict_get levels entry; Ok (<[entry := known ∪ ({[0%Z]} : gset Z)]> levels))) = Ok seeded
    ∧ levels_sound seeded ∧ levels_complete 0 seeded.
Proof using Hentries Hvar.
  intros Hs Hempty.
  destruct (py_for_state_total (λ dn (levels : Levels), levels_sound levels
      ∧ ∀ n ls, n ∈ dn → n ∉ variable_nodes → levels !! n = Some ls → 0%Z ∈ ls)
    (λ (levels : Levels) (entry : str),
      if bool_decide (entry ∈ variable_nodes) then Ok levels else
      (known ← dict_get levels entry; Ok (<[entry := known ∪ ({[0%Z]} : gset Z)]> levels)))
    entries) with (st := empty) as (seeded & -> & H1 & H2).
  - intros dn x levels Hx ([Hd Hsnd] & H0). case_bool_decide as Hv.
    { exists levels. split_and!; [done|done|]. intros n ls [?| ->%list_elem_of_singleton]%elem_of_app; [by apply H0|done]. }
    assert (∃ known, levels !! x = Some known) as [known Hknown] by (apply elem_of_dom, Hd, Hentries, Hx).
    unfold dict_get. rewrite Hknown. cbn. eexists. split; [done|]. split; [split|].
    + intros n. rewrite <- Hd. split; intros Hn%elem_of_dom; apply elem_of_dom.
      * apply lookup_insert_is_Some in Hn as [<-|[_ Hn]]; [by exists known|done].
      * apply lookup_insert_is_Some'. by right.
    + intros n ls l [[<- <-]|[_ Hn]]%lookup_insert_Some Hl; [|by eapply Hsnd].
      apply elem_of_union in Hl as [Hl| ->%elem_of_singleton]; [by eapply Hsnd|].
      split; [done|]. exists 0. split; [done|]. exists x. split; [done|apply nsteps_O].
    + intros n ls Hn Hvn [[<- <-]|[Hne Hl]]%lookup_insert_Some; [apply elem_of_union; right; by apply elem_of_singleton|].
      apply elem_of_app in Hn as [Hn| ->%list_elem_of_singleton]; [by eapply H0|done].
  - split; [done|]. by intros ?? ?%elem_of_nil.
  - exists seeded. split_and!; [done..|]. intros n ls k Hn Hv (e & He & Hk) Hk0.
    assert (k = 0) as -> by lia. inversion Hk; subst. by eapply H2.
Qed.
End levels.

Lemma size_list_to_set_le (xs : list str) : size (list_to_set xs : gset str) ≤ length xs.
Proof.
  induction xs as [|x xs IH]; cbn; [by rewrite size_empty|].
  rewrite size_union_alt, size_singleton.
  assert (size (list_to_set xs ∖ {[x]} : gset str) ≤ size (list_to_set xs : gset str))
    by (apply subseteq_size; set_solver). lia.
Qed.

Lemma unique_level_spec (candidates : gset Z) l : unique_level candidates = Some l ↔ candidates = {[l]}.
Proof.
  unfold unique_level. split.
  - destruct (elements candidates) as [|x [|]] eqn:E; intros [= ->].
    apply set_eq. intros y. rewrite <- elem_of_elements, E, elem_of_singleton, list_elem_of_singleton. done.
  - intros ->. by rewrite elements_singleton.
Qed.

(** The level of a node is its only depth; nodes fed by a cycle have none. *)
Lemma absolute_activation_levels_spec (successors : Successors) (node_ids entries : list str) :
  closed successors → (∀ n, n ∈ node_ids ↔ n ∈ dom successors) → (∀ n, n ∈ entries → n ∈ node_ids) →
  ∃ levels, absolute_activation_levels node_ids entries successors = Ok levels
    ∧ ∀ n l, levels !! n = Some l ↔
        n ∈ node_ids ∧ ¬ variable_node successors n
        ∧ ∃ k, l = Z.of_nat k ∧ ∀ k', depth successors entries n k' ↔ k' = k.
Proof.
  intros Hclosed Hids Hentries. unfold absolute_activation_levels.
  destruct (cycle_reachable_nodes_spec successors Hclosed node_ids) as (variable_nodes & -> & Hvar); [done|].
  cbn [mbind result_bind].
  set (empty := list_to_map _).
  assert (∀ n ls, empty !! n = Some ls ↔ n ∈ node_ids ∧ ls = ∅) as Hempty.
  { intros n ls. unfold empty. clear. induction node_ids as [|x xs IH]; cbn.
    - rewrite lookup_empty, elem_of_nil. naive_solver.
    - rewrite lookup_insert_Some, IH, elem_of_cons. destruct (decide (x = n)); naive_solver. }
  destruct (seeds_spec successors node_ids entries Hentries variable_nodes Hvar empty) as (seeded & -> & Hs & Hc).
  { split.
    - intros n. rewrite elem_of_dom. split; [by intros [ls [? _]%Hempty]|intros; exists ∅; by apply Hempty].
    - intros n ls l [_ ->]%Hempty []%elem_of_empty. }
  { by intros n ls [_ ->]%Hempty. }
  cbn [mbind result_bind]. change (2 + length node_ids) with (S (1 + length node_ids)).
  destruct (level_loop_spec successors Hclosed node_ids entries Hids variable_nodes Hvar
      (1 + length node_ids) 0 seeded Hs Hc) as (final & -> & [Hd Hsnd] & Hall).
  { assert (dom successors ⊆ list_to_set node_ids) as Hsub%subseteq_size.
    { intros x Hx%Hids. by apply elem_of_list_to_set. }
    pose proof (size_list_to_set_le node_ids). lia. }
  cbn [mbind result_bind]. eexists. split; [done|]. intros n l. rewrite lookup_omap_Some.
  split.
  - intros (ls & ->%unique_level_spec & Hn).
    destruct (Hsnd n {[l]} l Hn) as (Hv & k & -> & Hk); [by apply elem_of_singleton|].
    split_and!; [by apply Hd, elem_of_dom; eauto|by rewrite <- Hvar|]. exists k. split; [done|].
    intros k'. split; [|by intros ->]. intros Hk'.
    pose proof (Hall k' n _ k' Hn Hv Hk' (le_n _)) as Hin%elem_of_singleton. lia.
  - intros (Hn & Hv & k & -> & Hk). rewrite <- Hvar in Hv. apply Hd, elem_of_dom in Hn as [ls Hls].
    exists ls. split; [|done]. apply unique_level_spec, set_eq. intros l. rewrite elem_of_singleton. split.
    + intros Hl. destruct (Hsnd n ls l Hls Hl) as (_ & k' & -> & ->%Hk). done.
    + intros ->. by apply (Hall k n ls k Hls Hv); [apply Hk|].
Qed.

(* ------------------------------------------------------------------ *)
(** ** Repeatable nodes *)

Section repeatable.
Context (entries : list str) (activation_gates : ActivationGates) (successors : Successors).

Definition feeds (x n : str) : Prop :=
  ∃ gates (gate : RawGate) route, activation_gates !! n = Some gates ∧ gate ∈ gates ∧ (x, route) ∈ gate.

(** A node that may be activated more than once: fed by a cycle, an entry that also has a
    gate, or fed by such a node. *)
Inductive repeats : str → Prop :=
| repeats_cycle n : variable_node successors n → repeats n
| repeats_entry n : n ∈ entries → (∃ gates, activation_gates !! n = Some gates ∧ gates ≠ []) → repeats n
| repeats_gate x n : repeats x → feeds x n → repeats n.

Lemma items_elem {A} (d : gmap str A) k v : (k, v) ∈ items d ↔ d !! k = Some v.
Proof using. unfold items, sorted_key. rewrite sort_by_perm. apply elem_of_map_to_list. Qed.

Lemma repeatable_pass_spec (repeatable : gset str) :
  let next := repeatable_pass activation_gates repeatable in
  repeatable ⊆ next ∧ next ⊆ repeatable ∪ dom activation_gates
  ∧ (∀ P : str → Prop, (∀ x n, P x → feeds x n → P n) → (∀ x, x ∈ repeatable → P x) → ∀ x, x ∈ next → P x)
  ∧ ∀ x n, x ∈ repeatable → feeds x n → n ∈ next.
Proof using.
  cbn. unfold repeatable_pass.
  assert (∀ its r, (∀ n gates, (n, gates) ∈ its → activation_gates !! n = Some gates) →
    let next := fold_left (λ (repeatable : gset str) '(node_id, gates),
      if bool_decide (node_id ∈ repeatable) then repeatable
      else if existsb (λ gate : RawGate, existsb (λ '(source, _), bool_decide (source ∈ repeatable)) gate) gates
      then {[node_id]} ∪ repeatable else repeatable) its r in
    r ⊆ next ∧ next ⊆ r ∪ dom activation_gates
    ∧ (∀ P : str → Prop, (∀ x n, P x → feeds x n → P n) → (∀ x, x ∈ r → P x) → ∀ x, x ∈ next → P x)
    ∧ ∀ x n gates (gate : RawGate) route, x ∈ r → (n, gates) ∈ its → gate ∈ gates → (x, route) ∈ gate → n ∈ next) as H.
  { induction its as [|[m gates] its IH]; intros r Hits; cbn.
    { split_and!; [done|set_solver|auto|]. by intros ????? _ ?%elem_of_nil. }
    set (r' := if bool_decide (m ∈ r) then r else _).
    assert (activation_gates !! m = Some gates) as Hm by (apply Hits; by left).
    assert (r ⊆ r') as Hsub by (unfold r'; repeat case_match; set_solver).
    destruct (IH r') as (H1 & H2 & H3 & H4); [intros; apply Hits; by right|]. split_and!.
    - set_solver.
    - assert (r' ⊆ r ∪ dom activation_gates); [|set_solver]. apply elem_of_dom_2 in Hm.
      unfold r'. repeat case_match; set_solver.
    - intros P HP Hr. apply H3; [done|]. unfold r'. case_bool_decide; [done|].
      destruct (existsb _ gates) eqn:E; [|done]. intros x [->%elem_of_singleton|?]%elem_of_union; [|auto].
      apply existsb_exists in E as (gate & Hg%list_elem_of_In & ([y route] & Hy%list_elem_of_In & Hin%bool_decide_eq_true)%existsb_exists).
      apply (HP y); [auto|]. by exists gates, gate, route.
    - intros x n gates' gate route Hx [[= -> ->]|Hn]%elem_of_cons Hg Hxg; [|eapply H4; eauto].
      apply H1. unfold r'. case_bool_decide; [done|].
      replace (existsb _ gates) with true; [set_solver|]. symmetry.
      apply existsb_exists. exists gate. split; [by apply list_elem_of_In|].
      apply existsb_exists. exists (x, route). split; [by apply list_elem_of_In|]. by apply bool_decide_eq_true. }
  destruct (H (items activation_gates) repeatable) as (H1 & H2 & H3 & H4); [by intros ?? ?%items_elem|].
  split_and!; [done..|]. intros x n Hx (gates & gate & route & Hg & ? & ?).
  eapply H4; [done|by apply items_elem|done..].
Qed.

Lemma repeatable_loop_spec fuel repeatable :
  size (dom activation_gates ∖ repeatable) < fuel →
  ∃ nodes, repeatable_loop fuel activation_gates repeatable = Ok nodes
    ∧ repeatable ⊆ nodes
    ∧ (∀ P : str → Prop, (∀ x n, P x → feeds x n → P n) → (∀ x, x ∈ repeatable → P x) → ∀ x, x ∈ nodes → P x)
    ∧ ∀ x n, x ∈ nodes → feeds x n → n ∈ nodes.
Proof using.
  revert repeatable. induction fuel as [|fuel IH]; [lia|]. intros r Hfuel. cbn [repeatable_loop].
  destruct (repeatable_pass_spec r) as (Hsub & Hdom & Hleast & Hfeeds).
  destruct (Nat.eqb_spec (size (repeatable_pass activation_gates r)) (size r)) as [Hsize|Hsize].
  - eexists. split; [done|]. split_and!; [done..|].
    assert (repeatable_pass activation_gates r = r) as Heq.
    { symmetry. apply set_subseteq_size_eq; [done|lia]. }
    rewrite Heq in *. done.
  - destruct (IH (repeatable_pass activation_gates r)) as (nodes & -> & H1 & H2 & H3).
    + assert (size (dom activation_gates ∖ repeatable_pass activation_gates r) < size (dom activation_gates ∖ r)); [|lia].
      apply subset_size. split; [set_solver|]. intros Hn. apply Hsize. f_equal.
      apply (anti_symm (⊆)); [|done]. intros x Hx. destruct (decide (x ∈ r)); [done|]. set_solver.
    + exists nodes. split_and!; [done|set_solver| |done]. intros P HP Hr. apply H2; [done|]. by apply Hleast.
Qed.

Lemma repeatable_nodes_spec :
  closed successors → (∀ n, n ∈ entries → n ∈ dom activation_gates) →
  ∃ nodes, repeatable_nodes entries activation_gates successors = Ok nodes ∧ ∀ n, n ∈ nodes ↔ repeats n.
Proof using.
  intros Hclosed Hentries. unfold repeatable_nodes.
  destruct (cycle_reachable_nodes_spec successors Hclosed (sorted_elements (dom successors))) as (cyclic & -> & Hcyc).
  { intros n. apply sorted_elements_elem. }
  cbn [mbind result_bind].
  destruct (select_spec (λ n, ∃ gates, activation_gates !! n = Some gates ∧ gates ≠ []) entries
      (λ node_id, gates ← dict_get activation_gates node_id; Ok (negb (is_nil gates)))) as (gated & -> & Hgated).
  { intros n [gates Hg]%Hentries%elem_of_dom. unfold dict_get. rewrite Hg. cbn.
    eexists. split; [done|]. destruct gates; cbn; split; naive_solver. }
  cbn [mbind result_bind].
  destruct (repeatable_loop_spec (1 + size (dom activation_gates)) (cyclic ∪ list_to_set gated)) as (nodes & -> & H1 & H2 & H3).
  { assert (size (dom activation_gates ∖ (cyclic ∪ list_to_set gated)) ≤ size (dom activation_gates))
      by (apply subseteq_size; set_solver). lia. }
  exists nodes. split; [done|]. intros n. split.
  - apply (H2 repeats); [intros; by eapply repeats_gate|].
    intros x [Hx%Hcyc|Hx%elem_of_list_to_set]%elem_of_union; [by apply repeats_cycle|].
    apply Hgated in Hx as [? ?]. by apply repeats_entry.
  - induction 1 as [n Hn|n Hn Hg|x n _ IH Hf]; [| |by eapply H3].
    + apply H1, elem_of_union. left. by apply Hcyc.
    + apply H1, elem_of_union. right. apply elem_of_list_to_set, Hgated. done.
Qed.
End repeatable.

(* ------------------------------------------------------------------ *)
(** * Guaranteed predecessors

    [_guaranteed_sets] iterates an ascending operator from the singletons; it stops within
    the fuel of [guaranteed_sets], and its result under-approximates the causal history of
    every activation the gates allow. *)

Section guarantees.
Context (node_ids entries : list str) (activation_gates : ActivationGates).

(** [happened n past]: [n] can be activated with exactly [past] as the set of nodes
    activated on the way, itself included. *)
Inductive happened : str → gset str → Prop :=
| happened_entry n : n ∈ entries → happened n {[n]}
| happened_gate n gates (gate : RawGate) (past : str → gset str) :
    activation_gates !! n = Some gates → gate ∈ gates →
    (∀ x route, (x, route) ∈ gate → happened x (past x)) →
    happened n ({[n]} ∪ ⋃ (past <$> (fst <$> gate))).

Context (Hgates : ∀ n, n ∈ node_ids → n ∈ dom activation_gates).
Context (Hsources : ∀ n gates (gate : RawGate) x route,
  activation_gates !! n = Some gates → gate ∈ gates → (x, route) ∈ gate → x ∈ node_ids).

(** Tables of node sets over the node ids. *)
Record table (g : Guarantees) : Prop := {
  tb_dom : ∀ n, n ∈ dom g ↔ n ∈ node_ids;
  tb_in : ∀ n xs, g !! n = Some xs → xs ⊆ list_to_set node_ids
}.

Definition below (g g' : Guarantees) : Prop :=
  ∀ n xs xs', g !! n = Some xs → g' !! n = Some xs' → xs ⊆ xs'.

Lemma gate_guarantee_spec (g : Guarantees) (sources : list str) :
  (∀ x, x ∈ sources → x ∈ dom g) →
  ∃ xs, gate_guarantee g sources = Ok xs
    ∧ ∀ y, y ∈ xs ↔ ∃ x ys, x ∈ sources ∧ g !! x = Some ys ∧ y ∈ ys.
Proof using.
  intros Hdom. unfold gate_guarantee.
  destruct (py_for_state_total (λ dn (acc : gset str),
      ∀ y, y ∈ acc ↔ ∃ x ys, x ∈ dn ∧ g !! x = Some ys ∧ y ∈ ys)
    (λ guaranteed source, known ← dict_get g source; Ok (guaranteed ∪ known)) sources)
    with (st := ∅ : gset str) as (xs & -> & Hxs); [| |by exists xs].
  - intros dn x st [ys Hys]%Hdom%elem_of_dom Hst. unfold dict_get. rewrite Hys. cbn. eexists. split; [done|].
    intros y. rewrite elem_of_union, Hst. setoid_rewrite elem_of_app. setoid_rewrite list_elem_of_singleton.
    split; [naive_solver|]. intros (x' & ys' & [?| ->] & ? & ?); [left; eauto|right]. by simplify_eq.
  - intros y. rewrite elem_of_empty. split; [done|]. by intros (x & ys & ?%elem_of_nil & _).
Qed.

Lemma common_of_spec (alternatives : list (gset str)) y :
  y ∈ common_of alternatives ↔ alternatives ≠ [] ∧ ∀ xs, xs ∈ alternatives → y ∈ xs.
Proof using.
  unfold common_of. destruct alternatives as [|first rest]; [rewrite elem_of_empty; naive_solver|].
  trans (y ∈ first ∧ ∀ xs, xs ∈ rest → y ∈ xs).
  - revert first. induction rest as [|x rest IH]; intros first; cbn.
    + split; [|naive_solver]. intros H. split; [done|]. by intros ? ?%elem_of_nil.
    + rewrite IH, elem_of_intersection. setoid_rewrite elem_of_cons. naive_solver.
  - setoid_rewrite elem_of_cons. naive_solver.
Qed.

(** What one node's replacement contains. *)
Definition guaranteed_by (g : Guarantees) (n y : str) : Prop :=
  y = n ∨
  ∃ gates, activation_gates !! n = Some gates ∧ n ∉ entries ∧ gates ≠ []
    ∧ ∀ gate : RawGate, gate ∈ gates → ∃ x ys, x ∈ gate.*1 ∧ g !! x = Some ys ∧ y ∈ ys.

Lemma mapM_total {A B} (f : A → result B) (R : A → B → Prop) xs :
  (∀ x, x ∈ xs → ∃ y, f x = Ok y ∧ R x y) → ∃ ys, mapM f xs = Ok ys ∧ Forall2 R xs ys.
Proof using.
  clear. induction xs as [|x xs IH]; intros Hf; cbn; [by exists []|].
  destruct (Hf x) as (y & -> & Hy); [by left|]. cbn.
  destruct IH as (ys & -> & Hys); [intros; apply Hf; by right|]. cbn. eexists. split; [done|by constructor].
Qed.

Lemma guarantee_of_spec (g : Guarantees) n :
  table g → n ∈ node_ids →
  ∃ xs, guarantee_of (list_to_set entries) activation_gates g n = Ok xs
    ∧ ∀ y, y ∈ xs ↔ guaranteed_by g n y.
Proof using Hgates Hsources.
  intros [Hd _] Hn. unfold guarantee_of. pose proof (Hgates n Hn) as [gates Hg]%elem_of_dom.
  unfold dict_get at 1. rewrite Hg. cbn [mbind result_bind].
  destruct (mapM_total (λ gate : RawGate, gate_guarantee g gate.*1)
      (λ gate xs, ∀ y, y ∈ xs ↔ ∃ x ys, x ∈ gate.*1 ∧ g !! x = Some ys ∧ y ∈ ys) gates) as (by_gate & -> & Hby).
  { intros gate Hgate. apply gate_guarantee_spec. intros x ([x' route] & -> & Hx)%list_elem_of_fmap.
    apply Hd. by eapply Hsources. }
  cbn [mbind result_bind]. eexists. split; [done|]. intros y.
  rewrite elem_of_union, elem_of_singleton, common_of_spec. unfold guaranteed_by.
  split.
  - intros [[Hne Hall]| ->]; [right|by left]. exists gates. case_bool_decide as He.
    { exfalso. apply (not_elem_of_empty (C := gset str) y), Hall. by left. }
    rewrite elem_of_list_to_set in He. cbn [app] in *. split_and!; [done|done| |].
    + intros ->. by inversion Hby; subst.
    + intros gate Hgate. apply list_elem_of_lookup in Hgate as [i Hi].
      destruct (Forall2_lookup_l _ _ _ _ _ Hby Hi) as (xs & Hxs & Hy).
      apply Hy, Hall. by eapply list_elem_of_lookup_2.
  - intros [->|(gates' & Hg' & He & Hne & Hall)]; [by right|left]. simplify_eq.
    rewrite bool_decide_false by by rewrite elem_of_list_to_set. cbn [app]. split.
    + intros ->. by inversion Hby; subst.
    + intros xs Hxs. apply list_elem_of_lookup in Hxs as [i Hi].
      destruct (Forall2_lookup_r _ _ _ _ _ Hby Hi) as (gate & Hgate & Hy).
      apply Hy, Hall. by eapply list_elem_of_lookup_2.
Qed.

(** [g] is below its own replacement. *)
Definition ascending (g : Guarantees) : Prop :=
  ∀ n xs y, g !! n = Some xs → y ∈ xs → guaranteed_by g n y.

Definition replaced (g g' : Guarantees) : Prop :=
  ∀ n xs, g' !! n = Some xs → ∀ y, y ∈ xs ↔ guaranteed_by g n y.

Lemma guarantee_pass_spec (g : Guarantees) :
  table g →
  ∃ g', py_for_state node_ids ∅ (λ replacements node_id,
      guaranteed ← guarantee_of (list_to_set entries) activation_gates g node_id;
      Ok (<[node_id := guaranteed]> replacements)) = Ok g'
    ∧ table g' ∧ replaced g g'.
Proof using Hgates Hsources.
  intros Ht.
  destruct (py_for_state_total (λ dn (r : Guarantees), (∀ n, n ∈ dom r ↔ n ∈ dn)
      ∧ ∀ n xs, r !! n = Some xs → n ∈ node_ids ∧ ∀ y, y ∈ xs ↔ guaranteed_by g n y)
    (λ replacements node_id,
      guaranteed ← guarantee_of (list_to_set entries) activation_gates g node_id;
      Ok (<[node_id := guaranteed]> replacements)) node_ids)
    with (st := ∅ : Guarantees) as (g' & -> & Hd & Hr).
  - intros dn x r Hx [Hd Hr]. destruct (guarantee_of_spec g x Ht Hx) as (xs & -> & Hxs). cbn.
    eexists. split; [done|]. split.
    + intros n. rewrite dom_insert_L, elem_of_union, elem_of_singleton, Hd, elem_of_app, list_elem_of_singleton. tauto.
    + intros n xs' [[<- <-]|[_ Hn]]%lookup_insert_Some; [done|by apply Hr].
  - split; [intros n; by rewrite dom_empty_L, elem_of_empty, elem_of_nil|]. intros n xs. by rewrite lookup_empty.
  - exists g'. split; [done|]. split; [split; [done|]|intros n xs Hn; by apply Hr].
    intros n xs Hn y Hy. apply Hr in Hn as [Hn Hxs]. apply Hxs in Hy as [->|(gates & Hg & _ & Hne & Hall)].
    + by apply elem_of_list_to_set.
    + destruct gates as [|gate gates]; [done|]. destruct (Hall gate) as (x & ys & _ & Hx & Hy); [by left|].
      by eapply (tb_in g Ht).
Qed.

Lemma guaranteed_by_mono (g g' : Guarantees) n y :
  dom g ⊆ dom g' → below g g' → guaranteed_by g n y → guaranteed_by g' n y.
Proof using.
  intros Hd Hb [->|(gates & Hg & He & Hne & Hall)]; [by left|right]. exists gates. split_and!; [done..|].
  intros gate Hgate. destruct (Hall gate Hgate) as (x & ys & Hx & Hys & Hy).
  pose proof Hys as Hin%elem_of_dom_2. apply Hd, elem_of_dom in Hin as [ys' Hys'].
  exists x, ys'. split_and!; [done..|]. by eapply Hb.
Qed.

Definition weight (g : Guarantees) : nat := sum_list_with (λ n, size (default ∅ (g !! n))) node_ids.

Lemma sum_list_with_le {A} (f h : A → nat) xs :
  (∀ x, x ∈ xs → f x ≤ h x) → sum_list_with f xs ≤ sum_list_with h xs.
Proof using.
  clear. induction xs as [|x xs IH]; intros Hle; cbn; [done|].
  pose proof (Hle x ltac:(by left)). assert (sum_list_with f xs ≤ sum_list_with h xs) by (apply IH; intros; apply Hle; by right).
  lia.
Qed.

Lemma sum_list_with_lt {A} (f h : A → nat) xs x :
  (∀ x, x ∈ xs → f x ≤ h x) → x ∈ xs → f x < h x → sum_list_with f xs < sum_list_with h xs.
Proof using.
  clear. induction xs as [|z xs IH]; intros Hle; cbn; [by intros ?%elem_of_nil|].
  intros Hx Hlt. pose proof (Hle z ltac:(by left)).
  assert (sum_list_with f xs ≤ sum_list_with h xs) by (apply sum_list_with_le; intros; apply Hle; by right).
  apply elem_of_cons in Hx as [->|Hx]; [lia|]. enough (sum_list_with f xs < sum_list_with h xs) by lia.
  apply IH; [intros; apply Hle; by right|done..].
Qed.

Lemma weight_bound g : table g → weight g ≤ length node_ids * length node_ids.
Proof using.
  intros Ht. unfold weight.
  trans (sum_list_with (λ _, length node_ids) node_ids).
  - apply sum_list_with_le. intros n Hn. destruct (g !! n) as [xs|] eqn:E; cbn; [|rewrite size_empty; lia].
    pose proof (tb_in g Ht n xs E) as Hsub%subseteq_size. pose proof (size_list_to_set_le node_ids). lia.
  - generalize (length node_ids) at 1 3. intros k. clear. induction node_ids as [|x xs IH]; cbn; lia.
Qed.

Lemma weight_grows g g' :
  table g → table g' → below g g' → g' ≠ g → weight g < weight g'.
Proof using.
  intros Ht Ht' Hb Hne.
  assert (∀ n, n ∈ node_ids → ∃ xs xs', g !! n = Some xs ∧ g' !! n = Some xs' ∧ xs ⊆ xs') as Hall.
  { intros n Hn. pose proof Hn as [xs Hxs]%(tb_dom g Ht)%elem_of_dom. pose proof Hn as [xs' Hxs']%(tb_dom g' Ht')%elem_of_dom.
    exists xs, xs'. split_and!; [done..|]. by eapply Hb. }
  destruct (decide (Forall (λ n, g' !! n = g !! n) node_ids)) as [Heq|Hdiff].
  { destruct Hne. apply map_eq. intros n. destruct (decide (n ∈ node_ids)) as [Hn|Hn].
    - rewrite Forall_forall in Heq. by apply Heq.
    - trans (None (A := gset str)); [|symmetry]; apply not_elem_of_dom; [by rewrite (tb_dom g' Ht')|by rewrite (tb_dom g Ht)]. }
  apply not_Forall_Exists in Hdiff; [|intros n; apply _]. apply Exists_exists in Hdiff as (n & Hn & Hx).
  unfold weight. apply (sum_list_with_lt _ _ _ n); [|done|].
  - intros m (xs & xs' & -> & -> & Hsub)%Hall. by apply subseteq_size.
  - destruct (Hall n Hn) as (xs & xs' & Hxs & Hxs' & Hsub). cbn in Hx. rewrite Hxs, Hxs' in Hx |- *. cbn.
    apply subset_size. split; [done|]. intros Hsub'. apply Hx. f_equal. by apply (anti_symm (⊆)).
Qed.

Lemma guaranteed_loop_spec (fuel : nat) (g : Guarantees) :
  table g → ascending g → length node_ids * length node_ids < fuel + weight g →
  ∃ final, guaranteed_loop fuel node_ids (list_to_set entries) activation_gates g = Ok final
    ∧ table final ∧ replaced final final.
Proof using Hgates Hsources.
  revert g. induction fuel as [|fuel IH]; intros g Ht Ha Hfuel.
  { pose proof (weight_bound g Ht). lia. }
  cbn [guaranteed_loop]. destruct (guarantee_pass_spec g Ht) as (g' & -> & Ht' & Hr). cbn [mbind result_bind].
  case_bool_decide as Heq; [exists g; split_and!; [done|done|]; by rewrite Heq in Hr|].
  assert (below g g') as Hb.
  { intros n xs xs' Hxs Hxs' y Hy. apply (Hr n xs' Hxs'). by eapply Ha. }
  apply IH; [done| |].
  - intros n xs y Hn Hy. apply (guaranteed_by_mono g); [|done|by apply (Hr n xs Hn)].
    intros x Hx. by apply (tb_dom g' Ht'), (tb_dom g Ht).
  - pose proof (weight_grows g g' Ht Ht' Hb Heq). lia.
Qed.

(** The analysis returns, and each guarantee holds of every activation. *)
Lemma guaranteed_sets_spec :
  ∃ g, guaranteed_sets node_ids entries activation_gates = Ok g
    ∧ (∀ n, n ∈ dom g ↔ n ∈ node_ids)
    ∧ (∀ n xs, g !! n = Some xs → n ∈ xs ∧ xs ⊆ list_to_set node_ids)
    ∧ ∀ n xs past, g !! n = Some xs → happened n past → xs ⊆ past.
Proof using Hgates Hsources.
  unfold guaranteed_sets. set (g0 := list_to_map _).
  assert (∀ n xs, g0 !! n = Some xs ↔ n ∈ node_ids ∧ xs = {[n]}) as H0.
  { intros n xs. unfold g0. clear. induction node_ids as [|x l IH]; cbn.
    - rewrite lookup_empty, elem_of_nil. naive_solver.
    - rewrite lookup_insert_Some, IH, elem_of_cons. destruct (decide (x = n)); naive_solver. }
  destruct (guaranteed_loop_spec (2 + length node_ids * length node_ids) g0) as (g & -> & [Hd Hin] & Hr).
  - split.
    + intros n. rewrite elem_of_dom. split; [by intros [xs [? _]%H0]|intros; eexists; by apply H0].
    + intros n xs [Hn ->]%H0. intros y ->%elem_of_singleton. by apply elem_of_list_to_set.
  - intros n xs y [Hn ->]%H0 ->%elem_of_singleton. by left.
  - lia.
  - exists g. split_and!; [done|done| |].
    + intros n xs Hn. split; [by apply (Hr n xs Hn); left|by eapply Hin].
    + intros n xs past Hn Hp. revert xs Hn.
      induction Hp as [n He|n gates gate past Hg Hgate Hp IH]; intros xs Hn y Hy%(Hr n xs Hn).
      * destruct Hy as [->|(gates & _ & Hne & _)]; [by apply elem_of_singleton|done].
      * destruct Hy as [->|(gates' & Hg' & _ & _ & Hall)]; [by apply elem_of_union_l, elem_of_singleton|].
        simplify_eq. destruct (Hall gate Hgate) as (x & ys & Hx & Hys & Hy). apply elem_of_union_r.
        apply elem_of_union_list. exists (past x). split; [by apply list_elem_of_fmap_2|].
        apply list_elem_of_fmap in Hx as ([x' route] & -> & Hx). by eapply IH.
Qed.
End guarantees.
