(* ===== verification/JoinPlans.v ===== *)
(** * Route requirements and Join plans

    The second half of the control analyses of [execution/graph/compiler.py]: the
    rectangular route summaries that decide joint activation, and the source-to-target
    offsets compiled for every Join.  [conditional_targets] maps each node to its routes
    with their targets, in declaration order. *)

From Stdlib Require Import ZArith NArith Lia Bool String.
From stdpp Require Import prelude strings gmap sorting.
From S2P Require Import Prelude Identity Topology GraphDefinition ControlGraph.

Set Default Goal Selector "!".
Open Scope Z_scope.

Notation Conditionals := (gmap str (list (str * str))).

(** [all(f(x) for x in xs)] with a fallible [f]. *)
Fixpoint all_of {A} (xs : list A) (f : A → result bool) : result bool :=
  match xs with
  | [] => Ok true
  | x :: rest => b ← f x; if (b : bool) then all_of rest f else Ok false
  end.

(* ------------------------------------------------------------------ *)
(** ** Route requirements *)

(** [RouteRequirements]: nodes with the routes they may have selected. *)
Definition RouteRequirements : Type := list (str * gset str).

(** [_RouteRequirementProof] *)
Record RouteProof := mkProof { requirements : RouteRequirements; exact : bool }.
#[export] Instance route_proof_eq_dec : EqDecision RouteProof.
Proof. solve_decision. Defined.

(** [dict(requirements)] *)
Definition as_dict (rs : RouteRequirements) : gmap str (gset str) :=
  fold_left (λ d '(source, routes), <[source := routes]> d) rs ∅.

(** One entry of [_merge_route_requirements]; [None] once the conjunction is empty. *)
Definition merge_entry (merged : option (gmap str (gset str))) (entry : str * gset str)
    : option (gmap str (gset str)) :=
  merged ← merged;
  let '(source, routes) := entry in
  let compatible := match merged !! source with None => routes | Some existing => existing ∩ routes end in
  if bool_decide (compatible = ∅) then None else Some (<[source := compatible]> merged).

(** [_merge_route_requirements] *)
Definition merge_route_requirements (rs : list RouteRequirements) : option RouteRequirements :=
  items <$> fold_left merge_entry (concat rs) (Some ∅).

(** [_merge_route_requirement_proofs] *)
Definition merge_route_requirement_proofs (proofs : list RouteProof) : option RouteProof :=
  merged ← merge_route_requirements (requirements <$> proofs);
  Some (mkProof merged (forallb exact proofs)).

(** [frozenset(conditional_targets[source])] *)
Definition declared_routes (conditional_targets : Conditionals) (source : str) : result (gset str) :=
  routes ← dict_get conditional_targets source; Ok (list_to_set routes.*1).

(** [_source_route_requirements] *)
Definition source_route_requirements (source : str) (selected_route : option str)
    (proofs : gmap str RouteProof) (conditional_targets : Conditionals) : result RouteProof :=
  let proof := default (mkProof [] false) (proofs !! source) in
  let source_requirements := as_dict (requirements proof) in
  declared ← declared_routes conditional_targets source;
  if bool_decide (selected_route = None) && bool_decide (declared = ∅) then Ok proof else
  let selected := match selected_route with Some route => {[route]} | None => declared end in
  let selected := match source_requirements !! source with
                  | None => selected
                  | Some existing => existing ∩ selected end in
  Ok (mkProof (items (<[source := selected]> source_requirements)) (exact proof)).

(** [_gate_route_requirements] *)
Definition gate_route_requirements (gate : RawGate) (proofs : gmap str RouteProof)
    (conditional_targets : Conditionals) : result (option RouteProof) :=
  sources ← mapM (λ '(source, route), source_route_requirements source route proofs conditional_targets) gate;
  Ok (merge_route_requirement_proofs sources).

(** [set(d0)] cut down to the keys of the other dicts. *)
Definition common_keys (dicts : list (gmap str (gset str))) : gset str :=
  match dicts with [] => ∅ | first :: rest => fold_left (λ keys d, keys ∩ dom d) rest (dom first) end.

(** [_alternative_route_requirements] *)
Definition alternative_route_requirements (alternatives : list (option RouteProof))
    (conditional_targets : Conditionals) : result (option RouteProof) :=
  let satisfiable := omap id alternatives in
  let by_alternative := as_dict ∘ requirements <$> satisfiable in
  match by_alternative with
  | [] => Ok None
  | first :: rest =>
      let common_sources := sorted_elements (common_keys by_alternative) in
      combined ← mapM (λ source,
        routes ← py_for_state by_alternative ∅ (λ routes alternative,
          known ← dict_get alternative source; Ok (routes ∪ known));
        Ok (source, routes)) common_sources;
      dropped_requirements_are_exhaustive ← all_of by_alternative (λ alternative,
        all_of (List.filter (λ '(source, _), negb (mem source common_sources)) (items alternative))
          (λ '(source, routes),
            declared ← declared_routes conditional_targets source; Ok (bool_decide (routes = declared))));
      varying_sources ← select common_sources (λ source,
        any_of rest (λ alternative,
          here ← dict_get alternative source; there ← dict_get first source;
          Ok (negb (bool_decide (here = there)))));
      Ok (Some (mkProof combined
        (forallb exact satisfiable && dropped_requirements_are_exhaustive
         && (length varying_sources <=? 1)%nat)))
  end.

(* ------------------------------------------------------------------ *)
(** ** Joint activation paths *)

(** [dependency_successors]: the control successors with the value dependencies added. *)
Definition dependency_successors_of (node_ids : list str) (successors data_dependencies : Successors)
    : result Successors :=
  copied ← py_for_state node_ids ∅ (λ copied node_id,
    next ← dict_get successors node_id; Ok (<[node_id := next]> copied));
  py_for_state node_ids copied (λ dependency_successors target,
    sources ← dict_get data_dependencies target;
    py_for_state (sorted_elements sources) dependency_successors (λ dependency_successors source,
      known ← dict_get dependency_successors source;
      Ok (<[source := known ∪ {[target]}]> dependency_successors))).

(** The dependencies of one fixed node, among the fixed nodes. *)
Definition fixed_dependencies (fixed : gset str) (activation_gates : ActivationGates)
    (data_dependencies : Successors) (node_id : str) : result (gset str) :=
  gates ← dict_get activation_gates node_id;
  data ← dict_get data_dependencies node_id;
  Ok ((list_to_set (concat ((λ gate : RawGate, gate.*1) <$> gates)) ∪ data) ∩ fixed).

(** The layering loop: it spins when no pending node is ready. *)
Fixpoint order_loop (fuel : nat) (dependencies : Successors) (pending : gset str) (ordered : list str)
    : result (list str) :=
  match fuel with
  | O => diverged
  | S fuel =>
      if bool_decide (pending = ∅) then Ok ordered else
      ready ← select (sorted_elements pending) (λ node_id,
        needed ← dict_get dependencies node_id;
        Ok (bool_decide (needed ⊆ (list_to_set ordered : gset str))));
      order_loop fuel dependencies (pending ∖ list_to_set ready) (ordered ++ ready)
  end.

(** The requirement of one node of the ordered pass. *)
Definition node_requirement (entries : list str) (entry_requirements : RouteProof)
    (activation_gates : ActivationGates) (data_dependencies : Successors) (conditional_targets : Conditionals)
    (proofs : gmap str RouteProof) (node_id : str) : result (option RouteProof) :=
  gates ← dict_get activation_gates node_id;
  by_gate ← mapM (λ gate, gate_route_requirements gate proofs conditional_targets) gates;
  let alternatives := (if mem node_id entries then [Some entry_requirements] else []) ++ by_gate in
  data ← dict_get data_dependencies node_id;
  data_requirement ← gate_route_requirements ((λ source, (source, None)) <$> sorted_elements data) proofs
                       conditional_targets;
  let alternatives :=
    if negb (bool_decide (data = ∅)) && negb (is_nil alternatives)
    then (λ alternative : option RouteProof, alternative ← alternative; data_requirement ← data_requirement;
           merge_route_requirement_proofs [alternative; data_requirement]) <$> alternatives
    else alternatives in
  alternative_route_requirements alternatives conditional_targets.

(** The routes that may be selected when every entry is activated. *)
Definition entry_requirements_of (entries : list str) (conditional_targets : Conditionals) : result RouteProof :=
  declared ← mapM (λ entry, routes ← declared_routes conditional_targets entry; Ok (entry, routes)) entries;
  Ok (mkProof (List.filter (λ '(_, routes), negb (bool_decide (routes = ∅))) declared) true).

(** [_validate_joint_activation_paths] *)
Definition validate_joint_activation_paths (node_ids entries : list str) (activation_gates : ActivationGates)
    (data_dependencies : Successors) (conditional_targets : Conditionals) (successors : Successors)
    : result (gmap str RouteProof) :=
  dependency_successors ← dependency_successors_of node_ids successors data_dependencies;
  variable_nodes ← cycle_reachable_nodes node_ids dependency_successors;
  let fixed := list_to_set (List.filter (λ node_id, negb (bool_decide (node_id ∈ variable_nodes))) node_ids) in
  dependencies ← py_for_state (sorted_elements fixed) ∅ (λ dependencies node_id,
    needed ← fixed_dependencies fixed activation_gates data_dependencies node_id;
    Ok (<[node_id := needed]> dependencies));
  ordered ← order_loop (1 + size fixed) dependencies fixed [];
  entry_requirements ← entry_requirements_of entries conditional_targets;
  py_for_state ordered ∅ (λ proofs node_id,
    requirement ← node_requirement entries entry_requirements activation_gates data_dependencies
                    conditional_targets proofs node_id;
    match requirement with
    | None => Raise (Exn GraphValidationError "node has no jointly satisfiable activation path")
    | Some requirement => Ok (<[node_id := requirement]> proofs)
    end).

(* ------------------------------------------------------------------ *)
(** ** Join plans *)

(** [(source, route is not None, route or "")] *)
Definition selection_key (selection : str * option str) : str * (bool * str) :=
  let '(source, route) := selection in (source, (bool_decide (is_Some route), default [] route)).

(** [_activation_cohort_signature] *)
Definition activation_cohort_signature (node_id : str) (entries : list str) (activation_gates : ActivationGates)
    : result (bool * list RawGate) :=
  gates ← dict_get activation_gates node_id;
  Ok (mem node_id entries, sorted_key (λ gate : RawGate, selection_key <$> gate) gates).

(** [max(xs)] *)
Definition py_max (xs : list Z) : result Z :=
  match xs with
  | [] => Raise (Exn ValueError "max() arg is an empty sequence")
  | x :: rest => Ok (fold_left Z.max rest x)
  end.

(** The offsets of a Join none of whose sources repeats. *)
Definition one_shot_offsets (sources : list str) (source_requirements : list RouteProof)
    (absolute_levels : gmap str Z) : result (list (str * Z)) :=
  raise_if (negb (forallb exact source_requirements)
            || negb (length (remove_dups source_requirements) =? 1)%nat) GraphValidationError
    "join can receive only a partial source set on a route";;
  target_level ← except (one_of [KeyError]) GraphValidationError "join has no unique occurrence coordinate"
    (levels ← mapM (dict_get absolute_levels) sources; highest ← py_max levels; Ok (highest + 1));
  mapM (λ source, level ← dict_get absolute_levels source; Ok (source, target_level - level)) sources.

(** The offsets of a Join some of whose sources repeat: all arrive one step before. *)
Definition cohort_offsets (sources repeated_sources : list str) (entries : list str)
    (activation_gates : ActivationGates) : result (list (str * Z)) :=
  signatures ← mapM (λ source, activation_cohort_signature source entries activation_gates) sources;
  raise_if (negb (length repeated_sources =? length sources)%nat
            || negb (length (remove_dups signatures) =? 1)%nat) GraphValidationError
    "join has no provable occurrence identity";;
  Ok ((λ source, (source, 1)) <$> sources).

(** The plan of one Join. *)
Definition compile_join (entries : list str) (activation_gates : ActivationGates) (repeatable : gset str)
    (proofs : gmap str RouteProof) (conditional_targets : Conditionals) (absolute_levels : gmap str Z)
    (edge : list str * str) : result CompiledJoin :=
  let '(sources, target) := edge in
  joint ← gate_route_requirements ((λ source, (source, None)) <$> sources) proofs conditional_targets;
  raise_if (bool_decide (joint = None)) GraphValidationError "join has mutually exclusive activation sources";;
  source_requirements ← mapM (λ source, source_route_requirements source None proofs conditional_targets) sources;
  let repeated_sources := List.filter (λ source, bool_decide (source ∈ repeatable)) sources in
  offsets ← (if is_nil repeated_sources
             then one_shot_offsets sources source_requirements absolute_levels
             else cohort_offsets sources repeated_sources entries activation_gates);
  identity ← GraphJoinIdentity_new sources target;
  CompiledJoin_new identity offsets.

(** [_compile_join_occurrence_plans] *)
Definition compile_join_occurrence_plans (joins : list (list str * str)) (entries : list str)
    (activation_gates : ActivationGates) (successors : Successors) (proofs : gmap str RouteProof)
    (conditional_targets : Conditionals) (absolute_levels : gmap str Z) : result (list CompiledJoin) :=
  repeatable ← repeatable_nodes entries activation_gates successors;
  mapM (compile_join entries activation_gates repeatable proofs conditional_targets absolute_levels) joins.
