(* ===== verification/RouteProofs.v ===== *)
(** * Route requirements: what a rectangular summary denotes

    A requirement denotes the route selections that satisfy it.  Merging is conjunction;
    a summary of alternatives covers all of them, and one marked exact covers nothing
    else.  The layering loop ends, and [_validate_joint_activation_paths] either computes
    for every node off the cycles the selections that activate it or names a node no
    selection activates. *)

From Stdlib Require Import ZArith NArith Lia Bool String.
From stdpp Require Import prelude strings gmap sorting.
From S2P Require Import Prelude Identity Topology GraphDefinition ControlGraph ControlGraphProofs LevelProofs JoinPlans.

Set Default Goal Selector "!".
Open Scope nat_scope.

(** A selection assigns a route to every node. *)
Definition sat (ρ : str → str) (rs : RouteRequirements) : Prop := ∀ s routes, (s, routes) ∈ rs → ρ s ∈ routes.
Definition sat_dict (ρ : str → str) (d : gmap str (gset str)) : Prop := ∀ s routes, d !! s = Some routes → ρ s ∈ routes.
(** Requirements are dicts: no key repeats. *)
Definition proper (rs : RouteRequirements) : Prop := NoDup rs.*1.

Lemma as_dict_lookup rs s routes : proper rs → as_dict rs !! s = Some routes ↔ (s, routes) ∈ rs.
Proof.
  unfold as_dict, proper.
  assert (∀ d : gmap str (gset str), NoDup rs.*1 → (∀ k, k ∈ rs.*1 → d !! k = None) →
    fold_left (λ d '(source, routes), <[source := routes]> d) rs d !! s = Some routes
      ↔ d !! s = Some routes ∨ (s, routes) ∈ rs) as H.
  { induction rs as [|[k v] rs IH]; intros d Hnd Hd; cbn; [rewrite elem_of_nil; tauto|].
    apply NoDup_cons in Hnd as [Hk Hnd]. rewrite IH; [|done|].
    - rewrite lookup_insert_Some, elem_of_cons. specialize (Hd k ltac:(by left)).
      destruct (decide (k = s)) as [->|Hne]; naive_solver.
    - intros j Hj. rewrite lookup_insert_ne by (intros ->; done). apply Hd. by right. }
  intros Hnd. rewrite H; [|done|done]. rewrite lookup_empty. naive_solver.
Qed.

Lemma as_dict_keys rs s : s ∈ dom (as_dict rs) ↔ s ∈ rs.*1.
Proof.
  unfold as_dict. assert (∀ d : gmap str (gset str), s ∈ dom (fold_left (λ d '(source, routes), <[source := routes]> d) rs d)
    ↔ s ∈ dom d ∨ s ∈ rs.*1) as H.
  { induction rs as [|[k v] rs IH]; intros d; cbn; [rewrite elem_of_nil; tauto|].
    rewrite IH, dom_insert_L, elem_of_union, elem_of_singleton, elem_of_cons. tauto. }
  rewrite H, dom_empty_L. set_solver.
Qed.

Lemma sat_as_dict ρ rs : proper rs → sat_dict ρ (as_dict rs) ↔ sat ρ rs.
Proof. intros Hp. unfold sat, sat_dict. by setoid_rewrite as_dict_lookup. Qed.

Lemma items_proper (d : gmap str (gset str)) : proper (items d).
Proof.
  unfold proper, items, sorted_key. rewrite sort_by_perm. apply NoDup_fst_map_to_list.
Qed.

Lemma sat_items ρ d : sat ρ (items d) ↔ sat_dict ρ d.
Proof. unfold sat, sat_dict. by setoid_rewrite items_elem. Qed.

(** Merging entries is conjunction, and [None] is falsity. *)
Lemma merge_entries_spec (xs : RouteRequirements) m :
  match fold_left merge_entry xs (Some m) with
  | Some m' => (∀ ρ, sat_dict ρ m' ↔ sat_dict ρ m ∧ sat ρ xs) ∧ dom m' = dom m ∪ list_to_set xs.*1
  | None => ∀ ρ, sat_dict ρ m → ¬ sat ρ xs
  end.
Proof.
  assert (∀ ys, fold_left merge_entry ys None = None) as Hnone by (induction ys; done).
  revert m. induction xs as [|[s routes] xs IH]; intros m; cbn [fold_left].
  { split; [|cbn; set_solver]. intros ρ. split; [|tauto]. intros H. split; [done|]. by intros ?? ?%elem_of_nil. }
  cbn [merge_entry mbind option_bind].
  set (compatible := match m !! s with None => routes | Some existing => existing ∩ routes end).
  assert (∀ ρ, sat_dict ρ (<[s := compatible]> m) ↔ sat_dict ρ m ∧ ρ s ∈ routes) as Hins.
  { intros ρ. unfold sat_dict, compatible. setoid_rewrite lookup_insert_Some. split.
    - intros H. destruct (m !! s) as [e|] eqn:E.
      + pose proof (H s (e ∩ routes)) as Hs. rewrite elem_of_intersection in Hs. split; [|naive_solver].
        intros k r Hk. destruct (decide (s = k)); naive_solver.
      + split; [|naive_solver]. intros k r Hk. destruct (decide (s = k)); naive_solver.
    - intros [H Hs] k r [[<- <-]|[_ Hk]]; [|auto]. destruct (m !! s) as [e|] eqn:E; [|done].
      apply elem_of_intersection. auto. }
  assert (∀ ρ, sat ρ ((s, routes) :: xs) ↔ ρ s ∈ routes ∧ sat ρ xs) as Hcons.
  { intros ρ. unfold sat. setoid_rewrite elem_of_cons. naive_solver. }
  case_bool_decide as Hc.
  - rewrite Hnone. intros ρ Hm [Hs _]%Hcons.
    destruct (Hins ρ) as [_ H]. specialize (H (conj Hm Hs) s compatible).
    rewrite lookup_insert_eq, Hc in H. specialize (H eq_refl). by apply elem_of_empty in H.
  - specialize (IH (<[s := compatible]> m)). destruct (fold_left _ _ _) as [m'|] eqn:E.
    + destruct IH as [IH Hd]. split.
      * intros ρ. rewrite IH, Hins, Hcons. tauto.
      * rewrite Hd, dom_insert_L. cbn. set_solver.
    + intros ρ Hm [Hs Hxs]%Hcons. apply (IH ρ); [by apply Hins|done].
Qed.

Lemma merge_route_requirements_spec rs :
  match merge_route_requirements rs with
  | Some m => proper m ∧ (∀ ρ, sat ρ m ↔ Forall (sat ρ) rs) ∧ ∀ s, s ∈ m.*1 ↔ ∃ r, r ∈ rs ∧ s ∈ r.*1
  | None => ∀ ρ, ¬ Forall (sat ρ) rs
  end.
Proof.
  assert (∀ ρ, sat ρ (concat rs) ↔ Forall (sat ρ) rs) as Hcat.
  { intros ρ. rewrite Forall_forall. unfold sat. setoid_rewrite list_elem_of_In. setoid_rewrite in_concat.
    setoid_rewrite <- list_elem_of_In. naive_solver. }
  unfold merge_route_requirements. pose proof (merge_entries_spec (concat rs) ∅) as H.
  assert (∀ ρ, sat_dict ρ ∅) as H0 by (intros ρ s r; by rewrite lookup_empty).
  destruct (fold_left _ _ _) as [m|]; cbn.
  - destruct H as [H Hd]. split_and!; [apply items_proper| |].
    + intros ρ. rewrite sat_items, H, Hcat. naive_solver.
    + intros s. trans (s ∈ dom m).
      * rewrite list_elem_of_fmap, elem_of_dom. split.
        -- intros ([k v] & -> & Hk%items_elem). by eexists.
        -- intros [v Hv%items_elem]. by exists (s, v).
      * rewrite Hd, dom_empty_L, union_empty_l_L, elem_of_list_to_set, list_elem_of_fmap.
        setoid_rewrite list_elem_of_In. setoid_rewrite in_concat. setoid_rewrite <- list_elem_of_In.
        setoid_rewrite list_elem_of_fmap. naive_solver.
  - intros ρ Hf. apply (H ρ (H0 ρ)). by apply Hcat.
Qed.

(* ------------------------------------------------------------------ *)
(** ** Summaries *)

Section summaries.
Context (cond : Conditionals).

(** A selection picks a declared route wherever routes are declared. *)
Definition legal (ρ : str → str) : Prop := ∀ s cts, cond !! s = Some cts → cts ≠ [] → ρ s ∈ cts.*1.
Definition chosen (ρ : str → str) (s : str) (route : option str) : Prop :=
  match route with Some r => ρ s = r | None => True end.

Definition conditional (s : str) : Prop := ∃ cts, cond !! s = Some cts ∧ cts ≠ [].
(** A gate selects a route only where routes are declared. *)
Definition route_declared (s : str) (route : option str) : Prop := s ∈ dom cond ∧ (route ≠ None → conditional s).

Record proof_ok (p : RouteProof) : Prop := {
  po_proper : proper (requirements p);
  po_keys : ∀ s, s ∈ (requirements p).*1 → conditional s
}.

(** [p] summarises the condition [A]: it covers [A], and nothing more when exact. *)
Definition summary (p : RouteProof) (A : (str → str) → Prop) : Prop :=
  proof_ok p
  ∧ (∀ ρ, legal ρ → A ρ → sat ρ (requirements p))
  ∧ (exact p = true → ∀ ρ, legal ρ → sat ρ (requirements p) → A ρ).

Definition summarises (o : option RouteProof) (A : (str → str) → Prop) : Prop :=
  match o with Some p => summary p A | None => ∀ ρ, legal ρ → ¬ A ρ end.

Lemma summarises_iff o A B : (∀ ρ, legal ρ → A ρ ↔ B ρ) → summarises o A → summarises o B.
Proof using.
  intros H. destruct o as [p|]; cbn.
  - intros (Hp & H1 & H2). split_and!; [done| |].
    + intros ρ Hl HB. by apply H1, H.
    + intros Hex ρ Hl Hs. by apply H, H2.
  - intros Hn ρ Hl. rewrite <- (H ρ Hl). by apply Hn.
Qed.

Lemma merge_proofs_spec ps (As : list ((str → str) → Prop)) :
  Forall2 summary ps As → summarises (merge_route_requirement_proofs ps) (λ ρ, Forall (λ A, A ρ) As).
Proof using.
  intros Hall. unfold merge_route_requirement_proofs.
  pose proof (merge_route_requirements_spec (requirements <$> ps)) as H.
  assert (∀ ρ, legal ρ → Forall (λ A : (str → str) → Prop, A ρ) As → Forall (sat ρ) (requirements <$> ps)) as Hcover.
  { intros ρ Hl HA. apply Forall_fmap. clear H. induction Hall as [|p A ps' As' (_ & H1 & _) Hall IH]; [constructor|].
    apply Forall_cons in HA as [HA HAs]. constructor; [by apply H1|by apply IH]. }
  destruct (merge_route_requirements _) as [m|]; cbn.
  - destruct H as (Hp & Hsat & Hkeys). split_and!; [split; [done|]| |]; cbn.
    + intros s (r & (p & -> & Hp')%list_elem_of_fmap & Hs)%Hkeys.
      apply list_elem_of_lookup in Hp' as [i Hi]. destruct (Forall2_lookup_l _ _ _ _ _ Hall Hi) as (A & _ & Hok & _).
      by apply (po_keys p Hok).
    + intros ρ Hl HA. apply Hsat. by apply Hcover.
    + intros Hex ρ Hl Hs%Hsat. apply Forall_fmap in Hs. rewrite forallb_forall in Hex.
      assert (∀ p, p ∈ ps → exact p = true) as Hex' by (intros p Hp'; by apply Hex, list_elem_of_In).
      clear -Hall Hs Hex' Hl. induction Hall as [|p A ps' As' (_ & _ & H2) Hall IH]; [constructor|].
      apply Forall_cons in Hs as [Hs Hss].
      constructor; [apply H2; [apply Hex'; by left|done..]|]. apply IH; [done|intros; apply Hex'; by right].
  - intros ρ Hl HA. by apply (H ρ), Hcover.
Qed.

(** What is known of one source: nothing when it has no proof. *)
Definition proof_of (proofs : gmap str RouteProof) (s : str) : RouteProof := default (mkProof [] false) (proofs !! s).

Lemma declared_spec s : s ∈ dom cond →
  ∃ cts, cond !! s = Some cts ∧ declared_routes cond s = Ok (list_to_set cts.*1).
Proof using.
  intros [cts Hc]%elem_of_dom. exists cts. split; [done|]. unfold declared_routes, dict_get. by rewrite Hc.
Qed.

Lemma legal_declared ρ s cts : legal ρ → cond !! s = Some cts → list_to_set cts.*1 ≠ (∅ : gset str) →
  ρ s ∈ (list_to_set cts.*1 : gset str).
Proof using.
  intros Hl Hc Hne. apply elem_of_list_to_set, (Hl s cts Hc). by intros ->.
Qed.

Lemma source_requirements_spec proofs s route A :
  route_declared s route → summary (proof_of proofs s) A →
  ∃ p, source_route_requirements s route proofs cond = Ok p ∧ exact p = exact (proof_of proofs s)
    ∧ summary p (λ ρ, A ρ ∧ chosen ρ s route)
    ∧ (route = None → ∀ ρ, legal ρ → sat ρ (requirements p) ↔ sat ρ (requirements (proof_of proofs s))).
Proof using.
  intros [Hs Hcond] (Hok & H1 & H2). unfold source_route_requirements. fold (proof_of proofs s).
  destruct (declared_spec s Hs) as (cts & Hc & ->). cbn [mbind result_bind].
  destruct (bool_decide (route = None) && bool_decide (list_to_set cts.*1 = ∅)) eqn:Hb.
  { apply andb_true_iff in Hb as [->%bool_decide_eq_true _]. eexists. split_and!; [done|done| |done].
    split_and!; [done| |]; cbn; [naive_solver|]. intros Hex ρ Hl Hsat. split; [|done]. by apply H2. }
  set (selected := match route with Some r => {[r]} | None => list_to_set cts.*1 end).
  assert (∀ ρ, legal ρ → ρ s ∈ selected ↔ chosen ρ s route) as Hsel.
  { intros ρ Hl. unfold selected, chosen. destruct route as [r|]; [by rewrite elem_of_singleton|].
    split; [done|]. intros _. apply (legal_declared ρ s cts Hl Hc). intros E.
    rewrite bool_decide_true, bool_decide_true in Hb; done. }
  set (d := as_dict _). eexists. split; [done|]. split; [done|].
  set (narrowed := match d !! s with None => selected | Some existing => existing ∩ selected end).
  assert (∀ ρ, legal ρ → sat ρ (items (<[s := narrowed]> d))
             ↔ sat ρ (requirements (proof_of proofs s)) ∧ chosen ρ s route) as Hsat.
  { intros ρ Hl. rewrite sat_items, <- Hsel, <- (sat_as_dict _ _ (po_proper _ Hok)) by done. fold d.
    unfold sat_dict. setoid_rewrite lookup_insert_Some. unfold narrowed. split.
    - intros H. destruct (d !! s) as [e|] eqn:E.
      + pose proof (H s (e ∩ selected)) as He. rewrite elem_of_intersection in He. split; [|naive_solver].
        intros k r Hk. destruct (decide (s = k)); naive_solver.
      + split; [|naive_solver]. intros k r Hk. destruct (decide (s = k)); naive_solver.
    - intros [H Hsl] k r [[<- <-]|[_ Hk]]; [|auto]. destruct (d !! s) as [e|] eqn:E; [|done].
      apply elem_of_intersection. auto. }
  split; [split_and!; [split|..]; cbn|].
  - apply items_proper.
  - intros k ([k' v] & -> & Hk%items_elem)%list_elem_of_fmap. cbn.
    apply lookup_insert_Some in Hk as [[<- _]|[_ Hk]].
    { destruct route as [r|]; [by apply Hcond|]. exists cts. split; [done|]. by intros ->. }
    apply (po_keys _ Hok), as_dict_keys, elem_of_dom. by exists v.
  - intros ρ Hl [HA Hch]. apply Hsat; [done|]. split; [by apply H1|done].
  - intros Hex ρ Hl [Hs' Hch]%Hsat; [|done]. split; [by apply H2|done].
  - intros -> ρ Hl. cbn. rewrite Hsat by done. cbn. tauto.
Qed.

Lemma gate_requirements_spec proofs (gate : RawGate) (A : str → (str → str) → Prop) :
  (∀ s route, (s, route) ∈ gate → route_declared s route ∧ summary (proof_of proofs s) (A s)) →
  ∃ o, gate_route_requirements gate proofs cond = Ok o
    ∧ summarises o (λ ρ, ∀ s route, (s, route) ∈ gate → A s ρ ∧ chosen ρ s route).
Proof using.
  intros Hg. unfold gate_route_requirements.
  destruct (mapM_total (λ '(source, route), source_route_requirements source route proofs cond)
      (λ '(s, route) p, summary p (λ ρ, A s ρ ∧ chosen ρ s route)) gate) as (ps & -> & Hps).
  { intros [s route] Hin. destruct (Hg s route Hin) as [Hd Hs].
    destruct (source_requirements_spec proofs s route (A s) Hd Hs) as (p & -> & _ & Hp & _). by exists p. }
  cbn [mbind result_bind]. eexists. split; [done|].
  eapply summarises_iff, (merge_proofs_spec ps ((λ '(s, route) ρ, A s ρ ∧ chosen ρ s route) <$> gate)).
  - intros ρ _. rewrite Forall_fmap, Forall_forall. split; intros H; [intros s route Hin; exact (H (s, route) Hin)|].
    intros [s route] Hin. by apply H.
  - apply Forall2_fmap_r. clear Hg. induction Hps as [|[s route] p gate ps Hp Hps IH]; constructor; done.
Qed.

Lemma all_of_spec {A} (P : A → Prop) (xs : list A) f :
  (∀ x, x ∈ xs → ∃ b, f x = Ok b ∧ (b = true ↔ P x)) →
  ∃ b, all_of xs f = Ok b ∧ (b = true ↔ ∀ x, x ∈ xs → P x).
Proof using.
  clear. induction xs as [|x xs IH]; intros Hf; cbn.
  - exists true. split; [done|]. split; [|done]. by intros _ x ?%elem_of_nil.
  - destruct (Hf x) as (b & -> & Hb); [by left|]. cbn. setoid_rewrite elem_of_cons.
    destruct b; [|exists false; split; [done|]; naive_solver].
    destruct IH as (b & -> & Hb'); [intros; apply Hf; by right|]. exists b. split; [done|]. naive_solver.
Qed.

Lemma common_keys_spec (ds : list (gmap str (gset str))) s :
  ds ≠ [] → s ∈ common_keys ds ↔ ∀ d, d ∈ ds → s ∈ dom d.
Proof using.
  clear. destruct ds as [|first rest]; [done|]. intros _. cbn.
  trans (s ∈ dom first ∧ ∀ d, d ∈ rest → s ∈ dom d); [|setoid_rewrite elem_of_cons; naive_solver].
  generalize (dom first) as keys. induction rest as [|d rest IH]; intros keys; cbn.
  - split; [|tauto]. intros H. split; [done|]. by intros ? ?%elem_of_nil.
  - rewrite IH, elem_of_intersection. setoid_rewrite elem_of_cons. naive_solver.
Qed.

Lemma union_routes_spec (ds : list (gmap str (gset str))) s :
  (∀ d, d ∈ ds → s ∈ dom d) →
  ∃ routes, py_for_state ds ∅ (λ routes alternative, known ← dict_get alternative s; Ok (routes ∪ known)) = Ok routes
    ∧ ∀ y, y ∈ routes ↔ ∃ d r, d ∈ ds ∧ d !! s = Some r ∧ y ∈ r.
Proof using.
  intros Hd. destruct (py_for_state_total (λ dn (routes : gset str),
      ∀ y, y ∈ routes ↔ ∃ d r, d ∈ dn ∧ d !! s = Some r ∧ y ∈ r)
    (λ routes alternative, known ← dict_get alternative s; Ok (routes ∪ known)) ds)
    with (st := ∅ : gset str) as (routes & -> & Hr); [| |by exists routes].
  - intros dn d st [r Hr]%Hd%elem_of_dom Hst. unfold dict_get. rewrite Hr. cbn. eexists. split; [done|].
    intros y. rewrite elem_of_union, Hst. setoid_rewrite elem_of_app. setoid_rewrite list_elem_of_singleton.
    split; [naive_solver|]. intros (d' & r' & [?| ->] & ? & ?); [left; eauto|right]. by simplify_eq.
  - intros y. rewrite elem_of_empty. split; [done|]. by intros (d & r & ?%elem_of_nil & _).
Qed.

Lemma at_most_one {A} (xs : list A) : length xs ≤ 1 → ∀ x y, x ∈ xs → y ∈ xs → x = y.
Proof using. clear. destruct xs as [|a [|b xs]]; cbn; [set_solver|set_solver|lia]. Qed.

(** A union of rectangles that differ along at most one kept dimension is a rectangle. *)
Lemma union_is_rectangle (ds : list (gmap str (gset str))) (combined : gmap str (gset str)) (varying : str → Prop) ρ :
  ds ≠ [] → legal ρ →
  (∀ s, s ∈ dom combined ↔ ∀ d, d ∈ ds → s ∈ dom d) →
  (∀ s routes, combined !! s = Some routes → ∀ y, y ∈ routes ↔ ∃ d r, d ∈ ds ∧ d !! s = Some r ∧ y ∈ r) →
  (∀ d s r, d ∈ ds → d !! s = Some r → s ∉ dom combined →
     ∃ cts, cond !! s = Some cts ∧ cts ≠ [] ∧ r = list_to_set cts.*1) →
  (∀ s, s ∈ dom combined → varying s ∨ ∀ d d', d ∈ ds → d' ∈ ds → d !! s = d' !! s) →
  (∀ s s', s ∈ dom combined → s' ∈ dom combined → varying s → varying s' → s = s') →
  (∀ s, Decision (varying s)) →
  sat_dict ρ combined → ∃ d, d ∈ ds ∧ sat_dict ρ d.
Proof using.
  intros Hne Hl Hdom Hunion Hdrop Hsame Hone Hdec Hsat.
  assert (∃ d, d ∈ ds ∧ ∀ s r, varying s → s ∈ dom combined → d !! s = Some r → ρ s ∈ r) as (d & Hd & Hvar).
  { destruct (decide (Exists varying (elements (dom combined)))) as [Hex|Hno].
    - apply Exists_exists in Hex as (s0 & Hs0%elem_of_elements & Hv0).
      pose proof Hs0 as [routes Hr]%elem_of_dom. pose proof (Hsat s0 routes Hr) as Hin.
      apply (Hunion s0 routes Hr) in Hin as (d & r & Hd & Hdr & Hy). exists d. split; [done|].
      intros s r' Hv Hs Hr'. rewrite (Hone s s0 Hs Hs0 Hv Hv0) in *. by simplify_eq.
    - destruct ds as [|d ds']; [done|]. exists d. split; [by left|]. intros s r Hv Hs _. destruct Hno.
      apply Exists_exists. exists s. split; [by apply elem_of_elements|done]. }
  exists d. split; [done|]. intros s r Hr. destruct (decide (s ∈ dom combined)) as [Hs|Hs].
  - destruct (Hsame s Hs) as [Hv|Heq]; [by apply (Hvar s)|].
    apply elem_of_dom in Hs as [routes Hrt]. pose proof (Hsat s routes Hrt) as Hin.
    apply (Hunion s routes Hrt) in Hin as (d' & r' & Hd' & Hdr & Hy). rewrite (Heq d' d Hd' Hd) in Hdr. by simplify_eq.
  - destruct (Hdrop d s r Hd Hr Hs) as (cts & Hc & Hcts & ->). by apply elem_of_list_to_set, (Hl s cts).
Qed.

(** The parts of [alternative_route_requirements] over the dicts of the alternatives. *)
Lemma combined_spec (ds : list (gmap str (gset str))) :
  ds ≠ [] →
  ∃ combined, mapM (λ source,
      routes ← py_for_state ds ∅ (λ routes alternative,
        known ← dict_get alternative source; Ok (routes ∪ known));
      Ok (source, routes)) (sorted_elements (common_keys ds)) = Ok combined
    ∧ combined.*1 = sorted_elements (common_keys ds)
    ∧ ∀ s routes, (s, routes) ∈ combined → ∀ y, y ∈ routes ↔ ∃ d r, d ∈ ds ∧ d !! s = Some r ∧ y ∈ r.
Proof using.
  intros Hne. destruct (mapM_total (λ source,
      routes ← py_for_state ds ∅ (λ routes alternative,
        known ← dict_get alternative source; Ok (routes ∪ known)); Ok (source, routes))
    (λ s sr, sr.1 = s ∧ ∀ y, y ∈ sr.2 ↔ ∃ d r, d ∈ ds ∧ d !! s = Some r ∧ y ∈ r)
    (sorted_elements (common_keys ds))) as (combined & -> & Hall).
  - intros s Hs%sorted_elements_elem. rewrite common_keys_spec in Hs by done.
    destruct (union_routes_spec ds s Hs) as (routes & -> & Hr). cbn. by eexists.
  - exists combined. split; [done|]. split.
    + induction Hall as [|s [s' r] ss cs [Hs _] _ IH]; [done|]. cbn in *. by subst s'; f_equal.
    + intros s routes Hin. apply list_elem_of_lookup in Hin as [i Hi].
      destruct (Forall2_lookup_r _ _ _ _ _ Hall Hi) as (s' & _ & Heq & H). cbn in *. by subst s'.
Qed.

Lemma dropped_spec (ds : list (gmap str (gset str))) (common : list str) :
  (∀ d s, d ∈ ds → s ∈ dom d → conditional s) →
  ∃ b, all_of ds (λ alternative,
        all_of (List.filter (λ '(source, _), negb (mem source common)) (items alternative))
          (λ '(source, routes),
            declared ← declared_routes cond source; Ok (bool_decide (routes = declared)))) = Ok b
    ∧ (b = true ↔ ∀ d, d ∈ ds → ∀ s r, d !! s = Some r → s ∉ common →
         ∃ cts, cond !! s = Some cts ∧ cts ≠ [] ∧ r = list_to_set cts.*1).
Proof using.
  intros Hcond. apply all_of_spec. intros d Hd.
  set (P := λ sr : str * gset str, ∃ cts, cond !! sr.1 = Some cts ∧ cts ≠ [] ∧ sr.2 = list_to_set cts.*1).
  assert (∀ s r, (s, r) ∈ List.filter (λ '(source, _), negb (mem source common)) (items d)
    ↔ d !! s = Some r ∧ s ∉ common) as Hf.
  { intros s r. rewrite list_elem_of_In, filter_In, <- list_elem_of_In, items_elem. unfold mem.
    rewrite negb_true_iff, bool_decide_eq_false. done. }
  destruct (all_of_spec P (List.filter (λ '(source, _), negb (mem source common)) (items d))
    (λ '(source, routes), declared ← declared_routes cond source; Ok (bool_decide (routes = declared))))
    as (b & -> & Hb).
  { intros [s r] [Hs _]%Hf. destruct (Hcond d s Hd) as (cts & Hc & Hne); [by apply elem_of_dom; exists r|].
    unfold declared_routes, dict_get. rewrite Hc. cbn. eexists. split; [done|]. rewrite bool_decide_eq_true.
    unfold P. cbn. rewrite Hc. naive_solver. }
  exists b. split; [done|]. rewrite Hb. split.
  - intros H s r Hs Hc. by apply (H (s, r)), Hf.
  - intros H [s r] [Hs Hc]%Hf. by apply H.
Qed.

Lemma varying_spec (first : gmap str (gset str)) rest common :
  (∀ s d, s ∈ common → d ∈ first :: rest → s ∈ dom d) →
  ∃ varying, select common (λ source, any_of rest (λ alternative,
      here ← dict_get alternative source; there ← dict_get first source;
      Ok (negb (bool_decide (here = there))))) = Ok varying
    ∧ ∀ s, s ∈ varying ↔ s ∈ common ∧ ∃ d, d ∈ rest ∧ d !! s ≠ first !! s.
Proof using.
  intros Hdom. apply select_spec. intros s Hs. apply any_of_spec. intros d Hd.
  pose proof (Hdom s d Hs ltac:(by right)) as [r Hr]%elem_of_dom.
  pose proof (Hdom s first Hs ltac:(by left)) as [r' Hr']%elem_of_dom.
  unfold dict_get. rewrite Hr, Hr'. cbn. eexists. split; [done|].
  rewrite negb_true_iff, bool_decide_eq_false. split; [intros H [= ?]; done|intros H ->; done].
Qed.

Lemma alternatives_spec alternatives (As : list ((str → str) → Prop)) :
  Forall2 summarises alternatives As →
  ∃ o, alternative_route_requirements alternatives cond = Ok o ∧ summarises o (λ ρ, Exists (λ A, A ρ) As).
Proof using.
  intros Hall. unfold alternative_route_requirements. set (ps := omap id alternatives).
  assert (∀ ρ, legal ρ → Exists (λ A, A ρ) As → ∃ p, p ∈ ps ∧ sat ρ (requirements p)) as Hcover.
  { intros ρ Hl (A & HA & HAρ)%Exists_exists. apply list_elem_of_lookup in HA as [i Hi].
    destruct (Forall2_lookup_r _ _ _ _ _ Hall Hi) as ([p|] & Hp & Hs); cbn in Hs; [|by destruct (Hs ρ Hl)].
    exists p. split; [|by apply Hs]. apply list_elem_of_omap. exists (Some p). split; [by eapply list_elem_of_lookup_2|done]. }
  assert (∀ p, p ∈ ps → ∃ A, A ∈ As ∧ summary p A) as Hsum.
  { intros p (o & Ho & Hp)%list_elem_of_omap. cbn in Hp. subst o. apply list_elem_of_lookup in Ho as [i Hi].
    destruct (Forall2_lookup_l _ _ _ _ _ Hall Hi) as (A & HA & Hs). exists A. split; [by eapply list_elem_of_lookup_2|done]. }
  clearbody ps. clear Hall. destruct ps as [|p0 ps]; cbn [fmap list_fmap].
  { exists None. split; [done|]. intros ρ Hl (p & Hp & _)%Hcover; [|done]. by apply elem_of_nil in Hp. }
  set (first := (as_dict ∘ requirements) p0). set (rest := as_dict ∘ requirements <$> ps).
  assert (∀ d, d ∈ first :: rest → ∃ p, p ∈ p0 :: ps ∧ d = as_dict (requirements p)) as Hds.
  { intros d Hd. change (first :: rest) with (as_dict ∘ requirements <$> p0 :: ps) in Hd.
    apply list_elem_of_fmap in Hd as (p & -> & Hp). by exists p. }
  assert (∀ d s, d ∈ first :: rest → s ∈ dom d → conditional s) as Hcond.
  { intros d s (p & (A & _ & Hok & _)%Hsum & ->)%Hds Hs%as_dict_keys. by apply (po_keys p Hok). }
  destruct (combined_spec (first :: rest)) as (combined & -> & Hkeys & Hunion); [done|]. cbn [mbind result_bind].
  destruct (dropped_spec (first :: rest) (sorted_elements (common_keys (first :: rest))) Hcond) as (dropped & -> & Hdrop).
  cbn [mbind result_bind].
  assert (∀ s, s ∈ sorted_elements (common_keys (first :: rest)) ↔ ∀ d, d ∈ first :: rest → s ∈ dom d) as Hcommon.
  { intros s. rewrite sorted_elements_elem. by apply common_keys_spec. }
  destruct (varying_spec first rest (sorted_elements (common_keys (first :: rest)))) as (varying & -> & Hvary).
  { intros s d Hs Hd. by apply (proj1 (Hcommon s)). }
  cbn [mbind result_bind]. eexists. split; [done|].
  assert (proper combined) as Hp by (unfold proper; rewrite Hkeys; apply sorted_elements_NoDup).
  assert (∀ s, s ∈ dom (as_dict combined) ↔ ∀ d, d ∈ first :: rest → s ∈ dom d) as Hdom.
  { intros s. by rewrite as_dict_keys, Hkeys. }
  split_and!; [split; [done|]| |]; cbn.
  - intros s Hs. apply (Hcond first); [by left|]. rewrite Hkeys in Hs. apply (proj1 (Hcommon s) Hs). by left.
  - intros ρ Hl (p & Hin & Hsat)%Hcover; [|done]. intros s routes Hs. apply (Hunion s routes Hs).
    assert (as_dict (requirements p) ∈ first :: rest) as Hpd by by apply (list_elem_of_fmap_2 (as_dict ∘ requirements) (p0 :: ps)).
    assert (s ∈ dom (as_dict (requirements p))) as [r Hr]%elem_of_dom.
    { apply (proj1 (Hcommon s)); [|done]. rewrite <- Hkeys. by apply (list_elem_of_fmap_2 fst _ (s, routes)). }
    exists (as_dict (requirements p)), r. split_and!; [done..|].
    destruct (Hsum p Hin) as (A & _ & Hok & _). apply (Hsat s r), as_dict_lookup; [apply Hok|done].
  - intros [[Hex Hd]%andb_true_iff Hv%Nat.leb_le]%andb_true_iff ρ Hl Hsat.
    destruct (union_is_rectangle (first :: rest) (as_dict combined) (λ s, s ∈ varying) ρ) as (d & (p & Hp' & ->)%Hds & Hd').
    + done.
    + done.
    + done.
    + intros s routes Hs. apply Hunion. by apply as_dict_lookup.
    + intros d s r Hin Hr Hs. apply (proj1 Hdrop Hd d Hin s r Hr). by rewrite as_dict_keys, Hkeys in Hs.
    + intros s Hs. destruct (decide (s ∈ varying)) as [|Hnv]; [by left|right].
      assert (∀ d, d ∈ first :: rest → d !! s = first !! s) as Heq.
      { intros d [->|Hin]%elem_of_cons; [done|]. apply dec_stable. intros Hne. apply Hnv, Hvary.
        split; [by apply Hcommon, Hdom|by exists d]. }
      intros d d' Hin Hin'. by rewrite (Heq d), (Heq d').
    + intros s s' _ _. by apply at_most_one.
    + intros s. apply _.
    + by apply sat_as_dict.
    + destruct (Hsum p Hp') as (A & HA & Hok & _ & H2). apply Exists_exists. exists A. split; [done|].
      apply H2; [|done|by apply sat_as_dict; [apply Hok|]].
      change (exact p0 && forallb exact ps) with (forallb exact (p0 :: ps)) in Hex.
      rewrite forallb_forall in Hex. by apply Hex, list_elem_of_In.
Qed.
End summaries.
