(* ===== verification/JointProofs.v ===== *)
(** * Joint activation

    [_validate_joint_activation_paths]: the layering loop terminates because the nodes off
    every cycle of control and value dependencies are well founded, and the requirement
    computed for such a node summarises the route selections that activate it. *)

From Stdlib Require Import ZArith NArith Lia Bool String.
From stdpp Require Import prelude strings gmap sorting.
From S2P Require Import Prelude Identity Topology GraphDefinition ControlGraph ControlGraphProofs LevelProofs JoinPlans RouteProofs.

Set Default Goal Selector "!".
Open Scope nat_scope.

(** The tables the compiler passes to its control analyses, all over the same node ids. *)
Record tables (node_ids entries : list str) (activation_gates : ActivationGates) (data_dependencies : Successors)
    (conditional_targets : Conditionals) (successors : Successors) : Prop := {
  tab_closed : closed successors;
  tab_successors : ∀ n, n ∈ dom successors ↔ n ∈ node_ids;
  tab_gates : ∀ n, n ∈ dom activation_gates ↔ n ∈ node_ids;
  tab_data : ∀ n, n ∈ dom data_dependencies ↔ n ∈ node_ids;
  tab_conditional : ∀ n, n ∈ dom conditional_targets ↔ n ∈ node_ids;
  tab_entries : ∀ n, n ∈ entries → n ∈ node_ids;
  tab_entries_nodup : NoDup entries;
  (** Every gate source is a control predecessor, and a selected route is declared. *)
  tab_gate_edge : ∀ n gates (gate : RawGate) s route,
    activation_gates !! n = Some gates → gate ∈ gates → (s, route) ∈ gate →
    edge successors s n ∧ route_declared conditional_targets s route;
  tab_producer : ∀ n ds d, data_dependencies !! n = Some ds → d ∈ ds → d ∈ node_ids
}.

(* ------------------------------------------------------------------ *)
(** ** Layering *)

Section layers.
Context (D : Successors) (deps : Successors) (fixed : gset str).
Context (Hfixed : ∀ n, n ∈ fixed → ¬ variable_node D n).
Context (Hdeps : ∀ n, n ∈ fixed → ∃ ds, deps !! n = Some ds ∧ ds ⊆ fixed ∧ ∀ s, s ∈ ds → edge D s n).

(** Every node comes after what it needs. *)
Definition layered (l : list str) : Prop :=
  ∀ l1 n l2, l = l1 ++ n :: l2 → ∃ ds, deps !! n = Some ds ∧ ds ⊆ list_to_set l1.

Lemma some_ready (pending : gset str) (ordered : list str) :
  pending ≠ ∅ → fixed = pending ∪ list_to_set ordered →
  ∃ n ds, n ∈ pending ∧ deps !! n = Some ds ∧ ds ⊆ list_to_set ordered.
Proof using Hfixed Hdeps.
  intros Hne Hpart.
  destruct (decide (set_Exists (λ n, default ∅ (deps !! n) ⊆ list_to_set ordered) pending)) as [(n & Hn & Hsub)|Hno].
  { destruct (Hdeps n) as (ds & Hds & _); [set_solver|]. rewrite Hds in Hsub. by exists n, ds. }
  assert (∀ n, n ∈ pending → ∃ s, s ∈ pending ∧ edge D s n) as Hback.
  { intros n Hn. destruct (Hdeps n) as (ds & Hds & Hsub & Hedge); [set_solver|].
    destruct (decide (ds ⊆ list_to_set ordered)) as [Hin|Hout].
    - destruct Hno. exists n. by rewrite Hds.
    - destruct (set_choose_L (ds ∖ list_to_set ordered)) as [s [Hs Hns]%elem_of_difference].
      { intros E. apply Hout. set_solver. }
      exists s. split; [set_solver|by apply Hedge]. }
  assert (∀ k, ∃ e n, nsteps (edge D) k e n ∧ e ∈ pending ∧ n ∈ pending) as Hlong.
  { induction k as [|k (e & n & Hk & He & Hn)].
    - destruct (set_choose_L pending Hne) as [n Hn]. exists n, n. split; [apply nsteps_O|done].
    - destruct (Hback e He) as (s & Hs & Hse). exists s, n. split; [by eapply nsteps_l|done]. }
  destruct (Hlong (S (size (dom D)))) as (e & n & Hk & _ & Hn).
  destruct (ancestors D (S (size (dom D))) e n Hk) as (xs & Hsize & Hsub & _); [apply Hfixed; set_solver|].
  apply subseteq_size in Hsub. lia.
Qed.

Lemma layered_app l ready :
  layered l → (∀ n, n ∈ ready → ∃ ds, deps !! n = Some ds ∧ ds ⊆ list_to_set l) → layered (l ++ ready).
Proof using.
  clear -deps. intros Hl Hr l1 n l2 Heq. apply app_eq_app in Heq as (k & [[Hk1 Hk2]|[Hk1 Hk2]]).
  - destruct k as [|m k]; cbn in *.
    + destruct (Hr n) as (ds & Hds & Hsub); [rewrite <- Hk2; by left|]. exists ds. split; [done|].
      rewrite app_nil_r in Hk1. by subst l1.
    + injection Hk2 as -> ->. by apply (Hl l1 m k).
  - subst l1. destruct (Hr n) as (ds & Hds & Hsub); [rewrite Hk2; set_solver|].
    exists ds. split; [done|]. rewrite list_to_set_app_L. set_solver.
Qed.

Lemma order_loop_spec (fuel : nat) (pending : gset str) (ordered : list str) :
  fixed = pending ∪ list_to_set ordered → layered ordered → size pending < fuel →
  ∃ final, order_loop fuel deps pending ordered = Ok final ∧ layered final ∧ ∀ n, n ∈ final ↔ n ∈ fixed.
Proof using Hfixed Hdeps.
  revert pending ordered. induction fuel as [|fuel IH]; intros pending ordered Hpart Hlay Hfuel; [lia|].
  cbn [order_loop]. case_bool_decide as He.
  { exists ordered. split_and!; [done..|]. intros n. rewrite Hpart, He. set_solver. }
  destruct (select_spec (λ n, ∃ ds, deps !! n = Some ds ∧ ds ⊆ (list_to_set ordered : gset str)) (sorted_elements pending)
    (λ node_id, needed ← dict_get deps node_id;
       Ok (bool_decide (needed ⊆ (list_to_set ordered : gset str))))) as (ready & -> & Hready).
  { intros n Hn%sorted_elements_elem. destruct (Hdeps n) as (ds & Hds & _); [set_solver|].
    unfold dict_get. rewrite Hds. cbn. eexists. split; [done|]. rewrite bool_decide_eq_true. naive_solver. }
  cbn [mbind result_bind]. setoid_rewrite sorted_elements_elem in Hready. apply IH.
  - rewrite list_to_set_app_L. apply set_eq. intros n. rewrite Hpart, !elem_of_union, elem_of_difference, !elem_of_list_to_set.
    specialize (Hready n). destruct (decide (n ∈ ready)); naive_solver.
  - apply layered_app; [done|]. intros n [_ ?]%Hready. done.
  - destruct (some_ready pending ordered He Hpart) as (n & ds & Hn & Hds & Hsub).
    assert (size (pending ∖ list_to_set ready) < size pending); [|lia].
    apply subset_size. split; [set_solver|]. intros Hcontra.
    assert (n ∈ ready) by (apply Hready; eauto). specialize (Hcontra n Hn).
    apply elem_of_difference in Hcontra as [_ Hc]. by rewrite elem_of_list_to_set in Hc.
Qed.
End layers.

Section joint.
Context (node_ids entries : list str) (gates : ActivationGates) (data : Successors).
Context (cond : Conditionals) (successors : Successors).
Context (T : tables node_ids entries gates data cond successors).

Definition produces (d n : str) : Prop := ∃ ds, data !! n = Some ds ∧ d ∈ ds.

(** [n] is activated under the selection [ρ] of routes: START or one of its gates admits
    it, and the producers of its values are activated too. *)
Inductive active (ρ : str → str) : str → Prop :=
| active_entry n : n ∈ entries → (∀ d, produces d n → active ρ d) → active ρ n
| active_gate n gs (gate : RawGate) :
    gates !! n = Some gs → gate ∈ gs →
    (∀ s route, (s, route) ∈ gate → active ρ s) → (∀ s route, (s, route) ∈ gate → chosen ρ s route) →
    (∀ d, produces d n → active ρ d) → active ρ n.

Lemma copied_spec :
  ∃ copied, py_for_state node_ids ∅ (λ copied node_id,
      next ← dict_get successors node_id; Ok (<[node_id := next]> copied)) = Ok copied ∧ copied = successors.
Proof using T.
  destruct (py_for_state_total (λ dn (copied : Successors),
      ∀ n, copied !! n = if bool_decide (n ∈ dn) then successors !! n else None)
    (λ copied node_id, next ← dict_get successors node_id; Ok (<[node_id := next]> copied)) node_ids)
    with (st := ∅ : Successors) as (copied & -> & H).
  - intros dn x st Hx H. apply (tab_successors _ _ _ _ _ _ T), elem_of_dom in Hx as [ys Hys].
    unfold dict_get. rewrite Hys. cbn. eexists. split; [done|]. intros n. destruct (decide (x = n)) as [->|Hne].
    + rewrite lookup_insert_eq, bool_decide_true by set_solver. by rewrite Hys.
    + rewrite lookup_insert_ne, H by done. case_bool_decide; case_bool_decide; set_solver.
  - intros n. by rewrite lookup_empty, bool_decide_false by apply not_elem_of_nil.
  - exists copied. split; [done|]. apply map_eq. intros n. rewrite H. case_bool_decide as Hn; [done|].
    symmetry. apply not_elem_of_dom. by rewrite (tab_successors _ _ _ _ _ _ T).
Qed.

Lemma dependency_successors_spec :
  ∃ D, dependency_successors_of node_ids successors data = Ok D
    ∧ (∀ n, n ∈ dom D ↔ n ∈ node_ids)
    ∧ ∀ x y, edge D x y ↔ edge successors x y ∨ produces x y.
Proof using T.
  unfold dependency_successors_of. destruct copied_spec as (copied & -> & ->). cbn [mbind result_bind].
  set (adds := λ target (D : Successors) source,
    known ← dict_get D source; Ok (<[source := known ∪ {[target]}]> D)).
  destruct (py_for_state_total (λ dn (D : Successors), (∀ n, n ∈ dom D ↔ n ∈ node_ids)
      ∧ ∀ x y, edge D x y ↔ edge successors x y ∨ (y ∈ dn ∧ produces x y))
    (λ D target, sources ← dict_get data target; py_for_state (sorted_elements sources) D (adds target)) node_ids)
    with (st := successors) as (D & Hrun & Hd & He).
  - intros dn t D Ht [Hd He]. pose proof Ht as [sources Hs]%(tab_data _ _ _ _ _ _ T)%elem_of_dom.
    unfold dict_get at 1. rewrite Hs. cbn [mbind result_bind].
    destruct (py_for_state_total (λ dn' (D' : Successors), (∀ n, n ∈ dom D' ↔ n ∈ node_ids)
        ∧ ∀ x y, edge D' x y ↔ edge D x y ∨ (y = t ∧ x ∈ dn')) (adds t) (sorted_elements sources))
      with (st := D) as (D' & -> & Hd' & He').
    + intros dn' s D' Hin%sorted_elements_elem [Hd' He']. unfold adds.
      assert (s ∈ dom D') as [ys Hys]%elem_of_dom by (apply Hd'; by eapply (tab_producer _ _ _ _ _ _ T)).
      unfold dict_get. rewrite Hys. cbn. eexists. split; [done|]. split.
      * intros n. rewrite dom_insert_L, elem_of_union, elem_of_singleton, Hd'. split; [|auto].
        intros [->|?]; [|done]. apply Hd', elem_of_dom. by exists ys.
      * intros x y. trans (edge D' x y ∨ (x = s ∧ y = t)).
        -- unfold edge. setoid_rewrite lookup_insert_Some. split.
           ++ intros (zs & [[<- <-]|[Hne Hz]] & Hy); [|naive_solver].
              apply elem_of_union in Hy as [Hy| ->%elem_of_singleton]; [left; by exists ys|auto].
           ++ intros [(zs & Hz & Hy)|[-> ->]].
              ** destruct (decide (s = x)) as [->|Hne]; [|naive_solver]. simplify_eq.
                 eexists. split; [by left|]. by apply elem_of_union_l.
              ** eexists. split; [by left|]. by apply elem_of_union_r, elem_of_singleton.
        -- rewrite He', elem_of_app, list_elem_of_singleton. naive_solver.
    + split; [done|]. intros x y. rewrite elem_of_nil. tauto.
    + exists D'. split; [done|]. split; [done|]. intros x y. rewrite He', He, elem_of_app, list_elem_of_singleton.
      rewrite sorted_elements_elem. unfold produces. split; [|naive_solver].
      intros [[?|[? ?]]|[-> Hx]]; [auto|auto|]. right. split; [auto|]. by exists sources.
  - split; [exact (tab_successors _ _ _ _ _ _ T)|]. intros x y. rewrite elem_of_nil. tauto.
  - exists D. split; [done|]. split; [done|]. intros x y. rewrite He. split; [tauto|].
    intros [?|Hp]; [auto|]. right. split; [|done]. destruct Hp as (ds & Hds & _).
    apply (tab_data _ _ _ _ _ _ T), elem_of_dom. by exists ds.
Qed.

(* ------------------------------------------------------------------ *)
(** ** Requirements *)

Lemma entry_requirements_spec :
  ∃ p, entry_requirements_of entries cond = Ok p ∧ summary cond p (λ _, True).
Proof using T.
  unfold entry_requirements_of.
  destruct (mapM_total (λ entry, routes ← declared_routes cond entry; Ok (entry, routes))
    (λ e er, er.1 = e ∧ ∃ cts, cond !! e = Some cts ∧ er.2 = list_to_set cts.*1) entries) as (declared & -> & Hall).
  { intros e He. destruct (declared_spec cond e) as (cts & Hc & ->).
    - by apply (tab_conditional _ _ _ _ _ _ T), (tab_entries _ _ _ _ _ _ T).
    - cbn. eexists. split; [done|]. split; [done|]. by exists cts. }
  cbn [mbind result_bind]. eexists. split; [done|].
  assert (declared.*1 = entries) as Hkeys.
  { clear -Hall. induction Hall as [|e [e' r] es ds [He _] _ IH]; [done|]. cbn in *. by subst e'; f_equal. }
  assert (∀ s r, (s, r) ∈ List.filter (λ '(_, routes), negb (bool_decide (routes = ∅))) declared →
    ∃ cts, cond !! s = Some cts ∧ cts ≠ [] ∧ r = list_to_set cts.*1) as Hin.
  { intros s r Hs. apply list_elem_of_In, filter_In in Hs as [Hs%list_elem_of_In Hne%negb_true_iff%bool_decide_eq_false].
    apply list_elem_of_lookup in Hs as [i Hi]. destruct (Forall2_lookup_r _ _ _ _ _ Hall Hi) as (e & _ & He & cts & Hc & Hr).
    cbn in *. subst e r. exists cts. split_and!; [done| |done]. by intros ->. }
  split_and!; cbn.
  - split; cbn.
    + unfold proper. pose proof (tab_entries_nodup _ _ _ _ _ _ T) as Hnd. rewrite <- Hkeys in Hnd. clear -Hnd.
      induction declared as [|[e r] ds IH]; cbn in *; [done|]. apply NoDup_cons in Hnd as [He Hnd].
      case_match; cbn; [|by apply IH]. apply NoDup_cons. split; [|by apply IH].
      intros ([e' r'] & -> & Hin)%list_elem_of_fmap. apply list_elem_of_In, filter_In in Hin as [Hin%list_elem_of_In _].
      apply He. by apply (list_elem_of_fmap_2 fst _ (e', r')).
    + intros s ([s' r] & -> & (cts & Hc & Hne & _)%Hin)%list_elem_of_fmap. by exists cts.
  - intros ρ Hl _ s r (cts & Hc & Hne & ->)%Hin. apply elem_of_list_to_set. by apply (Hl s cts).
  - done.
Qed.

Lemma both_required_spec a d (A B : (str → str) → Prop) :
  summarises cond a A → summarises cond d B →
  summarises cond (alternative ← a; data_requirement ← d; merge_route_requirement_proofs [alternative; data_requirement])
    (λ ρ, A ρ ∧ B ρ).
Proof using.
  destruct a as [a|]; cbn; [|intros Ha _ ρ Hl [HA _]; by apply (Ha ρ)].
  destruct d as [d|]; cbn; [|intros _ Hd ρ Hl [_ HB]; by apply (Hd ρ)].
  intros Ha Hd. eapply summarises_iff, (merge_proofs_spec cond [a; d] [A; B]); [|constructor; [done|constructor; [done|constructor]]].
  intros ρ _. rewrite !Forall_cons, Forall_nil. tauto.
Qed.

(** What [n] needs before its requirement is computed. *)
Definition needs (n s : str) : Prop := feeds gates s n ∨ produces s n.

Lemma node_requirement_spec entry_requirements proofs n :
  summary cond entry_requirements (λ _, True) → n ∈ node_ids →
  (∀ s, needs n s → summary cond (proof_of proofs s) (λ ρ, active ρ s)) →
  ∃ o, node_requirement entries entry_requirements gates data cond proofs n = Ok o
    ∧ summarises cond o (λ ρ, active ρ n).
Proof using T.
  intros Hentry Hn Hneeds. unfold node_requirement.
  pose proof Hn as [gs Hgs]%(tab_gates _ _ _ _ _ _ T)%elem_of_dom.
  pose proof Hn as [ds Hds]%(tab_data _ _ _ _ _ _ T)%elem_of_dom.
  unfold dict_get. rewrite Hgs, Hds. cbn [mbind result_bind].
  set (by_gate := λ (gate : RawGate) ρ, ∀ s route, (s, route) ∈ gate → active ρ s ∧ chosen ρ s route).
  destruct (mapM_total (λ gate, gate_route_requirements gate proofs cond)
      (λ gate o, summarises cond o (by_gate gate)) gs) as (os & -> & Hos).
  { intros gate Hgate. apply (gate_requirements_spec cond proofs gate (λ s ρ, active ρ s)). intros s route Hs.
    split; [by eapply (tab_gate_edge _ _ _ _ _ _ T)|]. apply Hneeds. left. by exists gs, gate, route. }
  cbn [mbind result_bind].
  set (alternatives := (if mem n entries then _ else _) ++ os).
  set (As := (if mem n entries then [λ _ : str → str, True] else []) ++ (by_gate <$> gs)).
  assert (Forall2 (summarises cond) alternatives As) as Halts.
  { apply Forall2_app; [destruct (mem n entries); [constructor; [done|constructor]|constructor]|]. apply Forall2_fmap_r.
    clear -Hos. induction Hos; by constructor. }
  destruct (gate_requirements_spec cond proofs ((λ source, (source, None)) <$> sorted_elements ds) (λ s ρ, active ρ s))
    as (data_requirement & -> & Hdata).
  { intros s route (s' & [= -> ->] & Hs%sorted_elements_elem)%list_elem_of_fmap.
    split; [split; [|done]|apply Hneeds; right; by exists ds].
    apply (tab_conditional _ _ _ _ _ _ T). by eapply (tab_producer _ _ _ _ _ _ T). }
  cbn [mbind result_bind].
  assert (∀ ρ, (∀ s route, (s, route) ∈ (λ source, (source, None)) <$> sorted_elements ds → active ρ s ∧ chosen ρ s route)
    ↔ ∀ d, produces d n → active ρ d) as Hprod.
  { intros ρ. split.
    - intros H d (ds' & Hds' & Hd). simplify_eq. apply (H d None). apply (list_elem_of_fmap_2 (λ source : str, (source, None))).
      by apply sorted_elements_elem.
    - intros H s route (s' & [= -> ->] & Hs%sorted_elements_elem)%list_elem_of_fmap. split; [|done]. apply H. by exists ds. }
  assert (∀ ρ, Exists (λ A : (str → str) → Prop, A ρ) As ∧ (∀ d, produces d n → active ρ d) ↔ active ρ n) as Hactive.
  { intros ρ. unfold As. rewrite Exists_app, Exists_fmap, !Exists_exists. split.
    - intros [[(A & HA & _)|(gate & Hgate & Hg)] Hd].
      + unfold mem in HA. case_bool_decide; [|by apply elem_of_nil in HA]. by apply active_entry.
      + eapply active_gate; [done|done| | |done]; intros s route Hs; by apply (Hg s route).
    - inversion 1 as [? He Hd|? gs' gate Hgs' Hgate H1 H2 Hd]; subst; (split; [|done]).
      + left. exists (λ _, True). split; [|done]. unfold mem. rewrite bool_decide_true by done. by left.
      + simplify_eq. right. exists gate. split; [done|]. intros s route Hs. eauto. }
  destruct (negb (bool_decide (ds = ∅)) && negb (is_nil alternatives)) eqn:Hb.
  - destruct (alternatives_spec cond
        ((λ alternative : option RouteProof, alternative ← alternative; data_requirement ← data_requirement;
           merge_route_requirement_proofs [alternative; data_requirement]) <$> alternatives)
        ((λ A ρ, A ρ ∧ ∀ d, produces d n → active ρ d) <$> As)) as (o & -> & Ho).
    { apply Forall2_fmap. eapply Forall2_impl; [exact Halts|]. intros a A Ha.
      apply both_required_spec; [done|]. eapply summarises_iff; [|exact Hdata]. intros ρ _. apply Hprod. }
    exists o. split; [done|]. eapply summarises_iff; [|exact Ho]. intros ρ _. rewrite <- Hactive, Exists_fmap.
    rewrite !Exists_exists. cbn. split.
    + intros (A & HA & HAρ & Hd). split; [|done]. by exists A.
    + intros [(A & HA & HAρ) Hd]. by exists A.
  - destruct (alternatives_spec cond alternatives As Halts) as (o & -> & Ho).
    exists o. split; [done|]. eapply summarises_iff; [|exact Ho]. intros ρ _. rewrite <- Hactive.
    apply andb_false_iff in Hb as [Hb|Hb]; apply negb_false_iff in Hb.
    + apply bool_decide_eq_true in Hb. split; [|tauto]. intros HA. split; [done|].
      intros d (ds' & Hds' & Hd). simplify_eq. set_solver.
    + destruct alternatives; [|done]. apply Forall2_nil_inv_l in Halts. split; [|tauto].
      rewrite Halts. intros HE. by apply Exists_nil in HE.
Qed.

(** Nodes fed by a cycle of control successors and value dependencies. *)
Definition depends (x y : str) : Prop := edge successors x y ∨ produces x y.
Definition circular (n : str) : Prop := ∃ c, tc depends c c ∧ rtc depends c n.

Definition summarised (proofs : gmap str RouteProof) (n : str) : Prop :=
  ∃ p, proofs !! n = Some p ∧ summary cond p (λ ρ, active ρ n).

(** The ordered pass: every node is summarised, or the first that no selection activates is named. *)
Lemma requirements_pass (deps : Successors) entry_requirements ordered :
  summary cond entry_requirements (λ _, True) →
  (∀ n, n ∈ ordered → n ∈ node_ids ∧ ∃ ds, deps !! n = Some ds ∧ ∀ s, needs n s → s ∈ ds) →
  layered deps ordered →
  ∀ rest dn proofs, ordered = dn ++ rest → (∀ n, n ∈ dom proofs ↔ n ∈ dn) → (∀ n, n ∈ dn → summarised proofs n) →
  let run := py_for_state rest proofs (λ proofs node_id,
      requirement ← node_requirement entries entry_requirements gates data cond proofs node_id;
      match requirement with
      | None => Raise (Exn GraphValidationError "node has no jointly satisfiable activation path")
      | Some requirement => Ok (<[node_id := requirement]> proofs)
      end) in
  (∃ final, run = Ok final ∧ (∀ n, n ∈ dom final ↔ n ∈ ordered) ∧ ∀ n, n ∈ ordered → summarised final n)
  ∨ (∃ n, n ∈ ordered ∧ run = Raise (Exn GraphValidationError "node has no jointly satisfiable activation path")
       ∧ ∀ ρ, legal cond ρ → ¬ active ρ n).
Proof using T.
  intros Hentry Hord Hlay. induction rest as [|n rest IH]; intros dn proofs Heq Hdom Hall; cbn.
  { left. exists proofs. rewrite app_nil_r in Heq. subst dn. done. }
  destruct (Hord n) as (Hn & ds & Hds & Hneeds); [rewrite Heq; set_solver|].
  destruct (node_requirement_spec entry_requirements proofs n Hentry Hn) as (o & -> & Ho).
  { intros s Hs%Hneeds. destruct (Hlay dn n rest Heq) as (ds' & Hds' & Hsub). simplify_eq.
    apply Hsub, elem_of_list_to_set in Hs. destruct (Hall s Hs) as (p & Hp & Hsum). unfold proof_of. by rewrite Hp. }
  cbn. destruct o as [p|]; cbn in Ho.
  - apply (IH (dn ++ [n])); [by rewrite <- app_assoc| |].
    + intros m. rewrite dom_insert_L, elem_of_union, elem_of_singleton, Hdom, elem_of_app, list_elem_of_singleton. tauto.
    + intros m Hm. unfold summarised. destruct (decide (n = m)) as [->|Hne].
      * exists p. by rewrite lookup_insert_eq.
      * rewrite lookup_insert_ne by done. apply Hall. apply elem_of_app in Hm as [?| ->%list_elem_of_singleton]; done.
  - right. exists n. split_and!; [rewrite Heq; set_solver|done|done].
Qed.

Lemma joint_paths_spec :
  let run := validate_joint_activation_paths node_ids entries gates data cond successors in
  (∃ proofs, run = Ok proofs ∧ (∀ n, n ∈ dom proofs ↔ n ∈ node_ids ∧ ¬ circular n)
     ∧ ∀ n p, proofs !! n = Some p → summary cond p (λ ρ, active ρ n))
  ∨ (∃ n, n ∈ node_ids ∧ run = Raise (Exn GraphValidationError "node has no jointly satisfiable activation path")
       ∧ ∀ ρ, legal cond ρ → ¬ active ρ n).
Proof using T.
  cbn. unfold validate_joint_activation_paths.
  destruct dependency_successors_spec as (D & -> & HD & HDe). cbn [mbind result_bind].
  assert (closed D) as HDc.
  { intros x y [Hxy|(ds & Hds & _)]%HDe; apply HD.
    - apply (tab_successors _ _ _ _ _ _ T). by eapply (tab_closed _ _ _ _ _ _ T).
    - apply (tab_data _ _ _ _ _ _ T), elem_of_dom. by exists ds. }
  destruct (cycle_reachable_nodes_spec D HDc node_ids) as (vars & -> & Hvars); [intros n; symmetry; apply HD|].
  cbn [mbind result_bind].
  assert (∀ n, variable_node D n ↔ circular n) as Hcirc.
  { assert (∀ x y, rtc (edge D) x y ↔ rtc depends x y) as Hr.
    { intros x y. split; apply rtc_subrel; intros; by apply HDe. }
    assert (∀ x y, tc (edge D) x y ↔ tc depends x y) as Ht.
    { intros x y. split; apply (tc_congruence id); intros; by apply HDe. }
    intros n. unfold variable_node, circular. by setoid_rewrite Hr; setoid_rewrite Ht. }
  set (fixed := list_to_set _).
  assert (∀ n, n ∈ fixed ↔ n ∈ node_ids ∧ ¬ circular n) as Hfix.
  { intros n. unfold fixed. rewrite elem_of_list_to_set, list_elem_of_In, filter_In, <- list_elem_of_In.
    rewrite negb_true_iff, bool_decide_eq_false, Hvars, Hcirc. done. }
  assert (∀ n s, n ∈ fixed → needs n s → s ∈ fixed ∧ edge D s n) as Hneed.
  { intros n s [Hn Hc]%Hfix Hs. assert (depends s n) as Hdep.
    { destruct Hs as [(gs & gate & route & Hgs & Hg & Hin)|?]; [left|by right]. by eapply (tab_gate_edge _ _ _ _ _ _ T). }
    split; [|by apply HDe]. apply Hfix. split.
    - apply HD. assert (edge D s n) as He by by apply HDe. by eapply edge_dom.
    - intros (c & Hcc & Hcs). apply Hc. exists c. split; [done|]. by eapply rtc_r. }
  destruct (py_for_state_total (λ dn (deps : Successors), ∀ n, n ∈ dn → ∃ ds, deps !! n = Some ds
      ∧ ds ⊆ fixed ∧ ∀ s, s ∈ ds ↔ needs n s)
    (λ dependencies node_id, needed ← fixed_dependencies fixed gates data node_id;
       Ok (<[node_id := needed]> dependencies)) (sorted_elements fixed))
    with (st := ∅ : Successors) as (deps & -> & Hdeps).
  { intros dn n st Hn%sorted_elements_elem Hst. pose proof Hn as [Hn' _]%Hfix. unfold fixed_dependencies.
    pose proof Hn' as [gs Hgs]%(tab_gates _ _ _ _ _ _ T)%elem_of_dom.
    pose proof Hn' as [ds Hds]%(tab_data _ _ _ _ _ _ T)%elem_of_dom.
    unfold dict_get. rewrite Hgs, Hds. cbn. eexists. split; [done|].
    intros m Hm. destruct (decide (n = m)) as [->|Hne].
    - rewrite lookup_insert_eq. eexists. split; [done|]. split; [apply intersection_subseteq_r|].
      intros s. rewrite elem_of_intersection, elem_of_union, elem_of_list_to_set, list_elem_of_In, in_concat.
      setoid_rewrite <- list_elem_of_In. split.
      + intros [[(xs & (gate & -> & Hg)%list_elem_of_fmap & ([s' route] & -> & Hs)%list_elem_of_fmap)|Hs] _].
        * left. by exists gs, gate, route.
        * right. by exists ds.
      + intros Hs. split; [|by apply (Hneed m)]. destruct Hs as [(gs' & gate & route & Hgs' & Hg & Hs)|(ds' & Hds' & Hs)]; simplify_eq.
        * left. exists (gate.*1). split; [by apply (list_elem_of_fmap_2 (λ g : RawGate, g.*1))|].
          by apply (list_elem_of_fmap_2 fst _ (s, route)).
        * by right.
    - rewrite lookup_insert_ne by done. apply Hst. apply elem_of_app in Hm as [?| ->%list_elem_of_singleton]; done. }
  { by intros n ?%elem_of_nil. }
  cbn [mbind result_bind].
  destruct (order_loop_spec D deps fixed) with (fuel := 1 + size fixed) (pending := fixed) (ordered := @nil str)
    as (ordered & -> & Hlay & Hord).
  - intros n [_ Hn]%Hfix. by rewrite Hcirc.
  - intros n Hn. destruct (Hdeps n) as (ds & Hds & Hsub & Hs); [by apply sorted_elements_elem|].
    exists ds. split_and!; [done..|]. intros s ?%Hs. by apply Hneed.
  - cbn. set_solver.
  - intros l1 n l2 Hnil. by destruct l1.
  - lia.
  - cbn [mbind result_bind]. destruct entry_requirements_spec as (er & -> & Her). cbn [mbind result_bind].
    destruct (requirements_pass deps er ordered Her) with (rest := ordered) (dn := @nil str) (proofs := ∅ : gmap str RouteProof)
      as [(final & -> & Hd & Hall)|(n & Hn & -> & Hno)].
    + intros n Hn%Hord. destruct (Hdeps n) as (ds & Hds & _ & Hs); [by apply sorted_elements_elem|].
      split; [by apply Hfix|]. exists ds. split; [done|]. intros s. apply Hs.
    + done.
    + done.
    + intros n. rewrite dom_empty_L. set_solver.
    + by intros n ?%elem_of_nil.
    + left. exists final. split_and!; [done| |].
      * intros n. by rewrite Hd, Hord, Hfix.
      * intros n p Hp. destruct (Hall n) as (p' & Hp' & Hs); [|by simplify_eq].
        apply Hd, elem_of_dom. by exists p.
    + right. exists n. split_and!; [by apply Hfix, Hord|done..].
Qed.
End joint.

(* ------------------------------------------------------------------ *)
(** * Compiled Join plans

    A Join the compiler accepts never waits for a source that another of its sources
    outruns: either its sources form one activation cohort, or each is activated under
    exactly the same route selections and the offsets lead from each source's only level
    to one target level. *)

Section plans.
Context (node_ids entries : list str) (gates : ActivationGates) (data : Successors).
Context (cond : Conditionals) (successors : Successors).
Context (T : tables node_ids entries gates data cond successors).
Context (proofs : gmap str RouteProof).
Context (Hproofs : ∀ n p, proofs !! n = Some p → summary cond p (λ ρ, active entries gates data ρ n)).
Context (levels : gmap str Z).
Context (Hlevels : ∀ n l, levels !! n = Some l ↔ n ∈ node_ids ∧ ¬ variable_node successors n
  ∧ ∃ k, l = Z.of_nat k ∧ ∀ k', depth successors entries n k' ↔ k' = k).
Context (repeatable : gset str) (Hrep : ∀ n, n ∈ repeatable ↔ repeats entries gates successors n).

(** The sources are activated by START or not, and by the same gates, alike. *)
Definition cohort (sources : list str) : Prop :=
  ∀ s s', s ∈ sources → s' ∈ sources →
    (s ∈ entries ↔ s' ∈ entries) ∧ ∃ gs gs', gates !! s = Some gs ∧ gates !! s' = Some gs' ∧ gs ≡ₚ gs'.

(** Every selection activates all the sources or none. *)
Definition together (sources : list str) : Prop :=
  ∀ ρ s s', legal cond ρ → s ∈ sources → s' ∈ sources → active entries gates data ρ s → active entries gates data ρ s'.

(** The offsets lead from the only depth of each source to one level. *)
Definition levelled (offsets : list (str * Z)) : Prop :=
  ∃ target : Z, ∀ s offset, (s, offset) ∈ offsets →
    ∃ k, (∀ k', depth successors entries s k' ↔ k' = k) ∧ (Z.of_nat k + offset = target)%Z.

Record plan_good (sources : list str) (target : str) (plan : CompiledJoin) : Prop := {
  pg_identity : GraphJoinIdentity_new sources target = Ok (cj_identity plan);
  pg_constructed : CompiledJoin_new (cj_identity plan) (cj_source_target_offsets plan) = Ok plan;
  pg_agree :
    ((∀ s, s ∈ sources → repeats entries gates successors s) ∧ cohort sources
       ∧ cj_source_target_offsets plan = (λ s, (s, 1%Z)) <$> sources)
    ∨ ((∀ s, s ∈ sources → ¬ repeats entries gates successors s) ∧ together sources
       ∧ levelled (cj_source_target_offsets plan))
}.

Lemma all_equal {A} `{EqDecision A} (xs : list A) :
  length (remove_dups xs) = 1 → ∀ x y, x ∈ xs → y ∈ xs → x = y.
Proof using.
  clear. intros H x y Hx Hy. apply elem_of_remove_dups in Hx, Hy. apply (at_most_one (remove_dups xs)); [lia|done..].
Qed.

Lemma mapM_Ok_inv {A B} (f : A → result B) xs ys : mapM f xs = Ok ys → Forall2 (λ x y, f x = Ok y) xs ys.
Proof using.
  clear. revert ys. induction xs as [|x xs IH]; intros ys; cbn; [intros [= <-]; constructor|].
  intros (y & Hy & (ys' & Hys & [= <-])%bind_Ok)%bind_Ok. constructor; [done|]. by apply IH.
Qed.

Lemma one_shot_levelled sources rs offsets :
  one_shot_offsets sources rs levels = Ok offsets → levelled offsets.
Proof using Hlevels.
  unfold one_shot_offsets. intros (u & _ & (T' & _ & H)%bind_Ok)%bind_Ok. apply mapM_Ok_inv in H.
  exists T'. intros s off Hin. apply list_elem_of_lookup in Hin as [i Hi].
  destruct (Forall2_lookup_r _ _ _ _ _ H Hi) as (s' & _ & (l & Hl & [= -> <-])%bind_Ok).
  unfold dict_get in Hl. destruct (levels !! s) as [l'|] eqn:E; [|done]. injection Hl as ->.
  apply Hlevels in E as (_ & _ & k & -> & Hk). exists k. split; [done|]. lia.
Qed.

Lemma one_shot_together sources rs offsets :
  mapM (λ source, source_route_requirements source None proofs cond) sources = Ok rs →
  (∀ s, s ∈ sources → s ∈ dom cond) →
  one_shot_offsets sources rs levels = Ok offsets → together sources.
Proof using Hproofs.
  intros Hrs%mapM_Ok_inv Hdom. unfold one_shot_offsets.
  intros (u & [Hex Hone]%raise_if_Ok%orb_false_iff & _)%bind_Ok.
  apply negb_false_iff in Hex, Hone. apply Nat.eqb_eq in Hone. rewrite forallb_forall in Hex.
  assert (∀ s, s ∈ sources → ∃ p, p ∈ rs ∧ ∀ ρ, legal cond ρ → sat ρ (requirements p) ↔ active entries gates data ρ s) as Hs.
  { intros s Hin. apply list_elem_of_lookup in Hin as [i Hi].
    destruct (Forall2_lookup_l _ _ _ _ _ Hrs Hi) as (p & Hp & Hsrc).
    assert (p ∈ rs) as Hpr by by eapply list_elem_of_lookup_2. exists p. split; [done|].
    pose proof (Hex p ltac:(by apply list_elem_of_In)) as Hpe.
    set (A := λ ρ, proofs !! s ≠ None → active entries gates data ρ s).
    assert (summary cond (proof_of proofs s) A) as Hsum.
    { unfold proof_of, A. destruct (proofs !! s) as [q|] eqn:E; cbn.
      - destruct (Hproofs s q E) as (H1 & H2 & H3). split_and!; [done|intros; apply H2; [done|auto]|auto].
      - split_and!; [split; cbn; [constructor|by intros ? ?%elem_of_nil]|by intros ρ _ _ ? ? ?%elem_of_nil|done]. }
    destruct (source_requirements_spec cond proofs s None A) as (p' & Hp' & Hexact & _ & Hsat); [|done|].
    { split; [|done]. apply Hdom. by eapply list_elem_of_lookup_2. }
    rewrite Hsrc in Hp'. injection Hp' as <-. specialize (Hsat eq_refl). intros ρ Hl. rewrite Hsat by done.
    unfold proof_of in *. destruct (proofs !! s) as [q|] eqn:E; rewrite ?E in Hexact; cbn in *; [|congruence].
    destruct (Hproofs s q E) as (_ & H2 & H3). split; [apply H3; [congruence|done]|by apply H2]. }
  intros ρ s s' Hl (p & Hp & Hps)%Hs (p' & Hp' & Hps')%Hs Ha. apply Hps'; [done|].
  rewrite <- (all_equal rs Hone p p' Hp Hp'). by apply Hps.
Qed.

Lemma cohort_offsets_spec sources repeated offsets :
  cohort_offsets sources repeated entries gates = Ok offsets →
  length repeated = length sources ∧ cohort sources ∧ offsets = (λ s, (s, 1%Z)) <$> sources.
Proof using.
  unfold cohort_offsets. intros (sigs & Hsigs%mapM_Ok_inv & (u & [Hlen Hone]%raise_if_Ok%orb_false_iff & [= <-])%bind_Ok)%bind_Ok.
  apply negb_false_iff, Nat.eqb_eq in Hlen, Hone. split_and!; [done| |done].
  assert (∀ s, s ∈ sources → ∃ gs, gates !! s = Some gs
    ∧ (mem s entries, sorted_key (λ gate : RawGate, selection_key <$> gate) gs) ∈ sigs) as Hs.
  { intros s Hin. apply list_elem_of_lookup in Hin as [i Hi].
    destruct (Forall2_lookup_l _ _ _ _ _ Hsigs Hi) as (sig & Hsig & (gs & Hgs & [= <-])%bind_Ok).
    unfold dict_get in Hgs. destruct (gates !! s) as [gs'|]; [|done]. injection Hgs as ->. exists gs.
    split; [done|]. by eapply list_elem_of_lookup_2. }
  intros s s' (gs & Hgs & H1)%Hs (gs' & Hgs' & H2)%Hs.
  pose proof (all_equal sigs Hone _ _ H1 H2) as [= Hm Hk]. split.
  - unfold mem in Hm. rewrite <- (bool_decide_eq_true (s ∈ entries)), Hm. apply bool_decide_eq_true.
  - exists gs, gs'. split_and!; [done..|]. unfold sorted_key in Hk.
    etrans; [symmetry; apply sort_by_perm|]. rewrite Hk. apply sort_by_perm.
Qed.

Lemma filter_all {A} (f : A → bool) xs : length (List.filter f xs) = length xs → ∀ x, x ∈ xs → f x = true.
Proof using.
  clear. induction xs as [|x xs IH]; cbn; [by intros _ ? ?%elem_of_nil|]. intros Hlen y Hy.
  pose proof (filter_length_le f xs) as Hle. destruct (f x) eqn:E; cbn in Hlen; [|lia].
  apply elem_of_cons in Hy as [->|Hy]; [done|]. apply IH; [lia|done].
Qed.

Lemma compile_join_good sources target plan :
  (∀ s, s ∈ sources → s ∈ node_ids) →
  compile_join entries gates repeatable proofs cond levels (sources, target) = Ok plan →
  plan_good sources target plan.
Proof using T Hproofs Hlevels Hrep.
  intros Hsrc. unfold compile_join.
  intros (joint & _ & (u & _ & (rs & Hrs & (offsets & Hoff & (identity & Hid & Hnew)%bind_Ok)%bind_Ok)%bind_Ok)%bind_Ok)%bind_Ok.
  assert (plan = mkCompiledJoin identity offsets) as ->.
  { revert Hnew. unfold CompiledJoin_new. intros (? & _ & (? & _ & [= <-])%bind_Ok)%bind_Ok. done. }
  split; cbn; [done..|].
  destruct (is_nil _) eqn:Hnil.
  - right. split_and!; [|eapply one_shot_together; [done| |done]|by eapply one_shot_levelled].
    + intros s Hs Hr%Hrep. destruct (List.filter _ sources) as [|x xs] eqn:E; [|done].
      assert (s ∈ List.filter (λ source, bool_decide (source ∈ repeatable)) sources) as Hin; [|rewrite E in Hin; by apply elem_of_nil in Hin].
      apply list_elem_of_In, filter_In. split; [by apply list_elem_of_In|by apply bool_decide_eq_true].
    + intros s Hs. apply (tab_conditional _ _ _ _ _ _ T). auto.
  - left. destruct (cohort_offsets_spec _ _ _ Hoff) as (Hlen & Hc & ->). split_and!; [|done|done].
    intros s Hs. apply Hrep. by apply (filter_all _ _ Hlen), bool_decide_eq_true in Hs.
Qed.
End plans.
