(* ===== verification/ControlTheorems.v ===== *)
(** * Joins agree and joint activation is decided

    The theorems about the Join plans and the joint-activation analysis of the compiler, and
    the small control graph on which they are evaluated: [e] starts [a] and [b], which join
    into [j]; [j] selects route [p] to [q], or route [r] to the end. *)

From Stdlib Require Import ZArith NArith Lia Bool String.
From stdpp Require Import prelude strings gmap sorting.
From S2P Require Import Prelude Identity Topology GraphDefinition ControlGraph ControlGraphProofs LevelProofs JoinPlans RouteProofs JointProofs.

Set Default Goal Selector "!".
Open Scope nat_scope.

Definition na : str := lit "a".
Definition nb : str := lit "b".
Definition ne : str := lit "e".
Definition nj : str := lit "j".
Definition nq : str := lit "q".

Definition demo_ids : list str := [na; nb; ne; nj; nq].
Definition demo_entries : list str := [ne].
Definition demo_joins : list (list str * str) := [([na; nb], nj)].

(** Before and after the Join edges are added. *)
Definition demo_static : Successors := {[na := ∅; nb := ∅; ne := {[na; nb]}; nj := {[nq]}; nq := ∅]}.
Definition demo_successors : Successors := {[na := {[nj]}; nb := {[nj]}; ne := {[na; nb]}; nj := {[nq]}; nq := ∅]}.
Definition demo_gates : ActivationGates :=
  {[na := [[(ne, None)]]; nb := [[(ne, None)]]; ne := []; nj := [[(na, None); (nb, None)]];
    nq := [[(nj, Some (lit "p"))]]]}.
Definition demo_data : Successors := {[na := ∅; nb := ∅; ne := ∅; nj := {[na]}; nq := {[ne]}]}.
Definition demo_conditional : Conditionals :=
  {[na := []; nb := []; ne := []; nj := [(lit "p", nq); (lit "r", END)]; nq := []]}.

(** The conditions on tables are decidable. *)
#[export] Instance edge_dec (successors : Successors) x y : Decision (edge successors x y).
Proof.
  refine (cast_if (decide (y ∈ default ∅ (successors !! x)))).
  - destruct (successors !! x) as [ys|] eqn:E; [by exists ys|set_solver].
  - intros (ys & Hys & Hy). by rewrite Hys in *.
Defined.

#[export] Instance conditional_dec (cond : Conditionals) s : Decision (conditional cond s).
Proof.
  refine (cast_if (decide (default [] (cond !! s) ≠ []))).
  - destruct (cond !! s) as [cts|] eqn:E; [by exists cts|done].
  - intros (cts & Hc & Hne). by rewrite Hc in *.
Defined.

#[export] Instance route_declared_dec (cond : Conditionals) s route : Decision (route_declared cond s route).
Proof. unfold route_declared. apply _. Defined.

Definition closed_table (successors : Successors) : Prop := map_Forall (λ _ ys, ys ⊆ dom successors) successors.

Lemma closed_by_table successors : closed_table successors → closed successors.
Proof. intros H x y (ys & Hys & Hy). by apply (H x ys Hys). Qed.

Definition gates_table (gates : ActivationGates) (cond : Conditionals) (successors : Successors) : Prop :=
  map_Forall (λ n gs, Forall (λ gate : RawGate,
    Forall (λ sr, edge successors sr.1 n ∧ route_declared cond sr.1 sr.2) gate) gs) gates.

#[export] Instance closed_table_dec successors : Decision (closed_table successors).
Proof. unfold closed_table. apply _. Defined.
#[export] Instance gates_table_dec gates cond successors : Decision (gates_table gates cond successors).
Proof. unfold gates_table. apply _. Defined.

Lemma dom_as_ids {A} (ids : list str) (d : gmap str A) : dom d = (list_to_set ids : gset str) → ∀ n, n ∈ dom d ↔ n ∈ ids.
Proof. intros -> n. apply elem_of_list_to_set. Qed.

Lemma tables_decided ids entries gates data cond successors :
  closed_table successors → gates_table gates cond successors →
  map_Forall (λ _ ds, ds ⊆ (list_to_set ids : gset str)) data →
  dom successors = (list_to_set ids : gset str) → dom gates = (list_to_set ids : gset str) →
  dom data = (list_to_set ids : gset str) → dom cond = (list_to_set ids : gset str) →
  Forall (λ n, n ∈ ids) entries → NoDup entries →
  tables ids entries gates data cond successors.
Proof.
  intros Hc Hg Hp ? ? ? ? He Hnd. split; try by apply dom_as_ids.
  - by apply closed_by_table.
  - by apply Forall_forall.
  - done.
  - intros n gs gate s route Hn Hgate Hs. pose proof (Hg n gs Hn) as Hf. cbn in Hf.
    rewrite Forall_forall in Hf. specialize (Hf gate Hgate). rewrite Forall_forall in Hf. exact (Hf (s, route) Hs).
  - intros n ds d Hn Hd. by apply (Hp n ds Hn), elem_of_list_to_set in Hd.
Qed.

Lemma demo_tables : tables demo_ids demo_entries demo_gates demo_data demo_conditional demo_successors.
Proof.
  apply tables_decided; try (apply (bool_decide_unpack _); by vm_compute); by vm_compute.
Qed.

Lemma demo_static_closed : closed demo_static.
Proof. apply closed_by_table, (bool_decide_unpack _). by vm_compute. Qed.

(* ------------------------------------------------------------------ *)
(** * What the compiler's control analyses compute

    The analyses of [ControlGraph] and [JoinPlans] against their declarative readings,
    each evaluated on the graph above. *)

(** The Join-aware reachability pass returns, and the nodes it marks are exactly the
    entries, their successors, and the targets of Joins all of whose sources are marked;
    so the compiler rejects a graph as containing unreachable nodes exactly when it does. *)
Lemma reachable_exact (successors : Successors) (entries : list str) (joins : list (list str * str)) :
  closed successors → (∀ n, n ∈ entries → n ∈ dom successors) →
  (∀ sources target, (sources, target) ∈ joins → target ≠ END → target ∈ dom successors) →
  ∃ nodes, reachable_nodes entries successors joins = Ok nodes
    ∧ ∀ n, n ∈ nodes ↔ controlled successors entries joins n.
Proof. intros. by apply reachable_nodes_spec. Qed.

Lemma demo_joins_known sources target :
  (sources, target) ∈ demo_joins → target ≠ END → target ∈ dom demo_static.
Proof.
  intros [= _ ->]%list_elem_of_singleton _. apply (bool_decide_unpack _). by vm_compute.
Qed.

(** A node of a cycle from which no terminal gate's source can be reached. *)
Definition trapped (successors : Successors) (gates : list (gset str)) (n : str) : Prop :=
  tc (edge successors) n n ∧ ∀ gate t, gate ∈ gates → t ∈ gate → t ∈ dom successors → ¬ rtc (edge successors) n t.

Lemma terminal_sources_elem (gates : list (gset str)) t :
  t ∈ concat (sorted_elements <$> gates) ↔ ∃ gate, gate ∈ gates ∧ t ∈ gate.
Proof.
  rewrite list_elem_of_In, in_concat. setoid_rewrite <- list_elem_of_In. setoid_rewrite list_elem_of_fmap. split.
  - intros (xs & (gate & -> & Hg) & Ht%sorted_elements_elem). by exists gate.
  - intros (gate & Hg & Ht). exists (sorted_elements gate). split; [by exists gate|by apply sorted_elements_elem].
Qed.

Lemma stuck_spec (successors : Successors) (gates : list (gset str)) (cyclic : gset str) :
  closed successors → (∀ n, n ∈ cyclic ↔ tc (edge successors) n n) → cyclic ≠ ∅ →
  let terminal_sources := concat (sorted_elements <$> gates) in
  ∃ b, (if is_nil terminal_sources then Ok true else
    any_of (sorted_elements cyclic) (λ node_id,
      exits ← any_of terminal_sources (λ terminal, can_reach node_id terminal successors);
      Ok (negb exits))) = Ok b ∧ (b = true ↔ ∃ n, trapped successors gates n).
Proof.
  intros Hclosed Hcyc Hne terminal_sources.
  assert (∀ t, t ∈ terminal_sources ↔ ∃ gate, gate ∈ gates ∧ t ∈ gate) as Hts by apply terminal_sources_elem.
  destruct (is_nil terminal_sources) eqn:Hnil.
  - exists true. split; [done|]. split; [intros _|done]. destruct (set_choose_L cyclic Hne) as [n Hn].
    exists n. split; [by apply Hcyc|]. intros gate t Hg Ht. assert (t ∈ terminal_sources) as Hin by (apply Hts; eauto).
    destruct terminal_sources; [by apply elem_of_nil in Hin|done].
  - destruct (any_of_spec (trapped successors gates) (sorted_elements cyclic) (λ node_id,
      exits ← any_of terminal_sources (λ terminal, can_reach node_id terminal successors); Ok (negb exits)))
      as (b & -> & Hb).
    + intros n Hn%sorted_elements_elem%Hcyc.
      destruct (any_of_spec (λ t, t ∈ dom successors ∧ rtc (edge successors) n t) terminal_sources
        (λ terminal, can_reach n terminal successors)) as (b & -> & Hb).
      { intros t _. destruct (can_reach_spec successors Hclosed n t) as (b & -> & Hb). exists b. split; [done|].
        rewrite Hb. split; [tauto|]. intros ?. split; [by eapply tc_dom|done]. }
      cbn. eexists. split; [done|]. rewrite negb_true_iff, <- not_true_iff_false, Hb. unfold trapped.
      setoid_rewrite Hts. naive_solver.
    + exists b. split; [done|]. rewrite Hb. setoid_rewrite sorted_elements_elem. split; [naive_solver|].
      intros (n & Hn). exists n. split; [by apply Hcyc, Hn|done].
Qed.

Lemma cycle_exits_spec (node_ids : list str) (successors : Successors) (gates : list (gset str)) :
  closed successors → (∀ n, n ∈ node_ids ↔ n ∈ dom successors) →
  (∃ cyclic, cycle_nodes node_ids successors = Ok cyclic ∧ ∀ n, n ∈ cyclic ↔ tc (edge successors) n n)
  ∧ (validate_cycle_exits node_ids successors gates = Ok tt ∧ (∀ n, ¬ trapped successors gates n)
     ∨ (∃ message, validate_cycle_exits node_ids successors gates = Raise (Exn GraphValidationError message))
       ∧ ∃ n, trapped successors gates n).
Proof.
  intros Hclosed Hids.
  destruct (cycle_nodes_spec successors Hclosed node_ids) as (cyclic & Hrun & Hc); [intros n ?; by apply Hids|].
  assert (∀ n, n ∈ cyclic ↔ tc (edge successors) n n) as Hcyc.
  { intros n. rewrite Hc. split; [tauto|]. intros Ht. split; [|done]. apply Hids. by eapply tc_dom. }
  split; [by exists cyclic|]. unfold validate_cycle_exits. rewrite Hrun. cbn [mbind result_bind].
  case_bool_decide as He.
  { left. split; [done|]. intros n [Ht%Hcyc _]. rewrite He in Ht. by apply elem_of_empty in Ht. }
  destruct (stuck_spec successors gates cyclic Hclosed Hcyc He) as (b & -> & Hb). cbn [mbind result_bind raise_if].
  destruct b; [right|left]; (split; [by eauto|]); [by apply Hb|]. intros n Hn. assert (false = true) by (apply Hb; eauto). done.
Qed.

(** Cycle detection returns exactly the nodes on a control cycle, and cycle-exit
    validation raises a [GraphValidationError] exactly when some node of a cycle can
    reach no source of a terminal gate. *)
Lemma cycles_have_exits (node_ids : list str) (successors : Successors) (gates : list (gset str)) :
  closed successors → (∀ n, n ∈ node_ids ↔ n ∈ dom successors) →
  (∃ cyclic, cycle_nodes node_ids successors = Ok cyclic ∧ ∀ n, n ∈ cyclic ↔ tc (edge successors) n n)
  ∧ (validate_cycle_exits node_ids successors gates = Ok tt ∧ (∀ n, ¬ trapped successors gates n)
     ∨ (∃ message, validate_cycle_exits node_ids successors gates = Raise (Exn GraphValidationError message))
       ∧ ∃ n, trapped successors gates n).
Proof. apply cycle_exits_spec. Qed.

Definition looping : Successors := {[na := {[nb]}; nb := {[na]}]}.
Definition looping_gates : ActivationGates := {[na := [[(nb, None)]]; nb := [[(na, None)]]]}.

(** The compiled activation level of a node is the length of every control path that
    leads to it from an entry: a level is recorded exactly for the nodes that no cycle
    feeds and that all paths reach at the same depth. *)
Lemma activation_levels_exact (successors : Successors) (node_ids entries : list str) :
  closed successors → (∀ n, n ∈ node_ids ↔ n ∈ dom successors) → (∀ n, n ∈ entries → n ∈ node_ids) →
  ∃ levels, absolute_activation_levels node_ids entries successors = Ok levels
    ∧ ∀ n l, levels !! n = Some l ↔
        n ∈ node_ids ∧ ¬ variable_node successors n
        ∧ ∃ k, l = Z.of_nat k ∧ ∀ k', depth successors entries n k' ↔ k' = k.
Proof. apply absolute_activation_levels_spec. Qed.

(** Guarantees are sound: the analysis returns within its bound, and every producer
    it records for a node is among the nodes activated on the way to any activation of
    that node that the gates allow. *)
Lemma guarantees_sound (node_ids entries : list str) (activation_gates : ActivationGates) :
  (∀ n, n ∈ node_ids → n ∈ dom activation_gates) →
  (∀ n gates (gate : RawGate) x route,
     activation_gates !! n = Some gates → gate ∈ gates → (x, route) ∈ gate → x ∈ node_ids) →
  ∃ g, guaranteed_sets node_ids entries activation_gates = Ok g
    ∧ (∀ n, n ∈ dom g ↔ n ∈ node_ids)
    ∧ (∀ n xs, g !! n = Some xs → n ∈ xs ∧ xs ⊆ list_to_set node_ids)
    ∧ ∀ n xs past, g !! n = Some xs → happened entries activation_gates n past → xs ⊆ past.
Proof. apply guaranteed_sets_spec. Qed.

(** C25: Joint-activation analysis always ends.  It either gives every node outside the
    cycles of control and value dependencies a route requirement that all selections
    activating the node satisfy, and only those when it is marked exact, or it rejects
    the graph because some node is activated under no selection of routes. *)
Theorem joint_activation_exact (node_ids entries : list str) (activation_gates : ActivationGates)
    (data_dependencies : Successors) (conditional_targets : Conditionals) (successors : Successors) :
  tables node_ids entries activation_gates data_dependencies conditional_targets successors →
  let run := validate_joint_activation_paths node_ids entries activation_gates data_dependencies
               conditional_targets successors in
  (∃ proofs, run = Ok proofs
     ∧ (∀ n, n ∈ dom proofs ↔ n ∈ node_ids ∧ ¬ circular data_dependencies successors n)
     ∧ ∀ n p, proofs !! n = Some p →
         summary conditional_targets p (λ ρ, active entries activation_gates data_dependencies ρ n))
  ∨ (∃ n message, n ∈ node_ids ∧ run = Raise (Exn GraphValidationError message)
       ∧ ∀ ρ, legal conditional_targets ρ → ¬ active entries activation_gates data_dependencies ρ n).
Proof.
  intros T run. destruct (joint_paths_spec _ _ _ _ _ _ T) as [H|(n & Hn & Hrun & Hno)]; [by left|right].
  exists n. eauto.
Qed.

Lemma joint_activation_exact_witness :
  let run := validate_joint_activation_paths demo_ids demo_entries demo_gates demo_data demo_conditional demo_successors in
  (∃ proofs, run = Ok proofs ∧ (∀ n, n ∈ dom proofs ↔ n ∈ demo_ids ∧ ¬ circular demo_data demo_successors n)
     ∧ ∀ n p, proofs !! n = Some p → summary demo_conditional p (λ ρ, active demo_entries demo_gates demo_data ρ n))
  ∨ (∃ n message, n ∈ demo_ids ∧ run = Raise (Exn GraphValidationError message)
       ∧ ∀ ρ, legal demo_conditional ρ → ¬ active demo_entries demo_gates demo_data ρ n).
Proof. exact (joint_activation_exact _ _ _ _ _ _ demo_tables). Defined.

Lemma join_plans_agree (node_ids entries : list str) (activation_gates : ActivationGates)
    (data_dependencies : Successors) (conditional_targets : Conditionals) (successors : Successors)
    (joins : list (list str * str)) proofs levels plans :
  tables node_ids entries activation_gates data_dependencies conditional_targets successors →
  (∀ sources target s, (sources, target) ∈ joins → s ∈ sources → s ∈ node_ids) →
  validate_joint_activation_paths node_ids entries activation_gates data_dependencies conditional_targets
    successors = Ok proofs →
  absolute_activation_levels node_ids entries successors = Ok levels →
  compile_join_occurrence_plans joins entries activation_gates successors proofs conditional_targets levels = Ok plans →
  Forall2 (λ join plan, plan_good entries activation_gates data_dependencies conditional_targets successors
             join.1 join.2 plan) joins plans.
Proof.
  intros T Hsrc Hjoint Hlev Hplans.
  assert (∀ n p, proofs !! n = Some p → summary conditional_targets p (λ ρ, active entries activation_gates data_dependencies ρ n)) as Hp.
  { destruct (joint_paths_spec _ _ _ _ _ _ T) as [(proofs' & Hrun & _ & Hall)|(n & _ & Hrun & _)].
    - rewrite Hjoint in Hrun. by injection Hrun as <-.
    - by rewrite Hjoint in Hrun. }
  destruct (absolute_activation_levels_spec successors node_ids entries) as (levels' & Hlev' & Hl);
    [apply T|intros n; symmetry; apply T|apply T|].
  rewrite Hlev in Hlev'. injection Hlev' as <-.
  unfold compile_join_occurrence_plans in Hplans. apply bind_Ok in Hplans as (repeatable & Hrep & Hplans).
  destruct (repeatable_nodes_spec entries activation_gates successors) as (nodes & Hrep' & Hr);
    [apply T|intros n Hn; by apply (tab_gates _ _ _ _ _ _ T), (tab_entries _ _ _ _ _ _ T)|].
  rewrite Hrep in Hrep'. injection Hrep' as <-. apply mapM_Ok_inv in Hplans.
  apply Forall2_same_length_lookup. split; [by eapply Forall2_length|].
  intros i [sources target] plan Hj Hplan. pose proof (Forall2_lookup_lr _ _ _ _ _ _ Hplans Hj Hplan) as Hc.
  apply (compile_join_good node_ids entries activation_gates data_dependencies conditional_targets successors
    T proofs Hp levels Hl repeatable Hr) in Hc; [done|].
  intros s. apply (Hsrc sources target s). by eapply list_elem_of_lookup_2.
Qed.

(** C24: A Join the compiler accepts gets one occurrence coordinate from all its sources:
    either the sources repeat as one activation cohort and all arrive one superstep
    before the target, or no source repeats, every route selection activates all the
    sources or none of them, and each source's only level plus its offset is the same
    target level. *)
Theorem compiled_joins_agree (node_ids entries : list str) (activation_gates : ActivationGates)
    (data_dependencies : Successors) (conditional_targets : Conditionals) (successors : Successors)
    (joins : list (list str * str)) proofs levels plans :
  tables node_ids entries activation_gates data_dependencies conditional_targets successors →
  (∀ sources target s, (sources, target) ∈ joins → s ∈ sources → s ∈ node_ids) →
  validate_joint_activation_paths node_ids entries activation_gates data_dependencies conditional_targets
    successors = Ok proofs →
  absolute_activation_levels node_ids entries successors = Ok levels →
  compile_join_occurrence_plans joins entries activation_gates successors proofs conditional_targets levels = Ok plans →
  Forall2 (λ join plan, plan_good entries activation_gates data_dependencies conditional_targets successors
             join.1 join.2 plan) joins plans.
Proof. apply join_plans_agree. Qed.

Definition demo_proofs : gmap str RouteProof :=
  match validate_joint_activation_paths demo_ids demo_entries demo_gates demo_data demo_conditional demo_successors
  with Ok proofs => proofs | Raise _ => ∅ end.
Definition demo_levels : gmap str Z :=
  match absolute_activation_levels demo_ids demo_entries demo_successors with Ok levels => levels | Raise _ => ∅ end.
Definition demo_plans : list CompiledJoin := [mkCompiledJoin (mkJoin [na; nb] nj) [(na, 1%Z); (nb, 1%Z)]].

Lemma compiled_joins_agree_witness :
  Forall2 (λ join plan, plan_good demo_entries demo_gates demo_data demo_conditional demo_successors
             join.1 join.2 plan) demo_joins demo_plans.
Proof.
  apply (compiled_joins_agree demo_ids demo_entries demo_gates demo_data demo_conditional demo_successors
    demo_joins demo_proofs demo_levels demo_plans demo_tables).
  - intros sources target s [= -> _]%list_elem_of_singleton Hs. unfold demo_ids. set_solver.
  - by vm_compute.
  - by vm_compute.
  - by vm_compute.
Defined.
