(* ===== verification/Bindings.v ===== *)
(** * Value bindings

    The half of [execution/graph/compiler.py] that resolves named values: declarations,
    graph inputs, node outputs, predecessor inputs and publication coordinates.  [V]
    stands for nominal type descriptors, compared as objects, and [value_type] for the
    class a descriptor carries.  A dict keyed by node and built over the sorted node ids
    is a [gmap]; a dict whose insertion order shows is an association list. *)

From Stdlib Require Import ZArith NArith Lia Bool String.
From stdpp Require Import prelude strings gmap sorting.
From S2P Require Import Prelude Identity Topology GraphDefinition ControlGraph JoinPlans.

Set Default Goal Selector "!".
Open Scope Z_scope.

(* ------------------------------------------------------------------ *)
(** ** Gates *)

(** [_all_single_source_gates] *)
Definition all_single_source_gates (source : str) (gates : list RawGate) : bool :=
  negb (is_nil gates)
  && forallb (λ gate : RawGate, match gate with [(candidate, _)] => bool_decide (candidate = source) | _ => false end) gates.

(** [_all_activation_gates_include] *)
Definition all_activation_gates_include (source : str) (gates : list RawGate) : bool :=
  negb (is_nil gates)
  && forallb (λ gate : RawGate, existsb (λ '(candidate, _), bool_decide (candidate = source)) gate) gates.

(** [_compiled_activation_gate]; a route domain is a frozenset, listed without repetitions. *)
Definition compiled_activation_gate (gate : RawGate) (conditional_targets : Conditionals) : result ActivationGate :=
  mapM (λ '(source, route),
    conditional ← dict_get conditional_targets source;
    Ok (source, if bool_decide (route = None) && negb (is_nil conditional)
                then Some <$> (fst <$> conditional) else [route]))
    (sorted_key (λ item : str * option str, (item.1, route_key item.2)) gate).

(** [_activation_gate_sort_key] *)
Definition activation_gate_sort_key (gate : ActivationGate) : list (str * list (bool * str)) :=
  (λ '(source, routes), (source, sorted (route_key <$> routes))) <$> gate.

(* ------------------------------------------------------------------ *)
(** ** Data dependencies *)

(** [any(f(x) for x in xs)] where [f] also updates local state. *)
Fixpoint any_state {A S} (xs : list A) (state : S) (f : S → A → result (bool * S)) : result (bool * S) :=
  match xs with
  | [] => Ok (false, state)
  | x :: rest =>
      '(found, state) ← f state x;
      if (found : bool) then Ok (true, state) else any_state rest state f
  end.

(** The inner [visit] of [_data_cycle], on the sets [visiting] and [visited]. *)
Fixpoint visit (fuel : nat) (data_dependencies : Successors) (state : gset str * gset str) (node_id : str)
    : result (bool * (gset str * gset str)) :=
  match fuel with
  | O => diverged
  | S fuel =>
      let '(visiting, visited) := state in
      if bool_decide (node_id ∈ visiting) then Ok (true, state)
      else if bool_decide (node_id ∈ visited) then Ok (false, state)
      else
        sources ← dict_get data_dependencies node_id;
        '(found, (visiting, visited)) ← any_state (sorted_elements sources) ({[node_id]} ∪ visiting, visited)
                                          (visit fuel data_dependencies);
        if (found : bool) then Ok (true, (visiting, visited))
        else Ok (false, (visiting ∖ {[node_id]}, {[node_id]} ∪ visited))
  end.

(** [_data_cycle] *)
Definition data_cycle (data_dependencies : Successors) : result bool :=
  '(found, _) ← any_state (sorted_elements (dom data_dependencies)) (∅, ∅)
                  (visit (1 + size (dom data_dependencies)) data_dependencies);
  Ok found.

Section bindings.
Context {V W : Type} `{EqDecision V} `{EqDecision W} (value_type : V → W).
Notation Declarations := (list (OutputDeclaration V)).
Notation NodeOutputs := (gmap str (list (OutputDeclaration V))).
Notation Nodes := (list (str * NodeDefinition V)).

(* ------------------------------------------------------------------ *)
(** ** Declarations *)

(** [_declaration] *)
Definition declaration (declarations : Declarations) (name : str) : result (OutputDeclaration V) :=
  match List.find (λ declaration, bool_decide (od_name declaration = name)) declarations with
  | Some declaration => Ok declaration
  | None => Raise (Exn GraphValidationError "reference to an unknown output port")
  end.

(** [_nested_outputs] *)
Definition nested_outputs (graph : CompiledGraph V) : Declarations :=
  (λ binding, mkOutputDeclaration (go_boundary_name (gob_destination binding)) (gob_descriptor binding))
    <$> graph_outputs (transition graph).

(** [_frame_descriptor] *)
Definition frame_descriptor (definition : GraphDefinition V) (kind : FrameKind) (ordinal : Z)
    (declarations : Declarations) : result (FrameDescriptor V) :=
  identity ← FrameDescriptorIdentity_new (definition_id definition) (definition_version definition) kind ordinal;
  Ok (mkFrameDescriptor identity declarations).

(** [OutputDeclarations(tuple(... for name, descriptor in sorted(descriptors.items())))] *)
Definition declarations_of (descriptors : list (str * V)) : Declarations :=
  (λ '(name, descriptor), mkOutputDeclaration name descriptor) <$> sorted_key fst descriptors.

(** The graph inputs named by the nodes, then by the graph outputs. *)
Definition graph_input_refs (definition : GraphDefinition V) : list (str * V) :=
  concat ((λ node, concat ((λ binding, match ib_source binding with
                                       | ValueSource (GraphInputRef name descriptor) => [(name, descriptor)]
                                       | _ => [] end) <$> node_inputs node)) <$> definition_nodes definition)
  ++ concat ((λ output, match gd_source output with
                        | GraphInputRef name descriptor => [(name, descriptor)]
                        | NodeOutputRef _ _ _ => [] end) <$> definition_outputs definition).

(** [_collect_graph_inputs] *)
Definition collect_graph_inputs (definition : GraphDefinition V) : result Declarations :=
  descriptors ← py_for_state (graph_input_refs definition) [] (λ descriptors '(name, descriptor),
    raise_if (match assoc name descriptors with
              | Some existing => negb (bool_decide (value_type existing = value_type descriptor))
              | None => false end) GraphValidationError "graph input has conflicting exact type declarations";;
    Ok (dict_set name descriptor descriptors));
  Ok (declarations_of descriptors).

(* ------------------------------------------------------------------ *)
(** ** Sources *)

(** [_resolve_source] *)
Definition resolve_source (source : ValueSourceRef V) (graph_inputs : Declarations) (node_outputs : NodeOutputs)
    (consumer : option str) : result (ResolvedValueSource * V) :=
  match source with
  | GraphInputRef name _ =>
      found ← declaration graph_inputs name;
      Ok (FromGraphInput (mkGraphInput name), od_descriptor found)
  | NodeOutputRef node_id output_name descriptor =>
      raise_if (bool_decide (consumer = Some node_id)) GraphValidationError "node cannot bind its own output";;
      outputs ← match node_outputs !! node_id with
                | Some outputs => Ok outputs
                | None => Raise (Exn UnknownNodeError "value source references an unknown node") end;
      found ← declaration outputs output_name;
      raise_if (match descriptor with
                | Some descriptor => negb (bool_decide (descriptor = od_descriptor found))
                | None => false end) GraphValidationError "typed node output does not match its declared descriptor";;
      Ok (FromNodeOutput (mkNodeOutput node_id output_name), od_descriptor found)
  end.

(** [_resolve_predecessor_output]; [gate[0][0]] of the gates, which have one source each. *)
Definition resolve_predecessor_output (output_name : str) (declared : option V) (target input_name : str)
    (node_outputs : NodeOutputs) (gates : list RawGate) (start_input : option GraphInputPort)
    : result (CompiledPredecessorInput * V) :=
  raise_if (existsb (λ gate : RawGate, negb (length gate =? 1)%nat) gates) GraphValidationError
    "predecessor-bound node cannot be activated by a Join";;
  let source_ids := sorted_set (concat ((λ gate : RawGate, fst <$> take 1 gate) <$> gates)) in
  raise_if (is_nil source_ids) GraphValidationError "predecessor input has no routed predecessor type source";;
  found ← mapM (λ source_id,
    outputs ← dict_get node_outputs source_id;
    found ← declaration outputs output_name;
    Ok (od_descriptor found, mkNodeOutput source_id output_name)) source_ids;
  '(descriptor, _) ← list_get found 0;
  raise_if (existsb (λ '(candidate, _), negb (bool_decide (value_type candidate = value_type descriptor))) found)
    GraphValidationError "predecessor input has conflicting exact output types";;
  raise_if (match declared with
            | Some declared => negb (bool_decide (value_type declared = value_type descriptor))
            | None => false end) GraphValidationError "typed predecessor input does not match its declared exact type";;
  Ok (mkPredecessorInput target input_name (snd <$> found) start_input, descriptor).

(* ------------------------------------------------------------------ *)
(** ** Input bindings *)

(** The predecessor inputs a node declares: local name, output name, declared descriptor. *)
Notation PredecessorBindings := (list (str * (str * option V))).

Record NodeBindings := mkNodeBindings {
  nb_resolved : list (ResolvedInputBinding V);
  nb_predecessors : PredecessorBindings;
  nb_dependencies : gset str
}.

(** One input of one node in [_resolve_input_bindings]. *)
Definition resolve_input_binding (graph_inputs : Declarations) (node_outputs : NodeOutputs) (node_id : str)
    (bindings : NodeBindings) (binding : InputBinding V) : result NodeBindings :=
  match ib_source binding with
  | PredecessorOutputRef output_name descriptor =>
      Ok (mkNodeBindings (nb_resolved bindings)
            (nb_predecessors bindings ++ [(ib_local_name binding, (output_name, descriptor))]) (nb_dependencies bindings))
  | ValueSource declared_source =>
      '(source, descriptor) ← resolve_source declared_source graph_inputs node_outputs (Some node_id);
      Ok (mkNodeBindings
            (nb_resolved bindings ++ [mkInputBinding (mkNodeInput node_id (ib_local_name binding))
                                        (ResolvedValue source) descriptor None])
            (nb_predecessors bindings)
            (match source with
             | FromNodeOutput port => {[no_node_id port]} ∪ nb_dependencies bindings
             | FromGraphInput _ => nb_dependencies bindings end))
  end.

(** [_resolve_input_bindings] *)
Definition resolve_input_bindings (nodes : Nodes) (node_ids : list str) (graph_inputs : Declarations)
    (node_outputs : NodeOutputs)
    : result (gmap str (list (ResolvedInputBinding V)) * gmap str PredecessorBindings * Successors) :=
  per_node ← mapM (λ node_id,
    node ← assoc_get nodes node_id;
    bindings ← py_for_state (node_inputs node) (mkNodeBindings [] [] ∅)
                 (resolve_input_binding graph_inputs node_outputs node_id);
    Ok (node_id, bindings)) node_ids;
  let data_dependencies : Successors := list_to_map ((λ '(node_id, bindings), (node_id, nb_dependencies bindings)) <$> per_node) in
  cyclic ← data_cycle data_dependencies;
  raise_if cyclic GraphValidationError "ordinary node value bindings contain a data cycle";;
  Ok (list_to_map ((λ '(node_id, bindings), (node_id, nb_resolved bindings)) <$> per_node),
      list_to_map ((λ '(node_id, bindings), (node_id, nb_predecessors bindings)) <$> per_node), data_dependencies).

(** What [_complete_input_bindings] has built: the bindings of one node and the graph inputs. *)
Notation Completing := (list (ResolvedInputBinding V) * list (str * V))%type.

(** One predecessor input of one node in [_complete_input_bindings]. *)
Definition complete_predecessor (node_outputs : NodeOutputs) (entries : list str) (gates : list RawGate) (node_id : str)
    (state : Completing) (binding : str * (str * option V)) : result Completing :=
  let '(resolved, graph_input_descriptors) := state in
  let '(input_name, (output_name, declared)) := binding in
  let start_input := if mem node_id entries then Some (mkGraphInput input_name) else None in
  '(source, descriptor) ← resolve_predecessor_output output_name declared node_id input_name node_outputs gates start_input;
  '(descriptor, graph_input_descriptors) ← (
    match start_input with
    | None => Ok (descriptor, graph_input_descriptors)
    | Some _ =>
        match assoc input_name graph_input_descriptors with
        | None => Ok (descriptor, dict_set input_name descriptor graph_input_descriptors)
        | Some entry_descriptor =>
            raise_if (negb (bool_decide (value_type entry_descriptor = value_type descriptor))) GraphValidationError
              "graph input conflicts with its START causal input exact type";;
            Ok (entry_descriptor, graph_input_descriptors)
        end
    end);
  Ok (resolved ++ [mkInputBinding (mkNodeInput node_id input_name) (PredecessorInput source) descriptor None],
      graph_input_descriptors).

(** The inputs of a nested node are those of the child's boundary, by name and exact type. *)
Definition matches_child_boundary (bindings : list (ResolvedInputBinding V)) (expected : Declarations) : bool :=
  (length bindings =? length expected)%nat
  && forallb (λ '(binding, declaration),
       bool_decide (ni_local_name (rib_destination binding) = od_name declaration)
       && bool_decide (value_type (rib_descriptor binding) = value_type (od_descriptor declaration)))
       (zip bindings expected).

(** One node of [_complete_input_bindings]. *)
Definition complete_node (nodes : Nodes) (nested : list (str * CompiledGraph V))
    (predecessor_bindings_by_node : gmap str PredecessorBindings) (node_outputs : NodeOutputs) (entries : list str)
    (activation_gates : ActivationGates)
    (state : gmap str (list (ResolvedInputBinding V)) * list (str * V)) (node_id : str)
    : result (gmap str (list (ResolvedInputBinding V)) * list (str * V)) :=
  let '(completed, graph_input_descriptors) := state in
  resolved ← dict_get completed node_id;
  predecessors ← dict_get predecessor_bindings_by_node node_id;
  gates ← (if is_nil predecessors then Ok [] else dict_get activation_gates node_id);
  '(resolved, graph_input_descriptors) ← py_for_state predecessors (resolved, graph_input_descriptors)
    (complete_predecessor node_outputs entries gates node_id);
  let resolved_bindings := sorted_key (λ binding, ni_local_name (rib_destination binding)) resolved in
  node ← assoc_get nodes node_id;
  match node with
  | CallableNode _ _ _ _ _ => Ok tt
  | NestedGraphNode _ _ _ =>
      child ← assoc_get nested node_id;
      raise_if (negb (matches_child_boundary resolved_bindings (fd_declarations (graph_input_descriptor child))))
        GraphValidationError "nested node inputs do not exactly match child boundary"
  end;;
  Ok (<[node_id := resolved_bindings]> completed, graph_input_descriptors).

(** [_complete_input_bindings] *)
Definition complete_input_bindings (nodes : Nodes) (nested : list (str * CompiledGraph V)) (graph_inputs : Declarations)
    (input_bindings_by_node : gmap str (list (ResolvedInputBinding V)))
    (predecessor_bindings_by_node : gmap str PredecessorBindings) (node_outputs : NodeOutputs) (entries : list str)
    (activation_gates : ActivationGates) : result (gmap str (list (ResolvedInputBinding V)) * Declarations) :=
  let descriptors := fold_left (λ descriptors declaration,
    dict_set (od_name declaration) (od_descriptor declaration) descriptors) graph_inputs [] in
  '(completed, descriptors) ← py_for_state (sorted_elements (dom input_bindings_by_node)) (input_bindings_by_node, descriptors)
    (complete_node nodes nested predecessor_bindings_by_node node_outputs entries activation_gates);
  Ok (completed, declarations_of descriptors).
End bindings.

(* ------------------------------------------------------------------ *)
(** ** Publication coordinates *)

(** [_input_publication_selection] *)
Definition input_publication_selection (source : NodeOutputPort) (target : str) (absolute_levels : gmap str Z)
    (activation_gates : ActivationGates) (joins_by_target : gmap str (list CompiledJoin)) : result PublicationSelection :=
  match absolute_levels !! no_node_id source with
  | Some absolute => Ok (mkSelection ABSOLUTE absolute)
  | None =>
      gates ← dict_get activation_gates target;
      if all_single_source_gates (no_node_id source) gates then Ok (mkSelection RELATIVE 1) else
      target_joins ← dict_get joins_by_target target;
      let undetermined := Raise (Exn GraphValidationError "node output has no unique activation coordinate for its consumer") in
      match target_joins with
      | [join] =>
          if (length gates =? 1)%nat && mem (no_node_id source) (join_sources (cj_identity join))
          then (offset ← target_offset join (no_node_id source); Ok (mkSelection RELATIVE offset))
          else undetermined
      | _ => undetermined
      end
  end.

(** [_output_publication_selection] *)
Definition output_publication_selection (source : NodeOutputPort) (absolute_levels : gmap str Z)
    (terminal_gates : list (gset str)) : result PublicationSelection :=
  match absolute_levels !! no_node_id source with
  | Some absolute => Ok (mkSelection ABSOLUTE absolute)
  | None =>
      if negb (is_nil terminal_gates) && forallb (λ gate, bool_decide (gate = {[no_node_id source]})) terminal_gates
      then Ok (mkSelection RELATIVE 0)
      else Raise (Exn GraphValidationError "graph output source has no unique completion activation coordinate")
  end.
