(* ===== verification/DefinitionProofs.v ===== *)
(** * Code that accepts or rejects a graph

    [vets m P]: the computation [m] returns a value that satisfies [P], or raises an
    error of the [GraphValidationError] hierarchy.  No other exception escapes it, and it
    does not run out of fuel.  The rules follow the structure of the code. *)

From Stdlib Require Import ZArith NArith Lia Bool String.
From stdpp Require Import prelude strings gmap sorting.
From S2P Require Import Prelude Identity Topology GraphDefinition ControlGraph ControlGraphProofs.

Set Default Goal Selector "!".
Open Scope nat_scope.

(** [GraphValidationError] and its subclasses. *)
Definition is_graph_error (k : exn_class) : bool :=
  match k with
  | GraphValidationError | DuplicateNodeError | DuplicateBoundaryError | DuplicateEdgeError
  | DuplicateGraphDefinitionError | RecursiveGraphDefinitionError | UnknownNodeError | MissingEntryError
  | UnreachableNodeError | InvalidJoinError | InvalidGraphIdentityError | InvalidResourceDefinitionError => true
  | _ => false
  end.

Definition vets {A} (m : result A) (P : A → Prop) : Prop :=
  match m with Ok a => P a | Raise e => is_graph_error (exn_kind e) = true end.

Lemma vets_weaken {A} (m : result A) (P Q : A → Prop) : (∀ a, P a → Q a) → vets m P → vets m Q.
Proof. destruct m; cbn; auto. Qed.

Lemma vets_total {A} (m : result A) a (P : A → Prop) : m = Ok a → P a → vets m P.
Proof. by intros ->. Qed.

Lemma vets_Ok {A} (m : result A) (P : A → Prop) a : vets m P → m = Ok a → P a.
Proof. by intros H ->. Qed.

Lemma vets_and {A} (m : result A) (P Q : A → Prop) : vets m P → (∀ a, m = Ok a → Q a) → vets m (λ a, P a ∧ Q a).
Proof. destruct m; cbn; auto. Qed.

Lemma vets_bind {A B} (m : result A) (f : A → result B) P Q :
  vets m P → (∀ a, m = Ok a → P a → vets (f a) Q) → vets (m ≫= f) Q.
Proof. destruct m; cbn; auto. Qed.

Lemma vets_bind_total {A B} (m : result A) a (f : A → result B) Q : m = Ok a → vets (f a) Q → vets (m ≫= f) Q.
Proof. by intros ->. Qed.

Lemma vets_raise_if {B} b k message (rest : result B) Q :
  is_graph_error k = true → (b = false → vets rest Q) → vets (raise_if b k message;; rest) Q.
Proof. destruct b; cbn; auto. Qed.

Lemma vets_raise_if_last b k message (Q : unit → Prop) :
  is_graph_error k = true → (b = false → Q tt) → vets (raise_if b k message) Q.
Proof. destruct b; cbn; auto. Qed.

Lemma vets_get {A : Type} (d : gmap str A) k (P : A → Prop) : k ∈ dom d → (∀ v, d !! k = Some v → P v) → vets (dict_get d k) P.
Proof. intros [v Hv]%elem_of_dom H. unfold dict_get. rewrite Hv. by apply H. Qed.

Lemma vets_bind_get {A B : Type} (d : gmap str A) k (f : A → result B) Q :
  k ∈ dom d → (∀ v, d !! k = Some v → vets (f v) Q) → vets (dict_get d k ≫= f) Q.
Proof. intros [v Hv]%elem_of_dom H. unfold dict_get. rewrite Hv. by apply H. Qed.

Lemma vets_assoc {A B : Type} (d : list (str * A)) k (f : A → result B) Q :
  k ∈ d.*1 → (∀ v, assoc k d = Some v → vets (f v) Q) → vets (assoc_get d k ≫= f) Q.
Proof.
  intros Hk H. unfold assoc_get. destruct (assoc k d) as [v|] eqn:E; [by apply H|]. by apply assoc_None in E.
Qed.

Lemma vets_mapM {A B} (f : A → result B) (R : A → B → Prop) (xs : list A) :
  (∀ x, x ∈ xs → vets (f x) (R x)) → vets (mapM f xs) (λ ys, Forall2 R xs ys).
Proof.
  induction xs as [|x xs IH]; intros H; cbn; [constructor|].
  eapply vets_bind; [apply H; by left|]. intros y _ Hy. cbv beta in Hy.
  eapply vets_bind; [apply IH; intros; apply H; by right|]. intros ys _ Hys. by constructor.
Qed.

Lemma Forall2_elem_r {A B} (R : A → B → Prop) (xs : list A) (ys : list B) y : Forall2 R xs ys → y ∈ ys → ∃ x, x ∈ xs ∧ R x y.
Proof.
  intros Hf [i Hi]%list_elem_of_lookup. destruct (Forall2_lookup_r _ _ _ _ _ Hf Hi) as (x & Hx & HR). exists x.
  split; [by eapply list_elem_of_lookup_2|done].
Qed.

Lemma vets_for {A} (xs : list A) body (P : A → Prop) :
  (∀ x, x ∈ xs → vets (body x) (λ _, P x)) → vets (py_for xs body) (λ _, ∀ x, x ∈ xs → P x).
Proof.
  induction xs as [|x xs IH]; intros H; cbn; [by intros x ?%elem_of_nil|].
  eapply vets_bind; [apply H; by left|]. intros u _ Hx. cbv beta in Hx.
  eapply vets_weaken; [|apply IH; intros; apply H; by right]. intros u2 Hall y [->|Hy]%elem_of_cons; [done|by apply Hall].
Qed.

Lemma vets_state {A S} (P : list A → S → Prop) body (xs : list A) st :
  (∀ dn x rest st, xs = dn ++ x :: rest → P dn st → vets (body st x) (P (dn ++ [x]))) → P [] st →
  vets (py_for_state xs st body) (P xs).
Proof.
  intros Hstep. assert (∀ ys dn st, xs = dn ++ ys → P dn st → vets (py_for_state ys st body) (P xs)) as H.
  { induction ys as [|y ys IH]; intros dn st' Hxs HP; cbn.
    - by rewrite Hxs, app_nil_r.
    - eapply vets_bind; [by eapply Hstep|]. intros st2 _ HP2. apply (IH (dn ++ [y])); [|done]. by rewrite <- app_assoc. }
  intros HP. by apply (H xs []).
Qed.

(** The element a loop is at belongs to the list. *)
Lemma at_elem {A} (xs dn rest : list A) x : xs = dn ++ x :: rest → x ∈ xs.
Proof. intros ->. apply elem_of_app. right. by left. Qed.

Lemma vets_any {A} (xs : list A) f : (∀ x, x ∈ xs → vets (f x) (λ _, True)) → vets (any_of xs f) (λ _, True).
Proof.
  induction xs as [|x xs IH]; intros H; cbn; [done|]. eapply vets_bind; [apply H; by left|]. intros [] _ _; [done|].
  apply IH. intros; apply H; by right.
Qed.

Lemma vets_select {A} (xs : list A) f (P : A → Prop) :
  (∀ x, x ∈ xs → vets (f x) (λ b, b = true ↔ P x)) →
  vets (select xs f) (λ kept, (∀ x, x ∈ kept ↔ x ∈ xs ∧ P x) ∧ sublist kept xs).
Proof.
  induction xs as [|x xs IH]; intros H; cbn.
  { split; [intros x; rewrite elem_of_nil; tauto|constructor]. }
  eapply vets_bind; [apply H; by left|]. intros b _ Hb. cbv beta in Hb.
  eapply vets_bind; [apply IH; intros; apply H; by right|]. intros kept _ [Hk Hs]. cbv beta.
  destruct b; split.
  - intros y. rewrite !elem_of_cons, Hk. destruct Hb as [Hb _]. specialize (Hb eq_refl). naive_solver.
  - by constructor.
  - intros y. rewrite elem_of_cons, Hk. split; [naive_solver|]. intros [[->|?] ?]; [|tauto]. by apply Hb in H0.
  - by constructor.
Qed.

(** Step through a [vets] goal: a guard, a lookup that cannot fail, or a bind. *)
Ltac vet_guard := first [apply vets_raise_if; [reflexivity|]|apply vets_raise_if_last; [reflexivity|]].

(* ------------------------------------------------------------------ *)
(** * Validated definitions

    What [validate_graph] leaves behind when it accepts a family of definitions, and that
    it rejects with nothing but validation errors.  The visit table is keyed by identity
    and version and compares Python objects; [coherent] says that an object id names one
    definition of the family. *)

Section definitions.
Context {V : Type}.
Implicit Types (d : GraphDefinition V) (node : NodeDefinition V).

(** Induction over nested definitions. *)
Lemma definition_induction (P : GraphDefinition V → Prop) :
  (∀ d, (∀ i g inputs, NestedGraphNode i g inputs ∈ definition_nodes d → P g) → P d) → ∀ d, P d.
Proof.
  intros H.
  assert (∀ d, (Forall (λ node, match node with NestedGraphNode _ g _ => P g | _ => True end) (definition_nodes d))) as Hall.
  { fix IH 1. intros [object name version nodes edges entries outputs resources resume]. cbn. induction nodes as [|node nodes IHn].
    - constructor.
    - constructor; [|exact IHn]. destruct node as [j ins outs rs routes|j h ins]; [exact I|]. apply H.
      intros i g inputs Hin. specialize (IH h). rewrite Forall_forall in IH. exact (IH _ Hin). }
  intros d. apply H. intros i g inputs Hin. specialize (Hall d). rewrite Forall_forall in Hall. exact (Hall _ Hin).
Qed.

Inductive sub : GraphDefinition V → GraphDefinition V → Prop :=
| sub_refl d : sub d d
| sub_child d i g inputs d' : NestedGraphNode i g inputs ∈ definition_nodes d → sub g d' → sub d d'.

Lemma sub_trans a b c : sub a b → sub b c → sub a c.
Proof. induction 1 as [|a i g inputs b Hin _ IH]; [done|]. intros H. eapply sub_child; [done|by apply IH]. Qed.

Definition coherent root : Prop := ∀ d d', sub root d → sub root d' → object_id d = object_id d' → d = d'.

(* ------------------------------------------------------------------ *)
(** ** Edges *)

Definition target_valid (node_ids : list str) (target : str) : Prop := target = END ∨ target ∈ node_ids.

Definition edge_valid (node_ids : list str) (edge : Edge) : Prop :=
  match edge with
  | DirectEdge source target => source ∈ node_ids ∧ target_valid node_ids target
  | ConditionalEdge source route target =>
      is_canonical_identity route = true ∧ source ∈ node_ids ∧ target_valid node_ids target
  | JoinEdge sources target =>
      2 ≤ length sources ∧ NoDup sources ∧ sources ⊆ node_ids ∧ target_valid node_ids target ∧ target ∉ sources
  end.

(** The conditional routes that edges declare. *)
Definition route_keys (edges : list Edge) : list (str * str) :=
  omap (λ edge, match edge with ConditionalEdge source route _ => Some (source, route) | _ => None end) edges.

Record valid_definition d : Prop := {
  vd_identity : is_canonical_identity (definition_id d) = true;
  vd_version : (1 ≤ definition_version d)%Z;
  vd_node_ids : ∀ n, n ∈ node_id <$> definition_nodes d → is_canonical_identity n = true ∧ n ≠ START ∧ n ≠ END;
  vd_nodes : NoDup (node_id <$> definition_nodes d);
  vd_resources : NoDup (definition_resources d);
  vd_required : ∀ i inputs outputs resources routes,
    CallableNode i inputs outputs resources routes ∈ definition_nodes d → resources ⊆ definition_resources d;
  vd_entries : NoDup (definition_entries d) ∧ ∀ e, e ∈ definition_entries d → e ∈ node_id <$> definition_nodes d;
  vd_edges : Forall (edge_valid (node_id <$> definition_nodes d)) (definition_edges d);
  vd_routes : NoDup (route_keys (definition_edges d))
}.

Definition all_valid d : Prop := ∀ d', sub d d' → valid_definition d'.

(* ------------------------------------------------------------------ *)
(** ** The checks of one definition *)

Lemma vets_identity value : vets (require_definition_identity value) (λ _, is_canonical_identity value = true).
Proof. unfold require_definition_identity. vet_guard. by rewrite negb_false_iff. Qed.

Lemma known_target_spec node_ids target : known_target node_ids target = true ↔ target_valid node_ids target.
Proof. unfold known_target, target_valid. by rewrite orb_true_iff, bool_decide_eq_true, mem_spec. Qed.

Lemma validate_edge_spec node_ids seen edge :
  vets (validate_edge node_ids seen edge) (λ seen', edge_valid node_ids edge
    ∧ (NoDup (conditional_seen seen) → NoDup (conditional_seen seen'))
    ∧ conditional_seen seen' = conditional_seen seen ++ route_keys [edge]).
Proof.
  destruct edge as [source target|source route target|sources target]; cbn [validate_edge].
  - vet_guard. intros Hk. vet_guard. intros _. apply orb_false_iff in Hk as [H1 H2]. rewrite negb_false_iff in H1, H2.
    rewrite mem_spec in H1. apply known_target_spec in H2. cbn. by rewrite app_nil_r.
  - eapply vets_bind; [apply vets_identity|]. intros u _ Hr. cbv beta in Hr. vet_guard. intros Hk. vet_guard. intros Hn.
    apply orb_false_iff in Hk as [H1 H2]. rewrite negb_false_iff in H1, H2. rewrite mem_spec in H1.
    apply known_target_spec in H2. apply mem_false in Hn. cbn. split; [done|split; [|done]].
    intros Hnd. apply NoDup_app. split_and!; [done| |apply NoDup_singleton]. intros x Hx ->%list_elem_of_singleton. done.
  - vet_guard. intros Hk. vet_guard. intros _. rewrite !orb_false_iff, !negb_false_iff in Hk.
    destruct Hk as ((((H1 & H2) & H3) & H4) & H5). apply Nat.ltb_ge in H1. apply no_repeats_spec in H2.
    apply subset_of_spec in H3. apply known_target_spec in H4. apply mem_false in H5. cbn. by rewrite app_nil_r.
Qed.

Lemma route_keys_app xs ys : route_keys (xs ++ ys) = route_keys xs ++ route_keys ys.
Proof. apply omap_app. Qed.

Lemma validate_edges_spec d (node_ids := node_id <$> definition_nodes d) :
  vets (validate_edges d node_ids) (λ _,
    (NoDup (definition_entries d) ∧ ∀ e, e ∈ definition_entries d → e ∈ node_ids)
    ∧ Forall (edge_valid node_ids) (definition_edges d) ∧ NoDup (route_keys (definition_edges d))).
Proof.
  unfold validate_edges. vet_guard. rewrite negb_false_iff, no_repeats_spec. intros Hnd. vet_guard. intros Hin.
  eapply vets_bind.
  - apply (vets_state (λ dn seen, Forall (edge_valid node_ids) dn ∧ NoDup (conditional_seen seen)
      ∧ conditional_seen seen = route_keys dn)).
    + intros dn edge rest seen _ (Hf & Hn & Hk). eapply vets_weaken; [|apply validate_edge_spec].
      intros seen' (He & Hn' & Hk'). split_and!; [apply Forall_app; split; [done|by constructor]|auto|].
      by rewrite Hk', Hk, <- route_keys_app.
    + split_and!; [constructor|constructor|done].
  - intros seen _ (Hf & Hn & Hk). cbn. rewrite <- Hk. split_and!; [done| |done|done].
    intros e He. rewrite existsb_false_iff in Hin. specialize (Hin e He). by rewrite negb_false_iff, mem_spec in Hin.
Qed.

Lemma validate_node_ids_spec d :
  vets (validate_node_ids d) (λ _,
    (∀ n, n ∈ node_id <$> definition_nodes d → is_canonical_identity n = true ∧ n ≠ START ∧ n ≠ END)
    ∧ NoDup (node_id <$> definition_nodes d)).
Proof.
  unfold validate_node_ids. eapply vets_bind.
  - apply (vets_for _ _ (λ node, is_canonical_identity (node_id node) = true ∧ node_id node ≠ START ∧ node_id node ≠ END)).
    intros node _. eapply vets_bind; [apply vets_identity|]. intros u _ Hc. cbv beta in Hc. vet_guard.
    rewrite orb_false_iff, !bool_decide_eq_false. tauto.
  - intros u _ Hall. cbv beta in Hall. vet_guard. rewrite negb_false_iff, no_repeats_spec. intros Hnd. split; [|done].
    intros n (node & -> & Hn)%list_elem_of_fmap. by apply Hall.
Qed.

Lemma except_str_vets {A} p k (m : result A) P : is_graph_error k = true → vets m P → vets (except_str p k m) P.
Proof. destruct m; cbn; [done|]. intros Hk He. by case_match. Qed.

Lemma validate_declarations_spec d :
  vets (validate_callable_declarations d) (λ _, NoDup (definition_resources d)
    ∧ ∀ i inputs outputs resources routes,
        CallableNode i inputs outputs resources routes ∈ definition_nodes d → resources ⊆ definition_resources d).
Proof.
  unfold validate_callable_declarations. vet_guard. rewrite negb_false_iff, no_repeats_spec. intros Hnd.
  eapply vets_bind; [apply (vets_for _ _ (λ _, True)); intros r _|].
  { apply except_str_vets; [done|]. eapply vets_weaken; [|apply vets_identity]. done. }
  intros u _ _. eapply vets_weaken; [|apply (vets_for _ _ (λ node,
    match node with CallableNode _ _ _ resources _ => resources ⊆ definition_resources d | _ => True end))].
  - intros u' Hall. split; [done|]. intros i inputs outputs resources routes Hin. apply (Hall _ Hin).
  - intros [i inputs outputs resources routes|i g inputs] _; [|done]. vet_guard. intros _. vet_guard. intros Hs.
    eapply vets_weaken; [|apply (vets_for _ _ (λ _, True))].
    + intros _ _. by rewrite negb_false_iff, subset_of_spec in Hs.
    + intros route _. eapply vets_weaken; [|apply vets_identity]. done.
Qed.

(* ------------------------------------------------------------------ *)
(** ** The family *)

(** One node of the walk over nested definitions. *)
Definition visit_node (visits : Visits) node : result Visits :=
  match node with CallableNode _ _ _ _ _ => Ok visits | NestedGraphNode _ g _ => validate_definition g visits end.

Lemma validate_definition_unfold d visits :
  validate_definition d visits =
  (require_definition_identity (definition_id d);;
   raise_if (definition_version d <? 1)%Z InvalidGraphIdentityError "graph definition version must be a positive integer";;
   match visits !! (definition_id d, definition_version d) with
   | Some (existing, status) =>
       raise_if (negb (existing =? object_id d)%Z) DuplicateGraphDefinitionError "graph definition identity collision";;
       raise_if (bool_decide (status = VISITING)) RecursiveGraphDefinitionError "recursive graph definition";;
       Ok visits
   | None =>
       let visits : Visits := <[(definition_id d, definition_version d) := (object_id d, VISITING)]> visits in
       validate_node_ids d;;
       validate_callable_declarations d;;
       validate_edges d (node_id <$> definition_nodes d);;
       match definition_resume_input d with Some codec => validate_codec codec | None => Ok tt end;;
       visits ← py_for_state (definition_nodes d) visits visit_node;
       Ok (<[(definition_id d, definition_version d) := (object_id d, VALIDATED)]> visits : Visits)
   end).
Proof.
  destruct d as [object name version nodes edges entries outputs resources resume]. cbn.
  apply bind_ext. intros _. apply bind_ext. intros _. case_match; [done|]. do 4 (apply bind_ext; intros _).
  match goal with |- ?m ≫= _ = ?m' ≫= _ => enough (m = m') as -> by done end.
  generalize (<[(name, version):=(object, VISITING)]> visits : Visits).
  induction nodes as [|[i ins outs rs routes|i g ins] nodes IH]; intros v; cbn; [done|apply IH|].
  destruct (validate_definition g v); cbn; [apply IH|done].
Qed.

(** The validated entries of the table name valid families. *)
Definition visited root (visits : Visits) : Prop :=
  ∀ k object, visits !! k = Some (object, VALIDATED) → ∃ d, sub root d ∧ object_id d = object ∧ all_valid d.

Lemma visited_visiting root visits k object : visited root visits → visited root (<[k := (object, VISITING)]> visits).
Proof. intros H k' o [[_ ?]|[_ Hk]]%lookup_insert_Some; [done|by eapply H]. Qed.

Lemma validate_codec_vets codec : vets (validate_codec codec) (λ _, True).
Proof. unfold validate_codec. vet_guard. intros _. by vet_guard. Qed.

Lemma validate_definition_spec root (Hco : coherent root) d :
  sub root d → ∀ visits, visited root visits →
  vets (validate_definition d visits) (λ visits', visited root visits' ∧ all_valid d).
Proof.
  induction d as [d IH] using definition_induction. intros Hd visits Hv. rewrite validate_definition_unfold.
  eapply vets_bind; [apply vets_identity|]. intros u _ Hid. cbv beta in Hid. vet_guard. intros Hversion.
  destruct (visits !! (definition_id d, definition_version d)) as [[existing status]|] eqn:Hlook.
  { vet_guard. intros Hobj. vet_guard. intros Hst. rewrite negb_false_iff, Z.eqb_eq in Hobj. apply bool_decide_eq_false in Hst.
    destruct status; [done|]. destruct (Hv _ _ Hlook) as (d' & Hd' & Ho & Hall). split; [done|].
    assert (d' = d) as -> by (apply Hco; [done..|congruence]). done. }
  cbv zeta. eapply vets_bind; [apply validate_node_ids_spec|]. intros u1 _ [Hnames Hnodup].
  eapply vets_bind; [apply validate_declarations_spec|]. intros u2 _ [Hres Hreq].
  eapply vets_bind; [apply validate_edges_spec|]. intros u3 _ (Hentries & Hedges & Hroutes).
  eapply vets_bind; [destruct (definition_resume_input d); [apply validate_codec_vets|exact I]|]. intros u4 _ _.
  eapply vets_bind.
  - apply (vets_state (λ dn visits, visited root visits
      ∧ ∀ i g inputs, NestedGraphNode i g inputs ∈ dn → all_valid g)); [|split; [by apply visited_visiting|]].
    + intros dn node rest visits1 Hat [Hv1 Hdone]. destruct node as [i ins outs rs routes|i g ins]; cbn [visit_node].
      * split; [done|]. intros j h inputs [Hin|Hin%list_elem_of_singleton]%elem_of_app; [by eapply Hdone|done].
      * pose proof (at_elem _ _ _ _ Hat) as Hin. eapply vets_weaken; [|apply (IH i g ins Hin)]; [|
          eapply sub_trans; [exact Hd|by eapply sub_child; [|constructor]]|done].
        intros visits2 [Hv2 Hg]. split; [done|]. intros j h inputs [Hj|Hj%list_elem_of_singleton]%elem_of_app; [by eapply Hdone|].
        by injection Hj as -> -> ->.
    + by intros i g inputs ?%elem_of_nil.
  - intros visits' _ [Hv' Hnested]. cbn. assert (all_valid d) as Hall.
    { intros d' Hsub. destruct Hsub as [d|d i g inputs d' Hin Hsub]; [|by eapply Hnested].
      split; try done. apply Z.ltb_ge in Hversion. lia. }
    split; [|done]. intros k object [[<- [= <-]]|[_ Hk]]%lookup_insert_Some; [by exists d|by eapply Hv'].
Qed.

Lemma validate_graph_spec root : coherent root → vets (validate_graph root) (λ _, all_valid root).
Proof.
  intros Hco. unfold validate_graph. eapply vets_bind; [by apply (validate_definition_spec root Hco root (sub_refl root))|].
  by intros visits _ [_ H].
Qed.
End definitions.
