(* ===== verification/FrontierRelation.v ===== *)
(** * The symbolic frontier relation: [execution/graph/frontier_proof.py]

    [_FrontierRelation] lowers a control topology to a transition relation over BDD
    variables, computes the reachable frontiers as a fixpoint and reads the completion
    routes off the terminal transitions.  The BDD manager is threaded as the state of
    the monad [bddM]; dicts whose iteration order the code uses are association lists,
    the others finite maps.  Sets are visited in sorted order.  [FrontierProofs] relates
    the result to an explicit transition system. *)

From Stdlib Require Import ZArith NArith Lia Bool String.
From stdpp Require Import prelude strings gmap sorting.
From S2P Require Import Prelude Identity Topology ControlGraph JoinPlans Bdd.

Set Default Goal Selector "!".
Open Scope Z_scope.

(* ------------------------------------------------------------------ *)
(** ** Computations that use the manager *)

Definition bddM (A : Type) : Type := Bdd → result (A * Bdd).
#[export] Instance bddM_ret : MRet bddM := λ A a B, Ok (a, B).
#[export] Instance bddM_bind : MBind bddM := λ A C f m B, '(a, B') ← m B; f a B'.

Definition lift {A} (m : result A) : bddM A := λ B, a ← m; Ok (a, B).
Definition raise {A} (k : exn_class) (message : string) : bddM A := λ _, Raise (Exn k message).

Definition b_variable : bddM nat := λ B, Ok (new_variable B).
Definition b_index (reference : nat) : bddM nat := λ B, lift (variable_index B reference) B.
Definition b_apply (operation : BddOperation) (first second : nat) : bddM nat := λ B, apply B operation first second.
Definition b_not (reference : nat) : bddM nat := λ B, negate B reference.
Definition b_and (values : list nat) : bddM nat := λ B, conjunction B values.
Definition b_or (values : list nat) : bddM nat := λ B, disjunction B values.
Definition b_iff (first second : nat) : bddM nat := λ B, equivalence B first second.
Definition b_ite (condition when_true when_false : nat) : bddM nat := λ B, ite B condition when_true when_false.
Definition b_exists (reference : nat) (variables : gset nat) : bddM nat := λ B, exists_ B reference variables.
Definition b_rename (reference : nat) (mapping : gmap nat nat) : bddM nat := λ B, rename B reference mapping.

(* ------------------------------------------------------------------ *)
(** ** State variables *)

Record StateVariables := mkVariables { sv_current : nat; sv_following : nat }.
Record Choice := mkChoice { ch_route : option str; ch_variable : nat }.

(** A pending arrival: a Join, the supersteps that remain, and the source. *)
Notation JoinKey := (CompiledJoin * Z * str)%type.
Notation RouteOptions := (gmap str (list (option str))).
Notation JoinsBySource := (gmap str (list CompiledJoin)).

(** [_FrontierRelation]: the topology and its variables. *)
Record FrontierRelation := mkRelation {
  fr_entries : list str;
  fr_nodes : list str;
  fr_route_options : RouteOptions;
  fr_direct_targets : Successors;
  fr_conditional_targets : Conditionals;
  fr_joins : list CompiledJoin;
  fr_choices : list (str * list Choice);
  fr_node_state : list (str * StateVariables);
  fr_join_state : list (JoinKey * StateVariables)
}.

(** [_unique_joins] *)
Definition unique_joins (joins_by_source : JoinsBySource) : list CompiledJoin :=
  sorted_key (λ join, (join_sources (cj_identity join), join_target (cj_identity join)))
    (remove_dups (concat (items joins_by_source).*2)).

(** [neighbours[a].update(bs)] *)
Definition add_neighbours (neighbours : Successors) (node : str) (others : gset str) : result Successors :=
  known ← dict_get neighbours node; Ok (<[node := known ∪ others]> neighbours).

(** [neighbours[source].add(target); neighbours[target].add(source)] *)
Definition link (neighbours : Successors) (source target : str) : result Successors :=
  neighbours ← add_neighbours neighbours source {[target]}; add_neighbours neighbours target {[source]}.

(** The nodes a Join ties together. *)
Definition join_members (join : CompiledJoin) : list str :=
  join_sources (cj_identity join)
  ++ (if bool_decide (join_target (cj_identity join) = END) then [] else [join_target (cj_identity join)]).

Definition neighbours_of (route_options : RouteOptions) (direct_targets : Successors)
    (conditional_targets : Conditionals) (joins_by_source : JoinsBySource) : result Successors :=
  let neighbours : Successors := (λ _ : list (option str), (∅ : gset str)) <$> route_options in
  neighbours ← py_for_state (items direct_targets) neighbours (λ neighbours '(source, targets),
    py_for_state (sorted_elements targets) neighbours (λ neighbours target, link neighbours source target));
  neighbours ← py_for_state (items conditional_targets) neighbours (λ neighbours '(source, targets),
    py_for_state (snd <$> targets) neighbours (λ neighbours target,
      if bool_decide (target = END) then Ok neighbours else link neighbours source target));
  py_for_state (concat (items joins_by_source).*2) neighbours (λ neighbours join,
    py_for_state (join_members join) neighbours (λ neighbours first,
      add_neighbours neighbours first
        (list_to_set (List.filter (λ member, negb (bool_decide (member = first))) (join_members join))))).

(** One component of [_symbolic_order], popped from the top of the stack. *)
Fixpoint component_loop (fuel : nat) (neighbours : Successors) (pending : list str) (unseen component : gset str)
    : result (gset str * gset str) :=
  match fuel with
  | O => diverged
  | S fuel =>
      match pending with
      | [] => Ok (unseen, component)
      | source :: pending =>
          next ← dict_get neighbours source;
          let '(pending, unseen, component) := fold_left (λ '(pending, unseen, component) target,
              if bool_decide (target ∈ unseen)
              then (target :: pending, unseen ∖ {[target]}, {[target]} ∪ component)
              else (pending, unseen, component)) (sorted_elements next) (pending, unseen, component) in
          component_loop fuel neighbours pending unseen component
      end
  end.

Fixpoint order_components (fuel : nat) (neighbours : Successors) (unseen : gset str) (ordered : list str)
    : result (list str) :=
  match sorted_elements unseen with
  | [] => Ok ordered
  | root :: _ =>
      match fuel with
      | O => diverged
      | S fuel =>
          '(unseen, component) ← component_loop (1 + size unseen) neighbours [root] (unseen ∖ {[root]}) {[root]};
          order_components fuel neighbours unseen (ordered ++ sorted_elements component)
      end
  end.

(** [_symbolic_order] *)
Definition symbolic_order (route_options : RouteOptions) (direct_targets : Successors)
    (conditional_targets : Conditionals) (joins_by_source : JoinsBySource) : result (list str) :=
  neighbours ← neighbours_of route_options direct_targets conditional_targets joins_by_source;
  order_components (size (dom route_options)) neighbours (dom route_options) [].

(** [range(1, n + 1)] *)
Definition range_from_1 (n : Z) : list Z := Z.of_nat <$> seq 1 (Z.to_nat n).

(** [max(offset for _source, offset in join.source_target_offsets)] *)
Definition maximum_offset (join : CompiledJoin) : result Z := py_max (snd <$> cj_source_target_offsets join).

(** [_join_state_keys] *)
Definition join_state_keys (joins : list CompiledJoin) : result (list JoinKey) :=
  keys ← mapM (λ join, maximum ← maximum_offset join;
    Ok (concat ((λ remaining, (λ source, (join, remaining, source)) <$> join_sources (cj_identity join))
                <$> range_from_1 maximum))) joins;
  Ok (concat keys).

(** The routes a node may settle with: [tuple(sorted(conditional)) if conditional else
    self.route_options[node]]. *)
Definition node_options (route_options : RouteOptions) (conditional_targets : Conditionals) (node : str)
    : result (list (option str)) :=
  conditional ← dict_get conditional_targets node;
  if is_nil conditional then dict_get route_options node else Ok (Some <$> sorted (fst <$> conditional)).

(** [_choices_for_node] *)
Definition choices_for_node (route_options : RouteOptions) (conditional_targets : Conditionals) (node : str)
    : bddM (list Choice) :=
  options ← lift (node_options route_options conditional_targets node);
  if (1 <? length options)%nat
  then mapM (λ route, variable ← b_variable; mret (mkChoice route variable)) options
  else mret [].

(** One iteration of the allocation loop of [__init__]. *)
Definition allocate_node (route_options : RouteOptions) (conditional_targets : Conditionals) (node : str)
    : bddM (str * (StateVariables * list Choice)) :=
  current ← b_variable;
  choices ← choices_for_node route_options conditional_targets node;
  following ← b_variable;
  mret (node, (mkVariables current following, choices)).

(** [_FrontierRelation.__init__], up to the variables. *)
Definition FrontierRelation_new (entries : list str) (route_options : RouteOptions) (direct_targets : Successors)
    (conditional_targets : Conditionals) (joins_by_source : JoinsBySource) : bddM FrontierRelation :=
  nodes ← lift (symbolic_order route_options direct_targets conditional_targets joins_by_source);
  let joins := unique_joins joins_by_source in
  allocated ← mapM (allocate_node route_options conditional_targets) nodes;
  join_keys ← lift (join_state_keys joins);
  join_current ← mapM (λ _, b_variable) join_keys;
  join_following ← mapM (λ _, b_variable) join_keys;
  mret (mkRelation entries nodes route_options direct_targets conditional_targets joins
    (List.filter (λ '(_, choices), negb (is_nil choices)) ((λ '(node, (_, choices)), (node, choices)) <$> allocated))
    ((λ '(node, (variables, _)), (node, variables)) <$> allocated)
    (zip join_keys (zip_with mkVariables join_current join_following))).

(* ------------------------------------------------------------------ *)
(** ** The relation *)

Section relation.
Context (fr : FrontierRelation).

Definition current_variables : list nat :=
  (sv_current ∘ snd <$> fr_node_state fr) ++ (sv_current ∘ snd <$> fr_join_state fr).
Definition following_variables : list nat :=
  (sv_following ∘ snd <$> fr_node_state fr) ++ (sv_following ∘ snd <$> fr_join_state fr).
Definition choice_variables : list nat := concat ((λ entry : str * list Choice, ch_variable <$> entry.2) <$> fr_choices fr).

(** [self.node_state[node].current] and the like. *)
Definition node_variables (node : str) : result StateVariables := assoc_get (fr_node_state fr) node.
Definition join_variables (key : JoinKey) : result StateVariables := assoc_get (fr_join_state fr) key.

(** [_state_literal] *)
Definition state_literal (variable : nat) (value : bool) : bddM nat :=
  if value then mret variable else b_not variable.

(** [_choice_literal] *)
Definition choice_literal (node : str) (route : option str) : result nat :=
  match default [] (assoc node (fr_choices fr)) with
  | [] =>
      options ← dict_get (fr_conditional_targets fr) node;
      if negb (is_nil options)
      then Ok (if mem route (Some <$> (fst <$> options)) then bdd_true else bdd_false)
      else (exported ← dict_get (fr_route_options fr) node;
            Ok (if mem route exported then bdd_true else bdd_false))
  | choices =>
      match List.find (λ choice, bool_decide (ch_route choice = route)) choices with
      | Some choice => Ok (ch_variable choice)
      | None => Ok bdd_false
      end
  end.

(** The pairs [(x, y)] of a list with [x] before [y], in the order of the nested loops. *)
Fixpoint pairs_of {A} (xs : list A) : list (A * A) :=
  match xs with [] => [] | x :: rest => ((λ y, (x, y)) <$> rest) ++ pairs_of rest end.

(** [_exactly_one_when_active] *)
Definition exactly_one_when_active (literals : list nat) (active : nat) : bddM nat :=
  at_least_one ← b_or literals;
  clause ← b_ite active at_least_one bdd_true;
  clauses ← mapM (λ '(first, second),
    both ← b_apply AND first second; excluded ← b_not both; b_ite active excluded bdd_true) (pairs_of literals);
  b_and (clause :: clauses).

(** [_choice_constraints] *)
Definition choice_constraints : bddM nat :=
  clauses ← mapM (λ '(node, choices),
    variables ← lift (node_variables node);
    exactly_one_when_active (ch_variable <$> choices) (sv_current variables)) (fr_choices fr);
  b_and clauses.

(** [_join_arrival] *)
Definition join_arrival (join : CompiledJoin) (remaining : Z) (source : str) : bddM nat :=
  pending ← lift (join_variables (join, remaining, source));
  offset ← lift (target_offset join source);
  if offset =? remaining
  then (source_variables ← lift (node_variables source); b_or [sv_current pending; sv_current source_variables])
  else b_or [sv_current pending].

(** A cause of one target: its literal and the sources it names. *)
Notation Cause := (nat * list str)%type.

(** The causes a source contributes by its direct and conditional edges. *)
Definition edge_causes (source : str) : bddM (list (str * Cause)) :=
  variables ← lift (node_variables source);
  direct ← lift (dict_get (fr_direct_targets fr) source);
  conditional ← lift (dict_get (fr_conditional_targets fr) source);
  routed ← mapM (λ '(route, target),
    literal ← lift (choice_literal source (Some route));
    both ← b_apply AND (sv_current variables) literal;
    mret (target, (both, [source])))
    (List.filter (λ '(_, target), negb (bool_decide (target = END))) conditional);
  mret (((λ target, (target, (sv_current variables, [source]))) <$> sorted_elements direct) ++ routed).

(** The constraints and causes of one Join at one distance from its target. *)
Definition join_step (join : CompiledJoin) (remaining : Z) : bddM (list nat * list (str * Cause)) :=
  let identity := cj_identity join in
  arrivals ← mapM (λ source, arrival ← join_arrival join remaining source; mret (source, arrival))
               (join_sources identity);
  any_arrival ← b_or (snd <$> arrivals);
  complete ← b_and (snd <$> arrivals);
  '(constraint, causes) ← (
    if remaining =? 1 then
      (constraint ← b_ite any_arrival complete bdd_true;
       mret (constraint, if bool_decide (join_target identity = END) then []
                         else [(join_target identity, (complete, join_sources identity))]))
    else (constraint ← b_not complete; mret (constraint, [])));
  per_source ← mapM (λ source,
    offset ← lift (target_offset join source);
    duplicates ← (if offset =? remaining then
        (pending ← lift (join_variables (join, remaining, source));
         source_variables ← lift (node_variables source);
         duplicate ← b_apply AND (sv_current pending) (sv_current source_variables);
         excluded ← b_not duplicate; mret [excluded])
      else mret []);
    moves ← (if 1 <? remaining then
        (next ← lift (join_variables (join, remaining - 1, source));
         arrival ← lift (assoc_get arrivals source);
         move ← b_iff (sv_following next) arrival; mret [move])
      else mret []);
    mret (duplicates ++ moves)) (join_sources identity);
  mret (constraint :: concat per_source, causes).

(** All steps of one Join. *)
Definition join_steps (join : CompiledJoin) : bddM (list nat * list (str * Cause)) :=
  maximum ← lift (maximum_offset join);
  steps ← mapM (join_step join) (range_from_1 maximum);
  mret (concat (fst <$> steps), concat (snd <$> steps)).

(** A pair of causes of one target that may fire together. *)
Notation DuplicateCause := (nat * str * list str)%type.

(** The constraints of one target: no two causes at once, and its next state. *)
Definition target_constraints (causes : list (str * Cause)) (target : str)
    : bddM (list nat * list DuplicateCause) :=
  let target_causes := snd <$> List.filter (λ '(candidate, _), bool_decide (candidate = target)) causes in
  duplicates ← mapM (λ '((first, first_sources), (second, second_sources)),
    duplicate ← b_apply AND first second; excluded ← b_not duplicate;
    mret (excluded, (duplicate, target, sorted_set (first_sources ++ second_sources)))) (pairs_of target_causes);
  expression ← b_or (fst <$> target_causes);
  variables ← lift (node_variables target);
  next ← b_iff (sv_following variables) expression;
  mret ((fst <$> duplicates) ++ [next], snd <$> duplicates).

(** Nothing is pending at the largest distance after a step. *)
Definition join_tail (join : CompiledJoin) : bddM (list nat) :=
  maximum ← lift (maximum_offset join);
  mapM (λ source, variables ← lift (join_variables (join, maximum, source)); b_not (sv_following variables))
    (join_sources (cj_identity join)).

(** [_build_relation]: the relation with its duplicate causes. *)
Definition build_relation (choice : nat) : bddM (nat * list DuplicateCause) :=
  by_edges ← mapM edge_causes (fr_nodes fr);
  by_joins ← mapM join_steps (fr_joins fr);
  let causes := concat by_edges ++ concat (snd <$> by_joins) in
  by_targets ← mapM (target_constraints causes) (fr_nodes fr);
  tails ← mapM join_tail (fr_joins fr);
  relation ← b_and (choice :: concat (fst <$> by_joins) ++ concat (fst <$> by_targets) ++ concat tails);
  mret (relation, concat (snd <$> by_targets)).

(** [_initial_state] *)
Definition initial_state : bddM nat :=
  nodes ← mapM (λ node, variables ← lift (node_variables node);
    state_literal (sv_current variables) (mem node (fr_entries fr))) (fr_nodes fr);
  joins ← mapM (λ '(_, variables), b_not (sv_current variables)) (fr_join_state fr);
  b_and (nodes ++ joins).

(* ------------------------------------------------------------------ *)
(** ** Reachable frontiers and completion routes *)

(** At most [2^n] iterations of a loop body that continues with [inl] and returns with [inr]. *)
Fixpoint repeat_pow2 {S R} (n : nat) (body : S → bddM (S + R)) (state : S) : bddM (S + R) :=
  match n with
  | O => body state
  | S n =>
      step ← repeat_pow2 n body state;
      match step with inl state => repeat_pow2 n body state | inr result => mret (inr result) end
  end.

(** One iteration of [reachable]. *)
Definition reachable_step (relation : nat) (hidden : gset nat) (renaming : gmap nat nat) (reached : nat)
    : bddM (nat + nat) :=
  both ← b_apply AND reached relation;
  projected ← b_exists both hidden;
  image ← b_rename projected renaming;
  expanded ← b_apply OR reached image;
  mret (if (expanded =? reached)%nat then inr reached else inl expanded).

(** [reachable]: every iteration that goes on adds a state, so [2^n] additions suffice. *)
Definition reachable (relation initial : nat) : bddM nat :=
  hidden ← mapM b_index (current_variables ++ choice_variables);
  renamed_from ← mapM b_index following_variables;
  renamed_to ← mapM b_index current_variables;
  result ← repeat_pow2 (S (length current_variables))
    (reachable_step relation (list_to_set hidden) (list_to_map (zip renamed_from renamed_to))) initial;
  match result with inr reached => mret reached | inl _ => lift diverged end.

(** [_terminal_route_presence] *)
Definition terminal_route_presence (route : option str) : bddM nat :=
  presence ← mapM (λ node,
    variables ← lift (node_variables node);
    conditional ← lift (dict_get (fr_conditional_targets fr) node);
    exported ← lift (dict_get (fr_route_options fr) node);
    if negb (is_nil conditional) || mem route exported
    then (literal ← lift (choice_literal node route);
          both ← b_apply AND (sv_current variables) literal; mret [both])
    else mret []) (fr_nodes fr);
  b_or (concat presence).

Definition b_satisfiable (reference : nat) : bddM bool := λ B, Ok (satisfiable B reference, B).

(** [completion_routes], with the relation that [__init__] built. *)
Definition completion_routes_of (choice relation : nat) (duplicates : list DuplicateCause) (initial following_empty : nat)
    : bddM (list (option str)) :=
  reached ← reachable relation initial;
  _ ← mapM (λ '(duplicate, _, _),
    question ← b_and [reached; choice; duplicate];
    possible ← b_satisfiable question;
    if (possible : bool)
    then raise GraphValidationError "target has multiple activation gates without an explicit Join"
    else mret tt) duplicates;
  active ← b_or (sv_current ∘ snd <$> fr_node_state fr);
  terminal_transition ← b_and [reached; active; relation; following_empty];
  let routes := sorted_set_key route_key (concat (items (fr_route_options fr)).*2) in
  route_presence ← mapM (λ route, presence ← terminal_route_presence route; mret (route, presence)) routes;
  exposed ← mapM (λ '(route, presence),
    question ← b_apply AND terminal_transition presence;
    possible ← b_satisfiable question;
    mret (if (possible : bool) then [route] else [])) route_presence;
  _ ← mapM (λ '((_, first), (_, second)),
    question ← b_and [terminal_transition; first; second];
    possible ← b_satisfiable question;
    if (possible : bool)
    then raise GraphValidationError "terminal frontier may expose conflicting completion routes"
    else mret tt) (pairs_of route_presence);
  if is_nil (concat exposed)
  then raise GraphValidationError "graph has no statically viable successful completion"
  else mret (concat exposed).
End relation.

(** [prove_completion_routes]: the constructor builds the relation, [completion_routes] reads it. *)
Definition prove_completion_routes (entries : list str) (route_options : RouteOptions) (direct_targets : Successors)
    (conditional_targets : Conditionals) (joins_by_source : JoinsBySource) : result (list (option str)) :=
  let run : bddM (list (option str)) :=
    fr ← FrontierRelation_new entries route_options direct_targets conditional_targets joins_by_source;
    choice ← choice_constraints fr;
    '(relation, duplicates) ← build_relation fr choice;
    initial ← initial_state fr;
    negated ← mapM b_not (following_variables fr);
    following_empty ← b_and negated;
    completion_routes_of fr choice relation duplicates initial following_empty in
  '(routes, _) ← run bdd_init; Ok routes.
