(* ===== verification/Compiler.v ===== *)
(** * The graph compiler

    [_collect_control_topology], [_resolve_entries], [_compile_definition] and
    [GraphCompiler] of [execution/graph/compiler.py]: how the analyses, the value bindings
    and the completion proof are put together into one compiled graph, and how a family of
    nested definitions is compiled once per definition object. *)

From Stdlib Require Import ZArith NArith Lia Bool String.
From stdpp Require Import prelude strings gmap sorting.
From S2P Require Import Prelude Identity Topology GraphDefinition ControlGraph JoinPlans Bindings Bdd FrontierRelation.

Set Default Goal Selector "!".
Open Scope Z_scope.

(* ------------------------------------------------------------------ *)
(** ** Control topology *)

(** The relations [_collect_control_topology] fills while it reads the edges. *)
Record ControlTopology := mkControl {
  ct_direct : Successors;
  ct_conditional : Conditionals;
  ct_gates : ActivationGates;
  ct_gates_to_end : list (gset str);
  ct_joins : list (list str * str)
}.
#[export] Instance control_topology_eta : Eta ControlTopology := λ r,
  mkControl (ct_direct r) (ct_conditional r) (ct_gates r) (ct_gates_to_end r) (ct_joins r).

(** [{node_id: value for node_id in node_ids}] *)
Definition for_each_node {A} (node_ids : list str) (value : A) : gmap str A :=
  list_to_map ((λ node_id, (node_id, value)) <$> node_ids).

(** [if target != END: activation_gates[target].append(gate) else: gates_to_end.append(...)] *)
Definition add_gate (target : str) (gate : RawGate) (control : ControlTopology) : result ControlTopology :=
  if bool_decide (target = END)
  then Ok (control <| ct_gates_to_end := ct_gates_to_end control ++ [list_to_set (fst <$> gate)] |>)
  else (gates ← dict_get (ct_gates control) target;
        Ok (control <| ct_gates := <[target := gates ++ [gate]]> (ct_gates control) |>)).

(** One edge of [_collect_control_topology]. *)
Definition collect_edge (control : ControlTopology) (edge : Edge) : result ControlTopology :=
  match edge with
  | JoinEdge sources target =>
      let sources := sorted sources in
      add_gate target ((λ source, (source, None)) <$> sources)
        (control <| ct_joins := ct_joins control ++ [(sources, target)] |>)
  | DirectEdge source target =>
      control ← (if bool_decide (target = END) then Ok control else
        (known ← dict_get (ct_direct control) source;
         Ok (control <| ct_direct := <[source := {[target]} ∪ known]> (ct_direct control) |>)));
      add_gate target [(source, None)] control
  | ConditionalEdge source route target =>
      known ← dict_get (ct_conditional control) source;
      add_gate target [(source, Some route)]
        (control <| ct_conditional := <[source := dict_set route target known]> (ct_conditional control) |>)
  end.

Section compiler.
Context {V W : Type} `{EqDecision V} `{EqDecision W} (value_type : V → W).
Notation Declarations := (list (OutputDeclaration V)).
Notation Nodes := (list (str * NodeDefinition V)).
Notation Nested := (list (str * CompiledGraph V)).

(** The routes a node may complete with on its own. *)
Definition terminal_domain (nested : Nested) (node_id : str) (node : NodeDefinition V) : result (list (option str)) :=
  match node with
  | CallableNode _ _ _ _ exported_routes => Ok (if is_nil exported_routes then [None] else Some <$> exported_routes)
  | NestedGraphNode _ _ _ => child ← assoc_get nested node_id; Ok (completion_routes child)
  end.

(** One node of [_collect_control_topology]: its route options. *)
Definition node_route_options (nested : Nested) (control : ControlTopology) (join_sources : list str)
    (entry : str * NodeDefinition V) : result (str * list (option str)) :=
  let '(node_id, node) := entry in
  conditional ← dict_get (ct_conditional control) node_id;
  direct ← dict_get (ct_direct control) node_id;
  let has_control_successor := negb (bool_decide (direct = ∅)) || mem node_id join_sources in
  domain ← terminal_domain nested node_id node;
  let options := if negb (is_nil conditional) then Some <$> sorted (fst <$> conditional)
                 else if has_control_successor then [None]
                 else sorted_set_key route_key domain in
  match node with
  | CallableNode _ _ _ _ exported_routes =>
      raise_if (negb (is_nil exported_routes) && (negb (is_nil conditional) || has_control_successor)) GraphValidationError
        "node exports terminal routes but is not a terminal callable"
  | NestedGraphNode _ _ _ =>
      let missing := List.filter (λ route, negb (mem route options)) domain in
      let unexposed := List.filter (λ route, negb (mem route domain)) options in
      raise_if (negb (is_nil conditional) && negb (is_nil missing)) GraphValidationError
        "nested node may complete with routes not declared by its conditional edges";;
      raise_if (negb (is_nil conditional) && negb (is_nil unexposed)) GraphValidationError
        "nested node declares conditional routes the child cannot expose";;
      raise_if (has_control_successor && negb (is_nil missing)) GraphValidationError
        "nested node may export routes before its control successors complete"
  end;;
  Ok (node_id, options).

(** [_collect_control_topology] *)
Definition collect_control_topology (nodes : Nodes) (nested : Nested) (edges : list Edge)
    : result (ControlTopology * RouteOptions) :=
  let node_ids := sorted (fst <$> nodes) in
  control ← py_for_state edges
    (mkControl (for_each_node node_ids ∅) (for_each_node node_ids []) (for_each_node node_ids []) [] []) collect_edge;
  let join_sources := concat (fst <$> ct_joins control) in
  route_options ← mapM (node_route_options nested control join_sources) nodes;
  Ok (control, list_to_map route_options).

(** [_resolve_entries] *)
Definition resolve_entries (node_ids declared_entries : list str) (data_dependencies : Successors)
    (activation_gates : ActivationGates) : result (list str) :=
  let explicit_entries := sorted declared_entries in
  dependent ← any_of explicit_entries (λ node_id, sources ← dict_get data_dependencies node_id;
    Ok (negb (bool_decide (sources = ∅))));
  raise_if dependent GraphValidationError "an explicit START target cannot require a node output";;
  py_for (items data_dependencies) (λ '(target, sources),
    if bool_decide (sources = ∅) then Ok tt else
    (gates ← dict_get activation_gates target;
     raise_if (is_nil gates) GraphValidationError "node consumes node outputs but has no incoming control edge"));;
  automatic_entries ← select node_ids (λ node_id,
    if mem node_id explicit_entries then Ok false else
    (sources ← dict_get data_dependencies node_id;
     if negb (bool_decide (sources = ∅)) then Ok false else
     (gates ← dict_get activation_gates node_id; Ok (is_nil gates))));
  let entries := sorted (explicit_entries ++ automatic_entries) in
  raise_if (is_nil entries) MissingEntryError "graph definition requires at least one automatic or explicit entry";;
  Ok entries.

(* ------------------------------------------------------------------ *)
(** ** One definition *)

(** [positions.__getitem__] *)
Definition position_of (resource_order : list str) (resource_id : str) : result nat :=
  match list_find (λ candidate, candidate = resource_id) resource_order with
  | Some (position, _) => Ok position
  | None => Raise (Exn KeyError "key")
  end.

(** The node with its resources in the order of the graph. *)
Definition canonical_node (resource_order : list str) (node : NodeDefinition V) : result (NodeDefinition V) :=
  match node with
  | CallableNode node_id inputs outputs resources exported_routes =>
      keyed ← mapM (λ resource_id, position ← position_of resource_order resource_id; Ok (position, resource_id)) resources;
      Ok (CallableNode node_id inputs outputs (snd <$> sorted_key fst keyed) exported_routes)
  | NestedGraphNode _ _ _ => Ok node
  end.

(** [node.outputs], or the outputs of the nested graph. *)
Definition outputs_of (nested : Nested) (nodes : Nodes) (node_id : str) : result Declarations :=
  node ← assoc_get nodes node_id;
  match node with
  | CallableNode _ _ outputs _ _ => Ok outputs
  | NestedGraphNode _ _ _ => child ← assoc_get nested node_id; Ok (nested_outputs child)
  end.

(** [successors[source].add(join.target)] for the Joins that do not end the graph. *)
Definition add_join_successors (successors : Successors) (joins : list (list str * str)) : result Successors :=
  py_for_state joins successors (λ successors '(sources, target),
    if bool_decide (target = END) then Ok successors else
    py_for_state sources successors (λ successors source,
      known ← dict_get successors source; Ok (<[source := {[target]} ∪ known]> successors))).

(** No consumer runs before its producer on a control path, unless each of its gates carries the producer. *)
Definition check_data_order (data_dependencies : Successors) (activation_gates : ActivationGates) (successors : Successors)
    : result unit :=
  py_for (items data_dependencies) (λ '(target, sources),
    py_for (sorted_elements sources) (λ source,
      gates ← dict_get activation_gates target;
      early ← (if bool_decide (target = source) then Ok true else
               (reaches ← can_reach target source successors;
                Ok (reaches && negb (all_activation_gates_include source gates))));
      raise_if early GraphValidationError "node output is not guaranteed before its controlled node")).

(** Every producer is guaranteed to have run. *)
Definition check_producers (data_dependencies : Successors) (guarantees : Guarantees) : result unit :=
  py_for (items data_dependencies) (λ '(target, sources),
    guaranteed ← dict_get guarantees target;
    raise_if (negb (bool_decide (sources ⊆ guaranteed))) GraphValidationError
      "controlled node can activate before required producers").

(** [index[key].append(join)] *)
Definition append_plan (key : str) (join : CompiledJoin) (index : gmap str (list CompiledJoin))
    : result (gmap str (list CompiledJoin)) :=
  known ← dict_get index key; Ok (<[key := known ++ [join]]> index).

(** One plan of [joins_by_source] and [joins_by_target]. *)
Definition index_join (index : gmap str (list CompiledJoin) * gmap str (list CompiledJoin)) (join : CompiledJoin)
    : result (gmap str (list CompiledJoin) * gmap str (list CompiledJoin)) :=
  let '(by_source, by_target) := index in
  by_target ← (if bool_decide (join_target (cj_identity join) = END) then Ok by_target
               else append_plan (join_target (cj_identity join)) join by_target);
  by_source ← py_for_state (join_sources (cj_identity join)) by_source (λ by_source source, append_plan source join by_source);
  Ok (by_source, by_target).

Definition index_joins (node_ids : list str) (joins : list CompiledJoin)
    : result (gmap str (list CompiledJoin) * gmap str (list CompiledJoin)) :=
  py_for_state joins (for_each_node node_ids [], for_each_node node_ids []) index_join.

(** One graph output. *)
Definition compile_output (graph_inputs : Declarations) (node_outputs : gmap str Declarations)
    (terminal_guarantees : gset str) (absolute_levels : gmap str Z) (gates : list (gset str))
    (output : GraphOutputDeclaration V) : result (GraphOutputBinding V) :=
  '(source, descriptor) ← resolve_source (gd_source output) graph_inputs node_outputs None;
  publication ← match source with
    | FromGraphInput _ => Ok None
    | FromNodeOutput port =>
        raise_if (negb (bool_decide (no_node_id port ∈ terminal_guarantees))) GraphValidationError
          "graph output is not guaranteed before every successful completion";;
        selection ← output_publication_selection port absolute_levels gates;
        Ok (Some selection)
    end;
  Ok (mkOutputBinding (mkGraphOutput (gd_boundary_name output)) source descriptor publication).

(** One input binding with its publication coordinate. *)
Definition publish_binding (node_id : str) (absolute_levels : gmap str Z) (activation_gates : ActivationGates)
    (joins_by_target : gmap str (list CompiledJoin)) (binding : ResolvedInputBinding V) : result (ResolvedInputBinding V) :=
  publication ← match rib_source binding with
    | ResolvedValue (FromNodeOutput port) =>
        selection ← input_publication_selection port node_id absolute_levels activation_gates joins_by_target;
        Ok (Some selection)
    | _ => Ok (rib_publication binding)
    end;
  Ok (mkInputBinding (rib_destination binding) (rib_source binding) (rib_descriptor binding) publication).

(** The publication and the materialization of one node. *)
Definition compile_node (definition : GraphDefinition V) (node_outputs : gmap str Declarations)
    (input_bindings_by_node : gmap str (list (ResolvedInputBinding V))) (absolute_levels : gmap str Z)
    (activation_gates : ActivationGates) (joins_by_target : gmap str (list CompiledJoin)) (entry : nat * str)
    : result (str * (FrameDescriptor V * MaterializationPlan V)) :=
  let '(ordinal, node_id) := entry in
  outputs ← dict_get node_outputs node_id;
  publication ← frame_descriptor definition NODE_OUTPUT (Z.of_nat ordinal) outputs;
  bindings ← dict_get input_bindings_by_node node_id;
  published ← mapM (publish_binding node_id absolute_levels activation_gates joins_by_target) bindings;
  descriptor ← frame_descriptor definition NODE_INPUT (Z.of_nat ordinal)
    ((λ binding, mkOutputDeclaration (ni_local_name (rib_destination binding)) (rib_descriptor binding)) <$> published);
  Ok (node_id, (publication, mkMaterialization published descriptor)).

(** [frozen_map({node_id: tuple(sorted(map(_compiled_activation_gate, gates)))})] *)
Definition compiled_gates (control : ControlTopology) : result (FrozenMap (list ActivationGate)) :=
  gates ← mapM (λ '(node_id, gates),
    compiled ← mapM (λ gate, compiled_activation_gate gate (ct_conditional control)) gates;
    Ok (node_id, sorted_key activation_gate_sort_key compiled)) (items (ct_gates control));
  Ok (frozen_map gates).

(** A compiled node: what the engine reads of its definition. *)
Definition compiled_node (node : NodeDefinition V) : GraphNode :=
  match node with
  | CallableNode node_id _ _ resources exported_routes => CallableNodeDefinition node_id resources exported_routes
  | NestedGraphNode node_id _ _ => NestedGraphNodeDefinition node_id
  end.

(** The control facts of a definition, up to the completion proof. *)
Record ControlPlan := mkControlPlan {
  pl_entries : list str;
  pl_control : ControlTopology;
  pl_route_options : RouteOptions;
  pl_terminal_gates : list (gset str);
  pl_terminal_guarantees : gset str;
  pl_absolute_levels : gmap str Z;
  pl_joins_by_source : gmap str (list CompiledJoin);
  pl_joins_by_target : gmap str (list CompiledJoin);
  pl_completion_routes : list (option str)
}.

(** The control analyses of [_compile_definition], in their order. *)
Definition analyse_control (node_ids entries : list str) (control : ControlTopology) (route_options : RouteOptions)
    (data_dependencies : Successors) : result ControlPlan :=
  static ← static_successors node_ids (ct_direct control) (ct_conditional control);
  reached ← reachable_nodes entries static (ct_joins control);
  raise_if (negb (bool_decide ((list_to_set node_ids : gset str) ⊆ reached))) UnreachableNodeError "unreachable nodes";;
  successors ← add_join_successors static (ct_joins control);
  gates ← terminal_gates node_ids (ct_gates_to_end control) successors;
  check_data_order data_dependencies (ct_gates control) successors;;
  route_requirements ← validate_joint_activation_paths node_ids entries (ct_gates control) data_dependencies
    (ct_conditional control) successors;
  guarantees ← guaranteed_sets node_ids entries (ct_gates control);
  check_producers data_dependencies guarantees;;
  validate_cycle_exits node_ids successors gates;;
  terminal ← terminal_guarantees guarantees gates;
  absolute_levels ← absolute_activation_levels node_ids entries successors;
  joins ← compile_join_occurrence_plans (ct_joins control) entries (ct_gates control) successors route_requirements
    (ct_conditional control) absolute_levels;
  '(joins_by_source, joins_by_target) ← index_joins node_ids joins;
  completion ← prove_completion_routes entries route_options (ct_direct control) (ct_conditional control) joins_by_source;
  Ok (mkControlPlan entries control route_options gates terminal absolute_levels joins_by_source joins_by_target completion).

(** [_compile_definition] *)
Definition compile_definition (definition : GraphDefinition V) (nested : Nested) : result (CompiledGraph V) :=
  let resource_order := definition_resources definition in
  nodes ← mapM (λ node, node ← canonical_node resource_order node; Ok (node_id node, node)) (definition_nodes definition);
  let nodes : Nodes := fold_left (λ nodes '(node_id, node), dict_set node_id node nodes) nodes [] in
  let node_ids := sorted (fst <$> nodes) in
  graph_inputs ← collect_graph_inputs value_type definition;
  node_outputs ← mapM (λ node_id, outputs ← outputs_of nested nodes node_id; Ok (node_id, outputs)) node_ids;
  let node_outputs : gmap str Declarations := list_to_map node_outputs in
  '(input_bindings_by_node, predecessor_bindings_by_node, data_dependencies) ←
    resolve_input_bindings nodes node_ids graph_inputs node_outputs;
  '(control, route_options) ← collect_control_topology nodes nested (definition_edges definition);
  entries ← resolve_entries node_ids (definition_entries definition) data_dependencies (ct_gates control);
  '(input_bindings_by_node, graph_inputs) ← complete_input_bindings value_type nodes nested graph_inputs
    input_bindings_by_node predecessor_bindings_by_node node_outputs entries (ct_gates control);
  plan ← analyse_control node_ids entries control route_options data_dependencies;
  graph_outputs ← mapM (compile_output graph_inputs node_outputs (pl_terminal_guarantees plan) (pl_absolute_levels plan)
    (pl_terminal_gates plan)) (definition_outputs definition);
  compiled ← mapM (compile_node definition node_outputs input_bindings_by_node (pl_absolute_levels plan) (ct_gates control)
    (pl_joins_by_target plan)) (zip (seq 0 (length node_ids)) node_ids);
  gates ← compiled_gates control;
  input_descriptor ← frame_descriptor definition GRAPH_INPUT 0 graph_inputs;
  output_descriptor ← frame_descriptor definition GRAPH_OUTPUT 0
    ((λ binding, mkOutputDeclaration (go_boundary_name (gob_destination binding)) (gob_descriptor binding)) <$> graph_outputs);
  let transition := mkTransitionPlan (pl_entries plan)
    (frozen_map ((λ '(node_id, targets), (node_id, sorted_elements targets)) <$> items (ct_direct control)))
    (frozen_map ((λ '(node_id, routes), (node_id, frozen_map routes)) <$> items (ct_conditional control)))
    (frozen_map (items route_options))
    (frozen_map ((λ '(node_id, joins), (node_id, sorted_key (λ join, (join_target (cj_identity join), join_sources (cj_identity join))) joins))
                  <$> items (pl_joins_by_source plan)))
    (frozen_map ((λ '(node_id, (_, plan)), (node_id, plan)) <$> compiled))
    (frozen_map ((λ '(node_id, (publication, _)), (node_id, publication)) <$> compiled))
    graph_outputs resource_order gates in
  Ok (mkCompiledGraph (definition_id definition) (definition_version definition)
        (frozen_map ((λ '(node_id, node), (node_id, compiled_node node)) <$> nodes))
        (frozen_map nested) input_descriptor output_descriptor transition
        (sorted (definition_resources definition)) (definition_resume_input definition) (pl_completion_routes plan)).

(* ------------------------------------------------------------------ *)
(** ** [GraphCompiler] *)

(** [_compiled_definitions]: plans by definition object. *)
Notation Memo := (gmap Z (CompiledGraph V)).

(** [_compile_validated] *)
Fixpoint compile_validated (definition : GraphDefinition V) (memo : Memo) {struct definition}
    : result (CompiledGraph V * Memo) :=
  match definition with
  | mkDefinition object definition_id version nodes edges entries outputs resources resume_input =>
  let definition := mkDefinition object definition_id version nodes edges entries outputs resources resume_input in
  match memo !! object with
  | Some existing => Ok (existing, memo)
  | None =>
      '(nested, memo) ← (fix children (nodes : list (NodeDefinition V)) (nested : Nested) (memo : Memo) : result (Nested * Memo) :=
          match nodes with
          | [] => Ok (nested, memo)
          | CallableNode _ _ _ _ _ :: rest => children rest nested memo
          | NestedGraphNode node_id graph _ :: rest =>
              '(child, memo) ← compile_validated graph memo; children rest (dict_set node_id child nested) memo
          end) nodes [] memo;
      compiled ← compile_definition definition nested;
      Ok (compiled, <[object := compiled]> memo)
  end
  end.

(** [GraphCompiler(root, retained).compile()] *)
Definition compile (root : GraphDefinition V) (retained : Memo) : result (CompiledGraph V * Memo) :=
  validate_graph root;; compile_validated root retained.

(** [plan_for] *)
Definition plan_for (memo : Memo) (definition : GraphDefinition V) : result (CompiledGraph V) :=
  dict_get memo (object_id definition).
End compiler.
