(* ===== verification/ControlTopologyProofs.v ===== *)
(** * The control relations of a definition

    [_collect_control_topology] reads valid edges into tables that list exactly the
    declared targets, routes, gates and Joins of every node, and gives each node its
    route options. *)

From Stdlib Require Import ZArith NArith Lia Bool String.
From stdpp Require Import prelude strings gmap sorting.
From S2P Require Import Prelude Identity Topology GraphDefinition ControlGraph ControlGraphProofs JoinPlans Bindings DefinitionProofs Bdd FrontierRelation Compiler.

Set Default Goal Selector "!".
Open Scope nat_scope.

(* ------------------------------------------------------------------ *)
(** ** Edges, read as relations *)

Definition edge_target (edge : Edge) : str :=
  match edge with DirectEdge _ target | ConditionalEdge _ _ target | JoinEdge _ target => target end.

Definition edge_gate (edge : Edge) : RawGate :=
  match edge with
  | DirectEdge source _ => [(source, None)]
  | ConditionalEdge source route _ => [(source, Some route)]
  | JoinEdge sources _ => (λ source, (source, None)) <$> sorted sources
  end.

Definition directs_of (n : str) (edges : list Edge) : list str :=
  omap (λ edge, match edge with
                | DirectEdge source target => if decide (source = n ∧ target ≠ END) then Some target else None
                | _ => None end) edges.

Definition conditionals_of (n : str) (edges : list Edge) : list (str * str) :=
  omap (λ edge, match edge with
                | ConditionalEdge source route target => if decide (source = n) then Some (route, target) else None
                | _ => None end) edges.

Definition gates_into (n : str) (edges : list Edge) : list RawGate :=
  edge_gate <$> filter (λ edge, edge_target edge = n) edges.

Definition joins_of (edges : list Edge) : list (list str * str) :=
  omap (λ edge, match edge with JoinEdge sources target => Some (sorted sources, target) | _ => None end) edges.

(** The tables list what the edges declare. *)
Record control_of (ids : list str) (edges : list Edge) (control : ControlTopology) : Prop := {
  co_direct_dom : ∀ n, n ∈ dom (ct_direct control) ↔ n ∈ ids;
  co_conditional_dom : ∀ n, n ∈ dom (ct_conditional control) ↔ n ∈ ids;
  co_gates_dom : ∀ n, n ∈ dom (ct_gates control) ↔ n ∈ ids;
  co_direct : ∀ n, n ∈ ids → ct_direct control !! n = Some (list_to_set (directs_of n edges));
  co_conditional : ∀ n, n ∈ ids → ct_conditional control !! n = Some (conditionals_of n edges);
  co_gates : ∀ n, n ∈ ids → ct_gates control !! n = Some (gates_into n edges);
  co_end : ct_gates_to_end control = (λ gate : RawGate, list_to_set gate.*1) <$> gates_into END edges;
  co_joins : ct_joins control = joins_of edges
}.

Lemma for_each_node_lookup {A} ids (v : A) n : n ∈ ids → for_each_node ids v !! n = Some v.
Proof.
  intros Hn. unfold for_each_node. induction ids as [|m ids IH]; [by apply elem_of_nil in Hn|]. cbn.
  destruct (decide (m = n)) as [->|Hne]; [by rewrite lookup_insert_eq|]. rewrite lookup_insert_ne by done.
  apply elem_of_cons in Hn as [?|Hn]; [done|by apply IH].
Qed.

Lemma for_each_node_dom {A} ids (v : A) n : n ∈ dom (for_each_node ids v) ↔ n ∈ ids.
Proof.
  unfold for_each_node. rewrite dom_list_to_map, elem_of_list_to_set, <- list_fmap_compose.
  change (fst ∘ λ node_id : str, (node_id, v)) with (@id str). by rewrite list_fmap_id.
Qed.

Lemma dict_set_fresh {A} k (v : A) (d : list (str * A)) : k ∉ d.*1 → dict_set k v d = d ++ [(k, v)].
Proof.
  induction d as [|[k' v'] d IH]; cbn; [done|]. intros [Hne Hk]%not_elem_of_cons. rewrite decide_False by done. by rewrite IH.
Qed.

Lemma conditionals_of_elem n edges route target :
  (route, target) ∈ conditionals_of n edges ↔ ConditionalEdge n route target ∈ edges.
Proof.
  unfold conditionals_of. rewrite list_elem_of_omap. split.
  - intros ([s t|s r t|ss t] & He & Heq); try done. case_decide; [|done]. by simplify_eq.
  - intros He. exists (ConditionalEdge n route target). split; [done|]. by rewrite decide_True.
Qed.

Lemma conditionals_of_keys n edges route : route ∈ (conditionals_of n edges).*1 ↔ (n, route) ∈ route_keys edges.
Proof.
  rewrite list_elem_of_fmap. unfold route_keys. rewrite list_elem_of_omap. split.
  - intros ([r t] & -> & He%conditionals_of_elem). by exists (ConditionalEdge n r t).
  - intros ([s t|s r t|ss t] & He & [= -> ->]). exists (route, t). split; [done|by apply conditionals_of_elem].
Qed.

Lemma conditionals_of_nodup n edges : NoDup (route_keys edges) → NoDup (conditionals_of n edges).*1.
Proof.
  induction edges as [|[s t|s r t|ss t] edges IH]; intros Hnd; [constructor|by apply IH| |by apply IH].
  unfold route_keys in Hnd. cbn in Hnd. apply NoDup_cons in Hnd as [Hx Hnd]. unfold conditionals_of. cbn.
  case_decide as Hs; [subst s|by apply IH]. apply NoDup_cons. split; [|by apply IH].
  intros Hin. apply Hx. exact (proj1 (conditionals_of_keys _ _ _) Hin).
Qed.

Lemma directs_of_elem n edges t : t ∈ directs_of n edges ↔ DirectEdge n t ∈ edges ∧ t ≠ END.
Proof.
  unfold directs_of. rewrite list_elem_of_omap. split.
  - intros ([s u|s r u|ss u] & He & Heq); try done. case_decide as Hd; [|done]. destruct Hd as [-> Hu]. by simplify_eq.
  - intros [He Ht]. exists (DirectEdge n t). split; [done|]. by rewrite decide_True.
Qed.

Lemma joins_of_elem edges sources target :
  (sources, target) ∈ joins_of edges ↔ ∃ declared, JoinEdge declared target ∈ edges ∧ sources = sorted declared.
Proof.
  unfold joins_of. rewrite list_elem_of_omap. split.
  - intros ([s t|s r t|ss t] & He & [= <- <-]). by exists ss.
  - intros (declared & He & ->). by exists (JoinEdge declared target).
Qed.

Lemma gates_into_elem n edges gate :
  gate ∈ gates_into n edges ↔ ∃ edge, edge ∈ edges ∧ edge_target edge = n ∧ gate = edge_gate edge.
Proof. unfold gates_into. rewrite list_elem_of_fmap. setoid_rewrite list_elem_of_filter. naive_solver. Qed.

(* ------------------------------------------------------------------ *)
(** ** Reading the edges *)

(** Tables that agree with [control_of] up to the gates of the last edge. *)
Lemma add_gate_spec ids edges edge control :
  target_valid ids (edge_target edge) → END ∉ ids →
  (∀ n, n ∈ dom (ct_direct control) ↔ n ∈ ids) → (∀ n, n ∈ dom (ct_conditional control) ↔ n ∈ ids) →
  (∀ n, n ∈ dom (ct_gates control) ↔ n ∈ ids) →
  (∀ n, n ∈ ids → ct_direct control !! n = Some (list_to_set (directs_of n (edges ++ [edge])))) →
  (∀ n, n ∈ ids → ct_conditional control !! n = Some (conditionals_of n (edges ++ [edge]))) →
  (∀ n, n ∈ ids → ct_gates control !! n = Some (gates_into n edges)) →
  ct_gates_to_end control = (λ gate : RawGate, list_to_set gate.*1) <$> gates_into END edges →
  ct_joins control = joins_of (edges ++ [edge]) →
  vets (add_gate (edge_target edge) (edge_gate edge) control) (control_of ids (edges ++ [edge])).
Proof.
  intros Ht Hend D1 D2 D3 E1 E2 E3 E4 E5. unfold add_gate.
  assert (∀ n, gates_into n (edges ++ [edge]) = gates_into n edges ++ (if decide (edge_target edge = n) then [edge_gate edge] else [])) as Hinto.
  { intros n. unfold gates_into. rewrite filter_app, fmap_app. f_equal. rewrite filter_cons, filter_nil. by case_decide. }
  case_bool_decide as He.
  - split; cbn; try done.
    + intros n Hn. rewrite E3, Hinto, decide_False, app_nil_r by congruence. done.
    + rewrite E4, Hinto, decide_True, fmap_app by done. done.
  - destruct Ht as [?|Ht]; [done|]. apply vets_bind_get; [by apply D3|]. intros gates Hg. rewrite E3 in Hg by done. injection Hg as <-.
    split; cbn; try done.
    + intros n. rewrite dom_insert, elem_of_union, elem_of_singleton, D3. naive_solver.
    + intros n Hn. rewrite Hinto. destruct (decide (edge_target edge = n)) as [<-|Hne].
      * by rewrite lookup_insert_eq.
      * by rewrite lookup_insert_ne, app_nil_r, E3.
    + rewrite E4, Hinto, decide_False, app_nil_r; [done|done].
Qed.

Lemma directs_of_app n xs ys : directs_of n (xs ++ ys) = directs_of n xs ++ directs_of n ys.
Proof. apply omap_app. Qed.
Lemma conditionals_of_app n xs ys : conditionals_of n (xs ++ ys) = conditionals_of n xs ++ conditionals_of n ys.
Proof. apply omap_app. Qed.
Lemma joins_of_app xs ys : joins_of (xs ++ ys) = joins_of xs ++ joins_of ys.
Proof. apply omap_app. Qed.

Lemma collect_edge_spec ids edges edge control :
  edge_valid ids edge → END ∉ ids → NoDup (route_keys (edges ++ [edge])) → control_of ids edges control →
  vets (collect_edge control edge) (control_of ids (edges ++ [edge])).
Proof.
  intros He Hend Hnd [D1 D2 D3 E1 E2 E3 E4 E5]. destruct edge as [source target|source route target|sources target]; cbn [collect_edge].
  - destruct He as [Hs Ht]. eapply vets_bind.
    + apply (vets_weaken _ (λ c, control_of ids edges (mkControl (ct_direct control) (ct_conditional c) (ct_gates c)
        (ct_gates_to_end c) (ct_joins c)) ∧ (∀ n, n ∈ dom (ct_direct c) ↔ n ∈ ids)
        ∧ ∀ n, n ∈ ids → ct_direct c !! n = Some (list_to_set (directs_of n (edges ++ [DirectEdge source target]))))); [intros c H; exact H|].
      case_bool_decide as Hte.
      * cbn. split; [by destruct control|]. split; [done|]. intros n Hn. rewrite directs_of_app, E1 by done.
        unfold directs_of at 3. cbn. by rewrite decide_False, app_nil_r by naive_solver.
      * apply vets_bind_get; [by apply D1|]. intros known Hk. rewrite E1 in Hk by done. injection Hk as <-. cbn.
        split; [by destruct control|]. split.
        -- intros n. rewrite dom_insert, elem_of_union, elem_of_singleton, D1. naive_solver.
        -- intros n Hn. rewrite directs_of_app. unfold directs_of at 3. cbn. destruct (decide (source = n)) as [->|Hne].
           ++ rewrite lookup_insert_eq, decide_True by done. f_equal. rewrite list_to_set_app_L. cbn. set_solver.
           ++ rewrite lookup_insert_ne, decide_False, app_nil_r by naive_solver. by apply E1.
    + intros c _ ([_ D2' D3' _ E2' E3' E4' E5'] & D1' & E1'). cbn in *.
      apply (add_gate_spec ids edges (DirectEdge source target)); try done.
      * intros n Hn. rewrite conditionals_of_app. unfold conditionals_of at 2. cbn. by rewrite app_nil_r, E2'.
      * rewrite joins_of_app. unfold joins_of at 2. cbn. by rewrite app_nil_r.
  - destruct He as (_ & Hs & Ht). apply vets_bind_get; [by apply D2|]. intros known Hk. rewrite E2 in Hk by done. injection Hk as <-.
    apply (add_gate_spec ids edges (ConditionalEdge source route target)); cbn; try done.
    + intros n. rewrite dom_insert, elem_of_union, elem_of_singleton, D2. naive_solver.
    + intros n Hn. rewrite directs_of_app. unfold directs_of at 2. cbn. by rewrite app_nil_r, E1.
    + intros n Hn. rewrite conditionals_of_app. unfold conditionals_of at 3. cbn. destruct (decide (source = n)) as [->|Hne].
      * rewrite lookup_insert_eq, dict_set_fresh; [done|]. rewrite conditionals_of_keys. rewrite route_keys_app in Hnd.
        apply NoDup_app in Hnd as (_ & Hnd & _). intros Hin. by apply (Hnd _ Hin), list_elem_of_singleton.
      * rewrite lookup_insert_ne, app_nil_r by done. by apply E2.
    + rewrite joins_of_app. unfold joins_of at 2. cbn. by rewrite app_nil_r.
  - destruct He as (_ & _ & Hs & Ht & _). apply (add_gate_spec ids edges (JoinEdge sources target)); cbn; try done.
    + intros n Hn. rewrite directs_of_app. unfold directs_of at 2. cbn. by rewrite app_nil_r, E1.
    + intros n Hn. rewrite conditionals_of_app. unfold conditionals_of at 2. cbn. by rewrite app_nil_r, E2.
    + rewrite joins_of_app, E5. done.
Qed.

Lemma collect_edges_spec ids edges :
  Forall (edge_valid ids) edges → END ∉ ids → NoDup (route_keys edges) →
  vets (py_for_state edges (mkControl (for_each_node ids ∅) (for_each_node ids []) (for_each_node ids []) [] []) collect_edge)
    (control_of ids edges).
Proof.
  intros Hv Hend Hnd. apply vets_state.
  - intros dn edge rest control Hat Hc. apply collect_edge_spec; [|done| |done].
    + rewrite Forall_forall in Hv. by apply Hv, (at_elem _ _ _ _ Hat).
    + rewrite Hat, cons_middle, app_assoc, route_keys_app in Hnd. by apply NoDup_app in Hnd as (? & _ & _).
  - split; cbn; try done; intros n; try apply for_each_node_dom; intros Hn; by apply for_each_node_lookup.
Qed.

(* ------------------------------------------------------------------ *)
(** ** Route options *)

Section options.
Context {V : Type}.
Notation Nodes := (list (str * NodeDefinition V)).

(** Every nested node has its compiled graph. *)
Definition children_known (nodes : Nodes) (nested : list (str * CompiledGraph V)) : Prop :=
  ∀ n i g inputs, (n, NestedGraphNode i g inputs) ∈ nodes → n ∈ nested.*1.

Record options_of (edges : list Edge) (n : str) (options : list (option str)) : Prop := {
  oo_nodup : NoDup options;
  oo_conditional : conditionals_of n edges ≠ [] → options = Some <$> sorted (conditionals_of n edges).*1
}.

Lemma sorted_NoDup (xs : list str) : NoDup xs → NoDup (sorted xs).
Proof. unfold sorted. by rewrite sort_by_perm. Qed.
Lemma sorted_elem (xs : list str) x : x ∈ sorted xs ↔ x ∈ xs.
Proof. unfold sorted. by rewrite sort_by_perm. Qed.

Lemma sorted_elem_1 (xs : list str) x : x ∈ sorted xs → x ∈ xs.
Proof. by rewrite sorted_elem. Qed.

Lemma node_route_options_spec ids edges control nested nodes joined entry :
  control_of ids edges control → NoDup (route_keys edges) → children_known nodes nested → entry ∈ nodes → entry.1 ∈ ids →
  vets (node_route_options nested control joined entry) (λ out, out.1 = entry.1 ∧ options_of edges entry.1 out.2).
Proof.
  intros Hc Hnd Hch Hin Hn. destruct entry as [n node]. cbn [fst] in *. unfold node_route_options.
  apply vets_bind_get; [by apply (co_conditional_dom _ _ _ Hc)|]. intros conditional E. rewrite (co_conditional _ _ _ Hc) in E by done.
  injection E as <-. apply vets_bind_get; [by apply (co_direct_dom _ _ _ Hc)|]. intros direct _.
  eapply (vets_bind _ _ (λ _, True)).
  { destruct node as [i ins outs rs routes|i g ins]; cbn [terminal_domain]; [done|].
    apply vets_assoc; [by eapply Hch|]. done. }
  intros domain _ _. cbv zeta. set (options := if negb _ then _ else _).
  assert (options_of edges n options) as Ho.
  { unfold options. destruct (is_nil (conditionals_of n edges)) eqn:E; cbn [negb].
    - apply is_nil_spec in E. split; [|by rewrite E]. destruct (_ || _); [apply NoDup_singleton|].
      unfold sorted_set_key, sorted_key. rewrite sort_by_perm. apply NoDup_remove_dups.
    - split; [|done]. apply (NoDup_fmap_2 Some), sorted_NoDup. by apply conditionals_of_nodup. }
  destruct node as [i ins outs rs routes|i g ins].
  - eapply (vets_bind _ _ (λ _, True)); [by vet_guard|]. done.
  - eapply (vets_bind _ _ (λ _, True)); [vet_guard; intros _; vet_guard; intros _; by vet_guard|]. done.
Qed.

Lemma list_to_map_keys {A : Type} (xs : list (str * A)) n : n ∈ dom (list_to_map xs : gmap str A) ↔ n ∈ xs.*1.
Proof. by rewrite dom_list_to_map, elem_of_list_to_set. Qed.

Lemma collect_control_topology_spec nodes nested edges :
  let ids := sorted nodes.*1 in
  NoDup nodes.*1 → END ∉ nodes.*1 → Forall (edge_valid nodes.*1) edges → NoDup (route_keys edges) → children_known nodes nested →
  vets (collect_control_topology nodes nested edges) (λ out, control_of ids edges out.1
    ∧ (∀ n, n ∈ dom out.2 ↔ n ∈ ids) ∧ ∀ n rs, out.2 !! n = Some rs → options_of edges n rs).
Proof.
  intros ids Hnd Hend Hv Hroutes Hch. unfold collect_control_topology. fold ids.
  assert (∀ n, n ∈ ids ↔ n ∈ nodes.*1) as Hids by (intros n; apply sorted_elem).
  eapply vets_bind; [apply collect_edges_spec; [|by rewrite Hids|done]|].
  { eapply Forall_impl; [exact Hv|]. intros [s t|s r t|ss t]; cbn; unfold target_valid; rewrite ?Hids; [done|done|].
    intros (?&?&Hs&?&?). split_and!; try done. intros x Hx. apply Hids. by apply Hs. }
  intros control _ Hc. eapply vets_bind.
  - apply (vets_mapM _ (λ entry out, out.1 = entry.1 ∧ options_of edges entry.1 out.2)). intros entry Hin.
    eapply node_route_options_spec; [done..|]. apply Hids. by apply list_elem_of_fmap_2.
  - intros outs _ Hf. cbn. split; [done|].
    assert (outs.*1 = nodes.*1) as Hkeys.
    { clear -Hf. induction Hf as [|x y xs ys [H _] _ IH]; cbn; [done|]. by rewrite H, IH. }
    split; [intros n; by rewrite list_to_map_keys, Hkeys, Hids|]. intros n rs Hlook%elem_of_list_to_map_2.
    apply list_elem_of_lookup in Hlook as [i Hi]. destruct (Forall2_lookup_r _ _ _ _ _ Hf Hi) as (entry & _ & H1 & H2).
    cbn in *. by subst.
Qed.
End options.
