(* ===== verification/FrontierSystem.v ===== *)
(** * Reasoning about computations that use the BDD manager

    [runs B m P]: the computation [m] returns from the manager [B], keeps the meaning of
    all references, and its result satisfies [P].  [means B r P]: the reference [r]
    denotes the predicate [P] on valuations. *)

From Stdlib Require Import ZArith NArith Lia Bool String.
From stdpp Require Import prelude strings gmap sorting.
From S2P Require Import Prelude Identity Bdd BddProofs Topology ControlGraph JoinPlans FrontierRelation.

Set Default Goal Selector "!".
Open Scope nat_scope.

Definition valuation : Type := nat → bool.

Definition runs {A} (B : Bdd) (m : bddM A) (P : Bdd → A → Prop) : Prop :=
  ∃ a B', m B = Ok (a, B') ∧ ok B' ∧ grows B B' ∧ P B' a.

Definition means (B : Bdd) (r : nat) (P : valuation → Prop) : Prop :=
  valid B r ∧ ∀ ρ, eval B r ρ = true ↔ P ρ.

(** A property of references that outlives the growth of the manager. *)
Definition lasting {A} (R : Bdd → A → Prop) : Prop := ∀ B B' a, ok B → grows B B' → R B a → R B' a.

Lemma means_lasting P : lasting (λ B r, means B r P).
Proof.
  intros B B' r Hok Hg [Hv Hm]. split; [by eapply valid_grows|]. intros ρ.
  by rewrite (eval_grows B (ok_shape B Hok) B').
Qed.

Lemma means_grows B B' r P : ok B → grows B B' → means B r P → means B' r P.
Proof. apply means_lasting. Qed.

(** Chains of growth, and the meaning of old references in the current manager. *)
Ltac grow :=
  solve [first [assumption|reflexivity|
    match goal with H : grows ?B ?C |- grows ?B ?D => transitivity C; [exact H|grow] end]].
Ltac keep :=
  match goal with
  | |- means ?B' ?r _ => match goal with H : means ?B r _ |- _ => refine (means_grows B B' r _ _ _ H); [assumption|grow] end
  end.

Lemma means_iff B r P Q : (∀ ρ, P ρ ↔ Q ρ) → means B r P → means B r Q.
Proof. intros H [Hv Hm]. split; [done|]. intros ρ. by rewrite Hm. Qed.

Lemma means_true B : ok B → means B bdd_true (λ _, True).
Proof.
  intros Hok. split; [apply valid_terminal; [apply Hok|unfold bdd_true; lia]|].
  intros ρ. by rewrite eval_true by apply Hok.
Qed.

Lemma means_false B : ok B → means B bdd_false (λ _, False).
Proof.
  intros Hok. split; [apply valid_terminal; [apply Hok|unfold bdd_false; lia]|].
  intros ρ. by rewrite eval_false by apply Hok.
Qed.

(** Equal predicates have the same reference, and only the false terminal is empty. *)
Lemma means_unique B a b P : ok B → means B a P → means B b P → a = b.
Proof.
  intros Hok [Ha HA] [Hb HB]. apply (equal_references B); [apply Hok|done..|].
  intros ρ. apply eq_true_iff_eq. by rewrite HA, HB.
Qed.

Lemma satisfiable_means B r P : ok B → means B r P → satisfiable B r = true ↔ ∃ ρ, P ρ.
Proof.
  intros Hok [Hv Hm]. unfold satisfiable, bdd_false. rewrite negb_true_iff, Nat.eqb_neq. split.
  - intros Hne. destruct (satisfying_exists B r (ok_shape B Hok) Hv Hne) as [ρ Hρ]. exists ρ. by apply Hm.
  - intros [ρ Hρ%Hm] ->. by rewrite eval_false in Hρ by apply Hok.
Qed.

(* ------------------------------------------------------------------ *)
(** ** Structural rules *)

Lemma runs_ret {A} B (a : A) (P : Bdd → A → Prop) : ok B → P B a → runs B (mret a) P.
Proof. intros Hok HP. exists a, B. split_and!; done. Qed.

Lemma runs_bind {A C} B (m : bddM A) (k : A → bddM C) P Q :
  runs B m P → (∀ B1 a, ok B1 → grows B B1 → P B1 a → runs B1 (k a) Q) → runs B (m ≫= k) Q.
Proof.
  intros (a & B1 & Hm & Hok & Hg & HP) Hk. destruct (Hk B1 a Hok Hg HP) as (c & B2 & Hc & Hok2 & Hg2 & HQ).
  exists c, B2. unfold mbind, bddM_bind. rewrite Hm. cbn. split_and!; [done|done|by etrans|done].
Qed.

Lemma runs_weaken {A} B (m : bddM A) (P Q : Bdd → A → Prop) :
  (∀ B' a, ok B' → grows B B' → P B' a → Q B' a) → runs B m P → runs B m Q.
Proof. intros H (a & B' & Hm & Hok & Hg & HP). exists a, B'. split_and!; [done..|]. by apply H. Qed.

Lemma runs_lift {A} B (m : result A) (a : A) (P : Bdd → A → Prop) : ok B → m = Ok a → P B a → runs B (lift m) P.
Proof. intros Hok -> HP. exists a, B. unfold lift. cbn. split_and!; done. Qed.

Lemma runs_lift_bind {A C} B (m : result A) (a : A) (k : A → bddM C) Q :
  m = Ok a → runs B (k a) Q → runs B (lift m ≫= k) Q.
Proof. intros -> H. exact H. Qed.

Lemma runs_mapM {A C} B (f : A → bddM C) (R : A → Bdd → C → Prop) (xs : list A) :
  (∀ x, x ∈ xs → lasting (R x)) → ok B →
  (∀ x B', x ∈ xs → ok B' → grows B B' → runs B' (f x) (R x)) →
  runs B (mapM f xs) (λ B' ys, Forall2 (λ x y, R x B' y) xs ys).
Proof.
  intros Hlast. revert B. induction xs as [|x xs IH]; intros B Hok Hf; cbn; [by apply runs_ret|].
  eapply runs_bind; [apply Hf; [by left|done|done]|]. intros B1 y Hok1 Hg1 Hy.
  eapply runs_bind; [apply IH; [intros; apply Hlast; by right|done|intros; apply Hf; [by right|done|by etrans]]|].
  intros B2 ys Hok2 Hg2 Hys. apply runs_ret; [done|]. constructor; [|done].
  by apply (Hlast x ltac:(by left) B1).
Qed.

Lemma Forall2_lasting {A C} (R : A → Bdd → C → Prop) (xs : list A) :
  (∀ x, x ∈ xs → lasting (R x)) → lasting (λ B ys, Forall2 (λ x y, R x B y) xs ys).
Proof.
  intros Hlast B B' ys Hok Hg. revert ys. induction xs as [|x xs IH]; intros ys; inversion 1; subst; constructor.
  - by apply (Hlast x ltac:(by left) B).
  - apply IH; [intros; apply Hlast; by right|done].
Qed.

(* ------------------------------------------------------------------ *)
(** ** Rules for the operations *)

Lemma runs_delivers B (m : bddM nat) P : delivers B (m B) P → runs B m P.
Proof. intros (r & B' & H). by exists r, B'. Qed.

Lemma runs_not B a P : ok B → means B a P → runs B (b_not a) (λ B' r, means B' r (λ ρ, ¬ P ρ)).
Proof.
  intros Hok [Hv Hm]. apply runs_delivers.
  destruct (negate_spec B a Hok Hv) as (r & B' & E & Hok' & Hg & [_ Vr Er _]). exists r, B'. split_and!; [done..|]. split; [done|].
  intros ρ. rewrite Er. unfold not_meaning. rewrite (eval_grows B (ok_shape B Hok) B') by done.
  rewrite <- Hm. symmetry. apply not_true_iff_false.
Qed.

Lemma runs_apply_and B a b P Q :
  ok B → means B a P → means B b Q → runs B (b_apply AND a b) (λ B' r, means B' r (λ ρ, P ρ ∧ Q ρ)).
Proof.
  intros Hok [Va Ha] [Vb Hb]. apply runs_delivers.
  destruct (apply_spec B AND a b Hok Va Vb) as (r & B' & E & Hok' & Hg & [_ _ Vr Er _]). exists r, B'.
  split_and!; [done..|]. split; [done|]. intros ρ. rewrite Er. cbn [denote_operation]. rewrite !(eval_grows B (ok_shape B Hok) B') by done.
  by rewrite andb_true_iff, Ha, Hb.
Qed.

Lemma runs_apply_or B a b P Q :
  ok B → means B a P → means B b Q → runs B (b_apply OR a b) (λ B' r, means B' r (λ ρ, P ρ ∨ Q ρ)).
Proof.
  intros Hok [Va Ha] [Vb Hb]. apply runs_delivers.
  destruct (apply_spec B OR a b Hok Va Vb) as (r & B' & E & Hok' & Hg & [_ _ Vr Er _]). exists r, B'.
  split_and!; [done..|]. split; [done|]. intros ρ. rewrite Er. cbn [denote_operation]. rewrite !(eval_grows B (ok_shape B Hok) B') by done.
  by rewrite orb_true_iff, Ha, Hb.
Qed.

Lemma runs_iff B a b P Q :
  ok B → means B a P → means B b Q → runs B (b_iff a b) (λ B' r, means B' r (λ ρ, P ρ ↔ Q ρ)).
Proof.
  intros Hok [Va Ha] [Vb Hb]. apply runs_delivers.
  destruct (equivalence_spec B a b Hok Va Vb) as (r & B' & E & Hok' & Hg & Vr & Er). exists r, B'.
  split_and!; [done..|]. split; [done|]. intros ρ. rewrite Er, eqb_true_iff, <- Ha, <- Hb. split; [by intros ->|apply eq_true_iff_eq].
Qed.

(** Every conditional of the relation has the true terminal as its other branch. *)
Lemma runs_implies B c t P Q :
  ok B → means B c P → means B t Q → runs B (b_ite c t bdd_true) (λ B' r, means B' r (λ ρ, P ρ → Q ρ)).
Proof.
  intros Hok [Vc Hc] [Vt Ht]. destruct (means_true B Hok) as [V1 H1]. apply runs_delivers.
  destruct (ite_spec B c t bdd_true Hok Vc Vt V1) as (r & B' & E & Hok' & Hg & Vr & Er). exists r, B'.
  split_and!; [done..|]. split; [done|]. intros ρ. rewrite Er, <- Hc, <- Ht. specialize (H1 ρ).
  destruct (eval B c ρ), (eval B t ρ), (eval B bdd_true ρ); naive_solver.
Qed.

Lemma means_valid_list B rs (Ps : list (valuation → Prop)) : Forall2 (means B) rs Ps → all_valid B rs.
Proof.
  intros H r Hr. apply list_elem_of_lookup in Hr as [i Hi]. by destruct (Forall2_lookup_l _ _ _ _ _ H Hi) as (P & _ & [? _]).
Qed.

Lemma runs_and B rs (Ps : list (valuation → Prop)) :
  ok B → Forall2 (means B) rs Ps → runs B (b_and rs) (λ B' r, means B' r (λ ρ, Forall (λ P, P ρ) Ps)).
Proof.
  intros Hok H. apply runs_delivers.
  destruct (conjunction_spec B rs Hok (means_valid_list B rs Ps H)) as (r & B' & E & Hok' & Hg & Vr & Er).
  exists r, B'. split_and!; [done..|]. split; [done|]. intros ρ. rewrite Er. clear -H.
  induction H as [|r P rs Ps [_ Hm] H IH]; cbn [forallb]; [by rewrite Forall_nil|]. by rewrite andb_true_iff, Forall_cons, IH, Hm.
Qed.

Lemma runs_or B rs (Ps : list (valuation → Prop)) :
  ok B → Forall2 (means B) rs Ps → runs B (b_or rs) (λ B' r, means B' r (λ ρ, Exists (λ P, P ρ) Ps)).
Proof.
  intros Hok H. apply runs_delivers.
  destruct (disjunction_spec B rs Hok (means_valid_list B rs Ps H)) as (r & B' & E & Hok' & Hg & Vr & Er).
  exists r, B'. split_and!; [done..|]. split; [done|]. intros ρ. rewrite Er. clear -H.
  induction H as [|r P rs Ps [_ Hm] H IH]; cbn [existsb]; [by rewrite Exists_nil|]. by rewrite orb_true_iff, Exists_cons, IH, Hm.
Qed.

Lemma runs_exists B a vs P :
  ok B → means B a P →
  runs B (b_exists a vs) (λ B' r, means B' r (λ ρ, ∃ ρ', (∀ x, x ∉ vs → ρ' x = ρ x) ∧ P ρ')).
Proof.
  intros Hok [Va Ha]. apply runs_delivers.
  destruct (exists_spec B a vs Hok Va) as (r & B' & E & Hok' & Hg & [_ Vr Er _]). exists r, B'. split_and!; [done..|]. split; [done|].
  intros ρ. rewrite Er. unfold exists_meaning. setoid_rewrite (eval_grows B (ok_shape B Hok) B'); [|done..].
  by setoid_rewrite Ha.
Qed.

Lemma runs_rename B a m P :
  ok B → means B a P → runs B (b_rename a m) (λ B' r, means B' r (λ ρ, P (λ x, ρ (default x (m !! x))))).
Proof.
  intros Hok [Va Ha]. apply runs_delivers.
  destruct (rename_spec B a m Hok Va) as (r & B' & E & Hok' & Hg & [_ Vr Er _]). exists r, B'. split_and!; [done..|]. split; [done|].
  intros ρ. rewrite Er. unfold rename_meaning. rewrite (eval_grows B (ok_shape B Hok) B') by done. apply Ha.
Qed.

(* ------------------------------------------------------------------ *)
(** ** Variables *)

(** The reference [r] is the decision variable with index [i]. *)
Definition is_variable (i : nat) (B : Bdd) (r : nat) : Prop :=
  means B r (λ ρ, ρ i = true) ∧ variable_index B r = Ok i.

Lemma is_variable_lasting i : lasting (is_variable i).
Proof.
  intros B B' r Hok Hg [Hm Hi]. split; [by eapply means_grows|]. revert Hi. unfold variable_index, bdd_node, list_get.
  destruct Hm as [Hv _]. by rewrite (grows_lookup_valid B B' r Hg Hv).
Qed.

Lemma new_variable_node B r B' :
  ok B → new_variable B = (r, B') →
  bdd_nodes B' !! r = Some (Some (mkBddNode (bdd_next_variable B) bdd_false bdd_true)).
Proof.
  intros Hok. unfold new_variable, mk. cbn. case_match eqn:E; intros [= <- <-]; cbn.
  - by apply (sh_unique B (ok_shape B Hok)) in E.
  - rewrite lookup_app_r by lia. by rewrite Nat.sub_diag.
Qed.

Lemma runs_variable B :
  ok B → runs B b_variable (λ B' r, is_variable (bdd_next_variable B) B' r
                                    ∧ bdd_next_variable B' = S (bdd_next_variable B)).
Proof.
  intros Hok. unfold b_variable. destruct (new_variable_spec B Hok) as (r & B' & E & Hok' & Hg & Hv & Hn & He).
  exists r, B'. rewrite E. split_and!; [done|done|done| |done]. split; [split; [done|]|].
  - intros ρ. by rewrite He.
  - unfold variable_index, bdd_node, list_get. by rewrite (new_variable_node B r B' Hok E).
Qed.

(* ------------------------------------------------------------------ *)
(** * Frontiers as an explicit transition system

    The reference the symbolic proof is compared with.  A frontier says which nodes are
    active and which Join arrivals are pending, each with the supersteps that remain; a
    selection says which of its routes each node settles with.  One superstep turns a
    frontier into its successor; the causes of the successor's nodes are the control
    edges, the selected routes and the completed Joins. *)

(** A way a node may be activated in the next frontier. *)
Inductive Cause :=
| ByEdge (source : str)
| ByRoute (source route : str)
| ByJoin (join : CompiledJoin).

Record Frontier := mkFrontier { on : str → bool; waiting : JoinKey → bool }.
Definition Selection : Type := str → option str → bool.

Section system.
Context (nodes entries : list str) (route_options : RouteOptions) (direct_targets : Successors).
Context (conditional_targets : Conditionals) (joins : list CompiledJoin).
Implicit Types (σ : Frontier) (p : Selection).

Definition options (node : str) : list (option str) := default [] (route_options !! node).
Definition conditional_of (node : str) : list (str * str) := default [] (conditional_targets !! node).
Definition sources_of (join : CompiledJoin) : list str := join_sources (cj_identity join).
Definition target_of (join : CompiledJoin) : str := join_target (cj_identity join).
Definition offset_of (join : CompiledJoin) (source : str) : Z :=
  default 0%Z (assoc source (cj_source_target_offsets join)).
Definition farthest (join : CompiledJoin) : Z :=
  match maximum_offset join with Ok m => m | Raise _ => 0%Z end.

(** A node with one option has no choice. *)
Definition selects p (node : str) (route : option str) : Prop :=
  route ∈ options node ∧ (1 < length (options node) → p node route = true).

(** An active node settles with exactly one of its routes. *)
Definition settles p (node : str) : Prop :=
  1 < length (options node) → ∃ route, route ∈ options node ∧ p node route = true
    ∧ ∀ route', route' ∈ options node → p node route' = true → route' = route.

Definition settled σ p : Prop := ∀ node, node ∈ nodes → on σ node = true → settles p node.

(** An arrival of [source] at a Join, [remaining] supersteps before its target. *)
Definition arrives σ (join : CompiledJoin) (remaining : Z) (source : str) : Prop :=
  waiting σ (join, remaining, source) = true ∨ (offset_of join source = remaining ∧ on σ source = true).

Definition fires σ p (cause : Cause) : Prop :=
  match cause with
  | ByEdge source => on σ source = true
  | ByRoute source route => on σ source = true ∧ selects p source (Some route)
  | ByJoin join => ∀ source, source ∈ sources_of join → arrives σ join 1 source
  end.

(** The causes, with the nodes they activate. *)
Definition causes : list (str * Cause) :=
  concat ((λ source,
    ((λ target, (target, ByEdge source)) <$> sorted_elements (default ∅ (direct_targets !! source)))
    ++ ((λ '(route, target), (target, ByRoute source route)) <$>
         List.filter (λ '(_, target), negb (bool_decide (target = END))) (conditional_of source))) <$> nodes)
  ++ concat ((λ join, if bool_decide (target_of join = END) then [] else [(target_of join, ByJoin join)]) <$> joins).

Definition causes_of (target : str) : list Cause :=
  snd <$> List.filter (λ '(candidate, _), bool_decide (candidate = target)) causes.

(** Two causes would activate [target] in the same superstep. *)
Definition contested σ p (target : str) : Prop :=
  ∃ c c', (c, c') ∈ pairs_of (causes_of target) ∧ fires σ p c ∧ fires σ p c'.

Definition key_of (join : CompiledJoin) (remaining : Z) (source : str) : Prop :=
  join ∈ joins ∧ (1 ≤ remaining ≤ farthest join)%Z ∧ source ∈ sources_of join.

(** One superstep. *)
Record superstep σ p σ' : Prop := {
  ss_settled : settled σ p;
  (** a Join whose target is due has all its arrivals or none *)
  ss_due : ∀ join source, join ∈ joins → source ∈ sources_of join → arrives σ join 1 source →
    ∀ source', source' ∈ sources_of join → arrives σ join 1 source';
  (** no Join is complete before it is due *)
  ss_early : ∀ join remaining, join ∈ joins → (1 < remaining ≤ farthest join)%Z →
    ¬ ∀ source, source ∈ sources_of join → arrives σ join remaining source;
  (** a pending arrival is not repeated *)
  ss_fresh : ∀ join source, key_of join (offset_of join source) source →
    ¬ (waiting σ (join, offset_of join source, source) = true ∧ on σ source = true);
  (** arrivals come one superstep closer *)
  ss_move : ∀ join remaining source, key_of join remaining source → (1 < remaining)%Z →
    waiting σ' (join, remaining - 1, source)%Z = true ↔ arrives σ join remaining source;
  ss_last : ∀ join source, join ∈ joins → source ∈ sources_of join →
    waiting σ' (join, farthest join, source) = false;
  ss_single : ∀ target, target ∈ nodes → ¬ contested σ p target;
  ss_next : ∀ target, target ∈ nodes → on σ' target = true ↔ Exists (fires σ p) (causes_of target)
}.

Definition starts σ : Prop :=
  (∀ node, node ∈ nodes → on σ node = true ↔ node ∈ entries)
  ∧ ∀ join remaining source, key_of join remaining source → waiting σ (join, remaining, source) = false.

(** Frontiers reachable from START. *)
Inductive reached : Frontier → Prop :=
| reached_start σ : starts σ → reached σ
| reached_step σ p σ' : reached σ → superstep σ p σ' → reached σ'.

(** Nothing is active and nothing is pending. *)
Definition empty σ : Prop :=
  (∀ node, node ∈ nodes → on σ node = false)
  ∧ ∀ join remaining source, key_of join remaining source → waiting σ (join, remaining, source) = false.

(** The run completes from [σ] under the selection [p]. *)
Definition completes σ p : Prop :=
  reached σ ∧ (∃ node, node ∈ nodes ∧ on σ node = true) ∧ ∃ σ', superstep σ p σ' ∧ empty σ'.

(** A node of the frontier settles with [route]. *)
Definition exposes σ p (route : option str) : Prop :=
  ∃ node, node ∈ nodes ∧ on σ node = true ∧ selects p node route.

(** What the compiler must rule out, and what it reports. *)
Definition collision : Prop :=
  ∃ σ p target, reached σ ∧ settled σ p ∧ target ∈ nodes ∧ contested σ p target.
Definition conflict : Prop :=
  ∃ σ p route route', completes σ p ∧ exposes σ p route ∧ exposes σ p route' ∧ route ≠ route'.
Definition completion (route : option str) : Prop := ∃ σ p, completes σ p ∧ exposes σ p route.
End system.
