(* ===== verification/FrontierAlloc.v ===== *)
(** * The symbolic order and the allocation of variables

    [_symbolic_order] lists every node once, and the constructor of [_FrontierRelation]
    gives distinct decision variables to all state and choice bits. *)

From Stdlib Require Import ZArith NArith Lia Bool String.
From stdpp Require Import prelude strings gmap sorting.
From S2P Require Import Prelude Identity Bdd BddProofs Topology GraphDefinition ControlGraph ControlGraphProofs LevelProofs JoinPlans JointProofs FrontierRelation FrontierSystem.

Set Default Goal Selector "!".
Open Scope nat_scope.

(** The topology handed to [prove_completion_routes] by the compiler. *)
Record topology (ids : gset str) (route_options : RouteOptions) (direct_targets : Successors)
    (conditional_targets : Conditionals) (joins_by_source : JoinsBySource) : Prop := {
  top_options : dom route_options = ids;
  top_direct : dom direct_targets = ids;
  top_conditional : dom conditional_targets = ids;
  top_direct_in : ∀ x ys, direct_targets !! x = Some ys → ys ⊆ ids;
  top_conditional_in : ∀ x cts route y, conditional_targets !! x = Some cts → (route, y) ∈ cts → y ≠ END → y ∈ ids;
  top_conditional_keys : ∀ x cts, conditional_targets !! x = Some cts → NoDup cts.*1;
  top_options_nodup : ∀ x rs, route_options !! x = Some rs → NoDup rs;
  (** a node with conditional edges has their routes as its options *)
  top_options_conditional : ∀ x cts, conditional_targets !! x = Some cts → cts ≠ [] →
    route_options !! x = Some (Some <$> sorted cts.*1);
  top_join : ∀ x js j, joins_by_source !! x = Some js → j ∈ js →
    (∀ s, s ∈ sources_of j → s ∈ ids) ∧ (target_of j ≠ END → target_of j ∈ ids)
    ∧ NoDup (sources_of j) ∧ sources_of j ≠ []
    ∧ (cj_source_target_offsets j).*1 = sources_of j
    ∧ ∀ s offset, (s, offset) ∈ cj_source_target_offsets j → (1 ≤ offset)%Z
}.

(* ------------------------------------------------------------------ *)
(** ** The symbolic order *)

Section order.
Context (ids : gset str).

Record neighbourhood (N : Successors) : Prop := {
  nb_dom : dom N = ids;
  nb_in : ∀ x ys, N !! x = Some ys → ys ⊆ ids
}.

Lemma add_neighbours_spec N x ys :
  neighbourhood N → x ∈ ids → ys ⊆ ids → ∃ N', add_neighbours N x ys = Ok N' ∧ neighbourhood N'.
Proof using.
  intros [Hd Hin] Hx Hys. unfold add_neighbours, dict_get.
  assert (x ∈ dom N) as [known Hk]%elem_of_dom by by rewrite Hd. rewrite Hk. cbn. eexists. split; [done|]. split.
  - rewrite dom_insert_L, Hd. set_solver.
  - intros z zs [[<- <-]|[_ Hz]]%lookup_insert_Some; [|by eapply Hin]. apply union_subseteq. split; [by eapply Hin|done].
Qed.

Lemma link_spec N x y :
  neighbourhood N → x ∈ ids → y ∈ ids → ∃ N', link N x y = Ok N' ∧ neighbourhood N'.
Proof using.
  intros HN Hx Hy. unfold link. destruct (add_neighbours_spec N x {[y]}) as (N1 & -> & H1); [done|done|set_solver|].
  cbn. apply add_neighbours_spec; [done|done|set_solver].
Qed.

Lemma neighbours_loop {A} (xs : list A) f N :
  (∀ x N, x ∈ xs → neighbourhood N → ∃ N', f N x = Ok N' ∧ neighbourhood N') →
  neighbourhood N → ∃ N', py_for_state xs N f = Ok N' ∧ neighbourhood N'.
Proof using.
  intros Hf HN. apply (py_for_state_total (λ _, neighbourhood)); [|done]. intros dn x st Hx Hst. by apply Hf.
Qed.

Lemma neighbours_of_spec route_options direct_targets conditional_targets joins_by_source :
  topology ids route_options direct_targets conditional_targets joins_by_source →
  ∃ N, neighbours_of route_options direct_targets conditional_targets joins_by_source = Ok N ∧ neighbourhood N.
Proof using.
  intros T. unfold neighbours_of.
  destruct (neighbours_loop (items direct_targets) (λ neighbours '(source, targets),
    py_for_state (sorted_elements targets) neighbours (λ neighbours target, link neighbours source target))
    ((λ _ : list (option str), (∅ : gset str)) <$> route_options)) as (N1 & -> & H1).
  { intros [x ys] N Hx%items_elem HN. apply neighbours_loop; [|done]. intros y N' Hy%sorted_elements_elem HN'.
    apply link_spec; [done| |by eapply (top_direct_in _ _ _ _ _ T)].
    rewrite <- (top_direct _ _ _ _ _ T). apply elem_of_dom. by exists ys. }
  { split; [rewrite dom_fmap_L; apply T|]. intros x ys. rewrite lookup_fmap_Some. intros (? & <- & _). set_solver. }
  cbn [mbind result_bind].
  destruct (neighbours_loop (items conditional_targets) (λ neighbours '(source, targets),
    py_for_state (snd <$> targets) neighbours (λ neighbours target,
      if bool_decide (target = END) then Ok neighbours else link neighbours source target)) N1) as (N2 & -> & H2); [|done|].
  { intros [x cts] N Hx%items_elem HN. apply neighbours_loop; [|done].
    intros y N' ([route y'] & -> & Hy)%list_elem_of_fmap HN'. cbn. case_bool_decide as He; [by exists N'|].
    apply link_spec; [done| |by eapply (top_conditional_in _ _ _ _ _ T)].
    rewrite <- (top_conditional _ _ _ _ _ T). apply elem_of_dom. by exists cts. }
  cbn [mbind result_bind]. apply neighbours_loop; [|done]. intros j N Hj HN.
  assert (∀ m, m ∈ join_members j → m ∈ ids) as Hm.
  { apply list_elem_of_In, in_concat in Hj as (js & Hjs%list_elem_of_In & Hj%list_elem_of_In).
    apply list_elem_of_fmap in Hjs as ([x js'] & -> & Hx%items_elem).
    destruct (top_join _ _ _ _ _ T x js' j Hx Hj) as (Hs & Ht & _).
    intros m [Hm|Hm]%elem_of_app; [by apply Hs|]. case_bool_decide; [by apply elem_of_nil in Hm|].
    apply list_elem_of_singleton in Hm as ->. by apply Ht. }
  apply neighbours_loop; [|done]. intros m N' Hin HN'. apply add_neighbours_spec; [done|by apply Hm|].
  intros z [Hz _]%elem_of_list_to_set%list_elem_of_In%filter_In. by apply Hm, list_elem_of_In.
Qed.

Lemma push_spec (targets pending : list str) (unseen component : gset str) :
  let '(pending', unseen', component') := fold_left (λ '(pending, unseen, component) target,
      if bool_decide (target ∈ unseen)
      then (target :: pending, unseen ∖ {[target]}, {[target]} ∪ component)
      else (pending, unseen, component)) targets (pending, unseen, component) in
  length pending' + size unseen' = length pending + size unseen
  ∧ unseen' ∪ component' = unseen ∪ component ∧ unseen' ⊆ unseen ∧ component ⊆ component'
  ∧ (unseen ## component → unseen' ## component')
  ∧ ∀ x, x ∈ pending' → x ∈ pending ∨ x ∈ unseen.
Proof using.
  revert pending unseen component. induction targets as [|t targets IH]; intros pending unseen component; cbn.
  { split_and!; auto. }
  case_bool_decide as Ht; [|apply IH]. specialize (IH (t :: pending) (unseen ∖ {[t]}) ({[t]} ∪ component)).
  destruct (fold_left _ _ _) as [[p u] c]. destruct IH as (H1 & H2 & H3 & H4 & H5 & H6). split_and!.
  - rewrite H1. cbn. assert (size unseen = S (size (unseen ∖ {[t]}))); [|lia].
    replace unseen with ({[t]} ∪ unseen ∖ {[t]}) at 1 by (symmetry; apply union_difference_L; set_solver).
    rewrite size_union, size_singleton by set_solver. done.
  - rewrite H2. apply set_eq. intros x. destruct (decide (x = t)); set_solver.
  - set_solver.
  - set_solver.
  - intros Hd. apply H5. set_solver.
  - intros x [[->|?]%elem_of_cons|?]%H6; [by right|by left|right; set_solver].
Qed.

Lemma component_loop_spec N (fuel : nat) pending unseen component :
  neighbourhood N → length pending + size unseen < fuel → (∀ x, x ∈ pending → x ∈ ids) → unseen ⊆ ids →
  unseen ## component →
  ∃ unseen' component', component_loop fuel N pending unseen component = Ok (unseen', component')
    ∧ unseen' ∪ component' = unseen ∪ component ∧ unseen' ⊆ unseen ∧ component ⊆ component' ∧ unseen' ## component'.
Proof using.
  intros HN. revert pending unseen component.
  induction fuel as [|fuel IH]; intros pending unseen component Hfuel Hp Hu Hd; [lia|]. cbn [component_loop].
  destruct pending as [|x pending]; [by exists unseen, component|].
  assert (x ∈ dom N) as [ys Hys]%elem_of_dom by (rewrite (nb_dom N HN); apply Hp; by left).
  unfold dict_get. rewrite Hys. cbn [mbind result_bind].
  pose proof (push_spec (sorted_elements ys) pending unseen component) as H.
  destruct (fold_left _ _ _) as [[p u] c]. destruct H as (H1 & H2 & H3 & H4 & H5 & H6).
  destruct (IH p u c) as (u' & c' & -> & G1 & G2 & G3 & G4).
  - cbn in Hfuel. lia.
  - intros z [?|?]%H6; [apply Hp; by right|by apply Hu].
  - set_solver.
  - by apply H5.
  - exists u', c'. split_and!; [done|by rewrite G1|set_solver|set_solver|done].
Qed.

Lemma order_components_spec N (fuel : nat) unseen ordered :
  neighbourhood N → size unseen ≤ fuel → unseen ⊆ ids → NoDup ordered → (∀ x, x ∈ ordered → x ∉ unseen) →
  ∃ final, order_components fuel N unseen ordered = Ok final
    ∧ NoDup final ∧ ∀ x, x ∈ final ↔ x ∈ ordered ∨ x ∈ unseen.
Proof using.
  intros HN. revert unseen ordered. induction fuel as [|fuel IH]; intros unseen ordered Hfuel Hu Hnd Hdis.
  - assert (unseen = ∅) as -> by (apply leibniz_equiv, size_empty_inv; lia). cbn. exists ordered. set_solver.
  - cbn [order_components]. destruct (sorted_elements unseen) as [|root rest] eqn:E.
    { exists ordered. split_and!; [done..|]. intros x. split; [auto|]. intros [?|Hx]; [done|].
      apply sorted_elements_elem in Hx. rewrite E in Hx. by apply elem_of_nil in Hx. }
    assert (root ∈ unseen) as Hroot by (apply sorted_elements_elem; rewrite E; by left).
    destruct (component_loop_spec N (1 + size unseen) [root] (unseen ∖ {[root]}) {[root]}) as (u & c & -> & H1 & H2 & H3 & H4).
    + done.
    + assert (size (unseen ∖ {[root]}) < size unseen) by (apply subset_size; set_solver). cbn. lia.
    + intros x ->%list_elem_of_singleton. by apply Hu.
    + set_solver.
    + set_solver.
    + cbn [mbind result_bind].
      assert (∀ x, x ∈ c ∨ x ∈ u ↔ x ∈ unseen) as Huc.
      { intros x. assert (x ∈ u ∪ c ↔ x ∈ (unseen ∖ {[root]}) ∪ {[root]}) as H by by rewrite H1.
        destruct (decide (x = root)); set_solver. }
      destruct (IH u (ordered ++ sorted_elements c)) as (final & -> & Hnd' & Hall).
      * assert (size u < size unseen); [|lia]. apply subset_size. split; [set_solver|]. intros Hs.
        assert (root ∈ u) by set_solver. assert (root ∈ c) by set_solver. set_solver.
      * set_solver.
      * apply NoDup_app. split_and!; [done| |apply sorted_elements_NoDup].
        intros x Hx Hc%sorted_elements_elem. apply (Hdis x Hx), Huc. by left.
      * intros x [Hx|Hx%sorted_elements_elem]%elem_of_app Hxu; [|set_solver]. apply (Hdis x Hx), Huc. by right.
      * exists final. split_and!; [done..|]. intros x. rewrite Hall, elem_of_app, sorted_elements_elem, <- Huc. tauto.
Qed.

Lemma symbolic_order_spec route_options direct_targets conditional_targets joins_by_source :
  topology ids route_options direct_targets conditional_targets joins_by_source →
  ∃ nodes, symbolic_order route_options direct_targets conditional_targets joins_by_source = Ok nodes
    ∧ NoDup nodes ∧ ∀ n, n ∈ nodes ↔ n ∈ ids.
Proof using.
  intros T. unfold symbolic_order. destruct (neighbours_of_spec _ _ _ _ T) as (N & -> & HN). cbn [mbind result_bind].
  rewrite (top_options _ _ _ _ _ T).
  destruct (order_components_spec N (size ids) ids []) as (nodes & -> & Hnd & Hall); [done|done|done|constructor|set_solver|].
  exists nodes. split_and!; [done..|]. intros n. rewrite Hall. set_solver.
Qed.
End order.

(* ------------------------------------------------------------------ *)
(** * The variables of the frontier relation

    The constructor of [_FrontierRelation] gives every node, every pending arrival and
    every choice its own decision variable. *)

(* ------------------------------------------------------------------ *)
(** ** Computations that only allocate *)

(** [m] returns a result whose variables, in the order of [vs], get consecutive indices. *)
Definition allocates {A} (m : bddM A) (vs : A → list nat) (P : A → Prop) : Prop :=
  ∀ B, ok B → runs B m (λ B' a, P a
    ∧ bdd_next_variable B' = bdd_next_variable B + length (vs a)
    ∧ Forall2 (λ i r, is_variable i B' r) (seq (bdd_next_variable B) (length (vs a))) (vs a)).

Lemma allocates_ret {A} (a : A) vs (P : A → Prop) : vs a = [] → P a → allocates (mret a) vs P.
Proof. intros Hv HP B Hok. apply runs_ret; [done|]. rewrite Hv. cbn. split_and!; [done|lia|constructor]. Qed.

Lemma allocates_lift {A} (m : result A) a (P : A → Prop) : m = Ok a → P a → allocates (lift m) (λ _, []) P.
Proof. intros Hm HP B Hok. eapply runs_lift; [done..|]. cbn. split_and!; [done|lia|constructor]. Qed.

Lemma allocates_variable : allocates b_variable (λ r, [r]) (λ _, True).
Proof.
  intros B Hok. eapply runs_weaken; [|by apply runs_variable]. intros B' r Hok' Hg [Hv Hn]. cbn.
  split_and!; [done|lia|]. constructor; [done|constructor].
Qed.

Lemma variables_lasting indices : lasting (λ B rs, Forall2 (λ i r, is_variable i B r) indices rs).
Proof. apply (Forall2_lasting is_variable). intros. apply is_variable_lasting. Qed.

Lemma allocates_bind {A C} (m : bddM A) (k : A → bddM C) va (P : A → Prop) vk (Q : A → C → Prop) v (R : C → Prop) :
  allocates m va P → (∀ a, P a → allocates (k a) (vk a) (Q a)) →
  (∀ a c, P a → Q a c → v c = va a ++ vk a c ∧ R c) → allocates (m ≫= k) v R.
Proof.
  intros Hm Hk Hv B Hok. eapply runs_bind; [by apply Hm|]. intros B1 a Hok1 Hg1 (HP & Hn1 & Hf1).
  eapply runs_weaken; [|by apply (Hk a HP)]. intros B2 c Hok2 Hg2 (HQ & Hn2 & Hf2).
  destruct (Hv a c HP HQ) as [-> HR]. rewrite length_app. split_and!; [done|lia|].
  rewrite seq_app. apply Forall2_app.
  - by apply (variables_lasting _ B1).
  - by rewrite <- Hn1.
Qed.

Lemma allocates_mapM {A C} (f : A → bddM C) v (R : A → C → Prop) (xs : list A) :
  (∀ x, x ∈ xs → allocates (f x) v (R x)) →
  allocates (mapM f xs) (λ ys, concat (v <$> ys)) (λ ys, Forall2 R xs ys).
Proof.
  induction xs as [|x xs IH]; intros Hf; cbn; [by apply allocates_ret|].
  eapply (allocates_bind _ _ v (R x) (λ y ys, concat (v <$> (tail ys))) (λ y ys, ∃ ys', ys = y :: ys' ∧ Forall2 R xs ys')).
  - apply Hf. by left.
  - intros y _. eapply (allocates_bind _ _ (λ ys, concat (v <$> ys)) (λ ys, Forall2 R xs ys) (λ _ _, [])
      (λ ys zs, zs = y :: ys)).
    + apply IH. intros; apply Hf. by right.
    + intros ys Hys. by apply allocates_ret.
    + intros ys zs Hys ->. cbn. rewrite app_nil_r. split; [done|]. by exists ys.
  - intros y zs Hy (ys & -> & Hys). cbn. split; [done|]. by constructor.
Qed.

(* ------------------------------------------------------------------ *)
(** ** The keys of the pending arrivals *)

Lemma py_max_spec x (xs : list Z) : ∃ m, py_max (x :: xs) = Ok m ∧ m ∈ x :: xs ∧ ∀ y, y ∈ x :: xs → (y ≤ m)%Z.
Proof.
  cbn. exists (fold_left Z.max xs x). split; [done|]. revert x. induction xs as [|y xs IH]; intros x; cbn.
  - split; [by left|]. by intros ? ->%list_elem_of_singleton.
  - destruct (IH (Z.max x y)) as [Hin Hle]. split.
    + apply elem_of_cons in Hin as [Heq|Hin]; [|by do 2 right].
      rewrite Heq. destruct (Z.max_spec x y) as [[_ ->]|[_ ->]]; [right; left|left].
    + intros z [->|[->|Hz]%elem_of_cons]%elem_of_cons; [| |apply Hle; by right];
        (etrans; [|apply Hle; by left]); lia.
Qed.

Lemma range_from_1_elem n r : r ∈ range_from_1 n ↔ (1 ≤ r ≤ n)%Z.
Proof.
  unfold range_from_1. rewrite list_elem_of_fmap. setoid_rewrite elem_of_seq. split.
  - intros (k & -> & ?). lia.
  - intros ?. exists (Z.to_nat r). lia.
Qed.

Lemma range_from_1_NoDup n : NoDup (range_from_1 n).
Proof. unfold range_from_1. apply (NoDup_fmap_2 Z.of_nat), NoDup_seq. Qed.

(** A Join of the topology: its sources are distinct, each with a positive offset. *)
Definition join_ok (j : CompiledJoin) : Prop :=
  NoDup (sources_of j) ∧ sources_of j ≠ [] ∧ (cj_source_target_offsets j).*1 = sources_of j
  ∧ ∀ s offset, (s, offset) ∈ cj_source_target_offsets j → (1 ≤ offset)%Z.

Lemma find_assoc (l : list (str * Z)) s :
  s ∈ l.*1 → ∃ o, List.find (λ '(candidate, _), bool_decide (candidate = s)) l = Some (s, o)
    ∧ assoc s l = Some o ∧ (s, o) ∈ l.
Proof.
  induction l as [|[k v] l IH]; cbn; [by intros ?%elem_of_nil|]. intros [->|Hs]%elem_of_cons.
  - exists v. rewrite bool_decide_true, decide_True by done. split_and!; [done..|]. by left.
  - destruct (decide (s = k)) as [->|Hne].
    + exists v. rewrite bool_decide_true by done. split_and!; [done..|]. by left.
    + rewrite bool_decide_false by done. destruct (IH Hs) as (o & ? & ? & ?). exists o. split_and!; [done..|]. by right.
Qed.

Section join.
Context (j : CompiledJoin) (Hj : join_ok j).

Lemma farthest_spec :
  maximum_offset j = Ok (farthest j) ∧ (1 ≤ farthest j)%Z
  ∧ ∀ s offset, (s, offset) ∈ cj_source_target_offsets j → (1 ≤ offset ≤ farthest j)%Z.
Proof using Hj.
  destruct Hj as (_ & Hne & Hkeys & Hpos). unfold farthest, maximum_offset in *.
  destruct (cj_source_target_offsets j) as [|[s0 o0] rest] eqn:E; [by rewrite <- Hkeys in Hne|].
  destruct (py_max_spec o0 rest.*2) as (m & Hm & Hin & Hle). cbn [fmap list_fmap snd]. rewrite Hm.
  split_and!; [done| |].
  - change (o0 :: rest.*2) with (((s0, o0) :: rest).*2) in Hin. apply list_elem_of_fmap in Hin as ([s o] & -> & Hin).
    by eapply Hpos.
  - intros s o Hso. split; [by eapply Hpos|]. apply Hle. exact (list_elem_of_fmap_2 snd ((s0, o0) :: rest) (s, o) Hso).
Qed.

Lemma offset_of_spec s : s ∈ sources_of j → target_offset j s = Ok (offset_of j s) ∧ (1 ≤ offset_of j s ≤ farthest j)%Z.
Proof using Hj.
  intros Hs. pose proof farthest_spec as (_ & _ & Hrange). destruct Hj as (_ & _ & Hkeys & _).
  rewrite <- Hkeys in Hs. destruct (find_assoc _ s Hs) as (o & Hf & Ha & Hin).
  unfold target_offset, offset_of. rewrite Hf, Ha. split; [done|]. by eapply Hrange.
Qed.
End join.

Lemma unique_joins_elem (joins_by_source : JoinsBySource) j :
  j ∈ unique_joins joins_by_source ↔ ∃ x js, joins_by_source !! x = Some js ∧ j ∈ js.
Proof.
  unfold unique_joins, sorted_key. rewrite sort_by_perm, elem_of_remove_dups, list_elem_of_In, in_concat.
  setoid_rewrite <- list_elem_of_In. split.
  - intros (js & ([x js'] & -> & Hx%items_elem)%list_elem_of_fmap & Hj). by exists x, js'.
  - intros (x & js & Hx%items_elem & Hj). exists js. split; [|done]. by apply (list_elem_of_fmap_2 snd _ (x, js)).
Qed.

Lemma unique_joins_NoDup joins_by_source : NoDup (unique_joins joins_by_source).
Proof. unfold unique_joins, sorted_key. rewrite sort_by_perm. apply NoDup_remove_dups. Qed.

(** The keys of one Join. *)
Definition keys_of (j : CompiledJoin) : list JoinKey :=
  concat ((λ remaining, (λ source, (j, remaining, source)) <$> sources_of j) <$> range_from_1 (farthest j)).

Lemma keys_of_elem j k : k ∈ keys_of j ↔ ∃ r s, k = (j, r, s) ∧ (1 ≤ r ≤ farthest j)%Z ∧ s ∈ sources_of j.
Proof.
  unfold keys_of. rewrite list_elem_of_In, in_concat. setoid_rewrite <- list_elem_of_In. split.
  - intros (ks & (r & -> & Hr%range_from_1_elem)%list_elem_of_fmap & (s & -> & Hs)%list_elem_of_fmap). by exists r, s.
  - intros (r & s & -> & Hr%range_from_1_elem & Hs).
    exists ((λ source, (j, r, source)) <$> sources_of j). split.
    + by apply (list_elem_of_fmap_2 (λ remaining, (λ source, (j, remaining, source)) <$> sources_of j)).
    + by apply (list_elem_of_fmap_2 (λ source, (j, r, source))).
Qed.

Lemma NoDup_concat {A} (xss : list (list A)) :
  Forall NoDup xss → (∀ i k xs ys x, xss !! i = Some xs → xss !! k = Some ys → x ∈ xs → x ∈ ys → i = k) →
  NoDup (concat xss).
Proof.
  induction xss as [|xs xss IH]; intros Hnd Hdis; cbn; [constructor|]. apply Forall_cons in Hnd as [Hx Hxs].
  apply NoDup_app. split_and!; [done| |].
  - intros x Hin Hc. apply list_elem_of_In, in_concat in Hc as (ys & Hys%list_elem_of_In & Hy%list_elem_of_In).
    apply list_elem_of_lookup in Hys as [k Hk]. discriminate (Hdis 0 (S k) xs ys x eq_refl Hk Hin Hy).
  - apply IH; [done|]. intros i k ys zs x Hi Hk H1 H2. injection (Hdis (S i) (S k) ys zs x Hi Hk H1 H2). done.
Qed.

Lemma keys_of_NoDup j : join_ok j → NoDup (keys_of j).
Proof.
  intros (Hnd & _). apply NoDup_concat.
  - apply Forall_forall. intros ks (r & -> & _)%list_elem_of_fmap. apply NoDup_fmap_2; [intros ?? [=]; done|done].
  - intros i k xs ys x Hi Hk. rewrite list_lookup_fmap in Hi, Hk.
    destruct (range_from_1 (farthest j) !! i) as [r|] eqn:Er; [|done]. injection Hi as <-.
    destruct (range_from_1 (farthest j) !! k) as [r'|] eqn:Er'; [|done]. injection Hk as <-.
    intros (s & -> & _)%list_elem_of_fmap (s' & [= Heq _] & _)%list_elem_of_fmap. subst r'.
    by apply (NoDup_lookup _ _ _ _ (range_from_1_NoDup (farthest j)) Er).
Qed.

Section keys.
Context (joins : list CompiledJoin) (Hjoins : ∀ j, j ∈ joins → join_ok j) (Hnd : NoDup joins).

Lemma join_state_keys_spec :
  ∃ keys, join_state_keys joins = Ok keys ∧ NoDup keys ∧ ∀ j r s, (j, r, s) ∈ keys ↔ key_of joins j r s.
Proof using Hjoins Hnd.
  assert (∀ js, js ⊆ joins → mapM (λ join, maximum ← maximum_offset join;
    Ok (concat ((λ remaining, (λ source, (join, remaining, source)) <$> join_sources (cj_identity join))
                <$> range_from_1 maximum))) js = Ok (keys_of <$> js)) as Hrun.
  { induction js as [|j js IH]; intros Hsub; cbn; [done|].
    destruct (farthest_spec j) as (-> & _); [apply Hjoins, Hsub; by left|]. cbn.
    rewrite IH by (intros x Hx; apply Hsub; by right). done. }
  unfold join_state_keys. rewrite Hrun by done. cbn. eexists. split; [done|]. split.
  - apply NoDup_concat.
    + apply Forall_forall. intros ks (j & -> & Hj)%list_elem_of_fmap. by apply keys_of_NoDup, Hjoins.
    + intros i k xs ys x Hi Hk. rewrite list_lookup_fmap in Hi, Hk.
      destruct (joins !! i) as [j|] eqn:Ej; [|done]. injection Hi as <-.
      destruct (joins !! k) as [j'|] eqn:Ej'; [|done]. injection Hk as <-.
      intros (r & s & -> & _)%keys_of_elem (r' & s' & [= <- _ _] & _)%keys_of_elem.
      by apply (NoDup_lookup _ _ _ _ Hnd Ej).
  - intros j r s. unfold key_of. rewrite list_elem_of_In, in_concat. setoid_rewrite <- list_elem_of_In. split.
    + intros (ks & (j' & -> & Hj')%list_elem_of_fmap & (r' & s' & [= -> -> ->] & Hr & Hs)%keys_of_elem). done.
    + intros (Hj & Hr & Hs). exists (keys_of j). split; [by apply (list_elem_of_fmap_2 keys_of)|].
      apply keys_of_elem. by exists r, s.
Qed.
End keys.

(* ------------------------------------------------------------------ *)
(** ** The layout *)

Definition all_variables (fr : FrontierRelation) : list nat :=
  current_variables fr ++ following_variables fr ++ choice_variables fr.

(** The index of a variable. *)
Definition ix (B : Bdd) (r : nat) : nat := match variable_index B r with Ok i => i | Raise _ => 0 end.

Record layout (B : Bdd) (fr : FrontierRelation) : Prop := {
  lo_nodes : (fr_node_state fr).*1 = fr_nodes fr;
  lo_nodup : NoDup (fr_nodes fr);
  lo_keys_nodup : NoDup (fr_join_state fr).*1;
  lo_keys : ∀ j r s, (j, r, s) ∈ (fr_join_state fr).*1 ↔ key_of (fr_joins fr) j r s;
  lo_choices_nodup : NoDup (fr_choices fr).*1;
  lo_choices : ∀ n cs, (n, cs) ∈ fr_choices fr →
    n ∈ fr_nodes fr ∧ ch_route <$> cs = options (fr_route_options fr) n ∧ 1 < length cs;
  lo_no_choice : ∀ n, n ∈ fr_nodes fr → n ∉ (fr_choices fr).*1 → length (options (fr_route_options fr) n) ≤ 1;
  lo_variable : ∀ r, r ∈ all_variables fr → is_variable (ix B r) B r;
  lo_distinct : NoDup (ix B <$> all_variables fr)
}.

Lemma variables_distinct B rs k :
  Forall2 (λ i r, is_variable i B r) (seq k (length rs)) rs →
  (∀ r, r ∈ rs → is_variable (ix B r) B r) ∧ NoDup (ix B <$> rs).
Proof.
  intros H. assert (∀ i r, is_variable i B r → ix B r = i) as Hix by (intros i r [_ Hi]; unfold ix; by rewrite Hi).
  split.
  - intros r Hr. apply list_elem_of_lookup in Hr as [i Hi].
    destruct (Forall2_lookup_r _ _ _ _ _ H Hi) as (m & _ & Hm). by rewrite (Hix m r Hm).
  - assert (ix B <$> rs = seq k (length rs)) as ->; [|apply NoDup_seq].
    revert H. generalize (seq k (length rs)). intros is_ H. induction H as [|i r is' rs' Hi _ IH]; cbn; [done|].
    by rewrite (Hix i r Hi), IH.
Qed.

Section construction.
Context (ids : gset str) (entries : list str) (route_options : RouteOptions) (direct_targets : Successors).
Context (conditional_targets : Conditionals) (joins_by_source : JoinsBySource).
Context (T : topology ids route_options direct_targets conditional_targets joins_by_source).

Lemma node_options_spec n :
  n ∈ ids → node_options route_options conditional_targets n = Ok (options route_options n).
Proof using T.
  intros Hn. unfold node_options, options, dict_get.
  assert (n ∈ dom conditional_targets) as [cts Hc]%elem_of_dom by by rewrite (top_conditional _ _ _ _ _ T).
  assert (n ∈ dom route_options) as [rs Hr]%elem_of_dom by by rewrite (top_options _ _ _ _ _ T).
  rewrite Hc, Hr. cbn. destruct cts as [|ct cts]; [done|].
  cbn [is_nil]. rewrite (top_options_conditional _ _ _ _ _ T n _ Hc) in Hr by done. by injection Hr as <-.
Qed.

(** The variables of one node, in the order of their allocation. *)
Definition node_vars (entry : str * (StateVariables * list Choice)) : list nat :=
  let '(_, (variables, choices)) := entry in
  sv_current variables :: (ch_variable <$> choices) ++ [sv_following variables].

Definition node_allocated (n : str) (entry : str * (StateVariables * list Choice)) : Prop :=
  entry.1 = n ∧ ch_route <$> entry.2.2 =
    (if 1 <? length (options route_options n) then options route_options n else []).

Lemma concat_singletons {A} (xs : list A) : concat ((λ x, [x]) <$> xs) = xs.
Proof using. induction xs as [|x xs IH]; cbn; [done|]. by f_equal. Qed.

Lemma choices_allocate n :
  n ∈ ids → allocates (choices_for_node route_options conditional_targets n) (λ cs, ch_variable <$> cs)
    (λ cs, ch_route <$> cs = if 1 <? length (options route_options n) then options route_options n else []).
Proof using T.
  intros Hn. unfold choices_for_node.
  eapply (allocates_bind _ _ (λ _, []) (λ os, os = options route_options n) (λ _ cs, ch_variable <$> cs)
    (λ _ cs, ch_route <$> cs = if 1 <? length (options route_options n) then options route_options n else [])).
  - eapply allocates_lift; [by apply node_options_spec|done].
  - intros os ->. destruct (1 <? length (options route_options n)); [|by apply allocates_ret].
    intros B Hok. eapply runs_weaken; [|apply (allocates_mapM _ (λ c, [ch_variable c]) (λ route c, ch_route c = route))]; [|
      |done].
    + intros B' cs _ _ (Hf & Hnext & Hvs). assert (concat ((λ c, [ch_variable c]) <$> cs) = ch_variable <$> cs) as Heq.
      { clear. induction cs as [|c cs IH]; cbn; [done|]. by f_equal. }
      rewrite Heq in *. split_and!; [|done..].
      revert Hf. generalize (options route_options n). intros os Hf. clear -Hf. induction Hf as [|x c xs cs Hx _ IH]; cbn; [done|].
      by rewrite Hx, IH.
    + intros route _. eapply (allocates_bind _ _ (λ r, [r]) (λ _, True) (λ _ _, []) (λ r c, c = mkChoice route r));
        [apply allocates_variable|intros r _; by apply allocates_ret|by intros r c _ ->].
  - intros os cs _ H. done.
Qed.

Lemma node_allocate n :
  n ∈ ids → allocates (allocate_node route_options conditional_targets n) node_vars (node_allocated n).
Proof using T.
  intros Hn. unfold allocate_node.
  eapply (allocates_bind _ _ (λ r, [r]) (λ _, True)
    (λ _ entry, (ch_variable <$> entry.2.2) ++ [sv_following entry.2.1])
    (λ r entry, node_allocated n entry ∧ sv_current entry.2.1 = r)); [apply allocates_variable| |].
  - intros current _.
    eapply (allocates_bind _ _ (λ cs, ch_variable <$> cs) _ (λ _ entry, [sv_following entry.2.1])
      (λ cs entry, entry.1 = n ∧ entry.2.2 = cs ∧ sv_current entry.2.1 = current)); [by apply choices_allocate| |].
    + intros cs Hcs. eapply (allocates_bind _ _ (λ r, [r]) (λ _, True) (λ _ _, [])
        (λ r entry, entry = (n, (mkVariables current r, cs)))); [apply allocates_variable| |].
      * intros r _. by apply allocates_ret.
      * intros r entry _ ->. done.
    + intros cs [m [sv cs']] Hcs (Hm & Hc & Hs). cbn in *. subst. done.
  - intros current [m [sv cs]] _ [[Hm Hr] Hs]. cbn in *. subst. done.
Qed.

(** The variables of the constructed relation, and those that were allocated. *)
Lemma allocated_permutation (allocated : list (str * (StateVariables * list Choice))) jcur jfol keys :
  length jcur = length keys → length jfol = length keys →
  let fr := mkRelation entries allocated.*1 route_options direct_targets conditional_targets (unique_joins joins_by_source)
    (List.filter (λ '(_, choices), negb (is_nil choices)) ((λ '(node, (_, choices)), (node, choices)) <$> allocated))
    ((λ '(node, (variables, _)), (node, variables)) <$> allocated)
    (zip keys (zip_with mkVariables jcur jfol)) in
  concat (node_vars <$> allocated) ++ jcur ++ jfol ≡ₚ all_variables fr.
Proof using.
  intros Hc Hf fr. unfold all_variables, current_variables, following_variables, choice_variables. cbn.
  assert (∀ (g : StateVariables → nat) (h : nat → nat → nat), (∀ a b, g (mkVariables a b) = h a b) →
    g ∘ snd <$> zip keys (zip_with mkVariables jcur jfol) = zip_with h jcur jfol) as Hzip.
  { intros g h Hgh. clear fr. revert jcur jfol Hc Hf.
    induction keys as [|k keys IH]; intros [|c jcur] [|f jfol] Hc Hf; try done. cbn. by rewrite Hgh, IH by (cbn in *; lia). }
  rewrite (Hzip sv_current (λ a _, a)), (Hzip sv_following (λ _ b, b)) by done.
  assert (zip_with (λ a _ : nat, a) jcur jfol = jcur) as ->.
  { clear -Hc Hf; revert jfol Hf; revert keys Hc; induction jcur as [|c jcur IH]; intros [|k keys] Hc [|f jfol] Hf;
      cbn in *; try done; f_equal; apply (IH keys); lia. }
  assert (zip_with (λ _ b : nat, b) jcur jfol = jfol) as ->.
  { clear -Hc Hf; revert jfol Hf; revert keys Hc; induction jcur as [|c jcur IH]; intros [|k keys] Hc [|f jfol] Hf;
      cbn in *; try done; f_equal; apply (IH keys); lia. }
  assert (concat (node_vars <$> allocated) ≡ₚ
    (sv_current ∘ snd <$> ((λ '(node, (variables, _)), (node, variables)) <$> allocated))
    ++ (sv_following ∘ snd <$> ((λ '(node, (variables, _)), (node, variables)) <$> allocated))
    ++ concat ((λ entry : str * list Choice, ch_variable <$> entry.2) <$>
        List.filter (λ '(_, choices), negb (is_nil choices)) ((λ '(node, (_, choices)), (node, choices)) <$> allocated))) as ->.
  { clear. induction allocated as [|[n [sv cs]] allocated IH]; cbn; [done|]. rewrite IH.
    destruct cs as [|c cs]; cbn; solve_Permutation. }
  solve_Permutation.
Qed.

Lemma top_join_ok j : j ∈ unique_joins joins_by_source → join_ok j.
Proof using T.
  intros (x & js & Hx & Hj)%unique_joins_elem.
  destruct (top_join _ _ _ _ _ T x js j Hx Hj) as (_ & _ & ? & ? & ? & ?). done.
Qed.

Lemma b_variables_allocate {A} (xs : list A) :
  allocates (mapM (λ _, b_variable) xs) (λ rs, rs) (λ rs, length rs = length xs).
Proof using.
  intros B Hok. eapply runs_weaken; [|apply (allocates_mapM _ (λ r, [r]) (λ _ _, True)); [|done]].
  - intros B' rs _ _ (Hf & H). rewrite concat_singletons in H. split; [|done]. symmetry. by eapply Forall2_length.
  - intros x _. apply allocates_variable.
Qed.

(** The choices of the constructed relation. *)
Lemma allocated_choices allocated nodes :
  Forall2 node_allocated nodes allocated → NoDup nodes →
  let choices := List.filter (λ '(_, choices), negb (is_nil choices))
    ((λ '(node, (_, choices)), (node, choices)) <$> allocated) in
  NoDup choices.*1
  ∧ (∀ n cs, (n, cs) ∈ choices → n ∈ nodes ∧ ch_route <$> cs = options route_options n ∧ 1 < length cs)
  ∧ ∀ n, n ∈ nodes → n ∉ choices.*1 → length (options route_options n) ≤ 1.
Proof using.
  intros Hall Hnd choices.
  assert (∀ n cs, (n, cs) ∈ choices ↔ cs ≠ [] ∧ ∃ sv, (n, (sv, cs)) ∈ allocated) as Hin.
  { intros n cs. unfold choices. rewrite list_elem_of_In, filter_In, <- list_elem_of_In, list_elem_of_fmap.
    rewrite negb_true_iff, is_nil_false. split.
    - intros [([m [sv cs']] & [= -> ->] & Hin) Hne]. eauto.
    - intros (Hne & sv & Hin). split; [|done]. by exists (n, (sv, cs)). }
  assert (∀ n sv cs, (n, (sv, cs)) ∈ allocated → n ∈ nodes ∧ ch_route <$> cs =
    (if 1 <? length (options route_options n) then options route_options n else [])) as Hal.
  { intros n sv cs Hx. apply list_elem_of_lookup in Hx as [i Hi].
    destruct (Forall2_lookup_r _ _ _ _ _ Hall Hi) as (n' & Hn' & Heq & Hr). cbn in *. subst n'.
    split; [by eapply list_elem_of_lookup_2|done]. }
  split_and!.
  - assert (allocated.*1 = nodes) as Hkeys.
    { clear -Hall. induction Hall as [|n [m x] ns al [Hm _] _ IH]; cbn in *; [done|]. by subst m; f_equal. }
    rewrite <- Hkeys in Hnd. unfold choices. clear -Hnd. induction allocated as [|[n [sv cs]] al IH]; cbn in *; [done|].
    apply NoDup_cons in Hnd as [Hn Hnd]. destruct cs; cbn; [by apply IH|]. apply NoDup_cons. split; [|by apply IH].
    intros ([n' cs'] & Heq & Hx)%list_elem_of_fmap. cbn in Heq. subst n'.
    apply list_elem_of_In, filter_In in Hx as [Hx%list_elem_of_In _].
    apply list_elem_of_fmap in Hx as ([n' [sv' cs'']] & [= -> ->] & Hx). apply Hn.
    by apply (list_elem_of_fmap_2 fst _ (n', (sv', cs''))).
  - intros n cs (Hne & sv & Hx)%Hin. destruct (Hal n sv cs Hx) as [Hn Hr]. split; [done|].
    destruct (Nat.ltb_spec 1 (length (options route_options n))) as [Hlt|Hge]; [|by destruct cs].
    split; [done|]. by rewrite <- (length_fmap ch_route), Hr.
  - intros n Hn Hno. destruct (Nat.ltb_spec 1 (length (options route_options n))) as [Hlt|Hge]; [|done]. exfalso.
    apply list_elem_of_lookup in Hn as [i Hi]. destruct (Forall2_lookup_l _ _ _ _ _ Hall Hi) as ([m [sv cs]] & Hx & Heq & Hr).
    cbn [fst snd] in Heq, Hr. subst m. rewrite (proj2 (Nat.ltb_lt _ _) Hlt) in Hr. apply Hno.
    apply (list_elem_of_fmap_2 fst _ (n, cs)), Hin. split; [|exists sv; by eapply list_elem_of_lookup_2].
    intros ->. cbn in Hr. rewrite <- Hr in Hlt. cbn in Hlt. lia.
Qed.

Definition built (fr : FrontierRelation) : Prop :=
  fr_entries fr = entries ∧ fr_route_options fr = route_options ∧ fr_direct_targets fr = direct_targets
  ∧ fr_conditional_targets fr = conditional_targets ∧ fr_joins fr = unique_joins joins_by_source
  ∧ (∀ n, n ∈ fr_nodes fr ↔ n ∈ ids)
  ∧ symbolic_order route_options direct_targets conditional_targets joins_by_source = Ok (fr_nodes fr).

Lemma construction_spec B :
  ok B → runs B (FrontierRelation_new entries route_options direct_targets conditional_targets joins_by_source)
    (λ B' fr, layout B' fr ∧ built fr).
Proof using T.
  intros Hok. unfold FrontierRelation_new.
  destruct (symbolic_order_spec ids _ _ _ _ T) as (nodes & Hnodes & Hnd & Hids).
  eapply runs_bind; [by eapply (runs_lift _ _ nodes (λ B' ns, B' = B ∧ ns = nodes))|]. intros B0 ns _ _ [-> ->].
  eapply runs_bind; [apply (allocates_mapM _ node_vars node_allocated); [|done]|].
  { intros n Hn. by apply node_allocate, Hids. }
  intros B1 allocated Hok1 Hg1 (Hal & Hn1 & Hv1).
  destruct (join_state_keys_spec (unique_joins joins_by_source)) as (keys & Hkeys & Hkn & Hkin);
    [apply top_join_ok|apply unique_joins_NoDup|].
  eapply runs_bind; [by eapply (runs_lift _ _ keys (λ B' ks, B' = B1 ∧ ks = keys))|]. intros B1' ks _ _ [-> ->].
  eapply runs_bind; [by apply b_variables_allocate|]. intros B2 jcur Hok2 Hg2 (Hl2 & Hn2 & Hv2).
  eapply runs_bind; [by apply b_variables_allocate|]. intros B3 jfol Hok3 Hg3 (Hl3 & Hn3 & Hv3).
  apply runs_ret; [done|].
  assert (nodes = allocated.*1) as ->.
  { clear -Hal. induction Hal as [|n [m x] ns al [Hm _] _ IH]; cbn in *; [done|]. by subst m; f_equal. }
  destruct (allocated_choices allocated _ Hal Hnd) as (Hc1 & Hc2 & Hc3).
  pose proof (allocated_permutation allocated jcur jfol keys Hl2 Hl3) as Hperm.
  destruct (variables_distinct B3 (concat (node_vars <$> allocated) ++ jcur ++ jfol) (bdd_next_variable B)) as [Hvar Hdis].
  { rewrite !length_app, !seq_app. apply Forall2_app; [by apply (variables_lasting _ B1); [|etrans|]|].
    apply Forall2_app; [by rewrite <- Hn1; apply (variables_lasting _ B2)|]. by rewrite <- Hn1, <- Hn2. }
  split; [split|]; cbn [fr_nodes fr_node_state fr_join_state fr_choices fr_joins fr_route_options]; try done.
  - clear. induction allocated as [|[n [sv cs]] al IH]; cbn; [done|]. by f_equal.
  - rewrite fst_zip; [done|]. rewrite length_zip_with. lia.
  - rewrite fst_zip; [done|]. rewrite length_zip_with. lia.
  - intros r Hr. apply Hvar. by rewrite Hperm.
  - by rewrite <- Hperm.
Qed.
End construction.
