(* ===== verification/FrontierMeaning.v ===== *)
(** * What the frontier relation denotes

    Reading the decision variables as bits of a frontier, a selection and a successor,
    the relation that [_build_relation] returns holds exactly of the supersteps of
    [FrontierSystem]. *)

From Stdlib Require Import ZArith NArith Lia Bool String.
From stdpp Require Import prelude strings gmap sorting.
From S2P Require Import Prelude Identity Topology GraphDefinition ControlGraph ControlGraphProofs LevelProofs JoinPlans JointProofs Bdd BddProofs FrontierRelation FrontierSystem FrontierAlloc.

Set Default Goal Selector "!".
Open Scope nat_scope.

(** Mapping over references while following what each stands for. *)
Lemma runs_mapM_along {P A C} B (f : A → bddM C) (S : P → Bdd → A → Prop) (R : P → Bdd → C → Prop) (ps : list P) (xs : list A) :
  (∀ p, lasting (S p)) → (∀ p, lasting (R p)) → ok B → Forall2 (λ p x, S p B x) ps xs →
  (∀ p x B', p ∈ ps → ok B' → grows B B' → S p B' x → runs B' (f x) (R p)) →
  runs B (mapM f xs) (λ B' ys, Forall2 (λ p y, R p B' y) ps ys).
Proof.
  intros HS HR Hok Hf. revert Hok. revert B Hf. revert xs. induction ps as [|p ps IH]; intros xs B Hf Hok Hrun.
  - inversion Hf; subst. by apply runs_ret.
  - inversion Hf as [|? x ? xs' Hx Hxs]; subst. cbn.
    eapply runs_bind; [apply Hrun; [by left|done|done|exact Hx]|cbv beta]. intros B1 y Hok1 Hg1 Hy.
    eapply runs_bind.
    + apply IH; [|done|].
      * eapply Forall2_impl; [exact Hxs|]. intros q z. by apply HS.
      * intros q z B' Hq Hok' Hg'. apply Hrun; [by right|done|by etrans].
    + intros B2 ys Hok2 Hg2 Hys. apply runs_ret; [done|]. constructor; [|done]. by apply (HR p B1).
Qed.

Lemma Forall2_same {A} (R : A → A → Prop) (xs : list A) : (∀ x, x ∈ xs → R x x) → Forall2 R xs xs.
Proof. induction xs as [|x xs IH]; intros H; constructor; [apply H; by left|apply IH; intros; apply H; by right]. Qed.

Lemma means_list_lasting (Ps : list (valuation → Prop)) : lasting (λ B rs, Forall2 (λ P r, means B r P) Ps rs).
Proof. apply (Forall2_lasting (λ P B r, means B r P)). intros P _. apply means_lasting. Qed.

Lemma Forall2_concat {A C} (R : A → C → Prop) xss yss : Forall2 (Forall2 R) xss yss → Forall2 R (concat xss) (concat yss).
Proof. induction 1; cbn; [constructor|by apply Forall2_app]. Qed.

(* ------------------------------------------------------------------ *)
(** ** Pairs *)

Lemma pairs_of_fmap {A C} (f : A → C) xs : pairs_of (f <$> xs) = (λ '(x, y), (f x, f y)) <$> pairs_of xs.
Proof.
  induction xs as [|x xs IH]; cbn; [done|]. rewrite fmap_app, IH. f_equal. by rewrite <- !list_fmap_compose.
Qed.

Lemma pairs_of_Forall2 {A C} (R : A → C → Prop) xs ys :
  Forall2 R xs ys → Forall2 (λ p q, R p.1 q.1 ∧ R p.2 q.2) (pairs_of xs) (pairs_of ys).
Proof.
  induction 1 as [|x y xs ys Hxy H IH]; cbn; [constructor|]. apply Forall2_app; [|done].
  apply Forall2_fmap. eapply Forall2_impl; [exact H|]. done.
Qed.

Lemma pairs_of_elem {A} (xs : list A) x y : (x, y) ∈ pairs_of xs → x ∈ xs ∧ y ∈ xs.
Proof.
  induction xs as [|z xs IH]; cbn; [by intros ?%elem_of_nil|].
  intros [(y' & [= -> ->] & Hy)%list_elem_of_fmap|[? ?]%IH]%elem_of_app; rewrite !elem_of_cons; auto.
Qed.

Lemma pairs_of_unique {A} (xs : list A) (P : A → Prop) :
  NoDup xs → (∀ x y, (x, y) ∈ pairs_of xs → ¬ (P x ∧ P y)) ↔ (∀ x y, x ∈ xs → y ∈ xs → P x → P y → x = y).
Proof.
  induction xs as [|z xs IH]; intros Hnd.
  { split; [by intros _ ?? ?%elem_of_nil|by intros _ ?? ?%elem_of_nil]. }
  apply NoDup_cons in Hnd as [Hz Hnd]. specialize (IH Hnd). cbn [pairs_of]. split.
  - intros H. assert (∀ y, y ∈ xs → ¬ (P z ∧ P y)) as Hh.
    { intros y Hy. apply H, elem_of_app. left. by apply (list_elem_of_fmap_2 (λ y, (z, y))). }
    assert (∀ x y, (x, y) ∈ pairs_of xs → ¬ (P x ∧ P y)) as Ht by (intros x y Hxy; apply H, elem_of_app; by right).
    intros x y [->|Hx]%elem_of_cons [->|Hy]%elem_of_cons Px Py; [done| | |by apply (proj1 IH Ht)].
    + by destruct (Hh y Hy).
    + by destruct (Hh x Hx).
  - intros H x y Hxy [Px Py]. apply elem_of_app in Hxy as [(y' & [= -> ->] & Hy)%list_elem_of_fmap|Hxy].
    + assert (z = y') as -> by (apply H; [by left|by right|done|done]). done.
    + revert Hxy. intros Hxy. apply (proj2 IH) in Hxy; [by apply Hxy|]. intros x' y' Hx' Hy'. apply H; by right.
Qed.

Lemma bool_means B (P : Prop) `{Decision P} : ok B → means B (if bool_decide P then bdd_true else bdd_false) (λ _, P).
Proof.
  intros Hok. case_bool_decide as HP; (eapply means_iff; [|first [by apply means_true|by apply means_false]]); tauto.
Qed.

Lemma exactly_one_spec B rs (Ps : list (valuation → Prop)) active A :
  ok B → Forall2 (means B) rs Ps → means B active A →
  runs B (exactly_one_when_active rs active) (λ B' r, means B' r (λ ρ, A ρ →
    Exists (λ P, P ρ) Ps ∧ ∀ P Q, (P, Q) ∈ pairs_of Ps → ¬ (P ρ ∧ Q ρ))).
Proof.
  intros Hok Hrs Ha. unfold exactly_one_when_active.
  eapply runs_bind; [by apply runs_or|cbv beta]. intros B1 some Hok1 Hg1 Hsome.
  eapply runs_bind; [apply runs_implies; [done|keep|exact Hsome]|cbv beta]. intros B2 clause Hok2 Hg2 Hclause.
  eapply runs_bind.
  - apply (runs_mapM_along B2 _ (λ PQ B x, means B x.1 PQ.1 ∧ means B x.2 PQ.2)
      (λ PQ B r, means B r (λ ρ, A ρ → ¬ (PQ.1 ρ ∧ PQ.2 ρ))) (pairs_of Ps) (pairs_of rs)).
    + intros [P Q] C C' [x y] HC Hg [H1 H2]. split; by eapply means_grows.
    + intros PQ. apply means_lasting.
    + done.
    + eapply Forall2_flip, Forall2_impl; [apply pairs_of_Forall2; exact Hrs|]. intros [x y] [P Q] [H1 H2].
      cbn in *. split; keep.
    + intros [P Q] [x y] B' _ Hok' Hg' [H1 H2]. cbn in H1, H2.
      eapply runs_bind; [by apply runs_apply_and|cbv beta]. intros B3 both Hok3 Hg3 Hboth.
      eapply runs_bind; [by apply runs_not|cbv beta]. intros B4 excluded Hok4 Hg4 Hexcl.
      apply runs_implies; [done| |done]. keep.
  - cbv beta. intros B3 clauses Hok3 Hg3 Hclauses. eapply runs_weaken; [|apply (runs_and B3 (clause :: clauses)
      ((λ ρ, A ρ → Exists (λ P, P ρ) Ps) :: ((λ PQ ρ, A ρ → ¬ (PQ.1 ρ ∧ PQ.2 ρ)) <$> pairs_of Ps)))].
    + intros B' r _ _ Hm. eapply means_iff; [|exact Hm]. intros ρ. rewrite Forall_cons, Forall_fmap, Forall_forall. cbn. split.
      * intros [H1 H2] HA. split; [auto|]. intros P Q HPQ. by apply (H2 (P, Q)).
      * intros H. split; [naive_solver|]. intros [P Q] HPQ HA. by apply (H HA).
    + done.
    + constructor; [keep|]. apply Forall2_fmap_r. by apply Forall2_flip in Hclauses.
Qed.
(* ------------------------------------------------------------------ *)
(** ** Association lists *)

Lemma assoc_Some_iff {A C} `{EqDecision A} (d : list (A * C)) k v : NoDup d.*1 → assoc k d = Some v ↔ (k, v) ∈ d.
Proof.
  induction d as [|[k' v'] d IH]; cbn; intros Hnd; [by rewrite elem_of_nil|]. apply NoDup_cons in Hnd as [Hk Hnd].
  rewrite elem_of_cons. destruct (decide (k = k')) as [->|Hne].
  - split; [intros [= ->]; by left|]. intros [[= ->]|Hin]; [done|]. destruct Hk. by apply (list_elem_of_fmap_2 fst _ (k', v)).
  - rewrite IH by done. split; [by right|]. intros [[= -> _]|?]; done.
Qed.

Lemma assoc_is_Some {A C} `{EqDecision A} (d : list (A * C)) k : k ∈ d.*1 → ∃ v, assoc k d = Some v ∧ (k, v) ∈ d.
Proof.
  induction d as [|[k' v'] d IH]; cbn; [by intros ?%elem_of_nil|]. intros [->|Hk]%elem_of_cons.
  - exists v'. rewrite decide_True by done. split; [done|by left].
  - destruct (decide (k = k')) as [->|Hne]; [exists v'; split; [done|by left]|].
    destruct (IH Hk) as (v & Hv & Hin). exists v. split; [done|by right].
Qed.

(* ------------------------------------------------------------------ *)
(** ** Reading valuations *)

Section meaning.
Context (ids : gset str) (fr : FrontierRelation) (joins_by_source : JoinsBySource) (B0 : Bdd).
Context (T : topology ids (fr_route_options fr) (fr_direct_targets fr) (fr_conditional_targets fr) joins_by_source).
Context (Hbuilt : fr_joins fr = unique_joins joins_by_source ∧ ∀ n, n ∈ fr_nodes fr ↔ n ∈ ids).
Context (Hok0 : ok B0) (L : layout B0 fr).

Notation nodes := (fr_nodes fr).
Notation joins := (fr_joins fr).
Notation "'Options'" := (options (fr_route_options fr)).
Notation Selects := (selects (fr_route_options fr)).
Notation Settles := (settles (fr_route_options fr)).
Notation Fires := (fires (fr_route_options fr)).
Notation Causes := (causes nodes (fr_direct_targets fr) (fr_conditional_targets fr) joins).
Notation CausesOf := (causes_of nodes (fr_direct_targets fr) (fr_conditional_targets fr) joins).
Notation Superstep := (superstep nodes (fr_route_options fr) (fr_direct_targets fr) (fr_conditional_targets fr) joins).

Definition nvar (n : str) : StateVariables := default (mkVariables 0 0) (assoc n (fr_node_state fr)).
Definition jvar (k : JoinKey) : StateVariables := default (mkVariables 0 0) (assoc k (fr_join_state fr)).
Definition cvar (n : str) (route : option str) : option Choice :=
  List.find (λ choice, bool_decide (ch_route choice = route)) (default [] (assoc n (fr_choices fr))).

Definition now (ρ : valuation) : Frontier :=
  mkFrontier (λ n, ρ (ix B0 (sv_current (nvar n)))) (λ k, ρ (ix B0 (sv_current (jvar k)))).
Definition next (ρ : valuation) : Frontier :=
  mkFrontier (λ n, ρ (ix B0 (sv_following (nvar n)))) (λ k, ρ (ix B0 (sv_following (jvar k)))).
Definition pick (ρ : valuation) : Selection := λ n route,
  match cvar n route with Some choice => ρ (ix B0 (ch_variable choice)) | None => false end.

Lemma variable_means B r : grows B0 B → r ∈ all_variables fr → means B r (λ ρ, ρ (ix B0 r) = true).
Proof using Hok0 L. intros Hg Hr. apply (means_grows B0); [done..|]. by apply (lo_variable B0 fr L). Qed.

Lemma node_variables_spec n :
  n ∈ nodes → node_variables fr n = Ok (nvar n)
  ∧ sv_current (nvar n) ∈ current_variables fr ∧ sv_following (nvar n) ∈ following_variables fr.
Proof using L.
  rewrite <- (lo_nodes B0 fr L). intros (v & Hv & Hin)%assoc_is_Some.
  unfold node_variables, assoc_get, nvar. rewrite Hv. cbn. split_and!; [done|..]; apply elem_of_app; left.
  - by apply (list_elem_of_fmap_2 (sv_current ∘ snd) _ (n, v)).
  - by apply (list_elem_of_fmap_2 (sv_following ∘ snd) _ (n, v)).
Qed.

Lemma join_variables_spec j r s :
  key_of joins j r s → join_variables fr (j, r, s) = Ok (jvar (j, r, s))
  ∧ sv_current (jvar (j, r, s)) ∈ current_variables fr ∧ sv_following (jvar (j, r, s)) ∈ following_variables fr.
Proof using L.
  rewrite <- (lo_keys B0 fr L). intros (v & Hv & Hin)%assoc_is_Some.
  unfold join_variables, assoc_get, jvar. rewrite Hv. cbn. split_and!; [done|..]; apply elem_of_app; right.
  - by apply (list_elem_of_fmap_2 (sv_current ∘ snd) _ ((j, r, s), v)).
  - by apply (list_elem_of_fmap_2 (sv_following ∘ snd) _ ((j, r, s), v)).
Qed.

Lemma current_all r : r ∈ current_variables fr → r ∈ all_variables fr.
Proof using. intros. apply elem_of_app. by left. Qed.
Lemma following_all r : r ∈ following_variables fr → r ∈ all_variables fr.
Proof using. intros. apply elem_of_app. right. apply elem_of_app. by left. Qed.

Lemma on_means B n : grows B0 B → n ∈ nodes → means B (sv_current (nvar n)) (λ ρ, on (now ρ) n = true).
Proof using Hok0 L. intros Hg Hn. apply variable_means; [done|]. by apply current_all, node_variables_spec. Qed.
Lemma next_on_means B n : grows B0 B → n ∈ nodes → means B (sv_following (nvar n)) (λ ρ, on (next ρ) n = true).
Proof using Hok0 L. intros Hg Hn. apply variable_means; [done|]. by apply following_all, node_variables_spec. Qed.
Lemma waiting_means B j r s :
  grows B0 B → key_of joins j r s → means B (sv_current (jvar (j, r, s))) (λ ρ, waiting (now ρ) (j, r, s) = true).
Proof using Hok0 L. intros Hg Hn. apply variable_means; [done|]. by apply current_all, join_variables_spec. Qed.
Lemma next_waiting_means B j r s :
  grows B0 B → key_of joins j r s → means B (sv_following (jvar (j, r, s))) (λ ρ, waiting (next ρ) (j, r, s) = true).
Proof using Hok0 L. intros Hg Hn. apply variable_means; [done|]. by apply following_all, join_variables_spec. Qed.

(* ------------------------------------------------------------------ *)
(** ** Choices *)

Lemma choices_variables n cs c : (n, cs) ∈ fr_choices fr → c ∈ cs → ch_variable c ∈ all_variables fr.
Proof using.
  intros Hn Hc. unfold all_variables, choice_variables. apply elem_of_app. right. apply elem_of_app. right.
  apply list_elem_of_In, in_concat. exists (ch_variable <$> cs). rewrite <- !list_elem_of_In. split.
  - by apply (list_elem_of_fmap_2 (λ entry : str * list Choice, ch_variable <$> entry.2) _ (n, cs)).
  - by apply (list_elem_of_fmap_2 ch_variable).
Qed.

Lemma find_choice cs route :
  match List.find (λ choice, bool_decide (ch_route choice = route)) cs with
  | Some c => c ∈ cs ∧ ch_route c = route
  | None => route ∉ ch_route <$> cs
  end.
Proof using.
  clear. induction cs as [|c cs IH]; cbn; [by apply not_elem_of_nil|]. case_bool_decide as Hc.
  - split; [by left|done].
  - destruct (List.find _ cs); [destruct IH; split; [by right|done]|]. apply not_elem_of_cons. split; congruence.
Qed.

Lemma options_nodup n : n ∈ nodes → NoDup (Options n).
Proof using T. intros _. unfold options. destruct (fr_route_options fr !! n) as [rs|] eqn:E; cbn; [|constructor]. by eapply (top_options_nodup _ _ _ _ _ T). Qed.

Lemma cvar_spec n cs route : (n, cs) ∈ fr_choices fr → route ∈ Options n →
  ∃ c, cvar n route = Some c ∧ c ∈ cs ∧ ch_route c = route.
Proof using L.
  intros Hn Hr. unfold cvar. rewrite (proj2 (assoc_Some_iff _ _ _ (lo_choices_nodup B0 fr L)) Hn). cbn.
  pose proof (find_choice cs route) as Hf. destruct (List.find _ cs) as [c|]; [eauto|]. destruct Hf.
  by destruct (lo_choices B0 fr L n cs Hn) as (_ & -> & _).
Qed.

(** The variables of one node's choices are the bits of its selection. *)
Lemma choice_literals B n cs :
  grows B0 B → (n, cs) ∈ fr_choices fr →
  Forall2 (means B) (ch_variable <$> cs) ((λ route ρ, pick ρ n route = true) <$> Options n).
Proof using Hok0 T L.
  intros Hg Hn. destruct (lo_choices B0 fr L n cs Hn) as (Hnode & Hroutes & _).
  pose proof (options_nodup n Hnode) as Hnd. rewrite <- Hroutes in *. rewrite <- list_fmap_compose.
  apply Forall2_fmap, Forall2_same. intros c Hc. cbn.
  destruct (cvar_spec n cs (ch_route c) Hn) as (c' & Hc' & Hin & Hroute); [rewrite <- Hroutes; by apply list_elem_of_fmap_2|].
  assert (c' = c) as ->.
  { apply list_elem_of_lookup in Hin as [i Hi], Hc as [k Hk].
    assert (i = k) as ->; [|congruence]. apply (NoDup_lookup _ _ _ (ch_route c) Hnd); rewrite list_lookup_fmap, ?Hi, ?Hk; cbn; congruence. }
  eapply means_iff; [|apply variable_means; [done|by eapply choices_variables]]. intros ρ. unfold pick. by rewrite Hc'.
Qed.

Lemma no_choice_entry n : assoc n (fr_choices fr) = None → n ∉ (fr_choices fr).*1.
Proof using. intros Hn (v & Hv & _)%assoc_is_Some. congruence. Qed.

Lemma conditional_options n cts route :
  fr_conditional_targets fr !! n = Some cts → cts ≠ [] → route ∈ Options n ↔ route ∈ Some <$> cts.*1.
Proof using T.
  intros Hc Hne. unfold options. rewrite (top_options_conditional _ _ _ _ _ T n cts Hc Hne). cbn.
  unfold sorted. by rewrite sort_by_perm.
Qed.

Lemma choice_literal_spec B n route :
  ok B → grows B0 B → n ∈ nodes →
  ∃ r, choice_literal fr n route = Ok r ∧ means B r (λ ρ, Selects (pick ρ) n route).
Proof using Hok0 T Hbuilt L.
  intros Hok Hg Hn. unfold choice_literal, selects.
  destruct (assoc n (fr_choices fr)) as [cs|] eqn:Hcs; cbn [from_option id].
  - apply assoc_Some_iff in Hcs as Hin; [|apply L]. destruct (lo_choices B0 fr L n cs Hin) as (_ & Hr & Hlen).
    assert (length (Options n) = length cs) as Hl by by rewrite <- Hr, length_fmap.
    destruct cs as [|c0 cs0]; [cbn in Hlen; lia|]. pose proof (find_choice (c0 :: cs0) route) as Hf.
    destruct (List.find _ (c0 :: cs0)) as [c|] eqn:Ef.
    + destruct Hf as [Hc Hroute]. eexists. split; [done|].
      eapply means_iff; [|apply variable_means; [done|by eapply choices_variables]].
      intros ρ. unfold pick, cvar. rewrite Hcs. cbn [from_option id]. rewrite Ef, Hl.
      assert (route ∈ Options n) by (rewrite <- Hr, <- Hroute; by apply list_elem_of_fmap_2). tauto.
    + eexists. split; [done|]. eapply means_iff; [|by apply means_false]. intros ρ. rewrite <- Hr. tauto.
  - pose proof (lo_no_choice B0 fr L n Hn (no_choice_entry n Hcs)) as Hlen.
    assert (n ∈ dom (fr_conditional_targets fr)) as [cts Hcts]%elem_of_dom.
    { rewrite (top_conditional _ _ _ _ _ T). by apply Hbuilt. }
    assert (n ∈ dom (fr_route_options fr)) as [rs Hrs]%elem_of_dom.
    { rewrite (top_options _ _ _ _ _ T). by apply Hbuilt. }
    unfold dict_get. rewrite Hcts. cbn [mbind result_bind]. destruct cts as [|ct cts]; cbn [is_nil negb].
    + rewrite Hrs. cbn [mbind result_bind]. eexists. split; [done|].
      eapply means_iff; [|apply (bool_means B (route ∈ rs) Hok)]. intros ρ. unfold options. rewrite Hrs. cbn.
      unfold options in Hlen. rewrite Hrs in Hlen. cbn in Hlen. split; [|tauto]. intros ?. split; [done|lia].
    + eexists. split; [done|].
      eapply means_iff; [|apply (bool_means B (route ∈ Some <$> (ct :: cts).*1) Hok)]. intros ρ.
      rewrite (conditional_options n (ct :: cts) route Hcts) by done. split; [|tauto]. intros ?. split; [done|lia].
Qed.
Lemma settles_pairs ρ n :
  n ∈ nodes → 1 < length (Options n) →
  (Exists (λ P : valuation → Prop, P ρ) ((λ route ρ, pick ρ n route = true) <$> Options n)
   ∧ ∀ P Q, (P, Q) ∈ pairs_of ((λ route ρ, pick ρ n route = true) <$> Options n) → ¬ (P ρ ∧ Q ρ))
  ↔ Settles (pick ρ) n.
Proof using T.
  intros Hn Hlen. pose proof (pairs_of_unique (Options n) (λ route, pick ρ n route = true) (options_nodup n Hn)) as Hu.
  rewrite Exists_fmap, Exists_exists, pairs_of_fmap. unfold settles. split.
  - intros [(route & Hr & Hp) Hpairs] _. exists route. split_and!; [done..|]. intros route' Hr' Hp'.
    apply (proj1 Hu); [|done..]. intros x y Hxy. apply (Hpairs (λ ρ, pick ρ n x = true) (λ ρ, pick ρ n y = true)).
    by apply (list_elem_of_fmap_2 (λ '(x, y), ((λ ρ, pick ρ n x = true), (λ ρ, pick ρ n y = true))) _ (x, y)).
  - intros H. destruct (H Hlen) as (route & Hr & Hp & Hone). split; [by exists route|].
    intros P Q ([x y] & [= -> ->] & Hxy)%list_elem_of_fmap. apply (proj2 Hu); [|done].
    intros x' y' Hx' Hy' Px Py. by rewrite (Hone x' Hx' Px), (Hone y' Hy' Py).
Qed.

Lemma choice_constraints_spec B :
  ok B → grows B0 B →
  runs B (choice_constraints fr) (λ B' r, means B' r (λ ρ, settled nodes (fr_route_options fr) (now ρ) (pick ρ))).
Proof using Hok0 T L.
  intros Hok Hg. unfold choice_constraints. eapply runs_bind.
  - apply (runs_mapM B _ (λ entry B r, means B r (λ ρ, on (now ρ) entry.1 = true → Settles (pick ρ) entry.1)) (fr_choices fr)).
    + intros x _. apply means_lasting.
    + done.
    + intros [n cs] B' Hin Hok' Hg'. destruct (lo_choices B0 fr L n cs Hin) as (Hn & Hroutes & Hlen).
      eapply runs_lift_bind; [by apply node_variables_spec|].
      eapply runs_weaken; [|apply (exactly_one_spec B' _ ((λ route ρ, pick ρ n route = true) <$> Options n) _
        (λ ρ, on (now ρ) n = true)); [done|apply choice_literals; [grow|done]|apply on_means; [grow|done]]].
      cbv beta. intros B2 r _ _ Hm. eapply means_iff; [|exact Hm]. intros ρ.
      destruct (settles_pairs ρ n Hn) as [H1 H2]; [by rewrite <- Hroutes, length_fmap|].
      split; intros H Hon; [apply H1|apply H2]; by apply H.
  - cbv beta. intros B1 clauses Hok1 Hg1 Hcl.
    eapply runs_weaken; [|apply (runs_and B1 clauses ((λ entry ρ, on (now ρ) entry.1 = true → Settles (pick ρ) entry.1) <$> fr_choices fr));
      [done|by apply Forall2_fmap_r, Forall2_flip]].
    cbv beta. intros B2 r _ _ Hm. eapply means_iff; [|exact Hm]. intros ρ. rewrite Forall_fmap, Forall_forall. unfold settled. split.
    + intros H n Hn Hon. destruct (decide (n ∈ (fr_choices fr).*1)) as [Hc|Hc].
      * apply list_elem_of_fmap in Hc as ([n' cs] & -> & Hin). by apply (H (n', cs) Hin).
      * intros Hlen. pose proof (lo_no_choice B0 fr L n Hn Hc). lia.
    + intros H [n cs] Hin. cbn. apply H. by destruct (lo_choices B0 fr L n cs Hin).
Qed.

(* ------------------------------------------------------------------ *)
(** ** Joins *)

Lemma fr_join_ok j : j ∈ joins → join_ok j.
Proof using T Hbuilt. rewrite (proj1 Hbuilt). by eapply top_join_ok. Qed.

Lemma join_source_node j s : j ∈ joins → s ∈ sources_of j → s ∈ nodes.
Proof using T Hbuilt.
  rewrite (proj1 Hbuilt). intros (x & js & Hx & Hj)%unique_joins_elem Hs. apply Hbuilt.
  by apply (top_join _ _ _ _ _ T x js j Hx Hj).
Qed.

Lemma arrival_spec B j r s :
  ok B → grows B0 B → key_of joins j r s →
  runs B (join_arrival fr j r s) (λ B' a, means B' a (λ ρ, arrives (now ρ) j r s)).
Proof using Hok0 T Hbuilt L.
  intros Hok Hg Hk. pose proof Hk as (Hj & _ & Hs). unfold join_arrival.
  eapply runs_lift_bind; [by apply join_variables_spec|].
  destruct (offset_of_spec j (fr_join_ok j Hj) s Hs) as [Ho _].
  eapply runs_lift_bind; [exact Ho|]. pose proof (waiting_means B j r s Hg Hk) as Hw.
  destruct (Z.eqb_spec (offset_of j s) r) as [Heq|Hne].
  - pose proof (join_source_node j s Hj Hs) as Hn.
    eapply runs_lift_bind; [by apply node_variables_spec|]. eapply runs_weaken; [|apply (runs_or B _ [λ ρ, waiting (now ρ) (j, r, s) = true; λ ρ, on (now ρ) s = true]);
      [done|constructor; [done|constructor; [by apply on_means|constructor]]]].
    cbv beta. intros B2 a _ _ Hm. eapply means_iff; [|exact Hm]. intros ρ. rewrite !Exists_cons, Exists_nil. unfold arrives.
    rewrite Heq. tauto.
  - eapply runs_weaken; [|apply (runs_or B _ [λ ρ, waiting (now ρ) (j, r, s) = true]);
      [done|constructor; [done|constructor]]].
    cbv beta. intros B2 a _ _ Hm. eapply means_iff; [|exact Hm]. intros ρ. rewrite !Exists_cons, Exists_nil. unfold arrives. tauto.
Qed.

(** The conditions of one source. *)
Definition source_preds (j : CompiledJoin) (r : Z) (s : str) : list (valuation → Prop) :=
  (if bool_decide (offset_of j s = r)
   then [λ ρ, ¬ (waiting (now ρ) (j, r, s) = true ∧ on (now ρ) s = true)] else [])
  ++ (if bool_decide (1 < r)%Z
      then [λ ρ, waiting (next ρ) (j, r - 1, s)%Z = true ↔ arrives (now ρ) j r s] else []).

(** The conditions one Join imposes at one distance, in the order of the loop. *)
Definition join_preds (j : CompiledJoin) (r : Z) : list (valuation → Prop) :=
  (λ ρ, if bool_decide (r = 1%Z)
        then (∃ s, s ∈ sources_of j ∧ arrives (now ρ) j r s) → ∀ s, s ∈ sources_of j → arrives (now ρ) j r s
        else ¬ ∀ s, s ∈ sources_of j → arrives (now ρ) j r s)
  :: concat (source_preds j r <$> sources_of j).

(** A reference for each cause. *)
Definition cause_means (c : str * Cause) (B : Bdd) (entry : str * (nat * list str)) : Prop :=
  entry.1 = c.1 ∧ means B entry.2.1 (λ ρ, Fires (now ρ) (pick ρ) c.2).

Lemma cause_means_lasting c : lasting (cause_means c).
Proof using. intros B B' [t [r ss]] Hok Hg [Ht Hm]. split; [done|]. by eapply means_grows. Qed.

Definition join_causes (j : CompiledJoin) (r : Z) : list (str * Cause) :=
  if bool_decide (r = 1%Z) then (if bool_decide (target_of j = END) then [] else [(target_of j, ByJoin j)]) else [].

(** The arrivals of one step, one reference per source. *)
Definition arrivals_mean (j : CompiledJoin) (r : Z) (B : Bdd) (arrivals : list (str * nat)) : Prop :=
  Forall2 (λ s a, a.1 = s ∧ means B a.2 (λ ρ, arrives (now ρ) j r s)) (sources_of j) arrivals.

Lemma arrivals_spec B j r :
  ok B → grows B0 B → j ∈ joins → (1 ≤ r ≤ farthest j)%Z →
  runs B (mapM (λ source, arrival ← join_arrival fr j r source; mret (source, arrival)) (sources_of j))
    (λ B' arrivals, arrivals_mean j r B' arrivals).
Proof using Hok0 T Hbuilt L.
  intros Hok Hg Hj Hr. apply (runs_mapM B _ (λ s B a, a.1 = s ∧ means B a.2 (λ ρ, arrives (now ρ) j r s))); [|done|].
  - intros s _ B1 B2 a Hok1 Hg1 [Ha Hm]. split; [done|]. by eapply means_grows.
  - intros s B' Hs Hok' Hg'. eapply runs_bind; [apply arrival_spec; [done|grow|done]|cbv beta]. intros B1 a Hok1 Hg1 Ha.
    by apply runs_ret.
Qed.

Lemma arrivals_grow j r B B' arrivals : ok B → grows B B' → arrivals_mean j r B arrivals → arrivals_mean j r B' arrivals.
Proof using.
  intros Hok Hg H. eapply Forall2_impl; [exact H|]. intros s a [Ha Hm]. split; [done|]. by eapply means_grows.
Qed.

Lemma arrivals_list j r B arrivals :
  arrivals_mean j r B arrivals → Forall2 (means B) arrivals.*2 ((λ s ρ, arrives (now ρ) j r s) <$> sources_of j).
Proof using. intros H. apply Forall2_fmap, Forall2_flip. eapply Forall2_impl; [exact H|]. by intros s a [_ ?]. Qed.

Lemma arrivals_lookup j r B arrivals s :
  arrivals_mean j r B arrivals → s ∈ sources_of j →
  ∃ a, assoc_get arrivals s = Ok a ∧ means B a (λ ρ, arrives (now ρ) j r s).
Proof using.
  unfold arrivals_mean, assoc_get. intros H Hs.
  induction H as [|s' [k a] ss arrivals [Hk Hm] H IH]; [by apply elem_of_nil in Hs|]. cbn in *. subst k.
  destruct (decide (s = s')) as [->|Hne]; [by exists a|]. apply elem_of_cons in Hs as [->|Hs]; [done|]. by apply IH.
Qed.

Lemma source_constraints_spec B j r s arrivals :
  ok B → grows B0 B → key_of joins j r s → arrivals_mean j r B arrivals →
  runs B (
    offset ← lift (target_offset j s);
    duplicates ← (if (offset =? r)%Z then
        (pending ← lift (join_variables fr (j, r, s));
         source_variables ← lift (node_variables fr s);
         duplicate ← b_apply AND (sv_current pending) (sv_current source_variables);
         excluded ← b_not duplicate; mret [excluded])
      else mret []);
    moves ← (if (1 <? r)%Z then
        (next ← lift (join_variables fr (j, r - 1, s)%Z);
         arrival ← lift (assoc_get arrivals s);
         move ← b_iff (sv_following next) arrival; mret [move])
      else mret []);
    mret (duplicates ++ moves))
  (λ B' rs, Forall2 (λ P r, means B' r P) (source_preds j r s) rs).
Proof using Hok0 T Hbuilt L.
  intros Hok Hg Hk Harr. pose proof Hk as (Hj & Hr & Hs).
  destruct (offset_of_spec j (fr_join_ok j Hj) s Hs) as [Ho _]. eapply runs_lift_bind; [exact Ho|].
  pose proof (join_source_node j s Hj Hs) as Hn.
  eapply (runs_bind _ _ _ (λ B' rs, Forall2 (λ P r, means B' r P) (if bool_decide (offset_of j s = r)
     then [λ ρ, ¬ (waiting (now ρ) (j, r, s) = true ∧ on (now ρ) s = true)] else []) rs)).
  { destruct (Z.eqb_spec (offset_of j s) r) as [Heq|Hne]; [rewrite bool_decide_true by done|rewrite bool_decide_false by done; by apply runs_ret].
    eapply runs_lift_bind; [by apply join_variables_spec|]. eapply runs_lift_bind; [by apply node_variables_spec|].
    eapply runs_bind; [apply (runs_apply_and _ _ _ _ _ Hok (waiting_means B j r s Hg Hk) (on_means B s Hg Hn))|cbv beta].
    intros B1 d Hok1 Hg1 Hd. eapply runs_bind; [by apply (runs_not _ _ _ Hok1 Hd)|cbv beta]. intros B2 e Hok2 Hg2 He.
    apply runs_ret; [done|]. constructor; [done|constructor]. }
  intros B1 duplicates Hok1 Hg1 Hdup.
  eapply (runs_bind _ _ _ (λ B' rs, Forall2 (λ P r, means B' r P) (if bool_decide (1 < r)%Z
      then [λ ρ, waiting (next ρ) (j, r - 1, s)%Z = true ↔ arrives (now ρ) j r s] else []) rs)).
  { destruct (Z.ltb_spec 1 r) as [Hlt|Hge]; [rewrite bool_decide_true by done|rewrite bool_decide_false by lia; by apply runs_ret].
    assert (key_of joins j (r - 1)%Z s) as Hk' by (split_and!; [done|lia|lia|done]).
    eapply runs_lift_bind; [by apply join_variables_spec|].
    destruct (arrivals_lookup j r B1 arrivals s) as (a & Ha & Hm); [by apply (arrivals_grow j r B)|done|].
    eapply runs_lift_bind; [exact Ha|].
    eapply runs_bind; [apply (runs_iff _ _ _ _ _ Hok1 (next_waiting_means B1 j (r - 1)%Z s ltac:(grow) Hk') Hm)|cbv beta].
    intros B2 e Hok2 Hg2 He. apply runs_ret; [done|]. constructor; [done|constructor]. }
  intros B2 moves Hok2 Hg2 Hmoves. apply runs_ret; [done|]. unfold source_preds. apply Forall2_app; [|done].
  by apply (means_list_lasting _ B1).
Qed.

Lemma join_step_spec B j r :
  ok B → grows B0 B → j ∈ joins → (1 ≤ r ≤ farthest j)%Z →
  runs B (join_step fr j r) (λ B' out, Forall2 (λ P r, means B' r P) (join_preds j r) out.1
    ∧ Forall2 (λ c e, cause_means c B' e) (join_causes j r) out.2).
Proof using Hok0 T Hbuilt L.
  intros Hok Hg Hj Hr. unfold join_step. fold (sources_of j) (target_of j).
  eapply runs_bind; [by apply arrivals_spec|cbv beta]. intros B1 arrivals Hok1 Hg1 Harr.
  eapply runs_bind; [apply (runs_or _ _ _ Hok1 (arrivals_list j r B1 arrivals Harr))|cbv beta]. intros B2 any Hok2 Hg2 Hany.
  eapply runs_bind; [apply (runs_and _ _ _ Hok2 (arrivals_list j r B2 arrivals (arrivals_grow _ _ _ _ _ Hok1 Hg2 Harr)))|cbv beta].
  intros B3 complete Hok3 Hg3 Hcomplete.
  assert (means B3 complete (λ ρ, ∀ s, s ∈ sources_of j → arrives (now ρ) j r s)) as Hall.
  { eapply means_iff; [|exact Hcomplete]. intros ρ. by rewrite Forall_fmap, Forall_forall. }
  assert (means B3 any (λ ρ, ∃ s, s ∈ sources_of j ∧ arrives (now ρ) j r s)) as Hsome.
  { apply (means_grows B2); [done..|]. eapply means_iff; [|exact Hany]. intros ρ. by rewrite Exists_fmap, Exists_exists. }
  eapply (runs_bind _ _ _ (λ B' out, means B' out.1 (λ ρ, if bool_decide (r = 1%Z)
        then (∃ s, s ∈ sources_of j ∧ arrives (now ρ) j r s) → ∀ s, s ∈ sources_of j → arrives (now ρ) j r s
        else ¬ ∀ s, s ∈ sources_of j → arrives (now ρ) j r s)
      ∧ Forall2 (λ c e, cause_means c B' e) (join_causes j r) out.2)).
  { unfold join_causes. destruct (Z.eqb_spec r 1) as [->|Hne].
    - rewrite (bool_decide_true (1%Z = 1%Z)) by done. eapply runs_bind; [apply (runs_implies _ _ _ _ _ Hok3 Hsome Hall)|cbv beta].
      intros B4 c Hok4 Hg4 Hc. apply runs_ret; [done|]. split; [exact Hc|]. case_bool_decide; [constructor|].
      constructor; [|constructor]. split; [done|]. exact (means_grows B3 B4 complete _ Hok3 Hg4 Hall).
    - rewrite (bool_decide_false (r = 1%Z)) by done. eapply runs_bind; [apply (runs_not _ _ _ Hok3 Hall)|cbv beta].
      intros B4 c Hok4 Hg4 Hc. apply runs_ret; [done|]. split; [exact Hc|constructor]. }
  intros B4 [constraint causes] Hok4 Hg4 [Hcon Hcau]. cbn in Hcon, Hcau.
  eapply (runs_bind _ _ _ (λ B' outs, Forall2 (λ s rs, Forall2 (λ P r, means B' r P) (source_preds j r s) rs) (sources_of j) outs)).
  { apply (runs_mapM B4 _ (λ s B rs, Forall2 (λ P r, means B r P) (source_preds j r s) rs)); [|done|].
    - intros s _. apply means_list_lasting.
    - intros s B' Hs Hok' Hg'. apply source_constraints_spec; [done|grow|done|].
      apply (arrivals_grow _ _ B1); [done|grow|done]. }
  intros B5 outs Hok5 Hg5 Houts. apply runs_ret; [done|]. split; cbn.
  - constructor; [keep|]. apply Forall2_concat, Forall2_fmap_l. eapply Forall2_impl; [exact Houts|]. done.
  - eapply Forall2_impl; [exact Hcau|]. intros c e. by apply cause_means_lasting.
Qed.

Definition all_join_preds (j : CompiledJoin) : list (valuation → Prop) := concat (join_preds j <$> range_from_1 (farthest j)).
Definition all_join_causes (j : CompiledJoin) : list (str * Cause) := concat (join_causes j <$> range_from_1 (farthest j)).

Lemma join_steps_spec B j :
  ok B → grows B0 B → j ∈ joins →
  runs B (join_steps fr j) (λ B' out, Forall2 (λ P r, means B' r P) (all_join_preds j) out.1
    ∧ Forall2 (λ c e, cause_means c B' e) (all_join_causes j) out.2).
Proof using Hok0 T Hbuilt L.
  intros Hok Hg Hj. unfold join_steps. destruct (farthest_spec j (fr_join_ok j Hj)) as (Hmax & _).
  eapply runs_lift_bind; [exact Hmax|]. eapply runs_bind.
  - apply (runs_mapM B _ (λ r B out, Forall2 (λ P r, means B r P) (join_preds j r) out.1
      ∧ Forall2 (λ c e, cause_means c B e) (join_causes j r) out.2) (range_from_1 (farthest j))); [|done|].
    + intros r _ B1 B2 out Hok1 Hg1 [H1 H2]. split; [by apply (means_list_lasting _ B1)|].
      eapply Forall2_impl; [exact H2|]. intros c e. by apply cause_means_lasting.
    + intros r B' Hr%range_from_1_elem Hok' Hg'. apply join_step_spec; [done|grow|done|done].
  - cbv beta. intros B1 outs Hok1 Hg1 Houts. apply runs_ret; [done|]. unfold all_join_preds, all_join_causes. cbn.
    split; apply Forall2_concat, Forall2_fmap; (eapply Forall2_impl; [exact Houts|]); by intros r out [? ?].
Qed.

(* ------------------------------------------------------------------ *)
(** ** Edges and targets *)

Definition edge_causes_of (s : str) : list (str * Cause) :=
  ((λ target, (target, ByEdge s)) <$> sorted_elements (default ∅ (fr_direct_targets fr !! s)))
  ++ ((λ '(route, target), (target, ByRoute s route)) <$>
       List.filter (λ '(_, target), negb (bool_decide (target = END))) (conditional_of (fr_conditional_targets fr) s)).

Lemma edge_causes_spec B s :
  ok B → grows B0 B → s ∈ nodes →
  runs B (edge_causes fr s) (λ B' out, Forall2 (λ c e, cause_means c B' e) (edge_causes_of s) out).
Proof using Hok0 T Hbuilt L.
  intros Hok Hg Hs. unfold edge_causes, edge_causes_of, conditional_of.
  assert (s ∈ dom (fr_conditional_targets fr)) as [cts Hcts]%elem_of_dom.
  { rewrite (top_conditional _ _ _ _ _ T). by apply Hbuilt. }
  assert (s ∈ dom (fr_direct_targets fr)) as [ts Hts]%elem_of_dom.
  { rewrite (top_direct _ _ _ _ _ T). by apply Hbuilt. }
  eapply runs_lift_bind; [by apply node_variables_spec|]. unfold dict_get. rewrite Hcts, Hts. cbn [from_option id].
  do 2 (eapply runs_lift_bind; [reflexivity|]). eapply runs_bind.
  - apply (runs_mapM B _ (λ rt B e, cause_means (rt.2, ByRoute s rt.1) B e)
      (List.filter (λ '(_, target), negb (bool_decide (target = END))) cts)); [|done|].
    + intros rt _. apply cause_means_lasting.
    + intros [route target] B' _ Hok' Hg'.
      destruct (choice_literal_spec B' s (Some route) Hok' ltac:(grow) Hs) as (l & Hl & Hm).
      eapply runs_lift_bind; [exact Hl|].
      eapply runs_bind; [apply (runs_apply_and _ _ _ _ _ Hok' (on_means B' s ltac:(grow) Hs) Hm)|cbv beta].
      intros B1 both Hok1 Hg1 Hboth. apply runs_ret; [done|]. split; [done|exact Hboth].
  - cbv beta. intros B1 routed Hok1 Hg1 Hrouted. apply runs_ret; [done|]. apply Forall2_app.
    + apply Forall2_fmap, Forall2_same. intros t _. split; [done|]. cbn [fst snd]. apply (on_means B1 s ltac:(grow) Hs).
    + apply Forall2_fmap_l. eapply Forall2_impl; [exact Hrouted|]. by intros [route target] e.
Qed.

Definition target_preds (cs : list Cause) (t : str) : list (valuation → Prop) :=
  ((λ cc ρ, ¬ (Fires (now ρ) (pick ρ) cc.1 ∧ Fires (now ρ) (pick ρ) cc.2)) <$> pairs_of cs)
  ++ [λ ρ, on (next ρ) t = true ↔ Exists (Fires (now ρ) (pick ρ)) cs].

(** The duplicate causes reported for one target. *)
Definition duplicate_means (cc : Cause * Cause) (B : Bdd) (d : nat * str * list str) : Prop :=
  means B d.1.1 (λ ρ, Fires (now ρ) (pick ρ) cc.1 ∧ Fires (now ρ) (pick ρ) cc.2).

Lemma filter_causes (cs : list (str * Cause)) B es t :
  Forall2 (λ c e, cause_means c B e) cs es →
  Forall2 (λ c e, means B e.1 (λ ρ, Fires (now ρ) (pick ρ) c))
    (snd <$> List.filter (λ '(candidate, _), bool_decide (candidate = t)) cs)
    (snd <$> List.filter (λ '(candidate, _), bool_decide (candidate = t)) es).
Proof using.
  induction 1 as [|[t1 c] [t2 e] cs es [Ht Hm] H IH]; cbn; [constructor|]. cbn in Ht. subst t2.
  case_bool_decide; cbn; [by constructor|done].
Qed.

Lemma target_constraints_spec B cs es t :
  ok B → grows B0 B → t ∈ nodes → Forall2 (λ c e, cause_means c B e) cs es →
  let target_causes := snd <$> List.filter (λ '(candidate, _), bool_decide (candidate = t)) cs in
  runs B (target_constraints fr es t) (λ B' out, Forall2 (λ P r, means B' r P) (target_preds target_causes t) out.1
    ∧ Forall2 (λ cc d, duplicate_means cc B' d) (pairs_of target_causes) out.2).
Proof using Hok0 L.
  intros Hok Hg Ht Hcs target_causes. pose proof (filter_causes cs B es t Hcs) as Hf. fold target_causes in Hf.
  unfold target_constraints. set (refs := snd <$> List.filter _ es) in Hf |- *. cbv zeta.
  eapply runs_bind.
  - apply (runs_mapM_along B _
      (λ cc B p, means B p.1.1 (λ ρ, Fires (now ρ) (pick ρ) cc.1) ∧ means B p.2.1 (λ ρ, Fires (now ρ) (pick ρ) cc.2))
      (λ cc B out, means B out.1 (λ ρ, ¬ (Fires (now ρ) (pick ρ) cc.1 ∧ Fires (now ρ) (pick ρ) cc.2))
         ∧ duplicate_means cc B out.2) (pairs_of target_causes) (pairs_of refs)).
    + intros cc C C' p HC HCg [H1 H2]. split; by eapply (means_grows C).
    + intros cc C C' out HC HCg [H1 H2]. split; by eapply (means_grows C).
    + done.
    + eapply Forall2_impl; [apply pairs_of_Forall2; exact Hf|]. done.
    + intros [c c'] [[r ss] [r' ss']] B' _ Hok' Hg' [H1 H2]. cbn [fst snd] in H1, H2.
      eapply runs_bind; [apply (runs_apply_and _ _ _ _ _ Hok' H1 H2)|cbv beta]. intros B1 d Hok1 Hg1 Hd.
      eapply runs_bind; [apply (runs_not _ _ _ Hok1 Hd)|cbv beta]. intros B2 e Hok2 Hg2 He.
      apply runs_ret; [done|]. split; [exact He|]. unfold duplicate_means. cbn [fst snd]. keep.
  - cbv beta. intros B1 dups Hok1 Hg1 Hdups.
    assert (Forall2 (means B1) refs.*1 ((λ c ρ, Fires (now ρ) (pick ρ) c) <$> target_causes)) as Hrefs.
    { apply Forall2_fmap, Forall2_flip. eapply Forall2_impl; [exact Hf|]. cbn. intros c e He. by apply (means_grows B). }
    eapply runs_bind; [apply (runs_or _ _ _ Hok1 Hrefs)|cbv beta]. intros B2 ex Hok2 Hg2 Hex.
    eapply runs_lift_bind; [by apply node_variables_spec|].
    eapply runs_bind; [apply (runs_iff _ _ _ _ _ Hok2 (next_on_means B2 t ltac:(grow) Ht) Hex)|cbv beta].
    intros B3 nx Hok3 Hg3 Hnx. apply runs_ret; [done|]. unfold target_preds. split; cbn [fst snd].
    + apply Forall2_app; [|constructor; [|constructor]].
      * apply Forall2_fmap. eapply Forall2_impl; [exact Hdups|]. intros cc out [Hm _]. keep.
      * eapply means_iff; [|exact Hnx]. intros ρ. cbv beta. by rewrite Exists_fmap.
    + apply Forall2_fmap_r. eapply Forall2_impl; [exact Hdups|]. intros cc out [_ Hm]. apply (means_grows B1); [done|grow|exact Hm].
Qed.

Lemma join_tail_spec B j :
  ok B → grows B0 B → j ∈ joins →
  runs B (join_tail fr j) (λ B' rs, Forall2 (λ P r, means B' r P)
    ((λ s ρ, ¬ waiting (next ρ) (j, farthest j, s) = true) <$> sources_of j) rs).
Proof using Hok0 T Hbuilt L.
  intros Hok Hg Hj. unfold join_tail. destruct (farthest_spec j (fr_join_ok j Hj)) as (Hmax & Hge & _).
  eapply runs_lift_bind; [exact Hmax|]. fold (sources_of j).
  eapply runs_weaken; [|apply (runs_mapM B _ (λ s B r, means B r (λ ρ, ¬ waiting (next ρ) (j, farthest j, s) = true))
    (sources_of j)); [|done|]].
  - cbv beta. intros B' rs _ _ H. by apply Forall2_fmap_l.
  - intros s _. apply means_lasting.
  - intros s B' Hs Hok' Hg'. assert (key_of joins j (farthest j) s) as Hk by (split_and!; [done|lia|lia|done]).
    eapply runs_lift_bind; [by apply join_variables_spec|]. apply (runs_not _ _ _ Hok' (next_waiting_means B' j _ s ltac:(grow) Hk)).
Qed.

(* ------------------------------------------------------------------ *)
(** ** The relation *)

Definition relation_preds : list (valuation → Prop) :=
  (λ ρ, settled nodes (fr_route_options fr) (now ρ) (pick ρ))
  :: concat (all_join_preds <$> joins)
  ++ concat ((λ t, target_preds (CausesOf t) t) <$> nodes)
  ++ concat ((λ j, (λ s ρ, ¬ waiting (next ρ) (j, farthest j, s) = true) <$> sources_of j) <$> joins).

Lemma Forall_concat {A} (P : A → Prop) (xss : list (list A)) : Forall P (concat xss) ↔ ∀ xs, xs ∈ xss → Forall P xs.
Proof using.
  clear. induction xss as [|xs xss IH]; cbn.
  - split; [by intros _ ? ?%elem_of_nil|constructor].
  - rewrite Forall_app, IH. setoid_rewrite elem_of_cons. naive_solver.
Qed.

Lemma join_preds_holds ρ j :
  Forall (λ P : valuation → Prop, P ρ) (all_join_preds j) ↔
  ∀ r, (1 ≤ r ≤ farthest j)%Z →
    (if bool_decide (r = 1%Z)
     then (∃ s, s ∈ sources_of j ∧ arrives (now ρ) j r s) → ∀ s, s ∈ sources_of j → arrives (now ρ) j r s
     else ¬ ∀ s, s ∈ sources_of j → arrives (now ρ) j r s)
    ∧ ∀ s, s ∈ sources_of j →
      (offset_of j s = r → ¬ (waiting (now ρ) (j, r, s) = true ∧ on (now ρ) s = true))
      ∧ ((1 < r)%Z → waiting (next ρ) (j, r - 1, s)%Z = true ↔ arrives (now ρ) j r s).
Proof using.
  clear. unfold all_join_preds. rewrite Forall_concat. setoid_rewrite list_elem_of_fmap. split.
  - intros H r Hr%range_from_1_elem. specialize (H (join_preds j r) ltac:(eauto)). unfold join_preds in H.
    apply Forall_cons in H as [H1 H2]. split; [exact H1|]. intros s Hs. rewrite Forall_concat in H2.
    specialize (H2 (source_preds j r s) (list_elem_of_fmap_2 (source_preds j r) _ s Hs)).
    apply Forall_app in H2 as [H2 H3]. split.
    + intros Ho. rewrite bool_decide_true in H2 by done. rewrite Forall_singleton in H2. exact H2.
    + intros Hr1. rewrite bool_decide_true in H3 by done. rewrite Forall_singleton in H3. exact H3.
  - intros H xs (r & -> & Hr%range_from_1_elem). destruct (H r Hr) as [H1 H2]. constructor; [exact H1|].
    rewrite Forall_concat. intros ys (s & -> & Hs)%list_elem_of_fmap. destruct (H2 s Hs) as [H3 H4].
    clear H H1 H2. apply Forall_app. split; case_bool_decide; (constructor; [auto|constructor]) || constructor.
Qed.

Lemma target_preds_holds ρ cs t :
  Forall (λ P : valuation → Prop, P ρ) (target_preds cs t) ↔
  (¬ ∃ c c', (c, c') ∈ pairs_of cs ∧ Fires (now ρ) (pick ρ) c ∧ Fires (now ρ) (pick ρ) c')
  ∧ (on (next ρ) t = true ↔ Exists (Fires (now ρ) (pick ρ)) cs).
Proof using.
  unfold target_preds. rewrite Forall_app, Forall_fmap, Forall_singleton, Forall_forall. split.
  - intros [H1 H2]. split; [|exact H2]. intros (c & c' & Hcc & Hc & Hc'). by apply (H1 (c, c') Hcc).
  - intros [H1 H2]. split; [|exact H2]. intros [c c'] Hcc [Hc Hc']. apply H1. by exists c, c'.
Qed.

Lemma relation_holds ρ : Forall (λ P : valuation → Prop, P ρ) relation_preds ↔ Superstep (now ρ) (pick ρ) (next ρ).
Proof using T Hbuilt.
  unfold relation_preds. rewrite Forall_cons, !Forall_app, !Forall_concat. setoid_rewrite list_elem_of_fmap. split.
  - intros (H1 & H2 & H3 & H4).
    assert (∀ j, j ∈ joins → Forall (λ P : valuation → Prop, P ρ) (all_join_preds j)) as HJ by eauto.
    assert (∀ t, t ∈ nodes → Forall (λ P : valuation → Prop, P ρ) (target_preds (CausesOf t) t)) as HT by eauto.
    split.
    + exact H1.
    + intros j s Hj Hs Ha s' Hs'. destruct (proj1 (join_preds_holds ρ j) (HJ j Hj) 1%Z) as [Hd _].
      * destruct (farthest_spec j (fr_join_ok j Hj)) as (_ & ? & _). lia.
      * cbn in Hd. apply Hd; [by exists s|done].
    + intros j r Hj Hr. destruct (proj1 (join_preds_holds ρ j) (HJ j Hj) r) as [He _]; [lia|].
      rewrite bool_decide_false in He by lia. exact He.
    + intros j s (Hj & Hr & Hs). destruct (proj1 (join_preds_holds ρ j) (HJ j Hj) _ Hr) as [_ Hf].
      by apply (Hf s Hs).
    + intros j r s (Hj & Hr & Hs) Hr1. destruct (proj1 (join_preds_holds ρ j) (HJ j Hj) r Hr) as [_ Hf].
      by apply (Hf s Hs).
    + intros j s Hj Hs. apply not_true_is_false.
      assert (Forall (λ P : valuation → Prop, P ρ) ((λ s ρ, ¬ waiting (next ρ) (j, farthest j, s) = true) <$> sources_of j)) as Hl by eauto.
      rewrite Forall_fmap, Forall_forall in Hl. by apply Hl.
    + intros t Ht. by apply (target_preds_holds ρ (CausesOf t) t), HT.
    + intros t Ht. by apply (target_preds_holds ρ (CausesOf t) t), HT.
  - intros [S1 S2 S3 S4 S5 S6 S7 S8]. split_and!.
    + exact S1.
    + intros xs (j & -> & Hj). apply join_preds_holds. intros r Hr. split.
      * case_bool_decide as Hr1; [subst r; intros (s & Hs & Ha); by apply (S2 j s)|]. apply S3; [done|lia].
      * intros s Hs. split; [intros Ho|intros Hr1; by apply S5]. rewrite <- Ho. apply S4. by rewrite Ho.
    + intros xs (t & -> & Ht). apply target_preds_holds. split; [by apply S7|by apply S8].
    + intros xs (j & -> & Hj). rewrite Forall_fmap, Forall_forall. intros s Hs.
      change (¬ waiting (next ρ) (j, farthest j, s) = true). by rewrite (S6 j s Hj Hs).
Qed.

Lemma all_join_causes_eq j :
  j ∈ joins → all_join_causes j = if bool_decide (target_of j = END) then [] else [(target_of j, ByJoin j)].
Proof using T Hbuilt.
  intros Hj. destruct (farthest_spec j (fr_join_ok j Hj)) as (_ & Hge & _). unfold all_join_causes, range_from_1.
  destruct (Z.to_nat (farthest j)) as [|k] eqn:E; [lia|]. cbn [seq fmap list_fmap concat].
  assert (concat (join_causes j <$> (Z.of_nat <$> seq 2 k)) = []) as ->.
  { assert (∀ r, r ∈ Z.of_nat <$> seq 2 k → (1 < r)%Z) as Hr.
    { intros r (i & -> & Hi%elem_of_seq)%list_elem_of_fmap. lia. }
    clear -Hr. induction (Z.of_nat <$> seq 2 k) as [|r rs IH]; cbn; [done|].
    rewrite IH by (intros; apply Hr; by right). unfold join_causes. rewrite bool_decide_false; [done|].
    specialize (Hr r ltac:(by left)). lia. }
  rewrite app_nil_r. unfold join_causes. by rewrite (bool_decide_true (1%Z = 1%Z)).
Qed.

Lemma causes_eq : concat (edge_causes_of <$> nodes) ++ concat (all_join_causes <$> joins) = Causes.
Proof using T Hbuilt.
  unfold causes. f_equal. f_equal. apply list_fmap_ext. intros i j Hj%list_elem_of_lookup_2. by apply all_join_causes_eq.
Qed.

Lemma build_relation_spec B choice :
  ok B → grows B0 B → means B choice (λ ρ, settled nodes (fr_route_options fr) (now ρ) (pick ρ)) →
  runs B (build_relation fr choice) (λ B' out, means B' out.1 (λ ρ, Superstep (now ρ) (pick ρ) (next ρ))
    ∧ Forall2 (λ cc d, duplicate_means cc B' d) (concat ((λ t, pairs_of (CausesOf t)) <$> nodes)) out.2).
Proof using Hok0 T Hbuilt L.
  intros Hok Hg Hchoice. unfold build_relation.
  assert (∀ cs, lasting (λ B es, Forall2 (λ c e, cause_means c B e) cs es)) as Hcl.
  { intros cs. apply (Forall2_lasting cause_means). intros. apply cause_means_lasting. }
  eapply runs_bind; [apply (runs_mapM B _ (λ s B es, Forall2 (λ c e, cause_means c B e) (edge_causes_of s) es)); [intros; apply Hcl|done|]|cbv beta].
  { intros s B' Hs Hok' Hg'. apply edge_causes_spec; [done|grow|done]. }
  intros B1 by_edges Hok1 Hg1 Hedges.
  eapply runs_bind; [apply (runs_mapM B1 _ (λ j B out, Forall2 (λ P r, means B r P) (all_join_preds j) out.1
      ∧ Forall2 (λ c e, cause_means c B e) (all_join_causes j) out.2)); [|done|]|cbv beta].
  { intros j _ C C' out HC HCg [H1 H2]. split; [by apply (means_list_lasting _ C)|by apply (Hcl _ C)]. }
  { intros j B' Hj Hok' Hg'. apply join_steps_spec; [done|grow|done]. }
  intros B2 by_joins Hok2 Hg2 Hjoins. cbv zeta.
  set (es := concat by_edges ++ concat (snd <$> by_joins)).
  assert (Forall2 (λ c e, cause_means c B2 e) Causes es) as Hcauses.
  { rewrite <- causes_eq. apply Forall2_app; apply Forall2_concat, Forall2_fmap_l.
    - eapply Forall2_impl; [exact Hedges|]. intros s out. by apply (Hcl _ B1).
    - apply Forall2_fmap_r. eapply Forall2_impl; [exact Hjoins|]. by intros j out [_ ?]. }
  eapply runs_bind; [apply (runs_mapM B2 _ (λ t B out, Forall2 (λ P r, means B r P) (target_preds (CausesOf t) t) out.1
      ∧ Forall2 (λ cc d, duplicate_means cc B d) (pairs_of (CausesOf t)) out.2)); [|done|]|cbv beta].
  { intros t _ C C' out HC HCg [H1 H2]. split; [by apply (means_list_lasting _ C)|].
    eapply Forall2_impl; [exact H2|]. intros cc d. by apply (means_grows C). }
  { intros t B' Ht Hok' Hg'. apply target_constraints_spec; [done|grow|done|]. by apply (Hcl _ B2). }
  intros B3 by_targets Hok3 Hg3 Htargets.
  eapply runs_bind; [apply (runs_mapM B3 _ (λ j B rs, Forall2 (λ P r, means B r P)
    ((λ s ρ, ¬ waiting (next ρ) (j, farthest j, s) = true) <$> sources_of j) rs)); [|done|]|cbv beta].
  { intros j _. apply means_list_lasting. }
  { intros j B' Hj Hok' Hg'. apply join_tail_spec; [done|grow|done]. }
  intros B4 tails Hok4 Hg4 Htails.
  eapply runs_bind; [apply (runs_and B4 _ relation_preds); [done|]|cbv beta].
  - unfold relation_preds. constructor; [keep|]. apply Forall2_flip. apply Forall2_app; [|apply Forall2_app];
      apply Forall2_concat, Forall2_fmap_l.
    + apply Forall2_fmap_r. eapply Forall2_impl; [exact Hjoins|]. intros j out [H1 _]. apply (means_list_lasting _ B2); [done|grow|done].
    + apply Forall2_fmap_r. eapply Forall2_impl; [exact Htargets|]. intros t out [H1 _]. by apply (means_list_lasting _ B3).
    + eapply Forall2_impl; [exact Htails|]. done.
  - intros B5 rel Hok5 Hg5 Hrel. apply runs_ret; [done|]. split; cbn [fst snd].
    + eapply means_iff; [|exact Hrel]. intros ρ. apply relation_holds.
    + apply Forall2_concat, Forall2_fmap. eapply Forall2_impl; [exact Htargets|]. intros t out [_ H2].
      eapply Forall2_impl; [exact H2|]. intros cc d. apply (means_grows B3); [done|grow].
Qed.

End meaning.
