(* ===== verification/FrontierFixpoint.v ===== *)
(** * Symbolic reachability

    Any frontier, selection and successor are the bits of some valuation, so the
    quantified and renamed image of a set of frontiers is the set of their successors;
    the fixpoint loop of [reachable] stops, because every further iteration adds one of
    finitely many bit vectors, with exactly the frontiers that can be reached. *)

From Stdlib Require Import ZArith NArith Lia Bool String.
From stdpp Require Import prelude strings gmap sorting.
From S2P Require Import Prelude Identity Bdd BddProofs Topology GraphDefinition ControlGraph ControlGraphProofs LevelProofs JoinPlans JointProofs FrontierRelation FrontierSystem FrontierAlloc FrontierMeaning.

Set Default Goal Selector "!".
Open Scope nat_scope.

(* ------------------------------------------------------------------ *)
(** ** Frontiers that agree on the bits of a topology *)

Section agreement.
Context (nodes entries : list str) (route_options : RouteOptions) (direct_targets : Successors).
Context (conditional_targets : Conditionals) (joins : list CompiledJoin).
Context (Hsources : ∀ j s, j ∈ joins → s ∈ sources_of j → s ∈ nodes).
Context (Hfar : ∀ j, j ∈ joins → (1 ≤ farthest j)%Z).

Notation Superstep := (superstep nodes route_options direct_targets conditional_targets joins).
Notation CausesOf := (causes_of nodes direct_targets conditional_targets joins).
Notation Reached := (reached nodes entries route_options direct_targets conditional_targets joins).

Definition agree (σ τ : Frontier) : Prop :=
  (∀ n, n ∈ nodes → on σ n = on τ n) ∧ ∀ j r s, key_of joins j r s → waiting σ (j, r, s) = waiting τ (j, r, s).

Definition alike (p q : Selection) : Prop :=
  ∀ n route, n ∈ nodes → 1 < length (options route_options n) → route ∈ options route_options n → p n route = q n route.

Lemma agree_sym σ τ : agree σ τ → agree τ σ.
Proof using. intros [H1 H2]. split; intros; symmetry; auto. Qed.
Lemma agree_refl σ : agree σ σ.
Proof using. done. Qed.
Lemma agree_trans σ τ υ : agree σ τ → agree τ υ → agree σ υ.
Proof using.
  intros [H1 H2] [G1 G2]. split; [intros n Hn; by rewrite H1, G1|]. intros j r s Hk. by rewrite H2, G2.
Qed.
Lemma alike_sym p q : alike p q → alike q p.
Proof using. intros H n route ???. symmetry. by apply H. Qed.

Lemma arrives_agree σ τ j r s : agree σ τ → key_of joins j r s → arrives σ j r s → arrives τ j r s.
Proof using Hsources.
  intros [H1 H2] Hk. unfold arrives. rewrite (H2 j r s Hk), (H1 s); [done|]. destruct Hk as (Hj & _ & Hs). by eapply Hsources.
Qed.

Lemma selects_alike p q n route :
  alike p q → n ∈ nodes → selects route_options p n route → selects route_options q n route.
Proof using. intros H Hn [Hr Hp]. split; [done|]. intros Hl. rewrite <- (H n route Hn Hl Hr). by apply Hp. Qed.

Lemma settled_agree σ τ p q :
  agree σ τ → alike p q → settled nodes route_options σ p → settled nodes route_options τ q.
Proof using.
  intros [H1 _] Hp Hs n Hn Hon Hl. rewrite <- H1 in Hon by done. destruct (Hs n Hn Hon Hl) as (route & Hr & Hpr & Hone).
  exists route. split_and!; [done|by rewrite <- (Hp n route Hn Hl Hr)|]. intros route' Hr' Hq.
  apply Hone; [done|]. by rewrite (Hp n route' Hn Hl Hr').
Qed.

Lemma cause_sources t c : c ∈ CausesOf t →
  match c with ByEdge s | ByRoute s _ => s ∈ nodes | ByJoin j => j ∈ joins end.
Proof using.
  unfold causes_of, causes. intros ([t' c'] & -> & Hin)%list_elem_of_fmap. cbn.
  apply list_elem_of_In, filter_In in Hin as [Hin%list_elem_of_In _].
  apply elem_of_app in Hin as [Hin|Hin]; apply list_elem_of_In, in_concat in Hin as (l & Hl%list_elem_of_In & Hin%list_elem_of_In).
  - apply list_elem_of_fmap in Hl as (s & -> & Hs).
    apply elem_of_app in Hin as [(x & [= _ ->] & _)%list_elem_of_fmap|([route x] & [= _ ->] & _)%list_elem_of_fmap]; done.
  - apply list_elem_of_fmap in Hl as (j & -> & Hj). case_bool_decide; [by apply elem_of_nil in Hin|].
    by apply list_elem_of_singleton in Hin as [= _ ->].
Qed.

Lemma fires_agree σ τ p q t c :
  agree σ τ → alike p q → c ∈ CausesOf t → fires route_options σ p c → fires route_options τ q c.
Proof using Hsources Hfar.
  intros Ha Hp Hc%cause_sources. destruct c as [s|s route|j]; cbn.
  - by rewrite (proj1 Ha s Hc).
  - rewrite (proj1 Ha s Hc). intros [? ?]. split; [done|]. by eapply selects_alike.
  - intros H s Hs. apply (arrives_agree σ); [done| |by apply H]. split_and!; [done|done|by apply Hfar|done].
Qed.

Lemma contested_agree σ τ p q t :
  agree σ τ → alike p q → contested nodes route_options direct_targets conditional_targets joins σ p t →
  contested nodes route_options direct_targets conditional_targets joins τ q t.
Proof using Hsources Hfar.
  intros Ha Hp (c & c' & Hcc & H1 & H2). exists c, c'. pose proof Hcc as [? ?]%pairs_of_elem.
  split_and!; [done|by eapply fires_agree|by eapply fires_agree].
Qed.

Lemma superstep_agree σ τ p q σ' τ' :
  agree σ τ → alike p q → agree σ' τ' → Superstep σ p σ' → Superstep τ q τ'.
Proof using Hsources Hfar.
  intros Ha Hp Ha' [S1 S2 S3 S4 S5 S6 S7 S8]. pose proof (agree_sym _ _ Ha) as Hb. pose proof (alike_sym _ _ Hp) as Hq.
  assert (∀ j s, j ∈ joins → s ∈ sources_of j → key_of joins j 1 s) as Hk1.
  { intros j s Hj Hs. split_and!; [done|done|by apply Hfar|done]. }
  split.
  - by eapply settled_agree.
  - intros j s Hj Hs Harr s' Hs'. apply (arrives_agree σ); [done|by apply Hk1|]. apply (S2 j s); [done..| |done].
    apply (arrives_agree τ); [done|by apply Hk1|done].
  - intros j r Hj Hr H. apply (S3 j r Hj Hr). intros s Hs. apply (arrives_agree τ); [done| |by apply H].
    split_and!; [done|lia|lia|done].
  - intros j s Hk. rewrite <- (proj2 Ha _ _ _ Hk), <- (proj1 Ha s); [by apply S4|]. destruct Hk as (? & _ & ?). by eapply Hsources.
  - intros j r s Hk Hr. assert (key_of joins j (r - 1)%Z s) as Hk' by (destruct Hk as (? & ? & ?); split_and!; [done|lia|lia|done]).
    rewrite <- (proj2 Ha' _ _ _ Hk'), (S5 j r s Hk Hr). split; apply arrives_agree; done.
  - intros j s Hj Hs. rewrite <- (proj2 Ha' j (farthest j) s); [by apply S6|]. split_and!; [done|by apply Hfar|lia|done].
  - intros t Ht Hc. apply (S7 t Ht). by eapply contested_agree.
  - intros t Ht. rewrite <- (proj1 Ha' t Ht), (S8 t Ht), !Exists_exists. split; intros (c & Hc & Hf); exists c; (split; [done|]).
    + by eapply (fires_agree σ).
    + by eapply (fires_agree τ).
Qed.

Lemma starts_agree σ τ : agree σ τ → starts nodes entries joins σ → starts nodes entries joins τ.
Proof using.
  intros [H1 H2] [S1 S2]. split; [intros n Hn; rewrite <- H1 by done; by apply S1|].
  intros j r s Hk. rewrite <- H2 by done. by apply S2.
Qed.

(** Frontiers at most [k] supersteps after START. *)
Fixpoint within (k : nat) (σ : Frontier) : Prop :=
  match k with
  | O => starts nodes entries joins σ
  | S k => within k σ ∨ ∃ σ0 p, within k σ0 ∧ Superstep σ0 p σ
  end.

Lemma within_agree k σ τ : agree σ τ → within k σ → within k τ.
Proof using Hsources Hfar.
  revert σ τ. induction k as [|k IH]; intros σ τ Ha; cbn; [by apply starts_agree|].
  intros [H|(σ0 & p & H & Hs)]; [left; by eapply IH|]. right. exists σ0, p. split; [done|].
  by eapply superstep_agree.
Qed.

Lemma within_reached k σ : within k σ → Reached σ.
Proof using.
  revert σ. induction k as [|k IH]; intros σ; cbn; [by constructor|].
  intros [H|(σ0 & p & H & Hs)]; [by apply IH|]. eapply reached_step; [by apply IH|done].
Qed.

(** Once a step adds nothing, everything reachable is within. *)
Lemma within_closed k : (∀ σ, within (S k) σ → within k σ) → ∀ σ, Reached σ → within k σ.
Proof using.
  intros Hc σ. induction 1 as [σ Hs|σ p σ' _ IH Hs].
  - assert (∀ m, within m σ) as H by (induction m as [|m IH]; cbn; [done|by left]). apply H.
  - apply Hc. cbn. right. by exists σ, p.
Qed.

Lemma reached_agree σ τ : agree σ τ → Reached σ → Reached τ.
Proof using Hsources Hfar.
  intros Ha H. assert (∃ k, within k σ) as [k Hk].
  { clear Ha. induction H as [σ Hs|σ p σ' _ [k IH] Hs]; [by exists 0|]. exists (S k). right. by exists σ, p. }
  apply (within_reached k). by eapply within_agree.
Qed.
End agreement.

(* ------------------------------------------------------------------ *)
(** * The fixpoint of reachable frontiers

    Any frontier, selection and successor are the bits of some valuation, so the
    quantified and renamed conjunction of [reachable] denotes the successors of the
    frontiers reached so far.  Each iteration that goes on adds one of the [2^n] vectors
    of [n] current bits, so the loop returns, with the frontiers that can be reached. *)

(* ------------------------------------------------------------------ *)
(** ** Bit vectors *)

Fixpoint vectors (n : nat) : list (list bool) :=
  match n with O => [[]] | S n => (cons true <$> vectors n) ++ (cons false <$> vectors n) end.

Lemma vectors_length n : length (vectors n) = 2 ^ n.
Proof. induction n as [|n IH]; cbn; [done|]. rewrite length_app, !length_fmap. lia. Qed.

Lemma vectors_elem v : v ∈ vectors (length v).
Proof.
  induction v as [|[] v IH]; cbn; [by left|..]; apply elem_of_app; [left|right]; by apply list_elem_of_fmap_2.
Qed.

Definition count {A} (f : A → bool) (xs : list A) : nat := length (List.filter f xs).

Lemma count_bound {A} (f : A → bool) xs : count f xs ≤ length xs.
Proof. unfold count. induction xs as [|x xs IH]; cbn; [done|]. destruct (f x); cbn; lia. Qed.

Lemma count_mono {A} (f g : A → bool) xs : (∀ x, f x = true → g x = true) → count f xs ≤ count g xs.
Proof.
  unfold count. intros H. induction xs as [|x xs IH]; cbn; [done|]. specialize (H x).
  destruct (f x), (g x); cbn; try lia; by discriminate H.
Qed.

Lemma count_strict {A} (f g : A → bool) xs x :
  (∀ x, f x = true → g x = true) → x ∈ xs → f x ≠ g x → count f xs < count g xs.
Proof.
  intros H. induction xs as [|y xs IH]; intros Hx Hne; [by apply elem_of_nil in Hx|].
  pose proof (count_mono f g xs H) as Hm. unfold count in *. cbn. apply elem_of_cons in Hx as [<-|Hx].
  - specialize (H x). destruct (f x), (g x); cbn; try done; try lia; by discriminate H.
  - specialize (IH Hx Hne). specialize (H y). destruct (f y), (g y); cbn; try lia; by discriminate H.
Qed.

(** A loop body that keeps [I] while it goes on. *)
Lemma repeat_pow2_spec {S R} n (body : S → bddM (S + R)) (I : nat → Bdd → S → Prop) (Q : Bdd → R → Prop) :
  (∀ k B s, ok B → I k B s → runs B (body s) (λ B' x, match x with inl s => I (Datatypes.S k) B' s | inr r => Q B' r end)) →
  ∀ k B s, ok B → I k B s →
  runs B (repeat_pow2 n body s) (λ B' x, match x with inl s => I (k + 2 ^ n) B' s | inr r => Q B' r end).
Proof.
  intros Hbody. induction n as [|n IH]; intros k B s Hok HI; cbn [repeat_pow2].
  - eapply runs_weaken; [|by apply Hbody]. intros B' [s'|r] _ _; [|done]. by rewrite Nat.pow_0_r, Nat.add_1_r.
  - eapply runs_bind; [by apply IH|cbv beta]. intros B1 [s'|r] Hok1 Hg1 H; [|by apply runs_ret].
    replace (k + 2 ^ Datatypes.S n) with (k + 2 ^ n + 2 ^ n) by (cbn; lia). by apply IH.
Qed.

(* ------------------------------------------------------------------ *)
(** ** Valuations with given bits *)

Section fixpoint.
Context (ids : gset str) (fr : FrontierRelation) (joins_by_source : JoinsBySource) (B0 : Bdd).
Context (T : topology ids (fr_route_options fr) (fr_direct_targets fr) (fr_conditional_targets fr) joins_by_source).
Context (Hbuilt : fr_joins fr = unique_joins joins_by_source ∧ ∀ n, n ∈ fr_nodes fr ↔ n ∈ ids).
Context (Hok0 : ok B0) (L : layout B0 fr).

Notation nodes := (fr_nodes fr).
Notation joins := (fr_joins fr).
Notation Agree := (agree nodes joins).
Notation Alike := (alike nodes (fr_route_options fr)).
Notation Superstep := (superstep nodes (fr_route_options fr) (fr_direct_targets fr) (fr_conditional_targets fr) joins).
Notation Within := (within nodes (fr_entries fr) (fr_route_options fr) (fr_direct_targets fr) (fr_conditional_targets fr) joins).
Notation Reached := (reached nodes (fr_entries fr) (fr_route_options fr) (fr_direct_targets fr) (fr_conditional_targets fr) joins).
Notation Now := (now fr B0).
Notation Next := (next fr B0).
Notation Pick := (pick fr B0).

Lemma sources_nodes j s : j ∈ joins → s ∈ sources_of j → s ∈ nodes.
Proof using T Hbuilt. by eapply join_source_node. Qed.
Lemma joins_far j : j ∈ joins → (1 ≤ farthest j)%Z.
Proof using T Hbuilt. intros Hj. apply farthest_spec. by eapply fr_join_ok. Qed.

Lemma nvar_elem n : n ∈ nodes → (n, nvar fr n) ∈ fr_node_state fr.
Proof using L. rewrite <- (lo_nodes B0 fr L). intros (v & Hv & Hin)%assoc_is_Some. unfold nvar. by rewrite Hv. Qed.
Lemma jvar_elem j r s : key_of joins j r s → ((j, r, s), jvar fr (j, r, s)) ∈ fr_join_state fr.
Proof using L. rewrite <- (lo_keys B0 fr L). intros (v & Hv & Hin)%assoc_is_Some. unfold jvar. by rewrite Hv. Qed.

(** The bit of each variable. *)
Definition choice_cells (p : Selection) (entry : str * list Choice) : list (nat * bool) :=
  (λ c, (ix B0 (ch_variable c), p entry.1 (ch_route c))) <$> entry.2.
Definition cells (σ : Frontier) (p : Selection) (σ' : Frontier) : list (nat * bool) :=
  (((λ '(n, v), (ix B0 (sv_current v), on σ n)) <$> fr_node_state fr)
   ++ ((λ '(k, v), (ix B0 (sv_current v), waiting σ k)) <$> fr_join_state fr))
  ++ (((λ '(n, v), (ix B0 (sv_following v), on σ' n)) <$> fr_node_state fr)
   ++ ((λ '(k, v), (ix B0 (sv_following v), waiting σ' k)) <$> fr_join_state fr))
  ++ concat (choice_cells p <$> fr_choices fr).

Lemma cells_keys σ p σ' : (cells σ p σ').*1 = ix B0 <$> all_variables fr.
Proof using.
  unfold cells, all_variables, current_variables, following_variables, choice_variables.
  rewrite !fmap_app, <- !list_fmap_compose. repeat apply (f_equal2 app).
  1-4: apply list_fmap_ext; by intros _ [? ?] _.
  induction (fr_choices fr) as [|[n cs] rest IH]; cbn; [done|].
  rewrite !fmap_app, IH. unfold choice_cells. by rewrite <- !list_fmap_compose.
Qed.

Definition valuation_of σ p σ' : valuation := λ i, default false (assoc i (cells σ p σ')).

Lemma valuation_of_bit σ p σ' i b : (i, b) ∈ cells σ p σ' → valuation_of σ p σ' i = b.
Proof using L.
  intros Hin. unfold valuation_of. apply assoc_Some_iff in Hin; [by rewrite Hin|]. rewrite cells_keys. apply L.
Qed.

Lemma valuation_of_spec σ p σ' (ρ := valuation_of σ p σ') : Agree (Now ρ) σ ∧ Alike (Pick ρ) p ∧ Agree (Next ρ) σ'.
Proof using L.
  split_and!; [split|intros n route Hn Hl Hr|split].
  - intros n Hn%nvar_elem. cbn. apply valuation_of_bit. apply elem_of_app. left. apply elem_of_app. left.
    by apply (list_elem_of_fmap_2 (λ '(n, v), (ix B0 (sv_current v), on σ n)) _ (n, nvar fr n)).
  - intros j r s Hk%jvar_elem. cbn. apply valuation_of_bit. apply elem_of_app. left. apply elem_of_app. right.
    by apply (list_elem_of_fmap_2 (λ '(k, v), (ix B0 (sv_current v), waiting σ k)) _ ((j, r, s), jvar fr (j, r, s))).
  - assert (n ∈ (fr_choices fr).*1) as ([n' cs] & -> & Hc)%list_elem_of_fmap.
    { destruct (decide (n ∈ (fr_choices fr).*1)) as [|Hno]; [done|]. pose proof (lo_no_choice B0 fr L n Hn Hno). lia. }
    cbn in *. destruct (cvar_spec fr B0 L n' cs route Hc Hr) as (c & E & Hin & <-).
    unfold pick. rewrite E. apply valuation_of_bit. apply elem_of_app. right. apply elem_of_app. right.
    apply list_elem_of_In, in_concat. eexists. rewrite <- !list_elem_of_In. split.
    + by apply (list_elem_of_fmap_2 (choice_cells p) _ (n', cs)).
    + by apply (list_elem_of_fmap_2 (λ c, (ix B0 (ch_variable c), p n' (ch_route c)))).
  - intros n Hn%nvar_elem. cbn. apply valuation_of_bit. apply elem_of_app. right. apply elem_of_app. left. apply elem_of_app. left.
    by apply (list_elem_of_fmap_2 (λ '(n, v), (ix B0 (sv_following v), on σ' n)) _ (n, nvar fr n)).
  - intros j r s Hk%jvar_elem. cbn. apply valuation_of_bit. apply elem_of_app. right. apply elem_of_app. left. apply elem_of_app. right.
    by apply (list_elem_of_fmap_2 (λ '(k, v), (ix B0 (sv_following v), waiting σ' k)) _ ((j, r, s), jvar fr (j, r, s))).
Qed.

(* ------------------------------------------------------------------ *)
(** ** One iteration *)

Definition hidden : gset nat := list_to_set (ix B0 <$> current_variables fr ++ choice_variables fr).
Definition renaming : gmap nat nat :=
  list_to_map (zip (ix B0 <$> following_variables fr) (ix B0 <$> current_variables fr)).

Lemma indices_spec B rs : ok B → grows B0 B → (∀ r, r ∈ rs → r ∈ all_variables fr) →
  runs B (mapM b_index rs) (λ B' is_, is_ = ix B0 <$> rs).
Proof using Hok0 L.
  intros Hok Hg Hrs. eapply runs_weaken; [|apply (runs_mapM B _ (λ r _ i, i = ix B0 r)); [by intros r _ ???|done|]].
  - intros B' is_ _ _ H. clear -H. induction H as [|r i rs is_ -> _ IH]; cbn; [done|]. by f_equal.
  - intros r B' Hr Hok' Hg'. exists (ix B0 r), B'. split_and!; [|done..].
    destruct (is_variable_lasting (ix B0 r) B0 B' r) as [_ Hi]; [done|by etrans|apply L; by apply Hrs|].
    unfold b_index, lift. by rewrite Hi.
Qed.

Lemma following_visible r : r ∈ following_variables fr → ix B0 r ∉ hidden.
Proof using L.
  intros Hr [r' [Heq Hr']]%elem_of_list_to_set%list_elem_of_fmap. pose proof (lo_distinct B0 fr L) as Hnd.
  unfold all_variables in Hnd. rewrite !fmap_app in Hnd. apply NoDup_app in Hnd as (_ & H1 & Hnd).
  apply NoDup_app in Hnd as (_ & H2 & _). pose proof (list_elem_of_fmap_2 (ix B0) _ _ Hr) as Hr1.
  apply elem_of_app in Hr' as [Hr'|Hr']; apply (list_elem_of_fmap_2 (ix B0)) in Hr'; rewrite <- Heq in Hr'.
  - apply (H1 _ Hr'). apply elem_of_app. by left.
  - by apply (H2 _ Hr1).
Qed.

Lemma renaming_elem c f :
  (f, c) ∈ zip (following_variables fr) (current_variables fr) → renaming !! ix B0 f = Some (ix B0 c).
Proof using L.
  intros Hin. apply elem_of_list_to_map_1.
  - rewrite fst_zip; [|rewrite !length_fmap; unfold following_variables, current_variables; by rewrite !length_app, !length_fmap].
    pose proof (lo_distinct B0 fr L) as Hnd. unfold all_variables in Hnd. rewrite fmap_app in Hnd.
    apply NoDup_app in Hnd as (_ & _ & Hnd). rewrite fmap_app in Hnd. by apply NoDup_app in Hnd as (? & _ & _).
  - apply list_elem_of_lookup in Hin as [i Hi]. rewrite lookup_zip_with_Some in Hi.
    destruct Hi as (f' & c' & [= -> ->] & Hf & Hc). apply list_elem_of_lookup. exists i.
    apply lookup_zip_with_Some. exists (ix B0 f'), (ix B0 c'). rewrite !list_lookup_fmap, Hf, Hc. done.
Qed.

Lemma renaming_zip :
  zip (following_variables fr) (current_variables fr)
  = ((λ v : StateVariables, (sv_following v, sv_current v)) ∘ snd <$> fr_node_state fr)
    ++ ((λ v : StateVariables, (sv_following v, sv_current v)) ∘ snd <$> fr_join_state fr).
Proof using.
  unfold following_variables, current_variables. rewrite zip_with_app by by rewrite !length_fmap.
  apply (f_equal2 app); clear.
  - induction (fr_node_state fr) as [|x xs IH]; cbn; [done|]. by f_equal.
  - induction (fr_join_state fr) as [|x xs IH]; cbn; [done|]. by f_equal.
Qed.

(** The valuations that a step of the image relates. *)
Definition shifts (ρ ρ' : valuation) : Prop := ∀ x, x ∉ hidden → ρ' x = ρ (default x (renaming !! x)).

Lemma shifts_next ρ ρ' : shifts ρ ρ' → Agree (Next ρ') (Now ρ).
Proof using L.
  intros H. split; cbn.
  - intros n Hn. pose proof (nvar_elem n Hn) as He. rewrite H, (renaming_elem (sv_current (nvar fr n))); [done| |].
    + rewrite renaming_zip. apply elem_of_app. left.
      by apply (list_elem_of_fmap_2 ((λ v, (sv_following v, sv_current v)) ∘ snd) _ (n, nvar fr n)).
    + apply following_visible. by apply (node_variables_spec fr B0 L).
  - intros j r s Hk. pose proof (jvar_elem j r s Hk) as He. rewrite H, (renaming_elem (sv_current (jvar fr (j, r, s)))); [done| |].
    + rewrite renaming_zip. apply elem_of_app. right.
      by apply (list_elem_of_fmap_2 ((λ v, (sv_following v, sv_current v)) ∘ snd) _ ((j, r, s), jvar fr (j, r, s))).
    + apply following_visible. by apply (join_variables_spec fr B0 L).
Qed.

(** Valuations that agree on the hidden bits have the same frontier and selection. *)
Lemma hidden_agree ρ ρ' : (∀ x, x ∈ hidden → ρ x = ρ' x) → Agree (Now ρ) (Now ρ') ∧ Alike (Pick ρ) (Pick ρ').
Proof using L.
  intros H. assert (∀ r, r ∈ current_variables fr ++ choice_variables fr → ρ (ix B0 r) = ρ' (ix B0 r)) as Hv.
  { intros r Hr. apply H, elem_of_list_to_set. by apply list_elem_of_fmap_2. }
  split; [split|]; cbn.
  - intros n Hn. apply Hv, elem_of_app. left. by apply (node_variables_spec fr B0 L).
  - intros j r s Hk. apply Hv, elem_of_app. left. by apply (join_variables_spec fr B0 L).
  - intros n route _ _ _. unfold pick. destruct (cvar fr n route) as [c|] eqn:E; [|done]. apply Hv, elem_of_app. right.
    unfold cvar in E. pose proof (find_choice (default [] (assoc n (fr_choices fr))) route) as Hf. rewrite E in Hf.
    destruct (assoc n (fr_choices fr)) as [cs|] eqn:Ea; cbn in Hf; [|by destruct Hf as [?%elem_of_nil _]].
    apply assoc_Some_iff in Ea; [|apply L]. apply list_elem_of_In, in_concat. exists (ch_variable <$> cs).
    rewrite <- !list_elem_of_In. split; [|apply list_elem_of_fmap_2, Hf].
    by apply (list_elem_of_fmap_2 (λ entry : str * list Choice, ch_variable <$> entry.2) _ (n, cs)).
Qed.

Lemma image_spec k ρ :
  (∃ ρ', shifts ρ ρ' ∧ Within k (Now ρ') ∧ Superstep (Now ρ') (Pick ρ') (Next ρ'))
  ↔ ∃ σ p, Within k σ ∧ Superstep σ p (Now ρ).
Proof using T Hbuilt L.
  pose proof sources_nodes as Hs. pose proof joins_far as Hf. split.
  - intros (ρ' & Hsh & Hw & Hss). exists (Now ρ'), (Pick ρ'). split; [done|].
    eapply superstep_agree; [done|done|apply agree_refl|done|by apply shifts_next|done].
  - intros (σ & p & Hw & Hss). destruct (valuation_of_spec σ p σ) as (Ha & Hp & _). set (ρ1 := valuation_of σ p σ) in *.
    set (ρ' := λ x, if bool_decide (x ∈ hidden) then ρ1 x else ρ (default x (renaming !! x))). exists ρ'.
    assert (shifts ρ ρ') as Hsh by (intros x Hx; unfold ρ'; by rewrite bool_decide_false).
    destruct (hidden_agree ρ' ρ1) as [Ha' Hp']; [intros x Hx; unfold ρ'; by rewrite bool_decide_true|].
    assert (Agree σ (Now ρ')) as Ha1 by (apply agree_sym; by eapply agree_trans). split_and!; [done|by eapply within_agree|].
    eapply (superstep_agree _ _ _ _ _ Hs Hf); [exact Ha1| |apply agree_sym, shifts_next; exact Hsh|exact Hss].
    intros n route H1 H2 H3. by rewrite (Hp' n route), (Hp n route).
Qed.

Lemma reachable_step_spec B k relation reached :
  ok B → grows B0 B → means B relation (λ ρ, Superstep (Now ρ) (Pick ρ) (Next ρ)) → means B reached (λ ρ, Within k (Now ρ)) →
  runs B (reachable_step relation hidden renaming reached) (λ B' x, ∃ expanded,
    x = (if expanded =? reached then inr reached else inl expanded) ∧ means B' expanded (λ ρ, Within (S k) (Now ρ))).
Proof using T Hbuilt L.
  intros Hok Hg Hrel Hre. unfold reachable_step.
  eapply runs_bind; [by apply runs_apply_and|cbv beta]. intros B1 both Hok1 Hg1 Hboth.
  eapply runs_bind; [by apply runs_exists|cbv beta]. intros B2 projected Hok2 Hg2 Hpr.
  eapply runs_bind; [by apply runs_rename|cbv beta]. intros B3 image Hok3 Hg3 Him.
  eapply runs_bind; [apply runs_apply_or; [done|keep|exact Him]|cbv beta]. intros B4 expanded Hok4 Hg4 Hex.
  apply runs_ret; [done|]. exists expanded. split; [done|]. eapply means_iff; [|exact Hex].
  intros ρ. cbn [within]. by rewrite <- image_spec.
Qed.

(* ------------------------------------------------------------------ *)
(** ** The loop *)

Definition vector_of (v : list bool) : valuation := λ i, default false (assoc i (zip (ix B0 <$> current_variables fr) v)).
Definition bits (ρ : valuation) : list bool := (λ i, ρ i) <$> (ix B0 <$> current_variables fr).

Lemma assoc_zip (is_ : list nat) (ρ : valuation) i : i ∈ is_ → assoc i (zip is_ ((λ i, ρ i) <$> is_)) = Some (ρ i).
Proof using.
  clear. induction is_ as [|j is_ IH]; cbn; [by intros ?%elem_of_nil|]. intros Hi. destruct (decide (i = j)) as [->|Hne]; [done|].
  apply elem_of_cons in Hi as [?|Hi]; [done|]. by apply IH.
Qed.

Lemma vector_of_bits ρ : Agree (Now (vector_of (bits ρ))) (Now ρ).
Proof using L.
  assert (∀ r, r ∈ current_variables fr → vector_of (bits ρ) (ix B0 r) = ρ (ix B0 r)) as H.
  { intros r Hr. unfold vector_of, bits. by rewrite assoc_zip by by apply list_elem_of_fmap_2. }
  split; cbn.
  - intros n Hn. apply H. by apply (node_variables_spec fr B0 L).
  - intros j r s Hk. apply H. by apply (join_variables_spec fr B0 L).
Qed.

Notation vectors_now := (vectors (length (current_variables fr))).

Lemma bits_elem ρ : bits ρ ∈ vectors_now.
Proof using. replace (length (current_variables fr)) with (length (bits ρ)); [apply vectors_elem|]. unfold bits. by rewrite !length_fmap. Qed.

(** Predicates on frontiers that differ differ on a vector. *)
Lemma differ_on_vectors B a b (P Q : Frontier → Prop) :
  ok B → means B a (λ ρ, P (Now ρ)) → means B b (λ ρ, Q (Now ρ)) → (∀ σ τ, Agree σ τ → P σ → P τ) →
  (∀ σ τ, Agree σ τ → Q σ → Q τ) → a ≠ b →
  ∃ v, v ∈ vectors_now ∧ eval B a (vector_of v) ≠ eval B b (vector_of v).
Proof using L.
  intros Hok Ha Hb HP HQ Hne.
  destruct (decide (Forall (λ v, eval B a (vector_of v) = eval B b (vector_of v)) vectors_now)) as [Hall|Hex].
  - destruct Hne. apply (means_unique B a b (λ ρ, P (Now ρ))); [done|done|]. eapply means_iff; [|exact Hb].
    intros ρ. rewrite Forall_forall in Hall. specialize (Hall (bits ρ) (bits_elem ρ)).
    pose proof (proj2 Ha (vector_of (bits ρ))) as Hav. pose proof (proj2 Hb (vector_of (bits ρ))) as Hbv.
    rewrite Hall in Hav. pose proof (vector_of_bits ρ) as Hv. pose proof (agree_sym _ _ _ _ Hv) as Hv'.
    split; intros H.
    + apply (HP _ _ Hv), Hav, Hbv. by apply (HQ _ _ Hv').
    + apply (HQ _ _ Hv), Hbv, Hav. by apply (HP _ _ Hv').
  - apply not_Forall_Exists in Hex; [|apply _]. by apply Exists_exists in Hex.
Qed.

(** The state of the loop after [k] iterations. *)
Record iterated (relation k : nat) (B : Bdd) (reached : nat) : Prop := {
  it_grows : grows B0 B;
  it_relation : means B relation (λ ρ, Superstep (Now ρ) (Pick ρ) (Next ρ));
  it_reached : means B reached (λ ρ, Within k (Now ρ));
  it_count : k ≤ count (λ v, eval B reached (vector_of v)) vectors_now
}.

Lemma iterate relation k B r :
  ok B → iterated relation k B r →
  runs B (reachable_step relation hidden renaming r) (λ B' x,
    match x with inl r => iterated relation (S k) B' r | inr r => means B' r (λ ρ, Reached (Now ρ)) end).
Proof using T Hbuilt L.
  intros Hok [Hg Hrel Hre Hcount]. pose proof sources_nodes as Hs. pose proof joins_far as Hf.
  eapply runs_weaken; [|by eapply reachable_step_spec]. intros B' x Hok' Hg' (expanded & -> & Hex). cbv beta in Hex.
  assert (means B' r (λ ρ, Within k (Now ρ))) as Hre' by keep. destruct (Nat.eqb_spec expanded r) as [->|Hne].
  - eapply means_iff; [|exact Hre']. intros ρ. split; [apply within_reached|]. apply within_closed. intros σ Hw.
    destruct (valuation_of_spec σ (λ _ _, false) σ) as (Ha & _). eapply (within_agree _ _ _ _ _ _ Hs Hf); [exact Ha|].
    apply (proj2 Hre'). apply (proj2 Hex). by eapply (within_agree _ _ _ _ _ _ Hs Hf); [apply agree_sym|].
  - split; [by etrans|keep|done|].
    destruct (differ_on_vectors B' expanded r (Within (S k)) (Within k)) as (v & Hv & Hdiff); [done..| | |done|].
    { intros σ τ. by apply within_agree. } { intros σ τ. by apply within_agree. }
    assert (count (λ v, eval B r (vector_of v)) vectors_now = count (λ v, eval B' r (vector_of v)) vectors_now) as Heq.
    { unfold count. f_equal. apply filter_ext. intros w. symmetry. apply (eval_grows B (ok_shape B Hok) B'); [done|apply Hre]. }
    rewrite Heq in Hcount. enough (count (λ v, eval B' r (vector_of v)) vectors_now
      < count (λ v, eval B' expanded (vector_of v)) vectors_now) by lia.
    apply (count_strict _ _ _ v); [|done|congruence]. intros w Hw. apply (proj2 Hex). left. by apply (proj2 Hre').
Qed.

Lemma reachable_spec B relation initial :
  ok B → grows B0 B → means B relation (λ ρ, Superstep (Now ρ) (Pick ρ) (Next ρ)) →
  means B initial (λ ρ, starts nodes (fr_entries fr) joins (Now ρ)) →
  runs B (reachable fr relation initial) (λ B' r, means B' r (λ ρ, Reached (Now ρ))).
Proof using T Hbuilt Hok0 L.
  intros Hok Hg Hrel Hin. unfold reachable.
  eapply runs_bind; [apply indices_spec; [done|done|]|cbv beta].
  { intros r [Hr|Hr]%elem_of_app; apply elem_of_app; [by left|right]. apply elem_of_app. by right. }
  intros B1 ? Hok1 Hg1 ->.
  eapply runs_bind; [apply indices_spec; [done|grow|apply following_all]|cbv beta]. intros B2 ? Hok2 Hg2 ->.
  eapply runs_bind; [apply indices_spec; [done|grow|apply current_all]|cbv beta]. intros B3 ? Hok3 Hg3 ->.
  eapply runs_bind.
  - apply (repeat_pow2_spec _ _ (iterated relation) (λ B' r, means B' r (λ ρ, Reached (Now ρ)))) with (k := 0); [|done|].
    + intros k B' r. apply iterate.
    + split; [grow|keep|keep|lia].
  - cbv beta. intros B4 [r|r] Hok4 Hg4 H; [|by apply runs_ret]. destruct H as [_ _ _ Hc]. exfalso.
    pose proof (count_bound (λ v, eval B4 r (vector_of v)) vectors_now) as Hb. rewrite vectors_length in Hb.
    rewrite Nat.add_0_l, Nat.pow_succ_r' in Hc. pose proof (Nat.pow_nonzero 2 (length (current_variables fr)) ltac:(lia)). lia.
Qed.
End fixpoint.
