(* ===== verification/FrontierProofs.v ===== *)
(** * The completion proof is exact

    [prove_completion_routes] returns, and its answer is that of the explicit transition
    system: it rejects exactly the topologies where two causes may activate one node
    together, where one completing frontier may expose two routes, or that never
    complete, and otherwise returns the routes some completing run exposes. *)

From Stdlib Require Import ZArith NArith Lia Bool String.
From stdpp Require Import prelude strings gmap sorting.
From S2P Require Import Prelude Identity Topology GraphDefinition ControlGraph ControlGraphProofs LevelProofs JoinPlans JointProofs Bdd BddProofs FrontierRelation FrontierSystem FrontierAlloc FrontierMeaning FrontierFixpoint ControlTheorems.

Set Default Goal Selector "!".
Open Scope nat_scope.

(* ------------------------------------------------------------------ *)
(** ** Computations that may reject the graph *)

(** [m] returns with [P], or raises a validation error and [E] holds. *)
Definition ends {A} (B : Bdd) (m : bddM A) (P : Bdd → A → Prop) (E : Prop) : Prop :=
  runs B m P ∨ (∃ message, m B = Raise (Exn GraphValidationError message)) ∧ E.

Lemma ends_bind {A C} B (m : bddM A) (k : A → bddM C) P Q E :
  ends B m P E → (∀ B1 a, ok B1 → grows B B1 → P B1 a → ends B1 (k a) Q E) → ends B (m ≫= k) Q E.
Proof.
  intros [(a & B1 & Hm & Hok & Hg & HP)|[[message Hm] HE]] Hk; unfold ends, mbind, bddM_bind, runs; rewrite Hm; cbn.
  - destruct (Hk B1 a Hok Hg HP) as [(c & B2 & Hc & Hok2 & Hg2 & HQ)|[[message Hc] HE]].
    + left. exists c, B2. split_and!; [done|done|by etrans|done].
    + right. eauto.
  - right. eauto.
Qed.

Lemma ends_assoc {A C D} B (m : bddM A) (f : A → bddM C) (g : C → bddM D) Q E :
  ends B ((m ≫= f) ≫= g) Q E → ends B (m ≫= λ x, f x ≫= g) Q E.
Proof. unfold ends, runs, mbind, bddM_bind. by destruct (m B) as [[a B1]|]. Qed.

Lemma ends_runs {A} B (m : bddM A) P E : runs B m P → ends B m P E.
Proof. by left. Qed.

Lemma ends_weaken {A} B (m : bddM A) (P Q : Bdd → A → Prop) (E F : Prop) :
  (∀ B' a, P B' a → Q B' a) → (E → F) → ends B m P E → ends B m Q F.
Proof. intros HPQ HEF [H|[H HE]]; [left|right; auto]. eapply runs_weaken; [|exact H]. auto. Qed.

(** Asking whether a predicate can hold, and rejecting the graph if it can. *)
Lemma ends_check B question P message :
  ok B → means B question P →
  ends B (possible ← b_satisfiable question;
          if (possible : bool) then raise GraphValidationError message else mret tt) (λ _ _, ¬ ∃ ρ, P ρ) (∃ ρ, P ρ).
Proof.
  intros Hok Hm. pose proof (satisfiable_means B question P Hok Hm) as H. unfold ends, runs, b_satisfiable, mbind, bddM_bind. cbn.
  destruct (satisfiable B question).
  - right. split; [by exists message|]. by apply H.
  - left. exists tt, B. split_and!; [done..|]. intros ?%H. done.
Qed.

Lemma ends_checks {X D} B (f : D → bddM unit) (R : X → Bdd → D → Prop) (Bad : X → Prop) (xs : list X) (ds : list D) :
  (∀ x, lasting (R x)) → ok B → Forall2 (λ x d, R x B d) xs ds →
  (∀ x d B', x ∈ xs → ok B' → grows B B' → R x B' d → ends B' (f d) (λ _ _, ¬ Bad x) (Bad x)) →
  ends B (mapM f ds) (λ _ _, ∀ x, x ∈ xs → ¬ Bad x) (∃ x, x ∈ xs ∧ Bad x).
Proof.
  intros Hlast. revert ds B. induction xs as [|x xs IH]; intros ds B Hok Hf Hrun.
  - inversion Hf; subst. apply ends_runs, runs_ret; [done|]. by intros x ?%elem_of_nil.
  - inversion Hf as [|? d ? ds' Hx Hxs]; subst. cbn. eapply ends_bind.
    + eapply ends_weaken; [..|apply (Hrun x); [by left|done|done|exact Hx]]; [intros B' a H; exact H|].
      intros H. exists x. split; [by left|done].
    + intros B1 u Hok1 Hg1 Hno. eapply ends_bind.
      * eapply ends_weaken; [..|apply (IH ds' B1)].
        -- intros B' a H. exact H.
        -- intros (y & Hy & Hbad). exists y. split; [by right|done].
        -- done.
        -- eapply Forall2_impl; [exact Hxs|]. intros y e. by apply Hlast.
        -- intros y e B' Hy Hok' Hg'. apply Hrun; [by right|done|by etrans].
      * intros B2 us Hok2 Hg2 Hall. apply ends_runs, runs_ret; [done|]. intros y [->|Hy]%elem_of_cons; [done|by apply Hall].
Qed.

(* ------------------------------------------------------------------ *)
(** ** Pairs of a list without duplicates *)

Lemma pairs_of_distinct {A} (xs : list A) x y : NoDup xs → (x, y) ∈ pairs_of xs → x ≠ y.
Proof.
  induction xs as [|z xs IH]; cbn; intros Hnd; [by intros ?%elem_of_nil|]. apply NoDup_cons in Hnd as [Hz Hnd].
  intros [(y' & [= -> ->] & Hy)%list_elem_of_fmap|Hxy]%elem_of_app; [congruence|by apply IH].
Qed.

Lemma pairs_of_total {A} (xs : list A) x y :
  x ∈ xs → y ∈ xs → x ≠ y → (x, y) ∈ pairs_of xs ∨ (y, x) ∈ pairs_of xs.
Proof.
  induction xs as [|z xs IH]; cbn; [by intros ?%elem_of_nil|]. rewrite !elem_of_app.
  intros [->|Hx]%elem_of_cons [->|Hy]%elem_of_cons Hne.
  - done.
  - left. left. by apply (list_elem_of_fmap_2 (λ y, (z, y))).
  - right. left. by apply (list_elem_of_fmap_2 (λ y, (z, y))).
  - destruct (IH Hx Hy Hne); auto.
Qed.

(* ------------------------------------------------------------------ *)
(** ** The remaining predicates *)

Section completion.
Context (ids : gset str) (fr : FrontierRelation) (joins_by_source : JoinsBySource) (B0 : Bdd).
Context (T : topology ids (fr_route_options fr) (fr_direct_targets fr) (fr_conditional_targets fr) joins_by_source).
Context (Hbuilt : fr_joins fr = unique_joins joins_by_source ∧ ∀ n, n ∈ fr_nodes fr ↔ n ∈ ids).
Context (Hok0 : ok B0) (L : layout B0 fr).

Notation nodes := (fr_nodes fr).
Notation joins := (fr_joins fr).
Notation ro := (fr_route_options fr).
Notation dt := (fr_direct_targets fr).
Notation ct := (fr_conditional_targets fr).
Notation Agree := (agree nodes joins).
Notation Alike := (alike nodes ro).
Notation Superstep := (superstep nodes ro dt ct joins).
Notation Reached := (reached nodes (fr_entries fr) ro dt ct joins).
Notation Completes := (completes nodes (fr_entries fr) ro dt ct joins).
Notation Exposes := (exposes nodes ro).
Notation CausesOf := (causes_of nodes dt ct joins).
Notation Now := (now fr B0).
Notation Next := (next fr B0).
Notation Pick := (pick fr B0).

Lemma runs_unset B r : ok B → grows B0 B → r ∈ all_variables fr → runs B (b_not r) (λ B' x, means B' x (λ ρ, ρ (ix B0 r) = false)).
Proof using Hok0 L.
  intros Hok Hg Hr. eapply runs_weaken; [|by apply runs_not; [|apply (variable_means fr B0 Hok0 L)]].
  intros B' x _ _ Hm. cbv beta in Hm. eapply means_iff; [|exact Hm]. intros ρ. apply not_true_iff_false.
Qed.

Lemma runs_negated {A} B (xs : list A) (var : A → nat) :
  ok B → grows B0 B → (∀ x, x ∈ xs → var x ∈ all_variables fr) →
  runs B (mapM b_not (var <$> xs)) (λ B' rs, Forall2 (λ P r, means B' r P) ((λ x ρ, ρ (ix B0 (var x)) = false) <$> xs) rs).
Proof using Hok0 L.
  intros Hok Hg Hvar. eapply runs_weaken; [|apply (runs_mapM_along B b_not (λ x B r, r = var x ∧ x ∈ xs)
    (λ x B r, means B r (λ ρ, ρ (ix B0 (var x)) = false)) xs)].
  - intros B' rs _ _ H. by apply Forall2_fmap_l.
  - by intros x C C' r _ _ H.
  - intros x. apply means_lasting.
  - done.
  - apply Forall2_fmap_r, Forall2_same. done.
  - intros x r B' _ Hok' Hg' [-> Hx]. apply runs_unset; [done|grow|by apply Hvar].
Qed.

(** The frontier bits are those of the nodes and of the pending arrivals. *)
Lemma node_bits (g : StateVariables → nat) (ρ : valuation) (b : bool) :
  Forall (λ entry, ρ (ix B0 (g entry.2)) = b) (fr_node_state fr) ↔ ∀ n, n ∈ nodes → ρ (ix B0 (g (nvar fr n))) = b.
Proof using L.
  rewrite Forall_forall. split; intros H.
  - intros n Hn. apply (H (n, nvar fr n)). by apply (nvar_elem fr B0 L).
  - intros [n v] Hin. cbn. pose proof (proj2 (assoc_Some_iff (fr_node_state fr) n v ltac:(rewrite (lo_nodes B0 fr L); apply L)) Hin) as Ha.
    specialize (H n). unfold nvar in H. rewrite Ha in H. apply H.
    rewrite <- (lo_nodes B0 fr L). by apply (list_elem_of_fmap_2 fst _ (n, v)).
Qed.

Lemma join_bits (g : StateVariables → nat) (ρ : valuation) (b : bool) :
  Forall (λ entry, ρ (ix B0 (g entry.2)) = b) (fr_join_state fr)
  ↔ ∀ j r s, key_of joins j r s → ρ (ix B0 (g (jvar fr (j, r, s)))) = b.
Proof using L.
  rewrite Forall_forall. split; intros H.
  - intros j r s Hk. apply (H ((j, r, s), jvar fr (j, r, s))). by apply (jvar_elem fr B0 L).
  - intros [[[j r] s] v] Hin. cbn. pose proof (proj2 (assoc_Some_iff (fr_join_state fr) _ v (lo_keys_nodup B0 fr L)) Hin) as Ha.
    specialize (H j r s). unfold jvar in H. rewrite Ha in H. apply H.
    apply (lo_keys B0 fr L). by apply (list_elem_of_fmap_2 fst _ ((j, r, s), v)).
Qed.

Lemma following_empty_spec B :
  ok B → grows B0 B →
  runs B (negated ← mapM b_not (following_variables fr); b_and negated)
    (λ B' r, means B' r (λ ρ, empty nodes joins (Next ρ))).
Proof using Hok0 L.
  intros Hok Hg. replace (following_variables fr) with ((λ r, r) <$> following_variables fr) by apply list_fmap_id.
  eapply runs_bind; [apply (runs_negated B (following_variables fr) (λ r, r)); [done..|apply following_all]|cbv beta].
  intros B1 negated Hok1 Hg1 Hneg.
  eapply runs_weaken; [|apply runs_and; [done|apply Forall2_flip; exact Hneg]]. intros B' r _ _ Hm. cbv beta in Hm. eapply means_iff; [|exact Hm].
  intros ρ. unfold following_variables. rewrite Forall_fmap, Forall_app, !Forall_fmap. unfold empty.
  by rewrite <- (node_bits sv_following ρ false), <- (join_bits sv_following ρ false).
Qed.

Lemma initial_state_spec B :
  ok B → grows B0 B →
  runs B (initial_state fr) (λ B' r, means B' r (λ ρ, starts nodes (fr_entries fr) joins (Now ρ))).
Proof using Hok0 L.
  intros Hok Hg. unfold initial_state.
  eapply runs_bind; [apply (runs_mapM B _ (λ n B r, means B r (λ ρ, on (Now ρ) n = true ↔ n ∈ fr_entries fr)) nodes)|cbv beta].
  - intros n _. apply means_lasting.
  - done.
  - intros n B' Hn Hok' Hg'. eapply runs_lift_bind; [by apply (node_variables_spec fr B0 L)|].
    assert (means B' (sv_current (nvar fr n)) (λ ρ, on (Now ρ) n = true)) as Hon by (apply (on_means fr B0 Hok0 L); [grow|done]).
    unfold state_literal, mem. case_bool_decide as He.
    + apply runs_ret; [done|]. eapply means_iff; [|exact Hon]. clear -He. tauto.
    + eapply runs_weaken; [|by apply runs_not]. intros B1 r _ _ Hm. cbv beta in Hm. eapply means_iff; [|exact Hm]. clear -He. tauto.
  - intros B1 literals Hok1 Hg1 Hlit.
    eapply runs_bind; [apply (runs_mapM B1 _ (λ entry B r, means B r (λ ρ, ρ (ix B0 (sv_current entry.2)) = false)) (fr_join_state fr))|cbv beta].
    + intros n _. apply means_lasting.
    + done.
    + intros [k v] B' Hin Hok' Hg'. apply runs_unset; [done|grow|].
      apply current_all, elem_of_app. right. by apply (list_elem_of_fmap_2 (sv_current ∘ snd) _ (k, v)).
    + intros B2 negated Hok2 Hg2 Hneg. eapply runs_weaken; [|apply (runs_and B2 _
        (((λ n ρ, on (Now ρ) n = true ↔ n ∈ fr_entries fr) <$> nodes)
         ++ ((λ entry : JoinKey * StateVariables, λ ρ, ρ (ix B0 (sv_current entry.2)) = false) <$> fr_join_state fr)));
        [done|apply Forall2_app; apply Forall2_fmap_r, Forall2_flip]].
      * intros B' r _ _ Hm. cbv beta in Hm. eapply means_iff; [|exact Hm]. intros ρ.
        rewrite Forall_app, !Forall_fmap, Forall_forall. unfold starts.
        by rewrite <- (join_bits sv_current ρ false).
      * eapply Forall2_impl; [exact Hlit|]. intros n r Hm. by apply (means_grows B1).
      * exact Hneg.
Qed.

Lemma active_spec B :
  ok B → grows B0 B →
  runs B (b_or (sv_current ∘ snd <$> fr_node_state fr)) (λ B' r, means B' r (λ ρ, ∃ n, n ∈ nodes ∧ on (Now ρ) n = true)).
Proof using Hok0 L.
  intros Hok Hg. eapply runs_weaken; [|apply (runs_or B _
    ((λ entry : str * StateVariables, λ ρ, ρ (ix B0 (sv_current entry.2)) = true) <$> fr_node_state fr)); [done|]].
  - intros B' r _ _ Hm. cbv beta in Hm. eapply means_iff; [|exact Hm]. intros ρ. rewrite Exists_fmap, Exists_exists. cbn.
    pose proof (node_bits sv_current ρ) as Hb. split.
    + intros ([n v] & Hin & Hr). assert (n ∈ nodes) as Hn.
      { rewrite <- (lo_nodes B0 fr L). by apply (list_elem_of_fmap_2 fst _ (n, v)). }
      exists n. split; [done|]. unfold nvar.
      by rewrite (proj2 (assoc_Some_iff (fr_node_state fr) n v ltac:(rewrite (lo_nodes B0 fr L); apply L)) Hin).
    + intros (n & Hn & Hon). exists (n, nvar fr n). split; [by apply (nvar_elem fr B0 L)|done].
  - apply Forall2_fmap, Forall2_same. intros [n v] Hin. apply (variable_means fr B0 Hok0 L); [done|].
    apply current_all, elem_of_app. left. by apply (list_elem_of_fmap_2 (sv_current ∘ snd) _ (n, v)).
Qed.

(** The references [rs] have the disjunction [P]. *)
Definition one_means (P : valuation → Prop) (B : Bdd) (rs : list nat) : Prop :=
  ∃ Ps, Forall2 (means B) rs Ps ∧ ∀ ρ, Exists (λ P, P ρ) Ps ↔ P ρ.

Lemma one_means_lasting P : lasting (one_means P).
Proof using.
  intros B B' rs Hok Hg (Ps & Hf & H). exists Ps. split; [|done]. eapply Forall2_impl; [exact Hf|]. intros r Q. by apply means_grows.
Qed.

Lemma terminal_route_presence_spec B route :
  ok B → grows B0 B →
  runs B (terminal_route_presence fr route) (λ B' r, means B' r (λ ρ, Exposes (Now ρ) (Pick ρ) route)).
Proof using T Hbuilt Hok0 L.
  intros Hok Hg. unfold terminal_route_presence.
  eapply runs_bind; [apply (runs_mapM B _ (λ n, one_means (λ ρ, on (Now ρ) n = true ∧ selects ro (Pick ρ) n route)) nodes)|cbv beta].
  - intros n _. apply one_means_lasting.
  - done.
  - intros n B' Hn Hok' Hg'. eapply runs_lift_bind; [by apply (node_variables_spec fr B0 L)|].
    assert (n ∈ ids) as Hid by by apply Hbuilt.
    assert (n ∈ dom ct) as [cts Hc]%elem_of_dom by by rewrite (top_conditional _ _ _ _ _ T).
    assert (n ∈ dom ro) as [rs Hr]%elem_of_dom by by rewrite (top_options _ _ _ _ _ T).
    unfold dict_get. rewrite Hc, Hr. eapply runs_lift_bind; [done|]. eapply runs_lift_bind; [done|].
    destruct (negb (is_nil cts) || mem route rs) eqn:E.
    + destruct (choice_literal_spec ids fr joins_by_source B0 T Hbuilt Hok0 L B' n route) as (literal & Hl & Hm); [done|grow|done|].
      eapply runs_lift_bind; [exact Hl|]. eapply runs_bind; [apply runs_apply_and; [done|apply (on_means fr B0 Hok0 L B' n); [grow|done]|done]|].
      intros B1 both Hok1 Hg1 Hboth. apply runs_ret; [done|]. cbv beta in Hboth. eexists [_]. split; [constructor; [exact Hboth|constructor]|]. intros ρ. rewrite Exists_cons, Exists_nil. tauto.
    + apply runs_ret; [done|]. exists []. split; [constructor|]. intros ρ. rewrite Exists_nil. split; [done|]. intros [_ [Hin _]].
      apply orb_false_iff in E as [_ E]. unfold mem in E. apply bool_decide_eq_false in E. apply E. unfold options in Hin. by rewrite Hr in Hin.
  - intros B1 presence Hok1 Hg1 Hp.
    assert (one_means (λ ρ, Exposes (Now ρ) (Pick ρ) route) B1 (concat presence)) as (Ps & Hf & HP).
    { assert (∀ ns, Forall2 (λ n rs, one_means (λ ρ, on (Now ρ) n = true ∧ selects ro (Pick ρ) n route) B1 rs) ns presence →
        one_means (λ ρ, ∃ n, n ∈ ns ∧ on (Now ρ) n = true ∧ selects ro (Pick ρ) n route) B1 (concat presence)) as Hgen.
      { clear. intros ns H. induction H as [|n rs ns presence (Ps & Hf & HP) _ (Qs & Hg & HQ)]; cbn.
        - exists []. split; [constructor|]. intros ρ. rewrite Exists_nil. set_solver.
        - exists (Ps ++ Qs). split; [by apply Forall2_app|]. intros ρ. rewrite Exists_app, HP, HQ. set_solver. }
      by apply Hgen. }
    eapply runs_weaken; [|by apply runs_or]. intros B' r _ _ Hm. cbv beta in Hm. by eapply means_iff; [|exact Hm].
Qed.

(* ------------------------------------------------------------------ *)
(** ** Valuations and runs *)

Definition terminal (ρ : valuation) : Prop :=
  Reached (Now ρ) ∧ (∃ n, n ∈ nodes ∧ on (Now ρ) n = true) ∧ Superstep (Now ρ) (Pick ρ) (Next ρ) ∧ empty nodes joins (Next ρ).

Lemma exposes_agree σ τ p q route : Agree σ τ → Alike p q → Exposes σ p route → Exposes τ q route.
Proof using.
  intros [H1 _] Hp (n & Hn & Hon & Hs). exists n. split_and!; [done|by rewrite <- H1|]. by eapply selects_alike.
Qed.

Lemma empty_agree σ τ : Agree σ τ → empty nodes joins σ → empty nodes joins τ.
Proof using. intros [H1 H2] [E1 E2]. split; intros; rewrite <- ?H1, <- ?H2 by done; auto. Qed.

Lemma terminal_runs (F : Frontier → Selection → Prop) :
  (∀ σ τ p q, Agree σ τ → Alike p q → F σ p → F τ q) →
  (∃ ρ, terminal ρ ∧ F (Now ρ) (Pick ρ)) ↔ ∃ σ p, Completes σ p ∧ F σ p.
Proof using T Hbuilt L.
  intros HF. pose proof (sources_nodes ids fr joins_by_source T Hbuilt) as Hs. pose proof (joins_far ids fr joins_by_source T Hbuilt) as Hf.
  split.
  - intros (ρ & (Hr & Ha & Hss & He) & H). exists (Now ρ), (Pick ρ). split; [|done]. split_and!; [done..|]. by exists (Next ρ).
  - intros (σ & p & (Hr & (n & Hn & Hon) & σ' & Hss & He) & H).
    destruct (valuation_of_spec fr B0 L σ p σ') as (Ha & Hp & Ha').
    pose proof (agree_sym _ _ _ _ Ha) as Hb. pose proof (alike_sym _ _ _ _ Hp) as Hq. pose proof (agree_sym _ _ _ _ Ha') as Hb'.
    exists (valuation_of fr B0 σ p σ'). split; [split_and!|by eapply HF].
    + by eapply reached_agree.
    + exists n. split; [done|]. by rewrite (proj1 Ha).
    + eapply (superstep_agree _ _ _ _ _ Hs Hf); [exact Hb|exact Hq|exact Hb'|done].
    + by eapply empty_agree.
Qed.

Lemma collision_runs :
  (∃ cc, cc ∈ concat ((λ t, pairs_of (CausesOf t)) <$> nodes) ∧
    ∃ ρ, Reached (Now ρ) ∧ settled nodes ro (Now ρ) (Pick ρ) ∧ fires ro (Now ρ) (Pick ρ) cc.1 ∧ fires ro (Now ρ) (Pick ρ) cc.2)
  ↔ collision nodes (fr_entries fr) ro dt ct joins.
Proof using T Hbuilt L.
  pose proof (sources_nodes ids fr joins_by_source T Hbuilt) as Hs. pose proof (joins_far ids fr joins_by_source T Hbuilt) as Hf.
  split.
  - intros ([c c'] & Hcc & ρ & Hr & Hset & H1 & H2).
    apply list_elem_of_In, in_concat in Hcc as (ps & Hps%list_elem_of_In & Hcc%list_elem_of_In).
    apply list_elem_of_fmap in Hps as (t & -> & Ht). exists (Now ρ), (Pick ρ), t. split_and!; [done..|]. by exists c, c'.
  - intros (σ & p & t & Hr & Hset & Ht & Hc). destruct (valuation_of_spec fr B0 L σ p σ) as (Ha & Hp & _).
    pose proof (agree_sym _ _ _ _ Ha) as Hb. pose proof (alike_sym _ _ _ _ Hp) as Hq. set (ρ := valuation_of fr B0 σ p σ) in *.
    eapply (contested_agree nodes ro dt ct joins Hs Hf _ (Now ρ) _ (Pick ρ)) in Hc as (c & c' & Hcc & H1 & H2); [|done|done].
    exists (c, c'). split.
    + apply list_elem_of_In, in_concat. exists (pairs_of (CausesOf t)). rewrite <- !list_elem_of_In. split; [|done].
      by apply (list_elem_of_fmap_2 (λ t, pairs_of (CausesOf t))).
    + exists ρ. split_and!; [by eapply reached_agree|by eapply settled_agree|done|done].
Qed.

Notation all_routes := (sorted_set_key route_key (concat (items ro).*2)).

Lemma all_routes_elem route n : n ∈ nodes → route ∈ options ro n → route ∈ all_routes.
Proof using T Hbuilt.
  intros Hn Hr. unfold sorted_set_key, sorted_key. rewrite sort_by_perm. apply elem_of_remove_dups, list_elem_of_In, in_concat.
  unfold options in Hr. destruct (ro !! n) as [rs|] eqn:E; cbn in Hr; [|by apply elem_of_nil in Hr].
  exists rs. rewrite <- !list_elem_of_In. split; [|done]. apply (list_elem_of_fmap_2 snd _ (n, rs)). by apply items_elem.
Qed.

Lemma all_routes_NoDup : NoDup all_routes.
Proof using. unfold sorted_set_key, sorted_key. rewrite sort_by_perm. apply NoDup_remove_dups. Qed.

Lemma conflict_pairs :
  (∃ rr, rr ∈ pairs_of all_routes ∧ ∃ ρ, terminal ρ ∧ Exposes (Now ρ) (Pick ρ) rr.1 ∧ Exposes (Now ρ) (Pick ρ) rr.2)
  ↔ conflict nodes (fr_entries fr) ro dt ct joins.
Proof using T Hbuilt L.
  assert (∀ a b, (∃ ρ, terminal ρ ∧ Exposes (Now ρ) (Pick ρ) a ∧ Exposes (Now ρ) (Pick ρ) b)
    ↔ ∃ σ p, Completes σ p ∧ Exposes σ p a ∧ Exposes σ p b) as Hruns.
  { intros a b. apply (terminal_runs (λ σ p, Exposes σ p a ∧ Exposes σ p b)).
    intros σ τ p q Ha Hp [H1 H2]. split; by eapply exposes_agree. }
  split.
  - intros ([a b] & Hab & (σ & p & Hc & H1 & H2)%Hruns). exists σ, p, a, b. split_and!; [done..|].
    apply (pairs_of_distinct _ _ _ all_routes_NoDup Hab).
  - intros (σ & p & a & b & Hc & H1 & H2 & Hne).
    assert (∀ r, Exposes σ p r → r ∈ all_routes) as Hin by (intros r (n & Hn & _ & [Hr _]); by eapply all_routes_elem).
    destruct (pairs_of_total all_routes a b) as [Hab|Hab]; [by apply Hin..|done| |].
    + exists (a, b). split; [done|]. apply Hruns. by exists σ, p.
    + exists (b, a). split; [done|]. apply Hruns. by exists σ, p.
Qed.

(* ------------------------------------------------------------------ *)
(** ** Completion routes *)

Notation Answer := (λ routes, ¬ collision nodes (fr_entries fr) ro dt ct joins ∧ ¬ conflict nodes (fr_entries fr) ro dt ct joins
  ∧ routes ≠ [] ∧ ∀ route, route ∈ routes ↔ completion nodes (fr_entries fr) ro dt ct joins route).
Notation Rejection := (collision nodes (fr_entries fr) ro dt ct joins ∨ conflict nodes (fr_entries fr) ro dt ct joins
  ∨ ¬ ∃ route, completion nodes (fr_entries fr) ro dt ct joins route).

Lemma presences_spec B routes :
  ok B → grows B0 B →
  runs B (mapM (λ route, presence ← terminal_route_presence fr route; mret (route, presence)) routes)
    (λ B' rps, Forall2 (λ route rp, rp.1 = route ∧ means B' rp.2 (λ ρ, Exposes (Now ρ) (Pick ρ) route)) routes rps).
Proof using T Hbuilt Hok0 L.
  intros Hok Hg. apply (runs_mapM B _ (λ route B rp, rp.1 = route ∧ means B rp.2 (λ ρ, Exposes (Now ρ) (Pick ρ) route))).
  - intros route _ C C' rp HC HCC [H1 H2]. split; [done|]. by eapply means_grows.
  - done.
  - intros route B' _ Hok' Hg'. eapply runs_bind; [apply terminal_route_presence_spec; [done|grow]|cbv beta].
    intros B1 presence Hok1 Hg1 Hp. by apply runs_ret.
Qed.

(** The routes that a predicate on valuations lets through. *)
Lemma exposed_spec B terminal_transition routes rps :
  ok B → means B terminal_transition terminal →
  Forall2 (λ route rp, rp.1 = route ∧ means B rp.2 (λ ρ, Exposes (Now ρ) (Pick ρ) route)) routes rps →
  runs B (mapM (λ '(route, presence),
    question ← b_apply AND terminal_transition presence;
    possible ← b_satisfiable question;
    mret (if (possible : bool) then [route] else [])) rps)
    (λ B' exposed, ∀ route, route ∈ concat exposed ↔ route ∈ routes ∧ ∃ ρ, terminal ρ ∧ Exposes (Now ρ) (Pick ρ) route).
Proof using T Hbuilt Hok0 L.
  intros Hok Hterm Hrps. eapply runs_weaken; [|apply (runs_mapM_along B _
    (λ route B rp, means B terminal_transition terminal ∧ rp.1 = route ∧ means B rp.2 (λ ρ, Exposes (Now ρ) (Pick ρ) route))
    (λ route B out, ∀ r, r ∈ out ↔ r = route ∧ ∃ ρ, terminal ρ ∧ Exposes (Now ρ) (Pick ρ) route) routes rps)].
  - intros B' exposed _ _ H route. cbv beta in H. clear -H. induction H as [|r out routes exposed Hr _ IH]; cbn.
    + rewrite !elem_of_nil. naive_solver.
    + rewrite elem_of_app, IH, Hr, elem_of_cons. naive_solver.
  - intros route C C' rp HC HCC (H1 & H2 & H3). split_and!; [by eapply means_grows|done|by eapply means_grows].
  - by intros route C C' rp _ _ H.
  - done.
  - eapply Forall2_impl; [exact Hrps|]. intros route rp [H1 H2]. done.
  - intros route [r presence] B' Hin Hok' Hg' (H1 & H2 & H3). cbn in H2, H3. subst r.
    eapply runs_bind; [by apply runs_apply_and|cbv beta]. intros B1 question Hok1 Hg1 Hq.
    pose proof (satisfiable_means B1 question _ Hok1 Hq) as Hsat. unfold runs, b_satisfiable, mbind, bddM_bind. cbn.
    eexists _, B1. split_and!; [done..|]. intros r. destruct (satisfiable B1 question).
    + rewrite list_elem_of_singleton. split; [|by intros [-> _]]. intros ->. split; [done|]. by apply Hsat.
    + rewrite elem_of_nil. split; [done|]. intros [_ H]. apply Hsat in H. done.
Qed.

Lemma completion_routes_spec B choice relation duplicates initial following_empty :
  ok B → grows B0 B →
  means B choice (λ ρ, settled nodes ro (Now ρ) (Pick ρ)) →
  means B relation (λ ρ, Superstep (Now ρ) (Pick ρ) (Next ρ)) →
  Forall2 (λ cc d, duplicate_means fr B0 cc B d) (concat ((λ t, pairs_of (CausesOf t)) <$> nodes)) duplicates →
  means B initial (λ ρ, starts nodes (fr_entries fr) joins (Now ρ)) →
  means B following_empty (λ ρ, empty nodes joins (Next ρ)) →
  ends B (completion_routes_of fr choice relation duplicates initial following_empty) (λ _, Answer) Rejection.
Proof using T Hbuilt Hok0 L.
  intros Hok Hg Hch Hrel Hdup Hin Hfe. unfold completion_routes_of.
  eapply ends_bind; [apply ends_runs; by apply (reachable_spec ids fr joins_by_source B0 T Hbuilt Hok0 L)|cbv beta]. intros B1 reached Hok1 Hg1 Hre.
  eapply ends_bind.
  { eapply ends_weaken; [intros B' a H; exact H|intros H; left; by apply collision_runs|].
    apply (ends_checks B1 _ (λ cc B d, duplicate_means fr B0 cc B d)); [|done| |].
    - intros cc C C' d HC HCC. by apply means_grows.
    - eapply Forall2_impl; [exact Hdup|]. intros cc d. by apply means_grows.
    - intros cc [[duplicate t] ss] B' Hcc Hok' Hg' Hd. unfold duplicate_means in Hd. cbn in Hd.
      eapply ends_bind; [apply ends_runs; eapply runs_and; [done|repeat (constructor; [first [keep|exact Hd]|]); constructor]|].
      cbv beta. intros B2 question Hok2 Hg2 Hq. apply ends_check; [done|]. eapply means_iff; [|exact Hq].
      intros ρ. rewrite !Forall_cons, Forall_nil. tauto. }
  cbv beta. intros B2 u Hok2 Hg2 Hnc.
  eapply ends_bind; [apply ends_runs, active_spec; [done|grow]|cbv beta]. intros B3 active Hok3 Hg3 Hact.
  eapply ends_bind; [apply ends_runs; eapply runs_and; [done|repeat (constructor; [keep|]); constructor]|cbv beta].
  intros B4 terminal_transition Hok4 Hg4 Hterm.
  assert (means B4 terminal_transition terminal) as Hterm'.
  { eapply means_iff; [|exact Hterm]. intros ρ. rewrite !Forall_cons, Forall_nil. unfold terminal. tauto. }
  eapply ends_bind; [apply ends_runs, presences_spec; [done|grow]|cbv beta]. intros B5 rps Hok5 Hg5 Hrps.
  eapply ends_bind; [apply ends_runs, (exposed_spec B5); [done|keep|exact Hrps]|cbv beta]. intros B6 exposed Hok6 Hg6 Hex.
  assert (∀ route, route ∈ concat exposed ↔ completion nodes (fr_entries fr) ro dt ct joins route) as Hcomp.
  { intros route. rewrite Hex. rewrite (terminal_runs (λ σ p, Exposes σ p route)) by (intros; by eapply exposes_agree).
    split; [by intros [_ H]|]. intros (σ & p & Hc & He). split; [|by exists σ, p].
    destruct He as (n & Hn & _ & [Hr _]). by eapply all_routes_elem. }
  eapply ends_bind.
  { eapply ends_weaken; [intros B' a H; exact H|intros H; right; left; by apply conflict_pairs|].
    apply (ends_checks B6 _ (λ rr B d, means B d.1.2 (λ ρ, Exposes (Now ρ) (Pick ρ) rr.1)
      ∧ means B d.2.2 (λ ρ, Exposes (Now ρ) (Pick ρ) rr.2))); [|done| |].
    - intros cc C C' d HC HCC [H1 H2]. split; by eapply means_grows.
    - eapply Forall2_impl; [apply pairs_of_Forall2; exact Hrps|]. intros [a b] [[a' x] [b' y]] [[_ H1] [_ H2]]. cbn in *.
      split; keep.
    - intros [a b] [[a' x] [b' y]] B' Hcc Hok' Hg' [H1 H2]. cbn in *.
      eapply ends_bind; [apply ends_runs; eapply runs_and; [done|repeat (constructor; [keep|]); constructor]|].
      cbv beta. intros B7 question Hok7 Hg7 Hq. apply ends_check; [done|]. eapply means_iff; [|exact Hq].
      intros ρ. rewrite !Forall_cons, Forall_nil. tauto. }
  cbv beta. intros B7 us Hok7 Hg7 Hncf. destruct (concat exposed) as [|route rest] eqn:E.
  - right. split; [by eexists|]. right. right. intros [route Hr%Hcomp]. by apply elem_of_nil in Hr.
  - apply ends_runs, runs_ret; [done|]. split_and!; [| |done|done].
    + intros (cc & Hcc & H)%collision_runs. by apply (Hnc cc Hcc).
    + intros (rr & Hrr & H)%conflict_pairs. by apply (Hncf rr Hrr).
Qed.
End completion.

Lemma prove_completion_routes_spec ids entries route_options direct_targets conditional_targets joins_by_source
    (T : topology ids route_options direct_targets conditional_targets joins_by_source) :
  ∃ nodes, symbolic_order route_options direct_targets conditional_targets joins_by_source = Ok nodes
    ∧ (∀ n, n ∈ nodes ↔ n ∈ ids)
    ∧ let joins := unique_joins joins_by_source in
      let completion := completion nodes entries route_options direct_targets conditional_targets joins in
      let rejected := collision nodes entries route_options direct_targets conditional_targets joins
        ∨ conflict nodes entries route_options direct_targets conditional_targets joins ∨ ¬ ∃ route, completion route in
      match prove_completion_routes entries route_options direct_targets conditional_targets joins_by_source with
      | Ok routes => ¬ rejected ∧ ∀ route, route ∈ routes ↔ completion route
      | Raise e => exn_kind e = GraphValidationError ∧ rejected
      end.
Proof.
  destruct (symbolic_order_spec ids _ _ _ _ T) as (nodes & Horder & _ & Hids). exists nodes. split_and!; [done..|]. cbn zeta.
  unfold prove_completion_routes. match goal with |- context [mbind _ (?m bdd_init)] => set (run := m) end.
  enough (ends bdd_init run (λ _ routes,
      ¬ collision nodes entries route_options direct_targets conditional_targets (unique_joins joins_by_source)
      ∧ ¬ conflict nodes entries route_options direct_targets conditional_targets (unique_joins joins_by_source)
      ∧ routes ≠ [] ∧ ∀ route, route ∈ routes ↔
          completion nodes entries route_options direct_targets conditional_targets (unique_joins joins_by_source) route)
    (collision nodes entries route_options direct_targets conditional_targets (unique_joins joins_by_source)
      ∨ conflict nodes entries route_options direct_targets conditional_targets (unique_joins joins_by_source)
      ∨ ¬ ∃ route, completion nodes entries route_options direct_targets conditional_targets (unique_joins joins_by_source) route))
    as [(routes & B & -> & _ & _ & H1 & H2 & H3 & H4)|[[message ->] H]]; [|by cbn..|].
  { cbn. split; [|done]. intros [?|[?|Hno]]; [done..|]. destruct routes as [|route routes]; [done|].
    apply Hno. exists route. apply H4. by left. }
  unfold run. eapply ends_bind; [apply ends_runs; by eapply construction_spec, init_ok|cbv beta].
  intros B0 fr Hok0 _ [L (He & Hro & Hdt & Hct & Hj & Hn & Ho)]. rewrite Horder in Ho. injection Ho as ->.
  rewrite <- Hj. subst entries route_options direct_targets conditional_targets. pose proof (conj Hj Hids) as Hbuilt.
  eapply ends_bind; [apply ends_runs, (choice_constraints_spec ids fr joins_by_source B0 T Hok0 L); done|cbv beta].
  intros B1 choice Hok1 Hg1 Hch.
  eapply ends_bind; [apply ends_runs, (build_relation_spec ids fr joins_by_source B0 T Hbuilt Hok0 L); done|cbv beta].
  intros B2 [relation duplicates] Hok2 Hg2 [Hrel Hdup]. cbn in Hrel, Hdup.
  eapply ends_bind; [apply ends_runs, (initial_state_spec fr B0 Hok0 L); [done|grow]|cbv beta]. intros B3 initial Hok3 Hg3 Hin.
  apply ends_assoc. eapply ends_bind; [apply ends_runs, (following_empty_spec fr B0 Hok0 L); [done|grow]|cbv beta].
  intros B4 following_empty Hok4 Hg4 Hfe.
  apply (completion_routes_spec ids fr joins_by_source B0 T Hbuilt Hok0 L); [done|grow|keep..| |keep|keep].
  eapply Forall2_impl; [exact Hdup|]. intros cc d. apply means_grows; [done|grow].
Qed.

(** C23: [prove_completion_routes] is total on the topologies the compiler hands it, and exact: it raises a
    validation error if and only if, in the explicit transition system, two causes can activate one node
    together, one completing frontier can expose two routes, or no run completes; otherwise it returns
    precisely the routes that some completing run exposes. *)
Theorem completion_routes_exact ids entries route_options direct_targets conditional_targets joins_by_source
    (T : topology ids route_options direct_targets conditional_targets joins_by_source) :
  ∃ nodes, symbolic_order route_options direct_targets conditional_targets joins_by_source = Ok nodes
    ∧ (∀ n, n ∈ nodes ↔ n ∈ ids)
    ∧ let joins := unique_joins joins_by_source in
      let completion := completion nodes entries route_options direct_targets conditional_targets joins in
      let rejected := collision nodes entries route_options direct_targets conditional_targets joins
        ∨ conflict nodes entries route_options direct_targets conditional_targets joins ∨ ¬ ∃ route, completion route in
      match prove_completion_routes entries route_options direct_targets conditional_targets joins_by_source with
      | Ok routes => ¬ rejected ∧ ∀ route, route ∈ routes ↔ completion route
      | Raise e => exn_kind e = GraphValidationError ∧ rejected
      end.
Proof. by apply prove_completion_routes_spec. Qed.

(* ------------------------------------------------------------------ *)
(** ** The demo topology *)

Definition demo_join : CompiledJoin := mkCompiledJoin (mkJoin [na; nb] nj) [(na, 1%Z); (nb, 1%Z)].
Definition demo_options : RouteOptions :=
  {[na := [None]; nb := [None]; ne := [None]; nj := [Some (lit "p"); Some (lit "r")]; nq := [None]]}.
Definition demo_direct : Successors := {[na := ∅; nb := ∅; ne := {[na; nb]}; nj := ∅; nq := ∅]}.
Definition demo_joins_by_source : JoinsBySource := {[na := [demo_join]; nb := [demo_join]; ne := []; nj := []; nq := []]}.

(** The conditions on a topology, table by table. *)
Lemma topology_decided (ids : gset str) route_options direct_targets conditional_targets joins_by_source :
  dom route_options = ids → dom direct_targets = ids → dom conditional_targets = ids →
  map_Forall (λ _ ys, ys ⊆ ids) direct_targets →
  map_Forall (λ _ cts, Forall (λ ry : str * str, ry.2 = END ∨ ry.2 ∈ ids) cts ∧ NoDup cts.*1) conditional_targets →
  map_Forall (λ _ rs, NoDup rs) route_options →
  map_Forall (λ x cts, cts = [] ∨ route_options !! x = Some (Some <$> sorted cts.*1)) conditional_targets →
  map_Forall (λ _ js, Forall (λ j, Forall (λ s, s ∈ ids) (sources_of j) ∧ (target_of j = END ∨ target_of j ∈ ids)
    ∧ NoDup (sources_of j) ∧ sources_of j ≠ [] ∧ (cj_source_target_offsets j).*1 = sources_of j
    ∧ Forall (λ so : str * Z, (1 ≤ so.2)%Z) (cj_source_target_offsets j)) js) joins_by_source →
  topology ids route_options direct_targets conditional_targets joins_by_source.
Proof.
  intros Ha Hb Hc0 Hd Hc Hr Ho Hj. split; [done..|exact Hd| | |exact Hr| |].
  - intros x cts route y Hx Hin Hne. destruct (Hc x cts Hx) as [Hf _]. rewrite Forall_forall in Hf. by destruct (Hf _ Hin).
  - intros x cts Hx. by apply (Hc x cts Hx).
  - intros x cts Hx Hne. by destruct (Ho x cts Hx).
  - intros x js j Hx Hin. specialize (Hj x js Hx). cbn in Hj. rewrite Forall_forall in Hj.
    destruct (Hj j Hin) as (H1 & H2 & H3 & H4 & H5 & H6). rewrite Forall_forall in H1. rewrite Forall_forall in H6. split_and!; [done|naive_solver|done..|].
    intros s o Hso. by apply (H6 (s, o)).
Qed.

Lemma demo_topology :
  topology (list_to_set demo_ids) demo_options demo_direct demo_conditional demo_joins_by_source.
Proof.
  apply topology_decided; try (apply (bool_decide_unpack _); by vm_compute); by vm_compute.
Qed.

(** On the demo graph the Join collects both branches, and a run completes either with
    the route [r] or, through [q], without one. *)
Lemma completion_routes_exact_witness :
  ∃ nodes routes, prove_completion_routes [ne] demo_options demo_direct demo_conditional demo_joins_by_source = Ok routes
    ∧ routes = [None; Some (lit "r")]
    ∧ completion nodes [ne] demo_options demo_direct demo_conditional (unique_joins demo_joins_by_source) (Some (lit "r"))
    ∧ ¬ completion nodes [ne] demo_options demo_direct demo_conditional (unique_joins demo_joins_by_source) (Some (lit "p")).
Proof.
  destruct (completion_routes_exact (list_to_set demo_ids) [ne] _ _ _ _ demo_topology) as (nodes & _ & _ & H).
  assert (prove_completion_routes [ne] demo_options demo_direct demo_conditional demo_joins_by_source
    = Ok [None; Some (lit "r")]) as E by by vm_compute.
  rewrite E in H. cbn in H. destruct H as [_ H]. exists nodes, [None; Some (lit "r")]. split_and!; [done..| |].
  - apply H. right. by left.
  - intros Hp%H. apply (bool_decide_unpack (Some (lit "p") ∉ [None; Some (lit "r")])); [by vm_compute|done].
Defined.
