(* ===== verification/BindingProofs.v ===== *)
(** * Value bindings are resolved or rejected

    The depth-first search of [_data_cycle] decides acyclicity; the bindings of a
    definition only read outputs of its own nodes, and every ordinary value a node reads
    is recorded as a data dependency. *)

From Stdlib Require Import ZArith NArith Lia Bool String.
From stdpp Require Import prelude strings gmap sorting.
From S2P Require Import Prelude Identity Bdd Topology GraphDefinition ControlGraph ControlGraphProofs LevelProofs JoinPlans Bindings DefinitionProofs FrontierRelation Compiler ControlTopologyProofs FrontierSystem FrontierAlloc.

Set Default Goal Selector "!".
Open Scope nat_scope.

(* ------------------------------------------------------------------ *)
(** ** Data cycles *)

Section cycle.
Context (deps : Successors) (Hclosed : closed deps).
Notation step := (edge deps).

(** No cycle can be reached from [n]. *)
Definition safe (n : str) : Prop := ¬ ∃ c, rtc step n c ∧ tc step c c.

Lemma safe_step n : (∀ s, step n s → safe s) → safe n.
Proof using.
  intros H (c & Hn & Hc). apply rtc_inv in Hn as [<-|(s & Hs & Hsc)]; [|by apply (H s Hs); exists c].
  inversion Hc as [? ? Hs|? s ? Hs Hsn]; subst.
  - apply (H n Hs). exists n. split; [apply rtc_refl|done].
  - apply (H s Hs). exists n. split; [by apply tc_rtc|done].
Qed.

Definition visited_ok (found : bool) (visiting : gset str) (state : gset str * gset str) (P : Prop) : Prop :=
  if found then ∃ c, tc step c c else state.1 = visiting ∧ (∀ v, v ∈ state.2 → safe v) ∧ P.

Lemma any_visit f visiting xs :
  (∀ x visited, x ∈ xs → (∀ v, v ∈ visited → safe v) →
    ∃ found state, f (visiting, visited) x = Ok (found, state) ∧ visited_ok found visiting state (safe x)) →
  ∀ visited, (∀ v, v ∈ visited → safe v) →
  ∃ found state, any_state xs (visiting, visited) f = Ok (found, state) ∧ visited_ok found visiting state (∀ x, x ∈ xs → safe x).
Proof using.
  induction xs as [|x xs IH]; intros Hf visited Hsafe; cbn [any_state].
  { exists false. eexists. split; [done|]. split_and!; [done|done|]. by intros x ?%elem_of_nil. }
  destruct (Hf x visited) as (found & [visiting1 visited1] & -> & Hok); [by left|done|].
  cbn [mbind result_bind]. destruct found; [by exists true, (visiting1, visited1)|]. destruct Hok as (Heq & Hsafe1 & Hx).
  cbn in Heq, Hsafe1. subst visiting1. destruct (IH (λ y v Hy, Hf y v ltac:(by right)) visited1) as (found & state & -> & Hok); [done|].
  exists found, state. split; [done|]. destruct found; [done|]. destruct Hok as (? & ? & Hrest). split_and!; [done..|].
  intros y [->|Hy]%elem_of_cons; [done|by apply Hrest].
Qed.

Lemma visit_spec (fuel : nat) n visiting visited :
  n ∈ dom deps → visiting ⊆ dom deps → size (dom deps ∖ visiting) < fuel → (∀ v, v ∈ visiting → tc step v n) →
  (∀ v, v ∈ visited → safe v) →
  ∃ found state, visit fuel deps (visiting, visited) n = Ok (found, state) ∧ visited_ok found visiting state (safe n).
Proof using Hclosed.
  revert n visiting visited. induction fuel as [|fuel IH]; intros n visiting visited Hn Hsub Hfuel Hpath Hsafe; [lia|].
  cbn [visit]. case_bool_decide as Hv; [exists true; eexists; split; [done|]; exists n; by apply Hpath|].
  case_bool_decide as Hd; [exists false; eexists; split; [done|]; split_and!; [done|done|by apply Hsafe]|].
  destruct (dict_get_dom deps n Hn) as (sources & -> & Hs). cbn [mbind result_bind].
  destruct (any_visit (visit fuel deps) ({[n]} ∪ visiting) (sorted_elements sources)) with (visited := visited)
    as (found & [visiting1 visited1] & -> & Hok); [|done|].
  { intros x visited' Hx%sorted_elements_elem Hsafe'. assert (step n x) as Hnx by by exists sources.
    apply IH; [by eapply Hclosed|set_solver| | |done].
    - assert (size (dom deps ∖ ({[n]} ∪ visiting)) < size (dom deps ∖ visiting)); [|lia]. apply subset_size. set_solver.
    - intros v [->%elem_of_singleton|Hv']%elem_of_union; [by apply tc_once|]. by eapply tc_r; [apply Hpath|]. }
  cbn [mbind result_bind]. destruct found; [by eexists _, _|]. destruct Hok as (Heq & Hsafe1 & Hall). cbn in Heq, Hsafe1. subst visiting1.
  exists false. eexists. split; [done|].
  assert (safe n) as Hsn. { apply safe_step. intros s (ys & Hys & Hy). rewrite Hs in Hys. injection Hys as <-. by apply Hall, sorted_elements_elem. }
  split_and!; cbn; [set_solver| |done]. intros v [->%elem_of_singleton|?]%elem_of_union; [done|by apply Hsafe1].
Qed.

Lemma data_cycle_spec : ∃ b, data_cycle deps = Ok b ∧ (b = true ↔ ∃ c, tc step c c).
Proof using Hclosed.
  unfold data_cycle.
  destruct (any_visit (visit (1 + size (dom deps)) deps) ∅ (sorted_elements (dom deps))) with (visited := ∅ : gset str)
    as (found & state & -> & Hok); [|set_solver|].
  { intros x visited Hx%sorted_elements_elem Hsafe. apply visit_spec; [done|set_solver| |set_solver|done].
    assert (size (dom deps ∖ ∅) ≤ size (dom deps)) by (apply subseteq_size; set_solver). lia. }
  cbn. exists found. split; [done|]. destruct found; [done|]. split; [done|]. intros (c & Hc). destruct Hok as (_ & _ & Hall).
  destruct (Hall c); [by eapply sorted_elements_elem, tc_dom|]. exists c. split; [apply rtc_refl|done].
Qed.
End cycle.

(* ------------------------------------------------------------------ *)
(** ** Input bindings *)

Section bindings.
Context {V : Type} `{EqDecision V}.
Notation Declarations := (list (OutputDeclaration V)).
Notation Nodes := (list (str * NodeDefinition V)).
Context (ids : list str) (outputs : gmap str Declarations) (Houtputs : ∀ n, n ∈ dom outputs ↔ n ∈ ids).

Lemma declaration_vets (declarations : Declarations) name : vets (declaration declarations name) (λ d, d ∈ declarations).
Proof using.
  unfold declaration. destruct (List.find _ declarations) as [d|] eqn:E; [|done]. by apply find_some, proj1, list_elem_of_In in E.
Qed.

Lemma resolve_source_vets source graph_inputs consumer :
  vets (resolve_source source graph_inputs outputs consumer) (λ out,
    match out.1 with FromNodeOutput port => no_node_id port ∈ ids ∧ consumer ≠ Some (no_node_id port) | FromGraphInput _ => True end).
Proof using Houtputs.
  destruct source as [name descriptor|n name descriptor]; cbn [resolve_source].
  - eapply vets_bind; [apply declaration_vets|]. done.
  - vet_guard. rewrite bool_decide_eq_false. intros Hc. destruct (outputs !! n) as [ds|] eqn:E; [|done]. cbn [mbind result_bind].
    eapply vets_bind; [apply declaration_vets|]. intros d _ _. vet_guard. intros _. cbn. split; [|done].
    apply Houtputs, elem_of_dom. by exists ds.
Qed.

(** A binding that reads a node's output reads a recorded dependency. *)
Definition reads (rs : list (ResolvedInputBinding V)) (deps : gset str) : Prop :=
  ∀ b port, b ∈ rs → rib_source b = ResolvedValue (FromNodeOutput port) → no_node_id port ∈ deps.

Lemma resolve_input_binding_vets graph_inputs n bindings binding :
  reads (nb_resolved bindings) (nb_dependencies bindings) → nb_dependencies bindings ⊆ list_to_set ids → n ∉ nb_dependencies bindings →
  vets (resolve_input_binding graph_inputs outputs n bindings binding) (λ out,
    reads (nb_resolved out) (nb_dependencies out) ∧ nb_dependencies out ⊆ list_to_set ids ∧ n ∉ nb_dependencies out).
Proof using Houtputs.
  intros Hr Hs Hn. unfold resolve_input_binding. destruct (ib_source binding) as [source|name descriptor]; [|done].
  eapply vets_bind; [apply resolve_source_vets|]. intros [source' descriptor] _ Hsrc. cbn in Hsrc. cbn. split_and!.
  - intros b port [Hb|Hb%list_elem_of_singleton]%elem_of_app Hport.
    + pose proof (Hr b port Hb Hport). destruct source'; set_solver.
    + subst b. cbn in Hport. injection Hport as ->. set_solver.
  - destruct source'; [done|]. destruct Hsrc as [Hsrc _]. apply union_subseteq. split; [|done].
    apply singleton_subseteq_l, elem_of_list_to_set. done.
  - destruct source'; [done|]. destruct Hsrc as [_ Hsrc]. apply not_elem_of_union. split; [|done]. apply not_elem_of_singleton. congruence.
Qed.

Record resolved (bindings : gmap str (list (ResolvedInputBinding V))) (preds : gmap str (list (str * (str * option V))))
    (deps : Successors) : Prop := {
  rs_bindings : ∀ n, n ∈ dom bindings ↔ n ∈ ids;
  rs_preds : ∀ n, n ∈ dom preds ↔ n ∈ ids;
  rs_deps : ∀ n, n ∈ dom deps ↔ n ∈ ids;
  rs_reads : ∀ n rs, bindings !! n = Some rs → ∃ ds, deps !! n = Some ds ∧ reads rs ds;
  rs_closed : closed deps;
  rs_acyclic : ¬ ∃ c, tc (edge deps) c c
}.

Lemma keyed_dom {A B : Type} (f : B → A) (xs : list (str * B)) n :
  n ∈ dom (list_to_map ((λ '(k, v), (k, f v)) <$> xs) : gmap str A) ↔ n ∈ xs.*1.
Proof using.
  rewrite list_to_map_keys, <- list_fmap_compose. assert (fst ∘ (λ '(k, v), (k, f v)) <$> xs = xs.*1) as ->; [|done].
  apply list_fmap_ext. by intros _ [k v] _.
Qed.

Lemma keyed_lookup {A B : Type} (f : B → A) (xs : list (str * B)) n v :
  NoDup xs.*1 → (list_to_map ((λ '(k, v), (k, f v)) <$> xs) : gmap str A) !! n = Some v ↔ ∃ b, (n, b) ∈ xs ∧ v = f b.
Proof using.
  intros Hnd. rewrite <- elem_of_list_to_map.
  - rewrite list_elem_of_fmap. split; [intros ([k b] & [= -> ->] & Hin); eauto|]. intros (b & Hin & ->). by exists (n, b).
  - rewrite <- list_fmap_compose. assert (fst ∘ (λ '(k, v), (k, f v)) <$> xs = xs.*1) as ->; [|done].
    apply list_fmap_ext. by intros _ [k b] _.
Qed.

Context (nodes : Nodes) (Hids : ∀ n, n ∈ ids ↔ n ∈ nodes.*1).

Lemma resolve_input_bindings_vets graph_inputs :
  NoDup ids →
  vets (resolve_input_bindings nodes ids graph_inputs outputs) (λ out, resolved out.1.1 out.1.2 out.2).
Proof using Hids Houtputs.
  intros Hnd. unfold resolve_input_bindings. eapply vets_bind.
  - apply (vets_mapM _ (λ n out, out.1 = n ∧ reads (nb_resolved out.2) (nb_dependencies out.2)
      ∧ nb_dependencies out.2 ⊆ list_to_set ids)). intros n Hn. apply vets_assoc; [by apply Hids|]. intros node _.
    eapply vets_bind.
    + apply (vets_state (λ _ out, reads (nb_resolved out) (nb_dependencies out) ∧ nb_dependencies out ⊆ list_to_set ids ∧ n ∉ nb_dependencies out)).
      * intros dn binding rest st _ (H1 & H2 & H3). by apply resolve_input_binding_vets.
      * cbn. split_and!; [by intros b port ?%elem_of_nil|set_solver|set_solver].
    + intros bindings _ (H1 & H2 & _). done.
  - intros per_node _ Hf. cbv beta in Hf. assert (per_node.*1 = ids) as Hkeys.
    { clear -Hf. induction Hf as [|x y xs ys [H _] _ IH]; cbn; [done|]. by rewrite H, IH. }
    assert (∀ n b, (n, b) ∈ per_node → reads (nb_resolved b) (nb_dependencies b) ∧ nb_dependencies b ⊆ list_to_set ids) as Hper.
    { intros n b [i Hi]%list_elem_of_lookup. by destruct (Forall2_lookup_r _ _ _ _ _ Hf Hi) as (n' & _ & _ & H). }
    cbv zeta. set (deps := list_to_map _ : Successors).
    assert (∀ n ds, deps !! n = Some ds ↔ ∃ b, (n, b) ∈ per_node ∧ ds = nb_dependencies b) as Hdeps
      by (intros n ds; apply keyed_lookup; by rewrite Hkeys).
    assert (∀ n, n ∈ dom deps ↔ n ∈ ids) as Hdom by (intros n; unfold deps; by rewrite keyed_dom, Hkeys).
    assert (closed deps) as Hcl.
    { intros x y (ds & (b & Hb & ->)%Hdeps & Hy). apply Hdom. destruct (Hper x b Hb) as [_ Hsub]. by apply Hsub, elem_of_list_to_set in Hy. }
    destruct (data_cycle_spec deps Hcl) as (cyclic & -> & Hcyc). cbn [mbind result_bind]. vet_guard. intros ->. cbn. split; try done.
    + intros n. by rewrite keyed_dom, Hkeys.
    + intros n. by rewrite keyed_dom, Hkeys.
    + intros n rs (b & Hb & ->)%keyed_lookup; [|by rewrite Hkeys]. exists (nb_dependencies b). split; [apply Hdeps; eauto|]. by eapply Hper.
    + rewrite <- Hcyc. done.
Qed.

(* ------------------------------------------------------------------ *)
(** ** Predecessor inputs *)

(** The ordinary values of [rs'] are those of [rs]. *)
Definition values_from (rs rs' : list (ResolvedInputBinding V)) : Prop :=
  ∀ b source, b ∈ rs' → rib_source b = ResolvedValue source → b ∈ rs.

Context {W : Type} `{EqDecision W} (value_type : V → W).
Context (gates : ActivationGates) (Hgates : ∀ n, n ∈ dom gates ↔ n ∈ ids).
Context (Hgates_in : ∀ n gs (gate : RawGate) s route, gates !! n = Some gs → gate ∈ gs → (s, route) ∈ gate → s ∈ ids).

Lemma resolve_predecessor_vets output_name declared target input_name (gs : list RawGate) start_input :
  (∀ (gate : RawGate) s route, gate ∈ gs → (s, route) ∈ gate → s ∈ ids) →
  vets (resolve_predecessor_output value_type output_name declared target input_name outputs gs start_input) (λ _, True).
Proof using Houtputs.
  intros Hs. unfold resolve_predecessor_output. vet_guard. intros _. cbv zeta. vet_guard. intros Hne. eapply vets_bind.
  - apply (vets_mapM _ (λ _ _, True)). intros s Hin. unfold sorted_set, sorted in Hin. rewrite sort_by_perm, elem_of_remove_dups in Hin.
    apply list_elem_of_In, in_concat in Hin as (xs & Hxs%list_elem_of_In & Hx%list_elem_of_In).
    apply list_elem_of_fmap in Hxs as (gate & -> & Hgate). apply list_elem_of_fmap in Hx as ([s' route] & -> & Hx).
    assert ((s', route) ∈ gate) as Hin.
    { destruct gate as [|x gate]; cbn in Hx; [by apply elem_of_nil in Hx|]. apply list_elem_of_singleton in Hx as <-. by left. }
    apply vets_bind_get; [by eapply Houtputs, Hs|]. intros ds _. eapply vets_bind; [apply declaration_vets|]. done.
  - intros found _ Hf. cbv beta in Hf. destruct found as [|[descriptor port] found].
    { apply Forall2_nil_inv_r in Hf. rewrite Hf in Hne. done. }
    cbn [list_get lookup list_lookup mbind result_bind]. vet_guard. intros _. vet_guard. done.
Qed.

Lemma complete_predecessor_vets entries (gs : list RawGate) n state binding :
  (∀ (gate : RawGate) s route, gate ∈ gs → (s, route) ∈ gate → s ∈ ids) →
  vets (complete_predecessor value_type outputs entries gs n state binding) (λ out, values_from state.1 out.1).
Proof using Houtputs.
  intros Hs. destruct state as [rs descriptors], binding as [name [output_name declared]]. unfold complete_predecessor.
  eapply vets_bind; [by apply resolve_predecessor_vets|]. intros [source descriptor] _ _.
  eapply (vets_bind _ _ (λ _, True)).
  - destruct (mem n entries); [|done]. destruct (assoc name descriptors); [|done]. vet_guard. done.
  - intros [descriptor' descriptors'] _ _. cbn. intros b src [Hb|Hb%list_elem_of_singleton]%elem_of_app Hsrc; [done|]. by subst b.
Qed.

Context (nested : list (str * CompiledGraph V)) (Hch : children_known nodes nested).

Lemma complete_node_vets (entries : list str) (preds : gmap str (list (str * (str * option V)))) state n :
  n ∈ ids → n ∈ dom state.1 → n ∈ dom preds →
  vets (complete_node value_type nodes nested preds outputs entries gates state n) (λ out,
    ∃ rs rs', state.1 !! n = Some rs ∧ values_from rs rs' ∧ out.1 = <[n := rs']> state.1).
Proof using Houtputs Hids Hgates Hgates_in Hch.
  destruct state as [completed descriptors]. cbn [fst]. intros Hn Hc Hp. unfold complete_node.
  apply vets_bind_get; [done|]. intros rs Hrs. apply vets_bind_get; [done|]. intros ps _.
  eapply (vets_bind _ _ (λ gs, ∀ (gate : RawGate) s route, gate ∈ gs → (s, route) ∈ gate → s ∈ ids)).
  { destruct (is_nil ps); [by intros gate s route ?%elem_of_nil|]. apply vets_get; [by apply Hgates|]. intros gs Hgs gate s route. by eapply Hgates_in. }
  intros gs _ Hgs. eapply vets_bind.
  { apply (vets_state (λ _ out, values_from rs out.1)); [|by intros b source].
    intros dn p rest st _ Hst. eapply vets_weaken; [|by apply complete_predecessor_vets].
    intros out Hout b source Hb Hsrc. apply (Hst b source); [|done]. by eapply Hout. }
  intros [rs' descriptors'] _ Hvals. cbn in Hvals. cbv zeta. apply vets_assoc; [by apply Hids|]. intros node Hnode.
  eapply (vets_bind _ _ (λ _, True)).
  { destruct node as [i ins outs rsrc routes|i g ins]; [done|]. apply vets_assoc.
    - eapply Hch. by apply assoc_Some_elem.
    - intros child _. by vet_guard. }
  intros u _ _. cbn. exists rs. eexists. split_and!; [done| |done]. intros b source Hb. unfold sorted_key in Hb. rewrite sort_by_perm in Hb. by apply Hvals.
Qed.

Lemma complete_input_bindings_vets (entries : list str) graph_inputs bindings preds deps :
  resolved bindings preds deps →
  vets (complete_input_bindings value_type nodes nested graph_inputs bindings preds outputs entries gates) (λ out,
    (∀ n, n ∈ dom out.1 ↔ n ∈ ids)
    ∧ ∀ n rs', out.1 !! n = Some rs' → ∃ rs, bindings !! n = Some rs ∧ values_from rs rs').
Proof using Houtputs Hids Hgates Hgates_in Hch.
  intros R. unfold complete_input_bindings. cbv zeta. eapply vets_bind.
  - apply (vets_state (λ _ st, (∀ n, n ∈ dom st.1 ↔ n ∈ ids)
      ∧ ∀ n rs', st.1 !! n = Some rs' → ∃ rs, bindings !! n = Some rs ∧ values_from rs rs')).
    + intros dn n rest st Hat [Hd Hv]. assert (n ∈ ids) as Hn.
      { apply (rs_bindings _ _ _ R), sorted_elements_elem. by eapply at_elem. }
      eapply vets_weaken; [|apply complete_node_vets; [done|by apply Hd|by apply (rs_preds _ _ _ R)]].
      intros out (rs & rs' & Hrs & Hvals & ->). split.
      * intros m. rewrite dom_insert, elem_of_union, elem_of_singleton, Hd. naive_solver.
      * intros m ms [[<- <-]|[_ Hm]]%lookup_insert_Some; [|by apply Hv]. destruct (Hv n rs Hrs) as (rs0 & H0 & H1).
        exists rs0. split; [done|]. intros b source Hb Hsrc. apply (H1 b source); [by eapply Hvals|done].
    + cbn. split; [apply R|]. intros n rs' Hn. exists rs'. split; [done|]. by intros b source.
  - intros [completed descriptors] _ H. exact H.
Qed.
End bindings.

(* ------------------------------------------------------------------ *)
(** ** Entries *)

Lemma resolve_entries_vets (ids declared : list str) (data : Successors) (gates : ActivationGates) :
  NoDup ids → NoDup declared → (∀ e, e ∈ declared → e ∈ ids) → (∀ n, n ∈ dom data ↔ n ∈ ids) → (∀ n, n ∈ dom gates ↔ n ∈ ids) →
  vets (resolve_entries ids declared data gates) (λ entries, NoDup entries ∧ (∀ n, n ∈ entries → n ∈ ids) ∧ entries ≠ []
    ∧ ∀ n, n ∈ entries ↔ n ∈ declared ∨ (n ∈ ids ∧ gates !! n = Some [])).
Proof.
  intros Hnd Hdecl Hin Hdata Hgates. unfold resolve_entries. cbv zeta.
  eapply vets_bind; [apply vets_any; intros n Hn%sorted_elem_1; apply vets_bind_get; [by apply Hdata, Hin|done]|].
  intros dependent _ _. vet_guard. intros _. eapply vets_bind.
  { apply (vets_for _ _ (λ '(n, ds), ds ≠ ∅ → gates !! n ≠ Some [])). intros [n ds] Hn%items_elem. case_bool_decide as He; [by cbn|].
    apply vets_bind_get; [apply Hgates, Hdata, elem_of_dom; by exists ds|]. intros gs Hgs. vet_guard. rewrite is_nil_false. congruence. }
  intros u _ Hgated. cbv beta in Hgated. eapply vets_bind.
  { apply (vets_select _ _ (λ n, n ∉ declared ∧ gates !! n = Some [])). intros n Hn. destruct (mem n (sorted declared)) eqn:Em.
    - rewrite mem_spec, sorted_elem in Em. cbn. naive_solver.
    - rewrite mem_false, sorted_elem in Em. apply vets_bind_get; [by apply Hdata|]. intros ds Hds. case_bool_decide as He; cbn [negb].
      + apply vets_bind_get; [by apply Hgates|]. intros gs Hgs. cbn. rewrite is_nil_spec. naive_solver.
      + cbn. split; [done|]. intros [_ Hg]. by destruct (Hgated (n, ds) ltac:(by apply items_elem)). }
  intros automatic _ [Hauto Hsub]. vet_guard. rewrite is_nil_false. intros Hne. cbn.
  assert (∀ n, n ∈ sorted (sorted declared ++ automatic) ↔ n ∈ declared ∨ n ∈ ids ∧ gates !! n = Some []) as Hall.
  { intros n. rewrite sorted_elem, elem_of_app, sorted_elem, Hauto. destruct (decide (n ∈ declared)); naive_solver. }
  split_and!; [| |done|done].
  - apply sorted_NoDup, NoDup_app. split_and!; [by apply sorted_NoDup| |by apply (sublist_NoDup _ ids)].
    intros n Hn%sorted_elem_1 [_ [? _]]%Hauto. done.
  - intros n [?|[? _]]%Hall; [by apply Hin|done].
Qed.

(* ------------------------------------------------------------------ *)
(** * Join plans are always constructible

    For Joins over known, canonical, sorted sources the plan of a Join is returned or the
    graph is rejected: the constructors of the identity and of the plan never raise, and
    the index by source and target lists every plan under its sources and its target. *)

Open Scope Z_scope.

(** Sources as a validated Join edge has them after sorting. *)
Record sources_ok (sources : list str) (target : str) : Prop := {
  sk_many : (2 ≤ length sources)%nat;
  sk_sorted : strictly_sorted (λ s : str, s) sources;
  sk_canonical : ∀ s, s ∈ sources → is_canonical_identity s = true;
  sk_target : is_canonical_identity target = true;
  sk_apart : target ∉ sources
}.

Lemma join_identity_total sources target :
  sources_ok sources target → GraphJoinIdentity_new sources target = Ok (mkJoin sources target).
Proof.
  intros [Hm Hs Hc Ht Ha]. unfold GraphJoinIdentity_new.
  rewrite (proj2 (Nat.ltb_ge _ _) Hm), (proj2 (existsb_false_iff _ _)).
  - rewrite bool_decide_true by by apply sorted_set_canonical. cbn. by rewrite Ht, (proj2 (mem_false _ _) Ha).
  - intros s Hin. by rewrite Hc.
Qed.

Lemma sorted_sources_ok (declared : list str) target :
  (2 ≤ length declared)%nat → NoDup declared → (∀ s, s ∈ declared → is_canonical_identity s = true) →
  is_canonical_identity target = true → target ∉ declared → sources_ok (sorted declared) target.
Proof.
  intros Hm Hnd Hc Ht Ha. split.
  - unfold sorted. by rewrite sort_by_perm.
  - apply weakly_sorted_strict; [apply (sorted_key_weak (λ s : str, s))|]. rewrite list_fmap_id. by apply sorted_NoDup.
  - intros s Hs%sorted_elem_1. by apply Hc.
  - done.
  - by rewrite sorted_elem.
Qed.

(** Lookups of all sources succeed, or one key is missing. *)
Lemma lookups_or_missing (levels : gmap str Z) (sources : list str) :
  (∃ ls, mapM (dict_get levels) sources = Ok ls ∧ Forall2 (λ s l, levels !! s = Some l) sources ls)
  ∨ ∃ message, mapM (dict_get levels) sources = Raise (Exn KeyError message).
Proof.
  induction sources as [|s sources IH]; cbn; [left; by exists []|].
  destruct (dict_get levels s) as [l|e] eqn:E; cbn.
  - apply dict_get_Ok in E. destruct IH as [(ls & -> & Hf)|[message ->]]; cbn; [left|right; by exists message].
    exists (l :: ls). split; [done|by constructor].
  - right. unfold dict_get in E. destruct (levels !! s); [done|]. injection E as <-. by eexists.
Qed.

Definition offsets_ok (sources : list str) (offsets : list (str * Z)) : Prop :=
  offsets.*1 = sources ∧ ∀ s offset, (s, offset) ∈ offsets → 1 ≤ offset.

Lemma one_shot_offsets_vets (sources : list str) (requirements : list RouteProof) (levels : gmap str Z) :
  sources ≠ [] → vets (one_shot_offsets sources requirements levels) (offsets_ok sources).
Proof.
  intros Hne. unfold one_shot_offsets. vet_guard. intros _.
  destruct (lookups_or_missing levels sources) as [(ls & Hls & Hf)|[message ->]]; [|done]. rewrite Hls.
  cbn [mbind result_bind]. destruct ls as [|l ls]; [by apply Forall2_nil_inv_r in Hf|].
  destruct (py_max_spec l ls) as (m & -> & _ & Hmax). cbn [mbind result_bind except].
  eapply vets_weaken; [|apply (vets_mapM _ (λ s out, out.1 = s ∧ 1 ≤ out.2))].
  - intros offsets H. split; [|].
    + clear -H. induction H as [|s o ss os [Hs _] _ IH]; cbn; [done|]. by rewrite Hs, IH.
    + intros s o [i Hi]%list_elem_of_lookup. by destruct (Forall2_lookup_r _ _ _ _ _ H Hi) as (s' & _ & _ & Ho).
  - intros s [i Hi]%list_elem_of_lookup. destruct (Forall2_lookup_l _ _ _ _ _ Hf Hi) as (k & Hk & Hl).
    apply vets_bind_get; [apply elem_of_dom; by exists k|]. intros k' Hk'. rewrite Hl in Hk'. injection Hk' as <-. cbn. split; [done|].
    assert (k ≤ m); [|lia]. apply Hmax. by eapply list_elem_of_lookup_2.
Qed.

Lemma cohort_offsets_vets (sources repeated entries : list str) (gates : ActivationGates) :
  (∀ s, s ∈ sources → s ∈ dom gates) → vets (cohort_offsets sources repeated entries gates) (offsets_ok sources).
Proof.
  intros Hg. unfold cohort_offsets. eapply vets_bind; [apply (vets_mapM _ (λ _ _, True))|].
  - intros s Hs. apply vets_bind_get; [by apply Hg|]. done.
  - intros signatures _ _. vet_guard. intros _. cbn. split.
    + rewrite <- list_fmap_compose. apply list_fmap_id.
    + intros s o (s' & [= -> ->] & _)%list_elem_of_fmap. done.
Qed.

Lemma source_requirements_vets (s : str) (route : option str) (proofs : gmap str RouteProof) (cond : Conditionals) :
  s ∈ dom cond → vets (source_route_requirements s route proofs cond) (λ _, True).
Proof.
  intros Hs. unfold source_route_requirements, declared_routes. eapply (vets_bind _ _ (λ _, True)).
  - apply vets_bind_get; [done|]. done.
  - intros declared _ _. by case_match.
Qed.

Lemma compile_join_vets (entries : list str) (gates : ActivationGates) (repeatable : gset str) (proofs : gmap str RouteProof)
    (cond : Conditionals) (levels : gmap str Z) (sources : list str) (target : str) :
  sources_ok sources target → (∀ s, s ∈ sources → s ∈ dom gates ∧ s ∈ dom cond) →
  vets (compile_join entries gates repeatable proofs cond levels (sources, target))
    (λ plan, cj_identity plan = mkJoin sources target ∧ offsets_ok sources (cj_source_target_offsets plan)).
Proof.
  intros Hok Hin. unfold compile_join, gate_route_requirements. eapply (vets_bind _ _ (λ _, True)).
  { eapply vets_bind; [apply (vets_mapM _ (λ _ _, True))|].
    - intros [s route] (s' & [= -> ->] & Hs)%list_elem_of_fmap. apply source_requirements_vets. by apply Hin.
    - done. }
  intros joint _ _. vet_guard. intros _. eapply vets_bind; [apply (vets_mapM _ (λ _ _, True))|].
  { intros s Hs. apply source_requirements_vets. by apply Hin. }
  intros requirements _ _. cbv zeta. eapply vets_bind.
  { case_match.
    - apply one_shot_offsets_vets. intros ->. destruct Hok as [Hm _ _ _ _]. cbn in Hm. lia.
    - apply cohort_offsets_vets. intros s Hs. by apply Hin. }
  intros offsets _ [Hkeys Hpos]. rewrite (join_identity_total sources target Hok). cbn [mbind result_bind].
  unfold CompiledJoin_new. cbn. rewrite bool_decide_true by done. cbn.
  rewrite (proj2 (existsb_false_iff _ _)); [done|]. intros [s o] Hso. apply Z.ltb_ge. by eapply Hpos.
Qed.

(* ------------------------------------------------------------------ *)
(** ** The index *)

(** The plans of a list that name [n]. *)
Definition plans_from (n : str) (plans : list CompiledJoin) : list CompiledJoin :=
  filter (λ plan, n ∈ join_sources (cj_identity plan)) plans.
Definition plans_into (n : str) (plans : list CompiledJoin) : list CompiledJoin :=
  filter (λ plan, join_target (cj_identity plan) = n) plans.

Lemma append_sources (join : CompiledJoin) (index : gmap str (list CompiledJoin)) (sources : list str) :
  NoDup sources → (∀ s, s ∈ sources → s ∈ dom index) →
  ∃ final, py_for_state sources index (λ index source, append_plan source join index) = Ok final
    ∧ dom final = dom index
    ∧ ∀ n, final !! n = if decide (n ∈ sources) then (λ known, known ++ [join]) <$> index !! n else index !! n.
Proof.
  revert index. induction sources as [|s sources IH]; intros index Hnd Hin.
  { exists index. split_and!; [done..|]. intros n. by rewrite decide_False by apply not_elem_of_nil. }
  apply NoDup_cons in Hnd as [Hs Hnd]. assert (s ∈ dom index) as Hsd by (apply Hin; by left).
  pose proof Hsd as [known Hk]%elem_of_dom. cbn [py_for_state].
  assert (append_plan s join index = Ok (<[s := known ++ [join]]> index)) as -> by (unfold append_plan, dict_get; by rewrite Hk).
  cbn [mbind result_bind].
  assert (dom (<[s := known ++ [join]]> index) = dom index) as Hd by (rewrite dom_insert_L; set_solver).
  destruct (IH (<[s := known ++ [join]]> index)) as (final & -> & Hd' & Hf); [done| |].
  { intros x Hx. rewrite Hd. apply Hin. by right. }
  exists final. split_and!; [done|by rewrite Hd'|]. intros n. rewrite Hf. destruct (decide (s = n)) as [<-|Hne].
  - rewrite decide_False, decide_True, lookup_insert_eq, Hk; [done|by left|done].
  - rewrite lookup_insert_ne by done. destruct (decide (n ∈ sources)), (decide (n ∈ s :: sources)) as [H|H]; try done.
    + destruct H. by right.
    + apply elem_of_cons in H as [?|?]; [congruence|done].
Qed.

(** What the index lists. *)
Record indexed (ids : list str) (plans : list CompiledJoin) (by_source by_target : gmap str (list CompiledJoin)) : Prop := {
  in_source_dom : ∀ n, n ∈ dom by_source ↔ n ∈ ids;
  in_target_dom : ∀ n, n ∈ dom by_target ↔ n ∈ ids;
  in_source : ∀ n, n ∈ ids → by_source !! n = Some (plans_from n plans);
  in_target : ∀ n, n ∈ ids → by_target !! n = Some (plans_into n plans)
}.

Lemma index_joins_spec (ids : list str) (plans : list CompiledJoin) :
  END ∉ ids →
  (∀ plan, plan ∈ plans → NoDup (join_sources (cj_identity plan)) ∧ (∀ s, s ∈ join_sources (cj_identity plan) → s ∈ ids)
    ∧ target_valid ids (join_target (cj_identity plan))) →
  ∃ by_source by_target, index_joins ids plans = Ok (by_source, by_target) ∧ indexed ids plans by_source by_target.
Proof.
  intros Hend Hplans. unfold index_joins.
  destruct (py_for_state_total (λ dn index, indexed ids dn index.1 index.2) index_join plans)
    with (st := (for_each_node ids ([] : list CompiledJoin), for_each_node ids ([] : list CompiledJoin)))
    as ([by_source by_target] & -> & H); [| |by exists by_source, by_target].
  2: { split; cbn; try (intros n; apply for_each_node_dom); intros n Hn; by apply for_each_node_lookup. }
  intros dn plan [by_source by_target] Hin [D1 D2 L1 L2]. cbn [fst snd] in *. destruct (Hplans plan Hin) as (Hnd & Hs & Ht).
  unfold index_join.
  assert (∃ targets, (if bool_decide (join_target (cj_identity plan) = END) then Ok by_target
      else append_plan (join_target (cj_identity plan)) plan by_target) = Ok targets
    ∧ (∀ n, n ∈ dom targets ↔ n ∈ ids) ∧ ∀ n, n ∈ ids → targets !! n = Some (plans_into n (dn ++ [plan]))) as (targets & -> & D2' & L2').
  { assert (∀ n, plans_into n (dn ++ [plan]) = plans_into n dn ++ (if decide (join_target (cj_identity plan) = n) then [plan] else [])) as Hinto.
    { intros n. unfold plans_into. rewrite filter_app, filter_cons, filter_nil. by case_decide. }
    case_bool_decide as He.
    - exists by_target. split_and!; [done..|]. intros n Hn. rewrite Hinto, decide_False, app_nil_r by congruence. by apply L2.
    - destruct Ht as [?|Ht]; [done|]. unfold append_plan, dict_get. rewrite L2 by done. cbn. eexists. split; [done|]. split.
      + intros n. rewrite dom_insert, elem_of_union, elem_of_singleton, D2. naive_solver.
      + intros n Hn. rewrite Hinto. destruct (decide (join_target (cj_identity plan) = n)) as [<-|Hne].
        * by rewrite lookup_insert_eq.
        * rewrite lookup_insert_ne, app_nil_r by done. by apply L2. }
  cbn [mbind result_bind]. destruct (append_sources plan by_source (join_sources (cj_identity plan)) Hnd) as (final & -> & Hd & Hf).
  { intros s Hs'. by apply D1, Hs. }
  cbn. eexists. split; [done|]. split; cbn; [by rewrite Hd|done| |done]. intros n Hn. rewrite Hf, L1 by done.
  unfold plans_from. rewrite filter_app, filter_cons, filter_nil. case_decide; cbn; [done|by rewrite app_nil_r].
Qed.
