(* ===== verification/AnalysisProofs.v ===== *)
(** * The control analyses of one definition

    [analyse_control] on the tables of valid edges: every analysis gets the tables it
    needs, nothing but validation errors is raised, and an accepted definition has the
    properties the analyses check. *)

From Stdlib Require Import ZArith NArith Lia Bool String.
From stdpp Require Import prelude strings gmap sorting.
From S2P Require Import Prelude Identity Topology GraphDefinition ControlGraph ControlGraphProofs LevelProofs JoinPlans RouteProofs JointProofs ControlTheorems Bindings DefinitionProofs Bdd FrontierRelation Compiler ControlTopologyProofs FrontierSystem FrontierAlloc FrontierProofs BindingProofs.

Set Default Goal Selector "!".
Open Scope nat_scope.

(* ------------------------------------------------------------------ *)
(** ** Successors *)

Lemma add_join_successors_spec (successors : Successors) (joins : list (list str * str)) :
  (∀ sources target s, (sources, target) ∈ joins → s ∈ sources → s ∈ dom successors) →
  ∃ final, add_join_successors successors joins = Ok final ∧ dom final = dom successors
    ∧ ∀ x y, edge final x y ↔ edge successors x y ∨ ∃ sources, (sources, y) ∈ joins ∧ y ≠ END ∧ x ∈ sources.
Proof.
  intros Hs. unfold add_join_successors.
  destruct (py_for_state_total (λ dn (final : Successors), dom final = dom successors
    ∧ ∀ x y, edge final x y ↔ edge successors x y ∨ ∃ sources, (sources, y) ∈ dn ∧ y ≠ END ∧ x ∈ sources)
    (λ successors '(sources, target),
      if bool_decide (target = END) then Ok successors else
      py_for_state sources successors (λ successors source,
        known ← dict_get successors source; Ok (<[source := {[target]} ∪ known]> successors))) joins) with (st := successors)
    as (final & -> & Hd & He); [| |by exists final].
  2: { split; [done|]. intros x y. split; [auto|]. intros [?|(sources & ?%elem_of_nil & _)]; done. }
  intros dn [sources target] st Hin [Hd He]. case_bool_decide as Ht.
  { exists st. split_and!; [done..|]. intros x y. rewrite He. setoid_rewrite elem_of_app. setoid_rewrite list_elem_of_singleton. naive_solver. }
  destruct (py_for_state_total (λ seen (final : Successors), dom final = dom successors
    ∧ ∀ x y, edge final x y ↔ edge st x y ∨ (y = target ∧ x ∈ seen))
    (λ successors source, known ← dict_get successors source; Ok (<[source := {[target]} ∪ known]> successors)) sources)
    with (st := st) as (final & -> & Hd' & He').
  - intros seen x st' Hx [Hd' He']. assert (x ∈ dom st') as [ys Hys]%elem_of_dom by (rewrite Hd'; by eapply Hs).
    unfold dict_get. rewrite Hys. cbn. eexists. split; [done|]. split.
    + rewrite dom_insert_L, Hd'. assert (x ∈ dom successors) by by eapply Hs. set_solver.
    + intros a b. rewrite elem_of_app, list_elem_of_singleton. unfold edge at 1. destruct (decide (x = a)) as [<-|Hne].
      * rewrite lookup_insert_eq. assert (edge st' x b ↔ b ∈ ys) as Hb by by apply edge_lookup.
        rewrite He' in Hb. split; [intros (zs & [= <-] & Hz); set_solver|].
        intros H. exists ({[target]} ∪ ys). split; [done|]. set_solver.
      * rewrite lookup_insert_ne by done. change (edge st' a b ↔ edge st a b ∨ b = target ∧ (a ∈ seen ∨ a = x)). rewrite He'. naive_solver.
  - split; [done|]. intros x y. split; [auto|]. intros [?|[_ ?%elem_of_nil]]; done.
  - exists final. split_and!; [done..|]. intros x y. rewrite He', He. setoid_rewrite elem_of_app. setoid_rewrite list_elem_of_singleton.
    split; [|naive_solver]. intros [[?|?]| [-> ?]]; [naive_solver..|]. right. exists sources. auto.
Qed.

Section analysis.
Context (ids : list str) (edges : list Edge) (control : ControlTopology).
Context (Hedges : Forall (edge_valid ids) edges) (C : control_of ids edges control).

Lemma edge_is_valid e : e ∈ edges → edge_valid ids e.
Proof using Hedges. rewrite Forall_forall in Hedges. apply Hedges. Qed.

Lemma edge_target_valid e : e ∈ edges → edge_target e ≠ END → edge_target e ∈ ids.
Proof using Hedges.
  intros He%edge_is_valid Ht. assert (target_valid ids (edge_target e)) as [?|?]; [|done|done].
  destruct e; cbn [edge_valid edge_target] in *; tauto.
Qed.

Lemma gate_source_valid e s : e ∈ edges → s ∈ (edge_gate e).*1 → s ∈ ids.
Proof using Hedges.
  intros He%edge_is_valid. destruct e as [a t|a r t|ss t]; cbn [edge_valid edge_gate] in *.
  - intros ->%list_elem_of_singleton. tauto.
  - intros ->%list_elem_of_singleton. tauto.
  - intros (x & -> & (y & -> & Hy%sorted_elem_1)%list_elem_of_fmap)%list_elem_of_fmap. cbn. destruct He as (_ & _ & Hs & _). exact (Hs _ Hy).
Qed.

(** [x] has an edge that leads to [y]. *)
Definition control_edge (x y : str) : Prop := ∃ e, e ∈ edges ∧ edge_target e = y ∧ y ≠ END ∧ x ∈ (edge_gate e).*1.

Definition static_edge (x y : str) : Prop :=
  y ≠ END ∧ (DirectEdge x y ∈ edges ∨ ∃ route, ConditionalEdge x route y ∈ edges).

Lemma static_successors_spec :
  ∃ static, static_successors ids (ct_direct control) (ct_conditional control) = Ok static
    ∧ (∀ n, n ∈ dom static ↔ n ∈ ids) ∧ ∀ x y, edge static x y ↔ static_edge x y.
Proof using C Hedges.
  unfold static_successors.
  destruct (py_for_state_total (λ dn (static : Successors), (∀ n, n ∈ dom static ↔ n ∈ dn)
    ∧ ∀ x y, edge static x y ↔ x ∈ dn ∧ static_edge x y) (λ successors node_id,
    direct ← dict_get (ct_direct control) node_id;
    conditional ← dict_get (ct_conditional control) node_id;
    Ok (<[node_id := direct ∪ list_to_set (List.filter (λ target, negb (bool_decide (target = END)))
                                             (snd <$> conditional))]> successors)) ids) with (st := ∅ : Successors)
    as (static & -> & Hd & He).
  - intros dn n st Hn [Hd He]. unfold dict_get. rewrite (co_direct _ _ _ C n Hn), (co_conditional _ _ _ C n Hn). cbn.
    eexists. split; [done|]. split.
    + intros m. rewrite dom_insert, elem_of_union, elem_of_singleton, Hd, elem_of_app, list_elem_of_singleton. tauto.
    + intros x y. unfold edge. destruct (decide (n = x)) as [<-|Hne].
      * rewrite lookup_insert_eq, elem_of_app, list_elem_of_singleton. setoid_rewrite (inj_iff Some).
        assert ((∃ ys, list_to_set (directs_of n edges) ∪ list_to_set (List.filter (λ target, negb (bool_decide (target = END)))
          (snd <$> conditionals_of n edges)) = ys ∧ y ∈ ys) ↔ static_edge n y) as ->; [|tauto].
        trans (y ∈ (list_to_set (directs_of n edges) ∪ list_to_set (List.filter (λ target, negb (bool_decide (target = END)))
          (snd <$> conditionals_of n edges)) : gset str)); [naive_solver|].
        rewrite elem_of_union, !elem_of_list_to_set, directs_of_elem, List_filter_elem, list_elem_of_fmap.
        rewrite negb_true_iff, bool_decide_eq_false. unfold static_edge. split.
        -- intros [?|[Hy ([r t] & -> & Hr%conditionals_of_elem)]]; [tauto|]. split; [done|]. right. by exists r.
        -- intros [Hy [?|[r Hr]]]; [tauto|]. right. split; [done|]. exists (r, y). split; [done|by apply conditionals_of_elem].
      * rewrite lookup_insert_ne by done. change (edge st x y ↔ x ∈ dn ++ [n] ∧ static_edge x y).
        rewrite He, elem_of_app, list_elem_of_singleton. naive_solver.
  - split; [by intros n; rewrite dom_empty, elem_of_empty, elem_of_nil|]. intros x y. unfold edge. rewrite elem_of_nil.
    setoid_rewrite lookup_empty. naive_solver.
  - exists static. split_and!; [done..|]. intros x y. rewrite He. split; [tauto|]. intros Hs. split; [|done].
    destruct Hs as [_ [H|[r H]]]; apply edge_is_valid in H; cbn in H; tauto.
Qed.

Lemma control_edge_split x y :
  control_edge x y ↔ static_edge x y ∨ ∃ sources, (sources, y) ∈ joins_of edges ∧ y ≠ END ∧ x ∈ sources.
Proof using.
  unfold control_edge, static_edge. setoid_rewrite joins_of_elem. split.
  - intros ([a t|a r t|ss t] & He & <- & Hy & Hx); cbn in *.
    + apply list_elem_of_singleton in Hx as ->. auto.
    + apply list_elem_of_singleton in Hx as ->. eauto.
    + right. exists (sorted ss). split_and!; [by exists ss|done|].
      apply list_elem_of_fmap in Hx as ([z o] & -> & (w & [= -> ->] & Hw)%list_elem_of_fmap). done.
  - intros [(Hy & [H|[r H]])|(ss & (declared & H & ->) & Hy & Hx)]; eexists; (split; [exact H|]); cbn.
    + split_and!; [done|done|by left].
    + split_and!; [done|done|by left].
    + split_and!; [done|done|]. rewrite <- list_fmap_compose. apply list_elem_of_fmap. by exists x.
Qed.

Lemma join_sources_valid sources target s : (sources, target) ∈ joins_of edges → s ∈ sources → s ∈ ids.
Proof using Hedges.
  intros (declared & He & ->)%joins_of_elem Hs%sorted_elem_1. apply edge_is_valid in He. cbn in He. destruct He as (_ & _ & H & _). by apply H.
Qed.

(** The successor map of the analyses. *)
Record successors_of (successors : Successors) : Prop := {
  so_dom : ∀ n, n ∈ dom successors ↔ n ∈ ids;
  so_edge : ∀ x y, edge successors x y ↔ control_edge x y;
  so_closed : closed successors
}.

Lemma full_successors_spec static :
  (∀ n, n ∈ dom static ↔ n ∈ ids) → (∀ x y, edge static x y ↔ static_edge x y) →
  ∃ successors, add_join_successors static (ct_joins control) = Ok successors ∧ successors_of successors.
Proof using C Hedges.
  intros Hd He. rewrite (co_joins _ _ _ C).
  destruct (add_join_successors_spec static (joins_of edges)) as (final & Hf & Hd' & He').
  { intros sources target s Hj Hs. apply Hd. by eapply join_sources_valid. }
  assert (∀ x y, edge final x y ↔ control_edge x y) as Hedge by (intros x y; by rewrite He', He, control_edge_split).
  exists final. split_and!; [done|]. split.
  - intros n. by rewrite Hd', Hd.
  - done.
  - intros x y (e & Hin & <- & Ht & _)%Hedge. rewrite Hd', Hd. by apply edge_target_valid.
Qed.

(* ------------------------------------------------------------------ *)
(** ** The tables *)

Context (entries : list str) (data : Successors) (options : RouteOptions).
Context (Hnames : ∀ n, n ∈ ids → is_canonical_identity n = true ∧ n ≠ END) (Hroutes : NoDup (route_keys edges)).
Context (Hentries : NoDup entries) (Hentries_in : ∀ n, n ∈ entries → n ∈ ids) (Hentries_ne : entries ≠ []).
Context (Hdata : ∀ n, n ∈ dom data ↔ n ∈ ids) (Hdata_in : ∀ n ds d, data !! n = Some ds → d ∈ ds → d ∈ ids).
Context (Hoptions : ∀ n, n ∈ dom options ↔ n ∈ ids) (Hoptions_of : ∀ n rs, options !! n = Some rs → options_of edges n rs).

Lemma tables_of successors :
  successors_of successors → tables ids entries (ct_gates control) data (ct_conditional control) successors.
Proof using Hedges C Hnames Hentries Hentries_in Hdata Hdata_in.
  intros S. split.
  - apply S.
  - apply S.
  - apply C.
  - done.
  - apply C.
  - done.
  - done.
  - intros n gates gate s route Hn Hgate Hs. assert (n ∈ ids) as Hid by (apply (co_gates_dom _ _ _ C), elem_of_dom; by exists gates).
    rewrite (co_gates _ _ _ C n Hid) in Hn. injection Hn as <-. apply gates_into_elem in Hgate as (e & He & Ht & ->).
    assert (s ∈ (edge_gate e).*1) as Hse by by apply (list_elem_of_fmap_2 fst _ (s, route)).
    pose proof (gate_source_valid e s He Hse) as Hsid. split.
    + apply S. exists e. split_and!; [done|done| |done]. by apply Hnames.
    + split; [by apply (co_conditional_dom _ _ _ C)|]. intros Hr. exists (conditionals_of s edges).
      split; [by apply (co_conditional _ _ _ C)|]. destruct e as [a t|a r t|ss t]; cbn [edge_gate] in Hs.
      * apply list_elem_of_singleton in Hs as [= _ ->]. done.
      * apply list_elem_of_singleton in Hs as [= -> ->]. intros E.
        assert ((r, t) ∈ conditionals_of a edges) as Hin by by apply conditionals_of_elem. rewrite E in Hin. by apply elem_of_nil in Hin.
      * apply list_elem_of_fmap in Hs as (? & [= _ ->] & _). done.
  - done.
Qed.

(* ------------------------------------------------------------------ *)
(** ** Terminal gates *)

Lemma end_gates_in gate t : gate ∈ ct_gates_to_end control → t ∈ gate → t ∈ ids.
Proof using Hedges C.
  rewrite (co_end _ _ _ C). intros (g & -> & (e & He & _ & ->)%gates_into_elem)%list_elem_of_fmap Ht%elem_of_list_to_set.
  by eapply gate_source_valid.
Qed.

(** A way the graph ends: the sources of an edge to END, or a node without successors
    that no edge to END mentions. *)
Definition ends (gate : gset str) : Prop :=
  (∃ e, e ∈ edges ∧ edge_target e = END ∧ gate = list_to_set (edge_gate e).*1)
  ∨ ∃ n, gate = {[n]} ∧ n ∈ ids ∧ (∀ y, ¬ control_edge n y) ∧ ∀ e, e ∈ edges → edge_target e = END → n ∉ (edge_gate e).*1.

Lemma end_gate gate : gate ∈ ct_gates_to_end control ↔ ∃ e, e ∈ edges ∧ edge_target e = END ∧ gate = list_to_set (edge_gate e).*1.
Proof using C.
  rewrite (co_end _ _ _ C), list_elem_of_fmap. setoid_rewrite gates_into_elem. split.
  - intros (raw & -> & e & ? & ? & ->). by exists e.
  - intros (e & ? & ? & ->). exists (edge_gate e). split; [done|]. by exists e.
Qed.

Lemma terminal_gates_spec successors :
  successors_of successors →
  ∃ gates, terminal_gates ids (ct_gates_to_end control) successors = Ok gates
    ∧ (∀ gate t, gate ∈ gates → t ∈ gate → t ∈ ids)
    ∧ (∀ n, n ∈ ids → (∀ y, ¬ control_edge n y) → gates ≠ [])
    ∧ ∀ gate, gate ∈ gates ↔ ends gate.
Proof using Hedges C.
  intros S. unfold terminal_gates.
  set (explicit := remove_dups (ct_gates_to_end control)).
  destruct (select_spec (λ n, (∀ y, ¬ control_edge n y) ∧ n ∉ ⋃ explicit) ids (λ node_id,
    next ← dict_get successors node_id;
    Ok (bool_decide (next = ∅) && negb (bool_decide (node_id ∈ ⋃ explicit))))) as (natural & -> & Hn).
  { intros n Hn. destruct (dict_get_dom successors n) as (ys & -> & Hys); [by apply S|]. cbn. eexists. split; [done|].
    rewrite andb_true_iff, negb_true_iff, bool_decide_eq_true, bool_decide_eq_false. apply and_iff_compat_r.
    setoid_rewrite <- (so_edge _ S). split.
    - intros -> y (zs & Hzs & Hy). rewrite Hys in Hzs. injection Hzs as <-. by apply elem_of_empty in Hy.
    - intros H. apply set_eq. intros y. rewrite elem_of_empty. split; [|done]. intros Hy. apply (H y). by exists ys. }
  cbn [mbind result_bind]. eexists. split; [done|]. unfold sorted_key.
  assert (∀ gate, gate ∈ explicit ++ (singleton <$> natural) ↔ gate ∈ ct_gates_to_end control ∨ ∃ n, gate = {[n]} ∧ n ∈ natural) as Hg.
  { intros gate. rewrite elem_of_app, list_elem_of_fmap. unfold explicit. by rewrite elem_of_remove_dups. }
  split_and!.
  - intros gate t. rewrite sort_by_perm, Hg. intros [H|(n & -> & Hnat)] Ht; [by eapply end_gates_in|].
    apply elem_of_singleton in Ht as ->. by apply Hn.
  - intros n Hin Hno Hnil. assert (∀ gate, gate ∉ explicit ++ (singleton <$> natural)) as Hnone.
    { intros gate Hgate. rewrite <- (sort_by_perm (λ x y, cmp_leb (sorted_elements x) (sorted_elements y))) in Hgate.
      rewrite Hnil in Hgate. by apply elem_of_nil in Hgate. }
    destruct (decide (n ∈ ⋃ explicit)) as [(gate & Hgate & Hin')%elem_of_union_list|Hout].
    + apply (Hnone gate), elem_of_app. by left.
    + apply (Hnone {[n]}), elem_of_app. right. apply (list_elem_of_fmap_2 singleton), Hn. done.
  - intros gate. rewrite sort_by_perm, Hg, end_gate. unfold ends. apply or_iff_compat_l. setoid_rewrite Hn.
    assert (∀ n, n ∉ ⋃ explicit ↔ ∀ e, e ∈ edges → edge_target e = END → n ∉ (edge_gate e).*1) as Hex;
      [|split; intros (m & -> & H); exists m; specialize (Hex m); tauto].
    intros n. unfold explicit. rewrite elem_of_union_list. setoid_rewrite elem_of_remove_dups. setoid_rewrite end_gate. split.
    + intros H e He Ht Hin. apply H. exists (list_to_set (edge_gate e).*1). split; [by exists e|]. by apply elem_of_list_to_set.
    + intros H (x & (e & He & Ht & ->) & Hin%elem_of_list_to_set). by eapply H.
Qed.

(** A graph in which every node goes on has a cycle. *)
Lemma endless_cycle successors n :
  successors_of successors → n ∈ ids → (∀ x, x ∈ ids → ∃ y, edge successors x y) → ∃ c, tc (edge successors) c c.
Proof using.
  intros S Hn Hnext.
  assert (∀ k, ∃ m, nsteps (edge successors) k n m ∧ m ∈ ids) as Hwalk.
  { induction k as [|k (m & Hk & Hm)]; [exists n; split; [apply nsteps_O|done]|].
    destruct (Hnext m Hm) as [y Hy]. exists y. split; [by eapply nsteps_r|]. apply S. by eapply (so_closed _ S). }
  destruct (Hwalk (Datatypes.S (size (dom successors)))) as (m & Hk & Hm).
  destruct (cycle_reachable_nodes_spec successors (so_closed _ S) ids) as (variable_nodes & _ & Hv); [intros x; symmetry; apply S|].
  destruct (decide (m ∈ variable_nodes)) as [(c & Hc & _)%Hv|Hno]; [by exists c|].
  destruct (ancestors successors _ n m Hk) as (xs & Hsize & Hsub & _); [by rewrite <- Hv|].
  apply subseteq_size in Hsub. lia.
Qed.

Lemma some_terminal_gate successors gates :
  successors_of successors → (∀ n, n ∈ ids → (∀ y, ¬ control_edge n y) → gates ≠ []) →
  (∀ n, ¬ trapped successors gates n) → gates ≠ [].
Proof using Hentries_in Hentries_ne.
  intros S Hnat Htrap ->.
  assert (∃ n, n ∈ entries) as [n Hn] by (clear -Hentries_ne; destruct entries as [|n rest]; [done|exists n; by left]).
  destruct (endless_cycle successors n S) as [c Hc]; [by apply Hentries_in| |].
  - intros x Hx. destruct (dict_get_dom successors x) as (ys & _ & Hys); [by apply S|].
    destruct (set_choose_or_empty ys) as [[y Hy]|Hem]; [exists y; by exists ys|]. exfalso. apply (Hnat x Hx); [|done].
    intros y (zs & Hzs & Hy)%(so_edge _ S). rewrite Hys in Hzs. injection Hzs as <-. set_solver.
  - apply (Htrap c). split; [done|]. by intros gate t ?%elem_of_nil.
Qed.

Lemma terminal_guarantees_spec (g : Guarantees) gates :
  gates ≠ [] → (∀ gate t, gate ∈ gates → t ∈ gate → t ∈ dom g) →
  ∃ terminal, terminal_guarantees g gates = Ok terminal
    ∧ ∀ y, y ∈ terminal ↔ ∀ gate, gate ∈ gates → ∃ x ys, x ∈ gate ∧ g !! x = Some ys ∧ y ∈ ys.
Proof using.
  intros Hne Hin. unfold terminal_guarantees.
  destruct (mapM_total (λ gate, gate_guarantee g (sorted_elements gate))
    (λ gate xs, ∀ y, y ∈ xs ↔ ∃ x ys, x ∈ gate ∧ g !! x = Some ys ∧ y ∈ ys) gates) as (alts & -> & Hf).
  { intros gate Hg. destruct (gate_guarantee_spec g (sorted_elements gate)) as (xs & -> & Hxs).
    - intros x Hx%sorted_elements_elem. by eapply Hin.
    - exists xs. split; [done|]. intros y. rewrite Hxs. by setoid_rewrite sorted_elements_elem. }
  cbn. destruct alts as [|alt alts]; [by apply Forall2_nil_inv_r in Hf|]. cbn. eexists. split; [done|]. intros y.
  change (y ∈ common_of (alt :: alts) ↔ ∀ gate, gate ∈ gates → ∃ x ys, x ∈ gate ∧ g !! x = Some ys ∧ y ∈ ys).
  rewrite common_of_spec. split.
  - intros [_ H] gate [i Hi]%list_elem_of_lookup. destruct (Forall2_lookup_l _ _ _ _ _ Hf Hi) as (xs & Hxs & Heq).
    apply Heq, H. by eapply list_elem_of_lookup_2.
  - intros H. split; [done|]. intros xs [i Hi]%list_elem_of_lookup.
    destruct (Forall2_lookup_r _ _ _ _ _ Hf Hi) as (gate & Hg & Heq). apply Heq, H. by eapply list_elem_of_lookup_2.
Qed.

(* ------------------------------------------------------------------ *)
(** ** Checks on data dependencies *)

Lemma check_data_order_vets successors :
  successors_of successors → vets (check_data_order data (ct_gates control) successors) (λ _, True).
Proof using C Hdata.
  intros S. unfold check_data_order. eapply vets_weaken; [|apply (vets_for _ _ (λ _, True))]; [done|].
  intros [t ds] Ht%items_elem. eapply vets_weaken; [|apply (vets_for _ _ (λ _, True))]; [done|]. intros d _.
  apply vets_bind_get; [apply C, Hdata, elem_of_dom; by exists ds|]. intros gates _. eapply (vets_bind _ _ (λ _, True)).
  - case_bool_decide; [done|]. destruct (can_reach_spec successors (so_closed _ S) t d) as (b & -> & _). done.
  - intros b _ _. by vet_guard.
Qed.

Lemma check_producers_vets (g : Guarantees) :
  (∀ n, n ∈ dom g ↔ n ∈ ids) →
  vets (check_producers data g) (λ _, ∀ n ds xs, data !! n = Some ds → g !! n = Some xs → ds ⊆ xs).
Proof using Hdata.
  intros Hg. unfold check_producers. eapply vets_weaken; [|apply (vets_for _ _ (λ '(n, ds), ∀ xs, g !! n = Some xs → ds ⊆ xs))].
  - intros u H n ds xs Hn. by apply (H (n, ds)), items_elem.
  - intros [n ds] Hn%items_elem. apply vets_bind_get; [apply Hg, Hdata, elem_of_dom; by exists ds|]. intros xs Hxs. vet_guard.
    rewrite negb_false_iff, bool_decide_eq_true. intros Hsub xs' Hxs'. by simplify_eq.
Qed.

(* ------------------------------------------------------------------ *)
(** ** Joins and the topology of the completion proof *)

Lemma join_edge_sources sources target :
  (sources, target) ∈ joins_of edges → sources_ok sources target ∧ target_valid ids target.
Proof using Hedges Hnames.
  intros (declared & He%edge_is_valid & ->)%joins_of_elem. destruct He as (Hm & Hnd & Hs & Ht & Ha). split; [|done].
  apply sorted_sources_ok; [done|done| | |done].
  - intros s Hin. by apply Hnames, Hs.
  - destruct Ht as [->|Ht]; [by vm_compute|by apply Hnames].
Qed.

Definition plan_for_join (join : list str * str) (plan : CompiledJoin) : Prop :=
  cj_identity plan = mkJoin join.1 join.2 ∧ offsets_ok join.1 (cj_source_target_offsets plan).

Lemma compile_plans_vets successors proofs levels :
  successors_of successors →
  vets (compile_join_occurrence_plans (ct_joins control) entries (ct_gates control) successors proofs
    (ct_conditional control) levels) (λ plans, Forall2 plan_for_join (joins_of edges) plans).
Proof using Hedges C Hnames Hentries_in.
  intros S. unfold compile_join_occurrence_plans.
  destruct (repeatable_nodes_spec entries (ct_gates control) successors) as (repeatable & -> & _).
  { apply S. } { intros n Hn. by apply C, Hentries_in. }
  cbn [mbind result_bind]. rewrite (co_joins _ _ _ C). apply vets_mapM. intros [sources target] Hj.
  apply compile_join_vets; [by apply join_edge_sources|]. intros s Hs.
  split; [apply (co_gates_dom _ _ _ C)|apply (co_conditional_dom _ _ _ C)]; by eapply join_sources_valid.
Qed.

Lemma plan_elem plans plan :
  Forall2 plan_for_join (joins_of edges) plans → plan ∈ plans →
  ∃ sources target, (sources, target) ∈ joins_of edges ∧ plan_for_join (sources, target) plan.
Proof using.
  intros Hf [i Hi]%list_elem_of_lookup. destruct (Forall2_lookup_r _ _ _ _ _ Hf Hi) as ([sources target] & Hj & Hp).
  exists sources, target. split; [by eapply list_elem_of_lookup_2|done].
Qed.

Lemma strict_NoDup (sources : list str) : strictly_sorted (λ s : str, s) sources → NoDup sources.
Proof using. apply strictly_sorted_NoDup. Qed.

Lemma index_plans plans :
  Forall2 plan_for_join (joins_of edges) plans →
  ∃ by_source by_target, index_joins ids plans = Ok (by_source, by_target) ∧ indexed ids plans by_source by_target.
Proof using Hedges Hnames.
  intros Hf. apply index_joins_spec; [intros He; by apply Hnames in He as [_ ?]|]. intros plan Hp.
  destruct (plan_elem plans plan Hf Hp) as (sources & target & Hj & -> & _).
  destruct (join_edge_sources sources target Hj) as [Hok Ht]. cbn. split_and!; [apply strict_NoDup, Hok| |done].
  intros s Hs. by eapply join_sources_valid.
Qed.

Lemma topology_of plans by_source by_target :
  Forall2 plan_for_join (joins_of edges) plans → indexed ids plans by_source by_target →
  topology (list_to_set ids) options (ct_direct control) (ct_conditional control) by_source.
Proof using Hedges C Hnames Hroutes Hoptions Hoptions_of.
  intros Hf I. assert (∀ (A : Type) (m : gmap str A), (∀ n, n ∈ dom m ↔ n ∈ ids) → dom m = list_to_set ids) as Hdom.
  { intros A m Hm. apply set_eq. intros n. by rewrite Hm, elem_of_list_to_set. }
  assert (∀ (A : Type) (m : gmap str A) n v, (∀ n, n ∈ dom m ↔ n ∈ ids) → m !! n = Some v → n ∈ ids) as Hin.
  { intros A m n v Hm Hn. apply Hm, elem_of_dom. by exists v. }
  assert (∀ n cts, ct_conditional control !! n = Some cts → n ∈ ids ∧ cts = conditionals_of n edges) as Hcond.
  { intros n cts Hn. pose proof (Hin _ _ n cts (co_conditional_dom _ _ _ C) Hn) as Hid. split; [done|].
    rewrite (co_conditional _ _ _ C n Hid) in Hn. by injection Hn as <-. }
  split.
  - by apply Hdom.
  - apply Hdom, C.
  - apply Hdom, C.
  - intros x ys Hx y Hy. pose proof (Hin _ _ x ys (co_direct_dom _ _ _ C) Hx) as Hid.
    rewrite (co_direct _ _ _ C x Hid) in Hx. injection Hx as <-. apply elem_of_list_to_set, directs_of_elem in Hy as [He Ht].
    apply elem_of_list_to_set. by apply (edge_target_valid _ He).
  - intros x cts route y Hx Hy Hne. apply Hcond in Hx as [_ ->]. apply conditionals_of_elem in Hy.
    apply elem_of_list_to_set. by apply (edge_target_valid _ Hy).
  - intros x cts Hx. apply Hcond in Hx as [_ ->]. by apply conditionals_of_nodup.
  - intros x rs Hx. by apply (oo_nodup edges x), Hoptions_of.
  - intros x cts Hx Hne. apply Hcond in Hx as [Hid ->]. apply Hoptions, elem_of_dom in Hid as [rs Hrs].
    rewrite Hrs. f_equal. by apply (oo_conditional edges x rs (Hoptions_of x rs Hrs)).
  - intros x js j Hx Hj. pose proof (Hin _ _ x js (in_source_dom _ _ _ _ I) Hx) as Hid.
    rewrite (in_source _ _ _ _ I x Hid) in Hx. injection Hx as <-. apply list_elem_of_filter in Hj as [_ Hj].
    destruct (plan_elem plans j Hf Hj) as (sources & target & Hjoin & Hident & Hkeys & Hpos).
    destruct (join_edge_sources sources target Hjoin) as [Hok Ht]. unfold sources_of, target_of. rewrite Hident. cbn.
    split_and!.
    + intros s Hs. apply elem_of_list_to_set. by eapply join_sources_valid.
    + intros Hne. apply elem_of_list_to_set. by destruct Ht.
    + apply strict_NoDup, Hok.
    + intros ->. destruct Hok as [Hm _ _ _ _]. cbn in Hm. lia.
    + done.
    + done.
Qed.

(* ------------------------------------------------------------------ *)
(** ** All analyses *)

(** A node that control can reach from the entries. *)
Inductive reaches : str → Prop :=
| reaches_entry n : n ∈ entries → reaches n
| reaches_edge x y : reaches x → static_edge x y → reaches y
| reaches_join sources target :
    JoinEdge sources target ∈ edges → target ≠ END → (∀ x, x ∈ sources → reaches x) → reaches target.

Lemma controlled_reaches static n :
  (∀ x y, edge static x y ↔ static_edge x y) → controlled static entries (joins_of edges) n → reaches n.
Proof using.
  intros He. induction 1 as [n Hn|x y _ IH Hxy|sources target (declared & Hj & ->)%joins_of_elem Ht _ IH].
  - by apply reaches_entry.
  - eapply reaches_edge; [done|by apply He].
  - apply (reaches_join declared); [done|done|]. intros x Hx. by apply IH, sorted_elem.
Qed.

(** What an accepted definition satisfies. *)
Record analysed (plan : ControlPlan) (successors : Successors) (plans : list CompiledJoin) (nodes : list str) : Prop := {
  an_entries : pl_entries plan = entries;
  an_control : pl_control plan = control;
  an_options : pl_route_options plan = options;
  an_successors : successors_of successors;
  an_reaches : ∀ n, n ∈ ids → reaches n;
  (** a producer runs before each activation of its consumer *)
  an_producers : ∀ n ds d past, data !! n = Some ds → d ∈ ds → happened entries (ct_gates control) n past → d ∈ past;
  (** a cycle can always be left towards a terminal gate *)
  an_exits : ∀ n, ¬ trapped successors (pl_terminal_gates plan) n;
  an_gates : pl_terminal_gates plan ≠ [];
  an_ends : ∀ gate, gate ∈ pl_terminal_gates plan ↔ ends gate;
  (** what a graph output may read has run when any terminal gate fires *)
  an_terminal : ∀ y gate, y ∈ pl_terminal_guarantees plan → gate ∈ pl_terminal_gates plan →
    ∃ t, t ∈ gate ∧ ∀ past, happened entries (ct_gates control) t past → y ∈ past;
  an_levels : ∀ n l, pl_absolute_levels plan !! n = Some l ↔
    n ∈ ids ∧ ¬ variable_node successors n ∧ ∃ k, l = Z.of_nat k ∧ ∀ k', depth successors entries n k' ↔ k' = k;
  an_plans : Forall2 plan_for_join (joins_of edges) plans;
  an_agree : Forall2 (λ join plan, plan_good entries (ct_gates control) data (ct_conditional control) successors join.1 join.2 plan)
    (joins_of edges) plans;
  an_index : indexed ids plans (pl_joins_by_source plan) (pl_joins_by_target plan);
  an_nodes : ∀ n, n ∈ nodes ↔ n ∈ ids;
  an_collision : ¬ collision nodes entries options (ct_direct control) (ct_conditional control) (unique_joins (pl_joins_by_source plan));
  an_conflict : ¬ conflict nodes entries options (ct_direct control) (ct_conditional control) (unique_joins (pl_joins_by_source plan));
  an_completion : ∀ route, route ∈ pl_completion_routes plan ↔
    completion nodes entries options (ct_direct control) (ct_conditional control) (unique_joins (pl_joins_by_source plan)) route
}.

Lemma analyse_control_vets :
  vets (analyse_control ids entries control options data) (λ plan, ∃ successors plans nodes, analysed plan successors plans nodes).
Proof using Hedges C Hnames Hroutes Hentries Hentries_in Hentries_ne Hdata Hdata_in Hoptions Hoptions_of.
  unfold analyse_control. destruct static_successors_spec as (static & -> & Hsd & Hse). cbn [mbind result_bind].
  destruct (reachable_nodes_spec static) with (entries := entries) (joins := ct_joins control) as (reached & -> & Hreached).
  { intros x y [Hy H]%Hse. apply Hsd. destruct H as [H|[r H]]; by apply (edge_target_valid _ H). }
  { intros n Hn. by apply Hsd, Hentries_in. }
  { rewrite (co_joins _ _ _ C). intros sources target Hj Hne. apply Hsd. by destruct (proj2 (join_edge_sources _ _ Hj)). }
  cbn [mbind result_bind]. vet_guard. rewrite negb_false_iff, bool_decide_eq_true. intros Hall.
  destruct (full_successors_spec static Hsd Hse) as (successors & -> & S). cbn [mbind result_bind].
  destruct (terminal_gates_spec successors S) as (gates & -> & Hgin & Hgnat & Hends). cbn [mbind result_bind].
  eapply vets_bind; [by apply check_data_order_vets|]. intros u1 _ _. pose proof (tables_of successors S) as T.
  destruct (joint_paths_spec _ _ _ _ _ _ T) as [(proofs & Hproofs & _)|(n & _ & -> & _)]; [|done].
  rewrite Hproofs. cbn [mbind result_bind].
  destruct (guaranteed_sets_spec ids entries (ct_gates control)) as (g & -> & Hgd & _ & Hsound).
  { intros n. apply C. }
  { intros n gs gate x route Hn Hgate Hx. apply (so_dom _ S). destruct (tab_gate_edge _ _ _ _ _ _ T n gs gate x route Hn Hgate Hx) as [He _].
    by eapply edge_dom. }
  cbn [mbind result_bind]. eapply vets_bind; [by apply check_producers_vets|]. intros u2 _ Hprod. cbv beta in Hprod.
  destruct (cycle_exits_spec ids successors gates (so_closed _ S)) as (_ & [[-> Htrap]|[[message ->] _]]);
    [intros n; symmetry; apply S| |done].
  cbn [mbind result_bind]. assert (gates ≠ []) as Hgne by by apply (some_terminal_gate successors).
  destruct (terminal_guarantees_spec g gates Hgne) as (terminal & -> & Hterm); [intros gate t Hgate Ht; by eapply Hgd, Hgin|].
  cbn [mbind result_bind].
  destruct (absolute_activation_levels_spec successors ids entries) as (levels & Hlev & Hlevels);
    [apply S|intros n; symmetry; apply S|done|].
  rewrite Hlev. cbn [mbind result_bind]. eapply vets_bind; [by apply compile_plans_vets|]. intros plans Hplans Hf. cbv beta in Hf.
  destruct (index_plans plans Hf) as (by_source & by_target & -> & I). cbn [mbind result_bind].
  destruct (prove_completion_routes_spec _ entries _ _ _ _ (topology_of plans by_source by_target Hf I)) as (nodes & _ & Hnodes & H).
  destruct (prove_completion_routes entries options (ct_direct control) (ct_conditional control) by_source) as [routes|e] eqn:E.
  2: { cbn. cbv zeta in H. destruct H as [-> _]. done. }
  cbv zeta in H. destruct H as [Hok Hroutes']. cbn. exists successors, plans, nodes. split; cbn; try done.
  - intros n Hn. eapply controlled_reaches; [done|]. rewrite <- (co_joins _ _ _ C). apply Hreached, Hall. by apply elem_of_list_to_set.
  - intros n ds d past Hn Hd Hhap. assert (n ∈ dom g) as [xs Hxs]%elem_of_dom by (apply Hgd, Hdata, elem_of_dom; by exists ds).
    apply (Hsound n xs past Hxs Hhap). by apply (Hprod n ds xs).
  - intros y gate Hy Hgate. destruct (proj1 (Hterm y) Hy gate Hgate) as (t & ys & Ht & Hys & Hin). exists t. split; [done|].
    intros past Hhap. by apply (Hsound t ys past Hys Hhap).
  - apply (join_plans_agree ids entries (ct_gates control) data (ct_conditional control) successors (joins_of edges) proofs levels plans T);
      [|done|done|by rewrite <- (co_joins _ _ _ C)]. intros sources target s Hj Hs. by eapply join_sources_valid.
  - intros n. by rewrite Hnodes, elem_of_list_to_set.
  - tauto.
  - tauto.
Qed.
End analysis.
