(* ===== verification/CompilerProofs.v ===== *)
(** * One compiled definition

    [_compile_definition] on a valid definition either returns a graph that carries what
    the analyses established, or rejects the definition with a validation error. *)

From Stdlib Require Import ZArith NArith Lia Bool String.
From stdpp Require Import prelude strings gmap sorting.
From S2P Require Import Prelude Identity Bdd Topology GraphDefinition ControlGraph ControlGraphProofs LevelProofs JoinPlans RouteProofs JointProofs Bindings DefinitionProofs FrontierRelation Compiler ControlTopologyProofs FrontierSystem FrontierAlloc BindingProofs AnalysisProofs.

Set Default Goal Selector "!".
Open Scope nat_scope.

(* ------------------------------------------------------------------ *)
(** ** Publication coordinates *)

(** The superstep a consumer reads a producer's output from is determined: the producer
    has one level, or it is the only source of each gate, or the source of the only Join. *)
Definition coordinate (edges : list Edge) (levels : gmap str Z) (plans : list CompiledJoin) (consumer producer : str)
    (selection : PublicationSelection) : Prop :=
  (selection = mkSelection ABSOLUTE (sel_superstep selection) ∧ levels !! producer = Some (sel_superstep selection))
  ∨ (selection = mkSelection RELATIVE 1 ∧ gates_into consumer edges ≠ []
     ∧ ∀ gate, gate ∈ gates_into consumer edges → ∃ route, gate = [(producer, route)])
  ∨ ∃ plan, plans_into consumer plans = [plan] ∧ length (gates_into consumer edges) = 1
     ∧ producer ∈ sources_of plan ∧ selection = mkSelection RELATIVE (offset_of plan producer).

(** The superstep a graph output reads its source from: the source has one level, or the
    graph ends exactly when the source does. *)
Definition final_coordinate (levels : gmap str Z) (gates : list (gset str)) (producer : str) (selection : PublicationSelection) : Prop :=
  (selection = mkSelection ABSOLUTE (sel_superstep selection) ∧ levels !! producer = Some (sel_superstep selection))
  ∨ (selection = mkSelection RELATIVE 0 ∧ gates ≠ [] ∧ ∀ gate, gate ∈ gates → gate = {[producer]}).

Lemma all_single_source_gates_spec producer gates :
  all_single_source_gates producer gates = true ↔ gates ≠ [] ∧ ∀ gate, gate ∈ gates → ∃ route, gate = [(producer, route)].
Proof.
  unfold all_single_source_gates. rewrite andb_true_iff, negb_true_iff, is_nil_false, forallb_forall.
  setoid_rewrite <- list_elem_of_In. apply and_iff_compat_l. split; intros H gate Hg.
  - specialize (H gate Hg). destruct gate as [|[s route] [|? ?]]; try done. apply bool_decide_eq_true in H as ->. by exists route.
  - destruct (H gate Hg) as [route ->]. by apply bool_decide_eq_true.
Qed.

(* ------------------------------------------------------------------ *)
(** ** Maps *)

Lemma map_get_elem {A} (m : FrozenMap A) k v : NoDup m.*1 → (k, v) ∈ m → map_get m k = Ok v.
Proof.
  induction m as [|[k' v'] m IH]; cbn; [by intros _ ?%elem_of_nil|]. intros [Hk Hnd]%NoDup_cons [[= <- <-]|Hin]%elem_of_cons.
  - by rewrite bool_decide_true.
  - rewrite bool_decide_false; [by apply IH|]. intros ->. apply Hk. by apply (list_elem_of_fmap_2 fst _ (k, v)).
Qed.

Lemma map_get_In {A} (m : FrozenMap A) k v : map_get m k = Ok v → (k, v) ∈ m.
Proof.
  induction m as [|[k' v'] m IH]; cbn; [done|]. case_bool_decide as Hk; [intros [= ->]; subst; by left|]. intros ?%IH. by right.
Qed.

Lemma frozen_keys {A} (xs : list (str * A)) : (frozen_map xs).*1 ≡ₚ xs.*1.
Proof. unfold frozen_map, sorted_key. by rewrite sort_by_perm. Qed.

Lemma frozen_get {A} (xs : list (str * A)) k v : NoDup xs.*1 → (k, v) ∈ xs → map_get (frozen_map xs) k = Ok v.
Proof.
  intros Hnd Hin. apply map_get_elem; [by rewrite frozen_keys|]. unfold frozen_map, sorted_key. by rewrite sort_by_perm.
Qed.

Lemma items_NoDup {A} (d : gmap str A) : NoDup (items d).*1.
Proof. unfold items, sorted_key. rewrite sort_by_perm. apply NoDup_fst_map_to_list. Qed.

Lemma frozen_items {A B} (f : A → B) (d : gmap str A) k v :
  d !! k = Some v → map_get (frozen_map ((λ '(k, v), (k, f v)) <$> items d)) k = Ok (f v).
Proof.
  intros Hk. apply frozen_get.
  - rewrite <- list_fmap_compose. assert (fst ∘ (λ '(k, v), (k, f v)) <$> items d = (items d).*1) as ->; [|apply items_NoDup].
    apply list_fmap_ext. by intros _ [a b] _.
  - apply list_elem_of_fmap. exists (k, v). split; [done|by apply items_elem].
Qed.

Lemma dict_set_all {A} (xs : list (str * A)) d :
  NoDup (d ++ xs).*1 → fold_left (λ d '(k, v), dict_set k v d) xs d = d ++ xs.
Proof.
  revert d. induction xs as [|[k v] xs IH]; intros d Hnd; cbn; [by rewrite app_nil_r|].
  rewrite cons_middle, app_assoc in Hnd |- *. rewrite dict_set_fresh; [by apply IH|].
  rewrite <- app_assoc, fmap_app in Hnd. apply NoDup_app in Hnd as (_ & Hd & _). intros Hk. apply (Hd k Hk). by left.
Qed.

(* ------------------------------------------------------------------ *)
(** ** Nodes *)

Section nodes.
Context {V : Type}.
Implicit Types (node : NodeDefinition V).

(** The places of two resources in the order of the graph. *)
Definition ordered_by (order : list str) (first second : str) : Prop :=
  ∃ p q, order !! p = Some first ∧ order !! q = Some second ∧ p ≤ q.

(** A node asks for its resources in the order of the graph. *)
Definition canonical_of (order : list str) node node' : Prop :=
  match node with
  | NestedGraphNode _ _ _ => node' = node
  | CallableNode node_id inputs outputs resources routes => ∃ resources',
      node' = CallableNode node_id inputs outputs resources' routes ∧ resources' ≡ₚ resources
      ∧ StronglySorted (ordered_by order) resources'
  end.

Lemma position_of_vets order r : r ∈ order → vets (position_of order r) (λ p, order !! p = Some r).
Proof.
  intros Hr. unfold position_of. destruct (list_find_elem_of (λ candidate, candidate = r) order r Hr eq_refl) as [[p x] Hf].
  rewrite Hf. apply list_find_Some in Hf as (Hp & -> & _). done.
Qed.

Lemma canonical_node_vets order node :
  (∀ i inputs outputs rs routes, node = CallableNode i inputs outputs rs routes → rs ⊆ order) →
  vets (canonical_node order node) (canonical_of order node).
Proof.
  intros Hsub. destruct node as [i inputs outputs rs routes|i g inputs]; [|done]. cbn [canonical_node]. eapply vets_bind.
  - apply (vets_mapM _ (λ r out, out.2 = r ∧ order !! out.1 = Some r)). intros r Hr. eapply vets_bind; [by eapply position_of_vets, Hsub|].
    by intros p _ Hp.
  - intros keyed _ Hf. cbv beta in Hf. assert (keyed.*2 = rs) as Hrs.
    { clear -Hf. induction Hf as [|x y xs ys [H _] _ IH]; cbn; [done|]. by rewrite H, IH. }
    assert (∀ out, out ∈ keyed → order !! out.1 = Some out.2) as Hpos.
    { intros out [k Hk]%list_elem_of_lookup. destruct (Forall2_lookup_r _ _ _ _ _ Hf Hk) as (r & _ & <- & H). done. }
    cbn. eexists. split_and!; [done|unfold sorted_key; by rewrite sort_by_perm, Hrs|].
    assert (∀ out, out ∈ sorted_key fst keyed → order !! out.1 = Some out.2) as Hall.
    { intros o Ho. unfold sorted_key in Ho. rewrite sort_by_perm in Ho. by apply Hpos. }
    pose proof (sorted_key_weak fst keyed) as Hw. unfold weakly_sorted in Hw. revert Hw Hall.
    generalize (sorted_key fst keyed) as outs. clear.
    induction 1 as [|o outs _ IH Ho]; intros Hall; cbn; constructor; [apply IH; intros; apply Hall; by right|].
    rewrite Forall_fmap. rewrite Forall_forall in Ho |- *. intros o' Ho'. exists o.1, o'.1. split_and!; [apply Hall; by left|apply Hall; by right|].
    specialize (Ho o' Ho'). apply cmp_leb_spec in Ho as [Ho|Ho]; [|lia]. by apply Nat.compare_lt_iff, Nat.lt_le_incl in Ho.
Qed.
End nodes.

Section definition.
Context (ids : list str) (edges : list Edge) (control : ControlTopology) (plans : list CompiledJoin).
Context (C : control_of ids edges control) (levels : gmap str Z).
Context (by_source by_target : gmap str (list CompiledJoin)) (I : indexed ids plans by_source by_target).
Context (Hplans : ∀ plan, plan ∈ plans → join_ok plan).

Lemma input_publication_vets port n :
  n ∈ ids → vets (input_publication_selection port n levels (ct_gates control) by_target)
    (coordinate edges levels plans n (no_node_id port)).
Proof using C I Hplans.
  intros Hn. unfold input_publication_selection. destruct (levels !! no_node_id port) as [l|] eqn:El; [by left|].
  apply vets_bind_get; [by apply (co_gates_dom _ _ _ C)|]. intros gates Hg. rewrite (co_gates _ _ _ C n Hn) in Hg. injection Hg as <-.
  destruct (all_single_source_gates _ _) eqn:Es; [by apply all_single_source_gates_spec in Es; right; left|].
  apply vets_bind_get; [by apply (in_target_dom _ _ _ _ I)|]. intros joins Hj. rewrite (in_target _ _ _ _ I n Hn) in Hj. injection Hj as <-.
  cbv zeta. destruct (plans_into n plans) as [|plan [|? ?]] eqn:Ep; [done| |done].
  destruct (_ && _) eqn:Ec; [|done]. apply andb_true_iff in Ec as [E1%Nat.eqb_eq E2%mem_spec].
  assert (plan ∈ plans) as Hin by (apply (list_elem_of_filter (λ plan, join_target (cj_identity plan) = n)); fold (plans_into n plans); rewrite Ep; by left).
  destruct (offset_of_spec plan (Hplans plan Hin) (no_node_id port) E2) as [-> _]. cbn. right. right. exists plan. done.
Qed.

Lemma output_publication_vets port gates :
  vets (output_publication_selection port levels gates) (final_coordinate levels gates (no_node_id port)).
Proof using.
  unfold output_publication_selection. destruct (levels !! no_node_id port) as [l|] eqn:El; [by left|].
  destruct (_ && _) eqn:E; [|done]. apply andb_true_iff in E as [H1%negb_true_iff H2]. rewrite is_nil_false in H1.
  rewrite forallb_forall in H2. right. split_and!; [done..|]. intros gate Hg. apply list_elem_of_In, H2 in Hg. by apply bool_decide_eq_true in Hg.
Qed.

Lemma gate_member_valid n gs (gate : RawGate) s route :
  Forall (edge_valid ids) edges → ct_gates control !! n = Some gs → gate ∈ gs → (s, route) ∈ gate → s ∈ ids.
Proof using C.
  intros Hedges Hgs Hg Hs. assert (n ∈ ids) as Hn by (apply (co_gates_dom _ _ _ C), elem_of_dom; by exists gs).
  rewrite (co_gates _ _ _ C n Hn) in Hgs. injection Hgs as <-. apply gates_into_elem in Hg as (e & He & _ & ->).
  eapply gate_source_valid; [done|done|]. by apply (list_elem_of_fmap_2 fst _ (s, route)).
Qed.

Lemma compiled_gates_vets :
  Forall (edge_valid ids) edges → vets (compiled_gates control) (λ _, True).
Proof using C.
  intros Hedges. unfold compiled_gates. eapply (vets_bind _ _ (λ _, True)); [|done].
  eapply vets_weaken; [|apply (vets_mapM _ (λ _ _, True))]; [done|]. intros [n gates] Hn%items_elem.
  eapply (vets_bind _ _ (λ _, True)); [|done]. eapply vets_weaken; [|apply (vets_mapM _ (λ _ _, True))]; [done|]. intros gate Hg.
  unfold compiled_activation_gate. eapply vets_weaken; [|apply (vets_mapM _ (λ _ _, True))]; [done|]. intros [s route] Hs.
  unfold sorted_key in Hs. rewrite sort_by_perm in Hs. apply vets_bind_get; [|done]. apply (co_conditional_dom _ _ _ C).
  by eapply gate_member_valid.
Qed.

Section values.
Context {V : Type} `{EqDecision V}.
Context (outputs : gmap str (list (OutputDeclaration V))) (Houtputs : ∀ n, n ∈ dom outputs ↔ n ∈ ids).

Lemma compile_output_vets graph_inputs terminal gates (output : GraphOutputDeclaration V) :
  vets (compile_output graph_inputs outputs terminal levels gates output) (λ out,
    gob_destination out = mkGraphOutput (gd_boundary_name output) ∧ ∀ port, gob_source out = FromNodeOutput port →
      no_node_id port ∈ terminal ∧ ∃ selection, gob_publication out = Some selection
        ∧ final_coordinate levels gates (no_node_id port) selection).
Proof using Houtputs.
  unfold compile_output. eapply vets_bind; [by apply (resolve_source_vets ids)|]. intros [source descriptor] _ _.
  destruct source as [port|port].
  - cbn. by split.
  - eapply (vets_bind _ _ (λ out, no_node_id port ∈ terminal ∧ ∃ selection, out = Some selection
        ∧ final_coordinate levels gates (no_node_id port) selection)).
    + vet_guard. rewrite negb_false_iff, bool_decide_eq_true. intros Ht. eapply vets_bind; [apply output_publication_vets|].
      intros selection _ Hs. split; [done|]. by exists selection.
    + intros publication _ H. cbn. split; [done|]. by intros port' [= <-].
Qed.

(** The bindings of a node after publication coordinates were chosen. *)
Definition published (n : str) (before after : ResolvedInputBinding V) : Prop :=
  rib_destination after = rib_destination before ∧ rib_source after = rib_source before
  ∧ rib_descriptor after = rib_descriptor before
  ∧ ∀ port, rib_source after = ResolvedValue (FromNodeOutput port) → ∃ selection, rib_publication after = Some selection
      ∧ coordinate edges levels plans n (no_node_id port) selection.

Lemma publish_binding_vets n binding :
  n ∈ ids → vets (publish_binding n levels (ct_gates control) by_target binding) (published n binding).
Proof using C I Hplans.
  intros Hn. unfold publish_binding. destruct binding as [destination [[port|port]|input] descriptor publication]; cbn.
  - done.
  - eapply (vets_bind _ _ (λ out, ∃ selection, out = Some selection ∧ coordinate edges levels plans n (no_node_id port) selection)).
    + eapply vets_bind; [by apply input_publication_vets|]. intros selection _ Hs. by exists selection.
    + intros selection _ Hs. cbn. split_and!; [done..|]. intros port' [= <-]. exact Hs.
  - done.
Qed.
End values.
End definition.

(* ------------------------------------------------------------------ *)
(** ** [_compile_definition] *)

Section compiled.
Context {V W : Type} `{EqDecision V} `{EqDecision W} (value_type : V → W).
Implicit Types (d : GraphDefinition V) (g : CompiledGraph V) (nested : list (str * CompiledGraph V)).

Definition ids_of d : list str := sorted (node_id <$> definition_nodes d).

(** A binding that reads a node's output: the producer is a recorded dependency and the
    superstep it is read from is determined. *)
Definition determined d (levels : gmap str Z) (plans : list CompiledJoin) (data : Successors) (n : str)
    (binding : ResolvedInputBinding V) : Prop :=
  ∀ port, rib_source binding = ResolvedValue (FromNodeOutput port) →
    (∃ ds, data !! n = Some ds ∧ no_node_id port ∈ ds)
    ∧ ∃ selection, rib_publication binding = Some selection
        ∧ coordinate (definition_edges d) levels plans n (no_node_id port) selection.

(** How the compiled graph reflects its definition and the analyses. *)
Record built d nested g (control : ControlTopology) (data : Successors) (options : RouteOptions) (plan : ControlPlan)
    (successors : Successors) (plans : list CompiledJoin) (nodes : list str) : Prop := {
  bl_identity : cg_definition_id g = definition_id d ∧ cg_version g = definition_version d ∧ nested_graphs g = frozen_map nested;
  bl_resources : resource_order (transition g) = definition_resources d;
  bl_nodes : ∃ canonical, Forall2 (canonical_of (definition_resources d)) (definition_nodes d) canonical
    ∧ cg_nodes g = frozen_map ((λ node, (node_id node, compiled_node node)) <$> canonical);
  bl_ids : NoDup (ids_of d);
  bl_edges : Forall (edge_valid (ids_of d)) (definition_edges d);
  bl_control : control_of (ids_of d) (definition_edges d) control;
  bl_entries : ∀ n, n ∈ tp_entries (transition g) ↔
    n ∈ definition_entries d ∨ (n ∈ ids_of d ∧ gates_into n (definition_edges d) = []);
  bl_analysed : analysed (ids_of d) (definition_edges d) control (tp_entries (transition g)) data options plan successors plans nodes;
  bl_acyclic : ¬ ∃ c, tc (edge data) c c;
  bl_inputs : ∀ n, n ∈ ids_of d → ∃ inputs, map_get (materializations (transition g)) n = Ok inputs
    ∧ ∀ binding, binding ∈ mp_bindings inputs → determined d (pl_absolute_levels plan) plans data n binding;
  bl_outputs : ∀ output port, output ∈ graph_outputs (transition g) → gob_source output = FromNodeOutput port →
    no_node_id port ∈ pl_terminal_guarantees plan ∧ ∃ selection, gob_publication output = Some selection
      ∧ final_coordinate (pl_absolute_levels plan) (pl_terminal_gates plan) (no_node_id port) selection;
  bl_direct : direct_targets (transition g) =
    frozen_map ((λ '(n, targets), (n, sorted_elements targets)) <$> items (ct_direct control));
  bl_conditional : conditional_targets (transition g) =
    frozen_map ((λ '(n, routes), (n, frozen_map routes)) <$> items (ct_conditional control));
  bl_options : Topology.route_options (transition g) = frozen_map (items options);
  bl_joins : joins_by_source (transition g) =
    frozen_map ((λ '(n, joins), (n, sorted_key (λ join, (join_target (cj_identity join), join_sources (cj_identity join))) joins))
                  <$> items (pl_joins_by_source plan));
  bl_completion : completion_routes g = pl_completion_routes plan
}.

Definition sound_graph d nested g : Prop :=
  ∃ control data options plan successors plans nodes, built d nested g control data options plan successors plans nodes.

Lemma edge_valid_sorted d : Forall (edge_valid (node_id <$> definition_nodes d)) (definition_edges d) →
  Forall (edge_valid (ids_of d)) (definition_edges d).
Proof.
  intros Hv. eapply Forall_impl; [exact Hv|]. intros [s t|s r t|ss t]; cbn; unfold target_valid, ids_of; rewrite ?sorted_elem; [done|done|].
  intros (?&?&Hs&?&?). split_and!; try done. intros x Hx. apply sorted_elem. by apply Hs.
Qed.

Lemma canonical_ids order (nodes nodes' : list (NodeDefinition V)) :
  Forall2 (canonical_of order) nodes nodes' → node_id <$> nodes' = node_id <$> nodes.
Proof.
  induction 1 as [|node node' nodes nodes' Hc _ IH]; cbn; [done|]. rewrite IH. f_equal.
  destruct node; cbn in Hc; [|by subst]. by destruct Hc as (? & -> & _).
Qed.

Lemma collect_graph_inputs_vets d : vets (collect_graph_inputs value_type d) (λ _, True).
Proof.
  unfold collect_graph_inputs. eapply (vets_bind _ _ (λ _, True)); [|done]. apply (vets_state (λ _ _, True)); [|done].
  intros dn [name descriptor] rest st _ _. by vet_guard.
Qed.

Lemma frame_descriptor_vets d kind ordinal declarations : vets (frame_descriptor d kind ordinal declarations) (λ _, True).
Proof. unfold frame_descriptor, FrameDescriptorIdentity_new. eapply (vets_bind _ _ (λ _, True)); [by vet_guard|done]. Qed.

(** The canonical nodes, keyed by their ids. *)
Lemma canonical_nodes_vets d :
  valid_definition d →
  vets (mapM (λ node, node ← canonical_node (definition_resources d) node; Ok (node_id node, node)) (definition_nodes d)) (λ keyed,
    ∃ canonical, keyed = (λ node, (node_id node, node)) <$> canonical
      ∧ Forall2 (canonical_of (definition_resources d)) (definition_nodes d) canonical).
Proof.
  intros Hv. eapply vets_weaken; [|apply (vets_mapM _ (λ node out, out.1 = node_id out.2 ∧ canonical_of (definition_resources d) node out.2))].
  - intros keyed Hf. exists keyed.*2. split.
    + clear -Hf. induction Hf as [|node [n node'] nodes keyed [Hn _] _ IH]; cbn in *; [done|]. by rewrite <- IH, Hn.
    + apply Forall2_fmap_r. eapply Forall2_impl; [exact Hf|]. by intros ? ? [_ ?].
  - intros node Hin. eapply vets_bind; [apply canonical_node_vets|].
    + intros i inputs outputs rs routes ->. by eapply (vd_required _ Hv).
    + by intros node' _ H.
Qed.

Lemma compile_nodes_vets d (control : ControlTopology) (levels : gmap str Z) (plans : list CompiledJoin)
    (by_source by_target : JoinsBySource) (data : Successors)
    (outputs : gmap str (list (OutputDeclaration V))) (bindings : gmap str (list (ResolvedInputBinding V))) :
  control_of (ids_of d) (definition_edges d) control → indexed (ids_of d) plans by_source by_target →
  (∀ plan, plan ∈ plans → join_ok plan) →
  (∀ n, n ∈ dom outputs ↔ n ∈ ids_of d) → (∀ n, n ∈ dom bindings ↔ n ∈ ids_of d) →
  (∀ n rs, bindings !! n = Some rs → ∃ ds, data !! n = Some ds ∧ reads rs ds) →
  vets (mapM (compile_node d outputs bindings levels (ct_gates control) by_target) (zip (seq 0 (length (ids_of d))) (ids_of d)))
    (λ compiled, compiled.*1 = ids_of d ∧ ∀ n publication inputs, (n, (publication, inputs)) ∈ compiled →
      ∀ binding, binding ∈ mp_bindings inputs → determined d levels plans data n binding).
Proof using Type.
  intros C Hindex Hplans Ho Hb Hr. eapply vets_weaken; [|apply (vets_mapM _ (λ entry out, out.1 = entry.2
    ∧ ∀ binding, binding ∈ mp_bindings out.2.2 → determined d levels plans data entry.2 binding))].
  - intros compiled Hf. split.
    + assert (compiled.*1 = (zip (seq 0 (length (ids_of d))) (ids_of d)).*2) as ->.
      { clear -Hf. induction Hf as [|x y xs ys [H _] _ IH]; cbn; [done|]. by rewrite H, IH. }
      apply snd_zip. by rewrite length_seq.
    + intros n publication inputs [i Hi]%list_elem_of_lookup binding Hin.
      destruct (Forall2_lookup_r _ _ _ _ _ Hf Hi) as (entry & _ & Hn & H). cbn in *. subst n. by apply H.
  - intros [ordinal n] Hin. assert (n ∈ ids_of d) as Hn by by eapply elem_of_zip_r. unfold compile_node.
    apply vets_bind_get; [by apply Ho|]. intros declared _. eapply vets_bind; [apply frame_descriptor_vets|]. intros publication _ _.
    apply vets_bind_get; [by apply Hb|]. intros rs Hrs. eapply vets_bind.
    { apply (vets_mapM _ (published (definition_edges d) plans levels n)). intros binding _. by eapply publish_binding_vets. }
    intros after _ Hf. cbv beta in Hf. eapply vets_bind; [apply frame_descriptor_vets|]. intros descriptor _ _. cbn. split; [done|].
    intros binding [i Hi]%list_elem_of_lookup port Hport. destruct (Forall2_lookup_r _ _ _ _ _ Hf Hi) as (before & Hbefore & _ & Hs & _ & Hp).
    split; [|by apply Hp]. destruct (Hr n rs Hrs) as (ds & Hds & Hreads). exists ds. split; [done|].
    apply (Hreads before port); [by eapply list_elem_of_lookup_2|]. by rewrite <- Hs.
Qed.

(** The outputs of every node, by node id. *)
Lemma outputs_table_vets nested (nodes : list (str * NodeDefinition V)) (ids : list str) :
  (∀ n, n ∈ ids ↔ n ∈ nodes.*1) → children_known nodes nested →
  vets (mapM (λ n, outputs ← outputs_of nested nodes n; Ok (n, outputs)) ids) (λ table,
    ∀ n, n ∈ dom (list_to_map table : gmap str (list (OutputDeclaration V))) ↔ n ∈ ids).
Proof using Type.
  intros Hids Hch. eapply vets_weaken; [|apply (vets_mapM _ (λ n out, out.1 = n))].
  - intros table Hf n. rewrite list_to_map_keys. assert (table.*1 = ids) as ->; [|done].
    clear -Hf. induction Hf as [|x y xs ys H _ IH]; cbn; [done|]. by rewrite H, IH.
  - intros n Hn. eapply (vets_bind _ _ (λ _, True)); [|done]. apply vets_assoc; [by apply Hids|]. intros node Hnode.
    destruct node as [i inputs outputs rs routes|i g inputs]; [done|]. apply vets_assoc; [|done]. by eapply Hch, assoc_Some_elem.
Qed.

Lemma plans_ok (edges : list Edge) (plans : list CompiledJoin) ids :
  Forall (edge_valid ids) edges → Forall2 plan_for_join (joins_of edges) plans → ∀ plan, plan ∈ plans → join_ok plan.
Proof using Type.
  intros Hv Hf plan Hin. destruct (Forall2_elem_r _ _ _ _ Hf Hin) as ([sources target] & Hj & Hid & Hk & Ho).
  apply joins_of_elem in Hj as (declared & He & ->). rewrite Forall_forall in Hv. apply Hv in He as (Hm & Hnd & _).
  unfold join_ok, sources_of. rewrite Hid. cbn in *. split_and!; [by apply sorted_NoDup| |done|done].
  intros Hn. assert (length (sorted declared) = length declared) as Hl by (unfold sorted; by rewrite sort_by_perm). rewrite Hn in Hl. cbn in Hl. lia.
Qed.

(** Keyed canonical nodes have the ids of the definition, and its nested nodes. *)
Lemma keyed_ids order (nodes canonical : list (NodeDefinition V)) :
  Forall2 (canonical_of order) nodes canonical → ((λ node, (node_id node, node)) <$> canonical).*1 = node_id <$> nodes.
Proof using Type. intros H. by rewrite <- (canonical_ids _ _ _ H), <- list_fmap_compose. Qed.

Lemma keyed_children d nested order canonical :
  (∀ i child inputs, NestedGraphNode i child inputs ∈ definition_nodes d → i ∈ nested.*1) →
  Forall2 (canonical_of order) (definition_nodes d) canonical →
  children_known ((λ node, (node_id node, node)) <$> canonical) nested.
Proof using Type.
  intros Hnested Hcanonical n i g inputs (node & [= -> <-] & [k Hk]%list_elem_of_lookup)%list_elem_of_fmap.
  destruct (Forall2_lookup_r _ _ _ _ _ Hcanonical Hk) as ([? ? ? ? ?|? ? ?] & Hk' & Hc); cbn in Hc; [by destruct Hc as (? & ? & _)|].
  injection Hc as <- <- <-. by eapply Hnested, list_elem_of_lookup_2.
Qed.

Lemma materialization_found (compiled : list (str * (FrameDescriptor V * MaterializationPlan V))) n :
  NoDup compiled.*1 → n ∈ compiled.*1 → ∃ publication inputs, (n, (publication, inputs)) ∈ compiled
    ∧ map_get (frozen_map ((λ '(n, (_, plan)), (n, plan)) <$> compiled)) n = Ok inputs.
Proof using Type.
  intros Hnd ([n' [publication inputs]] & -> & Hin)%list_elem_of_fmap. exists publication, inputs. split; [done|].
  apply frozen_get; [|apply list_elem_of_fmap; by exists (n', (publication, inputs))].
  rewrite <- list_fmap_compose. assert ((fst ∘ (λ '(n, (_, plan)), (n, plan))) <$> compiled = compiled.*1) as ->; [|done].
  apply list_fmap_ext. by intros _ [? [? ?]] _.
Qed.

Lemma compile_definition_vets d nested :
  valid_definition d → (∀ i child inputs, NestedGraphNode i child inputs ∈ definition_nodes d → i ∈ nested.*1) →
  vets (compile_definition value_type d nested) (sound_graph d nested).
Proof using Type.
  intros Hv Hnested. unfold compile_definition. cbv zeta. eapply vets_bind; [by apply canonical_nodes_vets|].
  intros keyed _ (canonical & Hkeyed & Hcanonical). cbv beta.
  pose proof (keyed_ids _ _ _ Hcanonical) as Hkeys. rewrite <- Hkeyed in Hkeys.
  rewrite dict_set_all by (cbn [app]; rewrite Hkeys; apply Hv). cbn [app]. rewrite Hkeys. fold (ids_of d).
  assert (∀ n, n ∈ ids_of d ↔ n ∈ keyed.*1) as Hids by (intros n; unfold ids_of; by rewrite sorted_elem, Hkeys).
  assert (NoDup (ids_of d)) as Hnd by apply sorted_NoDup, Hv.
  pose proof (keyed_children d nested _ _ Hnested Hcanonical) as Hch. rewrite <- Hkeyed in Hch.
  eapply vets_bind; [apply collect_graph_inputs_vets|]. intros graph_inputs _ _.
  eapply vets_bind; [by apply outputs_table_vets|]. intros table _ Houtputs. cbv beta in Houtputs. set (outputs := list_to_map table) in *.
  eapply vets_bind; [by apply (resolve_input_bindings_vets (ids_of d))|]. intros [[bindings preds] data] _ R. cbn in R.
  eapply vets_bind; [apply collect_control_topology_spec; rewrite ?Hkeys; try apply Hv; [|done]|].
  { intros Hend. by destruct (vd_node_ids _ Hv _ Hend) as (_ & _ & ?). }
  rewrite Hkeys. fold (ids_of d). intros [control options] _ (C & Hoptions & Hoptions_of). cbn [fst snd] in *.
  assert (∀ e, e ∈ definition_entries d → e ∈ ids_of d) as Hdeclared.
  { intros e He. apply sorted_elem. by apply (vd_entries _ Hv). }
  eapply vets_bind; [apply resolve_entries_vets; [done|apply Hv|done|apply R|apply C]|].
  intros entries _ (Hnde & Hin & Hne & Hentries).
  pose proof (edge_valid_sorted d (vd_edges _ Hv)) as Hedges.
  eapply vets_bind; [eapply (complete_input_bindings_vets (ids_of d) outputs Houtputs keyed Hids); [apply C|intros; by eapply gate_member_valid|done|exact R]|].
  intros [completed graph_inputs'] _ [Hcd Hcv]. cbn in Hcd, Hcv.
  eapply vets_bind; [apply (analyse_control_vets (ids_of d) (definition_edges d) control Hedges C); try done|].
  { intros n Hn%sorted_elem_1. by destruct (vd_node_ids _ Hv n Hn) as (? & _ & ?). }
  { apply Hv. }
  { apply R. }
  { intros n ds x Hds Hx. apply (rs_deps _ _ _ _ R). eapply (rs_closed _ _ _ _ R). by exists ds. }
  intros plan _ (successors & plans & nodes & A). pose proof (plans_ok _ _ _ Hedges (an_plans _ _ _ _ _ _ _ _ _ _ A)) as Hplans.
  eapply vets_bind.
  { apply (vets_mapM _ (λ output out, ∀ port, gob_source out = FromNodeOutput port →
      no_node_id port ∈ pl_terminal_guarantees plan ∧ ∃ selection, gob_publication out = Some selection
        ∧ final_coordinate (pl_absolute_levels plan) (pl_terminal_gates plan) (no_node_id port) selection)).
    intros output _. eapply vets_weaken; [|by apply (compile_output_vets (ids_of d))]. by intros out [_ H]. }
  intros graph_outputs _ Hgo. cbv beta in Hgo.
  eapply vets_bind; [eapply (compile_nodes_vets d control (pl_absolute_levels plan) plans _ _ data outputs completed C);
    [apply A|done|done|done|]|].
  { intros n rs' Hrs'. destruct (Hcv n rs' Hrs') as (rs & Hrs & Hvals). destruct (rs_reads _ _ _ _ R n rs Hrs) as (ds & Hds & Hreads).
    exists ds. split; [done|]. intros b port Hb Hport. by eapply Hreads; [eapply Hvals|]. }
  intros compiled _ [Hcompiled Hdetermined]. eapply vets_bind; [by eapply compiled_gates_vets|]. intros gates _ _.
  eapply vets_bind; [apply frame_descriptor_vets|]. intros input_descriptor _ _.
  eapply vets_bind; [apply frame_descriptor_vets|]. intros output_descriptor _ _.
  exists control, data, options, plan, successors, plans, nodes. rewrite (an_entries _ _ _ _ _ _ _ _ _ _ A). split; cbn; try done.
  - exists canonical. split; [done|]. f_equal. rewrite Hkeyed, <- list_fmap_compose. by apply list_fmap_ext.
  - intros n. rewrite Hentries. apply or_iff_compat_l. split.
    + intros [Hn Hg]. rewrite (co_gates _ _ _ C n Hn) in Hg. by injection Hg.
    + intros [Hn Hg]. split; [done|]. by rewrite (co_gates _ _ _ C n Hn), Hg.
  - apply R.
  - intros n Hn. rewrite <- Hcompiled in Hn. destruct (materialization_found compiled n) as (publication & inputs & Hin' & Hg);
      [by rewrite Hcompiled|done|]. exists inputs. split; [done|]. by eapply Hdetermined.
  - intros output port Hout. destruct (Forall2_elem_r _ _ _ _ Hgo Hout) as (? & _ & H). apply H.
Qed.
End compiled.

(* ------------------------------------------------------------------ *)
(** * A family of definitions

    [GraphCompiler] compiles every definition object of a family once.  The table of
    plans never changes what a definition compiles to; a family that validates either
    compiles, each definition to a sound graph, or is rejected with a validation error. *)

Section family.
Context {V W : Type} `{EqDecision V} `{EqDecision W} (value_type : V → W).
Implicit Types (d : GraphDefinition V) (g : CompiledGraph V).
Notation Nested := (list (str * CompiledGraph V)).
Notation Memo := (gmap Z (CompiledGraph V)).

(** The reference: compile the nested definitions, then the definition, without a table. *)
Fixpoint compile_plain (definition : GraphDefinition V) : result (CompiledGraph V) :=
  match definition with
  | mkDefinition object definition_id version nodes edges entries outputs resources resume_input =>
      nested ← (fix children (nodes : list (NodeDefinition V)) (nested : Nested) : result Nested :=
        match nodes with
        | [] => Ok nested
        | CallableNode _ _ _ _ _ :: rest => children rest nested
        | NestedGraphNode node_id graph _ :: rest =>
            child ← compile_plain graph; children rest (dict_set node_id child nested)
        end) nodes [];
      compile_definition value_type (mkDefinition object definition_id version nodes edges entries outputs resources resume_input) nested
  end.

(** One node of the two walks. *)
Definition plain_node (nested : Nested) (node : NodeDefinition V) : result Nested :=
  match node with
  | CallableNode _ _ _ _ _ => Ok nested
  | NestedGraphNode i child _ => compiled ← compile_plain child; Ok (dict_set i compiled nested)
  end.
Definition memo_node (state : Nested * Memo) (node : NodeDefinition V) : result (Nested * Memo) :=
  match node with
  | CallableNode _ _ _ _ _ => Ok state
  | NestedGraphNode i child _ =>
      '(compiled, memo) ← compile_validated value_type child state.2; Ok (dict_set i compiled state.1, memo)
  end.

Lemma compile_plain_unfold d :
  compile_plain d = (nested ← py_for_state (definition_nodes d) [] plain_node; compile_definition value_type d nested).
Proof using Type.
  destruct d as [object name version nodes edges entries outputs resources resume]. cbn.
  match goal with |- ?m ≫= _ = ?m' ≫= _ => enough (m = m') as -> by done end. generalize ([] : Nested).
  induction nodes as [|[i ins outs rs routes|i child ins] nodes IH]; intros nested; cbn; [done|apply IH|].
  destruct (compile_plain child); cbn; [apply IH|done].
Qed.

Lemma compile_validated_unfold d memo :
  compile_validated value_type d memo =
  match memo !! object_id d with
  | Some existing => Ok (existing, memo)
  | None =>
      '(nested, memo) ← py_for_state (definition_nodes d) ([], memo) memo_node;
      compiled ← compile_definition value_type d nested;
      Ok (compiled, <[object_id d := compiled]> memo)
  end.
Proof using Type.
  destruct d as [object name version nodes edges entries outputs resources resume]. cbn. case_match; [done|].
  match goal with |- ?m ≫= _ = ?m' ≫= _ => enough (m = m') as -> by done end. generalize ([] : Nested) as nested. revert memo H.
  intros memo _. revert memo.
  induction nodes as [|[i ins outs rs routes|i child ins] nodes IH]; intros memo nested; cbn; [done|apply IH|].
  destruct (compile_validated value_type child memo) as [[compiled memo']|]; cbn; [apply IH|done].
Qed.

(* ------------------------------------------------------------------ *)
(** ** The table of plans *)

(** Definitions closed under nesting in which an object id names one definition. *)
Context (family : GraphDefinition V → Prop).
Context (Hclosed : ∀ d i child inputs, family d → NestedGraphNode i child inputs ∈ definition_nodes d → family child).
Context (Hunique : ∀ d d', family d → family d' → object_id d = object_id d' → d = d').

Lemma family_sub d d' : family d → sub d d' → family d'.
Proof using Hclosed. intros Hd Hs. induction Hs as [|d i child inputs d' Hin _ IH]; [done|]. by eapply IH, Hclosed. Qed.

Lemma family_coherent root : family root → coherent root.
Proof using Hclosed Hunique. intros Hr d d' H H'. by apply Hunique; eapply family_sub. Qed.

(** The table holds what its definitions compile to, nested definitions included. *)
Definition faithful (memo : Memo) : Prop :=
  ∀ d g, family d → memo !! object_id d = Some g →
    compile_plain d = Ok g ∧ ∀ d', sub d d' → object_id d' ∈ dom memo.

Lemma faithful_empty : faithful ∅.
Proof using Type. by intros d g _ H%lookup_empty_Some. Qed.

(** Compiling with the table does what the reference does, and only adds to the table. *)
Definition agrees d (memo : Memo) : Prop :=
  match compile_plain d with
  | Ok g => ∃ memo', compile_validated value_type d memo = Ok (g, memo') ∧ faithful memo' ∧ memo ⊆ memo'
      ∧ memo' !! object_id d = Some g
  | Raise e => compile_validated value_type d memo = Raise e
  end.

Definition nodes_agree (nodes : list (NodeDefinition V)) (nested : Nested) (memo : Memo) : Prop :=
  match py_for_state nodes nested plain_node with
  | Ok nested' => ∃ memo', py_for_state nodes (nested, memo) memo_node = Ok (nested', memo') ∧ faithful memo' ∧ memo ⊆ memo'
      ∧ ∀ i child inputs, NestedGraphNode i child inputs ∈ nodes → object_id child ∈ dom memo'
  | Raise e => py_for_state nodes (nested, memo) memo_node = Raise e
  end.

Lemma memo_nodes_agree (nodes : list (NodeDefinition V)) nested (memo : Memo) :
  (∀ i child inputs, NestedGraphNode i child inputs ∈ nodes → ∀ memo, faithful memo → agrees child memo) →
  faithful memo → nodes_agree nodes nested memo.
Proof using Type.
  revert nested memo. induction nodes as [|node nodes IH]; intros nested memo Hnodes Hf; unfold nodes_agree; cbn.
  { exists memo. split_and!; [done..|]. by intros i child inputs ?%elem_of_nil. }
  assert (∀ i child inputs, NestedGraphNode i child inputs ∈ nodes → ∀ memo, faithful memo → agrees child memo) as Hrest
    by (intros i child inputs Hin; apply (Hnodes i child inputs); by right).
  destruct node as [i ins outs rs routes|i child ins]; cbn.
  - specialize (IH nested memo Hrest Hf). unfold nodes_agree in IH. case_match; [|done].
    destruct IH as (memo' & ? & ? & ? & Hdom). exists memo'. split_and!; [done..|].
    intros j c inputs [?|?]%elem_of_cons; [done|by eapply Hdom].
  - pose proof (Hnodes i child ins ltac:(by left) memo Hf) as Ha. unfold agrees in Ha.
    destruct (compile_plain child) as [g|e]; cbn; [|by rewrite Ha]. destruct Ha as (memo1 & -> & Hf1 & Hs1 & Hl1). cbn.
    specialize (IH (dict_set i g nested) memo1 Hrest Hf1). unfold nodes_agree in IH. case_match; [|done].
    destruct IH as (memo' & ? & ? & Hs & Hdom). exists memo'. split_and!; [done|done|by etrans|].
    intros j c inputs [[= -> -> ->]|?]%elem_of_cons; [|by eapply Hdom]. apply elem_of_dom. exists g. by eapply lookup_weaken.
Qed.

Lemma compile_validated_agrees d memo : family d → faithful memo → agrees d memo.
Proof using Hclosed Hunique.
  revert memo. induction d as [d IH] using definition_induction. intros memo Hd Hf. unfold agrees. rewrite compile_validated_unfold.
  destruct (memo !! object_id d) as [g|] eqn:E.
  { destruct (Hf d g Hd E) as [-> _]. by exists memo. }
  rewrite compile_plain_unfold.
  pose proof (memo_nodes_agree (definition_nodes d) [] memo (λ i child inputs Hin memo, IH i child inputs Hin memo (Hclosed d i child inputs Hd Hin)) Hf) as Ha.
  unfold nodes_agree in Ha. destruct (py_for_state _ [] plain_node) as [nested|e] eqn:En; cbn; [|by rewrite Ha].
  destruct Ha as (memo' & -> & Hf' & Hs & Hdom). cbn. destruct (compile_definition value_type d nested) as [g|e] eqn:Eg; cbn; [|done].
  eexists. split; [done|]. assert (compile_plain d = Ok g) as Hg by (rewrite compile_plain_unfold, En; done).
  assert (∀ d', sub d d' → object_id d' ∈ dom (<[object_id d := g]> memo')) as Hsubs.
  { intros d' Hsub. rewrite dom_insert. destruct Hsub as [d|d i child inputs d' Hin Hsub]; [set_solver|]. apply elem_of_union_r.
    pose proof (Hdom i child inputs Hin) as [gc Hc]%elem_of_dom. by apply (Hf' child gc (Hclosed _ _ _ _ Hd Hin) Hc). }
  split_and!; [| |by rewrite lookup_insert_eq].
  - intros x gx Hx [[Ho <-]|[_ Hl]]%lookup_insert_Some; [by rewrite <- (Hunique d x Hd Hx Ho)|].
    destruct (Hf' x gx Hx Hl) as [? Hall]. split; [done|]. intros d' Hsub. rewrite dom_insert. apply elem_of_union_r. by apply Hall.
  - etrans; [exact Hs|]. destruct (memo' !! object_id d) as [gd|] eqn:El; [|by apply insert_subseteq].
    destruct (Hf' d gd Hd El) as [Hgd _]. rewrite Hg in Hgd. injection Hgd as <-. by rewrite insert_id.
Qed.

(* ------------------------------------------------------------------ *)
(** ** Sound families *)

(** The plans of the nested nodes of a definition, and of nothing else. *)
Definition plans_of (nodes : list (NodeDefinition V)) (nested : Nested) : Prop :=
  (∀ i child inputs, NestedGraphNode i child inputs ∈ nodes → ∃ g, assoc i nested = Some g ∧ compile_plain child = Ok g)
  ∧ ∀ i, i ∈ nested.*1 → ∃ child inputs, NestedGraphNode i child inputs ∈ nodes.
Definition children_plans d (nested : Nested) : Prop := plans_of (definition_nodes d) nested.

Lemma plain_nodes_vets d :
  NoDup (node_id <$> definition_nodes d) →
  (∀ i child inputs, NestedGraphNode i child inputs ∈ definition_nodes d → vets (compile_plain child) (λ _, True)) →
  vets (py_for_state (definition_nodes d) [] plain_node) (children_plans d).
Proof using Type.
  intros Hnd Hch. eapply vets_weaken; [|apply (vets_state plans_of)]; [done| |by split; [intros i child inputs ?%elem_of_nil|intros i ?%elem_of_nil]].
  intros dn node rest nested Hat [Hdn Hkeys]. destruct node as [i ins outs rs routes|i child ins]; cbn [plain_node].
  - cbn. split.
    + intros j c inputs [?|?%list_elem_of_singleton]%elem_of_app; [by eapply Hdn|done].
    + intros j (c & inputs & Hin)%Hkeys. exists c, inputs. apply elem_of_app. by left.
  - eapply vets_bind; [eapply Hch; by eapply at_elem|]. intros g Hg _. cbn. split.
    + intros j c inputs [Hin|[= -> -> ->]%list_elem_of_singleton]%elem_of_app; rewrite assoc_dict_set.
      * rewrite decide_False; [by eapply Hdn|]. intros ->. rewrite Hat, fmap_app in Hnd. apply NoDup_app in Hnd as (_ & Hnd & _).
        apply (Hnd i); [|by left]. apply list_elem_of_fmap. by exists (NestedGraphNode i c inputs).
      * rewrite decide_True by done. by exists g.
    + intros j [->|(c & inputs & Hin)%Hkeys]%dict_set_keys; [exists child, ins|exists c, inputs]; apply elem_of_app; [right; by left|by left].
Qed.

Lemma compile_plain_vets d :
  all_valid d → vets (compile_plain d) (λ g, ∃ nested, children_plans d nested ∧ sound_graph d nested g).
Proof using Type.
  induction d as [d IH] using definition_induction. intros Hv. rewrite compile_plain_unfold.
  pose proof (Hv d (sub_refl d)) as Hd. eapply vets_bind.
  - apply plain_nodes_vets; [apply Hd|]. intros i child inputs Hin. eapply vets_weaken; [|eapply (IH i child inputs Hin)]; [done|].
    intros d' Hs. apply Hv. by eapply sub_child.
  - intros nested _ Hch. eapply vets_weaken; [|apply compile_definition_vets; [done|]].
    + intros g Hg. by exists nested.
    + intros i child inputs Hin. destruct (proj1 Hch i child inputs Hin) as (g & Ha%assoc_Some_elem & _).
      by apply (list_elem_of_fmap_2 fst _ (i, g)).
Qed.

(** The plans of a compiled family. *)
Definition family_plans root (memo : Memo) : Prop :=
  ∀ d, sub root d → ∃ g nested, memo !! object_id d = Some g ∧ children_plans d nested ∧ sound_graph d nested g.

Lemma compile_family root retained :
  family root → faithful retained →
  vets (compile value_type root retained) (λ out,
    compile_plain root = Ok out.1 ∧ faithful out.2 ∧ retained ⊆ out.2 ∧ out.2 !! object_id root = Some out.1
    ∧ family_plans root out.2).
Proof using Hclosed Hunique.
  intros Hr Hf. unfold compile. eapply vets_bind; [by apply validate_graph_spec, family_coherent|]. intros u _ Hv. cbv beta in Hv.
  pose proof (compile_validated_agrees root retained Hr Hf) as Ha. unfold agrees in Ha.
  pose proof (compile_plain_vets root Hv) as Hp. destruct (compile_plain root) as [g|e]; cbn in Hp; [|by rewrite Ha].
  destruct Ha as (memo & -> & Hm & Hs & Hl). cbn. split_and!; [done..|]. intros d Hsub.
  destruct (Hm root g Hr Hl) as [_ Hdom]. pose proof (Hdom d Hsub) as [gd Hgd]%elem_of_dom.
  destruct (Hm d gd ltac:(by eapply family_sub) Hgd) as [Hplain _].
  assert (all_valid d) as Hvd by (intros d' H; apply Hv; by eapply sub_trans).
  pose proof (vets_Ok _ _ _ (compile_plain_vets d Hvd) Hplain) as (nested & Hch & Hsound). by exists gd, nested.
Qed.
End family.
