(* ===== verification/CompilerTheorems.v ===== *)
(** * What compilation promises

    The properties of [GraphCompiler.compile] on a family of definitions, stated on the
    declared edges and the compiled graphs, with a small family that compiles. *)

From Stdlib Require Import ZArith NArith Lia Bool String.
From stdpp Require Import prelude strings gmap sorting.
From S2P Require Import Prelude Identity Topology GraphDefinition ControlGraph ControlGraphProofs LevelProofs JoinPlans JointProofs Bindings DefinitionProofs Bdd FrontierRelation Compiler ControlTopologyProofs FrontierSystem BindingProofs AnalysisProofs CompilerProofs.

Set Default Goal Selector "!".
Open Scope nat_scope.

(* ------------------------------------------------------------------ *)
(** ** Tables of declared edges *)

Definition tabulate {A : Type} (ids : list str) (f : str → A) : gmap str A := list_to_map ((λ n, (n, f n)) <$> ids).

Lemma tabulate_unique {A : Type} (ids : list str) (f : str → A) (m : gmap str A) :
  (∀ n, n ∈ dom m ↔ n ∈ ids) → (∀ n, n ∈ ids → m !! n = Some (f n)) → m = tabulate ids f.
Proof.
  intros Hd Hf. apply map_eq. intros n. unfold tabulate.
  assert ((list_to_map ((λ n, (n, f n)) <$> ids) : gmap str A) !! n = if decide (n ∈ ids) then Some (f n) else None) as ->.
  { clear Hd Hf. induction ids as [|k ids IH]; cbn; [done|]. destruct (decide (k = n)) as [->|Hne].
    - rewrite lookup_insert_eq. by rewrite decide_True by (by left).
    - rewrite lookup_insert_ne by done. rewrite IH. apply decide_ext. rewrite elem_of_cons. naive_solver. }
  destruct (decide (n ∈ ids)) as [Hn|Hn]; [by apply Hf|]. rewrite <- Hd in Hn. by apply not_elem_of_dom.
Qed.

Section tables.
Context {V : Type}.
Implicit Types (d : GraphDefinition V).
Definition gate_table d : ActivationGates := tabulate (ids_of d) (λ n, gates_into n (definition_edges d)).
Definition direct_table d : Successors := tabulate (ids_of d) (λ n, list_to_set (directs_of n (definition_edges d))).
Definition conditional_table d : Conditionals := tabulate (ids_of d) (λ n, conditionals_of n (definition_edges d)).

Lemma control_tables d control :
  control_of (ids_of d) (definition_edges d) control →
  ct_gates control = gate_table d ∧ ct_direct control = direct_table d ∧ ct_conditional control = conditional_table d.
Proof. intros C. split_and!; apply tabulate_unique; apply C. Qed.
End tables.

Lemma frozen_back {A : Type} (m : gmap str A) : list_to_map (frozen_map (items m)) = m.
Proof.
  assert (frozen_map (items m) ≡ₚ map_to_list m) as Hp by (unfold frozen_map, items, sorted_key; by rewrite !sort_by_perm).
  transitivity (list_to_map (map_to_list m) : gmap str A); [|apply list_to_map_to_list].
  apply list_to_map_proper; [|done]. rewrite Hp. apply NoDup_fst_map_to_list.
Qed.

Lemma no_gates (edges : list Edge) n : gates_into n edges = [] ↔ ¬ ∃ e, e ∈ edges ∧ edge_target e = n.
Proof.
  split.
  - intros Hnil (e & He & Ht). assert (edge_gate e ∈ gates_into n edges) as H by (apply gates_into_elem; by exists e).
    rewrite Hnil in H. by apply elem_of_nil in H.
  - intros H. destruct (gates_into n edges) as [|gate gates] eqn:E; [done|]. destruct H.
    assert (gate ∈ gates_into n edges) as (e & He & Ht & _)%gates_into_elem by (rewrite E; by left). by exists e.
Qed.

Lemma declared_joins (edges : list Edge) plans n sources target :
  Forall2 plan_for_join (joins_of edges) plans →
  (∃ join, join ∈ plans_from n plans ∧ cj_identity join = mkJoin sources target) ↔
  ∃ declared, JoinEdge declared target ∈ edges ∧ sources = sorted declared ∧ n ∈ declared.
Proof.
  intros Hf. unfold plans_from. setoid_rewrite list_elem_of_filter. split.
  - intros (join & (Hn & Hin) & Hid). destruct (Forall2_elem_r _ _ _ _ Hf Hin) as ([ss t] & Hj & Hid' & _).
    rewrite Hid in Hid', Hn. cbn in Hid', Hn. injection Hid' as -> ->. apply joins_of_elem in Hj as (declared & He & ->).
    exists declared. split_and!; [done|done|by apply sorted_elem].
  - intros (declared & He & -> & Hn). assert ((sorted declared, target) ∈ joins_of edges) as [i Hi]%list_elem_of_lookup
      by (apply joins_of_elem; by exists declared).
    destruct (Forall2_lookup_l _ _ _ _ _ Hf Hi) as (join & Hj & Hid & _). exists join. rewrite Hid. cbn.
    split_and!; [by apply sorted_elem|by eapply list_elem_of_lookup_2|done].
Qed.

Section theorems.
Context {V W : Type} `{EqDecision V} `{EqDecision W} (value_type : V → W).
Context (family : GraphDefinition V → Prop).
Implicit Types (d root : GraphDefinition V) (g : CompiledGraph V) (memo : gmap Z (CompiledGraph V)).

(** A family: closed under nesting, with one definition per object. *)
Record is_family : Prop := {
  fam_nested : ∀ d i child inputs, family d → NestedGraphNode i child inputs ∈ definition_nodes d → family child;
  fam_object : ∀ d d', family d → family d' → object_id d = object_id d' → d = d'
}.
Context (Hfam : is_family).

Lemma compiled_plans root retained g memo d gd :
  family root → faithful value_type family retained → compile value_type root retained = Ok (g, memo) →
  sub root d → plan_for memo d = Ok gd → ∃ nested, children_plans value_type d nested ∧ sound_graph d nested gd.
Proof using Hfam.
  intros Hr Hf Hc Hs Hp. pose proof (compile_family value_type family (fam_nested Hfam) (fam_object Hfam) root retained Hr Hf) as Hv.
  rewrite Hc in Hv. destruct Hv as (_ & _ & _ & _ & Hplans). destruct (Hplans d Hs) as (g' & nested & Hl & Hch & Hsound).
  unfold plan_for in Hp. apply dict_get_Ok in Hp. cbn in Hl. rewrite Hl in Hp. injection Hp as <-. by exists nested.
Qed.

Lemma compiled_sound root retained g memo d gd :
  family root → faithful value_type family retained → compile value_type root retained = Ok (g, memo) →
  sub root d → plan_for memo d = Ok gd → ∃ nested, sound_graph d nested gd.
Proof using Hfam. intros Hr Hf Hc Hs Hp. destruct (compiled_plans _ _ _ _ _ _ Hr Hf Hc Hs Hp) as (nested & _ & ?). by exists nested. Qed.

(** C11: Compilation of a family only ever returns or rejects: whatever exception escapes
    belongs to the [GraphValidationError] hierarchy, no table lookup, assertion or loop
    of the analyses fails. *)
Theorem compile_rejects_cleanly root retained :
  family root → faithful value_type family retained →
  match compile value_type root retained with
  | Ok (g, memo) => plan_for memo root = Ok g ∧ faithful value_type family memo ∧ retained ⊆ memo
  | Raise e => is_graph_error (exn_kind e) = true
  end.
Proof using Hfam.
  intros Hr Hf. pose proof (compile_family value_type family (fam_nested Hfam) (fam_object Hfam) root retained Hr Hf) as Hv.
  destruct (compile value_type root retained) as [[g memo]|e]; [|done]. destruct Hv as (_ & Hm & Hs & Hl & _). cbn in Hl.
  split_and!; [|done|done]. unfold plan_for, dict_get. by rewrite Hl.
Qed.

(** C26: The table of plans is only a table: compiling with it gives what compiling every
    nested occurrence afresh gives, the same exception included, and leaves the plan of
    each definition of the family in the table. *)
Theorem memo_matches_reference root retained :
  family root → faithful value_type family retained →
  match compile_plain value_type root with
  | Ok g => ∃ memo, compile_validated value_type root retained = Ok (g, memo)
      ∧ ∀ d, sub root d → ∃ gd, plan_for memo d = Ok gd ∧ compile_plain value_type d = Ok gd
  | Raise e => compile_validated value_type root retained = Raise e
  end.
Proof using Hfam.
  intros Hr Hf. pose proof (compile_validated_agrees value_type family (fam_nested Hfam) (fam_object Hfam) root retained Hr Hf) as Ha.
  unfold agrees in Ha. destruct (compile_plain value_type root) as [g|e]; [|done]. destruct Ha as (memo & -> & Hm & _ & Hl).
  exists memo. split; [done|]. intros d Hs. destruct (Hm root g Hr Hl) as [_ Hdom]. pose proof (Hdom d Hs) as [gd Hgd]%elem_of_dom.
  exists gd. split; [unfold plan_for, dict_get; by rewrite Hgd|]. apply (Hm d gd); [|done].
  eapply family_sub; [apply Hfam|done..].
Qed.

(** C4: In a compiled graph, a node input bound to another node's output is always there:
    on every way the gates allow the node to be activated the producer was activated
    before, and the binding names the superstep to read from, which the control structure
    determines (the producer's only level, the activation just before, or the offset of
    the one Join that activates the node). *)
Theorem compiled_inputs_available root retained g memo d gd n inputs binding port :
  family root → faithful value_type family retained → compile value_type root retained = Ok (g, memo) →
  sub root d → plan_for memo d = Ok gd →
  n ∈ ids_of d → map_get (materializations (transition gd)) n = Ok inputs → binding ∈ mp_bindings inputs →
  rib_source binding = ResolvedValue (FromNodeOutput port) →
  (∀ past, happened (tp_entries (transition gd)) (gate_table d) n past → no_node_id port ∈ past)
  ∧ ∃ selection, rib_publication binding = Some selection ∧
    ((∃ k successors, successors_of (ids_of d) (definition_edges d) successors ∧ selection = mkSelection ABSOLUTE (Z.of_nat k)
        ∧ ∀ k', depth successors (tp_entries (transition gd)) (no_node_id port) k' ↔ k' = k)
     ∨ (selection = mkSelection RELATIVE 1 ∧ ∀ gate, gate ∈ gates_into n (definition_edges d) → ∃ route, gate = [(no_node_id port, route)])
     ∨ (∃ plan plans, map_get (joins_by_source (transition gd)) (no_node_id port) = Ok plans ∧ plan ∈ plans
        ∧ join_target (cj_identity plan) = n ∧ length (gates_into n (definition_edges d)) = 1
        ∧ selection = mkSelection RELATIVE (offset_of plan (no_node_id port)))).
Proof using Hfam.
  intros Hr Hf Hc Hs Hp Hn Hm Hb Hport. destruct (compiled_sound _ _ _ _ _ _ Hr Hf Hc Hs Hp) as (nested & control & data & options & plan & successors & plans & nodes & B).
  pose proof (bl_analysed _ _ _ _ _ _ _ _ _ _ B) as A. destruct (control_tables d control (bl_control _ _ _ _ _ _ _ _ _ _ B)) as (Eg & _ & _).
  destruct (bl_inputs _ _ _ _ _ _ _ _ _ _ B n Hn) as (inputs' & Hm' & Hdet). rewrite Hm in Hm'. injection Hm' as <-.
  destruct (Hdet binding Hb port Hport) as [(ds & Hds & Hin) (selection & Hsel & Hco)]. split.
  - intros past Hpast. rewrite <- Eg in Hpast. by eapply (an_producers _ _ _ _ _ _ _ _ _ _ A).
  - exists selection. split; [done|]. destruct Hco as [[Hsel' Hl]|[(-> & _ & Hg)|(join & Hi & Hlen & Hsrc & ->)]].
    + left. apply (an_levels _ _ _ _ _ _ _ _ _ _ A) in Hl as (_ & _ & k & Hk & Hd). exists k, successors.
      split_and!; [apply A|by rewrite Hsel', Hk|done].
    + right. left. done.
    + right. right. pose proof (an_index _ _ _ _ _ _ _ _ _ _ A) as Hix.
      assert (join ∈ plans_into n plans) as [Ht Hjp]%list_elem_of_filter by (rewrite Hi; by left).
      assert (no_node_id port ∈ ids_of d) as Hpid.
      { destruct (Forall2_elem_r _ _ _ _ (an_plans _ _ _ _ _ _ _ _ _ _ A) Hjp) as ([sources target] & Hj & Hid & _).
        eapply join_sources_valid; [apply B|exact Hj|]. unfold sources_of in Hsrc. by rewrite Hid in Hsrc. }
      exists join. eexists. split; [rewrite (bl_joins _ _ _ _ _ _ _ _ _ _ B); apply frozen_items; by apply (in_source _ _ _ _ Hix)|].
      split_and!; [|done|done|done]. unfold sorted_key. rewrite sort_by_perm. by apply list_elem_of_filter.
Qed.

(** C27: A graph output bound to a node's output is always there when the graph ends: each
    way of ending (the sources of an edge to END, or a node without successors) includes
    a node none of whose activations precedes the producer's, and the output names a
    determined superstep to read from. *)
Theorem compiled_outputs_available root retained g memo d gd output port :
  family root → faithful value_type family retained → compile value_type root retained = Ok (g, memo) →
  sub root d → plan_for memo d = Ok gd →
  output ∈ graph_outputs (transition gd) → gob_source output = FromNodeOutput port →
  (∃ gate, ends (ids_of d) (definition_edges d) gate)
  ∧ (∀ gate, ends (ids_of d) (definition_edges d) gate →
      ∃ t, t ∈ gate ∧ ∀ past, happened (tp_entries (transition gd)) (gate_table d) t past → no_node_id port ∈ past)
  ∧ ∃ selection, gob_publication output = Some selection ∧
    ((∃ k successors, successors_of (ids_of d) (definition_edges d) successors ∧ selection = mkSelection ABSOLUTE (Z.of_nat k)
        ∧ ∀ k', depth successors (tp_entries (transition gd)) (no_node_id port) k' ↔ k' = k)
     ∨ (selection = mkSelection RELATIVE 0 ∧ ∀ gate, ends (ids_of d) (definition_edges d) gate → gate = {[no_node_id port]})).
Proof using Hfam.
  intros Hr Hf Hc Hs Hp Ho Hport. destruct (compiled_sound _ _ _ _ _ _ Hr Hf Hc Hs Hp) as (nested & control & data & options & plan & successors & plans & nodes & B).
  pose proof (bl_analysed _ _ _ _ _ _ _ _ _ _ B) as A. destruct (control_tables d control (bl_control _ _ _ _ _ _ _ _ _ _ B)) as (Eg & _ & _).
  pose proof (an_ends _ _ _ _ _ _ _ _ _ _ A) as Hends.
  destruct (bl_outputs _ _ _ _ _ _ _ _ _ _ B output port Ho Hport) as (Hin & selection & Hsel & Hco). split_and!.
  - destruct (pl_terminal_gates plan) as [|gate gates] eqn:E; [by destruct (an_gates _ _ _ _ _ _ _ _ _ _ A)|].
    exists gate. apply Hends. by left.
  - intros gate Hg%Hends. destruct (an_terminal _ _ _ _ _ _ _ _ _ _ A _ gate Hin Hg) as (t & Ht & Hall). exists t. by rewrite <- Eg.
  - exists selection. split; [done|]. destruct Hco as [[Hsel' Hl]|(-> & _ & Hg)].
    + left. apply (an_levels _ _ _ _ _ _ _ _ _ _ A) in Hl as (_ & _ & k & Hk & Hd). exists k, successors.
      split_and!; [apply A|by rewrite Hsel', Hk|done].
    + right. split; [done|]. intros gate Hgate%Hends. by apply Hg.
Qed.

(** The tables a compiled graph is driven by are those of its declaration: its
    entries, Direct and conditional targets and Joins are the declared ones, every node
    is reachable from the entries, and every node asks for its resources in the order of
    the graph. *)
Lemma compiled_tables_exact root retained g memo d gd :
  family root → faithful value_type family retained → compile value_type root retained = Ok (g, memo) →
  sub root d → plan_for memo d = Ok gd →
  (∀ n, n ∈ tp_entries (transition gd) ↔
     n ∈ definition_entries d ∨ (n ∈ ids_of d ∧ ¬ ∃ e, e ∈ definition_edges d ∧ edge_target e = n))
  ∧ (∀ n, n ∈ ids_of d → reaches (definition_edges d) (tp_entries (transition gd)) n)
  ∧ (∀ n, n ∈ ids_of d → ∃ targets, map_get (direct_targets (transition gd)) n = Ok targets
      ∧ ∀ t, t ∈ targets ↔ DirectEdge n t ∈ definition_edges d ∧ t ≠ END)
  ∧ (∀ n, n ∈ ids_of d → ∃ routes, map_get (conditional_targets (transition gd)) n = Ok routes
      ∧ ∀ route t, (route, t) ∈ routes ↔ ConditionalEdge n route t ∈ definition_edges d)
  ∧ (∀ n, n ∈ ids_of d → ∃ joins, map_get (joins_by_source (transition gd)) n = Ok joins
      ∧ ∀ sources target, (∃ join, join ∈ joins ∧ cj_identity join = mkJoin sources target) ↔
          ∃ declared, JoinEdge declared target ∈ definition_edges d ∧ sources = sorted declared ∧ n ∈ declared)
  ∧ ∀ n i resources routes, (n, CallableNodeDefinition i resources routes) ∈ cg_nodes gd →
      StronglySorted (ordered_by (resource_order (transition gd))) resources.
Proof using Hfam.
  intros Hr Hf Hc Hs Hp. destruct (compiled_sound _ _ _ _ _ _ Hr Hf Hc Hs Hp) as (nested & control & data & options & plan & successors & plans & nodes & B).
  pose proof (bl_analysed _ _ _ _ _ _ _ _ _ _ B) as A. pose proof (bl_control _ _ _ _ _ _ _ _ _ _ B) as C. split_and!.
  - intros n. rewrite (bl_entries _ _ _ _ _ _ _ _ _ _ B n), no_gates. done.
  - apply A.
  - intros n Hn. eexists. split; [rewrite (bl_direct _ _ _ _ _ _ _ _ _ _ B); apply frozen_items; by apply C|].
    intros t. by rewrite sorted_elements_elem, elem_of_list_to_set, directs_of_elem.
  - intros n Hn. eexists. split; [rewrite (bl_conditional _ _ _ _ _ _ _ _ _ _ B); apply frozen_items; by apply C|].
    intros route t. unfold frozen_map, sorted_key. by rewrite sort_by_perm, conditionals_of_elem.
  - intros n Hn. eexists. split; [rewrite (bl_joins _ _ _ _ _ _ _ _ _ _ B); apply frozen_items; by apply A|].
    intros sources target. rewrite <- (declared_joins _ plans) by apply A. unfold sorted_key.
    split; intros (join & Hj & Hid); exists join; (split; [|done]); [by rewrite sort_by_perm in Hj|by rewrite sort_by_perm].
  - intros n i resources routes Hin. destruct (bl_nodes _ _ _ _ _ _ _ _ _ _ B) as (canonical & Hcan & Hg). rewrite Hg in Hin.
    unfold frozen_map, sorted_key in Hin. rewrite sort_by_perm in Hin. apply list_elem_of_fmap in Hin as (node & [= -> Hnode] & Hin).
    destruct (Forall2_elem_r _ _ _ _ Hcan Hin) as (node0 & _ & Hc0). rewrite (bl_resources _ _ _ _ _ _ _ _ _ _ B).
    destruct node0; cbn in Hc0; [|by subst]. destruct Hc0 as (rs' & -> & _ & Hsorted). by injection Hnode as -> -> ->.
Qed.

(** What the compiled graph stores for its nodes: the Direct and conditional targets of
    the declaration, and the Join plans [plans], offsets included. *)
Definition stores (gd : CompiledGraph V) (d : GraphDefinition V) (plans : list CompiledJoin) : Prop :=
  ∀ n, n ∈ ids_of d → ∃ directs conditionals joins,
    map_get (direct_targets (transition gd)) n = Ok directs ∧ (∀ t, t ∈ directs ↔ t ∈ directs_of n (definition_edges d))
    ∧ map_get (conditional_targets (transition gd)) n = Ok conditionals ∧ conditionals ≡ₚ conditionals_of n (definition_edges d)
    ∧ map_get (joins_by_source (transition gd)) n = Ok joins ∧ joins ≡ₚ plans_from n plans.

Lemma built_stores d nested g control data options plan successors plans nodes :
  built d nested g control data options plan successors plans nodes → stores g d plans.
Proof using.
  intros B n Hn. pose proof (bl_control _ _ _ _ _ _ _ _ _ _ B) as C. pose proof (an_index _ _ _ _ _ _ _ _ _ _ (bl_analysed _ _ _ _ _ _ _ _ _ _ B)) as Hix.
  eexists _, _, _. split_and!.
  - rewrite (bl_direct _ _ _ _ _ _ _ _ _ _ B). apply frozen_items. by apply C.
  - intros t. by rewrite sorted_elements_elem, elem_of_list_to_set.
  - rewrite (bl_conditional _ _ _ _ _ _ _ _ _ _ B). apply frozen_items. by apply C.
  - unfold frozen_map, sorted_key. by rewrite sort_by_perm.
  - rewrite (bl_joins _ _ _ _ _ _ _ _ _ _ B). apply frozen_items. by apply Hix.
  - unfold sorted_key. by rewrite sort_by_perm.
Qed.

(** C10: the frontiers a compiled graph goes through, with the tables it stores (its Direct
    and conditional targets and, for every Join, the stored offset of each source), can
    neither activate a node twice in one superstep nor end with two routes, and the routes
    the graph declares it may complete with are exactly those with which some run of these
    tables completes.  The stored Direct and conditional targets are the declared ones and
    the stored Joins are those of the declaration, in its order. *)
Theorem compiled_completion_exact root retained g memo d gd :
  family root → faithful value_type family retained → compile value_type root retained = Ok (g, memo) →
  sub root d → plan_for memo d = Ok gd →
  ∃ nodes plans, (∀ n, n ∈ nodes ↔ n ∈ ids_of d) ∧ Forall2 plan_for_join (joins_of (definition_edges d)) plans ∧ stores gd d plans
    ∧ let entries := tp_entries (transition gd) in
      let options := list_to_map (Topology.route_options (transition gd)) in
      let joins := unique_joins (tabulate (ids_of d) (λ n, plans_from n plans)) in
      ¬ collision nodes entries options (direct_table d) (conditional_table d) joins
      ∧ ¬ conflict nodes entries options (direct_table d) (conditional_table d) joins
      ∧ ∀ route, route ∈ completion_routes gd ↔
          completion nodes entries options (direct_table d) (conditional_table d) joins route.
Proof using Hfam.
  intros Hr Hf Hc Hs Hp. destruct (compiled_sound _ _ _ _ _ _ Hr Hf Hc Hs Hp) as (nested & control & data & options & plan & successors & plans & nodes & B).
  pose proof (bl_analysed _ _ _ _ _ _ _ _ _ _ B) as A. destruct (control_tables d control (bl_control _ _ _ _ _ _ _ _ _ _ B)) as (_ & Ed & Ec).
  pose proof (an_index _ _ _ _ _ _ _ _ _ _ A) as Hix.
  assert (pl_joins_by_source plan = tabulate (ids_of d) (λ n, plans_from n plans)) as Ej by (apply tabulate_unique; apply Hix).
  exists nodes, plans. cbv zeta. rewrite (bl_options _ _ _ _ _ _ _ _ _ _ B), frozen_back, (bl_completion _ _ _ _ _ _ _ _ _ _ B), <- Ed, <- Ec, <- Ej.
  split_and!; [apply A|apply A|by eapply built_stores|apply A..].
Qed.
End theorems.

(* ------------------------------------------------------------------ *)
(** ** A family that compiles

    [inner] is nested twice in [outer]: [a] starts both copies, which join into [b]. *)

Section demo.
Local Open Scope Z_scope.

Definition inner_definition : GraphDefinition unit :=
  mkDefinition 1 (lit "inner") 1 [CallableNode (lit "w") [] [mkOutputDeclaration (lit "y") tt] [] []] [] []
    [mkGraphOutputDeclaration (lit "y") (NodeOutputRef (lit "w") (lit "y") None)] [] None.

Definition outer_definition : GraphDefinition unit :=
  mkDefinition 2 (lit "outer") 1
    [CallableNode (lit "a") [] [mkOutputDeclaration (lit "x") tt] [lit "r2"; lit "r1"] [];
     NestedGraphNode (lit "p") inner_definition [];
     NestedGraphNode (lit "q") inner_definition [];
     CallableNode (lit "b") [mkBinding (lit "x") (ValueSource (NodeOutputRef (lit "a") (lit "x") None));
                             mkBinding (lit "y") (ValueSource (NodeOutputRef (lit "p") (lit "y") None))]
       [mkOutputDeclaration (lit "z") tt] [] []]
    [DirectEdge (lit "a") (lit "p"); DirectEdge (lit "a") (lit "q"); JoinEdge [lit "q"; lit "p"] (lit "b")] []
    [mkGraphOutputDeclaration (lit "z") (NodeOutputRef (lit "b") (lit "z") None)] [lit "r1"; lit "r2"] None.

Definition same_type (_ : unit) : unit := tt.
Definition demo_family (d : GraphDefinition unit) : Prop := d = outer_definition ∨ d = inner_definition.

Lemma demo_is_family : is_family demo_family.
Proof.
  split.
  - intros d i child inputs [->| ->] Hin; cbn in Hin.
    + repeat (apply elem_of_cons in Hin as [Hin|Hin]; [first [discriminate Hin|injection Hin as -> -> ->; by right]|]). by apply elem_of_nil in Hin.
    + apply elem_of_cons in Hin as [Hin|Hin]; [discriminate Hin|]. by apply elem_of_nil in Hin.
  - intros d d' [->| ->] [->| ->] H; done.
Qed.

Lemma outer_compiles : { out | compile same_type outer_definition ∅ = Ok out }.
Proof. eexists. vm_compute. reflexivity. Defined.
Definition outer_graph : CompiledGraph unit := fst (proj1_sig outer_compiles).
Definition outer_memo : gmap Z (CompiledGraph unit) := snd (proj1_sig outer_compiles).

Lemma outer_compiled : compile same_type outer_definition ∅ = Ok (outer_graph, outer_memo).
Proof. vm_compute. reflexivity. Qed.
Lemma outer_planned : plan_for outer_memo outer_definition = Ok outer_graph.
Proof. vm_compute. reflexivity. Qed.

Lemma compile_rejects_cleanly_witness :
  demo_family outer_definition ∧ plan_for outer_memo outer_definition = Ok outer_graph
  ∧ faithful same_type demo_family outer_memo ∧ ∅ ⊆ outer_memo.
Proof.
  split; [by left|]. pose proof (compile_rejects_cleanly same_type demo_family demo_is_family outer_definition ∅
    (or_introl eq_refl) (faithful_empty same_type demo_family)) as H. rewrite outer_compiled in H. exact H.
Defined.

Lemma memo_matches_reference_witness :
  ∃ g memo, compile_plain same_type outer_definition = Ok g ∧ compile_validated same_type outer_definition ∅ = Ok (g, memo)
    ∧ ∃ gd, plan_for memo inner_definition = Ok gd ∧ compile_plain same_type inner_definition = Ok gd.
Proof.
  pose proof (memo_matches_reference same_type demo_family demo_is_family outer_definition ∅
    (or_introl eq_refl) (faithful_empty same_type demo_family)) as H.
  assert (compile_plain same_type outer_definition = Ok outer_graph) as E by (vm_compute; reflexivity). rewrite E in H.
  destruct H as (memo & Hm & Hsub). exists outer_graph, memo. split_and!; [exact E|exact Hm|]. apply Hsub.
  eapply (sub_child _ (lit "p")); [right; left|constructor].
Defined.

Lemma compiled_inputs_available_witness :
  ∃ inputs binding port, map_get (materializations (transition outer_graph)) (lit "b") = Ok inputs ∧ binding ∈ mp_bindings inputs
    ∧ rib_source binding = ResolvedValue (FromNodeOutput port) ∧ no_node_id port = lit "p"
    ∧ (∀ past, happened (tp_entries (transition outer_graph)) (gate_table outer_definition) (lit "b") past → lit "p" ∈ past).
Proof.
  eexists _, _, (mkNodeOutput (lit "p") (lit "y")). split; [vm_compute; reflexivity|]. split; [right; left|]. split; [reflexivity|].
  split; [reflexivity|]. refine (proj1 (compiled_inputs_available same_type demo_family demo_is_family outer_definition ∅ outer_graph outer_memo
    outer_definition outer_graph (lit "b") _ _ (mkNodeOutput (lit "p") (lit "y")) (or_introl eq_refl)
    (faithful_empty same_type demo_family) outer_compiled (sub_refl _) outer_planned _ _ _ _)).
  - vm_compute. right. left.
  - vm_compute. reflexivity.
  - right. left.
  - reflexivity.
Defined.

Lemma compiled_outputs_available_witness :
  ∃ output, output ∈ graph_outputs (transition outer_graph) ∧ gob_source output = FromNodeOutput (mkNodeOutput (lit "b") (lit "z"))
    ∧ ∃ gate, ends (ids_of outer_definition) (definition_edges outer_definition) gate.
Proof.
  eexists. split; [left|]. split; [reflexivity|].
  refine (proj1 (compiled_outputs_available same_type demo_family demo_is_family outer_definition ∅ outer_graph outer_memo
    outer_definition outer_graph _ (mkNodeOutput (lit "b") (lit "z")) (or_introl eq_refl)
    (faithful_empty same_type demo_family) outer_compiled (sub_refl _) outer_planned _ _)).
  - left.
  - reflexivity.
Defined.


Lemma compiled_completion_exact_witness :
  ∃ nodes plans, (∀ n, n ∈ nodes ↔ n ∈ ids_of outer_definition)
    ∧ Forall2 plan_for_join (joins_of (definition_edges outer_definition)) plans ∧ stores outer_graph outer_definition plans
    ∧ completion nodes (tp_entries (transition outer_graph)) (list_to_map (Topology.route_options (transition outer_graph)))
        (direct_table outer_definition) (conditional_table outer_definition)
        (unique_joins (tabulate (ids_of outer_definition) (λ n, plans_from n plans))) None.
Proof.
  destruct (compiled_completion_exact same_type demo_family demo_is_family outer_definition ∅ outer_graph outer_memo
    outer_definition outer_graph (or_introl eq_refl) (faithful_empty same_type demo_family) outer_compiled (sub_refl _) outer_planned)
    as (nodes & plans & Hn & Hp & Hst & _ & _ & Hc). exists nodes, plans. split_and!; [exact Hn|exact Hp|exact Hst|]. apply Hc. vm_compute. left.
Defined.
End demo.
