(* ===== verification/TypedGraphs.v ===== *)
(** * Typed graphs

    What compilation promises about types: the declarations of every frame of a compiled
    graph, and the values each of its bindings reads.  Two descriptors agree when they
    carry the same class. *)

From Stdlib Require Import ZArith NArith Lia Bool String.
From stdpp Require Import prelude strings gmap sorting.
From S2P Require Import Prelude Identity Topology GraphDefinition ControlGraph ControlGraphProofs ControlTopologyProofs Bindings DefinitionProofs Bdd FrontierRelation Compiler BindingProofs CompilerProofs CompilerTheorems.

Set Default Goal Selector "!".
Open Scope nat_scope.

Section typed.
Context {V W : Type} `{EqDecision V} `{EqDecision W} (value_type : V → W).
Notation Declarations := (list (OutputDeclaration V)).
Notation Binding := (ResolvedInputBinding V).
Implicit Types (g : CompiledGraph V) (w : W) (inputs : str → W → Prop) (outputs : str → str → W → Prop).

(** The first declaration of a name has class [w]. *)
Definition declares (declarations : Declarations) (name : str) w : Prop :=
  ∃ found, List.find (λ declaration, bool_decide (od_name declaration = name)) declarations = Some found
    ∧ value_type (od_descriptor found) = w.

(** A source reads a value of class [w], given the classes of graph inputs and node outputs. *)
Definition source_typed inputs outputs (source : ResolvedValueSource) w : Prop :=
  match source with
  | FromGraphInput port => inputs (gi_name port) w
  | FromNodeOutput port => outputs (no_node_id port) (no_output_name port) w
  end.

Definition input_typed inputs outputs (source : ResolvedInputSource) w : Prop :=
  match source with
  | ResolvedValue source => source_typed inputs outputs source w
  | PredecessorInput input =>
      (∀ port, port ∈ pi_sources input → outputs (no_node_id port) (no_output_name port) w)
      ∧ ∀ port, pi_start_input input = Some port → inputs (gi_name port) w
  end.

Definition binding_typed inputs outputs (binding : Binding) : Prop :=
  input_typed inputs outputs (rib_source binding) (value_type (rib_descriptor binding)).

Definition bindings_typed inputs outputs (bindings : list Binding) : Prop := Forall (binding_typed inputs outputs) bindings.

Lemma binding_typed_mono inputs inputs' outputs binding :
  (∀ name w, inputs name w → inputs' name w) → binding_typed inputs outputs binding → binding_typed inputs' outputs binding.
Proof. unfold binding_typed. destruct (rib_source binding) as [[port|port]|input]; cbn; naive_solver. Qed.

Lemma bindings_typed_mono inputs inputs' outputs bindings :
  (∀ name w, inputs name w → inputs' name w) → bindings_typed inputs outputs bindings → bindings_typed inputs' outputs bindings.
Proof. intros Hi Hb. eapply Forall_impl; [exact Hb|]. intros b. by apply binding_typed_mono. Qed.

(* ------------------------------------------------------------------ *)
(** ** Resolution *)

Lemma declaration_declares (declarations : Declarations) name found :
  declaration declarations name = Ok found → declares declarations name (value_type (od_descriptor found)).
Proof. unfold declaration. case_match eqn:E; [|done]. intros [= <-]. by eexists. Qed.

(** The classes a table of node outputs declares. *)
Definition in_table (table : gmap str Declarations) (n name : str) w : Prop :=
  ∃ declarations, table !! n = Some declarations ∧ declares declarations name w.

Context (table : gmap str Declarations).

Lemma resolve_source_typed source graph_inputs consumer out :
  resolve_source source graph_inputs table consumer = Ok out →
  source_typed (declares graph_inputs) (in_table table) out.1 (value_type out.2).
Proof using Type.
  destruct source as [name descriptor|n name descriptor]; cbn [resolve_source].
  - intros (found & Hf & [= <-])%bind_Ok. cbn. by apply declaration_declares.
  - intros [_ E]%seq_Ok_iff. apply bind_Ok in E as (ds & Hds & E). apply bind_Ok in E as (found & Hf & E).
    apply seq_Ok_iff in E as [_ [= <-]]. cbn. exists ds. split; [by case_match; simplify_eq|]. by apply declaration_declares.
Qed.

Lemma resolve_bindings_typed graph_inputs n bindings st st' :
  bindings_typed (declares graph_inputs) (in_table table) (nb_resolved st) →
  py_for_state bindings st (resolve_input_binding graph_inputs table n) = Ok st' →
  bindings_typed (declares graph_inputs) (in_table table) (nb_resolved st').
Proof using Type.
  apply (py_for_state_prefix (λ _ st, bindings_typed (declares graph_inputs) (in_table table) (nb_resolved st))).
  intros dn b s s' Hs E. unfold resolve_input_binding in E. destruct (ib_source b) as [source|name descriptor]; [|by injection E as <-].
  apply bind_Ok in E as ([source' descriptor] & Hr & [= <-]). cbn. apply Forall_app. split; [done|]. apply Forall_singleton.
  by apply resolve_source_typed in Hr.
Qed.

Lemma resolve_input_bindings_typed nodes ids graph_inputs out :
  resolve_input_bindings nodes ids graph_inputs table = Ok out →
  (∀ n, n ∈ ids → n ∈ dom out.1.1)
  ∧ map_Forall (λ _, bindings_typed (declares graph_inputs) (in_table table)) out.1.1.
Proof using Type.
  unfold resolve_input_bindings. intros (per_node & Hper%mapM_Forall2 & E)%bind_Ok. cbv zeta in E. apply bind_Ok in E as (cyclic & _ & E).
  apply seq_Ok_iff in E as [_ [= <-]]. cbn. split.
  - intros n Hn. apply keyed_dom. destruct (proj1 (list_elem_of_lookup _ _) Hn) as [k Hk].
    destruct (Forall2_lookup_l _ _ _ _ _ Hper Hk) as (out & Hout & E). apply bind_Ok in E as (node & _ & E).
    apply bind_Ok in E as (b & _ & [= <-]). apply list_elem_of_lookup_2 in Hout. by apply (list_elem_of_fmap_2 fst _ (n, b)).
  - intros n rs Hrs%elem_of_list_to_map_2. apply list_elem_of_fmap in Hrs as ([n' b] & [= -> ->] & Hin).
    destruct (Forall2_elem_r _ _ _ _ Hper Hin) as (n & _ & E). apply bind_Ok in E as (node & _ & E).
    apply bind_Ok in E as (b' & Hb & [= <- <-]). eapply resolve_bindings_typed; [|exact Hb]. constructor.
Qed.

(* ------------------------------------------------------------------ *)
(** ** Graph inputs *)

(** The classes of a dict of graph inputs. *)
Definition in_dict (descriptors : list (str * V)) (name : str) w : Prop :=
  ∃ descriptor, assoc name descriptors = Some descriptor ∧ value_type descriptor = w.

Lemma declares_dict descriptors name w :
  NoDup descriptors.*1 → declares (declarations_of descriptors) name w ↔ in_dict descriptors name w.
Proof using Type.
  intros Hnd. assert (∀ ds : list (str * V), List.find (λ d, bool_decide (od_name d = name))
    ((λ '(name, descriptor), mkOutputDeclaration name descriptor) <$> ds) = mkOutputDeclaration name <$> assoc name ds) as Hfind.
  { induction ds as [|[k v] ds IH]; cbn; [done|]. case_bool_decide; case_decide; by simplify_eq. }
  unfold declares, declarations_of, in_dict. rewrite Hfind.
  assert (∀ v, assoc name (sorted_key fst descriptors) = Some v ↔ assoc name descriptors = Some v) as Hs.
  { intros v. split; intros E%assoc_Some_elem; apply assoc_elem.
    - done.
    - unfold sorted_key in E. by rewrite sort_by_perm in E.
    - unfold sorted_key. by rewrite sort_by_perm.
    - unfold sorted_key. by rewrite sort_by_perm. }
  split.
  - intros (found & Hf & <-). apply fmap_Some in Hf as (v & Hv%Hs & ->). by exists v.
  - intros (v & Hv%Hs & <-). rewrite Hv. by eexists.
Qed.

Lemma collect_graph_inputs_dict definition graph_inputs :
  collect_graph_inputs value_type definition = Ok graph_inputs →
  ∃ descriptors, NoDup descriptors.*1 ∧ graph_inputs = declarations_of descriptors.
Proof using Type.
  unfold collect_graph_inputs. intros (descriptors & Hd & [= <-])%bind_Ok. exists descriptors. split; [|done].
  revert Hd. apply (py_for_state_prefix (λ _ ds, NoDup ds.*1)); [|constructor].
  intros dn [name descriptor] ds ds' Hnd [_ [= <-]]%seq_Ok_iff. by apply dict_set_NoDup.
Qed.

Lemma declared_names (descriptors : list (str * V)) : od_name <$> declarations_of descriptors = (sorted_key fst descriptors).*1.
Proof using Type. unfold declarations_of. rewrite <- list_fmap_compose. apply list_fmap_ext. by intros _ [k v] _. Qed.

(** The dict that completion starts from. *)
Lemma initial_dict (descriptors : list (str * V)) (graph_inputs := declarations_of descriptors)
    (initial := fold_left (λ acc declaration, dict_set (od_name declaration) (od_descriptor declaration) acc) graph_inputs []) :
  NoDup descriptors.*1 → NoDup initial.*1 ∧ ∀ name w, declares graph_inputs name w → in_dict initial name w.
Proof using Type.
  intros Hnd. split.
  - unfold initial. assert (NoDup (@nil (str * V)).*1) as Hnil by constructor. revert Hnil. generalize (@nil (str * V)).
    induction graph_inputs as [|x xs IH]; intros acc Hacc; cbn; [done|]. by apply IH, dict_set_NoDup.
  - intros name w (found & [Hin Hn%bool_decide_eq_true]%find_some & Hw). apply list_elem_of_In in Hin. exists (od_descriptor found).
    split; [|done]. apply assoc_comprehension; [|by exists found]. unfold graph_inputs. rewrite declared_names. unfold sorted_key.
    by rewrite sort_by_perm.
Qed.

(* ------------------------------------------------------------------ *)
(** ** Predecessor inputs *)

Lemma resolve_predecessor_typed output_name declared target input_name (gates : list RawGate) start_input out :
  resolve_predecessor_output value_type output_name declared target input_name table gates start_input = Ok out →
  pi_start_input out.1 = start_input
  ∧ ∀ port, port ∈ pi_sources out.1 → in_table table (no_node_id port) (no_output_name port) (value_type out.2).
Proof using Type.
  unfold resolve_predecessor_output. intros [_ E]%seq_Ok_iff. cbv zeta in E. apply seq_Ok_iff in E as [_ E].
  apply bind_Ok in E as (found & Hf & E). apply bind_Ok in E as ([descriptor port0] & _ & E).
  apply seq_Ok_iff in E as [Hsame%raise_if_Ok E]. apply seq_Ok_iff in E as [_ [= <-]]. cbn. split; [done|].
  intros port ([candidate port'] & -> & Hin)%list_elem_of_fmap. apply mapM_Forall2 in Hf.
  destruct (Forall2_elem_r _ _ _ _ Hf Hin) as (s & _ & E). apply bind_Ok in E as (ds & Hds%dict_get_Ok & E).
  apply bind_Ok in E as (d & Hd & [= <- <-]). cbn. exists ds. split; [done|].
  rewrite existsb_false_iff in Hsame. specialize (Hsame _ Hin). cbn in Hsame. apply negb_false_iff, bool_decide_eq_true in Hsame.
  rewrite <- Hsame. by apply declaration_declares.
Qed.

(** One more dict of graph inputs. *)
Definition extends (descriptors descriptors' : list (str * V)) : Prop :=
  NoDup descriptors'.*1 ∧ ∀ name w, in_dict descriptors name w → in_dict descriptors' name w.

Definition completing (state : list Binding * list (str * V)) : Prop :=
  NoDup state.2.*1 ∧ bindings_typed (in_dict state.2) (in_table table) state.1.

Lemma complete_predecessor_typed entries (gates : list RawGate) n state binding state' :
  completing state → complete_predecessor value_type table entries gates n state binding = Ok state' →
  extends state.2 state'.2 ∧ completing state'.
Proof using Type.
  destruct state as [rs ds], binding as [name [output_name declared]]. intros [Hnd Ht]. unfold complete_predecessor.
  intros ([source descriptor] & Hs & E)%bind_Ok. apply resolve_predecessor_typed in Hs as [Hstart Hports]. cbn [fst snd] in *.
  apply bind_Ok in E as ([descriptor' ds'] & Hd & [= <-]). cbn [fst snd].
  assert (extends ds ds' ∧ value_type descriptor' = value_type descriptor
    ∧ ∀ port, pi_start_input source = Some port → in_dict ds' (gi_name port) (value_type descriptor)) as (Hext & Hv & Hin).
  { rewrite Hstart. destruct (mem n entries); [|injection Hd as <- <-; by split_and!].
    destruct (assoc name ds) as [known|] eqn:Ek; cbn in Hd.
    - apply seq_Ok_iff in Hd as [Hk%raise_if_Ok%negb_false_iff%bool_decide_eq_true [= <- <-]]. split_and!; [by split|done|].
      intros port [= <-]. by exists known.
    - injection Hd as <- <-. split_and!; [split; [by apply dict_set_NoDup|]|done|].
      + intros x w (v & Hx & Hw). exists v. split; [|done]. rewrite assoc_dict_set, decide_False; [done|]. intros ->. by rewrite Ek in Hx.
      + intros port [= <-]. cbn. exists descriptor. by rewrite assoc_dict_set, decide_True. }
  split; [done|]. destruct Hext as [Hnd' Hmono]. split; [done|]. cbn. apply Forall_app. split; [by eapply bindings_typed_mono|].
  apply Forall_singleton. unfold binding_typed. cbn. rewrite Hv. done.
Qed.

Lemma complete_predecessors_typed entries (gates : list RawGate) n bindings state state' :
  completing state → py_for_state bindings state (complete_predecessor value_type table entries gates n) = Ok state' →
  extends state.2 state'.2 ∧ completing state'.
Proof using Type.
  intros Hc. apply (py_for_state_prefix (λ _ st, extends state.2 st.2 ∧ completing st)).
  - intros dn b st st' [[_ He] Hst] E. destruct (complete_predecessor_typed _ _ _ _ _ _ Hst E) as [[Hnd He'] Hst'].
    split; [split; [done|]|done]. intros name w ?%He. by apply He'.
  - split; [split; [apply Hc|done]|done].
Qed.

(* ------------------------------------------------------------------ *)
(** ** All nodes *)

Context (nodes : list (str * NodeDefinition V)) (nested : list (str * CompiledGraph V)).

(** The bindings of a nested node fit the inputs of its child. *)
Definition fits_child (n : str) (bindings : list Binding) : Prop :=
  ∀ i d ins child, assoc n nodes = Some (NestedGraphNode i d ins) → assoc n nested = Some child →
    matches_child_boundary value_type bindings (fd_declarations (graph_input_descriptor child)) = true.

(** What completion has established of the nodes [dn]. *)
Record completed_typed (dn : list str) (state : gmap str (list Binding) * list (str * V)) : Prop := {
  ct_dict : NoDup state.2.*1;
  ct_typed : map_Forall (λ _, bindings_typed (in_dict state.2) (in_table table)) state.1;
  ct_fits : ∀ n bindings, n ∈ dn → state.1 !! n = Some bindings → fits_child n bindings
}.

Lemma assoc_get_Ok {A} (d : list (str * A)) k v : assoc_get d k = Ok v ↔ assoc k d = Some v.
Proof using Type. unfold assoc_get. destruct (assoc k d); naive_solver. Qed.

Lemma complete_node_typed preds entries gates dn state n state' :
  completed_typed dn state → complete_node value_type nodes nested preds table entries gates state n = Ok state' →
  extends state.2 state'.2 ∧ completed_typed (dn ++ [n]) state'.
Proof using Type.
  destruct state as [completed ds]. intros [Hnd Ht Hf]. unfold complete_node. cbn [fst snd] in *.
  intros (rs & Hrs%dict_get_Ok & E)%bind_Ok. apply bind_Ok in E as (ps & _ & E). apply bind_Ok in E as (gs & _ & E).
  apply bind_Ok in E as ([rs' ds'] & Hp & E). apply complete_predecessors_typed in Hp as [Hext [Hnd' Ht']]; [|split; [done|by apply (Ht n)]].
  cbv zeta in E. apply bind_Ok in E as (node & Hnode%assoc_get_Ok & E). apply seq_Ok_iff in E as [Hfit [= <-]]. cbn [fst snd] in *.
  split; [done|]. destruct Hext as [_ Hmono]. split; cbn [fst snd]; [done| |].
  - apply map_Forall_insert_2.
    + unfold bindings_typed, sorted_key. by rewrite sort_by_perm.
    + intros m ms Hm. eapply bindings_typed_mono; [exact Hmono|]. by eapply Ht.
  - intros m ms Hm [[<- <-]|[Hne Hms]]%lookup_insert_Some.
    + intros i d ins child Hi Hchild. rewrite Hi in Hnode. injection Hnode as <-. cbn in Hfit.
      apply bind_Ok in Hfit as (child' & Hc%assoc_get_Ok & Hfit). rewrite Hchild in Hc. injection Hc as <-.
      by apply raise_if_Ok, negb_false_iff in Hfit.
    + apply Hf; [|done]. apply elem_of_app in Hm as [Hm|Hm%list_elem_of_singleton]; [done|by subst].
Qed.

Lemma complete_input_bindings_typed descriptors bindings preds entries gates out :
  NoDup descriptors.*1 →
  map_Forall (λ _, bindings_typed (declares (declarations_of descriptors)) (in_table table)) bindings →
  complete_input_bindings value_type nodes nested (declarations_of descriptors) bindings preds table entries gates = Ok out →
  (∀ name w, declares (declarations_of descriptors) name w → declares out.2 name w)
  ∧ map_Forall (λ n rs, bindings_typed (declares out.2) (in_table table) rs ∧ (n ∈ dom bindings → fits_child n rs)) out.1.
Proof using Type.
  intros Hnd Ht. unfold complete_input_bindings. cbv zeta. set (initial := fold_left _ _ _).
  destruct (initial_dict descriptors Hnd) as [Hnd0 Hmono0]. fold initial in Hnd0, Hmono0.
  intros ([completed ds] & E & [= <-])%bind_Ok. cbn [fst snd].
  assert (extends initial ds ∧ completed_typed (sorted_elements (dom bindings)) (completed, ds)) as [[Hnd' Hmono] [_ Ht' Hf]].
  { revert E. apply (py_for_state_prefix (λ dn st, extends initial st.2 ∧ completed_typed dn st)).
    - intros dn n st st' [[_ He] Hst] E. destruct (complete_node_typed _ _ _ _ _ _ _ Hst E) as [[Hn He'] Hst'].
      split; [split; [done|]|done]. intros name w ?%He. by apply He'.
    - split; [by split|]. split; cbn; [done| |by intros ? ? ?%elem_of_nil].
      intros n rs Hn. eapply bindings_typed_mono; [exact Hmono0|]. by eapply Ht. }
  cbn [fst snd] in *. split.
  - intros name w Hd. apply declares_dict; [done|]. by apply Hmono, Hmono0.
  - intros n rs Hn. split.
    + eapply bindings_typed_mono; [|by apply (Ht' n)]. intros name w. by apply declares_dict.
    + intros Hin. apply Hf; [|done]. by apply sorted_elements_elem.
Qed.

(* ------------------------------------------------------------------ *)
(** ** Compiled frames *)

(** The declaration of an input frame that a binding fills. *)
Definition destination_declaration (binding : Binding) : OutputDeclaration V :=
  mkOutputDeclaration (ni_local_name (rib_destination binding)) (rib_descriptor binding).

Definition retyped (before after : Binding) : Prop :=
  rib_destination after = rib_destination before ∧ rib_source after = rib_source before
  ∧ rib_descriptor after = rib_descriptor before.

Lemma retyped_bindings inputs outputs before after :
  Forall2 retyped before after → bindings_typed inputs outputs before → bindings_typed inputs outputs after.
Proof using Type.
  intros Hf Hb. unfold bindings_typed in *. rewrite Forall_forall in *. intros b Hin.
  destruct (Forall2_elem_r _ _ _ _ Hf Hin) as (b0 & Hb0 & _ & Hs & Hd). unfold binding_typed. rewrite Hs, Hd. by apply Hb.
Qed.

Lemma retyped_declarations before after :
  Forall2 retyped before after → destination_declaration <$> after = destination_declaration <$> before.
Proof using Type.
  induction 1 as [|b b' bs bs' (Hd & _ & Hv) _ IH]; cbn; [done|]. rewrite IH. f_equal. unfold destination_declaration. by rewrite Hd, Hv.
Qed.

(** The publication and the materialization compiled for one node. *)
Definition node_compiled (bindings : gmap str (list Binding)) (n : str) (publication : FrameDescriptor V)
    (plan : MaterializationPlan V) : Prop :=
  table !! n = Some (fd_declarations publication)
  ∧ fd_declarations (mp_descriptor plan) = destination_declaration <$> mp_bindings plan
  ∧ ∃ before, bindings !! n = Some before ∧ Forall2 retyped before (mp_bindings plan).

Lemma frame_descriptor_declarations d kind ordinal (declarations : Declarations) descriptor :
  frame_descriptor d kind ordinal declarations = Ok descriptor → fd_declarations descriptor = declarations.
Proof using Type. unfold frame_descriptor. by intros (identity & _ & [= <-])%bind_Ok. Qed.

Lemma compile_nodes_compiled d ids bindings levels gates by_target compiled :
  mapM (compile_node d table bindings levels gates by_target) (zip (seq 0 (length ids)) ids) = Ok compiled →
  compiled.*1 = ids ∧ ∀ n publication plan, (n, (publication, plan)) ∈ compiled → node_compiled bindings n publication plan.
Proof using Type.
  intros Hf%mapM_Forall2.
  assert (Forall2 (λ entry out, out.1 = entry.2 ∧ node_compiled bindings out.1 out.2.1 out.2.2) (zip (seq 0 (length ids)) ids) compiled) as Hc.
  { eapply Forall2_impl; [exact Hf|]. intros [ordinal n] out E. unfold compile_node in E.
    apply bind_Ok in E as (outputs & Ho%dict_get_Ok & E). apply bind_Ok in E as (publication & Hp%frame_descriptor_declarations & E).
    apply bind_Ok in E as (before & Hb%dict_get_Ok & E). apply bind_Ok in E as (after & Ha & E).
    apply bind_Ok in E as (descriptor & Hd%frame_descriptor_declarations & [= <-]). cbn. split; [done|]. split_and!; [by rewrite Hp|done|].
    exists before. split; [done|]. apply mapM_Forall2 in Ha. eapply Forall2_impl; [exact Ha|].
    intros b b' Eb. unfold publish_binding in Eb. by apply bind_Ok in Eb as (selection & _ & [= <-]). }
  split.
  - assert (compiled.*1 = (zip (seq 0 (length ids)) ids).*2) as ->; [|apply snd_zip; by rewrite length_seq].
    clear -Hc. induction Hc as [|x y xs ys [H _] _ IH]; cbn; [done|]. by rewrite H, IH.
  - intros n publication plan Hin. by destruct (Forall2_elem_r _ _ _ _ Hc Hin) as (entry & _ & _ & H).
Qed.
End typed.

(* ------------------------------------------------------------------ *)
(** ** Compiled graphs *)

Section compiled.
Context {V W : Type} `{EqDecision V} `{EqDecision W} (value_type : V → W).
Notation Declarations := (list (OutputDeclaration V)).
Implicit Types (g child : CompiledGraph V) (d : GraphDefinition V).

(** The classes of a graph's inputs and of its nodes' outputs. *)
Definition input_class g : str → W → Prop := declares value_type (fd_declarations (graph_input_descriptor g)).
Definition output_class g (n name : str) (w : W) : Prop :=
  ∃ publication, map_get (publications (transition g)) n = Ok publication
    ∧ declares value_type (fd_declarations publication) name w.

(** Two lists of declarations with the same names and classes. *)
Definition same_boundary : Declarations → Declarations → Prop :=
  Forall2 (λ a b, od_name a = od_name b ∧ value_type (od_descriptor a) = value_type (od_descriptor b)).

(** Every binding of a compiled graph reads a value of the class it declares, and the
    frames of a nested node are those of its child. *)
Record typed_graph g : Prop := {
  tg_nodes : ∀ n, map_has (cg_nodes g) n = true → ∃ plan publication,
    map_get (materializations (transition g)) n = Ok plan ∧ map_get (publications (transition g)) n = Ok publication;
  tg_inputs : ∀ n plan, map_get (materializations (transition g)) n = Ok plan →
    fd_declarations (mp_descriptor plan) = destination_declaration <$> mp_bindings plan
    ∧ bindings_typed value_type (input_class g) (output_class g) (mp_bindings plan);
  tg_outputs : fd_declarations (graph_output_descriptor g) = nested_outputs g
    ∧ Forall (λ binding, source_typed (input_class g) (output_class g) (gob_source binding) (value_type (gob_descriptor binding)))
        (graph_outputs (transition g));
  tg_children : ∀ n child, map_get (nested_graphs g) n = Ok child → ∃ plan publication,
    map_get (materializations (transition g)) n = Ok plan ∧ map_get (publications (transition g)) n = Ok publication
    ∧ same_boundary (fd_declarations (mp_descriptor plan)) (fd_declarations (graph_input_descriptor child))
    ∧ fd_declarations publication = nested_outputs child
}.

Lemma fits_same_boundary (bindings : list (ResolvedInputBinding V)) (expected : Declarations) :
  matches_child_boundary value_type bindings expected = true → same_boundary (destination_declaration <$> bindings) expected.
Proof.
  unfold matches_child_boundary. intros [Hl%Nat.eqb_eq Hall]%andb_true_iff. revert expected Hl Hall.
  induction bindings as [|b bs IH]; intros [|e es]; cbn; try done; [constructor|]. intros [= Hl] [[Hn Hv]%andb_true_iff Hall]%andb_true_iff.
  constructor; [|by apply IH]. cbn. by apply bool_decide_eq_true in Hn, Hv.
Qed.

(** The two tables of frames of a compiled graph. *)
Lemma compiled_entry (compiled : list (str * (FrameDescriptor V * MaterializationPlan V))) n publication plan :
  NoDup compiled.*1 → (n, (publication, plan)) ∈ compiled →
  map_get (frozen_map ((λ '(n, (_, plan)), (n, plan)) <$> compiled)) n = Ok plan
  ∧ map_get (frozen_map ((λ '(n, (publication, _)), (n, publication)) <$> compiled)) n = Ok publication.
Proof.
  intros Hnd Hin. split; (apply frozen_get; [|apply list_elem_of_fmap; by exists (n, (publication, plan))]);
    rewrite <- list_fmap_compose; (replace (_ <$> compiled) with compiled.*1; [done|]); apply list_fmap_ext; by intros _ [? [? ?]] _.
Qed.

Lemma compiled_plan (compiled : list (str * (FrameDescriptor V * MaterializationPlan V))) n plan :
  map_get (frozen_map ((λ '(n, (_, plan)), (n, plan)) <$> compiled)) n = Ok plan → ∃ publication, (n, (publication, plan)) ∈ compiled.
Proof.
  intros Hin%map_get_In. unfold frozen_map, sorted_key in Hin. rewrite sort_by_perm in Hin.
  apply list_elem_of_fmap in Hin as ([n' [publication plan']] & [= -> ->] & Hin). by exists publication.
Qed.

Lemma canonical_keyed d keyed :
  mapM (λ node, node ← canonical_node (definition_resources d) node; Ok (node_id node, node)) (definition_nodes d) = Ok keyed →
  keyed.*1 = node_id <$> definition_nodes d
  ∧ ∀ i inner ins, NestedGraphNode i inner ins ∈ definition_nodes d → (i, NestedGraphNode i inner ins) ∈ keyed.
Proof.
  intros Hf%mapM_Forall2.
  assert (Forall2 (λ node out, out.1 = node_id node ∧ match node with NestedGraphNode _ _ _ => out.2 = node | _ => True end)
    (definition_nodes d) keyed) as Hc.
  { eapply Forall2_impl; [exact Hf|]. intros node out E. apply bind_Ok in E as (node' & Hn & [= <-]). cbn.
    destruct node; cbn in Hn; [by apply bind_Ok in Hn as (? & _ & [= <-])|by injection Hn as <-]. }
  split.
  - clear -Hc. induction Hc as [|x y xs ys [H _] _ IH]; cbn; [done|]. by rewrite H, IH.
  - intros i inner ins [k Hk]%list_elem_of_lookup. destruct (Forall2_lookup_l _ _ _ _ _ Hc Hk) as ([n node] & Hk' & Hn & Hnode).
    cbn in *. subst. by eapply list_elem_of_lookup_2.
Qed.

(** The outputs of every node. *)
Lemma outputs_table (nodes : list (str * NodeDefinition V)) nested ids rows n :
  mapM (λ n, outputs ← outputs_of nested nodes n; Ok (n, outputs)) ids = Ok rows →
  (∀ outputs, (list_to_map rows : gmap str Declarations) !! n = Some outputs → n ∈ ids ∧ outputs_of nested nodes n = Ok outputs).
Proof.
  intros Hf%mapM_Forall2 outputs Hin%elem_of_list_to_map_2. destruct (Forall2_elem_r _ _ _ _ Hf Hin) as (n' & Hn' & E).
  apply bind_Ok in E as (outputs' & Ho & [= <- <-]). done.
Qed.

Lemma compile_output_typed graph_inputs table terminal levels gates (output : GraphOutputDeclaration V) binding :
  compile_output graph_inputs table terminal levels gates output = Ok binding →
  source_typed (declares value_type graph_inputs) (in_table value_type table) (gob_source binding) (value_type (gob_descriptor binding)).
Proof.
  unfold compile_output. intros ([source descriptor] & Hs & E)%bind_Ok. apply bind_Ok in E as (publication & _ & [= <-]). cbn.
  by apply (resolve_source_typed value_type) in Hs.
Qed.

Lemma source_typed_mono inputs (outputs outputs' : str → str → W → Prop) source w :
  (∀ n name w, outputs n name w → outputs' n name w) → source_typed inputs outputs source w → source_typed inputs outputs' source w.
Proof. intros Ho. destruct source as [port|port]; cbn; [done|apply Ho]. Qed.

Lemma bindings_typed_outputs inputs (outputs outputs' : str → str → W → Prop) bindings :
  (∀ n name w, outputs n name w → outputs' n name w) → bindings_typed value_type inputs outputs bindings →
  bindings_typed value_type inputs outputs' bindings.
Proof.
  intros Ho Hb. eapply Forall_impl; [exact Hb|]. intros b. unfold binding_typed.
  destruct (rib_source b) as [source|input]; cbn; [by apply source_typed_mono|naive_solver].
Qed.

Lemma compile_definition_typed d nested g :
  NoDup (node_id <$> definition_nodes d) → NoDup nested.*1 →
  (∀ i, i ∈ nested.*1 → ∃ inner ins, NestedGraphNode i inner ins ∈ definition_nodes d) →
  compile_definition value_type d nested = Ok g → typed_graph g.
Proof.
  intros Hnd Hndn Honly. unfold compile_definition. cbv zeta.
  intros (keyed & [Hkeys Hkeyed]%canonical_keyed & E)%bind_Ok. rewrite dict_set_all in E by (cbn [app]; by rewrite Hkeys).
  cbn [app] in E. rewrite Hkeys in E. set (ids := sorted (node_id <$> definition_nodes d)) in *.
  apply bind_Ok in E as (gi & (ds & Hds & ->)%collect_graph_inputs_dict & E).
  apply bind_Ok in E as (rows & Hrows & E). set (table := list_to_map rows : gmap str Declarations) in *.
  apply bind_Ok in E as ([[bindings preds] data] & [Hdom Hb]%(resolve_input_bindings_typed value_type) & E).
  apply bind_Ok in E as ([control options] & _ & E). apply bind_Ok in E as (entries & _ & E).
  apply bind_Ok in E as ([completed gi] & Hc%complete_input_bindings_typed & E); [|done|exact Hb].
  destruct Hc as [Hmono Hcompleted]. cbn [fst snd] in *.
  apply bind_Ok in E as (plan & _ & E). apply bind_Ok in E as (outputs & Houtputs & E).
  apply bind_Ok in E as (compiled & [Hcompiled Hnode]%compile_nodes_compiled & E). apply bind_Ok in E as (gates & _ & E).
  apply bind_Ok in E as (input & Hinput%frame_descriptor_declarations & E).
  apply bind_Ok in E as (output & Houtput%frame_descriptor_declarations & [= <-]).
  assert (∀ n, n ∈ ids → ∃ publication mplan, (n, (publication, mplan)) ∈ compiled) as Hrow.
  { intros n Hn. rewrite <- Hcompiled in Hn. apply list_elem_of_fmap in Hn as ([n' [publication mplan]] & -> & Hin). by exists publication, mplan. }
  assert (NoDup compiled.*1) as Hndc by (rewrite Hcompiled; by apply sorted_NoDup).
  assert (∀ n name w, in_table value_type table n name w → ∃ publication,
    map_get (frozen_map ((λ '(n, (publication, _)), (n, publication)) <$> compiled)) n = Ok publication
    ∧ declares value_type (fd_declarations publication) name w) as Hclass.
  { intros n name w (declared & Hd & Hw). destruct (outputs_table _ _ _ _ _ Hrows _ Hd) as [Hn _].
    destruct (Hrow n Hn) as (publication & mplan & Hin). exists publication.
    destruct (Hnode _ _ _ Hin) as (Ht & _). rewrite Hd in Ht. injection Ht as ->. split; [|done]. by apply (compiled_entry _ _ _ mplan). }
  split; cbn.
  - intros n Hhas. unfold map_has in Hhas. destruct (map_get _ n) as [node|] eqn:Hnode'; [|done]. apply map_get_In, (list_elem_of_fmap_2 fst) in Hnode'. rewrite frozen_keys in Hnode'.
    rewrite <- list_fmap_compose in Hnode'. apply list_elem_of_fmap in Hnode' as ([n' node'] & E & Hin). cbn in E. subst n.
    apply (list_elem_of_fmap_2 fst) in Hin. rewrite Hkeys in Hin. destruct (Hrow n') as (publication & mplan & Hin'); [by apply sorted_elem|].
    exists mplan, publication. by apply compiled_entry.
  - intros n mplan (publication & Hin)%compiled_plan. destruct (Hnode _ _ _ Hin) as (_ & Hdecl & before & Hbefore & Hre). split; [done|].
    eapply retyped_bindings; [exact Hre|]. eapply bindings_typed_outputs; [exact Hclass|].
    unfold input_class. cbn. rewrite Hinput. by apply (Hcompleted n before Hbefore).
  - split; [by rewrite Houtput|]. apply Forall_forall. intros binding Hin. apply mapM_Forall2 in Houtputs.
    destruct (Forall2_elem_r _ _ _ _ Houtputs Hin) as (declared & _ & Ho%compile_output_typed).
    unfold input_class. cbn. rewrite Hinput. by eapply source_typed_mono.
  - intros n child Hchild%map_get_In.
    unfold frozen_map, sorted_key in Hchild. rewrite sort_by_perm in Hchild.
    pose proof (assoc_elem _ _ _ Hndn Hchild) as Hassoc. apply (list_elem_of_fmap_2 fst) in Hchild.
    destruct (Honly _ Hchild) as (inner & ins & Hinner). pose proof (Hkeyed _ _ _ Hinner) as Hk. cbn [fst] in *.
    apply assoc_elem in Hk; [|by rewrite Hkeys].
    assert (n ∈ ids) as Hn by (apply sorted_elem; by apply (list_elem_of_fmap_2 node_id) in Hinner).
    destruct (Hrow n Hn) as (publication & mplan & Hin). exists mplan, publication. destruct (compiled_entry _ _ _ _ Hndc Hin) as [-> ->].
    destruct (Hnode _ _ _ Hin) as (Ht & Hdecl & before & Hbefore & Hre). split_and!; [done..| |].
    + rewrite Hdecl, (retyped_declarations _ _ Hre). apply fits_same_boundary.
      by eapply (Hcompleted n before Hbefore); [by apply Hdom|..].
    + destruct (outputs_table _ _ _ _ _ Hrows _ Ht) as [_ Ho]. unfold outputs_of, assoc_get in Ho. rewrite Hk in Ho. cbn in Ho.
      rewrite Hassoc in Ho. cbn in Ho. by injection Ho.
Qed.

(* ------------------------------------------------------------------ *)
(** ** Families *)

Lemma plain_nodes_typed d nested :
  py_for_state (definition_nodes d) [] (plain_node value_type) = Ok nested →
  NoDup nested.*1 ∧ ∀ i child, (i, child) ∈ nested →
    ∃ inner ins, NestedGraphNode i inner ins ∈ definition_nodes d ∧ compile_plain value_type inner = Ok child.
Proof.
  apply (py_for_state_prefix (λ dn nested, NoDup nested.*1 ∧ ∀ i child, (i, child) ∈ nested →
    ∃ inner ins, NestedGraphNode i inner ins ∈ dn ∧ compile_plain value_type inner = Ok child)).
  - intros dn node ns ns' [Hnd Hns] E. destruct node as [i ins outs rs routes|i inner ins]; cbn in E.
    + injection E as <-. split; [done|]. intros j child (inner & ins' & Hin & Hc)%Hns. exists inner, ins'. split; [|done]. apply elem_of_app. by left.
    + apply bind_Ok in E as (child & Hc & [= <-]). pose proof (dict_set_NoDup i child _ Hnd) as Hnd'. split; [done|].
      intros j child' Hj. pose proof (assoc_elem _ _ _ Hnd' Hj) as Ha. rewrite assoc_dict_set in Ha. case_decide as E.
      * simplify_eq. exists inner, ins. split; [|done]. apply elem_of_app. right. by left.
      * apply assoc_Some_elem, Hns in Ha as (inner' & ins' & Hin & Hc'). exists inner', ins'. split; [|done]. apply elem_of_app. by left.
  - split; [constructor|]. by intros i child ?%elem_of_nil.
Qed.

Lemma compile_definition_nested d nested g : compile_definition value_type d nested = Ok g → nested_graphs g = frozen_map nested.
Proof.
  unfold compile_definition. cbv zeta. intros E. repeat (apply bind_Ok in E as (? & _ & E); repeat case_match; subst).
  by injection E as <-.
Qed.

(** The graphs nested in a compiled one are compiled. *)
Lemma compile_plain_child d g n child :
  all_valid d → compile_plain value_type d = Ok g → map_get (nested_graphs g) n = Ok child →
  ∃ inner, all_valid inner ∧ compile_plain value_type inner = Ok child.
Proof.
  intros Hv. rewrite compile_plain_unfold. intros (nested & [_ Hns]%plain_nodes_typed & Hc)%bind_Ok Hchild.
  rewrite (compile_definition_nested _ _ _ Hc) in Hchild.
  apply map_get_In in Hchild. unfold frozen_map, sorted_key in Hchild. rewrite sort_by_perm in Hchild.
  destruct (Hns _ _ Hchild) as (inner & ins & Hin & Hinner). exists inner. split; [|done].
  intros d' Hs. apply Hv. by eapply sub_child.
Qed.

(** A graph of a compiled family is typed, and so are the graphs nested in it. *)
Lemma compile_plain_typed d g : all_valid d → compile_plain value_type d = Ok g → typed_graph g.
Proof.
  intros Hv. rewrite compile_plain_unfold. intros (nested & [Hnd Hns]%plain_nodes_typed & Hc)%bind_Ok.
  eapply compile_definition_typed; [apply (Hv d (sub_refl d))|exact Hnd| |exact Hc].
  intros i ([j child] & -> & (inner & ins & Hin & _)%Hns)%list_elem_of_fmap. by exists inner, ins.
Qed.

Lemma compile_plain_scoped segments d g g' :
  all_valid d → compile_plain value_type d = Ok g → compiled_graph_at_scope g segments = Ok g' → typed_graph g'.
Proof.
  revert d g. induction segments as [|segment segments IH]; cbn; intros d g Hv Hc E.
  - injection E as <-. by eapply compile_plain_typed.
  - apply bind_Ok in E as (child & Hn%except_Ok & E). destruct (compile_plain_child _ _ _ _ Hv Hc Hn) as (inner & Hvi & Hi). by eapply IH.
Qed.
End compiled.

Lemma compiled_typed {V W : Type} `{EqDecision V} `{EqDecision W} (value_type : V → W) family root retained g memo d gd segments gs :
  is_family family → family root → faithful value_type family retained → compile value_type root retained = Ok (g, memo) →
  sub root d → plan_for memo d = Ok gd → compiled_graph_at_scope gd segments = Ok gs → typed_graph value_type gs.
Proof.
  intros Hfam Hr Hf Hc Hs Hp Hsc. pose proof (validate_graph_spec root (family_coherent family (fam_nested _ Hfam) (fam_object _ Hfam) root Hr)) as Hval.
  pose proof (compile_family value_type family (fam_nested _ Hfam) (fam_object _ Hfam) root retained Hr Hf) as Hv.
  rewrite Hc in Hv. destruct Hv as (_ & Hm & _). unfold compile in Hc. apply seq_Ok_iff in Hc as [Hok _]. rewrite Hok in Hval.
  unfold plan_for in Hp. apply dict_get_Ok in Hp. cbn in Hm.
  assert (family d) as Hd by (by eapply (family_sub family (fam_nested _ Hfam) root)).
  destruct (Hm d gd Hd Hp) as [Hplain _]. eapply compile_plain_scoped; [|exact Hplain|exact Hsc].
  intros d' Hs'. apply Hval. by eapply sub_trans.
Qed.
