(* ===== verification/NextFrontier.v ===== *)
(** * Next-frontier plans

    A declarative account of what a command that resolves a settled frontier has to
    supply: which arrivals every Join occurrence has ([arrivals_ok]), which activations,
    retained Join records and consumed occurrences follow from them ([plan_ok]), and the
    proof that [advance_graph_frontier] and [complete_graph_frontier] accept every such
    plan, final re-validation included.  The routing resolver is proved to produce such
    plans in [RoutingProofs]. *)

From Stdlib Require Import ZArith NArith Lia Bool String.
From stdpp Require Import prelude strings gmap sorting.
From S2P Require Import Prelude Identity Resources ResourceProofs Model Validation Transitions WellFormed Reducer ReducerProofs OperationProofs SettleProofs AdvanceProofs Topology.

Set Default Goal Selector "!".

(* ------------------------------------------------------------------ *)
(** ** Sorted lists *)

Lemma strictly_sorted_unique {A B} `{CmpLaws B} (key : A → B) (xs ys : list A) :
  strictly_sorted key xs → strictly_sorted key ys → xs ≡ₚ ys → xs = ys.
Proof.
  intros Hx Hy Hp. rewrite <-(sorted_key_id key xs), <-(sorted_key_id key ys) by done.
  assert (AntiSymm (=) (λ x y, cmp_lt (key x) (key y))) as Ha.
  { intros x y H1 H2. by destruct (cmp_lt_asym _ _ H1). }
  assert (xs = ys) as ->; [|done]. by eapply (StronglySorted_unique _ _ _ Hx Hy).
Qed.

Lemma sorted_key_strict {A B} `{CmpLaws B} (key : A → B) (xs : list A) :
  NoDup (key <$> xs) → strictly_sorted key (sorted_key key xs).
Proof.
  intros Hnd. apply weakly_sorted_strict; [apply sorted_key_weak|].
  unfold sorted_key. by rewrite sort_by_perm.
Qed.

Lemma sorted_strict `{CmpLaws A} (xs : list A) : NoDup xs → strictly_sorted (λ x, x) (sorted xs).
Proof. intros Hnd. apply (sorted_key_strict (λ x, x)). by rewrite list_fmap_id. Qed.

Lemma sorted_key_perm {A B} `{Cmp B} (key : A → B) (xs : list A) : sorted_key key xs ≡ₚ xs.
Proof. apply sort_by_perm. Qed.

Lemma reference_nodes_perm xs ys : xs ≡ₚ ys → reference_nodes xs ≡ₚ reference_nodes ys.
Proof. unfold reference_nodes. by intros ->. Qed.

(** Distinct nodes make distinct canonical keys. *)
Lemma nodes_NoDup_keys refs : NoDup (reference_nodes refs) → NoDup (canonical_key <$> refs).
Proof.
  unfold reference_nodes. induction refs as [|r refs IH]; cbn; [constructor|].
  intros [Hr Hnd]%NoDup_cons. constructor; [|auto].
  intros (r' & Heq & Hin)%list_elem_of_fmap. apply (inj canonical_key) in Heq as ->.
  apply Hr. by apply (list_elem_of_fmap_2 (act_node_id ∘ ref_activation)).
Qed.

Lemma strictly_sorted_List_filter {A B} `{CmpLaws B} (key : A → B) (p : A → bool) (xs : list A) :
  strictly_sorted key xs → strictly_sorted key (List.filter p xs).
Proof.
  induction 1 as [|x xs Hs IH Hx]; cbn; [constructor|]. destruct (p x); [|done].
  constructor; [done|]. rewrite Forall_forall in Hx |- *. intros y [_ Hy]%List_filter_elem. auto.
Qed.

Lemma List_filter_perm {A} (p : A → bool) (xs ys : list A) :
  xs ≡ₚ ys → List.filter p xs ≡ₚ List.filter p ys.
Proof.
  induction 1 as [|x xs ys _ IH|x y xs|xs ys zs _ IH1 _ IH2]; cbn; [done|..].
  - destruct (p x); [by constructor|done].
  - destruct (p x), (p y); [constructor|done..].
  - by etrans.
Qed.

Lemma List_filter_all {A} (p : A → bool) (xs : list A) :
  (∀ x, x ∈ xs → p x = true) → List.filter p xs = xs.
Proof.
  induction xs as [|x xs IH]; cbn; intros H; [done|]. rewrite H by (by left). f_equal.
  apply IH. intros y Hy. apply H. by right.
Qed.

Lemma List_filter_none {A} (p : A → bool) (xs : list A) :
  (∀ x, x ∈ xs → p x = false) → List.filter p xs = [].
Proof.
  induction xs as [|x xs IH]; cbn; intros H; [done|]. rewrite H by (by left).
  apply IH. intros y Hy. apply H. by right.
Qed.

(* ------------------------------------------------------------------ *)
(** ** The arrivals of the Join occurrences *)

(** The arrivals the state already holds for an occurrence. *)
Definition arrived_before (s : GraphRunState) (o : GraphJoinOccurrenceIdentity)
    : list ActivationReference :=
  match assoc o (progress_index (st_join_progress s)) with Some j => jp_arrived j | None => [] end.

Definition pending_join (s : GraphRunState) (o : GraphJoinOccurrenceIdentity) : Prop :=
  o ∈ jp_occurrence <$> st_join_progress s.

Definition complete (o : GraphJoinOccurrenceIdentity) (refs : list ActivationReference) : Prop :=
  ∀ x, x ∈ reference_nodes refs ↔ x ∈ join_sources (occ_join o).

Lemma complete_spec o refs :
  same_set (reference_nodes refs) (join_sources (occ_join o)) = true ↔ complete o refs.
Proof. apply same_set_spec. Qed.

#[export] Instance complete_dec o refs : Decision (complete o refs).
Proof.
  refine (cast_if (decide (same_set (reference_nodes refs) (join_sources (occ_join o)) = true)));
    abstract (by rewrite <-complete_spec).
Defined.

(** One occurrence with its arrivals: older ones first, then current successes. *)
Record arrival_set (s : GraphRunState) (o : GraphJoinOccurrenceIdentity)
    (refs : list ActivationReference) : Prop := {
  as_occurrence : occurrence_ok s o;
  as_future : (st_superstep s < occ_target_superstep o)%Z;
  as_split : ∃ current, refs = arrived_before s o ++ current ∧ current ⊆ frontier_references s;
  as_distinct : NoDup (reference_nodes refs);
  as_sources : reference_nodes refs ⊆ join_sources (occ_join o);
  as_some : refs ≠ []
}.

Record arrivals_ok (s : GraphRunState)
    (arrivals : list (GraphJoinOccurrenceIdentity * list ActivationReference)) : Prop := {
  al_keys : NoDup (fst <$> arrivals);
  al_sets : ∀ o refs, (o, refs) ∈ arrivals → arrival_set s o refs;
  al_pending : ∀ o, pending_join s o → o ∈ fst <$> arrivals
}.

Section state.
Context (s : GraphRunState) (Hwf : wf s).

Lemma pending_index o :
  pending_join s o →
  ∃ j, assoc o (progress_index (st_join_progress s)) = Some j ∧ j ∈ st_join_progress s
       ∧ jp_occurrence j = o ∧ arrived_before s o = jp_arrived j.
Proof using Hwf.
  intros (j & -> & Hj)%list_elem_of_fmap. unfold arrived_before.
  pose proof (strictly_sorted_NoDup_key _ _ (js_sorted s (wf_joins s Hwf))) as Hnd.
  exists j. rewrite assoc_progress_index_lookup by done. done.
Qed.

Lemma not_pending_index o :
  ¬ pending_join s o →
  assoc o (progress_index (st_join_progress s)) = None ∧ arrived_before s o = [].
Proof using.
  unfold pending_join, arrived_before. rewrite <-fst_progress_index.
  intros Hn%assoc_None. by rewrite Hn.
Qed.

#[local] Instance pending_join_dec o : Decision (pending_join s o) := decide (_ ∈ _).

(** Older arrivals are well-formed references of earlier supersteps. *)
Lemma arrived_before_past o r :
  r ∈ arrived_before s o →
  reference_ok r ∧ act_run_id (ref_activation r) = st_run_id s
  ∧ (act_superstep (ref_activation r) < st_superstep s)%Z ∧ r ∈ settled_references s.
Proof using Hwf.
  destruct (decide (pending_join s o)) as [Hp|Hp].
  - apply pending_index in Hp as (j & _ & Hj & <- & ->). intros Hr.
    destruct (js_records s (wf_joins s Hwf) j Hj) as [Ho _ _ _ _ _ _ Harr].
    destruct (Harr r Hr) as [? Hrun ? ? ? ?]. by rewrite (oo_run _ _ Ho) in Hrun.
  - apply not_pending_index in Hp as [_ ->]. by intros ?%elem_of_nil.
Qed.

Lemma arrived_before_sorted o : strictly_sorted canonical_key (arrived_before s o).
Proof using Hwf.
  destruct (decide (pending_join s o)) as [Hp|Hp].
  - apply pending_index in Hp as (j & _ & Hj & <- & ->).
    by apply (js_records s (wf_joins s Hwf) j Hj).
  - apply not_pending_index in Hp as [_ ->]. constructor.
Qed.

(** Current successes are well-formed references of the current superstep. *)
Lemma frontier_reference_ok r :
  r ∈ frontier_references s →
  reference_ok r ∧ act_run_id (ref_activation r) = st_run_id s
  ∧ act_superstep (ref_activation r) = st_superstep s.
Proof using Hwf.
  intros (n & rt & Hn & Hx & ->)%elem_frontier_references. cbn. split; [|done].
  destruct (fo_nodes s (wf_frontier s Hwf) n Hn) as [Hid _ Hset _]. rewrite Hx in Hset. cbn in Hset.
  split; cbn; [|done]. split; cbn; [apply Hwf|apply Hwf|done].
Qed.

Lemma frontier_reference_settled r :
  st_status s = RUNNING → r ∈ frontier_references s → r ∈ settled_references s.
Proof using Hwf.
  intros Hst Hr. by apply (lo_current s (wf_ledger s Hwf)) in Hr as [? _]; [|rewrite Hst].
Qed.

(* ------------------------------------------------------------------ *)
(** ** Classification of references, forwards *)

Definition usable (r : ActivationReference) : Prop :=
  act_run_id (ref_activation r) = st_run_id s
  ∧ ((act_superstep (ref_activation r) < st_superstep s)%Z ∨ r ∈ frontier_references s).

Definition is_past (r : ActivationReference) : bool :=
  (act_superstep (ref_activation r) <? st_superstep s)%Z.

Lemma classify_references_total refs :
  (∀ r, r ∈ refs → usable r) →
  classify_references s refs = Ok (List.filter (λ r, negb (is_past r)) refs, List.filter is_past refs).
Proof using Hwf.
  unfold classify_references.
  assert (∀ refs cur hist, (∀ r, r ∈ refs → usable r) →
    py_for_state refs (cur, hist) (λ '(current, historical) reference,
      let source := ref_activation reference in
      fail_if (negb (bool_decide (act_run_id source = st_run_id s))
               || (st_superstep s <? act_superstep source)%Z)
        "next activation cause references the wrong frontier";;
      if (act_superstep source <? st_superstep s)%Z then Ok (current, historical ++ [reference]) else
      match frontier_node (st_frontier s) (act_node_id source) with
      | Some (mkFrontierNode _ (SucceededGraphNode routing) _) =>
          fail_if (negb (bool_decide (ref_route reference = selected_route routing)))
            "next activation cause route does not match source settlement";;
          Ok (current ++ [reference], historical)
      | _ => Raise (Exn GraphStateTransitionError
               "next activation cause source is not a settled success")
      end) = Ok (cur ++ List.filter (λ r, negb (is_past r)) refs, hist ++ List.filter is_past refs)) as Hgo.
  2: { intros H. exact (Hgo refs [] [] H). }
  clear refs. induction refs as [|r refs IH]; intros cur hist Hok; [by rewrite !app_nil_r|].
  destruct (Hok r) as [Hrun Hpast]; [by left|].
  assert (∀ x, x ∈ refs → usable x) as Hok' by (intros x Hx; apply Hok; by right).
  assert (act_superstep (ref_activation r) ≤ st_superstep s)%Z as Hle.
  { destruct Hpast as [?|Hr]; [lia|]. apply frontier_reference_ok in Hr as (_ & _ & ?). lia. }
  cbn [py_for_state List.filter]. rewrite bool_decide_true by done. cbn [negb orb].
  destruct (Z.ltb_spec (st_superstep s) (act_superstep (ref_activation r))) as [?|_]; [lia|].
  destruct (is_past r) eqn:Ep; unfold is_past in Ep; rewrite Ep; cbn.
  - rewrite (IH _ _ Hok'), <-app_assoc. done.
  - apply Z.ltb_ge in Ep.
    destruct Hpast as [?|(n & rt & Hn & Hx & ->)%elem_frontier_references]; [lia|]. cbn.
    rewrite frontier_node_lookup; [|apply (wf_frontier s Hwf)|done]. destruct n as [i x c]; cbn in *. subst x.
    rewrite bool_decide_true by done. cbn. rewrite (IH _ _ Hok'), <-app_assoc. done.
Qed.
End state.

(* ------------------------------------------------------------------ *)
(** ** Plans *)

(** What an activation of the next frontier may be caused by. *)
Inductive next_cause (s : GraphRunState)
    (arrivals : list (GraphJoinOccurrenceIdentity * list ActivationReference)) (target : str)
    : GraphActivationCause → Prop :=
| CauseSuccess r :
    r ∈ frontier_references s → next_cause s arrivals target (RoutedActivationCause [r] None)
| CauseJoin o refs :
    (o, refs) ∈ arrivals → complete o refs → occ_target_superstep o = (st_superstep s + 1)%Z →
    join_target (occ_join o) = target → target ≠ END →
    next_cause s arrivals target (RoutedActivationCause (sorted_key canonical_key refs) (Some o)).

(** The activations, retained Join records and explicitly consumed occurrences that
    the arrivals determine. *)
Record plan_ok (s : GraphRunState)
    (arrivals : list (GraphJoinOccurrenceIdentity * list ActivationReference))
    (acts : list GraphFrontierActivation) (remaining : list GraphJoinProgress)
    (consumed : list GraphJoinOccurrenceIdentity) : Prop := {
  pl_sorted : strictly_sorted fa_node_id acts;
  pl_acts : ∀ a, a ∈ acts →
    canonical (fa_node_id a) ∧ next_cause s arrivals (fa_node_id a) (fa_cause a);
  pl_fired : ∀ o refs, (o, refs) ∈ arrivals → complete o refs → join_target (occ_join o) ≠ END →
    ∃ a, a ∈ acts ∧ fa_cause a = RoutedActivationCause (sorted_key canonical_key refs) (Some o);
  pl_remaining_sorted : strictly_sorted jp_occurrence remaining;
  pl_remaining : ∀ j, j ∈ remaining → ∃ refs, (jp_occurrence j, refs) ∈ arrivals
    ∧ jp_arrived j = sorted_key canonical_key refs ∧ ¬ complete (jp_occurrence j) refs
    ∧ (st_superstep s + 1 < occ_target_superstep (jp_occurrence j))%Z;
  pl_retained : ∀ o refs, (o, refs) ∈ arrivals → ¬ complete o refs →
    mkJoinProgress o (sorted_key canonical_key refs) ∈ remaining;
  pl_consumed_sorted : strictly_sorted (λ o, o) consumed;
  pl_consumed : ∀ o, o ∈ consumed → pending_join s o ∧ join_target (occ_join o) = END
    ∧ ∃ refs, (o, refs) ∈ arrivals ∧ complete o refs ∧ occ_target_superstep o = (st_superstep s + 1)%Z;
  pl_ended : ∀ o refs, (o, refs) ∈ arrivals → complete o refs → join_target (occ_join o) = END →
    pending_join s o → o ∈ consumed
}.

(** Every current success at a source of a pending END Join arrives at that occurrence. *)
Definition ends_aligned (s : GraphRunState)
    (arrivals : list (GraphJoinOccurrenceIdentity * list ActivationReference)) : Prop :=
  ∀ o refs r, pending_join s o → join_target (occ_join o) = END → (o, refs) ∈ arrivals →
    r ∈ frontier_references s → act_node_id (ref_activation r) ∈ join_sources (occ_join o) → r ∈ refs.

Section plan.
Context (s : GraphRunState) (Hwf : wf s).
Context (arrivals : list (GraphJoinOccurrenceIdentity * list ActivationReference)).
Context (Harr : arrivals_ok s arrivals).

#[local] Instance pending_dec o : Decision (pending_join s o) := decide (_ ∈ _).

(** Facts about one occurrence's arrivals in canonical order. *)
Lemma arrival_sorted o refs :
  (o, refs) ∈ arrivals → strictly_sorted canonical_key (sorted_key canonical_key refs).
Proof using Harr.
  intros Hin%(al_sets s _ Harr). by apply sorted_key_strict, nodes_NoDup_keys, Hin.
Qed.

Lemma arrival_split o refs r :
  (o, refs) ∈ arrivals → r ∈ refs → r ∈ arrived_before s o ∨ r ∈ frontier_references s.
Proof using Harr.
  intros [_ _ (cur & -> & Hcur) _ _ _]%(al_sets s _ Harr) [?|?]%elem_of_app; [by left|].
  right. by apply Hcur.
Qed.

Lemma arrival_usable o refs r : (o, refs) ∈ arrivals → r ∈ refs → usable s r.
Proof using Hwf Harr.
  intros Hin Hr. destruct (arrival_split o refs r Hin Hr) as [Hb|Hc].
  - destruct (arrived_before_past s Hwf o r Hb) as (_ & ? & ? & _). split; [done|by left].
  - destruct (frontier_reference_ok s Hwf r Hc) as (_ & ? & _). split; [done|by right].
Qed.

Lemma arrival_history o refs :
  (o, refs) ∈ arrivals → List.filter (is_past s) (sorted_key canonical_key refs) = arrived_before s o.
Proof using Hwf Harr.
  intros Hin. apply (strictly_sorted_unique canonical_key).
  - apply (strictly_sorted_List_filter canonical_key). by eapply arrival_sorted.
  - by apply arrived_before_sorted.
  - rewrite (List_filter_perm _ _ _ (sorted_key_perm canonical_key refs)).
    destruct (al_sets s _ Harr o refs Hin) as [_ _ (cur & -> & Hcur) _ _ _].
    rewrite List.filter_app, (List_filter_all _ (arrived_before s o)), (List_filter_none _ cur), app_nil_r; [done|..].
    + intros r Hr%Hcur. destruct (frontier_reference_ok s Hwf r Hr) as (_ & _ & E).
      unfold is_past. rewrite E. apply Z.ltb_irrefl.
    + intros r Hr. apply Z.ltb_lt. by apply (arrived_before_past s Hwf o r).
Qed.

(** A complete occurrence has a current arrival. *)
Lemma arrival_current o refs :
  (o, refs) ∈ arrivals → complete o refs →
  List.filter (λ r, negb (is_past s r)) (sorted_key canonical_key refs) ≠ [].
Proof using Hwf Harr.
  intros Hin Hc Hnil. pose proof (arrival_history o refs Hin) as Hh.
  assert (∀ r, r ∈ refs → r ∈ arrived_before s o) as Hall.
  { intros r Hr. rewrite <-Hh. apply List_filter_elem. split; [|by apply sorted_key_elem].
    destruct (is_past s r) eqn:E; [done|]. exfalso. apply (not_elem_of_nil r). rewrite <-Hnil.
    apply List_filter_elem. rewrite E. split; [done|by apply sorted_key_elem]. }
  destruct (decide (pending_join s o)) as [Hp|Hp].
  - apply (pending_index s Hwf) in Hp as (j & _ & Hj & <- & Ea). rewrite Ea in Hall.
    destruct (js_records s (wf_joins s Hwf) j Hj) as [_ _ _ _ _ _ Hpart _]. apply Hpart.
    intros x (r & -> & Hr%Hall)%Hc%list_elem_of_fmap. by apply list_elem_of_fmap_2.
  - apply (not_pending_index s) in Hp as [_ Ea]. rewrite Ea in Hall.
    apply (as_some _ _ _ (al_sets s _ Harr o refs Hin)). apply elem_of_nil_inv.
    intros r Hr%Hall. by apply elem_of_nil in Hr.
Qed.

(* ------------------------------------------------------------------ *)
(** ** The reducer's checks accept a plan *)

(** The pending occurrence an activation takes over, if any. *)
Definition taken_over (a : GraphFrontierActivation) : list GraphJoinOccurrenceIdentity :=
  match fa_cause a with
  | RoutedActivationCause _ (Some o) => if decide (pending_join s o) then [o] else []
  | _ => []
  end.

Lemma validate_next_activation_total consumed a :
  next_cause s arrivals (fa_node_id a) (fa_cause a) →
  validate_next_activation s (progress_index (st_join_progress s)) consumed a
    = Ok (taken_over a ++ consumed).
Proof using Hwf Harr.
  unfold validate_next_activation, taken_over. intros [r Hr|o refs Hin Hc Ht Htgt Hne].
  - destruct (frontier_reference_ok s Hwf r Hr) as (_ & Hrun & Hs).
    rewrite classify_references_total by (done || by intros x ->%list_elem_of_singleton; split; [|right]).
    cbn. unfold is_past. rewrite Hs, Z.ltb_irrefl. done.
  - pose proof (al_sets s _ Harr o refs Hin) as Hset.
    assert (reference_nodes (sorted_key canonical_key refs) ≡ₚ reference_nodes refs) as Hperm
      by apply reference_nodes_perm, sorted_key_perm.
    apply seq_Ok. { checks. unfold reference_nodes in Hperm. rewrite Hperm. apply Hset. }
    rewrite classify_references_total; [|done|].
    2: { intros r Hr%sorted_key_elem. by apply (arrival_usable o refs). }
    cbn [mbind result_bind]. rewrite (arrival_history o refs Hin). apply seq_Ok.
    { checks. by apply (arrival_current o refs). }
    apply seq_Ok.
    { checks. split_and!; [apply Hset|done|done|]. intros x. rewrite <-(Hc x).
      unfold reference_nodes in Hperm |- *. by rewrite Hperm. }
    destruct (decide (pending_join s o)) as [Hp|Hp].
    + apply (pending_index s Hwf) in Hp as (j & -> & _ & _ & ->). by rewrite bool_decide_true by done.
    + apply (not_pending_index s) in Hp as [-> ->]. done.
Qed.

Lemma progress_NoDup : NoDup (jp_occurrence <$> st_join_progress s).
Proof using Hwf. by apply strictly_sorted_NoDup_key, js_sorted, wf_joins. Qed.

Lemma index_join_progress_total js label :
  NoDup (jp_occurrence <$> js) → index_join_progress js label = Ok (progress_index js).
Proof using.
  unfold index_join_progress. set (body := λ indexed item, _).
  assert (∀ js acc, NoDup ((fst <$> acc) ++ (jp_occurrence <$> js)) →
    py_for_state js acc body = Ok (acc ++ progress_index js)) as H; [|exact (H js [])]. clear js.
  induction js as [|j js IH]; intros acc Hnd; cbn [py_for_state]; [by rewrite app_nil_r|].
  cbn in Hnd. apply NoDup_app in Hnd as (H1 & H2 & [H3 H4]%NoDup_cons).
  assert (body acc j = Ok (acc ++ [(jp_occurrence j, j)])) as ->.
  { apply seq_Ok; [|done]. apply raise_if_pass, mem_false. intros Hj%H2. apply Hj. by left. }
  cbn. rewrite IH; [by rewrite <-app_assoc|]. rewrite fmap_app. cbn.
  apply NoDup_app. split_and!; [|intros x [Hx| ->%list_elem_of_singleton]%elem_of_app|done].
  - apply NoDup_app. split_and!; [done| |apply NoDup_singleton].
    intros x Hx%H2 ->%list_elem_of_singleton. apply Hx. by left.
  - intros Hx'. apply (H2 x Hx). by right.
  - done.
Qed.

Lemma validate_next_activations_total acts remaining consumed :
  plan_ok s arrivals acts remaining consumed → acts ≠ [] →
  ∃ cs, validate_next_activations s acts = Ok cs
    ∧ ∀ o, o ∈ cs ↔ ∃ a, a ∈ acts ∧ o ∈ taken_over a.
Proof using Hwf Harr.
  intros Hp Hne. unfold validate_next_activations, validate_activation_batch.
  rewrite index_join_progress_total by apply progress_NoDup.
  destruct (py_for_state_total (λ dn cs, ∀ o, o ∈ cs ↔ ∃ a, a ∈ dn ∧ o ∈ taken_over a)
    (validate_next_activation s (progress_index (st_join_progress s))) acts) with (st := @nil GraphJoinOccurrenceIdentity)
    as (cs & Hcs & Hin).
  - intros dn a st Ha Hst. eexists. split; [apply validate_next_activation_total; by apply Hp|].
    intros o. rewrite elem_of_app, Hst. setoid_rewrite elem_of_app. setoid_rewrite list_elem_of_singleton.
    naive_solver.
  - intros o. split; [by intros ?%elem_of_nil|]. by intros (a & ?%elem_of_nil & _).
  - exists cs. split; [|done]. apply seq_Ok; [|done]. checks. split; [done|].
    apply sorted_set_canonical, strictly_sorted_fmap, Hp.
Qed.

Lemma current_successful_references_total :
  current_successful_references s = Ok (remove_dups (frontier_references s)).
Proof using Hwf.
  unfold current_successful_references. apply bind_Ok. exists (frontier_references s). split; [|done].
  change (frontier_publications s = Ok (frontier_references s)). apply frontier_publications_Ok.
  split; [done|]. apply Forall_forall. intros c Hc.
  apply (frontier_reference_ok s Hwf (node_reference s c)). by apply list_elem_of_fmap_2.
Qed.

Context (Hends : ends_aligned s arrivals).

(** The current successes at the sources of a pending END Join are its current arrivals. *)
Lemma ended_arrivals o refs :
  pending_join s o → join_target (occ_join o) = END → (o, refs) ∈ arrivals →
  arrived_before s o ++ List.filter (λ r, mem (act_node_id (ref_activation r)) (join_sources (occ_join o)))
    (remove_dups (frontier_references s)) ≡ₚ refs.
Proof using Hwf Harr Hends.
  intros Hp He Hin. pose proof (al_sets s _ Harr o refs Hin) as [_ _ (cur & Er & Hcur) Hnd Hsrc _].
  rewrite Er at 1. apply Permutation_app_head, NoDup_Permutation.
  - apply NoDup_ListNoDup, List.NoDup_filter, NoDup_ListNoDup, NoDup_remove_dups.
  - rewrite Er in Hnd. unfold reference_nodes in Hnd. rewrite fmap_app in Hnd.
    apply NoDup_app in Hnd as (_ & _ & Hnd). by eapply NoDup_fmap_1.
  - intros r. rewrite List_filter_elem, mem_spec, elem_of_remove_dups. split.
    + intros [Hn Hr]. pose proof (Hends o refs r Hp He Hin Hr Hn) as Hx. rewrite Er in Hx.
      apply elem_of_app in Hx as [Hb|]; [|done].
      destruct (arrived_before_past s Hwf o r Hb) as (_ & _ & ? & _).
      destruct (frontier_reference_ok s Hwf r Hr) as (_ & _ & ?). lia.
    + intros Hr. split; [|by apply Hcur]. apply Hsrc. rewrite Er.
      apply (list_elem_of_fmap_2 (act_node_id ∘ ref_activation)), elem_of_app. by right.
Qed.

Lemma consume_occurrence_total acts remaining consumed cs o :
  plan_ok s arrivals acts remaining consumed → o ∈ consumed → o ∉ cs →
  consume_occurrence s (progress_index (st_join_progress s)) (remove_dups (frontier_references s)) cs o
    = Ok (o :: cs).
Proof using Hwf Harr Hends.
  intros Hplan Ho Hcs. destruct (pl_consumed _ _ _ _ _ Hplan o Ho) as (Hp & He & refs & Hin & Hc & Ht).
  pose proof (al_sets s _ Harr o refs Hin) as Hset.
  pose proof (ended_arrivals o refs Hp He Hin) as Hperm%reference_nodes_perm. unfold reference_nodes in Hperm.
  unfold consume_occurrence. rewrite (oo_run _ _ (as_occurrence _ _ _ Hset)), Ht.
  rewrite bool_decide_true, Z.eqb_refl by done. cbn [negb andb raise_if mbind result_bind fail_if].
  apply seq_Ok; [by apply raise_if_pass, mem_false|].
  destruct (pending_index s Hwf o Hp) as (j & -> & _ & _ & Ej). rewrite Ej in Hperm.
  apply seq_Ok; [|apply seq_Ok; [|done]]; checks.
  - rewrite Hperm. apply Hset.
  - intros x. rewrite <-(Hc x). unfold reference_nodes. by rewrite Hperm.
Qed.

Lemma validate_join_consumption_total acts remaining consumed :
  plan_ok s arrivals acts remaining consumed →
  ∃ cs, validate_join_consumption s consumed (remove_dups (frontier_references s)) = Ok cs
    ∧ cs ≡ₚ consumed.
Proof using Hwf Harr Hends.
  intros Hplan. unfold validate_join_consumption. rewrite index_join_progress_total by apply progress_NoDup.
  pose proof (strictly_sorted_NoDup _ _ (pl_consumed_sorted _ _ _ _ _ Hplan)) as Hnd.
  assert (∀ todo cs, todo ⊆ consumed → NoDup (todo ++ cs) → ∃ cs',
    py_for_state todo cs (consume_occurrence s (progress_index (st_join_progress s))
      (remove_dups (frontier_references s))) = Ok cs' ∧ cs' ≡ₚ todo ++ cs) as Hgo.
  { induction todo as [|o todo IH]; intros cs Hsub Hnd'; [by exists cs|]. cbn [py_for_state].
    cbn in Hnd'. apply NoDup_cons in Hnd' as [Ho Hnd'].
    erewrite consume_occurrence_total; [|done|apply Hsub; by left|intros ?; apply Ho, elem_of_app; by right].
    cbn [mbind result_bind]. destruct (IH (o :: cs)) as (cs' & -> & Hp).
    - intros x Hx. apply Hsub. by right.
    - rewrite <-Permutation_middle. by constructor.
    - exists cs'. split; [done|]. rewrite Hp. by rewrite <-Permutation_middle. }
  destruct (Hgo consumed []) as (cs & Hcs & Hp); [done|by rewrite app_nil_r|]. rewrite app_nil_r in Hp.
  exists cs. split; [|done]. cbn [mbind result_bind]. rewrite Hcs. cbn [mbind result_bind].
  apply seq_Ok; [|done]. checks. apply (strictly_sorted_unique (λ x, x)).
  - apply sorted_strict. by rewrite Hp.
  - apply Hplan.
  - unfold sorted. by rewrite sort_by_perm.
Qed.

Lemma arrivals_unique o refs refs' : (o, refs) ∈ arrivals → (o, refs') ∈ arrivals → refs = refs'.
Proof using Harr.
  intros H1%(assoc_elem _ _ _ (al_keys s _ Harr)) H2%(assoc_elem _ _ _ (al_keys s _ Harr)). congruence.
Qed.

(** A retained record contains what was there and adds current successes only. *)
Lemma progress_update_total consumable j refs :
  (jp_occurrence j, refs) ∈ arrivals → jp_arrived j = sorted_key canonical_key refs →
  jp_occurrence j ∉ consumable →
  validate_progress_update (progress_index (st_join_progress s)) (remove_dups (frontier_references s))
    consumable (jp_occurrence j, j) = Ok tt.
Proof using Hwf Harr.
  intros Hin Ej Hcon. pose proof (al_sets s _ Harr _ refs Hin) as [_ _ (cur & Er & Hcur) _ _ _].
  assert (∀ r, r ∈ jp_arrived j ↔ r ∈ arrived_before s (jp_occurrence j) ∨ r ∈ cur) as Hmem.
  { intros r. rewrite Ej, sorted_key_elem, Er. apply elem_of_app. }
  unfold validate_progress_update. destruct (decide (pending_join s (jp_occurrence j))) as [Hp|Hp].
  - destruct (pending_index s Hwf _ Hp) as (k & -> & _ & _ & Ek). rewrite Ek in Hmem.
    apply seq_Ok; [by apply raise_if_pass, mem_false|]. apply seq_Ok; checks.
    + intros r Hr. apply Hmem. by left.
    + intros r [Hn%negb_true_iff%mem_false [?|Hr%Hcur]%Hmem]%List_filter_elem; [done|].
      by apply elem_of_remove_dups.
  - destruct (not_pending_index s _ Hp) as [-> Ea]. rewrite Ea in Hmem. checks.
    intros r [?%elem_of_nil|Hr%Hcur]%Hmem; [done|]. by apply elem_of_remove_dups.
Qed.

Lemma taken_over_complete a acts remaining consumed o :
  plan_ok s arrivals acts remaining consumed → a ∈ acts → o ∈ taken_over a →
  join_target (occ_join o) ≠ END ∧ ∃ refs, (o, refs) ∈ arrivals ∧ complete o refs.
Proof using.
  intros Hplan Ha. unfold taken_over. destruct (pl_acts _ _ _ _ _ Hplan a Ha) as [_ Hc].
  destruct Hc as [r Hr|o' refs Hin Hc Ht Htgt Hne]; [by intros ?%elem_of_nil|].
  case_decide; [|by intros ?%elem_of_nil]. intros ->%list_elem_of_singleton. split; [congruence|eauto].
Qed.

(** Every pending Join is fired, retained or explicitly consumed. *)
Lemma pending_covered acts remaining consumed o :
  plan_ok s arrivals acts remaining consumed → pending_join s o →
  o ∈ jp_occurrence <$> remaining ∨ (∃ a, a ∈ acts ∧ o ∈ taken_over a) ∨ o ∈ consumed.
Proof using Harr.
  intros Hplan Hp. pose proof (al_pending s _ Harr o Hp) as ([o' refs] & -> & Hin)%list_elem_of_fmap.
  cbn in Hp |- *.
  destruct (decide (complete o' refs)) as [Hc|Hc].
  - right. destruct (decide (join_target (occ_join o') = END)) as [He|He].
    + right. by eapply pl_ended.
    + left. destruct (pl_fired _ _ _ _ _ Hplan o' refs Hin Hc He) as (a & Ha & Ea).
      exists a. split; [done|]. unfold taken_over. rewrite Ea. case_decide; [|done].
      by apply list_elem_of_singleton.
  - left. apply (list_elem_of_fmap_2 jp_occurrence _ (mkJoinProgress o' (sorted_key canonical_key refs))). by eapply pl_retained.
Qed.

Lemma validate_join_progress_delta_total acts remaining consumed cs :
  plan_ok s arrivals acts remaining consumed →
  (∀ o, o ∈ cs ↔ ∃ a, a ∈ acts ∧ o ∈ taken_over a) →
  validate_join_progress_delta s remaining cs consumed = Ok tt.
Proof using Hwf Harr Hends.
  intros Hplan Hcs. unfold validate_join_progress_delta.
  rewrite (index_join_progress_total (st_join_progress s)) by apply progress_NoDup. cbn [mbind result_bind].
  rewrite index_join_progress_total by (by apply strictly_sorted_NoDup_key, (pl_remaining_sorted _ _ _ _ _ Hplan)).
  cbn [mbind result_bind]. rewrite current_successful_references_total. cbn [mbind result_bind].
  destruct (validate_join_consumption_total _ _ _ Hplan) as (ex & -> & Hex). cbn [mbind result_bind].
  assert (∀ o, o ∈ cs → join_target (occ_join o) ≠ END ∧ ∃ refs, (o, refs) ∈ arrivals ∧ complete o refs) as Hfire.
  { intros o (a & Ha & Ho)%Hcs. by eapply taken_over_complete. }
  assert (∀ o, o ∈ ex → join_target (occ_join o) = END ∧ ∃ refs, (o, refs) ∈ arrivals ∧ complete o refs) as Hend.
  { intros o Ho. rewrite Hex in Ho. destruct (pl_consumed _ _ _ _ _ Hplan o Ho) as (_ & ? & refs & ? & ? & _). eauto. }
  apply seq_Ok; [|apply seq_Ok].
  - apply raise_if_pass, existsb_false_iff. intros o Ho. apply mem_false. intros Ho'.
    destruct (Hfire o Ho) as [? _], (Hend o Ho') as [? _]. done.
  - apply py_for_Ok. intros e (j & -> & Hj)%list_elem_of_fmap.
    destruct (pl_remaining _ _ _ _ _ Hplan j Hj) as (refs & Hin & Ej & Hn & _).
    apply (progress_update_total _ _ refs); [done..|]. intros Ho. apply Hn.
    assert (∃ refs', (jp_occurrence j, refs') ∈ arrivals ∧ complete (jp_occurrence j) refs') as (refs' & Hin' & ?).
    { apply elem_of_app in Ho as [Ho|Ho]; [by apply Hfire|by apply Hend]. }
    by rewrite (arrivals_unique _ _ _ Hin Hin').
  - apply py_for_Ok. intros o Ho. rewrite fst_progress_index in Ho. apply raise_if_pass.
    rewrite fst_progress_index, andb_false_iff, !negb_false_iff, !mem_spec, elem_of_app, Hcs, Hex.
    by apply pending_covered.
Qed.

(* ------------------------------------------------------------------ *)
(** ** The successors are well-formed *)

Definition advanced (acts : list GraphFrontierActivation) (remaining : list GraphJoinProgress)
    : GraphRunState :=
  s <| st_superstep := (st_superstep s + 1)%Z |> <| st_frontier := pending_frontier acts |>
    <| st_join_progress := remaining |> <| st_completion_route := None |>
    <| st_revision := (st_revision s + 1)%Z |>.

Lemma arrival_predecessor acts remaining o refs r :
  st_status s = RUNNING → (o, refs) ∈ arrivals → r ∈ refs → predecessor_ok (advanced acts remaining) r.
Proof using Hwf Harr.
  intros Hst Hin Hr. destruct (arrival_split o refs r Hin Hr) as [Hb|Hc].
  - destruct (arrived_before_past s Hwf o r Hb) as (? & ? & ? & ?). split; cbn; [done|done|lia|done].
  - destruct (frontier_reference_ok s Hwf r Hc) as (? & ? & ?).
    split; cbn; [done|done|lia|by apply frontier_reference_settled].
Qed.

Lemma arrival_occurrence acts remaining o refs :
  (o, refs) ∈ arrivals → occurrence_ok (advanced acts remaining) o.
Proof using Harr. intros [[? ? ? ? ? ? ? ?] _ _ _ _ _]%(al_sets s _ Harr). by split. Qed.

Lemma next_cause_ok acts remaining target cause :
  st_status s = RUNNING → next_cause s arrivals target cause → cause_ok (advanced acts remaining) target cause.
Proof using Hwf Harr.
  intros Hst. pose proof (wf_superstep s Hwf). intros [r Hr|o refs Hin Hc Ht Htgt Hne]; cbn.
  - split_and!; [lia|done|repeat constructor| |done]. intros x ->%list_elem_of_singleton.
    destruct (frontier_reference_ok s Hwf r Hr) as (? & ? & ?).
    split; cbn; [done|done|lia|by apply frontier_reference_settled].
  - pose proof (al_sets s _ Harr o refs Hin) as Hset.
    pose proof (reference_nodes_perm _ _ (sorted_key_perm canonical_key refs)) as Hperm.
    split_and!; [lia| |by eapply arrival_sorted| |by eapply arrival_occurrence|done|done| |].
    + intros E. apply (as_some _ _ _ Hset). apply Permutation_nil_r. by rewrite <-(sorted_key_perm canonical_key refs), E.
    + intros r Hr%sorted_key_elem. by eapply arrival_predecessor.
    + rewrite Hperm. apply Hset.
    + intros x. rewrite Hperm. apply Hc.
Qed.

Lemma remaining_record_ok acts remaining consumed j :
  st_status s = RUNNING → plan_ok s arrivals acts remaining consumed → j ∈ remaining →
  join_record_ok (advanced acts remaining) j.
Proof using Hwf Harr.
  intros Hst Hplan Hj. destruct (pl_remaining _ _ _ _ _ Hplan j Hj) as (refs & Hin & Ej & Hn & Hlt).
  pose proof (al_sets s _ Harr _ refs Hin) as Hset.
  pose proof (reference_nodes_perm _ _ (sorted_key_perm canonical_key refs)) as Hperm.
  split; rewrite ?Ej.
  - by eapply arrival_occurrence.
  - done.
  - intros E. apply (as_some _ _ _ Hset). apply Permutation_nil_r. by rewrite <-(sorted_key_perm canonical_key refs), E.
  - by eapply arrival_sorted.
  - rewrite Hperm. apply Hset.
  - intros x Hx. rewrite Hperm in Hx. by apply Hset.
  - intros Hsub. apply Hn. intros x. split; [apply Hset|]. intros Hx%Hsub. by rewrite Hperm in Hx.
  - intros r Hr%sorted_key_elem. destruct (arrival_predecessor acts remaining _ refs r Hst Hin Hr) as [? Hrun Hpast ?].
    cbn in Hpast, Hrun. split; cbn; [done| |done| | |done].
    + by rewrite (oo_run _ _ (as_occurrence _ _ _ Hset)).
    + lia.
    + apply Hset. by apply (list_elem_of_fmap_2 (act_node_id ∘ ref_activation)).
Qed.

Lemma pending_frontier_references u acts :
  st_frontier u = pending_frontier acts → frontier_references u = [].
Proof using.
  intros E. apply elem_of_nil_inv. intros r (n & rt & Hn & Hx & _)%elem_frontier_references.
  rewrite E in Hn. apply list_elem_of_fmap in Hn as (a & -> & _). done.
Qed.

Lemma pending_frontier_status acts :
  acts ≠ [] → frontier_status (pending_frontier acts) = Ok EXECUTABLE.
Proof using. by destruct acts. Qed.

Lemma ledger_ok_advanced acts remaining : ledger_ok (advanced acts remaining).
Proof using Hwf.
  destruct (wf_ledger s Hwf) as [? ? ? ? Hpos _]. split; try done.
  - eapply Forall_impl; [exact Hpos|]. intros p []. split; cbn; done || lia.
  - intros _ r. cbn [advanced st_superstep]. rewrite (pending_frontier_references (advanced acts remaining) acts) by done.
    split; [|by intros ?%elem_of_nil]. intros [(p & -> & Hp)%list_elem_of_fmap E].
    rewrite Forall_forall in Hpos. destruct (Hpos p Hp). cbn in E. lia.
Qed.

Lemma wf_advanced acts remaining consumed :
  st_status s = RUNNING → st_execution s = None → plan_ok s arrivals acts remaining consumed → acts ≠ [] →
  wf (advanced acts remaining).
Proof using Hwf Harr.
  intros Hst He Hplan Hne. pose proof (ledger_ok_advanced acts remaining).
  pose proof (no_lease_no_resources s Hwf He) as Hres.
  pose proof Hwf as [? ? ? ? ? ? Hcur _ _ ? _ [_ _ Hcodec] _ _ Hlife].
  unfold lifecycle_ok in Hlife. rewrite Hst in Hlife. destruct Hlife as (_ & _ & Ha & _).
  split; try done; cbn; try lia.
  - split; cbn; [|apply Hplan]. intros j Hj. by eapply remaining_record_ok.
  - split; cbn; [| |done].
    + apply strictly_sorted_fmap. rewrite <-list_fmap_compose. apply strictly_sorted_fmap, Hplan.
    + intros n (a & -> & [Hid Hc]%(pl_acts _ _ _ _ _ Hplan))%list_elem_of_fmap.
      split; cbn; [done|by apply next_cause_ok|done|done].
  - intros r. cbn. by rewrite Hres.
  - intros l. cbn. by rewrite He.
  - unfold lifecycle_ok. cbn. rewrite Hst, pending_frontier_status by done. split_and!; [|done..].
    by destruct acts.
Qed.

(** Every plan is accepted as an advance. *)
Lemma advance_accepted revision acts remaining consumed :
  revision = st_revision s → st_status s = RUNNING →
  frontier_status (st_frontier s) = Ok SETTLED → st_execution s = None →
  plan_ok s arrivals acts remaining consumed → acts ≠ [] →
  reduce_graph_run (Some s) (CmdAdvance (mkAdvance revision acts remaining consumed))
    = Ok (advanced acts remaining).
Proof using Hwf Harr Hends.
  intros -> Hst Hset He Hplan Hne. rewrite reduce_inv. cbn [expected_revision apply_transition].
  split_and!; [done|done|]. eexists. split_and!; [apply advance_inv; split_and!; [..|reflexivity]| |].
  - apply resolution_base_Ok. split_and!; [done..|by apply no_lease_no_resources].
  - destruct (validate_next_activations_total _ _ _ Hplan Hne) as (cs & Hcs & Hin).
    exists cs. split; [done|]. by eapply validate_join_progress_delta_total.
  - unfold advanced. clear -Hwf. state_eq Hwf.
  - by eapply wf_advanced.
Qed.

Definition completed (route : option str) : GraphRunState :=
  s <| st_status := COMPLETED |> <| st_frontier := mkFrontier [] |> <| st_join_progress := [] |>
    <| st_completion_route := route |> <| st_revision := (st_revision s + 1)%Z |>.

(** Every success of the frontier selected [route]. *)
Definition unanimous (route : option str) : Prop :=
  ∀ r, r ∈ frontier_references s → ref_route r = route.

Lemma provenance_ok_completed route :
  st_status s = RUNNING → frontier_status (st_frontier s) = Ok SETTLED → unanimous route →
  provenance_ok (completed route).
Proof using Hwf.
  intros Hst Hset Hun. split; cbn.
  - destruct (settled_has_reference s Hwf Hst Hset) as (r & (p & -> & Hp)%list_elem_of_fmap & Hk).
    intros Hnil. apply (not_elem_of_nil p). rewrite <-Hnil. apply List_filter_elem.
    split; [by apply Z.eqb_eq|done].
  - intros p [Hk%Z.eqb_eq Hp]%List_filter_elem. destruct (wf_ledger s Hwf) as [_ _ _ _ Hpos Hcur]. split.
    + rewrite Forall_forall in Hpos. destruct (Hpos p Hp). lia.
    + apply Hun, Hcur; [by rewrite Hst|]. split; [by apply list_elem_of_fmap_2|done].
Qed.

Lemma wf_completed route :
  st_status s = RUNNING → frontier_status (st_frontier s) = Ok SETTLED → st_execution s = None →
  unanimous route → wf (completed route).
Proof using Hwf.
  intros Hst Hset He Hun. pose proof (no_lease_no_resources s Hwf He) as Hres.
  pose proof Hwf as [? ? ? ? ? ? Hcur [? ? ? ? Hpos Hlc] _ ? _ [_ _ Hcodec] _ _ Hlife].
  unfold lifecycle_ok in Hlife. rewrite Hst in Hlife. destruct Hlife as (_ & _ & Ha & _).
  split; try done; cbn; try lia.
  - split; try done. eapply Forall_impl; [exact Hpos|]. intros p []. split; cbn; done || lia.
  - destruct (settled_has_reference s Hwf Hst Hset) as (r & Hr & Hk).
    assert (r ∈ frontier_references s) as Hf by (apply Hlc; [by rewrite Hst|done]).
    rewrite <-(Hun r Hf). by apply (frontier_reference_ok s Hwf r Hf).
  - split; cbn; [by intros j ?%elem_of_nil|constructor].
  - split; cbn; [constructor|by intros n ?%elem_of_nil|done].
  - intros r. cbn. by rewrite Hres.
  - intros l. cbn. by rewrite He.
  - unfold lifecycle_ok. cbn. split_and!; try done. intros _. by apply provenance_ok_completed.
Qed.

(** Every plan that leaves nothing to do is accepted as a completion. *)
Lemma completion_accepted revision consumed route :
  revision = st_revision s → st_status s = RUNNING →
  frontier_status (st_frontier s) = Ok SETTLED → st_execution s = None →
  plan_ok s arrivals [] [] consumed → unanimous route →
  reduce_graph_run (Some s) (CmdComplete (mkComplete revision consumed route)) = Ok (completed route).
Proof using Hwf Harr Hends.
  intros -> Hst Hset He Hplan Hun. rewrite reduce_inv. cbn [expected_revision apply_transition].
  split_and!; [done|done|]. eexists. split_and!; [apply complete_inv; split_and!; [..|reflexivity]| |].
  - apply resolution_base_Ok. split_and!; [done..|by apply no_lease_no_resources].
  - destruct (validate_join_consumption_total _ _ _ Hplan) as (cs & Hcs & Hperm).
    eexists _, cs. split_and!; [apply current_successful_references_total|done|].
    rewrite Hperm, <-(length_fmap jp_occurrence). apply Permutation_length, NoDup_Permutation.
    + eapply strictly_sorted_NoDup, (pl_consumed_sorted _ _ _ _ _ Hplan).
    + apply progress_NoDup.
    + intros o. split; [intros Ho; by apply (pl_consumed _ _ _ _ _ Hplan)|]. intros Ho.
      destruct (pending_covered _ _ _ o Hplan Ho) as [?%elem_of_nil|[(a & ?%elem_of_nil & _)|?]]; done.
  - unfold completed. clear -Hwf. state_eq Hwf.
  - by apply wf_completed.
Qed.
End plan.
