(* ===== verification/Routing.v ===== *)
(** * The routing resolver

    [execution/engine/routing.py]: availability coordinates, the admission of a
    snapshot against a compiled graph, and the resolution of one settled frontier into
    the next reducer command.  A diagnostic ["..." | None] is an [option string]; the
    identifiers its f-string interpolates are left out of the text.  Dicts are
    association lists in insertion order. *)

From Stdlib Require Import ZArith NArith Lia Bool String.
From stdpp Require Import prelude strings gmap sorting.
From S2P Require Import Prelude Identity Resources Model Topology.

Set Default Goal Selector "!".
Open Scope Z_scope.

(* ------------------------------------------------------------------ *)
(** ** Availability coordinates *)

Record GraphInputAvailabilityCoordinate := mkInputCoordinate {
  gic_scope_run : ScopeRunCoordinate;
  gic_descriptor : FrameDescriptorIdentity
}.
Record PublicationAvailabilityCoordinate := mkPublicationCoordinate {
  pac_activation : StableActivation;
  pac_descriptor : FrameDescriptorIdentity
}.

(** A frame coordinate: of the graph input or of one publication. *)
Inductive FrameCoordinate :=
| InputCoordinate (coordinate : GraphInputAvailabilityCoordinate)
| PublicationCoordinate (coordinate : PublicationAvailabilityCoordinate).

(** The part of the [ScopedFrameAvailability] protocol routing uses. *)
Class ScopedFrameAvailability (F : Type) := {
  has_graph_input : F → GraphInputAvailabilityCoordinate → bool;
  has_publication : F → PublicationAvailabilityCoordinate → bool
}.

Record RequiredTarget := mkRequired { rt_node_id : str; unavailable_inputs : list str }.

(** The literal text of an f-string. *)
Definition arrow : str := lit "<-".

(** [references] that are settled: [reference in frozenset(item.reference for item in ...)] *)
Definition settled_reference (state : GraphRunState) (reference : ActivationReference) : bool :=
  mem reference (pub_reference <$> st_settled_publications state).

Record RoutingFacts := mkFacts {
  declared_joins : list (GraphJoinIdentity * CompiledJoin);
  pending_join_arrivals : list (GraphJoinOccurrenceIdentity * list ActivationReference);
  historical_join_arrivals : list (GraphJoinOccurrenceIdentity * list ActivationReference);
  remaining_join_progress : list GraphJoinProgress;
  rf_activations : list GraphFrontierActivation;
  rf_consumed_join_progress : list GraphJoinOccurrenceIdentity;
  required_targets : list RequiredTarget;
  unavailable_outputs : list str;
  rf_completion_route : option str;
  admission_error : option string;
  pending_error : option exn
}.
#[export] Instance routing_facts_eta : Eta RoutingFacts := λ f,
  mkFacts (declared_joins f) (pending_join_arrivals f) (historical_join_arrivals f)
    (remaining_join_progress f) (rf_activations f) (rf_consumed_join_progress f) (required_targets f)
    (unavailable_outputs f) (rf_completion_route f) (admission_error f) (pending_error f).

Record PublicationHistoryWindow := mkWindow { absolute_supersteps : list Z; relative_horizon : Z }.

(** [PredecessorSourceSelection], or the graph input of a START activation. *)
Inductive CausalSource :=
| CausalGraphInput (port : GraphInputPort)
| PredecessorSourceSelection (source : NodeOutputPort) (predecessor : GraphActivationIdentity).

Definition routing_fail {A} (m : string) : result A := Raise (Exn InvalidRoutingCommandError m).
Definition routing_fail_if (b : bool) (m : string) : result unit :=
  raise_if b InvalidRoutingCommandError m.
Definition join_fail_if (b : bool) (m : string) : result unit := raise_if b JoinProgressError m.

Section resolver.
Context {V : Type}.
Implicit Types (graph : CompiledGraph V) (state : GraphRunState).

(** The selections the window ranges over: [None] for a predecessor input, which
    only asks for a relative horizon of one. *)
Definition publication_history_window graph : PublicationHistoryWindow :=
  let plan_bindings := concat ((mp_bindings ∘ snd) <$> materializations (transition graph)) in
  let horizon := if existsb (λ b, match rib_source b with PredecessorInput _ => true | _ => false end)
                      plan_bindings then 1 else 0 in
  let selections :=
    omap (λ b, match rib_source b with PredecessorInput _ => None | _ => rib_publication b end)
      plan_bindings ++ omap gob_publication (graph_outputs (transition graph)) in
  let absolute := omap (λ s, match sel_kind s with ABSOLUTE => Some (sel_superstep s) | RELATIVE => None end)
                    selections in
  let relative := omap (λ s, match sel_kind s with RELATIVE => Some (sel_superstep s) | ABSOLUTE => None end)
                    selections in
  mkWindow (sorted_set absolute) (fold_left Z.max relative horizon).

Definition graph_input_availability_coordinate graph (scope_run : ScopeRunCoordinate)
    : GraphInputAvailabilityCoordinate :=
  mkInputCoordinate scope_run (fd_identity (graph_input_descriptor graph)).

Definition publication_availability_coordinate graph (scope_run : ScopeRunCoordinate)
    (activation : GraphActivationIdentity) : result PublicationAvailabilityCoordinate :=
  stable ← stable_activation scope_run activation;
  descriptor ← map_get (publications (transition graph)) (act_node_id activation);
  Ok (mkPublicationCoordinate stable (fd_identity descriptor)).

Definition source_availability_coordinate graph (scope_run : ScopeRunCoordinate)
    (source : ResolvedValueSource) (publication : option PublicationSelection)
    (activation_superstep : Z) (missing_selection : exn) : result FrameCoordinate :=
  match source with
  | FromGraphInput _ => Ok (InputCoordinate (graph_input_availability_coordinate graph scope_run))
  | FromNodeOutput port =>
      selection ← require_publication_selection publication missing_selection;
      superstep ← resolve selection activation_superstep;
      activation ← GraphActivationIdentity_new (graph_run_id scope_run) superstep (no_node_id port);
      coordinate ← publication_availability_coordinate graph scope_run activation;
      Ok (PublicationCoordinate coordinate)
  end.

Definition frame_coordinate_available {F} `{ScopedFrameAvailability F} (frames : F)
    (coordinate : FrameCoordinate) : bool :=
  match coordinate with
  | InputCoordinate c => has_graph_input frames c
  | PublicationCoordinate c => has_publication frames c
  end.

(** [_source_label] *)
Definition source_label (source : ResolvedValueSource) : str :=
  match source with
  | FromGraphInput port => lit "graph-input:" ++ gi_name port
  | FromNodeOutput port => no_node_id port ++ lit "." ++ no_output_name port
  end.

(* ---------------------------------------------------------------- *)
(** ** Route domains *)

Definition validate_routing_contribution graph (node_id : str) (contribution : GraphRoutingContribution)
    : result unit :=
  routing_fail_if (negb (map_has (cg_nodes graph) node_id))
    "routing contribution references an unknown node";;
  conditional ← map_get (conditional_targets (transition graph)) node_id;
  options ← map_get (route_options (transition graph)) node_id;
  match contribution with
  | ContinueGraphRouting =>
      routing_fail_if (negb (is_nil conditional)) "a conditional node must select one declared route";;
      routing_fail_if (negb (mem None options))
        "a terminal node must select one declared exported route"
  | SelectGraphRoute route =>
      (if is_nil conditional then
         direct ← map_get (direct_targets (transition graph)) node_id;
         (if negb (is_nil direct) then Ok true else
          joins ← map_get (joins_by_source (transition graph)) node_id; Ok (negb (is_nil joins)))
       else Ok false) ≫= λ discarded,
      routing_fail_if discarded
        "a route may be returned without conditional edges only by a terminal node";;
      raise_if (negb (mem (Some route) options)) UnknownRouteError
        (if is_nil conditional then "node selected an undeclared exported route"
         else "node selected an unknown conditional route")
  end.

(** One settled activation of [settled_activation_admission_error]. *)
Definition settled_reference_error graph (reference : ActivationReference) : result (option string) :=
  let node_id := act_node_id (ref_activation reference) in
  if negb (map_has (cg_nodes graph) node_id)
  then Ok (Some "settled activation references unknown node"%string) else
  conditional ← map_get (conditional_targets (transition graph)) node_id;
  options ← map_get (route_options (transition graph)) node_id;
  if bool_decide (ref_route reference = None) && negb (is_nil conditional)
  then Ok (Some "conditional settled activation lacks its selected route"%string)
  else if mem (ref_route reference) options then Ok None
  else if negb (is_nil conditional)
  then Ok (Some "settled activation selected an unknown route"%string) else
  direct ← map_get (direct_targets (transition graph)) node_id;
  successors ← (if negb (is_nil direct) then Ok true else
                joins ← map_get (joins_by_source (transition graph)) node_id; Ok (negb (is_nil joins)));
  if (successors : bool) then Ok (Some "non-terminal settled activation selected a route"%string)
  else Ok (Some "settled activation selected an undeclared exported route"%string).

(** [for x in xs: e = check(x); if e is not None: return e], then [return None]. *)
Fixpoint first_error {A} (xs : list A) (check : A → result (option string)) : result (option string) :=
  match xs with
  | [] => Ok None
  | x :: rest => e ← check x; match e with Some m => Ok (Some m) | None => first_error rest check end
  end.

Definition settled_activation_admission_error graph state : result (option string) :=
  first_error (st_settled_publications state) (λ settlement,
    settled_reference_error graph (pub_reference settlement)).

(** [_successor_targets_for_reference] *)
Definition successor_targets_for_reference graph (reference : ActivationReference)
    : result (list str) :=
  let source := act_node_id (ref_activation reference) in
  routes ← map_get (conditional_targets (transition graph)) source;
  routing_fail_if (negb (is_nil routes) && bool_decide (ref_route reference = None))
    "conditional predecessor settlement lacks its selected route";;
  routing_fail_if (match ref_route reference with
                   | Some route => negb (is_nil routes) && negb (map_has routes route)
                   | None => false end)
    "predecessor settlement selected an unknown route";;
  targets ← map_get (direct_targets (transition graph)) source;
  match ref_route reference with
  | Some route =>
      if is_nil routes then Ok targets else
      target ← map_get routes route;
      Ok (if bool_decide (target = END) then targets else targets ++ [target])
  | None => Ok targets
  end.

(** [_gate_matches_cause] *)
Definition gate_matches_cause (gate : ActivationGate) (references : list ActivationReference) : bool :=
  let actual := sorted_key (λ '(node, route), (node, (bool_decide (is_Some route), default [] route)))
                  ((λ r, (act_node_id (ref_activation r), ref_route r)) <$> references) in
  (length actual =? length gate)%nat
  && forallb (λ '((source, allowed), (actual_source, actual_route)),
                bool_decide (source = actual_source) && mem actual_route allowed) (zip gate actual).

Definition causal_input_source_for_cause graph state (target_superstep : Z)
    (cause : GraphActivationCause) (binding : ResolvedInputBinding V) : result CausalSource :=
  match rib_source binding with
  | ResolvedValue _ => routing_fail "causal source selection requires a predecessor-bound input"
  | PredecessorInput source =>
      let node_id := ni_node_id (rib_destination binding) in
      let input_name := ni_local_name (rib_destination binding) in
      routing_fail_if (negb (bool_decide (pi_target source = node_id))
                       || negb (bool_decide (pi_input_name source = input_name)))
        "predecessor binding does not match its target input";;
      routing_fail_if (target_superstep <? 0)
        "predecessor-bound activation has an invalid target coordinate";;
      match cause with
      | StartActivationCause =>
          if target_superstep =? 0 then
            match pi_start_input source with
            | None => routing_fail "predecessor-bound activation has an invalid target coordinate"
            | Some start =>
                routing_fail_if (negb (mem node_id (tp_entries (transition graph)))
                                 || negb (bool_decide (gi_name start = input_name)))
                  "causal START input does not belong to an initial graph activation";;
                Ok (CausalGraphInput start)
            end
          else routing_fail "predecessor-bound activation cannot carry the START cause"
      | RoutedActivationCause references join_occurrence =>
          routing_fail_if (target_superstep <? 1)
            "predecessor-bound activation has an invalid target coordinate";;
          match join_occurrence, references with
          | None, [reference] =>
              let activation := ref_activation reference in
              expected ← GraphActivationIdentity_new (st_run_id state) (target_superstep - 1)
                           (act_node_id activation);
              routing_fail_if (negb (bool_decide (activation = expected))
                               || negb (settled_reference state reference))
                "predecessor activation lacks immediate committed settlement evidence";;
              match List.filter (λ port, bool_decide (no_node_id port = act_node_id activation))
                      (pi_sources source) with
              | [port] => Ok (PredecessorSourceSelection port activation)
              | _ => routing_fail "activation cause is not an allowed predecessor source"
              end
          | _, _ => routing_fail "predecessor-bound activation requires one non-Join predecessor"
          end
      end
  end.

Definition binding_source_coordinate graph (state : option GraphRunState)
    (scope_run : ScopeRunCoordinate) (activation_superstep : Z) (binding : ResolvedInputBinding V)
    (cause : option GraphActivationCause) : result (ResolvedValueSource * FrameCoordinate) :=
  match rib_source binding with
  | PredecessorInput _ =>
      match state, cause with
      | Some state, Some cause =>
          selected ← causal_input_source_for_cause graph state activation_superstep cause binding;
          match selected with
          | CausalGraphInput port =>
              Ok (FromGraphInput port, InputCoordinate (graph_input_availability_coordinate graph scope_run))
          | PredecessorSourceSelection source predecessor =>
              coordinate ← publication_availability_coordinate graph scope_run predecessor;
              Ok (FromNodeOutput source, PublicationCoordinate coordinate)
          end
      | _, _ => routing_fail "predecessor input availability requires authoritative graph state"
      end
  | ResolvedValue (FromGraphInput port) =>
      Ok (FromGraphInput port, InputCoordinate (graph_input_availability_coordinate graph scope_run))
  | ResolvedValue source =>
      coordinate ← source_availability_coordinate graph scope_run source (rib_publication binding)
        activation_superstep (Exn InvalidRoutingCommandError
          "compiled node-output binding lacks its activation selection");
      Ok (source, coordinate)
  end.

(* ---------------------------------------------------------------- *)
(** ** Join declarations and arrivals *)

(** One Join of [_declared_joins], indexed under [source]. *)
Definition declare_join (source : str)
    (acc : list (GraphJoinIdentity * CompiledJoin) * list (GraphJoinIdentity * list str))
    (join : CompiledJoin)
    : result (list (GraphJoinIdentity * CompiledJoin) * list (GraphJoinIdentity * list str)) :=
  let '(declared, indexed) := acc in
  let identity := cj_identity join in
  raise_if (negb (mem source (join_sources identity))) SnapshotMismatchError
    "compiled Join is indexed under a non-source node";;
  let existing := default join (assoc identity declared) in
  raise_if (negb (bool_decide (existing = join))) SnapshotMismatchError
    "compiled Join identity has conflicting occurrence projections";;
  Ok (dict_set identity existing declared, dict_append identity source indexed).

(** [_declared_joins] *)
Definition declared_joins_of graph : result (list (GraphJoinIdentity * CompiledJoin)) :=
  items ← map_items (joins_by_source (transition graph));
  '(declared, indexed) ← py_for_state items ([], []) (λ acc '(source, joins),
    py_for_state joins acc (declare_join source));
  raise_if (existsb (λ '(identity, _),
      negb (same_set (default [] (assoc identity indexed)) (join_sources identity))) declared)
    SnapshotMismatchError "compiled Join source index is incomplete";;
  Ok declared.

(** [all(plan.occurrence_for(r.activation) == occurrence for r in references)] *)
Fixpoint all_project (plan : CompiledJoin) (occurrence : GraphJoinOccurrenceIdentity)
    (references : list ActivationReference) : result bool :=
  match references with
  | [] => Ok true
  | reference :: rest =>
      projected ← occurrence_for plan (ref_activation reference);
      if bool_decide (projected = occurrence) then all_project plan occurrence rest else Ok false
  end.

(** One record of [_pending_join_arrivals]. *)
Definition pending_arrival state (declared : list (GraphJoinIdentity * CompiledJoin))
    (arrivals : list (GraphJoinOccurrenceIdentity * list ActivationReference))
    (progress : GraphJoinProgress)
    : result (list (GraphJoinOccurrenceIdentity * list ActivationReference)) :=
  let occurrence := jp_occurrence progress in
  let arrived := jp_arrived progress in
  let arrived_sources := (act_node_id ∘ ref_activation) <$> arrived in
  match assoc (occ_join occurrence) declared with
  | None => Raise (Exn JoinProgressError "snapshot contains invalid Join progress")
  | Some plan =>
      join_fail_if (mem occurrence (fst <$> arrivals)
                    || negb (bool_decide (occ_run_id occurrence = st_run_id state))
                    || (occ_target_superstep occurrence <=? st_superstep state)
                    || is_nil arrived
                    || negb (strict_subset_of arrived_sources (join_sources (occ_join occurrence))))
        "snapshot contains invalid Join progress";;
      join_fail_if (negb (no_repeats arrived_sources))
        "snapshot Join progress repeats one source activation";;
      join_fail_if (existsb (λ r, negb (settled_reference state r)) arrived)
        "snapshot Join progress lacks committed settlement evidence";;
      projected ← all_project plan occurrence arrived;
      join_fail_if (negb projected) "snapshot Join progress has misprojected arrival evidence";;
      Ok (dict_set occurrence arrived arrivals)
  end.

(** [_pending_join_arrivals] *)
Definition pending_join_arrivals_of state (declared : list (GraphJoinIdentity * CompiledJoin))
    : result (list (GraphJoinOccurrenceIdentity * list ActivationReference)) :=
  py_for_state (st_join_progress state) [] (pending_arrival state declared).

(** The causal-input checks of one frontier node. *)
Definition check_causal_inputs graph state (node_id : str) (cause : GraphActivationCause) : result unit :=
  plan ← map_get (materializations (transition graph)) node_id;
  py_for (mp_bindings plan) (λ binding,
    match rib_source binding with
    | PredecessorInput _ =>
        _ ← causal_input_source_for_cause graph state (st_superstep state) cause binding; Ok tt
    | ResolvedValue _ => Ok tt
    end).

(** The Join occurrence of one routed frontier node. *)
Definition frontier_occurrence_error state (declared : list (GraphJoinIdentity * CompiledJoin))
    (node_id : str) (references : list ActivationReference) (gate : ActivationGate)
    (occurrence : option GraphJoinOccurrenceIdentity) : result (option string) :=
  match occurrence with
  | None => Ok (if negb (length gate =? 1)%nat
                then Some "frontier activation lacks its compiled Join occurrence"%string else None)
  | Some occurrence =>
      match assoc (occ_join occurrence) declared with
      | None => Ok (Some "frontier activation has an unknown Join occurrence"%string)
      | Some plan =>
          if negb (bool_decide (join_target (occ_join occurrence) = node_id))
             || negb (bool_decide (occ_run_id occurrence = st_run_id state))
             || negb (occ_target_superstep occurrence =? st_superstep state)
          then Ok (Some "frontier activation has an unknown Join occurrence"%string) else
          projected ← all_project plan occurrence references;
          Ok (if (projected : bool) then None
              else Some "frontier activation has misprojected Join evidence"%string)
      end
  end.

(** One node of [_frontier_gate_error]. *)
Definition frontier_node_error graph state (declared : list (GraphJoinIdentity * CompiledJoin))
    (node : GraphFrontierNode) : result (option string) :=
  let node_id := fn_node_id node in
  if negb (map_has (cg_nodes graph) node_id)
  then Ok (Some "frontier activation references unknown node"%string) else
  try_or (one_of [InvalidRoutingCommandError])
    (check_causal_inputs graph state node_id (fn_cause node))
    (λ error, Ok (Some (exn_message error))) (λ _,
  match fn_cause node with
  | StartActivationCause =>
      Ok (if mem node_id (tp_entries (transition graph)) then None
          else Some "START activation is not a compiled graph entry"%string)
  | RoutedActivationCause references occurrence =>
      gates ← map_get (activation_gates (transition graph)) node_id;
      match List.filter (λ gate, gate_matches_cause gate references) gates with
      | [gate] =>
          e ← frontier_occurrence_error state declared node_id references gate occurrence;
          match e with
          | Some m => Ok (Some m)
          | None =>
              Ok (if existsb (λ r, negb (settled_reference state r)) references
                  then Some "frontier activation lacks committed predecessor settlement evidence"%string
                  else None)
          end
      | _ => Ok (Some "frontier activation does not match exactly one compiled activation gate"%string)
      end
  end).

(** [_frontier_gate_error] *)
Definition frontier_gate_error graph state (declared : list (GraphJoinIdentity * CompiledJoin))
    : result (option string) :=
  first_error (frontier_nodes (st_frontier state)) (frontier_node_error graph state declared).

(** One Join a historical settlement arrives at. *)
Definition historical_arrival (reference : ActivationReference)
    (acc : list (GraphJoinOccurrenceIdentity * list ActivationReference)
           * list ((GraphJoinOccurrenceIdentity * str) * ActivationReference))
    (plan : CompiledJoin)
    : result (list (GraphJoinOccurrenceIdentity * list ActivationReference)
              * list ((GraphJoinOccurrenceIdentity * str) * ActivationReference)) :=
  let '(arrivals, seen) := acc in
  let activation := ref_activation reference in
  occurrence ← occurrence_for plan activation;
  let key := (occurrence, act_node_id activation) in
  match assoc key seen with
  | Some existing =>
      Raise (Exn JoinProgressError
        (if bool_decide (existing = reference) then "Join source activation occurrence repeated"
         else "Join source activation occurrence selected two routes")%string)
  | None => Ok (dict_append occurrence reference arrivals, dict_set key reference seen)
  end.

(** One settlement of [_historical_join_arrivals]. *)
Definition historical_settlement graph state
    (acc : list (GraphJoinOccurrenceIdentity * list ActivationReference)
           * list ((GraphJoinOccurrenceIdentity * str) * ActivationReference))
    (settlement : GraphPublicationSettlement)
    : result (list (GraphJoinOccurrenceIdentity * list ActivationReference)
              * list ((GraphJoinOccurrenceIdentity * str) * ActivationReference)) :=
  let reference := pub_reference settlement in
  let activation := ref_activation reference in
  if st_superstep state <=? act_superstep activation then Ok acc else
  join_fail_if (negb (map_has (cg_nodes graph) (act_node_id activation)))
    "settled activation references unknown node";;
  plans ← map_get (joins_by_source (transition graph)) (act_node_id activation);
  py_for_state plans acc (historical_arrival reference).

(** Each list of arrivals in canonical order. *)
Definition canonical_arrivals (arrivals : list (GraphJoinOccurrenceIdentity * list ActivationReference))
    : list (GraphJoinOccurrenceIdentity * list ActivationReference) :=
  (λ '(occurrence, references), (occurrence, sorted_key canonical_key references)) <$> arrivals.

(** [_historical_join_arrivals] *)
Definition historical_join_arrivals_of graph state
    : result (list (GraphJoinOccurrenceIdentity * list ActivationReference)) :=
  collected ← py_for_state (st_settled_publications state) ([], []) (historical_settlement graph state);
  Ok (canonical_arrivals collected.1).

(* ---------------------------------------------------------------- *)
(** ** Successor validation of a recovered frontier *)

(** Candidate causes by target, a dict of lists. *)
Definition Candidates : Type := list (str * list GraphActivationCause).

(** The single-source causes one settled reference gives its targets. *)
Definition add_successors graph (candidates : Candidates) (reference : ActivationReference)
    : result Candidates :=
  targets ← successor_targets_for_reference graph reference;
  py_for_state targets candidates (λ candidates target,
    cause ← RoutedActivationCause_new [reference] None;
    Ok (dict_append target cause candidates)).

(** One reference of the first loop of [_post_advance_error]: only
    [_successor_targets_for_reference] is inside the [try]. *)
Definition add_previous graph (acc : option string * Candidates) (reference : ActivationReference)
    : result (option string * Candidates) :=
  match acc with
  | (Some e, candidates) => Ok (Some e, candidates)
  | (None, candidates) =>
      try_or (one_of [InvalidRoutingCommandError]) (successor_targets_for_reference graph reference)
        (λ error, Ok (Some (exn_message error), candidates)) (λ targets,
      candidates ← py_for_state targets candidates (λ candidates target,
        cause ← RoutedActivationCause_new [reference] None;
        Ok (dict_append target cause candidates));
      Ok (None, candidates))
  end.

(** One occurrence of the second loop of [_post_advance_error]. *)
Definition check_occurrence state
    (acc : option string * (Candidates * list (GraphJoinOccurrenceIdentity * list ActivationReference)))
    (entry : GraphJoinOccurrenceIdentity * list ActivationReference)
    : result (option string * (Candidates * list (GraphJoinOccurrenceIdentity * list ActivationReference))) :=
  match acc with
  | (Some e, rest) => Ok (Some e, rest)
  | (None, (candidates, expected)) =>
      let '(occurrence, arrivals) := entry in
      let identity := occ_join occurrence in
      let complete := same_set ((act_node_id ∘ ref_activation) <$> arrivals) (join_sources identity) in
      if occ_target_superstep occurrence <? st_superstep state then
        Ok (if complete then None
            else Some "historical Join occurrence passed its target without every source"%string,
            (candidates, expected))
      else if complete then
        if negb (occ_target_superstep occurrence =? st_superstep state) then
          Ok (Some "Join occurrence completed before its target coordinate"%string, (candidates, expected))
        else if negb (bool_decide (join_target identity = END)) then
          cause ← RoutedActivationCause_new arrivals (Some occurrence);
          Ok (None, (dict_append (join_target identity) cause candidates, expected))
        else Ok (None, (candidates, expected))
      else if occ_target_superstep occurrence =? st_superstep state then
        Ok (Some "Join occurrence reached its target coordinate without every source"%string,
            (candidates, expected))
      else Ok (None, (candidates, dict_set occurrence arrivals expected))
  end.

(** The comparison of the frontier with its candidate causes. *)
Definition compare_successors (actual : list (str * GraphActivationCause)) (candidates : Candidates)
    : option string :=
  match List.find (λ '(target, causes),
      match causes with [cause] => negb (bool_decide (assoc target actual = Some cause)) | _ => true end)
      candidates with
  | Some (_, [_]) => Some "frontier target does not match its compiled successor cause"%string
  | Some (_, _) => Some "target has several compiled activation causes"%string
  | None =>
      if existsb (λ '(target, _), negb (mem target (fst <$> candidates))) actual
      then Some "frontier contains an unproved successor target"%string else None
  end.

(** [_post_advance_error] *)
Definition post_advance_error graph state (evaluation : RoutingFacts) : result (option string) :=
  let previous := pub_reference <$>
    List.filter (λ settlement, act_superstep (ref_activation (pub_reference settlement))
                               =? st_superstep state - 1) (st_settled_publications state) in
  if is_nil previous
  then Ok (Some "non-initial frontier has no committed predecessor settlements"%string) else
  '(error, candidates) ← py_for_state previous (None, []) (add_previous graph);
  match error with
  | Some e => Ok (Some e)
  | None =>
      let actual := fold_left (λ acc node,
          match fn_cause node with
          | RoutedActivationCause _ _ => dict_set (fn_node_id node) (fn_cause node) acc
          | StartActivationCause => acc end) (frontier_nodes (st_frontier state)) [] in
      '(error, (candidates, expected)) ←
        py_for_state (historical_join_arrivals evaluation) (None, (candidates, [])) (check_occurrence state);
      match error with
      | Some e => Ok (Some e)
      | None =>
          let actual_progress := fold_left (λ acc p, dict_set (jp_occurrence p) (jp_arrived p) acc)
                                   (st_join_progress state) [] in
          if negb (same_set (fst <$> actual_progress) (fst <$> expected))
          then Ok (Some "frontier transition lost or invented Join progress"%string)
          else if existsb (λ '(occurrence, arrivals),
                    negb (bool_decide (assoc occurrence actual_progress = Some arrivals))) expected
          then Ok (Some "frontier transition changed Join progress without a proven arrival"%string)
          else Ok (compare_successors actual candidates)
      end
  end.

(* ---------------------------------------------------------------- *)
(** ** One validated projection *)

Definition empty_facts : RoutingFacts := mkFacts [] [] [] [] [] [] [] [] None None None.

(** [_routing_evaluation] *)
Definition routing_evaluation graph state : result RoutingFacts :=
  error ← settled_activation_admission_error graph state;
  if bool_decide (is_Some error) || bool_decide (st_status state = COMPLETED)
  then Ok (empty_facts <| admission_error := error |>) else
  try_or (one_of [SnapshotMismatchError]) (declared_joins_of graph)
    (λ error, Ok (empty_facts <| admission_error := Some (exn_message error) |>)) (λ declared,
  let evaluation := empty_facts <| declared_joins := declared |> in
  frontier_error ← frontier_gate_error graph state declared;
  if bool_decide (is_Some frontier_error)
  then Ok (evaluation <| admission_error := frontier_error |>) else
  try_or (one_of [JoinProgressError]) (pending_join_arrivals_of state declared)
    (λ error,
      let evaluation := evaluation <| pending_error := Some error |> in
      Ok (if 0 <? st_superstep state then evaluation <| admission_error := Some (exn_message error) |>
          else evaluation)) (λ pending,
  let evaluation := evaluation <| pending_join_arrivals := pending |> in
  if st_superstep state =? 0 then Ok evaluation else
  try_or (one_of [JoinProgressError; SnapshotMismatchError]) (historical_join_arrivals_of graph state)
    (λ error, Ok (evaluation <| admission_error := Some (exn_message error) |>)) (λ historical,
  let evaluation := evaluation <| historical_join_arrivals := historical |> in
  error ← post_advance_error graph state evaluation;
  Ok (evaluation <| admission_error := error |>)))).

Definition frontier_admission_error graph state : result (option string) :=
  evaluation ← routing_evaluation graph state; Ok (admission_error evaluation).

(* ---------------------------------------------------------------- *)
(** ** Control resolution *)

(** [joins_by_source] of one contributing node: its arrival is added to each. *)
Definition add_arrival (activation : GraphActivationIdentity) (reference : ActivationReference)
    (arrivals : list (GraphJoinOccurrenceIdentity * list ActivationReference)) (plan : CompiledJoin)
    : result (list (GraphJoinOccurrenceIdentity * list ActivationReference)) :=
  occurrence ← occurrence_for plan activation;
  let join_arrivals := default [] (assoc occurrence arrivals) in
  join_fail_if (mem (act_node_id activation) ((act_node_id ∘ ref_activation) <$> join_arrivals))
    "join source activation occurrence repeated";;
  Ok (dict_append occurrence reference arrivals).

(** One contribution of the first loop of [_resolve_control]. *)
Definition add_contribution graph state
    (acc : Candidates * list (GraphJoinOccurrenceIdentity * list ActivationReference))
    (entry : str * GraphRoutingContribution)
    : result (Candidates * list (GraphJoinOccurrenceIdentity * list ActivationReference)) :=
  let '(candidates, arrivals) := acc in
  let '(node_id, contribution) := entry in
  validate_routing_contribution graph node_id contribution;;
  source_activation ← GraphActivationIdentity_new (st_run_id state) (st_superstep state) node_id;
  reference ← ActivationReference_new source_activation (selected_route contribution);
  candidates ← add_successors graph candidates reference;
  plans ← map_get (joins_by_source (transition graph)) node_id;
  arrivals ← py_for_state plans arrivals (add_arrival source_activation reference);
  Ok (candidates, arrivals).

(** What the second loop of [_resolve_control] updates. *)
Record JoinSplit := mkSplit {
  split_candidates : Candidates;
  split_remaining : list GraphJoinProgress;
  split_consumed : list GraphJoinOccurrenceIdentity
}.

(** One occurrence of the second loop: completed, consumed at END, or still partial. *)
Definition split_occurrence state
    (arrivals : list (GraphJoinOccurrenceIdentity * list ActivationReference))
    (acc : JoinSplit) (occurrence : GraphJoinOccurrenceIdentity) : result JoinSplit :=
  let identity := occ_join occurrence in
  let arrived := sorted_key canonical_key (default [] (assoc occurrence arrivals)) in
  if same_set ((act_node_id ∘ ref_activation) <$> arrived) (join_sources identity) then
    join_fail_if (negb (occ_target_superstep occurrence =? st_superstep state + 1))
      "completed Join occurrence has the wrong target coordinate";;
    if negb (bool_decide (join_target identity = END)) then
      cause ← RoutedActivationCause_new arrived (Some occurrence);
      Ok (mkSplit (dict_append (join_target identity) cause (split_candidates acc))
            (split_remaining acc) (split_consumed acc))
    else if mem occurrence (jp_occurrence <$> st_join_progress state) then
      Ok (mkSplit (split_candidates acc) (split_remaining acc) (split_consumed acc ++ [occurrence]))
    else Ok acc
  else
    join_fail_if (occ_target_superstep occurrence <=? st_superstep state + 1)
      "partial Join occurrence cannot reach its target coordinate";;
    Ok (mkSplit (split_candidates acc) (split_remaining acc ++ [mkJoinProgress occurrence arrived])
          (split_consumed acc)).

(** The sole activation of one target. *)
Definition target_activation (entry : str * list GraphActivationCause) : result GraphFrontierActivation :=
  match entry with
  | (target, [cause]) => GraphFrontierActivation_new target cause
  | _ => routing_fail "target has several activation causes in one frontier"
  end.

(** [_resolve_control] *)
Definition resolve_control graph state (evaluation : RoutingFacts) : result RoutingFacts :=
  match pending_error evaluation with
  | Some e => Raise e
  | None =>
      '(candidates, arrivals) ←
        py_for_state (routing_contributions (st_frontier state)) ([], pending_join_arrivals evaluation)
          (add_contribution graph state);
      split ← py_for_state (sorted (fst <$> arrivals)) (mkSplit candidates [] [])
                (split_occurrence state arrivals);
      activations ← mapM target_activation (split_candidates split);
      Ok (evaluation <| remaining_join_progress := split_remaining split |>
                     <| rf_activations := sorted_key fa_node_id activations |>
                     <| rf_consumed_join_progress := sorted (split_consumed split) |>)
  end.

(** [_completion_route] *)
Definition completion_route_of graph state : result (option str) :=
  routes ← mapM (λ '(node_id, contribution),
      validate_routing_contribution graph node_id contribution;;
      Ok (selected_route contribution)) (routing_contributions (st_frontier state));
  raise_if (is_nil routes) RoutingDeadlockError
    "a terminal frontier has no settled routing contribution";;
  match remove_dups routes with
  | [route] => Ok route
  | _ => Raise (Exn RoutingDeadlockError "terminal frontier exposes conflicting completion routes")
  end.

Definition transition_admission_error graph (previous_state : option GraphRunState)
    (command : GraphRunCommand) (candidate_state : GraphRunState) : result (option string) :=
  candidate ← routing_evaluation graph candidate_state;
  if bool_decide (is_Some (admission_error candidate))
     || negb (bool_decide (st_status candidate_state = COMPLETED))
  then Ok (admission_error candidate) else
  match previous_state, command with
  | Some previous_state, CmdComplete command =>
      previous ← routing_evaluation graph previous_state;
      if bool_decide (is_Some (admission_error previous)) then Ok (admission_error previous) else
      try_or (one_of [InvalidRoutingCommandError; JoinProgressError; SnapshotMismatchError])
        (resolve_control graph previous_state previous) (λ error, Ok (Some (exn_message error)))
        (λ control,
      if negb (is_nil (rf_activations control)) || negb (is_nil (remaining_join_progress control))
      then Ok (Some "graph completion discarded a compiled successor or partial Join occurrence"%string)
      else if negb (bool_decide (rf_consumed_join_progress control = com_consumed_join_progress command))
      then Ok (Some "graph completion consumed the wrong Join occurrences"%string) else
      try_or (one_of [InvalidRoutingCommandError; RoutingDeadlockError])
        (completion_route_of graph previous_state) (λ error, Ok (Some (exn_message error)))
        (λ expected,
      Ok (if negb (bool_decide (com_completion_route command = expected))
          then Some "graph completion route does not match the terminal frontier"%string else None)))
  | _, _ => Ok (Some "completed graph state lacks its admitted completion transition"%string)
  end.

(* ---------------------------------------------------------------- *)
(** ** Data availability and the resolved command *)

Context {F : Type} `{ScopedFrameAvailability F}.
Implicit Types (frames : F).

Definition unavailable_graph_outputs graph (scope_run : ScopeRunCoordinate) (completion_superstep : Z)
    frames : result (list str) :=
  py_for_state (graph_outputs (transition graph)) [] (λ unavailable binding,
    let source := gob_source binding in
    coordinate ← source_availability_coordinate graph scope_run source (gob_publication binding)
      completion_superstep (Exn InvalidRoutingCommandError
        "compiled value binding lacks its activation selection");
    Ok (if frame_coordinate_available frames coordinate then unavailable
        else unavailable ++ [go_boundary_name (gob_destination binding) ++ arrow ++ source_label source])).

Definition graph_outputs_available graph (scope_run : ScopeRunCoordinate) (completion_superstep : Z)
    frames : result bool :=
  unavailable ← unavailable_graph_outputs graph scope_run completion_superstep frames;
  Ok (is_nil unavailable).

(** [_required_target] *)
Definition required_target graph (target : str) (activation : GraphFrontierActivation) state
    (scope_run : ScopeRunCoordinate) (activation_superstep : Z) frames : result RequiredTarget :=
  routing_fail_if (negb (bool_decide (fa_node_id activation = target)))
    "compiled successor activation does not match its target";;
  plan ← map_get (materializations (transition graph)) target;
  unavailable ← py_for_state (mp_bindings plan) [] (λ unavailable binding,
    '(source, coordinate) ← binding_source_coordinate graph (Some state) scope_run
       activation_superstep binding (Some (fa_cause activation));
    Ok (if frame_coordinate_available frames coordinate then unavailable
        else unavailable ++ [ni_local_name (rib_destination binding) ++ arrow ++ source_label source]));
  Ok (mkRequired target unavailable).

Definition resolve_routing_facts graph state (scope_run : ScopeRunCoordinate) frames
    : result RoutingFacts :=
  status ← frontier_status (st_frontier state);
  routing_fail_if (negb (bool_decide (status = SETTLED)))
    "routing requires a settled frontier without failures or interrupts";;
  evaluation ← routing_evaluation graph state;
  match admission_error evaluation with
  | Some e => routing_fail e
  | None =>
      control ← resolve_control graph state evaluation;
      targets ← mapM (λ activation, required_target graph (fa_node_id activation) activation state
                        scope_run (st_superstep state + 1) frames) (rf_activations control);
      outputs ← unavailable_graph_outputs graph scope_run (st_superstep state) frames;
      route ← (if negb (is_nil (rf_activations control)) || negb (is_nil (remaining_join_progress control))
               then Ok None else completion_route_of graph state);
      Ok (control <| required_targets := targets |> <| unavailable_outputs := outputs |>
                  <| rf_completion_route := route |>)
  end.

(** [repr] of a tuple of strings, which the interpreter defines. *)
Context (repr_tuple : list str → str).

Definition project_routing_facts state (facts : RoutingFacts) : result GraphRunCommand :=
  let unavailable := rt_node_id <$>
    List.filter (λ target, negb (is_nil (unavailable_inputs target))) (required_targets facts) in
  if negb (is_nil unavailable) then
    Ok (CmdAbort (mkAbortCommand (st_revision state)
      (lit "required values unavailable for controlled nodes " ++ repr_tuple unavailable)))
  else if negb (is_nil (required_targets facts)) then
    Ok (CmdAdvance (mkAdvance (st_revision state) (rf_activations facts)
      (remaining_join_progress facts) (rf_consumed_join_progress facts)))
  else if negb (is_nil (remaining_join_progress facts)) then
    Raise (Exn RoutingDeadlockError "partial join progress has no next task able to complete it")
  else if negb (is_nil (unavailable_outputs facts)) then
    Ok (CmdAbort (mkAbortCommand (st_revision state)
      (lit "required graph output values are unavailable at completion")))
  else Ok (CmdComplete (mkComplete (st_revision state) (rf_consumed_join_progress facts)
             (rf_completion_route facts))).

Definition resolve_routing graph state (scope_run : ScopeRunCoordinate) frames
    : result GraphRunCommand :=
  facts ← resolve_routing_facts graph state scope_run frames;
  project_routing_facts state facts.
End resolver.
