(* ===== verification/Engine.v ===== *)
(** * Engine boundaries around the reducer

    [engine/snapshot_guard.py], [engine/task.py], [engine/planner.py],
    [engine/settlement.py], [engine/claim_stage.py], the resource part of
    [engine/admission.py] and the dispatch of [engine/superstep.py]: how a snapshot is
    checked against the compiled graph, how its pending nodes become tasks, which tasks
    may run, and the claim and settlement commands sent to the reducer. *)

From Stdlib Require Import ZArith NArith Lia Bool String.
From stdpp Require Import prelude strings gmap sorting.
From S2P Require Import Prelude Identity Resources Model Validation Topology Routing.

Set Default Goal Selector "!".
Open Scope Z_scope.

Definition snapshot_fail_if (b : bool) (m : string) : result unit :=
  raise_if b InvalidExecutionSnapshotError m.
Definition resource_fail_if (b : bool) (m : string) : result unit :=
  raise_if b ResourceTransitionError m.
Definition collection_fail_if (b : bool) (m : string) : result unit :=
  raise_if b ResultCollectionError m.

(* ------------------------------------------------------------------ *)
(** ** [task.py] *)

Record GraphTask := mkTask {
  task_id : str;
  task_run_id : str;
  task_superstep : Z;
  task_node_id : str
}.

(** [GraphTask.sort_key] *)
Definition sort_key (task : GraphTask) : Z * (str * str) :=
  (task_superstep task, (task_node_id task, task_id task)).

(** [definition.resources] of a callable node; nothing for a nested graph. *)
Definition callable_resources (node : GraphNode) : option (list str) :=
  match node with
  | CallableNodeDefinition _ resources _ => Some resources
  | NestedGraphNodeDefinition _ => None
  end.

Section engine.
Context {V : Type}.
Implicit Types (graph : CompiledGraph V) (state : GraphRunState).

(* ---------------------------------------------------------------- *)
(** ** [snapshot_guard.py] *)

(** [resume_input.require_resume_input_binding] *)
Definition require_resume_input_binding graph state : result unit :=
  match resume_input graph, st_resume_input_codec state with
  | None, None => Ok tt
  | Some binding, Some codec =>
      raise_if (negb (bool_decide (fc_codec_id binding = codec_id codec))
                || negb (fc_version binding =? codec_version codec)) SnapshotMismatchError
        "compiled graph resume input codec does not match durable graph state"
  | _, _ => Raise (Exn SnapshotMismatchError
              "compiled graph resume input codec does not match durable graph state")
  end.

(** The non-empty resource requirements of the pending callable nodes, by node. *)
Definition required_resources graph state : result (list (str * list str)) :=
  py_for_state (frontier_nodes (st_frontier state)) [] (λ required node,
    if is_pending (fn_settlement node) then
      definition ← map_get (cg_nodes graph) (fn_node_id node);
      Ok match callable_resources definition with
         | Some (r :: rest) => dict_set (fn_node_id node) (r :: rest) required
         | _ => required
         end
    else Ok required).

(** Equality of two dicts. *)
Definition same_dict (d d' : list (str * list str)) : bool :=
  same_set (fst <$> d) (fst <$> d')
  && forallb (λ '(k, _), bool_decide (assoc k d = assoc k d')) d.

(** The resource checks of a claimed snapshot. *)
Definition check_claimed_resources graph state : result unit :=
  required ← required_resources graph state;
  match required, st_resources state with
  | [], None => Ok tt
  | [], Some _ => Raise (Exn InvalidExecutionSnapshotError
                    "resource-free pending nodes cannot retain acquisitions")
  | _, None => Raise (Exn InvalidExecutionSnapshotError
                 "active resource participants require the compiled resource snapshot")
  | _, Some resources =>
      snapshot_fail_if (negb (bool_decide
          (lock_resource_id <$> snap_resources resources = resource_order (transition graph))))
        "active resource participants require the compiled resource snapshot";;
      let acquisitions := fold_left (λ acc item, dict_set (acq_node_id item) (acq_required item) acc)
                            (snap_acquisitions resources) [] in
      snapshot_fail_if (negb (same_dict acquisitions required))
        "resource acquisitions do not exactly match pending compiled requirements"
  end.

Definition require_snapshot_matches_graph graph state : result unit :=
  except_str (one_of [GraphStateTransitionError]) InvalidExecutionSnapshotError
    (validate_graph_run_state state);;
  raise_if (negb (bool_decide (st_definition_id state = cg_definition_id graph))
            || negb (st_definition_version state =? cg_version graph)) SnapshotMismatchError
    "graph run does not match the compiled graph identity and version";;
  snapshot_fail_if (existsb (λ node, negb (map_has (cg_nodes graph) (fn_node_id node)))
                      (frontier_nodes (st_frontier state)))
    "snapshot frontier contains unknown nodes";;
  if negb (bool_decide (st_status state = RUNNING)) then
    ledger_error ← settled_activation_admission_error graph state;
    match ledger_error with
    | Some e => Raise (Exn InvalidExecutionSnapshotError e)
    | None => Ok tt
    end
  else
    snapshot_fail_if ((st_superstep state =? 0)
        && negb (bool_decide (fn_node_id <$> frontier_nodes (st_frontier state)
                              = tp_entries (transition graph))))
      "initial frontier does not exactly match the compiled graph entries";;
    declared ← declared_joins_of graph;
    snapshot_fail_if (existsb (λ progress, negb (mem (occ_join (jp_occurrence progress)) (fst <$> declared)))
                        (st_join_progress state))
      "snapshot references unknown join progress";;
    error ← frontier_admission_error graph state;
    match error with Some e => Raise (Exn InvalidExecutionSnapshotError e) | None => Ok tt end;;
    require_resume_input_binding graph state;;
    py_for (routing_contributions (st_frontier state)) (λ '(node_id, contribution),
      validate_routing_contribution graph node_id contribution);;
    match st_execution state with
    | None => Ok tt
    | Some _ => check_claimed_resources graph state
    end.

Definition require_scoped_snapshot_matches_graph graph state (scope_run : ScopeRunCoordinate)
    : result unit :=
  require_snapshot_matches_graph graph state;;
  raise_if (negb (bool_decide (st_run_id state = graph_run_id scope_run))) SnapshotMismatchError
    "scope-run coordinate does not match its compiled graph state";;
  match last (scope scope_run), st_parent state with
  | None, None => Ok tt
  | None, Some _ => Raise (Exn SnapshotMismatchError "root graph state cannot carry a parent activation")
  | Some _, None => Raise (Exn SnapshotMismatchError
                      "nested graph state does not match its runtime scope")
  | Some segment, Some parent =>
      raise_if (negb (bool_decide (act_node_id parent = segment))) SnapshotMismatchError
        "nested graph state does not match its runtime scope"
  end.

(* ---------------------------------------------------------------- *)
(** ** [planner.py] *)

Definition plan_tasks graph state (limits : ExecutionLimits) : result (list GraphTask) :=
  require_snapshot_matches_graph graph state;;
  if negb (bool_decide (st_status state = RUNNING)) then Ok [] else
  raise_if (max_supersteps limits <=? st_superstep state) ExecutionLimitError
    "graph run reached its superstep limit";;
  Ok ((λ node_id, mkTask (task_identity (st_run_id state) (st_superstep state) node_id)
                    (st_run_id state) (st_superstep state) node_id)
      <$> pending_node_ids (st_frontier state)).

(* ---------------------------------------------------------------- *)
(** ** Resource admission: [admission.py] *)

Definition initial_resource_snapshot graph : ResourceSnapshot :=
  mkSnapshot ((λ resource_id, mkLock resource_id None []) <$> resource_order (transition graph)) [].

Record TaskAdmission := mkAdmission {
  ta_snapshot : ResourceSnapshot;
  admitted_node_ids : list str;
  waiting_node_ids : list str
}.

(** One task of the admission loop; [acquisitions] is the local dict. *)
Definition admit_task graph
    (acc : TaskAdmission * list (str * ResourceAcquisition)) (task : GraphTask)
    : result (TaskAdmission * list (str * ResourceAcquisition)) :=
  let '(admission, acquisitions) := acc in
  let node_id := task_node_id task in
  definition ← map_get (cg_nodes graph) node_id;
  match callable_resources definition with
  | None => Raise (Exn ResourceTransitionError "admission only accepts executable node tasks")
  | Some [] =>
      resource_fail_if (bool_decide (is_Some (assoc node_id acquisitions)))
        "resource-free node unexpectedly has an acquisition";;
      Ok (admission, acquisitions)
  | Some requirements =>
      '(snapshot, acquisition) ←
        match assoc node_id acquisitions with
        | None =>
            proposed ← reduce_resources (ta_snapshot admission) (AcquireResources node_id requirements);
            match last (snap_acquisitions proposed) with
            | Some acquisition => Ok (proposed, acquisition)
            | None => Raise (Exn IndexError "tuple index out of range")
            end
        | Some acquisition =>
            resource_fail_if (negb (bool_decide (acq_required acquisition = requirements)))
              "node acquisition does not match compiled requirements";;
            Ok (ta_snapshot admission, acquisition)
        end;
      let acquisitions := dict_set node_id acquisition acquisitions in
      Ok (if admitted acquisition
          then (mkAdmission snapshot (admitted_node_ids admission ++ [node_id])
                  (waiting_node_ids admission), acquisitions)
          else (mkAdmission snapshot (admitted_node_ids admission)
                  (waiting_node_ids admission ++ [node_id]), acquisitions))
  end.

Definition admit_tasks graph (tasks : list GraphTask) (snapshot : ResourceSnapshot)
    : result TaskAdmission :=
  resource_fail_if (negb (bool_decide
      (lock_resource_id <$> snap_resources snapshot = resource_order (transition graph))))
    "resource snapshot does not match compiled resource order";;
  let nodes := task_node_id <$> tasks in
  resource_fail_if (negb (no_repeats nodes)) "admission tasks must have unique node identities";;
  resource_fail_if (existsb (λ node, negb (map_has (cg_nodes graph) node)) nodes)
    "admission task references an unknown graph node";;
  resource_fail_if (negb (subset_of (acq_node_id <$> snap_acquisitions snapshot) nodes))
    "resource snapshot contains an acquisition outside planned nodes";;
  let acquisitions := fold_left (λ acc a, dict_set (acq_node_id a) a acc) (snap_acquisitions snapshot) [] in
  '(admission, _) ← py_for_state (sorted_key sort_key tasks) (mkAdmission snapshot [] [], acquisitions)
                      (admit_task graph);
  Ok admission.

(** The tasks whose node is a callable with resources. *)
Definition resource_tasks graph (tasks : list GraphTask) : result (list GraphTask) :=
  py_for_state tasks [] (λ selected task,
    definition ← map_get (cg_nodes graph) (task_node_id task);
    Ok match callable_resources definition with
       | Some (_ :: _) => selected ++ [task]
       | _ => selected
       end).

Definition claim_resource_snapshot graph (tasks : list GraphTask) : result (option ResourceSnapshot) :=
  selected ← resource_tasks graph tasks;
  if is_nil selected then Ok None else
  admission ← admit_tasks graph selected (initial_resource_snapshot graph);
  collection_fail_if (is_nil (snap_acquisitions (ta_snapshot admission)))
    "resource admission did not create acquisition participants";;
  Ok (Some (ta_snapshot admission)).

(** Whether the selection loop takes a task. *)
Definition selectable graph (acquisitions : list (str * ResourceAcquisition)) (started : list str)
    (task : GraphTask) : result bool :=
  if mem (task_node_id task) started then Ok false else
  definition ← map_get (cg_nodes graph) (task_node_id task);
  match callable_resources definition with
  | None => Ok false
  | Some [] => Ok true
  | Some resources =>
      Ok match assoc (task_node_id task) acquisitions with
         | Some acquisition => admitted acquisition && bool_decide (acq_required acquisition = resources)
         | None => false
         end
  end.

(** The selection loop: stop when [slots] tasks are selected. *)
Fixpoint select_loop graph (acquisitions : list (str * ResourceAcquisition)) (started : list str)
    (slots : Z) (tasks selected : list GraphTask) : result (list GraphTask) :=
  match tasks with
  | [] => Ok selected
  | task :: rest =>
      take ← selectable graph acquisitions started task;
      if (take : bool) then
        let selected := selected ++ [task] in
        if Z.of_nat (length selected) =? slots then Ok selected
        else select_loop graph acquisitions started slots rest selected
      else select_loop graph acquisitions started slots rest selected
  end.

Definition select_executable_tasks graph (tasks : list GraphTask) (snapshot : option ResourceSnapshot)
    (limits : ExecutionLimits) (active_count : Z) (started_node_ids : list str)
    : result (list GraphTask) :=
  let available_slots := max_parallel_tasks limits - active_count in
  if available_slots <=? 0 then Ok [] else
  let acquisitions := fold_left (λ acc a, dict_set (acq_node_id a) a acc)
    (match snapshot with Some snapshot => snap_acquisitions snapshot | None => [] end) [] in
  select_loop graph acquisitions started_node_ids available_slots (sorted_key sort_key tasks) [].

(** [claim_stage.project_claim_command] *)
Definition project_claim_command state (attempt_id : str) (resources : option ResourceSnapshot)
    : ClaimGraphExecution := mkClaim (st_revision state) attempt_id resources.

(* ---------------------------------------------------------------- *)
(** ** [settlement.py] *)

(** [result.TaskResult]: of a success, its route and the cursor of its output's
    activation Config. *)
Inductive TaskResult :=
| TaskSuccess (task : GraphTask) (route : option str) (config_cursor : option GraphConfigCursor)
| TaskFailure (task : GraphTask) (failure : str)
| TaskInterrupt (task : GraphTask) (request_payload : bytes).

Definition result_task (result_ : TaskResult) : GraphTask :=
  match result_ with TaskSuccess t _ _ | TaskFailure t _ | TaskInterrupt t _ => t end.

Definition require_settlement_execution_token state : result GraphExecutionToken :=
  match st_execution state with
  | Some lease => Ok (lease_token lease)
  | None => Raise (Exn ResultCollectionError "settlement requires a committed execution lease")
  end.

Definition project_success_settlement graph state (node_id : str) (route : option str)
    (config_cursor : option GraphConfigCursor) : result SettleGraphNode :=
  let routing := match route with
                 | Some route => SelectGraphRoute route | None => ContinueGraphRouting end in
  validate_routing_contribution graph node_id routing;;
  token ← require_settlement_execution_token state;
  Ok (mkSettle (st_revision state) token (SucceededGraphNodeOutcome node_id routing) config_cursor None).

Definition project_failure_settlement state (node_id failure : str) : result SettleGraphNode :=
  token ← require_settlement_execution_token state;
  Ok (mkSettle (st_revision state) token (FailedGraphNodeOutcome node_id failure) None None).

Definition project_interrupt_settlement graph state (node_id : str) (request_payload : bytes)
    : result SettleGraphNode :=
  collection_fail_if (match resume_input graph with None => true | Some _ => false end)
    "node interrupt requires a resume input codec";;
  token ← require_settlement_execution_token state;
  Ok (mkSettle (st_revision state) token
        (InterruptedGraphNodeOutcome node_id
           (mkInterruptIdentity (st_run_id state) (st_superstep state) node_id (tok_generation token))
           request_payload) None None).

Definition settle_result graph state (result_ : TaskResult) : result SettleGraphNode :=
  require_snapshot_matches_graph graph state;;
  _ ← require_settlement_execution_token state;
  let task := result_task result_ in
  collection_fail_if (negb (bool_decide (task_run_id task = st_run_id state))
                      || negb (task_superstep task =? st_superstep state)
                      || negb (bool_decide (task_id task =
                           task_identity (task_run_id task) (task_superstep task) (task_node_id task))))
    "task result has invalid coordinates";;
  collection_fail_if (match frontier_node (st_frontier state) (task_node_id task) with
                      | Some node => negb (is_pending (fn_settlement node))
                      | None => true end)
    "task result does not reference a pending node";;
  match result_ with
  | TaskSuccess _ route cursor => project_success_settlement graph state (task_node_id task) route cursor
  | TaskFailure _ failure => project_failure_settlement state (task_node_id task) failure
  | TaskInterrupt _ payload => project_interrupt_settlement graph state (task_node_id task) payload
  end.
End engine.
