(* ===== verification/DemoGraph.v ===== *)
(** * A small compiled graph

    The graph START -> a -> b, Join(a, b) -> c -> END over one resource that [a] needs;
    [demo_compiles] checks that it is what the compiler makes of its definition, and the
    runs [late_after] of the reducer execute it.  The witnesses of the routing and engine properties use it. *)

From Stdlib Require Import ZArith NArith Lia Bool String.
From stdpp Require Import prelude strings gmap sorting.
From S2P Require Import Prelude Identity Resources Model Transitions Reducer ReducerProofs AdvanceProofs Topology GraphDefinition Bindings Compiler Routing Engine.

Set Default Goal Selector "!".
Open Scope Z_scope.

Definition demo_frame (kind : FrameKind) (ordinal : Z) (names : list str) : FrameDescriptor unit :=
  mkFrameDescriptor (mkFrameIdentity (lit "def") 1 kind ordinal) ((λ name, mkOutputDeclaration name tt) <$> names).
Definition demo_descriptor (kind : FrameKind) (ordinal : Z) : FrameDescriptor unit := demo_frame kind ordinal [].

Definition demo_compiled_join : CompiledJoin :=
  mkCompiledJoin (mkJoin [lit "a"; lit "b"] (lit "c")) [(lit "a", 2); (lit "b", 1)].

Definition demo_by_node {A} (a b c : A) : FrozenMap A := [(lit "a", a); (lit "b", b); (lit "c", c)].

Definition demo_transition : FrontierTransitionPlan unit :=
  mkTransitionPlan [lit "a"]
    (demo_by_node [lit "b"] [] [])
    (demo_by_node [] [] [])
    (demo_by_node [None] [None] [None])
    (demo_by_node [demo_compiled_join] [demo_compiled_join] [])
    (demo_by_node (mkMaterialization [] (demo_descriptor NODE_INPUT 0))
                  (mkMaterialization [mkInputBinding (mkNodeInput (lit "b") (lit "x"))
                     (ResolvedValue (FromNodeOutput (mkNodeOutput (lit "a") (lit "x")))) tt
                     (Some (mkSelection ABSOLUTE 0))] (demo_frame NODE_INPUT 1 [lit "x"]))
                  (mkMaterialization [] (demo_descriptor NODE_INPUT 2)))
    (demo_by_node (demo_frame NODE_OUTPUT 0 [lit "x"]) (demo_descriptor NODE_OUTPUT 1) (demo_descriptor NODE_OUTPUT 2))
    [] [lit "r1"]
    (demo_by_node [] [[(lit "a", [None])]] [[(lit "a", [None]); (lit "b", [None])]]).

Definition demo_graph : CompiledGraph unit :=
  mkCompiledGraph (lit "def") 1
    (demo_by_node (CallableNodeDefinition (lit "a") [lit "r1"] []) (CallableNodeDefinition (lit "b") [] [])
                  (CallableNodeDefinition (lit "c") [] []))
    [] (demo_descriptor GRAPH_INPUT 0) (demo_descriptor GRAPH_OUTPUT 0) demo_transition [lit "r1"] None [None].

(** The definition, with its nodes out of order. *)
Definition demo_definition : GraphDefinition unit :=
  mkDefinition 1 (lit "def") 1
    [CallableNode (lit "c") [] [] [] [];
     CallableNode (lit "a") [] [mkOutputDeclaration (lit "x") tt] [lit "r1"] [];
     CallableNode (lit "b") [mkBinding (lit "x") (ValueSource (NodeOutputRef (lit "a") (lit "x") None))] [] [] []]
    [DirectEdge (lit "a") (lit "b"); JoinEdge [lit "b"; lit "a"] (lit "c")] [] [] [lit "r1"] None.

Example demo_compiles : compile (λ _, tt) demo_definition ∅ = Ok (demo_graph, {[1 := demo_graph]}).
Proof. vm_compute. reflexivity. Qed.

(** An index in which every frame is available. *)
Definition full_index : unit := tt.
#[export] Instance full_availability : ScopedFrameAvailability unit :=
  {| has_graph_input := λ _ _, true; has_publication := λ _ _, true |}.

Definition demo_scope : ScopeRunCoordinate := mkScopeRun [] (lit "run").

(** A stand-in for the interpreter's [repr] of a tuple of strings. *)
Definition demo_repr (xs : list str) : str := lit "(" ++ concat xs ++ lit ")".

(** The resolver drives the run: its commands are the commands of [late_commands]. *)
Example demo_resolves :
  resolve_routing demo_repr demo_graph (late_after 2) demo_scope full_index = Ok (nth 2 late_commands (demo_claim 0))
  ∧ resolve_routing demo_repr demo_graph (late_after 5) demo_scope full_index = Ok (nth 5 late_commands (demo_claim 0))
  ∧ resolve_routing demo_repr demo_graph (late_after 8) demo_scope full_index = Ok (nth 8 late_commands (demo_claim 0)).
Proof. vm_compute. done. Qed.
