(* ===== verification/EngineProofs.v ===== *)
(** * Properties of planning, admission and claims

    The task selection never oversubscribes nor lets two running tasks share a
    resource; the claim the engine projects from a guarded snapshot is always accepted
    by the reducer and its successor passes the guard again. *)

From Stdlib Require Import ZArith NArith Lia Bool String.
From stdpp Require Import prelude strings gmap sorting.
From S2P Require Import Prelude Identity Resources ResourceProofs Model Validation Transitions WellFormed Reducer ReducerProofs OperationProofs SettleProofs AdvanceProofs Topology Routing Engine DemoGraph.

Set Default Goal Selector "!".
Open Scope Z_scope.

(* ------------------------------------------------------------------ *)
(** ** Task selection *)

(** The compiled resources of a callable node. *)
Definition node_resources {V} (graph : CompiledGraph V) (node_id : str) : option (list str) :=
  match map_get (cg_nodes graph) node_id with
  | Ok definition => callable_resources definition
  | Raise _ => None
  end.

(** A task that may start: not started, callable, and admitted for all its resources. *)
Definition can_start {V} (graph : CompiledGraph V) (snapshot : option ResourceSnapshot)
    (started : list str) (t : GraphTask) : Prop :=
  task_node_id t ∉ started ∧ ∃ rs, node_resources graph (task_node_id t) = Some rs
  ∧ (rs = [] ∨ ∃ s a, snapshot = Some s ∧ a ∈ snap_acquisitions s
       ∧ acq_node_id a = task_node_id t ∧ admitted a = true ∧ acq_required a = rs).

Definition acquisitions_of (snapshot : option ResourceSnapshot) : list ResourceAcquisition :=
  match snapshot with Some s => snap_acquisitions s | None => [] end.
Definition acquisition_dict (snapshot : option ResourceSnapshot) : list (str * ResourceAcquisition) :=
  fold_left (λ acc a, dict_set (acq_node_id a) a acc) (acquisitions_of snapshot) [].

Lemma selectable_true {V} (graph : CompiledGraph V) snapshot started t :
  NoDup (acq_node_id <$> acquisitions_of snapshot) →
  selectable graph (acquisition_dict snapshot) started t = Ok true ↔ can_start graph snapshot started t.
Proof.
  intros Hnd. unfold selectable, can_start, node_resources.
  destruct (mem (task_node_id t) started) eqn:Em.
  { apply mem_spec in Em. naive_solver. }
  apply mem_false in Em. destruct (map_get _ _) as [def|]; cbn [mbind result_bind]; [|naive_solver].
  destruct (callable_resources def) as [[|r rs]|]; [naive_solver| |naive_solver].
  assert (∀ a, assoc (task_node_id t) (acquisition_dict snapshot) = Some a ↔
    ∃ x, x ∈ acquisitions_of snapshot ∧ acq_node_id x = task_node_id t ∧ x = a) as Ha
    by (intros a; by apply (assoc_comprehension acq_node_id (λ x, x))).
  split.
  - destruct (assoc _ _) as [a|]; [|done]. destruct (proj1 (Ha a) eq_refl) as (a' & Hin & Hn & ->).
    intros [= [Had Hreq%bool_decide_eq_true]%andb_true_iff]. split; [done|]. eexists. split; [done|].
    right. destruct snapshot as [s|]; [|by apply elem_of_nil in Hin]. by exists s, a.
  - intros (_ & rs' & [= <-] & [?|(s & a & -> & Hin & Hn & Had & Hreq)]); [done|].
    rewrite (proj2 (Ha a)) by (exists a; done). by rewrite Had, bool_decide_true.
Qed.

Definition taken (r : result bool) : bool := match r with Ok b => b | Raise _ => false end.

Lemma select_loop_spec {V} (graph : CompiledGraph V) acqs started slots tasks : ∀ selected r,
  Z.of_nat (length selected) < slots →
  select_loop graph acqs started slots tasks selected = Ok r →
  r = selected ++ take (Z.to_nat slots - length selected)
        (List.filter (λ t, taken (selectable graph acqs started t)) tasks).
Proof.
  induction tasks as [|t tasks IH]; intros selected r Hlt H; cbn in H.
  - injection H as <-. cbn. by rewrite take_nil, app_nil_r.
  - cbn [List.filter]. destruct (selectable graph acqs started t) as [[|]|] eqn:E; [..|done];
      cbn [taken]; cbn [mbind result_bind] in H; [|by apply IH].
    assert (Z.to_nat slots - length selected = S (Z.to_nat slots - length (selected ++ [t])))%nat as ->.
    { rewrite length_app; cbn. lia. }
    cbn [take]. destruct (Z.eqb_spec (Z.of_nat (length (selected ++ [t]))) slots) as [Heq|Hne].
    + injection H as <-. rewrite <-Heq, Nat2Z.id, Nat.sub_diag. done.
    + rewrite cons_middle, app_assoc. apply IH; [|done]. rewrite length_app in *. cbn in *. lia.
Qed.

(** The selected tasks: the first of the eligible ones in canonical order. *)
Lemma selection_spec {V} (graph : CompiledGraph V) tasks snapshot limits active started sel :
  NoDup (acq_node_id <$> acquisitions_of snapshot) →
  select_executable_tasks graph tasks snapshot limits active started = Ok sel →
  ∃ eligible, sublist eligible (sorted_key sort_key tasks)
     ∧ (∀ t, t ∈ eligible ↔ t ∈ tasks ∧ can_start graph snapshot started t)
     ∧ sel = take (Z.to_nat (max_parallel_tasks limits - active)) eligible.
Proof.
  intros Hnd H.
  set (eligible := List.filter (λ t, taken (selectable graph (acquisition_dict snapshot) started t))
                     (sorted_key sort_key tasks)).
  exists eligible. split_and!.
  - unfold eligible. clear. induction (sorted_key sort_key tasks) as [|t ts IH]; cbn; [constructor|].
    by case_match; constructor.
  - intros t. unfold eligible. rewrite List_filter_elem, sorted_key_elem, <-selectable_true by done.
    unfold taken. destruct (selectable _ _ _ t) as [[]|]; naive_solver.
  - unfold select_executable_tasks in H. destruct (Z.leb_spec (max_parallel_tasks limits - active) 0).
    + injection H as <-. by rewrite Z2Nat.nonpos by lia.
    + apply select_loop_spec in H; [|cbn; lia]. cbn [app length] in H. by rewrite Nat.sub_0_r in H.
Qed.

(** selecting the tasks to start is exact and safe.  Among the planned tasks in
    canonical order, exactly the first ones that may start are selected, up to the free
    slots (none if no slot is free, all of them if they fit): a task may start when it
    is not yet started, callable, and admitted for all its compiled resources; and two
    selected tasks of different nodes never share a resource. *)
Lemma task_selection_exact {V} (graph : CompiledGraph V) tasks snapshot limits active started sel :
  (∀ s, snapshot = Some s → validate_resource_snapshot s = Ok tt) →
  select_executable_tasks graph tasks snapshot limits active started = Ok sel →
  (∃ eligible, sublist eligible (sorted_key sort_key tasks)
     ∧ (∀ t, t ∈ eligible ↔ t ∈ tasks ∧ can_start graph snapshot started t)
     ∧ sel = take (Z.to_nat (max_parallel_tasks limits - active)) eligible)
  ∧ (∀ t1 t2 rs1 rs2, t1 ∈ sel → t2 ∈ sel → task_node_id t1 ≠ task_node_id t2 →
       node_resources graph (task_node_id t1) = Some rs1 →
       node_resources graph (task_node_id t2) = Some rs2 → ∀ r, r ∈ rs1 → r ∉ rs2).
Proof.
  intros Hv H.
  assert (∀ s, snapshot = Some s → snapshot_inv s) as Hinv by (intros s Es; by apply valid_inv, Hv).
  assert (NoDup (acq_node_id <$> acquisitions_of snapshot)) as Hnd.
  { destruct snapshot as [s|]; [|constructor]. by apply (inv_nodes s (Hinv s eq_refl)). }
  destruct (selection_spec _ _ _ _ _ _ _ Hnd H) as (eligible & Hsub & Hel & ->). split; [by exists eligible|].
  intros t1 t2 rs1 rs2 Ht1 Ht2 Hne H1 H2 r Hr1 Hr2.
  apply elem_of_take in Ht1 as (? & Ht1%list_elem_of_lookup_2 & _).
  apply elem_of_take in Ht2 as (? & Ht2%list_elem_of_lookup_2 & _).
  apply Hel in Ht1 as (_ & _ & rs1' & Er1 & Hc1). apply Hel in Ht2 as (_ & _ & rs2' & Er2 & Hc2).
  rewrite H1 in Er1. rewrite H2 in Er2. injection Er1 as <-. injection Er2 as <-.
  destruct Hc1 as [->|(s & a & Es & Ha & Hna & Had & <-)]; [by apply elem_of_nil in Hr1|].
  destruct Hc2 as [->|(s' & b & Es' & Hb & Hnb & Hbd & <-)]; [by apply elem_of_nil in Hr2|].
  assert (s' = s) as -> by congruence.
  unfold admitted in Had, Hbd. rewrite andb_true_iff, bool_decide_eq_true in Had, Hbd.
  destruct Had as [Ea _], Hbd as [Eb _]. rewrite <-Ea in Hr1. rewrite <-Eb in Hr2.
  assert (a = b) as -> by (eapply held_by_one; eauto). congruence.
Qed.

(* ------------------------------------------------------------------ *)
(** ** The guard only reads part of the state *)

(** The two states agree on what routing reads. *)
Record same_position (s s' : GraphRunState) : Prop := {
  sp_run : st_run_id s' = st_run_id s;
  sp_superstep : st_superstep s' = st_superstep s;
  sp_frontier : st_frontier s' = st_frontier s;
  sp_joins : st_join_progress s' = st_join_progress s;
  sp_ledger : st_settled_publications s' = st_settled_publications s;
  sp_status : st_status s' = st_status s
}.

Lemma routing_evaluation_same {V} (graph : CompiledGraph V) s s' :
  same_position s s' → routing_evaluation graph s' = routing_evaluation graph s.
Proof.
  intros [H1 H2 H3 H4 H5 H6]. destruct s, s'; cbn in *; subst. reflexivity.
Qed.

(* ------------------------------------------------------------------ *)
(** ** Resource requirements of a frontier *)

Lemma py_for_state_returns {A S} (xs : list A) (body : S → A → result S) :
  (∀ st x, x ∈ xs → ∃ st', body st x = Ok st') → ∀ st, ∃ st', py_for_state xs st body = Ok st'.
Proof.
  induction xs as [|x xs IH]; intros H st; [by exists st|]. cbn.
  destruct (H st x) as [st1 E]; [by left|]. rewrite E. cbn. apply IH. intros; apply H. by right.
Qed.

Lemma map_has_get {A} (m : FrozenMap A) k : map_has m k = true ↔ ∃ v, map_get m k = Ok v.
Proof. unfold map_has. destruct (map_get m k); naive_solver. Qed.

(** A pending node with resources. *)
Definition resource_bound {V} (graph : CompiledGraph V) (s : GraphRunState) (k : str) (v : list str) : Prop :=
  k ∈ pending_node_ids (st_frontier s) ∧ node_resources graph k = Some v ∧ v ≠ [].

Definition pending_in (nodes : list GraphFrontierNode) (k : str) : Prop :=
  ∃ n, k = fn_node_id n ∧ is_pending (fn_settlement n) = true ∧ n ∈ nodes.

Lemma pending_in_snoc dn n k :
  pending_in (dn ++ [n]) k ↔ pending_in dn k ∨ is_pending (fn_settlement n) = true ∧ k = fn_node_id n.
Proof.
  unfold pending_in. setoid_rewrite elem_of_app. setoid_rewrite list_elem_of_singleton. split.
  - intros (m & -> & Hp & [Hm| ->]); [left; eauto|right; done].
  - intros [(m & -> & Hp & Hm)|[Hp ->]]; eauto.
Qed.

Lemma required_resources_spec {V} (graph : CompiledGraph V) s req :
  required_resources graph s = Ok req → ∀ k v, assoc k req = Some v ↔ resource_bound graph s k v.
Proof.
  intros H k v. unfold resource_bound, pending_node_ids, node_ids_with.
  rewrite list_elem_of_fmap. setoid_rewrite List_filter_elem.
  fold (pending_in (frontier_nodes (st_frontier s)) k). revert H k v. unfold required_resources.
  apply (py_for_state_prefix (λ dn req, ∀ k v, assoc k req = Some v ↔
    pending_in dn k ∧ node_resources graph k = Some v ∧ v ≠ [])).
  2: { intros k v. cbn. split; [done|]. intros [(n & _ & _ & []%elem_of_nil) _]. }
  intros dn n st st' IH Hst k v. rewrite pending_in_snoc.
  destruct (is_pending (fn_settlement n)) eqn:Ep; [|injection Hst as <-; rewrite IH; tauto || naive_solver].
  apply bind_Ok in Hst as (def & Hd & [= <-]).
  assert (node_resources graph (fn_node_id n) = callable_resources def) as Hn
    by (unfold node_resources; by rewrite Hd).
  destruct (decide (k = fn_node_id n)) as [->|Hne].
  - rewrite Hn. destruct (callable_resources def) as [[|r rs]|]; rewrite ?assoc_dict_set, ?IH, ?decide_True by done.
    + rewrite Hn. naive_solver.
    + naive_solver.
    + rewrite Hn. naive_solver.
  - destruct (callable_resources def) as [[|r rs]|]; rewrite ?assoc_dict_set, ?decide_False by done; rewrite IH; tauto.
Qed.

Lemma required_resources_total {V} (graph : CompiledGraph V) s :
  (∀ n, n ∈ frontier_nodes (st_frontier s) → map_has (cg_nodes graph) (fn_node_id n) = true) →
  ∃ req, required_resources graph s = Ok req.
Proof.
  intros H. apply py_for_state_returns. intros st n Hn. destruct (is_pending _); [|eauto].
  apply H, map_has_get in Hn as [def ->]. cbn. eauto.
Qed.

Lemma same_dict_spec d d' : (∀ k, assoc k d = assoc k d') → same_dict d d' = true.
Proof.
  intros H. unfold same_dict. apply andb_true_iff. split.
  - apply same_set_spec. intros k. pose proof (assoc_None k d). pose proof (assoc_None k d').
    rewrite H in *. destruct (decide (k ∈ fst <$> d)), (decide (k ∈ fst <$> d')); naive_solver.
  - apply forallb_forall. intros [k v] _. apply bool_decide_eq_true, H.
Qed.

(* ------------------------------------------------------------------ *)
(** ** Admission from free locks *)

(** The (node, requirements) pairs of a snapshot. *)
Definition requests (s : ResourceSnapshot) : list (str * list str) := requests_of (snap_acquisitions s).

Lemma acquire_requests s n req s' :
  snapshot_inv s → req ≠ [] → acquire s n req = Ok s' →
  requests s' = requests s ++ [(n, req)] ∧ ids (snap_resources s') = ids (snap_resources s)
  ∧ ∃ a, last (snap_acquisitions s') = Some a ∧ acq_node_id a = n.
Proof.
  intros Hinv Hne H.
  destruct (acquire_spec s n req Hinv (acquire_request_ok _ _ _ _ H Hne) Hne)
    as (R' & got & rest & H' & _ & Hids & _).
  rewrite H' in H. injection H as <-. split_and!; [|done|].
  - unfold requests, requests_of. cbn. by rewrite fmap_app.
  - cbn. rewrite last_snoc. eexists. split; done.
Qed.

Definition task_request {V} (graph : CompiledGraph V) (t : GraphTask) : str * list str :=
  (task_node_id t, default [] (node_resources graph (task_node_id t))).

(** Tasks of distinct callable nodes that need resources. *)
Record resource_batch {V} (graph : CompiledGraph V) (tasks : list GraphTask) : Prop := {
  rb_distinct : NoDup (task_node_id <$> tasks);
  rb_needs : ∀ t, t ∈ tasks → ∃ r rs, node_resources graph (task_node_id t) = Some (r :: rs)
}.

Lemma resource_batch_snoc {V} (graph : CompiledGraph V) tasks t :
  resource_batch graph (tasks ++ [t]) →
  resource_batch graph tasks ∧ task_node_id t ∉ task_node_id <$> tasks
  ∧ ∃ r rs, node_resources graph (task_node_id t) = Some (r :: rs).
Proof.
  intros [Hnd Hn]. rewrite fmap_app, NoDup_app in Hnd. destruct Hnd as (Hnd & Hx & _). split_and!.
  - split; [done|]. intros x Hx'. apply Hn, elem_of_app. by left.
  - intros Hin. apply (Hx _ Hin). by left.
  - apply Hn, elem_of_app. right. by left.
Qed.

(** The admission loop after the tasks [dn]. *)
Record admission_state {V} (graph : CompiledGraph V) (dn : list GraphTask) (adm : TaskAdmission)
    (dict : list (str * ResourceAcquisition)) : Prop := {
  as_requests : requests (ta_snapshot adm) = task_request graph <$> dn;
  as_ids : ids (snap_resources (ta_snapshot adm)) = resource_order (transition graph);
  as_valid : dn ≠ [] → validate_resource_snapshot (ta_snapshot adm) = Ok tt;
  as_dict : ∀ k, k ∈ fst <$> dict → k ∈ task_node_id <$> dn
}.

Lemma admit_task_state {V} (graph : CompiledGraph V) dn t adm dict adm' dict' :
  admission_state graph dn adm dict → resource_batch graph (dn ++ [t]) →
  admit_task graph (adm, dict) t = Ok (adm', dict') → admission_state graph (dn ++ [t]) adm' dict'.
Proof.
  intros [Hreq Hids _ Hdict] (_ & Hfresh & r & rs & Hres)%resource_batch_snoc H.
  unfold admit_task in H. apply bind_Ok in H as (def & Hd & H).
  assert (callable_resources def = Some (r :: rs)) as Hc.
  { unfold node_resources in Hres. by rewrite Hd in Hres. }
  rewrite Hc in H. assert (assoc (task_node_id t) dict = None) as Hnone.
  { apply assoc_None. intros Hin. by apply Hfresh, Hdict. }
  rewrite Hnone in H. apply bind_Ok in H as ([snap acq] & Hp & H).
  apply bind_Ok in Hp as (prop & Hr & Hp). unfold reduce_resources in Hr.
  apply seq_Ok_iff in Hr as [Hv Hr]. apply bind_Ok in Hr as (prop' & Hacq & Hr).
  apply seq_Ok_iff in Hr as [Hv' [= ->]]. cbn in Hacq.
  destruct (acquire_requests _ _ (r :: rs) _ (valid_inv _ Hv) ltac:(done) Hacq) as (Hq & Hi & a & Ha & Hna).
  rewrite Ha in Hp. injection Hp as <- <-.
  assert (ta_snapshot adm' = prop ∧ dict' = dict_set (task_node_id t) a dict) as [Es ->].
  { destruct (admitted a); by injection H as <- <-. }
  split; rewrite ?Es.
  - rewrite Hq, Hreq, fmap_app. cbn. unfold task_request at 3. by rewrite Hres.
  - by rewrite Hi.
  - done.
  - intros k. rewrite dict_set_keys, fmap_app, elem_of_app. intros [->|?%Hdict]; [right; by left|by left].
Qed.

Lemma admit_tasks_spec {V} (graph : CompiledGraph V) tasks adm :
  resource_batch graph tasks → tasks ≠ [] →
  admit_tasks graph tasks (initial_resource_snapshot graph) = Ok adm →
  requests (ta_snapshot adm) = task_request graph <$> sorted_key sort_key tasks
  ∧ ids (snap_resources (ta_snapshot adm)) = resource_order (transition graph)
  ∧ validate_resource_snapshot (ta_snapshot adm) = Ok tt.
Proof.
  intros Hb Hne H. unfold admit_tasks in H. do 4 (apply seq_Ok_iff in H as [_ H]).
  apply bind_Ok in H as ([adm' dict] & Hloop & [= ->]).
  assert (resource_batch graph (sorted_key sort_key tasks)) as Hsb.
  { destruct Hb as [Hnd Hn]. split.
    - by apply (NoDup_Permutation_proper _ _ (fmap_Permutation _ _ _ (sort_by_perm _ tasks))).
    - intros t Ht%sorted_key_elem. by apply Hn. }
  assert (admission_state graph (sorted_key sort_key tasks) adm dict) as [? ? Hv _].
  { revert Hsb. change (admission_state graph (sorted_key sort_key tasks) adm dict)
      with (admission_state graph (sorted_key sort_key tasks) (adm, dict).1 (adm, dict).2).
    revert Hloop. apply (py_for_state_prefix (λ dn st, resource_batch graph dn →
      admission_state graph dn st.1 st.2)).
    - intros dn t [a d] [a' d'] IH Hst Hbd. eapply admit_task_state; [|done..].
      apply IH. by apply resource_batch_snoc in Hbd as [? _].
    - intros _. split; cbn; [done| |done|intros k []%elem_of_nil].
      unfold ids. rewrite <-list_fmap_compose. apply list_fmap_id. }
  split_and!; [done..|]. apply Hv. intros Hnil. apply Hne.
  apply elem_of_nil_inv. intros t Ht. rewrite <-(sorted_key_elem sort_key), Hnil in Ht.
  by apply elem_of_nil in Ht.
Qed.

Lemma resource_tasks_spec {V} (graph : CompiledGraph V) tasks sel :
  resource_tasks graph tasks = Ok sel →
  ∀ t, t ∈ sel ↔ t ∈ tasks ∧ ∃ r rs, node_resources graph (task_node_id t) = Some (r :: rs).
Proof.
  apply (py_for_state_prefix (λ dn sel, ∀ t, t ∈ sel ↔
    t ∈ dn ∧ ∃ r rs, node_resources graph (task_node_id t) = Some (r :: rs))).
  2: { intros t. split; [intros []%elem_of_nil|]. intros [[]%elem_of_nil _]. }
  intros dn t st st' IH (def & Hd & [= <-])%bind_Ok t'.
  assert (node_resources graph (task_node_id t) = callable_resources def) as Hn
    by (unfold node_resources; by rewrite Hd).
  rewrite elem_of_app, list_elem_of_singleton.
  destruct (callable_resources def) as [[|r rs]|].
  2: { rewrite elem_of_app, list_elem_of_singleton, IH. split.
       - intros [[? ?]| ->]; [by split; [left|]|]. split; [by right|]. eauto.
       - intros [[?| ->] ?]; [left|right]; done. }
  all: rewrite IH; split; [intros [? ?]; by split; [left|]|];
    intros [[?| ->] (r' & rs' & Hr)]; [by split; [|eauto]|congruence].
Qed.

Lemma resource_tasks_sublist {V} (graph : CompiledGraph V) tasks sel :
  resource_tasks graph tasks = Ok sel → sublist sel tasks.
Proof.
  apply (py_for_state_prefix (λ dn sel, sublist sel dn)); [|constructor].
  intros dn t st st' IH (def & Hd & [= <-])%bind_Ok.
  destruct (callable_resources def) as [[|r rs]|]; [|by apply sublist_app|];
    by apply sublist_inserts_r.
Qed.

(* ------------------------------------------------------------------ *)
(** ** The claim round trip *)

(** Replace the end of a sequence that succeeds. *)
Lemma bind_mono {A B} (m : result A) (f g : A → result B) b c :
  (∀ a, m = Ok a → f a = Ok b → g a = Ok c) → m ≫= f = Ok b → m ≫= g = Ok c.
Proof. destruct m as [a|]; cbn; [|done]. intros H. by apply H. Qed.

(** What the guard establishes of a running snapshot. *)
Record guarded {V} (graph : CompiledGraph V) (s : GraphRunState) : Prop := {
  gd_wf : wf s;
  gd_known : ∀ n, n ∈ frontier_nodes (st_frontier s) → map_has (cg_nodes graph) (fn_node_id n) = true
}.

Lemma guard_guarded {V} (graph : CompiledGraph V) s :
  require_snapshot_matches_graph graph s = Ok tt → guarded graph s.
Proof.
  unfold require_snapshot_matches_graph. intros H. apply seq_Ok_iff in H as [Hv H].
  apply except_str_Ok, validate_graph_run_state_wf in Hv.
  apply seq_Ok_iff in H as [_ H]. apply seq_Ok_iff in H as [Hk _]. split; [done|].
  apply raise_if_Ok in Hk. rewrite existsb_false_iff in Hk. intros n Hn.
  by apply negb_false_iff, Hk.
Qed.

(** The guard of a running, unleased snapshot carries over to a leased one at the same
    position whose resources fit. *)
Lemma guard_transfer {V} (graph : CompiledGraph V) s s' :
  st_status s = RUNNING → require_snapshot_matches_graph graph s = Ok tt →
  wf s' → same_position s s' → st_definition_id s' = st_definition_id s →
  st_definition_version s' = st_definition_version s →
  st_resume_input_codec s' = st_resume_input_codec s →
  check_claimed_resources graph s' = Ok tt →
  require_snapshot_matches_graph graph s' = Ok tt.
Proof.
  intros Hst H Hwf' Hsp Hdi Hdv Hcodec Hres.
  pose proof (routing_evaluation_same graph s s' Hsp) as Hev. destruct Hsp as [_ H2 H3 H4 _ H6].
  unfold require_snapshot_matches_graph, frontier_admission_error, require_resume_input_binding in *.
  rewrite (proj2 (validate_graph_run_state_wf s') Hwf'). cbn [except_str mbind result_bind].
  apply seq_Ok_iff in H as [_ H]. rewrite H2, H3, H4, H6, Hdi, Hdv, Hcodec, Hev, Hst in *.
  rewrite bool_decide_true in H |- * by done. cbn [negb] in *. revert H.
  do 9 (apply bind_mono; intros ? _). by destruct (st_execution s').
Qed.

Lemma plan_tasks_spec {V} (graph : CompiledGraph V) s limits tasks :
  plan_tasks graph s limits = Ok tasks → st_status s = RUNNING →
  require_snapshot_matches_graph graph s = Ok tt ∧ task_node_id <$> tasks = pending_node_ids (st_frontier s).
Proof.
  unfold plan_tasks. intros H Hst. apply seq_Ok_iff in H as [Hg H].
  rewrite Hst in H. rewrite bool_decide_true in H by done. cbn [negb] in H.
  apply seq_Ok_iff in H as [_ [= <-]]. split; [done|].
  rewrite <-list_fmap_compose. apply list_fmap_id.
Qed.

Lemma pending_NoDup s : wf s → NoDup (pending_node_ids (st_frontier s)).
Proof.
  intros Hwf. pose proof (strictly_sorted_NoDup_key _ _ (fo_sorted s (wf_frontier s Hwf))) as Hnd.
  unfold pending_node_ids, node_ids_with. eapply sublist_NoDup; [exact Hnd|].
  apply fmap_sublist. clear. induction (frontier_nodes (st_frontier s)) as [|n ns IH]; cbn; [constructor|].
  by case_match; constructor.
Qed.

(** The resources a claim carries: none, or the valid snapshot of exactly the pending
    nodes that need resources. *)
Lemma claim_resources_spec {V} (graph : CompiledGraph V) s tasks resources :
  wf s → task_node_id <$> tasks = pending_node_ids (st_frontier s) →
  claim_resource_snapshot graph tasks = Ok resources →
  match resources with
  | None => ∀ k v, ¬ resource_bound graph s k v
  | Some r => validate_resource_snapshot r = Ok tt ∧ snap_acquisitions r ≠ []
      ∧ ids (snap_resources r) = resource_order (transition graph)
      ∧ ∀ k v, (k, v) ∈ requests r ↔ resource_bound graph s k v
  end.
Proof.
  intros Hwf Htasks H. apply bind_Ok in H as (sel & Hsel & H).
  pose proof (resource_tasks_spec _ _ _ Hsel) as Hin. pose proof (resource_tasks_sublist _ _ _ Hsel) as Hsub.
  assert (∀ k v, resource_bound graph s k v ↔ ∃ t, t ∈ sel ∧ task_request graph t = (k, v)) as Hrb.
  { intros k v. unfold resource_bound, task_request. rewrite <-Htasks, list_elem_of_fmap. split.
    - intros ((t & -> & Ht) & Hr & Hne). exists t. rewrite Hr. split; [|done]. apply Hin.
      split; [done|]. destruct v; [done|eauto].
    - intros (t & (Ht & r & rs & Hr)%Hin & Heq). rewrite Hr in Heq. injection Heq as <- <-. eauto. }
  destruct (is_nil sel) eqn:En.
  - injection H as <-. apply is_nil_spec in En as ->. intros k v (t & []%elem_of_nil & _)%Hrb.
  - apply bind_Ok in H as (adm & Hadm & H). apply seq_Ok_iff in H as [Hne [= <-]].
    apply raise_if_Ok, is_nil_false in Hne. apply is_nil_false in En.
    assert (resource_batch graph sel) as Hb.
    { split; [|intros t Ht; by apply Hin]. eapply sublist_NoDup; [|by apply fmap_sublist].
      rewrite Htasks. by apply pending_NoDup. }
    destruct (admit_tasks_spec _ _ _ Hb En Hadm) as (Hreq & Hids & Hv). split_and!; [done..|].
    intros k v. rewrite Hreq, list_elem_of_fmap, Hrb. setoid_rewrite sorted_key_elem. naive_solver.
Qed.

(** The projected claim is accepted, and the leased successor is guarded again. *)
Lemma claim_accepted_again {V} (graph : CompiledGraph V) s limits tasks resources attempt :
  st_status s = RUNNING → st_execution s = None → pending_node_ids (st_frontier s) ≠ [] →
  plan_tasks graph s limits = Ok tasks →
  claim_resource_snapshot graph tasks = Ok resources →
  is_canonical_identity attempt = true →
  let c := project_claim_command s attempt resources in
  reduce_graph_run (Some s) (CmdClaim c) = Ok (claimed s c)
  ∧ require_snapshot_matches_graph graph (claimed s c) = Ok tt.
Proof.
  intros Hst He Hp Hplan Hcl Hat c. apply plan_tasks_spec in Hplan as [Hg Htasks]; [|done].
  pose proof (guard_guarded _ _ Hg) as [Hwf Hknown].
  pose proof (claim_resources_spec _ _ _ _ Hwf Htasks Hcl) as Hres.
  assert (on_some (claim_resources c) (claimable_resources s)) as Hok.
  { intros r [= ->]. destruct Hres as (Hv & Hne & _ & Hreq). split_and!; [done..|].
    intros k (a & -> & Ha)%list_elem_of_fmap.
    assert ((acq_node_id a, acq_required a) ∈ requests r) as Hin
      by (by apply (list_elem_of_fmap_2 (λ a, (acq_node_id a, acq_required a)))).
    by apply Hreq in Hin as [? _]. }
  assert (canonical (claim_attempt_id c)) as Hca by (by apply canonical_spec).
  split; [by apply claim_accepted|].
  eapply (guard_transfer graph s); try done; [by apply wf_claimed|].
  unfold check_claimed_resources.
  destruct (required_resources_total graph (claimed s c)) as [req Hreq]; [done|].
  rewrite Hreq. cbn [mbind result_bind]. pose proof (required_resources_spec _ _ _ Hreq) as Hspec.
  change (st_resources (claimed s c)) with resources.
  destruct resources as [r|].
  - destruct Hres as (Hv & Hne & Hids & Hrq).
    assert (req ≠ []) as Hrne.
    { intros ->. destruct (snap_acquisitions r) as [|a l] eqn:Ea; [done|].
      assert (resource_bound graph s (acq_node_id a) (acq_required a)) as Hb.
      { apply Hrq. unfold requests, requests_of. rewrite Ea. by left. }
      apply (Hspec (acq_node_id a) (acq_required a)) in Hb. done. }
    assert (same_dict (fold_left (λ acc item, dict_set (acq_node_id item) (acq_required item) acc)
              (snap_acquisitions r) []) req = true) as Hsame.
    { apply same_dict_spec. intros k. apply option_eq. intros v.
      rewrite (assoc_comprehension acq_node_id acq_required) by (apply (inv_nodes r), valid_inv, Hv).
      rewrite Hspec. change (resource_bound graph (claimed s c) k v) with (resource_bound graph s k v).
      rewrite <-Hrq. unfold requests, requests_of. rewrite list_elem_of_fmap. naive_solver. }
    destruct req; [done|]. change (lock_resource_id <$> snap_resources r) with (ids (snap_resources r)).
    rewrite Hids, bool_decide_true by done. cbn [negb snapshot_fail_if raise_if mbind result_bind].
    by rewrite Hsame.
  - destruct req as [|[k v] req]; [done|].
    destruct (Hres k v). apply (Hspec k v). cbn. by rewrite decide_True.
Qed.

(** claiming closes the loop between engine and reducer.  For a guarded, unleased,
    running snapshot with pending nodes, whatever resource snapshot the engine computes
    for the planned tasks, the claim it projects is accepted by the reducer, and the
    leased successor passes the engine's guard again, its acquisitions being exactly the
    compiled requirements of the pending nodes. *)
Lemma claim_round_trip {V} (graph : CompiledGraph V) s limits tasks resources attempt :
  st_status s = RUNNING → st_execution s = None → pending_node_ids (st_frontier s) ≠ [] →
  plan_tasks graph s limits = Ok tasks →
  claim_resource_snapshot graph tasks = Ok resources →
  is_canonical_identity attempt = true →
  ∃ s', reduce_graph_run (Some s) (CmdClaim (project_claim_command s attempt resources)) = Ok s'
    ∧ st_resources s' = resources
    ∧ require_snapshot_matches_graph graph s' = Ok tt.
Proof.
  intros. eexists. split; [by eapply claim_accepted_again|]. split; [done|by eapply claim_accepted_again].
Qed.

(* ------------------------------------------------------------------ *)
(** ** The settlement round trip *)

Lemma guard_codec {V} (graph : CompiledGraph V) s :
  require_snapshot_matches_graph graph s = Ok tt → st_status s = RUNNING →
  require_resume_input_binding graph s = Ok tt.
Proof.
  unfold require_snapshot_matches_graph. intros H Hst. do 3 (apply seq_Ok_iff in H as [_ H]).
  rewrite bool_decide_true in H by done. cbn [negb] in H. apply seq_Ok_iff in H as [_ H].
  apply bind_Ok in H as (? & _ & H). apply seq_Ok_iff in H as [_ H].
  apply bind_Ok in H as (? & _ & H). by do 2 (apply seq_Ok_iff in H as [? H]).
Qed.

(** A node result as the outcome factories build it: routes and failures are canonical. *)
Definition result_ok (r : TaskResult) : Prop :=
  match r with
  | TaskSuccess _ route _ => on_some route canonical
  | TaskFailure _ failure => canonical failure
  | TaskInterrupt _ _ => True
  end.

(** The outcome a result stands for. *)
Definition result_outcome (s : GraphRunState) (generation : Z) (r : TaskResult) : GraphNodeOutcome :=
  match r with
  | TaskSuccess t route _ => SucceededGraphNodeOutcome (task_node_id t)
      (match route with Some route => SelectGraphRoute route | None => ContinueGraphRouting end)
  | TaskFailure t failure => FailedGraphNodeOutcome (task_node_id t) failure
  | TaskInterrupt t payload => InterruptedGraphNodeOutcome (task_node_id t)
      (mkInterruptIdentity (st_run_id s) (st_superstep s) (task_node_id t) generation) payload
  end.

(** The projected command: current revision and lease, and an admissible outcome of a
    pending node. *)
Lemma settle_result_spec {V} (graph : CompiledGraph V) s r c :
  settle_result graph s r = Ok c → result_ok r →
  wf s ∧ set_expected_revision c = st_revision s ∧ st_execution s = Some (mkLease (set_execution c))
  ∧ task_node_id (result_task r) ∈ pending_node_ids (st_frontier s)
  ∧ set_outcome c = result_outcome s (tok_generation (set_execution c)) r
  ∧ outcome_ok s c.
Proof.
  unfold settle_result. intros H Hr. apply seq_Ok_iff in H as [Hg H].
  apply bind_Ok in H as (tok & Htok & H). apply seq_Ok_iff in H as [_ H]. apply seq_Ok_iff in H as [Hp H].
  pose proof (guard_guarded _ _ Hg) as [Hwf _].
  assert (st_execution s = Some (mkLease tok)) as He.
  { unfold require_settlement_execution_token in Htok. destruct (st_execution s) as [[t]|]; [|done].
    by injection Htok as ->. }
  destruct (wf_lease s Hwf _ He) as (Hst & _).
  assert (task_node_id (result_task r) ∈ pending_node_ids (st_frontier s)) as Hpend.
  { apply raise_if_Ok in Hp. destruct (frontier_node _ _) as [n|] eqn:En; [|done].
    apply negb_false_iff in Hp. apply frontier_node_Some in En as [Hin Hid]. apply elem_pending; eauto. }
  destruct r as [t route cursor|t failure|t payload]; cbn [result_task result_ok] in *.
  - apply seq_Ok_iff in H as [_ H]. rewrite Htok in H. injection H as <-. split_and!; try done.
    unfold outcome_ok. cbn. split; [by destruct route|done].
  - unfold project_failure_settlement in H. rewrite Htok in H. injection H as <-. split_and!; try done.
  - apply seq_Ok_iff in H as [Hc H]. rewrite Htok in H. injection H as <-. split_and!; try done.
    unfold outcome_ok. cbn. split_and!; try done. apply raise_if_Ok in Hc.
    pose proof (guard_codec _ _ Hg Hst) as Hb. unfold require_resume_input_binding in Hb.
    destruct (resume_input graph); [|done]. by destruct (st_resume_input_codec s).
Qed.

(** C33: a node result closes the loop too.  For every result the engine projects into a
    settlement (it re-checks the snapshot, the lease, the task's coordinates and that the
    node is pending), the reducer accepts the command unless the Config transition or the
    resource release fails, and the accepted state differs in that node only, which
    carries the result's outcome. *)
Theorem settlement_round_trip {V} (graph : CompiledGraph V) s r c cursor resources :
  settle_result graph s r = Ok c → result_ok r →
  settle_config s c = Ok cursor →
  settle_resources (st_resources s) (task_node_id (result_task r)) = Ok resources →
  ∃ s', reduce_graph_run (Some s) (CmdSettle c) = Ok s'
    ∧ st_frontier s' = settle_frontier (st_frontier s) (task_node_id (result_task r))
        (outcome_settlement (result_outcome s (st_execution_sequence s) r))
    ∧ st_superstep s' = st_superstep s ∧ st_join_progress s' = st_join_progress s
    ∧ st_revision s' = st_revision s + 1.
Proof.
  intros H Hr Hcfg Hres. destruct (settle_result_spec _ _ _ _ H Hr) as (Hwf & Hrev & He & Hp & Ho & Hok).
  destruct (wf_lease s Hwf _ He) as (_ & _ & Hgen & _). cbn in Hgen. rewrite Hgen in Ho.
  assert (outcome_node_id (set_outcome c) = task_node_id (result_task r)) as Hn by (rewrite Ho; by destruct r).
  rewrite <-Hn in Hp, Hres |- *. rewrite <-Ho.
  pose proof Hp as (m & Hin & Hid & _)%elem_pending.
  assert (frontier_node (st_frontier s) (outcome_node_id (set_outcome c)) = Some m) as Hm.
  { rewrite <-Hid. apply frontier_node_lookup; [apply Hwf|done]. }
  destruct (settle_status_total s c m Hm) as [d Hd].
  eexists. split; [eapply settle_accepted; try done; apply settled_state_fields|].
  pose proof (settled_state_fields s (outcome_node_id (set_outcome c)) (outcome_settlement (set_outcome c))
    (outcome_ledger s c) cursor resources d) as []. done.
Qed.

(* ------------------------------------------------------------------ *)
(** ** Witnesses *)

Definition demo_tasks : list GraphTask :=
  [mkTask (task_identity (lit "run") 0 (lit "a")) (lit "run") 0 (lit "a")].
Definition demo_resources : ResourceSnapshot :=
  mkSnapshot [mkLock (lit "r1") (Some (lit "a")) []]
    [mkAcquisition (lit "a") [lit "r1"] [lit "r1"] None].



Lemma settlement_round_trip_witness :
  ∃ s', st_frontier s' = settle_frontier (st_frontier (late_after 4)) (lit "b")
      (SucceededGraphNode ContinueGraphRouting) ∧ st_revision s' = 5.
Proof.
  destruct (settlement_round_trip demo_graph (late_after 4)
    (TaskSuccess (mkTask (task_identity (lit "run") 1 (lit "b")) (lit "run") 1 (lit "b")) None None)
    (mkSettle 4 (demo_token 2) (SucceededGraphNodeOutcome (lit "b") ContinueGraphRouting) None None)
    (mkCursor (lit "def") 1 1 None) None) as (s' & _ & H1 & _ & _ & H2).
  - vm_compute. reflexivity.
  - intros ? [=].
  - vm_compute. reflexivity.
  - vm_compute. reflexivity.
  - exists s'. split; [exact H1|]. rewrite H2. vm_compute. reflexivity.
Defined.
