(* ===== verification/RoutingProofs.v ===== *)
(** * The resolver produces acceptable commands

    [resolve_routing] reads a settled frontier and a compiled graph and returns the next
    reducer command.  The two loops of [_resolve_control] are shown to build a plan in
    the sense of [NextFrontier], so that whatever command the resolver returns is
    accepted by [reduce_graph_run]. *)

From Stdlib Require Import ZArith NArith Lia Bool String.
From stdpp Require Import prelude strings gmap sorting.
From S2P Require Import Prelude Identity Resources Model Validation Transitions WellFormed Reducer ReducerProofs OperationProofs AdvanceProofs Topology NextFrontier Routing Engine DemoGraph.

Set Default Goal Selector "!".

(* ------------------------------------------------------------------ *)
(** ** Dicts of lists *)

Section dicts.
Context {A B : Type} `{EqDecision A}.
Implicit Types (d : list (A * list B)).

Lemma dict_append_NoDup k v d : NoDup (fst <$> d) → NoDup (fst <$> dict_append k v d).
Proof. apply dict_set_NoDup. Qed.

Lemma dict_append_keys k k' v d : k ∈ fst <$> dict_append k' v d ↔ k = k' ∨ k ∈ fst <$> d.
Proof. apply dict_set_keys. Qed.

Lemma elem_dict_append k v d k' vs :
  NoDup (fst <$> d) →
  (k', vs) ∈ dict_append k v d ↔
  (k' = k ∧ vs = default [] (assoc k d) ++ [v]) ∨ (k' ≠ k ∧ (k', vs) ∈ d).
Proof.
  intros Hnd. pose proof (dict_append_NoDup k v d Hnd) as Hnd'.
  assert (∀ k vs (d : list (A * list B)), NoDup (fst <$> d) → (k, vs) ∈ d ↔ assoc k d = Some vs) as Ha.
  { intros. split; [by apply assoc_elem|apply assoc_Some_elem]. }
  rewrite !Ha by done. unfold dict_append. rewrite assoc_dict_set. case_decide as E; naive_solver.
Qed.

(** Appending only grows: every value stays under its key. *)
Lemma dict_append_grows k v d k' vs :
  NoDup (fst <$> d) → (k', vs) ∈ d → ∃ vs', (k', vs') ∈ dict_append k v d ∧ vs ⊆ vs'.
Proof.
  intros Hnd Hin. destruct (decide (k' = k)) as [->|Hne].
  - exists (vs ++ [v]). rewrite elem_dict_append by done. rewrite (assoc_elem _ _ _ Hnd Hin).
    split; [by left|]. intros x Hx. apply elem_of_app. by left.
  - exists vs. rewrite elem_dict_append by done. split; [by right|done].
Qed.

Lemma dict_append_has k v d :
  NoDup (fst <$> d) → ∃ vs, (k, vs) ∈ dict_append k v d ∧ v ∈ vs.
Proof.
  intros Hnd. exists (default [] (assoc k d) ++ [v]). rewrite elem_dict_append by done.
  split; [by left|]. apply elem_of_app. right. by left.
Qed.
End dicts.

(* ------------------------------------------------------------------ *)
(** ** Compiled Joins *)

(** The checks of the constructors [GraphJoinIdentity] and [CompiledJoin], which every
    Join value of a compiled graph has passed. *)
Definition constructed (plan : CompiledJoin) : Prop :=
  let identity := cj_identity plan in
  GraphJoinIdentity_new (join_sources identity) (join_target identity) = Ok identity
  ∧ CompiledJoin_new identity (cj_source_target_offsets plan) = Ok plan.

Definition joins_constructed {V} (graph : CompiledGraph V) : Prop :=
  ∀ node plans plan, map_get (joins_by_source (transition graph)) node = Ok plans → plan ∈ plans →
    constructed plan.

Lemma occurrence_for_spec plan activation o :
  constructed plan → occurrence_for plan activation = Ok o →
  ∃ offset, (1 ≤ offset)%Z ∧ o = mkOccurrence (cj_identity plan) (act_run_id activation)
              (act_superstep activation + offset)
  ∧ act_node_id activation ∈ join_sources (cj_identity plan) ∧ canonical (act_run_id activation)
  ∧ (1 ≤ act_superstep activation + offset)%Z.
Proof.
  intros [_ Hj]. unfold occurrence_for. intros (offset & Ht & H)%bind_Ok.
  unfold target_offset in Ht. destruct (List.find _ _) as [[c off]|] eqn:Ef; [|done]. injection Ht as ->.
  apply find_some in Ef as [Hin%list_elem_of_In Hc%bool_decide_eq_true]. cbn in Hc. subst c.
  unfold CompiledJoin_new in Hj. checks in Hj. destruct Hj as (Hsrc & Hpos & _).
  unfold GraphJoinOccurrenceIdentity_new in H. checks in H. destruct H as (Hrun & Hone & [= <-]).
  exists offset. split_and!; [|done| |done|lia].
  - apply existsb_false_iff with (x := (act_node_id activation, offset)) in Hpos; [|done].
    apply Z.ltb_ge in Hpos. lia.
  - rewrite <-Hsrc. by apply (list_elem_of_fmap_2 fst _ (act_node_id activation, offset)).
Qed.

Lemma join_constructed_ok i :
  GraphJoinIdentity_new (join_sources i) (join_target i) = Ok i →
  (2 ≤ length (join_sources i))%nat ∧ Forall canonical (join_sources i)
  ∧ strictly_sorted (λ x, x) (join_sources i) ∧ canonical (join_target i)
  ∧ join_target i ∉ join_sources i.
Proof.
  unfold GraphJoinIdentity_new. checks. rewrite mem_false.
  intros (((Hlen & Hc) & Hs) & (Ht & Hn) & _). split_and!; [lia| |by apply sorted_set_canonical|done|done].
  apply Forall_forall. intros x Hx. rewrite existsb_false_iff in Hc. by apply canonical_negb, Hc.
Qed.

(* ------------------------------------------------------------------ *)
(** ** The first loop: arrivals and single-source candidates *)

Notation Arrivals := (list (GraphJoinOccurrenceIdentity * list ActivationReference)).

Section resolver.
Context {V : Type} (graph : CompiledGraph V) (s : GraphRunState).
Context (Hwf : wf s) (Hjoins : joins_constructed graph).

(** A dict with exactly the arrivals of the given Join records. *)
Record pending_dict (js : list GraphJoinProgress) (arrivals : Arrivals) : Prop := {
  pd_keys : NoDup (fst <$> arrivals);
  pd_sound : ∀ o refs, (o, refs) ∈ arrivals → ∃ j, j ∈ js ∧ jp_occurrence j = o ∧ jp_arrived j = refs;
  pd_all : ∀ j, j ∈ js → jp_occurrence j ∈ fst <$> arrivals
}.

Lemma pending_arrivals_dict declared arrivals :
  pending_join_arrivals_of s declared = Ok arrivals → pending_dict (st_join_progress s) arrivals.
Proof using.
  unfold pending_join_arrivals_of. apply (py_for_state_prefix pending_dict).
  2: { split; [constructor|by intros ?? ?%elem_of_nil|by intros ? ?%elem_of_nil]. }
  intros dn j arr arr' [Hnd Hin Hall] Hstep. unfold pending_arrival in Hstep.
  destruct (assoc (occ_join (jp_occurrence j)) declared) as [plan|]; [|done].
  unfold join_fail_if in Hstep. inv_ok. subst arr'. split.
  - by apply dict_set_NoDup.
  - intros o refs Ho%(assoc_elem _ _ _ (dict_set_NoDup _ _ _ Hnd)). rewrite assoc_dict_set in Ho.
    setoid_rewrite elem_of_app. setoid_rewrite list_elem_of_singleton. case_decide; [naive_solver|].
    apply assoc_Some_elem, Hin in Ho as (k & ? & ? & ?). eauto.
  - intros k [?| ->%list_elem_of_singleton]%elem_of_app; rewrite dict_set_keys; [right; auto|by left].
Qed.

(** The arrivals of the state itself. *)
Lemma pending_arrivals_ok declared arrivals :
  pending_join_arrivals_of s declared = Ok arrivals → arrivals_ok s arrivals.
Proof using Hwf.
  intros [Hnd Hin Hall]%pending_arrivals_dict.
  split; [done| |by intros o (j & -> & Hj)%list_elem_of_fmap; auto].
  intros o refs (j & Hj & <- & <-)%Hin.
  destruct (js_records s (wf_joins s Hwf) j Hj) as [? ? ? ? ? ? ? _]. split; try done.
  exists []. rewrite app_nil_r. split; [|by intros r ?%elem_of_nil].
  destruct (pending_index s Hwf (jp_occurrence j)) as (k & _ & Hk & Ek & ->).
  { by apply (list_elem_of_fmap_2 jp_occurrence). }
  f_equal. apply (same_occurrence (st_join_progress s)); [by apply progress_NoDup|done..].
Qed.

(** One more current success at an occurrence. *)
Lemma arrivals_ok_append arrivals o r :
  arrivals_ok s arrivals → arrival_set s o (default [] (assoc o arrivals) ++ [r]) →
  arrivals_ok s (dict_append o r arrivals).
Proof using.
  intros [Hnd Hsets Hp] Hnew. split.
  - by apply dict_append_NoDup.
  - intros o' refs [[-> ->]|[_ ?]]%elem_dict_append; [done|auto|done].
  - intros o' Ho'. rewrite dict_append_keys. auto.
Qed.

Lemma arrived_in_dict arrivals o :
  arrivals_ok s arrivals →
  ∃ current, default [] (assoc o arrivals) = arrived_before s o ++ current
    ∧ current ⊆ frontier_references s ∧ NoDup (reference_nodes (default [] (assoc o arrivals)))
    ∧ reference_nodes (default [] (assoc o arrivals)) ⊆ join_sources (occ_join o).
Proof using.
  intros [Hnd Hsets Hp]. destruct (assoc o arrivals) as [refs|] eqn:E; cbn.
  - apply assoc_Some_elem in E. destruct (Hsets o refs E) as [_ _ (cur & ? & ?) ? ? _]. eauto.
  - exists []. apply assoc_None in E. destruct (not_pending_index s o) as [_ ->]; [by intros ?%Hp|].
    split_and!; [done|by intros ? ?%elem_of_nil|constructor|by intros ? ?%elem_of_nil].
Qed.

(** The growth of the dict along the loop. *)
Definition grows (arrivals arrivals' : Arrivals) : Prop :=
  ∀ o refs, (o, refs) ∈ arrivals → ∃ refs', (o, refs') ∈ arrivals' ∧ refs ⊆ refs'.

Lemma grows_trans a b c : grows a b → grows b c → grows a c.
Proof using.
  intros H1 H2 o refs (refs1 & Hin1 & Hs1)%H1. destruct (H2 o refs1 Hin1) as (refs2 & ? & Hs2).
  exists refs2. split; [done|]. by etrans.
Qed.

(** [plan] has the arrival of [r]. *)
Definition arrived_at (arrivals : Arrivals) (r : ActivationReference) (plan : CompiledJoin) : Prop :=
  ∃ o refs, occurrence_for plan (ref_activation r) = Ok o ∧ (o, refs) ∈ arrivals ∧ r ∈ refs.

Lemma arrived_at_grows a b r plan : grows a b → arrived_at a r plan → arrived_at b r plan.
Proof using.
  intros Hg (o & refs & Ho & Hin & Hr). destruct (Hg o refs Hin) as (refs' & Hin' & Hsub).
  exists o, refs'. auto.
Qed.

Lemma add_arrival_spec r arrivals plan arrivals' :
  r ∈ frontier_references s → constructed plan → arrivals_ok s arrivals →
  add_arrival (ref_activation r) r arrivals plan = Ok arrivals' →
  arrivals_ok s arrivals' ∧ grows arrivals arrivals' ∧ arrived_at arrivals' r plan.
Proof using Hwf.
  intros Hr Hc Harr. unfold add_arrival. intros (o & Ho & H)%bind_Ok.
  unfold join_fail_if in H. checks in H. rewrite mem_false in H. destruct H as [Hfresh [= <-]].
  pose proof (al_keys s _ Harr) as Hnd. split_and!.
  - apply arrivals_ok_append; [done|].
    destruct (frontier_reference_ok s Hwf r Hr) as ([[Hrc _ Hnc] _] & Hrun & Hstep).
    destruct (occurrence_for_spec _ _ _ Hc Ho) as (off & Hoff & -> & Hsrc & _ & Hone).
    destruct (join_constructed_ok _ (proj1 Hc)) as (? & ? & ? & ? & ?).
    destruct (arrived_in_dict _ (mkOccurrence (cj_identity plan) (act_run_id (ref_activation r))
      (act_superstep (ref_activation r) + off)) Harr) as (cur & E & Hcur & Hn & Hsub).
    split; cbn in *.
    + by split.
    + lia.
    + exists (cur ++ [r]). rewrite E, app_assoc. split; [done|].
      intros x [?| ->%list_elem_of_singleton]%elem_of_app; auto.
    + unfold reference_nodes. rewrite fmap_app. cbn. apply NoDup_app.
      split_and!; [done| |apply NoDup_singleton]. by intros x Hx ->%list_elem_of_singleton.
    + intros x. unfold reference_nodes. rewrite fmap_app, elem_of_app. cbn.
      intros [?| ->%list_elem_of_singleton]; auto.
    + by destruct (default _ _).
  - intros o' refs. by apply dict_append_grows.
  - destruct (dict_append_has o r arrivals Hnd) as (refs & Hin & Hx). exists o, refs. auto.
Qed.

Lemma grows_refl arrivals : grows arrivals arrivals.
Proof using. intros o refs Hin. exists refs. by split. Qed.

Lemma add_arrivals_spec r plans arrivals arrivals' :
  r ∈ frontier_references s → (∀ plan, plan ∈ plans → constructed plan) → arrivals_ok s arrivals →
  py_for_state plans arrivals (add_arrival (ref_activation r) r) = Ok arrivals' →
  arrivals_ok s arrivals' ∧ grows arrivals arrivals' ∧ ∀ plan, plan ∈ plans → arrived_at arrivals' r plan.
Proof using Hwf.
  intros Hr Hc Harr H.
  cut (plans ⊆ plans → arrivals_ok s arrivals' ∧ grows arrivals arrivals'
       ∧ ∀ plan, plan ∈ plans → arrived_at arrivals' r plan); [by auto|].
  revert H. apply (py_for_state_prefix (λ dn arr, dn ⊆ plans → arrivals_ok s arr ∧ grows arrivals arr
    ∧ ∀ plan, plan ∈ dn → arrived_at arr r plan)).
  - intros dn plan arr arr' IH Hstep Hsub.
    destruct IH as (H1 & H2 & H3); [intros x Hx; apply Hsub, elem_of_app; by left|].
    apply add_arrival_spec in Hstep as (H4 & H5 & H6);
      [|done|apply Hc, Hsub, elem_of_app; right; by left|done].
    split_and!; [done|by eapply grows_trans|].
    intros p [?| ->%list_elem_of_singleton]%elem_of_app; [|done]. eapply arrived_at_grows; eauto.
  - intros _. split_and!; [done|apply grows_refl|by intros ? ?%elem_of_nil].
Qed.

(** Candidate causes by target, all satisfying [P]. *)
Record candidates_ok (P : str → GraphActivationCause → Prop) (candidates : Candidates) : Prop := {
  cn_keys : NoDup (fst <$> candidates);
  cn_causes : ∀ target causes cause, (target, causes) ∈ candidates → cause ∈ causes → P target cause
}.

Lemma candidates_ok_append P candidates target cause :
  candidates_ok P candidates → P target cause → candidates_ok P (dict_append target cause candidates).
Proof using.
  intros [Hnd Hc] HP. split; [by apply dict_append_NoDup|].
  intros t causes c [[-> ->]|[_ Hin]]%elem_dict_append; [|by apply Hc|done].
  intros [Hin| ->%list_elem_of_singleton]%elem_of_app; [|done].
  destruct (assoc target candidates) as [cs|] eqn:E; [|by apply elem_of_nil in Hin].
  apply assoc_Some_elem in E. by eapply Hc.
Qed.

Lemma RoutedActivationCause_new_inv refs jo cause :
  RoutedActivationCause_new refs jo = Ok cause → cause = RoutedActivationCause refs jo.
Proof using. unfold RoutedActivationCause_new. intros H. inv_ok. done. Qed.

(** A cause of one current success. *)
Definition success_cause (target : str) (cause : GraphActivationCause) : Prop :=
  ∃ r, r ∈ frontier_references s ∧ cause = RoutedActivationCause [r] None.

Lemma add_successors_spec candidates r candidates' :
  r ∈ frontier_references s → candidates_ok success_cause candidates →
  add_successors graph candidates r = Ok candidates' → candidates_ok success_cause candidates'.
Proof using.
  intros Hr Hc. unfold add_successors. intros (targets & _ & H)%bind_Ok. revert H.
  apply (py_for_state_prefix (λ _ cs, candidates_ok success_cause cs)); [|done].
  intros _ target cs cs' IH (cause & ->%RoutedActivationCause_new_inv & [= <-])%bind_Ok.
  apply candidates_ok_append; [done|]. by exists r.
Qed.

(** What the first loop has established after the contributions [dn]. *)
Record contributed (dn : list (str * GraphRoutingContribution)) (candidates : Candidates)
    (arrivals : Arrivals) : Prop := {
  ct_arrivals : arrivals_ok s arrivals;
  ct_candidates : candidates_ok success_cause candidates;
  ct_arrived : ∀ c plans plan, c ∈ dn → map_get (joins_by_source (transition graph)) c.1 = Ok plans →
    plan ∈ plans → arrived_at arrivals (node_reference s c) plan
}.

Lemma add_contribution_spec dn c candidates arrivals candidates' arrivals' :
  c ∈ routing_contributions (st_frontier s) → contributed dn candidates arrivals →
  add_contribution graph s (candidates, arrivals) c = Ok (candidates', arrivals') →
  contributed (dn ++ [c]) candidates' arrivals'.
Proof using Hwf Hjoins.
  intros Hc [Harr Hcand Hat]. destruct c as [node contribution]. cbn.
  intros (_ & H)%seq_Ok_iff. apply bind_Ok in H as (a & [-> _]%GraphActivationIdentity_new_Ok & H).
  apply bind_Ok in H as (r & [-> _]%ActivationReference_new_Ok & H).
  apply bind_Ok in H as (cs & Hcs & H). apply bind_Ok in H as (plans & Hplans & H).
  apply bind_Ok in H as (arr & Hadd & [= <- <-]).
  pose proof (list_elem_of_fmap_2 (node_reference s) _ _ Hc) as Hr.
  change (mkReference _ _) with (node_reference s (node, contribution)) in *.
  change (mkActivation _ _ _) with (ref_activation (node_reference s (node, contribution))) in Hadd.
  apply add_arrivals_spec in Hadd as (H1 & H2 & H3); [|done| |done].
  2: { intros plan Hp. by eapply Hjoins. }
  split; [done|by eapply add_successors_spec|].
  intros c plans' plan [Hin| ->%list_elem_of_singleton]%elem_of_app Hg Hp.
  - eapply arrived_at_grows; eauto.
  - cbn in Hg. rewrite Hplans in Hg. injection Hg as <-. auto.
Qed.

Lemma contributions_spec pending candidates arrivals :
  arrivals_ok s pending →
  py_for_state (routing_contributions (st_frontier s)) ([], pending) (add_contribution graph s)
    = Ok (candidates, arrivals) →
  contributed (routing_contributions (st_frontier s)) candidates arrivals.
Proof using Hwf Hjoins.
  intros Hp H.
  cut (routing_contributions (st_frontier s) ⊆ routing_contributions (st_frontier s) →
       contributed (routing_contributions (st_frontier s)) (candidates, arrivals).1 (candidates, arrivals).2);
    [by auto|].
  revert H. apply (py_for_state_prefix (λ dn st, dn ⊆ routing_contributions (st_frontier s) →
    contributed dn st.1 st.2)).
  - intros dn c [cs arr] [cs' arr'] IH Hstep Hsub. eapply add_contribution_spec; [|apply IH|exact Hstep].
    + apply Hsub, elem_of_app. right. by left.
    + intros x Hx. apply Hsub, elem_of_app. by left.
  - intros _. split; cbn; [done| |by intros ??? ?%elem_of_nil].
    split; [constructor|by intros ??? ?%elem_of_nil].
Qed.

(* ------------------------------------------------------------------ *)
(** ** The second loop: completed, consumed and partial occurrences *)

(** What the second loop has established after the occurrences [dn]. *)
Record split_ok (arrivals : Arrivals) (dn : list GraphJoinOccurrenceIdentity) (sp : JoinSplit) : Prop := {
  sp_candidates : candidates_ok (next_cause s arrivals) (split_candidates sp);
  sp_fired : ∀ o refs, o ∈ dn → (o, refs) ∈ arrivals → complete o refs → join_target (occ_join o) ≠ END →
    ∃ causes, (join_target (occ_join o), causes) ∈ split_candidates sp
      ∧ RoutedActivationCause (sorted_key canonical_key refs) (Some o) ∈ causes;
  sp_remaining_sub : sublist (jp_occurrence <$> split_remaining sp) dn;
  sp_remaining : ∀ j, j ∈ split_remaining sp → ∃ refs, (jp_occurrence j, refs) ∈ arrivals
    ∧ jp_arrived j = sorted_key canonical_key refs ∧ ¬ complete (jp_occurrence j) refs
    ∧ (st_superstep s + 1 < occ_target_superstep (jp_occurrence j))%Z;
  sp_retained : ∀ o refs, o ∈ dn → (o, refs) ∈ arrivals → ¬ complete o refs →
    mkJoinProgress o (sorted_key canonical_key refs) ∈ split_remaining sp;
  sp_consumed_sub : sublist (split_consumed sp) dn;
  sp_consumed : ∀ o, o ∈ split_consumed sp → pending_join s o ∧ join_target (occ_join o) = END
    ∧ ∃ refs, (o, refs) ∈ arrivals ∧ complete o refs ∧ occ_target_superstep o = (st_superstep s + 1)%Z;
  sp_ended : ∀ o refs, o ∈ dn → (o, refs) ∈ arrivals → complete o refs → join_target (occ_join o) = END →
    pending_join s o → o ∈ split_consumed sp
}.

Section split.
Context (arrivals : Arrivals) (Harr : arrivals_ok s arrivals).

(** Membership in a loop's prefix, for the occurrence just processed. *)
Lemma last_processed (dn : list GraphJoinOccurrenceIdentity) o o' refs refs' :
  (o, refs) ∈ arrivals → o' ∈ dn ++ [o] → (o', refs') ∈ arrivals →
  o' ∈ dn ∨ (o' = o ∧ refs' = refs).
Proof using Harr.
  intros Hin [?| ->%list_elem_of_singleton]%elem_of_app Hin'; [by left|]. right. split; [done|].
  by eapply (arrivals_unique s arrivals).
Qed.

Lemma split_fires dn sp o refs :
  split_ok arrivals dn sp → (o, refs) ∈ arrivals → complete o refs →
  occ_target_superstep o = (st_superstep s + 1)%Z → join_target (occ_join o) ≠ END →
  split_ok arrivals (dn ++ [o]) (mkSplit
    (dict_append (join_target (occ_join o))
       (RoutedActivationCause (sorted_key canonical_key refs) (Some o)) (split_candidates sp))
    (split_remaining sp) (split_consumed sp)).
Proof using Harr.
  intros [Hc Hf Hrs Hr Hret Hcs Hcon He] Hin Hcomp Ht Hne. split; cbn; try done.
  - apply candidates_ok_append; [done|]. by apply CauseJoin.
  - intros o' refs' Ho' Hin' Hcomp' Hne'.
    destruct (last_processed dn o o' refs refs' Hin Ho' Hin') as [Hd|[-> ->]].
    + destruct (Hf o' refs' Hd Hin' Hcomp' Hne') as (causes & Hx & Hm).
      destruct (dict_append_grows (join_target (occ_join o)) (RoutedActivationCause (sorted_key canonical_key refs) (Some o))
        (split_candidates sp) _ _ (cn_keys _ _ Hc) Hx) as (causes' & ? & Hsub). exists causes'. auto.
    + apply dict_append_has, (cn_keys _ _ Hc).
  - by apply sublist_inserts_r.
  - intros o' refs' Ho' Hin' Hn. destruct (last_processed dn o o' refs refs' Hin Ho' Hin') as [?|[-> ->]]; [auto|done].
  - by apply sublist_inserts_r.
  - intros o' refs' Ho' Hin' ? He' ?. destruct (last_processed dn o o' refs refs' Hin Ho' Hin') as [?|[-> ->]]; [eauto|done].
Qed.

Lemma split_ends dn sp o refs :
  split_ok arrivals dn sp → (o, refs) ∈ arrivals → complete o refs →
  occ_target_superstep o = (st_superstep s + 1)%Z → join_target (occ_join o) = END →
  split_ok arrivals (dn ++ [o]) (mkSplit (split_candidates sp) (split_remaining sp)
    (split_consumed sp ++ if mem o (jp_occurrence <$> st_join_progress s) then [o] else [])).
Proof using Harr.
  intros [Hc Hf Hrs Hr Hret Hcs Hcon He] Hin Hcomp Ht Hend. split; cbn; try done.
  - intros o' refs' Ho' Hin' ? ?. destruct (last_processed dn o o' refs refs' Hin Ho' Hin') as [?|[-> ->]]; [eauto|done].
  - by apply sublist_inserts_r.
  - intros o' refs' Ho' Hin' Hn. destruct (last_processed dn o o' refs refs' Hin Ho' Hin') as [?|[-> ->]]; [auto|done].
  - apply sublist_app; [done|]. case_match; [done|apply sublist_nil_l].
  - intros o' [?|Ho']%elem_of_app; [auto|]. destruct (mem o _) eqn:Em; [|by apply elem_of_nil in Ho'].
    apply list_elem_of_singleton in Ho' as ->. apply mem_spec in Em. split_and!; [done|done|]. eauto.
  - intros o' refs' Ho' Hin' ? ? Hp. rewrite elem_of_app.
    destruct (last_processed dn o o' refs refs' Hin Ho' Hin') as [?|[-> ->]]; [left; eauto|right].
    apply mem_spec in Hp. rewrite Hp. by left.
Qed.

Lemma split_retains dn sp o refs :
  split_ok arrivals dn sp → (o, refs) ∈ arrivals → ¬ complete o refs →
  (st_superstep s + 1 < occ_target_superstep o)%Z →
  split_ok arrivals (dn ++ [o]) (mkSplit (split_candidates sp)
    (split_remaining sp ++ [mkJoinProgress o (sorted_key canonical_key refs)]) (split_consumed sp)).
Proof using Harr.
  intros [Hc Hf Hrs Hr Hret Hcs Hcon He] Hin Hcomp Ht. split; cbn; try done.
  - intros o' refs' Ho' Hin' ? ?. destruct (last_processed dn o o' refs refs' Hin Ho' Hin') as [?|[-> ->]]; [eauto|done].
  - rewrite fmap_app. by apply sublist_app.
  - intros j [?| ->%list_elem_of_singleton]%elem_of_app; [auto|]. cbn. eauto.
  - intros o' refs' Ho' Hin' Hn. rewrite elem_of_app.
    destruct (last_processed dn o o' refs refs' Hin Ho' Hin') as [?|[-> ->]]; [left; auto|right; by left].
  - by apply sublist_inserts_r.
  - intros o' refs' Ho' Hin' ? ? Hp. destruct (last_processed dn o o' refs refs' Hin Ho' Hin') as [?|[-> ->]]; [eauto|done].
Qed.

Lemma split_occurrence_spec dn sp o sp' :
  split_ok arrivals dn sp → o ∈ fst <$> arrivals → split_occurrence s arrivals sp o = Ok sp' →
  split_ok arrivals (dn ++ [o]) sp'.
Proof using Harr.
  intros Hsp ([o' refs] & -> & Hin)%list_elem_of_fmap. cbn. unfold split_occurrence.
  rewrite (assoc_elem _ _ _ (al_keys s _ Harr) Hin). cbn [default].
  pose proof (reference_nodes_perm _ _ (sorted_key_perm canonical_key refs)) as Hperm.
  unfold join_fail_if. destruct (same_set _ _) eqn:Es.
  - assert (complete o' refs) as Hc.
    { apply complete_spec in Es. intros x. rewrite <-(Es x). by rewrite Hperm. }
    checks. intros [Ht H]. destruct (bool_decide (join_target (occ_join o') = END)) eqn:Ee; cbn [negb] in H.
    + apply bool_decide_eq_true in Ee. pose proof (split_ends dn sp o' refs Hsp Hin Hc Ht Ee) as Hx.
      destruct (mem o' _); injection H as <-; [done|]. rewrite app_nil_r in Hx. by destruct sp.
    + apply bool_decide_eq_false in Ee. apply bind_Ok in H as (c & ->%RoutedActivationCause_new_inv & [= <-]).
      by apply split_fires.
  - assert (¬ complete o' refs) as Hc.
    { intros Hc. apply not_true_iff_false in Es. apply Es, complete_spec. intros x. rewrite Hperm. apply Hc. }
    checks. intros [Ht [= <-]]. apply split_retains; [done..|lia].
Qed.

Lemma split_spec candidates sp :
  candidates_ok success_cause candidates →
  py_for_state (sorted (fst <$> arrivals)) (mkSplit candidates [] []) (split_occurrence s arrivals) = Ok sp →
  split_ok arrivals (sorted (fst <$> arrivals)) sp.
Proof using Harr.
  intros [Hnd Hc] H. cut (sorted (fst <$> arrivals) ⊆ fst <$> arrivals → split_ok arrivals (sorted (fst <$> arrivals)) sp).
  { intros Hx. apply Hx. intros o. unfold sorted. by rewrite sort_by_perm. }
  revert H. apply (py_for_state_prefix (λ dn sp, dn ⊆ fst <$> arrivals → split_ok arrivals dn sp)).
  - intros dn o st st' IH Hstep Hsub. eapply split_occurrence_spec; [apply IH| |exact Hstep].
    + intros x Hx. apply Hsub, elem_of_app. by left.
    + apply Hsub, elem_of_app. right. by left.
  - intros _. split; cbn; try (by intros ?? ?%elem_of_nil); try (by intros ? ?%elem_of_nil); try done.
    split; [done|]. intros t cs c Hin Hcs. destruct (Hc t cs c Hin Hcs) as (r & ? & ->). by constructor.
Qed.
End split.

(* ------------------------------------------------------------------ *)
(** ** The resolved control is a plan *)

Lemma strictly_sorted_sublist {A B} `{CmpLaws B} (key : A → B) (xs ys : list A) :
  sublist xs ys → strictly_sorted key ys → strictly_sorted key xs.
Proof using.
  induction 1 as [|x xs ys Hs IH|x xs ys Hs IH]; intros Hsort; [constructor|..];
    apply StronglySorted_inv in Hsort as [Hs' Hx]; [|by apply IH].
  constructor; [by apply IH|]. rewrite Forall_forall in Hx |- *. intros y Hy. apply Hx. by eapply sublist_subseteq.
Qed.

Lemma target_activation_inv entry a :
  target_activation entry = Ok a →
  entry.2 = [fa_cause a] ∧ fa_node_id a = entry.1 ∧ canonical (fa_node_id a).
Proof using.
  destruct entry as [t [|c [|]]]; cbn; [done| |done]. unfold GraphFrontierActivation_new. checks.
  by intros [? [= <-]].
Qed.

Lemma activations_spec candidates activations :
  mapM target_activation candidates = Ok activations →
  fa_node_id <$> activations = fst <$> candidates
  ∧ (∀ a, a ∈ activations → canonical (fa_node_id a) ∧ (fa_node_id a, [fa_cause a]) ∈ candidates)
  ∧ (∀ t causes, (t, causes) ∈ candidates → ∃ a, a ∈ activations ∧ fa_node_id a = t ∧ causes = [fa_cause a]).
Proof using.
  intros H%mapM_Forall2. induction H as [|[t cs] a xs ys Ha H IH]; cbn.
  - split_and!; [done|by intros ? ?%elem_of_nil|by intros ?? ?%elem_of_nil].
  - apply target_activation_inv in Ha as (Hc & Hn & Hcan). cbn in Hc, Hn. subst.
    destruct IH as (-> & H1 & H2). split_and!; [done|..].
    + intros a' [->|[? ?]%H1]%elem_of_cons; [split; [done|by left]|]. split; [done|by right].
    + intros t' causes [[= -> ->]|(a' & ? & ? & ?)%H2]%elem_of_cons.
      * exists a. split; [by left|done].
      * exists a'. split; [by right|done].
Qed.

Lemma control_plan evaluation control :
  arrivals_ok s (pending_join_arrivals evaluation) → resolve_control graph s evaluation = Ok control →
  ∃ arrivals, arrivals_ok s arrivals
    ∧ plan_ok s arrivals (rf_activations control) (remaining_join_progress control)
        (rf_consumed_join_progress control)
    ∧ ∀ c plans plan, c ∈ routing_contributions (st_frontier s) →
        map_get (joins_by_source (transition graph)) c.1 = Ok plans → plan ∈ plans →
        arrived_at arrivals (node_reference s c) plan.
Proof using Hwf Hjoins.
  intros Hp. unfold resolve_control. destruct (pending_error evaluation); [done|].
  intros ([cands arrivals] & Hl1 & H)%bind_Ok. apply bind_Ok in H as (sp & Hl2 & H).
  apply bind_Ok in H as (acts & Hacts & [= <-]). cbn.
  apply contributions_spec in Hl1 as [Harr Hc Hat]; [|done].
  apply split_spec in Hl2 as [[Hk Hc'] Hf Hrs Hr Hret Hcs Hcon He]; [|done..].
  apply activations_spec in Hacts as (Hids & Ha & Hall).
  assert (strictly_sorted (λ o, o) (sorted (fst <$> arrivals))) as Hss by apply sorted_strict, Harr.
  assert (∀ o refs, (o, refs) ∈ arrivals → o ∈ sorted (fst <$> arrivals)) as Hdn.
  { intros o refs Hin. unfold sorted. rewrite sort_by_perm. by apply (list_elem_of_fmap_2 fst _ (o, refs)). }
  exists arrivals. split_and!; [done| |done]. split.
  - apply sorted_key_strict. by rewrite Hids.
  - intros a [? Hin]%sorted_key_elem%Ha. split; [done|]. eapply Hc'; [done|by left].
  - intros o refs Hin Hcomp Hne. destruct (Hf o refs (Hdn o refs Hin) Hin Hcomp Hne) as (causes & Hin' & Hm).
    destruct (Hall _ _ Hin') as (a & Ha' & _ & ->). exists a. split; [by apply sorted_key_elem|].
    by apply list_elem_of_singleton in Hm.
  - apply strictly_sorted_fmap. by eapply strictly_sorted_sublist.
  - done.
  - intros o refs Hin. eapply Hret; eauto.
  - apply sorted_strict. eapply strictly_sorted_NoDup, strictly_sorted_sublist; done.
  - intros o. unfold sorted. rewrite sort_by_perm. auto.
  - intros o refs Hin Hcomp Hend Hpend. unfold sorted. rewrite sort_by_perm. eauto.
Qed.
End resolver.

(* ------------------------------------------------------------------ *)
(** ** The resolved command *)

(** The alignment the compiler's occurrence plans give: a current success at a source of
    a pending END Join projects to that very occurrence (its sources either have unique
    activation levels or all arrive in one frontier).  [AdmittedRuns] proves it of every
    admitted run of a compiled graph. *)
Definition ends_project {V} (graph : CompiledGraph V) (s : GraphRunState) : Prop :=
  ∀ j r, j ∈ st_join_progress s → join_target (occ_join (jp_occurrence j)) = END →
    r ∈ frontier_references s → act_node_id (ref_activation r) ∈ join_sources (occ_join (jp_occurrence j)) →
    ∃ plans plan, map_get (joins_by_source (transition graph)) (act_node_id (ref_activation r)) = Ok plans
      ∧ plan ∈ plans ∧ occurrence_for plan (ref_activation r) = Ok (jp_occurrence j).

Section command.
Context {V F : Type} {index : ScopedFrameAvailability F} (repr_tuple : list str → str).
Context (graph : CompiledGraph V) (s : GraphRunState).
Context (Hwf : wf s) (Hst : st_status s = RUNNING).
Context (Hjoins : joins_constructed graph) (Hproj : ends_project graph s).
(** [repr] of a tuple of canonical identities is one line without edge spaces. *)
Context (Hrepr : ∀ xs, Forall canonical xs → canonical (repr_tuple xs)).

Lemma aligned arrivals :
  arrivals_ok s arrivals →
  (∀ c plans plan, c ∈ routing_contributions (st_frontier s) →
     map_get (joins_by_source (transition graph)) c.1 = Ok plans → plan ∈ plans →
     arrived_at arrivals (node_reference s c) plan) →
  ends_aligned s arrivals.
Proof using Hproj.
  intros Harr Hat o refs r (j & -> & Hj)%list_elem_of_fmap Hend Hin Hr Hsrc.
  destruct (Hproj j r Hj Hend Hr Hsrc) as (plans & plan & Hg & Hp & Ho).
  apply list_elem_of_fmap in Hr as (c & -> & Hc).
  destruct (Hat c plans plan Hc Hg Hp) as (o' & refs' & Ho' & Hin' & Hr').
  rewrite Ho in Ho'. injection Ho' as <-. by rewrite (arrivals_unique s arrivals Harr _ _ _ Hin Hin').
Qed.

Lemma evaluation_pending evaluation control :
  routing_evaluation graph s = Ok evaluation → admission_error evaluation = None →
  resolve_control graph s evaluation = Ok control → arrivals_ok s (pending_join_arrivals evaluation).
Proof using Hwf Hst.
  unfold routing_evaluation. intros (error & _ & H)%bind_Ok Hadm Hctl.
  destruct error; cbn in H; [by injection H as <-|]. rewrite bool_decide_false in H by (by rewrite Hst).
  cbn in H. unfold try_or in H.
  destruct (declared_joins_of graph) as [declared|e] eqn:Hd; [|by case_match; [injection H as <-|]].
  apply bind_Ok in H as (gate & _ & H). destruct gate; cbn in H; [by injection H as <-|].
  destruct (pending_join_arrivals_of s declared) as [pending|e] eqn:Hp.
  - apply pending_arrivals_ok in Hp; [|done]. case_match; [by injection H as <-|].
    destruct (historical_join_arrivals_of graph s); [|case_match; [by injection H as <-|done]].
    apply bind_Ok in H as (e & _ & [= <-]). done.
  - case_match; [|done]. exfalso. case_match; injection H as <-; [done|].
    unfold resolve_control in Hctl. done.
Qed.

Lemma quiescent : frontier_status (st_frontier s) = Ok SETTLED → st_execution s = None.
Proof using Hwf.
  intros Hset. destruct (st_execution s) as [l|] eqn:E; [|done].
  destruct (wf_lease s Hwf l E) as (_ & _ & _ & Hp). apply pending_iff in Hp. congruence.
Qed.

Lemma canonical_message prefix v :
  canonical prefix → canonical v → canonical (prefix ++ lit " " ++ v).
Proof using.
  intros (H1 & H2 & _ & H4 & H5) (G1 & _ & G3 & G4 & G5).
  split_and!.
  - by destruct prefix.
  - unfold edge_ok in *. by destruct prefix.
  - unfold edge_ok in *. rewrite !reverse_app. destruct (reverse v) eqn:E; [|done].
    apply (f_equal reverse) in E. by rewrite reverse_involutive in E.
  - rewrite !elem_of_app. intros [?|[Hn%list_elem_of_singleton|?]]; done.
  - rewrite !elem_of_app. intros [?|[Hn%list_elem_of_singleton|?]]; done.
Qed.

Lemma completion_route_unanimous route :
  completion_route_of graph s = Ok route → unanimous s route.
Proof using.
  unfold completion_route_of. intros (routes & Hm%mapM_Forall2 & H)%bind_Ok. checks in H. destruct H as [_ H].
  assert (∀ r, r ∈ frontier_references s → ref_route r ∈ routes) as Hin.
  { intros r (c & -> & Hc)%list_elem_of_fmap. cbn.
    apply list_elem_of_lookup in Hc as [i Hi]. destruct (Forall2_lookup_l _ _ _ _ _ Hm Hi) as (y & Hy & Hf).
    destruct c as [node contribution]. apply seq_Ok_iff in Hf as [_ [= <-]].
    apply list_elem_of_lookup. by exists i. }
  intros r Hr%Hin. apply elem_of_remove_dups in Hr. destruct (remove_dups routes) as [|x [|]]; [done| |done].
  injection H as ->. by apply list_elem_of_singleton in Hr.
Qed.

(** The facts behind a resolved command. *)
Lemma resolved_facts scope frames facts :
  resolve_routing_facts graph s scope frames = Ok facts →
  frontier_status (st_frontier s) = Ok SETTLED
  ∧ (∃ arrivals, arrivals_ok s arrivals ∧ ends_aligned s arrivals
       ∧ plan_ok s arrivals (rf_activations facts) (remaining_join_progress facts)
           (rf_consumed_join_progress facts))
  ∧ rt_node_id <$> required_targets facts = fa_node_id <$> rf_activations facts
  ∧ (rf_activations facts = [] → remaining_join_progress facts = [] →
     unanimous s (rf_completion_route facts)).
Proof using Hwf Hst Hjoins Hproj.
  unfold resolve_routing_facts. intros (status & Hset & H)%bind_Ok. unfold routing_fail_if in H. checks in H.
  destruct H as [-> H]. apply bind_Ok in H as (evaluation & Hev & H).
  destruct (admission_error evaluation) eqn:Ea; [done|].
  apply bind_Ok in H as (control & Hctl & H). apply bind_Ok in H as (targets & Ht & H).
  apply bind_Ok in H as (outputs & _ & H). apply bind_Ok in H as (route & Hroute & [= <-]). cbn.
  pose proof (evaluation_pending _ _ Hev Ea Hctl) as Hp.
  destruct (control_plan graph s Hwf Hjoins _ _ Hp Hctl) as (arrivals & Harr & Hplan & Hat).
  split_and!; [done| | |].
  - exists arrivals. split_and!; [done|by apply aligned|done].
  - apply mapM_Forall2 in Ht. clear -Ht. revert Ht. generalize (rf_activations control) as acts.
    intros acts Ht. induction Ht as [|a r xs ys Ha _ IH]; [done|]. cbn. f_equal; [|done].
    unfold required_target in Ha. inv_ok. subst. done.
  - intros E1 E2. rewrite E1, E2 in Hroute. by apply completion_route_unanimous.
Qed.
End command.

(** Whatever command the resolver returns, the reducer accepts it.  On a well-formed
    running state whose Joins were built by the constructors' checks and whose pending
    END Joins are aligned with the frontier, a resolved advance installs exactly its
    activations as the pending frontier of the next superstep and its Join records, a
    resolved completion completes the run with its route, and a resolved abort aborts it
    with its reason: neither the transition's guards nor the final re-validation ever
    reject them. *)
Lemma resolved_command_accepted {V F : Type} {index : ScopedFrameAvailability F} repr_tuple
    (graph : CompiledGraph V) s scope (frames : F) c :
  wf s → st_status s = RUNNING → joins_constructed graph → ends_project graph s →
  (∀ xs, Forall canonical xs → canonical (repr_tuple xs)) →
  resolve_routing repr_tuple graph s scope frames = Ok c →
  ∃ s', reduce_graph_run (Some s) c = Ok s' ∧
    match c with
    | CmdAdvance a => s' = advanced s (adv_activations a) (adv_join_progress a) ∧ adv_activations a ≠ []
    | CmdComplete a => s' = completed s (com_completion_route a)
    | CmdAbort a => s' = aborted s (abort_command_reason a)
    | _ => False
    end.
Proof.
  intros Hwf Hst Hjoins Hproj Hrepr. unfold resolve_routing. intros (facts & Hf & H)%bind_Ok.
  destruct (resolved_facts graph s Hwf Hst Hjoins Hproj _ _ _ Hf)
    as (Hset & (arrivals & Harr & Hal & Hplan) & Hids & Hun).
  pose proof (quiescent s Hwf Hset) as He. unfold project_routing_facts in H.
  assert (∀ reason, canonical reason → reduce_graph_run (Some s)
    (CmdAbort (mkAbortCommand (st_revision s) reason)) = Ok (aborted s reason)) as Habort.
  { intros reason Hr. by apply abort_accepted. }
  destruct (is_nil (rt_node_id <$> _)) eqn:En; cbn [negb] in H.
  2: { injection H as <-. eexists. split; [apply Habort|done].
       apply (canonical_message (lit "required values unavailable for controlled nodes")).
       - apply canonical_spec. by vm_compute.
       - apply Hrepr, Forall_forall. intros x (t & -> & [_ Ht]%List_filter_elem)%list_elem_of_fmap.
         apply (list_elem_of_fmap_2 rt_node_id) in Ht. rewrite Hids in Ht.
         apply list_elem_of_fmap in Ht as (a & -> & Ha). by apply (pl_acts _ _ _ _ _ Hplan). }
  destruct (required_targets facts) as [|t ts] eqn:Et; cbn [is_nil negb] in H.
  - symmetry in Hids. apply fmap_nil_inv in Hids. rewrite Hids in Hplan, Hun.
    destruct (remaining_join_progress facts) as [|j js]; [|done]. cbn [is_nil negb] in H.
    destruct (is_nil (unavailable_outputs facts)); cbn [negb] in H; injection H as <-.
    + eexists. split; [by apply (completion_accepted s Hwf arrivals); auto|done].
    + eexists. split; [apply Habort|done]. apply canonical_spec. by vm_compute.
  - injection H as <-. assert (rf_activations facts ≠ []) as Hne.
    { intros E. rewrite E in Hids. done. }
    eexists. split; [by apply (advance_accepted s Hwf arrivals)|done].
Qed.

(* ------------------------------------------------------------------ *)
(** ** The demo graph *)

Lemma demo_repr_canonical xs : Forall canonical xs → canonical (demo_repr xs).
Proof.
  intros Hxs. assert (∀ c, (∀ x, x ∈ xs → c ∉ x) → c ∉ concat xs) as Hc.
  { intros c Hx (x & ? & ?)%list_elem_of_In%in_concat. rewrite <-!list_elem_of_In in *. by eapply Hx. }
  rewrite Forall_forall in Hxs. unfold demo_repr. split_and!; [done|done| |..].
  - unfold edge_ok. by rewrite !reverse_app.
  - rewrite !elem_of_app. intros [?%list_elem_of_singleton|[Hn|?%list_elem_of_singleton]]; [done| |done]. revert Hn.
    apply Hc. intros x Hx. by apply Hxs.
  - rewrite !elem_of_app. intros [?%list_elem_of_singleton|[Hn|?%list_elem_of_singleton]]; [done| |done]. revert Hn.
    apply Hc. intros x Hx. by apply Hxs.
Qed.
