(* ===== verification/AdmittedRuns.v ===== *)
(** * Runs of a compiled graph

    The histories whose frontiers pass the admission of [routing.py] against a compiled
    graph.  A frontier node of superstep [k] is then at depth [k] below the entries, so
    every source of a pending END Join projects to the one occurrence its levels
    determine: what the resolver needs of the state ([ends_project]) holds along them. *)

From Stdlib Require Import ZArith NArith Lia Bool String.
From stdpp Require Import prelude strings gmap sorting.
From S2P Require Import Prelude Identity FrontierRelation Resources Model Validation Transitions WellFormed Reducer ReducerProofs OperationProofs AdvanceProofs Topology GraphDefinition ControlGraph ControlGraphProofs LevelProofs JointProofs DefinitionProofs Compiler ControlTopologyProofs BindingProofs AnalysisProofs CompilerProofs NextFrontier Routing RoutingProofs.

Set Default Goal Selector "!".
Open Scope nat_scope.

(** The states of a run whose start, and whose every new frontier, is admitted by the
    graph.  [prepare_transition] makes this check ([transition_admission_error]) of the
    successor of every command it commits. *)
Inductive admitted_run {V} (graph : CompiledGraph V) : GraphRunState → Prop :=
| admitted_start c s :
    reduce_graph_run None (CmdStart c) = Ok s → frontier_admission_error graph s = Ok None → admitted_run graph s
| admitted_step s c s' :
    admitted_run graph s → reduce_graph_run (Some s) c = Ok s' →
    (∀ a, c = CmdAdvance a → frontier_admission_error graph s' = Ok None) → admitted_run graph s'.

Lemma admitted_reachable {V} (graph : CompiledGraph V) s : admitted_run graph s → reachable s.
Proof. induction 1 as [c s H _|s c s' _ IH Hs _]; [by eapply reachable_start|]. eapply reachable_step; [done|]. by exists c. Qed.

(* ------------------------------------------------------------------ *)
(** ** What an admission has checked *)

Lemma first_error_none {A} (xs : list A) check x : first_error xs check = Ok None → x ∈ xs → check x = Ok None.
Proof.
  induction xs as [|y xs IH]; cbn; [by intros _ ?%elem_of_nil|]. intros ([e|] & Hy & H)%bind_Ok; [done|].
  intros [->|Hx]%elem_of_cons; auto.
Qed.

(** The routed nodes of a frontier, by id. *)
Definition add_actual (acc : list (str * GraphActivationCause)) (node : GraphFrontierNode) : list (str * GraphActivationCause) :=
  match fn_cause node with
  | RoutedActivationCause _ _ => dict_set (fn_node_id node) (fn_cause node) acc
  | StartActivationCause => acc
  end.

Lemma actual_other ns acc k : k ∉ fn_node_id <$> ns → assoc k (fold_left add_actual ns acc) = assoc k acc.
Proof.
  revert acc. induction ns as [|n ns IH]; intros acc; cbn; [done|]. intros [Hk Hns]%not_elem_of_cons. rewrite IH by done.
  unfold add_actual. destruct (fn_cause n); [done|]. rewrite assoc_dict_set. by rewrite decide_False.
Qed.

Lemma actual_entry ns acc n refs jo :
  NoDup (fn_node_id <$> ns) → n ∈ ns → fn_cause n = RoutedActivationCause refs jo →
  assoc (fn_node_id n) (fold_left add_actual ns acc) = Some (fn_cause n).
Proof.
  revert acc. induction ns as [|m ns IH]; intros acc; cbn; [by intros _ ?%elem_of_nil|].
  intros [Hm Hnd]%NoDup_cons [->|Hn]%elem_of_cons Hc; [|by apply IH].
  rewrite actual_other by done. unfold add_actual. rewrite Hc, assoc_dict_set. by rewrite decide_True.
Qed.

(** A comparison that finds nothing has found the cause of every routed node. *)
Lemma compare_successors_none P actual candidates target cause :
  candidates_ok P candidates → compare_successors actual candidates = None →
  assoc target actual = Some cause → P target cause.
Proof.
  intros Hc. unfold compare_successors. destruct (List.find _ candidates) as [[? [|? [|]]]|] eqn:Ef; [done..|].
  destruct (existsb _ actual) eqn:Ee; [done|]. intros _ Ha. pose proof (assoc_Some_elem _ _ _ Ha) as Hin.
  rewrite existsb_false_iff in Ee. pose proof (Ee _ Hin) as Hk. cbn in Hk. apply negb_false_iff, mem_spec in Hk.
  apply list_elem_of_fmap in Hk as ([t causes] & -> & Ht). cbn in *.
  pose proof (find_none _ _ Ef (t, causes) ltac:(by apply list_elem_of_In)) as Hf. cbn in Hf.
  destruct causes as [|cause' [|]]; [done| |done]. apply negb_false_iff, bool_decide_eq_true in Hf.
  rewrite Ha in Hf. injection Hf as <-. eapply (cn_causes _ _ Hc); [exact Ht|by left].
Qed.

(* ------------------------------------------------------------------ *)
(** ** The tables of a compiled graph *)

Section compiled.
Context {V : Type} (gd : CompiledGraph V) (d : GraphDefinition V) (nested : list (str * CompiledGraph V)).
Context (control : ControlTopology) (data : Successors) (options : RouteOptions) (plan : ControlPlan).
Context (successors : Successors) (plans : list CompiledJoin) (nodes : list str).
Context (B : built d nested gd control data options plan successors plans nodes).

Let A : analysed (ids_of d) (definition_edges d) control (tp_entries (transition gd)) data options plan successors plans nodes :=
  bl_analysed _ _ _ _ _ _ _ _ _ _ B.
Let C : control_of (ids_of d) (definition_edges d) control := bl_control _ _ _ _ _ _ _ _ _ _ B.
Notation node_of r := (act_node_id (ref_activation r)).
Notation below := (edge successors).
Notation level := (depth successors (tp_entries (transition gd))).

Lemma frozen_entry {X Y} (f : X → Y) (m : gmap str X) k y :
  map_get (frozen_map ((λ '(k, x), (k, f x)) <$> items m)) k = Ok y → ∃ x, m !! k = Some x ∧ y = f x.
Proof using.
  intros Hin%map_get_In. unfold frozen_map, sorted_key in Hin. rewrite sort_by_perm in Hin.
  apply list_elem_of_fmap in Hin as ([k' x] & [= <- ->] & Hx%items_elem). by exists x.
Qed.

Lemma declared_edge x y e : e ∈ definition_edges d → edge_target e = y → y ≠ END → x ∈ (edge_gate e).*1 → below x y.
Proof using B. intros He Ht Hy Hx. apply (an_successors _ _ _ _ _ _ _ _ _ _ A). by exists e. Qed.

Lemma successor_edge r targets t : successor_targets_for_reference gd r = Ok targets → t ∈ targets → below (node_of r) t.
Proof using B.
  unfold successor_targets_for_reference. intros (routes & Hr & H)%bind_Ok. apply seq_Ok_iff in H as [_ H].
  apply seq_Ok_iff in H as [_ H]. apply bind_Ok in H as (direct & Hd & H).
  rewrite (bl_direct _ _ _ _ _ _ _ _ _ _ B) in Hd. apply frozen_entry in Hd as (ts & Hts & ->).
  assert (node_of r ∈ ids_of d) as Hid by (apply (co_direct_dom _ _ _ C), elem_of_dom; by exists ts).
  rewrite (co_direct _ _ _ C _ Hid) in Hts. injection Hts as <-.
  assert (∀ u, u ∈ sorted_elements (list_to_set (directs_of (node_of r) (definition_edges d))) → below (node_of r) u) as Hdir.
  { intros u [He Hu]%sorted_elements_elem%elem_of_list_to_set%directs_of_elem.
    apply (declared_edge _ _ _ He); [done|done|]. by left. }
  destruct (ref_route r) as [route|]; [|injection H as <-; by apply Hdir].
  destruct (is_nil routes); [injection H as <-; by apply Hdir|].
  apply bind_Ok in H as (target & Ht & H). case_bool_decide as Hend; injection H as <-; [by apply Hdir|].
  intros [Hu| ->%list_elem_of_singleton]%elem_of_app; [by apply Hdir|].
  rewrite (bl_conditional _ _ _ _ _ _ _ _ _ _ B) in Hr. apply frozen_entry in Hr as (cs & Hcs & ->).
  rewrite (co_conditional _ _ _ C _ Hid) in Hcs. injection Hcs as <-.
  apply map_get_In in Ht. unfold frozen_map, sorted_key in Ht. rewrite sort_by_perm in Ht. apply conditionals_of_elem in Ht.
  apply (declared_edge _ _ _ Ht); [done|done|]. by left.
Qed.

(** Every stored Join plan is one of [plans], stored at each of its sources. *)
Lemma stored_plan n joins join :
  map_get (joins_by_source (transition gd)) n = Ok joins → join ∈ joins →
  join ∈ plans ∧ n ∈ join_sources (cj_identity join).
Proof using B.
  intros Hg Hj. rewrite (bl_joins _ _ _ _ _ _ _ _ _ _ B) in Hg. apply frozen_entry in Hg as (js & Hjs & ->).
  pose proof (an_index _ _ _ _ _ _ _ _ _ _ A) as I.
  assert (n ∈ ids_of d) as Hn by (apply (in_source_dom _ _ _ _ I), elem_of_dom; by exists js).
  rewrite (in_source _ _ _ _ I n Hn) in Hjs. injection Hjs as <-. unfold sorted_key in Hj. rewrite sort_by_perm in Hj.
  by apply list_elem_of_filter in Hj as [? ?].
Qed.

Lemma plan_declared join : join ∈ plans →
  ∃ declared target, JoinEdge declared target ∈ definition_edges d ∧ cj_identity join = mkJoin (sorted declared) target
    ∧ plan_good (tp_entries (transition gd)) (ct_gates control) data (ct_conditional control) successors (sorted declared) target join.
Proof using B.
  intros Hj. destruct (Forall2_elem_r _ _ _ _ (an_agree _ _ _ _ _ _ _ _ _ _ A) Hj) as ([sources target] & Hin & G).
  apply joins_of_elem in Hin as (declared & He & ->). exists declared, target. split_and!; [done| |done].
  pose proof (pg_identity _ _ _ _ _ _ _ _ G) as Hid. unfold GraphJoinIdentity_new in Hid. by inv_ok.
Qed.

Lemma join_edge join x : join ∈ plans → x ∈ join_sources (cj_identity join) → join_target (cj_identity join) ≠ END →
  below x (join_target (cj_identity join)).
Proof using B.
  intros (declared & target & He & -> & _)%plan_declared. cbn. intros Hx Ht. apply (declared_edge _ _ _ He); [done|done|].
  cbn. rewrite <- list_fmap_compose. by rewrite list_fmap_id.
Qed.

Lemma plan_constructed join : join ∈ plans → constructed join.
Proof using B.
  intros (declared & target & _ & Hid & G)%plan_declared. pose proof (pg_identity _ _ _ _ _ _ _ _ G) as Hi.
  split; [rewrite Hid in Hi |- *; exact Hi|apply G].
Qed.

Lemma plan_stored join x : join ∈ plans → x ∈ join_sources (cj_identity join) →
  ∃ joins, map_get (joins_by_source (transition gd)) x = Ok joins ∧ join ∈ joins.
Proof using B.
  intros Hj Hx. pose proof (an_index _ _ _ _ _ _ _ _ _ _ A) as I.
  assert (x ∈ ids_of d) as Hid.
  { destruct (plan_declared join Hj) as (declared & target & He & E & _). rewrite E in Hx. cbn in Hx.
    eapply (join_sources_valid _ _ (bl_edges _ _ _ _ _ _ _ _ _ _ B)); [|exact Hx]. apply joins_of_elem. by exists declared. }
  eexists. split.
  - rewrite (bl_joins _ _ _ _ _ _ _ _ _ _ B). apply frozen_items. by apply (in_source _ _ _ _ I).
  - unfold sorted_key. rewrite sort_by_perm. by apply list_elem_of_filter.
Qed.

(** [join] is the plan by which [r] arrives at the occurrence [o]. *)
Definition arrives (o : GraphJoinOccurrenceIdentity) (join : CompiledJoin) (r : ActivationReference) : Prop :=
  join ∈ plans ∧ cj_identity join = occ_join o ∧ occurrence_for join (ref_activation r) = Ok o.

Lemma arrives_edge o join r : arrives o join r → join_target (occ_join o) ≠ END → below (node_of r) (join_target (occ_join o)).
Proof using B.
  intros (Hj & E & Ho) Hend. rewrite <- E in Hend |- *. apply join_edge; [done| |done].
  destruct (occurrence_for_spec _ _ _ (plan_constructed join Hj) Ho) as (? & _ & _ & Hs & _). done.
Qed.

(** The arrivals recomputed from the ledger arrive by stored plans. *)
Definition historical_ok (arrivals : Arrivals) : Prop :=
  NoDup (fst <$> arrivals) ∧ ∀ o refs r, (o, refs) ∈ arrivals → r ∈ refs → ∃ join, arrives o join r.

Lemma historical_append o r join arrivals :
  arrives o join r → historical_ok arrivals → historical_ok (dict_append o r arrivals).
Proof using.
  intros Ha [Hnd H]. split; [by apply dict_append_NoDup|].
  intros o' refs r' [[-> ->]|[_ Hin]]%elem_dict_append; [|by eapply H|done].
  intros [Hr| ->%list_elem_of_singleton]%elem_of_app; [|by exists join].
  destruct (assoc o arrivals) as [xs|] eqn:E; [|by apply elem_of_nil in Hr]. apply assoc_Some_elem in E. by eapply H.
Qed.

Lemma historical_sound s historical o refs r :
  historical_join_arrivals_of gd s = Ok historical → (o, refs) ∈ historical → r ∈ refs → ∃ join, arrives o join r.
Proof using B.
  unfold historical_join_arrivals_of. intros ([arrivals seen] & Hl & [= <-])%bind_Ok.
  assert (historical_ok (arrivals, seen).1) as [_ H].
  { revert Hl. apply (py_for_state_prefix (λ _ st, historical_ok st.1)); [|split; [constructor|by intros ??? ?%elem_of_nil]].
    intros _ p st st' IH. unfold historical_settlement. destruct (_ <=? _)%Z; [by intros [= <-]|].
    intros (_ & (joins & Hg & Hl)%bind_Ok)%seq_Ok_iff.
    assert (∀ xs st st', xs ⊆ joins → historical_ok st.1 → py_for_state xs st (historical_arrival (pub_reference p)) = Ok st' →
      historical_ok st'.1) as Hgo; [|by eapply Hgo].
    clear IH Hl st st'. induction xs as [|join xs IH]; intros [arr sn] st' Hsub Hok; cbn; [by intros [= <-]|].
    intros ([arr' sn'] & Hstep & Hrest)%bind_Ok. eapply IH; [intros x Hx; apply Hsub; by right| |exact Hrest].
    cbn in Hstep |- *. apply bind_Ok in Hstep as (o' & Ho & Hstep). destruct (assoc _ sn); [by case_bool_decide|].
    injection Hstep as <- <-. apply (historical_append _ _ join); [|done].
    destruct (stored_plan _ _ join Hg) as [Hj _]; [apply Hsub; by left|]. split_and!; [done| |done].
    by destruct (occurrence_for_spec _ _ _ (plan_constructed join Hj) Ho) as (? & _ & -> & _). }
  intros ([o' refs'] & [= -> ->] & Hin)%list_elem_of_fmap Hr%sorted_key_elem. by eapply H.
Qed.

(** A candidate cause of [target] only names predecessors of [target]. *)
Definition proved_cause (target : str) (cause : GraphActivationCause) : Prop :=
  ∀ refs jo r, cause = RoutedActivationCause refs jo → r ∈ refs → below (node_of r) target.

Lemma add_previous_proved acc r acc' :
  candidates_ok proved_cause acc.2 → add_previous gd acc r = Ok acc' → candidates_ok proved_cause acc'.2.
Proof using B.
  destruct acc as [[e|] candidates]; cbn; [by intros ? [= <-]|]. intros Hc. unfold try_or.
  destruct (successor_targets_for_reference gd r) as [targets|e] eqn:Et; [|case_match; [by intros [= <-]|done]].
  intros (cs & Hl & [= <-])%bind_Ok. cbn.
  assert (∀ ts cs cs', ts ⊆ targets → candidates_ok proved_cause cs →
    py_for_state ts cs (λ candidates target, cause ← RoutedActivationCause_new [r] None;
      Ok (dict_append target cause candidates)) = Ok cs' → candidates_ok proved_cause cs') as Hgo; [|by eapply Hgo].
  clear Hl Hc cs candidates. induction ts as [|t ts IH]; intros cs cs' Hsub Hc; cbn [py_for_state]; [by intros [= <-]|].
  intros (cs1 & (cause & ->%RoutedActivationCause_new_inv & [= <-])%bind_Ok & Hrest)%bind_Ok.
  eapply IH; [intros x Hx; apply Hsub; by right| |exact Hrest]. apply candidates_ok_append; [done|].
  intros refs jo x [= <- <-] ->%list_elem_of_singleton. eapply successor_edge; [done|]. apply Hsub. by left.
Qed.

Lemma check_occurrence_proved s acc entry acc' :
  (∀ r, r ∈ entry.2 → ∃ join, arrives entry.1 join r) →
  candidates_ok proved_cause acc.2.1 → check_occurrence s acc entry = Ok acc' → candidates_ok proved_cause acc'.2.1.
Proof using B.
  destruct acc as [[e|] [candidates expected]], entry as [o refs]; cbn; [by intros _ ? [= <-]|]. intros Ha Hc.
  repeat case_match; try (by intros [= <-]).
  intros (cause & ->%RoutedActivationCause_new_inv & [= <-])%bind_Ok. cbn. apply candidates_ok_append; [done|].
  intros refs' jo r [= <- <-] Hr. destruct (Ha r Hr) as [join Hj]. eapply arrives_edge; [done|].
  by match goal with H : negb (bool_decide _) = true |- _ => apply negb_true_iff, bool_decide_eq_false in H end.
Qed.

Lemma post_advance_causes s historical evaluation n refs jo r :
  NoDup (fn_node_id <$> frontier_nodes (st_frontier s)) →
  historical_join_arrivals_of gd s = Ok historical → historical_join_arrivals evaluation = historical →
  post_advance_error gd s evaluation = Ok None →
  n ∈ frontier_nodes (st_frontier s) → fn_cause n = RoutedActivationCause refs jo → r ∈ refs →
  below (node_of r) (fn_node_id n).
Proof using B.
  intros Hnd Hh <-. unfold post_advance_error. destruct (is_nil _); [done|].
  intros ([error candidates] & Hprev & H)%bind_Ok Hn Hc Hr. destruct error; [done|].
  apply bind_Ok in H as ([error' [candidates' expected]] & Hcheck & H). destruct error'; [done|]. cbn zeta in H.
  do 2 (case_match; [done|]).
  assert (compare_successors (fold_left add_actual (frontier_nodes (st_frontier s)) []) candidates' = None) as Hcmp by by injection H.
  assert (candidates_ok proved_cause candidates) as Hc1.
  { revert Hprev. change candidates with (None (A := string), candidates).2.
    apply (py_for_state_prefix (λ _ acc, candidates_ok proved_cause acc.2)); [|by split; [constructor|intros ??? ?%elem_of_nil]].
    intros _ x acc acc' IH Hs. by eapply add_previous_proved. }
  assert (∀ xs acc acc', xs ⊆ historical_join_arrivals evaluation → candidates_ok proved_cause acc.2.1 →
    py_for_state xs acc (check_occurrence s) = Ok acc' → candidates_ok proved_cause acc'.2.1) as Hgo.
  { clear -A B C Hh. induction xs as [|[o refs] xs IH]; intros acc acc' Hsub Hc; cbn [py_for_state]; [by intros [= <-]|].
    intros (acc1 & Hs & Hrest)%bind_Ok. eapply IH; [intros x Hx; apply Hsub; by right| |exact Hrest].
    eapply check_occurrence_proved; [|exact Hc|exact Hs]. cbn. intros r Hr.
    eapply historical_sound; [done| |done]. apply Hsub. by left. }
  pose proof (Hgo _ (None, (candidates, [])) _ (reflexivity _) Hc1 Hcheck) as Hc2. cbn in Hc2.
  pose proof (actual_entry _ [] _ _ _ Hnd Hn Hc) as Ha.
  exact (compare_successors_none _ _ _ _ _ Hc2 Hcmp Ha refs jo r Hc Hr).
Qed.

(** What the admission of a running state has checked of it. *)
Record admitted_facts (s : GraphRunState) : Prop := {
  af_start : ∀ n, n ∈ frontier_nodes (st_frontier s) → fn_cause n = StartActivationCause → fn_node_id n ∈ tp_entries (transition gd);
  af_routed : st_superstep s ≠ 0%Z → ∀ n refs jo r, n ∈ frontier_nodes (st_frontier s) →
    fn_cause n = RoutedActivationCause refs jo → r ∈ refs → below (node_of r) (fn_node_id n);
  af_pending : (0 < st_superstep s)%Z → ∀ j, j ∈ st_join_progress s →
    ∃ join, ∀ r, r ∈ jp_arrived j → arrives (jp_occurrence j) join r
}.

(** A declared Join is a stored plan of its identity. *)
Definition declared_ok (declared : list (GraphJoinIdentity * CompiledJoin)) : Prop :=
  ∀ identity join, assoc identity declared = Some join → join ∈ plans ∧ cj_identity join = identity.

Lemma declared_joins_sound declared : declared_joins_of gd = Ok declared → declared_ok declared.
Proof using B.
  unfold declared_joins_of. intros (entries & Hi & ([declared' indexed] & Hl & H)%bind_Ok)%bind_Ok.
  apply seq_Ok_iff in H as [_ [= <-]].
  assert (declared_ok (declared', indexed).1) as Hd; [|done]. revert Hl.
  assert (∀ x, x ∈ entries → map_get (joins_by_source (transition gd)) x.1 = Ok x.2) as Hg.
  { intros x Hx. unfold map_items in Hi. apply mapM_Forall2 in Hi.
    apply list_elem_of_lookup in Hx as [i Hx]. destruct (Forall2_lookup_r _ _ _ _ _ Hi Hx) as (k & _ & Hk).
    by apply bind_Ok in Hk as (v & Hv & [= <-]). }
  assert (∀ n joins, map_get (joins_by_source (transition gd)) n = Ok joins → ∀ xs st st', xs ⊆ joins → declared_ok st.1 →
    py_for_state xs st (declare_join n) = Ok st' → declared_ok st'.1) as Hin.
  { clear -A B C. intros n joins Hgn. induction xs as [|join xs IH]; intros [dec idx] st' Hsub Hd; cbn [py_for_state]; [by intros [= <-]|].
    intros (st1 & Hs & Hrest)%bind_Ok. eapply IH; [intros x Hx; apply Hsub; by right| |exact Hrest].
    unfold declare_join in Hs. apply seq_Ok_iff in Hs as [_ Hs]. apply seq_Ok_iff in Hs as [He [= <-]]. cbn in Hd |- *.
    apply raise_if_Ok, negb_false_iff, bool_decide_eq_true in He. rewrite He.
    intros identity join'. rewrite assoc_dict_set. case_decide as E; [|apply Hd]. intros [= <-]. split; [|done].
    eapply (stored_plan n joins); [done|]. apply Hsub. by left. }
  assert (∀ xs st st', xs ⊆ entries → declared_ok st.1 → py_for_state xs st (λ acc '(source, joins),
    py_for_state joins acc (declare_join source)) = Ok st' → declared_ok st'.1) as Hout.
  { induction xs as [|[n joins] xs IH]; intros st st' Hsub Hd; cbn [py_for_state]; [by intros [= <-]|].
    intros (st1 & Hs & Hrest)%bind_Ok. eapply IH; [intros x Hx; apply Hsub; by right| |exact Hrest].
    eapply (Hin n joins); [apply (Hg (n, joins)), Hsub; by left|done|exact Hd|exact Hs]. }
  apply Hout; [done|]. by intros ??.
Qed.

Lemma all_project_sound join o rs r : all_project join o rs = Ok true → r ∈ rs → occurrence_for join (ref_activation r) = Ok o.
Proof using.
  induction rs as [|x rs IH]; cbn; [by intros _ ?%elem_of_nil|]. intros (p & Hp & H)%bind_Ok.
  case_bool_decide as E; [|done]. intros [->|Hr]%elem_of_cons; [by rewrite Hp, E|by apply IH].
Qed.

Lemma pending_sound s declared pending j :
  declared_ok declared → pending_join_arrivals_of s declared = Ok pending → j ∈ st_join_progress s →
  ∃ join, ∀ r, r ∈ jp_arrived j → arrives (jp_occurrence j) join r.
Proof using.
  intros Hd Hp. revert j. revert Hp. unfold pending_join_arrivals_of.
  apply (py_for_state_prefix (λ dn (_ : Arrivals), ∀ j, j ∈ dn → ∃ join, ∀ r, r ∈ jp_arrived j → arrives (jp_occurrence j) join r)).
  - intros dn j arr arr' IH Hs k [Hk| ->%list_elem_of_singleton]%elem_of_app; [by apply IH|].
    unfold pending_arrival in Hs. destruct (assoc _ declared) as [join|] eqn:E; [|done]. apply Hd in E as [Hj E].
    do 3 apply seq_Ok_iff in Hs as [_ Hs]. apply bind_Ok in Hs as (b & Hb & Hs). apply seq_Ok_iff in Hs as [Hb' _].
    unfold join_fail_if in Hb'. apply raise_if_Ok, negb_false_iff in Hb' as ->.
    exists join. intros r Hr. split_and!; [done..|]. by eapply all_project_sound.
  - by intros j ?%elem_of_nil.
Qed.

Lemma gates_start s declared n :
  frontier_gate_error gd s declared = Ok None → n ∈ frontier_nodes (st_frontier s) →
  fn_cause n = StartActivationCause → fn_node_id n ∈ tp_entries (transition gd).
Proof using.
  unfold frontier_gate_error. intros Hg Hn Hc. pose proof (first_error_none _ _ _ Hg Hn) as H.
  unfold frontier_node_error, try_or in H. rewrite Hc in H. destruct (negb (map_has _ _)); [done|].
  destruct (check_causal_inputs _ _ _ _); [|by case_match]. by destruct (mem _ _) eqn:E; [apply mem_spec in E|].
Qed.

Lemma admission_sound s :
  wf s → st_status s ≠ COMPLETED → frontier_admission_error gd s = Ok None → admitted_facts s.
Proof using B.
  intros Hwf Hst. unfold frontier_admission_error, routing_evaluation. intros (evaluation & H & [= Ha])%bind_Ok.
  apply bind_Ok in H as (error & _ & H). destruct error; cbn in H; [by injection H as <-|].
  rewrite bool_decide_false in H by done. unfold try_or in H at 1.
  destruct (declared_joins_of gd) as [declared|e] eqn:Hd; [|by case_match; [injection H as <-|]].
  apply declared_joins_sound in Hd. apply bind_Ok in H as (gate & Hg & H). destruct gate; cbn in H; [by injection H as <-|].
  pose proof (λ n, gates_start s declared n Hg) as Hstart. pose proof (wf_superstep s Hwf) as Hpos. unfold try_or in H at 1.
  destruct (pending_join_arrivals_of s declared) as [pending|e] eqn:Hp.
  2: { case_match; [|done]. destruct (Z.ltb_spec 0 (st_superstep s)); injection H as <-; [done|]. split; [done|lia|lia]. }
  destruct (Z.eqb_spec (st_superstep s) 0); [split; [done|lia|lia]|]. unfold try_or in H.
  destruct (historical_join_arrivals_of gd s) as [historical|e] eqn:Hh; [|by case_match; [injection H as <-|]].
  apply bind_Ok in H as (error & He & [= <-]). cbn in Ha. subst error. split; [done| |].
  - intros _ m refs jo r Hm Hc Hr.
    eapply (post_advance_causes s historical); [|exact Hh| |exact He|exact Hm|exact Hc|exact Hr]; [|done].
    apply strictly_sorted_NoDup_key, (fo_sorted s (wf_frontier s Hwf)).
  - intros _ j Hj. by eapply pending_sound.
Qed.

(* ------------------------------------------------------------------ *)
(** ** Supersteps are levels *)

(** The node is at depth [k] below the entries, for the superstep [k]. *)
Definition at_level (n : str) (superstep : Z) : Prop := ∃ k, superstep = Z.of_nat k ∧ level n k.

Record levelled_run (s : GraphRunState) : Prop := {
  lr_past : ∀ r, r ∈ settled_references s → (act_superstep (ref_activation r) < st_superstep s)%Z →
    at_level (node_of r) (act_superstep (ref_activation r));
  lr_frontier : ∀ n, n ∈ frontier_nodes (st_frontier s) → at_level (fn_node_id n) (st_superstep s);
  lr_pending : (0 < st_superstep s)%Z → ∀ j, j ∈ st_join_progress s →
    ∃ join, ∀ r, r ∈ jp_arrived j → arrives (jp_occurrence j) join r
}.

(** Steps within a superstep: no new node, no new Join record, no older settlement. *)
Lemma levelled_same s s' :
  st_superstep s' = st_superstep s →
  (∀ n', n' ∈ frontier_nodes (st_frontier s') → ∃ n, n ∈ frontier_nodes (st_frontier s) ∧ fn_node_id n' = fn_node_id n) →
  st_join_progress s' ⊆ st_join_progress s →
  (∀ r, r ∈ settled_references s' → r ∈ settled_references s ∨ act_superstep (ref_activation r) = st_superstep s) →
  levelled_run s → levelled_run s'.
Proof using.
  intros Hs Hn Hj Hr [Hp Hf Hpend]. split; rewrite ?Hs.
  - intros r [Hin|E]%Hr Hlt; [by apply Hp|lia].
  - intros n' (n & Hin & ->)%Hn. by apply Hf.
  - intros Hpos j Hin%Hj. by apply Hpend.
Qed.

Lemma levelled_start c s :
  reduce_graph_run None (CmdStart c) = Ok s → frontier_admission_error gd s = Ok None → levelled_run s.
Proof using B.
  intros H Hadm. pose proof (reachable_wf s (reachable_start _ _ H)) as Hwf.
  assert (st_superstep s = 0%Z ∧ st_status s = RUNNING ∧ settled_references s = []
    ∧ ∀ n, n ∈ frontier_nodes (st_frontier s) → fn_cause n = StartActivationCause) as (H0 & Hst & Hnil & Hc).
  { cbn in H. unfold start_graph_run in H. apply seq_Ok_iff in H as [Hact H]. cbn zeta in H. inv_ok. apply validated_wf in H as [-> _].
    split_and!; [done..|]. intros n Hn. pose proof (no_cause _ _ (fo_nodes _ (wf_frontier _ Hwf) n Hn)) as Hok.
    destruct (fn_cause n); [done|]. by destruct Hok as [[] _]. }
  destruct (admission_sound s Hwf) as [Hs _ _]; [by rewrite Hst|done|]. split; rewrite ?H0.
  - rewrite Hnil. by intros r ?%elem_of_nil.
  - intros n Hn. exists 0. split; [done|]. exists (fn_node_id n). split; [by apply Hs, Hc|constructor].
  - lia.
Qed.

Lemma levelled_step s c s' :
  reachable s → reduce_graph_run (Some s) c = Ok s' →
  (∀ a, c = CmdAdvance a → frontier_admission_error gd s' = Ok None) → levelled_run s → levelled_run s'.
Proof using B.
  intros Hr Hs Hadm Hl. assert (run_step s s') as Hstep by (by exists c).
  pose proof (reachable_causal _ (reachable_step _ _ Hr Hstep)) as [_ Hcaused _].
  apply reduce_inv in Hs as (Hwf & _ & u & Hu & -> & Hwf').
  destruct c; cbn in Hu; [done|..].
  - apply claim_inv in Hu as (_ & _ & _ & _ & _ & _ & ->). apply (levelled_same s); cbn; eauto.
  - apply fence_inv in Hu as (_ & _ & ->). apply (levelled_same s); cbn; eauto.
  - apply settle_inv in Hu as (_ & _ & _ & x & l & cur & res & dv & Ho & _ & _ & _ & ->).
    apply (levelled_same s); cbn; [done| |done| |done].
    + intros n' (n & -> & Hn)%list_elem_of_fmap. exists n. by case_decide || case_match.
    + intros r (p & -> & Hp)%list_elem_of_fmap. apply settle_outcome_inv in Ho.
      assert (p ∈ st_settled_publications s ∨ act_superstep (ref_activation (pub_reference p)) = st_superstep s) as [?|?];
        [|by left; apply list_elem_of_fmap_2|by right].
      destruct (set_outcome _); [|left; naive_solver..]. destruct Ho as (_ & _ & _ & ->).
      apply sorted_key_elem, elem_of_app in Hp as [?| ->%list_elem_of_singleton]; [by left|by right].
  - apply resume_inv in Hu as (_ & _ & _ & _ & Hsort & up & Hloop & ->).
    apply resume_loop in Hloop as [[= -> _] _];
      [|by apply strictly_sorted_NoDup_key, wf_frontier|by apply strictly_sorted_NoDup_key].
    apply (levelled_same s); cbn; [done| |done|eauto|done].
    intros n' (n & -> & Hn)%list_elem_of_fmap. exists n. split; [done|]. apply resumed_node_id.
  - pose proof Hu as ((Hst & _)%resolution_base_Ok & _ & Eu)%advance_inv.
    destruct (admission_sound _ Hwf') as [_ Hedges Hpend]; [by rewrite Eu; cbn; rewrite Hst|by eapply Hadm|].
    pose proof (wf_superstep s Hwf) as Hpos. subst u. cbn in *.
    assert (∀ r, r ∈ settled_references s → (act_superstep (ref_activation r) < st_superstep s + 1)%Z →
      at_level (node_of r) (act_superstep (ref_activation r))) as Hpast.
    { intros r Hin Hlt. destruct (decide (act_superstep (ref_activation r) = st_superstep s)) as [E|E].
      - assert (r ∈ frontier_references s) as (n & rt & Hn & _ & ->)%elem_frontier_references
          by (apply (lo_current s (wf_ledger s Hwf)); [by rewrite Hst|done]).
        cbn. apply (lr_frontier s Hl n Hn).
      - apply (lr_past s Hl); [done|lia]. }
    split; cbn; [exact Hpast| |intros _; apply Hpend; lia].
    intros n Hn. destruct (Hcaused ltac:(cbn; lia) n Hn) as (refs & jo & r & Hc & Hin & Hk). unfold at_superstep in Hk. cbn in Hk.
    pose proof (no_cause _ _ (fo_nodes _ (wf_frontier _ Hwf') n Hn)) as Hok. rewrite Hc in Hok.
    destruct Hok as (_ & _ & _ & Hpred & _). destruct (Hpred r Hin) as [_ _ _ Hset].
    destruct (Hpast r Hset ltac:(lia)) as (k & Ek & e & He & Hpath). exists (S k). split; [lia|].
    exists e. split; [done|]. eapply nsteps_r; [exact Hpath|]. eapply Hedges; [lia|done..].
  - apply complete_inv in Hu as (_ & _ & ->).
    apply (levelled_same s); cbn; [done|by intros n' ?%elem_of_nil|apply list_subseteq_nil|eauto|done].
  - apply abort_inv in Hu as (_ & _ & ->). apply (levelled_same s); cbn; eauto.
Qed.

Lemma admitted_levels s : admitted_run gd s → levelled_run s.
Proof using B.
  induction 1 as [c s H Hadm|s c s' Hrun IH Hs Hadm]; [by eapply levelled_start|].
  eapply levelled_step; [by eapply admitted_reachable|done..].
Qed.

(* ------------------------------------------------------------------ *)
(** ** Pending END Joins are aligned with the frontier *)

Lemma offset_declared join r o : constructed join → occurrence_for join (ref_activation r) = Ok o →
  ∃ offset, (node_of r, offset) ∈ cj_source_target_offsets join
    ∧ o = mkOccurrence (cj_identity join) (act_run_id (ref_activation r)) (act_superstep (ref_activation r) + offset).
Proof using.
  intros _. unfold occurrence_for, target_offset. intros (offset & Ht & H)%bind_Ok.
  destruct (List.find _ _) as [[c off]|] eqn:Ef; [|done]. injection Ht as ->.
  apply find_some in Ef as [Hin%list_elem_of_In Hc%bool_decide_eq_true]. cbn in Hc. subst c.
  exists offset. split; [done|]. unfold GraphJoinOccurrenceIdentity_new in H. by inv_ok.
Qed.

Lemma offset_of_source join x : constructed join → x ∈ join_sources (cj_identity join) →
  ∃ offset, (x, offset) ∈ cj_source_target_offsets join ∧ target_offset join x = Ok offset.
Proof using.
  intros [_ Hnew] Hx. unfold CompiledJoin_new in Hnew. checks in Hnew. destruct Hnew as (Hsrc & _ & _). rewrite <- Hsrc in Hx.
  apply list_elem_of_fmap in Hx as ([x' off] & -> & Hin). unfold target_offset. cbn in *.
  destruct (List.find _ _) as [[c off']|] eqn:Ef.
  - apply find_some in Ef as [Hin'%list_elem_of_In Hc%bool_decide_eq_true]. subst c. by exists off'.
  - pose proof (find_none _ _ Ef (x', off) ltac:(by apply list_elem_of_In)) as Hf. cbn in Hf. by apply bool_decide_eq_false in Hf.
Qed.

Lemma admitted_ends_project s : admitted_run gd s → ends_project gd s.
Proof using B.
  intros Hrun j r Hj Hend Hr Hsrc. pose proof (admitted_levels s Hrun) as [Hpast Hfront Hpend].
  pose proof (reachable_wf s (admitted_reachable gd s Hrun)) as Hwf.
  pose proof (js_records s (wf_joins s Hwf) j Hj) as [Hocc Hfut Hsome _ _ _ _ Harr].
  destruct (frontier_reference_ok s Hwf r Hr) as ([[Hrc _ _] _] & Hrrun & Hrs).
  destruct (jp_arrived j) as [|a rest] eqn:Ea; [done|]. destruct (Harr a ltac:(by left)) as [[[_ Ha0 _] _] Harun Halt _ _ Haset].
  destruct (Hpend ltac:(lia) j Hj) as [join Hjoin]. destruct (Hjoin a) as (Hin & Hid & Hoa); [rewrite Ea; by left|].
  pose proof (plan_constructed join Hin) as Hcon. destruct (offset_declared join a _ Hcon Hoa) as (offa & Hoffa & Eo).
  rewrite <- Hid in Hsrc. destruct (plan_stored join _ Hin Hsrc) as (joins & Hg & Hjs). exists joins, join. split_and!; [done..|].
  destruct (offset_of_source join (node_of r) Hcon Hsrc) as (offr & Hoffr & Htr).
  destruct (plan_declared join Hin) as (declared & target & _ & _ & G).
  pose proof (oo_run _ _ Hocc) as Horun. pose proof (oo_superstep _ _ Hocc) as Hopos.
  assert (act_superstep (ref_activation r) + offr = occ_target_superstep (jp_occurrence j))%Z as Hsame.
  { rewrite Eo. cbn. destruct (pg_agree _ _ _ _ _ _ _ _ G) as [(_ & _ & Hone)|(_ & _ & target' & Hlev)].
    - rewrite Hone in Hoffa. apply list_elem_of_fmap in Hoffa as (x & [= _ ->] & _). rewrite Eo in Hfut. cbn in Hfut. lia.
    - destruct (Hlev _ _ Hoffa) as (ka & Hka & <-), (Hlev _ _ Hoffr) as (kr & Hkr & Ek).
      destruct (Hpast a Haset Halt) as (ka' & Eka & Hla%Hka).
      apply elem_frontier_references in Hr as (n & rt & Hn & _ & ->). cbn in *.
      destruct (Hfront n Hn) as (kr' & Ekr & Hlr%Hkr). subst. lia. }
  unfold occurrence_for. rewrite Htr. cbn [mbind result_bind]. rewrite Hsame, Hrrun, <- Horun, Hid.
  unfold GraphJoinOccurrenceIdentity_new. checks. split_and!; [by rewrite Horun, <- Hrrun|lia|]. by destruct (jp_occurrence j).
Qed.
End compiled.
