(* ===== verification/CompositionProofs.v ===== *)
(** * From a definition to accepted runs

    A compiled graph satisfies what the routing resolver asks of its Joins, and its admitted
    runs what it asks of the state, so the commands the resolver derives for such a run are
    accepted by the reducer. *)

From Stdlib Require Import ZArith NArith Lia Bool String.
From stdpp Require Import prelude strings gmap sorting.
From S2P Require Import Prelude Identity Resources Model Transitions WellFormed Reducer ReducerProofs OperationProofs AdvanceProofs Topology GraphDefinition ControlGraph LevelProofs JointProofs DefinitionProofs Compiler BindingProofs AnalysisProofs CompilerProofs CompilerTheorems NextFrontier Routing Engine DemoGraph RoutingProofs AdmittedRuns.

Set Default Goal Selector "!".
Open Scope nat_scope.

Lemma sound_joins_constructed {V} (d : GraphDefinition V) nested g : sound_graph d nested g → joins_constructed g.
Proof.
  intros (control & data & options & plan & successors & plans & nodes & B) n js join Hg Hj.
  destruct (stored_plan _ _ _ _ _ _ _ _ _ _ B n js join Hg Hj) as [Hin _]. by eapply plan_constructed.
Qed.

Lemma sound_ends_project {V} (d : GraphDefinition V) nested g s : sound_graph d nested g → admitted_run g s → ends_project g s.
Proof. intros (control & data & options & plan & successors & plans & nodes & B). by eapply admitted_ends_project. Qed.

(** C3: from a definition to accepted commands.  Along every run of a compiled graph whose
    start and whose every new frontier pass the graph's admission (which each commit
    checks), whatever command the resolver derives from a running state is accepted by the
    reducer: an advance installs exactly its activations as the pending frontier of the
    next superstep and its Join records, a completion completes the run with its route, an
    abort records its reason, and the resolver derives no other command. *)
Theorem compiled_runs_accepted {V W F : Type} `{EqDecision V} `{EqDecision W} {index : ScopedFrameAvailability F}
    (value_type : V → W) family repr_tuple (root d : GraphDefinition V) retained g memo gd s scope (frames : F) c :
  is_family family → family root → faithful value_type family retained →
  compile value_type root retained = Ok (g, memo) → sub root d → plan_for memo d = Ok gd →
  admitted_run gd s → st_status s = RUNNING →
  (∀ xs, Forall canonical xs → canonical (repr_tuple xs)) →
  resolve_routing repr_tuple gd s scope frames = Ok c →
  ∃ s', reduce_graph_run (Some s) c = Ok s' ∧
    match c with
    | CmdAdvance a => s' = advanced s (adv_activations a) (adv_join_progress a) ∧ adv_activations a ≠ []
    | CmdComplete a => s' = completed s (com_completion_route a)
    | CmdAbort a => s' = aborted s (abort_command_reason a)
    | _ => False
    end.
Proof.
  intros Hfam Hr Hf Hc Hs Hp Hrun Hst Hrepr. destruct (compiled_sound value_type family Hfam _ _ _ _ _ _ Hr Hf Hc Hs Hp) as [nested Hsound].
  apply resolved_command_accepted; [by eapply reachable_wf, admitted_reachable|done|by eapply sound_joins_constructed|by eapply sound_ends_project|done].
Qed.

(* ------------------------------------------------------------------ *)
(** ** A run with a pending END Join

    START -> a -> b, Join(a, b) -> END: when [b] is settled the Join holds [a]'s arrival,
    and the completion consumes it. *)

Local Open Scope Z_scope.

Definition ended_definition : GraphDefinition unit :=
  mkDefinition 1 (lit "def") 1 [CallableNode (lit "a") [] [] [] []; CallableNode (lit "b") [] [] [] []]
    [DirectEdge (lit "a") (lit "b"); JoinEdge [lit "a"; lit "b"] END] [] [] [] None.

Lemma ended_compiles : { out | compile (λ _, tt) ended_definition ∅ = Ok out }.
Proof. eexists. vm_compute. reflexivity. Defined.
Definition ended_graph : CompiledGraph unit := fst (proj1_sig ended_compiles).
Definition ended_memo : gmap Z (CompiledGraph unit) := snd (proj1_sig ended_compiles).

Lemma ended_compiled : compile (λ _, tt) ended_definition ∅ = Ok (ended_graph, ended_memo).
Proof. vm_compute. reflexivity. Qed.

Definition ended_join : GraphJoinOccurrenceIdentity := mkOccurrence (mkJoin [lit "a"; lit "b"] END) (lit "run") 2.
Definition ended_start : StartGraphRun :=
  mkStart (lit "run") (lit "def") 1 [mkFrontierActivation (lit "a") StartActivationCause] None None None None.
Definition ended_commands : list GraphRunCommand :=
  [demo_claim 0; demo_success 1 1 (lit "a");
   CmdAdvance (mkAdvance 2 [mkFrontierActivation (lit "b") (RoutedActivationCause [demo_reference 0 (lit "a")] None)]
     [mkJoinProgress ended_join [demo_reference 0 (lit "a")]] []);
   demo_claim 3; demo_success 4 2 (lit "b")].
Definition ended_after (k : nat) : GraphRunState := state_of (run_all ended_start (take k ended_commands)).

Lemma ended_family : is_family (λ d, d = ended_definition).
Proof.
  split.
  - intros d i child inputs -> Hin; cbn in Hin.
    repeat (apply elem_of_cons in Hin as [Hin|Hin]; [discriminate Hin|]). by apply elem_of_nil in Hin.
  - by intros d d' -> ->.
Qed.

Lemma ended_admitted : admitted_run ended_graph (ended_after 5).
Proof.
  apply (admitted_step _ (ended_after 4) (demo_success 4 2 (lit "b"))); [|vm_compute; reflexivity|done].
  apply (admitted_step _ (ended_after 3) (demo_claim 3)); [|vm_compute; reflexivity|done].
  eapply (admitted_step _ (ended_after 2) (nth 2 ended_commands (demo_claim 0))); [|vm_compute; reflexivity|intros; vm_compute; reflexivity].
  apply (admitted_step _ (ended_after 1) (demo_success 1 1 (lit "a"))); [|vm_compute; reflexivity|done].
  apply (admitted_step _ (ended_after 0) (demo_claim 0)); [|vm_compute; reflexivity|done].
  apply (admitted_start _ ended_start); vm_compute; reflexivity.
Qed.

Lemma compiled_runs_accepted_witness :
  st_join_progress (ended_after 5) = [mkJoinProgress ended_join [demo_reference 0 (lit "a")]]
  ∧ ∃ s', reduce_graph_run (Some (ended_after 5)) (CmdComplete (mkComplete 5 [ended_join] None)) = Ok s'
    ∧ s' = completed (ended_after 5) None.
Proof.
  split; [vm_compute; reflexivity|].
  refine (compiled_runs_accepted (λ _, tt) (λ d, d = ended_definition) demo_repr ended_definition ended_definition ∅ ended_graph
    ended_memo ended_graph (ended_after 5) demo_scope full_index (CmdComplete (mkComplete 5 [ended_join] None))
    ended_family eq_refl (faithful_empty _ _) ended_compiled (sub_refl _) _ ended_admitted _ demo_repr_canonical _).
  - vm_compute. reflexivity.
  - vm_compute. reflexivity.
  - vm_compute. reflexivity.
Defined.
