(* ===== verification/Values.v ===== *)
(** * Values and frames

    [execution/graph/values.py], [outcome.py] and [codec.py]: immutable named values with
    the activation Config and the caller's Session they travel with, and the frames they
    are admitted into against a compiled declaration.

    [A] stands for the values, [V] for nominal type descriptors and [W] for classes;
    [type_of] is [type(value)].  [C] stands for the resolved Config and [S] for the hook
    state and context of a Session, which execution only carries.  Seals and exact-type
    checks are what the types of the model express. *)

From Stdlib Require Import ZArith NArith Lia Bool String.
From stdpp Require Import prelude strings gmap sorting.
From S2P Require Import Prelude Identity Model Topology GraphDefinition.

Set Default Goal Selector "!".
Open Scope Z_scope.

(** What execution uses of values, classes and descriptors: [descriptor.value_type],
    [type(value)], and whether [canonical_nominal_type] accepts a class. *)
Class ValueTypes (A V W : Type) := {
  type_of : A → W;
  value_type : V → W;
  nominal : W → bool;
  #[global] class_eq_dec :: EqDecision W
}.

(** What execution uses of a Config: whether [require_config] admits it, and its cursor. *)
Class Configs (C : Type) := {
  config_ok : C → bool;
  config_cursor_of : C → GraphConfigCursor;
  #[global] config_eq_dec :: EqDecision C
}.

(** [AgentSession]: the caller's part and the Config. *)
Record AgentSession (C S : Type) := mkSession { se_carried : S; se_config : option C }.
Arguments mkSession {_ _}.
Arguments se_carried {_ _}.
Arguments se_config {_ _}.
#[export] Instance session_eq_dec {C S} `{EqDecision C} `{EqDecision S} : EqDecision (AgentSession C S).
Proof. solve_decision. Defined.

(** [_GraphValues]; [GraphInputFrame], [NodeOutputFrame] and [GraphOutputView], which have
    the same fields; and [NodeInputFrame]. *)
Record GraphValues (A C S : Type) := mkValues {
  gv_entries : list (str * A);
  gv_activation_config : option C;
  gv_session : option (AgentSession C S)
}.
Record Frame (A C : Type) := mkFrame {
  fr_entries : list (str * A);
  fr_activation_config : option C
}.
Record NodeInputFrame (A C S : Type) := mkNodeInputFrame {
  nf_entries : list (str * A);
  nf_activation_config : option C;
  nf_session : option (AgentSession C S)
}.
Arguments mkValues {_ _ _}.
Arguments gv_entries {_ _ _}.
Arguments gv_activation_config {_ _ _}.
Arguments gv_session {_ _ _}.
Arguments mkFrame {_ _}.
Arguments fr_entries {_ _}.
Arguments fr_activation_config {_ _}.
Arguments mkNodeInputFrame {_ _ _}.
Arguments nf_entries {_ _ _}.
Arguments nf_activation_config {_ _ _}.
Arguments nf_session {_ _ _}.

Definition admission_fail_if (b : bool) (m : string) : result unit := raise_if b GraphValueAdmissionError m.

Section values.
Context {A V W C S : Type} `{ValueTypes A V W} `{Configs C} `{EqDecision S}.
Notation Session := (AgentSession C S).
Notation Values := (GraphValues A C S).
Notation Entries := (list (str * A)).
Notation Declarations := (list (OutputDeclaration V)).

(* ---------------------------------------------------------------- *)
(** ** Config and Session *)

(** [_admit_activation_config] *)
Definition admit_activation_config (activation_config : option C) (error_message : string) : result (option C) :=
  match activation_config with
  | None => Ok None
  | Some config => admission_fail_if (negb (config_ok config)) error_message;; Ok (Some config)
  end.

(** [_merge_activation_config] *)
Definition merge_activation_config (inherited supplied : option C) (malformed_message conflict_message : string)
    : result (option C) :=
  match supplied with
  | None => Ok inherited
  | Some _ =>
      admitted ← admit_activation_config supplied malformed_message;
      admission_fail_if (negb (bool_decide (inherited = None)) && negb (bool_decide (inherited = admitted))) conflict_message;;
      Ok admitted
  end.

(** [admit_session_carrier]: the Session is rebuilt, which re-checks its Config. *)
Definition admit_session_carrier (session : Session) : result Session :=
  raise_if (match se_config session with Some config => negb (config_ok config) | None => false end)
    AgentSessionContractError "AgentSession.config is malformed";;
  Ok (mkSession (se_carried session) (se_config session)).

(** [_admit_session] *)
Definition admit_session (session : option Session) (error_message : string) : result (option Session) :=
  match session with
  | None => Ok None
  | Some session => admitted ← except is_admission_error GraphValueAdmissionError error_message (admit_session_carrier session);
                    Ok (Some admitted)
  end.

(** [_session_config] *)
Definition session_config (session : option Session) : option C :=
  match session with Some session => se_config session | None => None end.

(** [_require_session_config] *)
Definition require_session_config (activation_config : option C) (session : option Session) (conflict_message : string)
    : result (option C) :=
  let carried := session_config session in
  admission_fail_if (negb (bool_decide (activation_config = None)) && negb (bool_decide (carried = None))
                     && negb (bool_decide (activation_config = carried))) conflict_message;;
  Ok (match activation_config with Some _ => activation_config | None => carried end).

(** [_merge_session] *)
Definition merge_session (inherited supplied : option Session) (malformed_message conflict_message : string)
    : result (option Session) :=
  match supplied with
  | None => admit_session inherited malformed_message
  | Some _ =>
      admitted ← admit_session supplied malformed_message;
      match inherited with
      | None => Ok admitted
      | Some _ =>
          inherited ← admit_session inherited malformed_message;
          admission_fail_if (negb (bool_decide (inherited = admitted))) conflict_message;;
          Ok admitted
      end
  end.

(* ---------------------------------------------------------------- *)
(** ** Graph values *)

(** [_GraphValues.__post_init__] *)
Definition GraphValues_new (entries : Entries) (activation_config : option C) (session : option Session) : result Values :=
  _ ← admit_activation_config activation_config "graph values carry a malformed activation Config";
  _ ← admit_session session "graph values carry a malformed AgentSession";
  _ ← require_session_config activation_config session "graph values activation Config disagrees with AgentSession";
  Ok (mkValues entries activation_config session).

(** [canonical_port_name] *)
Definition canonical_port_name (name : str) : result str :=
  raise_if (negb (is_canonical_identity name)) GraphValidationError "name must be a non-empty trimmed string";; Ok name.

(** [_GraphValues.__getitem__] *)
Definition graph_value (values : Values) (name : str) : result A :=
  canonical ← canonical_port_name name;
  match assoc canonical (gv_entries values) with
  | Some value => Ok value
  | None => Raise (Exn KeyError "key")
  end.

(** [_GraphValues.admit] *)
Definition admit_values (values : Values) : result unit :=
  let names := fst <$> gv_entries values in
  admission_fail_if (existsb (λ name, negb (is_canonical_identity name)) names || negb (bool_decide (names = sorted_set names)))
    "graph values contain malformed canonical names";;
  _ ← admit_activation_config (gv_activation_config values) "graph values carry a malformed activation Config";
  _ ← admit_session (gv_session values) "graph values carry a malformed AgentSession";
  Ok tt.

(** [_normalize_mapping] *)
Definition normalize_mapping (values : Entries) : result Entries :=
  mapM (λ '(name, value), canonical ← canonical_port_name name; Ok (canonical, value)) (sorted_key fst values).

(** [_make_graph_values] and [_make_single_graph_value] *)
Definition make_graph_values (values : Entries) : result Values :=
  entries ← normalize_mapping values; GraphValues_new entries None None.

Definition make_single_graph_value (name : str) (value : A) (activation_config : option C) (session : option Session)
    : result Values :=
  canonical ← canonical_port_name name;
  activation_config ← admit_activation_config activation_config "graph value activation Config is malformed";
  session ← admit_session session "graph value AgentSession is malformed";
  GraphValues_new [(canonical, value)] activation_config session.

(** [_require_graph_values] and [_entries_of] *)
Definition require_graph_values (values : Values) : result Values := admit_values values;; Ok values.
Definition entries_of (values : Values) : result Entries := admitted ← require_graph_values values; Ok (gv_entries admitted).

(* ---------------------------------------------------------------- *)
(** ** Admission against declarations *)

(** [admit_exact] *)
Definition admit_exact (value : A) (descriptor : V) : result A :=
  admission_fail_if (negb (nominal (value_type descriptor))) "value has a malformed nominal descriptor";;
  admission_fail_if (negb (bool_decide (type_of value = value_type descriptor))) "value does not have its exact declared type";;
  Ok value.

(** [_admit_entries] *)
Definition admit_entries (entries : Entries) (declarations : Declarations) : result Entries :=
  admission_fail_if (negb (bool_decide ((fst <$> entries) = (od_name <$> declarations))))
    "names do not match the compiled descriptor";;
  py_for (zip entries declarations) (λ '((_, value), declaration), _ ← admit_exact value (od_descriptor declaration); Ok tt);;
  Ok entries.

(** [_admit_frame], for each kind of frame. *)
Definition admit_frame (frame : Frame A C) (declarations : Declarations) : result (Frame A C) :=
  _ ← admit_entries (fr_entries frame) declarations; Ok frame.
Definition admit_node_input_frame (frame : NodeInputFrame A C S) (declarations : Declarations)
    : result (NodeInputFrame A C S) :=
  _ ← admit_entries (nf_entries frame) declarations; Ok frame.

(** The constructor of [GraphInputFrame], [NodeOutputFrame] and [GraphOutputView]. *)
Definition Frame_new (entries : Entries) (activation_config : option C) : result (Frame A C) :=
  _ ← admit_activation_config activation_config "frame carries a malformed activation Config";
  Ok (mkFrame entries activation_config).

(** [NodeInputFrame.__post_init__] *)
Definition NodeInputFrame_new (entries : Entries) (activation_config : option C) (session : option Session)
    : result (NodeInputFrame A C S) :=
  _ ← admit_activation_config activation_config "node input frame carries a malformed activation Config";
  _ ← admit_session session "node input frame carries a malformed AgentSession";
  _ ← require_session_config activation_config session "node input frame Config disagrees with AgentSession";
  Ok (mkNodeInputFrame entries activation_config session).

(** [_make_graph_input_frame] *)
Definition make_graph_input_frame (values : Values) (declarations : Declarations) (activation_config : option C)
    (session : option Session) : result (Frame A C) :=
  entries ← entries_of values;
  entries ← admit_entries entries declarations;
  inherited ← merge_activation_config (gv_activation_config values) activation_config
    "graph input activation Config is malformed" "graph input values and activation Config disagree";
  inherited_session ← merge_session (gv_session values) session
    "graph input AgentSession is malformed" "graph input values and AgentSession disagree";
  inherited ← require_session_config inherited inherited_session "graph input Config and AgentSession disagree";
  Frame_new entries inherited.

(** [_graph_input_from_node_input] *)
Definition graph_input_from_node_input (frame : NodeInputFrame A C S) (declarations : Declarations) : result (Frame A C) :=
  entries ← admit_entries (nf_entries frame) declarations; Frame_new entries (nf_activation_config frame).

(** [replace_graph_input_config] *)
Definition replace_graph_input_config (frame : Frame A C) (activation_config : option C) : result (Frame A C) :=
  admitted ← admit_activation_config activation_config "graph input activation Config is malformed";
  Frame_new (fr_entries frame) admitted.

(** [_make_node_input_frame] *)
Definition make_node_input_frame (entries : Entries) (declarations : Declarations) (activation_config : option C)
    (session : option Session) : result (NodeInputFrame A C S) :=
  admitted ← admit_entries entries declarations;
  inherited ← admit_activation_config activation_config "node input activation Config is malformed";
  admitted_session ← admit_session session "node input AgentSession is malformed";
  inherited ← require_session_config inherited admitted_session "node input Config and AgentSession disagree";
  NodeInputFrame_new admitted inherited admitted_session.

(** [_make_node_output_frame] *)
Definition make_node_output_frame (values : Values) (declarations : Declarations) (activation_config : option C)
    : result (Frame A C) :=
  entries ← entries_of values;
  entries ← admit_entries entries declarations;
  inherited ← merge_activation_config (gv_activation_config values) activation_config
    "node output activation Config is malformed" "node output values and activation Config disagree";
  Frame_new entries inherited.

(** [_node_output_from_view] *)
Definition node_output_from_view (view : Frame A C) (declarations : Declarations) : result (Frame A C) :=
  entries ← admit_entries (fr_entries view) declarations; Frame_new entries (fr_activation_config view).

(** [_make_graph_output_view] *)
Definition make_graph_output_view (entries : Entries) (declarations : Declarations) (activation_config : option C)
    : result (Frame A C) :=
  admitted ← admit_entries entries declarations;
  inherited ← admit_activation_config activation_config "graph output activation Config is malformed";
  Frame_new admitted inherited.

(** [_public_values] *)
Definition public_values (entries : Entries) (activation_config : option C) (session : option Session) : result Values :=
  admitted ← admit_session session "graph values carry a malformed AgentSession";
  GraphValues_new entries activation_config admitted.

(** [_frame_value] and [_frame_value_typed] *)
Definition frame_value (entries : Entries) (name : str) : result A :=
  match assoc name entries with
  | Some value => Ok value
  | None => Raise (Exn GraphValueAdmissionError "compiled frame does not contain value")
  end.
Definition frame_value_typed (frame : NodeInputFrame A C S) (name : str) (descriptor : V) : result A :=
  value ← frame_value (nf_entries frame) name; admit_exact value descriptor.

(* ---------------------------------------------------------------- *)
(** ** [outcome.py] *)

(** What a node returns: bare values, [Graph.success(...)], [Graph.failure(...)] or
    [Graph.interrupt(...)]. *)
Inductive NodeReturn :=
| ReturnedValues (values : Values)
| GraphSuccessOutcome (output : Values) (route : option str) (session : option Session)
| GraphFailureOutcome (failure : str)
| GraphInterruptOutcome (request_payload : bytes).

Definition contract_fail_if (b : bool) (m : string) : result unit := raise_if b NodeExecutionContractError m.

(** [_success], [_failure], [_interrupt] *)
Definition success (output : Values) (route : option str) (session : option Session) : result NodeReturn :=
  contract_fail_if (match route with Some route => negb (is_canonical_identity route) | None => false end)
    "success route must be a non-empty trimmed string";;
  session ← match session with
    | None => Ok None
    | Some session => admitted ← except is_admission_error NodeExecutionContractError
                        "success outcome carries a malformed AgentSession" (admit_session_carrier session);
                      Ok (Some admitted)
    end;
  output ← require_graph_values output;
  Ok (GraphSuccessOutcome output route session).

Definition failure (reason : str) : result NodeReturn :=
  contract_fail_if (negb (is_canonical_identity reason)) "failure reason must be a non-empty trimmed string";;
  Ok (GraphFailureOutcome reason).

Definition interrupt (request_payload : bytes) : result NodeReturn := Ok (GraphInterruptOutcome request_payload).

(* ---------------------------------------------------------------- *)
(** ** [codec.py] *)

(** The encoder and decoder the caller supplies; [None] when they raise. *)
Record CodecFunctions := mkCodecFunctions {
  encoder : Values → option bytes;
  decoder : bytes → option Values
}.

(** [FrameCodec.encode] and [FrameCodec.decode] *)
Definition encode (codec : CodecFunctions) (values : Values) : result bytes :=
  values ← require_graph_values values;
  match encoder codec values with
  | Some payload => Ok payload
  | None => Raise (Exn GraphValueAdmissionError "frame encoder rejected the value frame")
  end.

Definition decode (codec : CodecFunctions) (payload : bytes) : result Values :=
  match decoder codec payload with
  | Some values => require_graph_values values
  | None => Raise (Exn GraphValueAdmissionError "frame decoder rejected its opaque payload")
  end.
End values.
