(* ===== verification/RunContext.v ===== *)
(** * The scoped frame index

    [execution/run_context.py]: coordinates of frames, the four partitions of an index in
    coordinate order, and what binds a scope to its graph state. *)

From Stdlib Require Import ZArith NArith Lia Bool String.
From stdpp Require Import prelude strings gmap sorting.
From S2P Require Import Prelude Identity Model Topology Routing Values.

Set Default Goal Selector "!".
Open Scope Z_scope.

(* ------------------------------------------------------------------ *)
(** ** Coordinates *)

Record ResumeInputAvailabilityCoordinate := mkResumeCoordinate {
  ric_activation : StableActivation;
  ric_descriptor : FrameDescriptorIdentity
}.
Record ChildBoundaryAvailabilityCoordinate := mkBoundaryCoordinate {
  cbc_child_scope_run : ScopeRunCoordinate;
  cbc_descriptor : FrameDescriptorIdentity
}.

#[export] Instance frame_kind_eq_dec : EqDecision FrameKind.
Proof. solve_decision. Defined.
#[export] Instance descriptor_identity_eq_dec : EqDecision FrameDescriptorIdentity.
Proof. solve_decision. Defined.
#[export] Instance input_coordinate_eq_dec : EqDecision GraphInputAvailabilityCoordinate.
Proof. solve_decision. Defined.
#[export] Instance publication_coordinate_eq_dec : EqDecision PublicationAvailabilityCoordinate.
Proof. solve_decision. Defined.
#[export] Instance resume_coordinate_eq_dec : EqDecision ResumeInputAvailabilityCoordinate.
Proof. solve_decision. Defined.
#[export] Instance boundary_coordinate_eq_dec : EqDecision ChildBoundaryAvailabilityCoordinate.
Proof. solve_decision. Defined.

Definition mismatch_fail_if (b : bool) (m : string) : result unit := raise_if b SnapshotMismatchError m.

(** The order of [@dataclass(order=True)]: fields as a tuple. *)
Definition kind_value (kind : FrameKind) : Z :=
  match kind with GRAPH_INPUT => 1 | NODE_INPUT => 2 | NODE_OUTPUT => 3 | GRAPH_OUTPUT => 4 end.
Definition descriptor_key (identity : FrameDescriptorIdentity) : str * (Z * (Z * Z)) :=
  (fdi_definition_id identity, (fdi_definition_version identity,
    (kind_value (fdi_frame_kind identity), fdi_owner_ordinal identity))).
Definition scope_run_key (scope_run : ScopeRunCoordinate) : list str * str := (scope scope_run, graph_run_id scope_run).
Definition stable_key (activation : StableActivation) : (list str * str) * (Z * str) :=
  (scope_run_key (sa_scope_run activation), (sa_superstep activation, sa_node_id activation)).

#[export] Instance input_coordinate_cmp : Cmp GraphInputAvailabilityCoordinate :=
  cmp_by (λ c, (scope_run_key (gic_scope_run c), descriptor_key (gic_descriptor c))).
#[export] Instance publication_coordinate_cmp : Cmp PublicationAvailabilityCoordinate :=
  cmp_by (λ c, (stable_key (pac_activation c), descriptor_key (pac_descriptor c))).
#[export] Instance resume_coordinate_cmp : Cmp ResumeInputAvailabilityCoordinate :=
  cmp_by (λ c, (stable_key (ric_activation c), descriptor_key (ric_descriptor c))).
#[export] Instance boundary_coordinate_cmp : Cmp ChildBoundaryAvailabilityCoordinate :=
  cmp_by (λ c, (scope_run_key (cbc_child_scope_run c), descriptor_key (cbc_descriptor c))).

(* ------------------------------------------------------------------ *)
(** ** Records *)

(** [ExecutionPublicationProvenance] is the execution token it wraps; the other records
    pair a coordinate with a frame. *)
Record AdmittedGraphInput (A C : Type) := mkAdmittedInput {
  agi_coordinate : GraphInputAvailabilityCoordinate;
  agi_frame : Frame A C
}.
Record ConfirmedPublication (A C : Type) := mkConfirmedPublication {
  cp_coordinate : PublicationAvailabilityCoordinate;
  cp_frame : Frame A C;
  cp_acknowledged_revision : Z;
  cp_provenance : GraphExecutionToken
}.
Record AdmittedResumeInput (A C S : Type) := mkAdmittedResume {
  ari_coordinate : ResumeInputAvailabilityCoordinate;
  ari_frame : NodeInputFrame A C S
}.
Record ConfirmedChildBoundary (A C : Type) := mkConfirmedBoundary {
  ccb_coordinate : ChildBoundaryAvailabilityCoordinate;
  ccb_frame : Frame A C
}.
Arguments mkAdmittedInput {_ _}.
Arguments agi_coordinate {_ _}.
Arguments agi_frame {_ _}.
Arguments mkConfirmedPublication {_ _}.
Arguments cp_coordinate {_ _}.
Arguments cp_frame {_ _}.
Arguments cp_acknowledged_revision {_ _}.
Arguments cp_provenance {_ _}.
Arguments mkAdmittedResume {_ _ _}.
Arguments ari_coordinate {_ _ _}.
Arguments ari_frame {_ _ _}.
Arguments mkConfirmedBoundary {_ _}.
Arguments ccb_coordinate {_ _}.
Arguments ccb_frame {_ _}.

(** [require_publication_confirmation] *)
Definition require_publication_confirmation (acknowledged_revision : Z) (provenance : GraphExecutionToken)
    : result GraphExecutionToken :=
  raise_if (acknowledged_revision <? 1) SnapshotMismatchError "publication has inconsistent coordinates";;
  except is_admission_error SnapshotMismatchError "publication has inconsistent execution provenance"
    (GraphExecutionToken_admit provenance).

(* ------------------------------------------------------------------ *)
(** ** Insertion in coordinate order *)

(** [bisect_left]: the binary search of the library. *)
Fixpoint bisect_loop {K} `{Cmp K} (fuel : nat) (xs : list K) (x : K) (lo hi : nat) : result nat :=
  if (lo <? hi)%nat then
    match fuel with
    | O => diverged
    | Datatypes.S fuel =>
        let mid := ((lo + hi) / 2)%nat in
        probe ← list_get xs mid;
        if cmp_ltb probe x then bisect_loop fuel xs x (mid + 1) hi else bisect_loop fuel xs x lo mid
    end
  else Ok lo.
Definition bisect_left {K} `{Cmp K} (xs : list K) (x : K) : result nat :=
  bisect_loop (length xs) xs x 0 (length xs).

(** [_insert_frame_record] *)
Definition insert_frame_record {R K} `{EqDecision K} `{Cmp K} (records : list R) (record : R) (coordinate : R → K)
    (duplicate_message : string) : result (list R) :=
  let record_coordinate := coordinate record in
  raise_if (existsb (λ existing, bool_decide (coordinate existing = record_coordinate)) records)
    GraphValuePublicationError duplicate_message;;
  position ← bisect_left (coordinate <$> records) record_coordinate;
  Ok (take position records ++ record :: drop position records).

(** [for record in records: if record.coordinate == coordinate: return record] *)
Definition find_record {R K} `{EqDecision K} (records : list R) (coordinate : R → K) (wanted : K) : result R :=
  match List.find (λ record, bool_decide (coordinate record = wanted)) records with
  | Some record => Ok record
  | None => Raise (Exn SnapshotMismatchError "continuation has no frame at coordinate")
  end.

(** [any(record.coordinate == coordinate for record in records)] *)
Definition has_record {R K} `{EqDecision K} (records : list R) (coordinate : R → K) (wanted : K) : bool :=
  existsb (λ record, bool_decide (coordinate record = wanted)) records.

(* ------------------------------------------------------------------ *)
(** ** [ScopedFrameIndex] *)

Record ScopedFrameIndex (A C S : Type) := mkIndex {
  ix_graph_inputs : list (AdmittedGraphInput A C);
  ix_publications : list (ConfirmedPublication A C);
  ix_resume_inputs : list (AdmittedResumeInput A C S);
  ix_child_boundaries : list (ConfirmedChildBoundary A C)
}.
Arguments mkIndex {_ _ _}.
Arguments ix_graph_inputs {_ _ _}.
Arguments ix_publications {_ _ _}.
Arguments ix_resume_inputs {_ _ _}.
Arguments ix_child_boundaries {_ _ _}.

(** The part of the [ScopedFrameAvailability] protocol that node inputs also use. *)
Class ResumeInputAvailability (F : Type) := {
  has_resume_input : F → ResumeInputAvailabilityCoordinate → bool
}.

Section index.
Context {A C S : Type}.
Implicit Types (frames : ScopedFrameIndex A C S).

Definition empty_index : ScopedFrameIndex A C S := mkIndex [] [] [] [].

#[export] Instance index_availability : ScopedFrameAvailability (ScopedFrameIndex A C S) := {|
  has_graph_input frames coordinate := has_record (ix_graph_inputs frames) agi_coordinate coordinate;
  has_publication frames coordinate := has_record (ix_publications frames) cp_coordinate coordinate
|}.
#[export] Instance index_resume_availability : ResumeInputAvailability (ScopedFrameIndex A C S) := {|
  has_resume_input frames coordinate := has_record (ix_resume_inputs frames) ari_coordinate coordinate
|}.
Definition has_child_boundary frames (coordinate : ChildBoundaryAvailabilityCoordinate) : bool :=
  has_record (ix_child_boundaries frames) ccb_coordinate coordinate.

(** [lookup], per partition. *)
Definition lookup_graph_input frames (coordinate : GraphInputAvailabilityCoordinate) : result (AdmittedGraphInput A C) :=
  find_record (ix_graph_inputs frames) agi_coordinate coordinate.
Definition lookup_publication frames (coordinate : PublicationAvailabilityCoordinate) : result (ConfirmedPublication A C) :=
  find_record (ix_publications frames) cp_coordinate coordinate.
Definition lookup_resume_input frames (coordinate : ResumeInputAvailabilityCoordinate) : result (AdmittedResumeInput A C S) :=
  find_record (ix_resume_inputs frames) ari_coordinate coordinate.
Definition lookup_child_boundary frames (coordinate : ChildBoundaryAvailabilityCoordinate)
    : result (ConfirmedChildBoundary A C) :=
  find_record (ix_child_boundaries frames) ccb_coordinate coordinate.

(** The frame of a value source. *)
Definition lookup_frame frames (coordinate : FrameCoordinate) : result (Frame A C) :=
  match coordinate with
  | InputCoordinate coordinate => record ← lookup_graph_input frames coordinate; Ok (agi_frame record)
  | PublicationCoordinate coordinate => record ← lookup_publication frames coordinate; Ok (cp_frame record)
  end.

Definition add_graph_input frames (record : AdmittedGraphInput A C) : result (ScopedFrameIndex A C S) :=
  records ← insert_frame_record (ix_graph_inputs frames) record agi_coordinate
    "graph input coordinate was admitted more than once";
  Ok (mkIndex records (ix_publications frames) (ix_resume_inputs frames) (ix_child_boundaries frames)).
Definition add_publication frames (record : ConfirmedPublication A C) : result (ScopedFrameIndex A C S) :=
  records ← insert_frame_record (ix_publications frames) record cp_coordinate
    "stable activation was published more than once";
  Ok (mkIndex (ix_graph_inputs frames) records (ix_resume_inputs frames) (ix_child_boundaries frames)).
Definition add_resume_input frames (record : AdmittedResumeInput A C S) : result (ScopedFrameIndex A C S) :=
  records ← insert_frame_record (ix_resume_inputs frames) record ari_coordinate
    "resume input coordinate was admitted more than once";
  Ok (mkIndex (ix_graph_inputs frames) (ix_publications frames) records (ix_child_boundaries frames)).
Definition add_child_boundary frames (record : ConfirmedChildBoundary A C) : result (ScopedFrameIndex A C S) :=
  records ← insert_frame_record (ix_child_boundaries frames) record ccb_coordinate
    "child boundary coordinate was confirmed more than once";
  Ok (mkIndex (ix_graph_inputs frames) (ix_publications frames) (ix_resume_inputs frames) records).
End index.

(* ------------------------------------------------------------------ *)
(** ** Scopes and states *)

Record ScopedStateBinding := mkStateBinding { ssb_scope_run : ScopeRunCoordinate; ssb_state : GraphRunState }.

(** [ScopedStateBinding.parent_activation] *)
Definition parent_activation (binding : ScopedStateBinding) : result (option StableActivation) :=
  let scope_run := ssb_scope_run binding in
  let state := ssb_state binding in
  raise_if (negb (bool_decide (st_run_id state = graph_run_id scope_run))) SnapshotMismatchError
    "scope-run coordinate does not match its graph state";;
  match st_parent state with
  | None =>
      raise_if (negb (is_nil (scope scope_run))) SnapshotMismatchError
        "nested graph state does not match its runtime scope: missing its parent activation";;
      Ok None
  | Some parent =>
      raise_if (is_nil (scope scope_run)) SnapshotMismatchError "root graph state cannot carry a parent activation";;
      activation ← parent_activation_for_child scope_run parent;
      Ok (Some activation)
  end.

(** [UncreatedGraphRun.__post_init__], which also rebuilds the coordinate. *)
Definition UncreatedGraphRun_new (scope_run : ScopeRunCoordinate) : result ScopeRunCoordinate :=
  raise_if (is_nil (scope scope_run)) SnapshotMismatchError
    "uncreated child evidence requires a nested scope-run coordinate";;
  ScopeRunCoordinate_new (scope scope_run) (graph_run_id scope_run).
