(* ===== verification/RunContextProofs.v ===== *)
(** * The frame index is four finite maps

    Each partition of a [ScopedFrameIndex] stays in strict coordinate order, so that the
    binary search of [_insert_frame_record] finds the place of a new record; adding is then
    insertion into a finite map that refuses a known key. *)

From Stdlib Require Import ZArith NArith Lia Bool String.
From stdpp Require Import prelude strings gmap sorting.
From S2P Require Import Prelude Identity Model Topology Routing Values RunContext.

Set Default Goal Selector "!".
Open Scope Z_scope.

(* ------------------------------------------------------------------ *)
(** ** Coordinates are totally ordered *)

#[export] Instance kind_value_inj : Inj (=) (=) kind_value.
Proof. by intros [] []. Qed.
#[export] Instance descriptor_key_inj : Inj (=) (=) descriptor_key.
Proof. intros [] [] [= -> -> ?%(inj kind_value) ->]. by simplify_eq. Qed.
#[export] Instance scope_run_key_inj : Inj (=) (=) scope_run_key.
Proof. intros [] []. by intros [= -> ->]. Qed.
#[export] Instance stable_key_inj : Inj (=) (=) stable_key.
Proof. intros [] []. unfold stable_key; cbn. rewrite !pair_equal_spec. by intros [->%(inj scope_run_key) [-> ->]]. Qed.

Ltac coordinate_laws :=
  apply cmp_by_laws; intros [] []; rewrite pair_equal_spec; intros [?%(inj _) ?%(inj _)]; cbn in *; by subst.
#[export] Instance input_coordinate_laws : CmpLaws GraphInputAvailabilityCoordinate.
Proof. coordinate_laws. Qed.
#[export] Instance publication_coordinate_laws : CmpLaws PublicationAvailabilityCoordinate.
Proof. coordinate_laws. Qed.
#[export] Instance resume_coordinate_laws : CmpLaws ResumeInputAvailabilityCoordinate.
Proof. coordinate_laws. Qed.
#[export] Instance boundary_coordinate_laws : CmpLaws ChildBoundaryAvailabilityCoordinate.
Proof. coordinate_laws. Qed.

(* ------------------------------------------------------------------ *)
(** ** Binary search *)

Lemma StronglySorted_lookup {A} (R : relation A) xs : StronglySorted R xs →
  ∀ i j y z, (i < j)%nat → xs !! i = Some y → xs !! j = Some z → R y z.
Proof.
  induction 1 as [|x xs Hs IH Hx]; intros i [|j] y z; [done..|lia|]. intros Hij Hy Hz.
  destruct i as [|i]; [|by eapply (IH i j); [lia|..]]. simplify_eq/=.
  rewrite Forall_forall in Hx. by eapply Hx, list_elem_of_lookup_2.
Qed.

Section bisect.
Context {K : Type} `{CmpLaws K}.

Lemma cmp_not_lt (x y : K) : ¬ cmp_lt x y → cmp_lt y x ∨ y = x.
Proof.
  unfold cmp_lt. rewrite (cmp_antisym y x). destruct (cmp y x) eqn:E; cbn; [|by left|done].
  intros _. right. by apply cmp_eq.
Qed.

(** The records before [p] are below [x] and those from [p] on are not. *)
Record insertion_point (xs : list K) (x : K) (p : nat) : Prop := {
  ip_bound : (p ≤ length xs)%nat;
  ip_below : ∀ i y, (i < p)%nat → xs !! i = Some y → cmp_lt y x;
  ip_above : ∀ i y, (p ≤ i)%nat → xs !! i = Some y → ¬ cmp_lt y x
}.

(** The bounds of the search stay around the insertion point and close in on it. *)
Lemma bisect_loop_spec fuel (xs : list K) x : StronglySorted cmp_lt xs → ∀ lo hi : nat,
  (lo ≤ hi ≤ length xs)%nat → (hi - lo ≤ fuel)%nat →
  (∀ i y, (i < lo)%nat → xs !! i = Some y → cmp_lt y x) →
  (∀ i y, (hi ≤ i)%nat → xs !! i = Some y → ¬ cmp_lt y x) →
  ∃ p, bisect_loop fuel xs x lo hi = Ok p ∧ insertion_point xs x p.
Proof.
  intros Hs. assert (∀ i j y z, (i ≤ j)%nat → xs !! i = Some y → xs !! j = Some z → y = z ∨ cmp_lt y z) as Hmono.
  { intros i j y z ???. destruct (decide (i = j)) as [->|]; [left; congruence|right].
    eapply StronglySorted_lookup; [exact Hs| |eassumption..]. lia. }
  induction fuel as [|fuel IH]; intros lo hi Hb Hf Hlo Hhi; cbn [bisect_loop];
    (destruct (lo <? hi)%nat eqn:E; [apply Nat.ltb_lt in E|apply Nat.ltb_ge in E]); [lia|
      | |]; try (assert (lo = hi) as -> by lia; exists hi; split; [done|]; split; [lia|done..]).
  pose proof (Nat.div_mod_eq (lo + hi) 2). pose proof (Nat.mod_upper_bound (lo + hi) 2 ltac:(lia)).
  remember ((lo + hi) / 2)%nat as mid eqn:Emid; clear Emid.
  destruct (lookup_lt_is_Some_2 xs mid) as [y Hy]; [lia|].
  rewrite (proj2 (list_get_Ok _ _ _) Hy). cbn.
  destruct (cmp_ltb y x) eqn:Ec; apply IH; [lia|lia| |done|lia|lia|done|].
  - apply cmp_ltb_spec in Ec. intros i z Hi Hz.
    destruct (Hmono i mid z y) as [->|Hlt]; [lia|done..|]. by etrans.
  - intros i z Hi Hz Hlt. apply not_true_iff_false in Ec. destruct Ec. apply cmp_ltb_spec.
    destruct (Hmono mid i y z) as [->|]; [lia|done..|]. by etrans.
Qed.

Lemma bisect_left_spec (xs : list K) x : StronglySorted cmp_lt xs →
  ∃ p, bisect_left xs x = Ok p ∧ insertion_point xs x p.
Proof.
  intros Hs. apply bisect_loop_spec; [done|lia|lia|intros; lia|].
  intros i y Hi Hy%lookup_lt_Some. lia.
Qed.
End bisect.

(* ------------------------------------------------------------------ *)
(** ** One partition *)

Section partition.
Context {R K : Type} `{EqDecision K} `{CmpLaws K} (coordinate : R → K).
Implicit Types (records : list R).

Lemma has_record_spec records c : has_record records coordinate c = true ↔ c ∈ coordinate <$> records.
Proof.
  unfold has_record. rewrite existsb_true_iff, list_elem_of_fmap. setoid_rewrite bool_decide_eq_true. naive_solver.
Qed.

Lemma find_record_Ok records c r :
  NoDup (coordinate <$> records) → find_record records coordinate c = Ok r ↔ r ∈ records ∧ coordinate r = c.
Proof.
  unfold find_record. induction records as [|x records IH]; cbn.
  { intros _. split; [done|]. intros [?%not_elem_of_nil ?]. done. }
  intros [Hx Hnd]%NoDup_cons. specialize (IH Hnd). case_bool_decide as Hc.
  - split; [intros [= <-]; split; [left|done]|]. intros [[->|Hin]%elem_of_cons Hr]; [done|].
    destruct Hx. apply list_elem_of_fmap. exists r. naive_solver.
  - rewrite IH, elem_of_cons. naive_solver.
Qed.

Lemma find_record_Raise records c e :
  find_record records coordinate c = Raise e →
  c ∉ coordinate <$> records ∧ e = Exn SnapshotMismatchError "continuation has no frame at coordinate".
Proof.
  unfold find_record. destruct (List.find _ _) eqn:E; [done|]. intros [= <-]. split; [|done].
  intros (r & -> & Hr)%list_elem_of_fmap. apply list_elem_of_In in Hr.
  eapply List.find_none in E; [|exact Hr]. by rewrite bool_decide_eq_false in E.
Qed.

Lemma has_record_find records c : has_record records coordinate c = true ↔ ∃ r, find_record records coordinate c = Ok r.
Proof.
  rewrite has_record_spec. destruct (find_record _ _ c) as [r|e] eqn:E.
  - split; [by eexists|]. intros _. unfold find_record in E. destruct (List.find _ _) as [r'|] eqn:Ef; [|done].
    apply List.find_some in Ef as [Hin%list_elem_of_In <-%bool_decide_eq_true]. by apply list_elem_of_fmap_2.
  - apply find_record_Raise in E as [Hn _]. split; [done|]. by intros [].
Qed.

(** A record is inserted as into a finite map from coordinates: a known coordinate is
    refused, and a new one is bound to the record and to nothing else. *)
Definition inserted (records : list R) (record : R) (records' : result (list R)) : Prop :=
  match records' with
  | Raise e => coordinate record ∈ coordinate <$> records ∧ exn_kind e = GraphValuePublicationError
  | Ok records' => coordinate record ∉ coordinate <$> records ∧ strictly_sorted coordinate records'
      ∧ records' ≡ₚ record :: records
      ∧ ∀ c, find_record records' coordinate c
             = if bool_decide (c = coordinate record) then Ok record else find_record records coordinate c
  end.

Lemma find_record_perm records records' c : records ≡ₚ records' → NoDup (coordinate <$> records) →
  find_record records coordinate c = find_record records' coordinate c.
Proof.
  intros Hp Hnd. assert (NoDup (coordinate <$> records')) as Hnd' by (by rewrite <- Hp).
  destruct (find_record records' _ c) as [r|e] eqn:E.
  - apply find_record_Ok in E as [Hr <-]; [|done]. apply find_record_Ok; [done|]. by rewrite Hp.
  - apply find_record_Raise in E as [Hn ->]. destruct (find_record records _ c) as [r|e] eqn:E'.
    + apply find_record_Ok in E' as [Hr <-]; [|done]. destruct Hn. apply list_elem_of_fmap_2. by rewrite <- Hp.
    + by apply find_record_Raise in E' as [_ ->].
Qed.

Lemma insert_frame_record_inserted records record message : strictly_sorted coordinate records →
  inserted records record (insert_frame_record records record coordinate message).
Proof.
  intros Hs. unfold insert_frame_record.
  change (existsb _ records) with (has_record records coordinate (coordinate record)).
  destruct (has_record _ _ _) eqn:Eh; cbn.
  { by apply has_record_spec in Eh. }
  assert (coordinate record ∉ coordinate <$> records) as Hnew.
  { intros Hin%has_record_spec. congruence. }
  assert (StronglySorted cmp_lt (coordinate <$> records)) as Hs'.
  { clear -Hs. induction Hs as [|x xs Hs IH Hx]; cbn; constructor; [done|]. by apply Forall_fmap. }
  destruct (bisect_left_spec _ (coordinate record) Hs') as (p & -> & [Hp Hlo Hhi]). cbn.
  assert (take p records ++ record :: drop p records ≡ₚ record :: records) as Hperm.
  { rewrite <- Permutation_middle. by rewrite take_drop. }
  assert (strictly_sorted coordinate (take p records ++ record :: drop p records)) as Hsorted.
  { unfold strictly_sorted in *. rewrite <- (take_drop p records) in Hs.
    apply StronglySorted_app in Hs as (Hcross & Ht & Hd).
    assert (∀ r, r ∈ take p records → cmp_lt (coordinate r) (coordinate record)) as Hbelow.
    { intros r (i & Hi)%list_elem_of_lookup. apply lookup_take_Some in Hi as [Hi ?].
      apply (Hlo i); [done|]. by rewrite list_lookup_fmap, Hi. }
    apply StronglySorted_app. split; [|split; [done|]].
    - intros x y Hx [->|Hy]%elem_of_cons; [by apply Hbelow|by apply Hcross].
    - constructor; [done|]. apply Forall_forall. intros r (i & Hi)%list_elem_of_lookup.
      rewrite lookup_drop in Hi. assert (r ∈ records) by (by eapply list_elem_of_lookup_2).
      pose proof (Hhi (p + i)%nat (coordinate r) ltac:(lia)) as Hge.
      rewrite list_lookup_fmap, Hi in Hge. specialize (Hge eq_refl).
      apply cmp_not_lt in Hge as [?|Ec]; [done|]. destruct Hnew. rewrite Ec. by apply list_elem_of_fmap_2. }
  split; [done|]. split; [done|]. split; [done|]. intros c.
  rewrite (find_record_perm _ _ _ Hperm); [|by eapply strictly_sorted_NoDup_key].
  unfold find_record at 1. cbn. case_bool_decide as Hc; case_bool_decide; naive_solver.
Qed.

Lemma insert_new records record message :
  strictly_sorted coordinate records → has_record records coordinate (coordinate record) = false →
  ∃ records', insert_frame_record records record coordinate message = Ok records' ∧ strictly_sorted coordinate records'
    ∧ records' ≡ₚ record :: records
    ∧ ∀ c, find_record records' coordinate c
           = if bool_decide (c = coordinate record) then Ok record else find_record records coordinate c.
Proof.
  intros Hs Hh. pose proof (insert_frame_record_inserted records record message Hs) as Hi.
  destruct (insert_frame_record _ _ _ _) as [records'|e]; [naive_solver|].
  destruct Hi as [Hin%has_record_spec _]. congruence.
Qed.
End partition.

(* ------------------------------------------------------------------ *)
(** ** The index *)

Section index.
Context {A C S : Type}.
Implicit Types (frames : ScopedFrameIndex A C S).

(** Every partition is in strict coordinate order. *)
Record index_ok frames : Prop := {
  ixo_inputs : strictly_sorted agi_coordinate (ix_graph_inputs frames);
  ixo_publications : strictly_sorted cp_coordinate (ix_publications frames);
  ixo_resumes : strictly_sorted ari_coordinate (ix_resume_inputs frames);
  ixo_boundaries : strictly_sorted ccb_coordinate (ix_child_boundaries frames)
}.

Lemma empty_index_ok : index_ok empty_index.
Proof. split; constructor. Qed.

(** One operation that adds a record to an index. *)
Inductive Addition :=
| AddInput (record : AdmittedGraphInput A C)
| AddPublication (record : ConfirmedPublication A C)
| AddResume (record : AdmittedResumeInput A C S)
| AddBoundary (record : ConfirmedChildBoundary A C).

Definition add frames (addition : Addition) : result (ScopedFrameIndex A C S) :=
  match addition with
  | AddInput record => add_graph_input frames record
  | AddPublication record => add_publication frames record
  | AddResume record => add_resume_input frames record
  | AddBoundary record => add_child_boundary frames record
  end.

Definition known frames (addition : Addition) : bool :=
  match addition with
  | AddInput record => has_graph_input frames (agi_coordinate record)
  | AddPublication record => has_publication frames (cp_coordinate record)
  | AddResume record => has_resume_input frames (ari_coordinate record)
  | AddBoundary record => has_child_boundary frames (ccb_coordinate record)
  end.

(** The four lookups of [frames'] are those of [frames] with the record bound. *)
Record bound frames (addition : Addition) frames' : Prop := {
  bd_input c : lookup_graph_input frames' c =
    match addition with
    | AddInput r => if bool_decide (c = agi_coordinate r) then Ok r else lookup_graph_input frames c
    | _ => lookup_graph_input frames c end;
  bd_publication c : lookup_publication frames' c =
    match addition with
    | AddPublication r => if bool_decide (c = cp_coordinate r) then Ok r else lookup_publication frames c
    | _ => lookup_publication frames c end;
  bd_resume c : lookup_resume_input frames' c =
    match addition with
    | AddResume r => if bool_decide (c = ari_coordinate r) then Ok r else lookup_resume_input frames c
    | _ => lookup_resume_input frames c end;
  bd_boundary c : lookup_child_boundary frames' c =
    match addition with
    | AddBoundary r => if bool_decide (c = ccb_coordinate r) then Ok r else lookup_child_boundary frames c
    | _ => lookup_child_boundary frames c end
}.

Lemma add_Raise frames addition : index_ok frames → known frames addition = true →
  ∃ message, add frames addition = Raise (Exn GraphValuePublicationError message).
Proof.
  intros _. destruct addition; cbn; unfold has_child_boundary, has_record; intros Hk;
    unfold add_graph_input, add_publication, add_resume_input, add_child_boundary, insert_frame_record; rewrite Hk; by eexists.
Qed.

Lemma add_Ok frames addition : index_ok frames → known frames addition = false →
  ∃ frames', add frames addition = Ok frames' ∧ index_ok frames' ∧ bound frames addition frames'.
Proof.
  intros [Hi Hp Hr Hb]. destruct addition; cbn; intros Hk;
    unfold add_graph_input, add_publication, add_resume_input, add_child_boundary;
    (match goal with |- context [insert_frame_record ?rs ?r ?c ?m] =>
       destruct (insert_new c rs r m) as (records' & -> & Hs & _ & Hf); [done|exact Hk|] end);
    (eexists; split; [done|]; split; split; cbn; done).
Qed.

(** The addition of an index built from nothing, one record after another. *)
Definition build_index (additions : list Addition) : result (ScopedFrameIndex A C S) :=
  py_for_state additions empty_index add.

Lemma build_index_ok additions frames : build_index additions = Ok frames → index_ok frames.
Proof.
  intros Hb. unfold build_index in Hb.
  refine (py_for_state_prefix (λ _, index_ok) add _ additions empty_index frames empty_index_ok Hb).
  intros dn addition fs fs' Hok Hadd. destruct (known fs addition) eqn:Ek.
  - destruct (add_Raise _ _ Hok Ek) as [m E]. congruence.
  - destruct (add_Ok _ _ Hok Ek) as (fs'' & E & Hok' & _). congruence.
Qed.

(** C22: the scoped frame index is four finite maps from coordinates.  Whatever records were
    added to an empty index, every partition is in strict coordinate order, and the next
    addition is refused with [GraphValuePublicationError] exactly when its coordinate is
    known; otherwise the binary search terminates, the order is kept, looking up the new
    coordinate returns the record, and every other lookup of all four partitions, found or
    absent, answers as before. *)
Theorem index_is_finite_maps additions frames addition :
  build_index additions = Ok frames →
  index_ok frames ∧
  match add frames addition with
  | Raise e => known frames addition = true ∧ exn_kind e = GraphValuePublicationError
  | Ok frames' => known frames addition = false ∧ index_ok frames' ∧ bound frames addition frames'
  end.
Proof.
  intros Hok%build_index_ok. split; [done|]. destruct (known frames addition) eqn:Ek.
  - by destruct (add_Raise _ _ Hok Ek) as [m ->].
  - by destruct (add_Ok _ _ Hok Ek) as (frames' & -> & Hok' & Hb).
Qed.
End index.

(* ------------------------------------------------------------------ *)
(** ** A concrete index *)

Definition demo_publication (node_id : str) (value : Z) : ConfirmedPublication Z Z :=
  mkConfirmedPublication
    (mkPublicationCoordinate (mkStable (mkScopeRun [] (lit "run")) 0 node_id)
       (mkFrameIdentity (lit "graph") 1 NODE_OUTPUT 0))
    (mkFrame [(lit "value", value)] None) 1 (mkToken 1 (lit "attempt")).
Definition demo_additions : list (Addition (A := Z) (C := Z) (S := Z)) :=
  AddPublication ∘ uncurry demo_publication <$> [(lit "b", 2); (lit "a", 1); (lit "c", 3)].

Lemma index_is_finite_maps_witness :
  ∃ frames, build_index demo_additions = Ok frames
    ∧ match add frames (AddPublication (demo_publication (lit "bb") 4)) with
      | Ok frames' => lookup_publication frames' (cp_coordinate (demo_publication (lit "bb") 0))
                      = Ok (demo_publication (lit "bb") 4)
                      ∧ (fr_entries ∘ cp_frame <$> ix_publications frames')
                        = (λ v, [(lit "value", v)]) <$> [1; 2; 4; 3]
      | Raise _ => False end.
Proof.
  destruct (build_index demo_additions) as [frames|] eqn:E; [|by vm_compute in E].
  exists frames. split; [done|].
  pose proof (index_is_finite_maps demo_additions frames (AddPublication (demo_publication (lit "bb") 4)) E) as [_ Hadd].
  vm_compute in E. injection E as <-.
  destruct (add _ _) as [frames'|] eqn:E; [|destruct Hadd as [Hk _]; by vm_compute in Hk].
  destruct Hadd as (_ & _ & Hbound). split; [rewrite (bd_publication _ _ _ Hbound); by vm_compute|].
  vm_compute in E. by injection E as <-.
Defined.
