(* ===== verification/Materialization.v ===== *)
(** * Node inputs

    [execution/engine/resume_input.py]: which frames a pending node reads, whether they
    are there, and the input frame they make; and the boundaries of a graph in
    [execution/engine/admission.py]. *)

From Stdlib Require Import ZArith NArith Lia Bool String.
From stdpp Require Import prelude strings gmap sorting.
From S2P Require Import Prelude Identity Resources Model Topology Routing Engine Values RunContext.

Set Default Goal Selector "!".
Open Scope Z_scope.

Section materialization.
Context {A V W C S : Type} `{ValueTypes A V W} `{Configs C} `{EqDecision S}.
(** The encoder and decoder of the graph's resume codec. *)
Context (codec : CodecFunctions (A := A) (C := C) (S := S)).
Implicit Types (graph : CompiledGraph V) (state : GraphRunState) (frames : ScopedFrameIndex A C S).
Notation Session := (AgentSession C S).

(** [_require_node_materialization] *)
Definition require_node_materialization graph (node_id : str) : result (MaterializationPlan V) :=
  match map_get (materializations (transition graph)) node_id with
  | Ok plan => Ok plan
  | Raise _ => Raise (Exn SnapshotMismatchError "node input references an unknown compiled materialization")
  end.

(** [_resume_input_coordinate] *)
Definition resume_input_coordinate (activation : StableActivation) (plan : MaterializationPlan V)
    : ResumeInputAvailabilityCoordinate :=
  mkResumeCoordinate activation (fd_identity (mp_descriptor plan)).

(** [any(isinstance(binding.source, CompiledPredecessorInput) ...)] *)
Definition has_predecessor (plan : MaterializationPlan V) : bool :=
  existsb (λ binding, match rib_source binding with PredecessorInput _ => true | ResolvedValue _ => false end)
    (mp_bindings plan).

(** [_select_activation_config] *)
Definition select_activation_config (candidates : list (option C)) (conflict_message : string) : result (option C) :=
  py_for_state candidates None (λ selected candidate,
    match candidate with
    | None => Ok selected
    | Some config =>
        admission_fail_if (negb (config_ok config)) "activation Config is malformed";;
        match selected with
        | None => Ok candidate
        | Some chosen => raise_if (negb (bool_decide (chosen = config))) SnapshotMismatchError conflict_message;; Ok selected
        end
    end).

(** [encode_resume_input] *)
Definition encode_resume_input graph (values : GraphValues A C S) : result bytes :=
  match resume_input graph with
  | None => Raise (Exn SnapshotMismatchError "graph does not define a resume input codec")
  | Some _ => encode codec values
  end.

(** [decode_resume_input] *)
Definition decode_resume_input graph (node_id : str) (payload : bytes) (activation_config : option C)
    (session : option Session) : result (NodeInputFrame A C S) :=
  match resume_input graph with
  | None => Raise (Exn SnapshotMismatchError "input override is missing its compiled graph decoder")
  | Some _ =>
      candidate ← decode codec payload;
      plan ← require_node_materialization graph node_id;
      inherited ← select_activation_config [activation_config; gv_activation_config candidate]
        "resume input and activation cause carry different Config snapshots";
      make_node_input_frame (gv_entries candidate) (fd_declarations (mp_descriptor plan)) inherited session
  end.

(** [_cause_coordinates] *)
Definition cause_coordinates graph (scope_run : ScopeRunCoordinate) (node : GraphFrontierNode) : result (list FrameCoordinate) :=
  match fn_cause node with
  | StartActivationCause => Ok [InputCoordinate (graph_input_availability_coordinate graph scope_run)]
  | RoutedActivationCause references _ =>
      except (one_of [AttributeError; KeyError; TypeError]) SnapshotMismatchError
        "pending activation cause references an unknown publication"
        (mapM (λ reference, coordinate ← publication_availability_coordinate graph scope_run (ref_activation reference);
                            Ok (PublicationCoordinate coordinate)) references)
  end.

(** [activation_config_for_cause]: an absent frame is skipped. *)
Definition activation_config_for_cause graph (scope_run : ScopeRunCoordinate) (node : GraphFrontierNode) frames
    : result (option C) :=
  coordinates ← cause_coordinates graph scope_run node;
  candidates ← py_for_state coordinates [] (λ candidates coordinate,
    try_or (one_of [SnapshotMismatchError]) (lookup_frame frames coordinate) (λ _, Ok candidates)
      (λ frame, Ok (candidates ++ [fr_activation_config frame])));
  select_activation_config candidates "node inputs combine different activation Config snapshots".

(** [_materialization_config] *)
Definition materialization_config (candidates : list (option C)) (owner_session : option Session) : result (option C) :=
  match owner_session with
  | None => select_activation_config candidates "node inputs combine different activation Config snapshots"
  | Some session =>
      py_for candidates (λ candidate,
        match candidate with
        | None => Ok tt
        | Some _ => _ ← select_activation_config [candidate] "historical node input Config is malformed"; Ok tt
        end);;
      select_activation_config [se_config session] "owner AgentSession Config is malformed"
  end.

(** The coordinate of one binding, with routing errors reported as a snapshot mismatch. *)
Definition binding_coordinate graph (state : option GraphRunState) (scope_run : ScopeRunCoordinate) (superstep : Z)
    (binding : ResolvedInputBinding V) (cause : option GraphActivationCause) : result (ResolvedValueSource * FrameCoordinate) :=
  except_str (one_of [InvalidRoutingCommandError]) SnapshotMismatchError
    (binding_source_coordinate graph state scope_run superstep binding cause).

(** [all] over bindings: the first unavailable one ends the loop. *)
Fixpoint all_available {F} `{ScopedFrameAvailability F} graph (state : option GraphRunState) (scope_run : ScopeRunCoordinate) (superstep : Z)
    (cause : option GraphActivationCause) (frames : F) (bindings : list (ResolvedInputBinding V)) : result bool :=
  match bindings with
  | [] => Ok true
  | binding :: rest =>
      '(_, coordinate) ← binding_coordinate graph state scope_run superstep binding cause;
      if frame_coordinate_available frames coordinate then all_available graph state scope_run superstep cause frames rest
      else Ok false
  end.

(** [node_inputs_available] *)
Definition node_inputs_available {F} `{ScopedFrameAvailability F} graph (scope_run : ScopeRunCoordinate) (activation_superstep : Z)
    (frames : F) (node_id : str) (state : option GraphRunState) : result bool :=
  plan ← require_node_materialization graph node_id;
  cause ← match state with
    | None => raise_if (has_predecessor plan) SnapshotMismatchError
                "predecessor input availability requires authoritative graph state";; Ok None
    | Some state =>
        let node := frontier_node (st_frontier state) node_id in
        raise_if (negb (bool_decide (st_run_id state = graph_run_id scope_run))) SnapshotMismatchError
          "predecessor input availability scope does not match authoritative state";;
        raise_if (has_predecessor plan && negb (activation_superstep =? st_superstep state)) SnapshotMismatchError
          "predecessor input availability coordinate does not match authoritative state";;
        match node with
        | None => raise_if (has_predecessor plan) SnapshotMismatchError
                    "predecessor-bound activation is not present in the current frontier";; Ok None
        | Some node => Ok (Some (fn_cause node))
        end
    end;
  all_available graph state scope_run activation_superstep cause frames (mp_bindings plan).

(** [pending_node_input_available] *)
Definition pending_node_input_available {F} `{ScopedFrameAvailability F} `{ResumeInputAvailability F} graph state
    (scope_run : ScopeRunCoordinate) (frames : F) (node_id : str) : result bool :=
  match frontier_node (st_frontier state) node_id with
  | Some (mkFrontierNode _ (PendingGraphNode input) _) =>
      plan ← require_node_materialization graph node_id;
      match input with
      | OverrideGraphNodeInput _ =>
          raise_if (has_predecessor plan) SnapshotMismatchError "predecessor-bound activation cannot use an input override";;
          Ok true
      | _ =>
          identity ← GraphActivationIdentity_new (st_run_id state) (st_superstep state) node_id;
          activation ← stable_activation scope_run identity;
          if negb (has_predecessor plan) && has_resume_input frames (resume_input_coordinate activation plan) then Ok true
          else node_inputs_available graph scope_run (st_superstep state) frames node_id (Some state)
      end
  | _ => Raise (Exn SnapshotMismatchError "input availability requires a current pending node")
  end.

(** The name a binding reads from the frame of its source. *)
Definition source_value_name (source : ResolvedValueSource) : str :=
  match source with FromGraphInput port => gi_name port | FromNodeOutput port => no_output_name port end.

(** The value and the Config that one resolved binding contributes. *)
Definition read_binding frames (resolved : ResolvedValueSource * FrameCoordinate * ResolvedInputBinding V)
    : result ((str * A) * option C) :=
  let '(source, coordinate, binding) := resolved in
  frame ← except (one_of [SnapshotMismatchError]) GraphValueUnavailableError "a bound value is unavailable"
    (lookup_frame frames coordinate);
  value ← frame_value (fr_entries frame) (source_value_name source);
  Ok ((ni_local_name (rib_destination binding), value), fr_activation_config frame).

(** [materialize_node_input] *)
Definition materialize_node_input graph state (scope_run : ScopeRunCoordinate) frames (node_id : str)
    (owner_session : option Session) : result (NodeInputFrame A C S) :=
  require_resume_input_binding graph state;;
  raise_if (negb (bool_decide (st_run_id state = graph_run_id scope_run))) SnapshotMismatchError
    "node materialization scope does not match authoritative state";;
  match frontier_node (st_frontier state) node_id with
  | Some (mkFrontierNode _ (PendingGraphNode effective_input) cause as node) =>
      identity ← GraphActivationIdentity_new (st_run_id state) (st_superstep state) node_id;
      activation ← stable_activation scope_run identity;
      plan ← require_node_materialization graph node_id;
      match effective_input with
      | OverrideGraphNodeInput payload =>
          raise_if (has_predecessor plan) SnapshotMismatchError "predecessor-bound activation cannot use an input override";;
          inherited_config ← activation_config_for_cause graph scope_run node frames;
          effective_config ← materialization_config [inherited_config] owner_session;
          decode_resume_input graph node_id payload effective_config owner_session
      | _ =>
          let cached := if has_predecessor plan then None
                        else match lookup_resume_input frames (resume_input_coordinate activation plan) with
                             | Ok record => Some (ari_frame record)
                             | Raise _ => None end in
          match cached with
          | Some cached =>
              inherited_config ← activation_config_for_cause graph scope_run node frames;
              effective_config ← materialization_config [inherited_config; nf_activation_config cached] owner_session;
              make_node_input_frame (nf_entries cached) (fd_declarations (mp_descriptor plan)) effective_config owner_session
          | None =>
              resolved ← mapM (λ binding,
                '(source, coordinate) ← binding_coordinate graph (Some state) scope_run (st_superstep state) binding (Some cause);
                Ok (source, coordinate, binding)) (mp_bindings plan);
              read ← mapM (read_binding frames) resolved;
              inherited_config ← activation_config_for_cause graph scope_run node frames;
              effective_config ← materialization_config (inherited_config :: (snd <$> read)) owner_session;
              make_node_input_frame (fst <$> read) (fd_declarations (mp_descriptor plan)) effective_config owner_session
          end
      end
  | _ => Raise (Exn SnapshotMismatchError "effective input requires a current pending node")
  end.
(* ---------------------------------------------------------------- *)
(** ** Graph boundaries: [engine/admission.py] *)

(** [admit_graph_input] *)
Definition admit_graph_input graph (values : GraphValues A C S) (activation_config : option C) (session : option Session)
    : result (Frame A C) :=
  values ← require_graph_values values;
  make_graph_input_frame values (fd_declarations (graph_input_descriptor graph)) activation_config session.

(** [admit_child_graph_input] *)
Definition admit_child_graph_input graph (frame : NodeInputFrame A C S) : result (Frame A C) :=
  graph_input_from_node_input frame (fd_declarations (graph_input_descriptor graph)).

(** The Config of one more source, unless a Session owns it. *)
Definition merge_output_config (activation_config candidate_config : option C) : result (option C) :=
  match candidate_config with
  | None => Ok activation_config
  | Some _ =>
      admission_fail_if (negb (bool_decide (activation_config = None)) && negb (bool_decide (activation_config = candidate_config)))
        "graph output sources carry different activation Config snapshots";;
      Ok candidate_config
  end.

(** One graph output: its value, and the Config so far. *)
Definition project_output graph (scope_run : ScopeRunCoordinate) (completion_superstep : Z) frames (owner_bound : bool)
    (state : list (str * A) * option C) (binding : GraphOutputBinding V) : result (list (str * A) * option C) :=
  let '(entries, activation_config) := state in
  let source := gob_source binding in
  coordinate ← source_availability_coordinate graph scope_run source (gob_publication binding) completion_superstep
    (Exn GraphValueAdmissionError "compiled graph output binding lacks its activation selection");
  frame ← match source with
    | FromGraphInput _ => lookup_frame frames coordinate
    | FromNodeOutput _ => except (one_of [SnapshotMismatchError]) GraphValueAdmissionError
                            "graph output source is unavailable" (lookup_frame frames coordinate)
    end;
  value ← frame_value (fr_entries frame) (source_value_name source);
  activation_config ← (if owner_bound then Ok activation_config
                       else merge_output_config activation_config (fr_activation_config frame));
  Ok (entries ++ [(go_boundary_name (gob_destination binding), value)], activation_config).

(** The frames of the last superstep, which carry the Config of a graph without outputs. *)
Definition terminal_frames (scope_run : ScopeRunCoordinate) (completion_superstep : Z) frames : list (Frame A C) :=
  (cp_frame <$> List.filter (λ record,
     bool_decide (sa_scope_run (pac_activation (cp_coordinate record)) = scope_run)
     && (sa_superstep (pac_activation (cp_coordinate record)) =? completion_superstep)) (ix_publications frames))
  ++ (if completion_superstep =? 0
      then agi_frame <$> List.filter (λ record, bool_decide (gic_scope_run (agi_coordinate record) = scope_run)) (ix_graph_inputs frames)
      else [])
  ++ (ccb_frame <$> List.filter (λ record, bool_decide (cbc_child_scope_run (ccb_coordinate record) = scope_run))
        (ix_child_boundaries frames)).

(** [project_graph_outputs] *)
Definition project_graph_outputs graph (scope_run : ScopeRunCoordinate) (completion_superstep : Z) frames
    (owner_session : option Session) : result (Frame A C) :=
  let owner_bound := bool_decide (is_Some owner_session) in
  '(entries, activation_config) ← py_for_state (graph_outputs (transition graph))
    ([], match owner_session with Some session => se_config session | None => None end)
    (project_output graph scope_run completion_superstep frames owner_bound);
  activation_config ← (if negb owner_bound && bool_decide (activation_config = None)
    then py_for_state (terminal_frames scope_run completion_superstep frames) activation_config
           (λ activation_config frame, merge_output_config activation_config (fr_activation_config frame))
    else Ok activation_config);
  make_graph_output_view entries (fd_declarations (graph_output_descriptor graph)) activation_config.
End materialization.
