(* ===== verification/Superstep.v ===== *)
(** * Preparing one superstep

    [execution/engine/frontier.py], [superstep.py], [execution/claim.py],
    [execution/graph_run.py] and [execution/executor.py], with the results and requests of
    [result.py] and [request.py] they exchange. *)

From Stdlib Require Import ZArith NArith Lia Bool String.
From stdpp Require Import prelude strings gmap sorting.
From S2P Require Import Prelude Identity Resources Model Transitions Reducer Topology Routing Engine Values RunContext Materialization.

Set Default Goal Selector "!".
Open Scope Z_scope.

(* ------------------------------------------------------------------ *)
(** ** Results and requests *)

#[export] Instance graph_task_eq_dec : EqDecision GraphTask.
Proof. solve_decision. Defined.

(** [TaskResult], with the frame of a success and the Session it advances. *)
Inductive NodeResult (A C S : Type) :=
| NodeSuccess (task : GraphTask) (output : Frame A C) (route : option str) (session : option (AgentSession C S))
| NodeFailure (task : GraphTask) (failure : str)
| NodeInterrupt (task : GraphTask) (request_payload : bytes).
Arguments NodeSuccess {_ _ _}.
Arguments NodeFailure {_ _ _}.
Arguments NodeInterrupt {_ _ _}.

Definition node_result_task {A C S} (result_ : NodeResult A C S) : GraphTask :=
  match result_ with NodeSuccess t _ _ _ | NodeFailure t _ | NodeInterrupt t _ => t end.

(** What settlement reads of a result: the cursor of [output.activation_config]. *)
Definition settlement_view {A C S} `{Configs C} (result_ : NodeResult A C S) : TaskResult :=
  match result_ with
  | NodeSuccess task output route _ => TaskSuccess task route (config_cursor_of <$> fr_activation_config output)
  | NodeFailure task failure => TaskFailure task failure
  | NodeInterrupt task payload => TaskInterrupt task payload
  end.

(** [ChildProjection] *)
Inductive ChildProjection (A C : Type) :=
| MissingChild (parent : GraphActivationIdentity)
| ActiveChild (parent : GraphActivationIdentity)
| CompletedChild (parent : GraphActivationIdentity) (output : Frame A C) (route : option str)
| FailedChild (parent : GraphActivationIdentity) (failure : str)
| AbortedChild (parent : GraphActivationIdentity) (reason : str).
Arguments MissingChild {_ _}.
Arguments ActiveChild {_ _}.
Arguments CompletedChild {_ _}.
Arguments FailedChild {_ _}.
Arguments AbortedChild {_ _}.

Definition projection_parent {A C} (projection : ChildProjection A C) : GraphActivationIdentity :=
  match projection with
  | MissingChild p | ActiveChild p | CompletedChild p _ _ | FailedChild p _ | AbortedChild p _ => p
  end.

Record StepRequest (A C S : Type) := mkRequest {
  req_state : GraphRunState;
  req_scope_run : ScopeRunCoordinate;
  req_frames : ScopedFrameIndex A C S;
  req_child_projections : list (ChildProjection A C);
  req_limits : ExecutionLimits;
  req_session : option (AgentSession C S)
}.
Arguments mkRequest {_ _ _}.
Arguments req_state {_ _ _}.
Arguments req_scope_run {_ _ _}.
Arguments req_frames {_ _ _}.
Arguments req_child_projections {_ _ _}.
Arguments req_limits {_ _ _}.
Arguments req_session {_ _ _}.

(** [ExecutableTask] and [FrontierPreparation]; the parents of missing and active children. *)
Record ExecutableTask (A C S : Type) := mkExecutable { ex_task : GraphTask; ex_effective_input : NodeInputFrame A C S }.
Arguments mkExecutable {_ _ _}.
Arguments ex_task {_ _ _}.
Arguments ex_effective_input {_ _ _}.

Record FrontierPreparation (A C S : Type) := mkPreparation {
  fp_request : StepRequest A C S;
  fp_tasks : list GraphTask;
  fp_executables : list (ExecutableTask A C S);
  fp_nested_results : list (NodeResult A C S);
  fp_missing_children : list GraphActivationIdentity;
  fp_active_children : list GraphActivationIdentity
}.
Arguments mkPreparation {_ _ _}.
Arguments fp_request {_ _ _}.
Arguments fp_tasks {_ _ _}.
Arguments fp_executables {_ _ _}.
Arguments fp_nested_results {_ _ _}.
Arguments fp_missing_children {_ _ _}.
Arguments fp_active_children {_ _ _}.

(** [WaitingForChildren.__post_init__] *)
Definition activation_key (parent : GraphActivationIdentity) : str * (Z * str) :=
  (act_run_id parent, (act_superstep parent, act_node_id parent)).
Record WaitingForChildren := mkWaiting {
  wc_missing : list GraphActivationIdentity;
  wc_active : list GraphActivationIdentity
}.
Definition WaitingForChildren_new (missing active : list GraphActivationIdentity) : result WaitingForChildren :=
  let parents := missing ++ active in
  raise_if (is_nil parents || negb (no_repeats parents)
            || negb (bool_decide (missing = sorted_key activation_key missing))
            || negb (bool_decide (active = sorted_key activation_key active))) ValueError
    "children to drive must be non-empty, distinct, and canonical";;
  Ok (mkWaiting missing active).

(** [PreparedExecutionClaim]; [owner] is the identity of the executor. *)
Record PreparedExecutionClaim (A C S : Type) := mkPreparedClaim {
  pc_owner : Z;
  pc_command : ClaimGraphExecution;
  pc_preparation : FrontierPreparation A C S;
  pc_consumed : bool
}.
Arguments mkPreparedClaim {_ _ _}.
Arguments pc_owner {_ _ _}.
Arguments pc_command {_ _ _}.
Arguments pc_preparation {_ _ _}.
Arguments pc_consumed {_ _ _}.

(** [ConsumedExecutionClaim] *)
Record ConsumedExecutionClaim (A C S : Type) := mkConsumedClaim {
  cc_state : GraphRunState;
  cc_preparation : FrontierPreparation A C S;
  cc_issued : bool
}.
Arguments mkConsumedClaim {_ _ _}.
Arguments cc_state {_ _ _}.
Arguments cc_preparation {_ _ _}.
Arguments cc_issued {_ _ _}.

(** [PrepareDisposition] *)
Inductive PrepareDisposition (A C S : Type) :=
| ExecutableFrontier (claim : PreparedExecutionClaim A C S) (children : option WaitingForChildren)
| Waiting (children : WaitingForChildren)
| ReadyToResolve (command : GraphRunCommand)
| AwaitingResume (interrupted_node_ids : list str)
| CompletedGraph
| FailedGraph
| AbortedGraph.
Arguments ExecutableFrontier {_ _ _}.
Arguments Waiting {_ _ _}.
Arguments ReadyToResolve {_ _ _}.
Arguments AwaitingResume {_ _ _}.
Arguments CompletedGraph {_ _ _}.
Arguments FailedGraph {_ _ _}.
Arguments AbortedGraph {_ _ _}.

Section superstep.
Context {A V W C S : Type} `{ValueTypes A V W} `{Configs C} `{EqDecision S}.
Context (codec : CodecFunctions (A := A) (C := C) (S := S)) (repr_tuple : list str → str).
Implicit Types (graph : CompiledGraph V) (request : StepRequest A C S).

(* ---------------------------------------------------------------- *)
(** ** [frontier.py] *)

(** What the children of the nested tasks contribute: results, missing and active ones. *)
Record Children := mkChildren {
  ch_results : list (NodeResult A C S);
  ch_missing : list GraphActivationIdentity;
  ch_active : list GraphActivationIdentity
}.

(** One nested task and its projection. *)
Definition project_child graph (children : Children) (entry : GraphTask * ChildProjection A C) : result Children :=
  let '(task, projection) := entry in
  let add result_ := Ok (mkChildren (ch_results children ++ [result_]) (ch_missing children) (ch_active children)) in
  match projection with
  | MissingChild parent => Ok (mkChildren (ch_results children) (ch_missing children ++ [parent]) (ch_active children))
  | ActiveChild parent => Ok (mkChildren (ch_results children) (ch_missing children) (ch_active children ++ [parent]))
  | CompletedChild _ output route =>
      descriptor ← map_get (publications (transition graph)) (task_node_id task);
      output ← node_output_from_view output (fd_declarations descriptor);
      add (NodeSuccess task output route None)
  | FailedChild _ failure => add (NodeFailure task failure)
  | AbortedChild _ reason => add (NodeFailure task reason)
  end.

(** The node of a task is callable. *)
Definition is_callable graph (task : GraphTask) : result bool :=
  node ← map_get (cg_nodes graph) (task_node_id task);
  Ok match node with CallableNodeDefinition _ _ _ => true | NestedGraphNodeDefinition _ => false end.

Definition executable_task graph request (task : GraphTask) : result (ExecutableTask A C S) :=
  input ← materialize_node_input codec graph (req_state request) (req_scope_run request) (req_frames request)
            (task_node_id task) (req_session request);
  Ok (mkExecutable task input).

Fixpoint executables_of graph request (tasks : list GraphTask) : result (list (ExecutableTask A C S)) :=
  match tasks with
  | [] => Ok []
  | task :: rest =>
      callable ← is_callable graph task;
      if (callable : bool) then (executable ← executable_task graph request task;
                                 executables ← executables_of graph request rest; Ok (executable :: executables))
      else executables_of graph request rest
  end.

(** [prepare_frontier] *)
Definition prepare_frontier graph request : result (FrontierPreparation A C S) :=
  tasks ← plan_tasks graph (req_state request) (req_limits request);
  let nested_tasks := List.filter (λ task, map_has (nested_graphs graph) (task_node_id task)) tasks in
  expected ← mapM (λ task, GraphActivationIdentity_new (task_run_id task) (task_superstep task) (task_node_id task)) nested_tasks;
  collection_fail_if (negb (bool_decide (projection_parent <$> req_child_projections request = expected)))
    "child projections must exactly and canonically cover pending nested activations";;
  children ← py_for_state (zip nested_tasks (req_child_projections request)) (mkChildren [] [] []) (project_child graph);
  executables ← executables_of graph request tasks;
  Ok (mkPreparation request tasks executables (ch_results children) (ch_missing children) (ch_active children)).

(* ---------------------------------------------------------------- *)
(** ** [claim.py] *)

(** [_require_committed_claim_state] *)
Definition require_committed_claim_state (command : ClaimGraphExecution) (state : GraphRunState)
    (preparation : FrontierPreparation A C S) : result unit :=
  let expected_tasks := (λ node_id, mkTask (task_identity (st_run_id state) (st_superstep state) node_id)
    (st_run_id state) (st_superstep state) node_id) <$> pending_node_ids (st_frontier state) in
  successor ← reduce_graph_run (Some (req_state (fp_request preparation))) (CmdClaim command);
  collection_fail_if (negb (bool_decide (state = successor)) || negb (bool_decide (fp_tasks preparation = expected_tasks)))
    "execution claim does not match committed graph state".

(** [PreparedExecutionClaim.consume], with the claim it leaves behind. *)
Definition consume (claim : PreparedExecutionClaim A C S) (owner : Z) (state : GraphRunState)
    : result (ConsumedExecutionClaim A C S * PreparedExecutionClaim A C S) :=
  collection_fail_if (pc_consumed claim) "execution claim has already been consumed";;
  collection_fail_if (negb (owner =? pc_owner claim)) "execution claim does not match committed graph state";;
  require_committed_claim_state (pc_command claim) state (pc_preparation claim);;
  Ok (mkConsumedClaim state (pc_preparation claim) false,
      mkPreparedClaim (pc_owner claim) (pc_command claim) (pc_preparation claim) true).

(** [ConsumedExecutionClaim.issue] *)
Definition issue (claim : ConsumedExecutionClaim A C S)
    : result (GraphRunState * FrontierPreparation A C S * ConsumedExecutionClaim A C S) :=
  collection_fail_if (cc_issued claim) "consumed execution claim has already issued its session";;
  Ok (cc_state claim, cc_preparation claim, mkConsumedClaim (cc_state claim) (cc_preparation claim) true).

(* ---------------------------------------------------------------- *)
(** ** [superstep.py] *)

(** [claim_stage.prepare_claim]; [attempt_id] is the fresh UUID. *)
Definition prepare_claim (owner : Z) (preparation : FrontierPreparation A C S) (resources : option ResourceSnapshot)
    (attempt_id : str) : PreparedExecutionClaim A C S :=
  mkPreparedClaim owner (project_claim_command (req_state (fp_request preparation)) attempt_id resources) preparation false.

(** [prepare_superstep] *)
Definition prepare_superstep (owner : Z) graph request (attempt_id : str) : result (PrepareDisposition A C S) :=
  let state := req_state request in
  require_scoped_snapshot_matches_graph graph state (req_scope_run request);;
  match st_status state with
  | COMPLETED => Ok CompletedGraph
  | FAILED => Ok FailedGraph
  | ABORTED => Ok AbortedGraph
  | RUNNING =>
      status ← frontier_status (st_frontier state);
      match status with
      | SETTLED =>
          command ← resolve_routing repr_tuple graph state (req_scope_run request) (req_frames request);
          Ok (ReadyToResolve command)
      | AWAITING_RESUME => Ok (AwaitingResume (interrupted_node_ids (st_frontier state)))
      | _ =>
          collection_fail_if (bool_decide (is_Some (st_execution state)))
            "active execution requires its original execution session";;
          frontier ← prepare_frontier graph request;
          children ← (if is_nil (fp_missing_children frontier) && is_nil (fp_active_children frontier) then Ok None
                      else (waiting ← WaitingForChildren_new (fp_missing_children frontier) (fp_active_children frontier);
                            Ok (Some waiting)));
          match children, fp_executables frontier, fp_nested_results frontier with
          | Some waiting, [], [] => Ok (Waiting waiting)
          | _, _, _ =>
              resources ← claim_resource_snapshot graph (fp_tasks frontier);
              Ok (ExecutableFrontier (prepare_claim owner frontier resources attempt_id) children)
          end
      end
  end.

(* ---------------------------------------------------------------- *)
(** ** [graph_run.py] *)

(** [project_start_graph_command] *)
Definition project_start_graph_command graph (run_id : str) (parent : option GraphActivationIdentity)
    (config_cursor : option GraphConfigCursor) : result StartGraphRun :=
  raise_if (match parent with
            | Some parent => negb (bool_decide (run_id = child_graph_run_id (act_run_id parent) (act_superstep parent) (act_node_id parent)))
            | None => false end) SnapshotMismatchError "child graph run identity does not match its parent activation";;
  Ok (mkStart run_id (cg_definition_id graph) (cg_version graph)
        ((λ node_id, mkFrontierActivation node_id StartActivationCause) <$> tp_entries (transition graph)) parent
        ((λ binding, Model.mkCodec (fc_codec_id binding) (fc_version binding)) <$> resume_input graph) config_cursor None).

(* ---------------------------------------------------------------- *)
(** ** [executor.py] *)

(** [GraphExecutor.issue_session]: the state and preparation of the session. *)
Definition issue_session (owner : Z) graph (claim : PreparedExecutionClaim A C S) (state : GraphRunState)
    : result (GraphRunState * FrontierPreparation A C S * PreparedExecutionClaim A C S) :=
  require_scoped_snapshot_matches_graph graph state (req_scope_run (fp_request (pc_preparation claim)));;
  '(consumed, claim) ← consume claim owner state;
  '(state, preparation, _) ← issue consumed;
  Ok (state, preparation, claim).
End superstep.
