(* ===== verification/Session.v ===== *)
(** * Execution sessions

    [execution/engine/scheduler.py] and [execution/engine/session.py]: the pool of live
    node tasks and the session that yields one completion at a time.

    The coroutine [next] is a state machine: it runs from a call or from an answer of the
    event loop up to the next suspension, and [ss_pc] says where it is suspended.  The
    event loop answers a wait with a non-empty set of finished tasks, in any order and
    grouping; it may also cancel the coroutine, or run [aclose] while it is suspended.
    [aclose] is one step, from the request to [CLOSED]: the window in which it holds the
    lock and waits for the tasks it cancelled, with the session [QUIESCENT], is left out. *)

From Stdlib Require Import ZArith NArith Lia Bool String.
From stdpp Require Import prelude strings gmap sorting.
From S2P Require Import Prelude Identity Resources Model Transitions Reducer Topology Routing Engine Values RunContext Materialization Superstep.

Set Default Goal Selector "!".
Open Scope Z_scope.

Section session.
Context {A V W C S : Type} `{ValueTypes A V W} `{Configs C} `{EqDecision S}.
Notation Result := (NodeResult A C S).
Notation Executable := (ExecutableTask A C S).
Notation Preparation := (FrontierPreparation A C S).
Implicit Types (graph : CompiledGraph V) (state : GraphRunState).

(* ---------------------------------------------------------------- *)
(** ** [scheduler.py] *)

(** A finished task: a result, or [TaskRaised]. *)
Inductive Event :=
| Completed (result_ : Result)
| TaskRaised (task : GraphTask) (error : exn).
Definition event_task (event : Event) : GraphTask :=
  match event with Completed result_ => node_result_task result_ | TaskRaised task _ => task end.

(** What the callable of a node does when it is awaited. *)
Inductive NodeAnswer :=
| Returned (outcome : NodeReturn (A := A) (C := C) (S := S))
| Threw (error : exn).

(** [_project_outcome] *)
Definition project_outcome graph (executable : Executable) (outcome : NodeReturn (A := A) (C := C) (S := S)) : result Result :=
  let task := ex_task executable in
  let effective_input := ex_effective_input executable in
  let succeed (output : GraphValues A C S) (route : option str) (candidate_session explicit_session : option (AgentSession C S)) :=
    output_config ← match candidate_session with
      | Some session =>
          contract_fail_if (negb (bool_decide (gv_activation_config output = None))
                            && negb (bool_decide (gv_activation_config output = se_config session)))
            "node output Config disagrees with its AgentSession";;
          Ok (match explicit_session with
              | Some _ => se_config session
              | None => match gv_activation_config output with
                        | None => nf_activation_config effective_input | Some _ => gv_activation_config output end
              end)
      | None => Ok (match gv_activation_config output with
                    | None => nf_activation_config effective_input | Some _ => gv_activation_config output end)
      end;
    descriptor ← map_get (publications (transition graph)) (task_node_id task);
    frame ← make_node_output_frame output (fd_declarations descriptor) output_config;
    validate_routing_contribution graph (task_node_id task)
      (match route with None => ContinueGraphRouting | Some route => SelectGraphRoute route end);;
    Ok (NodeSuccess task frame route explicit_session) in
  match outcome with
  | ReturnedValues output =>
      let candidate := gv_session output in
      let explicit := match candidate with
                      | Some session => if bool_decide (nf_session effective_input = Some session) then None else candidate
                      | None => None end in
      succeed output None candidate explicit
  | GraphSuccessOutcome output route session => succeed output route session session
  | GraphFailureOutcome failure => Ok (NodeFailure task failure)
  | GraphInterruptOutcome payload => Ok (NodeInterrupt task payload)
  end.

(** [_execute_task]: an exception becomes an event. *)
Definition execute_task graph (executable : Executable) (answer : NodeAnswer) : Event :=
  let task := ex_task executable in
  match map_get (cg_nodes graph) (task_node_id task) with
  | Raise error => TaskRaised task error
  | Ok (NestedGraphNodeDefinition _) =>
      TaskRaised task (Exn NodeExecutionContractError "nested task must be projected to a precomputed terminal outcome")
  | Ok (CallableNodeDefinition _ _ _) =>
      match answer with
      | Threw error => TaskRaised task error
      | Returned outcome => match project_outcome graph executable outcome with
                            | Ok result_ => Completed result_ | Raise error => TaskRaised task error end
      end
  end.

(** [TaskScheduler]: live tasks by task id, and buffered events. *)
Record TaskScheduler := mkScheduler { ts_live : list (str * Executable); ts_events : list Event }.

Definition is_raised (event : Event) : bool := match event with TaskRaised _ _ => true | Completed _ => false end.

(** [submit] *)
Definition submit (scheduler : TaskScheduler) (executables : list Executable) : result TaskScheduler :=
  let submitted := task_id ∘ ex_task <$> executables in
  let existing := (fst <$> ts_live scheduler) ++ (task_id ∘ event_task <$> ts_events scheduler) in
  contract_fail_if (negb (no_repeats submitted) || existsb (λ i, mem i submitted) existing)
    "a graph task was submitted more than once";;
  Ok (mkScheduler (fold_left (λ live executable, dict_set (task_id (ex_task executable)) executable live) executables
                     (ts_live scheduler)) (ts_events scheduler)).

(** The tasks that finished while [next_completion] waited, with what their nodes did. *)
Definition finish graph (scheduler : TaskScheduler) (done : list (str * NodeAnswer)) : result (list Event) :=
  mapM (λ '(i, answer), executable ← assoc_get (ts_live scheduler) i; Ok (execute_task graph executable answer)) done.

(** [next_completion] after its wait: the first event in task order; the others are buffered. *)
Definition collect graph (scheduler : TaskScheduler) (done : list (str * NodeAnswer)) : result (Event * TaskScheduler) :=
  events ← finish graph scheduler done;
  let events := sorted_key (sort_key ∘ event_task) events in
  let live := List.filter (λ '(i, _), negb (mem i (task_id ∘ event_task <$> events))) (ts_live scheduler) in
  match events with
  | [] => Raise (Exn IndexError "list index out of range")
  | first :: rest => Ok (first, mkScheduler live (ts_events scheduler ++ rest))
  end.

(* ---------------------------------------------------------------- *)
(** ** [session.py] *)

Inductive SessionDisposition := OPEN | ERROR_DRAINING | QUIESCENT | CLOSED.
#[export] Instance disposition_eq_dec : EqDecision SessionDisposition.
Proof. solve_decision. Defined.

(** [ExecutedGraphNode] *)
Record ExecutedGraphNode := mkExecuted { eg_result : Result; eg_command : SettleGraphNode }.

(** Where [next] is suspended: not running, in [asyncio.wait], or in [asyncio.sleep(0)]
    with what it will return. *)
Inductive Suspension := Idle | AtWait | AtPause (projected : ExecutedGraphNode).

Record ExecutionSession := mkExecutionSession {
  ss_limits : ExecutionLimits;
  ss_executables : list Executable;
  ss_state : GraphRunState;
  ss_queued : list (Result * bool);  (** with [refill_ordinary_slots] *)
  ss_started : list str;
  ss_scheduler : TaskScheduler;
  ss_awaiting_ack : option SettleGraphNode;
  ss_disposition : SessionDisposition;
  ss_error : option (GraphTask * exn);
  ss_node_origin : option exn;  (** [_node_origin_cancellation] *)
  ss_pc : Suspension
}.
#[export] Instance execution_session_eta : Eta ExecutionSession := λ s,
  mkExecutionSession (ss_limits s) (ss_executables s) (ss_state s) (ss_queued s) (ss_started s) (ss_scheduler s)
    (ss_awaiting_ack s) (ss_disposition s) (ss_error s) (ss_node_origin s) (ss_pc s).

(** What a call of [next] answers, or that it is suspended. *)
Inductive Answered :=
| Suspended
| Yielded (projected : ExecutedGraphNode)
| Failed (error : exn).

Implicit Types (s : ExecutionSession).

(** [_GraphExecutionSession.__init__] *)
Definition open_session state (preparation : Preparation) : ExecutionSession :=
  mkExecutionSession (req_limits (fp_request preparation)) (fp_executables preparation) state
    ((λ result_, (result_, false)) <$> fp_nested_results preparation) [] (mkScheduler [] []) None OPEN None None Idle.

(** [_require_open] *)
Definition require_open s : result unit :=
  collection_fail_if (bool_decide (ss_disposition s = CLOSED)) "execution session is closed";;
  collection_fail_if (bool_decide (ss_disposition s = QUIESCENT)) "execution session is quiescent".

(** [_acknowledge] *)
Definition acknowledge graph s state : result ExecutionSession :=
  match ss_awaiting_ack s with
  | None =>
      require_snapshot_matches_graph graph state;;
      collection_fail_if (negb (bool_decide (state = ss_state s)))
        "first session state must be the reducer-applied claim successor";;
      Ok s
  | Some command =>
      _ ← except (one_of [GraphStateTransitionError]) ResultCollectionError
            "session state acknowledgement is not the exact reducer successor"
            (admit_graph_run_confirmation (Some (ss_state s)) (CmdSettle command) state);
      Ok (s <| ss_state := state |> <| ss_awaiting_ack := None |>)
  end.

(** [_select_ordinary] *)
Definition select_ordinary graph s : result (list Executable) :=
  if negb (bool_decide (ss_disposition s = OPEN)) then Ok [] else
  let pending := pending_node_ids (st_frontier (ss_state s)) in
  let executables := List.filter (λ executable, mem (task_node_id (ex_task executable)) pending) (ss_executables s) in
  selected ← select_executable_tasks graph (ex_task <$> executables) (st_resources (ss_state s)) (ss_limits s)
    (Z.of_nat (length (ts_live (ss_scheduler s)))) (ss_started s);
  let by_task_id := fold_left (λ d executable, dict_set (task_id (ex_task executable)) executable d) executables [] in
  mapM (λ task, assoc_get by_task_id (task_id task)) selected.

(** [_schedule_ordinary] *)
Definition schedule_ordinary graph s : result (bool * ExecutionSession) :=
  selected ← select_ordinary graph s;
  scheduler ← submit (ss_scheduler s) selected;
  Ok (negb (is_nil selected),
      s <| ss_scheduler := scheduler |> <| ss_started := ss_started s ++ (task_node_id ∘ ex_task <$> selected) |>).

(** [_record_error]; a cancellation is an error of class [CancelledError]. *)
Definition record_error s (task : GraphTask) (error : exn) : ExecutionSession :=
  let '(first_task, first) := match ss_error s with
    | Some (known, known_error) => if cmp_ltb (sort_key task) (sort_key known) then (task, error) else (known, known_error)
    | None => (task, error) end in
  s <| ss_error := Some (first_task, first) |>
    <| ss_node_origin := if bool_decide (exn_kind first = CancelledError) then Some first else None |>
    <| ss_disposition := ERROR_DRAINING |>.

(** [_drain_scheduler_events] *)
Definition drain_scheduler_events s : ExecutionSession :=
  let events := ts_events (ss_scheduler s) in
  let s := s <| ss_scheduler := mkScheduler (ts_live (ss_scheduler s)) [] |> in
  let s := fold_left (λ s event, match event with TaskRaised task error => record_error s task error | Completed _ => s end) events s in
  s <| ss_queued := ss_queued s ++ omap (λ event, match event with Completed result_ => Some (result_, true) | TaskRaised _ _ => None end) events |>.

(** [aclose] *)
Definition aclose s : ExecutionSession :=
  if bool_decide (ss_disposition s = CLOSED) then s else
  s <| ss_scheduler := mkScheduler [] [] |> <| ss_queued := [] |> <| ss_awaiting_ack := None |> <| ss_disposition := CLOSED |>.

(** [_project] *)
Definition project graph s (result_ : Result) : ExecutionSession * Answered :=
  match settle_result graph (ss_state s) (settlement_view result_) with
  | Ok command => (s <| ss_awaiting_ack := Some command |> <| ss_pc := Idle |>, Yielded (mkExecuted result_ command))
  | Raise error => (s <| ss_pc := Idle |>, Failed error)
  end.

(** One turn of the loop of [next], up to a suspension, a return or an exception. *)
Definition turn graph s : ExecutionSession * Answered :=
  let s := drain_scheduler_events s in
  match ss_node_origin s with
  | Some cancellation => (aclose s <| ss_pc := Idle |>, Failed cancellation)
  | None =>
      match ss_queued s with
      | (result_, refill) :: rest =>
          let '(s, answered) := project graph (s <| ss_queued := rest |>) result_ in
          match answered with
          | Yielded projected =>
              if (refill : bool) then
                match schedule_ordinary graph s with
                | Raise error => (s <| ss_pc := Idle |>, Failed error)
                | Ok (true, s) => (s <| ss_pc := AtPause projected |>, Suspended)
                | Ok (false, s) => (s, Yielded projected)
                end
              else (s, Yielded projected)
          | _ => (s, answered)
          end
      | [] =>
          match schedule_ordinary graph s with
          | Raise error => (s <| ss_pc := Idle |>, Failed error)
          | Ok (_, s) =>
              if is_nil (ts_live (ss_scheduler s)) then
                match ss_error s with
                | Some (_, error) => (s <| ss_disposition := QUIESCENT |> <| ss_pc := Idle |>, Failed error)
                | None =>
                    if forallb (map_has (nested_graphs graph)) (pending_node_ids (st_frontier (ss_state s)))
                    then (s <| ss_disposition := QUIESCENT |> <| ss_pc := Idle |>, Failed (Exn StopAsyncIteration ""))
                    else (s <| ss_pc := Idle |>, Failed (Exn ResultCollectionError "no executable pending node can be scheduled"))
                end
              else (s <| ss_pc := AtWait |>, Suspended)
          end
      end
  end.

(** [next(state)], up to its first suspension. *)
Definition next graph s state : ExecutionSession * Answered :=
  match require_open s with
  | Raise error => (s, Failed error)
  | Ok _ =>
      match ss_pc s with
      | Idle => match acknowledge graph s state with
                | Raise error => (s, Failed error)
                | Ok s => turn graph s end
      | _ => (s, Failed (Exn ResultCollectionError "execution session already has an in-progress next call"))
      end
  end.

(** The event loop answers the wait: [done] finished. *)
Definition deliver graph s (done : list (str * NodeAnswer)) : ExecutionSession * Answered :=
  match collect graph (ss_scheduler s) done with
  | Raise error => (s <| ss_pc := Idle |>, Failed error)
  | Ok (event, scheduler) =>
      let s := s <| ss_scheduler := scheduler |> in
      match event with
      | TaskRaised task error => turn graph (record_error s task error)
      | Completed result_ => project graph s result_
      end
  end.

(** The pause is over. *)
Definition unpause s (projected : ExecutedGraphNode) : ExecutionSession * Answered :=
  match require_open s with
  | Raise error => (s <| ss_pc := Idle |>, Failed error)
  | Ok _ => (s <| ss_pc := Idle |>, Yielded projected)
  end.

(** The suspended coroutine is cancelled, by its caller or because [aclose] cancelled the
    tasks it waits for. *)
Definition cancel s : ExecutionSession * Answered :=
  (aclose s <| ss_pc := Idle |>, Failed (Exn CancelledError "")).

(** [consume_node_origin] *)
Definition consume_node_origin s (error : exn) : ExecutionSession * bool :=
  if bool_decide (ss_node_origin s = Some error) then (s <| ss_node_origin := None |>, true) else (s, false).
End session.
