(* ===== verification/SessionState.v ===== *)
(** * The task pool

    What submitting and collecting do to the tasks a scheduler holds: submission of fresh
    tasks never fails, and collecting moves exactly the finished tasks from the live ones
    to the events. *)

From Stdlib Require Import ZArith NArith Lia Bool String.
From stdpp Require Import prelude strings gmap sorting.
From S2P Require Import Prelude Identity Resources ResourceProofs Model Transitions WellFormed Reducer SettleProofs ConfirmationProofs Topology CompilerProofs Routing Engine EngineProofs RoutingProofs Values RunContext Materialization Superstep Session.

Set Default Goal Selector "!".
Open Scope Z_scope.

Section scheduler.
Context {A V W C S : Type} `{ValueTypes A V W} `{Configs C} `{EqDecision S}.
Context (graph : CompiledGraph V).
Notation Executable := (ExecutableTask A C S).
Notation Scheduler := (TaskScheduler (A := A) (C := C) (S := S)).

Definition live_tasks (scheduler : Scheduler) : list GraphTask := ex_task ∘ snd <$> ts_live scheduler.
Definition event_tasks (scheduler : Scheduler) : list GraphTask := event_task <$> ts_events scheduler.

(** The live tasks are kept under their own ids. *)
Definition keyed_live (scheduler : Scheduler) : Prop :=
  ∀ i ex, (i, ex) ∈ ts_live scheduler → i = task_id (ex_task ex).

(** Task ids tell the tasks of a list apart. *)
Definition identified (tasks : list GraphTask) : Prop :=
  ∀ t t', t ∈ tasks → t' ∈ tasks → task_id t = task_id t' → t = t'.

Lemma identified_NoDup tasks ts : identified tasks → ts ⊆ tasks → NoDup ts → NoDup (task_id <$> ts).
Proof.
  intros Hi Hs Hnd. apply NoDup_fmap_2_strong; [|done]. intros x y Hx Hy. apply Hi; by apply Hs.
Qed.

Lemma live_keys scheduler : keyed_live scheduler → fst <$> ts_live scheduler = task_id <$> live_tasks scheduler.
Proof.
  unfold keyed_live, live_tasks. induction (ts_live scheduler) as [|[i ex] live IH]; cbn; intros Hk; [done|].
  rewrite (Hk i ex) by (by left). f_equal. apply IH. intros ???. apply Hk. by right.
Qed.

(** ** Submission *)

Lemma submit_fresh scheduler executables tasks :
  keyed_live scheduler → identified tasks →
  live_tasks scheduler ++ event_tasks scheduler ++ (ex_task <$> executables) ⊆ tasks →
  NoDup (live_tasks scheduler ++ event_tasks scheduler ++ (ex_task <$> executables)) →
  submit scheduler executables =
    Ok (mkScheduler (ts_live scheduler ++ ((λ ex, (task_id (ex_task ex), ex)) <$> executables)) (ts_events scheduler)).
Proof.
  intros Hk Hi Hsub Hnd. pose proof (identified_NoDup _ _ Hi Hsub Hnd) as Hids. rewrite !fmap_app in Hids.
  rewrite <- live_keys in Hids by done. unfold submit. unfold event_tasks in Hids. rewrite <- !list_fmap_compose in Hids.
  assert (no_repeats (task_id ∘ ex_task <$> executables) = true) as ->.
  { apply no_repeats_spec. rewrite app_assoc in Hids. by apply NoDup_app in Hids as (_ & _ & ?). }
  assert (existsb (λ i, mem i (task_id ∘ ex_task <$> executables))
            ((fst <$> ts_live scheduler) ++ (task_id ∘ event_task <$> ts_events scheduler)) = false) as ->.
  { apply existsb_false_iff. intros i Hin. apply mem_false. rewrite app_assoc in Hids.
    apply NoDup_app in Hids as (_ & Hd & _). by apply Hd. }
  cbn. do 2 f_equal. rewrite <- dict_set_all.
  - clear. generalize (ts_live scheduler). induction executables as [|ex exs IH]; intros d; cbn; [done|]. by rewrite IH.
  - rewrite fmap_app, <- list_fmap_compose. eapply sublist_NoDup; [exact Hids|].
    apply sublist_app; [done|]. apply sublist_inserts_l. done.
Qed.

(** ** Completion *)

Lemma project_outcome_task (executable : Executable) outcome r : project_outcome graph executable outcome = Ok r →
  node_result_task r = ex_task executable.
Proof.
  unfold project_outcome. destruct outcome as [output|output route session|failure|payload]; cbn; intros Hr; inv_ok; by simplify_eq/=.
Qed.

Lemma execute_task_task (executable : Executable) answer : event_task (execute_task graph executable answer) = ex_task executable.
Proof.
  unfold execute_task. destruct (map_get _ _) as [[]|]; [|done..]. destruct answer as [outcome|]; [|done].
  destruct (project_outcome _ _ _) eqn:E; [|done]. by apply project_outcome_task in E.
Qed.

(** The event loop reports live tasks, each once, and at least one. *)
Record reported (scheduler : Scheduler) (done : list (str * NodeAnswer (A := A) (C := C) (S := S))) : Prop := {
  rp_some : done ≠ [];
  rp_once : NoDup done.*1;
  rp_live : done.*1 ⊆ (ts_live scheduler).*1
}.

Lemma finish_spec scheduler done tasks :
  keyed_live scheduler → reported scheduler done → identified tasks → live_tasks scheduler ⊆ tasks →
  ∃ events, finish graph scheduler done = Ok events ∧ task_id <$> (event_task <$> events) = done.*1
    ∧ event_task <$> events ⊆ live_tasks scheduler.
Proof.
  intros Hk [_ _ Hl] Hi Hsub. unfold finish. revert Hl. induction done as [|[i answer] done IH]; cbn; intros Hl.
  { exists []. split_and!; [done..|]. intros ? []%elem_of_nil. }
  assert (∃ ex, assoc i (ts_live scheduler) = Some ex) as [ex Hex].
  { destruct (assoc i (ts_live scheduler)) as [ex|] eqn:E; [by exists ex|]. apply assoc_None in E. destruct E. apply Hl. by left. }
  assert (assoc_get (ts_live scheduler) i = Ok ex) as -> by (unfold assoc_get; by rewrite Hex).
  cbn. destruct IH as (events & -> & Hids & Hin); [intros j Hj; apply Hl; by right|].
  cbn. eexists. split; [done|]. cbn. rewrite execute_task_task, Hids. apply assoc_Some_elem in Hex.
  split; [f_equal; symmetry; by apply Hk|].
  intros t [->|Ht]%elem_of_cons; [|by apply Hin]. by apply (list_elem_of_fmap_2 (ex_task ∘ snd) _ (i, ex)).
Qed.

Lemma collect_spec scheduler done tasks :
  keyed_live scheduler → reported scheduler done → identified tasks → live_tasks scheduler ⊆ tasks →
  NoDup (live_tasks scheduler) →
  ∃ first rest live, collect graph scheduler done = Ok (first, mkScheduler live (ts_events scheduler ++ rest))
    ∧ sublist live (ts_live scheduler)
    ∧ live_tasks scheduler ≡ₚ (ex_task ∘ snd <$> live) ++ (event_task <$> first :: rest).
Proof.
  intros Hk Hrep Hi Hsub Hnd. destruct (finish_spec _ _ _ Hk Hrep Hi Hsub) as (events & He & Hids & Hin).
  unfold collect. rewrite He. cbn [mbind result_bind].
  set (sorted_events := sorted_key (sort_key ∘ event_task) events).
  assert (sorted_events ≡ₚ events) as Hp by apply sort_by_perm.
  assert (sorted_events ≠ []) as Hne.
  { intros E. rewrite E in Hp. apply Permutation_nil in Hp as ->. destruct Hrep as [Hsome _ _]. by destruct done. }
  set (live := List.filter _ (ts_live scheduler)).
  assert (sublist live (ts_live scheduler)) as Hsl.
  { unfold live. clear. induction (ts_live scheduler) as [|x xs IH]; cbn; [constructor|]. by case_match; constructor. }
  assert (live_tasks scheduler ≡ₚ (ex_task ∘ snd <$> live) ++ (event_task <$> sorted_events)) as Hperm.
  { assert (∀ t, t ∈ event_task <$> sorted_events ↔ t ∈ event_task <$> events) as Het by (intros t; by rewrite Hp).
    apply NoDup_Permutation; [done| |].
    - apply NoDup_app. split_and!.
      + eapply sublist_NoDup; [exact Hnd|]. by apply fmap_sublist.
      + intros t ([i ex] & -> & Hx)%list_elem_of_fmap. cbn. unfold live in Hx. rewrite List_filter_elem in Hx.
        destruct Hx as [Hx Hlive]. apply negb_true_iff, mem_false in Hx. rewrite (Hk _ _ Hlive) in Hx.
        intros Hc. apply Hx. rewrite list_fmap_compose. by apply list_elem_of_fmap_2.
      + rewrite Hp. eapply (NoDup_fmap_1 task_id). rewrite Hids. apply Hrep.
    - intros t. rewrite elem_of_app, Het. split.
      + intros ([i ex] & -> & Hx)%list_elem_of_fmap. cbn.
        destruct (decide (task_id (ex_task ex) ∈ task_id <$> (event_task <$> sorted_events))) as [Hd|Hd].
        * right. apply Het. apply list_elem_of_fmap in Hd as (t' & Heq & Ht').
          assert (ex_task ex = t') as ->; [|done]. apply Hi; [..|done]; apply Hsub.
          -- by apply (list_elem_of_fmap_2 (ex_task ∘ snd) _ (i, ex)).
          -- apply Hin. by apply Het.
        * left. apply (list_elem_of_fmap_2 (ex_task ∘ snd) _ (i, ex)). unfold live. rewrite List_filter_elem.
          split; [|done]. apply negb_true_iff, mem_false. rewrite (Hk _ _ Hx), list_fmap_compose. done.
      + intros [([i ex] & -> & Hx)%list_elem_of_fmap|Ht]; [|by apply Hin].
        apply (list_elem_of_fmap_2 (ex_task ∘ snd) _ (i, ex)). by eapply sublist_subseteq. }
  destruct sorted_events as [|first rest]; [done|]. by exists first, rest, live.
Qed.
End scheduler.

(* ------------------------------------------------------------------ *)
(** * Issued sessions and their trails

    What an execution session is issued with, the abstract machine it refines (one
    settlement of a pending node after another, each confirmed), and what that machine
    keeps: pending nodes only leave, and the resources held are those of the nodes still
    pending. *)

Section issued.
Context {A V W C S : Type} `{ValueTypes A V W} `{Configs C} `{EqDecision S}.
Context (graph : CompiledGraph V) (st0 : GraphRunState) (prep : FrontierPreparation A C S).

Abbreviation pending state := (pending_node_ids (st_frontier state)).

(** The task of a node in a state. *)
Definition node_task (state : GraphRunState) (node_id : str) : GraphTask :=
  mkTask (task_identity (st_run_id state) (st_superstep state) node_id) (st_run_id state) (st_superstep state) node_id.

Definition callable (node_id : str) : Prop := node_resources graph node_id ≠ None.
#[local] Instance callable_dec node_id : Decision (callable node_id) := _.

(** The nodes that are not callable are those with a graph of their own. *)
Definition nested_ok : Prop :=
  ∀ n, map_has (nested_graphs graph) n = true ↔ map_has (cg_nodes graph) n = true ∧ ¬ callable n.

(** The acquisitions of a state are the requirements of its pending nodes. *)
Definition holds_requirements (state : GraphRunState) : Prop :=
  ∀ k v, (k, v) ∈ held (st_resources state) ↔ resource_bound graph state k v.

(** What a session starts from: the claimed state, an input for every pending callable
    node, and the results of completed children. *)
Record issued : Prop := {
  is_wf : wf st0;
  is_known : ∀ n, n ∈ pending st0 → map_has (cg_nodes graph) n = true;
  is_executables : ex_task <$> fp_executables prep = node_task st0 <$> filter callable (pending st0);
  is_nested_once : NoDup (node_result_task <$> fp_nested_results prep);
  is_nested : ∀ t, t ∈ node_result_task <$> fp_nested_results prep →
    ∃ n, t = node_task st0 n ∧ n ∈ pending st0 ∧ ¬ callable n;
  is_resources : holds_requirements st0;
  is_limits : 1 ≤ max_parallel_tasks (req_limits (fp_request prep))
}.

(** Each entry settles a pending node in the state before it, and the state after it is a
    confirmation of its command. *)
Inductive trail : list (ExecutedGraphNode (A := A) (C := C) (S := S)) → GraphRunState → Prop :=
| trail_nil : trail [] st0
| trail_snoc log state entry state' :
    trail log state →
    settle_result graph state (settlement_view (eg_result entry)) = Ok (eg_command entry) →
    admit_graph_run_confirmation (Some state) (CmdSettle (eg_command entry)) state' = Ok state' →
    trail (log ++ [entry]) state'.

Definition log_tasks (log : list (ExecutedGraphNode (A := A) (C := C) (S := S))) : list GraphTask :=
  node_result_task ∘ eg_result <$> log.

(* ---------------------------------------------------------------- *)
(** ** One settlement *)

Lemma settlement_view_task (r : NodeResult A C S) : result_task (settlement_view r) = node_result_task r.
Proof. by destruct r. Qed.

Lemma settle_result_node state r c : settle_result graph state r = Ok c →
  outcome_node_id (set_outcome c) = task_node_id (result_task r)
  ∧ task_run_id (result_task r) = st_run_id state ∧ task_superstep (result_task r) = st_superstep state
  ∧ result_task r = node_task state (task_node_id (result_task r)).
Proof.
  unfold settle_result. intros Hr. apply seq_Ok_iff in Hr as [_ Hr]. apply bind_Ok in Hr as (? & _ & Hr).
  apply seq_Ok_iff in Hr as [Hc Hr]. apply raise_if_Ok in Hc. rewrite !orb_false_iff in Hc.
  destruct Hc as [[Hrun%negb_false_iff%bool_decide_eq_true Hs%negb_false_iff%Z.eqb_eq] Hid%negb_false_iff%bool_decide_eq_true].
  apply seq_Ok_iff in Hr as [_ Hr]. split; [|split_and!; [done..|]].
  - unfold project_success_settlement, project_failure_settlement, project_interrupt_settlement in Hr.
    destruct r; cbn in *; inv_ok; by simplify_eq/=.
  - destruct (result_task r). unfold node_task. cbn in *. by subst.
Qed.

(** What a confirmed settlement changes of what a session reads. *)
Lemma acknowledged_step state c state' : wf state → holds_requirements state →
  admit_graph_run_confirmation (Some state) (CmdSettle c) state' = Ok state' →
  wf state' ∧ st_run_id state' = st_run_id state ∧ st_superstep state' = st_superstep state
  ∧ (∀ n, n ∈ pending state' ↔ n ∈ pending state ∧ n ≠ outcome_node_id (set_outcome c))
  ∧ holds_requirements state'.
Proof.
  intros Hwf Hheld Hadm. apply confirmation_sound in Hadm as (_ & Hwf' & expected & Hred & Her).
  apply settle_forward in Hred as (_ & _ & _ & _ & cursor & resources & d & _ & Hres & Hd & Hf); [|done].
  assert (st_run_id state' = st_run_id expected ∧ st_superstep state' = st_superstep expected
    ∧ st_frontier state' = st_frontier expected ∧ st_resources state' = st_resources expected) as (-> & -> & Hfr & Hrs).
  { split_and!; [by apply (f_equal st_run_id) in Her|by apply (f_equal st_superstep) in Her|
      by apply (f_equal st_frontier) in Her|by apply (f_equal st_resources) in Her]. }
  destruct Hf. split_and!; [done..| |].
  - intros n. rewrite Hfr, sf_frontier. apply pending_settle_frontier, settlement_not_pending.
  - assert (∀ n, n ∈ pending state' ↔ n ∈ pending state ∧ n ≠ outcome_node_id (set_outcome c)) as Hp.
    { intros n. rewrite Hfr, sf_frontier. apply pending_settle_frontier, settlement_not_pending. }
    intros k v. unfold resource_bound. rewrite Hp, Hrs, sf_resources. case_bool_decide as Hex.
    + apply settle_resources_held in Hres as [_ Hh]; [|].
      * rewrite Hh. cbn. rewrite (Hheld k v). unfold resource_bound. naive_solver.
      * pose proof (wf_resources _ Hwf) as Hok. unfold resources_ok in Hok.
        destruct (st_resources state); [|done]. rewrite on_some_Some in *. naive_solver.
    + cbn. rewrite elem_of_nil. split; [done|]. rewrite <- Hp, Hfr, sf_frontier. intros [Hk _].
      apply elem_pending in Hk as (m & Hm & _ & Hpend). destruct Hex.
      unfold frontier_status in Hd. assert (existsb is_pending (fn_settlement <$> frontier_nodes
        (settle_frontier (st_frontier state) (outcome_node_id (set_outcome c)) (outcome_settlement (set_outcome c)))) = true) as E.
      { apply existsb_true_iff. eexists. split; [by apply list_elem_of_fmap_2|done]. }
      rewrite E in Hd. by injection Hd.
Qed.

(* ---------------------------------------------------------------- *)
(** ** A trail *)

Context (Hissued : issued).

Lemma trail_state log state : trail log state →
  wf state ∧ st_run_id state = st_run_id st0 ∧ st_superstep state = st_superstep st0
  ∧ (∀ n, n ∈ pending state ↔ n ∈ pending st0 ∧ n ∉ task_node_id <$> log_tasks log)
  ∧ holds_requirements state.
Proof using Hissued.
  induction 1 as [|log state entry state' Htrail IH Hsettle Hadm].
  { split_and!; [apply Hissued|done|done| |apply Hissued]. intros n. cbn. rewrite elem_of_nil. naive_solver. }
  destruct IH as (Hwf & Hrun & Hstep & Hpend & Hheld).
  destruct (acknowledged_step _ _ _ Hwf Hheld Hadm) as (Hwf' & Hrun' & Hstep' & Hpend' & Hheld').
  destruct (settle_result_node _ _ _ Hsettle) as (Hnode & _). rewrite settlement_view_task in Hnode.
  split_and!; [done|congruence|congruence| |done].
  intros n. rewrite Hpend', Hpend, Hnode. unfold log_tasks. rewrite fmap_app, fmap_app, elem_of_app. cbn.
  rewrite list_elem_of_singleton. naive_solver.
Qed.

Lemma node_task_inj n n' : task_id (node_task st0 n) = task_id (node_task st0 n') → n = n'.
Proof using Hissued. cbn. intros E. apply task_identity_identifies in E; [naive_solver|apply Hissued..]. Qed.
End issued.
