(* ===== verification/SessionPool.v ===== *)
(** * Issuing a session

    A prepared claim, once the reducer has accepted it, issues one session, and what the
    session starts from is what [prepare_frontier] planned. *)

From Stdlib Require Import ZArith NArith Lia Bool String.
From stdpp Require Import prelude strings gmap sorting.
From S2P Require Import Prelude Identity Resources ResourceProofs Model Transitions WellFormed Reducer OperationProofs SettleProofs Topology CompilerProofs Routing Engine EngineProofs RoutingProofs Values RunContext Materialization Superstep Session SessionState.

Set Default Goal Selector "!".
Open Scope Z_scope.

Section superstep.
Context {A V W C S : Type} `{ValueTypes A V W} `{Configs C} `{EqDecision S}.
Context (codec : CodecFunctions (A := A) (C := C) (S := S)) (repr_tuple : list str → str).
Context (graph : CompiledGraph V) (Hnested : nested_ok graph).
Implicit Types (request : StepRequest A C S) (children : Children (A := A) (C := C) (S := S)).
Notation pending state := (pending_node_ids (st_frontier state)).

Lemma is_callable_spec task b : is_callable graph task = Ok b →
  map_has (cg_nodes graph) (task_node_id task) = true ∧ (b = true ↔ callable graph (task_node_id task)).
Proof.
  unfold is_callable, callable, node_resources, map_has. destruct (map_get _ _) as [[]|]; cbn; intros [= <-]; split; try done; naive_solver.
Qed.

Lemma executables_of_tasks request tasks executables : executables_of codec graph request tasks = Ok executables →
  ex_task <$> executables = filter (λ task, callable graph (task_node_id task)) tasks
  ∧ ∀ ex, ex ∈ executables → materialize_node_input codec graph (req_state request) (req_scope_run request) (req_frames request)
                               (task_node_id (ex_task ex)) (req_session request) = Ok (ex_effective_input ex).
Proof.
  revert executables. induction tasks as [|task tasks IH]; cbn [executables_of]; intros executables.
  { intros [= <-]. split; [done|]. by intros ex ?%elem_of_nil. }
  intros (b & [_ Hb]%is_callable_spec & Hrest)%bind_Ok. rewrite filter_cons. destruct b.
  - apply bind_Ok in Hrest as (ex & Hex & Hrest). apply bind_Ok in Hrest as (exs & Hexs & [= <-]).
    unfold executable_task in Hex. apply bind_Ok in Hex as (input & Hin & [= <-]).
    destruct (IH _ Hexs) as [Ht Hall]. rewrite decide_True by by apply Hb. cbn. rewrite Ht. split; [done|].
    intros ex [->|Hex]%elem_of_cons; [done|by apply Hall].
  - rewrite decide_False by (intros Hc; by apply Hb in Hc). by apply IH.
Qed.

(** The results of children are those of the nested tasks. *)
Lemma project_child_tasks children entry children' : project_child graph children entry = Ok children' →
  node_result_task <$> ch_results children' `sublist_of` (node_result_task <$> ch_results children) ++ [entry.1].
Proof.
  destruct entry as [task projection]. unfold project_child. destruct projection; intros E; inv_ok; simplify_eq/=;
    rewrite ?fmap_app; cbn; first [done|by apply sublist_inserts_r].
Qed.

Lemma children_tasks entries children : py_for_state entries (mkChildren [] [] []) (project_child graph) = Ok children →
  node_result_task <$> ch_results children `sublist_of` entries.*1.
Proof.
  intros E. refine (py_for_state_prefix (λ dn (children : Children (A := A) (C := C) (S := S)),
    node_result_task <$> ch_results children `sublist_of` dn.*1) (project_child graph) _ entries _ _ _ E); [|constructor].
  intros dn entry ch ch' Hch Hstep. apply project_child_tasks in Hstep. rewrite fmap_app. etrans; [exact Hstep|].
  by apply sublist_app.
Qed.

(** What [prepare_frontier] plans for a running snapshot. *)
Lemma prepare_frontier_spec request prep : st_status (req_state request) = RUNNING →
  prepare_frontier codec graph request = Ok prep →
  fp_request prep = request ∧ plan_tasks graph (req_state request) (req_limits request) = Ok (fp_tasks prep)
  ∧ fp_tasks prep = node_task (req_state request) <$> pending (req_state request)
  ∧ ex_task <$> fp_executables prep = filter (λ task, callable graph (task_node_id task)) (fp_tasks prep)
  ∧ node_result_task <$> fp_nested_results prep
      `sublist_of` List.filter (λ task, map_has (nested_graphs graph) (task_node_id task)) (fp_tasks prep).
Proof.
  intros Hst Hprep. unfold prepare_frontier in Hprep. apply bind_Ok in Hprep as (tasks & Hplan & Hrest).
  apply bind_Ok in Hrest as (expected & Hexp & Hrest). apply seq_Ok_iff in Hrest as [_ Hrest].
  apply bind_Ok in Hrest as (children & Hch & Hrest). apply bind_Ok in Hrest as (executables & Hex & [= <-]). cbn.
  split_and!; [done|done| |by apply executables_of_tasks in Hex as [? _]|].
  - unfold plan_tasks in Hplan. apply seq_Ok_iff in Hplan as [_ Hplan]. rewrite Hst, bool_decide_true in Hplan by done.
    by apply seq_Ok_iff in Hplan as [_ [= <-]].
  - apply children_tasks in Hch. etrans; [exact Hch|]. clear. revert request. intros request.
    generalize (req_child_projections request). induction (List.filter _ tasks) as [|t ts IH]; intros [|p ps]; cbn; try constructor; [apply sublist_nil_l|done].
Qed.

(** A claim that was prepared. *)
Record prepared (owner : Z) request (attempt : str) (claim : PreparedExecutionClaim A C S) : Prop := {
  pd_guard : require_scoped_snapshot_matches_graph graph (req_state request) (req_scope_run request) = Ok tt;
  pd_status : st_status (req_state request) = RUNNING;
  pd_unleased : st_execution (req_state request) = None;
  pd_pending : pending (req_state request) ≠ [];
  pd_frontier : prepare_frontier codec graph request = Ok (pc_preparation claim);
  pd_resources : ∃ resources, claim_resource_snapshot graph (fp_tasks (pc_preparation claim)) = Ok resources
    ∧ pc_command claim = project_claim_command (req_state request) attempt resources;
  pd_owner : pc_owner claim = owner ∧ pc_consumed claim = false
}.

Lemma executable_pending state : frontier_status (st_frontier state) = Ok EXECUTABLE → pending state ≠ [].
Proof.
  unfold frontier_status. destruct (existsb is_pending _) eqn:E; [|by repeat case_match]. intros _ Hnil.
  apply existsb_true_iff in E as (x & (m & -> & Hm)%list_elem_of_fmap & Hp).
  assert (fn_node_id m ∈ pending state) as Hin by (apply elem_pending; eauto). rewrite Hnil in Hin. by apply elem_of_nil in Hin.
Qed.

Lemma prepare_superstep_claim owner request attempt claim waiting :
  prepare_superstep codec repr_tuple owner graph request attempt = Ok (ExecutableFrontier claim waiting) →
  prepared owner request attempt claim.
Proof.
  unfold prepare_superstep. intros Hs. apply seq_Ok_iff in Hs as [Hg Hs].
  destruct (st_status (req_state request)) eqn:Est; [|done..].
  assert (wf (req_state request)) as Hwf by (apply seq_Ok_iff in Hg as [Hg _]; by apply guard_guarded in Hg as []).
  pose proof (wf_lifecycle _ Hwf) as Hlife. unfold lifecycle_ok in Hlife. rewrite Est in Hlife.
  apply bind_Ok in Hs as (status & Hstatus & Hs).
  assert (status = EXECUTABLE) as ->. { destruct status; [done|naive_solver|done|by inv_ok]. }
  apply seq_Ok_iff in Hs as [He Hs]. apply raise_if_Ok, bool_decide_eq_false in He.
  apply bind_Ok in Hs as (frontier & Hf & Hs). apply bind_Ok in Hs as (children & _ & Hs).
  assert (∃ resources, claim_resource_snapshot graph (fp_tasks frontier) = Ok resources
    ∧ claim = prepare_claim owner frontier resources attempt) as (resources & Hres & ->).
  { repeat case_match; try done; inv_ok; simplify_eq; eauto. }
  split; cbn; try done; [by destruct (st_execution _); [destruct He|]|by apply executable_pending|].
  exists resources. split; [done|]. by destruct (prepare_frontier_spec _ _ Est Hf) as [-> _].
Qed.

(* ---------------------------------------------------------------- *)
(** ** Issuing *)

Lemma claimed_scoped request c : require_scoped_snapshot_matches_graph graph (req_state request) (req_scope_run request) = Ok tt →
  require_snapshot_matches_graph graph (claimed (req_state request) c) = Ok tt →
  require_scoped_snapshot_matches_graph graph (claimed (req_state request) c) (req_scope_run request) = Ok tt.
Proof. intros Hg Hc. unfold require_scoped_snapshot_matches_graph in *. apply seq_Ok_iff in Hg as [_ Hg]. by rewrite Hc. Qed.

Lemma claimed_issued owner request attempt claim : prepared owner request attempt claim →
  is_canonical_identity attempt = true → 1 ≤ max_parallel_tasks (req_limits request) →
  reduce_graph_run (Some (req_state request)) (CmdClaim (pc_command claim)) = Ok (claimed (req_state request) (pc_command claim))
  ∧ require_scoped_snapshot_matches_graph graph (claimed (req_state request) (pc_command claim)) (req_scope_run request) = Ok tt
  ∧ issued graph (claimed (req_state request) (pc_command claim)) (pc_preparation claim).
Proof using Hnested.
  intros [Hg Hst He Hp Hf (resources & Hres & Hcmd) _] Hat Hl. set (state := req_state request) in *.
  destruct (prepare_frontier_spec _ _ Hst Hf) as (Hreq & Hplan & Htasks & Hex & Hnest). fold state in Hplan, Htasks.
  destruct (claim_accepted_again graph state _ _ _ attempt Hst He Hp Hplan Hres Hat) as [Hred Hguard]. rewrite <- Hcmd in Hred, Hguard.
  split; [done|]. split; [by apply claimed_scoped|].
  apply seq_Ok_iff in Hg as [Hg _]. destruct (guard_guarded _ _ Hg) as [Hwf Hknown].
  pose proof (plan_tasks_spec _ _ _ _ Hplan Hst) as [_ Hnodes].
  pose proof (claim_resources_spec _ _ _ _ Hwf Hnodes Hres) as Hspec.
  assert (∀ n, node_task (claimed state (pc_command claim)) n = node_task state n) as Htask by done.
  assert (pending (claimed state (pc_command claim)) = pending state) as Hpend by done.
  assert (NoDup (fp_tasks (pc_preparation claim))) as Hnd.
  { eapply (NoDup_fmap_1 task_node_id). rewrite Hnodes. by apply pending_NoDup. }
  split.
  - by apply guard_guarded in Hguard as [].
  - intros n (m & Hm & <- & _)%elem_pending. by apply Hknown.
  - rewrite Hex, Htasks, Hpend. clear. induction (pending state) as [|n ns IH]; [done|].
    rewrite fmap_cons, !filter_cons. case_decide; case_decide; [rewrite fmap_cons; by f_equal|done..].
  - eapply sublist_NoDup; [|exact Hnest]. eapply sublist_NoDup; [exact Hnd|]. clear.
    induction (fp_tasks _) as [|t ts IH]; cbn; [constructor|]. by case_match; constructor.
  - intros t Ht. assert (t ∈ List.filter (λ task, map_has (nested_graphs graph) (task_node_id task)) (fp_tasks (pc_preparation claim))) as Hin
      by by eapply sublist_subseteq.
    rewrite List_filter_elem, Htasks in Hin. destruct Hin as [Hn (n & -> & Hin)%list_elem_of_fmap].
    exists n. split_and!; [done..|]. by apply Hnested in Hn as [_ ?].
  - intros k v. unfold resource_bound. rewrite Hpend. fold (resource_bound graph state k v).
    change (st_resources (claimed state (pc_command claim))) with (claim_resources (pc_command claim)).
    rewrite Hcmd. cbn. destruct resources as [r|]; [by apply Hspec|]. cbn. rewrite elem_of_nil. split; [done|]. apply Hspec.
  - by rewrite Hreq.
Qed.

(** The claim left behind by a consumption refuses every further one. *)
Lemma consumed_refuses owner state (claim : PreparedExecutionClaim A C S) : pc_consumed claim = true →
  ∃ e, issue_session owner graph claim state = Raise e.
Proof.
  intros Hc. unfold issue_session, consume. rewrite Hc. destruct (require_scoped_snapshot_matches_graph _ _ _); by eexists.
Qed.

Lemma issue_session_once owner request attempt claim : prepared owner request attempt claim →
  is_canonical_identity attempt = true → 1 ≤ max_parallel_tasks (req_limits request) →
  let st0 := claimed (req_state request) (pc_command claim) in
  ∃ claim', issue_session owner graph claim st0 = Ok (st0, pc_preparation claim, claim') ∧ pc_consumed claim' = true.
Proof using Hnested.
  intros Hprep Hat Hl st0. destruct (claimed_issued _ _ _ _ Hprep Hat Hl) as (Hred & Hguard & _).
  destruct (prepare_frontier_spec _ _ (pd_status _ _ _ _ Hprep) (pd_frontier _ _ _ _ Hprep)) as (Hreq & _ & Htasks & _).
  destruct (pd_owner _ _ _ _ Hprep) as [Ho Hc]. unfold issue_session, consume, require_committed_claim_state.
  fold st0 in Hred, Hguard. rewrite Hreq, Hguard, Hc, Ho, Z.eqb_refl. cbn [mbind result_bind collection_fail_if raise_if negb].
  rewrite Hred. cbn [mbind result_bind]. rewrite bool_decide_true by done. rewrite bool_decide_true by done. cbn. by eexists.
Qed.
End superstep.

(* ------------------------------------------------------------------ *)
(** * The tasks of a session

    A session holds each of its tasks at most once, live, as a buffered event or as a
    queued result; what moves between them never appears twice, and what is scheduled was
    never started before. *)

Lemma NoDup_submseteq_sub {A} (xs ys : list A) : xs ⊆+ ys → NoDup ys → NoDup xs.
Proof. intros (zs & Hp)%submseteq_Permutation. rewrite Hp. by intros (? & _)%NoDup_app. Qed.

Lemma mapM_Ok_all {A B} (f : A → result B) (P : A → B → Prop) xs :
  (∀ x, x ∈ xs → ∃ y, f x = Ok y ∧ P x y) → ∃ ys, mapM f xs = Ok ys ∧ Forall2 P xs ys.
Proof.
  induction xs as [|x xs IH]; intros Hf; cbn; [by exists []|].
  destruct (Hf x) as (y & -> & HP); [by left|]. destruct IH as (ys & -> & HPs); [intros; apply Hf; by right|].
  cbn. exists (y :: ys). by split; [|constructor].
Qed.

Lemma select_loop_total {V} (graph : CompiledGraph V) acqs started slots tasks :
  (∀ t, t ∈ tasks → map_has (cg_nodes graph) (task_node_id t) = true) →
  ∀ selected, ∃ r, select_loop graph acqs started slots tasks selected = Ok r.
Proof.
  induction tasks as [|t tasks IH]; intros Hk selected; cbn; [by eexists|].
  assert (∃ b, selectable graph acqs started t = Ok b) as [b ->].
  { unfold selectable. destruct (mem _ _); [by eexists|].
    destruct (proj1 (map_has_get _ _) (Hk t ltac:(by left))) as [v ->]. cbn. by repeat case_match; eexists. }
  cbn. destruct b; [case_match|]; [by eexists|..]; apply IH; intros; apply Hk; by right.
Qed.

Section pool.
Context {A V W C S : Type} `{ValueTypes A V W} `{Configs C} `{EqDecision S}.
Context (graph : CompiledGraph V) (st0 : GraphRunState) (prep : FrontierPreparation A C S).
Context (Hissued : issued graph st0 prep).
Notation Session := (ExecutionSession (A := A) (C := C) (S := S)).
Notation pending state := (pending_node_ids (st_frontier state)).
Notation Ev := (Event (A := A) (C := C) (S := S)).
Implicit Types (s : Session) (done : list GraphTask).

Definition exec_tasks : list GraphTask := ex_task <$> fp_executables prep.
Definition claimed_tasks : list GraphTask := node_task st0 <$> pending st0.

Definition queued_tasks s : list GraphTask := node_result_task ∘ fst <$> ss_queued s.
Definition holding s : list GraphTask :=
  live_tasks (ss_scheduler s) ++ event_tasks (ss_scheduler s) ++ queued_tasks s.

Lemma exec_task_spec t : t ∈ exec_tasks ↔ ∃ n, t = node_task st0 n ∧ n ∈ pending st0 ∧ callable graph n.
Proof using Hissued.
  unfold exec_tasks. rewrite (is_executables _ _ _ Hissued), list_elem_of_fmap.
  setoid_rewrite list_elem_of_filter. naive_solver.
Qed.
Lemma exec_tasks_claimed : exec_tasks ⊆ claimed_tasks.
Proof using Hissued. intros t (n & -> & Hn & _)%exec_task_spec. by apply list_elem_of_fmap_2. Qed.
Lemma exec_tasks_NoDup : NoDup exec_tasks.
Proof using Hissued.
  unfold exec_tasks. rewrite (is_executables _ _ _ Hissued).
  apply NoDup_fmap_2_strong; [|apply NoDup_filter, pending_NoDup, Hissued].
  intros n n' _ _ E. apply (node_task_inj graph st0 prep Hissued). by rewrite E.
Qed.
Lemma claimed_identified : identified claimed_tasks.
Proof using Hissued.
  intros t t' (n & -> & _)%list_elem_of_fmap (n' & -> & _)%list_elem_of_fmap E.
  by rewrite (node_task_inj graph st0 prep Hissued n n' E).
Qed.
Lemma claimed_node t : t ∈ claimed_tasks → t = node_task st0 (task_node_id t) ∧ task_node_id t ∈ pending st0.
Proof. by intros (n & -> & Hn)%list_elem_of_fmap. Qed.

(** The bookkeeping of a session that has yielded [done]. *)
Record pool s done : Prop := {
  po_executables : ss_executables s = fp_executables prep;
  po_limits : ss_limits s = req_limits (fp_request prep);
  po_keys : keyed_live (ss_scheduler s);
  po_live : live_tasks (ss_scheduler s) ⊆ exec_tasks;
  po_claimed : holding s ++ done ⊆ claimed_tasks;
  po_once : NoDup (holding s ++ done);
  po_started : ∀ t, t ∈ exec_tasks → t ∈ holding s ++ done → task_node_id t ∈ ss_started s;
  po_bound : Z.of_nat (length (ts_live (ss_scheduler s))) ≤ max_parallel_tasks (ss_limits s)
}.

(** Tasks may leave the session or be yielded. *)
Lemma pool_shrink s s' done done' :
  pool s done → ss_executables s' = ss_executables s → ss_limits s' = ss_limits s → ss_started s' = ss_started s →
  sublist (ts_live (ss_scheduler s')) (ts_live (ss_scheduler s)) → holding s' ++ done' ⊆+ holding s ++ done →
  pool s' done'.
Proof.
  intros [] He Hl Hst Hsub Hh. split; rewrite ?He, ?Hl, ?Hst; try done.
  - intros i ex Hin. apply po_keys0. by eapply sublist_subseteq.
  - intros t Ht. apply po_live0. unfold live_tasks in *. by eapply sublist_subseteq; [apply fmap_sublist|].
  - intros t Ht. apply po_claimed0. by eapply elem_of_submseteq.
  - by eapply NoDup_submseteq_sub.
  - intros t Ht Hin. apply po_started0; [done|]. by eapply elem_of_submseteq.
  - etrans; [|exact po_bound0]. apply inj_le, sublist_length. done.
Qed.

Lemma pool_open state : pool (open_session state prep) [].
Proof using Hissued.
  split; try done; cbn.
  - intros i ex []%elem_of_nil.
  - unfold live_tasks. cbn. intros t []%elem_of_nil.
  - rewrite app_nil_r. unfold holding, queued_tasks. cbn. rewrite <- list_fmap_compose.
    intros t Ht. destruct (is_nested _ _ _ Hissued t) as (n & -> & Hn & _); [exact Ht|]. by apply list_elem_of_fmap_2.
  - rewrite app_nil_r. unfold holding, queued_tasks. cbn. rewrite <- list_fmap_compose. apply (is_nested_once _ _ _ Hissued).
  - rewrite app_nil_r. unfold holding, queued_tasks. cbn. rewrite <- list_fmap_compose.
    intros t (n & -> & Hn & Hc)%exec_task_spec Ht.
    destruct (is_nested _ _ _ Hissued _ Ht) as (n' & E & _ & Hnc). destruct Hnc.
    apply (f_equal task_node_id) in E. cbn in E. by subst.
  - pose proof (is_limits _ _ _ Hissued). lia.
Qed.

(* ---------------------------------------------------------------- *)
(** ** Draining events *)

(** Recording errors touches what is recorded of errors only. *)
Lemma record_errors_fields (events : list Ev) s :
  ∃ e o d, fold_left (λ s event, match event with TaskRaised task error => record_error s task error | Completed _ => s end) events s
    = s <| ss_error := e |> <| ss_node_origin := o |> <| ss_disposition := d |>
    ∧ (ss_error s = None → e = None → o = ss_node_origin s ∧ d = ss_disposition s ∧ Forall (λ event : Ev, is_raised event = false) events)
    ∧ (d = ss_disposition s ∨ d = ERROR_DRAINING ∧ e ≠ None) ∧ (ss_error s ≠ None → e ≠ None).
Proof.
  revert s. induction events as [|[r|task error] events IH]; intros s; cbn [fold_left].
  - exists (ss_error s), (ss_node_origin s), (ss_disposition s). split; [by destruct s|]. naive_solver.
  - destruct (IH s) as (e & o & d & -> & Hn & Hd & He). exists e, o, d. split_and!; [done| |done|done].
    intros H1 H2. destruct (Hn H1 H2) as (? & ? & ?). split_and!; [done..|]. by constructor.
  - destruct (IH (record_error s task error)) as (e & o & d & -> & _ & Hd & He).
    exists e, o, d. unfold record_error in *.
    destruct (match ss_error s with Some _ => _ | None => _ end) as [first_task first]. cbn in *.
    split; [done|]. destruct Hd as [->|Hd]; naive_solver.
Qed.

(** What [_drain_scheduler_events] does: completions are queued, errors recorded. *)
Definition completions (events : list (Event (A := A) (C := C) (S := S))) : list (NodeResult A C S * bool) :=
  omap (λ event, match event with Completed result_ => Some (result_, true) | TaskRaised _ _ => None end) events.

Lemma drain_spec s : ∃ e o d,
  drain_scheduler_events s = s <| ss_scheduler := mkScheduler (ts_live (ss_scheduler s)) [] |>
    <| ss_queued := ss_queued s ++ completions (ts_events (ss_scheduler s)) |>
    <| ss_error := e |> <| ss_node_origin := o |> <| ss_disposition := d |>
  ∧ (ss_error s = None → e = None → o = ss_node_origin s ∧ d = ss_disposition s
       ∧ Forall (λ event : Ev, is_raised event = false) (ts_events (ss_scheduler s)))
  ∧ (d = ss_disposition s ∨ d = ERROR_DRAINING ∧ e ≠ None) ∧ (ss_error s ≠ None → e ≠ None).
Proof.
  unfold drain_scheduler_events.
  destruct (record_errors_fields (ts_events (ss_scheduler s)) (s <| ss_scheduler := mkScheduler (ts_live (ss_scheduler s)) [] |>))
    as (e & o & d & -> & Hn & Hd & He). cbn in Hn, Hd, He. exists e, o, d. split_and!; [|done..]. by destruct s.
Qed.

Lemma completions_tasks events : node_result_task ∘ fst <$> completions events ⊆+ event_task <$> events.
Proof.
  apply sublist_submseteq. induction events as [|[r|t e] events IH]; cbn; by constructor.
Qed.

Lemma completions_all events : Forall (λ event : Ev, is_raised event = false) events →
  node_result_task ∘ fst <$> completions events = event_task <$> events.
Proof. induction 1 as [|[] events Hr _ IH]; cbn; [done| |done]. by f_equal. Qed.

Lemma pool_drain s done : pool s done → pool (drain_scheduler_events s) done.
Proof.
  intros Hp. destruct (drain_spec s) as (e & o & d & -> & _). eapply (pool_shrink s); [done..|cbn; done|].
  apply submseteq_skips_r. unfold holding, queued_tasks, event_tasks, live_tasks. cbn. rewrite fmap_app.
  apply submseteq_skips_l. rewrite (Permutation_app_comm (event_task <$> _)). apply submseteq_skips_l, completions_tasks.
Qed.

(* ---------------------------------------------------------------- *)
(** ** Scheduling *)

(** The selected executables. *)
Record selection s (sel : list (ExecutableTask A C S)) : Prop := {
  sl_once : NoDup (ex_task <$> sel);
  sl_exec : ex_task <$> sel ⊆ exec_tasks;
  sl_new : ∀ ex, ex ∈ sel → task_node_id (ex_task ex) ∉ ss_started s;
  sl_bound : sel ≠ [] → Z.of_nat (length (ts_live (ss_scheduler s)) + length sel) ≤ max_parallel_tasks (ss_limits s);
  sl_none : sel = [] → ss_disposition s = OPEN →
    Z.of_nat (length (ts_live (ss_scheduler s))) < max_parallel_tasks (ss_limits s) →
    ∀ t, t ∈ exec_tasks → task_node_id t ∈ pending (ss_state s) →
      ¬ can_start graph (st_resources (ss_state s)) (ss_started s) t
}.

Lemma selected_executables (executables : list (ExecutableTask A C S)) selected :
  NoDup (ex_task <$> executables) → ex_task <$> executables ⊆ claimed_tasks → selected ⊆ ex_task <$> executables →
  ∃ sel, mapM (λ task, assoc_get (fold_left (λ d (executable : ExecutableTask A C S), dict_set (task_id (ex_task executable)) executable d) executables [])
                         (task_id task)) selected = Ok sel ∧ ex_task <$> sel = selected.
Proof using Hissued.
  intros Hnd Hcl Hsub.
  destruct (mapM_Ok_all (λ task, assoc_get (fold_left (λ d (executable : ExecutableTask A C S), dict_set (task_id (ex_task executable)) executable d) executables [])
                         (task_id task)) (λ task ex, ex_task ex = task) selected) as (sel & Hsel & Hall).
  - intros t Ht. assert (t ∈ ex_task <$> executables) as (ex & -> & Hex)%list_elem_of_fmap by by apply Hsub.
    exists ex. split; [|done]. unfold assoc_get.
    assert (NoDup (task_id ∘ ex_task <$> executables)) as Hids.
    { rewrite list_fmap_compose. by eapply identified_NoDup; [apply claimed_identified|..]. }
    by rewrite (proj2 (assoc_comprehension (task_id ∘ ex_task) (λ ex, ex) executables (task_id (ex_task ex)) ex Hids)) by (by exists ex).
  - exists sel. split; [done|]. clear -Hall. induction Hall as [|t ex ts exs <- _ IH]; cbn; [done|]. by rewrite IH.
Qed.

Lemma select_ordinary_spec s done : pool s done → wf (ss_state s) →
  ∃ sel, select_ordinary graph s = Ok sel ∧ selection s sel.
Proof using Hissued.
  intros Hp Hwf. unfold select_ordinary. case_bool_decide as Hopen; cbn [negb].
  2: { exists []. split; [done|]. split; cbn; try done; [constructor|by intros t ?%elem_of_nil|by intros t ?%elem_of_nil]. }
  set (executables := List.filter _ _).
  assert (∀ ex, ex ∈ executables ↔ ex ∈ fp_executables prep ∧ task_node_id (ex_task ex) ∈ pending (ss_state s)) as Hex.
  { intros ex. unfold executables. rewrite List_filter_elem, mem_spec, (po_executables _ _ Hp). naive_solver. }
  assert (ex_task <$> executables ⊆ exec_tasks) as Hsub.
  { intros t (ex & -> & [Hin _]%Hex)%list_elem_of_fmap. by apply list_elem_of_fmap_2. }
  assert (NoDup (ex_task <$> executables)) as Hnd.
  { eapply sublist_NoDup; [apply exec_tasks_NoDup|]. unfold exec_tasks, executables. rewrite (po_executables _ _ Hp).
    apply fmap_sublist. clear. induction (fp_executables prep) as [|ex exs IH]; cbn; [constructor|]. by case_match; constructor. }
  assert (NoDup (acq_node_id <$> acquisitions_of (st_resources (ss_state s)))) as Hacq.
  { pose proof (wf_resources _ Hwf) as Hr. unfold resources_ok in Hr. destruct (st_resources (ss_state s)); [|constructor].
    rewrite on_some_Some in Hr. destruct Hr as [Hv _]. by apply inv_nodes, valid_inv. }
  assert (∃ selected, select_executable_tasks graph (ex_task <$> executables) (st_resources (ss_state s)) (ss_limits s)
    (Z.of_nat (length (ts_live (ss_scheduler s)))) (ss_started s) = Ok selected) as [selected Hselected].
  { unfold select_executable_tasks. case_match; [by eexists|]. apply select_loop_total. intros t Ht.
    rewrite sorted_key_elem in Ht. apply Hsub, exec_task_spec in Ht as (n & -> & Hn & _). by apply (is_known _ _ _ Hissued). }
  destruct (selection_spec _ _ _ _ _ _ _ Hacq Hselected) as (eligible & Hel & Heligible & ->).
  rewrite Hselected. cbn [mbind result_bind]. set (k := Z.to_nat _).
  assert (take k eligible ⊆ eligible) as Htake by (intros t (? & ?%list_elem_of_lookup_2 & _)%elem_of_take; done).
  destruct (selected_executables executables (take k eligible)) as (sel & Hsel & Htasks).
  { done. } { etrans; [exact Hsub|apply exec_tasks_claimed]. } { intros t [? _]%Htake%Heligible. done. }
  exists sel. split; [exact Hsel|]. pose proof (po_bound _ _ Hp) as Hb.
  assert (NoDup eligible) as Hnde.
  { eapply sublist_NoDup; [|exact Hel]. unfold sorted_key. by rewrite sort_by_perm. }
  split.
  - rewrite Htasks. by eapply sublist_NoDup; [|apply sublist_take].
  - rewrite Htasks. intros t [Ht _]%Htake%Heligible. by apply Hsub.
  - intros ex Hin. assert (ex_task ex ∈ take k eligible) as [_ [Hnew _]]%Htake%Heligible; [|done].
    rewrite <- Htasks. by apply list_elem_of_fmap_2.
  - intros _. apply (f_equal length) in Htasks. rewrite length_fmap, length_take in Htasks. subst k. lia.
  - intros -> _ Hfree t (n & -> & Hn & Hc)%exec_task_spec Hpend Hcan.
    assert (node_task st0 n ∈ eligible) as Hin.
    { apply Heligible. split; [|done]. assert (node_task st0 n ∈ exec_tasks) as (ex & E & Hin)%list_elem_of_fmap.
      { apply exec_task_spec. by exists n. }
      rewrite E. apply list_elem_of_fmap_2, Hex. by rewrite <- E. }
    destruct eligible as [|t ts]; [by apply elem_of_nil in Hin|]. cbn in Htasks.
    destruct k as [|k'] eqn:Ek; [subst k; lia|done].
Qed.

Lemma schedule_spec s done : pool s done → wf (ss_state s) →
  ∃ sel s', schedule_ordinary graph s = Ok (negb (is_nil sel), s') ∧ selection s sel
    ∧ s' = s <| ss_scheduler := mkScheduler (ts_live (ss_scheduler s) ++ ((λ ex, (task_id (ex_task ex), ex)) <$> sel))
                                  (ts_events (ss_scheduler s)) |>
             <| ss_started := ss_started s ++ (task_node_id ∘ ex_task <$> sel) |>
    ∧ holding s' ≡ₚ (ex_task <$> sel) ++ holding s ∧ pool s' done.
Proof using Hissued.
  intros Hp Hwf. destruct (select_ordinary_spec s done Hp Hwf) as (sel & Hsel & Hs). unfold schedule_ordinary.
  rewrite Hsel. cbn [mbind result_bind].
  assert (∀ t, t ∈ ex_task <$> sel → t ∉ holding s ++ done) as Hnew.
  { intros t (ex & -> & Hex)%list_elem_of_fmap Hin. apply (sl_new _ _ Hs ex Hex), (po_started _ _ Hp); [|done].
    by apply (sl_exec _ _ Hs), list_elem_of_fmap_2. }
  assert (NoDup ((ex_task <$> sel) ++ holding s ++ done)) as Hnd.
  { apply NoDup_app. split_and!; [apply Hs|done|apply Hp]. }
  rewrite (submit_fresh _ _ claimed_tasks).
  2: apply Hp. 2: apply claimed_identified.
  2: { intros t Ht. rewrite !elem_of_app in Ht. destruct Ht as [Ht|[Ht|Ht]].
       - apply (po_claimed _ _ Hp). unfold holding. set_solver.
       - apply (po_claimed _ _ Hp). unfold holding. set_solver.
       - by apply exec_tasks_claimed, (sl_exec _ _ Hs). }
  2: { eapply NoDup_submseteq_sub; [|exact Hnd]. rewrite app_assoc, (Permutation_app_comm (live_tasks _ ++ _)).
       apply submseteq_skips_l. unfold holding. rewrite <- !app_assoc. apply submseteq_skips_l, submseteq_inserts_r. done. }
  cbn [mbind result_bind]. exists sel. eexists. split; [reflexivity|]. split; [done|]. split; [done|].
  match goal with |- _ ∧ pool ?s' _ => assert (holding s' ≡ₚ (ex_task <$> sel) ++ holding s) as Hperm end.
  { unfold holding, live_tasks, event_tasks, queued_tasks. cbn. rewrite fmap_app, <- list_fmap_compose.
    change (ex_task ∘ snd ∘ (λ ex : ExecutableTask A C S, (task_id (ex_task ex), ex))) with (ex_task (A := A) (C := C) (S := S)).
    by rewrite (Permutation_app_comm (ex_task ∘ snd <$> _)), <- !app_assoc. }
  split; [exact Hperm|]. split; try apply Hp.
  - intros i ex [Hin|(ex' & [= -> ->] & Hin)%list_elem_of_fmap]%elem_of_app; [by apply (po_keys _ _ Hp)|done].
  - unfold live_tasks. cbn. rewrite fmap_app, <- list_fmap_compose. intros t [Ht|Ht]%elem_of_app; [by apply (po_live _ _ Hp)|].
    by apply (sl_exec _ _ Hs).
  - rewrite Hperm, <- app_assoc. intros t [Ht|Ht]%elem_of_app; [by apply exec_tasks_claimed, (sl_exec _ _ Hs)|by apply (po_claimed _ _ Hp)].
  - by rewrite Hperm, <- app_assoc.
  - intros t Ht. rewrite Hperm, <- app_assoc. cbn. intros [Hin|Hin]%elem_of_app; apply elem_of_app.
    + right. rewrite list_fmap_compose. by apply list_elem_of_fmap_2.
    + left. by apply (po_started _ _ Hp).
  - cbn. rewrite length_app, length_fmap. destruct sel as [|ex sel]; [cbn; pose proof (po_bound _ _ Hp); lia|].
    by apply (sl_bound _ _ Hs).
Qed.
End pool.
