(* ===== verification/SessionProofs.v ===== *)
(** * Execution sessions are safe and live

    In every interleaving of calls, completions, pauses, cancellations and closings, a
    session yields each claimed node at most once, keeps within its parallelism, and
    settles nodes along confirmed states only; and it never gets stuck. *)

From Stdlib Require Import ZArith NArith Lia Bool String.
From stdpp Require Import prelude strings gmap sorting.
From S2P Require Import Prelude Identity Resources ResourceProofs Model Transitions WellFormed Reducer SettleProofs ConfirmationProofs Topology CompilerProofs Routing RoutingProofs Engine EngineProofs Values RunContext Materialization Superstep Session SessionState SessionPool.

Set Default Goal Selector "!".
Open Scope Z_scope.

Section proofs.
Context {A V W C S : Type} `{ValueTypes A V W} `{Configs C} `{EqDecision S}.
Context (graph : CompiledGraph V) (st0 : GraphRunState) (prep : FrontierPreparation A C S).
Notation Session := (ExecutionSession (A := A) (C := C) (S := S)).
Notation Log := (list (ExecutedGraphNode (A := A) (C := C) (S := S))).
Notation Answer := (Answered (A := A) (C := C) (S := S)).
Notation pending state := (pending_node_ids (st_frontier state)).
Notation exec_tasks := (exec_tasks prep).
Notation pool := (pool st0 prep).
Notation trail := (trail (A := A) (C := C) (S := S) graph st0).
Implicit Types (s : Session) (log : Log) (a : Answer).

(* ---------------------------------------------------------------- *)
(** ** The steps of a session *)

(** A call of [next], finished tasks, the end of a pause, a cancellation of the suspended
    call, and [aclose]. *)
Inductive step : Session → Answer → Session → Prop :=
| step_call s state s' a : next graph s state = (s', a) → step s a s'
| step_finish s done s' a :
    ss_pc s = AtWait → reported (ss_scheduler s) done → deliver graph s done = (s', a) → step s a s'
| step_resume s projected s' a : ss_pc s = AtPause projected → unpause s projected = (s', a) → step s a s'
| step_cancel s s' a : ss_pc s ≠ Idle → cancel s = (s', a) → step s a s'
| step_close s : step s Suspended (aclose s).

Definition yielded a : Log := match a with Yielded projected => [projected] | _ => [] end.
Definition failed a : bool := match a with Failed _ => true | _ => false end.

(** Runs from the issued session, with their answers. *)
Inductive run : Session → list Answer → Prop :=
| run_open : run (open_session st0 prep) []
| run_step s answers a s' : run s answers → step s a s' → run s' (answers ++ [a]).

Definition entries (answers : list Answer) : Log := answers ≫= yielded.

(* ---------------------------------------------------------------- *)
(** ** The invariant *)

(** What the session is about to yield. *)
Definition paused s : Log :=
  if bool_decide (ss_disposition s = CLOSED) then []
  else match ss_pc s with AtPause projected => [projected] | _ => [] end.

(** All entries are confirmed up to the state, or all but the last. *)
Definition settles_next (log : Log) (state : GraphRunState) (command : SettleGraphNode) : Prop :=
  ∃ l e, log = l ++ [e] ∧ eg_command e = command ∧ trail l state
    ∧ settle_result graph state (settlement_view (eg_result e)) = Ok command.

Record inv s log : Prop := {
  iv_pool : pool s (log_tasks (log ++ paused s));
  iv_chain : match ss_awaiting_ack s with
             | Some command => settles_next (log ++ paused s) (ss_state s) command
             | None => trail (log ++ paused s) (ss_state s)
                       ∨ (ss_disposition s = CLOSED ∧ ∃ command, settles_next log (ss_state s) command) end;
  iv_wait : ss_pc s = AtWait → ss_disposition s ≠ CLOSED → ss_awaiting_ack s = None;
  iv_pause : ∀ projected, paused s = [projected] → ss_awaiting_ack s ≠ None;
  iv_quiet : ss_disposition s = QUIESCENT → ss_pc s = Idle;
  iv_closed : ss_disposition s = CLOSED → ts_live (ss_scheduler s) = []
}.

(** Between an acknowledgement and the next projection. *)
Record ready s log : Prop := {
  rd_pool : pool s (log_tasks log);
  rd_trail : trail log (ss_state s);
  rd_none : ss_awaiting_ack s = None;
  rd_running : ∀ projected, ss_pc s ≠ AtPause projected;
  rd_open : ss_disposition s ≠ CLOSED ∧ ss_disposition s ≠ QUIESCENT
}.

(** Nothing was lost: without errors, a started task is held or was yielded. *)
Definition kept s (done : list GraphTask) : Prop :=
  ss_disposition s ≠ CLOSED → ss_error s = None →
  ss_disposition s = OPEN ∧ ∀ t, t ∈ exec_tasks → task_node_id t ∈ ss_started s → t ∈ holding s ++ done.

(** Why a session fails after nothing failed before. *)
Inductive explained log (e : exn) s' : Prop :=
| because_closed : ss_disposition s' = CLOSED → explained log e s'
| because_rejected (r : NodeResult A C S) : settle_result graph (ss_state s') (settlement_view r) = Raise e → explained log e s'
| because_raised t : ss_error s' = Some (t, e) → ts_live (ss_scheduler s') = [] → ss_queued s' = [] → explained log e s'
| because_finished : e = Exn StopAsyncIteration "" →
    (∀ n, n ∈ pending st0 → callable graph n → n ∈ task_node_id <$> log_tasks log ∧ n ∉ pending (ss_state s')) →
    explained log e s'.

Lemma log_tasks_snoc log e : log_tasks (log ++ [e]) = log_tasks log ++ [node_result_task (eg_result e)].
Proof. unfold log_tasks. by rewrite fmap_app. Qed.

Lemma paused_closed s : ss_disposition s = CLOSED → paused s = [].
Proof. intros Hc. unfold paused. by rewrite bool_decide_true. Qed.
Lemma paused_none s : (∀ p, ss_pc s ≠ AtPause p) → paused s = [].
Proof. intros Hp. unfold paused. case_bool_decide; [done|]. destruct (ss_pc s); naive_solver. Qed.

Context (Hissued : issued graph st0 prep).

Lemma inv_wf s log : inv s log → wf (ss_state s).
Proof using Hissued.
  intros [_ Hch _ _ _ _]. assert (∃ l, trail l (ss_state s)) as [l Hl]; [|by apply (trail_state _ _ _ Hissued) in Hl as [? _]].
  destruct (ss_awaiting_ack s); [destruct Hch as (l & e & _ & _ & Hl & _)|destruct Hch as [Hl|(_ & c & l & e & _ & _ & Hl & _)]]; eauto.
Qed.

Lemma ready_wf s log : ready s log → wf (ss_state s).
Proof using Hissued. intros [_ Ht _ _ _]. by apply (trail_state _ _ _ Hissued) in Ht as [? _]. Qed.

(** Closing keeps the invariant, wherever the session is. *)
Lemma closed_inv s log s' : inv s log →
  ss_disposition s' = CLOSED → ts_live (ss_scheduler s') = [] → ts_events (ss_scheduler s') = [] → ss_queued s' = [] →
  ss_awaiting_ack s' = None → ss_executables s' = ss_executables s → ss_limits s' = ss_limits s →
  ss_started s' = ss_started s → ss_state s' = ss_state s → inv s' log.
Proof.
  intros [Hp Hch Hw Hpa Hq Hc] Hd Hl He Hqu Ha Hex Hli Hst Hs.
  assert (holding s' = []) as Hh by (unfold holding, live_tasks, event_tasks, queued_tasks; by rewrite Hl, He, Hqu).
  split; rewrite ?(paused_closed s' Hd), ?app_nil_r; [| |congruence|done|congruence|done].
  - eapply pool_shrink; [exact Hp|done..| |].
    + rewrite Hl. apply sublist_nil_l.
    + rewrite Hh. unfold log_tasks. rewrite fmap_app. cbn. apply submseteq_inserts_l, submseteq_inserts_r. done.
  - rewrite Ha, Hs. destruct (paused s) as [|p ps] eqn:Ep.
    + rewrite app_nil_r in Hch. destruct (ss_awaiting_ack s); [right; eauto|naive_solver].
    + assert (ps = []) as ->. { unfold paused in Ep. repeat case_match; naive_solver. }
      specialize (Hpa p eq_refl). destruct (ss_awaiting_ack s) as [c|]; [|done].
      destruct Hch as (l & e & [-> _]%app_inj_tail & _ & Ht & _). by left.
Qed.

Lemma aclose_inv s log : inv s log → inv (aclose s) log ∧ inv (aclose (s <| ss_pc := Idle |>)) log.
Proof.
  intros Hi. unfold aclose. change (ss_disposition (s <| ss_pc := Idle |>)) with (ss_disposition s).
  case_bool_decide as Hd; [|split; by apply (closed_inv s log)].
  split; [done|]. destruct Hi as [Hp Hch Hw Hpa Hq Hc].
  rewrite (paused_closed _ Hd) in *.
  assert (paused (s <| ss_pc := Idle |>) = []) as Ep by by apply paused_closed.
  split; rewrite ?Ep; try done. eapply pool_shrink; [exact Hp|done..].
Qed.

Lemma ready_inv s log : ready s log → inv (s <| ss_pc := Idle |>) log.
Proof.
  intros [Hp Ht Hn _ [Hc Hq]]. assert (paused (s <| ss_pc := Idle |>) = []) as Ep by by apply paused_none.
  split; rewrite ?Ep, ?app_nil_r; cbn; try done.
  - eapply pool_shrink; [exact Hp|done..].
  - rewrite Hn. by left.
Qed.

(* ---------------------------------------------------------------- *)
(** ** Projecting a result *)

Lemma project_cases s (r : NodeResult A C S) s' a : project graph s r = (s', a) →
  (∃ e, a = Failed e ∧ s' = s <| ss_pc := Idle |> ∧ settle_result graph (ss_state s) (settlement_view r) = Raise e)
  ∨ (∃ c, a = Yielded (mkExecuted r c) ∧ s' = s <| ss_awaiting_ack := Some c |> <| ss_pc := Idle |>
       ∧ settle_result graph (ss_state s) (settlement_view r) = Ok c).
Proof. unfold project. destruct (settle_result _ _ _) eqn:E; intros [= <- <-]; eauto. Qed.

(** A projected result is the next entry, yielded now or after a pause. *)
Lemma projected_inv s log (r : NodeResult A C S) c s' : ready s log →
  settle_result graph (ss_state s) (settlement_view r) = Ok c →
  pool s' (log_tasks (log ++ [mkExecuted r c])) → ss_state s' = ss_state s → ss_awaiting_ack s' = Some c →
  ss_disposition s' = ss_disposition s → ss_pc s' = Idle → inv s' (log ++ [mkExecuted r c]).
Proof.
  intros [_ Ht _ _ [Hc Hq]] Hset Hp Hs Ha Hd Hpc. assert (paused s' = []) as Ep by (apply paused_none; by rewrite Hpc).
  split; rewrite ?Ep, ?app_nil_r; try done; [|congruence..].
  rewrite Ha, Hs. exists log, (mkExecuted r c). done.
Qed.

(** What every step keeps, with [Hk] that nothing was lost before it. *)
Record step_ok (Hk : Prop) log a s' : Prop := {
  so_inv : inv s' (log ++ yielded a);
  so_wait : a = Suspended → ss_pc s' = AtWait → ss_disposition s' ≠ CLOSED → ts_live (ss_scheduler s') ≠ [];
  so_kept : Hk → failed a = false → kept s' (log_tasks ((log ++ yielded a) ++ paused s'));
  so_failed : Hk → ∀ e, a = Failed e → explained log e s'
}.

Lemma holding_pop s r refill rest : ss_queued s = (r, refill) :: rest →
  holding s ≡ₚ node_result_task r :: holding (s <| ss_queued := rest |>).
Proof.
  intros Hq. unfold holding, queued_tasks. rewrite Hq. cbn. by rewrite !app_assoc, <- Permutation_middle.
Qed.

Lemma ready_pop s log r refill rest : ready s log → ss_queued s = (r, refill) :: rest →
  pool (s <| ss_queued := rest |>) (log_tasks log ++ [node_result_task r]).
Proof.
  intros Hr Hq. eapply pool_shrink; [apply (rd_pool _ _ Hr)|done..|].
  rewrite (holding_pop _ _ _ _ Hq), (Permutation_app_comm (log_tasks log)). cbn. by rewrite <- Permutation_middle.
Qed.

(** The result at the head of the queue is projected and may make room for other tasks. *)
Definition queue_turn s r (refill : bool) rest : Session * Answer :=
  let '(s, answered) := project graph (s <| ss_queued := rest |>) r in
  match answered with
  | Yielded projected =>
      if refill then
        match schedule_ordinary graph s with
        | Raise error => (s <| ss_pc := Idle |>, Failed error)
        | Ok (true, s) => (s <| ss_pc := AtPause projected |>, Suspended)
        | Ok (false, s) => (s, Yielded projected)
        end
      else (s, Yielded projected)
  | _ => (s, answered)
  end.

Lemma kept_moves s s' done done' : kept s done →
  ss_disposition s' = ss_disposition s → ss_error s' = ss_error s → ss_started s' = ss_started s →
  (∀ t, t ∈ holding s ++ done → t ∈ holding s' ++ done') → kept s' done'.
Proof. unfold kept. intros Hk -> -> -> Hsub Hc He. destruct (Hk Hc He) as [? Hall]. split; [done|]. auto. Qed.

Lemma kept_scheduled s s' (sel : list (ExecutableTask A C S)) done : kept s done →
  ss_disposition s' = ss_disposition s → ss_error s' = ss_error s →
  ss_started s' = ss_started s ++ (task_node_id ∘ ex_task <$> sel) → holding s' ≡ₚ (ex_task <$> sel) ++ holding s →
  ex_task <$> sel ⊆ exec_tasks → kept s' done.
Proof using Hissued.
  unfold kept. intros Hk -> -> -> Hh Hsel Hc He. destruct (Hk Hc He) as [? Hall]. split; [done|].
  intros t Ht. rewrite Hh, <- app_assoc. intros [Hn|Hn]%elem_of_app; apply elem_of_app; [right; auto|left].
  apply list_elem_of_fmap in Hn as (ex & E & Hex). assert (t = ex_task ex) as ->; [|by apply list_elem_of_fmap_2].
  assert (ex_task ex ∈ exec_tasks) as Hex' by (apply Hsel; by apply list_elem_of_fmap_2).
  apply (exec_task_spec graph st0 prep Hissued) in Ht as (n & -> & _).
  apply (exec_task_spec graph st0 prep Hissued) in Hex' as (n' & E' & _). cbn in E. rewrite E' in *. cbn in E. by subst.
Qed.

Lemma queue_turn_ok s log r refill rest s' a : ready s log → ss_queued s = (r, refill) :: rest →
  queue_turn s r refill rest = (s', a) → step_ok (kept s (log_tasks log)) log a s'.
Proof using Hissued.
  intros Hr Hq. unfold queue_turn. destruct (project _ _ _) as [s1 b] eqn:Epr.
  pose proof (ready_pop _ _ _ _ _ Hr Hq) as Hpop.
  destruct (project_cases _ _ _ _ Epr) as [(e & -> & -> & Hset)|(c & -> & -> & Hset)]; clear Epr.
  { intros [= <- <-]. split; [|done|done|].
    - cbn. rewrite app_nil_r. apply (ready_inv (s <| ss_queued := rest |>)). destruct Hr as [Hp Ht Hn Hpc Ho].
      split; try done. eapply pool_shrink; [exact Hpop|done..|]. by apply submseteq_skips_l, submseteq_inserts_r.
    - intros _ ? [= <-]. by eapply because_rejected. }
  set (s1 := s <| ss_queued := rest |> <| ss_awaiting_ack := Some c |> <| ss_pc := Idle |>).
  assert (pool s1 (log_tasks (log ++ [mkExecuted r c]))) as Hp1.
  { rewrite log_tasks_snoc. eapply pool_shrink; [exact Hpop|done..]. }
  assert (kept s (log_tasks log) → kept s1 (log_tasks (log ++ [mkExecuted r c]))) as Hk1.
  { intros Hk. eapply kept_moves; [exact Hk|done..|]. intros t. rewrite log_tasks_snoc, (holding_pop _ _ _ _ Hq).
    change (holding (s <| ss_queued := rest |>)) with (holding s1). set_solver. }
  assert (step_ok (kept s (log_tasks log)) log (Yielded (mkExecuted r c)) s1) as Hyield.
  { split; [by eapply projected_inv|done| |done].
    intros Hk _. change (paused s1) with (paused s1). rewrite (paused_none s1), app_nil_r by done. by apply Hk1. }
  destruct refill; [|by intros [= <- <-]].
  destruct (schedule_spec graph st0 prep Hissued s1 _ Hp1) as (sel & s2 & -> & Hsel & Es2 & Hh & Hp2).
  { by apply (ready_wf _ _ Hr). }
  assert (kept s (log_tasks log) → kept s2 (log_tasks (log ++ [mkExecuted r c]))) as Hk2.
  { intros Hk. eapply (kept_scheduled s1); [by apply Hk1|by rewrite Es2..|done|by apply Hsel]. }
  destruct sel as [|ex sel]; cbn [is_nil negb].
  - intros [= <- <-]. destruct Hyield as [Hi _ _ _]. assert (paused s2 = []) as Ep by (apply paused_none; by rewrite Es2).
    split; [|done|intros Hk _; cbn; rewrite Ep, app_nil_r; by apply Hk2|done].
    rewrite Es2 in Hp2 |- *. by eapply projected_inv.
  - intros [= <- <-]. destruct (rd_open _ _ Hr) as [Hnc Hnq].
    assert (paused (s2 <| ss_pc := AtPause (mkExecuted r c) |>) = [mkExecuted r c]) as Ep.
    { unfold paused. rewrite Es2. cbn. by rewrite bool_decide_false. }
    split; [|done|intros Hk _; cbn; rewrite Ep, app_nil_r; by apply Hk2|done].
    cbn. rewrite app_nil_r. split; rewrite ?Ep; [| |done|by rewrite Es2|rewrite Es2; by cbn|rewrite Es2; by cbn].
    + eapply pool_shrink; [exact Hp2|done..].
    + rewrite Es2. cbn. exists log, (mkExecuted r c). split_and!; [done..|apply Hr|done].
Qed.

(* ---------------------------------------------------------------- *)
(** ** A turn of the loop *)

Lemma drain_ready s log : ready s log → ready (drain_scheduler_events s) log.
Proof.
  intros [Hp Ht Hn Hpc [Hc Hq]]. pose proof (pool_drain _ _ _ _ Hp) as Hp'. revert Hp'.
  destruct (drain_spec s) as (e & o & d & -> & _ & Hd & _). intros Hp'. split; try done. cbn. naive_solver.
Qed.

Lemma drain_kept s done : kept s done → kept (drain_scheduler_events s) done.
Proof.
  destruct (drain_spec s) as (e & o & d & -> & Hn & Hd & He). unfold kept. cbn. intros Hk Hc Hnone.
  assert (ss_error s = None) as Hes by (destruct (ss_error s); naive_solver).
  destruct (Hn Hes Hnone) as (_ & -> & Hall). destruct (Hk Hc Hes) as [Ho Hh]. split; [done|].
  intros t Ht Hst. specialize (Hh t Ht Hst). unfold holding, queued_tasks, event_tasks, live_tasks in *. cbn.
  rewrite fmap_app, (completions_all _ Hall). set_solver.
Qed.

(** Without results: schedule, then wait, or end. *)
Definition idle_turn s : Session * Answer :=
  match schedule_ordinary graph s with
  | Raise error => (s <| ss_pc := Idle |>, Failed error)
  | Ok (_, s) =>
      if is_nil (ts_live (ss_scheduler s)) then
        match ss_error s with
        | Some (_, error) => (s <| ss_disposition := QUIESCENT |> <| ss_pc := Idle |>, Failed error)
        | None =>
            if forallb (map_has (nested_graphs graph)) (pending (ss_state s))
            then (s <| ss_disposition := QUIESCENT |> <| ss_pc := Idle |>, Failed (Exn StopAsyncIteration ""))
            else (s <| ss_pc := Idle |>, Failed (Exn ResultCollectionError "no executable pending node can be scheduled"))
        end
      else (s <| ss_pc := AtWait |>, Suspended)
  end.

(** With nothing held and nothing to start, no callable node is pending: otherwise the
    resources would let one of them start. *)
Lemma nothing_to_start s log : ready s log → kept s (log_tasks log) → ss_error s = None → holding s = [] →
  selection graph prep s [] → ∀ n, n ∈ pending (ss_state s) → ¬ callable graph n.
Proof using Hissued.
  intros Hr Hk He Hh Hsel n Hn Hc. destruct (Hk (proj1 (rd_open _ _ Hr)) He) as [Hopen Hstarted].
  destruct (trail_state _ _ _ Hissued _ _ (rd_trail _ _ Hr)) as (Hwf & _ & _ & Hpend & Hheld).
  assert (∀ m rs, m ∈ pending (ss_state s) → node_resources graph m = Some rs → ¬ (rs = []
    ∨ ∃ sn acq, st_resources (ss_state s) = Some sn ∧ acq ∈ snap_acquisitions sn ∧ acq_node_id acq = m
        ∧ admitted acq = true ∧ acq_required acq = rs)) as Hno.
  { intros m rs Hm Hrs Hcan. pose proof (proj1 (Hpend m) Hm) as [Hm0 Hlog].
    assert (node_task st0 m ∈ exec_tasks) as Hex.
    { apply (exec_task_spec graph st0 prep Hissued). exists m. split_and!; [done..|]. unfold callable. congruence. }
    refine (sl_none _ _ _ _ Hsel eq_refl Hopen _ (node_task st0 m) Hex Hm _).
    - assert (ts_live (ss_scheduler s) = []) as ->.
      { unfold holding, live_tasks in Hh. apply app_eq_nil in Hh as [Hl _]. by apply fmap_nil_inv in Hl. }
      rewrite (po_limits _ _ _ _ (rd_pool _ _ Hr)). pose proof (is_limits _ _ _ Hissued). cbn. lia.
    - split; [|by exists rs]. intros Hst. apply Hlog. specialize (Hstarted _ Hex Hst). rewrite Hh in Hstarted.
      by apply (list_elem_of_fmap_2 task_node_id) in Hstarted. }
  unfold callable in Hc. destruct (node_resources graph n) as [rs|] eqn:Ers; [|done].
  destruct rs as [|x rs]; [by apply (Hno n []); [..|left]|].
  assert ((n, x :: rs) ∈ held (st_resources (ss_state s))) as Hin by (by apply Hheld).
  destruct (st_resources (ss_state s)) as [sn|] eqn:Esn; [|by apply elem_of_nil in Hin].
  pose proof (wf_resources _ Hwf) as Hres. unfold resources_ok in Hres. rewrite Esn, on_some_Some in Hres.
  destruct Hres as (Hv & Hne & _). destruct (some_admitted _ Hv Hne) as (acq & Hacq & Had).
  assert (resource_bound graph (ss_state s) (acq_node_id acq) (acq_required acq)) as (Hm & Hrs & _).
  { apply Hheld. rewrite Esn. cbn. by apply (list_elem_of_fmap_2 (λ q, (acq_node_id q, acq_required q))). }
  apply (Hno _ _ Hm Hrs). right. by exists sn, acq.
Qed.

Context (Hnested : nested_ok graph).

Lemma idle_turn_ok s log s' a : ready s log → ss_queued s = [] → ts_events (ss_scheduler s) = [] →
  idle_turn s = (s', a) → step_ok (kept s (log_tasks log)) log a s'.
Proof using Hissued Hnested.
  intros Hr Hq Hev. unfold idle_turn.
  destruct (schedule_spec graph st0 prep Hissued s _ (rd_pool _ _ Hr) (ready_wf _ _ Hr))
    as (sel & s2 & -> & Hsel & Es2 & Hh & Hp2).
  assert (ready s2 log) as Hr2.
  { destruct Hr as [_ Ht Hn Hpc Ho]. split; [done|by rewrite Es2..]. }
  assert (kept s (log_tasks log) → kept s2 (log_tasks log)) as Hk2.
  { intros Hk. eapply (kept_scheduled s); [done|by rewrite Es2..|done|apply Hsel]. }
  destruct (rd_open _ _ Hr2) as [Hnc Hnq]. destruct (is_nil (ts_live (ss_scheduler s2))) eqn:El.
  2: { intros [= <- <-]. assert (paused (s2 <| ss_pc := AtWait |>) = []) as Ep by by apply paused_none.
       split; cbn; rewrite ?Ep, ?app_nil_r; [| |by intros Hk _; apply Hk2|done].
       - split; rewrite ?Ep, ?app_nil_r; cbn; try done; [|rewrite (rd_none _ _ Hr2); left; apply Hr2|by rewrite (rd_none _ _ Hr2)].
         eapply pool_shrink; [exact Hp2|done..].
       - intros _ _ _. by apply is_nil_false. }
  apply is_nil_spec in El. assert (sel = [] ∧ ts_live (ss_scheduler s) = []) as [-> El0].
  { rewrite Es2 in El. cbn in El. apply app_eq_nil in El as [? E]. by apply fmap_nil_inv in E. }
  assert (holding s = []) as Hh0 by (unfold holding, live_tasks, event_tasks, queued_tasks; by rewrite El0, Hev, Hq).
  assert (ss_error s2 = ss_error s) as Eerr by by rewrite Es2.
  assert (ss_state s2 = ss_state s) as Est by by rewrite Es2.
  assert (∀ d, d ≠ CLOSED → inv (s2 <| ss_disposition := d |> <| ss_pc := Idle |>) (log ++ [])) as Hi.
  { intros d Hd. rewrite app_nil_r. assert (paused (s2 <| ss_disposition := d |> <| ss_pc := Idle |>) = []) as Ep by by apply paused_none.
    split; rewrite ?Ep, ?app_nil_r; cbn; try done; [|rewrite (rd_none _ _ Hr2); left; apply Hr2].
    eapply pool_shrink; [exact Hp2|done..]. }
  destruct (ss_error s2) as [[t e]|] eqn:Es.
  { intros [= <- <-]. split; [by apply Hi|done..|]. intros _ ? [= <-]. eapply because_raised; [exact Es|done|]. by rewrite Es2. }
  assert (kept s (log_tasks log) → ∀ n, n ∈ pending (ss_state s2) → ¬ callable graph n) as Hnone.
  { intros Hk. rewrite Est. by apply (nothing_to_start s log). }
  destruct (trail_state _ _ _ Hissued _ _ (rd_trail _ _ Hr2)) as (_ & _ & _ & Hpend & _).
  destruct (forallb _ _) eqn:Eall.
  - intros [= <- <-]. split; [by apply Hi|done..|]. intros Hk ? [= <-]. apply because_finished; [done|].
    intros n Hn Hc. assert (n ∉ pending (ss_state s2)) as Hnp by (intros Hin; by apply (Hnone Hk n)). split; [|done].
    destruct (decide (n ∈ task_node_id <$> log_tasks log)); [done|]. destruct Hnp. by apply Hpend.
  - intros [= <- <-]. split; [|done..|].
    { specialize (Hi (ss_disposition s2) Hnc). by destruct s2. }
    intros Hk. exfalso. apply not_true_iff_false in Eall. apply Eall, forallb_forall. intros n Hn%list_elem_of_In.
    apply Hnested. split; [|by apply Hnone]. apply (is_known _ _ _ Hissued). by apply Hpend.
Qed.

Lemma turn_unfold s : turn graph s =
  let s := drain_scheduler_events s in
  match ss_node_origin s with
  | Some cancellation => (aclose (s <| ss_pc := Idle |>), Failed cancellation)
  | None => match ss_queued s with
            | (r, refill) :: rest => queue_turn s r refill rest
            | [] => idle_turn s end
  end.
Proof. done. Qed.

Lemma turn_ok s log s' a : ready s log → turn graph s = (s', a) → step_ok (kept s (log_tasks log)) log a s'.
Proof using Hissued Hnested.
  intros Hr. rewrite turn_unfold. cbv zeta. pose proof (drain_ready _ _ Hr) as Hrd.
  pose proof (drain_kept s (log_tasks log)) as Hkd.
  assert (ts_events (ss_scheduler (drain_scheduler_events s)) = []) as Hev.
  { by destruct (drain_spec s) as (e & o & d & -> & _). }
  set (sd := drain_scheduler_events s) in *.
  assert (step_ok (kept sd (log_tasks log)) log a s' → step_ok (kept s (log_tasks log)) log a s') as Hw.
  { intros [Hi Hwt Hk Hf]. split; [done..|by intros Hk0; apply Hk, Hkd|by intros Hk0; apply Hf, Hkd]. }
  destruct (ss_node_origin sd) as [cancellation|] eqn:Eo.
  - intros [= <- <-]. split; [|done|done|].
    + cbn. rewrite app_nil_r. apply (aclose_inv (sd <| ss_pc := Idle |>)), ready_inv, Hrd.
    + intros _ e _. apply because_closed. unfold aclose. by case_bool_decide.
  - intros E. apply Hw. destruct (ss_queued sd) as [|[r refill] rest] eqn:Eq; [by apply (idle_turn_ok sd)|by eapply (queue_turn_ok sd)].
Qed.

(* ---------------------------------------------------------------- *)
(** ** The steps *)

Lemma acknowledge_ready s log state s1 : inv s log → require_open s = Ok tt → ss_pc s = Idle →
  acknowledge graph s state = Ok s1 → ready s1 log ∧ (kept s (log_tasks log) → kept s1 (log_tasks log)).
Proof.
  intros [Hp Hch _ _ _ _] Ho Hpc. unfold require_open in Ho. apply seq_Ok_iff in Ho as [Hc Hq].
  apply raise_if_Ok, bool_decide_eq_false in Hc. apply raise_if_Ok, bool_decide_eq_false in Hq.
  rewrite (paused_none s), app_nil_r in Hp, Hch by by rewrite Hpc. unfold acknowledge.
  destruct (ss_awaiting_ack s) as [c|] eqn:Ea.
  - intros (st & Hadm%except_Ok & [= <-])%bind_Ok. destruct (confirmation_sound _ _ _ _ Hadm) as [-> _].
    destruct Hch as (l & e & -> & <- & Ht & Hset). split; [|done]. split; cbn; try done; [| |by rewrite Hpc].
    + eapply pool_shrink; [exact Hp|done..].
    + by eapply trail_snoc.
  - intros (_ & [_ [= <-]]%seq_Ok_iff)%seq_Ok_iff. split; [|done]. split; try done; [|by rewrite Hpc].
    destruct Hch as [Ht|[? _]]; done.
Qed.

Lemma deliver_ok s log done s' a : inv s log → ss_pc s = AtWait → reported (ss_scheduler s) done →
  deliver graph s done = (s', a) → step_ok (kept s (log_tasks log)) log a s'.
Proof using Hissued Hnested.
  intros Hi Hpc Hrep.
  assert (ss_disposition s ≠ CLOSED) as Hnc.
  { intros Hc. pose proof (iv_closed _ _ Hi Hc) as El. destruct Hrep as [Hsome _ Hl]. rewrite El in Hl.
    destruct done as [|d done]; [done|]. specialize (Hl d.1 ltac:(by left)). by apply elem_of_nil in Hl. }
  pose proof (iv_wait _ _ Hi Hpc Hnc) as Hnone. destruct Hi as [Hp Hch _ _ Hq _].
  rewrite (paused_none s), app_nil_r in Hp, Hch by by rewrite Hpc. rewrite Hnone in Hch.
  assert (trail log (ss_state s)) as Ht by (destruct Hch as [?|[? _]]; done).
  assert (NoDup (live_tasks (ss_scheduler s))) as Hnd.
  { pose proof (po_once _ _ _ _ Hp) as Hnd. unfold holding in Hnd. rewrite <- !app_assoc in Hnd. by apply NoDup_app in Hnd as [? _]. }
  destruct (collect_spec graph (ss_scheduler s) done (claimed_tasks st0)) as (first & rest & live & Hcol & Hsub & Hperm);
    [apply Hp|done|by eapply claimed_identified|intros t Hin; by eapply (exec_tasks_claimed graph), (po_live _ _ _ _ Hp)|done|].
  unfold deliver. rewrite Hcol. set (s1 := s <| ss_scheduler := mkScheduler live (ts_events (ss_scheduler s) ++ rest) |>).
  assert (holding s ≡ₚ event_task first :: holding s1) as Hh.
  { unfold holding. rewrite Hperm. unfold live_tasks, event_tasks, queued_tasks. cbn. rewrite !fmap_app.
    rewrite <- !app_assoc. cbn. rewrite <- Permutation_middle. apply perm_skip, Permutation_app; [done|].
    rewrite !app_assoc. by rewrite (Permutation_app_comm (event_task <$> rest)). }
  assert (∀ s2 ts, ss_executables s2 = ss_executables s → ss_limits s2 = ss_limits s → ss_started s2 = ss_started s →
    ss_scheduler s2 = ss_scheduler s1 → ss_queued s2 = ss_queued s → ts ⊆+ event_task first :: log_tasks log → pool s2 ts) as Hmove.
  { intros s2 ts He Hl Hst Hsc Hqu Hts. eapply pool_shrink; [exact Hp|done..|by rewrite Hsc|].
    assert (holding s2 = holding s1) as -> by (unfold holding, queued_tasks; by rewrite Hsc, Hqu).
    rewrite Hh. cbn. rewrite Permutation_middle. by apply submseteq_skips_l. }
  assert (ss_disposition s ≠ QUIESCENT) as Hnq by (intros E; by rewrite (Hq E) in Hpc).
  destruct first as [r|task error]; cbn [event_task] in *.
  - intros Hproj. assert (ready s1 log) as Hr.
    { split; try done; [|by cbn; rewrite Hpc]. apply Hmove; try done. by apply submseteq_cons. }
    destruct (project_cases _ _ _ _ Hproj) as [(e & -> & -> & Hset)|(c & -> & -> & Hset)].
    + split; [cbn; rewrite app_nil_r; by apply ready_inv|done..|]. intros _ ? [= <-]. by eapply because_rejected.
    + split; [|done| |done].
      * eapply projected_inv; [exact Hr|exact Hset| |done..]. apply Hmove; try done. rewrite log_tasks_snoc. cbn.
        by rewrite Permutation_app_comm.
      * intros Hk _. rewrite paused_none, app_nil_r by done. eapply kept_moves; [exact Hk|done..|].
        intros t. cbn [yielded]. rewrite log_tasks_snoc, Hh. cbn.
        change (holding (s1 <| ss_awaiting_ack := Some c |> <| ss_pc := Idle |>)) with (holding s1). set_solver.
  - intros Hturn. set (s2 := record_error s1 task error) in Hturn.
    assert (∃ e o, s2 = s1 <| ss_error := Some e |> <| ss_node_origin := o |> <| ss_disposition := ERROR_DRAINING |>) as (e & o & Es2).
    { unfold s2, record_error. destruct (match ss_error s1 with Some _ => _ | None => _ end) as [t' e']. by eexists _, _. }
    assert (ready s2 log) as Hr.
    { rewrite Es2. split; try done; [|by cbn; rewrite Hpc]. apply Hmove; try done. by apply submseteq_cons. }
    destruct (turn_ok _ _ _ _ Hr Hturn) as [Hi Hw Hk Hf].
    assert (kept s2 (log_tasks log)) as Hk2 by (unfold kept; by rewrite Es2).
    split; [done..| |]; intros _; [by apply Hk|by apply Hf].
Qed.

(** A step that does not refuse the call at once. *)
Lemma step_preserves s log a s' : inv s log → step s a s' →
  (s' = s ∧ failed a = true) ∨ step_ok (kept s (log_tasks (log ++ paused s))) log a s'.
Proof using Hissued Hnested.
  intros Hi Hstep. destruct Hstep as [s state s' a E|s done s' a Hpc Hrep E|s p s' a Hpc E|s s' a Hpc [= <- <-]|s].
  - unfold next in E. destruct (require_open s) as [[]|e] eqn:Eo; [|injection E as <- <-; by left].
    destruct (ss_pc s) eqn:Hpc; [|injection E as <- <-; by left..].
    destruct (acknowledge graph s state) as [s1|e] eqn:Ea; [|injection E as <- <-; by left]. right.
    rewrite (paused_none s), app_nil_r by by rewrite Hpc.
    destruct (acknowledge_ready _ _ _ _ Hi Eo Hpc Ea) as [Hr Hk1]. destruct (turn_ok _ _ _ _ Hr E) as [? ? Hk Hf].
    split; [done..| |]; intros Hk0; [by apply Hk, Hk1|by apply Hf, Hk1].
  - right. rewrite (paused_none s), app_nil_r by by rewrite Hpc. by eapply deliver_ok.
  - unfold unpause in E. right. destruct (decide (ss_disposition s = CLOSED)) as [Hc|Hnc].
    + unfold require_open in E. rewrite (bool_decide_true (ss_disposition s = CLOSED)) in E by done. injection E as <- <-.
      destruct (aclose_inv s log Hi) as [_ Hi']. unfold aclose in Hi'. rewrite bool_decide_true in Hi' by done.
      split; [cbn; by rewrite app_nil_r|done|done|]. intros _ e _. by apply because_closed.
    + assert (ss_disposition s ≠ QUIESCENT) as Hnq. { intros Eq. by rewrite (iv_quiet _ _ Hi Eq) in Hpc. }
      unfold require_open in E. rewrite !bool_decide_false in E by done. injection E as <- <-.
      assert (paused s = [p]) as Ep. { unfold paused. by rewrite bool_decide_false, Hpc. }
      assert (paused (s <| ss_pc := Idle |>) = []) as Ep' by by apply paused_none.
      destruct Hi as [Hp Hch Hw Hpa Hq Hc]. split; [|done| |done].
      * cbn [yielded]. split; rewrite ?Ep', ?app_nil_r; try done; [rewrite Ep in Hp; eapply pool_shrink; [exact Hp|done..]|].
        rewrite Ep in Hch. cbn. destruct (ss_awaiting_ack s); [done|]. destruct Hch as [?|[? _]]; [by left|done].
      * intros Hk _. cbn [yielded]. rewrite Ep', app_nil_r, <- Ep. eapply kept_moves; [exact Hk|done..].
  - right. destruct (aclose_inv s log Hi) as [_ Hi'].
    split; [cbn; by rewrite app_nil_r|done|done|]. intros _ e _. apply because_closed. unfold aclose. by case_bool_decide.
  - right. destruct (aclose_inv s log Hi) as [Hi' _]. assert (ss_disposition (aclose s) = CLOSED) as Hc.
    { unfold aclose. by case_bool_decide. }
    split; [cbn; by rewrite app_nil_r|done| |done]. intros _ _. by intros ?.
Qed.

Lemma open_inv : inv (open_session st0 prep) [] ∧ kept (open_session st0 prep) [].
Proof using Hissued.
  split; [|by intros _ _; split; [|intros t _ ?%elem_of_nil]]. split; try done.
  - apply (pool_open graph st0 prep Hissued).
  - left. apply trail_nil.
Qed.

Lemma entries_snoc answers a : entries (answers ++ [a]) = entries answers ++ yielded a.
Proof. unfold entries. rewrite bind_app. cbn. by rewrite app_nil_r. Qed.

Lemma run_inv s answers : run s answers → inv s (entries answers)
  ∧ (Forall (λ a, failed a = false) answers → kept s (log_tasks (entries answers ++ paused s))).
Proof using Hissued Hnested.
  induction 1 as [|s answers a s' Hrun [IH IHk] Hstep]; [split; [apply open_inv|intros _; apply open_inv]|].
  rewrite entries_snoc, Forall_app, Forall_singleton.
  destruct (step_preserves _ _ _ _ IH Hstep) as [[-> Hf]|Hok].
  - split; [destruct a; [done..|]; by rewrite app_nil_r|]. intros [_ ?]. congruence.
  - split; [apply Hok|]. intros [Hall Hf]. apply (so_kept _ _ _ _ Hok); auto.
Qed.

(** The log splits into confirmed entries and at most one that is not confirmed yet. *)
Lemma inv_confirmed s log : inv s log → ∃ confirmed last, log = confirmed ++ last ∧ trail confirmed (ss_state s)
  ∧ (last = [] ∨ ∃ entry, last = [entry]
       ∧ settle_result graph (ss_state s) (settlement_view (eg_result entry)) = Ok (eg_command entry)).
Proof using Type.
  intros [_ Hch _ Hpa _ _]. assert (paused s = [] ∨ ∃ p, paused s = [p]) as [Ep|[p Ep]].
  { unfold paused. repeat case_match; eauto. }
  - rewrite Ep, app_nil_r in Hch. assert (∀ c, settles_next log (ss_state s) c → ∃ l e, log = l ++ [e] ∧ trail l (ss_state s)
      ∧ settle_result graph (ss_state s) (settlement_view (eg_result e)) = Ok (eg_command e)) as Hs.
    { intros c (l & e & -> & <- & Ht & Hs). by exists l, e. }
    destruct (ss_awaiting_ack s) as [c|]; [|destruct Hch as [Ht|(_ & c & Hch)]].
    + destruct (Hs c Hch) as (l & e & -> & Ht & He). exists l, [e]. split_and!; [done..|right; by exists e].
    + exists log, []. rewrite app_nil_r. split_and!; [done..|by left].
    + destruct (Hs c Hch) as (l & e & -> & Ht & He). exists l, [e]. split_and!; [done..|right; by exists e].
  - specialize (Hpa p Ep). destruct (ss_awaiting_ack s) as [c|]; [|done].
    destruct Hch as (l & e & El & _ & Ht & _). rewrite Ep in El. apply app_inj_tail in El as [-> ->].
    exists l, []. rewrite app_nil_r. split_and!; [done..|by left].
Qed.
End proofs.
