(* ===== verification/SessionTheorems.v ===== *)
(** * Sessions of compiled graphs

    The properties of the sessions that [prepare_superstep] and [issue_session] give out
    for a compiled graph, and a run of a graph whose nodes compete for a resource. *)

From Stdlib Require Import ZArith NArith Lia Bool String.
From stdpp Require Import prelude strings gmap sorting.
From S2P Require Import Prelude Identity Resources Model Transitions WellFormed Reducer ReducerProofs OperationProofs SettleProofs Topology GraphDefinition DefinitionProofs Compiler CompilerProofs CompilerTheorems Routing Engine DemoGraph EngineProofs Values RunContext Materialization Superstep Session SessionState SessionPool SessionProofs.

Set Default Goal Selector "!".
Open Scope Z_scope.

(* ------------------------------------------------------------------ *)
(** ** Nested nodes of a compiled graph *)

Lemma frozen_has {A} (xs : list (str * A)) k : map_has (frozen_map xs) k = true ↔ k ∈ xs.*1.
Proof.
  rewrite map_has_get. split.
  - intros (v & Hin%map_get_In). unfold frozen_map, sorted_key in Hin. rewrite sort_by_perm in Hin.
    by apply (list_elem_of_fmap_2 fst) in Hin.
  - intros Hk. assert (k ∈ (frozen_map xs).*1) as Hin by (unfold frozen_map, sorted_key; by rewrite sort_by_perm).
    revert Hin. generalize (frozen_map xs). induction f as [|[k' v] f IH]; cbn; [by intros ?%elem_of_nil|].
    case_bool_decide as E; [by eexists|]. intros [->|Hin]%elem_of_cons; [done|auto].
Qed.

Lemma compiled_nested_ok {V W} `{EqDecision V} `{EqDecision W} (value_type : V → W) (d : GraphDefinition V) nested g :
  children_plans value_type d nested → sound_graph d nested g → nested_ok g.
Proof.
  intros [Hch Honly] (control & data & options & plan & successors & plans & nodes & B).
  destruct (bl_nodes _ _ _ _ _ _ _ _ _ _ B) as (canonical & Hcan & Hnodes).
  destruct (bl_identity _ _ _ _ _ _ _ _ _ _ B) as (_ & _ & Hng).
  assert (NoDup (node_id <$> canonical)) as Hnd.
  { rewrite (canonical_ids _ _ _ Hcan). pose proof (bl_ids _ _ _ _ _ _ _ _ _ _ B) as Hids. unfold ids_of, sorted in Hids. by rewrite sort_by_perm in Hids. }
  assert (∀ node, node ∈ canonical → map_get (cg_nodes g) (node_id node) = Ok (compiled_node node)) as Hget.
  { intros node Hin. rewrite Hnodes. apply frozen_get; [by rewrite <- list_fmap_compose|].
    by apply (list_elem_of_fmap_2 (λ node, (node_id node, compiled_node node))). }
  assert (∀ i child inputs, NestedGraphNode i child inputs ∈ canonical ↔ NestedGraphNode i child inputs ∈ definition_nodes d) as Hsame.
  { intros i child inputs. split; intros [k Hk]%list_elem_of_lookup.
    - destruct (Forall2_lookup_r _ _ _ _ _ Hcan Hk) as ([] & Hk' & Hc); cbn in Hc; [naive_solver|].
      injection Hc as -> -> ->. by eapply list_elem_of_lookup_2.
    - destruct (Forall2_lookup_l _ _ _ _ _ Hcan Hk) as (node & Hk' & Hc). cbn in Hc. subst. by eapply list_elem_of_lookup_2. }
  intros n. rewrite Hng, frozen_has. unfold callable, node_resources. split.
  - intros (child & inputs & Hin%Hsame)%Honly. pose proof (Hget _ Hin) as E. cbn in E. rewrite map_has_get, E. cbn. naive_solver.
  - intros [(v & Hv)%map_has_get Hnc]. rewrite Hnodes in Hv. apply map_get_In in Hv. unfold frozen_map, sorted_key in Hv.
    rewrite sort_by_perm in Hv. apply list_elem_of_fmap in Hv as (node & [= -> ->] & Hin). rewrite (Hget _ Hin) in Hnc.
    destruct node as [i ins outs rs routes|i child inputs]; cbn in *; [by destruct Hnc|].
    apply Hsame, Hch in Hin as (g' & Ha%assoc_Some_elem & _). by apply (list_elem_of_fmap_2 fst _ (i, g')).
Qed.

(* ------------------------------------------------------------------ *)
(** ** Issued sessions *)

Section theorems.
Context {A V W C S : Type} `{EqDecision V} `{ValueTypes A V W} `{Configs C} `{EqDecision S}.
Implicit Types (request : StepRequest A C S) (claim : PreparedExecutionClaim A C S) (answers : list (Answered (A := A) (C := C) (S := S))).
Notation pending state := (pending_node_ids (st_frontier state)).
Notation nodes_of answers := (task_node_id <$> log_tasks (entries answers)).

(** A graph of a compiled family. *)
Definition compiled_graph (graph : CompiledGraph V) : Prop :=
  ∃ (family : GraphDefinition V → Prop) root retained g memo d,
    is_family family ∧ family root ∧ faithful value_type family retained ∧ compile value_type root retained = Ok (g, memo)
    ∧ sub root d ∧ plan_for memo d = Ok graph.

Lemma compiled_graph_nested graph : compiled_graph graph → nested_ok graph.
Proof.
  intros (family & root & retained & g & memo & d & Hfam & Hr & Hf & Hc & Hs & Hp).
  destruct (compiled_plans value_type family Hfam _ _ _ _ _ _ Hr Hf Hc Hs Hp) as (nested & Hch & Hsound).
  by eapply compiled_nested_ok.
Qed.

(** A session issued for a claim that [prepare_superstep] prepared. *)
Record session_issued codec repr_tuple owner (graph : CompiledGraph V) request attempt st0 (prep : FrontierPreparation A C S) : Prop := {
  si_compiled : compiled_graph graph;
  si_attempt : is_canonical_identity attempt = true;
  si_limits : ∃ supersteps parallel, ExecutionLimits_new supersteps parallel = Ok (req_limits request);
  si_issue : ∃ claim waiting claim',
    prepare_superstep codec repr_tuple owner graph request attempt = Ok (ExecutableFrontier claim waiting)
    ∧ issue_session owner graph claim st0 = Ok (st0, prep, claim')
}.

Lemma limits_positive supersteps parallel limits : ExecutionLimits_new supersteps parallel = Ok limits →
  1 ≤ max_parallel_tasks limits.
Proof.
  unfold ExecutionLimits_new. intros [Hl [= <-]]%seq_Ok_iff. apply raise_if_Ok, orb_false_iff in Hl as [_ ?%Z.ltb_ge]. done.
Qed.

Lemma issue_session_state owner (graph : CompiledGraph V) claim st0 st prep claim' : issue_session owner graph claim st0 = Ok (st, prep, claim') →
  st = st0 ∧ prep = pc_preparation claim
  ∧ reduce_graph_run (Some (req_state (fp_request (pc_preparation claim)))) (CmdClaim (pc_command claim)) = Ok st0.
Proof.
  unfold issue_session, consume, require_committed_claim_state. intros Hi. apply seq_Ok_iff in Hi as [_ Hi].
  apply bind_Ok in Hi as ([consumed c'] & Hc & Hi). do 2 apply seq_Ok_iff in Hc as [_ Hc].
  apply seq_Ok_iff in Hc as [Hreq [= <- <-]]. apply bind_Ok in Hreq as (succ & Hred & Hchk).
  apply raise_if_Ok, orb_false_iff in Hchk as [E%negb_false_iff%bool_decide_eq_true _]. subst. cbn in Hi. by injection Hi as <- <- _.
Qed.

Lemma session_issued_issued codec repr_tuple owner graph request attempt st0 prep :
  session_issued codec repr_tuple owner graph request attempt st0 prep → issued graph st0 prep ∧ nested_ok graph.
Proof.
  intros [Hcg Hat (ss & pp & Hl%limits_positive) (claim & waiting & claim' & Hprep & Hiss)].
  pose proof (compiled_graph_nested _ Hcg) as Hn. split; [|done].
  apply issue_session_state in Hiss as (_ & -> & Hred). apply prepare_superstep_claim in Hprep.
  destruct (claimed_issued codec graph Hn _ _ _ _ Hprep Hat Hl) as (Hred' & _ & Hi).
  destruct (prepare_frontier_spec codec graph _ _ (pd_status _ _ _ _ _ _ Hprep) (pd_frontier _ _ _ _ _ _ Hprep)) as (Hreq & _).
  rewrite Hreq, Hred' in Hred. by injection Hred as <-.
Qed.

(** C9: a claim issues exactly one session.  Whatever claim [prepare_superstep] prepares for
    a compiled graph, the reducer accepts its command; in the accepted state the executor
    that prepared the claim can issue its session, with the prepared tasks and inputs, and
    the claim that is left behind refuses every later attempt, by whatever executor and in
    whatever state. *)
Theorem claim_issues_one_session codec repr_tuple owner graph request attempt claim waiting :
  compiled_graph graph → is_canonical_identity attempt = true →
  (∃ supersteps parallel, ExecutionLimits_new supersteps parallel = Ok (req_limits request)) →
  prepare_superstep codec repr_tuple owner graph request attempt = Ok (ExecutableFrontier claim waiting) →
  ∃ st0 claim', reduce_graph_run (Some (req_state request)) (CmdClaim (pc_command claim)) = Ok st0
    ∧ issue_session owner graph claim st0 = Ok (st0, pc_preparation claim, claim')
    ∧ session_issued codec repr_tuple owner graph request attempt st0 (pc_preparation claim)
    ∧ ∀ owner' state, ∃ e, issue_session owner' graph claim' state = Raise e.
Proof.
  intros Hcg Hat Hlim Hprep. pose proof (compiled_graph_nested _ Hcg) as Hn.
  pose proof (prepare_superstep_claim _ _ _ _ _ _ _ _ Hprep) as Hp.
  assert (1 ≤ max_parallel_tasks (req_limits request)) as Hl by (destruct Hlim as (ss & pp & ?); by eapply limits_positive).
  destruct (claimed_issued _ _ Hn _ _ _ _ Hp Hat Hl) as (Hred & _).
  destruct (issue_session_once _ _ Hn _ _ _ _ Hp Hat Hl) as (claim' & Hiss & Hc).
  exists (claimed (req_state request) (pc_command claim)), claim'. split_and!; [done..| |].
  - split; [done..|]. by exists claim, waiting, claim'.
  - intros owner' state. by apply consumed_refuses.
Qed.

(** C7: a session is safe under every interleaving.  Whatever the event loop and the caller
    do (calls with any state, completions in any order and grouping, pauses, cancellations,
    closings), a session yields only nodes that its claim found pending, each at most once;
    it never keeps more than [max_parallel_tasks] tasks alive, and a live task is of a
    callable pending node that was not yielded. *)
Theorem session_yields_once codec repr_tuple owner graph request attempt st0 prep s answers :
  session_issued codec repr_tuple owner graph request attempt st0 prep → run graph st0 prep s answers →
  NoDup (nodes_of answers) ∧ nodes_of answers ⊆ pending st0
  ∧ Z.of_nat (length (ts_live (ss_scheduler s))) ≤ max_parallel_tasks (req_limits (fp_request prep))
  ∧ NoDup (task_node_id <$> live_tasks (ss_scheduler s))
  ∧ ∀ t, t ∈ live_tasks (ss_scheduler s) →
      callable graph (task_node_id t) ∧ task_node_id t ∈ pending st0 ∧ task_node_id t ∉ nodes_of answers.
Proof.
  intros Hsi Hrun. destruct (session_issued_issued _ _ _ _ _ _ _ _ Hsi) as [Hi Hn].
  destruct (run_inv _ _ _ Hi Hn _ _ Hrun) as [[Hp _ _ _ _ _] _].
  assert (∀ ts, ts ⊆ claimed_tasks st0 → NoDup ts → NoDup (task_node_id <$> ts)) as Hnd.
  { intros ts Hsub Hts. apply NoDup_fmap_2_strong; [|done]. intros t t' Ht Ht' E.
    apply Hsub, claimed_node in Ht as [-> _]. apply Hsub, claimed_node in Ht' as [-> _]. cbn in E. by rewrite E. }
  pose proof (po_once _ _ _ _ Hp) as Honce. pose proof (po_claimed _ _ _ _ Hp) as Hcl.
  unfold log_tasks in Honce, Hcl. rewrite fmap_app in Honce, Hcl. fold (log_tasks (entries answers)) in Honce, Hcl.
  unfold holding in Honce, Hcl. rewrite <- !app_assoc in Honce, Hcl.
  assert (log_tasks (entries answers) ⊆ claimed_tasks st0) as Hlog by (intros t Ht; apply Hcl; set_solver).
  assert (live_tasks (ss_scheduler s) ⊆ claimed_tasks st0) as Hlive by (intros t Ht; apply Hcl; set_solver).
  apply NoDup_app in Honce as (Hl & Hdis & Honce). split_and!.
  - apply Hnd; [done|]. do 2 apply NoDup_app in Honce as (_ & _ & Honce). by apply NoDup_app in Honce as [? _].
  - intros n (t & -> & Ht)%list_elem_of_fmap. by apply Hlog, claimed_node in Ht as [_ ?].
  - rewrite <- (po_limits _ _ _ _ Hp). apply Hp.
  - by apply Hnd.
  - intros t Ht. pose proof (claimed_node _ _ (Hlive t Ht)) as [Et Hpend].
    pose proof (po_live _ _ _ _ Hp t Ht) as (n & En & _ & Hc)%(exec_task_spec graph st0 prep Hi).
    split_and!; [by rewrite En|done|]. intros (t' & En' & Ht')%list_elem_of_fmap. apply (Hdis t Ht).
    assert (t = t') as ->; [|set_solver]. pose proof (claimed_node _ _ (Hlog t' Ht')) as [Et' _]. by rewrite Et, Et', En'.
Qed.

(** C6: a session refines sequential settlement.  The nodes it yields, in the order it
    yields them, are settlements of the abstract machine that settles one pending node after
    another from the claimed state: each command is what settlement projects from the node's
    result in the state before it, and the next state is a confirmation of that command.
    The session's own state is the last confirmed one; at most the last entry is still
    unconfirmed. *)
Theorem session_refines_settlement codec repr_tuple owner graph request attempt st0 prep s answers :
  session_issued codec repr_tuple owner graph request attempt st0 prep → run graph st0 prep s answers →
  ∃ confirmed last, entries answers = confirmed ++ last ∧ trail graph st0 confirmed (ss_state s)
    ∧ (last = [] ∨ ∃ entry, last = [entry]
         ∧ settle_result graph (ss_state s) (settlement_view (eg_result entry)) = Ok (eg_command entry))
    ∧ (∀ n, n ∈ pending (ss_state s) ↔ n ∈ pending st0 ∧ n ∉ task_node_id <$> log_tasks confirmed).
Proof.
  intros Hsi Hrun. destruct (session_issued_issued _ _ _ _ _ _ _ _ Hsi) as [Hi Hn].
  destruct (run_inv _ _ _ Hi Hn _ _ Hrun) as [Hinv _].
  destruct (inv_confirmed _ _ _ _ _ Hinv) as (cs & la & He & Ht & Hl).
  exists cs, la. split_and!; [done..|]. by destruct (trail_state _ _ _ Hi _ _ Ht) as (_ & _ & _ & ? & _).
Qed.

(** C8: a session never gets stuck.  As long as no call failed, a session that waits has
    live tasks to wait for, and when a call fails it is for one of these reasons: the call
    was refused and changed nothing; the session was closed or cancelled; settlement rejected
    the result of a node; a node raised, and the error is reported only after every other
    task has finished and every result was yielded; or the session is finished
    ([StopAsyncIteration]), and then every callable node of the claim was yielded and is
    settled.  The error "no executable pending node can be scheduled" is unreachable. *)
Theorem session_never_stuck codec repr_tuple owner graph request attempt st0 prep s answers a s' :
  session_issued codec repr_tuple owner graph request attempt st0 prep → run graph st0 prep s answers →
  Forall (λ a, failed a = false) answers → step graph s a s' →
  match a with
  | Suspended => ss_pc s' = AtWait → ss_disposition s' ≠ CLOSED → ts_live (ss_scheduler s') ≠ []
  | Yielded _ => True
  | Failed e => s' = s ∨ explained graph st0 (entries answers) e s'
  end.
Proof.
  intros Hsi Hrun Hall Hstep. destruct (session_issued_issued _ _ _ _ _ _ _ _ Hsi) as [Hi Hn].
  destruct (run_inv _ _ _ Hi Hn _ _ Hrun) as [Hinv Hk]. specialize (Hk Hall).
  destruct (step_preserves _ _ _ Hi Hn _ _ _ _ Hinv Hstep) as [[-> Hf]|[_ Hw _ Hf]]; [destruct a; [done..|by left]|].
  destruct a; [by apply Hw|done|right; by apply Hf].
Qed.
End theorems.

(* ------------------------------------------------------------------ *)
(** ** A run: two nodes compete for a resource, a third does not *)

Definition demo_types : ValueTypes Z unit unit :=
  {| type_of _ := tt; Values.value_type v := v; nominal _ := true; class_eq_dec := unit_eq_dec |}.
Definition demo_configs : Configs unit :=
  {| config_ok _ := true; config_cursor_of _ := mkCursor (lit "def") 1 0 None; config_eq_dec := unit_eq_dec |}.

#[local] Existing Instances demo_types demo_configs.

Definition rivals_definition : GraphDefinition unit :=
  mkDefinition 1 (lit "def") 1
    [CallableNode (lit "a") [] [] [lit "r1"] []; CallableNode (lit "b") [] [] [lit "r1"] [];
     CallableNode (lit "c") [] [] [] []] [] [] [] [lit "r1"] None.
Definition rivals_compiled : result (CompiledGraph unit * gmap Z (CompiledGraph unit)) :=
  compile Values.value_type rivals_definition ∅.
Definition rivals : CompiledGraph unit :=
  match rivals_compiled with Ok (graph, _) => graph | Raise _ => demo_graph end.
Definition rivals_start : GraphRunState :=
  state_of (start ← project_start_graph_command rivals (lit "run") None None; reduce_graph_run None (CmdStart start)).
Definition rivals_request : StepRequest Z unit unit :=
  mkRequest rivals_start (mkScopeRun [] (lit "run")) empty_index [] (mkLimits 10 2) None.
Definition no_codec : CodecFunctions (A := Z) (C := unit) (S := unit) := mkCodecFunctions (λ _, None) (λ _, None).
Definition rivals_prepared : result (PrepareDisposition Z unit unit) :=
  prepare_superstep no_codec demo_repr 7 rivals rivals_request (lit "attempt").
Definition rivals_claim : PreparedExecutionClaim Z unit unit :=
  match rivals_prepared with
  | Ok (ExecutableFrontier claim _) => claim
  | _ => mkPreparedClaim 0 (mkClaim 0 [] None) (mkPreparation rivals_request [] [] [] [] []) true end.
Definition rivals_claimed : GraphRunState :=
  state_of (reduce_graph_run (Some rivals_start) (CmdClaim (pc_command rivals_claim))).
Definition rivals_prep : FrontierPreparation Z unit unit := pc_preparation rivals_claim.

(** What happens to the session: calls acknowledge the last yielded settlement. *)
Inductive Happening := Called | Finished (nodes : list str).
Definition rivals_task (node : str) : str := task_identity (lit "run") 0 node.
Definition nothing_returned : NodeAnswer (A := Z) (C := unit) (S := unit) := Returned (ReturnedValues (mkValues [] None None)).

Definition happen (s : ExecutionSession (A := Z) (C := unit) (S := unit)) (h : Happening)
    : ExecutionSession * Answered :=
  match h with
  | Called => next rivals s (match ss_awaiting_ack s with
                             | Some c => state_of (reduce_graph_run (Some (ss_state s)) (CmdSettle c))
                             | None => ss_state s end)
  | Finished nodes => deliver rivals s ((λ node, (rivals_task node, nothing_returned)) <$> nodes)
  end.

(** [a] and [c] start, [b] waits for the resource; [b] and [c] then finish together. *)
Definition session0 := open_session rivals_claimed rivals_prep.
Definition session1 := fst (happen session0 Called).
Definition session2 := fst (happen session1 (Finished [lit "a"])).
Definition session3 := fst (happen session2 Called).
Definition session4 := fst (happen session3 (Finished [lit "c"; lit "b"])).
Definition session5 := fst (happen session4 Called).
Definition session6 := fst (happen session5 Called).
Definition rivals_answers : list (Answered (A := Z) (C := unit) (S := unit)) :=
  ((((([] ++ [snd (happen session0 Called)]) ++ [snd (happen session1 (Finished [lit "a"]))]) ++ [snd (happen session2 Called)])
    ++ [snd (happen session3 (Finished [lit "c"; lit "b"]))]) ++ [snd (happen session4 Called)]).

Lemma rivals_family : is_family (λ d, d = rivals_definition).
Proof.
  split; [|by intros d d' -> ->]. intros d i child inputs -> Hin; cbn in Hin.
  repeat (apply elem_of_cons in Hin as [Hin|Hin]; [discriminate Hin|]). by apply elem_of_nil in Hin.
Qed.

Lemma rivals_graph : compiled_graph rivals.
Proof.
  exists (λ d, d = rivals_definition), rivals_definition, ∅, rivals, {[1 := rivals]}, rivals_definition.
  split_and!; [apply rivals_family|done|apply faithful_empty|vm_compute; reflexivity|constructor|vm_compute; reflexivity].
Qed.

Lemma rivals_limits : ∃ supersteps parallel, ExecutionLimits_new supersteps parallel = Ok (req_limits rivals_request).
Proof. by exists 10, 2. Qed.

Lemma rivals_claims : prepare_superstep no_codec demo_repr 7 rivals rivals_request (lit "attempt") = Ok (ExecutableFrontier rivals_claim None).
Proof. vm_compute. reflexivity. Qed.

Lemma rivals_issued : session_issued no_codec demo_repr 7 rivals rivals_request (lit "attempt") rivals_claimed rivals_prep.
Proof.
  split; [apply rivals_graph|done|apply rivals_limits|]. exists rivals_claim, None.
  exists (mkPreparedClaim 7 (pc_command rivals_claim) rivals_prep true). split; [apply rivals_claims|]. vm_compute. reflexivity.
Qed.

Lemma happen_called s : step rivals s (snd (happen s Called)) (fst (happen s Called)).
Proof. eapply step_call. apply surjective_pairing. Qed.
Lemma happen_finished s nodes : ss_pc s = AtWait → nodes ≠ [] → no_repeats (rivals_task <$> nodes) = true →
  subset_of (rivals_task <$> nodes) (ts_live (ss_scheduler s)).*1 = true →
  step rivals s (snd (happen s (Finished nodes))) (fst (happen s (Finished nodes))).
Proof.
  intros Hpc Hne Hnd Hsub. eapply step_finish; [done| |apply surjective_pairing].
  assert (((λ node, (rivals_task node, nothing_returned)) <$> nodes).*1 = rivals_task <$> nodes) as E by by rewrite <- list_fmap_compose.
  split; rewrite ?E; [by destruct nodes|by apply no_repeats_spec|by apply subset_of_spec].
Qed.

Ltac computed := vm_compute; reflexivity.
Lemma rivals_run : run rivals rivals_claimed rivals_prep session5 rivals_answers.
Proof.
  refine (run_step _ _ _ session4 _ _ session5 _ (happen_called session4)).
  refine (run_step _ _ _ session3 _ _ session4 _ (happen_finished session3 _ _ _ _ _)); [|computed|done|computed|computed].
  refine (run_step _ _ _ session2 _ _ session3 _ (happen_called session2)).
  refine (run_step _ _ _ session1 _ _ session2 _ (happen_finished session1 _ _ _ _ _)); [|computed|done|computed|computed].
  exact (run_step _ _ _ session0 _ _ session1 (run_open _ _ _) (happen_called session0)).
Qed.

Lemma claim_issues_one_session_witness :
  ∃ claim', issue_session 7 rivals rivals_claim rivals_claimed = Ok (rivals_claimed, rivals_prep, claim')
    ∧ ∃ e, issue_session 7 rivals claim' rivals_claimed = Raise e.
Proof.
  destruct (claim_issues_one_session no_codec demo_repr 7 rivals rivals_request (lit "attempt") rivals_claim None
    rivals_graph eq_refl rivals_limits rivals_claims) as (st0 & claim' & Hred & Hiss & _ & Honce).
  exists claim'. assert (st0 = rivals_claimed) as ->.
  { unfold rivals_claimed. change (req_state rivals_request) with rivals_start in Hred. by rewrite Hred. }
  split; [exact Hiss|apply Honce].
Defined.

Lemma session_yields_once_witness :
  task_node_id <$> log_tasks (entries rivals_answers) = [lit "a"; lit "b"; lit "c"]
  ∧ NoDup (task_node_id <$> log_tasks (entries rivals_answers)).
Proof.
  split; [computed|].
  exact (proj1 (session_yields_once no_codec demo_repr 7 rivals rivals_request (lit "attempt") rivals_claimed rivals_prep
    session5 rivals_answers rivals_issued rivals_run)).
Defined.

Lemma session_refines_settlement_witness :
  ∃ confirmed last, entries rivals_answers = confirmed ++ [last] ∧ trail rivals rivals_claimed confirmed (ss_state session5).
Proof.
  destruct (session_refines_settlement no_codec demo_repr 7 rivals rivals_request (lit "attempt") rivals_claimed rivals_prep
    session5 rivals_answers rivals_issued rivals_run) as (confirmed & last & He & Ht & [->|(entry & -> & _)] & Hp).
  - exfalso. rewrite app_nil_r in He. subst confirmed. destruct (Hp (lit "c")) as [Hc _].
    assert (lit "c" ∈ pending_node_ids (st_frontier (ss_state session5))) as Hpend by (apply (proj1 (mem_spec _ _)); computed).
    destruct (Hc Hpend) as [_ Hn].
    assert (mem (lit "c") (task_node_id <$> log_tasks (entries rivals_answers)) = true) as Hin by computed.
    exact (Hn (proj1 (mem_spec _ _) Hin)).
  - exists confirmed, entry. split; [exact He|exact Ht].
Defined.

Lemma rivals_clean : Forall (λ a, failed a = false) rivals_answers.
Proof.
  assert (forallb (negb ∘ failed) rivals_answers = true) as E by computed. apply Forall_forall. intros a Ha%list_elem_of_In.
  by apply negb_true_iff, (proj1 (forallb_forall _ _) E).
Qed.

Lemma session_never_stuck_witness :
  snd (happen session5 Called) = Failed (Exn StopAsyncIteration "")
  ∧ explained rivals rivals_claimed (entries rivals_answers) (Exn StopAsyncIteration "") session6.
Proof.
  assert (snd (happen session5 Called) = Failed (Exn StopAsyncIteration "")) as E by computed. split; [exact E|].
  pose proof (session_never_stuck no_codec demo_repr 7 rivals rivals_request (lit "attempt") rivals_claimed rivals_prep
    session5 rivals_answers _ session6 rivals_issued rivals_run rivals_clean
    (happen_called session5)) as Hx.
  rewrite E in Hx. destruct Hx as [Hx|Hx]; [|exact Hx]. exfalso. assert (ss_disposition session6 = QUIESCENT) as E6 by computed.
  assert (ss_disposition session5 = OPEN) as E5 by computed. rewrite Hx, E5 in E6. discriminate E6.
Defined.
