(* ===== verification/Commit.v ===== *)
(** * Transitions and commits

    [execution/commit.py] with the commit results of [result.py]: one reducer transition
    with the frames it writes, offered to the caller's commit port, and the frames it
    installs once confirmed.  Frames are immutable: object identity of frames is equality. *)

From Stdlib Require Import ZArith NArith Lia Bool String.
From stdpp Require Import prelude strings gmap sorting.
From S2P Require Import Prelude Identity Resources Model Validation Transitions Reducer Topology Routing Engine Values RunContext Materialization Superstep.

Set Default Goal Selector "!".
Open Scope Z_scope.

#[export] Instance frame_eq_dec {A C} `{EqDecision A} `{EqDecision C} : EqDecision (Frame A C).
Proof. solve_decision. Defined.

(** [GraphInputEvidence] and [GraphPublicationEvidence]. *)
Record GraphInputEvidence (A C : Type) := mkInputEvidence {
  ie_coordinate : GraphInputAvailabilityCoordinate;
  ie_frame : Frame A C
}.
Record GraphPublicationEvidence (A C : Type) := mkPublicationEvidence {
  pe_coordinate : PublicationAvailabilityCoordinate;
  pe_frame : Frame A C;
  pe_provenance : GraphExecutionToken
}.
Arguments mkInputEvidence {_ _}.
Arguments ie_coordinate {_ _}.
Arguments ie_frame {_ _}.
Arguments mkPublicationEvidence {_ _}.
Arguments pe_coordinate {_ _}.
Arguments pe_frame {_ _}.
Arguments pe_provenance {_ _}.

(** [GraphCommitResult] *)
Inductive GraphCommitResult (A C : Type) :=
| SuccessResult (node_id : str) (publication : GraphPublicationEvidence A C) (route : option str)
| FailureResult (node_id failure : str)
| InterruptResult (node_id : str) (request_payload : bytes).
Arguments SuccessResult {_ _}.
Arguments FailureResult {_ _}.
Arguments InterruptResult {_ _}.
Definition commit_node_id {A C} (result_ : GraphCommitResult A C) : str :=
  match result_ with SuccessResult n _ _ | FailureResult n _ | InterruptResult n _ => n end.

Record GraphCommitKey := mkCommitKey { ck_run_id : str; ck_revision : Z }.

(** [GraphCommitKey.__post_init__] *)
Definition GraphCommitKey_new (run_id : str) (revision : Z) : result GraphCommitKey :=
  raise_if (negb (is_canonical_identity run_id)) SnapshotMismatchError "commit key requires a canonical run identity";;
  raise_if (revision <? 0) SnapshotMismatchError "commit key revision must be a non-negative integer";;
  Ok (mkCommitKey run_id revision).

Record GraphCommitWriteSet (A C : Type) := mkWriteSet {
  ws_commit_key : GraphCommitKey;
  ws_graph_inputs : list (GraphInputEvidence A C);
  ws_settlement : option (GraphCommitResult A C)
}.
Arguments mkWriteSet {_ _}.
Arguments ws_commit_key {_ _}.
Arguments ws_graph_inputs {_ _}.
Arguments ws_settlement {_ _}.

(** [GraphCommitWriteSet.publications] *)
Definition ws_publications {A C} (writes : GraphCommitWriteSet A C) : list (GraphPublicationEvidence A C) :=
  match ws_settlement writes with Some (SuccessResult _ publication _) => [publication] | _ => [] end.

Record GraphTransition (A C S : Type) := mkTransition {
  gt_scope : list str;
  gt_previous_state : option GraphRunState;
  gt_command : GraphRunCommand;
  gt_candidate_state : GraphRunState;
  gt_writes : GraphCommitWriteSet A C;
  gt_agent_session : option (AgentSession C S)
}.
Arguments mkTransition {_ _ _}.
Arguments gt_scope {_ _ _}.
Arguments gt_previous_state {_ _ _}.
Arguments gt_command {_ _ _}.
Arguments gt_candidate_state {_ _ _}.
Arguments gt_writes {_ _ _}.
Arguments gt_agent_session {_ _ _}.

Definition installation_fail_if (b : bool) (m : string) : result unit := raise_if b FrameInstallationInvariantError m.

Section commit.
Context {A V W C S : Type} `{EqDecision A} `{ValueTypes A V W} `{Configs C} `{EqDecision S}.
Implicit Types (graph : CompiledGraph V) (frames : ScopedFrameIndex A C S).
Notation Session := (AgentSession C S).

(** [GraphPublicationEvidence]: its provenance is an admitted token. *)
Definition PublicationEvidence_new (coordinate : PublicationAvailabilityCoordinate) (frame : Frame A C)
    (token : GraphExecutionToken) : result (GraphPublicationEvidence A C) :=
  _ ← except is_value_error SnapshotMismatchError "publication has inconsistent execution provenance"
        (GraphExecutionToken_admit token);
  Ok (mkPublicationEvidence coordinate frame token).

(** [_commit_result] *)
Definition commit_result (result_ : NodeResult A C S) (publication : option (GraphPublicationEvidence A C))
    : result (GraphCommitResult A C) :=
  match result_, publication with
  | NodeSuccess _ _ _ _, None => Raise (Exn NodeExecutionContractError "successful settlement requires publication evidence")
  | NodeSuccess task output route _, Some publication =>
      contract_fail_if (negb (bool_decide (pe_frame publication = output)))
        "publication evidence must carry the task output frame";;
      Ok (SuccessResult (task_node_id task) publication route)
  | _, Some _ => Raise (Exn NodeExecutionContractError "failed or interrupted settlement cannot publish output evidence")
  | NodeFailure task failure, None => Ok (FailureResult (task_node_id task) failure)
  | NodeInterrupt task payload, None => Ok (InterruptResult (task_node_id task) payload)
  end.

(** [GraphCommitWriteSet.__post_init__] *)
Definition WriteSet_new (key : GraphCommitKey) (graph_inputs : list (GraphInputEvidence A C))
    (settlement : option (GraphCommitResult A C)) : result (GraphCommitWriteSet A C) :=
  let coordinates := ie_coordinate <$> graph_inputs in
  mismatch_fail_if (negb (no_repeats coordinates) || negb (bool_decide (coordinates = sorted coordinates)))
    "commit graph inputs must be canonical and distinct";;
  Ok (mkWriteSet key graph_inputs settlement).

(** The evidence of a settlement that [GraphTransition.__post_init__] checks. *)
Definition check_settlement_evidence (command : SettleGraphNode) (candidate : GraphRunState)
    (writes : GraphCommitWriteSet A C) : result unit :=
  match ws_settlement writes with
  | None => Raise (Exn SnapshotMismatchError "settlement evidence does not match its command")
  | Some settlement =>
      mismatch_fail_if (negb (bool_decide (commit_node_id settlement = outcome_node_id (set_outcome command))))
        "settlement evidence does not match its command";;
      match settlement with
      | SuccessResult _ _ _ =>
          match set_outcome command with
          | SucceededGraphNodeOutcome node_id _ =>
              activation ← GraphActivationIdentity_new (st_run_id candidate) (st_superstep candidate) node_id;
              match List.filter (λ item, bool_decide (ref_activation (pub_reference item) = activation))
                      (st_settled_publications candidate) with
              | [item] =>
                  mismatch_fail_if (negb (bool_decide (item = mkPublication (pub_reference item) (st_revision candidate)
                                                                 (set_execution command) (set_publication_evidence command))))
                    "successful settlement candidate is not bound to its publication evidence"
              | _ => Raise (Exn SnapshotMismatchError "successful settlement candidate is not bound to its publication evidence")
              end
          | _ => Raise (Exn SnapshotMismatchError "successful settlement evidence requires a successful state outcome")
          end
      | _ => Ok tt
      end
  end.

(** [GraphTransition.__post_init__] *)
Definition GraphTransition_new (sc : list str) (previous_state : option GraphRunState) (command : GraphRunCommand)
    (candidate : GraphRunState) (writes : GraphCommitWriteSet A C) (agent_session : option Session)
    : result (GraphTransition A C S) :=
  match agent_session with
  | None => Ok tt
  | Some session => _ ← except (one_of [AgentSessionContractError]) SnapshotMismatchError
                      "graph transition AgentSession is malformed" (admit_session_carrier session); Ok tt
  end;;
  mismatch_fail_if (negb (bool_decide (ck_run_id (ws_commit_key writes) = st_run_id candidate))
                    || negb (ck_revision (ws_commit_key writes) =? st_revision candidate))
    "graph write set is not bound to the candidate state";;
  match command with
  | CmdStart start =>
      mismatch_fail_if (bool_decide (is_Some (ws_settlement writes)) || negb (is_nil (ws_publications writes)))
        "StartGraphRun cannot carry settlement output evidence";;
      mismatch_fail_if (negb (length (ws_graph_inputs writes) =? 1)%nat)
        "StartGraphRun requires exactly one graph input evidence";;
      mismatch_fail_if (negb (bool_decide (st_graph_input_evidence candidate = start_graph_input_evidence start)))
        "StartGraphRun candidate is not bound to its graph input evidence"
  | _ => mismatch_fail_if (negb (is_nil (ws_graph_inputs writes))) "only StartGraphRun can carry graph input evidence"
  end;;
  match command with
  | CmdSettle settle => check_settlement_evidence settle candidate writes
  | _ => mismatch_fail_if (bool_decide (is_Some (ws_settlement writes)) || negb (is_nil (ws_publications writes)))
           "only SettleGraphNode can carry settlement evidence"
  end;;
  Ok (mkTransition sc previous_state command candidate writes agent_session).

(** [state.config_cursor if state.config_digest is not None else None] *)
Definition state_config_cursor (state : GraphRunState) : result (option GraphConfigCursor) :=
  match st_config_digest state with
  | None => Ok None
  | Some _ => cursor ← config_cursor state; Ok (Some cursor)
  end.

(** The caller's Session fits the candidate of a start. *)
Definition check_session (command : GraphRunCommand) (candidate : GraphRunState) (agent_session : option Session) : result unit :=
  match agent_session with
  | None => Ok tt
  | Some session =>
      admitted ← except (one_of [AgentSessionContractError]) SnapshotMismatchError
        "Graph transition AgentSession is malformed" (admit_session_carrier session);
      match command with
      | CmdStart _ =>
          cursor ← state_config_cursor candidate;
          mismatch_fail_if (negb (bool_decide (config_cursor_of <$> se_config admitted = cursor)))
            "Graph candidate Config does not match its AgentSession"
      | _ => Ok tt
      end
  end.

(** The graph input a start writes. *)
Definition input_evidence graph (scope_run : ScopeRunCoordinate) (command : GraphRunCommand) (graph_input : option (Frame A C))
    : result (list (GraphInputEvidence A C)) :=
  match command, graph_input with
  | CmdStart _, None => Raise (Exn FrameInstallationInvariantError "StartGraphRun requires graph input evidence")
  | CmdStart _, Some frame => Ok [mkInputEvidence (graph_input_availability_coordinate graph scope_run) frame]
  | _, Some _ => Raise (Exn FrameInstallationInvariantError "only StartGraphRun can carry graph input evidence")
  | _, None => Ok []
  end.

(** The publication a settlement writes. *)
Definition publication_evidence graph (scope_run : ScopeRunCoordinate) (command : GraphRunCommand) (candidate : GraphRunState)
    (result_ : option (NodeResult A C S)) : result (option (GraphPublicationEvidence A C)) :=
  match command, result_ with
  | CmdSettle _, None => Raise (Exn FrameInstallationInvariantError "SettleGraphNode requires settlement evidence")
  | CmdSettle settle, Some result_ =>
      let task := node_result_task result_ in
      mismatch_fail_if (negb (bool_decide (task_run_id task = st_run_id candidate))
                        || negb (task_superstep task =? st_superstep candidate)
                        || negb (bool_decide (task_node_id task = outcome_node_id (set_outcome settle))))
        "settlement result does not match its command coordinates";;
      match result_ with
      | NodeSuccess _ output _ _ =>
          activation ← GraphActivationIdentity_new (task_run_id task) (task_superstep task) (task_node_id task);
          coordinate ← publication_availability_coordinate graph scope_run activation;
          publication ← PublicationEvidence_new coordinate output (set_execution settle);
          Ok (Some publication)
      | _ => Ok None
      end
  | _, Some _ => Raise (Exn FrameInstallationInvariantError "only SettleGraphNode can carry settlement evidence")
  | _, None => Ok None
  end.

(** [prepare_transition] *)
Definition prepare_transition (scope_run : ScopeRunCoordinate) (previous_state : option GraphRunState) (command : GraphRunCommand)
    (result_ : option (NodeResult A C S)) graph (admitted_successor : option GraphRunState) (graph_input : option (Frame A C))
    (agent_session : option Session) : result (GraphTransition A C S) :=
  candidate ← reduce_graph_run previous_state command;
  admission ← transition_admission_error graph previous_state command candidate;
  match admission with Some error => Raise (Exn SnapshotMismatchError error) | None => Ok tt end;;
  check_session command candidate agent_session;;
  installation_fail_if (match admitted_successor with
                        | Some successor => negb (bool_decide (candidate = successor)) | None => false end)
    "owner resume candidate does not match its admitted successor";;
  inputs ← input_evidence graph scope_run command graph_input;
  publication ← publication_evidence graph scope_run command candidate result_;
  key ← GraphCommitKey_new (st_run_id candidate) (st_revision candidate);
  settlement ← match result_ with
    | None => Ok None | Some result_ => settlement ← commit_result result_ publication; Ok (Some settlement) end;
  writes ← WriteSet_new key inputs settlement;
  GraphTransition_new (scope scope_run) previous_state command candidate writes agent_session.

(** [bind_transition_evidence] *)
Definition bind_transition_evidence (transition : GraphTransition A C S) (graph_input publication : option GraphEvidenceCommitment)
    : result (GraphTransition A C S) :=
  let rebuild command :=
    candidate ← reduce_graph_run (gt_previous_state transition) command;
    GraphTransition_new (gt_scope transition) (gt_previous_state transition) command candidate (gt_writes transition)
      (gt_agent_session transition) in
  match gt_command transition with
  | CmdStart start =>
      match graph_input, publication with
      | Some graph_input, None =>
          admitted ← GraphEvidenceCommitment_admit graph_input;
          mismatch_fail_if (negb (bool_decide (start_graph_input_evidence start ∈ [None; Some admitted])))
            "StartGraphRun graph input commitment cannot be replaced";;
          rebuild (CmdStart (start <| start_graph_input_evidence := Some admitted |>))
      | _, _ => Raise (Exn SnapshotMismatchError "StartGraphRun requires exactly one graph input commitment")
      end
  | CmdSettle settle =>
      match set_outcome settle with
      | SucceededGraphNodeOutcome _ _ =>
          match graph_input, publication with
          | None, Some publication =>
              admitted ← GraphEvidenceCommitment_admit publication;
              mismatch_fail_if (negb (bool_decide (set_publication_evidence settle ∈ [None; Some admitted])))
                "settlement publication commitment cannot be replaced";;
              rebuild (CmdSettle (settle <| set_publication_evidence := Some admitted |>))
          | _, _ => Raise (Exn SnapshotMismatchError "successful settlement requires exactly one publication commitment")
          end
      | _ => match graph_input, publication with
             | None, None => Ok transition
             | _, _ => Raise (Exn SnapshotMismatchError "only value-producing transitions can bind durable evidence") end
      end
  | _ => match graph_input, publication with
         | None, None => Ok transition
         | _, _ => Raise (Exn SnapshotMismatchError "only value-producing transitions can bind durable evidence") end
  end.

(** [confirm_transition], with the answer of the commit port; every failure is wrapped. *)
Definition confirm_transition (transition : GraphTransition A C S) (commit : GraphTransition A C S → result GraphRunState)
    : result GraphRunState :=
  except (λ _, true) GraphCommitError "Graph commit did not produce an exact authoritative confirmation" (
    confirmed ← commit transition;
    except (one_of [GraphStateTransitionError]) SnapshotMismatchError
      "commit must return the exact authoritative reducer successor" (validate_graph_run_state confirmed);;
    except (one_of [GraphStateTransitionError]) SnapshotMismatchError
      "commit must return the exact authoritative reducer successor"
      (admit_graph_run_confirmation (gt_previous_state transition) (gt_command transition) confirmed)).

(** [scoped_commit] *)
Definition scoped_commit (scope_run : ScopeRunCoordinate) (commit : option (GraphTransition A C S → result GraphRunState))
    (transition : GraphTransition A C S) : result GraphRunState :=
  mismatch_fail_if (negb (bool_decide (gt_scope transition = scope scope_run))
                    || negb (bool_decide (st_run_id (gt_candidate_state transition) = graph_run_id scope_run))
                    || match gt_previous_state transition with
                       | Some previous => negb (bool_decide (st_run_id previous = graph_run_id scope_run)) | None => false end)
    "owner commit received a transition for a different scoped graph run";;
  match commit with None => Ok (gt_candidate_state transition) | Some commit => commit transition end.

(** [apply_commit_writes] *)
Definition apply_commit_writes frames (writes : GraphCommitWriteSet A C) : result (ScopedFrameIndex A C S) :=
  staged ← py_for_state (ws_graph_inputs writes) frames (λ staged evidence,
    add_graph_input staged (mkAdmittedInput (ie_coordinate evidence) (ie_frame evidence)));
  py_for_state (ws_publications writes) staged (λ staged evidence,
    add_publication staged (mkConfirmedPublication (pe_coordinate evidence) (pe_frame evidence)
      (ck_revision (ws_commit_key writes)) (pe_provenance evidence))).
End commit.
