(* ===== verification/ResumeAdmission.v ===== *)
(** * Preparing a resume

    [execution/engine/resume_admission.py] and the resume requests of [request.py]. *)

From Stdlib Require Import ZArith NArith Lia Bool String.
From stdpp Require Import prelude strings gmap sorting.
From S2P Require Import Prelude Identity Resources Model Transitions Reducer Topology Routing Engine Values RunContext Materialization.

Set Default Goal Selector "!".
Open Scope Z_scope.

(** [ResumeInterruptedNodeRequest], with the values of its [OverrideNodeInput]. *)
Record ResumeInterruptedNodeRequest (A C S : Type) := mkNodeRequest {
  rn_scope : list str;
  rn_node_id : str;
  rn_interrupt_id : str;
  rn_input : GraphValues A C S
}.
Arguments mkNodeRequest {_ _ _}.
Arguments rn_scope {_ _ _}.
Arguments rn_node_id {_ _ _}.
Arguments rn_interrupt_id {_ _ _}.
Arguments rn_input {_ _ _}.

Record ResumeRequest (A C S : Type) := mkResumeRequest {
  rr_state : GraphRunState;
  rr_scope_run : ScopeRunCoordinate;
  rr_frames : ScopedFrameIndex A C S;
  rr_actions : list (ResumeInterruptedNodeRequest A C S);
  rr_session : option (AgentSession C S)
}.
Arguments mkResumeRequest {_ _ _}.
Arguments rr_state {_ _ _}.
Arguments rr_scope_run {_ _ _}.
Arguments rr_frames {_ _ _}.
Arguments rr_actions {_ _ _}.
Arguments rr_session {_ _ _}.

(** [PreparedResume] *)
Record PreparedResume (A C S : Type) := mkPreparedResume {
  pr_command : ResumeGraphNodes;
  pr_inputs : list (AdmittedResumeInput A C S)
}.
Arguments mkPreparedResume {_ _ _}.
Arguments pr_command {_ _ _}.
Arguments pr_inputs {_ _ _}.

Section resume.
Context {A V W C S : Type} `{ValueTypes A V W} `{Configs C} `{EqDecision S}.
Context (codec : CodecFunctions (A := A) (C := C) (S := S)).
Implicit Types (graph : CompiledGraph V) (request : ResumeRequest A C S).

(** [_admit_override_resume_input] *)
Definition admit_override_resume_input graph (node_id : str) (override : GraphValues A C S) (activation_config : option C)
    (session : option (AgentSession C S)) : result (bytes * NodeInputFrame A C S) :=
  payload ← encode_resume_input codec graph override;
  frame ← decode_resume_input codec graph node_id payload activation_config session;
  Ok (payload, frame).

(** One requested node. *)
Definition prepare_resume_action graph request (requested : ResumeInterruptedNodeRequest A C S)
    : result (ResumeInterruptedNode * AdmittedResumeInput A C S) :=
  let state := rr_state request in
  match frontier_node (st_frontier state) (rn_node_id requested) with
  | None => Raise (Exn SnapshotMismatchError "resume request references an unknown frontier node")
  | Some current =>
      identity ← GraphActivationIdentity_new (st_run_id state) (st_superstep state) (rn_node_id requested);
      activation ← stable_activation (rr_scope_run request) identity;
      plan ← require_node_materialization graph (rn_node_id requested);
      match fn_settlement current with
      | InterruptedGraphNode interrupt =>
          let identity := interrupt_identity interrupt in
          mismatch_fail_if (negb (bool_decide (rn_interrupt_id requested =
              graph_interrupt_id (int_run_id identity) (int_superstep identity) (int_node_id identity)
                (int_execution_generation identity))))
            "interrupt resume ID does not match the current node interrupt";;
          mismatch_fail_if (has_predecessor plan) "predecessor-bound activation cannot use an input override";;
          historical_config ← activation_config_for_cause graph (rr_scope_run request) current (rr_frames request);
          let inherited_config := match rr_session request with
                                  | Some session => se_config session | None => historical_config end in
          '(payload, frame) ← admit_override_resume_input graph (rn_node_id requested) (rn_input requested)
             inherited_config (rr_session request);
          Ok (mkResumeAction (rn_node_id requested) (rn_interrupt_id requested) payload,
              mkAdmittedResume (resume_input_coordinate activation plan) frame)
      | _ => Raise (Exn SnapshotMismatchError "interrupt resume requires an interrupted node")
      end
  end.

(** [prepare_resume] *)
Definition prepare_resume graph request : result (PreparedResume A C S) :=
  let state := rr_state request in
  require_scoped_snapshot_matches_graph graph state (rr_scope_run request);;
  mismatch_fail_if (negb (bool_decide (st_status state = RUNNING)) || bool_decide (is_Some (st_execution state))
                    || bool_decide (is_Some (st_resources state)))
    "resume requires one quiescent running graph";;
  require_resume_input_binding graph state;;
  let requested_ids := rn_node_id <$> rr_actions request in
  mismatch_fail_if (is_nil requested_ids || negb (bool_decide (requested_ids = sorted_set requested_ids))
                    || existsb (λ action, negb (bool_decide (rn_scope action = scope (rr_scope_run request)))) (rr_actions request))
    "resume actions must be non-empty, distinct, canonical, and scoped";;
  prepared ← mapM (prepare_resume_action graph request) (rr_actions request);
  Ok (mkPreparedResume (mkResume (st_revision state) (fst <$> prepared)) (snd <$> prepared)).
End resume.
