(* ===== verification/CommitProofs.v ===== *)
(** * Commits keep the frame index and the ledger in step

    The frames of a scope run that the index holds are exactly those of the run's graph
    input and of its settled publications, along every history of commits, whatever the
    other scopes of the family write in between; installing a confirmed commit never fails. *)

From Stdlib Require Import ZArith NArith Lia Bool String.
From stdpp Require Import prelude strings gmap sorting.
From S2P Require Import Prelude Identity Resources Model Validation Transitions WellFormed Reducer ReducerProofs OperationProofs SettleProofs ConfirmationProofs Topology Routing Engine EngineProofs Values RunContext RunContextProofs Materialization Superstep Session SessionState SessionTheorems Commit.

Set Default Goal Selector "!".
Open Scope Z_scope.

(* ------------------------------------------------------------------ *)
(** ** The activations a ledger settles *)

Definition settled (state : GraphRunState) : list GraphActivationIdentity := ref_activation <$> settled_references state.

(** Only a successful settlement adds an activation. *)
Definition adds (s : GraphRunState) (command : GraphRunCommand) : list GraphActivationIdentity :=
  match command with
  | CmdSettle c => match set_outcome c with
                   | SucceededGraphNodeOutcome n _ => [mkActivation (st_run_id s) (st_superstep s) n] | _ => [] end
  | _ => []
  end.

Lemma settled_step s command s' : reduce_graph_run (Some s) command = Ok s' →
  ∀ x, x ∈ settled s' ↔ x ∈ settled s ∨ x ∈ adds s command.
Proof.
  intros Hred x. destruct command as [c|c|c|c|c|c|c|c]; try (
    apply reduce_inv in Hred as (Hwf & _ & u & Hu & -> & _); cbn in Hu; cbn [adds]; rewrite elem_of_nil).
  - done.
  - apply claim_inv in Hu as (_ & _ & _ & _ & _ & _ & ->). cbn. naive_solver.
  - apply fence_inv in Hu as (_ & _ & ->). cbn. naive_solver.
  - assert (wf s) as Hwf by by apply reduce_inv in Hred as [? _].
    apply settle_forward in Hred as (_ & _ & _ & _ & cursor & resources & d & _ & _ & _ & []); [|done].
    unfold settled, settled_references. rewrite sf_ledger. unfold outcome_ledger. cbn [adds].
    destruct (set_outcome c) as [n routing|n f|n i p]; [|rewrite elem_of_nil; naive_solver..].
    unfold sorted_key. rewrite !sort_by_perm, !fmap_app, elem_of_app. done.
  - apply resume_inv in Hu as (_ & _ & _ & _ & _ & up & _ & ->). cbn. naive_solver.
  - apply advance_inv in Hu as (_ & _ & ->). cbn. naive_solver.
  - apply complete_inv in Hu as (_ & _ & ->). cbn. naive_solver.
  - apply abort_inv in Hu as (_ & _ & ->). cbn. naive_solver.
Qed.

Lemma erased_settled s s' : erase_evidence s = erase_evidence s' → settled s = settled s'.
Proof.
  intros E. apply (f_equal st_settled_publications) in E. cbn in E. unfold settled, settled_references.
  assert (∀ ledger : list GraphPublicationSettlement, pub_reference <$> (erase_publication <$> ledger) = pub_reference <$> ledger) as Hr.
  { intros ledger. by rewrite <- list_fmap_compose. }
  by rewrite <- (Hr (st_settled_publications s)), E, Hr.
Qed.

(** A confirmation changes the ledger, the run and the revision as its command does. *)
Lemma confirmed_step s command s' : admit_graph_run_confirmation (Some s) command s' = Ok s' →
  wf s' ∧ (∀ x, x ∈ settled s' ↔ x ∈ settled s ∨ x ∈ adds s command) ∧ st_run_id s' = st_run_id s
  ∧ ∃ candidate, reduce_graph_run (Some s) command = Ok candidate ∧ st_revision s' = st_revision candidate.
Proof.
  intros (_ & Hwf & expected & Hred & E)%confirmation_sound. split_and!; [done| | |].
  - intros x. rewrite (erased_settled _ _ E). by apply settled_step.
  - apply (f_equal st_run_id) in E. cbn in E. rewrite E. assert (run_step s expected) as [Hev _]%step_evolves by (by exists command). by destruct Hev.
  - exists expected. split; [done|]. by apply (f_equal st_revision) in E.
Qed.

(* ------------------------------------------------------------------ *)
(** ** What an index holds of a scope run *)

Section installed.
Context {A V W C S : Type} `{EqDecision A} `{ValueTypes A V W} `{Configs C} `{EqDecision S}.
Context (graph : CompiledGraph V) (scope_run : ScopeRunCoordinate).
Implicit Types (frames : ScopedFrameIndex A C S) (state : GraphRunState).
Notation coordinate_of := (publication_availability_coordinate graph scope_run).
Notation input_coordinate := (graph_input_availability_coordinate graph scope_run).

Record installed frames state : Prop := {
  in_index : index_ok frames;
  in_run : st_run_id state = graph_run_id scope_run;
  in_input : has_graph_input frames input_coordinate = true;
  in_ledger : ∀ c, sa_scope_run (pac_activation c) = scope_run →
    has_publication frames c = true ↔ ∃ x, x ∈ settled state ∧ coordinate_of x = Ok c
}.

(** Nothing of the scope run is there yet. *)
Record absent frames : Prop := {
  ab_index : index_ok frames;
  ab_input : has_graph_input frames input_coordinate = false;
  ab_ledger : ∀ c, sa_scope_run (pac_activation c) = scope_run → has_publication frames c = false
}.

Lemma coordinate_of_spec x c : coordinate_of x = Ok c →
  pac_activation c = mkStable scope_run (act_superstep x) (act_node_id x) ∧ act_run_id x = graph_run_id scope_run.
Proof.
  unfold publication_availability_coordinate, stable_activation, StableActivation_new. intros E.
  apply bind_Ok in E as (stable & [Hr [_ [= <-]]%seq_Ok_iff]%seq_Ok_iff & E). apply bind_Ok in E as (d & _ & [= <-]).
  apply raise_if_Ok, negb_false_iff, bool_decide_eq_true in Hr. done.
Qed.

Lemma coordinate_of_inj x x' c : coordinate_of x = Ok c → coordinate_of x' = Ok c → x = x'.
Proof.
  intros [E Er]%coordinate_of_spec [E' Er']%coordinate_of_spec. rewrite E in E'. injection E' as ? ?.
  destruct x, x'; cbn in *. congruence.
Qed.

Lemma has_publication_lookup frames c : has_publication frames c = true ↔ ∃ r, lookup_publication frames c = Ok r.
Proof. apply has_record_find. Qed.
Lemma has_input_lookup frames c : has_graph_input frames c = true ↔ ∃ r, lookup_graph_input frames c = Ok r.
Proof. apply has_record_find. Qed.

(** Adding a publication, or anything else, changes the availability of publications so. *)
Lemma bound_publication frames addition frames' c : bound frames addition frames' →
  has_publication frames' c = true ↔
  (∃ r, addition = AddPublication r ∧ c = cp_coordinate r) ∨ has_publication frames c = true.
Proof.
  intros Hb. rewrite !has_publication_lookup, (bd_publication _ _ _ Hb).
  destruct addition; try naive_solver. case_bool_decide; naive_solver.
Qed.
Lemma bound_input frames addition frames' c : bound frames addition frames' →
  has_graph_input frames' c = true ↔ (∃ r, addition = AddInput r ∧ c = agi_coordinate r) ∨ has_graph_input frames c = true.
Proof.
  intros Hb. rewrite !has_input_lookup, (bd_input _ _ _ Hb).
  destruct addition; try naive_solver. case_bool_decide; naive_solver.
Qed.

(* ---------------------------------------------------------------- *)
(** ** Installing *)

Lemma install_unchanged frames state state' : installed frames state →
  st_run_id state' = st_run_id state → (∀ x, x ∈ settled state' ↔ x ∈ settled state) → installed frames state'.
Proof.
  intros [Hi Hr Hin Hl] Hr' Hs. split; [done|congruence|done|]. intros c Hc. rewrite Hl by done. by setoid_rewrite Hs.
Qed.

(** The record of a publication that was not settled before. *)
Lemma install_publication frames state state' record x : installed frames state →
  st_run_id state' = st_run_id state → (∀ y, y ∈ settled state' ↔ y ∈ settled state ∨ y = x) → x ∉ settled state →
  coordinate_of x = Ok (cp_coordinate record) →
  ∃ frames', add_publication frames record = Ok frames' ∧ installed frames' state'
    ∧ lookup_publication frames' (cp_coordinate record) = Ok record.
Proof.
  intros [Hi Hr Hin Hl] Hr' Hs Hnew Hc.
  assert (has_publication frames (cp_coordinate record) = false) as Hk.
  { apply not_true_iff_false. rewrite Hl by by apply coordinate_of_spec in Hc as [-> _].
    intros (y & Hy & Hcy). by rewrite (coordinate_of_inj _ _ _ Hcy Hc) in Hy. }
  destruct (add_Ok frames (AddPublication record) Hi Hk) as (frames' & Ha & Hi' & Hb). exists frames'.
  split; [exact Ha|]. split; [|by rewrite (bd_publication _ _ _ Hb), bool_decide_true].
  split; [done|congruence|by rewrite (bound_input _ _ _ _ Hb); right|].
  intros c Hsc. rewrite (bound_publication _ _ _ _ Hb), (Hl c Hsc). setoid_rewrite Hs. split.
  - intros [(r & [= <-] & ->)|(y & Hy & Hcy)]; [exists x|exists y]; naive_solver.
  - intros (y & [Hy| ->] & Hcy); [right; by exists y|left]. exists record. split; [done|]. congruence.
Qed.

(** The record of the graph input of a new run. *)
Lemma install_input frames state record : absent frames → st_run_id state = graph_run_id scope_run → settled state = [] →
  agi_coordinate record = input_coordinate →
  ∃ frames', add_graph_input frames record = Ok frames' ∧ installed frames' state
    ∧ lookup_graph_input frames' input_coordinate = Ok record.
Proof.
  intros [Hi Hin Hl] Hr Hs Hc. assert (known frames (AddInput record) = false) as Hk by (cbn [known]; by rewrite Hc).
  destruct (add_Ok _ _ Hi Hk) as (frames' & Ha & Hi' & Hb). exists frames'. split; [exact Ha|].
  split; [|by rewrite (bd_input _ _ _ Hb), Hc, bool_decide_true]. split; [done|done| |].
  - rewrite (bound_input _ _ _ _ Hb). left. by exists record.
  - intros c Hsc. rewrite (bound_publication _ _ _ _ Hb), (Hl c Hsc), Hs. setoid_rewrite elem_of_nil. naive_solver.
Qed.

(** Writes of other scope runs. *)
Definition foreign (addition : Addition (A := A) (C := C) (S := S)) : Prop :=
  match addition with
  | AddInput r => gic_scope_run (agi_coordinate r) ≠ scope_run
  | AddPublication r => sa_scope_run (pac_activation (cp_coordinate r)) ≠ scope_run
  | _ => True
  end.
Lemma install_foreign frames state addition frames' : installed frames state → foreign addition →
  add frames addition = Ok frames' → installed frames' state.
Proof.
  intros [Hi Hr Hin Hl] Hf Ha. destruct (known frames addition) eqn:Hk.
  { destruct (add_Raise _ _ Hi Hk) as [m E]. congruence. }
  destruct (add_Ok _ _ Hi Hk) as (frames'' & Ha' & Hi' & Hb). rewrite Ha' in Ha. injection Ha as ->.
  split; [done|done|by rewrite (bound_input _ _ _ _ Hb); right|].
  intros c Hsc. rewrite (bound_publication _ _ _ _ Hb), (Hl c Hsc). split; [|by right].
  intros [(r & -> & ->)|?]; [by cbn in Hf|done].
Qed.

(* ---------------------------------------------------------------- *)
(** ** Prepared transitions *)

Notation Transition := (GraphTransition A C S).
Implicit Types (t : Transition) (r : NodeResult A C S).

Lemma GraphTransition_new_fields sc previous command candidate writes session t :
  GraphTransition_new (S := S) sc previous command candidate writes session = Ok t →
  t = mkTransition sc previous command candidate writes session.
Proof.
  unfold GraphTransition_new. intros E. do 4 apply seq_Ok_iff in E as [_ E]. by injection E.
Qed.

(** What a prepared transition writes. *)
Record writes_of (previous : option GraphRunState) (command : GraphRunCommand) (result_ : option (NodeResult A C S))
    (graph_input : option (Frame A C)) t : Prop := {
  wo_previous : gt_previous_state t = previous;
  wo_command : gt_command t = command;
  wo_candidate : reduce_graph_run previous command = Ok (gt_candidate_state t);
  wo_revision : ck_revision (ws_commit_key (gt_writes t)) = st_revision (gt_candidate_state t);
  wo_inputs : input_evidence graph scope_run command graph_input = Ok (ws_graph_inputs (gt_writes t));
  wo_settlement : ∃ publication, publication_evidence graph scope_run command (gt_candidate_state t) result_ = Ok publication
    ∧ match result_ with
      | None => ws_settlement (gt_writes t) = None
      | Some r => ∃ settlement, commit_result r publication = Ok settlement ∧ ws_settlement (gt_writes t) = Some settlement end
}.

Lemma prepare_transition_writes previous command result_ successor graph_input session t :
  prepare_transition scope_run previous command result_ graph successor graph_input session = Ok t →
  writes_of previous command result_ graph_input t.
Proof.
  unfold prepare_transition. intros E. apply bind_Ok in E as (candidate & Hred & E). apply bind_Ok in E as (admission & _ & E).
  do 3 apply seq_Ok_iff in E as [_ E]. apply bind_Ok in E as (inputs & Hin & E). apply bind_Ok in E as (publication & Hpub & E).
  apply bind_Ok in E as (key & Hkey & E). apply bind_Ok in E as (settlement & Hset & E). apply bind_Ok in E as (writes & Hw & E).
  apply GraphTransition_new_fields in E as ->. unfold WriteSet_new in Hw. apply seq_Ok_iff in Hw as [_ [= <-]].
  unfold GraphCommitKey_new in Hkey. do 2 apply seq_Ok_iff in Hkey as [_ Hkey]. injection Hkey as <-.
  split; cbn; try done. exists publication. split; [done|]. destruct result_ as [r|]; [|by injection Hset as <-].
  apply bind_Ok in Hset as (s & Hs & [= <-]). by exists s.
Qed.

(** Durable evidence may be bound to a transition before it is offered. *)
Definition offered t t' : Prop :=
  t' = t ∨ ∃ graph_input publication, bind_transition_evidence t graph_input publication = Ok t'.

Lemma offered_same t t' s : offered t t' → gt_previous_state t' = gt_previous_state t ∧ gt_writes t' = gt_writes t
  ∧ adds s (gt_command t') = adds s (gt_command t)
  ∧ match gt_command t, gt_command t' with CmdStart c, CmdStart c' => start_run_id c' = start_run_id c | CmdStart _, _ => False | _, CmdStart _ => False | _, _ => True end.
Proof.
  intros [->|(gi & pub & E)]; [by destruct (gt_command t)|]. unfold bind_transition_evidence in E.
  destruct (gt_command t) as [c|c|c|c|c|c|c|c] eqn:Ec; try (destruct gi, pub; [done..|]; injection E as <-; by rewrite Ec).
  - destruct gi as [gi|], pub; try done. apply bind_Ok in E as (adm & _ & E). apply seq_Ok_iff in E as [_ E].
    apply bind_Ok in E as (cand & _ & E%GraphTransition_new_fields). by subst.
  - destruct (set_outcome c) eqn:Eo; [|destruct gi, pub; [done..|]; injection E as <-; by rewrite Ec..].
    destruct gi, pub as [pub|]; try done. apply bind_Ok in E as (adm & _ & E). apply seq_Ok_iff in E as [_ E].
    apply bind_Ok in E as (cand & _ & E%GraphTransition_new_fields). subst. cbn. by rewrite Eo.
Qed.

Lemma confirm_transition_admits t commit confirmed : confirm_transition t commit = Ok confirmed →
  admit_graph_run_confirmation (gt_previous_state t) (gt_command t) confirmed = Ok confirmed.
Proof.
  unfold confirm_transition. rewrite except_Ok. intros (x & _ & [_ E%except_Ok]%seq_Ok_iff)%bind_Ok.
  destruct (confirmation_sound _ _ _ _ E) as [-> _]. done.
Qed.

(* ---------------------------------------------------------------- *)
(** ** Installing a confirmed commit *)

Definition published (r : NodeResult A C S) : bool := match r with NodeSuccess _ _ _ _ => true | _ => false end.

Lemma settle_result_adds s r c : settle_result graph s (settlement_view r) = Ok c →
  adds s (CmdSettle c) = if published r then [mkActivation (task_run_id (node_result_task r)) (task_superstep (node_result_task r))
                                                (task_node_id (node_result_task r))] else [].
Proof.
  intros E. destruct (settle_result_node _ _ _ _ E) as (_ & Hrun & Hstep & _). rewrite settlement_view_task in Hrun, Hstep.
  unfold settle_result in E. apply seq_Ok_iff in E as [_ E]. apply bind_Ok in E as (? & _ & E). do 2 apply seq_Ok_iff in E as [_ E].
  unfold project_success_settlement, project_failure_settlement, project_interrupt_settlement in E.
  destruct r; cbn in *; inv_ok; simplify_eq/=; by rewrite ?Hrun, ?Hstep.
Qed.

Lemma new_activation s c s' x : reduce_graph_run (Some s) (CmdSettle c) = Ok s' → adds s (CmdSettle c) = [x] → x ∉ settled s.
Proof.
  intros Hred Hx. assert (wf s) as Hwf by by apply reduce_inv in Hred as [? _].
  apply settle_forward in Hred as (_ & He & Hp & _); [|done]. destruct (wf_lease _ Hwf _ He) as (Hst & _).
  apply elem_pending in Hp as (m & Hm & Hid & Hpend).
  assert (frontier_node (st_frontier s) (outcome_node_id (set_outcome c)) = Some m) as Hf.
  { rewrite <- Hid. apply frontier_node_lookup; [apply Hwf|done]. }
  pose proof (pending_not_settled _ _ _ Hwf Hst Hf Hpend) as Hn. cbn in Hx.
  destruct (set_outcome c); [|done..]. by injection Hx as <-.
Qed.

(** The published record of a settlement: its output, at the confirmed revision. *)
Definition publication_installed frames (r : NodeResult A C S) (c : SettleGraphNode) state : Prop :=
  match r with
  | NodeSuccess task output _ _ => ∃ coordinate,
      coordinate_of (mkActivation (task_run_id task) (task_superstep task) (task_node_id task)) = Ok coordinate
      ∧ lookup_publication frames coordinate = Ok (mkConfirmedPublication coordinate output (st_revision state) (set_execution c))
  | _ => True
  end.

Lemma settle_installs frames s r c successor session t t' commit state :
  installed frames s → settle_result graph s (settlement_view r) = Ok c →
  prepare_transition scope_run (Some s) (CmdSettle c) (Some r) graph successor None session = Ok t →
  offered t t' → confirm_transition t' commit = Ok state →
  ∃ frames', apply_commit_writes frames (gt_writes t') = Ok frames' ∧ installed frames' state
    ∧ publication_installed frames' r c state.
Proof.
  intros Hi Hset Hprep Hof Hconf. apply prepare_transition_writes in Hprep as [Hp Hc Hcand Hrev Hin (pub & Hpub & st & Hres & Hws)].
  destruct (offered_same _ _ s Hof) as (Hp' & -> & Hadds & _). apply confirm_transition_admits in Hconf. rewrite Hp', Hp in Hconf.
  destruct (confirmed_step _ _ _ Hconf) as (_ & Hled & Hrun & cand' & Hred' & Hrev').
  assert (st_revision state = ck_revision (ws_commit_key (gt_writes t))) as Hr.
  { rewrite Hrev, Hrev'. assert (run_step s cand') as [_ ->]%step_evolves by by eexists.
    by assert (run_step s (gt_candidate_state t)) as [_ ->]%step_evolves by by eexists. }
  rewrite Hadds, Hc, (settle_result_adds _ _ _ Hset) in Hled.
  unfold apply_commit_writes, ws_publications. cbn in Hin. injection Hin as <-. rewrite Hws. cbn [py_for_state mbind result_bind].
  apply seq_Ok_iff in Hpub as [_ Hpub]. destruct r as [task output route sess|task failure|task payload]; cbn in Hpub, Hled.
  2,3: injection Hpub as <-; injection Hres as <-; cbn; exists frames; split_and!; [done| |done];
    (eapply install_unchanged; [exact Hi|done|]); intros x; rewrite Hled, elem_of_nil; naive_solver.
  apply bind_Ok in Hpub as (act & Hact & Hpub). apply bind_Ok in Hpub as (coordinate & Hcoord & Hpub).
  apply bind_Ok in Hpub as (ev & Hev & [= <-]). unfold PublicationEvidence_new in Hev. apply bind_Ok in Hev as (? & _ & [= <-]).
  unfold commit_result in Hres. apply seq_Ok_iff in Hres as [_ [= <-]]. cbn.
  unfold GraphActivationIdentity_new in Hact. do 3 apply seq_Ok_iff in Hact as [_ Hact]. injection Hact as <-.
  destruct (install_publication frames s state (mkConfirmedPublication coordinate output (ck_revision (ws_commit_key (gt_writes t))) (set_execution c))
    (mkActivation (task_run_id task) (task_superstep task) (task_node_id task))) as (frames' & Ha & Hi' & Hl); [done|done| | |done|].
  - intros y. rewrite Hled. by rewrite list_elem_of_singleton.
  - eapply new_activation; [exact Hcand|]. by rewrite (settle_result_adds _ _ _ Hset).
  - exists frames'. rewrite Ha. split_and!; [done..|]. exists coordinate. rewrite Hr. by split.
Qed.

Lemma start_installs frames c frame session t t' commit state :
  absent frames → start_run_id c = graph_run_id scope_run →
  prepare_transition scope_run None (CmdStart c) None graph None (Some frame) session = Ok t →
  offered t t' → confirm_transition t' commit = Ok state →
  ∃ frames', apply_commit_writes frames (gt_writes t') = Ok frames' ∧ installed frames' state
    ∧ lookup_graph_input frames' input_coordinate = Ok (mkAdmittedInput input_coordinate frame).
Proof.
  intros Hab Hr Hprep Hof Hconf. apply prepare_transition_writes in Hprep as [Hp Hc Hcand Hrev Hin (pub & _ & Hws)].
  destruct (offered_same _ _ state Hof) as (Hp' & -> & _ & Hcmd). apply confirm_transition_admits in Hconf. rewrite Hp', Hp in Hconf.
  rewrite Hc in Hcmd. destruct (gt_command t') as [c'| | | | | | |]; try done.
  apply confirmation_sound in Hconf as (_ & _ & expected & Hred & E).
  assert (st_run_id state = graph_run_id scope_run ∧ settled state = []) as [Hrun Hs].
  { rewrite (erased_settled _ _ E). apply (f_equal st_run_id) in E. cbn in E, Hred. rewrite E. unfold start_graph_run in Hred.
    apply seq_Ok_iff in Hred as [_ Hred]. apply bind_Ok in Hred as (? & _ & Hred). apply bind_Ok in Hred as (? & _ & Hred).
    apply validated_wf in Hred as [-> _]. cbn. split; [congruence|done]. }
  unfold apply_commit_writes, ws_publications. cbn in Hin. injection Hin as <-. rewrite Hws. cbn.
  destruct (install_input frames state (mkAdmittedInput input_coordinate frame)) as (frames' & Ha & Hi & Hl); [done..|].
  exists frames'. rewrite Ha. done.
Qed.

(** Any other command writes nothing. *)
Lemma command_installs frames s command successor session t t' commit state :
  installed frames s →
  prepare_transition scope_run (Some s) command None graph successor None session = Ok t →
  offered t t' → confirm_transition t' commit = Ok state →
  apply_commit_writes frames (gt_writes t') = Ok frames ∧ installed frames state.
Proof.
  intros Hi Hprep Hof Hconf. apply prepare_transition_writes in Hprep as [Hp Hc Hcand Hrev Hin (pub & Hpub & Hws)].
  destruct (offered_same _ _ s Hof) as (Hp' & -> & Hadds & _). apply confirm_transition_admits in Hconf. rewrite Hp', Hp in Hconf.
  destruct (confirmed_step _ _ _ Hconf) as (_ & Hled & Hrun & _). rewrite Hadds, Hc in Hled.
  assert (adds s command = [] ∧ input_evidence graph scope_run command (None : option (Frame A C)) = Ok []) as [Ha Hi'].
  { by destruct command. }
  rewrite Hi' in Hin. injection Hin as Hin. unfold apply_commit_writes, ws_publications. rewrite <- Hin, Hws. split; [done|].
  eapply install_unchanged; [exact Hi|done|]. intros x. rewrite Hled, Ha, elem_of_nil. naive_solver.
Qed.

(* ---------------------------------------------------------------- *)
(** ** Histories *)

(** The indices and states that commits of the scope run reach, whatever other scopes of
    the family add in between. *)
Inductive committed : ScopedFrameIndex A C S → GraphRunState → Prop :=
| committed_start frames c frame session t t' commit state frames' :
    absent frames → start_run_id c = graph_run_id scope_run →
    prepare_transition scope_run None (CmdStart c) None graph None (Some frame) session = Ok t →
    offered t t' → confirm_transition t' commit = Ok state →
    apply_commit_writes frames (gt_writes t') = Ok frames' → committed frames' state
| committed_settle frames s r c successor session t t' commit state frames' :
    committed frames s → settle_result graph s (settlement_view r) = Ok c →
    prepare_transition scope_run (Some s) (CmdSettle c) (Some r) graph successor None session = Ok t →
    offered t t' → confirm_transition t' commit = Ok state →
    apply_commit_writes frames (gt_writes t') = Ok frames' → committed frames' state
| committed_command frames s command successor session t t' commit state frames' :
    committed frames s →
    prepare_transition scope_run (Some s) command None graph successor None session = Ok t →
    offered t t' → confirm_transition t' commit = Ok state →
    apply_commit_writes frames (gt_writes t') = Ok frames' → committed frames' state
| committed_foreign frames s addition frames' :
    committed frames s → foreign addition → add frames addition = Ok frames' → committed frames' s.

Lemma committed_installed frames state : committed frames state → installed frames state.
Proof.
  induction 1 as [frames c frame session t t' commit state frames' Hab Hr Hprep Hof Hconf Happ
    |frames s r c successor session t t' commit state frames' _ IH Hset Hprep Hof Hconf Happ
    |frames s command successor session t t' commit state frames' _ IH Hprep Hof Hconf Happ
    |frames s addition frames' _ IH Hf Ha].
  - destruct (start_installs _ _ _ _ _ _ _ _ Hab Hr Hprep Hof Hconf) as (frames'' & E & ? & _). congruence.
  - destruct (settle_installs _ _ _ _ _ _ _ _ _ _ IH Hset Hprep Hof Hconf) as (frames'' & E & ? & _). congruence.
  - destruct (command_installs _ _ _ _ _ _ _ _ _ IH Hprep Hof Hconf) as (E & ?). congruence.
  - by eapply install_foreign.
Qed.

(** C16: the index mirrors the ledger.  Along every history of confirmed commits of a scope
    run (with durable evidence bound or not, and with other scopes writing in between), the
    index is in order, holds the graph input of the run, and holds a publication at a
    coordinate of the run exactly when the ledger of the confirmed state settles that
    activation. *)
Theorem index_mirrors_ledger frames state : committed frames state →
  index_ok frames ∧ has_graph_input frames input_coordinate = true
  ∧ ∀ c, sa_scope_run (pac_activation c) = scope_run →
      has_publication frames c = true ↔ ∃ x, x ∈ settled state ∧ coordinate_of x = Ok c.
Proof. intros [Hi _ Hin Hl]%committed_installed. done. Qed.

(** C17: installing a confirmed settlement never fails.  For every node result that
    settlement projects in a state of such a history, once the commit port confirmed the
    transition, the writes are installed without a duplicate; the successor is again a state
    of such a history, and a successful node's output frame is then found at its coordinate,
    with the confirmed revision and the lease it was produced under. *)
Theorem confirmed_settlement_installs frames s r c successor session t t' commit state :
  committed frames s → settle_result graph s (settlement_view r) = Ok c →
  prepare_transition scope_run (Some s) (CmdSettle c) (Some r) graph successor None session = Ok t →
  offered t t' → confirm_transition t' commit = Ok state →
  ∃ frames', apply_commit_writes frames (gt_writes t') = Ok frames' ∧ committed frames' state
    ∧ publication_installed frames' r c state.
Proof.
  intros Hc Hset Hprep Hof Hconf.
  destruct (settle_installs _ _ _ _ _ _ _ _ _ _ (committed_installed _ _ Hc) Hset Hprep Hof Hconf) as (frames' & E & _ & Hp).
  exists frames'. split_and!; [done| |done]. by eapply committed_settle.
Qed.
End installed.

(* ------------------------------------------------------------------ *)
(** ** A history: start, claim and the first settlement *)

#[local] Existing Instances demo_types demo_configs.

Definition rivals_scope : ScopeRunCoordinate := mkScopeRun [] (lit "run").
Notation rivals_transition previous command result_ input :=
  (prepare_transition (A := Z) (C := unit) (S := unit) rivals_scope previous command result_ rivals None input None).
Definition accepting (t : GraphTransition Z unit unit) : result GraphRunState := Ok (gt_candidate_state t).
Definition blank_transition : GraphTransition Z unit unit :=
  mkTransition [] None (CmdClaim (mkClaim 0 [] None)) rivals_start (mkWriteSet (mkCommitKey [] 0) [] None) None.
Definition transition_of (r : result (GraphTransition Z unit unit)) : GraphTransition Z unit unit :=
  match r with Ok t => t | Raise _ => blank_transition end.
Definition index_of (r : result (ScopedFrameIndex Z unit unit)) : ScopedFrameIndex Z unit unit :=
  match r with Ok frames => frames | Raise _ => empty_index end.

Definition rivals_input : Frame Z unit := mkFrame [] None.
Definition rivals_start_command : StartGraphRun :=
  match project_start_graph_command rivals (lit "run") None None with
  | Ok c => c | Raise _ => mkStart [] [] 0 [] None None None None end.
Definition start_transition := transition_of (rivals_transition None (CmdStart rivals_start_command) None (Some rivals_input)).
Definition claim_transition := transition_of (rivals_transition (Some rivals_start) (CmdClaim (pc_command rivals_claim)) None None).
Definition a_success : NodeResult Z unit unit :=
  NodeSuccess (node_task rivals_claimed (lit "a")) (mkFrame [] None) None None.
Definition a_settle : SettleGraphNode :=
  match settle_result rivals rivals_claimed (settlement_view a_success) with
  | Ok c => c | Raise _ => mkSettle 0 (mkToken 0 []) (FailedGraphNodeOutcome [] []) None None end.
Definition a_transition := transition_of (rivals_transition (Some rivals_claimed) (CmdSettle a_settle) (Some a_success) None).
Definition a_confirmed : GraphRunState := state_of (reduce_graph_run (Some rivals_claimed) (CmdSettle a_settle)).
Definition started_index : ScopedFrameIndex Z unit unit := index_of (apply_commit_writes empty_index (gt_writes start_transition)).

Lemma rivals_absent : absent (A := Z) (C := unit) (S := unit) rivals rivals_scope empty_index.
Proof. split; [apply empty_index_ok|done|done]. Qed.

Lemma rivals_committed : committed rivals rivals_scope started_index rivals_claimed.
Proof.
  eapply (committed_command _ _ started_index rivals_start (CmdClaim (pc_command rivals_claim)) None None claim_transition
    claim_transition accepting); [|computed|by left|computed|computed].
  eapply (committed_start _ _ empty_index rivals_start_command rivals_input None start_transition start_transition accepting);
    [apply rivals_absent|computed|computed|by left|computed|computed].
Qed.

Lemma confirmed_settlement_installs_witness :
  ∃ frames', apply_commit_writes started_index (gt_writes a_transition) = Ok frames'
    ∧ publication_installed rivals rivals_scope frames' a_success a_settle a_confirmed.
Proof.
  destruct (confirmed_settlement_installs rivals rivals_scope started_index rivals_claimed a_success a_settle None None
    a_transition a_transition accepting a_confirmed rivals_committed ltac:(computed) ltac:(computed) (or_introl eq_refl) ltac:(computed))
    as (frames' & E & _ & Hp). exists frames'. split; [exact E|exact Hp].
Defined.

Lemma index_mirrors_ledger_witness :
  has_graph_input started_index (graph_input_availability_coordinate rivals rivals_scope) = true.
Proof.
  exact (proj1 (proj2 (index_mirrors_ledger rivals rivals_scope started_index rivals_claimed rivals_committed))).
Defined.
