(* ===== verification/ResumeProofs.v ===== *)
(** * Resuming is a round trip

    What [prepare_resume] admits is accepted by the reducer, and materializing the resumed
    nodes later, from the payload in the graph state, gives the frames it admitted. *)

From Stdlib Require Import ZArith NArith Lia Bool String.
From stdpp Require Import prelude strings gmap sorting.
From S2P Require Import Prelude Identity Resources Model Transitions WellFormed Reducer ReducerProofs OperationProofs Topology GraphDefinition Compiler Routing DemoGraph RoutingProofs Engine EngineProofs Values RunContext Materialization Superstep SessionTheorems ResumeAdmission.

Set Default Goal Selector "!".
Open Scope Z_scope.

Lemma Forall2_impl_elem {A B} (P Q : A → B → Prop) xs ys :
  Forall2 P xs ys → (∀ x y, y ∈ ys → P x y → Q x y) → Forall2 Q xs ys.
Proof.
  induction 1 as [|x y xs ys HP _ IH]; intros HPQ; constructor; [by apply HPQ; [left|]|]. apply IH. intros ???. apply HPQ. by right.
Qed.

Section resume.
Context {A V W C S : Type} `{ValueTypes A V W} `{Configs C} `{EqDecision S}.
Context (codec : CodecFunctions (A := A) (C := C) (S := S)).
Implicit Types (graph : CompiledGraph V) (request : ResumeRequest A C S).

(** ** Configs *)

Definition config_valid (config : option C) : Prop := on_some config (λ c, config_ok c = true).

Lemma select_valid candidates message selected : select_activation_config candidates message = Ok selected →
  config_valid selected ∧ Forall config_valid candidates.
Proof.
  intros E. refine (py_for_state_prefix (λ dn (selected : option C), config_valid selected ∧ Forall config_valid dn) _ _ candidates None selected _ E);
    [|by split; [|constructor]].
  intros dn candidate st st' [Hst Hdn] Hb. rewrite Forall_app, Forall_singleton. destruct candidate as [config|]; [|by injection Hb as <-].
  apply seq_Ok_iff in Hb as [Hok%raise_if_Ok%negb_false_iff Hb]. assert (config_valid (Some config)) as Hv by by apply on_some_Some.
  destruct st as [chosen|]; [apply seq_Ok_iff in Hb as [_ [= <-]]|injection Hb as <-]; done.
Qed.

Lemma select_one config message : config_valid config → select_activation_config [config] message = Ok config.
Proof. destruct config as [c|]; [|done]. intros Hv%on_some_Some. unfold select_activation_config. cbn. by rewrite Hv. Qed.

Lemma materialization_config_one historical (session : option (AgentSession C S)) :
  config_valid historical → config_valid (match session with Some s => se_config s | None => historical end) →
  materialization_config [historical] session = Ok (match session with Some s => se_config s | None => historical end).
Proof.
  intros Hh Hs. unfold materialization_config. destruct session as [session|]; [|by apply select_one].
  cbn [py_for]. destruct historical as [c|]; [|by apply select_one]. rewrite (select_one (Some c)) by done. by apply select_one.
Qed.

Lemma decode_valid graph node_id payload config session frame :
  decode_resume_input codec graph node_id payload config session = Ok frame → config_valid config.
Proof.
  unfold decode_resume_input. destruct (resume_input graph); [|done]. intros E. apply bind_Ok in E as (candidate & _ & E).
  apply bind_Ok in E as (plan & _ & E). apply bind_Ok in E as (inherited & E' & _). apply select_valid in E' as [_ Hall].
  by apply Forall_cons in Hall as [? _].
Qed.

Lemma config_for_cause_same graph scope_run node node' (frames : ScopedFrameIndex A C S) : fn_cause node' = fn_cause node →
  activation_config_for_cause graph scope_run node' frames = activation_config_for_cause graph scope_run node frames.
Proof. intros E. unfold activation_config_for_cause, cause_coordinates. by rewrite E. Qed.

(** ** One action *)

(** What preparing one action establishes. *)
Record action_prepared graph request (requested : ResumeInterruptedNodeRequest A C S) (action : ResumeInterruptedNode)
    (record : AdmittedResumeInput A C S) : Prop := {
  ap_node : res_node_id action = rn_node_id requested;
  ap_current : ∃ current, frontier_node (st_frontier (rr_state request)) (rn_node_id requested) = Some current
    ∧ answers action current
    ∧ ∀ state node, st_run_id state = st_run_id (rr_state request) → st_superstep state = st_superstep (rr_state request) →
        require_resume_input_binding graph state = Ok tt → st_run_id state = graph_run_id (rr_scope_run request) →
        frontier_node (st_frontier state) (rn_node_id requested) = Some node → fn_cause node = fn_cause current →
        fn_settlement node = PendingGraphNode (OverrideGraphNodeInput (res_input action)) →
        materialize_node_input codec graph state (rr_scope_run request) (rr_frames request) (rn_node_id requested) (rr_session request)
          = Ok (ari_frame record)
}.

Lemma prepare_action_spec graph request requested action record :
  prepare_resume_action codec graph request requested = Ok (action, record) →
  action_prepared graph request requested action record.
Proof.
  unfold prepare_resume_action. destruct (frontier_node _ _) as [current|] eqn:Ef; [|done]. intros E.
  apply bind_Ok in E as (identity & Hid & E). apply bind_Ok in E as (activation & Hact & E). apply bind_Ok in E as (plan & Hplan & E).
  destruct (fn_settlement current) as [| | |interrupt] eqn:Es; [done..|].
  apply seq_Ok_iff in E as [Hint%raise_if_Ok%negb_false_iff%bool_decide_eq_true E].
  apply seq_Ok_iff in E as [Hpred%raise_if_Ok E]. apply bind_Ok in E as (historical & Hh & E).
  apply bind_Ok in E as ([payload frame] & Hadm & [= <- <-]). unfold admit_override_resume_input in Hadm.
  apply bind_Ok in Hadm as (payload' & _ & Hadm). apply bind_Ok in Hadm as (frame' & Hdec & [= -> ->]).
  split; [done|]. exists current. split_and!; [done|by exists interrupt|].
  intros state node Hrun Hstep Hbind Hscope Hnode Hcause Hset. unfold materialize_node_input. rewrite Hbind, Hscope, bool_decide_true by done.
  cbn [negb raise_if mbind result_bind]. rewrite Hnode. destruct node as [n set cause]. cbn in Hset, Hcause. subst set cause.
  rewrite <- Hscope, Hrun, Hstep, Hid. cbn [mbind result_bind]. rewrite Hact. cbn [mbind result_bind]. rewrite Hplan. cbn [mbind result_bind].
  rewrite Hpred. cbn [raise_if mbind result_bind]. rewrite (config_for_cause_same _ _ current) by done. rewrite Hh. cbn [mbind result_bind].
  pose proof (decode_valid _ _ _ _ _ _ Hdec) as Hv.
  assert (config_valid historical) as Hhv.
  { unfold activation_config_for_cause in Hh. apply bind_Ok in Hh as (? & _ & Hh). apply bind_Ok in Hh as (? & _ & Hh%select_valid). by destruct Hh. }
  rewrite materialization_config_one by done. exact Hdec.
Qed.

(* ---------------------------------------------------------------- *)
(** ** The whole request *)

Lemma resumed_frontier_node s actions a node : wf s → NoDup (res_node_id <$> actions) → a ∈ actions →
  frontier_node (st_frontier s) (res_node_id a) = Some node →
  frontier_node (st_frontier (resumed s actions)) (res_node_id a)
    = Some (mkFrontierNode (fn_node_id node) (PendingGraphNode (OverrideGraphNodeInput (res_input a))) (fn_cause node)).
Proof.
  intros Hwf Hnd Ha [Hin Hid]%frontier_node_Some.
  assert (resumed_node actions node = mkFrontierNode (fn_node_id node) (PendingGraphNode (OverrideGraphNodeInput (res_input a))) (fn_cause node)) as <-.
  { unfold resumed_node. rewrite Hid. by rewrite (find_action_lookup _ a). }
  rewrite <- Hid, <- (resumed_node_id actions node). apply frontier_node_lookup; [|by apply list_elem_of_fmap_2].
  cbn. apply strictly_sorted_fmap. rewrite <- list_fmap_compose.
  erewrite list_fmap_ext; [by apply strictly_sorted_fmap, wf_frontier|]. intros i n _. cbn. apply resumed_node_id.
Qed.

(** C18: resuming is a round trip through the graph state.  Whatever resume request is
    prepared, the reducer accepts its command; and materializing each resumed node in the
    resumed state, by decoding the payload that the state now holds, gives exactly the input
    frame that preparation admitted for it, with the same Config and Session. *)
Theorem resume_round_trip graph request prepared :
  prepare_resume codec graph request = Ok prepared →
  ∃ state, reduce_graph_run (Some (rr_state request)) (CmdResume (pr_command prepared)) = Ok state
    ∧ Forall2 (λ requested record,
        materialize_node_input codec graph state (rr_scope_run request) (rr_frames request) (rn_node_id requested) (rr_session request)
          = Ok (ari_frame record)) (rr_actions request) (pr_inputs prepared).
Proof.
  unfold prepare_resume. intros E. apply seq_Ok_iff in E as [Hg E]. apply seq_Ok_iff in E as [Hquiet E].
  apply seq_Ok_iff in E as [Hbind E]. apply seq_Ok_iff in E as [Hids E]. apply bind_Ok in E as (outs & Houts & [= <-]). cbn [pr_command pr_inputs].
  set (s := rr_state request) in *. apply raise_if_Ok in Hquiet, Hids. rewrite !orb_false_iff in Hquiet, Hids.
  destruct Hquiet as [[Hst%negb_false_iff%bool_decide_eq_true He%bool_decide_eq_false] _].
  destruct Hids as [[Hne%is_nil_false Hsorted%negb_false_iff%bool_decide_eq_true] _].
  apply seq_Ok_iff in Hg as [Hguard Hg]. apply seq_Ok_iff in Hg as [Hscope%raise_if_Ok%negb_false_iff%bool_decide_eq_true _].
  pose proof (guard_guarded _ _ Hguard) as [Hwf _].
  apply mapM_Forall2 in Houts.
  assert (Forall2 (λ requested out, action_prepared graph request requested out.1 out.2) (rr_actions request) outs) as Hall.
  { eapply Forall2_impl; [exact Houts|]. intros requested [action record] Ha. by apply prepare_action_spec. }
  assert (res_node_id <$> outs.*1 = rn_node_id <$> rr_actions request) as Hnodes.
  { clear -Hall. induction Hall as [|r o rs os [Hn _] _ IH]; cbn; [done|]. by rewrite Hn, IH. }
  assert (strictly_sorted res_node_id outs.*1) as Hss.
  { apply strictly_sorted_fmap. rewrite Hnodes. by apply sorted_set_canonical. }
  pose proof (strictly_sorted_NoDup_key _ _ Hss) as Hnd.
  assert (all_answered s outs.*1) as Hans.
  { intros a (out & -> & Hin)%list_elem_of_fmap. destruct (DefinitionProofs.Forall2_elem_r _ _ _ _ Hall Hin) as (requested & _ & [Hn (node & Hf & Ha & _)]).
    exists node. by rewrite Hn. }
  exists (resumed s outs.*1). split.
  - refine (resume_accepts s (mkResume (st_revision s) outs.*1) Hwf eq_refl Hst _ _ Hss Hans); [by destruct (st_execution s); [destruct He|]|].
    cbn [resume_actions]. intros Ho. rewrite Ho in Hnodes. by rewrite <- Hnodes in Hne.
  - apply Forall2_fmap_r. eapply Forall2_impl_elem; [exact Hall|]. intros requested [action record] Hin [Hn (node & Hf & _ & Hm)].
    assert (action ∈ outs.*1) as Ha by by apply (list_elem_of_fmap_2 fst) in Hin. cbn in *. rewrite <- Hn in Hf.
    eapply Hm; [done..|by rewrite <- Hn; apply resumed_frontier_node|done|done].
Qed.
End resume.

(* ------------------------------------------------------------------ *)
(** ** A node that asks and is answered *)

#[local] Existing Instances demo_types demo_configs.

Definition asking_definition : GraphDefinition unit :=
  mkDefinition 1 (lit "def") 1 [CallableNode (lit "a") [mkBinding (lit "x") (ValueSource (GraphInputRef (lit "x") tt))] [] [] []]
    [] [] [] [] (Some (mkFrameCodec (lit "codec") 1)).
Definition asking : CompiledGraph unit :=
  match compile Values.value_type asking_definition ∅ with Ok (graph, _) => graph | Raise _ => demo_graph end.
Definition one_byte : CodecFunctions (A := Z) (C := unit) (S := unit) :=
  mkCodecFunctions (λ values, match gv_entries values with [(_, 5)] => Some [Byte.x05] | _ => None end)
                   (λ payload, match payload with [Byte.x05] => Some (mkValues [(lit "x", 5)] None None) | _ => None end).
Definition asking_start : GraphRunState :=
  state_of (start ← project_start_graph_command asking (lit "run") None None; reduce_graph_run None (CmdStart start)).
Definition asked : GraphRunState :=
  state_of (claimed ← reduce_graph_run (Some asking_start) (CmdClaim (mkClaim 0 (lit "attempt") None));
            command ← settle_result asking claimed (TaskInterrupt (mkTask (task_identity (lit "run") 0 (lit "a")) (lit "run") 0 (lit "a")) []);
            reduce_graph_run (Some claimed) (CmdSettle command)).
Definition answer_request : ResumeRequest Z unit unit :=
  mkResumeRequest asked (mkScopeRun [] (lit "run")) empty_index
    [mkNodeRequest [] (lit "a") (graph_interrupt_id (lit "run") 0 (lit "a") 1) (mkValues [(lit "x", 5)] None None)]
    (Some (mkSession tt None)).
Definition answer_prepared : { prepared | prepare_resume one_byte asking answer_request = Ok prepared }.
Proof. eexists. vm_compute. reflexivity. Defined.

Lemma resume_round_trip_witness :
  ∃ state, reduce_graph_run (Some asked) (CmdResume (pr_command (proj1_sig answer_prepared))) = Ok state
    ∧ materialize_node_input one_byte asking state (mkScopeRun [] (lit "run")) empty_index (lit "a") (Some (mkSession tt None))
      = Ok (mkNodeInputFrame [(lit "x", 5)] None (Some (mkSession tt None))).
Proof.
  destruct (resume_round_trip one_byte asking answer_request (proj1_sig answer_prepared) (proj2_sig answer_prepared))
    as (state & Hred & Hall). exists state. split; [exact Hred|].
  apply (Forall2_lookup_lr _ _ _ 0%nat _ _ Hall eq_refl eq_refl).
Defined.
