(* ===== verification/TypeSafety.v ===== *)
(** * Type safety of execution

    A frame is typed by a declaration when its names are the declared ones in order and
    every value has exactly its declared class.  Frames that execution admits are typed;
    in a compiled graph, whatever typed frames hold is enough to make typed inputs and
    outputs: no node of a compiled graph ever meets a missing or ill-typed name. *)

From Stdlib Require Import ZArith NArith Lia Bool String.
From stdpp Require Import prelude strings gmap sorting.
From S2P Require Import Prelude Identity Resources Model Validation Transitions WellFormed Reducer Topology Bindings CompilerProofs TypedGraphs Routing Engine EngineProofs Values RunContext RunContextProofs Materialization ResumeAdmission ResumeProofs.

Set Default Goal Selector "!".
Open Scope Z_scope.

Section frames.
Context {A V W C S : Type} `{ValueTypes A V W} `{Configs C} `{EqDecision S}.
Notation Entries := (list (str * A)).
Notation Declarations := (list (OutputDeclaration V)).

(* ------------------------------------------------------------------ *)
(** ** Typed entries *)

(** A value of class [w], which is one that descriptors may carry. *)
Definition of_class (value : A) (w : W) : Prop := type_of value = w ∧ nominal w = true.

Definition typed : Entries → Declarations → Prop :=
  Forall2 (λ entry declaration, entry.1 = od_name declaration ∧ of_class entry.2 (value_type (od_descriptor declaration))).

Lemma admit_exact_Ok (value : A) (descriptor : V) out :
  admit_exact value descriptor = Ok out ↔ out = value ∧ of_class value (value_type descriptor).
Proof. unfold admit_exact, of_class, admission_fail_if. checks. naive_solver. Qed.

Lemma admit_entries_Ok (entries : Entries) (declarations : Declarations) out :
  admit_entries entries declarations = Ok out ↔ out = entries ∧ typed entries declarations.
Proof.
  unfold admit_entries. rewrite !seq_Ok_iff. unfold admission_fail_if. rewrite raise_if_Ok, negb_false_iff, bool_decide_eq_true.
  rewrite py_for_Ok. split.
  - intros (Hnames & Hall & [= <-]). split; [done|]. revert declarations Hnames Hall.
    induction entries as [|[name value] entries IH]; intros [|declaration declarations]; cbn; try done; [constructor|].
    intros [= Hn Hnames] Hall. constructor; [|apply IH; [done|]; intros x Hx; apply Hall; by right].
    cbn. split; [done|]. specialize (Hall _ (list_elem_of_here _ _)). cbn in Hall. by apply bind_Ok in Hall as (? & [_ ?]%admit_exact_Ok & _).
  - intros [-> Ht]. split_and!; [| |done].
    + induction Ht as [|e d es ds [Hn _] _ IH]; cbn; [done|]. by rewrite Hn, IH.
    + induction Ht as [|[name value] d es ds [Hn Hv] _ IH]; cbn; [by intros x ?%elem_of_nil|].
      intros x [->|Hx]%elem_of_cons; [|by apply IH]. cbn in *. by rewrite (proj2 (admit_exact_Ok value _ value)).
Qed.

Lemma typed_value (entries : Entries) (declarations : Declarations) name w :
  typed entries declarations → declares value_type declarations name w →
  ∃ value, frame_value entries name = Ok value ∧ of_class value w.
Proof.
  intros Ht (found & Hf & <-). unfold frame_value. induction Ht as [|[name' value] d es ds [Hn Hv] _ IH]; cbn in *; [done|].
  destruct (decide (name = name')) as [E|E].
  - rewrite bool_decide_true in Hf by congruence. injection Hf as <-. by exists value.
  - rewrite bool_decide_false in Hf by congruence. by apply IH.
Qed.

Lemma typed_boundary (entries : Entries) (declarations declarations' : Declarations) :
  same_boundary value_type declarations declarations' → typed entries declarations → typed entries declarations'.
Proof.
  intros Hs Ht. revert declarations' Hs. induction Ht as [|e d es ds [Hn Hv] _ IH]; intros ds' Hs; inversion Hs as [|? d' ? ds'' [Hn' Hv'] Hs']; subst; constructor.
  - by rewrite Hn, <- Hv'.
  - by apply IH.
Qed.

(* ------------------------------------------------------------------ *)
(** ** Configs *)

Notation Session := (AgentSession C S).

Definition session_valid (session : option Session) : Prop := config_valid (session_config session).

Lemma admit_config_valid (config : option C) message : config_valid config → admit_activation_config config message = Ok config.
Proof. destruct config as [c|]; [|done]. intros Hc%on_some_Some. cbn. by rewrite Hc. Qed.

Lemma admit_session_valid (session : option Session) message : session_valid session → admit_session session message = Ok session.
Proof.
  destruct session as [[carried [c|]]|]; [|done..]. intros Hc%on_some_Some. unfold admit_session, admit_session_carrier.
  cbn [se_config se_carried]. by rewrite Hc.
Qed.

(** A Config of the run: none, or the one snapshot [c] that all frames carry. *)
Definition of_run (c config : option C) : Prop := config = None ∨ config = c.

Lemma select_of_run c candidates message : config_valid c → Forall (of_run c) candidates →
  ∃ selected, select_activation_config candidates message = Ok selected ∧ of_run c selected.
Proof.
  intros Hc Hall. rewrite Forall_forall in Hall.
  refine (py_for_state_total (λ _ selected, of_run c selected) _ candidates _ None _); [|by left].
  intros dn candidate st Hin Hst. destruct (Hall _ Hin) as [->| ->]; [by exists st|]. destruct c as [c|]; [|by exists st].
  assert (config_ok c = true) as Hok by exact (proj1 (on_some_Some c (λ c, config_ok c = true)) Hc). cbn. rewrite Hok. cbn.
  destruct Hst as [->| ->]; [exists (Some c)|exists (Some c); rewrite bool_decide_true by done]; (split; [done|by right]).
Qed.

(** The Config an input frame gets: the Session's, or that of its sources. *)
Lemma materialization_config_total c candidates (session : option Session) :
  config_valid c → Forall (of_run c) candidates → session_valid session →
  ∃ config, materialization_config candidates session = Ok config ∧ config_valid config
    ∧ (session = None ∨ config = session_config session).
Proof.
  intros Hc Hall Hs. assert (∀ config, of_run c config → config_valid config) as Hv by (by intros config [->| ->]).
  unfold materialization_config. destruct session as [session|].
  - exists (se_config session). cbn in Hs. rewrite (proj2 (py_for_Ok _ _)).
    + cbn [mbind result_bind]. rewrite select_one by done. split_and!; [done..|by right].
    + intros candidate Hin. rewrite Forall_forall in Hall. destruct candidate as [config|]; [|done].
      rewrite select_one; [done|]. by apply Hv, Hall.
  - destruct (select_of_run c candidates "node inputs combine different activation Config snapshots" Hc Hall) as (config & E & Hr).
    exists config. split_and!; [done|by apply Hv|by left].
Qed.

Lemma make_node_input_frame_total (entries : Entries) (declarations : Declarations) config (session : option Session) :
  typed entries declarations → config_valid config → session_valid session → session = None ∨ config = session_config session →
  ∃ frame, make_node_input_frame entries declarations config session = Ok frame ∧ nf_entries frame = entries.
Proof.
  intros Ht Hc Hs Hcs. unfold make_node_input_frame, NodeInputFrame_new. rewrite (proj2 (admit_entries_Ok _ _ entries)) by done.
  cbn [mbind result_bind]. rewrite admit_config_valid, admit_session_valid by done. cbn [mbind result_bind].
  assert (∀ message, require_session_config config session message = Ok config) as Hreq.
  { intros message. unfold require_session_config, admission_fail_if. destruct Hcs as [->| ->].
    - cbn. rewrite andb_false_r. cbn. by destruct config.
    - rewrite (bool_decide_true (session_config session = session_config session)) by done. cbn [negb]. rewrite andb_false_r.
      by destruct (session_config session). }
  rewrite !Hreq. cbn [mbind result_bind]. rewrite admit_config_valid, admit_session_valid by done. cbn [mbind result_bind].
  rewrite Hreq. by eexists.
Qed.

Lemma make_node_input_frame_typed (entries : Entries) (declarations : Declarations) config (session : option Session) frame :
  make_node_input_frame entries declarations config session = Ok frame → typed (nf_entries frame) declarations.
Proof.
  unfold make_node_input_frame, NodeInputFrame_new. intros E. apply bind_Ok in E as (entries' & [-> Ht]%admit_entries_Ok & E).
  do 6 apply bind_Ok in E as (? & _ & E). by injection E as <-.
Qed.
End frames.

(* ------------------------------------------------------------------ *)
(** ** Node inputs *)

Section inputs.
Context {A V W C S : Type} `{ValueTypes A V W} `{Configs C} `{EqDecision S}.
Context (graph : CompiledGraph V) (scope_run : ScopeRunCoordinate).
Implicit Types (frames : ScopedFrameIndex A C S) (state : GraphRunState).
Notation Session := (AgentSession C S).
Notation inputs_of := (fd_declarations (graph_input_descriptor graph)).
Notation source_class := (source_typed (input_class value_type graph) (output_class value_type graph)).

(** The frames an index holds for the scope run are typed by the compiled graph. *)
Record index_typed frames : Prop := {
  it_input : ∀ record, lookup_graph_input frames (graph_input_availability_coordinate graph scope_run) = Ok record →
    typed (fr_entries (agi_frame record)) inputs_of;
  it_publication : ∀ activation coordinate record publication,
    publication_availability_coordinate graph scope_run activation = Ok coordinate →
    lookup_publication frames coordinate = Ok record →
    map_get (publications (transition graph)) (act_node_id activation) = Ok publication →
    typed (fr_entries (cp_frame record)) (fd_declarations publication);
  it_resume : ∀ activation plan record, sa_scope_run activation = scope_run →
    map_get (materializations (transition graph)) (sa_node_id activation) = Ok plan →
    lookup_resume_input frames (resume_input_coordinate activation plan) = Ok record →
    typed (nf_entries (ari_frame record)) (fd_declarations (mp_descriptor plan))
}.

(** The Configs that the input of a pending node combines: those of the frames of its cause,
    of its bindings, and of its resume input. *)
Definition found_configs frames (coordinate : FrameCoordinate) : list C :=
  match lookup_frame frames coordinate with Ok frame => option_list (fr_activation_config frame) | Raise _ => [] end.
Definition cause_configs frames (node : GraphFrontierNode) : list C :=
  match cause_coordinates graph scope_run node with Ok coordinates => coordinates ≫= found_configs frames | Raise _ => [] end.
Definition binding_configs frames state (cause : GraphActivationCause) (binding : ResolvedInputBinding V) : list C :=
  match binding_source_coordinate graph (Some state) scope_run (st_superstep state) binding (Some cause) with
  | Ok (_, coordinate) => found_configs frames coordinate | Raise _ => [] end.
Definition resume_configs frames (activation : StableActivation) (plan : MaterializationPlan V) : list C :=
  match lookup_resume_input frames (resume_input_coordinate activation plan) with
  | Ok record => option_list (nf_activation_config (ari_frame record)) | Raise _ => [] end.
Definition input_configs frames state (node : GraphFrontierNode) (plan : MaterializationPlan V) : list C :=
  cause_configs frames node ++ (mp_bindings plan ≫= binding_configs frames state (fn_cause node))
  ++ resume_configs frames (mkStable scope_run (st_superstep state) (fn_node_id node)) plan.

(** The Configs that a projection of graph outputs combines; with a Session it combines none. *)
Definition output_configs frames superstep (session : option Session) : list C :=
  match session with
  | Some _ => []
  | None => (graph_outputs (transition graph) ≫= λ binding,
        match source_availability_coordinate graph scope_run (gob_source binding) (gob_publication binding) superstep
            (Exn GraphValueAdmissionError "compiled graph output binding lacks its activation selection") with
        | Ok coordinate => found_configs frames coordinate | Raise _ => [] end)
      ++ (terminal_frames scope_run superstep frames ≫= λ frame, option_list (fr_activation_config frame))
  end.

(** Combined Configs are in trouble when two of them differ, when [require_config] refuses
    one, or when the Config of the owner's Session is refused. *)
Definition config_trouble (configs : list C) (session : option Session) : Prop :=
  (∃ x y, x ∈ configs ∧ y ∈ configs ∧ x ≠ y) ∨ (∃ x, x ∈ configs ∧ config_ok x = false) ∨ ¬ session_valid session.

(** Otherwise they are one valid Config, or none. *)
Definition agreed (configs : list C) (c : option C) : Prop := config_valid c ∧ ∀ x, x ∈ configs → c = Some x.

Lemma config_valid_Some (x : C) : config_valid (Some x) ↔ config_ok x = true.
Proof using Type. apply (on_some_Some x (λ c, config_ok c = true)). Qed.

Lemma config_trouble_or_agreed configs session : config_trouble configs session ∨ (session_valid session ∧ ∃ c, agreed configs c).
Proof using Type.
  assert (session_valid session ∨ ¬ session_valid session) as [Hs|Hs]; [|
    |left; by right; right].
  { unfold session_valid. destruct (session_config session) as [x|]; [|by left].
    destruct (config_ok x) eqn:E; [left; by apply config_valid_Some|right]. intros Hv%config_valid_Some. congruence. }
  induction configs as [|x configs IH]; [right; split; [done|]; exists None; split; [done|by intros ? ?%elem_of_nil]|].
  destruct IH as [[(a & b & Ha & Hb & Hne)|[(a & Ha & Hv)|?]]|[_ (c & Hv & Hc)]]; [left; left; exists a, b; set_solver|left; right; left; exists a; set_solver|done|].
  destruct (config_ok x) eqn:Ex; [|left; right; left; exists x; set_solver].
  destruct c as [y|]; [destruct (decide (x = y)) as [->|Hne]|].
  - right. split; [done|]. exists (Some y). split; [done|]. intros z [->|Hz]%elem_of_cons; [done|by apply Hc].
  - destruct configs as [|z configs].
    + right. split; [done|]. exists (Some x). split; [by apply config_valid_Some|]. by intros w ->%list_elem_of_singleton.
    + left. left. exists x, z. pose proof (Hc z (list_elem_of_here _ _)) as [= ->]. set_solver.
  - right. split; [done|]. exists (Some x). split; [by apply config_valid_Some|]. intros z [->|Hz]%elem_of_cons; [done|]. by apply Hc in Hz.
Qed.

Lemma agreed_app xs ys c : agreed (xs ++ ys) c → agreed xs c ∧ agreed ys c.
Proof using Type. intros [Hv Hc]. split; (split; [done|]); intros x Hx; apply Hc; set_solver. Qed.
Lemma agreed_bind {X} (f : X → list C) xs x c : x ∈ xs → agreed (xs ≫= f) c → agreed (f x) c.
Proof using Type. intros Hx [Hv Hc]. split; [done|]. intros y Hy. apply Hc. apply list_elem_of_bind. by exists x. Qed.
Lemma agreed_option (config c : option C) : agreed (option_list config) c → of_run c config.
Proof using Type. intros [_ Hc]. destruct config as [x|]; [right|by left]. symmetry. apply Hc. by left. Qed.
Lemma agreed_frame frames coordinate frame c : lookup_frame frames coordinate = Ok frame → agreed (found_configs frames coordinate) c →
  of_run c (fr_activation_config frame).
Proof using Type. unfold found_configs. intros ->. apply agreed_option. Qed.

(** The coordinate of a source: the graph input, or a publication of its node. *)
Definition located (source : ResolvedValueSource) (coordinate : FrameCoordinate) : Prop :=
  match source with
  | FromGraphInput _ => coordinate = InputCoordinate (graph_input_availability_coordinate graph scope_run)
  | FromNodeOutput port => ∃ activation found, coordinate = PublicationCoordinate found
      ∧ act_node_id activation = no_node_id port ∧ publication_availability_coordinate graph scope_run activation = Ok found
  end.

Lemma source_coordinate_located source publication superstep error coordinate :
  source_availability_coordinate graph scope_run source publication superstep error = Ok coordinate → located source coordinate.
Proof using Type.
  destruct source as [port|port]; cbn [source_availability_coordinate located]; [by intros [= <-]|].
  intros E. apply bind_Ok in E as (selection & _ & E). apply bind_Ok in E as (selected & _ & E).
  apply bind_Ok in E as (activation & Ha & E). apply bind_Ok in E as (found & Hf & [= <-]). exists activation, found. split_and!; [done| |done].
  unfold GraphActivationIdentity_new in Ha. do 3 apply seq_Ok_iff in Ha as [_ Ha]. by injection Ha as <-.
Qed.

(** Whatever source a typed binding resolves to has the class the binding declares. *)
Lemma binding_source_located (state : option GraphRunState) superstep binding cause source coordinate :
  binding_typed value_type (input_class value_type graph) (output_class value_type graph) binding →
  binding_source_coordinate graph state scope_run superstep binding cause = Ok (source, coordinate) →
  source_class source (value_type (rib_descriptor binding)) ∧ located source coordinate.
Proof using Type.
  unfold binding_typed, binding_source_coordinate. destruct (rib_source binding) as [[port|port]|input] eqn:Es; cbn [input_typed].
  - intros Ht [= <- <-]. done.
  - intros Ht E. apply bind_Ok in E as (found & Hf%source_coordinate_located & [= <- <-]). done.
  - intros [Hsources Hstart] E. destruct state as [state|]; [|done]. destruct cause as [cause|]; [|done].
    apply bind_Ok in E as (selected & Hsel & E). unfold causal_input_source_for_cause in Hsel. rewrite Es in Hsel.
    apply seq_Ok_iff in Hsel as [_ Hsel]. apply seq_Ok_iff in Hsel as [_ Hsel]. destruct cause as [|references occurrence].
    + destruct (superstep =? 0); [|done]. destruct (pi_start_input input) as [start|] eqn:Est; [|done].
      apply seq_Ok_iff in Hsel as [_ [= <-]]. injection E as <- <-. split; [by apply Hstart|done].
    + apply seq_Ok_iff in Hsel as [_ Hsel]. destruct occurrence; [done|]. destruct references as [|reference [|]]; [done| |done].
      apply bind_Ok in Hsel as (expected & _ & Hsel). apply seq_Ok_iff in Hsel as [_ Hsel].
      destruct (List.filter _ _) as [|port [|]] eqn:Ef; [done| |done]. injection Hsel as <-.
      apply bind_Ok in E as (found & Hf & [= <- <-]).
      assert (port ∈ pi_sources input ∧ no_node_id port = act_node_id (ref_activation reference)) as [Hin Hn].
      { assert (port ∈ List.filter (λ port, bool_decide (no_node_id port = act_node_id (ref_activation reference))) (pi_sources input)) as Hin
          by (rewrite Ef; by left). apply List_filter_elem in Hin as [?%bool_decide_eq_true ?]. done. }
      split; [by apply Hsources|]. exists (ref_activation reference), found. done.
Qed.

Lemma available_lookup frames coordinate :
  frame_coordinate_available frames coordinate = true → ∃ frame, lookup_frame frames coordinate = Ok frame.
Proof using Type.
  destruct coordinate as [c|c]; cbn [frame_coordinate_available lookup_frame].
  - intros (r & Hr)%has_record_find. exists (agi_frame r). unfold lookup_graph_input. by rewrite Hr.
  - intros (r & Hr)%has_record_find. exists (cp_frame r). unfold lookup_publication. by rewrite Hr.
Qed.

(** A typed index holds, at the coordinate of a source, the value the source names. *)
Lemma located_value frames source coordinate frame w :
  index_typed frames → source_class source w → located source coordinate → lookup_frame frames coordinate = Ok frame →
  ∃ value, frame_value (fr_entries frame) (source_value_name source) = Ok value ∧ of_class value w.
Proof using Type.
  intros Hi Hs Hl Hf. destruct source as [port|port]; cbn in Hs, Hl.
  - subst coordinate. cbn in Hf. apply bind_Ok in Hf as (record & Hr & [= <-]). eapply typed_value; [by apply (it_input _ Hi)|done].
  - destruct Hl as (activation & found & -> & Hn & Hc). cbn in Hf. apply bind_Ok in Hf as (record & Hr & [= <-]).
    destruct Hs as (publication & Hp & Hd). eapply typed_value; [|exact Hd]. eapply (it_publication _ Hi); [done..|]. by rewrite Hn.
Qed.

(* ---------------------------------------------------------------- *)
(** ** The Config of a cause *)

Lemma first_error_None {X} (xs : list X) check : first_error xs check = Ok None → ∀ x, x ∈ xs → check x = Ok None.
Proof using Type.
  induction xs as [|y xs IH]; cbn; [by intros _ x ?%elem_of_nil|]. intros (e & He & E)%bind_Ok. destruct e; [done|].
  intros x [->|Hx]%elem_of_cons; [done|by apply IH].
Qed.

(** A running snapshot that passed the guard settles known nodes only. *)
Lemma guard_settled_known state reference :
  require_snapshot_matches_graph graph state = Ok tt → st_status state = RUNNING → reference ∈ settled_references state →
  map_has (cg_nodes graph) (act_node_id (ref_activation reference)) = true.
Proof using Type.
  unfold require_snapshot_matches_graph. intros Hg Hst Hin. do 3 apply seq_Ok_iff in Hg as [_ Hg].
  rewrite bool_decide_true in Hg by done. cbn [negb] in Hg. apply seq_Ok_iff in Hg as [_ Hg].
  apply bind_Ok in Hg as (declared & _ & Hg). apply seq_Ok_iff in Hg as [_ Hg]. apply bind_Ok in Hg as (error & Herr & Hg).
  destruct error as [e|]; [done|]. unfold frontier_admission_error in Herr. apply bind_Ok in Herr as (evaluation & Hev & [= Hnone]).
  unfold routing_evaluation in Hev. apply bind_Ok in Hev as (ledger & Hl & Hev).
  destruct ledger as [e|]; [cbn in Hev; injection Hev as <-; done|].
  apply list_elem_of_fmap in Hin as (publication & -> & Hin). pose proof (first_error_None _ _ Hl _ Hin) as He.
  unfold settled_reference_error in He. by destruct (map_has _ _).
Qed.

Lemma guard_resume_binding state :
  require_snapshot_matches_graph graph state = Ok tt → st_status state = RUNNING → require_resume_input_binding graph state = Ok tt.
Proof using Type.
  unfold require_snapshot_matches_graph. intros Hg Hst. do 3 apply seq_Ok_iff in Hg as [_ Hg].
  rewrite bool_decide_true in Hg by done. cbn [negb] in Hg. apply seq_Ok_iff in Hg as [_ Hg].
  apply bind_Ok in Hg as (declared & _ & Hg). apply seq_Ok_iff in Hg as [_ Hg]. apply bind_Ok in Hg as (error & _ & Hg).
  destruct error as [e|]; [done|]. cbn [mbind result_bind] in Hg. by apply seq_Ok_iff in Hg as [? _].
Qed.

(** What materialization needs of a state. *)
Record grounded state : Prop := {
  gr_wf : wf state;
  gr_run : st_run_id state = graph_run_id scope_run;
  gr_codec : require_resume_input_binding graph state = Ok tt;
  gr_known : ∀ reference, reference ∈ settled_references state →
    map_has (cg_nodes graph) (act_node_id (ref_activation reference)) = true
}.

Lemma guard_grounded state :
  require_scoped_snapshot_matches_graph graph state scope_run = Ok tt → st_status state = RUNNING → grounded state.
Proof using Type.
  unfold require_scoped_snapshot_matches_graph. intros [Hg [Hrun%raise_if_Ok%negb_false_iff%bool_decide_eq_true _]%seq_Ok_iff]%seq_Ok_iff Hst.
  split; [by apply guard_guarded in Hg as []|done|by apply guard_resume_binding|]. intros reference. by apply guard_settled_known.
Qed.

Context (Htyped : typed_graph value_type graph).

Lemma known_publication state reference :
  grounded state → predecessor_ok state reference → ∃ coordinate, publication_availability_coordinate graph scope_run (ref_activation reference) = Ok coordinate.
Proof using Htyped.
  intros [_ Hrun _ Hknown] [[[Hr Hs Hn] _] Hr' _ Hin]. pose proof (Hknown _ Hin) as Hk.
  destruct (tg_nodes _ _ Htyped _ Hk) as (plan & publication & _ & Hp).
  unfold publication_availability_coordinate, stable_activation, StableActivation_new. rewrite Hr', Hrun, bool_decide_true by done.
  cbn [negb raise_if mbind result_bind]. apply canonical_spec in Hn. rewrite Hn, (proj2 (Z.ltb_ge _ _) Hs). cbn [negb orb raise_if mbind result_bind].
  rewrite Hp. cbn. by eexists.
Qed.

Lemma cause_coordinates_total state node :
  grounded state → node ∈ frontier_nodes (st_frontier state) → ∃ coordinates, cause_coordinates graph scope_run node = Ok coordinates.
Proof using Htyped.
  intros Hg Hin. pose proof (no_cause _ _ (fo_nodes _ (wf_frontier _ (gr_wf _ Hg)) _ Hin)) as Hc. unfold cause_coordinates.
  destruct (fn_cause node) as [|references occurrence]; [by eexists|]. destruct Hc as (_ & _ & _ & Hp & _).
  assert (∃ cs, mapM (λ reference, coordinate ← publication_availability_coordinate graph scope_run (ref_activation reference);
    Ok (PublicationCoordinate coordinate)) references = Ok cs) as [cs ->]; [|by eexists].
  induction references as [|r references IH]; [by eexists|]. destruct (known_publication _ r Hg) as [c Hc]; [apply Hp; by left|].
  destruct IH as [cs Hcs]; [intros x Hx; apply Hp; by right|]. cbn. rewrite Hc. cbn. rewrite Hcs. by eexists.
Qed.

Lemma config_for_cause_total state node frames c :
  grounded state → node ∈ frontier_nodes (st_frontier state) → agreed (cause_configs frames node) c →
  ∃ config, activation_config_for_cause graph scope_run node frames = Ok config ∧ of_run c config.
Proof using Htyped.
  intros Hg Hin Hag. pose proof Hag as [Hv _]. destruct (cause_coordinates_total _ _ Hg Hin) as [cs Hcs].
  unfold cause_configs in Hag. rewrite Hcs in Hag.
  unfold activation_config_for_cause. rewrite Hcs. cbn [mbind result_bind].
  destruct (py_for_state_total (λ _ candidates, Forall (of_run c) candidates) (λ candidates coordinate,
    try_or (one_of [SnapshotMismatchError]) (lookup_frame frames coordinate) (λ _, Ok candidates)
      (λ frame, Ok (candidates ++ [fr_activation_config frame]))) cs) with (st := @nil (option C)) as (candidates & -> & Hall).
  - intros dn coordinate st Hco Hst'. destruct (lookup_frame frames coordinate) as [frame|e] eqn:El; cbn.
    + eexists. split; [done|]. apply Forall_app. split; [done|]. apply Forall_singleton. eapply agreed_frame; [exact El|]. by eapply agreed_bind.
    + assert (exn_kind e = SnapshotMismatchError) as ->; [|by exists st].
      destruct coordinate as [x|x]; cbn in El; unfold lookup_graph_input, lookup_publication, find_record in El; case_match; cbn in El; by simplify_eq.
  - constructor.
  - cbn [mbind result_bind]. by apply select_of_run.
Qed.

(* ---------------------------------------------------------------- *)
(** ** Materialization *)

(** The source of a binding is known and its frame is in the index. *)
Definition readable (state : option GraphRunState) superstep cause frames (binding : ResolvedInputBinding V) : Prop :=
  ∃ source coordinate frame, binding_source_coordinate graph state scope_run superstep binding (Some cause) = Ok (source, coordinate)
    ∧ lookup_frame frames coordinate = Ok frame.

(** What the bindings of a plan read. *)
Lemma read_bindings state cause frames c bindings :
  index_typed frames → agreed (bindings ≫= binding_configs frames state cause) c →
  bindings_typed value_type (input_class value_type graph) (output_class value_type graph) bindings →
  Forall (readable (Some state) (st_superstep state) cause frames) bindings →
  ∃ resolved read,
    mapM (λ binding, '(source, coordinate) ← binding_coordinate graph (Some state) scope_run (st_superstep state) binding (Some cause);
                     Ok (source, coordinate, binding)) bindings = Ok resolved
    ∧ mapM (read_binding frames) resolved = Ok read
    ∧ typed read.*1 (destination_declaration <$> bindings) ∧ Forall (of_run c) read.*2.
Proof using Type.
  intros Hi Hcfg Ht Hall. induction Hall as [|b bindings (source & coordinate & frame & Hb & Hf) _ IH].
  { exists [], []. split_and!; constructor. }
  apply Forall_cons in Ht as [Hbt Ht]. cbn in Hcfg. apply agreed_app in Hcfg as [Hcb Hcfg]. destruct (IH Hcfg Ht) as (resolved & read & Er & Ed & Htyped' & Hcfgs).
  pose proof Hb as [Hs Hl]%binding_source_located; [|done].
  destruct (located_value _ _ _ _ _ Hi Hs Hl Hf) as (value & Hv & Hc).
  exists ((source, coordinate, b) :: resolved), (((ni_local_name (rib_destination b), value), fr_activation_config frame) :: read). split_and!.
  - cbn. unfold binding_coordinate in *. rewrite Hb. cbn. by rewrite Er.
  - cbn. rewrite Hf. cbn. rewrite Hv. cbn. by rewrite Ed.
  - cbn. by constructor.
  - cbn. constructor; [|done]. unfold binding_configs in Hcb. rewrite Hb in Hcb. by eapply agreed_frame.
Qed.

(** Typed entries with Configs of the run make a typed frame. *)
Lemma assembled (entries : list (str * A)) declarations candidates c (session : option Session) :
  typed entries declarations → config_valid c → Forall (of_run c) candidates → session_valid session →
  ∃ frame, (config ← materialization_config candidates session; make_node_input_frame entries declarations config session) = Ok frame
    ∧ typed (nf_entries frame) declarations.
Proof using Type.
  intros Ht Hc Hall Hs. destruct (materialization_config_total _ _ _ Hc Hall Hs) as (config & -> & Hv & Hor). cbn [mbind result_bind].
  destruct (make_node_input_frame_total entries declarations config session Ht Hv Hs Hor) as (frame & Hf & He). exists frame.
  split; [done|]. by rewrite He.
Qed.

Lemma pending_activation state node : grounded state → node ∈ frontier_nodes (st_frontier state) →
  ∃ identity activation, GraphActivationIdentity_new (st_run_id state) (st_superstep state) (fn_node_id node) = Ok identity
    ∧ stable_activation scope_run identity = Ok activation ∧ activation = mkStable scope_run (st_superstep state) (fn_node_id node).
Proof using Type.
  intros [Hwf Hrun _ _] Hin. pose proof (no_id _ _ (fo_nodes _ (wf_frontier _ Hwf) _ Hin)) as Hn%canonical_spec.
  pose proof (wf_run_id _ Hwf) as Hr%canonical_spec. pose proof (wf_superstep _ Hwf) as Hs.
  exists (mkActivation (st_run_id state) (st_superstep state) (fn_node_id node)), (mkStable scope_run (st_superstep state) (fn_node_id node)).
  unfold GraphActivationIdentity_new, stable_activation, StableActivation_new. cbn [act_run_id act_superstep act_node_id].
  rewrite Hr, Hn, (proj2 (Z.ltb_ge _ _) Hs), Hrun, bool_decide_true by done. done.
Qed.

(** A pending node without an override gets a typed input as soon as its sources are there,
    unless the Configs it combines are in trouble. *)
Lemma pending_materializes codec state frames n plan cause (session : option Session) :
  let node := mkFrontierNode n (PendingGraphNode UseStepRequestInput) cause in
  grounded state → index_typed frames → frontier_node (st_frontier state) n = Some node →
  map_get (materializations (transition graph)) n = Ok plan →
  Forall (readable (Some state) (st_superstep state) cause frames) (mp_bindings plan) →
  config_trouble (input_configs frames state node plan) session
  ∨ ∃ frame, materialize_node_input codec graph state scope_run frames n session = Ok frame
    ∧ typed (nf_entries frame) (fd_declarations (mp_descriptor plan)).
Proof using Htyped.
  intros node Hg Hi Hn Hmat Hread. pose proof (frontier_node_Some _ _ _ Hn) as [Hin _].
  destruct (config_trouble_or_agreed (input_configs frames state node plan) session) as [?|[Hs (c & Hag)]]; [by left|right].
  apply agreed_app in Hag as [Hcause_ag [Hbind_ag Hres_ag]%agreed_app]. pose proof (proj1 Hcause_ag) as Hv.
  pose proof (gr_run _ Hg) as Hrun.
  destruct (config_for_cause_total _ _ _ _ Hg Hin Hcause_ag) as (inherited & Hcause & Hinh).
  unfold materialize_node_input, require_node_materialization. rewrite (gr_codec _ Hg). cbn [mbind result_bind].
  rewrite Hrun, bool_decide_true by done. cbn [negb raise_if mbind result_bind]. rewrite Hn. unfold node.
  destruct (pending_activation _ _ Hg Hin) as (identity & activation & Hid & Hact & ->). cbn [fn_node_id node] in *.
  rewrite <- Hrun, Hid. cbn [mbind result_bind]. rewrite Hact. cbn [mbind result_bind]. rewrite Hmat. cbn [mbind result_bind].
  destruct (if has_predecessor plan then None else _) as [cached|] eqn:Ecached.
  - destruct (has_predecessor plan); [done|]. unfold resume_configs in Hres_ag. destruct (lookup_resume_input _ _) as [record|] eqn:Er; [|done]. injection Ecached as <-.
    destruct (assembled (nf_entries (ari_frame record)) (fd_declarations (mp_descriptor plan))
      [inherited; nf_activation_config (ari_frame record)] c session) as (frame & Hf & Ht); [|done| |done|].
    + eapply (it_resume _ Hi); [| |exact Er]; done.
    + constructor; [done|]. apply Forall_singleton. by apply agreed_option.
    + exists frame. fold node. rewrite Hcause. by split.
  - destruct (tg_inputs _ _ Htyped n plan Hmat) as [Hdecl Hbt].
    destruct (read_bindings _ _ _ _ _ Hi Hbind_ag Hbt Hread) as (resolved & read & Er & Ed & Htyped' & Hcfgs). cbn [fn_cause node] in Er. rewrite Er. cbn [mbind result_bind]. rewrite Ed.
    cbn [mbind result_bind]. fold node. rewrite Hcause. rewrite <- Hdecl in Htyped'.
    destruct (assembled _ _ (inherited :: read.*2) c session Htyped') as (frame & Hf & Ht); [done|by constructor|done|].
    by exists frame.
Qed.

(* ---------------------------------------------------------------- *)
(** ** Graph outputs *)

Lemma make_graph_output_view_total (entries : list (str * A)) (declarations : list (OutputDeclaration V)) config :
  typed entries declarations → config_valid config →
  ∃ view : Frame A C, make_graph_output_view entries declarations config = Ok view ∧ fr_entries view = entries.
Proof using Type.
  intros Ht Hc. unfold make_graph_output_view, Frame_new. rewrite (proj2 (admit_entries_Ok _ _ entries)) by done.
  cbn [mbind result_bind]. rewrite admit_config_valid by done. cbn [mbind result_bind]. rewrite admit_config_valid by done. by eexists.
Qed.

Lemma merge_output_config_of_run c config candidate : of_run c config → of_run c candidate →
  ∃ merged, merge_output_config config candidate = Ok merged ∧ of_run c merged.
Proof using Type.
  intros Hc Hd. unfold merge_output_config. destruct candidate as [x|]; [|by exists config]. exists (Some x). split; [|done].
  destruct Hd as [?| <-]; [done|]. unfold admission_fail_if. destruct Hc as [->| ->]; [done|].
  rewrite (bool_decide_true (Some x = Some x)) by done. by rewrite andb_false_r.
Qed.

(** The source of a graph output is known and its frame is in the index. *)
Definition output_readable superstep frames (binding : GraphOutputBinding V) : Prop :=
  ∃ coordinate frame, (∀ error, source_availability_coordinate graph scope_run (gob_source binding) (gob_publication binding)
      superstep error = Ok coordinate) ∧ lookup_frame frames coordinate = Ok frame.

Definition boundary_declaration (binding : GraphOutputBinding V) : OutputDeclaration V :=
  mkOutputDeclaration (go_boundary_name (gob_destination binding)) (gob_descriptor binding).

Lemma project_output_total superstep frames c (owner_bound : bool) entries config bindings binding :
  index_typed frames → output_readable superstep frames binding →
  (owner_bound = false → ∀ coordinate frame, source_availability_coordinate graph scope_run (gob_source binding) (gob_publication binding) superstep
     (Exn GraphValueAdmissionError "compiled graph output binding lacks its activation selection") = Ok coordinate →
     lookup_frame frames coordinate = Ok frame → of_run c (fr_activation_config frame)) →
  source_class (gob_source binding) (value_type (gob_descriptor binding)) →
  typed entries (boundary_declaration <$> bindings) → (owner_bound = false → of_run c config) →
  ∃ entries' config', project_output graph scope_run superstep frames owner_bound (entries, config) binding = Ok (entries', config')
    ∧ typed entries' (boundary_declaration <$> bindings ++ [binding]) ∧ (owner_bound = false → of_run c config')
    ∧ (owner_bound = true → config' = config).
Proof using Type.
  intros Hi (coordinate & frame & Hco & Hf) Hcfg Hs Ht Hc. unfold project_output. rewrite Hco. cbn [mbind result_bind].
  pose proof (source_coordinate_located _ _ _ _ _ (Hco (Exn KeyError ""))) as Hl.
  destruct (located_value _ _ _ _ _ Hi Hs Hl Hf) as (value & Hv & Hw).
  assert (match gob_source binding with FromGraphInput _ => lookup_frame frames coordinate
    | FromNodeOutput _ => except (one_of [SnapshotMismatchError]) GraphValueAdmissionError "graph output source is unavailable"
        (lookup_frame frames coordinate) end = Ok frame) as -> by (rewrite Hf; by destruct (gob_source binding)).
  cbn [mbind result_bind]. rewrite Hv. cbn [mbind result_bind].
  assert (typed (entries ++ [(go_boundary_name (gob_destination binding), value)]) (boundary_declaration <$> bindings ++ [binding])) as Ht'.
  { rewrite fmap_app. apply Forall2_app; [done|]. by constructor. }
  destruct owner_bound; [by eexists _, _|].
  destruct (merge_output_config_of_run c config (fr_activation_config frame)) as (merged & -> & Hm); [by apply Hc|by eapply Hcfg|].
  cbn. eexists _, merged. done.
Qed.

Lemma outputs_project superstep frames (session : option Session) :
  index_typed frames → Forall (output_readable superstep frames) (graph_outputs (transition graph)) →
  config_trouble (output_configs frames superstep session) session
  ∨ ∃ view, project_graph_outputs graph scope_run superstep frames session = Ok view
    ∧ typed (fr_entries view) (fd_declarations (graph_output_descriptor graph)).
Proof using Htyped.
  intros Hi Hread. destruct (config_trouble_or_agreed (output_configs frames superstep session) session) as [?|[Hs (c & Hcfg)]]; [by left|right].
  destruct (tg_outputs _ _ Htyped) as [Hdecl Hclass]. rewrite Forall_forall in Hread, Hclass.
  unfold project_graph_outputs. set (owner_bound := bool_decide (is_Some session)).
  assert (∀ config, of_run c config → config_valid config) as Hvalid by (intros config [->| ->]; [done|apply Hcfg]).
  destruct (py_for_state_total (λ dn st, typed st.1 (boundary_declaration <$> dn) ∧ (owner_bound = false → of_run c st.2)
      ∧ (owner_bound = true → st.2 = session_config session))
    (project_output graph scope_run superstep frames owner_bound) (graph_outputs (transition graph)))
    with (st := (@nil (str * A), session_config session)) as ([entries config] & E & Ht & Hc & Hown).
  - intros dn binding [entries config] Hin (Ht & Hc & Hown). destruct (project_output_total superstep frames c owner_bound entries config dn binding)
      as (entries' & config' & E & Ht' & Hc' & Hsame); [done|by apply Hread| |by apply Hclass|done|done|].
    { intros Ho co frame Hco Hf. apply bool_decide_eq_false in Ho. destruct session as [|]; [by destruct Ho|]. cbn [output_configs] in Hcfg.
      apply agreed_app in Hcfg as [Hcfg%(agreed_bind _ _ binding) _]; [|done]. rewrite Hco in Hcfg. by eapply agreed_frame. }
    exists (entries', config'). split_and!; [done..|]. intros Ho. cbn in *. rewrite Hsame by done. by apply Hown.
  - split_and!; [constructor| |done]. intros Ho. apply bool_decide_eq_false in Ho. destruct session; [by destruct Ho|]. by left.
  - unfold session_config in E. rewrite E. cbn [mbind result_bind].
    assert (∃ config', (if negb owner_bound && bool_decide (config = None)
      then py_for_state (terminal_frames scope_run superstep frames) config (λ config frame, merge_output_config config (fr_activation_config frame))
      else Ok config) = Ok config' ∧ config_valid config') as (config' & -> & Hv).
    { cbn in Hc, Hown. destruct owner_bound eqn:Eo; cbn; [exists config; split; [done|by rewrite Hown]|].
      case_bool_decide; [|exists config; split; [done|by apply Hvalid, Hc]].
      destruct (py_for_state_total (λ _ config, of_run c config) (λ config frame, merge_output_config config (fr_activation_config frame))
        (terminal_frames scope_run superstep frames)) with (st := config) as (config' & -> & Hc').
      - intros dn frame st Hin Hst. apply merge_output_config_of_run; [done|]. apply bool_decide_eq_false in Eo. destruct session; [by destruct Eo|]. cbn [output_configs] in Hcfg.
        apply agreed_app in Hcfg as [_ Hcfg%(agreed_bind _ _ frame)]; [|done]. by apply agreed_option.
      - by apply Hc.
      - exists config'. split; [done|by apply Hvalid]. }
    cbn [mbind result_bind]. destruct (make_graph_output_view_total entries (fd_declarations (graph_output_descriptor graph)) config')
      as (view & -> & He); [by rewrite Hdecl|done|]. exists view. split; [done|]. by rewrite He, Hdecl.
Qed.

(* ---------------------------------------------------------------- *)
(** ** Routed nodes *)

Lemma required_target_readable target activation state superstep frames required :
  required_target graph target activation state scope_run superstep frames = Ok required → unavailable_inputs required = [] →
  fa_node_id activation = target ∧ rt_node_id required = target
  ∧ ∃ plan, map_get (materializations (transition graph)) target = Ok plan
    ∧ Forall (readable (Some state) superstep (fa_cause activation) frames) (mp_bindings plan).
Proof using Type.
  unfold required_target. intros [Ha%raise_if_Ok%negb_false_iff%bool_decide_eq_true E]%seq_Ok_iff.
  apply bind_Ok in E as (plan & Hplan & E). apply bind_Ok in E as (unavailable & Hu & [= <-]). cbn. intros ->.
  split_and!; [done..|]. exists plan. split; [done|]. revert Hu.
  refine (λ Hu, py_for_state_prefix (λ dn unavailable, unavailable = [] → Forall (readable (Some state) superstep (fa_cause activation) frames) dn)
    _ _ (mp_bindings plan) [] [] _ Hu eq_refl); [|by constructor].
  intros dn binding st st' Hst Hb ->. apply bind_Ok in Hb as ([source coordinate] & Hc & [= E]).
  destruct (frame_coordinate_available frames coordinate) eqn:Eav; [|by destruct st]. apply available_lookup in Eav as [frame Hf].
  apply Forall_app. split; [by apply Hst|]. apply Forall_singleton. by exists source, coordinate, frame.
Qed.

Lemma available_outputs superstep frames :
  unavailable_graph_outputs graph scope_run superstep frames = Ok [] →
  Forall (output_readable superstep frames) (graph_outputs (transition graph)).
Proof using Type.
  intros Hu. refine (py_for_state_prefix (λ dn unavailable, unavailable = [] → Forall (output_readable superstep frames) dn)
    _ _ (graph_outputs (transition graph)) [] [] _ Hu eq_refl); [|by constructor].
  intros dn binding st st' Hst Hb ->. apply bind_Ok in Hb as (coordinate & Hc & [= E]).
  destruct (frame_coordinate_available frames coordinate) eqn:Eav; [|by destruct st]. apply available_lookup in Eav as [frame Hf].
  apply Forall_app. split; [by apply Hst|]. apply Forall_singleton. exists coordinate, frame. split; [|done]. intros error.
  destruct (gob_source binding); [done|]. cbn in *. by destruct (gob_publication binding).
Qed.

(** A binding reads the same with every state of the run and its ledger. *)
Lemma readable_same state state' superstep cause frames binding :
  st_run_id state' = st_run_id state → st_settled_publications state' = st_settled_publications state →
  readable (Some state) superstep cause frames binding → readable (Some state') superstep cause frames binding.
Proof using Type.
  intros Hr Hl (source & coordinate & frame & Hb & Hf). exists source, coordinate, frame. split; [|done].
  unfold binding_source_coordinate, causal_input_source_for_cause, settled_reference in *. by rewrite Hr, Hl.
Qed.

(** A grounded state stays so when the frontier advances: run, codec and ledger are kept. *)
Lemma grounded_advance state c state' :
  grounded state → reduce_graph_run (Some state) (CmdAdvance c) = Ok state' →
  grounded state' ∧ st_settled_publications state' = st_settled_publications state ∧ st_run_id state' = st_run_id state
  ∧ st_superstep state' = st_superstep state + 1 ∧ st_frontier state' = pending_frontier (adv_activations c).
Proof using Type.
  intros [Hwf Hrun Hcodec Hknown] (_ & _ & u & Hu & -> & Hwf')%reduce_inv. apply advance_inv in Hu as (_ & _ & ->). cbn in Hwf'.
  split_and!; [|done..]. split; done.
Qed.

(** What a routing command says of the values it needs. *)
Lemma resolved_targets repr_tuple state frames c :
  resolve_routing repr_tuple graph state scope_run frames = Ok (CmdAdvance c) →
  ∀ activation, activation ∈ adv_activations c → ∃ plan, map_get (materializations (transition graph)) (fa_node_id activation) = Ok plan
    ∧ Forall (readable (Some state) (st_superstep state + 1) (fa_cause activation) frames) (mp_bindings plan).
Proof using Type.
  unfold resolve_routing, resolve_routing_facts. intros (facts & Hfacts & Hproj)%bind_Ok activation Hin.
  apply bind_Ok in Hfacts as (status & _ & Hfacts). apply seq_Ok_iff in Hfacts as [_ Hfacts]. apply bind_Ok in Hfacts as (evaluation & _ & Hfacts).
  destruct (admission_error evaluation); [done|]. apply bind_Ok in Hfacts as (control & _ & Hfacts).
  apply bind_Ok in Hfacts as (targets & Htargets & Hfacts). apply bind_Ok in Hfacts as (outputs & _ & Hfacts).
  apply bind_Ok in Hfacts as (route & _ & [= <-]). apply mapM_Forall2 in Htargets.
  unfold project_routing_facts in Hproj. cbn in Hproj. revert Hproj.
  destruct (is_nil (_ <$> _)) eqn:Eun; cbn [negb]; [|done]. destruct (is_nil targets); cbn [negb]; [repeat case_match; done|].
  intros [= <-]. cbn in Hin.
  destruct (DefinitionProofs.Forall2_elem_r _ _ _ _ (proj2 (Forall2_flip _ _ _) Htargets) Hin) as (target & Ht & Hreq).
  apply required_target_readable in Hreq as (_ & _ & plan & Hplan & Hread); [by exists plan|].
  apply is_nil_spec in Eun. destruct (unavailable_inputs target) as [|x rest] eqn:Eu; [done|].
  assert (rt_node_id target ∈ (rt_node_id <$> List.filter (λ target, negb (is_nil (unavailable_inputs target))) targets)) as Hbad.
  { apply list_elem_of_fmap. exists target. split; [done|]. apply List_filter_elem. by rewrite Eu. }
  rewrite Eun in Hbad. by apply elem_of_nil in Hbad.
Qed.

Lemma resolved_outputs repr_tuple state frames c :
  resolve_routing repr_tuple graph state scope_run frames = Ok (CmdComplete c) →
  Forall (output_readable (st_superstep state) frames) (graph_outputs (transition graph)).
Proof using Type.
  unfold resolve_routing, resolve_routing_facts. intros (facts & Hfacts & Hproj)%bind_Ok.
  apply bind_Ok in Hfacts as (status & _ & Hfacts). apply seq_Ok_iff in Hfacts as [_ Hfacts]. apply bind_Ok in Hfacts as (evaluation & _ & Hfacts).
  destruct (admission_error evaluation); [done|]. apply bind_Ok in Hfacts as (control & _ & Hfacts).
  apply bind_Ok in Hfacts as (targets & _ & Hfacts). apply bind_Ok in Hfacts as (outputs & Hout & Hfacts).
  apply bind_Ok in Hfacts as (route & _ & [= <-]). apply available_outputs.
  unfold project_routing_facts in Hproj. cbn in Hproj. repeat case_match; try done.
  destruct outputs; [done|]. by cbn in *.
Qed.

(** Every node of an advanced frontier gets a typed input, unless its Configs are in trouble. *)
Lemma advanced_materialize codec repr_tuple state frames c state' node (session : option Session) :
  grounded state → index_typed frames →
  resolve_routing repr_tuple graph state scope_run frames = Ok (CmdAdvance c) →
  reduce_graph_run (Some state) (CmdAdvance c) = Ok state' → node ∈ frontier_nodes (st_frontier state') →
  ∃ plan, map_get (materializations (transition graph)) (fn_node_id node) = Ok plan
    ∧ (config_trouble (input_configs frames state' node plan) session
       ∨ ∃ frame, materialize_node_input codec graph state' scope_run frames (fn_node_id node) session = Ok frame
           ∧ typed (nf_entries frame) (fd_declarations (mp_descriptor plan))).
Proof using Htyped.
  intros Hg Hi Hres Hred Hin. destruct (grounded_advance _ _ _ Hg Hred) as (Hg' & Hl & Hr & Hss & Hf).
  pose proof Hin as Hin'. rewrite Hf in Hin'. apply list_elem_of_fmap in Hin' as (activation & -> & Ha). cbn [fn_node_id] in *.
  destruct (resolved_targets _ _ _ _ Hres _ Ha) as (plan & Hplan & Hread). exists plan. split; [done|].
  apply (pending_materializes codec state' frames (fa_node_id activation) plan (fa_cause activation) session); try done.
  - exact (frontier_node_lookup _ _ (fo_sorted _ (wf_frontier _ (gr_wf _ Hg'))) Hin).
  - rewrite Hss. eapply Forall_impl; [exact Hread|]. intros b. by apply readable_same.
Qed.
End inputs.
