(* ===== verification/TypeTheorems.v ===== *)
(** * Executed histories are typed

    Every frame that execution admits is typed by what the compiled graph declares for it:
    graph inputs and child inputs, results of callable nodes and of completed children, and
    resume inputs.  So the index of every executed history is typed, and routing a compiled
    graph never starts a node whose input cannot be made, nor completes a graph whose
    outputs cannot be projected. *)

From Stdlib Require Import ZArith NArith Lia Bool String.
From stdpp Require Import prelude strings gmap sorting.
From S2P Require Import Prelude Identity Resources Model Validation Transitions WellFormed Reducer ReducerProofs Topology GraphDefinition Compiler CompilerProofs CompilerTheorems TypedGraphs Routing Engine DemoGraph EngineProofs Values RunContext RunContextProofs Materialization Superstep Session SessionState SessionTheorems Commit ResumeAdmission CommitProofs ResumeProofs TypeSafety.

Set Default Goal Selector "!".
Open Scope Z_scope.

Section admitted.
Context {A V W C S : Type} `{EqDecision V} `{ValueTypes A V W} `{Configs C} `{EqDecision S}.
Implicit Types (graph child : CompiledGraph V).
Notation Declarations := (list (OutputDeclaration V)).

(* ------------------------------------------------------------------ *)
(** ** What execution admits *)

Lemma Frame_new_fields (entries : list (str * A)) (config : option C) frame :
  Frame_new entries config = Ok frame → frame = mkFrame entries config.
Proof. unfold Frame_new. intros (? & _ & [= <-])%bind_Ok. done. Qed.

(** The input of a run: what the caller gives, or what the parent's node gets. *)
Inductive input_admitted graph (frame : Frame A C) : Prop :=
| admitted_values (values : GraphValues A C S) config session :
    admit_graph_input graph values config session = Ok frame → input_admitted graph frame
| admitted_child (input : NodeInputFrame A C S) :
    admit_child_graph_input graph input = Ok frame → input_admitted graph frame.

Lemma input_admitted_typed graph frame :
  input_admitted graph frame → typed (fr_entries frame) (fd_declarations (graph_input_descriptor graph)).
Proof.
  intros [values config session E|input E].
  - unfold admit_graph_input, make_graph_input_frame in E. apply bind_Ok in E as (values' & _ & E). apply bind_Ok in E as (es & _ & E).
    apply bind_Ok in E as (es' & [-> Ht]%admit_entries_Ok & E). do 3 apply bind_Ok in E as (? & _ & E). by apply Frame_new_fields in E as ->.
  - apply bind_Ok in E as (es & [-> Ht]%admit_entries_Ok & E). by apply Frame_new_fields in E as ->.
Qed.

(** The result of a node: the outcome of a call, or that of a child graph. *)
Inductive result_produced graph (r : NodeResult A C S) : Prop :=
| produced_call executable outcome : project_outcome graph executable outcome = Ok r → result_produced graph r
| produced_child task projection :
    project_child graph (mkChildren [] [] []) (task, projection) = Ok (mkChildren [r] [] []) → result_produced graph r.

Definition result_typed graph (r : NodeResult A C S) : Prop :=
  match r with
  | NodeSuccess task output _ _ => ∃ publication, map_get (publications (transition graph)) (task_node_id task) = Ok publication
      ∧ typed (fr_entries output) (fd_declarations publication)
  | _ => True
  end.

Lemma make_node_output_frame_typed (values : GraphValues A C S) (declarations : Declarations) config frame :
  make_node_output_frame values declarations config = Ok frame → typed (fr_entries frame) declarations.
Proof.
  unfold make_node_output_frame. intros E. apply bind_Ok in E as (es & _ & E). apply bind_Ok in E as (es' & [-> Ht]%admit_entries_Ok & E).
  apply bind_Ok in E as (? & _ & E). by apply Frame_new_fields in E as ->.
Qed.

Lemma result_produced_typed graph r : result_produced graph r → result_typed graph r.
Proof.
  intros [executable outcome E|task projection E].
  - destruct outcome as [output|output route session|failure|payload]; cbn in E; [..|by injection E as <-|by injection E as <-];
      apply bind_Ok in E as (config & _ & E); apply bind_Ok in E as (publication & Hp & E);
      apply bind_Ok in E as (frame & Hf%make_node_output_frame_typed & E); apply seq_Ok_iff in E as [_ [= <-]]; by exists publication.
  - destruct projection as [p|p|p output route|p failure|p reason]; cbn in E; try (by injection E as <-); try done.
    apply bind_Ok in E as (publication & Hp & E). apply bind_Ok in E as (frame & Hf & [= <-]). exists publication. split; [done|].
    apply bind_Ok in Hf as (es & [-> Ht]%admit_entries_Ok & Hf). by apply Frame_new_fields in Hf as ->.
Qed.

(** A resume input that preparation admitted, at the coordinate of its activation. *)
Lemma prepared_input_typed codec graph (request : ResumeRequest A C S) prepared record :
  prepare_resume codec graph request = Ok prepared → record ∈ pr_inputs prepared →
  ∃ activation plan, sa_scope_run activation = rr_scope_run request
    ∧ map_get (materializations (transition graph)) (sa_node_id activation) = Ok plan
    ∧ ari_coordinate record = resume_input_coordinate activation plan
    ∧ typed (nf_entries (ari_frame record)) (fd_declarations (mp_descriptor plan)).
Proof.
  unfold prepare_resume. intros E Hin. do 4 apply seq_Ok_iff in E as [_ E]. apply bind_Ok in E as (outs & Houts%mapM_Forall2 & [= <-]).
  apply list_elem_of_fmap in Hin as ([action record'] & -> & Hin). destruct (DefinitionProofs.Forall2_elem_r _ _ _ _ Houts Hin) as (requested & _ & Ha).
  unfold prepare_resume_action in Ha. destruct (frontier_node _ _) as [current|]; [|done].
  apply bind_Ok in Ha as (identity & Hid & Ha). apply bind_Ok in Ha as (activation & Hact & Ha). apply bind_Ok in Ha as (plan & Hplan & Ha).
  destruct (fn_settlement current); [done..|]. do 2 apply seq_Ok_iff in Ha as [_ Ha]. apply bind_Ok in Ha as (historical & _ & Ha).
  apply bind_Ok in Ha as ([payload frame] & Hadm & [= <- <-]). apply bind_Ok in Hadm as (payload' & _ & Hadm).
  apply bind_Ok in Hadm as (frame' & Hdec & [= <- <-]).
  unfold GraphActivationIdentity_new in Hid. do 3 apply seq_Ok_iff in Hid as [_ Hid]. injection Hid as <-.
  unfold stable_activation, StableActivation_new in Hact. do 2 apply seq_Ok_iff in Hact as [_ Hact]. injection Hact as <-.
  unfold require_node_materialization in Hplan. destruct (map_get (materializations (transition graph)) (rn_node_id requested)) as [plan'|] eqn:Hget; [|done].
  injection Hplan as ->.
  exists (mkStable (rr_scope_run request) (st_superstep (rr_state request)) (rn_node_id requested)), plan. split_and!; [done|exact Hget|done|]. unfold decode_resume_input, require_node_materialization in Hdec.
  destruct (resume_input graph); [|done]. apply bind_Ok in Hdec as (candidate & _ & Hdec). rewrite Hget in Hdec. cbn in Hdec.
  apply bind_Ok in Hdec as (inherited & _ & Hdec). by apply make_node_input_frame_typed in Hdec.
Qed.
Lemma admit_config_inv (config : option C) message out : admit_activation_config config message = Ok out → out = config ∧ config_valid config.
Proof.
  destruct config as [c|]; cbn; [|by intros [= <-]]. intros [Hc%raise_if_Ok%negb_false_iff [= <-]]%seq_Ok_iff. split; [done|].
  by apply on_some_Some.
Qed.

(** What materialization and projection return is typed, with a valid Config. *)
Lemma node_input_frame_valid entries (declarations : Declarations) config (session : option (AgentSession C S)) frame :
  make_node_input_frame (A := A) entries declarations config session = Ok frame →
  typed (nf_entries frame) declarations ∧ config_valid (nf_activation_config frame).
Proof.
  intros E. split; [by apply make_node_input_frame_typed in E|]. unfold make_node_input_frame, NodeInputFrame_new in E.
  do 4 apply bind_Ok in E as (? & _ & E). apply bind_Ok in E as (? & [_ Hv]%admit_config_inv & E).
  do 2 apply bind_Ok in E as (? & _ & E). by injection E as <-.
Qed.

Lemma materialized_typed codec graph state scope_run (frames : ScopedFrameIndex A C S) n session frame plan :
  map_get (materializations (transition graph)) n = Ok plan →
  materialize_node_input codec graph state scope_run frames n session = Ok frame →
  typed (nf_entries frame) (fd_declarations (mp_descriptor plan)) ∧ config_valid (nf_activation_config frame).
Proof.
  intros Hm E. unfold materialize_node_input, require_node_materialization in E. do 2 apply seq_Ok_iff in E as [_ E].
  destruct (frontier_node _ _) as [[m [effective| | |] cause]|]; [|done..]. do 2 apply bind_Ok in E as (? & _ & E).
  rewrite Hm in E. cbn [mbind result_bind] in E. destruct effective as [|payload].
  - destruct (if has_predecessor plan then None else _).
    + do 2 apply bind_Ok in E as (? & _ & E). by apply node_input_frame_valid in E.
    + do 4 apply bind_Ok in E as (? & _ & E). by apply node_input_frame_valid in E.
  - apply seq_Ok_iff in E as [_ E]. do 2 apply bind_Ok in E as (? & _ & E). unfold decode_resume_input, require_node_materialization in E.
    destruct (resume_input graph); [|done]. apply bind_Ok in E as (? & _ & E). rewrite Hm in E. cbn [mbind result_bind] in E.
    apply bind_Ok in E as (? & _ & E). by apply node_input_frame_valid in E.
Qed.

Lemma projected_typed graph scope_run superstep (frames : ScopedFrameIndex A C S) session view :
  project_graph_outputs graph scope_run superstep frames session = Ok view →
  typed (fr_entries view) (fd_declarations (graph_output_descriptor graph)) ∧ config_valid (fr_activation_config view).
Proof.
  unfold project_graph_outputs. intros E. apply bind_Ok in E as ([entries config] & _ & E). apply bind_Ok in E as (config' & _ & E).
  unfold make_graph_output_view in E. apply bind_Ok in E as (es & [-> Ht]%admit_entries_Ok & E).
  apply bind_Ok in E as (c & [-> Hv]%admit_config_inv & E). by apply Frame_new_fields in E as ->.
Qed.
End admitted.

(* ------------------------------------------------------------------ *)
(** ** Histories *)

Section histories.
Context {A V W C S : Type} `{EqDecision A} `{EqDecision V} `{ValueTypes A V W} `{Configs C} `{EqDecision S}.
Context (codec : CodecFunctions (A := A) (C := C) (S := S)) (graph : CompiledGraph V) (scope_run : ScopeRunCoordinate).
Implicit Types (frames : ScopedFrameIndex A C S) (state : GraphRunState) (t : GraphTransition A C S).
Notation coordinate_of := (publication_availability_coordinate graph scope_run).
Notation input_coordinate := (graph_input_availability_coordinate graph scope_run).

(** Nothing of the scope run is there yet, resume inputs included. *)
Record fresh frames : Prop := {
  fr_absent : absent graph scope_run frames;
  fr_resume : ∀ activation (plan : MaterializationPlan V), sa_scope_run activation = scope_run →
    has_resume_input frames (resume_input_coordinate activation plan) = false
}.

(** Writes that concern other scope runs only. *)
Definition elsewhere (addition : Addition (A := A) (C := C) (S := S)) : Prop :=
  foreign scope_run addition
  ∧ match addition with AddResume r => sa_scope_run (ric_activation (ari_coordinate r)) ≠ scope_run | _ => True end.

(** The indices and states of a scope run that only execution writes: commits of admitted
    inputs and produced results, prepared resume inputs, and writes of other scopes. *)
Inductive executed : ScopedFrameIndex A C S → GraphRunState → Prop :=
| executed_start frames c frame session t t' commit state frames' :
    fresh frames → input_admitted (S := S) graph frame → start_run_id c = graph_run_id scope_run →
    prepare_transition scope_run None (CmdStart c) None graph None (Some frame) session = Ok t →
    offered t t' → confirm_transition t' commit = Ok state →
    apply_commit_writes frames (gt_writes t') = Ok frames' → executed frames' state
| executed_settle frames s r c successor session t t' commit state frames' :
    executed frames s → result_produced graph r → settle_result graph s (settlement_view r) = Ok c →
    prepare_transition scope_run (Some s) (CmdSettle c) (Some r) graph successor None session = Ok t →
    offered t t' → confirm_transition t' commit = Ok state →
    apply_commit_writes frames (gt_writes t') = Ok frames' → executed frames' state
| executed_command frames s command successor session t t' commit state frames' :
    executed frames s →
    prepare_transition scope_run (Some s) command None graph successor None session = Ok t →
    offered t t' → confirm_transition t' commit = Ok state →
    apply_commit_writes frames (gt_writes t') = Ok frames' → executed frames' state
| executed_resume frames s request prepared record frames' :
    executed frames s → rr_scope_run request = scope_run → prepare_resume codec graph request = Ok prepared →
    record ∈ pr_inputs prepared → add_resume_input frames record = Ok frames' → executed frames' s
| executed_elsewhere frames s addition frames' :
    executed frames s → elsewhere addition → add frames addition = Ok frames' → executed frames' s.

Lemma executed_committed frames state : executed frames state → committed graph scope_run frames state.
Proof.
  induction 1 as [frames c frame session t t' commit state frames' [Hab _] _ Hr Hprep Hof Hconf Happ
    |frames s r c successor session t t' commit state frames' _ IH _ Hset Hprep Hof Hconf Happ
    |frames s command successor session t t' commit state frames' _ IH Hprep Hof Hconf Happ
    |frames s request prepared record frames' _ IH _ _ _ Ha|frames s addition frames' _ IH [Hf _] Ha].
  - by eapply committed_start.
  - by eapply committed_settle.
  - by eapply committed_command.
  - by eapply (committed_foreign _ _ _ _ (AddResume record)).
  - by eapply committed_foreign.
Qed.

(* ---------------------------------------------------------------- *)
(** ** Additions *)

(** What is added for the scope run is typed. *)
Definition addition_typed (addition : Addition (A := A) (C := C) (S := S)) : Prop :=
  match addition with
  | AddInput r => agi_coordinate r = input_coordinate → typed (fr_entries (agi_frame r)) (fd_declarations (graph_input_descriptor graph))
  | AddPublication r => ∀ activation publication, coordinate_of activation = Ok (cp_coordinate r) →
      map_get (publications (transition graph)) (act_node_id activation) = Ok publication →
      typed (fr_entries (cp_frame r)) (fd_declarations publication)
  | AddResume r => ∀ activation plan, sa_scope_run activation = scope_run →
      map_get (materializations (transition graph)) (sa_node_id activation) = Ok plan →
      ari_coordinate r = resume_input_coordinate activation plan → typed (nf_entries (ari_frame r)) (fd_declarations (mp_descriptor plan))
  | AddBoundary _ => True
  end.

Lemma addition_keeps_typed frames addition frames' : index_ok frames → index_typed graph scope_run frames →
  addition_typed addition → add frames addition = Ok frames' → index_typed graph scope_run frames'.
Proof.
  intros Hok [Hi Hp Hr] Ht Ha. destruct (known frames addition) eqn:Hk.
  { destruct (add_Raise _ _ Hok Hk) as [m E]. congruence. }
  destruct (add_Ok _ _ Hok Hk) as (frames'' & Ha' & _ & [Bi Bp Br _]). rewrite Ha' in Ha. injection Ha as ->. split.
  - intros record. rewrite Bi. destruct addition; [case_bool_decide; [intros [= <-]; by apply Ht|]|..]; apply Hi.
  - intros activation coordinate record publication Hc. rewrite Bp. destruct addition; try by eapply Hp.
    case_bool_decide; [|by eapply Hp]. intros [= <-]. subst coordinate. by apply Ht.
  - intros activation plan record Hs Hm. rewrite Br. destruct addition; try by eapply Hr.
    case_bool_decide; [|by eapply Hr]. intros [= <-]. by eapply Ht.
Qed.

Lemma elsewhere_typed addition : elsewhere addition → addition_typed addition.
Proof.
  intros [Hf Hr]. destruct addition as [r|r|r|r]; cbn in *; [..|done].
  - intros E. by rewrite E in Hf.
  - intros activation publication [E _]%coordinate_of_spec. by rewrite E in Hf.
  - intros activation plan Hs _ E. by rewrite E in Hr.
Qed.

(** A publication of the run is that of one node. *)
Lemma publication_typed activation coordinate frame revision provenance publication :
  coordinate_of activation = Ok coordinate → map_get (publications (transition graph)) (act_node_id activation) = Ok publication →
  typed (fr_entries frame) (fd_declarations publication) →
  addition_typed (AddPublication (mkConfirmedPublication coordinate frame revision provenance)).
Proof.
  intros Hc Hp Ht activation' publication' Hc' Hp'. cbn in *. rewrite (coordinate_of_inj _ _ _ _ _ Hc' Hc) in Hp'.
  rewrite Hp in Hp'. by injection Hp' as <-.
Qed.

(** What the writes of a transition add. *)
Lemma start_writes frames c frame t frames' :
  writes_of graph scope_run None (CmdStart c) None (Some frame) t → apply_commit_writes frames (gt_writes t) = Ok frames' →
  add frames (AddInput (mkAdmittedInput input_coordinate frame)) = Ok frames'.
Proof.
  intros [_ _ _ _ Hin (pub & _ & Hws)]. cbn in Hin. injection Hin as Hin. unfold apply_commit_writes, ws_publications.
  rewrite <- Hin, Hws. cbn [add py_for_state ie_coordinate ie_frame]. by destruct (add_graph_input _ _).
Qed.

Lemma settle_writes frames s r c t frames' :
  writes_of graph scope_run (Some s) (CmdSettle c) (Some r) None t → apply_commit_writes frames (gt_writes t) = Ok frames' →
  match r with
  | NodeSuccess task output _ _ => ∃ coordinate revision provenance,
      coordinate_of (mkActivation (task_run_id task) (task_superstep task) (task_node_id task)) = Ok coordinate
      ∧ add frames (AddPublication (mkConfirmedPublication coordinate output revision provenance)) = Ok frames'
  | _ => frames' = frames
  end.
Proof.
  intros [_ _ _ _ Hin (pub & Hpub & st & Hres & Hws)]. cbn in Hin. injection Hin as Hin. unfold apply_commit_writes, ws_publications.
  rewrite <- Hin, Hws. cbn [py_for_state mbind result_bind]. apply seq_Ok_iff in Hpub as [_ Hpub].
  destruct r as [task output route sess|task failure|task payload].
  2,3: injection Hpub as <-; injection Hres as <-; cbn; by intros [= <-].
  apply bind_Ok in Hpub as (act & Hact & Hpub). apply bind_Ok in Hpub as (coordinate & Hcoord & Hpub).
  apply bind_Ok in Hpub as (ev & Hev & [= <-]). unfold PublicationEvidence_new in Hev. apply bind_Ok in Hev as (? & _ & [= <-]).
  unfold commit_result in Hres. apply seq_Ok_iff in Hres as [_ [= <-]].
  unfold GraphActivationIdentity_new in Hact. do 3 apply seq_Ok_iff in Hact as [_ Hact]. injection Hact as <-.
  intros Ha. exists coordinate, (ck_revision (ws_commit_key (gt_writes t))), (set_execution c). split; [exact Hcoord|].
  cbn in Ha |- *. by destruct (add_publication _ _).
Qed.

Lemma command_writes frames s command t frames' :
  writes_of graph scope_run (Some s) command None None t → apply_commit_writes frames (gt_writes t) = Ok frames' → frames' = frames.
Proof.
  intros [_ _ _ _ Hin (pub & _ & Hws)]. unfold apply_commit_writes, ws_publications.
  assert (input_evidence graph scope_run command (None : option (Frame A C)) = Ok []) as Hi' by (by destruct command).
  rewrite Hi' in Hin. injection Hin as Hin. rewrite <- Hin, Hws. by intros [= <-].
Qed.

Lemma fresh_typed frames : fresh frames → index_typed graph scope_run frames.
Proof.
  intros [[_ Hi Hl] Hr]. split.
  - intros record E. rewrite (proj2 (has_input_lookup _ _)) in Hi; [done|by exists record].
  - intros activation coordinate record publication [Hc _]%coordinate_of_spec E.
    specialize (Hl coordinate ltac:(by rewrite Hc)). rewrite (proj2 (has_publication_lookup _ _)) in Hl; [done|by exists record].
  - intros activation plan record Hs _ E. specialize (Hr activation plan Hs). cbn in Hr.
    rewrite (proj2 (has_record_find _ _ _)) in Hr; [done|]. by exists record.
Qed.

Lemma executed_typed frames state : executed frames state → index_typed graph scope_run frames.
Proof.
  induction 1 as [frames c frame session t t' commit state frames' Hfr Hin Hr Hprep Hof Hconf Happ
    |frames s r c successor session t t' commit state frames' Hex IH Hres Hset Hprep Hof Hconf Happ
    |frames s command successor session t t' commit state frames' Hex IH Hprep Hof Hconf Happ
    |frames s request prepared record frames' Hex IH Hsr Hprep Hin Ha|frames s addition frames' Hex IH Hf Ha].
  1,2,3: destruct (offered_same _ _ state Hof) as (_ & Hw & _); rewrite Hw in Happ; apply prepare_transition_writes in Hprep.
  2,3,4,5: assert (index_ok frames) as Hok by (by apply executed_committed, committed_installed in Hex as []).
  - eapply addition_keeps_typed; [apply Hfr|by apply fresh_typed| |by eapply start_writes]. intros _. by apply (input_admitted_typed _ _ Hin).
  - pose proof (settle_writes _ _ _ _ _ _ Hprep Happ) as Hw'. apply result_produced_typed in Hres.
    destruct r as [task output route sess| |]; [|by subst..]. destruct Hw' as (coordinate & revision & provenance & Hc & Ha).
    destruct Hres as (publication & Hp & Ht). eapply addition_keeps_typed; [done..| |exact Ha]. by eapply publication_typed.
  - by rewrite (command_writes _ _ _ _ _ Hprep Happ).
  - destruct (prepared_input_typed _ _ _ _ _ Hprep Hin) as (activation & plan & _ & Hm & Hc & Ht).
    eapply (addition_keeps_typed _ (AddResume record)); [done..| |exact Ha]. intros activation' plan' _ Hm' Hc'.
    rewrite Hc in Hc'. injection Hc' as -> _. rewrite Hm in Hm'. by injection Hm' as <-.
  - eapply addition_keeps_typed; [done..| |exact Ha]. by apply elsewhere_typed.
Qed.
End histories.

(* ------------------------------------------------------------------ *)
(** ** Theorems *)

Section theorems.
Context {A V W C S : Type} `{EqDecision A} `{EqDecision V} `{ValueTypes A V W} `{Configs C} `{EqDecision S}.
Context (codec : CodecFunctions (A := A) (C := C) (S := S)) (repr_tuple : list str → str).

Lemma compiled_graph_scoped (graph scoped : CompiledGraph V) segments :
  compiled_graph graph → compiled_graph_at_scope graph segments = Ok scoped → typed_graph value_type scoped.
Proof. intros (family & root & retained & g & memo & d & Hfam & Hr & Hf & Hc & Hs & Hp). by eapply compiled_typed. Qed.

Lemma compiled_graph_typed (graph : CompiledGraph V) : compiled_graph graph → typed_graph value_type graph.
Proof. intros Hg. by apply (compiled_graph_scoped graph graph []). Qed.

Lemma ready_to_resolve owner (graph : CompiledGraph V) (request : StepRequest A C S) attempt command :
  prepare_superstep codec repr_tuple owner graph request attempt = Ok (ReadyToResolve command) →
  grounded graph (req_scope_run request) (req_state request)
  ∧ resolve_routing repr_tuple graph (req_state request) (req_scope_run request) (req_frames request) = Ok command.
Proof.
  unfold prepare_superstep. intros [Hg E]%seq_Ok_iff. destruct (st_status (req_state request)) eqn:Hst; [|done..].
  split; [by apply guard_grounded|]. apply bind_Ok in E as (status & _ & E). destruct status; cbn in E.
  1-3: repeat first [apply seq_Ok_iff in E as [_ E] | apply bind_Ok in E as (? & _ & E) | case_match | done].
  by apply bind_Ok in E as (command' & Hc & [= ->]).
Qed.

(** C5: well-typed graphs do not go wrong.  Take any graph of a compiled family and any
    history in which its frames were written by execution itself (inputs admitted by
    [admit_graph_input] or [admit_child_graph_input], results projected from calls or
    completed children, resume inputs prepared by [prepare_resume]).  Whenever a superstep
    of it is ready to resolve and the reducer applied the routing command: on an advance,
    the input of every node of the next frontier materializes, with exactly the declared
    names and exact declared classes; on a completion, the graph outputs project, with
    exactly the declared names and classes.  The one thing that can go wrong is Config:
    among the frames that this input (or these outputs) combines, two carry different
    Configs or one a malformed Config, or the owner's Session carries a malformed one. *)
Theorem routed_values_typed owner graph request attempt command state' :
  compiled_graph graph →
  executed codec graph (req_scope_run request) (req_frames request) (req_state request) →
  prepare_superstep codec repr_tuple owner graph request attempt = Ok (ReadyToResolve command) →
  reduce_graph_run (Some (req_state request)) command = Ok state' →
  match command with
  | CmdAdvance _ => ∀ node, node ∈ frontier_nodes (st_frontier state') → ∃ plan,
      map_get (materializations (transition graph)) (fn_node_id node) = Ok plan
      ∧ (config_trouble (input_configs graph (req_scope_run request) (req_frames request) state' node plan) (req_session request)
         ∨ ∃ frame,
             materialize_node_input codec graph state' (req_scope_run request) (req_frames request) (fn_node_id node) (req_session request) = Ok frame
             ∧ typed (nf_entries frame) (fd_declarations (mp_descriptor plan)))
  | CmdComplete _ =>
      config_trouble (output_configs graph (req_scope_run request) (req_frames request) (st_superstep (req_state request)) (req_session request))
        (req_session request)
      ∨ ∃ view,
          project_graph_outputs graph (req_scope_run request) (st_superstep (req_state request)) (req_frames request) (req_session request) = Ok view
          ∧ typed (fr_entries view) (fd_declarations (graph_output_descriptor graph))
  | _ => True
  end.
Proof.
  intros Ht%compiled_graph_typed Hex%executed_typed [Hg Hres]%ready_to_resolve Hred. destruct command; try done.
  - intros node Hin. by eapply advanced_materialize.
  - apply outputs_project; [done..|]. by eapply resolved_outputs.
Qed.

(** C21: nested graphs fit their nodes.  In a graph of a compiled family, a nested graph
    accepts every input that materializes for its node, and the node accepts every output
    view that the nested graph projects; names and values pass unchanged. *)
Theorem nested_boundaries_fit (graph child : CompiledGraph V) n :
  compiled_graph graph → map_get (nested_graphs graph) n = Ok child →
  (∀ state scope_run (frames : ScopedFrameIndex A C S) session frame,
     materialize_node_input codec graph state scope_run frames n session = Ok frame →
     admit_child_graph_input child frame = Ok (mkFrame (nf_entries frame) (nf_activation_config frame)))
  ∧ (∀ scope_run superstep (frames : ScopedFrameIndex A C S) session view task parent route,
     project_graph_outputs child scope_run superstep frames session = Ok view → task_node_id task = n →
     project_child graph (mkChildren [] [] []) (task, CompletedChild parent view route)
       = Ok (mkChildren [NodeSuccess task view route (None : option (AgentSession C S))] [] [])).
Proof.
  intros Hg Hc. pose proof (compiled_graph_typed _ Hg) as Ht.
  assert (typed_graph value_type child) as Hchild by (apply (compiled_graph_scoped graph child [n]); [done|]; cbn; by rewrite Hc).
  destruct (tg_children _ _ Ht n child Hc) as (plan & publication & Hm & Hp & Hb & Ho).
  split.
  - intros state scope_run frames session frame Hmat. apply (materialized_typed _ _ _ _ _ _ _ _ plan) in Hmat as [Hty Hv]; [|done].
    unfold admit_child_graph_input, graph_input_from_node_input. rewrite (proj2 (admit_entries_Ok _ _ (nf_entries frame))) by (split; [done|by eapply typed_boundary]).
    cbn [mbind result_bind]. unfold Frame_new. by rewrite admit_config_valid.
  - intros scope_run superstep frames session view task parent route [Hty Hv]%projected_typed Htask. cbn. rewrite Htask, Hp. cbn [mbind result_bind].
    rewrite (proj1 (tg_outputs _ _ Hchild)) in Hty. rewrite <- Ho in Hty. unfold node_output_from_view.
    rewrite (proj2 (admit_entries_Ok _ _ (fr_entries view))) by done. cbn [mbind result_bind]. unfold Frame_new. rewrite admit_config_valid by done.
    by destruct view.
Qed.
End theorems.

(* ------------------------------------------------------------------ *)
(** ** Values through a node and a nested graph

    Non-negative and negative numbers are the two classes of values: [a] makes a
    non-negative number of the graph input, the nested graph of [b] turns it negative. *)

Section demo.
Definition signed_types : ValueTypes Z bool bool :=
  {| type_of z := (0 <=? z); Values.value_type v := v; nominal _ := true; class_eq_dec := bool_eq_dec |}.
#[local] Existing Instances signed_types demo_configs.

Definition negation_definition : GraphDefinition bool :=
  mkDefinition 1 (lit "negation") 1
    [CallableNode (lit "d") [mkBinding (lit "x") (ValueSource (GraphInputRef (lit "p") true))] [mkOutputDeclaration (lit "y") false] [] []]
    [] [] [mkGraphOutputDeclaration (lit "r") (NodeOutputRef (lit "d") (lit "y") None)] [] None.
Definition signed_definition : GraphDefinition bool :=
  mkDefinition 2 (lit "signed") 1
    [CallableNode (lit "a") [mkBinding (lit "x") (ValueSource (GraphInputRef (lit "x") true))] [mkOutputDeclaration (lit "y") true] [] [];
     NestedGraphNode (lit "b") negation_definition [mkBinding (lit "p") (ValueSource (NodeOutputRef (lit "a") (lit "y") None))]]
    [DirectEdge (lit "a") (lit "b")] [] [mkGraphOutputDeclaration (lit "z") (NodeOutputRef (lit "b") (lit "r") None)] [] None.
Definition signed_family (d : GraphDefinition bool) : Prop := d = signed_definition ∨ d = negation_definition.

Definition signed_compiles : { out | compile Values.value_type signed_definition ∅ = Ok out }.
Proof. eexists. vm_compute. reflexivity. Defined.
Definition signed : CompiledGraph bool := fst (proj1_sig signed_compiles).
Definition negation : CompiledGraph bool :=
  match map_get (nested_graphs signed) (lit "b") with Ok child => child | Raise _ => signed end.

Lemma signed_is_family : is_family signed_family.
Proof.
  split.
  - intros d i child inputs [->| ->] Hin; cbn in Hin;
      repeat (apply elem_of_cons in Hin as [Hin|Hin]; [first [discriminate Hin|injection Hin as -> -> ->; by right]|]); by apply elem_of_nil in Hin.
  - intros d d' [->| ->] [->| ->] H; done.
Qed.
Lemma signed_graph : compiled_graph signed.
Proof.
  exists signed_family, signed_definition, ∅, signed, (snd (proj1_sig signed_compiles)), signed_definition.
  split_and!; [apply signed_is_family|by left|apply faithful_empty|vm_compute; reflexivity|constructor|vm_compute; reflexivity].
Qed.

Definition signed_scope : ScopeRunCoordinate := mkScopeRun [] (lit "run").
Notation signed_transition previous command result_ input :=
  (transition_of (prepare_transition (A := Z) (C := unit) (S := unit) signed_scope previous command result_ signed None input None)).
Definition signed_input : Frame Z unit := mkFrame [(lit "x", 5)] None.
Definition signed_start_command : StartGraphRun :=
  match project_start_graph_command signed (lit "run") None None with Ok c => c | Raise _ => rivals_start_command end.
Definition signed_started := signed_transition None (CmdStart signed_start_command) None (Some signed_input).
Definition signed_claim := signed_transition (Some (gt_candidate_state signed_started)) (CmdClaim (mkClaim 0 (lit "attempt") None)) None None.
Definition signed_claimed : GraphRunState := gt_candidate_state signed_claim.
Definition signed_call : ExecutableTask Z unit unit :=
  mkExecutable (node_task signed_claimed (lit "a")) (mkNodeInputFrame [(lit "x", 5)] None None).
Definition signed_return : NodeReturn (A := Z) (C := unit) (S := unit) := ReturnedValues (mkValues [(lit "y", 3)] None None).
Definition signed_result : NodeResult Z unit unit := NodeSuccess (node_task signed_claimed (lit "a")) (mkFrame [(lit "y", 3)] None) None None.
Definition signed_settle : SettleGraphNode :=
  match settle_result signed signed_claimed (settlement_view signed_result) with Ok c => c | Raise _ => a_settle end.
Definition signed_settled := signed_transition (Some signed_claimed) (CmdSettle signed_settle) (Some signed_result) None.
Definition signed_state : GraphRunState := gt_candidate_state signed_settled.
Definition signed_index0 : ScopedFrameIndex Z unit unit := index_of (apply_commit_writes empty_index (gt_writes signed_started)).
Definition signed_index : ScopedFrameIndex Z unit unit := index_of (apply_commit_writes signed_index0 (gt_writes signed_settled)).
Definition signed_request : StepRequest Z unit unit := mkRequest signed_state signed_scope signed_index [] (mkLimits 10 2) None.
Definition signed_command : AdvanceGraphFrontier :=
  match prepare_superstep no_codec demo_repr 7 signed signed_request (lit "attempt") with
  | Ok (ReadyToResolve (CmdAdvance c)) => c | _ => mkAdvance 0 [] [] [] end.
Definition signed_next : GraphRunState := state_of (reduce_graph_run (Some signed_state) (CmdAdvance signed_command)).

Lemma signed_executed : executed no_codec signed signed_scope signed_index signed_state.
Proof.
  eapply (executed_settle _ _ _ signed_index0 signed_claimed signed_result signed_settle None None signed_settled signed_settled accepting);
    [|apply (produced_call _ _ signed_call signed_return); computed|computed|computed|by left|computed|computed].
  eapply (executed_command _ _ _ signed_index0 (gt_candidate_state signed_started) (CmdClaim (mkClaim 0 (lit "attempt") None)) None None
    signed_claim signed_claim accepting); [|computed|by left|computed|computed].
  eapply (executed_start _ _ _ empty_index signed_start_command signed_input None signed_started signed_started accepting);
    [|apply (admitted_values _ _ (mkValues [(lit "x", 5)] None None) None None); computed|computed|computed|by left|computed|computed].
  split; [split; [apply empty_index_ok|done|done]|done].
Qed.

Lemma no_trouble (configs : list unit) (session : option (AgentSession unit unit)) : config_trouble configs session → False.
Proof.
  intros [(x & y & _ & _ & Hne)|[(x & _ & Hx)|Hs]]; [by destruct x, y|by destruct x|]. apply Hs. unfold session_valid.
  destruct (session_config session); [|done]. by apply config_valid_Some.
Qed.

Lemma routed_values_typed_witness : ∃ plan frame,
  map_get (materializations (transition signed)) (lit "b") = Ok plan
  ∧ materialize_node_input no_codec signed signed_next signed_scope signed_index (lit "b") None = Ok frame
  ∧ typed (nf_entries frame) (fd_declarations (mp_descriptor plan)).
Proof.
  destruct (routed_values_typed no_codec demo_repr 7 signed signed_request (lit "attempt") (CmdAdvance signed_command) signed_next
    signed_graph signed_executed ltac:(computed) ltac:(computed)
    (mkFrontierNode (lit "b") (PendingGraphNode UseStepRequestInput)
       (fa_cause (default (mkFrontierActivation [] StartActivationCause) (head (adv_activations signed_command)))))
    ltac:(vm_compute; left)) as (plan & Hp & [[]%no_trouble|(frame & Hm & Ht)]).
  exists plan, frame. exact (conj Hp (conj Hm Ht)).
Defined.

Lemma nested_boundaries_fit_witness :
  admit_child_graph_input negation (mkNodeInputFrame (S := unit) [(lit "p", 3)] None None) = Ok (mkFrame (C := unit) [(lit "p", 3)] None).
Proof.
  refine (proj1 (nested_boundaries_fit no_codec signed negation (lit "b") signed_graph ltac:(computed))
    signed_next signed_scope signed_index None (mkNodeInputFrame [(lit "p", 3)] None None) ltac:(computed)).
Defined.
End demo.
