(* ===== verification/Commitment.v ===== *)
(** * Canonical bytes of evidence

    What [execution/persistence.py] uses of the standard library to commit to evidence:
    [json.dumps] with [ensure_ascii] and no white space, and SHA-256.  The text that is
    hashed determines the metadata and the payload it was made of. *)

From Stdlib Require Import ZArith NArith Lia Bool String Strings.Byte.
From stdpp Require Import prelude strings.
From S2P Require Import Prelude Identity Model.

Set Default Goal Selector "!".
Open Scope N_scope.

(* ------------------------------------------------------------------ *)
(** ** [json.dumps] *)

(** [None], [int], [str] and [tuple] values. *)
Inductive json :=
| JNull
| JInt (value : Z)
| JStr (value : str)
| JList (items : list json).

Definition hex_digit (d : N) : N := if d <? 10 then 48 + d else 87 + d.
Definition hex4 (n : N) : str :=
  [hex_digit (n / 4096); hex_digit (n / 256 mod 16); hex_digit (n / 16 mod 16); hex_digit (n mod 16)].

(** The two-character escapes. *)
Definition short_escape (c : N) : option N :=
  assoc c [(34, 34); (92, 92); (10, 110); (13, 114); (9, 116); (12, 102); (8, 98)].

(** One code point: printable ASCII as it is, else an escape; a code point beyond the
    basic plane is written as its surrogates. *)
Definition escape (c : N) : str :=
  match short_escape c with
  | Some k => [92; k]
  | None =>
      if (32 <=? c) && (c <=? 126) then [c]
      else if c <? 65536 then 92 :: 117 :: hex4 c
      else let v := c - 65536 in 92 :: 117 :: hex4 (55296 + v / 1024) ++ 92 :: 117 :: hex4 (56320 + v mod 1024)
  end.

Definition dumps_str (s : str) : str := 34 :: concat (escape <$> s) ++ [34].

(** The items of an array, separated by commas. *)
Fixpoint comma_join (items : list str) : str :=
  match items with
  | [] => []
  | [item] => item
  | item :: rest => item ++ 44 :: comma_join rest
  end.

Fixpoint dumps (value : json) : str :=
  match value with
  | JNull => lit "null"
  | JInt z => str_int z
  | JStr s => dumps_str s
  | JList items => 91 :: comma_join (dumps <$> items) ++ [93]
  end.

(** [.encode("ascii")] of what [dumps] writes. *)
Definition ascii_byte (c : N) : byte := match Byte.of_N c with Some b => b | None => x00 end.
Definition ascii_bytes (s : str) : bytes := ascii_byte <$> s.

(* ------------------------------------------------------------------ *)
(** ** SHA-256 *)

Definition w32 (x : N) : N := x mod 4294967296.
Definition add32 (x y : N) : N := w32 (x + y).
Definition rotr (n x : N) : N := N.lor (N.shiftr x n) (w32 (N.shiftl x (32 - n))).
Definition not32 (x : N) : N := 4294967295 - x.

(** The round constants: the first 32 bits of the fractional parts of the cube roots of the
    first 64 primes. *)
Definition is_prime (n : nat) : bool := forallb (λ d, negb (n mod d =? 0)%nat) (seq 2 (n - 2)).
Definition primes_below (n : nat) : list N := N.of_nat <$> List.filter is_prime (seq 2 (n - 2)).
Fixpoint cube_root (bits : nat) (root cube : N) : N :=
  match bits with
  | O => root
  | S bits => let candidate := root + 2 ^ N.of_nat bits in
              cube_root bits (if candidate ^ 3 <=? cube then candidate else root) cube
  end.
Definition round_constants : list N :=
  Eval vm_compute in (λ p, w32 (cube_root 36 0 (p * 2 ^ 96))) <$> primes_below 312.

Definition big_sigma0 (x : N) : N := N.lxor (N.lxor (rotr 2 x) (rotr 13 x)) (rotr 22 x).
Definition big_sigma1 (x : N) : N := N.lxor (N.lxor (rotr 6 x) (rotr 11 x)) (rotr 25 x).
Definition small_sigma0 (x : N) : N := N.lxor (N.lxor (rotr 7 x) (rotr 18 x)) (N.shiftr x 3).
Definition small_sigma1 (x : N) : N := N.lxor (N.lxor (rotr 17 x) (rotr 19 x)) (N.shiftr x 10).
Definition choose (e f g : N) : N := N.lxor (N.land e f) (N.land (not32 e) g).
Definition majority (a b c : N) : N := N.lxor (N.lxor (N.land a b) (N.land a c)) (N.land b c).

(** The eight working variables. *)
Record Chain := mkChain { h0 : N; h1 : N; h2 : N; h3 : N; h4 : N; h5 : N; h6 : N; h7 : N }.
(** Their first values: the first 32 bits of the fractional parts of the square roots of the
    first eight primes. *)
Definition initial_chain : Chain :=
  Eval vm_compute in
  match (λ p, w32 (N.sqrt (p * 2 ^ 64))) <$> primes_below 20 with
  | [a; b; c; d; e; f; g; h] => mkChain a b c d e f g h
  | _ => mkChain 0 0 0 0 0 0 0 0
  end.

Definition sha_round (s : Chain) (kw : N * N) : Chain :=
  let t1 := add32 (add32 (add32 (h7 s) (big_sigma1 (h4 s))) (choose (h4 s) (h5 s) (h6 s))) (add32 kw.1 kw.2) in
  let t2 := add32 (big_sigma0 (h0 s)) (majority (h0 s) (h1 s) (h2 s)) in
  mkChain (add32 t1 t2) (h0 s) (h1 s) (h2 s) (add32 (h3 s) t1) (h4 s) (h5 s) (h6 s).

(** The message schedule: the last sixteen words, newest first, make the next one. *)
Definition next_word (recent : list N) : N :=
  add32 (add32 (small_sigma1 (nth 1 recent 0)) (nth 6 recent 0)) (add32 (small_sigma0 (nth 14 recent 0)) (nth 15 recent 0)).
Fixpoint extend (count : nat) (recent : list N) : list N :=
  match count with O => recent | S count => extend count (next_word recent :: recent) end.

Definition compress (s : Chain) (words : list N) : Chain :=
  let schedule := rev (extend 48 (rev words)) in
  let r := fold_left sha_round (zip round_constants schedule) s in
  mkChain (add32 (h0 s) (h0 r)) (add32 (h1 s) (h1 r)) (add32 (h2 s) (h2 r)) (add32 (h3 s) (h3 r))
          (add32 (h4 s) (h4 r)) (add32 (h5 s) (h5 r)) (add32 (h6 s) (h6 r)) (add32 (h7 s) (h7 r)).

(** Big-endian words of a padded message. *)
Fixpoint words_of (message : list N) : list N :=
  match message with
  | a :: b :: c :: d :: rest => (((a * 256 + b) * 256 + c) * 256 + d) :: words_of rest
  | _ => []
  end.
Fixpoint blocks (fuel : nat) (words : list N) : list (list N) :=
  match fuel, words with
  | S fuel, _ :: _ => take 16 words :: blocks fuel (drop 16 words)
  | _, _ => []
  end.

Definition byte_of (n : N) : byte := match Byte.of_N (n mod 256) with Some b => b | None => x00 end.
Definition word_bytes (w : N) : bytes := [byte_of (w / 16777216); byte_of (w / 65536); byte_of (w / 256); byte_of w].

(** Padding: a one bit, zeros up to 56 modulo 64, and the bit length in eight bytes. *)
Definition padded (message : bytes) : list N :=
  let n := N.of_nat (length message) in
  let zeros := N.to_nat ((119 - n mod 64) mod 64) in
  (Byte.to_N <$> message) ++ 128 :: repeat 0 zeros
  ++ (Byte.to_N <$> word_bytes (8 * n / 4294967296) ++ word_bytes (8 * n mod 4294967296)).

Definition chain_bytes (s : Chain) : bytes :=
  word_bytes (h0 s) ++ word_bytes (h1 s) ++ word_bytes (h2 s) ++ word_bytes (h3 s)
  ++ word_bytes (h4 s) ++ word_bytes (h5 s) ++ word_bytes (h6 s) ++ word_bytes (h7 s).

Definition sha256 (message : bytes) : bytes :=
  let words := words_of (padded message) in
  chain_bytes (fold_left compress (blocks (length words) words) initial_chain).

(** The text that [_commitment] hashes: domain, metadata and payload. *)
Definition evidence_text (domain : bytes) (metadata : json) (payload : bytes) : bytes :=
  domain ++ [x00] ++ ascii_bytes (dumps metadata) ++ [x00] ++ payload.

(* ------------------------------------------------------------------ *)
(** * The text that is hashed determines the evidence

    [dumps] writes a code point beyond the basic plane like its two surrogates, so it is a
    prefix code on strings of UTF-16 code units, and two values have one text exactly when
    their strings have the same code units.  The text of [dumps] has no NUL, so domain,
    metadata and payload of a hashed text are unambiguous. *)

(* ------------------------------------------------------------------ *)
(** ** Characters *)

(** Code points, which the characters of a Python string are; code units; and Unicode scalar
    values, which are code points and no surrogates. *)
Definition code_point (c : N) : Prop := c < 1114112.
Definition code_unit (c : N) : Prop := c < 65536.
Definition scalar (c : N) : Prop := c < 55296 ∨ 57344 ≤ c < 1114112.

(** The UTF-16 code units of a code point and of a string. *)
Definition units (c : N) : list N :=
  if c <? 65536 then [c] else [55296 + (c - 65536) / 1024; 56320 + (c - 65536) mod 1024].
Definition utf16 (s : str) : str := concat (units <$> s).

(** The two surrogates of a code point beyond the basic plane. *)
Lemma surrogates c : code_point c → 65536 ≤ c →
  55296 ≤ 55296 + (c - 65536) / 1024 < 56320 ∧ 56320 ≤ 56320 + (c - 65536) mod 1024 < 57344.
Proof.
  unfold code_point. intros Hc Hge. pose proof (N.mod_lt (c - 65536) 1024 ltac:(done)).
  assert ((c - 65536) / 1024 < 1024) by (apply N.Div0.div_lt_upper_bound; lia). lia.
Qed.

Lemma units_unit c : code_point c → Forall code_unit (units c).
Proof.
  intros Hc. unfold units. destruct (N.ltb_spec c 65536); [by apply Forall_singleton|]. destruct (surrogates c Hc) as [? ?]; [done|].
  repeat constructor; unfold code_unit; lia.
Qed.
Lemma utf16_units s : Forall code_point s → Forall code_unit (utf16 s).
Proof. induction 1 as [|c s Hc _ IH]; [constructor|]. apply Forall_app. split; [by apply units_unit|done]. Qed.

(** Text without surrogates is determined by its code units. *)
Lemma units_app_inj c c' r r' : scalar c → scalar c' → units c ++ r = units c' ++ r' → c = c' ∧ r = r'.
Proof.
  intros Hc Hc'. assert (code_point c ∧ code_point c') as [Hp Hp'] by (unfold code_point; destruct Hc, Hc'; lia). unfold units.
  destruct (N.ltb_spec c 65536), (N.ltb_spec c' 65536); cbn [app]; intros E.
  - by injection E as -> ->.
  - destruct (surrogates c'); [done..|]. injection E as E _. destruct Hc; lia.
  - destruct (surrogates c); [done..|]. injection E as E _. destruct Hc'; lia.
  - injection E as E1 E2 ->. split; [|done].
    pose proof (N.div_mod (c - 65536) 1024 ltac:(done)). pose proof (N.div_mod (c' - 65536) 1024 ltac:(done)). lia.
Qed.
Lemma utf16_inj s s' : Forall scalar s → Forall scalar s' → utf16 s = utf16 s' → s = s'.
Proof.
  unfold utf16. intros Hs. revert s'. induction Hs as [|c s Hc _ IH]; intros s' Hs' E; destruct Hs' as [|c' s' Hc' Hs']; cbn in E; [done| | |].
  - unfold units in E. by destruct (c' <? 65536).
  - unfold units in E. by destruct (c <? 65536).
  - apply units_app_inj in E as [-> E]; [|done..]. by rewrite (IH s' Hs' E).
Qed.

Lemma hex_digit_inj a b : a < 16 → b < 16 → hex_digit a = hex_digit b → a = b.
Proof. unfold hex_digit. intros ? ?. destruct (N.ltb_spec a 10), (N.ltb_spec b 10); lia. Qed.

Lemma hex4_parts n : n < 65536 →
  n / 4096 < 16 ∧ n / 256 mod 16 < 16 ∧ n / 16 mod 16 < 16 ∧ n mod 16 < 16
  ∧ n = 4096 * (n / 4096) + 256 * (n / 256 mod 16) + 16 * (n / 16 mod 16) + n mod 16.
Proof.
  intros Hn. split_and!; [by apply N.Div0.div_lt_upper_bound; lia|by apply N.mod_lt..|].
  pose proof (N.div_mod n 16 ltac:(done)). pose proof (N.div_mod (n / 16) 16 ltac:(done)) as H1. pose proof (N.div_mod (n / 256) 16 ltac:(done)) as H2.
  rewrite N.Div0.div_div in H1 by done. rewrite N.Div0.div_div in H2 by done. change (16 * 16) with 256 in H1. change (256 * 16) with 4096 in H2. lia.
Qed.

Lemma hex4_app_inj n m r r' : n < 65536 → m < 65536 → hex4 n ++ r = hex4 m ++ r' → n = m ∧ r = r'.
Proof.
  intros (Ha & Hb & Hc & Hd & En)%hex4_parts (Ha' & Hb' & Hc' & Hd' & Em)%hex4_parts. unfold hex4. cbn [app]. intros [= E1 E2 E3 E4 Er].
  apply hex_digit_inj in E1, E2, E3, E4; try done. split; [|done]. rewrite En, Em, E1, E2, E3, E4. done.
Qed.

(** The escape letters of the short escapes name one code point each, and none is [u]. *)
Lemma short_escape_spec c k : short_escape c = Some k →
  (c, k) ∈ [(34, 34); (92, 92); (10, 110); (13, 114); (9, 116); (12, 102); (8, 98)].
Proof. unfold short_escape. cbn. repeat (destruct (decide _); [intros [= <-]; set_solver|]). done. Qed.

Lemma short_escape_inj c c' k : short_escape c = Some k → short_escape c' = Some k → c = c' ∧ k ≠ 117.
Proof. intros Hc%short_escape_spec Hc'%short_escape_spec. set_solver. Qed.

Lemma short_escape_None c : short_escape c = None → c ≠ 34 ∧ c ≠ 92.
Proof. unfold short_escape. cbn. repeat (destruct (decide _); [done|]). done. Qed.

(** What follows [\u] of a code point that has no other form. *)
Definition long_escape (c : N) : str :=
  if c <? 65536 then hex4 c
  else hex4 (55296 + (c - 65536) / 1024) ++ 92 :: 117 :: hex4 (56320 + (c - 65536) mod 1024).

Lemma escape_cases c : (∃ k, short_escape c = Some k ∧ escape c = [92; k])
  ∨ (escape c = [c] ∧ c ≠ 34 ∧ c ≠ 92 ∧ 32 ≤ c ≤ 126) ∨ (short_escape c = None ∧ escape c = 92 :: 117 :: long_escape c).
Proof.
  unfold escape, long_escape. destruct (short_escape c) as [k|] eqn:E; [left; by exists k|]. right.
  pose proof (short_escape_None _ E) as [? ?].
  destruct ((32 <=? c) && (c <=? 126)) eqn:Ep; [left; split_and!; [done..|lia|lia]|right]. split; [done|]. by destruct (c <? 65536).
Qed.

(** Escapes of code units are a prefix code. *)
Lemma escape_app_inj c c' r r' : code_unit c → code_unit c' → escape c ++ r = escape c' ++ r' → c = c' ∧ r = r'.
Proof.
  intros Hc Hc'. assert (∀ c, code_unit c → long_escape c = hex4 c) as Hl.
  { intros x ?%N.ltb_lt. unfold long_escape. by replace (x <? 65536) with true. }
  destruct (escape_cases c) as [(k & Hk & ->)|[(-> & ? & ? & _)|[Hn ->]]],
    (escape_cases c') as [(k' & Hk' & ->)|[(-> & ? & ? & _)|[Hn' ->]]]; cbn [app]; intros E; try (injection E; lia).
  - injection E as -> ->. by destruct (short_escape_inj _ _ _ Hk Hk') as [-> _].
  - injection E as -> _. by destruct (short_escape_inj _ _ _ Hk Hk) as [_ []].
  - by injection E as -> ->.
  - injection E as <- _. by destruct (short_escape_inj _ _ _ Hk' Hk') as [_ []].
  - injection E as E. rewrite !Hl in E by done. by apply hex4_app_inj in E.
Qed.

(** A code point is written as its code units are. *)
Lemma escape_units c : code_point c → concat (escape <$> units c) = escape c.
Proof.
  intros Hc. unfold units. destruct (N.ltb_spec c 65536); [cbn; by rewrite app_nil_r|]. destruct (surrogates c Hc) as [Hh Hl]; [done|].
  assert (∀ u, 55296 ≤ u < 57344 → escape u = 92 :: 117 :: hex4 u) as Hu.
  { intros u Hr. destruct (escape_cases u) as [(k & Hk%short_escape_spec & _)|[(_ & _ & _ & ?)|[_ ->]]]; [|lia|].
    - exfalso. set_unfold. naive_solver lia.
    - unfold long_escape. destruct (N.ltb_spec u 65536); [done|lia]. }
  cbn. rewrite !Hu by lia. destruct (escape_cases c) as [(k & Hk%short_escape_spec & _)|[(_ & _ & _ & ?)|[_ ->]]]; [|lia|].
  - exfalso. set_unfold. naive_solver lia.
  - unfold long_escape. destruct (N.ltb_spec c 65536); [lia|]. by rewrite app_nil_r.
Qed.

Lemma escape_head c r : ∃ h t, escape c ++ r = h :: t ∧ h ≠ 34.
Proof. destruct (escape_cases c) as [(k & _ & ->)|[(-> & ? & _)|[_ ->]]]; cbn; by eexists _, _. Qed.

Lemma dumps_str_app_inj s s' r r' : Forall code_unit s → Forall code_unit s' → dumps_str s ++ r = dumps_str s' ++ r' → s = s' ∧ r = r'.
Proof.
  unfold dumps_str. cbn [app]. intros Hs Hs' [= E]. rewrite <- !app_assoc in E. cbn [app] in E.
  revert s' Hs' E. induction Hs as [|c s Hc _ IH]; intros s' Hs' E; destruct Hs' as [|c' s' Hc' Hs']; cbn in E.
  - by injection E as ->.
  - rewrite <- app_assoc in E. destruct (escape_head c' (concat (escape <$> s') ++ 34 :: r')) as (h & t & E' & Hh).
    rewrite E' in E. injection E as <- _. done.
  - rewrite <- app_assoc in E. destruct (escape_head c (concat (escape <$> s) ++ 34 :: r)) as (h & t & E' & Hh).
    rewrite E' in E. injection E as -> _. done.
  - rewrite <- !app_assoc in E. apply escape_app_inj in E as [-> E]; [|done..]. destruct (IH s' Hs' E) as [-> ->]. done.
Qed.

(* ------------------------------------------------------------------ *)
(** ** Values *)

Section json_induction.
Context (P : json → Prop) (Hnull : P JNull) (Hint : ∀ z, P (JInt z)) (Hstr : ∀ s, P (JStr s))
  (Hlist : ∀ items, Forall P items → P (JList items)).
Fixpoint json_nested_ind (v : json) : P v :=
  match v with
  | JNull => Hnull
  | JInt z => Hint z
  | JStr s => Hstr s
  | JList items => Hlist items ((fix go (items : list json) : Forall P items :=
      match items with [] => List.Forall_nil P | item :: rest => List.Forall_cons P item rest (json_nested_ind item) (go rest) end) items)
  end.
End json_induction.

(** All characters of the strings of a value are as [P] says. *)
Fixpoint text_json (P : N → Prop) (v : json) : Prop :=
  match v with
  | JStr s => Forall P s
  | JList items => (fix go (items : list json) : Prop := match items with [] => True | item :: rest => text_json P item ∧ go rest end) items
  | _ => True
  end.

Lemma text_items P items : text_json P (JList items) ↔ Forall (text_json P) items.
Proof. cbn. induction items as [|v items IH]; [done|]. rewrite Forall_cons. by f_equiv. Qed.

(** The value with its strings as code units. *)
Fixpoint utf16_json (v : json) : json :=
  match v with
  | JStr s => JStr (utf16 s)
  | JList items => JList (utf16_json <$> items)
  | _ => v
  end.

Lemma utf16_json_units v : text_json code_point v → text_json code_unit (utf16_json v).
Proof.
  induction v as [|z|s|items IH] using json_nested_ind; intros Hv; [done|done|by apply utf16_units|]. cbn [utf16_json].
  apply text_items, Forall_fmap. apply text_items in Hv. rewrite Forall_forall in IH, Hv |- *. intros x Hx. by apply IH, Hv.
Qed.

Lemma utf16_json_inj v v' : text_json scalar v → text_json scalar v' → utf16_json v = utf16_json v' → v = v'.
Proof.
  revert v'. induction v as [|z|s|items IH] using json_nested_ind; intros [|z'|s'|items'] Hv Hv' E; try done; cbn [utf16_json] in E.
  - injection E as E. by rewrite (utf16_inj s s' Hv Hv' E).
  - injection E as E. f_equal. apply text_items in Hv, Hv'. revert items' Hv' E. induction IH as [|v items H _ IH]; intros [|v' items'] Hv' E; try done.
    apply Forall_cons in Hv as [Hv Hvs]. apply Forall_cons in Hv' as [Hv' Hvs']. cbn in E. injection E as E Es.
    by rewrite (H v' Hv Hv' E), (IH Hvs items' Hvs' Es).
Qed.

(** A value is written as its code units are. *)
Lemma dumps_utf16 v : text_json code_point v → dumps (utf16_json v) = dumps v.
Proof.
  induction v as [|z|s|items IH] using json_nested_ind; intros Hv; [done|done| |]; cbn [utf16_json dumps].
  - unfold dumps_str, utf16. do 2 f_equal. cbn in Hv. induction Hv as [|c s Hc _ IH]; [done|]. cbn.
    by rewrite fmap_app, concat_app, escape_units, IH.
  - apply text_items in Hv. assert (dumps <$> (utf16_json <$> items) = dumps <$> items) as ->; [|done].
    induction IH as [|v items H _ IH]; [done|]. apply Forall_cons in Hv as [Hv Hvs]. cbn. by rewrite H, IH.
Qed.

(** What follows a value does not continue a number. *)
Definition stops (r : str) : Prop := match r with [] => True | c :: _ => ¬ is_digit c end.

Lemma digits_stop_inj p q r r' : Forall is_digit p → Forall is_digit q → stops r → stops r' → p ++ r = q ++ r' → p = q ∧ r = r'.
Proof.
  intros Hp Hq Hr Hr'. revert q Hq. induction Hp as [|d p Hd _ IH]; intros q Hq E; destruct Hq as [|e q He Hq]; cbn in E.
  - done.
  - by rewrite E in Hr.
  - by rewrite <- E in Hr'.
  - injection E as -> E. by destruct (IH q Hq E) as [-> ->].
Qed.

Lemma uint_digits_to_int z : match Z.to_int z with Decimal.Pos u | Decimal.Neg u => uint_digits u ≠ [] end.
Proof.
  assert (∀ p, uint_digits (Pos.to_uint p) ≠ []) as Hp.
  { intros p H. assert (Pos.to_uint p = Decimal.Nil) as Hp by by apply uint_digits_inj.
    assert (N.to_uint (Npos p) = Decimal.Nil) as HN by done. apply (f_equal N.of_uint) in HN. by rewrite DecimalN.Unsigned.of_to in HN. }
  destruct z; cbn; [done|apply Hp..].
Qed.

Lemma str_int_app_inj z w r r' : stops r → stops r' → str_int z ++ r = str_int w ++ r' → z = w ∧ r = r'.
Proof.
  intros Hr Hr' E. assert (str_int z = str_int w ∧ r = r') as [Ez ->]; [|by apply str_int_inj in Ez as ->].
  revert E. unfold str_int. assert (¬ is_digit 45) as Hm by (unfold is_digit; lia).
  pose proof (uint_digits_to_int z) as Hz. pose proof (uint_digits_to_int w) as Hw.
  destruct (Z.to_int z) as [u|u], (Z.to_int w) as [v|v]; intros E.
  - apply digits_stop_inj in E as [-> ->]; [done|apply uint_digits_digit|apply uint_digits_digit|done|done].
  - pose proof (uint_digits_digit u) as Hu. destruct Hu as [|c us Hu _]; cbn in E; [done|]. by injection E as -> _.
  - pose proof (uint_digits_digit v) as Hv. destruct Hv as [|c vs Hv _]; cbn in E; [done|]. by injection E as <- _.
  - injection E as E. apply digits_stop_inj in E as [-> ->]; [done|apply uint_digits_digit|apply uint_digits_digit|done|done].
Qed.

(** The first character tells the kind of a value. *)
Definition kind_of (v : json) (c : N) : Prop :=
  match v with JNull => c = 110 | JInt _ => c = 45 ∨ is_digit c | JStr _ => c = 34 | JList _ => c = 91 end.

Lemma dumps_head v : ∃ c t, dumps v = c :: t ∧ kind_of v c.
Proof.
  destruct v as [|z|s|items]; cbn; [by eexists _, _| |by eexists _, _|by eexists _, _].
  pose proof (uint_digits_to_int z) as Hz. unfold str_int. destruct (Z.to_int z) as [u|u]; [|by eexists _, _; split; [|left]].
  pose proof (uint_digits_digit u) as Hu. destruct Hu as [|c us Hu _]; [done|]. eexists _, _. split; [done|by right].
Qed.

Lemma comma_join_cons x xs r : comma_join (x :: xs) ++ 93 :: r = x ++ match xs with [] => 93 :: r | _ => 44 :: comma_join xs ++ 93 :: r end.
Proof. destruct xs; cbn; [done|]. by rewrite <- app_assoc. Qed.

Definition prefix_free (v : json) : Prop := ∀ v' r r', text_json code_unit v → text_json code_unit v' → stops r → stops r' →
  dumps v ++ r = dumps v' ++ r' → v = v' ∧ r = r'.

Lemma items_app_inj items : Forall prefix_free items → ∀ items' r r', Forall (text_json code_unit) items → Forall (text_json code_unit) items' →
  comma_join (dumps <$> items) ++ 93 :: r = comma_join (dumps <$> items') ++ 93 :: r' → items = items' ∧ r = r'.
Proof.
  assert (∀ v vs r r', 93 :: r ≠ comma_join (dumps <$> v :: vs) ++ 93 :: r') as Hne.
  { intros v vs r r' E. rewrite fmap_cons, comma_join_cons in E. destruct (dumps_head v) as (c & t & Hd & Hk).
    rewrite Hd in E. injection E as <- _. destruct v; cbn in Hk; unfold is_digit in Hk; lia. }
  induction 1 as [|v vs Hv _ IH]; intros [|v' vs'] r r' Hs Hs' E.
  - cbn in E. by injection E as ->.
  - by apply Hne in E.
  - symmetry in E. by apply Hne in E.
  - rewrite !fmap_cons, !comma_join_cons in E. apply Forall_cons in Hs as [Hs Hss]. apply Forall_cons in Hs' as [Hs' Hss'].
    assert (¬ is_digit 93 ∧ ¬ is_digit 44) as [H93 H44] by (unfold is_digit; lia).
    apply Hv in E as [-> E]; [|done|done|by destruct vs|by destruct vs'].
    destruct vs as [|w vs], vs' as [|w' vs']; [by injection E as ->|done|done|]. injection E as E.
    destruct (IH _ _ _ Hss Hss' E) as [-> ->]. done.
Qed.

Lemma dumps_prefix_free v : prefix_free v.
Proof.
  induction v as [|z|s|items IH] using json_nested_ind; intros v' r r' Hs Hs' Hr Hr' E;
    pose proof (dumps_head v') as (c & t & Hd & Hk); destruct v' as [|z'|s'|items'];
    try (rewrite Hd in E; cbn in E; injection E as <- _; cbn in Hk; unfold is_digit in Hk; lia).
  - cbn in E. by injection E as ->.
  - destruct (dumps_head (JInt z)) as (c' & t' & Hd' & Hk'). rewrite Hd' in E. cbn in E. injection E as -> _. cbn in Hk'. unfold is_digit in Hk'. lia.
  - cbn in E. by apply str_int_app_inj in E as [-> ->].
  - destruct (dumps_head (JInt z)) as (c' & t' & Hd' & Hk'). rewrite Hd' in E. cbn in E. injection E as -> _. cbn in Hk'. unfold is_digit in Hk'. lia.
  - destruct (dumps_head (JInt z)) as (c' & t' & Hd' & Hk'). rewrite Hd' in E. cbn in E. injection E as -> _. cbn in Hk'. unfold is_digit in Hk'. lia.
  - cbn [dumps] in E. by apply dumps_str_app_inj in E as [-> ->].
  - cbn [dumps app] in E. injection E as E. rewrite <- !app_assoc in E. apply text_items in Hs, Hs'.
    by apply items_app_inj in E as [-> ->].
Qed.

Lemma dumps_inj v v' : text_json code_unit v → text_json code_unit v' → dumps v = dumps v' → v = v'.
Proof. intros Hs Hs' E. apply (dumps_prefix_free v v' [] []); [done..|]. by rewrite E. Qed.

(* ------------------------------------------------------------------ *)
(** ** The hashed text *)

Definition printable (c : N) : Prop := 32 ≤ c ≤ 126.

Lemma hex4_printable n : n < 65536 → Forall printable (hex4 n).
Proof.
  intros (? & ? & ? & ? & _)%hex4_parts. assert (∀ d, d < 16 → printable (hex_digit d)) as Hd.
  { intros d ?. unfold printable, hex_digit. destruct (N.ltb_spec d 10); lia. }
  unfold hex4. repeat constructor; by apply Hd.
Qed.

Lemma escape_printable c : code_point c → Forall printable (escape c).
Proof.
  assert (printable 92 ∧ printable 117) as [H92 H117] by (unfold printable; lia). intros Hc.
  destruct (escape_cases c) as [(k & Hk%short_escape_spec & ->)|[(-> & _ & _ & Hp)|[_ ->]]].
  - constructor; [done|]. apply Forall_singleton. unfold printable. set_unfold. naive_solver lia.
  - by apply Forall_singleton.
  - do 2 (constructor; [done|]). unfold long_escape. destruct (N.ltb_spec c 65536); [by apply hex4_printable|].
    destruct (surrogates c) as [? ?]; [done..|].
    apply Forall_app. split; [apply hex4_printable; lia|]. do 2 (constructor; [done|]). apply hex4_printable. lia.
Qed.

Lemma comma_join_printable xs : Forall (Forall printable) xs → Forall printable (comma_join xs).
Proof.
  induction 1 as [|x xs Hx _ IH]; [constructor|]. destruct xs as [|y xs]; [done|]. cbn [comma_join]. apply Forall_app. split; [done|].
  constructor; [unfold printable; lia|done].
Qed.

Lemma str_int_printable z : Forall printable (str_int z).
Proof.
  assert (∀ u, Forall printable (uint_digits u)) as Hu.
  { intros u. eapply Forall_impl; [apply uint_digits_digit|]. unfold is_digit, printable. lia. }
  unfold str_int. destruct (Z.to_int z); [apply Hu|]. constructor; [unfold printable; lia|apply Hu].
Qed.

Lemma dumps_printable v : text_json code_point v → Forall printable (dumps v).
Proof.
  induction v as [|z|s|items IH] using json_nested_ind; intros Hs; cbn [dumps].
  - repeat constructor; done.
  - apply str_int_printable.
  - unfold dumps_str. constructor; [unfold printable; lia|]. apply Forall_app. split; [|repeat constructor; done].
    induction Hs as [|c s Hc _ IH]; [constructor|]. cbn. apply Forall_app. split; [by apply escape_printable|done].
  - apply text_items in Hs. constructor; [unfold printable; lia|]. apply Forall_app. split; [|repeat constructor; done].
    apply comma_join_printable, Forall_fmap. rewrite Forall_forall in IH, Hs |- *. intros x Hx. by apply IH, Hs.
Qed.

Lemma ascii_byte_spec c : printable c → Byte.to_N (ascii_byte c) = c.
Proof.
  intros Hc. unfold ascii_byte. destruct (Byte.of_N c) as [b|] eqn:E; [by apply Byte.to_of_N|].
  apply Byte.of_N_None_iff in E. unfold printable in Hc. lia.
Qed.

Lemma ascii_bytes_inj s s' : Forall printable s → Forall printable s' → ascii_bytes s = ascii_bytes s' → s = s'.
Proof.
  intros Hs. revert s'. induction Hs as [|c s Hc _ IH]; intros s' Hs' E; destruct Hs' as [|c' s' Hc' Hs']; cbn in E; try done.
  injection E as Eb E. f_equal; [|by apply IH]. by rewrite <- (ascii_byte_spec c), Eb, (ascii_byte_spec c').
Qed.

Lemma ascii_bytes_no_nul s : Forall printable s → x00 ∉ ascii_bytes s.
Proof.
  intros Hs (c & E & Hc%(proj1 (Forall_forall _ _) Hs))%list_elem_of_fmap. pose proof (ascii_byte_spec c Hc) as Ec. rewrite <- E in Ec.
  cbn in Ec. unfold printable in Hc. lia.
Qed.

(** Text up to the first NUL. *)
Lemma nul_split (p q r r' : bytes) : x00 ∉ p → x00 ∉ q → p ++ [x00] ++ r = q ++ [x00] ++ r' → p = q ∧ r = r'.
Proof.
  revert q. induction p as [|b p IH]; intros [|c q] Hp Hq E; cbn in E.
  - by injection E as ->.
  - injection E as <- _. set_solver.
  - injection E as -> _. set_solver.
  - injection E as -> E. apply IH in E as [-> ->]; [done|set_solver..].
Qed.

(** The hashed text determines what it was made of, and metadata with the same code units
    make the same text. *)
Lemma evidence_text_units domain domain' metadata metadata' payload payload' :
  x00 ∉ domain → x00 ∉ domain' → text_json code_point metadata → text_json code_point metadata' →
  evidence_text domain metadata payload = evidence_text domain' metadata' payload' ↔
  domain = domain' ∧ utf16_json metadata = utf16_json metadata' ∧ payload = payload'.
Proof.
  unfold evidence_text. intros Hd Hd' Hm Hm'. split.
  - intros E. apply nul_split in E as [-> E]; [|done..].
    apply dumps_printable in Hm as Hp. apply dumps_printable in Hm' as Hp'.
    apply nul_split in E as [E ->]; [|by apply ascii_bytes_no_nul..]. apply ascii_bytes_inj in E; [|done..].
    rewrite <- (dumps_utf16 metadata), <- (dumps_utf16 metadata') in E by done. apply dumps_inj in E; [done|by apply utf16_json_units..].
  - intros (-> & E & ->). by rewrite <- (dumps_utf16 metadata), E, (dumps_utf16 metadata').
Qed.

Lemma sha256_length message : length (sha256 message) = 32%nat.
Proof. done. Qed.
