(* ===== verification/SessionCodec.v ===== *)
(** * The durable envelope of a Session

    The codec part of [session.py]: a Session is stored as the encoded hook state and
    context, with the cursor of its Config; encoding checks that decoding gives the Session
    back and that the text is canonical.  [S] is the pair of hook state and context. *)

From Stdlib Require Import ZArith NArith Lia Bool String.
From stdpp Require Import prelude strings.
From S2P Require Import Prelude Identity Model Values.

Set Default Goal Selector "!".
Open Scope Z_scope.

Definition session_fail_if (b : bool) (m : string) : result unit := raise_if b AgentSessionContractError m.

Record EncodedAgentSession := mkEncodedSession {
  es_codec_id : str;
  es_codec_version : Z;
  es_payload : bytes;
  es_config_cursor : option GraphConfigCursor
}.
#[export] Instance encoded_session_eq_dec : EqDecision EncodedAgentSession.
Proof. solve_decision. Defined.

(** [EncodedAgentSession.__post_init__] *)
Definition EncodedAgentSession_new (codec_id : str) (codec_version : Z) (payload : bytes) (config_cursor : option GraphConfigCursor)
    : result EncodedAgentSession :=
  session_fail_if (negb (is_canonical_identity codec_id)) "durable AgentSession codec identity must be canonical";;
  session_fail_if (codec_version <? 1) "durable AgentSession codec version must be positive";;
  match config_cursor with
  | None => Ok tt
  | Some cursor =>
      cursor ← except is_admission_error AgentSessionContractError "durable AgentSession Config cursor is malformed"
                 (GraphConfigCursor_admit cursor);
      session_fail_if (bool_decide (cur_digest cursor = None)) "durable AgentSession Config cursor requires a digest"
  end;;
  Ok (mkEncodedSession codec_id codec_version payload config_cursor).

(** [EncodedAgentSession.admit] *)
Definition EncodedAgentSession_admit (encoded : EncodedAgentSession) : result EncodedAgentSession :=
  except is_admission_error AgentSessionContractError "durable AgentSession envelope is malformed"
    (EncodedAgentSession_new (es_codec_id encoded) (es_codec_version encoded) (es_payload encoded) (es_config_cursor encoded)).

(** [AgentSessionCodec]; the caller's encoder and decoder give [None] when they raise. *)
Record AgentSessionCodec (S : Type) := mkSessionCodec {
  sc_codec_id : str;
  sc_version : Z;
  sc_encoder : S → option bytes;
  sc_decoder : bytes → option S
}.
Arguments mkSessionCodec {_}.
Arguments sc_codec_id {_}.
Arguments sc_version {_}.
Arguments sc_encoder {_}.
Arguments sc_decoder {_}.

Section codec.
Context {C S : Type} `{Configs C} `{EqDecision S}.
Implicit Types (codec : AgentSessionCodec S) (session : AgentSession C S).

(** [AgentSessionCodec.__post_init__], which [admit_session_codec_carrier] repeats. *)
Definition admit_session_codec_carrier codec : result (AgentSessionCodec S) :=
  session_fail_if (negb (is_canonical_identity (sc_codec_id codec))) "AgentSession codec identity must be canonical";;
  session_fail_if (sc_version codec <? 1) "AgentSession codec version must be positive";;
  Ok codec.

(** [AgentSessionCarrier.config_cursor] *)
Definition session_config_cursor session : option GraphConfigCursor := config_cursor_of <$> se_config session.

(** [AgentSession.__post_init__] and [AgentSession.admit] *)
Definition AgentSession_new (carried : S) (config : option C) : result (AgentSession C S) :=
  session_fail_if (match config with Some config => negb (config_ok config) | None => false end) "AgentSession.config is malformed";;
  Ok (mkSession carried config).
Definition AgentSession_admit session : result (AgentSession C S) :=
  except is_admission_error AgentSessionContractError "AgentSession is malformed"
    (AgentSession_new (se_carried session) (se_config session)).

(** [_encode_raw] and [_decode_raw] *)
Definition encode_raw codec session : result EncodedAgentSession :=
  match sc_encoder codec (se_carried session) with
  | None => Raise (Exn AgentSessionContractError "AgentSession encoder rejected the snapshot")
  | Some payload => EncodedAgentSession_new (sc_codec_id codec) (sc_version codec) payload (session_config_cursor session)
  end.
Definition decode_raw codec (payload : bytes) : result S :=
  match sc_decoder codec payload with
  | None => Raise (Exn AgentSessionContractError "AgentSession decoder rejected the durable payload")
  | Some decoded => Ok decoded
  end.

(** [AgentSessionCodec.encode] and [encode_session] *)
Definition encode_session codec session : result EncodedAgentSession :=
  admitted ← AgentSession_admit session;
  encoded ← encode_raw codec admitted;
  decoded ← decode_raw codec (es_payload encoded);
  session_fail_if (negb (bool_decide (decoded = se_carried admitted))) "AgentSession codec is not reversible";;
  rebuilt ← AgentSession_new decoded (se_config admitted);
  canonical ← encode_raw codec rebuilt;
  session_fail_if (negb (bool_decide (canonical = encoded))) "AgentSession codec must have a deterministic canonical round trip";;
  Ok encoded.

(** [AgentSessionCodec.decode] *)
Definition decode_session codec (encoded : EncodedAgentSession) (config : option C) : result (AgentSession C S) :=
  encoded ← EncodedAgentSession_admit encoded;
  session_fail_if (negb (bool_decide ((es_codec_id encoded, es_codec_version encoded) = (sc_codec_id codec, sc_version codec))))
    "AgentSession codec identity/version does not match the durable snapshot";;
  session_fail_if (match config with Some config => negb (config_ok config) | None => false end) "resolved AgentSession Config is malformed";;
  session_fail_if (negb (bool_decide (es_config_cursor encoded = config_cursor_of <$> config)))
    "durable AgentSession Config cursor does not match resolved Config";;
  decoded ← decode_raw codec (es_payload encoded);
  session ← AgentSession_new decoded config;
  canonical ← encode_raw codec session;
  session_fail_if (negb (bool_decide (canonical = encoded))) "AgentSession codec must have a deterministic canonical round trip";;
  Ok session.

(** [encode_session_carrier] *)
Definition encode_session_carrier codec session : result EncodedAgentSession :=
  _ ← admit_session_codec_carrier codec; _ ← admit_session_carrier session; encode_session codec session.

(* ---------------------------------------------------------------- *)
(** ** Round trip *)

Lemma EncodedAgentSession_new_fields codec_id version payload cursor encoded :
  EncodedAgentSession_new codec_id version payload cursor = Ok encoded → encoded = mkEncodedSession codec_id version payload cursor.
Proof. unfold EncodedAgentSession_new. intros E. do 3 apply seq_Ok_iff in E as [_ E]. by injection E. Qed.

Lemma EncodedAgentSession_admit_new codec_id version payload cursor encoded :
  EncodedAgentSession_new codec_id version payload cursor = Ok encoded → EncodedAgentSession_admit encoded = Ok encoded.
Proof.
  intros E. pose proof (EncodedAgentSession_new_fields _ _ _ _ _ E) as ->. unfold EncodedAgentSession_admit. cbn. by rewrite E.
Qed.

Lemma AgentSession_new_Ok carried config session :
  AgentSession_new carried config = Ok session ↔
  session = mkSession carried config ∧ match config with Some config => config_ok config = true | None => True end.
Proof.
  unfold AgentSession_new, session_fail_if. rewrite seq_Ok_iff, raise_if_Ok. destruct config as [c|]; rewrite ?negb_false_iff; naive_solver.
Qed.

Lemma session_round_trip codec session encoded :
  encode_session codec session = Ok encoded → decode_session codec encoded (se_config session) = Ok session.
Proof.
  unfold encode_session, AgentSession_admit. destruct session as [carried config]. cbn [se_carried se_config].
  intros (admitted & [-> Hc]%except_Ok%AgentSession_new_Ok & E)%bind_Ok. apply bind_Ok in E as (encoded' & Hraw & E).
  apply bind_Ok in E as (decoded & Hdec & E). cbn [se_carried se_config] in E.
  apply seq_Ok_iff in E as [->%raise_if_Ok%negb_false_iff%bool_decide_eq_true E].
  apply bind_Ok in E as (rebuilt & Hre & E). apply bind_Ok in E as (canonical & Hcan & E).
  apply seq_Ok_iff in E as [->%raise_if_Ok%negb_false_iff%bool_decide_eq_true [= <-]].
  pose proof Hraw as Hr. unfold encode_raw in Hr. cbn in Hr. destruct (sc_encoder codec carried) as [payload|] eqn:Ee; [|done].
  pose proof (EncodedAgentSession_admit_new _ _ _ _ _ Hr) as Ha. apply EncodedAgentSession_new_fields in Hr as Hf. cbn in Hf.
  unfold decode_session. rewrite Ha. cbn [mbind result_bind]. subst encoded'. cbn [es_codec_id es_codec_version es_config_cursor].
  rewrite !bool_decide_true by done. cbn [negb raise_if session_fail_if mbind result_bind].
  assert (match config with Some config => negb (config_ok config) | None => false end = false) as -> by (destruct config; [by rewrite Hc|done]).
  cbn [raise_if session_fail_if mbind result_bind]. rewrite Hdec. cbn [mbind result_bind].
  rewrite (proj2 (AgentSession_new_Ok carried config (mkSession carried config))) by done. cbn [mbind result_bind].
  rewrite Hraw. cbn [mbind result_bind]. by rewrite bool_decide_true.
Qed.
End codec.
