(* ===== verification/Persistence.v ===== *)
(** * Durable evidence

    [execution/persistence.py] up to [DurableGraphCommit]: encoded frames, the commitments
    that bind them to graph state, the records and the write set of one persistent commit,
    and the commit port that offers them to the caller's writer. *)

From Stdlib Require Import ZArith NArith Lia Bool String Strings.Byte.
From stdpp Require Import prelude strings.
From S2P Require Import Prelude Identity Resources Model Validation Topology GraphDefinition Routing Values RunContext Commit Commitment SessionCodec.

Set Default Goal Selector "!".
Open Scope Z_scope.

Definition persistence_fail_if (b : bool) (m : string) : result unit := raise_if b SnapshotMismatchError m.

(* ------------------------------------------------------------------ *)
(** ** Encoded frames *)

Record EncodedFrame := mkEncodedFrame {
  ef_codec_id : str;
  ef_codec_version : Z;
  ef_payload : bytes;
  ef_config_cursor : option GraphConfigCursor
}.
#[export] Instance commit_key_eq_dec : EqDecision GraphCommitKey.
Proof. solve_decision. Defined.
#[export] Instance encoded_frame_eq_dec : EqDecision EncodedFrame.
Proof. solve_decision. Defined.

(** [EncodedFrame.__post_init__] *)
Definition EncodedFrame_new (codec_id : str) (codec_version : Z) (payload : bytes) (config_cursor : option GraphConfigCursor)
    : result EncodedFrame :=
  persistence_fail_if (negb (is_canonical_identity codec_id) || (codec_version <? 1))
    "persistent frame codec identity and version must be canonical";;
  match config_cursor with
  | None => Ok tt
  | Some cursor =>
      cursor ← except is_admission_error SnapshotMismatchError "persistent frame Config cursor is malformed"
                 (GraphConfigCursor_admit cursor);
      persistence_fail_if (bool_decide (cur_digest cursor = None)) "persistent frame Config requires an exact snapshot digest"
  end;;
  Ok (mkEncodedFrame codec_id codec_version payload config_cursor).

(** [EncodedFrame.admit] *)
Definition EncodedFrame_admit (frame : EncodedFrame) : result EncodedFrame :=
  except is_admission_error SnapshotMismatchError "persistent frame is malformed"
    (EncodedFrame_new (ef_codec_id frame) (ef_codec_version frame) (ef_payload frame) (ef_config_cursor frame)).

(* ------------------------------------------------------------------ *)
(** ** Commitments *)

(** [_descriptor_parts] and [_config_parts] *)
Definition descriptor_parts (descriptor : FrameDescriptorIdentity) : json :=
  JList [JStr (fdi_definition_id descriptor); JInt (fdi_definition_version descriptor);
         JInt (kind_value (fdi_frame_kind descriptor)); JInt (fdi_owner_ordinal descriptor)].
Definition config_parts (cursor : option GraphConfigCursor) : json :=
  match cursor with
  | None => JNull
  | Some cursor => JList [JStr (cur_definition_id cursor); JInt (cur_definition_version cursor); JInt (cur_revision cursor);
                          JStr (default [] (cur_digest cursor))]
  end.
Definition optional_str (value : option str) : json := match value with None => JNull | Some value => JStr value end.

(** [_commitment] *)
Definition commitment (domain : bytes) (metadata : json) (payload : bytes) : result GraphEvidenceCommitment :=
  GraphEvidenceCommitment_new (sha256 (evidence_text domain metadata payload)).

(** [_graph_input_commitment]: its metadata and its digest. *)
Definition graph_input_domain : bytes := ascii_bytes (lit "mote.graph-input-evidence.v1").
Definition graph_input_metadata (coordinate : GraphInputAvailabilityCoordinate) (frame : EncodedFrame) (birth : GraphCommitKey) : json :=
  JList [JStr (ck_run_id birth); JInt (ck_revision birth); JList (JStr <$> scope (gic_scope_run coordinate));
         JStr (graph_run_id (gic_scope_run coordinate)); descriptor_parts (gic_descriptor coordinate);
         JStr (ef_codec_id frame); JInt (ef_codec_version frame); config_parts (ef_config_cursor frame)].
Definition graph_input_commitment (coordinate : GraphInputAvailabilityCoordinate) (frame : EncodedFrame) (birth : GraphCommitKey)
    : result GraphEvidenceCommitment :=
  commitment graph_input_domain (graph_input_metadata coordinate frame birth) (ef_payload frame).

(** [_publication_commitment] *)
Definition publication_domain : bytes := ascii_bytes (lit "mote.graph-publication-evidence.v1").
Definition publication_metadata (coordinate : PublicationAvailabilityCoordinate) (frame : EncodedFrame) (birth : GraphCommitKey)
    (token : GraphExecutionToken) (settlement_reference : ActivationReference) : json :=
  let activation := pac_activation coordinate in
  JList [JStr (ck_run_id birth); JInt (ck_revision birth); JList (JStr <$> scope (sa_scope_run activation));
         JStr (graph_run_id (sa_scope_run activation)); JInt (sa_superstep activation); JStr (sa_node_id activation);
         descriptor_parts (pac_descriptor coordinate); JInt (tok_generation token); JStr (tok_attempt_id token);
         JStr (ef_codec_id frame); JInt (ef_codec_version frame); config_parts (ef_config_cursor frame);
         optional_str (ref_route settlement_reference)].
Definition publication_commitment (coordinate : PublicationAvailabilityCoordinate) (frame : EncodedFrame) (birth : GraphCommitKey)
    (provenance : GraphExecutionToken) (settlement_reference : ActivationReference) : result GraphEvidenceCommitment :=
  token ← require_publication_confirmation (ck_revision birth) provenance;
  let activation := pac_activation coordinate in
  identity ← GraphActivationIdentity_new (graph_run_id (sa_scope_run activation)) (sa_superstep activation) (sa_node_id activation);
  persistence_fail_if (negb (bool_decide (ref_activation settlement_reference = identity)))
    "publication settlement reference does not match its coordinate";;
  commitment publication_domain (publication_metadata coordinate frame birth token settlement_reference) (ef_payload frame).

(* ------------------------------------------------------------------ *)
(** ** Coordinates and keys are rebuilt *)

(** [except (AttributeError, GraphValidationError, SnapshotMismatchError, TypeError, ValueError)] *)
Definition is_coordinate_error (k : exn_class) : bool :=
  match k with GraphValidationError | SnapshotMismatchError => true | _ => is_admission_error k end.

Definition rebuild_descriptor (descriptor : FrameDescriptorIdentity) : result FrameDescriptorIdentity :=
  FrameDescriptorIdentity_new (fdi_definition_id descriptor) (fdi_definition_version descriptor) (fdi_frame_kind descriptor)
    (fdi_owner_ordinal descriptor).

(** [_admit_graph_input_coordinate] *)
Definition admit_graph_input_coordinate (coordinate : GraphInputAvailabilityCoordinate) : result GraphInputAvailabilityCoordinate :=
  except is_coordinate_error SnapshotMismatchError "persistent graph input coordinate is malformed" (
    scope_run ← ScopeRunCoordinate_new (scope (gic_scope_run coordinate)) (graph_run_id (gic_scope_run coordinate));
    descriptor ← rebuild_descriptor (gic_descriptor coordinate);
    Ok (mkInputCoordinate scope_run descriptor)).

(** [_admit_publication_coordinate] *)
Definition admit_publication_coordinate (coordinate : PublicationAvailabilityCoordinate) : result PublicationAvailabilityCoordinate :=
  except is_coordinate_error SnapshotMismatchError "persistent publication coordinate is malformed" (
    let activation := pac_activation coordinate in
    scope_run ← ScopeRunCoordinate_new (scope (sa_scope_run activation)) (graph_run_id (sa_scope_run activation));
    stable ← StableActivation_new scope_run (sa_superstep activation) (sa_node_id activation);
    descriptor ← rebuild_descriptor (pac_descriptor coordinate);
    Ok (mkPublicationCoordinate stable descriptor)).

(** [_admit_commit_key] *)
Definition admit_commit_key (key : GraphCommitKey) : result GraphCommitKey :=
  except is_admission_error SnapshotMismatchError "persistent evidence commit key is malformed"
    (GraphCommitKey_new (ck_run_id key) (ck_revision key)).

(* ------------------------------------------------------------------ *)
(** ** Persisted records *)

Record PersistedGraphInput := mkPersistedInput {
  pgi_coordinate : GraphInputAvailabilityCoordinate;
  pgi_frame : EncodedFrame;
  pgi_birth : GraphCommitKey;
  pgi_evidence : GraphEvidenceCommitment
}.
Record PersistedPublication := mkPersistedPublication {
  pp_coordinate : PublicationAvailabilityCoordinate;
  pp_frame : EncodedFrame;
  pp_birth : GraphCommitKey;
  pp_provenance : GraphExecutionToken;
  pp_settlement_reference : ActivationReference;
  pp_evidence : GraphEvidenceCommitment
}.
#[export] Instance persisted_input_eq_dec : EqDecision PersistedGraphInput.
Proof. solve_decision. Defined.
#[export] Instance persisted_publication_eq_dec : EqDecision PersistedPublication.
Proof. solve_decision. Defined.

(** [PersistedGraphInput.__post_init__] *)
Definition PersistedGraphInput_new (coordinate : GraphInputAvailabilityCoordinate) (frame : EncodedFrame) (birth : GraphCommitKey)
    (evidence : GraphEvidenceCommitment) : result PersistedGraphInput :=
  coordinate' ← admit_graph_input_coordinate coordinate;
  frame' ← EncodedFrame_admit frame;
  birth' ← admit_commit_key birth;
  evidence' ← except is_value_error SnapshotMismatchError "persistent graph input commitment is malformed"
                (GraphEvidenceCommitment_admit evidence);
  persistence_fail_if (negb (bool_decide (ck_run_id birth' = graph_run_id (gic_scope_run coordinate')))
                       || negb (ck_revision birth' =? 0))
    "persistent graph input birth commit is inconsistent";;
  expected ← graph_input_commitment coordinate' frame' birth';
  persistence_fail_if (negb (bool_decide (evidence' = expected)))
    "persistent graph input commitment does not match its complete evidence";;
  Ok (mkPersistedInput coordinate frame birth evidence).
Definition PersistedGraphInput_admit (record : PersistedGraphInput) : result PersistedGraphInput :=
  except is_admission_error SnapshotMismatchError "persistent graph input is malformed"
    (PersistedGraphInput_new (pgi_coordinate record) (pgi_frame record) (pgi_birth record) (pgi_evidence record)).

(** [_capture_graph_input] *)
Definition capture_graph_input (coordinate : GraphInputAvailabilityCoordinate) (frame : EncodedFrame) (birth : GraphCommitKey)
    : result PersistedGraphInput :=
  evidence ← graph_input_commitment coordinate frame birth;
  PersistedGraphInput_new coordinate frame birth evidence.

(** [PersistedPublication.__post_init__] *)
Definition PersistedPublication_new (coordinate : PublicationAvailabilityCoordinate) (frame : EncodedFrame) (birth : GraphCommitKey)
    (provenance : GraphExecutionToken) (settlement_reference : ActivationReference) (evidence : GraphEvidenceCommitment)
    : result PersistedPublication :=
  coordinate' ← admit_publication_coordinate coordinate;
  frame' ← EncodedFrame_admit frame;
  birth' ← admit_commit_key birth;
  '(provenance', reference', evidence') ← except is_admission_error SnapshotMismatchError
    "persistent publication confirmation is malformed" (
      provenance' ← GraphExecutionToken_admit provenance;
      activation ← GraphActivationIdentity_new (act_run_id (ref_activation settlement_reference))
                     (act_superstep (ref_activation settlement_reference)) (act_node_id (ref_activation settlement_reference));
      reference' ← ActivationReference_new activation (ref_route settlement_reference);
      evidence' ← GraphEvidenceCommitment_admit evidence;
      Ok (provenance', reference', evidence'));
  persistence_fail_if (negb (bool_decide (ck_run_id birth' = graph_run_id (sa_scope_run (pac_activation coordinate'))))
                       || (ck_revision birth' <? 1))
    "persistent publication birth commit is inconsistent";;
  expected ← publication_commitment coordinate' frame' birth' provenance' reference';
  persistence_fail_if (negb (bool_decide (evidence' = expected)))
    "persistent publication commitment does not match its complete evidence";;
  Ok (mkPersistedPublication coordinate frame birth provenance settlement_reference evidence).
Definition PersistedPublication_admit (record : PersistedPublication) : result PersistedPublication :=
  except is_admission_error SnapshotMismatchError "persistent publication is malformed"
    (PersistedPublication_new (pp_coordinate record) (pp_frame record) (pp_birth record) (pp_provenance record)
       (pp_settlement_reference record) (pp_evidence record)).

(** [_capture_publication] *)
Definition capture_publication (coordinate : PublicationAvailabilityCoordinate) (frame : EncodedFrame) (birth : GraphCommitKey)
    (provenance : GraphExecutionToken) (settlement_route : option str) : result PersistedPublication :=
  let activation := pac_activation coordinate in
  identity ← GraphActivationIdentity_new (graph_run_id (sa_scope_run activation)) (sa_superstep activation) (sa_node_id activation);
  reference ← ActivationReference_new identity settlement_route;
  evidence ← publication_commitment coordinate frame birth provenance reference;
  PersistedPublication_new coordinate frame birth provenance reference evidence.

(** The settlements of one activation in a ledger. *)
Definition settlements_of (state : GraphRunState) (identity : GraphActivationIdentity) : list GraphPublicationSettlement :=
  List.filter (λ item, bool_decide (ref_activation (pub_reference item) = identity)) (st_settled_publications state).
Definition coordinate_identity (coordinate : PublicationAvailabilityCoordinate) : result GraphActivationIdentity :=
  let activation := pac_activation coordinate in
  GraphActivationIdentity_new (graph_run_id (sa_scope_run activation)) (sa_superstep activation) (sa_node_id activation).

(** [_settlement_route_for] *)
Definition settlement_route_for (state : GraphRunState) (coordinate : PublicationAvailabilityCoordinate) : result (option str) :=
  identity ← coordinate_identity coordinate;
  match settlements_of state identity with
  | [item] => Ok (ref_route (pub_reference item))
  | _ => Raise (Exn SnapshotMismatchError "publication lacks its authoritative terminal settlement")
  end.

(* ------------------------------------------------------------------ *)
(** ** One persistent commit *)

Record GraphPersistenceWriteSet := mkPersistenceWrites {
  pw_commit_key : GraphCommitKey;
  pw_graph_inputs : list PersistedGraphInput;
  pw_publications : list PersistedPublication
}.
Record GraphPersistenceCommit := mkPersistenceCommit {
  gpc_scope : list str;
  gpc_expected_revision : option Z;
  gpc_candidate_state : GraphRunState;
  gpc_writes : GraphPersistenceWriteSet;
  gpc_agent_session : option EncodedAgentSession
}.
#[export] Instance persistence_writes_eq_dec : EqDecision GraphPersistenceWriteSet.
Proof. solve_decision. Defined.
#[export] Instance persistence_commit_eq_dec : EqDecision GraphPersistenceCommit.
Proof. solve_decision. Defined.

(** [GraphPersistenceWriteSet.__post_init__] *)
Definition PersistenceWriteSet_new (commit_key : GraphCommitKey) (graph_inputs : list PersistedGraphInput)
    (publications : list PersistedPublication) : result GraphPersistenceWriteSet :=
  key ← admit_commit_key commit_key;
  persistence_fail_if (1 <? length graph_inputs)%nat "persistent graph input writes must be typed immutable records";;
  persistence_fail_if (1 <? length publications)%nat "persistent publication writes must be typed immutable records";;
  inputs ← mapM PersistedGraphInput_admit graph_inputs;
  published ← mapM PersistedPublication_admit publications;
  persistence_fail_if (existsb (λ birth, negb (bool_decide (birth = key))) ((pgi_birth <$> inputs) ++ (pp_birth <$> published)))
    "persistent writes must be born in their enclosing commit";;
  Ok (mkPersistenceWrites commit_key graph_inputs publications).
Definition PersistenceWriteSet_admit (writes : GraphPersistenceWriteSet) : result GraphPersistenceWriteSet :=
  except is_admission_error SnapshotMismatchError "persistent write set is malformed"
    (PersistenceWriteSet_new (pw_commit_key writes) (pw_graph_inputs writes) (pw_publications writes)).

(** The settlement of a publication is the one the state holds. *)
Definition check_publication_binding (state : GraphRunState) (publication : PersistedPublication) (lacks differs : string) : result unit :=
  identity ← coordinate_identity (pp_coordinate publication);
  match settlements_of state identity with
  | [settlement] =>
      token ← require_publication_confirmation (ck_revision (pp_birth publication)) (pp_provenance publication);
      persistence_fail_if (negb (bool_decide (pub_reference settlement = pp_settlement_reference publication))
                           || negb (pub_commit_revision settlement =? ck_revision (pp_birth publication))
                           || negb (bool_decide (pub_execution settlement = token))
                           || negb (bool_decide (pub_evidence settlement = Some (pp_evidence publication)))) differs
  | _ => Raise (Exn SnapshotMismatchError lacks)
  end.

(** Every value of a state has its evidence. *)
Definition evidence_missing (state : GraphRunState) : bool :=
  bool_decide (st_graph_input_evidence state = None)
  || existsb (λ item, bool_decide (pub_evidence item = None)) (st_settled_publications state).

(** [GraphPersistenceCommit.__post_init__] *)
Definition PersistenceCommit_new (sc : list str) (expected_revision : option Z) (candidate : GraphRunState)
    (writes : GraphPersistenceWriteSet) (agent_session : option EncodedAgentSession) : result GraphPersistenceCommit :=
  persistence_fail_if (match expected_revision with Some revision => revision <? 0 | None => false end)
    "persistent commit expected revision must be absent or a non-negative integer";;
  except is_admission_error SnapshotMismatchError "persistent commit candidate is malformed" (validate_graph_run_state candidate);;
  scope_run ← ScopeRunCoordinate_new sc (st_run_id candidate);
  admitted ← PersistenceWriteSet_admit writes;
  session ← match agent_session with
    | None => Ok None
    | Some session => session ← except is_admission_error SnapshotMismatchError "persistent commit AgentSession is malformed"
                        (EncodedAgentSession_admit session); Ok (Some session)
    end;
  key ← GraphCommitKey_new (st_run_id candidate) (st_revision candidate);
  persistence_fail_if (negb (bool_decide (pw_commit_key admitted = key))) "persistent write set is not bound to its candidate state";;
  let expected := if st_revision candidate =? 0 then None else Some (st_revision candidate - 1) in
  persistence_fail_if (negb (bool_decide (expected_revision = expected)))
    "persistent commit CAS revision does not name its predecessor";;
  persistence_fail_if (evidence_missing candidate) "durable candidate state is missing value evidence commitments";;
  match session with
  | Some session =>
      if st_revision candidate =? 0 then
        cursor ← state_config_cursor candidate;
        persistence_fail_if (negb (bool_decide (es_config_cursor session = cursor)))
          "persistent commit AgentSession does not match candidate state Config"
      else Ok tt
  | None => Ok tt
  end;;
  (if st_revision candidate =? 0 then
     match pw_graph_inputs admitted with
     | [graph_input] =>
         persistence_fail_if (negb (bool_decide (gic_scope_run (pgi_coordinate graph_input) = scope_run))
                              || negb (bool_decide (Some (pgi_evidence graph_input) = st_graph_input_evidence candidate)))
           "durable graph input is not bound to its authoritative state"
     | _ => Raise (Exn SnapshotMismatchError "durable StartGraphRun requires exactly one graph input")
     end
   else Ok tt);;
  py_for (pw_publications admitted) (λ publication,
    persistence_fail_if (negb (bool_decide (sa_scope_run (pac_activation (pp_coordinate publication)) = scope_run)))
      "durable publication belongs to a different scoped run";;
    check_publication_binding candidate publication "durable publication lacks its authoritative settlement"
      "durable publication does not match its authoritative settlement");;
  Ok (mkPersistenceCommit sc expected_revision candidate writes agent_session).
Definition PersistenceCommit_admit (request : GraphPersistenceCommit) : result GraphPersistenceCommit :=
  except is_admission_error SnapshotMismatchError "persistent commit request is malformed"
    (PersistenceCommit_new (gpc_scope request) (gpc_expected_revision request) (gpc_candidate_state request) (gpc_writes request)
       (gpc_agent_session request)).

(* ------------------------------------------------------------------ *)
(** ** The durable commit port *)

(** [FrameCodec] with its functions. *)
Record ValueCodec (A C S : Type) := mkValueCodec {
  vc_binding : FrameCodec;
  vc_functions : CodecFunctions (A := A) (C := C) (S := S)
}.
Arguments mkValueCodec {_ _ _}.
Arguments vc_binding {_ _ _}.
Arguments vc_functions {_ _ _}.

(** [DurableGraphCommit]; its writer is the caller's port. *)
Record DurableGraphCommit (A C S : Type) := mkDurable {
  du_codec : ValueCodec A C S;
  du_agent_session : option EncodedAgentSession;
  du_session_codec : option (AgentSessionCodec S)
}.
Arguments mkDurable {_ _ _}.
Arguments du_codec {_ _ _}.
Arguments du_agent_session {_ _ _}.
Arguments du_session_codec {_ _ _}.

Section durable.
Context {A V W C S : Type} `{EqDecision A} `{ValueTypes A V W} `{Configs C} `{EqDecision S}.
Implicit Types (codec : ValueCodec A C S) (durable : DurableGraphCommit A C S).

(** The decoded value of a frame's entry has the exact class of the entry. *)
Definition check_decoded (decoded : GraphValues A C S) (entry : str * A) : result unit :=
  value ← graph_value decoded entry.1;
  raise_if (negb (nominal (type_of entry.2))) GraphValidationError "port type must be one concrete nominal class";;
  admission_fail_if (negb (bool_decide (type_of value = type_of entry.2))) "value does not have its exact declared type".

(** [_encode_frame] *)
Definition encode_frame (frame : Frame A C) codec : result EncodedFrame :=
  values ← make_graph_values (S := S) (fr_entries frame);
  payload ← encode (vc_functions codec) values;
  decoded ← decode (vc_functions codec) payload;
  admission_fail_if (negb (bool_decide (gv_activation_config decoded = None))
                     || negb (bool_decide ((gv_entries decoded).*1 = (gv_entries values).*1)))
    "persistent codec must preserve frame names without encoding Config";;
  py_for (fr_entries frame) (check_decoded decoded);;
  again ← encode (vc_functions codec) decoded;
  (if bool_decide (again = payload) then
     (once_more ← encode (vc_functions codec) values;
      admission_fail_if (negb (bool_decide (once_more = payload))) "persistent codec must have a deterministic canonical round trip")
   else Raise (Exn GraphValueAdmissionError "persistent codec must have a deterministic canonical round trip"));;
  cursor ← match fr_activation_config frame with
    | None => Ok None
    | Some config => raise_if (negb (config_ok config)) ConfigContractError "resolved config is malformed";; Ok (Some (config_cursor_of config))
    end;
  EncodedFrame_new (fc_codec_id (vc_binding codec)) (fc_version (vc_binding codec)) payload cursor.

(** [DurableGraphCommit.admit]; the checks of [__post_init__] are the same. *)
Definition DurableGraphCommit_admit durable : result (DurableGraphCommit A C S) :=
  except is_admission_error GraphValidationError "durable graph commit capability is malformed" (
    validate_codec (vc_binding (du_codec durable));;
    match du_agent_session durable with None => Ok tt | Some session => _ ← EncodedAgentSession_admit session; Ok tt end;;
    match du_session_codec durable with None => Ok tt | Some codec => _ ← admit_session_codec_carrier codec; Ok tt end);;
  Ok durable.

(** The request [DurableGraphCommit.__call__] makes, with the transition it is bound to. *)
Definition durable_request durable (transition : GraphTransition A C S) : result (GraphTransition A C S * GraphPersistenceCommit) :=
  let writes := gt_writes transition in
  graph_inputs ← mapM (λ evidence, encoded ← encode_frame (ie_frame evidence) (du_codec durable);
                        capture_graph_input (ie_coordinate evidence) encoded (ws_commit_key writes)) (ws_graph_inputs writes);
  publications ← mapM (λ evidence, encoded ← encode_frame (pe_frame evidence) (du_codec durable);
                        route ← settlement_route_for (gt_candidate_state transition) (pe_coordinate evidence);
                        capture_publication (pe_coordinate evidence) encoded (ws_commit_key writes) (pe_provenance evidence) route)
                   (ws_publications writes);
  bound ← bind_transition_evidence transition (pgi_evidence <$> head graph_inputs) (pp_evidence <$> head publications);
  encoded_session ← match gt_agent_session transition with
    | None => Ok (du_agent_session durable)
    | Some session =>
        match du_session_codec durable with
        | None => Raise (Exn SnapshotMismatchError "a Session successor requires its session codec")
        | Some codec => encoded ← except (one_of [AgentSessionContractError]) SnapshotMismatchError
                          "AgentSession successor could not be encoded" (encode_session_carrier codec session); Ok (Some encoded)
        end
    end;
  persisted ← PersistenceWriteSet_new (ws_commit_key writes) graph_inputs publications;
  request ← PersistenceCommit_new (gt_scope transition) (st_revision <$> gt_previous_state transition) (gt_candidate_state bound)
              persisted encoded_session;
  Ok (bound, request).

(** [DurableGraphCommit.__call__]; requests are immutable, so the writer leaves its own as
    it was. *)
Definition durable_commit durable (writer : GraphPersistenceCommit → result GraphPersistenceCommit) (transition : GraphTransition A C S)
    : result GraphRunState :=
  '(bound, request) ← durable_request durable transition;
  baseline ← PersistenceCommit_admit request;
  confirmed ← writer request;
  again ← PersistenceCommit_admit request;
  persistence_fail_if (negb (bool_decide (again = baseline)))
    "persistence must confirm the exact state and complete value write set";;
  admitted ← PersistenceCommit_admit confirmed;
  persistence_fail_if (negb (bool_decide (admitted = baseline)))
    "persistence must confirm the exact state and complete value write set";;
  Ok (gt_candidate_state bound).
End durable.
