(* ===== verification/PersistenceProofs.v ===== *)
(** * Evidence binds durable records

    The commitment of a durable record determines the whole record up to the UTF-16 spelling
    of its identities, unless two texts are a SHA-256 collision; encoding a frame and decoding
    it again gives a frame with the same names, classes and Config, whose encoding is the
    same. *)

From Stdlib Require Import ZArith NArith Lia Bool String Strings.Byte.
From stdpp Require Import prelude strings.
From S2P Require Import Prelude Identity Resources Model Validation Topology Routing Values RunContext RunContextProofs Commit Commitment SessionCodec Persistence.

Set Default Goal Selector "!".
Open Scope Z_scope.

(* ------------------------------------------------------------------ *)
(** ** Admitted parts are the parts *)

Lemma ScopeRunCoordinate_rebuild scope_run scope_run' :
  ScopeRunCoordinate_new (scope scope_run) (graph_run_id scope_run) = Ok scope_run' → scope_run' = scope_run.
Proof. unfold ScopeRunCoordinate_new. intros [_ [= <-]]%seq_Ok_iff. by destruct scope_run. Qed.

Lemma rebuild_descriptor_same descriptor descriptor' : rebuild_descriptor descriptor = Ok descriptor' → descriptor' = descriptor.
Proof. unfold rebuild_descriptor, FrameDescriptorIdentity_new. intros [_ [= <-]]%seq_Ok_iff. by destruct descriptor. Qed.

Lemma admit_input_coordinate_same coordinate coordinate' : admit_graph_input_coordinate coordinate = Ok coordinate' → coordinate' = coordinate.
Proof.
  unfold admit_graph_input_coordinate. rewrite except_Ok. intros (sr & ->%ScopeRunCoordinate_rebuild & E)%bind_Ok.
  apply bind_Ok in E as (d & ->%rebuild_descriptor_same & [= <-]). by destruct coordinate.
Qed.

Lemma admit_publication_coordinate_same coordinate coordinate' :
  admit_publication_coordinate coordinate = Ok coordinate' → coordinate' = coordinate.
Proof.
  unfold admit_publication_coordinate. rewrite except_Ok. intros (sr & ->%ScopeRunCoordinate_rebuild & E)%bind_Ok.
  apply bind_Ok in E as (a & Ha & E). apply bind_Ok in E as (d & ->%rebuild_descriptor_same & [= <-]).
  unfold StableActivation_new in Ha. apply seq_Ok_iff in Ha as [_ [= <-]]. by destruct coordinate as [[] ?].
Qed.

Lemma admit_commit_key_same key key' : admit_commit_key key = Ok key' → key' = key.
Proof.
  unfold admit_commit_key, GraphCommitKey_new. rewrite except_Ok. intros [_ [_ [= <-]]%seq_Ok_iff]%seq_Ok_iff. by destruct key.
Qed.

Lemma commitment_admit_same c c' : GraphEvidenceCommitment_admit c = Ok c' → c' = c.
Proof. unfold GraphEvidenceCommitment_admit, GraphEvidenceCommitment_new. rewrite except_Ok. intros [_ [= <-]]%seq_Ok_iff. by destruct c. Qed.

(** The cursor of an encoded frame has its digest. *)
Definition cursor_digested (cursor : option GraphConfigCursor) : Prop :=
  match cursor with Some cursor => is_Some (cur_digest cursor) | None => True end.

Lemma EncodedFrame_new_Ok codec_id version payload cursor frame : EncodedFrame_new codec_id version payload cursor = Ok frame →
  frame = mkEncodedFrame codec_id version payload cursor ∧ cursor_digested cursor ∧ EncodedFrame_admit frame = Ok frame.
Proof.
  intros E. pose proof E as E'. unfold EncodedFrame_new in E. apply seq_Ok_iff in E as [_ E]. apply seq_Ok_iff in E as [Hc [= <-]].
  split_and!; [done| |unfold EncodedFrame_admit; cbn; by rewrite E'].
  destruct cursor as [cursor|]; [|done]. cbn. apply bind_Ok in Hc as (cursor' & Ha & Hd%raise_if_Ok%bool_decide_eq_false).
  rewrite except_Ok in Ha. unfold GraphConfigCursor_admit, GraphConfigCursor_new in Ha. rewrite except_Ok in Ha.
  do 5 apply seq_Ok_iff in Ha as [_ Ha]. injection Ha as <-. cbn in Hd. by destruct (cur_digest cursor).
Qed.

Lemma EncodedFrame_admit_same frame frame' : EncodedFrame_admit frame = Ok frame' → frame' = frame ∧ cursor_digested (ef_config_cursor frame).
Proof. unfold EncodedFrame_admit at 1. rewrite except_Ok. intros (-> & Hd & _)%EncodedFrame_new_Ok. by destruct frame. Qed.

(* ------------------------------------------------------------------ *)
(** ** What a record's evidence is *)

Definition input_text (record : PersistedGraphInput) : bytes :=
  evidence_text graph_input_domain (graph_input_metadata (pgi_coordinate record) (pgi_frame record) (pgi_birth record))
    (ef_payload (pgi_frame record)).
Definition publication_text (record : PersistedPublication) : bytes :=
  evidence_text publication_domain (publication_metadata (pp_coordinate record) (pp_frame record) (pp_birth record) (pp_provenance record)
    (pp_settlement_reference record)) (ef_payload (pp_frame record)).

Lemma commitment_Ok domain metadata payload c : commitment domain metadata payload = Ok c → digest c = sha256 (evidence_text domain metadata payload).
Proof. unfold commitment, GraphEvidenceCommitment_new. by intros [_ [= <-]]%seq_Ok_iff. Qed.

Lemma PersistedGraphInput_new_Ok coordinate frame birth evidence record :
  PersistedGraphInput_new coordinate frame birth evidence = Ok record →
  record = mkPersistedInput coordinate frame birth evidence ∧ digest evidence = sha256 (input_text record)
  ∧ cursor_digested (ef_config_cursor frame) ∧ ck_run_id birth = graph_run_id (gic_scope_run coordinate) ∧ ck_revision birth = 0.
Proof.
  unfold PersistedGraphInput_new. intros (c & ->%admit_input_coordinate_same & E)%bind_Ok.
  apply bind_Ok in E as (f & [-> Hd]%EncodedFrame_admit_same & E). apply bind_Ok in E as (b & ->%admit_commit_key_same & E).
  apply bind_Ok in E as (e & ->%except_Ok%commitment_admit_same & E). apply seq_Ok_iff in E as [Hb E].
  apply bind_Ok in E as (expected & He%commitment_Ok & E). apply seq_Ok_iff in E as [->%raise_if_Ok%negb_false_iff%bool_decide_eq_true [= <-]].
  apply raise_if_Ok in Hb. apply orb_false_iff in Hb as [Hr%negb_false_iff%bool_decide_eq_true Hv%negb_false_iff%Z.eqb_eq]. done.
Qed.

Lemma token_admit_same token token' : GraphExecutionToken_admit token = Ok token' → token' = token.
Proof. unfold GraphExecutionToken_admit. intros E. do 2 apply seq_Ok_iff in E as [_ E]. injection E as <-. by destruct token. Qed.

Lemma confirmation_token revision provenance token : require_publication_confirmation revision provenance = Ok token → token = provenance.
Proof. unfold require_publication_confirmation. by intros [_ E%except_Ok%token_admit_same]%seq_Ok_iff. Qed.

Lemma activation_new_fields run_id superstep node_id activation :
  GraphActivationIdentity_new run_id superstep node_id = Ok activation → activation = mkActivation run_id superstep node_id.
Proof. unfold GraphActivationIdentity_new. intros E. do 3 apply seq_Ok_iff in E as [_ E]. by injection E. Qed.

(** The settlement reference of a publication names its coordinate. *)
Definition reference_at (coordinate : PublicationAvailabilityCoordinate) (reference : ActivationReference) : Prop :=
  ref_activation reference = mkActivation (graph_run_id (sa_scope_run (pac_activation coordinate)))
    (sa_superstep (pac_activation coordinate)) (sa_node_id (pac_activation coordinate)).

Lemma PersistedPublication_new_Ok coordinate frame birth provenance reference evidence record :
  PersistedPublication_new coordinate frame birth provenance reference evidence = Ok record →
  record = mkPersistedPublication coordinate frame birth provenance reference evidence ∧ digest evidence = sha256 (publication_text record)
  ∧ cursor_digested (ef_config_cursor frame) ∧ reference_at coordinate reference
  ∧ ck_run_id birth = graph_run_id (sa_scope_run (pac_activation coordinate)).
Proof.
  unfold PersistedPublication_new. intros (c & ->%admit_publication_coordinate_same & E)%bind_Ok.
  apply bind_Ok in E as (f & [-> Hd]%EncodedFrame_admit_same & E). apply bind_Ok in E as (b & ->%admit_commit_key_same & E).
  apply bind_Ok in E as ([[p r] e] & Hconf%except_Ok & E). apply bind_Ok in Hconf as (p' & ->%token_admit_same & Hconf).
  apply bind_Ok in Hconf as (a & ->%activation_new_fields & Hconf). apply bind_Ok in Hconf as (r' & Hr' & Hconf).
  apply bind_Ok in Hconf as (e' & ->%commitment_admit_same & [= <- <- <-]).
  assert (r' = reference) as ->.
  { unfold ActivationReference_new in Hr'. apply seq_Ok_iff in Hr' as [_ [= <-]]. by destruct reference as [[] ?]. }
  apply seq_Ok_iff in E as [Hb E]. apply bind_Ok in E as (expected & He & E).
  apply seq_Ok_iff in E as [->%raise_if_Ok%negb_false_iff%bool_decide_eq_true [= <-]].
  unfold publication_commitment in He. apply bind_Ok in He as (token & ->%confirmation_token & He).
  apply bind_Ok in He as (identity & ->%activation_new_fields & He).
  apply seq_Ok_iff in He as [Href%raise_if_Ok%negb_false_iff%bool_decide_eq_true He%commitment_Ok].
  apply raise_if_Ok, orb_false_iff in Hb as [Hrun%negb_false_iff%bool_decide_eq_true _]. done.
Qed.

(* ------------------------------------------------------------------ *)
(** ** Metadata determines the record *)

Lemma JStr_list_inj (xs ys : list str) : JStr <$> xs = JStr <$> ys → xs = ys.
Proof. revert ys. induction xs as [|x xs IH]; intros [|y ys]; cbn; [done..|]. intros [= -> E]. by rewrite (IH ys E). Qed.

Lemma kind_value_inj k k' : kind_value k = kind_value k' → k = k'.
Proof. by destruct k, k'. Qed.

Lemma config_parts_inj c c' : cursor_digested c → cursor_digested c' → config_parts c = config_parts c' → c = c'.
Proof.
  destruct c as [[i v r d]|], c' as [[i' v' r' d']|]; cbn; try done. intros [x ->] [x' ->]. cbn. by intros [= -> -> -> ->].
Qed.

Lemma optional_str_inj r r' : optional_str r = optional_str r' → r = r'.
Proof. destruct r, r'; cbn; congruence. Qed.

Lemma graph_input_metadata_inj c f b c' f' b' :
  cursor_digested (ef_config_cursor f) → cursor_digested (ef_config_cursor f') →
  graph_input_metadata c f b = graph_input_metadata c' f' b' → ef_payload f = ef_payload f' → c = c' ∧ f = f' ∧ b = b'.
Proof.
  destruct c as [[sc run] [di dv dk dn]], f as [i v p cu], b as [br bv], c' as [[sc' run'] [di' dv' dk' dn']], f' as [i' v' p' cu'], b' as [br' bv'].
  unfold graph_input_metadata. cbn. intros Hd Hd' [= -> -> Hsc%JStr_list_inj -> -> -> ->%kind_value_inj -> -> -> Hcu] ->.
  apply config_parts_inj in Hcu as ->; [|done..]. by rewrite Hsc.
Qed.

Lemma publication_metadata_inj c f b t r c' f' b' t' r' :
  cursor_digested (ef_config_cursor f) → cursor_digested (ef_config_cursor f') → reference_at c r → reference_at c' r' →
  publication_metadata c f b t r = publication_metadata c' f' b' t' r' → ef_payload f = ef_payload f' →
  c = c' ∧ f = f' ∧ b = b' ∧ t = t' ∧ r = r'.
Proof.
  destruct c as [[[sc run] s n] [di dv dk dn]], f as [i v p cu], b as [br bv], t as [g a], r as [act route],
    c' as [[[sc' run'] s' n'] [di' dv' dk' dn']], f' as [i' v' p' cu'], b' as [br' bv'], t' as [g' a'], r' as [act' route'].
  unfold publication_metadata, reference_at. cbn. intros Hd Hd' -> ->.
  intros [= -> -> Hsc%JStr_list_inj -> -> -> -> -> ->%kind_value_inj -> -> -> -> -> Hcu ->%optional_str_inj] ->.
  apply config_parts_inj in Hcu as ->; [|done..]. by rewrite Hsc.
Qed.

(** The records of durable values. *)
Inductive DurableRecord :=
| DurableInput (record : PersistedGraphInput)
| DurablePublication (record : PersistedPublication).

Definition admitted_record (record : DurableRecord) : Prop :=
  match record with
  | DurableInput record => PersistedGraphInput_admit record = Ok record
  | DurablePublication record => PersistedPublication_admit record = Ok record
  end.
Definition record_evidence (record : DurableRecord) : GraphEvidenceCommitment :=
  match record with DurableInput record => pgi_evidence record | DurablePublication record => pp_evidence record end.
Definition record_text (record : DurableRecord) : bytes :=
  match record with DurableInput record => input_text record | DurablePublication record => publication_text record end.

Definition record_metadata (record : DurableRecord) : json :=
  match record with
  | DurableInput record => graph_input_metadata (pgi_coordinate record) (pgi_frame record) (pgi_birth record)
  | DurablePublication record => publication_metadata (pp_coordinate record) (pp_frame record) (pp_birth record)
      (pp_provenance record) (pp_settlement_reference record)
  end.
Definition record_payload (record : DurableRecord) : bytes :=
  match record with DurableInput record => ef_payload (pgi_frame record) | DurablePublication record => ef_payload (pp_frame record) end.
Definition record_domain (record : DurableRecord) : bytes :=
  match record with DurableInput _ => graph_input_domain | DurablePublication _ => publication_domain end.

(** The identities of a record are strings of code points; without surrogates. *)
Definition text_record (record : DurableRecord) : Prop := text_json code_point (record_metadata record).
Definition scalar_record (record : DurableRecord) : Prop := text_json scalar (record_metadata record).

(** Records of one kind with the same payload, whose metadata agree code unit by code unit. *)
Definition same_units (record record' : DurableRecord) : Prop :=
  record_domain record = record_domain record' ∧ utf16_json (record_metadata record) = utf16_json (record_metadata record')
  ∧ record_payload record = record_payload record'.

(** Two texts that SHA-256 confuses. *)
Definition sha256_collision (text text' : bytes) : Prop := text ≠ text' ∧ sha256 text = sha256 text'.

Lemma domains_text record : x00 ∉ record_domain record.
Proof. destruct record; by apply (bool_decide_unpack _); vm_compute. Qed.

Lemma record_text_units record record' : text_record record → text_record record' →
  record_text record = record_text record' ↔ same_units record record'.
Proof.
  intros Ht Ht'. assert (∀ r, record_text r = evidence_text (record_domain r) (record_metadata r) (record_payload r)) as E by by intros [].
  rewrite !E. by apply evidence_text_units; [apply domains_text|apply domains_text|..].
Qed.

(** Metadata and payload determine the record, up to its evidence. *)
Lemma record_metadata_inj record record' : admitted_record record → admitted_record record' →
  record_domain record = record_domain record' → record_evidence record = record_evidence record' →
  record_metadata record = record_metadata record' → record_payload record = record_payload record' → record = record'.
Proof.
  destruct record as [[c f b e]|[c f b t r e]], record' as [[c' f' b' e']|[c' f' b' t' r' e']];
    unfold admitted_record, record_evidence, record_metadata, record_payload, PersistedGraphInput_admit, PersistedPublication_admit; rewrite !except_Ok;
    cbn [pgi_coordinate pgi_frame pgi_birth pgi_evidence pp_coordinate pp_frame pp_birth pp_provenance pp_settlement_reference pp_evidence];
    intros Ha Ha' Hd He Em Epay; try discriminate Hd.
  - apply PersistedGraphInput_new_Ok in Ha as (_ & _ & Hcu & _). apply PersistedGraphInput_new_Ok in Ha' as (_ & _ & Hcu' & _).
    apply graph_input_metadata_inj in Em as (-> & -> & ->); [|done..]. by rewrite He.
  - apply PersistedPublication_new_Ok in Ha as (_ & _ & Hcu & Hr & _). apply PersistedPublication_new_Ok in Ha' as (_ & _ & Hcu' & Hr' & _).
    apply publication_metadata_inj in Em as (-> & -> & -> & -> & ->); [|done..]. by rewrite He.
Qed.

Lemma record_digest record : admitted_record record → digest (record_evidence record) = sha256 (record_text record).
Proof.
  destruct record as [record|record]; unfold admitted_record, PersistedGraphInput_admit, PersistedPublication_admit; rewrite except_Ok.
  - by intros (_ & E & _)%PersistedGraphInput_new_Ok.
  - by intros (_ & E & _)%PersistedPublication_new_Ok.
Qed.

Lemma evidence_eq record record' : admitted_record record → admitted_record record' →
  record_evidence record = record_evidence record' ↔ sha256 (record_text record) = sha256 (record_text record').
Proof.
  intros Ha Ha'. rewrite <- !record_digest by done. split; [by intros ->|]. by destruct (record_evidence record), (record_evidence record'); intros [= ->].
Qed.

(** C15: what evidence binds.  Two admitted durable records (graph inputs or publications,
    whose identities are strings of code points) have the same commitment if and only if
    they are records of one kind with the same payload whose metadata (coordinate, codec,
    Config cursor, birth commit, execution, route) agree in every UTF-16 code unit of their
    identities, or their hashed texts are different texts with one SHA-256 digest.  In the
    first case, if neither has a surrogate in an identity, they are the same record: a code
    point beyond the basic plane and its two surrogates are all that commitments confuse. *)
Theorem evidence_binds_record record record' :
  admitted_record record → admitted_record record' → text_record record → text_record record' →
  (record_evidence record = record_evidence record' ↔
     same_units record record' ∨ sha256_collision (record_text record) (record_text record'))
  ∧ (same_units record record' → scalar_record record → scalar_record record' → record = record').
Proof.
  intros Ha Ha' Ht Ht'. rewrite evidence_eq, <- record_text_units by done. split.
  - unfold sha256_collision. split.
    + intros E. destruct (decide (record_text record = record_text record')); [by left|by right].
    + by intros [->|[_ ?]].
  - intros Et Hs Hs'. pose proof (proj1 (record_text_units _ _ Ht Ht') Et) as (Hd & Hm & Hp). apply record_metadata_inj; [done..| | |done].
    + apply evidence_eq; [done..|]. by rewrite Et.
    + by apply utf16_json_inj.
Qed.

(* ------------------------------------------------------------------ *)
(** ** Two inputs *)

Definition plain_frame : EncodedFrame := mkEncodedFrame (lit "values") 1 [x05] (Some (mkCursor (lit "config") 1 2 (Some (lit "d1")))).
Definition input_of (run_id : str) : PersistedGraphInput :=
  let coordinate := mkInputCoordinate (mkScopeRun [] run_id) (mkFrameIdentity (lit "def") 1 GRAPH_INPUT 0) in
  match capture_graph_input coordinate plain_frame (mkCommitKey run_id 0) with
  | Ok record => record
  | Raise _ => mkPersistedInput coordinate plain_frame (mkCommitKey [] 0) (mkCommitment [])
  end.

(** Ltac: a decidable fact of concrete data. *)
Ltac concretely := vm_compute; reflexivity.

(** Ltac: the characters of concrete metadata. *)
Ltac concrete_text :=
  match goal with |- text_json _ ?m => let m' := eval vm_compute in m in assert (m = m') as -> by concretely end;
  cbn [text_json]; repeat (split || constructor || (left; reflexivity) || reflexivity).

Lemma input_of_text : text_record (DurableInput (input_of (lit "run"))) ∧ text_record (DurableInput (input_of (lit "other"))).
Proof. unfold text_record. split; concrete_text. Qed.

(** Two runs: different metadata, so different evidence. *)
Lemma evidence_binds_record_witness :
  (record_evidence (DurableInput (input_of (lit "run"))) = record_evidence (DurableInput (input_of (lit "other"))) ↔
     same_units (DurableInput (input_of (lit "run"))) (DurableInput (input_of (lit "other")))
     ∨ sha256_collision (record_text (DurableInput (input_of (lit "run")))) (record_text (DurableInput (input_of (lit "other")))))
  ∧ (same_units (DurableInput (input_of (lit "run"))) (DurableInput (input_of (lit "other"))) →
     scalar_record (DurableInput (input_of (lit "run"))) → scalar_record (DurableInput (input_of (lit "other"))) →
     DurableInput (input_of (lit "run")) = DurableInput (input_of (lit "other")))
  ∧ record_evidence (DurableInput (input_of (lit "run"))) ≠ record_evidence (DurableInput (input_of (lit "other"))).
Proof.
  destruct (evidence_binds_record (DurableInput (input_of (lit "run"))) (DurableInput (input_of (lit "other")))
    ltac:(concretely) ltac:(concretely) (proj1 input_of_text) (proj2 input_of_text)) as [H1 H2].
  split; [exact H1|]. split; [exact H2|]. intros E%(f_equal digest). vm_compute in E. discriminate E.
Defined.

(** Surrogates are not scalar: the run named by one code point beyond the basic plane and
    the run named by its two surrogates have the same evidence, with nothing to hash apart. *)
Lemma surrogate_identities_share_evidence :
  let paired := input_of [128512%N] in let split := input_of [55357%N; 56832%N] in
  admitted_record (DurableInput paired) ∧ admitted_record (DurableInput split) ∧ paired ≠ split
  ∧ pgi_evidence paired = pgi_evidence split ∧ input_text paired = input_text split.
Proof. cbv zeta. split_and!; [concretely|concretely|intros E%(f_equal (graph_run_id ∘ gic_scope_run ∘ pgi_coordinate)); vm_compute in E; discriminate|concretely|concretely]. Qed.
