(* ===== verification/Invocation.v ===== *)
(** * Recovery invocations

    [execution/invocation.py]: the states of a graph family as one lineage, the fences and
    resumes a new invocation plans on it, and the validation of a frame index against it. *)

From Stdlib Require Import ZArith NArith Lia Bool String.
From stdpp Require Import prelude strings gmap sorting.
From S2P Require Import Prelude Identity Resources Model Validation Transitions Reducer Topology Routing Engine Values RunContext Materialization ResumeAdmission.

Set Default Goal Selector "!".
Open Scope Z_scope.

Definition lineage_fail_if (b : bool) (m : string) : result unit := raise_if b SnapshotMismatchError m.

(* ------------------------------------------------------------------ *)
(** ** Lineages *)

#[export] Instance state_binding_eq_dec : EqDecision ScopedStateBinding.
Proof. solve_decision. Defined.
#[export] Instance scope_run_cmp : Cmp ScopeRunCoordinate := cmp_by scope_run_key.

(** [ScopedRunEvidence]: a state, or the proof that a run was never created. *)
Inductive ScopedRunEvidence :=
| StateEvidence (binding : ScopedStateBinding)
| UncreatedEvidence (scope_run : ScopeRunCoordinate).
#[export] Instance run_evidence_eq_dec : EqDecision ScopedRunEvidence.
Proof. solve_decision. Defined.

Definition evidence_scope_run (evidence : ScopedRunEvidence) : ScopeRunCoordinate :=
  match evidence with StateEvidence binding => ssb_scope_run binding | UncreatedEvidence scope_run => scope_run end.
Definition evidence_bindings (evidence : list ScopedRunEvidence) : list ScopedStateBinding :=
  omap (λ item, match item with StateEvidence binding => Some binding | UncreatedEvidence _ => None end) evidence.
Definition evidence_uncreated (evidence : list ScopedRunEvidence) : list ScopeRunCoordinate :=
  omap (λ item, match item with StateEvidence _ => None | UncreatedEvidence scope_run => Some scope_run end) evidence.

(** [_PlannedLineage] *)
Record PlannedLineage := mkLineage { pl_bindings : list ScopedStateBinding; pl_uncreated : list ScopeRunCoordinate }.

(** [_PlannedLineage._position] *)
Definition lineage_position (lineage : PlannedLineage) (coordinate : ScopeRunCoordinate) : result nat :=
  position ← bisect_left (ssb_scope_run <$> pl_bindings lineage) coordinate;
  match pl_bindings lineage !! position with
  | Some binding => lineage_fail_if (negb (bool_decide (ssb_scope_run binding = coordinate))) "lineage does not contain one state";; Ok position
  | None => Raise (Exn SnapshotMismatchError "lineage does not contain one state")
  end.

(** [_PlannedLineage.binding_at] and [_PlannedLineage.replace] *)
Definition binding_at (lineage : PlannedLineage) (coordinate : ScopeRunCoordinate) : result ScopedStateBinding :=
  position ← lineage_position lineage coordinate; list_get (pl_bindings lineage) position.
Definition lineage_replace (lineage : PlannedLineage) (replacement : ScopedStateBinding) : result PlannedLineage :=
  position ← lineage_position lineage (ssb_scope_run replacement);
  Ok (mkLineage (take position (pl_bindings lineage) ++ replacement :: drop (position + 1) (pl_bindings lineage)) (pl_uncreated lineage)).

(** [is_current_child_activation] *)
Definition is_current_child_activation (parent_state : GraphRunState) (activation : StableActivation) : bool :=
  bool_decide (st_status parent_state = RUNNING) && (sa_superstep activation =? st_superstep parent_state)
  && mem (sa_node_id activation) (pending_node_ids (st_frontier parent_state)).

(** [lineage_states] *)
Definition check_child_run (evidence : ScopedRunEvidence) : result unit :=
  let scope_run := evidence_scope_run evidence in
  _ ← ScopeRunCoordinate_new (scope scope_run) (graph_run_id scope_run);
  lineage_fail_if (is_nil (scope scope_run)) "child state binding requires a nested scope";;
  match evidence with StateEvidence binding => _ ← parent_activation binding; Ok tt | UncreatedEvidence _ => Ok tt end.
Definition lineage_states (root_state : GraphRunState) (child_runs : list ScopedRunEvidence) : result PlannedLineage :=
  lineage_fail_if (negb (bool_decide (child_runs = sorted_key (scope_run_key ∘ evidence_scope_run) child_runs)))
    "continuation child bindings are not in canonical scoped order";;
  lineage_fail_if (negb (no_repeats (evidence_scope_run <$> child_runs))) "lineage repeats one scoped graph run";;
  py_for child_runs check_child_run;;
  root ← root_scope_run (st_run_id root_state);
  let values := mkStateBinding root root_state :: evidence_bindings child_runs in
  Ok (mkLineage (sorted_key (scope_run_key ∘ ssb_scope_run) values) (evidence_uncreated child_runs)).

(* ------------------------------------------------------------------ *)
(** ** Fences *)

(** [PlannedFence] *)
Record PlannedFence := mkPlannedFence { pf_scope_run : ScopeRunCoordinate; pf_command : FenceGraphExecution }.

Section fences.
Context {V : Type}.
Implicit Types (graph : CompiledGraph V) (lineage : PlannedLineage).

(** A child belongs to a frontier of its parent, the current one when it runs. *)
Definition check_child_lineage lineage (binding : ScopedStateBinding) : result unit :=
  activation ← parent_activation binding;
  match activation with
  | None => Ok tt
  | Some activation =>
      parent ← binding_at lineage (sa_scope_run activation);
      lineage_fail_if (st_superstep (ssb_state parent) <? sa_superstep activation)
        "child lineage binding is from a future parent frontier";;
      lineage_fail_if (bool_decide (st_status (ssb_state binding) = RUNNING)
                       && negb (is_current_child_activation (ssb_state parent) activation))
        "running child lineage is not one current parent activation"
  end.

(** One binding of [plan_fences]. *)
Definition plan_fence graph lineage (planned : PlannedLineage * list PlannedFence) (binding : ScopedStateBinding)
    : result (PlannedLineage * list PlannedFence) :=
  let state := ssb_state binding in
  scoped_graph ← compiled_graph_at_scope graph (scope (ssb_scope_run binding));
  require_scoped_snapshot_matches_graph scoped_graph state (ssb_scope_run binding);;
  check_child_lineage lineage binding;;
  match st_execution state with
  | None => Ok planned
  | Some execution =>
      let command := mkFence (st_revision state) (lease_token execution) in
      candidate ← reduce_graph_run (Some state) (CmdFence command);
      replaced ← lineage_replace planned.1 (mkStateBinding (ssb_scope_run binding) candidate);
      Ok (replaced, planned.2 ++ [mkPlannedFence (ssb_scope_run binding) command])
  end.

(** [plan_fences] *)
Definition plan_fences graph lineage : result (PlannedLineage * list PlannedFence) :=
  py_for_state (pl_bindings lineage) (lineage, []) (plan_fence graph lineage).

(* ------------------------------------------------------------------ *)
(** ** Scopes *)

(** One segment of [_resolve_scope_run]: the nested activation that is current there. *)
Definition resolve_segment lineage (position : ScopeRunCoordinate * CompiledGraph V) (segment : str)
    : result (ScopeRunCoordinate * CompiledGraph V) :=
  let '(coordinate, scoped_graph) := position in
  binding ← binding_at lineage coordinate;
  let state := ssb_state binding in
  match map_get (nested_graphs scoped_graph) segment, frontier_node (st_frontier state) segment with
  | Ok nested, Some (mkFrontierNode _ (PendingGraphNode _) _) =>
      parent ← GraphActivationIdentity_new (st_run_id state) (st_superstep state) segment;
      coordinate ← child_scope_run_for_activation coordinate parent;
      _ ← binding_at lineage coordinate;
      Ok (coordinate, nested)
  | _, _ => Raise (Exn SnapshotMismatchError "resume scope segment is not one current nested activation")
  end.

(** [_resolve_scope_run] *)
Definition resolve_scope_run graph lineage (segments : list str) : result ScopeRunCoordinate :=
  root ← list_get (pl_bindings lineage) 0;
  '(coordinate, _) ← py_for_state segments (ssb_scope_run root, graph) (resolve_segment lineage);
  Ok coordinate.
End fences.

(* ------------------------------------------------------------------ *)
(** ** Resumes *)

(** [PlannedResume] *)
Record PlannedResume (A C S : Type) := mkPlannedResume {
  pln_scope_run : ScopeRunCoordinate;
  pln_successor : GraphRunState;
  pln_prepared : PreparedResume A C S
}.
Arguments mkPlannedResume {_ _ _}.
Arguments pln_scope_run {_ _ _}.
Arguments pln_successor {_ _ _}.
Arguments pln_prepared {_ _ _}.

(** [AdmittedResumeFact] and [RecoveryInvocationSeed] *)
Record AdmittedResumeFact := mkResumeFact { rf_target : StableActivation; rf_interrupt_id : str }.
Record RecoveryInvocationSeed (A C S : Type) := mkSeed {
  sd_root : ScopedStateBinding;
  sd_children : list ScopedRunEvidence;
  sd_frames : ScopedFrameIndex A C S;
  sd_limits : ExecutionLimits;
  sd_admitted_actions : list AdmittedResumeFact
}.
Arguments mkSeed {_ _ _}.
Arguments sd_root {_ _ _}.
Arguments sd_children {_ _ _}.
Arguments sd_frames {_ _ _}.
Arguments sd_limits {_ _ _}.
Arguments sd_admitted_actions {_ _ _}.

Section resumes.
Context {A V W C S : Type} `{ValueTypes A V W} `{Configs C} `{EqDecision S}.
Context (codec : CodecFunctions (A := A) (C := C) (S := S)).
Implicit Types (graph : CompiledGraph V) (lineage : PlannedLineage) (frames : ScopedFrameIndex A C S).
Notation Request := (ResumeInterruptedNodeRequest A C S).

(** [project_resume_frames] *)
Definition project_resume_frames frames (planned : PlannedResume A C S) : result (ScopedFrameIndex A C S) :=
  except (one_of [GraphValuePublicationError]) FrameInstallationInvariantError "admitted resume frames failed owner-local projection"
    (py_for_state (pr_inputs (pln_prepared planned)) frames add_resume_input).

(** [itertools.groupby] of the actions by scope. *)
Fixpoint group_by_scope (actions : list Request) : list (list str * list Request) :=
  match actions with
  | [] => []
  | action :: rest =>
      match group_by_scope rest with
      | (sc, group) :: groups =>
          if bool_decide (sc = rn_scope action) then (sc, action :: group) :: groups
          else (rn_scope action, [action]) :: (sc, group) :: groups
      | [] => [(rn_scope action, [action])]
      end
  end.

Record ResumePlan := mkResumePlan {
  rp_lineage : PlannedLineage;
  rp_frames : ScopedFrameIndex A C S;
  rp_plans : list (PlannedResume A C S);
  rp_facts : list AdmittedResumeFact
}.

(** The actions of one scope. *)
Definition plan_scope_resume graph (session : option (AgentSession C S)) (plan : ResumePlan) (group : list str * list Request)
    : result ResumePlan :=
  let '(sc, actions) := group in
  scope_run ← resolve_scope_run graph (rp_lineage plan) sc;
  binding ← binding_at (rp_lineage plan) scope_run;
  scoped_graph ← compiled_graph_at_scope graph (scope scope_run);
  let state := ssb_state binding in
  prepared ← prepare_resume codec scoped_graph (mkResumeRequest state scope_run (rp_frames plan) actions session);
  candidate ← reduce_graph_run (Some state) (CmdResume (pr_command prepared));
  facts ← mapM (λ action,
    identity ← GraphActivationIdentity_new (st_run_id state) (st_superstep state) (rn_node_id action);
    target ← stable_activation scope_run identity;
    Ok (mkResumeFact target (rn_interrupt_id action))) actions;
  frames ← py_for_state (pr_inputs prepared) (rp_frames plan) add_resume_input;
  lineage ← lineage_replace (rp_lineage plan) (mkStateBinding (ssb_scope_run binding) candidate);
  Ok (mkResumePlan lineage frames (rp_plans plan ++ [mkPlannedResume scope_run candidate prepared]) (rp_facts plan ++ facts)).

(** [plan_resumes]; a stable sort that keeps the keys in place keeps the actions in place. *)
Definition plan_resumes graph lineage frames (resume : list Request) (session : option (AgentSession C S)) : result ResumePlan :=
  match resume with
  | [] => Ok (mkResumePlan lineage frames [] [])
  | _ =>
      let key action := (rn_scope action, rn_node_id action) in
      lineage_fail_if (negb (bool_decide (key <$> sorted_key key resume = key <$> resume)))
        "resume actions must be supplied in canonical scope/node order";;
      lineage_fail_if (negb (no_repeats (key <$> resume))) "resume action nodes are duplicated";;
      py_for_state (group_by_scope resume) (mkResumePlan lineage frames [] []) (plan_scope_resume graph session)
  end.

(** [recovery_seed] *)
Definition recovery_seed lineage frames (limits : ExecutionLimits) (facts : list AdmittedResumeFact)
    : result (RecoveryInvocationSeed A C S) :=
  root ← list_get (pl_bindings lineage) 0;
  let children := (StateEvidence <$> List.filter (λ binding, negb (is_nil (scope (ssb_scope_run binding)))) (pl_bindings lineage))
                  ++ (UncreatedEvidence <$> pl_uncreated lineage) in
  Ok (mkSeed root (sorted_key (scope_run_key ∘ evidence_scope_run) children) frames limits facts).

(** [admit_state_owned_overrides] *)
Definition admit_state_owned_overrides graph lineage frames (session : option (AgentSession C S)) : result unit :=
  py_for (pl_bindings lineage) (λ binding,
    let state := ssb_state binding in
    if bool_decide (st_status state = RUNNING) then
      scoped_graph ← compiled_graph_at_scope graph (scope (ssb_scope_run binding));
      py_for (frontier_nodes (st_frontier state)) (λ node,
        match fn_settlement node with
        | PendingGraphNode (OverrideGraphNodeInput _) =>
            _ ← materialize_node_input codec scoped_graph state (ssb_scope_run binding) frames (fn_node_id node) session; Ok tt
        | _ => Ok tt
        end)
    else Ok tt).
End resumes.

(* ------------------------------------------------------------------ *)
(** ** Validation of a frame index *)

Section validation.
Context {A V W C S : Type} `{ValueTypes A V W} `{Configs C} `{EqDecision S}.
Implicit Types (graph : CompiledGraph V) (lineage : PlannedLineage) (frames : ScopedFrameIndex A C S).

(** [_validate_frame_config]: [ConfigContractError] is a [ValueError]. *)
Definition validate_frame_config (state : GraphRunState) (config : option C) : result unit :=
  match config with
  | None => Ok tt
  | Some config =>
      except is_admission_error SnapshotMismatchError "frame Config must be exact history of its authoritative state" (
        cursor ← config_cursor state;
        raise_if (negb (config_ok config)) ConfigContractError "resolved config is malformed";;
        admit_history cursor (config_cursor_of config))
  end.

Definition admitted_by {X} (message : string) (body : result X) : result unit :=
  _ ← except (one_of [GraphValueAdmissionError]) SnapshotMismatchError message body; Ok tt.

(** [_validate_graph_input_records], for one record; and so on for the other kinds. *)
Definition validate_graph_input_record graph lineage (record : AdmittedGraphInput A C) : result unit :=
  let coordinate := agi_coordinate record in
  binding ← binding_at lineage (gic_scope_run coordinate);
  scoped_graph ← compiled_graph_at_scope graph (scope (gic_scope_run coordinate));
  lineage_fail_if (negb (bool_decide (gic_descriptor coordinate = fd_identity (graph_input_descriptor scoped_graph))))
    "continuation graph input descriptor does not match its scope";;
  admitted_by "continuation graph input frame does not match its descriptor"
    (admit_frame (agi_frame record) (fd_declarations (graph_input_descriptor scoped_graph)));;
  validate_frame_config (ssb_state binding) (fr_activation_config (agi_frame record)).

Definition validate_publication_record graph lineage (record : ConfirmedPublication A C) : result unit :=
  let coordinate := cp_coordinate record in
  let activation := pac_activation coordinate in
  binding ← binding_at lineage (sa_scope_run activation);
  scoped_graph ← compiled_graph_at_scope graph (scope (sa_scope_run activation));
  match map_get (publications (transition scoped_graph)) (sa_node_id activation) with
  | Raise _ => Raise (Exn SnapshotMismatchError "continuation publication has inconsistent coordinates")
  | Ok publication =>
      lineage_fail_if (negb (bool_decide (pac_descriptor coordinate = fd_identity publication))
                       || (st_superstep (ssb_state binding) <? sa_superstep activation))
        "continuation publication has inconsistent coordinates";;
      token ← require_publication_confirmation (cp_acknowledged_revision record) (cp_provenance record);
      match List.filter (λ item, bool_decide (act_run_id (ref_activation (pub_reference item)) = graph_run_id (sa_scope_run activation))
                                 && (act_superstep (ref_activation (pub_reference item)) =? sa_superstep activation)
                                 && bool_decide (act_node_id (ref_activation (pub_reference item)) = sa_node_id activation))
              (st_settled_publications (ssb_state binding)) with
      | [item] =>
          lineage_fail_if (negb (pub_commit_revision item =? cp_acknowledged_revision record))
            "continuation publication does not match its settlement commit";;
          lineage_fail_if (negb (bool_decide (pub_execution item = token)))
            "continuation publication does not match its settlement execution"
      | _ => Raise (Exn SnapshotMismatchError "continuation publication does not match its settlement commit")
      end;;
      admitted_by "continuation publication frame does not match its descriptor"
        (admit_frame (cp_frame record) (fd_declarations publication));;
      validate_frame_config (ssb_state binding) (fr_activation_config (cp_frame record))
  end.

Definition validate_resume_input_record graph lineage (record : AdmittedResumeInput A C S) : result unit :=
  let coordinate := ari_coordinate record in
  let activation := ric_activation coordinate in
  binding ← binding_at lineage (sa_scope_run activation);
  scoped_graph ← compiled_graph_at_scope graph (scope (sa_scope_run activation));
  match map_get (materializations (transition scoped_graph)) (sa_node_id activation) with
  | Raise _ => Raise (Exn SnapshotMismatchError "continuation resume input has inconsistent coordinates")
  | Ok materialization =>
      lineage_fail_if (negb (bool_decide (ric_descriptor coordinate = fd_identity (mp_descriptor materialization)))
                       || (st_superstep (ssb_state binding) <? sa_superstep activation))
        "continuation resume input has inconsistent coordinates";;
      admitted_by "continuation resume input frame does not match its descriptor"
        (admit_node_input_frame (ari_frame record) (fd_declarations (mp_descriptor materialization)))
  end.

Definition validate_child_boundary_record graph lineage (record : ConfirmedChildBoundary A C) : result unit :=
  let coordinate := ccb_coordinate record in
  binding ← binding_at lineage (cbc_child_scope_run coordinate);
  scoped_graph ← compiled_graph_at_scope graph (scope (cbc_child_scope_run coordinate));
  lineage_fail_if (negb (bool_decide (cbc_descriptor coordinate = fd_identity (graph_output_descriptor scoped_graph)))
                   || negb (bool_decide (st_status (ssb_state binding) = COMPLETED)))
    "continuation child boundary has inconsistent coordinates";;
  admitted_by "continuation child boundary frame does not match its descriptor"
    (admit_frame (ccb_frame record) (fd_declarations (graph_output_descriptor scoped_graph))).

(** [any(previous >= current for previous, current in pairwise(coordinates))] *)
Fixpoint out_of_order {K} `{Cmp K} (coordinates : list K) : bool :=
  match coordinates with
  | previous :: (current :: _) as rest => negb (cmp_ltb previous current) || out_of_order rest
  | _ => false
  end.

(** [_validate_frame_index] *)
Definition validate_frame_index graph lineage frames : result unit :=
  lineage_fail_if (out_of_order (agi_coordinate <$> ix_graph_inputs frames))
    "continuation graph input coordinates are not unique and canonical";;
  lineage_fail_if (out_of_order (cp_coordinate <$> ix_publications frames))
    "continuation publication coordinates are not unique and canonical";;
  lineage_fail_if (out_of_order (ari_coordinate <$> ix_resume_inputs frames))
    "continuation resume input coordinates are not unique and canonical";;
  lineage_fail_if (out_of_order (ccb_coordinate <$> ix_child_boundaries frames))
    "continuation child boundary coordinates are not unique and canonical";;
  py_for (ix_graph_inputs frames) (validate_graph_input_record graph lineage);;
  py_for (ix_publications frames) (validate_publication_record graph lineage);;
  py_for (ix_resume_inputs frames) (validate_resume_input_record graph lineage);;
  py_for (ix_child_boundaries frames) (validate_child_boundary_record graph lineage).

(** The children one binding requires, and those that may not have been created. *)
Definition child_reads_of graph (reads : list ScopeRunCoordinate * list ScopeRunCoordinate) (binding : ScopedStateBinding)
    : result (list ScopeRunCoordinate * list ScopeRunCoordinate) :=
  scoped_graph ← compiled_graph_at_scope graph (scope (ssb_scope_run binding));
  let state := ssb_state binding in
  reads ← py_for_state (st_settled_publications state) reads (λ '(required, allowed) settlement,
    let activation := ref_activation (pub_reference settlement) in
    if map_has (nested_graphs scoped_graph) (act_node_id activation) then
      coordinate ← child_scope_run_for_activation (ssb_scope_run binding) activation; Ok (required ++ [coordinate], allowed)
    else Ok (required, allowed));
  py_for_state (frontier_nodes (st_frontier state)) reads (λ '(required, allowed) node,
    if map_has (nested_graphs scoped_graph) (fn_node_id node) then
      parent ← GraphActivationIdentity_new (st_run_id state) (st_superstep state) (fn_node_id node);
      coordinate ← child_scope_run_for_activation (ssb_scope_run binding) parent;
      Ok (required ++ [coordinate], if is_pending (fn_settlement node) then allowed ++ [coordinate] else allowed)
    else Ok (required, allowed)).

(** [child_run_reads] *)
Definition child_run_reads graph lineage (complete : bool) : result (list ScopeRunCoordinate) :=
  '(required, uncreated_allowed) ← py_for_state (pl_bindings lineage) ([], []) (child_reads_of graph);
  let existing := List.filter (λ scope_run, negb (is_nil (scope scope_run))) (ssb_scope_run <$> pl_bindings lineage) in
  let uncreated := pl_uncreated lineage in
  lineage_fail_if (negb (subset_of uncreated uncreated_allowed) || existsb (λ scope_run, mem scope_run uncreated) existing
                   || negb (subset_of existing required))
    "child run evidence does not match an authoritative parent activation";;
  let missing := List.filter (λ scope_run, negb (mem scope_run existing) && negb (mem scope_run uncreated)) required in
  lineage_fail_if (negb (subset_of missing uncreated_allowed)) "settled child activations require their durable snapshots";;
  lineage_fail_if (complete && negb (is_nil missing)) "complete evidence requires each child snapshot or explicit uncreated proof";;
  Ok (sorted_set missing).

(** What one binding of a complete context needs. *)
Definition validate_complete_binding graph frames (binding : ScopedStateBinding) : result unit :=
  scoped_graph ← compiled_graph_at_scope graph (scope (ssb_scope_run binding));
  let state := ssb_state binding in
  py_for (frontier_nodes (st_frontier state)) (λ node,
    if is_pending (fn_settlement node) && negb (map_has (nested_graphs scoped_graph) (fn_node_id node)) then
      available ← pending_node_input_available scoped_graph state (ssb_scope_run binding) frames (fn_node_id node);
      lineage_fail_if (negb available) "complete continuation is missing a current node input source"
    else Ok tt);;
  (if bool_decide (st_status state = COMPLETED) then
     available ← graph_outputs_available scoped_graph (ssb_scope_run binding) (st_superstep state) frames;
     lineage_fail_if (negb available) "complete continuation is missing a completed graph output"
   else Ok tt);;
  lineage_fail_if (negb (is_nil (scope (ssb_scope_run binding))) && bool_decide (st_status state = COMPLETED)
                   && negb (has_child_boundary frames (mkBoundaryCoordinate (ssb_scope_run binding) (fd_identity (graph_output_descriptor scoped_graph)))))
    "complete continuation is missing a completed child boundary".

(** [_validate_complete_context] *)
Definition validate_complete_context graph lineage frames : result unit :=
  lineage_fail_if (negb (same_set (gic_scope_run ∘ agi_coordinate <$> ix_graph_inputs frames) (ssb_scope_run <$> pl_bindings lineage)))
    "complete continuation must retain every scoped graph input";;
  expected ← mapM (λ binding, mapM (λ settlement, stable_activation (ssb_scope_run binding) (ref_activation (pub_reference settlement)))
                     (st_settled_publications (ssb_state binding))) (pl_bindings lineage);
  lineage_fail_if (negb (same_set (concat expected) (pac_activation ∘ cp_coordinate <$> ix_publications frames)))
    "complete publications must exactly match the committed settlement ledger";;
  py_for (pl_bindings lineage) (validate_complete_binding graph frames).

(** [validate_context] *)
Definition validate_context graph lineage frames (recovered : bool) : result unit :=
  _ ← child_run_reads graph lineage (negb recovered);
  validate_frame_index graph lineage frames;;
  (if recovered then Ok tt else validate_complete_context graph lineage frames).
End validation.
