(* ===== verification/Checkpoint.v ===== *)
(** * Checkpoints and cold recovery

    [execution/persistence.py] from [GraphCheckpoint] on: one consistent read of durable
    facts, the capability to recover with it, and [restore_checkpoint], which makes a frame
    index of it again. *)

From Stdlib Require Import ZArith NArith Lia Bool String.
From stdpp Require Import prelude strings gmap sorting.
From S2P Require Import Prelude Identity Resources Model Validation Topology GraphDefinition Routing Engine Values RunContext Materialization Commit SessionCodec Persistence Invocation.

Set Default Goal Selector "!".
Open Scope Z_scope.

(* ------------------------------------------------------------------ *)
(** ** [GraphCheckpoint] *)

Record GraphCheckpoint := mkCheckpoint {
  gc_root_state : GraphRunState;
  gc_child_runs : list ScopedRunEvidence;
  gc_graph_inputs : list PersistedGraphInput;
  gc_publications : list PersistedPublication;
  gc_agent_session : option EncodedAgentSession
}.
#[export] Instance checkpoint_eq_dec : EqDecision GraphCheckpoint.
Proof. solve_decision. Defined.

(** The order of [GraphConfigCursor]; the cursors that are sorted have a digest. *)
Definition cursor_key (cursor : GraphConfigCursor) : str * (Z * (Z * str)) :=
  (cur_definition_id cursor, (cur_definition_version cursor, (cur_revision cursor, default [] (cur_digest cursor)))).

(** [except (AttributeError, GraphStateTransitionError, SnapshotMismatchError, TypeError, ValueError)] *)
Definition is_child_error (k : exn_class) : bool := match k with SnapshotMismatchError => true | _ => is_admission_error k end.

(** One child of a checkpoint, rebuilt. *)
Definition admit_child_run (evidence : ScopedRunEvidence) : result ScopedRunEvidence :=
  except is_child_error SnapshotMismatchError "checkpoint child states must be typed immutable bindings" (
    match evidence with
    | StateEvidence child =>
        scope_run ← ScopeRunCoordinate_new (scope (ssb_scope_run child)) (graph_run_id (ssb_scope_run child));
        validate_graph_run_state (ssb_state child);;
        let admitted := mkStateBinding scope_run (ssb_state child) in
        _ ← parent_activation admitted;
        Ok (StateEvidence admitted)
    | UncreatedEvidence child =>
        scope_run ← ScopeRunCoordinate_new (scope child) (graph_run_id child);
        admitted ← UncreatedGraphRun_new scope_run;
        Ok (UncreatedEvidence admitted)
    end).

(** The Session of a checkpoint belongs to a state of the family. *)
Definition check_family_session (root_state : GraphRunState) (child_runs : list ScopedRunEvidence) (session : EncodedAgentSession)
    : result unit :=
  session ← except is_admission_error SnapshotMismatchError "checkpoint AgentSession is malformed" (EncodedAgentSession_admit session);
  cursors ← mapM config_cursor (root_state :: (ssb_state <$> evidence_bindings child_runs));
  persistence_fail_if (match es_config_cursor session with Some cursor => negb (mem cursor cursors) | None => false end)
    "checkpoint AgentSession Config is not bound to the graph family".

(** [GraphCheckpoint.__post_init__] *)
Definition GraphCheckpoint_new (root_state : GraphRunState) (child_runs : list ScopedRunEvidence)
    (graph_inputs : list PersistedGraphInput) (publications : list PersistedPublication) (agent_session : option EncodedAgentSession)
    : result GraphCheckpoint :=
  except is_admission_error SnapshotMismatchError "checkpoint requires an authoritative root state" (validate_graph_run_state root_state);;
  admitted_children ← mapM admit_child_run child_runs;
  persistence_fail_if (negb (bool_decide (admitted_children = sorted_key (scope_run_key ∘ evidence_scope_run) admitted_children)))
    "checkpoint child evidence must be canonical and distinct";;
  persistence_fail_if (negb (no_repeats (evidence_scope_run <$> admitted_children))) "checkpoint child evidence repeats one scoped run";;
  match agent_session with None => Ok tt | Some session => check_family_session root_state child_runs session end;;
  inputs ← mapM PersistedGraphInput_admit graph_inputs;
  published ← mapM PersistedPublication_admit publications;
  persistence_fail_if (negb (bool_decide (inputs = sorted_key pgi_coordinate inputs)))
    "checkpoint graph inputs must be canonical and distinct";;
  persistence_fail_if (negb (bool_decide (published = sorted_key pp_coordinate published)))
    "checkpoint publications must be canonical and distinct";;
  persistence_fail_if (negb (no_repeats (pgi_coordinate <$> inputs))) "checkpoint repeats one graph input coordinate";;
  persistence_fail_if (negb (no_repeats (pp_coordinate <$> published))) "checkpoint repeats one publication coordinate";;
  Ok (mkCheckpoint root_state child_runs graph_inputs publications agent_session).
Definition GraphCheckpoint_admit (checkpoint : GraphCheckpoint) : result GraphCheckpoint :=
  except is_admission_error SnapshotMismatchError "checkpoint is malformed"
    (GraphCheckpoint_new (gc_root_state checkpoint) (gc_child_runs checkpoint) (gc_graph_inputs checkpoint)
       (gc_publications checkpoint) (gc_agent_session checkpoint)).

(** [GraphCheckpoint.config_cursors] *)
Definition config_cursors (checkpoint : GraphCheckpoint) : result (list GraphConfigCursor) :=
  let states := gc_root_state checkpoint :: (ssb_state <$> evidence_bindings (gc_child_runs checkpoint)) in
  except (one_of [GraphStateTransitionError]) SnapshotMismatchError "checkpoint contains a malformed authoritative state"
    (py_for states validate_graph_run_state);;
  owned ← mapM config_cursor (List.filter (λ state, bool_decide (is_Some (st_config_digest state))) states);
  let framed := omap ef_config_cursor ((pgi_frame <$> gc_graph_inputs checkpoint) ++ (pp_frame <$> gc_publications checkpoint)) in
  let carried := match gc_agent_session checkpoint with Some session => option_list (es_config_cursor session) | None => [] end in
  Ok (sorted_set_key cursor_key (owned ++ framed ++ carried)).

(** [GraphCheckpoint.admit_child_reads] *)
Definition state_evidence (checkpoint : GraphCheckpoint) : list ScopedRunEvidence :=
  StateEvidence <$> evidence_bindings (gc_child_runs checkpoint).
Definition admit_child_reads (self loaded : GraphCheckpoint) (children : list ScopeRunCoordinate) : result GraphCheckpoint :=
  current ← GraphCheckpoint_admit self;
  loaded ← GraphCheckpoint_admit loaded;
  previous_family ← GraphCheckpoint_new (gc_root_state current) (state_evidence current) (gc_graph_inputs current)
                      (gc_publications current) (gc_agent_session current);
  loaded_family ← GraphCheckpoint_new (gc_root_state loaded) (state_evidence loaded) (gc_graph_inputs loaded)
                    (gc_publications loaded) (gc_agent_session loaded);
  persistence_fail_if (negb (bool_decide (previous_family = loaded_family)))
    "family facts changed during an authority-constrained child reread";;
  let expected := remove_dups (evidence_uncreated (gc_child_runs current) ++ children) in
  let actual := evidence_uncreated (gc_child_runs loaded) in
  persistence_fail_if (negb (length actual =? length expected)%nat || negb (same_set actual expected))
    "child reread must prove exactly the requested negative reads";;
  Ok loaded.

(* ------------------------------------------------------------------ *)
(** ** [GraphRecovery] *)

Record GraphRecovery (A C S : Type) := mkRecovery {
  gr_checkpoint : GraphCheckpoint;
  gr_commit : DurableGraphCommit A C S;
  gr_configs : list C;
  gr_session : option (AgentSession C S)
}.
Arguments mkRecovery {_ _ _}.
Arguments gr_checkpoint {_ _ _}.
Arguments gr_commit {_ _ _}.
Arguments gr_configs {_ _ _}.
Arguments gr_session {_ _ _}.

Section recovery.
Context {A V W C S : Type} `{EqDecision A} `{ValueTypes A V W} `{Configs C} `{EqDecision S}.
Implicit Types (graph : CompiledGraph V) (frames : ScopedFrameIndex A C S) (recovery : GraphRecovery A C S).

(** The Session of a recovery is the one its envelope encodes. *)
Definition check_recovered_session (commit : DurableGraphCommit A C S) (envelope : option EncodedAgentSession) (session : AgentSession C S)
    : result unit :=
  match envelope with
  | None => Raise (Exn SnapshotMismatchError "durable recovery Session does not match its envelope Config cursor")
  | Some envelope =>
      persistence_fail_if (negb (bool_decide (session_config_cursor session = es_config_cursor envelope)))
        "durable recovery Session does not match its envelope Config cursor";;
      match du_session_codec commit with
      | None => Raise (Exn SnapshotMismatchError "durable recovery Session requires its codec")
      | Some codec =>
          encoded ← except (one_of [AgentSessionContractError]) SnapshotMismatchError
            "durable recovery Session could not be canonically encoded" (encode_session_carrier codec session);
          persistence_fail_if (negb (bool_decide (encoded = envelope))) "durable recovery Session does not match its durable envelope"
      end
  end.

(** [GraphRecovery.__post_init__] and [GraphRecovery.admit] *)
Definition GraphRecovery_admit recovery : result (GraphRecovery A C S) :=
  except is_admission_error SnapshotMismatchError "durable recovery capability is malformed" (
    checkpoint ← GraphCheckpoint_admit (gr_checkpoint recovery);
    commit ← DurableGraphCommit_admit (gr_commit recovery);
    persistence_fail_if (negb (bool_decide (gc_agent_session checkpoint = du_agent_session commit)))
      "durable recovery checkpoint and commit must bind the same AgentSession";;
    session ← match gr_session recovery with
      | None => Ok None
      | Some session => session ← except is_admission_error SnapshotMismatchError "durable recovery Session is malformed"
                          (admit_session_carrier session); Ok (Some session)
      end;
    persistence_fail_if (negb (bool_decide (bool_decide (gc_agent_session checkpoint = None) = bool_decide (session = None))))
      "durable recovery requires a decoded Session for its envelope";;
    match session with None => Ok tt | Some session => check_recovered_session commit (gc_agent_session checkpoint) session end;;
    Ok recovery).

(* ---------------------------------------------------------------- *)
(** ** Decoding *)

(** [ConfigSnapshotKey] *)
Definition ConfigKey : Type := str * (Z * Z).
Definition config_key (cursor : GraphConfigCursor) : ConfigKey :=
  (cur_definition_id cursor, (cur_definition_version cursor, cur_revision cursor)).
Definition ConfigSnapshotKey_new (cursor : GraphConfigCursor) : result ConfigKey :=
  raise_if (negb (is_canonical_identity (cur_definition_id cursor))) ConfigContractError "config snapshot definition_id must be canonical";;
  raise_if (cur_definition_version cursor <? 1) ConfigContractError "config snapshot definition_version must be a positive integer";;
  raise_if (cur_revision cursor <? 1) ConfigContractError "config snapshot revision must be a positive integer";;
  Ok (config_key cursor).

(** [_resolved_config] *)
Definition resolved_config (cursor : GraphConfigCursor) (configs : list (ConfigKey * C)) : result C :=
  key ← ConfigSnapshotKey_new cursor;
  match assoc key configs with
  | None => Raise (Exn SnapshotMismatchError "checkpoint requires its exact resolved Config snapshot")
  | Some config =>
      persistence_fail_if (negb (bool_decide (config_cursor_of config = cursor))) "checkpoint requires its exact resolved Config snapshot";;
      Ok config
  end.

(** [_decode_frame] *)
Definition decode_frame (frame : EncodedFrame) (codec : ValueCodec A C S) (configs : list (ConfigKey * C))
    : result (GraphValues A C S * option C) :=
  frame ← EncodedFrame_admit frame;
  persistence_fail_if (negb (bool_decide (ef_codec_id frame = fc_codec_id (vc_binding codec)))
                       || negb (ef_codec_version frame =? fc_version (vc_binding codec)))
    "persistent frame codec identity or version does not match";;
  values ← decode (vc_functions codec) (ef_payload frame);
  (if bool_decide (gv_activation_config values = None) then
     (again ← encode (vc_functions codec) values;
      persistence_fail_if (negb (bool_decide (again = ef_payload frame)))
        "persistent frame is not a canonical Config-free value encoding")
   else Raise (Exn SnapshotMismatchError "persistent frame is not a canonical Config-free value encoding"));;
  config ← match ef_config_cursor frame with
    | None => Ok None
    | Some cursor => config ← resolved_config cursor configs; Ok (Some config)
    end;
  Ok (values, config).

(* ---------------------------------------------------------------- *)
(** ** [restore_checkpoint] *)

(** The resolved Configs by their key. *)
Definition recovered_configs (configs : list C) : result (list (ConfigKey * C)) :=
  except (one_of [ConfigContractError]) SnapshotMismatchError "recovery Config capability is malformed" (
    py_for_state configs [] (λ known config,
      raise_if (negb (config_ok config)) ConfigContractError "resolved config is malformed";;
      let key := config_key (config_cursor_of config) in
      persistence_fail_if (bool_decide (is_Some (assoc key known))) "recovery repeats one immutable Config revision";;
      Ok (known ++ [(key, config)]))).

(** Every state fits its graph, has its Config and the evidence of its values. *)
Definition check_binding graph (configs : list (ConfigKey * C)) (binding : ScopedStateBinding) : result unit :=
  let state := ssb_state binding in
  scoped_graph ← compiled_graph_at_scope graph (scope (ssb_scope_run binding));
  require_scoped_snapshot_matches_graph scoped_graph state (ssb_scope_run binding);;
  (if bool_decide (is_Some (st_config_digest state)) then
     (cursor ← config_cursor state; _ ← resolved_config cursor configs; Ok tt)
   else Ok tt);;
  persistence_fail_if (evidence_missing state) "durable state is missing its value evidence commitments".

(** [bindings.get(scope_run)] *)
Definition state_at (bindings : list ScopedStateBinding) (scope_run : ScopeRunCoordinate) : option GraphRunState :=
  ssb_state <$> List.find (λ binding, bool_decide (ssb_scope_run binding = scope_run)) bindings.

Definition check_input_evidence (bindings : list ScopedStateBinding) (graph_input : PersistedGraphInput) : result unit :=
  persistence_fail_if (match state_at bindings (gic_scope_run (pgi_coordinate graph_input)) with
                       | None => true
                       | Some state => negb (bool_decide (st_graph_input_evidence state = Some (pgi_evidence graph_input))) end)
    "persistent graph input is not bound to its authoritative state".

Definition check_publication_evidence (bindings : list ScopedStateBinding) (publication : PersistedPublication) : result unit :=
  let activation := pac_activation (pp_coordinate publication) in
  identity ← coordinate_identity (pp_coordinate publication);
  let matches := match state_at bindings (sa_scope_run activation) with None => [] | Some state => settlements_of state identity end in
  token ← require_publication_confirmation (ck_revision (pp_birth publication)) (pp_provenance publication);
  persistence_fail_if (match matches with
      | [item] => negb (bool_decide (pub_reference item = pp_settlement_reference publication))
                  || negb (pub_commit_revision item =? ck_revision (pp_birth publication))
                  || negb (bool_decide (pub_execution item = token))
                  || negb (bool_decide (pub_evidence item = Some (pp_evidence publication)))
      | _ => true end)
    "persistent publication is not bound to its authoritative settlement".

Definition restore_input graph (codec : ValueCodec A C S) (configs : list (ConfigKey * C)) frames (graph_input : PersistedGraphInput)
    : result (ScopedFrameIndex A C S) :=
  let coordinate := pgi_coordinate graph_input in
  scoped_graph ← compiled_graph_at_scope graph (scope (gic_scope_run coordinate));
  '(values, config) ← decode_frame (pgi_frame graph_input) codec configs;
  frame ← make_graph_input_frame values (fd_declarations (graph_input_descriptor scoped_graph)) config None;
  add_graph_input frames (mkAdmittedInput coordinate frame).

Definition restore_publication graph (codec : ValueCodec A C S) (configs : list (ConfigKey * C)) frames (publication : PersistedPublication)
    : result (ScopedFrameIndex A C S) :=
  let coordinate := pp_coordinate publication in
  scoped_graph ← compiled_graph_at_scope graph (scope (sa_scope_run (pac_activation coordinate)));
  descriptor ← map_get (publications (transition scoped_graph)) (sa_node_id (pac_activation coordinate));
  '(values, config) ← decode_frame (pp_frame publication) codec configs;
  output ← make_node_output_frame values (fd_declarations descriptor) config;
  add_publication frames (mkConfirmedPublication coordinate output (ck_revision (pp_birth publication)) (pp_provenance publication)).

(** The boundary of one completed run. *)
Definition restore_boundary graph (session : option (AgentSession C S)) frames (binding : ScopedStateBinding)
    : result (ScopedFrameIndex A C S) :=
  let state := ssb_state binding in
  if bool_decide (st_status state = COMPLETED) then
    scoped_graph ← compiled_graph_at_scope graph (scope (ssb_scope_run binding));
    available ← graph_outputs_available scoped_graph (ssb_scope_run binding) (st_superstep state) frames;
    persistence_fail_if (negb available) "checkpoint is missing required completed graph output evidence";;
    if is_nil (scope (ssb_scope_run binding)) then Ok frames
    else
      view ← project_graph_outputs scoped_graph (ssb_scope_run binding) (st_superstep state) frames session;
      add_child_boundary frames (mkConfirmedBoundary
        (mkBoundaryCoordinate (ssb_scope_run binding) (fd_identity (graph_output_descriptor scoped_graph))) view)
  else Ok frames.

(** [sorted(bindings, key=len(scope), reverse=True)]: deepest scopes first, in place among
    equals. *)
Definition deepest_first (bindings : list ScopedStateBinding) : list ScopedStateBinding :=
  sorted_key (λ binding, - Z.of_nat (length (scope (ssb_scope_run binding)))) bindings.

(** [restore_checkpoint] *)
Definition restore_checkpoint graph recovery : result (ScopedFrameIndex A C S) :=
  recovery ← GraphRecovery_admit recovery;
  let checkpoint := gr_checkpoint recovery in
  lineage ← lineage_states (gc_root_state checkpoint) (gc_child_runs checkpoint);
  configs ← recovered_configs (gr_configs recovery);
  py_for (pl_bindings lineage) (check_binding graph configs);;
  py_for (gc_graph_inputs checkpoint) (check_input_evidence (pl_bindings lineage));;
  py_for (gc_publications checkpoint) (check_publication_evidence (pl_bindings lineage));;
  let codec := du_codec (gr_commit recovery) in
  except (one_of [GraphValueAdmissionError; GraphValuePublicationError]) SnapshotMismatchError
    "persistent value evidence cannot be admitted by the compiled graph" (
    frames ← py_for_state (gc_graph_inputs checkpoint) empty_index (restore_input graph codec configs);
    frames ← py_for_state (gc_publications checkpoint) frames (restore_publication graph codec configs);
    validate_context graph lineage frames true;;
    frames ← py_for_state (deepest_first (pl_bindings lineage)) frames (restore_boundary graph (gr_session recovery));
    validate_context graph lineage frames false;;
    Ok frames).
End recovery.
