(* ===== verification/DurableProofs.v ===== *)
(** * Durable values come back

    A frame that the persistent codec accepted decodes, once the recovery resolves its
    Config, to values that make a frame with the same names, the same exact classes and the
    same Config; persisting that frame again gives the same envelope unless the decoder added
    a Session; with a reversible codec it is the same frame. *)

From Stdlib Require Import ZArith NArith Lia Bool String Strings.Byte.
From stdpp Require Import prelude strings gmap sorting.
From S2P Require Import Prelude Identity Resources Model Validation WellFormed Topology Bindings TypedGraphs Routing Values RunContext Materialization SessionTheorems ResumeProofs TypeSafety TypeTheorems Commit SessionCodec Persistence PersistenceProofs Invocation Checkpoint.

Set Default Goal Selector "!".
Open Scope Z_scope.

Section frames.
Context {A V W C S : Type} `{EqDecision A} `{ValueTypes A V W} `{Configs C} `{EqDecision S}.
Notation Values := (GraphValues A C S).
Notation Entries := (list (str * A)).
Implicit Types (functions : CodecFunctions (A := A) (C := C) (S := S)) (codec : ValueCodec A C S).

(* ---------------------------------------------------------------- *)
(** ** Canonical values *)

(** Names are canonical identities in strict order. *)
Record canonical_entries (entries : Entries) : Prop := {
  ce_names : Forall (λ entry, is_canonical_identity entry.1 = true) entries;
  ce_sorted : strictly_sorted fst entries
}.

Lemma admit_values_inv (values : Values) : admit_values values = Ok tt → canonical_entries (gv_entries values) ∧ config_valid (gv_activation_config values).
Proof.
  unfold admit_values. intros [Hn E]%seq_Ok_iff. apply bind_Ok in E as (c & [_ Hc]%admit_config_inv & _). split; [|done].
  apply raise_if_Ok, orb_false_iff in Hn as [Hn Hs%negb_false_iff%bool_decide_eq_true]. split.
  - apply Forall_forall. intros entry Hin. destruct (is_canonical_identity entry.1) eqn:E'; [done|]. exfalso.
    apply not_true_iff_false in Hn. apply Hn, existsb_exists. exists entry.1. rewrite E'. split; [|done]. by apply list_elem_of_In, list_elem_of_fmap_2.
  - apply strictly_sorted_fmap. by apply sorted_set_canonical.
Qed.

Lemma admit_values_canonical (entries : Entries) : canonical_entries entries → admit_values (mkValues entries None None : Values) = Ok tt.
Proof.
  intros [Hn Hs]. unfold admit_values. cbn [gv_entries gv_activation_config gv_session].
  rewrite (bool_decide_true (_ = sorted_set _)) by (apply sorted_set_canonical; by apply strictly_sorted_fmap).
  assert (existsb (λ name, negb (is_canonical_identity name)) entries.*1 = false) as ->; [|done].
  apply not_true_iff_false. intros (n & Hin & Hc)%existsb_exists. apply list_elem_of_In, list_elem_of_fmap in Hin as (entry & -> & Hin).
  rewrite Forall_forall in Hn. by rewrite Hn in Hc.
Qed.

Lemma make_graph_values_canonical (entries : Entries) : canonical_entries entries →
  make_graph_values entries = Ok (mkValues entries None None : Values).
Proof.
  intros [Hn Hs]. unfold make_graph_values, normalize_mapping. rewrite sorted_key_id by done.
  match goal with |- context [mapM ?f entries] => assert (mapM f entries = Ok entries) as ->; [|done] end.
  induction Hn as [|[n v] entries Hc _ IH]; [done|]. assert (canonical_port_name n = Ok n) as E by (unfold canonical_port_name; cbn in Hc; by rewrite Hc).
  cbn. rewrite E. cbn. apply StronglySorted_inv in Hs as [Hs _]. by rewrite IH.
Qed.

Lemma encode_Ok functions (values : Values) payload :
  encode functions values = Ok payload ↔ admit_values values = Ok tt ∧ encoder functions values = Some payload.
Proof.
  unfold encode, require_graph_values. destruct (admit_values values) as [[]|e] eqn:E; cbn [mbind result_bind].
  - destruct (encoder functions values); [split; [by intros [= ->]|by intros [_ [= ->]]]|split; [done|by intros [_ ?]]].
  - split; [done|by intros [? _]].
Qed.
Lemma decode_Ok functions payload (values : Values) :
  decode functions payload = Ok values ↔ decoder functions payload = Some values ∧ admit_values values = Ok tt.
Proof.
  unfold decode, require_graph_values. destruct (decoder functions payload) as [v|]; [|naive_solver]. rewrite seq_Ok_iff. split.
  - by intros [? [= <-]].
  - by intros [[= ->] ?].
Qed.

(* ---------------------------------------------------------------- *)
(** ** Encoded frames *)

(** The same names, and values of the same exact class. *)
Definition same_classes : Entries → Entries → Prop :=
  Forall2 (λ entry entry', entry'.1 = entry.1 ∧ type_of entry'.2 = type_of entry.2 ∧ nominal (type_of entry.2) = true).

Lemma check_decoded_classes (entries decoded : Entries) config session :
  canonical_entries entries → decoded.*1 = entries.*1 →
  py_for entries (check_decoded (mkValues decoded config session : Values)) = Ok tt ↔ same_classes entries decoded.
Proof.
  intros [Hn Hs%strictly_sorted_NoDup_key] Hnames. rewrite py_for_Ok.
  assert (∀ i entry value, entries !! i = Some entry → decoded.*2 !! i = Some value →
    check_decoded (mkValues decoded config session : Values) entry = Ok tt ↔ type_of value = type_of entry.2 ∧ nominal (type_of entry.2) = true) as Hone.
  { intros i entry value He Hv. unfold check_decoded, graph_value, canonical_port_name, admission_fail_if.
    rewrite Forall_forall in Hn. rewrite Hn by (by eapply list_elem_of_lookup_2). cbn [negb raise_if mbind result_bind gv_entries].
    assert (assoc entry.1 decoded = Some value) as ->.
    { apply FrontierMeaning.assoc_Some_iff; [by rewrite Hnames|]. apply list_elem_of_lookup. exists i.
      apply list_lookup_fmap_Some in Hv as ([n v] & -> & Hd). cbn.
      assert (decoded.*1 !! i = Some entry.1) as Hi by (rewrite Hnames; apply list_lookup_fmap_Some; by exists entry).
      apply list_lookup_fmap_Some in Hi as (d & Hd1 & Hd2). rewrite Hd in Hd2. injection Hd2 as <-. cbn in Hd1. by rewrite Hd1. }
    cbn [mbind result_bind]. checks. naive_solver. }
  unfold same_classes. rewrite Forall2_same_length_lookup. assert (length decoded = length entries) as Hlen.
  { by rewrite <- (length_fmap fst decoded), Hnames, length_fmap. }
  split.
  - intros Hall. split; [done|]. intros i x y Hx Hy. assert (decoded.*2 !! i = Some y.2) as Hy2 by (apply list_lookup_fmap_Some; by exists y).
    split; [|by apply (Hone i x y.2 Hx Hy2), Hall; eapply list_elem_of_lookup_2].
    assert (decoded.*1 !! i = entries.*1 !! i) as E by by rewrite Hnames. rewrite !list_lookup_fmap, Hx, Hy in E. by injection E.
  - intros [_ Hall] x [i Hx]%list_elem_of_lookup. destruct (lookup_lt_is_Some_2 decoded i) as [y Hy]; [rewrite Hlen; by eapply lookup_lt_Some|].
    apply (Hone i x y.2 Hx); [apply list_lookup_fmap_Some; by exists y|]. by apply (Hall i x y).
Qed.

(** What accepting a frame establishes. *)
Record frame_encoded (frame : Frame A C) codec (encoded : EncodedFrame) (decoded : Values) : Prop := {
  fe_encode : encode (vc_functions codec) (mkValues (fr_entries frame) None None) = Ok (ef_payload encoded);
  fe_decode : decode (vc_functions codec) (ef_payload encoded) = Ok decoded;
  fe_config_free : gv_activation_config decoded = None;
  fe_names : (gv_entries decoded).*1 = (fr_entries frame).*1;
  fe_classes : same_classes (fr_entries frame) (gv_entries decoded);
  fe_again : encode (vc_functions codec) decoded = Ok (ef_payload encoded);
  fe_config : config_valid (fr_activation_config frame);
  fe_envelope : EncodedFrame_new (fc_codec_id (vc_binding codec)) (fc_version (vc_binding codec)) (ef_payload encoded)
    (config_cursor_of <$> fr_activation_config frame) = Ok encoded
}.

Lemma encode_frame_Ok (frame : Frame A C) codec encoded : canonical_entries (fr_entries frame) →
  encode_frame frame codec = Ok encoded ↔ ∃ decoded, frame_encoded frame codec encoded decoded.
Proof.
  intros Hce. unfold encode_frame. rewrite make_graph_values_canonical by done. cbn [mbind result_bind gv_entries]. split.
  - intros (payload & Hp & E)%bind_Ok. apply bind_Ok in E as (decoded & Hd & E). apply seq_Ok_iff in E as [Hn E].
    apply raise_if_Ok, orb_false_iff in Hn as [Hc%negb_false_iff%bool_decide_eq_true Hn%negb_false_iff%bool_decide_eq_true].
    apply seq_Ok_iff in E as [Hcls E]. apply bind_Ok in E as (again & Ha & E). apply seq_Ok_iff in E as [Hsame E].
    apply bind_Ok in E as (cursor & Hcur & Hf). destruct (bool_decide (again = payload)) eqn:Eb; [|done]. apply bool_decide_eq_true in Eb as ->.
    assert (cursor = config_cursor_of <$> fr_activation_config frame ∧ config_valid (fr_activation_config frame)) as [-> Hv].
    { destruct (fr_activation_config frame); [|by injection Hcur as <-]. apply seq_Ok_iff in Hcur as [Hv%raise_if_Ok%negb_false_iff [= <-]].
      split; [done|]. by apply on_some_Some. }
    assert (ef_payload encoded = payload) as Ep by by apply EncodedFrame_new_Ok in Hf as [-> _].
    exists decoded. destruct decoded as [entries config session]. split; rewrite ?Ep; try done. by eapply check_decoded_classes.
  - intros (decoded & [Hp Hd Hc Hn Hcls Ha Hv Hf]). rewrite Hp. cbn [mbind result_bind]. rewrite Hd. cbn [mbind result_bind].
    rewrite Hc, Hn, !bool_decide_true by done. cbn [negb orb raise_if admission_fail_if mbind result_bind].
    destruct decoded as [entries config session]. cbn [gv_entries] in *.
    rewrite (proj2 (check_decoded_classes (fr_entries frame) entries config session Hce Hn) Hcls). cbn [mbind result_bind]. rewrite Ha.
    cbn [mbind result_bind]. rewrite (bool_decide_true (ef_payload encoded = ef_payload encoded)) by done.
    cbn [mbind result_bind]. cbn [negb raise_if admission_fail_if mbind result_bind].
    destruct (fr_activation_config frame) as [c|]; [|exact Hf].
    assert (config_ok c = true) as -> by exact (proj1 (on_some_Some c (λ c, config_ok c = true)) Hv). exact Hf.
Qed.

(* ---------------------------------------------------------------- *)
(** ** The round trip *)

(** The Config of a frame, as the resolved Configs of a recovery give it for its cursor. *)
Definition resolve_frame_config (configs : list (ConfigKey * C)) (config : option C) : result (option C) :=
  match config with Some config => resolved ← resolved_config (config_cursor_of config) configs; Ok (Some resolved) | None => Ok None end.

Lemma decode_encoded (frame : Frame A C) codec encoded decoded configs :
  frame_encoded frame codec encoded decoded →
  decode_frame encoded codec configs = (config ← resolve_frame_config configs (fr_activation_config frame); Ok (decoded, config)).
Proof.
  intros [Hp Hd Hc Hn Hcls Ha Hv Hf]. apply EncodedFrame_new_Ok in Hf as (He & _ & Hadm). unfold decode_frame. rewrite Hadm.
  cbn [mbind result_bind]. rewrite Hd. assert (ef_codec_id encoded = fc_codec_id (vc_binding codec) ∧
    ef_codec_version encoded = fc_version (vc_binding codec) ∧ ef_config_cursor encoded = config_cursor_of <$> fr_activation_config frame) as (-> & -> & ->)
    by (rewrite He; done). rewrite bool_decide_true, Z.eqb_refl by done. cbn [negb orb raise_if persistence_fail_if mbind result_bind].
  rewrite Hc, (bool_decide_true (None = None)) by done. rewrite Ha. cbn [mbind result_bind]. rewrite bool_decide_true by done.
  cbn [negb raise_if persistence_fail_if mbind result_bind]. by destruct (fr_activation_config frame).
Qed.

Lemma same_classes_typed (entries entries' : Entries) (declarations : list (OutputDeclaration V)) :
  same_classes entries entries' → typed entries declarations → typed entries' declarations.
Proof.
  intros Hs. revert declarations. induction Hs as [|[n v] [n' v'] es es' (Hn & Hc & Hnom) _ IH]; intros ds Ht; inversion Ht as [|? d ? ds' [Hd [Hcls Hno]] Ht']; subst; constructor.
  - cbn in *. subst. split; [done|]. split; congruence.
  - by apply IH.
Qed.

(** What an output frame is made of, whatever Config its values carry. *)
Lemma make_node_output_frame_parts (values : Values) (declarations : list (OutputDeclaration V)) config frame :
  make_node_output_frame values declarations config = Ok frame →
  admit_values values = Ok tt ∧ fr_entries frame = gv_entries values ∧ typed (gv_entries values) declarations
  ∧ config_valid (fr_activation_config frame).
Proof.
  unfold make_node_output_frame, entries_of, require_graph_values. intros E. apply bind_Ok in E as (es & Hes & E).
  apply bind_Ok in Hes as (v & [Ha [= <-]]%seq_Ok_iff & [= <-]). apply bind_Ok in E as (es & [-> Ht]%admit_entries_Ok & E).
  apply bind_Ok in E as (inherited & _ & E). unfold Frame_new in E. apply bind_Ok in E as (? & [_ Hv]%admit_config_inv & [= <-]). done.
Qed.

Lemma make_node_output_frame_total (values : Values) (declarations : list (OutputDeclaration V)) config :
  gv_activation_config values = None → admit_values values = Ok tt → typed (gv_entries values) declarations → config_valid config →
  make_node_output_frame values declarations config = Ok (mkFrame (gv_entries values) config).
Proof.
  intros Hc Ha Ht Hv. unfold make_node_output_frame, entries_of, require_graph_values. rewrite Hc, Ha.
  cbn [mbind result_bind]. rewrite (proj2 (admit_entries_Ok _ _ (gv_entries values))) by done.
  cbn [mbind result_bind]. assert (∀ m m', merge_activation_config None config m m' = Ok config) as ->.
  { intros m m'. unfold merge_activation_config. destruct config as [c|]; [|done]. by rewrite admit_config_valid. }
  cbn [mbind result_bind]. unfold Frame_new. by rewrite admit_config_valid.
Qed.

(** Decoding gives the encoded values back. *)
Definition reversible codec : Prop := ∀ values payload,
  encoder (vc_functions codec) values = Some payload → decoder (vc_functions codec) payload = Some values.

(** C19: durable values come back.  For any output frame that a node's values were admitted
    into and that the persistent codec accepted, there are decoded values such that:
    decoding the envelope gives them with the Config that the recovery resolves for the
    frame's cursor (none for a frame without Config), and fails only when that resolution
    fails; the same declarations admit them, with the frame's Config, into a restored frame
    with the same names and the same exact classes; if the decoder added no Session to
    them, persisting the restored frame gives the very same envelope, so the same evidence;
    and if the codec is reversible, no Session was added and the restored frame is the
    original one. *)
Theorem durable_frame_round_trip codec (values : Values) (declarations : list (OutputDeclaration V)) config frame encoded :
  make_node_output_frame values declarations config = Ok frame → encode_frame frame codec = Ok encoded →
  ∃ decoded restored,
    (∀ configs, decode_frame encoded codec configs
       = (config ← resolve_frame_config configs (fr_activation_config frame); Ok (decoded, config)))
    ∧ make_node_output_frame decoded declarations (fr_activation_config frame) = Ok restored
    ∧ same_classes (fr_entries frame) (fr_entries restored) ∧ fr_activation_config restored = fr_activation_config frame
    ∧ (gv_session decoded = None → encode_frame restored codec = Ok encoded)
    ∧ (reversible codec → gv_session decoded = None ∧ restored = frame).
Proof.
  intros (Ha & Hent & Ht & Hv)%make_node_output_frame_parts He. destruct frame as [entries config']. cbn [fr_entries fr_activation_config] in *. subst entries.
  destruct (admit_values_inv _ Ha) as [Hce _]. apply encode_frame_Ok in He as (decoded & Hfe); [|done].
  exists decoded, (mkFrame (gv_entries decoded) config'). pose proof (λ configs, decode_encoded _ _ _ _ configs Hfe) as Hdec.
  destruct Hfe as [Hp Hd Hc Hn Hcls Hag Hfv Hf]. cbn [fr_entries fr_activation_config] in *.
  pose proof (proj1 (proj1 (encode_Ok _ _ _) Hag)) as Hda. destruct (admit_values_inv _ Hda) as [Hdce _]. split_and!; [done| |done|done| |].
  - apply make_node_output_frame_total; [done..| |done]. by eapply same_classes_typed.
  - intros Hs. assert (decoded = mkValues (gv_entries decoded) None None) as Hdv by (destruct decoded; cbn in *; by subst).
    apply encode_frame_Ok; [done|]. exists decoded. split; cbn [fr_entries fr_activation_config]; rewrite <- ?Hdv; try done.
    clear -Hcls. induction Hcls as [|x y xs ys (Hn & Hc & Hnom) _ IH]; constructor; [|done]. split_and!; [done..|congruence].
  - intros Hrev. apply encode_Ok in Hp as [_ Hp]. apply decode_Ok in Hd as [Hd _]. rewrite (Hrev _ _ Hp) in Hd. by injection Hd as <-.
Qed.
End frames.

(* ------------------------------------------------------------------ *)
(** ** A codec

    One byte per value, after its name and a NUL. *)

Section demo.
#[local] Existing Instances signed_types demo_configs.

Definition put_entry (entry : str * Z) : option bytes :=
  name ← mapM Byte.of_N entry.1; value ← Byte.of_N (Z.to_N (entry.2 + 128)); Some (name ++ [x00; value]).
Fixpoint take_entries (name : str) (payload : bytes) : option (list (str * Z)) :=
  match payload with
  | [] => if is_nil name then Some [] else None
  | x00 :: value :: rest => entries ← take_entries [] rest; Some ((reverse name, Z.of_N (Byte.to_N value) - 128) :: entries)
  | letter :: rest => take_entries (Byte.to_N letter :: name) rest
  end.
Definition byte_codec (session : option (AgentSession unit unit)) : ValueCodec Z unit unit :=
  mkValueCodec (mkFrameCodec (lit "bytes") 1)
    (mkCodecFunctions (λ values, payloads ← mapM put_entry (gv_entries values); Some (concat payloads))
       (λ payload, entries ← take_entries [] payload; Some (mkValues entries None session))).

Definition two_values : GraphValues Z unit unit := mkValues [(lit "x", 5); (lit "y", -7)] None None.
Definition two_ports : list (OutputDeclaration bool) := [mkOutputDeclaration (lit "x") true; mkOutputDeclaration (lit "y") false].
Definition two_frame : Frame Z unit := mkFrame [(lit "x", 5); (lit "y", -7)] None.
Definition encoded_of (r : result EncodedFrame) : EncodedFrame := match r with Ok e => e | Raise _ => mkEncodedFrame [] 0 [] None end.

Lemma durable_frame_round_trip_witness : ∃ decoded restored,
  (∀ configs, decode_frame (encoded_of (encode_frame two_frame (byte_codec None))) (byte_codec None) configs
     = (config ← resolve_frame_config configs (fr_activation_config two_frame); Ok (decoded, config)))
  ∧ make_node_output_frame decoded two_ports (fr_activation_config two_frame) = Ok restored
  ∧ same_classes (fr_entries two_frame) (fr_entries restored) ∧ fr_activation_config restored = fr_activation_config two_frame
  ∧ (gv_session decoded = None → encode_frame restored (byte_codec None) = Ok (encoded_of (encode_frame two_frame (byte_codec None))))
  ∧ (reversible (byte_codec None) → gv_session decoded = None ∧ restored = two_frame).
Proof. apply (durable_frame_round_trip (byte_codec None) two_values two_ports None two_frame); computed. Defined.

(** The check of the codec looks at the decoded Config and not at the decoded Session: a
    decoder that adds a Session is accepted, and the graph input it restores has the Config
    of that Session, which the persisted frame did not have. *)
Lemma decoded_session_changes_config :
  let codec := byte_codec (Some (mkSession tt (Some tt))) in let encoded := encoded_of (encode_frame two_frame codec) in
  encode_frame two_frame codec = Ok encoded
  ∧ ∃ values, decode_frame encoded codec [] = Ok (values, None)
    ∧ make_graph_input_frame values two_ports None None = Ok (mkFrame (fr_entries two_frame) (Some tt))
    ∧ fr_activation_config two_frame = None.
Proof. cbv zeta. split; [computed|]. eexists. split_and!; [computed|computed|done]. Qed.
End demo.
