(* ===== verification/RestoreProofs.v ===== *)
(** * Recovered indices

    What [restore_checkpoint] returns is as good as what execution leaves behind: for every
    scope of the lineage the index mirrors the ledger of the state and is typed by the
    compiled graph, so that every pending node of a recovered run gets its input. *)

From Stdlib Require Import ZArith NArith Lia Bool String.
From stdpp Require Import prelude strings gmap sorting.
From S2P Require Import Prelude Identity Resources Model Validation Transitions WellFormed Reducer ReducerProofs Topology GraphDefinition Bindings Compiler TypedGraphs Routing Engine EngineProofs Values RunContext RunContextProofs Materialization Superstep SessionTheorems Commit CommitProofs ResumeProofs TypeSafety TypeTheorems SessionCodec Persistence PersistenceProofs Invocation Checkpoint DurableProofs.

Set Default Goal Selector "!".
Open Scope Z_scope.

(* ------------------------------------------------------------------ *)
(** ** Lineages *)

#[export] Instance scope_run_key_inj : Inj (=) (=) scope_run_key.
Proof. intros [] []. unfold scope_run_key. cbn. by intros [= -> ->]. Qed.
#[export] Instance scope_run_cmp_laws : CmpLaws ScopeRunCoordinate.
Proof. apply (cmp_by_laws scope_run_key). Qed.

(** One state per scope, in scope order. *)
Definition lineage_ok (lineage : PlannedLineage) : Prop := strictly_sorted ssb_scope_run (pl_bindings lineage).

Lemma lineage_position_Ok lineage coordinate position : lineage_position lineage coordinate = Ok position →
  ∃ binding, pl_bindings lineage !! position = Some binding ∧ ssb_scope_run binding = coordinate.
Proof.
  unfold lineage_position. intros (p & _ & E)%bind_Ok. destruct (pl_bindings lineage !! p) as [binding|] eqn:Eb; [|done].
  apply seq_Ok_iff in E as [Hc%raise_if_Ok%negb_false_iff%bool_decide_eq_true [= <-]]. by exists binding.
Qed.

Lemma binding_at_Ok lineage coordinate binding : binding_at lineage coordinate = Ok binding →
  binding ∈ pl_bindings lineage ∧ ssb_scope_run binding = coordinate.
Proof.
  unfold binding_at. intros (p & (b & Hb & Hc)%lineage_position_Ok & E)%bind_Ok. unfold list_get in E. rewrite Hb in E. injection E as <-.
  split; [by eapply list_elem_of_lookup_2|done].
Qed.

Lemma lineage_unique lineage b b' : lineage_ok lineage → b ∈ pl_bindings lineage → b' ∈ pl_bindings lineage →
  ssb_scope_run b = ssb_scope_run b' → b = b'.
Proof.
  intros Hok%strictly_sorted_NoDup_key [i Hi]%list_elem_of_lookup [j Hj]%list_elem_of_lookup E.
  assert (i = j) as ->; [|congruence]. eapply (NoDup_lookup _ i j (ssb_scope_run b) Hok); rewrite list_lookup_fmap; [by rewrite Hi|by rewrite Hj, E].
Qed.

Lemma binding_at_self lineage b b' : lineage_ok lineage → b ∈ pl_bindings lineage →
  binding_at lineage (ssb_scope_run b) = Ok b' → b' = b.
Proof. intros Hok Hb [Hb' E]%binding_at_Ok. by eapply lineage_unique. Qed.

(** The bindings of a lineage: the root and the children that were created. *)
Lemma lineage_states_ok root_state child_runs lineage : lineage_states root_state child_runs = Ok lineage →
  lineage_ok lineage ∧ pl_uncreated lineage = evidence_uncreated child_runs
  ∧ pl_bindings lineage ≡ₚ mkStateBinding (mkScopeRun [] (st_run_id root_state)) root_state :: evidence_bindings child_runs.
Proof.
  unfold lineage_states. intros [_ [Hnd%raise_if_Ok%negb_false_iff%no_repeats_spec [Hchild (root & Hroot & E)%bind_Ok]%seq_Ok_iff]%seq_Ok_iff]%seq_Ok_iff.
  rewrite py_for_Ok in Hchild. unfold root_scope_run, ScopeRunCoordinate_new in Hroot. apply seq_Ok_iff in Hroot as [_ [= <-]].
  set (values := mkStateBinding (mkScopeRun [] (st_run_id root_state)) root_state :: evidence_bindings child_runs) in *.
  assert (pl_bindings lineage = sorted_key (scope_run_key ∘ ssb_scope_run) values ∧ pl_uncreated lineage = evidence_uncreated child_runs)
    as [Hbs Hu] by by injection E as <-.
  clear E. unfold lineage_ok. rewrite Hbs. split_and!; [|done|apply sort_by_perm].
  assert (∀ b, b ∈ evidence_bindings child_runs → StateEvidence b ∈ child_runs) as Hev.
  { intros b (item & Hin & Hb)%list_elem_of_omap. destruct item; [|done]. by injection Hb as ->. }
  assert (NoDup (ssb_scope_run <$> values)) as Hvals.
  { cbn. apply NoDup_cons. split.
    - intros (b & Hb & Hin)%list_elem_of_fmap. specialize (Hchild _ (Hev _ Hin)). unfold check_child_run in Hchild.
      apply bind_Ok in Hchild as (? & _ & Hchild). apply seq_Ok_iff in Hchild as [Hs%raise_if_Ok _]. cbn in Hs. by rewrite <- Hb in Hs.
    - clear -Hnd. induction child_runs as [|[b|u] rest IH]; cbn in *; [constructor| |apply NoDup_cons in Hnd as [_ Hnd]; auto].
      apply NoDup_cons in Hnd as [Hn Hnd]. apply NoDup_cons. split; [|auto]. intros (b' & Hb' & Hin)%list_elem_of_fmap. apply Hn.
      rewrite Hb'. apply list_elem_of_omap in Hin as (item & Hin & Hi). destruct item; [|done]. injection Hi as ->.
      by apply (list_elem_of_fmap_2 evidence_scope_run) in Hin. }
  assert (weakly_sorted (scope_run_key ∘ ssb_scope_run) (sorted_key (scope_run_key ∘ ssb_scope_run) values)) as Hw by apply sorted_key_weak.
  apply weakly_sorted_strict in Hw.
  - done.
  - unfold sorted_key. rewrite sort_by_perm. rewrite list_fmap_compose. by apply (NoDup_fmap_2 scope_run_key).
Qed.

(* ------------------------------------------------------------------ *)
(** ** A validated index *)

Section validated.
Context {A V W C S : Type} `{EqDecision A} `{EqDecision V} `{ValueTypes A V W} `{Configs C} `{EqDecision S}.
Context (graph : CompiledGraph V) (lineage : PlannedLineage) (Hok : lineage_ok lineage).
Implicit Types (frames : ScopedFrameIndex A C S).

Lemma out_of_order_sorted {R K} `{CmpLaws K} (coordinate : R → K) (records : list R) :
  out_of_order (coordinate <$> records) = false → strictly_sorted coordinate records.
Proof using Type.
  intros Ho. apply strictly_sorted_fmap. unfold strictly_sorted. apply Sorted_StronglySorted; [intros x y z; apply cmp_lt_trans|].
  induction (coordinate <$> records) as [|x [|y ks] IH]; [constructor..| |]; [by repeat constructor|].
  cbn in Ho. apply orb_false_iff in Ho as [Hxy%negb_false_iff Ho]. constructor; [by apply IH|]. constructor. by apply cmp_ltb_spec.
Qed.

Lemma admitted_by_Ok {X} message (body : result X) : admitted_by message body = Ok tt → ∃ x, body = Ok x.
Proof using Type. unfold admitted_by. intros (x & E%except_Ok & _)%bind_Ok. by exists x. Qed.

Lemma admit_frame_typed (frame frame' : Frame A C) (declarations : list (OutputDeclaration V)) :
  admit_frame frame declarations = Ok frame' → typed (fr_entries frame) declarations.
Proof using Type. unfold admit_frame. by intros (? & [_ ?]%admit_entries_Ok & _)%bind_Ok. Qed.

(** What validation says of the records at a scope of the lineage. *)
Lemma validated_input scoped (record : AdmittedGraphInput A C) binding : binding ∈ pl_bindings lineage →
  compiled_graph_at_scope graph (scope (ssb_scope_run binding)) = Ok scoped →
  gic_scope_run (agi_coordinate record) = ssb_scope_run binding → validate_graph_input_record graph lineage record = Ok tt →
  agi_coordinate record = graph_input_availability_coordinate scoped (ssb_scope_run binding)
  ∧ typed (fr_entries (agi_frame record)) (fd_declarations (graph_input_descriptor scoped)).
Proof using Type.
  intros Hb Hsc Hrun. unfold validate_graph_input_record. rewrite Hrun, Hsc. intros (b & _ & E)%bind_Ok. cbn [mbind result_bind] in E.
  apply seq_Ok_iff in E as [Hd%raise_if_Ok%negb_false_iff%bool_decide_eq_true E].
  apply seq_Ok_iff in E as [(frame & Hf%admit_frame_typed)%admitted_by_Ok _]. split; [|done].
  unfold graph_input_availability_coordinate. rewrite <- Hrun, <- Hd. by destruct (agi_coordinate record).
Qed.

Lemma validated_publication scoped (record : ConfirmedPublication A C) binding : binding ∈ pl_bindings lineage →
  compiled_graph_at_scope graph (scope (ssb_scope_run binding)) = Ok scoped →
  sa_scope_run (pac_activation (cp_coordinate record)) = ssb_scope_run binding → validate_publication_record graph lineage record = Ok tt →
  ∃ publication item, map_get (publications (transition scoped)) (sa_node_id (pac_activation (cp_coordinate record))) = Ok publication
    ∧ pac_descriptor (cp_coordinate record) = fd_identity publication ∧ typed (fr_entries (cp_frame record)) (fd_declarations publication)
    ∧ item ∈ st_settled_publications (ssb_state binding)
    ∧ ref_activation (pub_reference item) = mkActivation (graph_run_id (ssb_scope_run binding))
        (sa_superstep (pac_activation (cp_coordinate record))) (sa_node_id (pac_activation (cp_coordinate record))).
Proof using Hok.
  intros Hb Hsc Hrun. unfold validate_publication_record. rewrite Hrun, Hsc. intros (b & Hb'%binding_at_self & E)%bind_Ok; [|done..]. subst b.
  cbn [mbind result_bind] in E. destruct (map_get _ _) as [publication|]; [|done].
  apply seq_Ok_iff in E as [Hd%raise_if_Ok E]. apply orb_false_iff in Hd as [Hd%negb_false_iff%bool_decide_eq_true _].
  apply bind_Ok in E as (token & _ & E). apply seq_Ok_iff in E as [Hf E]. apply seq_Ok_iff in E as [(frame & Ht%admit_frame_typed)%admitted_by_Ok _].
  destruct (List.filter _ _) as [|item [|]] eqn:Ef; [done| |done]. exists publication, item. split_and!; [done..| |].
  - assert (item ∈ [item]) as Hin by by left. rewrite <- Ef in Hin. by apply List_filter_elem in Hin as [_ ?].
  - assert (item ∈ [item]) as Hin by by left. rewrite <- Ef in Hin. apply List_filter_elem in Hin as [Hm _].
    apply andb_true_iff in Hm as [[Hr%bool_decide_eq_true Hs%Z.eqb_eq]%andb_true_iff Hn%bool_decide_eq_true].
    destruct (ref_activation (pub_reference item)) as [r s n]. cbn in *. by subst.
Qed.

Lemma validated_resume scoped (record : AdmittedResumeInput A C S) binding plan : binding ∈ pl_bindings lineage →
  compiled_graph_at_scope graph (scope (ssb_scope_run binding)) = Ok scoped →
  sa_scope_run (ric_activation (ari_coordinate record)) = ssb_scope_run binding →
  map_get (materializations (transition scoped)) (sa_node_id (ric_activation (ari_coordinate record))) = Ok plan →
  validate_resume_input_record graph lineage record = Ok tt → typed (nf_entries (ari_frame record)) (fd_declarations (mp_descriptor plan)).
Proof using Type.
  intros Hb Hsc Hrun Hm. unfold validate_resume_input_record. rewrite Hrun, Hsc. intros (b & _ & E)%bind_Ok. cbn [mbind result_bind] in E.
  rewrite Hm in E. apply seq_Ok_iff in E as [_ E]. apply admitted_by_Ok in E as (frame & E). unfold admit_node_input_frame in E.
  by apply bind_Ok in E as (? & [_ ?]%admit_entries_Ok & _).
Qed.

Lemma find_record_elem {R K} `{EqDecision K} (records : list R) (coordinate : R → K) c r :
  find_record records coordinate c = Ok r → r ∈ records ∧ coordinate r = c.
Proof using Type.
  unfold find_record. destruct (List.find _ _) eqn:E; [|done]. intros [= <-]. apply find_some in E as [?%list_elem_of_In ?%bool_decide_eq_true]. done.
Qed.

Lemma validated_index_typed frames scoped binding : binding ∈ pl_bindings lineage →
  compiled_graph_at_scope graph (scope (ssb_scope_run binding)) = Ok scoped → validate_frame_index graph lineage frames = Ok tt →
  index_ok frames ∧ index_typed scoped (ssb_scope_run binding) frames.
Proof using Hok.
  intros Hb Hsc Hv. unfold validate_frame_index in Hv. do 4 apply seq_Ok_iff in Hv as [?%raise_if_Ok%out_of_order_sorted Hv].
  apply seq_Ok_iff in Hv as [Hi Hv]. apply seq_Ok_iff in Hv as [Hp Hv]. apply seq_Ok_iff in Hv as [Hr _].
  rewrite py_for_Ok in Hi. rewrite py_for_Ok in Hp. rewrite py_for_Ok in Hr. split; [done|]. split.
  - intros record [Hin Hc]%find_record_elem. eapply validated_input; [done..|by rewrite Hc|by apply Hi].
  - intros activation coordinate record publication Hco [Hin Hc]%find_record_elem Hpub. apply coordinate_of_spec in Hco as [Ha _].
    rewrite <- Hc in Ha. destruct (validated_publication scoped record binding) as (p & _ & Hp' & _ & Ht & _); [done..|by rewrite Ha|by apply Hp|].
    rewrite Ha in Hp'. cbn in Hp'. rewrite Hpub in Hp'. by injection Hp' as <-.
  - intros activation plan record Hs Hm [Hin Hc]%find_record_elem. eapply validated_resume; [done|done| | |by apply Hr]; by rewrite Hc.
Qed.

(** The state of a binding fits its graph. *)
Definition fits (binding : ScopedStateBinding) (scoped : CompiledGraph V) : Prop :=
  compiled_graph_at_scope graph (scope (ssb_scope_run binding)) = Ok scoped
  ∧ require_scoped_snapshot_matches_graph scoped (ssb_state binding) (ssb_scope_run binding) = Ok tt.

Lemma fits_run binding scoped : fits binding scoped → st_run_id (ssb_state binding) = graph_run_id (ssb_scope_run binding) ∧ wf (ssb_state binding).
Proof using Type.
  intros [_ Hg]. unfold require_scoped_snapshot_matches_graph in Hg. apply seq_Ok_iff in Hg as [Hg E].
  apply seq_Ok_iff in E as [Hr%raise_if_Ok%negb_false_iff%bool_decide_eq_true _]. split; [done|]. by apply guard_guarded in Hg as [].
Qed.

(** A complete index holds of a scope what its state settled. *)
Lemma complete_installed frames scoped binding : binding ∈ pl_bindings lineage → fits binding scoped →
  validate_frame_index graph lineage frames = Ok tt → validate_complete_context graph lineage frames = Ok tt →
  installed scoped (ssb_scope_run binding) frames (ssb_state binding).
Proof using Hok.
  intros Hb Hfit Hv Hcomp. destruct (fits_run _ _ Hfit) as [Hrun Hwf]. destruct Hfit as [Hsc _].
  destruct (validated_index_typed _ _ _ Hb Hsc Hv) as [Hix _]. unfold validate_frame_index in Hv. do 4 apply seq_Ok_iff in Hv as [_ Hv].
  apply seq_Ok_iff in Hv as [Hi Hv]. apply seq_Ok_iff in Hv as [Hp _]. rewrite py_for_Ok in Hi. rewrite py_for_Ok in Hp.
  unfold validate_complete_context in Hcomp. apply seq_Ok_iff in Hcomp as [Hins%raise_if_Ok%negb_false_iff Hcomp].
  apply bind_Ok in Hcomp as (expected & Hex%mapM_Forall2 & Hcomp). apply seq_Ok_iff in Hcomp as [Hpubs%raise_if_Ok%negb_false_iff _].
  apply andb_true_iff in Hins as [_ Hins%subset_of_spec]. apply andb_true_iff in Hpubs as [Hpubs%subset_of_spec _].
  split; [done|done| |].
  - assert (ssb_scope_run binding ∈ (gic_scope_run ∘ agi_coordinate <$> ix_graph_inputs frames)) as (record & Hr & Hin)%list_elem_of_fmap.
    { apply Hins. by apply list_elem_of_fmap_2. }
    destruct (validated_input scoped record binding) as [Hc _]; [done..|by apply Hi|]. apply has_record_spec. rewrite <- Hc. by apply list_elem_of_fmap_2.
  - intros c Hc. split.
    + intros (record & [Hin <-]%find_record_elem)%has_publication_lookup.
      destruct (validated_publication scoped record binding) as (publication & item & Hpub & Hd & _ & Hitem & Ha); [done..|by apply Hp|].
      exists (ref_activation (pub_reference item)). split; [unfold settled, settled_references; by do 2 apply list_elem_of_fmap_2|].
      pose proof (ro_activation _ (po_reference _ (proj1 (Forall_forall _ _) (lo_records _ (wf_ledger _ Hwf)) _ Hitem))) as Hcan. rewrite Ha in *.
      unfold publication_availability_coordinate, stable_activation, StableActivation_new. cbn [act_run_id act_superstep act_node_id].
      rewrite bool_decide_true by done. cbn [negb raise_if mbind result_bind]. destruct Hcan as [_ Hs Hn]. cbn in Hs, Hn.
      apply canonical_spec in Hn. rewrite Hn, (proj2 (Z.ltb_ge _ _) Hs). cbn [negb orb raise_if mbind result_bind]. rewrite Hpub. cbn [mbind result_bind].
      rewrite <- Hd. rewrite <- Hc. by destruct (cp_coordinate record) as [[] ?].
    + intros (x & Hx & Hco). destruct (coordinate_of_spec _ _ _ _ Hco) as [Hact _].
      assert (pac_activation c ∈ concat expected) as Hin.
      { unfold settled, settled_references in Hx. rewrite <- list_fmap_compose in Hx. apply list_elem_of_fmap in Hx as (item & -> & Hitem).
        destruct (DefinitionProofs.Forall2_elem_r _ _ _ _ (proj2 (Forall2_flip _ _ _) Hex) Hb) as (acts & Hacts & Hm%mapM_Forall2).
        destruct (DefinitionProofs.Forall2_elem_r _ _ _ _ (proj2 (Forall2_flip _ _ _) Hm) Hitem) as (act & Hact' & Hst).
        apply list_elem_of_In, in_concat. exists acts. rewrite <- !list_elem_of_In. split; [done|]. unfold publication_availability_coordinate in Hco. cbn in Hst, Hco.
        rewrite Hst in Hco. cbn in Hco. by apply bind_Ok in Hco as (? & _ & [= <-]). }
      apply Hpubs, list_elem_of_fmap in Hin as (record & Hr & Hin). cbn in Hr.
      destruct (validated_publication scoped record binding) as (publication & item & Hpub & Hd & _); [done|done|by rewrite <- Hr, Hc|by apply Hp|].
      assert (cp_coordinate record = c) as <-; [|apply has_record_spec; by apply list_elem_of_fmap_2].
      unfold publication_availability_coordinate in Hco. apply bind_Ok in Hco as (st & Hst & Hco). apply bind_Ok in Hco as (p & Hp' & [= <-]).
      cbn in Hr, Hact. subst st. rewrite <- Hr in Hpub. cbn in Hpub. rewrite Hp' in Hpub. injection Hpub as <-.
      destruct (cp_coordinate record) as [a d]. cbn in *. by subst.
Qed.
End validated.

(* ------------------------------------------------------------------ *)
(** ** Restoring *)

Section restored.
Context {A V W C S : Type} `{EqDecision A} `{EqDecision V} `{ValueTypes A V W} `{Configs C} `{EqDecision S}.
Implicit Types (graph : CompiledGraph V) (frames : ScopedFrameIndex A C S) (recovery : GraphRecovery A C S).

Lemma recovery_admit_same recovery recovery' : GraphRecovery_admit recovery = Ok recovery' → recovery' = recovery.
Proof.
  unfold GraphRecovery_admit. rewrite except_Ok. intros E. do 2 apply bind_Ok in E as (? & _ & E). apply seq_Ok_iff in E as [_ E].
  apply bind_Ok in E as (? & _ & E). do 2 apply seq_Ok_iff in E as [_ E]. by injection E.
Qed.

(** The writes of a restoration, in order. *)
Lemma restore_input_add graph codec configs frames graph_input frames' :
  restore_input graph codec configs frames graph_input = Ok frames' →
  ∃ frame, add frames (AddInput (mkAdmittedInput (pgi_coordinate graph_input) frame)) = Ok frames'.
Proof.
  unfold restore_input. intros E. apply bind_Ok in E as (scoped & _ & E). apply bind_Ok in E as ([values config] & _ & E).
  apply bind_Ok in E as (frame & _ & E). by exists frame.
Qed.

(** The frame that the record of a publication holds. *)
Definition restored_frame graph codec configs (publication : PersistedPublication) (frame : Frame A C) : Prop :=
  ∃ scoped descriptor (values : GraphValues A C S) config,
    compiled_graph_at_scope graph (scope (sa_scope_run (pac_activation (pp_coordinate publication)))) = Ok scoped
    ∧ map_get (publications (transition scoped)) (sa_node_id (pac_activation (pp_coordinate publication))) = Ok descriptor
    ∧ decode_frame (pp_frame publication) codec configs = Ok (values, config)
    ∧ make_node_output_frame values (fd_declarations descriptor) config = Ok frame.

Lemma restore_publication_add graph codec configs frames publication frames' :
  restore_publication graph codec configs frames publication = Ok frames' →
  ∃ frame, restored_frame graph codec configs publication frame
    ∧ add frames (AddPublication (mkConfirmedPublication (pp_coordinate publication) frame (ck_revision (pp_birth publication))
        (pp_provenance publication))) = Ok frames'.
Proof.
  unfold restore_publication. intros E. apply bind_Ok in E as (scoped & Hsc & E). apply bind_Ok in E as (descriptor & Hd & E).
  apply bind_Ok in E as ([values config] & Hdec & E). apply bind_Ok in E as (frame & Hf & E). exists frame. split; [|done].
  by exists scoped, descriptor, values, config.
Qed.

Lemma restore_boundary_add graph session frames binding frames' : restore_boundary graph session frames binding = Ok frames' →
  frames' = frames ∨ ∃ record, add frames (AddBoundary record) = Ok frames'.
Proof.
  unfold restore_boundary. case_bool_decide; [|by intros [= <-]; left]. intros E. apply bind_Ok in E as (scoped & _ & E).
  apply bind_Ok in E as (available & _ & E). apply seq_Ok_iff in E as [_ E]. case_match; [by injection E as <-; left|].
  apply bind_Ok in E as (view & _ & E). right. by eexists.
Qed.

(** An addition keeps what the index already holds, and no restoration adds resume inputs. *)
Lemma add_keeps frames addition frames' : index_ok frames → add frames addition = Ok frames' →
  index_ok frames' ∧ bound frames addition frames'.
Proof.
  intros Hok Ha. destruct (known frames addition) eqn:Hk; [destruct (add_Raise _ _ Hok Hk) as [m E]; congruence|].
  destruct (add_Ok _ _ Hok Hk) as (frames'' & Ha' & Hok' & Hb). rewrite Ha' in Ha. by injection Ha as <-.
Qed.

Lemma add_resumes frames addition frames' : add frames addition = Ok frames' →
  match addition with AddResume _ => True | _ => ix_resume_inputs frames' = ix_resume_inputs frames end.
Proof. destruct addition; cbn; [..|done|]; unfold add_graph_input, add_publication, add_child_boundary; by intros (? & _ & [= <-])%bind_Ok. Qed.

(** An index in order, without resume inputs, that holds the publications restored so far. *)
Record holding graph codec configs (restored : list PersistedPublication) frames : Prop := {
  ho_index : index_ok frames;
  ho_resumes : ix_resume_inputs frames = [];
  ho_publications : ∀ publication, publication ∈ restored → ∃ frame, restored_frame graph codec configs publication frame
    ∧ lookup_publication frames (pp_coordinate publication) = Ok (mkConfirmedPublication (pp_coordinate publication) frame
        (ck_revision (pp_birth publication)) (pp_provenance publication))
}.

Lemma holding_other graph codec configs restored frames addition frames' :
  holding graph codec configs restored frames → add frames addition = Ok frames' →
  match addition with AddPublication _ | AddResume _ => False | _ => True end → holding graph codec configs restored frames'.
Proof.
  intros [Hi Hr Hp] Ha Hkind. destruct (add_keeps _ _ _ Hi Ha) as [Hi' Hb]. pose proof (add_resumes _ _ _ Ha) as Hrs.
  split; [done|by destruct addition; rewrite ?Hrs|]. intros publication (frame & Hf & Hl)%Hp. exists frame. split; [done|].
  rewrite (bd_publication _ _ _ Hb). by destruct addition.
Qed.

Lemma holding_publication graph codec configs restored publication frames frames' :
  holding graph codec configs restored frames → restore_publication graph codec configs frames publication = Ok frames' →
  holding graph codec configs (restored ++ [publication]) frames'.
Proof.
  intros [Hi Hr Hp] (frame & Hf & Ha)%restore_publication_add. destruct (add_keeps _ _ _ Hi Ha) as [Hi' Hb].
  pose proof (add_resumes _ _ _ Ha) as Hrs. cbn in Hrs. split; [done|by rewrite Hrs|].
  intros p [(frame' & Hf' & Hl)%Hp|E%list_elem_of_singleton]%elem_of_app; [|subst p].
  - exists frame'. split; [done|]. rewrite (bd_publication _ _ _ Hb). case_bool_decide as Ec; [|done]. cbn in Ec. exfalso.
    assert (known frames (AddPublication (mkConfirmedPublication (pp_coordinate publication) frame (ck_revision (pp_birth publication))
      (pp_provenance publication))) = true) as Hk.
    { cbn. rewrite <- Ec. by apply has_publication_lookup; eexists. }
    destruct (add_Raise _ _ Hi Hk) as [m E]. by rewrite E in Ha.
  - exists frame. split; [done|]. rewrite (bd_publication _ _ _ Hb). by rewrite bool_decide_true.
Qed.

(** What a restoration went through. *)
Record restored graph recovery frames (lineage : PlannedLineage) (configs : list (ConfigKey * C)) : Prop := {
  re_lineage : lineage_states (gc_root_state (gr_checkpoint recovery)) (gc_child_runs (gr_checkpoint recovery)) = Ok lineage;
  re_configs : recovered_configs (gr_configs recovery) = Ok configs;
  re_fits : ∀ binding, binding ∈ pl_bindings lineage → ∃ scoped, fits graph binding scoped;
  re_holding : holding graph (du_codec (gr_commit recovery)) configs (gc_publications (gr_checkpoint recovery)) frames;
  re_index : validate_frame_index graph lineage frames = Ok tt;
  re_complete : validate_complete_context graph lineage frames = Ok tt
}.

Lemma restore_checkpoint_Ok graph recovery frames : restore_checkpoint graph recovery = Ok frames →
  ∃ lineage configs, restored graph recovery frames lineage configs.
Proof.
  unfold restore_checkpoint. intros (recovery' & ->%recovery_admit_same & E)%bind_Ok.
  apply bind_Ok in E as (lineage & Hl & E). apply bind_Ok in E as (configs & Hc & E). apply seq_Ok_iff in E as [Hb E].
  do 2 apply seq_Ok_iff in E as [_ E]. rewrite except_Ok in E. apply bind_Ok in E as (frames1 & H1 & E).
  apply bind_Ok in E as (frames2 & H2 & E). apply seq_Ok_iff in E as [_ E]. apply bind_Ok in E as (frames3 & H3 & E).
  apply seq_Ok_iff in E as [Hv [= <-]]. exists lineage, configs. unfold validate_context in Hv. apply bind_Ok in Hv as (? & _ & Hv).
  apply seq_Ok_iff in Hv as [Hi Hcomp]. rewrite py_for_Ok in Hb.
  set (codec := du_codec (gr_commit recovery)) in *.
  assert (holding graph codec configs [] frames1) as Hh1.
  { refine (py_for_state_prefix (λ _ frames, holding graph codec configs [] frames) _ _ _ _ _ _ H1).
    - intros dn graph_input st st' Hst (frame & Ha)%restore_input_add. by eapply holding_other.
    - split; [apply empty_index_ok|done|by intros p ?%elem_of_nil]. }
  assert (holding graph codec configs (gc_publications (gr_checkpoint recovery)) frames2) as Hh2.
  { refine (py_for_state_prefix (λ dn frames, holding graph codec configs dn frames) _ _ _ _ _ Hh1 H2).
    intros dn publication st st' Hst Ha. by eapply holding_publication. }
  split; [done|done| | |done|done].
  - intros binding Hin. specialize (Hb _ Hin). unfold check_binding in Hb. apply bind_Ok in Hb as (scoped & Hsc & Hb).
    apply seq_Ok_iff in Hb as [Hg _]. by exists scoped.
  - refine (py_for_state_prefix (λ _ frames, holding graph codec configs (gc_publications (gr_checkpoint recovery)) frames) _ _ _ _ _ Hh2 H3).
    intros dn binding st st' Hst [->|(record & Ha)]%restore_boundary_add; [done|]. by eapply holding_other.
Qed.

(** C12: recovery re-establishes what execution maintains.  Whatever frame index
    [restore_checkpoint] returns: for every state of the recovered family, the compiled
    graph of its scope accepts the state, and the index is in order, holds the graph input
    of the run, holds a publication of the run exactly when the state's ledger settles that
    activation, and is typed by the graph; and for every persisted publication the index
    holds the frame its envelope decodes to, at its coordinate, with the revision and the
    execution it was committed under. *)
Theorem recovered_index_sound graph recovery frames :
  restore_checkpoint graph recovery = Ok frames →
  ∃ lineage configs,
    lineage_states (gc_root_state (gr_checkpoint recovery)) (gc_child_runs (gr_checkpoint recovery)) = Ok lineage
    ∧ recovered_configs (gr_configs recovery) = Ok configs
    ∧ (∀ binding, binding ∈ pl_bindings lineage → ∃ scoped,
        compiled_graph_at_scope graph (scope (ssb_scope_run binding)) = Ok scoped
        ∧ installed scoped (ssb_scope_run binding) frames (ssb_state binding)
        ∧ index_typed scoped (ssb_scope_run binding) frames)
    ∧ (∀ publication, publication ∈ gc_publications (gr_checkpoint recovery) → ∃ frame,
        restored_frame graph (du_codec (gr_commit recovery)) configs publication frame
        ∧ lookup_publication frames (pp_coordinate publication) = Ok (mkConfirmedPublication (pp_coordinate publication) frame
            (ck_revision (pp_birth publication)) (pp_provenance publication))).
Proof.
  intros (lineage & configs & [Hl Hc Hfits Hh Hi Hcomp])%restore_checkpoint_Ok. exists lineage, configs.
  destruct (lineage_states_ok _ _ _ Hl) as [Hok _]. split_and!; [done|done| |apply Hh].
  intros binding Hin. destruct (Hfits _ Hin) as [scoped Hfit]. exists scoped. pose proof Hfit as [Hsc _]. split_and!; [done| |].
  - by eapply complete_installed.
  - by eapply validated_index_typed.
Qed.

(* ---------------------------------------------------------------- *)
(** ** Recovered nodes *)

Lemma all_available_readable graph state scope_run superstep cause frames bindings :
  all_available graph (Some state) scope_run superstep (Some cause) frames bindings = Ok true →
  Forall (readable graph scope_run (Some state) superstep cause frames) bindings.
Proof.
  induction bindings as [|binding bindings IH]; [constructor|]. cbn. intros ([source coordinate] & Hc & E)%bind_Ok.
  destruct (frame_coordinate_available frames coordinate) eqn:Ea; [|done]. constructor; [|by apply IH].
  apply available_lookup in Ea as [frame Hf]. unfold binding_coordinate in Hc. apply except_str_Ok in Hc. by exists source, coordinate, frame.
Qed.

Lemma available_pending graph state scope_run frames node cause :
  ix_resume_inputs frames = [] → frontier_node (st_frontier state) node = Some (mkFrontierNode node (PendingGraphNode UseStepRequestInput) cause) →
  pending_node_input_available graph state scope_run frames node = Ok true →
  ∃ plan, map_get (materializations (transition graph)) node = Ok plan
    ∧ Forall (readable graph scope_run (Some state) (st_superstep state) cause frames) (mp_bindings plan).
Proof.
  intros Hr Hn. unfold pending_node_input_available, node_inputs_available. rewrite Hn. unfold require_node_materialization.
  destruct (map_get _ node) as [plan|] eqn:Hm; [|done]. cbn [mbind result_bind]. intros E. do 2 apply bind_Ok in E as (? & _ & E).
  cbn [has_resume_input index_resume_availability] in E. rewrite Hr in E. cbn [has_record existsb] in E. rewrite andb_false_r in E.
  apply bind_Ok in E as (cause' & Hcause & E). do 2 apply seq_Ok_iff in Hcause as [_ Hcause]. injection Hcause as <-.
  exists plan. split; [done|]. by apply all_available_readable.
Qed.

(** C20: a recovered run can go on.  After [restore_checkpoint] of a graph of a compiled
    family: every node that is pending in a running state of the recovered family, takes
    its input from its sources and is not a nested graph gets its input materialized from
    the restored index alone, with exactly the declared names and exact declared classes;
    unless, among the restored frames that this input combines, two carry different Configs
    or one a malformed Config, or the owner's Session carries a malformed one. *)
Theorem recovered_nodes_materialize graph recovery frames lineage codec binding scoped node cause (session : option (AgentSession C S)) :
  compiled_graph graph → restore_checkpoint graph recovery = Ok frames →
  lineage_states (gc_root_state (gr_checkpoint recovery)) (gc_child_runs (gr_checkpoint recovery)) = Ok lineage →
  binding ∈ pl_bindings lineage → compiled_graph_at_scope graph (scope (ssb_scope_run binding)) = Ok scoped →
  st_status (ssb_state binding) = RUNNING →
  frontier_node (st_frontier (ssb_state binding)) node = Some (mkFrontierNode node (PendingGraphNode UseStepRequestInput) cause) →
  map_has (nested_graphs scoped) node = false →
  ∃ plan, map_get (materializations (transition scoped)) node = Ok plan
    ∧ (config_trouble (input_configs scoped (ssb_scope_run binding) frames (ssb_state binding)
         (mkFrontierNode node (PendingGraphNode UseStepRequestInput) cause) plan) session
       ∨ ∃ frame, materialize_node_input codec scoped (ssb_state binding) (ssb_scope_run binding) frames node session = Ok frame
           ∧ typed (nf_entries frame) (fd_declarations (mp_descriptor plan))).
Proof.
  intros Hg (lineage' & configs & [Hl' Hc Hfits Hh Hi Hcomp])%restore_checkpoint_Ok Hl Hin Hsc Hst Hn Hnest.
  rewrite Hl' in Hl. injection Hl as ->. destruct (lineage_states_ok _ _ _ Hl') as [Hok _].
  destruct (Hfits _ Hin) as (scoped' & Hsc' & Hguard). rewrite Hsc in Hsc'. injection Hsc' as <-.
  destruct (validated_index_typed graph lineage Hok _ _ _ Hin Hsc Hi) as [_ Hty].
  unfold validate_complete_context in Hcomp. apply seq_Ok_iff in Hcomp as [_ Hcomp]. apply bind_Ok in Hcomp as (? & _ & Hcomp).
  apply seq_Ok_iff in Hcomp as [_ Hcomp]. rewrite py_for_Ok in Hcomp. specialize (Hcomp _ Hin). unfold validate_complete_binding in Hcomp.
  rewrite Hsc in Hcomp. cbn [mbind result_bind] in Hcomp. apply seq_Ok_iff in Hcomp as [Hnodes _]. rewrite py_for_Ok in Hnodes.
  pose proof (frontier_node_Some _ _ _ Hn) as [Hnode _]. specialize (Hnodes _ Hnode). cbn [fn_settlement fn_node_id is_pending] in Hnodes.
  rewrite Hnest in Hnodes. cbn [negb andb] in Hnodes. apply bind_Ok in Hnodes as (available & Hav & Ha%raise_if_Ok%negb_false_iff). subst available.
  destruct (available_pending _ _ _ _ _ _ (ho_resumes _ _ _ _ _ Hh) Hn Hav) as (plan & Hplan & Hread). exists plan. split; [done|].
  apply pending_materializes; try done; [by eapply compiled_graph_scoped|by apply guard_grounded].
Qed.
End restored.

(* ------------------------------------------------------------------ *)
(** ** Recovering a run

    The run of [signed] again, with every commit going through the durable port: after the
    start, [a] is pending; after its settlement, its output is published. *)

Section demo.
#[local] Existing Instances signed_types demo_configs.

Definition signed_durable : DurableGraphCommit Z unit unit := mkDurable (byte_codec None) None None.
(** A durable commit: the state it confirms and the request its writer gets. *)
Definition no_request : GraphPersistenceCommit := mkPersistenceCommit [] None signed_state (mkPersistenceWrites (mkCommitKey [] 0) [] []) None.
Definition request_of (transition : GraphTransition Z unit unit) : GraphPersistenceCommit :=
  match durable_request signed_durable transition with Ok (_, request) => request | Raise _ => no_request end.
Definition durable_start : GraphPersistenceCommit := request_of signed_started.
Notation durable_transition previous command result_ :=
  (transition_of (prepare_transition (A := Z) (C := unit) (S := unit) signed_scope (Some previous) command result_ signed None None None)).
Definition durable_claim : GraphPersistenceCommit :=
  request_of (durable_transition (gpc_candidate_state durable_start) (CmdClaim (mkClaim 0 (lit "attempt") None)) None).
Definition durable_settle : GraphPersistenceCommit :=
  request_of (durable_transition (gpc_candidate_state durable_claim) (CmdSettle signed_settle) (Some signed_result)).

Definition started_recovery : GraphRecovery Z unit unit :=
  mkRecovery (mkCheckpoint (gpc_candidate_state durable_start) [] (pw_graph_inputs (gpc_writes durable_start)) [] None) signed_durable [] None.
Definition settled_recovery : GraphRecovery Z unit unit :=
  mkRecovery (mkCheckpoint (gpc_candidate_state durable_settle) [] (pw_graph_inputs (gpc_writes durable_start))
    (pw_publications (gpc_writes durable_settle)) None) signed_durable [] None.
Definition started_frames : ScopedFrameIndex Z unit unit := index_of (restore_checkpoint signed started_recovery).
Definition settled_frames : ScopedFrameIndex Z unit unit := index_of (restore_checkpoint signed settled_recovery).

Lemma recovered_index_sound_witness : ∃ lineage configs,
  lineage_states (gc_root_state (gr_checkpoint settled_recovery)) (gc_child_runs (gr_checkpoint settled_recovery)) = Ok lineage ∧ recovered_configs (gr_configs settled_recovery) = Ok configs
  ∧ (∀ binding, binding ∈ pl_bindings lineage → ∃ scoped,
      compiled_graph_at_scope signed (scope (ssb_scope_run binding)) = Ok scoped
      ∧ installed scoped (ssb_scope_run binding) settled_frames (ssb_state binding)
      ∧ index_typed scoped (ssb_scope_run binding) settled_frames)
  ∧ (∀ publication, publication ∈ gc_publications (gr_checkpoint settled_recovery) → ∃ frame,
      restored_frame signed (du_codec (gr_commit settled_recovery)) configs publication frame
      ∧ lookup_publication settled_frames (pp_coordinate publication) = Ok (mkConfirmedPublication (pp_coordinate publication) frame
          (ck_revision (pp_birth publication)) (pp_provenance publication))).
Proof. apply (recovered_index_sound signed settled_recovery settled_frames). computed. Defined.

Definition started_binding : ScopedStateBinding := mkStateBinding signed_scope (gpc_candidate_state durable_start).
Lemma recovered_nodes_materialize_witness : ∃ plan frame,
  map_get (materializations (transition signed)) (lit "a") = Ok plan
  ∧ materialize_node_input no_codec signed (ssb_state started_binding) (ssb_scope_run started_binding) started_frames (lit "a") None = Ok frame
  ∧ typed (nf_entries frame) (fd_declarations (mp_descriptor plan)).
Proof.
  destruct (recovered_nodes_materialize signed started_recovery started_frames (mkLineage [started_binding] []) no_codec started_binding signed
    (lit "a") StartActivationCause None) as (plan & Hp & [[]%no_trouble|(frame & Hm & Ht)]);
    [apply signed_graph|computed|computed|by left|computed|computed|computed|computed|].
  exists plan, frame. exact (conj Hp (conj Hm Ht)).
Defined.
End demo.
