(* ===== verification/Recovery.v ===== *)
(** * The recovery proof

    [execution/engine/recovery.py]: before a recovered invocation runs, its whole family is
    simulated on availability coordinates alone: a bounded search over transfer states with
    the reducer and the routing resolver of a real run, in which every historical value
    that some branch reads must be available. *)

From Stdlib Require Import ZArith NArith Lia Bool String Strings.Byte.
From stdpp Require Import prelude strings gmap sorting.
From S2P Require Import Prelude Identity Resources Model Validation Transitions Reducer Topology Routing Engine Values RunContext Materialization Superstep Commitment Invocation.

Set Default Goal Selector "!".
Open Scope Z_scope.

(** [_MAX_RECOVERY_TRANSFER_STATES] *)
Definition max_transfer_states : Z := 4096.

(* ------------------------------------------------------------------ *)
(** ** Availability *)

(** [RecoveryAvailabilityCoordinates] *)
Record RecoveryAvailabilityCoordinates := mkAvailability {
  ra_graph_inputs : list GraphInputAvailabilityCoordinate;
  ra_publications : list PublicationAvailabilityCoordinate;
  ra_resume_inputs : list ResumeInputAvailabilityCoordinate;
  ra_child_boundaries : list ChildBoundaryAvailabilityCoordinate
}.
#[export] Instance availability_eq_dec : EqDecision RecoveryAvailabilityCoordinates.
Proof. solve_decision. Defined.
Notation Availability := RecoveryAvailabilityCoordinates.

#[export] Instance recovery_availability : ScopedFrameAvailability Availability := {|
  has_graph_input availability coordinate := mem coordinate (ra_graph_inputs availability);
  has_publication availability coordinate := mem coordinate (ra_publications availability)
|}.
#[export] Instance recovery_resume_availability : ResumeInputAvailability Availability := {|
  has_resume_input availability coordinate := mem coordinate (ra_resume_inputs availability)
|}.

(** [RecoveryAvailabilityCoordinates.from_frames] *)
Definition from_frames {A C S} (frames : ScopedFrameIndex A C S) : result Availability :=
  let publications := cp_coordinate <$> ix_publications frames in
  raise_if (negb (no_repeats publications)) SnapshotMismatchError "recovery publication availability coordinates must be unique";;
  Ok (mkAvailability (sorted (agi_coordinate <$> ix_graph_inputs frames)) (sorted publications)
        (sorted (ari_coordinate <$> ix_resume_inputs frames)) (sorted (ccb_coordinate <$> ix_child_boundaries frames))).

(** [with_graph_input], [with_publication] and [with_child_boundary] *)
Definition with_graph_input (self : Availability) (coordinate : GraphInputAvailabilityCoordinate) : Availability :=
  if mem coordinate (ra_graph_inputs self) then self
  else mkAvailability (sorted (ra_graph_inputs self ++ [coordinate])) (ra_publications self) (ra_resume_inputs self) (ra_child_boundaries self).
Definition with_publication (self : Availability) (coordinate : PublicationAvailabilityCoordinate) : Availability :=
  if mem coordinate (ra_publications self) then self
  else mkAvailability (ra_graph_inputs self) (sorted (ra_publications self ++ [coordinate])) (ra_resume_inputs self) (ra_child_boundaries self).
Definition with_child_boundary (self : Availability) (coordinate : ChildBoundaryAvailabilityCoordinate) : Availability :=
  if mem coordinate (ra_child_boundaries self) then self
  else mkAvailability (ra_graph_inputs self) (ra_publications self) (ra_resume_inputs self) (sorted (ra_child_boundaries self ++ [coordinate])).

(* ------------------------------------------------------------------ *)
(** ** Records *)

Inductive RecoverySettlementKind :=
| PENDING_MATERIALIZED | PENDING_OVERRIDE | SUCCEEDED_CONTINUE | SUCCEEDED_ROUTE | SETTLED_FAILED | SETTLED_INTERRUPTED.
Inductive RecoveryActivationCauseKind := CAUSE_START | CAUSE_ROUTED.
Inductive RecoveryChildFailureKind := CHILD_FAILED | CHILD_ABORTED | SUPERSEDED_AWAITING_RESUME.
Inductive ScopeBoundaryKind :=
| SCOPE_COMPLETED | SCOPE_FAILED | SCOPE_ABORTED | SCOPE_AWAITING_RESUME | EXECUTION_LIMIT | BOUNDED_RECURRENCE.

(** The values of the [IntEnum]s and of [GraphRunStatus]. *)
Definition settlement_value (kind : RecoverySettlementKind) : Z :=
  match kind with
  | PENDING_MATERIALIZED => 1 | PENDING_OVERRIDE => 2 | SUCCEEDED_CONTINUE => 3 | SUCCEEDED_ROUTE => 4
  | SETTLED_FAILED => 5 | SETTLED_INTERRUPTED => 6
  end.
Definition cause_value (kind : RecoveryActivationCauseKind) : Z := match kind with CAUSE_START => 1 | CAUSE_ROUTED => 2 end.
Definition boundary_value (kind : ScopeBoundaryKind) : Z :=
  match kind with
  | SCOPE_COMPLETED => 1 | SCOPE_FAILED => 2 | SCOPE_ABORTED => 3 | SCOPE_AWAITING_RESUME => 4
  | EXECUTION_LIMIT => 5 | BOUNDED_RECURRENCE => 6
  end.
Definition status_value (status : GraphRunStatus) : Z :=
  match status with RUNNING => 1 | COMPLETED => 2 | FAILED => 3 | ABORTED => 4 end.

(** [RecoveryActivationReference], [RecoveryActivationCause] and [RecoveryFrontierNode] *)
Record RecoveryActivationReference := mkRecoveryReference {
  rr_predecessor_distance : Z;
  rr_node_id : str;
  rr_route : option str
}.
Record RecoveryActivationCause := mkRecoveryCause {
  rc_kind : RecoveryActivationCauseKind;
  rc_references : list RecoveryActivationReference
}.
Record RecoveryFrontierNode := mkRecoveryNode {
  rn_node_id : str;
  rn_cause : RecoveryActivationCause;
  rn_settlement : RecoverySettlementKind;
  rn_route : option str;
  rn_interrupt_id : option str
}.

(** [RecoveryTransferState] *)
Record RecoveryTransferState := mkTransfer {
  ts_binding : ScopedStateBinding;
  ts_limits : ExecutionLimits;
  ts_live : list str;
  ts_availability : Availability;
  ts_children : list ScopedRunEvidence;
  ts_admitted_actions : list AdmittedResumeFact;
  ts_invocation_new_children : list str
}.

(** [_ScopeBoundary], [_RecoveryWorkItem], [_NestedOutcome] and [_NestedCombination] *)
Record ScopeBoundary := mkScopeBoundary {
  sb_kind : ScopeBoundaryKind;
  sb_availability : Availability;
  sb_binding : ScopedStateBinding
}.
Record RecoveryWorkItem := mkWorkItem {
  wi_binding : ScopedStateBinding;
  wi_availability : Availability;
  wi_live : list str;
  wi_children : list ScopedRunEvidence;
  wi_invocation_new_children : list str
}.
Record NestedOutcome := mkNestedOutcome {
  out_node_id : str;
  out_boundary : ScopeBoundary;
  out_route : option str
}.
Record NestedCombination := mkNestedCombination {
  nc_outcomes : list NestedOutcome;
  nc_availability : Availability
}.

(** [_RecoveryCycleSignature] *)
Record RecoveryCycleSignature := mkSignature {
  cy_config_cursor : GraphConfigCursor;
  cy_frontier : list RecoveryFrontierNode;
  cy_join_progress : list GraphJoinProgress;
  cy_settled_publications : list (bool * (Z * (str * option str)));
  cy_absolute_publications : list (Z * (str * FrameDescriptorIdentity));
  cy_relative_publications : list (Z * (str * FrameDescriptorIdentity));
  cy_current_resume_inputs : list (str * FrameDescriptorIdentity);
  cy_current_child_boundaries : list (str * FrameDescriptorIdentity);
  cy_invocation_new_children : list str
}.

(** [_RecoveryFamily]; its budget is threaded through the search. *)
Record RecoveryFamily := mkFamily {
  rfam_bindings : list ScopedRunEvidence;
  rfam_limits : ExecutionLimits;
  rfam_admitted_actions : list AdmittedResumeFact
}.

#[export] Instance resume_fact_eq_dec : EqDecision AdmittedResumeFact.
Proof. solve_decision. Defined.
#[export] Instance limits_eq_dec : EqDecision ExecutionLimits.
Proof. solve_decision. Defined.
#[export] Instance settlement_kind_eq_dec : EqDecision RecoverySettlementKind.
Proof. solve_decision. Defined.
#[export] Instance cause_kind_eq_dec : EqDecision RecoveryActivationCauseKind.
Proof. solve_decision. Defined.
#[export] Instance boundary_kind_eq_dec : EqDecision ScopeBoundaryKind.
Proof. solve_decision. Defined.
#[export] Instance recovery_reference_eq_dec : EqDecision RecoveryActivationReference.
Proof. solve_decision. Defined.
#[export] Instance recovery_cause_eq_dec : EqDecision RecoveryActivationCause.
Proof. solve_decision. Defined.
#[export] Instance recovery_node_eq_dec : EqDecision RecoveryFrontierNode.
Proof. solve_decision. Defined.
#[export] Instance transfer_eq_dec : EqDecision RecoveryTransferState.
Proof. solve_decision. Defined.
#[export] Instance scope_boundary_eq_dec : EqDecision ScopeBoundary.
Proof. solve_decision. Defined.
#[export] Instance signature_eq_dec : EqDecision RecoveryCycleSignature.
Proof. solve_decision. Defined.

(** [SUPERSEDED_CHILD_ABORT_REASON] *)
Definition superseded_child_abort_reason : str := lit "nested graph was superseded by a sibling failure".

(** [_RecoveryProofBudget.admit], with the states admitted so far. *)
Definition admit_states (budget count : Z) : result Z :=
  raise_if (max_transfer_states <? budget + count) ExecutionLimitError "recovery proof exceeded its bounded transfer-state budget";;
  Ok (budget + count).

(** [_RecoveryFamily.binding] *)
Definition family_binding (family : RecoveryFamily) (coordinate : ScopeRunCoordinate) : option ScopedRunEvidence :=
  List.find (λ binding, bool_decide (evidence_scope_run binding = coordinate)) (rfam_bindings family).

(* ------------------------------------------------------------------ *)
(** ** Keys and signatures *)

(** [_activation_cause_coordinate] *)
Definition activation_cause_coordinate (state : GraphRunState) (node : GraphFrontierNode) : RecoveryActivationCause :=
  match fn_cause node with
  | StartActivationCause => mkRecoveryCause CAUSE_START []
  | RoutedActivationCause references _ =>
      mkRecoveryCause CAUSE_ROUTED ((λ reference, mkRecoveryReference (st_superstep state - act_superstep (ref_activation reference))
                                      (act_node_id (ref_activation reference)) (ref_route reference)) <$> references)
  end.

(** [_settlement_coordinate] *)
Definition settlement_coordinate (state : GraphRunState) (node : GraphFrontierNode) : RecoveryFrontierNode :=
  let cause := activation_cause_coordinate state node in
  match fn_settlement node with
  | PendingGraphNode (OverrideGraphNodeInput _) => mkRecoveryNode (fn_node_id node) cause PENDING_OVERRIDE None None
  | PendingGraphNode UseStepRequestInput => mkRecoveryNode (fn_node_id node) cause PENDING_MATERIALIZED None None
  | SucceededGraphNode (SelectGraphRoute route) => mkRecoveryNode (fn_node_id node) cause SUCCEEDED_ROUTE (Some route) None
  | SucceededGraphNode ContinueGraphRouting => mkRecoveryNode (fn_node_id node) cause SUCCEEDED_CONTINUE None None
  | FailedGraphNode _ => mkRecoveryNode (fn_node_id node) cause SETTLED_FAILED None None
  | InterruptedGraphNode interrupt =>
      let identity := interrupt_identity interrupt in
      mkRecoveryNode (fn_node_id node) cause SETTLED_INTERRUPTED None
        (Some (graph_interrupt_id (int_run_id identity) (int_superstep identity) (int_node_id identity) (int_execution_generation identity)))
  end.

(** [_atom] is [identity_field]. *)
Definition atom (value : str) : str := identity_field value.
Definition atom_or_empty (value : option str) : str := atom (default [] value).

(** [str(len(xs))] *)
Definition str_count {X} (xs : list X) : str := str_int (Z.of_nat (length xs)).

(** [_coordinate_parts] *)
Definition coordinate_parts (scope_run : ScopeRunCoordinate) : list str :=
  str_count (scope scope_run) :: (atom <$> scope scope_run) ++ [atom (graph_run_id scope_run)].

(** The parts of [recovery_traversal_key], group by group. *)
Definition cursor_parts (cursor : GraphConfigCursor) : list str :=
  [atom (cur_definition_id cursor); str_int (cur_definition_version cursor); str_int (cur_revision cursor); atom_or_empty (cur_digest cursor)].
Definition progress_parts (state : GraphRunState) : list str :=
  [str_int (status_value (st_status state)); str_int (st_superstep state); str_int (st_execution_sequence state); str_int (st_revision state)].
Definition node_parts (state : GraphRunState) (node : GraphFrontierNode) : list str :=
  let projected := settlement_coordinate state node in
  [atom (rn_node_id projected); str_int (cause_value (rc_kind (rn_cause projected))); str_int (settlement_value (rn_settlement projected));
   atom_or_empty (rn_route projected); atom_or_empty (rn_interrupt_id projected)]
  ++ concat ((λ reference, [str_int (rr_predecessor_distance reference); atom (rr_node_id reference); atom_or_empty (rr_route reference)])
               <$> rc_references (rn_cause projected)).
(** [bytes.hex] *)
Definition bytes_hex (payload : bytes) : str :=
  concat ((λ b, [hex_digit (Byte.to_N b / 16); hex_digit (Byte.to_N b mod 16)]%N) <$> payload).
Definition settlement_parts (settlement : GraphPublicationSettlement) : list str :=
  let reference := pub_reference settlement in
  [atom (act_run_id (ref_activation reference)); str_int (act_superstep (ref_activation reference));
   atom (act_node_id (ref_activation reference)); atom_or_empty (ref_route reference); str_int (pub_commit_revision settlement);
   str_int (tok_generation (pub_execution settlement)); atom (tok_attempt_id (pub_execution settlement));
   match pub_evidence settlement with Some evidence => bytes_hex (digest evidence) | None => [] end].
Definition position_parts (positions : list str) : list str := str_count positions :: (atom <$> positions).
Definition action_parts (action : AdmittedResumeFact) : list str :=
  coordinate_parts (sa_scope_run (rf_target action))
  ++ [str_int (sa_superstep (rf_target action)); atom (sa_node_id (rf_target action)); atom (rf_interrupt_id action)].

(** [_activation_config_cursor] *)
Definition activation_config_cursor {V} (graph : CompiledGraph V) (state : GraphRunState) : result (option GraphConfigCursor) :=
  cursor ← config_cursor state;
  Ok (if bool_decide (cur_definition_id cursor = cg_definition_id graph) && (cur_definition_version cursor =? cg_version graph)
         && (cur_revision cursor =? 1) && bool_decide (cur_digest cursor = None)
      then None else Some cursor).

Section search.
Context {V : Type}.
(** [str] of a descriptor and [repr] of a tuple of strings, which the interpreter defines. *)
Context (descriptor_text : FrameDescriptorIdentity → str) (repr_tuple : list str → str).
Implicit Types (graph : CompiledGraph V) (state : GraphRunState) (family : RecoveryFamily) (item : RecoveryWorkItem) (budget : Z).

Definition activation_parts (activation : StableActivation) (descriptor : FrameDescriptorIdentity) : list str :=
  coordinate_parts (sa_scope_run activation)
  ++ [str_int (sa_superstep activation); atom (sa_node_id activation); descriptor_text descriptor].
Definition child_parts (child : ScopedRunEvidence) : result (list str) :=
  match child with
  | UncreatedEvidence scope_run => Ok (coordinate_parts scope_run ++ [lit "False"])
  | StateEvidence binding =>
      cursor ← config_cursor (ssb_state binding);
      Ok (coordinate_parts (ssb_scope_run binding) ++ [lit "True"] ++ progress_parts (ssb_state binding) ++ cursor_parts cursor)
  end.

(** [recovery_traversal_key] *)
Definition recovery_traversal_key (transfer : RecoveryTransferState) : result (list str) :=
  let state := ssb_state (ts_binding transfer) in
  let availability := ts_availability transfer in
  cursor ← config_cursor state;
  let pending := pending_node_ids (st_frontier state) in
  let resource_waiting := List.filter (λ node_id, negb (mem node_id (ts_live transfer))) pending in
  children ← mapM child_parts (ts_children transfer);
  Ok ([str_int (max_supersteps (ts_limits transfer)); str_int (max_parallel_tasks (ts_limits transfer))]
      ++ coordinate_parts (ssb_scope_run (ts_binding transfer)) ++ progress_parts state ++ cursor_parts cursor
      ++ concat (node_parts state <$> frontier_nodes (st_frontier state))
      ++ concat (settlement_parts <$> st_settled_publications state)
      ++ position_parts (ts_live transfer) ++ position_parts resource_waiting
      ++ [str_int (Z.max 0 (max_parallel_tasks (ts_limits transfer) - Z.of_nat (length (ts_live transfer))))]
      ++ concat ((λ c, coordinate_parts (gic_scope_run c) ++ [descriptor_text (gic_descriptor c)]) <$> ra_graph_inputs availability)
      ++ concat ((λ c, activation_parts (pac_activation c) (pac_descriptor c)) <$> ra_publications availability)
      ++ concat ((λ c, activation_parts (ric_activation c) (ric_descriptor c)) <$> ra_resume_inputs availability)
      ++ concat ((λ c, coordinate_parts (cbc_child_scope_run c) ++ [descriptor_text (cbc_descriptor c)]) <$> ra_child_boundaries availability)
      ++ concat children ++ concat (action_parts <$> ts_admitted_actions transfer)
      ++ position_parts (ts_invocation_new_children transfer)).

(** [_transfer_state] *)
Definition transfer_state item family : RecoveryTransferState :=
  mkTransfer (wi_binding item) (rfam_limits family) (sorted (wi_live item)) (wi_availability item)
    (sorted_key (scope_run_key ∘ evidence_scope_run) (wi_children item)) (rfam_admitted_actions family)
    (sorted (wi_invocation_new_children item)).

(** Publications of the run by (superstep or distance, node, descriptor). *)
Definition publication_keys (keep : Z → bool) (key : Z → Z) (scope_run : ScopeRunCoordinate) (publications : list PublicationAvailabilityCoordinate)
    : list (Z * (str * FrameDescriptorIdentity)) :=
  sorted_key (λ '(step, (node_id, descriptor)), (step, (node_id, descriptor_key descriptor)))
    ((λ c, (key (sa_superstep (pac_activation c)), (sa_node_id (pac_activation c), pac_descriptor c)))
       <$> List.filter (λ c, bool_decide (sa_scope_run (pac_activation c) = scope_run) && keep (sa_superstep (pac_activation c))) publications).

(** The boundaries of the current children of one nested node. *)
Definition current_boundaries state (scope_run : ScopeRunCoordinate) (availability : Availability) (node_id : str)
    : result (list (str * FrameDescriptorIdentity)) :=
  parent ← GraphActivationIdentity_new (st_run_id state) (st_superstep state) node_id;
  child_scope_run ← child_scope_run_for_activation scope_run parent;
  Ok ((λ c, (node_id, cbc_descriptor c))
        <$> List.filter (λ c, bool_decide (cbc_child_scope_run c = child_scope_run)) (ra_child_boundaries availability)).

(** The references that the causes of the frontier and the Join progress hold. *)
Definition referenced_settlements state : list ActivationReference :=
  concat ((λ node, match fn_cause node with RoutedActivationCause references _ => references | StartActivationCause => [] end)
            <$> frontier_nodes (st_frontier state)) ++ concat (jp_arrived <$> st_join_progress state).

(** [_recovery_cycle_signature]; settlement keys of distinct activations differ before
    their routes. *)
Definition recovery_cycle_signature graph item (window : PublicationHistoryWindow) : result (option RecoveryCycleSignature) :=
  let state := ssb_state (wi_binding item) in
  let scope_run := ssb_scope_run (wi_binding item) in
  let availability := wi_availability item in
  if bool_decide (is_Some (st_execution state)) || negb (is_nil (wi_live item)) || negb (is_nil (wi_children item)) then Ok None
  else
    let absolute := λ step, mem step (absolute_supersteps window) in
    let relative := λ step, (0 <=? st_superstep state - step) && (st_superstep state - step <=? relative_horizon window) in
    let resume_inputs := sorted_key (λ '(node_id, descriptor), (node_id, descriptor_key descriptor))
      ((λ c, (sa_node_id (ric_activation c), ric_descriptor c))
         <$> List.filter (λ c, bool_decide (sa_scope_run (ric_activation c) = scope_run)
                               && (sa_superstep (ric_activation c) =? st_superstep state)) (ra_resume_inputs availability)) in
    boundaries ← mapM (λ nested, current_boundaries state scope_run availability nested.1) (nested_graphs graph);
    let kept := List.filter (λ settlement, let reference := pub_reference settlement in
        mem reference (referenced_settlements state) || absolute (act_superstep (ref_activation reference))
        || relative (act_superstep (ref_activation reference))) (st_settled_publications state) in
    let settled := sorted_key (λ '(is_absolute, (step, (node_id, route))), (is_absolute, (step, (node_id, (bool_decide (is_Some route), default [] route)))))
      ((λ settlement, let reference := pub_reference settlement in let step := act_superstep (ref_activation reference) in
          if absolute step then (true, (step, (act_node_id (ref_activation reference), ref_route reference)))
          else (false, (st_superstep state - step, (act_node_id (ref_activation reference), ref_route reference)))) <$> kept) in
    cursor ← config_cursor state;
    Ok (Some (mkSignature cursor (settlement_coordinate state <$> frontier_nodes (st_frontier state)) (st_join_progress state) settled
      (publication_keys absolute (λ step, step) scope_run (ra_publications availability))
      (publication_keys relative (λ step, st_superstep state - step) scope_run (ra_publications availability))
      resume_inputs
      (sorted_key (λ '(node_id, descriptor), (node_id, descriptor_key descriptor)) (concat boundaries))
      (sorted (wi_invocation_new_children item)))).

(* ---------------------------------------------------------------- *)
(** ** Simulated steps *)

(** [_select_live] *)
Definition select_live graph state (limits : ExecutionLimits) (live : list str) : result (list str) :=
  tasks ← plan_tasks graph state limits;
  selected ← select_executable_tasks graph tasks (st_resources state) limits (Z.of_nat (length live)) live;
  Ok (sorted (live ++ (task_node_id <$> selected))).

(** The child run of one nested activation. *)
Definition child_coordinate (binding : ScopedStateBinding) (node_id : str) : result (GraphActivationIdentity * ScopeRunCoordinate) :=
  parent ← GraphActivationIdentity_new (st_run_id (ssb_state binding)) (st_superstep (ssb_state binding)) node_id;
  coordinate ← child_scope_run_for_activation (ssb_scope_run binding) parent;
  Ok (parent, coordinate).

(** [_initial_children] *)
Definition initial_child graph (binding : ScopedStateBinding) family (invocation_new : list str) (dispositions : list ScopedRunEvidence)
    (node_id : str) : result (list ScopedRunEvidence) :=
  if negb (map_has (nested_graphs graph) node_id) then Ok dispositions
  else
    '(_, coordinate) ← child_coordinate binding node_id;
    match family_binding family coordinate with
    | None =>
        raise_if (negb (mem node_id invocation_new)) GraphValueUnavailableError "resume actions lack child snapshot/nested boundary";;
        uncreated ← UncreatedGraphRun_new coordinate;
        Ok (dispositions ++ [UncreatedEvidence uncreated])
    | Some disposition =>
        raise_if (match disposition with StateEvidence child => bool_decide (st_parent (ssb_state child) = None) | UncreatedEvidence _ => false end)
          SnapshotMismatchError "nested recovery state is missing its parent activation";;
        Ok (dispositions ++ [disposition])
    end.
Definition initial_children graph (binding : ScopedStateBinding) family (invocation_new : list str) : result (list ScopedRunEvidence) :=
  dispositions ← py_for_state (pending_node_ids (st_frontier (ssb_state binding))) [] (initial_child graph binding family invocation_new);
  Ok (sorted_key (scope_run_key ∘ evidence_scope_run) dispositions).

(** [_completed_child_outcomes] *)
Definition completed_child_outcomes (node_id : str) (child_graph : CompiledGraph V) (boundary : ScopeBoundary) : list NestedOutcome :=
  let coordinate := mkBoundaryCoordinate (ssb_scope_run (sb_binding boundary)) (fd_identity (graph_output_descriptor child_graph)) in
  let availability := with_child_boundary (sb_availability boundary) coordinate in
  [mkNestedOutcome node_id (mkScopeBoundary (sb_kind boundary) availability (sb_binding boundary))
     (st_completion_route (ssb_state (sb_binding boundary)))].

(** The search in a child scope, which the search in a scope calls: the boundaries, and the
    states admitted after it. *)
Context (prove_scope : CompiledGraph V → ScopedStateBinding → Availability → RecoveryFamily → Z → result (list ScopeBoundary * Z)).

(** The state a child starts from, and the values available to it. *)
Definition child_seed (parent_graph child_graph : CompiledGraph V) (parent_state : GraphRunState) (parent : GraphActivationIdentity)
    (coordinate : ScopeRunCoordinate) (availability : Availability) family : result (ScopedStateBinding * Availability) :=
  match family_binding family coordinate with
  | Some (StateEvidence child_binding) =>
      let child_state := ssb_state child_binding in
      raise_if (negb (bool_decide (st_run_id child_state = graph_run_id coordinate))) SnapshotMismatchError
        "child recovery snapshot has an inconsistent scope-run identity";;
      raise_if (negb (bool_decide (st_parent child_state = Some parent))) SnapshotMismatchError
        "child recovery snapshot does not match its parent activation";;
      Ok (child_binding, availability)
  | _ =>
      cursor ← activation_config_cursor parent_graph parent_state;
      command ← project_start_graph_command child_graph (graph_run_id coordinate) (Some parent) cursor;
      child_state ← reduce_graph_run None (CmdStart command);
      Ok (mkStateBinding coordinate child_state, with_graph_input availability (graph_input_availability_coordinate child_graph coordinate))
  end.

(** [_child_outcomes] *)
Definition child_outcomes (parent_graph : CompiledGraph V) (parent_binding : ScopedStateBinding) (node_id : str) (availability : Availability)
    family budget : result (list NestedOutcome * Z) :=
  child_graph ← map_get (nested_graphs parent_graph) node_id;
  '(parent, coordinate) ← child_coordinate parent_binding node_id;
  '(child_binding, child_availability) ←
    child_seed parent_graph child_graph (ssb_state parent_binding) parent coordinate availability family;
  let child_state := ssb_state child_binding in
  match st_status child_state with
  | COMPLETED =>
      available ← graph_outputs_available child_graph coordinate (st_superstep child_state) child_availability;
      raise_if (negb available) GraphValueUnavailableError "resume actions require completed child output history/nested boundary";;
      Ok (completed_child_outcomes node_id child_graph (mkScopeBoundary SCOPE_COMPLETED child_availability child_binding), budget)
  | FAILED => Ok ([mkNestedOutcome node_id (mkScopeBoundary SCOPE_FAILED child_availability child_binding) None], budget)
  | ABORTED => Ok ([mkNestedOutcome node_id (mkScopeBoundary SCOPE_ABORTED child_availability child_binding) None], budget)
  | RUNNING =>
      '(boundaries, budget) ← prove_scope child_graph child_binding child_availability family budget;
      Ok (concat ((λ boundary, if bool_decide (sb_kind boundary = SCOPE_COMPLETED) then completed_child_outcomes node_id child_graph boundary
                               else [mkNestedOutcome node_id boundary None]) <$> boundaries), budget)
  end.

(** [_nested_outcome_plans] *)
Definition extend_plan graph (binding : ScopedStateBinding) (node_id : str) family (next : list NestedCombination * Z) (plan : NestedCombination)
    : result (list NestedCombination * Z) :=
  '(outcomes, budget) ← child_outcomes graph binding node_id (nc_availability plan) family next.2;
  budget ← admit_states budget (Z.of_nat (length outcomes));
  Ok (next.1 ++ ((λ outcome, mkNestedCombination (nc_outcomes plan ++ [outcome]) (sb_availability (out_boundary outcome))) <$> outcomes), budget).
Definition nested_outcome_plans graph (binding : ScopedStateBinding) (node_ids : list str) (availability : Availability) family budget
    : result (list NestedCombination * Z) :=
  py_for_state node_ids ([mkNestedCombination [] availability], budget) (λ '(plans, budget) node_id,
    py_for_state plans ([], budget) (extend_plan graph binding node_id family)).

(** [_settle_recovery_child_failure] *)
Definition settle_recovery_child_failure state (node_id : str) (kind : RecoveryChildFailureKind) : result GraphRunState :=
  let reason := match kind with
    | CHILD_FAILED => lit "recovery proof: nested child failed"
    | CHILD_ABORTED => lit "recovery proof: nested child aborted"
    | SUPERSEDED_AWAITING_RESUME => superseded_child_abort_reason
    end in
  command ← project_failure_settlement state node_id reason;
  reduce_graph_run (Some state) (CmdSettle command).

(** [_settle_nested_outcomes] *)
Definition settle_nested_outcome graph (scope_run : ScopeRunCoordinate) (current : GraphRunState * Availability) (outcome : NestedOutcome)
    : result (GraphRunState * Availability) :=
  let '(state, availability) := current in
  match sb_kind (out_boundary outcome) with
  | SCOPE_COMPLETED =>
      child_graph ← map_get (nested_graphs graph) (out_node_id outcome);
      cursor ← activation_config_cursor child_graph (ssb_state (sb_binding (out_boundary outcome)));
      command ← project_success_settlement graph state (out_node_id outcome) (out_route outcome) cursor;
      settled ← reduce_graph_run (Some state) (CmdSettle command);
      activation ← GraphActivationIdentity_new (st_run_id state) (st_superstep state) (out_node_id outcome);
      coordinate ← publication_availability_coordinate graph scope_run activation;
      Ok (settled, with_publication availability coordinate)
  | SCOPE_FAILED => settled ← settle_recovery_child_failure state (out_node_id outcome) CHILD_FAILED; Ok (settled, availability)
  | SCOPE_ABORTED => settled ← settle_recovery_child_failure state (out_node_id outcome) CHILD_ABORTED; Ok (settled, availability)
  | SCOPE_AWAITING_RESUME => Ok current
  | EXECUTION_LIMIT | BOUNDED_RECURRENCE => Raise (Exn SnapshotMismatchError "non-terminal child outcome reached nested settlement")
  end.
Definition settle_nested_outcomes graph (binding : ScopedStateBinding) (combination : NestedCombination) : result (GraphRunState * Availability) :=
  py_for_state (nc_outcomes combination) (ssb_state binding, nc_availability combination) (settle_nested_outcome graph (ssb_scope_run binding)).

(** [_child_awaits_resume] *)
Definition child_awaits_resume (binding : ScopedStateBinding) : bool :=
  let state := ssb_state binding in
  if negb (bool_decide (st_status state = RUNNING)) then false
  else
    let kinds := (rn_settlement ∘ settlement_coordinate state) <$> frontier_nodes (st_frontier state) in
    negb (is_nil kinds) && mem SETTLED_INTERRUPTED kinds && negb (mem PENDING_MATERIALIZED kinds) && negb (mem PENDING_OVERRIDE kinds)
    && negb (mem SETTLED_FAILED kinds).

(** [_settle_awaiting_children_after_failure] *)
Definition frontier_failed state : bool := existsb is_failed (fn_settlement <$> frontier_nodes (st_frontier state)).
Definition settle_awaiting_children_after_failure state (children : list ScopedRunEvidence) : result GraphRunState :=
  if negb (frontier_failed state) then Ok state
  else py_for_state children state (λ current child,
    match child with
    | StateEvidence binding =>
        if negb (child_awaits_resume binding) then Ok current
        else match st_parent (ssb_state binding) with
             | Some parent => settle_recovery_child_failure current (act_node_id parent) SUPERSEDED_AWAITING_RESUME
             | None => Raise (Exn AttributeError "'NoneType' object has no attribute 'node_id'")
             end
    | UncreatedEvidence _ => Ok current
    end).

(** [_finish_recovery_execution] *)
Definition finish_recovery_execution state (children : list ScopedRunEvidence) : result GraphRunState :=
  settled ← settle_awaiting_children_after_failure state children;
  match st_execution settled with
  | None => Ok settled
  | Some execution => reduce_graph_run (Some settled) (CmdFence (mkFence (st_revision settled) (lease_token execution)))
  end.

(* ---------------------------------------------------------------- *)
(** ** Expansion *)

(** A successor of a work item: another item, or the boundary of the scope. *)
Inductive Successor := NextItem (successor : RecoveryWorkItem) | AtBoundary (boundary : ScopeBoundary).

Definition is_limited (outcome : NestedOutcome) : bool :=
  match sb_kind (out_boundary outcome) with EXECUTION_LIMIT | BOUNDED_RECURRENCE => true | _ => false end.
Definition unavailable_tasks graph state (scope_run : ScopeRunCoordinate) (availability : Availability) (tasks : list GraphTask)
    : result (list str) :=
  py_for_state tasks [] (λ unavailable task,
    callable ← is_callable graph task;
    match callable : bool with
    | true => available ← pending_node_input_available graph state scope_run availability (task_node_id task);
              Ok (if available : bool then unavailable else unavailable ++ [task_node_id task])
    | false => Ok unavailable
    end).

(** One combination of child outcomes in [_expand_quiescent_executable]. *)
Definition expand_combination graph item family (tasks : list GraphTask) (children : list ScopedRunEvidence) (callable_pending : bool)
    (combination : NestedCombination) : result Successor :=
  let state := ssb_state (wi_binding item) in
  let scope_run := ssb_scope_run (wi_binding item) in
  match List.find is_limited (nc_outcomes combination) with
  | Some limited => Ok (AtBoundary (out_boundary limited))
  | None =>
      if negb (frontier_failed state) && negb callable_pending && negb (is_nil (nc_outcomes combination))
         && forallb (λ outcome, bool_decide (sb_kind (out_boundary outcome) = SCOPE_AWAITING_RESUME)) (nc_outcomes combination)
      then Ok (AtBoundary (mkScopeBoundary SCOPE_AWAITING_RESUME (nc_availability combination) (wi_binding item)))
      else
        unavailable ← unavailable_tasks graph state scope_run (nc_availability combination) tasks;
        raise_if (negb (is_nil unavailable)) GraphValueUnavailableError
          "resume actions require unavailable historical values for pending nodes";;
        resources ← claim_resource_snapshot graph tasks;
        claimed ← reduce_graph_run (Some state) (CmdClaim (project_claim_command state (lit "recovery-preflight") resources));
        '(settled, availability) ← settle_nested_outcomes graph (mkStateBinding scope_run claimed) combination;
        let outcome_children := (StateEvidence ∘ sb_binding ∘ out_boundary) <$> nc_outcomes combination in
        live ← select_live graph settled (rfam_limits family) [];
        settled ← (if is_nil live then finish_recovery_execution settled outcome_children else Ok settled);
        Ok (NextItem (mkWorkItem (mkStateBinding scope_run settled) availability live
                        (if is_nil outcome_children then children else outcome_children) []))
  end.

(** [_expand_quiescent_executable] *)
Definition expand_quiescent_executable graph item family budget : result (list Successor * Z) :=
  let binding := wi_binding item in
  let state := ssb_state binding in
  try_or (one_of [ExecutionLimitError]) (plan_tasks graph state (rfam_limits family))
    (λ _, Ok ([AtBoundary (mkScopeBoundary EXECUTION_LIMIT (wi_availability item) binding)], budget)) (λ tasks,
    let nested_ids := List.filter (map_has (nested_graphs graph)) (task_node_id <$> tasks) in
    children ← initial_children graph binding family (wi_invocation_new_children item);
    '(combinations, budget) ← nested_outcome_plans graph binding nested_ids (wi_availability item) family budget;
    callables ← mapM (is_callable graph) tasks;
    successors ← mapM (expand_combination graph item family tasks children (existsb id callables)) combinations;
    Ok (successors, budget)).

(** [_expand_live] *)
Definition expand_route graph item family (node_id : str) (remaining_live : list str) (route : option str) : result Successor :=
  let state := ssb_state (wi_binding item) in
  let scope_run := ssb_scope_run (wi_binding item) in
  command ← project_success_settlement graph state node_id route None;
  settled ← reduce_graph_run (Some state) (CmdSettle command);
  activation ← GraphActivationIdentity_new (st_run_id state) (st_superstep state) node_id;
  coordinate ← publication_availability_coordinate graph scope_run activation;
  live ← select_live graph settled (rfam_limits family) remaining_live;
  settled ← (if is_nil live then finish_recovery_execution settled (wi_children item) else Ok settled);
  Ok (NextItem (mkWorkItem (mkStateBinding scope_run settled) (with_publication (wi_availability item) coordinate) live
                  (wi_children item) (wi_invocation_new_children item))).
Definition expand_live graph item family : result (list Successor) :=
  match wi_live item with
  | [] => Raise (Exn IndexError "tuple index out of range")
  | node_id :: remaining_live =>
      routes ← map_get (route_options (transition graph)) node_id;
      mapM (expand_route graph item family node_id remaining_live) routes
  end.

(** [_resolve_quiescent] *)
Definition nested_pending graph state : list str := List.filter (map_has (nested_graphs graph)) (pending_node_ids (st_frontier state)).
Definition resolve_quiescent graph item : result Successor :=
  let state := ssb_state (wi_binding item) in
  let scope_run := ssb_scope_run (wi_binding item) in
  facts ← resolve_routing_facts graph state scope_run (wi_availability item);
  command ← project_routing_facts repr_tuple state facts;
  match command with
  | CmdAbort _ => Raise (Exn GraphValueUnavailableError "resume actions require unavailable historical values")
  | _ =>
      resolved ← reduce_graph_run (Some state) command;
      match command with
      | CmdComplete _ => Ok (AtBoundary (mkScopeBoundary SCOPE_COMPLETED (wi_availability item) (mkStateBinding scope_run resolved)))
      | _ => Ok (NextItem (mkWorkItem (mkStateBinding scope_run resolved) (wi_availability item) [] [] (nested_pending graph resolved)))
      end
  end.

(* ---------------------------------------------------------------- *)
(** ** The search *)

(** The local variables of [_prove_scope]. *)
Record Search := mkSearch {
  se_pending : list (list str * (Z * RecoveryWorkItem));
  se_sequence : Z;
  se_seen : list RecoveryTransferState;
  se_cycle_entries : list (RecoveryCycleSignature * Z);
  se_boundaries : list ScopeBoundary;
  se_budget : Z
}.

(** [heappop]: the least entry by key and sequence number, which are never both equal. *)
Definition heappop (pending : list (list str * (Z * RecoveryWorkItem))) : option (RecoveryWorkItem * list (list str * (Z * RecoveryWorkItem))) :=
  match sorted_key (λ entry, (entry.1, entry.2.1)) pending with
  | [] => None
  | (_, (_, item)) :: rest => Some (item, rest)
  end.

Definition mark_seen (search : Search) (transfer : RecoveryTransferState) : Search :=
  mkSearch (se_pending search) (se_sequence search) (se_seen search ++ [transfer]) (se_cycle_entries search)
    (se_boundaries search) (se_budget search).
Definition set_pending (search : Search) (pending : list (list str * (Z * RecoveryWorkItem))) : Search :=
  mkSearch pending (se_sequence search) (se_seen search) (se_cycle_entries search) (se_boundaries search) (se_budget search).

(** [enqueue], and [boundaries.add] *)
Definition enqueue family (search : Search) item : result Search :=
  let sequence := se_sequence search + 1 in
  key ← recovery_traversal_key (transfer_state item family);
  Ok (mkSearch (se_pending search ++ [(key, (sequence, item))]) sequence (se_seen search) (se_cycle_entries search)
        (se_boundaries search) (se_budget search)).
Definition add_boundary (search : Search) (boundary : ScopeBoundary) : Search :=
  if mem boundary (se_boundaries search) then search
  else mkSearch (se_pending search) (se_sequence search) (se_seen search) (se_cycle_entries search)
         (se_boundaries search ++ [boundary]) (se_budget search).
Definition add_successor family (search : Search) (successor : Successor) : result Search :=
  match successor with NextItem item => enqueue family search item | AtBoundary boundary => Ok (add_boundary search boundary) end.
Definition enqueue_successors family (search : Search) (successors : list Successor) (budget : Z) : result Search :=
  budget ← admit_states budget (Z.of_nat (length successors));
  py_for_state successors (mkSearch (se_pending search) (se_sequence search) (se_seen search) (se_cycle_entries search)
                             (se_boundaries search) budget) (add_successor family).

(** [cycle_entries.get(signature)] and [cycle_entries[signature] = superstep] *)
Definition enter_cycle (search : Search) (signature : option RecoveryCycleSignature) (superstep : Z) : Search :=
  match signature with
  | None => search
  | Some signature => mkSearch (se_pending search) (se_sequence search) (se_seen search)
                        (dict_set signature superstep (se_cycle_entries search)) (se_boundaries search) (se_budget search)
  end.
Definition recurs (search : Search) (signature : option RecoveryCycleSignature) (superstep : Z) : bool :=
  match signature with
  | None => false
  | Some signature => match assoc signature (se_cycle_entries search) with Some previous => previous <? superstep | None => false end
  end.

(** An executable or settled frontier of a running state. *)
Definition expand_running graph family (window : PublicationHistoryWindow) (search : Search) item (status : GraphFrontierStatus) : result Search :=
  let current := ssb_state (wi_binding item) in
  match st_execution current with
  | Some _ =>
      raise_if (is_nil (wi_live item)) SnapshotMismatchError "recovery simulated execution has no legal live task";;
      successors ← expand_live graph item family;
      enqueue_successors family search successors (se_budget search)
  | None =>
      if bool_decide (status = SETTLED) then
        successor ← resolve_quiescent graph item;
        enqueue_successors family search [successor] (se_budget search)
      else
        signature ← recovery_cycle_signature graph item window;
        if recurs search signature (st_superstep current) then
          Ok (add_boundary search (mkScopeBoundary BOUNDED_RECURRENCE (wi_availability item) (wi_binding item)))
        else
          '(successors, budget) ← expand_quiescent_executable graph item family (se_budget search);
          enqueue_successors family (enter_cycle search signature (st_superstep current)) successors budget
  end.

(** One turn of the loop, after [heappop]. *)
Definition visit_item graph (scope_run : ScopeRunCoordinate) family (window : PublicationHistoryWindow) (search : Search) item : result Search :=
  let transfer := transfer_state item family in
  if mem transfer (se_seen search) then Ok search
  else
    let search := mark_seen search transfer in
    let current := ssb_state (wi_binding item) in
    let at_boundary := λ kind, Ok (add_boundary search (mkScopeBoundary kind (wi_availability item) (wi_binding item))) in
    match st_status current with
    | COMPLETED =>
        available ← graph_outputs_available graph scope_run (st_superstep current) (wi_availability item);
        raise_if (negb available) GraphValueUnavailableError "resume actions require completed graph output history";;
        at_boundary SCOPE_COMPLETED
    | FAILED => at_boundary SCOPE_FAILED
    | ABORTED => at_boundary SCOPE_ABORTED
    | RUNNING =>
        status ← frontier_status (st_frontier current);
        match status with
        | FRONTIER_FAILED => Raise (Exn SnapshotMismatchError "running recovery state retained a terminal failed frontier")
        | AWAITING_RESUME => at_boundary SCOPE_AWAITING_RESUME
        | EXECUTABLE | SETTLED => expand_running graph family window search item status
        end
    end.

(** [while pending] *)
Fixpoint search_loop (fuel : nat) graph (scope_run : ScopeRunCoordinate) family (window : PublicationHistoryWindow) (search : Search)
    : result Search :=
  match heappop (se_pending search) with
  | None => Ok search
  | Some (item, rest) =>
      match fuel with
      | O => diverged
      | Datatypes.S fuel =>
          search ← visit_item graph scope_run family window (set_pending search rest) item;
          search_loop fuel graph scope_run family window search
      end
  end.

(** Every item in the queue was admitted to the budget, the first one included. *)
Definition search_fuel budget : nat := Z.to_nat (max_transfer_states - budget + 1).

(** The order of the result. *)
Definition boundary_transfer family (boundary : ScopeBoundary) : RecoveryTransferState :=
  mkTransfer (sb_binding boundary) (rfam_limits family) [] (sb_availability boundary) [] (rfam_admitted_actions family) [].
Definition sorted_boundaries family (boundaries : list ScopeBoundary) : result (list ScopeBoundary) :=
  keyed ← mapM (λ boundary, key ← recovery_traversal_key (boundary_transfer family boundary); Ok ((boundary_value (sb_kind boundary), key), boundary))
            boundaries;
  Ok (snd <$> sorted_key fst keyed).

(** The body of [_prove_scope] *)
Definition prove_scope_body graph (binding : ScopedStateBinding) (availability : Availability) family budget : result (list ScopeBoundary * Z) :=
  let scope_run := ssb_scope_run binding in
  let invocation_new := match family_binding family scope_run with
    | Some (StateEvidence _) => []
    | _ => nested_pending graph (ssb_state binding)
    end in
  children ← initial_children graph binding family invocation_new;
  let initial := mkWorkItem binding availability [] children invocation_new in
  budget ← admit_states budget 1;
  key ← recovery_traversal_key (transfer_state initial family);
  search ← search_loop (search_fuel budget) graph scope_run family (publication_history_window graph)
             (mkSearch [(key, (0, initial))] 0 [] [] [] budget);
  boundaries ← sorted_boundaries family (se_boundaries search);
  Ok (boundaries, se_budget search).
End search.

(** [_prove_scope]; every level of recursion is one level of nesting. *)
Fixpoint prove_scope {V} (descriptor_text : FrameDescriptorIdentity → str) (repr_tuple : list str → str) (depth : nat)
    (graph : CompiledGraph V) (binding : ScopedStateBinding) (availability : Availability) (family : RecoveryFamily) (budget : Z)
    : result (list ScopeBoundary * Z) :=
  match depth with
  | O => diverged
  | Datatypes.S depth =>
      prove_scope_body descriptor_text repr_tuple (prove_scope descriptor_text repr_tuple depth) graph binding availability family budget
  end.

(** The levels of nesting of a graph, itself included. *)
Fixpoint nesting {V} (graph : CompiledGraph V) : nat :=
  match graph with
  | mkCompiledGraph _ _ _ nested _ _ _ _ _ _ =>
      Datatypes.S ((fix deepest (nested : list (str * CompiledGraph V)) : nat :=
                      match nested with [] => O | (_, child) :: rest => Nat.max (nesting child) (deepest rest) end) nested)
  end.

Section preflight.
Context {A V C S : Type}.
Context (descriptor_text : FrameDescriptorIdentity → str) (repr_tuple : list str → str).
Implicit Types (graph : CompiledGraph V).

#[local] Instance stable_cmp : Cmp StableActivation := cmp_by stable_key.

(** The admitted actions of a seed name pending nodes of its states. *)
Definition check_action (family : RecoveryFamily) (action : AdmittedResumeFact) : result unit :=
  match family_binding family (sa_scope_run (rf_target action)) with
  | Some (StateEvidence binding) =>
      raise_if (negb (st_superstep (ssb_state binding) =? sa_superstep (rf_target action))) SnapshotMismatchError
        "recovery admitted resume action does not match a simulated scoped successor";;
      match frontier_node (st_frontier (ssb_state binding)) (sa_node_id (rf_target action)) with
      | None => Raise (Exn SnapshotMismatchError "recovery admitted resume action target is absent from its simulated successor")
      | Some node => raise_if (negb (is_pending (fn_settlement node))) SnapshotMismatchError
                       "recovery resume action does not match its simulated successor settlement"
      end
  | _ => Raise (Exn SnapshotMismatchError "recovery admitted resume action does not match a simulated scoped successor")
  end.

(** The resume input of an admitted action is there. *)
Definition check_action_input graph (availability : Availability) (action : AdmittedResumeFact) : result unit :=
  scoped_graph ← compiled_graph_at_scope graph (scope (sa_scope_run (rf_target action)));
  plan ← require_node_materialization scoped_graph (sa_node_id (rf_target action));
  raise_if (negb (has_resume_input availability (resume_input_coordinate (rf_target action) plan))) SnapshotMismatchError
    "recovery admitted resume action lacks its exact resume-input availability".

(** [preflight_recovery] *)
Definition preflight_recovery graph (seed : RecoveryInvocationSeed A C S) : result (list RecoveryTransferState) :=
  let root := sd_root seed in
  raise_if (negb (is_nil (scope (ssb_scope_run root))) || negb (bool_decide (graph_run_id (ssb_scope_run root) = st_run_id (ssb_state root))))
    SnapshotMismatchError "recovery root binding has an invalid scope-run coordinate";;
  let bindings := StateEvidence root :: sd_children seed in
  let coordinates : list ScopeRunCoordinate := evidence_scope_run <$> bindings in
  raise_if (negb (bool_decide (coordinates = sorted_set coordinates))) SnapshotMismatchError
    "recovery state bindings must be unique and canonical";;
  let targets : list StableActivation := rf_target <$> sd_admitted_actions seed in
  raise_if (negb (bool_decide (targets = sorted_set targets))) SnapshotMismatchError
    "recovery admitted resume actions must be unique and canonical";;
  let family := mkFamily bindings (sd_limits seed) (sd_admitted_actions seed) in
  py_for (sd_admitted_actions seed) (check_action family);;
  availability ← from_frames (sd_frames seed);
  py_for (sd_admitted_actions seed) (check_action_input graph availability);;
  '(boundaries, _) ← prove_scope descriptor_text repr_tuple (nesting graph) graph root availability family 0;
  Ok (boundary_transfer family <$> (boundaries : list ScopeBoundary)).
End preflight.
