(* ===== verification/RecoveryProofs.v ===== *)
(** * The recovery proof ends

    Every loop and every recursion of [_prove_scope] is bounded by the transfer-state budget
    and by the nesting of the graph, and the result does not depend on the budget left. *)

From Stdlib Require Import ZArith NArith Lia Bool String.
From stdpp Require Import prelude strings gmap sorting.
From S2P Require Import Prelude Identity Resources Model Validation Transitions WellFormed Reducer ReducerProofs Topology DefinitionProofs Routing DemoGraph Engine Values RunContext Materialization Superstep SessionTheorems TypeTheorems Invocation Persistence Checkpoint RestoreProofs Recovery.

Set Default Goal Selector "!".
Open Scope Z_scope.

(* ------------------------------------------------------------------ *)
(** ** The budget *)

Lemma admit_states_Ok budget count budget' :
  admit_states budget count = Ok budget' ↔ budget' = budget + count ∧ budget + count ≤ max_transfer_states.
Proof.
  unfold admit_states. rewrite seq_Ok_iff, raise_if_Ok, Z.ltb_ge. split; [by intros [? [= <-]]|by intros [-> ?]].
Qed.

(** The budget only grows, and stays within its limit. *)
Definition charged (budget budget' : Z) : Prop := budget ≤ budget' ∧ (budget ≤ max_transfer_states → budget' ≤ max_transfer_states).
#[export] Instance charged_preorder : PreOrder charged.
Proof. split; [by split|]. intros x y z [??] [??]. split; [lia|auto]. Qed.
Lemma charged_admit budget count budget' : 0 ≤ count → admit_states budget count = Ok budget' → charged budget budget'.
Proof. intros ? [-> ?]%admit_states_Ok. split; [lia|done]. Qed.

Lemma heappop_length pending item rest : heappop pending = Some (item, rest) →
  Z.of_nat (length pending) = Z.of_nat (length rest) + 1.
Proof.
  unfold heappop. destruct (sorted_key _ pending) as [|[key [sequence item']] rest'] eqn:E; [done|]. intros [= -> ->].
  rewrite <- (Permutation_length (sort_by_perm _ pending : sorted_key (λ entry, (entry.1, entry.2.1)) pending ≡ₚ pending)), E. cbn. lia.
Qed.

Lemma heappop_None pending : heappop pending = None → pending = [].
Proof.
  unfold heappop. destruct (sorted_key _ _) as [|[? [? ?]] ?] eqn:E; [|done]. intros _. apply Permutation_nil.
  rewrite <- (sort_by_perm _ pending : sorted_key (λ entry, (entry.1, entry.2.1)) pending ≡ₚ _). by rewrite E.
Qed.

Lemma sorted_boundaries_perm descriptor_text family boundaries sorted :
  sorted_boundaries descriptor_text family boundaries = Ok sorted → sorted ≡ₚ boundaries.
Proof.
  unfold sorted_boundaries. intros (keyed & Hk%mapM_Forall2 & [= <-])%bind_Ok.
  rewrite (sort_by_perm _ keyed : sorted_key fst keyed ≡ₚ keyed).
  assert (snd <$> keyed = boundaries) as ->; [|done]. induction Hk as [|b k bs ks Hb _ IH]; [done|]. apply bind_Ok in Hb as (key & _ & [= <-]). cbn. by rewrite IH.
Qed.

Section budget.
Context {V : Type} (descriptor_text : FrameDescriptorIdentity → str) (repr_tuple : list str → str).
Context (prover : CompiledGraph V → ScopedStateBinding → Availability → RecoveryFamily → Z → result (list ScopeBoundary * Z)).
Hypothesis prover_charged : ∀ graph binding availability family budget boundaries budget',
  prover graph binding availability family budget = Ok (boundaries, budget') → charged budget budget'.
Implicit Types (graph : CompiledGraph V) (search : Search) (item : RecoveryWorkItem) (family : RecoveryFamily).

Lemma child_outcomes_charged graph binding node_id availability family budget outcomes budget' :
  child_outcomes prover graph binding node_id availability family budget = Ok (outcomes, budget') → charged budget budget'.
Proof using prover_charged.
  unfold child_outcomes. intros E. apply bind_Ok in E as (child & _ & E). apply bind_Ok in E as ([parent coordinate] & _ & E).
  apply bind_Ok in E as ([child_binding child_availability] & _ & E). destruct (st_status _).
  - apply bind_Ok in E as ([boundaries n] & Hp%prover_charged & [= _ <-]). done.
  - apply bind_Ok in E as (? & _ & E). by apply seq_Ok_iff in E as [_ [= _ <-]].
  - by injection E as _ <-.
  - by injection E as _ <-.
Qed.

Lemma nested_outcome_plans_charged graph binding node_ids availability family budget combinations budget' :
  nested_outcome_plans prover graph binding node_ids availability family budget = Ok (combinations, budget') → charged budget budget'.
Proof using prover_charged.
  unfold nested_outcome_plans. intros E. refine (py_for_state_prefix (λ _ st, charged budget st.2) _ _ _ _ (_, _) _ E); [|done].
  clear -prover_charged. intros _ node_id [plans n] [plans' n'] Hn E. cbn in Hn. refine (py_for_state_prefix (λ _ st, charged budget st.2) _ _ _ (_, _) (_, _) Hn E).
  clear -prover_charged. intros _ plan [next n] [next' n'] Hn E. cbn in Hn. unfold extend_plan in E.
  apply bind_Ok in E as ([outcomes m] & Hc%child_outcomes_charged & E). apply bind_Ok in E as (m' & Ha%charged_admit & [= _ <-]); [|lia].
  cbn in Hc. cbn. etransitivity; [done|]. by etransitivity.
Qed.

Lemma expand_quiescent_charged graph item family budget successors budget' :
  expand_quiescent_executable prover graph item family budget = Ok (successors, budget') → charged budget budget'.
Proof using prover_charged.
  unfold expand_quiescent_executable, try_or. destruct (plan_tasks _ _ _) as [tasks|e].
  - intros E. apply bind_Ok in E as (children & _ & E). apply bind_Ok in E as ([combinations n] & Hn%nested_outcome_plans_charged & E).
    apply bind_Ok in E as (callables & _ & E). by apply bind_Ok in E as (? & _ & [= _ <-]).
  - destruct (one_of _ _); [|done]. by intros [= _ <-].
Qed.

(** The size of the queue and of the result, for the budget. *)
Definition queued search : Z := Z.of_nat (length (se_pending search)) - se_budget search.
Definition produced search : Z := queued search + Z.of_nat (length (se_boundaries search)).

(** What an iteration adds to the queue and to the result was admitted to the budget, but
    for the boundary that a finished item is. *)
Record spends search search' : Prop := {
  sp_charged : charged (se_budget search) (se_budget search');
  sp_queued : queued search' ≤ queued search;
  sp_produced : produced search' ≤ produced search + 1
}.

Lemma add_boundary_spends search boundary : spends search (add_boundary search boundary).
Proof using Type.
  unfold add_boundary. destruct (mem boundary _); split; unfold produced, queued; cbn; rewrite ?length_app; cbn; try done; lia.
Qed.

Lemma enqueue_successors_spends family search successors budget search' : charged (se_budget search) budget →
  enqueue_successors descriptor_text family search successors budget = Ok search' →
  spends search search' ∧ produced search' ≤ produced search.
Proof using Type.
  clear prover prover_charged repr_tuple. intros Hc. unfold enqueue_successors. intros (n & [-> Hmax]%admit_states_Ok & E)%bind_Ok.
  match type of E with py_for_state _ ?start _ = _ => set (search0 := start) in E end.
  assert (se_budget search' = budget + Z.of_nat (length successors)
    ∧ Z.of_nat (length (se_pending search')) ≤ Z.of_nat (length (se_pending search)) + Z.of_nat (length successors)
    ∧ Z.of_nat (length (se_pending search')) + Z.of_nat (length (se_boundaries search'))
      ≤ Z.of_nat (length (se_pending search)) + Z.of_nat (length (se_boundaries search)) + Z.of_nat (length successors)) as (Hb & Hq & Hp).
  { refine (py_for_state_prefix (λ dn st, se_budget st = budget + Z.of_nat (length successors)
      ∧ Z.of_nat (length (se_pending st)) ≤ Z.of_nat (length (se_pending search)) + Z.of_nat (length dn)
      ∧ Z.of_nat (length (se_pending st)) + Z.of_nat (length (se_boundaries st))
        ≤ Z.of_nat (length (se_pending search)) + Z.of_nat (length (se_boundaries search)) + Z.of_nat (length dn)) _ _ _ _ _ _ E).
    - intros dn successor st st' (Hb & Hq & Hp) Hst. rewrite length_app. cbn [length]. destruct successor as [item|boundary]; cbn in Hst.
      + unfold enqueue in Hst. apply bind_Ok in Hst as (key & _ & [= <-]). cbn. rewrite length_app. cbn. lia.
      + injection Hst as <-. unfold add_boundary. destruct (mem boundary _); cbn; rewrite ?length_app; cbn; lia.
    - subst search0. cbn. lia. }
  destruct Hc as [Hc1 Hc2]. split; [split|]; unfold produced, queued; rewrite ?Hb; try lia. split; [lia|]. intros _. lia.
Qed.

Lemma expand_running_spends graph family window search item status search' :
  expand_running descriptor_text repr_tuple prover graph family window search item status = Ok search' → spends search search'.
Proof using prover_charged.
  unfold expand_running. destruct (st_execution _).
  - intros [_ (successors & _ & E)%bind_Ok]%seq_Ok_iff. by apply enqueue_successors_spends in E as [? _].
  - case_bool_decide.
    + intros (successor & _ & E)%bind_Ok. by apply enqueue_successors_spends in E as [? _].
    + intros (signature & _ & E)%bind_Ok. destruct (recurs _ _ _); [injection E as <-; apply add_boundary_spends|].
      apply bind_Ok in E as ([successors n] & Hn%expand_quiescent_charged & E). apply enqueue_successors_spends in E as [[Hc Hq Hp] _].
      * by destruct signature; split.
      * by destruct signature.
Qed.

Lemma visit_spends graph scope_run family window search item search' :
  visit_item descriptor_text repr_tuple prover graph scope_run family window search item = Ok search' → spends search search'.
Proof using prover_charged.
  unfold visit_item. destruct (mem _ _); [intros [= <-]; split; [done|lia|lia]|].
  assert (∀ kind, spends search (add_boundary (mark_seen search (transfer_state item family))
    (mkScopeBoundary kind (wi_availability item) (wi_binding item)))) as Hb.
  { intros kind. by destruct (add_boundary_spends (mark_seen search (transfer_state item family))
      (mkScopeBoundary kind (wi_availability item) (wi_binding item))); split. }
  destruct (st_status _).
  - intros (status & _ & E)%bind_Ok. destruct status; [|done|by injection E as <-|]; apply expand_running_spends in E as []; by split.
  - intros (available & _ & E)%bind_Ok. by apply seq_Ok_iff in E as [_ [= <-]].
  - by intros [= <-].
  - by intros [= <-].
Qed.

(* ---------------------------------------------------------------- *)
(** ** The loop ends *)

(** The loop without a bound: it returns what its last iteration leaves or raises. *)
Inductive loop_returns graph scope_run family window : Search → result Search → Prop :=
| loop_done search : heappop (se_pending search) = None → loop_returns graph scope_run family window search (Ok search)
| loop_raise search item rest e : heappop (se_pending search) = Some (item, rest) →
    visit_item descriptor_text repr_tuple prover graph scope_run family window (set_pending search rest) item = Raise e →
    loop_returns graph scope_run family window search (Raise e)
| loop_step search item rest search' outcome : heappop (se_pending search) = Some (item, rest) →
    visit_item descriptor_text repr_tuple prover graph scope_run family window (set_pending search rest) item = Ok search' →
    loop_returns graph scope_run family window search' outcome → loop_returns graph scope_run family window search outcome.

Lemma search_loop_returns graph scope_run family window fuel search :
  se_budget search ≤ max_transfer_states → queued search + max_transfer_states ≤ Z.of_nat fuel →
  loop_returns graph scope_run family window search
    (search_loop descriptor_text repr_tuple prover fuel graph scope_run family window search).
Proof using prover_charged.
  revert search. induction fuel as [|fuel IH]; intros search Hb Hq; cbn [search_loop]; destruct (heappop _) as [[item rest]|] eqn:Hpop.
  - apply heappop_length in Hpop. unfold queued in Hq. lia.
  - by constructor.
  - destruct (visit_item _ _ _ _ _ _ _ _ _) as [search'|e] eqn:Hv; cbn [mbind result_bind]; [|by eapply loop_raise].
    eapply loop_step; [done..|]. apply heappop_length in Hpop. apply visit_spends in Hv as [[Hc Hm] Hq' _].
    unfold queued in *. cbn in *. apply IH; unfold queued; [by apply Hm|lia].
  - by constructor.
Qed.

Lemma search_loop_spends graph scope_run family window fuel search search' :
  search_loop descriptor_text repr_tuple prover fuel graph scope_run family window search = Ok search' →
  heappop (se_pending search') = None ∧ charged (se_budget search) (se_budget search') ∧ produced search' ≤ produced search.
Proof using prover_charged.
  revert search. induction fuel as [|fuel IH]; intros search; cbn [search_loop]; destruct (heappop (se_pending search)) as [[item rest]|] eqn:Hpop; [done|by intros [= <-]| |by intros [= <-]].
  intros (search1 & Hv & E)%bind_Ok. destruct (IH _ E) as (Hn & Hc & Hp). apply heappop_length in Hpop.
  apply visit_spends in Hv as [Hc' _ Hp']. unfold produced, queued in *. cbn in *. split_and!; [done|by etransitivity|lia].
Qed.

(** The body of the proof of one scope, without a bound on its loop. *)
Definition body_returns graph binding availability family budget (outcome : result (list ScopeBoundary * Z)) : Prop :=
  let scope_run := ssb_scope_run binding in
  let invocation_new := match family_binding family scope_run with
    | Some (StateEvidence _) => []
    | _ => nested_pending graph (ssb_state binding)
    end in
  match (children ← initial_children graph binding family invocation_new;
         let initial := mkWorkItem binding availability [] children invocation_new in
         budget ← admit_states budget 1;
         key ← recovery_traversal_key descriptor_text (transfer_state initial family);
         Ok (mkSearch [(key, (0, initial))] 0 [] [] [] budget)) with
  | Raise e => outcome = Raise e
  | Ok search => ∃ last, loop_returns graph scope_run family (publication_history_window graph) search last
      ∧ outcome = (search ← last; boundaries ← sorted_boundaries descriptor_text family (se_boundaries search);
                   Ok (boundaries, se_budget search))
  end.

Lemma prove_scope_body_returns graph binding availability family budget :
  body_returns graph binding availability family budget
    (prove_scope_body descriptor_text repr_tuple prover graph binding availability family budget).
Proof using prover_charged.
  unfold body_returns, prove_scope_body. destruct (initial_children _ _ _ _) as [children|]; cbn [mbind result_bind]; [|done].
  destruct (admit_states budget 1) as [n|] eqn:Ha; cbn [mbind result_bind]; [|done]. apply admit_states_Ok in Ha as [-> Hmax].
  destruct (recovery_traversal_key _ _) as [key|]; cbn [mbind result_bind]; [|done].
  eexists. split; [|done]. apply search_loop_returns; [done|]. unfold queued, search_fuel. cbn [se_pending se_budget length]. lia.
Qed.

Lemma prove_scope_body_charged graph binding availability family budget boundaries budget' :
  prove_scope_body descriptor_text repr_tuple prover graph binding availability family budget = Ok (boundaries, budget') →
  charged budget budget' ∧ budget' ≤ max_transfer_states ∧ Z.of_nat (length boundaries) ≤ budget' - budget.
Proof using prover_charged.
  unfold prove_scope_body. intros E. apply bind_Ok in E as (children & _ & E). apply bind_Ok in E as (n & [-> Hmax]%admit_states_Ok & E).
  apply bind_Ok in E as (key & _ & E). apply bind_Ok in E as (search & (Hpop & [Hc Hm] & Hp)%search_loop_spends & E).
  apply bind_Ok in E as (sorted & Hs & [= <- <-]). cbn [se_budget] in Hc, Hm. split; [split; [lia|by intros _; apply Hm]|]. split; [by apply Hm|].
  rewrite (Permutation_length (sorted_boundaries_perm _ _ _ _ Hs)). apply heappop_None in Hpop as Hnil.
  unfold produced, queued in Hp. rewrite Hnil in Hp. cbn in Hp. lia.
Qed.
End budget.

(* ------------------------------------------------------------------ *)
(** ** The recursion ends *)

Lemma py_for_state_ext {X Y} (xs : list X) (st : Y) body body' :
  (∀ st x, body st x = body' st x) → py_for_state xs st body = py_for_state xs st body'.
Proof. intros H. revert st. induction xs as [|x xs IH]; intros st; cbn; [done|]. rewrite H. destruct (body' st x); cbn; auto. Qed.

(** Nested graphs are less nested. *)
Lemma nesting_nested {V} (graph : CompiledGraph V) node child : map_get (nested_graphs graph) node = Ok child → (nesting child < nesting graph)%nat.
Proof.
  destruct graph as [? ? ? nested ? ? ? ? ? ?]. cbn [nested_graphs nesting]. unfold map_get. intros Hm.
  assert ((nesting child ≤ (fix deepest (nested : list (str * CompiledGraph V)) : nat :=
    match nested with [] => O | (_, child) :: rest => Nat.max (nesting child) (deepest rest) end) nested)%nat); [|lia].
  induction nested as [|[n g] nested IH]; cbn in *; [done|]. case_decide.
  - injection Hm as <-. lia.
  - specialize (IH Hm). lia.
Qed.

Section recursion.
Context {V : Type} (descriptor_text : FrameDescriptorIdentity → str) (repr_tuple : list str → str).
Notation Prover := (CompiledGraph V → ScopedStateBinding → Availability → RecoveryFamily → Z → result (list ScopeBoundary * Z)).
Implicit Types (graph : CompiledGraph V) (prover : Prover).

(** Two provers that agree on the nested graphs of a graph prove it alike. *)
Definition agree graph prover prover' : Prop :=
  ∀ node child, map_get (nested_graphs graph) node = Ok child → ∀ b a f n, prover child b a f n = prover' child b a f n.

Lemma child_outcomes_agree graph prover prover' : agree graph prover prover' → ∀ binding node_id availability family budget,
  child_outcomes prover graph binding node_id availability family budget = child_outcomes prover' graph binding node_id availability family budget.
Proof using Type.
  intros Ha binding node_id availability family budget. unfold child_outcomes. destruct (map_get _ _) as [child|] eqn:Hm; [|done]. cbn [mbind result_bind].
  destruct (child_coordinate _ _) as [[parent coordinate]|]; [|done]. cbn [mbind result_bind].
  destruct (child_seed _ _ _ _ _ _ _) as [[b a]|]; [|done]. cbn [mbind result_bind]. destruct (st_status _); try done. by rewrite (Ha _ _ Hm).
Qed.

Lemma expand_quiescent_agree graph prover prover' : agree graph prover prover' → ∀ item family budget,
  expand_quiescent_executable prover graph item family budget = expand_quiescent_executable prover' graph item family budget.
Proof using Type.
  intros Ha item family budget. unfold expand_quiescent_executable, try_or. destruct (plan_tasks _ _ _); [|done].
  destruct (initial_children _ _ _ _); [|done]. cbn [mbind result_bind].
  assert (∀ binding node_ids availability, nested_outcome_plans prover graph binding node_ids availability family budget
    = nested_outcome_plans prover' graph binding node_ids availability family budget) as ->; [|done].
  intros binding node_ids availability. unfold nested_outcome_plans. apply py_for_state_ext. intros [plans n] node_id. apply py_for_state_ext.
  intros next plan. unfold extend_plan. by rewrite (child_outcomes_agree _ _ _ Ha).
Qed.

Lemma visit_agree graph prover prover' : agree graph prover prover' → ∀ scope_run family window search item,
  visit_item descriptor_text repr_tuple prover graph scope_run family window search item
  = visit_item descriptor_text repr_tuple prover' graph scope_run family window search item.
Proof using Type.
  intros Ha scope_run family window search item. unfold visit_item. destruct (mem _ _); [reflexivity|]. destruct (st_status _); [|reflexivity..].
  apply bind_ext. intros status. assert (∀ search, expand_running descriptor_text repr_tuple prover graph family window search item status
    = expand_running descriptor_text repr_tuple prover' graph family window search item status) as Hr; [|destruct status; [apply Hr|reflexivity..|apply Hr]].
  intros search'. unfold expand_running. destruct (st_execution _); [reflexivity|]. case_bool_decide; [reflexivity|]. apply bind_ext. intros signature.
  destruct (recurs _ _ _); [reflexivity|]. by rewrite (expand_quiescent_agree _ _ _ Ha).
Qed.

Lemma search_loop_agree graph prover prover' : agree graph prover prover' → ∀ fuel scope_run family window search,
  search_loop descriptor_text repr_tuple prover fuel graph scope_run family window search
  = search_loop descriptor_text repr_tuple prover' fuel graph scope_run family window search.
Proof using Type.
  intros Ha fuel scope_run family window. induction fuel as [|fuel IH]; intros search; cbn [search_loop]; [reflexivity|].
  destruct (heappop _) as [[item rest]|]; [|reflexivity]. rewrite (visit_agree _ _ _ Ha). apply bind_ext. intros search'. apply IH.
Qed.

Lemma prove_scope_body_agree graph prover prover' : agree graph prover prover' → ∀ b a f n,
  prove_scope_body descriptor_text repr_tuple prover graph b a f n = prove_scope_body descriptor_text repr_tuple prover' graph b a f n.
Proof using Type.
  intros Ha b a f n. unfold prove_scope_body. apply bind_ext. intros children. apply bind_ext. intros budget. apply bind_ext. intros key.
  by rewrite (search_loop_agree _ _ _ Ha).
Qed.

Lemma prove_scope_depth depth : ∀ depth' graph b a f n, (nesting graph ≤ depth)%nat → (nesting graph ≤ depth')%nat →
  prove_scope descriptor_text repr_tuple depth graph b a f n = prove_scope descriptor_text repr_tuple depth' graph b a f n.
Proof.
  induction depth as [|depth IH]; intros depth' graph b a f n Hd Hd'; [by destruct graph; cbn in Hd; lia|].
  destruct depth' as [|depth']; [by destruct graph; cbn in Hd'; lia|]. cbn [prove_scope]. apply prove_scope_body_agree.
  intros node child Hm%nesting_nested b' a' f' n'. apply IH; lia.
Qed.

(** [_prove_scope] without bounds. *)
Definition scope_prover : Prover := λ graph, prove_scope descriptor_text repr_tuple (nesting graph) graph.

Lemma scope_prover_unfold graph b a f n :
  scope_prover graph b a f n = prove_scope_body descriptor_text repr_tuple scope_prover graph b a f n.
Proof.
  unfold scope_prover at 1. destruct (nesting graph) as [|depth] eqn:Hd; [by destruct graph; cbn in Hd|]. cbn [prove_scope].
  apply prove_scope_body_agree. intros node child Hm%nesting_nested b' a' f' n'. apply prove_scope_depth; lia.
Qed.

Lemma scope_prover_charged graph b a f n boundaries n' : scope_prover graph b a f n = Ok (boundaries, n') → charged n n'.
Proof.
  unfold scope_prover. generalize (nesting graph) as depth. intros depth. revert graph b a f n boundaries n'.
  induction depth as [|depth IH]; intros graph b a f n boundaries n'; [done|]. cbn [prove_scope].
  intros E. by apply prove_scope_body_charged in E as [? _].
Qed.

(** C14: the recovery proof terminates.  [_prove_scope] is the function that calls itself for
    nested graphs only, which are less deeply nested, and whose loop returns: run without
    any bound, the loop ends after finitely many iterations, with the result of the bounded
    loop of the model.  A result is paid for by the transfer-state budget: at most 4096
    states are ever admitted, and no more boundaries are returned than were admitted. *)
Theorem recovery_proof_terminates graph binding availability family budget :
  body_returns descriptor_text repr_tuple scope_prover graph binding availability family budget
    (scope_prover graph binding availability family budget)
  ∧ (∀ node child, map_get (nested_graphs graph) node = Ok child → (nesting child < nesting graph)%nat)
  ∧ ∀ boundaries budget', scope_prover graph binding availability family budget = Ok (boundaries, budget') →
      budget ≤ budget' ≤ 4096 ∧ Z.of_nat (length boundaries) ≤ budget' - budget.
Proof.
  rewrite scope_prover_unfold. split_and!.
  - apply prove_scope_body_returns, scope_prover_charged.
  - apply nesting_nested.
  - intros boundaries budget' E. apply prove_scope_body_charged in E as ([? _] & ? & ?); [done|apply scope_prover_charged].
Qed.
End recursion.

(* ------------------------------------------------------------------ *)
(** ** The budget decides only whether the proof is given up

    Two runs of the proof from the same states that both return give the same boundaries,
    whatever part of the budget was spent before. *)

Lemma py_for_state_both {X Y} (R : Y → Y → Prop) (body : Y → X → result Y) (xs : list X) :
  (∀ x y1 y2 z1 z2, R y1 y2 → body y1 x = Ok z1 → body y2 x = Ok z2 → R z1 z2) →
  ∀ y1 y2 z1 z2, R y1 y2 → py_for_state xs y1 body = Ok z1 → py_for_state xs y2 body = Ok z2 → R z1 z2.
Proof.
  intros Hb. induction xs as [|x xs IH]; cbn; intros y1 y2 z1 z2 Hr; [by intros [= <-] [= <-]|].
  intros (w1 & H1 & E1)%bind_Ok (w2 & H2 & E2)%bind_Ok. by eapply IH; [eapply Hb|..].
Qed.

(** Ltac: the same call in two runs gives the same value. *)
Ltac same_call E1 E2 x :=
  let H1 := fresh in let H2 := fresh in let y := fresh in
  apply bind_Ok in E1 as (x & H1 & E1); apply bind_Ok in E2 as (y & H2 & E2); rewrite H1 in H2; injection H2 as H2; subst y; clear H1.

Section steady.
Context {V : Type} (descriptor_text : FrameDescriptorIdentity → str) (repr_tuple : list str → str).
Notation Prover := (CompiledGraph V → ScopedStateBinding → Availability → RecoveryFamily → Z → result (list ScopeBoundary * Z)).
Implicit Types (graph : CompiledGraph V) (search : Search) (item : RecoveryWorkItem) (family : RecoveryFamily).

Definition steady (prover : Prover) : Prop := ∀ graph b a f n1 n2 boundaries1 boundaries2 m1 m2,
  prover graph b a f n1 = Ok (boundaries1, m1) → prover graph b a f n2 = Ok (boundaries2, m2) → boundaries1 = boundaries2.

Section body.
Context (prover : Prover) (Hsteady : steady prover).

Lemma child_outcomes_steady graph binding node_id availability family n1 n2 outcomes1 outcomes2 m1 m2 :
  child_outcomes prover graph binding node_id availability family n1 = Ok (outcomes1, m1) →
  child_outcomes prover graph binding node_id availability family n2 = Ok (outcomes2, m2) → outcomes1 = outcomes2.
Proof using Hsteady.
  unfold child_outcomes. intros E1 E2. same_call E1 E2 child. same_call E1 E2 activation. destruct activation as [parent coordinate]. same_call E1 E2 seeded.
  destruct seeded as [seed availability']. destruct (st_status _).
  - apply bind_Ok in E1 as ([bs1 k1] & H1 & [= <- _]). apply bind_Ok in E2 as ([bs2 k2] & H2 & [= <- _]). by rewrite (Hsteady _ _ _ _ _ _ _ _ _ _ H1 H2).
  - same_call E1 E2 v0. apply seq_Ok_iff in E1 as [_ [= <- _]]. by apply seq_Ok_iff in E2 as [_ [= <- _]].
  - injection E1 as <- _. by injection E2 as <- _.
  - injection E1 as <- _. by injection E2 as <- _.
Qed.

Lemma nested_outcome_plans_steady graph binding node_ids availability family n1 n2 combinations1 combinations2 m1 m2 :
  nested_outcome_plans prover graph binding node_ids availability family n1 = Ok (combinations1, m1) →
  nested_outcome_plans prover graph binding node_ids availability family n2 = Ok (combinations2, m2) → combinations1 = combinations2.
Proof using Hsteady.
  unfold nested_outcome_plans. intros E1 E2.
  refine (py_for_state_both (λ y1 y2, y1.1 = y2.1) _ _ _ (_, _) (_, _) (combinations1, m1) (combinations2, m2) _ E1 E2); [|done].
  clear -Hsteady. intros node_id [plans k1] [plans' k2] [z1 l1] [z2 l2] Hy E1 E2. cbn in Hy. subst plans'.
  refine (py_for_state_both (λ y1 y2, y1.1 = y2.1) _ _ _ ([], k1) ([], k2) (z1, l1) (z2, l2) _ E1 E2); [|done].
  clear -Hsteady. intros plan [next k1] [next' k2] [z1 l1] [z2 l2] Hy E1 E2. cbn in Hy. subst next'. unfold extend_plan in *.
  apply bind_Ok in E1 as ([o1 j1] & H1 & E1). apply bind_Ok in E2 as ([o2 j2] & H2 & E2). rewrite (child_outcomes_steady _ _ _ _ _ _ _ _ _ _ _ H1 H2) in E1.
  apply bind_Ok in E1 as (? & _ & [= <- _]). by apply bind_Ok in E2 as (? & _ & [= <- _]).
Qed.

Lemma expand_quiescent_steady graph item family n1 n2 successors1 successors2 m1 m2 :
  expand_quiescent_executable prover graph item family n1 = Ok (successors1, m1) →
  expand_quiescent_executable prover graph item family n2 = Ok (successors2, m2) → successors1 = successors2.
Proof using Hsteady.
  unfold expand_quiescent_executable, try_or. destruct (plan_tasks _ _ _) as [tasks|e].
  - intros E1 E2. same_call E1 E2 v1. apply bind_Ok in E1 as ([c1 k1] & H1 & E1). apply bind_Ok in E2 as ([c2 k2] & H2 & E2).
    rewrite (nested_outcome_plans_steady _ _ _ _ _ _ _ _ _ _ _ H1 H2) in E1. same_call E1 E2 v2. same_call E1 E2 w.
    injection E1 as <- _. by injection E2 as <- _.
  - destruct (one_of _ _); [|done]. intros [= <- _]. by intros [= <- _].
Qed.

(** Searches that differ in the budget only. *)
Definition with_budget search (budget : Z) : Search :=
  mkSearch (se_pending search) (se_sequence search) (se_seen search) (se_cycle_entries search) (se_boundaries search) budget.
Definition alike search1 search2 : Prop := with_budget search1 0 = with_budget search2 0.

Lemma alike_parts search1 search2 : alike search1 search2 → ∃ budget, search2 = with_budget search1 budget.
Proof using Type. destruct search1, search2. intros [= <- <- <- <- <-]. by eexists. Qed.

Lemma add_successor_alike family successor search1 search2 after1 after2 : alike search1 search2 →
  add_successor descriptor_text family search1 successor = Ok after1 → add_successor descriptor_text family search2 successor = Ok after2 →
  alike after1 after2.
Proof using Type.
  intros [budget ->]%alike_parts E1 E2. destruct successor as [item|boundary]; cbn in E1, E2.
  - unfold enqueue in *. cbn in E2. same_call E1 E2 v3. injection E1 as <-. by injection E2 as <-.
  - injection E1 as <-. injection E2 as <-. unfold add_boundary, with_budget. cbn [se_boundaries]. by destruct (mem _ _).
Qed.

Lemma enqueue_successors_alike family successors n1 n2 search1 search2 after1 after2 : alike search1 search2 →
  enqueue_successors descriptor_text family search1 successors n1 = Ok after1 →
  enqueue_successors descriptor_text family search2 successors n2 = Ok after2 → alike after1 after2.
Proof using Type.
  intros [budget ->]%alike_parts. unfold enqueue_successors. intros (k1 & _ & E1)%bind_Ok (k2 & _ & E2)%bind_Ok.
  refine (py_for_state_both alike _ _ _ _ _ _ _ _ E1 E2); [|done]. intros successor y1 y2 z1 z2. by apply add_successor_alike.
Qed.

Lemma visit_alike graph scope_run family window item search1 search2 after1 after2 : alike search1 search2 →
  visit_item descriptor_text repr_tuple prover graph scope_run family window search1 item = Ok after1 →
  visit_item descriptor_text repr_tuple prover graph scope_run family window search2 item = Ok after2 → alike after1 after2.
Proof using Hsteady.
  intros [budget ->]%alike_parts. unfold visit_item. cbn [with_budget se_seen]. destruct (mem _ _); [by intros [= <-] [= <-]|].
  assert (∀ kind after1 after2, Ok (add_boundary (mark_seen search1 (transfer_state item family)) (mkScopeBoundary kind (wi_availability item) (wi_binding item))) = Ok after1 →
    Ok (add_boundary (mark_seen (with_budget search1 budget) (transfer_state item family)) (mkScopeBoundary kind (wi_availability item) (wi_binding item))) = Ok after2 →
    alike after1 after2) as Hb.
  { intros kind a1 a2 [= <-] [= <-]. unfold add_boundary, mark_seen, with_budget. cbn [se_boundaries]. by destruct (mem _ _). }
  destruct (st_status _); [| |apply Hb|apply Hb].
  - intros E1 E2. same_call E1 E2 status. destruct status; [|done|by eapply Hb|]; unfold expand_running in *; (destruct (st_execution _);
      [apply seq_Ok_iff in E1 as [_ E1]; apply seq_Ok_iff in E2 as [_ E2]; same_call E1 E2 successors; by eapply enqueue_successors_alike; [|exact E1|exact E2]|]);
      case_bool_decide; try done; same_call E1 E2 signature; try by eapply enqueue_successors_alike; [|exact E1|exact E2].
    cbn [recurs mark_seen with_budget se_cycle_entries] in E1, E2. unfold recurs in E1, E2. cbn [mark_seen with_budget se_cycle_entries] in E1, E2.
    case_match; [by eapply Hb|]. apply bind_Ok in E1 as ([c1 k1] & H1 & E1). apply bind_Ok in E2 as ([c2 k2] & H2 & E2).
    rewrite (expand_quiescent_steady _ _ _ _ _ _ _ _ _ H1 H2) in E1. eapply enqueue_successors_alike; [|exact E1|exact E2]. by destruct signature.
  - intros E1 E2. same_call E1 E2 v4. apply seq_Ok_iff in E1 as [_ E1]. apply seq_Ok_iff in E2 as [_ E2]. by eapply Hb.
Qed.

Lemma search_loop_alike graph scope_run family window fuel1 : ∀ fuel2 search1 search2 after1 after2, alike search1 search2 →
  search_loop descriptor_text repr_tuple prover fuel1 graph scope_run family window search1 = Ok after1 →
  search_loop descriptor_text repr_tuple prover fuel2 graph scope_run family window search2 = Ok after2 → alike after1 after2.
Proof using Hsteady.
  induction fuel1 as [|fuel1 IH]; intros fuel2 search1 search2 after1 after2 Ha; pose proof (alike_parts _ _ Ha) as [budget ->];
    destruct fuel2; cbn [search_loop with_budget se_pending]; destruct (heappop (se_pending search1)) as [[item rest]|]; try done;
    try (by intros [= <-] [= <-]). intros (s1 & H1 & E1)%bind_Ok (s2 & H2 & E2)%bind_Ok. eapply IH; [|exact E1|exact E2].
  by eapply visit_alike; [|exact H1|exact H2].
Qed.

Lemma prove_scope_body_steady : steady (prove_scope_body descriptor_text repr_tuple prover).
Proof using Hsteady.
  intros graph b a f n1 n2 bs1 bs2 m1 m2. unfold prove_scope_body. intros E1 E2. same_call E1 E2 v5.
  apply bind_Ok in E1 as (k1 & _ & E1). apply bind_Ok in E2 as (k2 & _ & E2). same_call E1 E2 v6.
  apply bind_Ok in E1 as (s1 & H1 & E1). apply bind_Ok in E2 as (s2 & H2 & E2).
  assert (alike s1 s2) as [budget ->]%alike_parts by (by eapply search_loop_alike; [|exact H1|exact H2]).
  cbn [with_budget se_boundaries] in E2. same_call E1 E2 v7. injection E1 as <- _. by injection E2 as <- _.
Qed.
End body.

Lemma scope_prover_steady : steady (scope_prover descriptor_text repr_tuple).
Proof using Type.
  assert (∀ depth graph b a f n1 n2 bs1 bs2 m1 m2, prove_scope descriptor_text repr_tuple depth graph b a f n1 = Ok (bs1, m1) →
    prove_scope descriptor_text repr_tuple depth graph b a f n2 = Ok (bs2, m2) → bs1 = bs2) as H.
  { induction depth as [|depth IH]; [done|]. intros graph b a f n1 n2 bs1 bs2 m1 m2. cbn [prove_scope]. by apply prove_scope_body_steady. }
  intros graph b a f. unfold scope_prover. apply H.
Qed.
End steady.
