(* ===== verification/RecoveryCoverage.v ===== *)
(** * The recovery proof explores everything and simulates the reducer

    What the recovery proof has to cover is stated apart from how it searches: the steps of
    the simulated run are relations, one per kind of item, quantified over every legal route
    and every combination of child outcomes; the search is proved to take all of them. *)

From Stdlib Require Import ZArith NArith Lia Bool String.
From stdpp Require Import prelude strings gmap sorting.
From S2P Require Import Prelude Identity Resources Model Validation Transitions WellFormed Reducer ReducerProofs Topology DefinitionProofs Routing DemoGraph Engine Values RunContext Materialization Superstep SessionTheorems TypeTheorems Invocation Persistence Checkpoint RestoreProofs Recovery RecoveryProofs.

Set Default Goal Selector "!".
Open Scope Z_scope.

(* ------------------------------------------------------------------ *)
(** ** The steps of a simulated run *)

Section steps.
Context {V : Type} (repr_tuple : list str → str).
Context (prover : CompiledGraph V → ScopedStateBinding → Availability → RecoveryFamily → Z → result (list ScopeBoundary * Z)).
Context (graph : CompiledGraph V) (family : RecoveryFamily).
Implicit Types (item : RecoveryWorkItem) (visited : list RecoveryWorkItem).

Definition item_state item : GraphRunState := ssb_state (wi_binding item).
Notation scope_of := (λ item, ssb_scope_run (wi_binding item)).
Notation limits := (rfam_limits family).

(** When no task is live any more the simulated execution is given up. *)
Definition closes (live : list str) (state : GraphRunState) (children : list ScopedRunEvidence) (closed : GraphRunState) : Prop :=
  match live with [] => finish_recovery_execution state children = Ok closed | _ => closed = state end.

(** A live node succeeds with one route: its settlement is projected and reduced, and its
    output becomes available. *)
Inductive route_step item (node : str) (rest : list str) (route : option str) : RecoveryWorkItem → Prop :=
| route_settles command settled coordinate live closed :
    project_success_settlement graph (item_state item) node route None = Ok command →
    reduce_graph_run (Some (item_state item)) (CmdSettle command) = Ok settled →
    publication_availability_coordinate graph (scope_of item) (mkActivation (st_run_id (item_state item)) (st_superstep (item_state item)) node) = Ok coordinate →
    select_live graph settled limits rest = Ok live → closes live settled (wi_children item) closed →
    route_step item node rest route (mkWorkItem (mkStateBinding (scope_of item) closed) (with_publication (wi_availability item) coordinate) live
      (wi_children item) (wi_invocation_new_children item)).

(** A settled frontier is resolved by the routing resolver of a real run, with everything it
    reads available (it does not abort), and its command reduced. *)
Inductive resolution_step item : Successor → Prop :=
| resolves_completion command resolved :
    resolve_routing repr_tuple graph (item_state item) (scope_of item) (wi_availability item) = Ok (CmdComplete command) →
    reduce_graph_run (Some (item_state item)) (CmdComplete command) = Ok resolved →
    resolution_step item (AtBoundary (mkScopeBoundary SCOPE_COMPLETED (wi_availability item) (mkStateBinding (scope_of item) resolved)))
| resolves_advance command resolved :
    resolve_routing repr_tuple graph (item_state item) (scope_of item) (wi_availability item) = Ok (CmdAdvance command) →
    reduce_graph_run (Some (item_state item)) (CmdAdvance command) = Ok resolved →
    resolution_step item (NextItem (mkWorkItem (mkStateBinding (scope_of item) resolved) (wi_availability item) [] [] (nested_pending graph resolved))).

(** How the child run of a nested node may end: as it already ended, or at any boundary that
    the proof of the child, running from its seed, returns.  A completed child takes its
    route along and makes its boundary available. *)
Definition completed_outcome (node : str) (child : CompiledGraph V) (boundary : ScopeBoundary) : NestedOutcome :=
  mkNestedOutcome node (mkScopeBoundary SCOPE_COMPLETED
    (with_child_boundary (sb_availability boundary) (mkBoundaryCoordinate (ssb_scope_run (sb_binding boundary)) (fd_identity (graph_output_descriptor child))))
    (sb_binding boundary)) (st_completion_route (ssb_state (sb_binding boundary))).
Inductive child_ends (binding : ScopedStateBinding) (availability : Availability) (node : str) : NestedOutcome → Prop :=
| child_finished child parent coordinate seed seeded outcome :
    map_get (nested_graphs graph) node = Ok child → child_coordinate binding node = Ok (parent, coordinate) →
    child_seed graph child (ssb_state binding) parent coordinate availability family = Ok (seed, seeded) →
    match st_status (ssb_state seed) with
    | COMPLETED => outcome = completed_outcome node child (mkScopeBoundary SCOPE_COMPLETED seeded seed)
    | FAILED => outcome = mkNestedOutcome node (mkScopeBoundary SCOPE_FAILED seeded seed) None
    | ABORTED => outcome = mkNestedOutcome node (mkScopeBoundary SCOPE_ABORTED seeded seed) None
    | RUNNING => False
    end → child_ends binding availability node outcome
| child_runs child parent coordinate seed seeded budget boundaries budget' boundary outcome :
    map_get (nested_graphs graph) node = Ok child → child_coordinate binding node = Ok (parent, coordinate) →
    child_seed graph child (ssb_state binding) parent coordinate availability family = Ok (seed, seeded) →
    st_status (ssb_state seed) = RUNNING → prover child seed seeded family budget = Ok (boundaries, budget') → boundary ∈ boundaries →
    outcome = match sb_kind boundary with SCOPE_COMPLETED => completed_outcome node child boundary | _ => mkNestedOutcome node boundary None end →
    child_ends binding availability node outcome.

(** A combination: one ending per nested node, each with what the earlier ones made available. *)
Inductive combined (binding : ScopedStateBinding) (start : Availability) : list str → list NestedOutcome → Availability → Prop :=
| combined_none : combined binding start [] [] start
| combined_more nodes outcomes availability node outcome : combined binding start nodes outcomes availability →
    child_ends binding availability node outcome →
    combined binding start (nodes ++ [node]) (outcomes ++ [outcome]) (sb_availability (out_boundary outcome)).

(** The endings of children are settled one after another: a completed child with its route
    and its Config, a failed or aborted one as a failure; a waiting one stays pending. *)
Inductive settles (scope_run : ScopeRunCoordinate) : GraphRunState → Availability → list NestedOutcome → GraphRunState → Availability → Prop :=
| settles_none state availability : settles scope_run state availability [] state availability
| settles_completed state availability outcome outcomes child cursor command settled coordinate state' availability' :
    sb_kind (out_boundary outcome) = SCOPE_COMPLETED → map_get (nested_graphs graph) (out_node_id outcome) = Ok child →
    activation_config_cursor child (ssb_state (sb_binding (out_boundary outcome))) = Ok cursor →
    project_success_settlement graph state (out_node_id outcome) (out_route outcome) cursor = Ok command →
    reduce_graph_run (Some state) (CmdSettle command) = Ok settled →
    publication_availability_coordinate graph scope_run (mkActivation (st_run_id state) (st_superstep state) (out_node_id outcome)) = Ok coordinate →
    settles scope_run settled (with_publication availability coordinate) outcomes state' availability' →
    settles scope_run state availability (outcome :: outcomes) state' availability'
| settles_failed state availability outcome outcomes reason command settled state' availability' :
    sb_kind (out_boundary outcome) = SCOPE_FAILED ∨ sb_kind (out_boundary outcome) = SCOPE_ABORTED →
    project_failure_settlement state (out_node_id outcome) reason = Ok command →
    reduce_graph_run (Some state) (CmdSettle command) = Ok settled →
    settles scope_run settled availability outcomes state' availability' →
    settles scope_run state availability (outcome :: outcomes) state' availability'
| settles_waiting state availability outcome outcomes state' availability' :
    sb_kind (out_boundary outcome) = SCOPE_AWAITING_RESUME → settles scope_run state availability outcomes state' availability' →
    settles scope_run state availability (outcome :: outcomes) state' availability'.

(** Nothing can be done before some child is resumed. *)
Definition all_wait item (tasks : list GraphTask) (outcomes : list NestedOutcome) : Prop :=
  outcomes ≠ [] ∧ Forall (λ outcome, sb_kind (out_boundary outcome) = SCOPE_AWAITING_RESUME) outcomes
  ∧ frontier_failed (item_state item) = false ∧ Forall (λ task, is_callable graph task = Ok false) tasks.

(** A quiescent frontier with one combination of child outcomes: a child at its limit is the
    limit of the scope; with nothing but waiting children the scope waits; otherwise every
    callable node finds its input available, the frontier is claimed, the children are
    settled and the first live tasks chosen. *)
Inductive combination_step item (tasks : list GraphTask) (children : list ScopedRunEvidence) (outcomes : list NestedOutcome)
    (availability : Availability) : Successor → Prop :=
| combination_limited before limited after : outcomes = before ++ limited :: after → Forall (λ outcome, is_limited outcome = false) before →
    is_limited limited = true → combination_step item tasks children outcomes availability (AtBoundary (out_boundary limited))
| combination_waits : all_wait item tasks outcomes →
    combination_step item tasks children outcomes availability (AtBoundary (mkScopeBoundary SCOPE_AWAITING_RESUME availability (wi_binding item)))
| combination_claimed resources claimed settled availability' live closed :
    Forall (λ outcome, is_limited outcome = false) outcomes → ¬ all_wait item tasks outcomes →
    (∀ task, task ∈ tasks → is_callable graph task = Ok true →
       pending_node_input_available graph (item_state item) (scope_of item) availability (task_node_id task) = Ok true) →
    claim_resource_snapshot graph tasks = Ok resources →
    reduce_graph_run (Some (item_state item)) (CmdClaim (project_claim_command (item_state item) (lit "recovery-preflight") resources)) = Ok claimed →
    settles (scope_of item) claimed availability outcomes settled availability' →
    select_live graph settled limits [] = Ok live →
    closes live settled ((StateEvidence ∘ sb_binding ∘ out_boundary) <$> outcomes) closed →
    combination_step item tasks children outcomes availability
      (NextItem (mkWorkItem (mkStateBinding (scope_of item) closed) availability' live
         (match outcomes with [] => children | _ => (StateEvidence ∘ sb_binding ∘ out_boundary) <$> outcomes end) [])).

Definition item_boundary item (kind : ScopeBoundaryKind) : Successor := AtBoundary (mkScopeBoundary kind (wi_availability item) (wi_binding item)).

(** An item is explored, given what counts as covered and the items visited: a finished or
    waiting run is a covered boundary (a completed one with its outputs available); a leased
    run settles its first live node with every legal route, a settled frontier is resolved,
    an executable one is claimed with every combination of child outcomes or stops at the
    superstep limit, and all of these successors are covered; or the item repeats the
    position of a visited item of an earlier superstep. *)
Inductive explored (covered : Successor → Prop) visited item : Prop :=
| explored_completed : st_status (item_state item) = COMPLETED →
    graph_outputs_available graph (scope_of item) (st_superstep (item_state item)) (wi_availability item) = Ok true →
    covered (item_boundary item SCOPE_COMPLETED) → explored covered visited item
| explored_failed : st_status (item_state item) = FAILED → covered (item_boundary item SCOPE_FAILED) → explored covered visited item
| explored_aborted : st_status (item_state item) = ABORTED → covered (item_boundary item SCOPE_ABORTED) → explored covered visited item
| explored_waiting : st_status (item_state item) = RUNNING → frontier_status (st_frontier (item_state item)) = Ok AWAITING_RESUME →
    covered (item_boundary item SCOPE_AWAITING_RESUME) → explored covered visited item
| explored_live node rest routes : st_status (item_state item) = RUNNING → is_Some (st_execution (item_state item)) →
    wi_live item = node :: rest → map_get (route_options (transition graph)) node = Ok routes →
    (∀ route, route ∈ routes → ∃ next, route_step item node rest route next ∧ covered (NextItem next)) → explored covered visited item
| explored_settled successor : st_status (item_state item) = RUNNING → st_execution (item_state item) = None →
    frontier_status (st_frontier (item_state item)) = Ok SETTLED → resolution_step item successor → covered successor →
    explored covered visited item
| explored_limit e : st_status (item_state item) = RUNNING → st_execution (item_state item) = None →
    frontier_status (st_frontier (item_state item)) = Ok EXECUTABLE →
    plan_tasks graph (item_state item) limits = Raise e → exn_kind e = ExecutionLimitError →
    covered (item_boundary item EXECUTION_LIMIT) → explored covered visited item
| explored_executable tasks children : st_status (item_state item) = RUNNING → st_execution (item_state item) = None →
    frontier_status (st_frontier (item_state item)) = Ok EXECUTABLE → plan_tasks graph (item_state item) limits = Ok tasks →
    initial_children graph (wi_binding item) family (wi_invocation_new_children item) = Ok children →
    (∀ outcomes availability,
       combined (wi_binding item) (wi_availability item) (List.filter (map_has (nested_graphs graph)) (task_node_id <$> tasks)) outcomes availability →
       ∃ successor, combination_step item tasks children outcomes availability successor ∧ covered successor) →
    explored covered visited item
| explored_recurrence signature earlier : st_status (item_state item) = RUNNING → earlier ∈ visited →
    recovery_cycle_signature graph earlier (publication_history_window graph) = Ok (Some signature) →
    recovery_cycle_signature graph item (publication_history_window graph) = Ok (Some signature) →
    st_superstep (item_state earlier) < st_superstep (item_state item) → covered (item_boundary item BOUNDED_RECURRENCE) →
    explored covered visited item.
End steps.

(* ------------------------------------------------------------------ *)
(** ** The search takes every step *)

Section taken.
Context {V : Type} (repr_tuple : list str → str).
Context (prover : CompiledGraph V → ScopedStateBinding → Availability → RecoveryFamily → Z → result (list ScopeBoundary * Z)).
Context (graph : CompiledGraph V) (family : RecoveryFamily).
Context (Hsteady : steady prover).
Implicit Types (item : RecoveryWorkItem).

Lemma activation_Ok run_id superstep node activation :
  GraphActivationIdentity_new run_id superstep node = Ok activation → activation = mkActivation run_id superstep node.
Proof using Type. unfold GraphActivationIdentity_new. intros E. do 3 apply seq_Ok_iff in E as [_ E]. by injection E. Qed.

Lemma closes_Ok live state children closed :
  (if is_nil live then finish_recovery_execution state children else Ok state) = Ok closed → closes live state children closed.
Proof using Type. destruct live; cbn; [done|by intros [= <-]]. Qed.

Lemma expand_live_steps item successors : expand_live graph item family = Ok successors →
  ∃ node rest routes, wi_live item = node :: rest ∧ map_get (route_options (transition graph)) node = Ok routes
    ∧ ∀ route, route ∈ routes → ∃ next, route_step graph family item node rest route next ∧ NextItem next ∈ successors.
Proof using Type.
  unfold expand_live. destruct (wi_live item) as [|node rest]; [done|]. intros (routes & Hr & Hm%mapM_Forall2)%bind_Ok.
  exists node, rest, routes. split_and!; [done..|]. intros route Hin. destruct (Forall2_elem_r _ _ _ _ (proj2 (Forall2_flip _ _ _) Hm) Hin) as (successor & Hs & E).
  unfold expand_route in E. apply bind_Ok in E as (command & Hc & E). apply bind_Ok in E as (settled & Hset & E).
  apply bind_Ok in E as (activation & ->%activation_Ok & E). apply bind_Ok in E as (coordinate & Hco & E). apply bind_Ok in E as (live & Hl & E).
  apply bind_Ok in E as (closed & Hcl%closes_Ok & [= <-]). eexists. split; [|exact Hs]. by econstructor.
Qed.

Lemma resolve_quiescent_step item successor : resolve_quiescent repr_tuple graph item = Ok successor → resolution_step repr_tuple graph item successor.
Proof using Type.
  unfold resolve_quiescent. intros (facts & Hf & E)%bind_Ok. apply bind_Ok in E as (command & Hc & E).
  assert (resolve_routing repr_tuple graph (item_state item) (ssb_scope_run (wi_binding item)) (wi_availability item) = Ok command) as Hres
    by (unfold resolve_routing, item_state; by rewrite Hf).
  destruct command; try done; apply bind_Ok in E as (resolved & Hr & [= <-]); try (by econstructor);
    exfalso; unfold project_routing_facts in Hc; repeat case_match; done.
Qed.

Lemma child_ends_taken binding node availability n outcomes m outcome :
  child_outcomes prover graph binding node availability family n = Ok (outcomes, m) →
  child_ends prover graph family binding availability node outcome → outcome ∈ outcomes.
Proof using Hsteady.
  unfold child_outcomes. intros E H. destruct H as [child parent coordinate seed seeded o Hm Hc Hs Ho
    |child parent coordinate seed seeded budget boundaries budget' boundary o Hm Hc Hs Hst Hp Hin Ho];
    rewrite Hm in E; cbn [mbind result_bind] in E; rewrite Hc in E; cbn [mbind result_bind] in E; rewrite Hs in E; cbn [mbind result_bind] in E.
  - destruct (st_status (ssb_state seed)); [done| | |]; subst o; [|injection E as <- _; by left..].
    apply bind_Ok in E as (? & _ & E). apply seq_Ok_iff in E as [_ [= <- _]]. by left.
  - rewrite Hst in E. apply bind_Ok in E as ([bs k] & Hp' & [= <- _]). rewrite (Hsteady _ _ _ _ _ _ _ _ _ _ Hp' Hp).
    apply list_elem_of_In, in_concat. eexists. split; [apply list_elem_of_In, list_elem_of_fmap; by exists boundary|].
    subst o. destruct boundary as [kind a b]. destruct kind; cbn; by left.
Qed.

Lemma combined_taken binding nodes start n combinations m outcomes availability :
  nested_outcome_plans prover graph binding nodes start family n = Ok (combinations, m) →
  combined prover graph family binding start nodes outcomes availability → mkNestedCombination outcomes availability ∈ combinations.
Proof using Hsteady.
  unfold nested_outcome_plans. intros E. revert outcomes availability.
  refine (py_for_state_prefix (λ dn st, ∀ outcomes availability, combined prover graph family binding start dn outcomes availability →
    mkNestedCombination outcomes availability ∈ st.1) _ _ _ (_, _) (combinations, m) _ E).
  - clear E. intros dn node [plans k] [plans' k'] Hst E outcomes availability Hc. cbn [fst] in *. inversion Hc as [Hnil|nodes' outs av node' outcome Hc' He Hn]; [by destruct dn|].
    apply app_inj_2 in Hn as [-> [= ->]]; [|done]. subst. specialize (Hst _ _ Hc'). clear Hc Hc'.
    refine (py_for_state_prefix (λ dn st, mkNestedCombination outs av ∈ dn → mkNestedCombination (outs ++ [outcome]) (sb_availability (out_boundary outcome)) ∈ st.1)
      _ _ _ (_, _) (plans', k') _ E Hst); [|by intros ?%elem_of_nil].
    clear E Hst. intros dn' plan [next j] [next' j'] Hst E Hin. cbn [fst] in *. unfold extend_plan in E.
    apply bind_Ok in E as ([os l] & Hos & E). apply bind_Ok in E as (? & _ & [= <- _]). cbn [fst]. apply elem_of_app.
    apply elem_of_app in Hin as [Hin|<-%list_elem_of_singleton]; [left; by apply Hst|right]. apply list_elem_of_fmap. exists outcome. split; [done|].
    by eapply child_ends_taken.
  - intros outcomes availability Hc. inversion Hc as [|nodes' ? ? ? ? ? ? Hn]; subst; [by left|by destruct nodes'].
Qed.

Lemma settles_taken scope_run outcomes : ∀ state availability state' availability',
  py_for_state outcomes (state, availability) (settle_nested_outcome graph scope_run) = Ok (state', availability') →
  settles graph scope_run state availability outcomes state' availability'.
Proof using Type.
  induction outcomes as [|outcome outcomes IH]; intros state availability state' availability'; cbn [py_for_state]; [intros [= <- <-]; constructor|].
  intros ([settled available] & Ho & E%IH)%bind_Ok. unfold settle_nested_outcome in Ho. destruct (sb_kind _) eqn:Hk; try done.
  - apply bind_Ok in Ho as (child & Hm & Ho). apply bind_Ok in Ho as (cursor & Hcur & Ho). apply bind_Ok in Ho as (command & Hc & Ho).
    apply bind_Ok in Ho as (s & Hs & Ho). apply bind_Ok in Ho as (activation & ->%activation_Ok & Ho). apply bind_Ok in Ho as (coordinate & Hco & [= -> <-]).
    by eapply settles_completed.
  - apply bind_Ok in Ho as (s & Hs & [= -> <-]). unfold settle_recovery_child_failure in Hs. apply bind_Ok in Hs as (command & Hc & Hs).
    eapply settles_failed; [by left|done..].
  - apply bind_Ok in Ho as (s & Hs & [= -> <-]). unfold settle_recovery_child_failure in Hs. apply bind_Ok in Hs as (command & Hc & Hs).
    eapply settles_failed; [by right|done..].
  - injection Ho as <- <-. by apply settles_waiting.
Qed.

Lemma unavailable_tasks_nil state scope_run availability tasks : unavailable_tasks graph state scope_run availability tasks = Ok [] →
  ∀ task, task ∈ tasks → is_callable graph task = Ok true → pending_node_input_available graph state scope_run availability (task_node_id task) = Ok true.
Proof using Type.
  unfold unavailable_tasks. intros E. refine (py_for_state_prefix (λ dn unavailable, unavailable = [] → ∀ task, task ∈ dn → is_callable graph task = Ok true →
    pending_node_input_available graph state scope_run availability (task_node_id task) = Ok true) _ _ _ [] [] _ E eq_refl); [|by intros _ task ?%elem_of_nil].
  intros dn task st st' Hst Hb -> x [Hx| ->%list_elem_of_singleton]%elem_of_app Hcall.
  - apply bind_Ok in Hb as (callable & _ & Hb). destruct callable.
    + apply bind_Ok in Hb as (available & _ & [= Hb]). destruct available; [by apply Hst|by destruct st].
    + injection Hb as ->. by apply Hst.
  - rewrite Hcall in Hb. cbn [mbind result_bind] in Hb. apply bind_Ok in Hb as (available & Ha & [= Hb]). destruct available; [done|by destruct st].
Qed.

Lemma find_limited outcomes : match List.find is_limited outcomes with
  | Some limited => ∃ before after, outcomes = before ++ limited :: after ∧ Forall (λ outcome, is_limited outcome = false) before ∧ is_limited limited = true
  | None => Forall (λ outcome, is_limited outcome = false) outcomes
  end.
Proof using Type.
  induction outcomes as [|outcome outcomes IH]; cbn; [constructor|]. destruct (is_limited outcome) eqn:E; [by exists [], outcomes|].
  destruct (List.find _ _); [|by constructor]. destruct IH as (before & after & -> & Hb & Hl). exists (outcome :: before), after. split_and!; [done|by constructor|done].
Qed.

Lemma awaiting_spec outcomes :
  forallb (λ outcome, bool_decide (sb_kind (out_boundary outcome) = SCOPE_AWAITING_RESUME)) outcomes = true
  ↔ Forall (λ outcome, sb_kind (out_boundary outcome) = SCOPE_AWAITING_RESUME) outcomes.
Proof using Type.
  induction outcomes as [|outcome outcomes IH]; [by split; [constructor|]|]. by rewrite Forall_cons, <- IH, <- (bool_decide_eq_true (sb_kind _ = _)), <- andb_true_iff.
Qed.

Lemma callables_spec tasks callables : mapM (is_callable graph) tasks = Ok callables →
  existsb id callables = false ↔ Forall (λ task, is_callable graph task = Ok false) tasks.
Proof using Type.
  intros Hm%mapM_Forall2. induction Hm as [|task callable tasks callables Hc _ IH]; cbn; [by split; [constructor|]|].
  rewrite orb_false_iff, IH, Forall_cons, Hc. unfold id. split; (intros [E ?]; split; [|done]); [by rewrite E|by injection E].
Qed.

Lemma expand_combination_step item tasks children callables outcomes availability successor :
  mapM (is_callable graph) tasks = Ok callables →
  expand_combination graph item family tasks children (existsb id callables) (mkNestedCombination outcomes availability) = Ok successor →
  combination_step graph family item tasks children outcomes availability successor.
Proof using Type.
  intros Hcall%callables_spec. unfold expand_combination. cbn [nc_outcomes nc_availability]. fold (item_state item).
  pose proof (find_limited outcomes) as Hl. destruct (List.find is_limited outcomes) as [limited|].
  { intros [= <-]. destruct Hl as (before & after & E & Hb & Hlim). by eapply combination_limited. }
  assert (∀ b, b = negb (frontier_failed (item_state item)) && negb (existsb id callables) && negb (is_nil outcomes)
    && forallb (λ outcome, bool_decide (sb_kind (out_boundary outcome) = SCOPE_AWAITING_RESUME)) outcomes → b = true ↔ all_wait graph item tasks outcomes) as Hw.
  { intros b ->. unfold all_wait. rewrite !andb_true_iff, !negb_true_iff, Hcall, awaiting_spec, is_nil_false. tauto. }
  destruct (_ && _) eqn:Eb; specialize (Hw _ eq_refl); [intros [= <-]; by apply combination_waits, Hw|].
  intros E. apply bind_Ok in E as (unavailable & Hu & E). apply seq_Ok_iff in E as [->%raise_if_Ok%negb_false_iff%is_nil_spec E].
  apply bind_Ok in E as (resources & Hr & E). apply bind_Ok in E as (claimed & Hc & E). apply bind_Ok in E as ([settled availability'] & Hs%settles_taken & E).
  apply bind_Ok in E as (live & Hlive & E). apply bind_Ok in E as (closed & Hcl%closes_Ok & [= <-]).
  assert ((if is_nil ((StateEvidence ∘ sb_binding ∘ out_boundary) <$> outcomes) then children else (StateEvidence ∘ sb_binding ∘ out_boundary) <$> outcomes)
    = match outcomes with [] => children | _ => (StateEvidence ∘ sb_binding ∘ out_boundary) <$> outcomes end) as -> by (by destruct outcomes).
  eapply combination_claimed; [done| |by eapply unavailable_tasks_nil|done..]. intros Ha%Hw. done.
Qed.

(** What expanding an executable frontier computes: the superstep limit, or a step for every
    combination. *)
Lemma expand_quiescent_steps item n successors m : expand_quiescent_executable prover graph item family n = Ok (successors, m) →
  (∃ e, plan_tasks graph (item_state item) (rfam_limits family) = Raise e ∧ exn_kind e = ExecutionLimitError
     ∧ item_boundary item EXECUTION_LIMIT ∈ successors)
  ∨ ∃ tasks children, plan_tasks graph (item_state item) (rfam_limits family) = Ok tasks
     ∧ initial_children graph (wi_binding item) family (wi_invocation_new_children item) = Ok children
     ∧ ∀ outcomes availability,
       combined prover graph family (wi_binding item) (wi_availability item) (List.filter (map_has (nested_graphs graph)) (task_node_id <$> tasks)) outcomes availability →
       ∃ successor, combination_step graph family item tasks children outcomes availability successor ∧ successor ∈ successors.
Proof using Hsteady.
  unfold expand_quiescent_executable, try_or. fold (item_state item). destruct (plan_tasks _ _ _) as [tasks|e].
  - intros E. right. apply bind_Ok in E as (children & Hch & E). apply bind_Ok in E as ([combinations k] & Hcs & E).
    apply bind_Ok in E as (callables & Hcall & E). apply bind_Ok in E as (found & Hm%mapM_Forall2 & [= <- _]).
    exists tasks, children. split_and!; [done..|]. intros outcomes availability Hc%(combined_taken _ _ _ _ _ _ _ _ Hcs).
    destruct (Forall2_elem_r _ _ _ _ (proj2 (Forall2_flip _ _ _) Hm) Hc) as (successor & Hin & Hs). exists successor. split; [|done].
    by eapply expand_combination_step.
  - destruct (one_of _ _) eqn:Eo; [|done]. intros [= <- _]. left. exists e. split_and!; [done| |by left].
    unfold one_of in Eo. by apply bool_decide_eq_true, list_elem_of_singleton in Eo.
Qed.
End taken.

(* ------------------------------------------------------------------ *)
(** ** Simulated states *)

(** A state that the reducer leads to. *)
Lemma reduced state command state' : reduce_graph_run (Some state) command = Ok state' → rtc run_step state state'.
Proof. intros E. apply rtc_once. by exists command. Qed.

Lemma child_failure_reached state node_id kind state' : settle_recovery_child_failure state node_id kind = Ok state' → rtc run_step state state'.
Proof. unfold settle_recovery_child_failure. by intros (command & _ & E%reduced)%bind_Ok. Qed.

Lemma awaiting_children_reached state children state' : settle_awaiting_children_after_failure state children = Ok state' → rtc run_step state state'.
Proof.
  unfold settle_awaiting_children_after_failure. destruct (frontier_failed state); [|by intros [= <-]]. cbn [negb]. intros E.
  refine (py_for_state_prefix (λ _ st, rtc run_step state st) _ _ _ _ _ _ E); [|done].
  intros _ child st st' Hst Hc. etransitivity; [done|]. destruct child as [binding|]; [|by injection Hc as <-].
  destruct (negb _); [by injection Hc as <-|]. destruct (st_parent _); [|done]. by eapply child_failure_reached.
Qed.

Lemma finish_reached state children state' : finish_recovery_execution state children = Ok state' → rtc run_step state state'.
Proof.
  unfold finish_recovery_execution. intros (settled & Hs%awaiting_children_reached & E)%bind_Ok.
  destruct (st_execution settled); [|by injection E as <-]. etransitivity; [done|by eapply reduced].
Qed.

(** The successors of an item are states of its run; a boundary is one too, or it is the
    limit of a child. *)
Definition reached (start : ScopedStateBinding) (binding : ScopedStateBinding) : Prop :=
  ssb_scope_run binding = ssb_scope_run start ∧ rtc run_step (ssb_state start) (ssb_state binding).
Definition boundary_reached (start : ScopedStateBinding) (boundary : ScopeBoundary) : Prop :=
  reached start (sb_binding boundary) ∨ sb_kind boundary = EXECUTION_LIMIT ∨ sb_kind boundary = BOUNDED_RECURRENCE.
Definition successor_reached (start : ScopedStateBinding) (successor : Successor) : Prop :=
  match successor with NextItem item => reached start (wi_binding item) | AtBoundary boundary => boundary_reached start boundary end.

#[export] Instance reached_preorder : PreOrder reached.
Proof. split; [by intros b|]. intros a b c [E ?] [E' ?]. split; [by rewrite E'|by etransitivity]. Qed.

Lemma boundary_reached_trans start binding boundary : reached start binding → boundary_reached binding boundary → boundary_reached start boundary.
Proof. intros Hs [Hb|Hb]; [left; by etransitivity|by right]. Qed.
Lemma successor_reached_trans start binding successor : reached start binding → successor_reached binding successor → successor_reached start successor.
Proof. destruct successor; cbn; [intros; by etransitivity|apply boundary_reached_trans]. Qed.

Section simulated.
Context {V : Type} (descriptor_text : FrameDescriptorIdentity → str) (repr_tuple : list str → str).
Context (prover : CompiledGraph V → ScopedStateBinding → Availability → RecoveryFamily → Z → result (list ScopeBoundary * Z)).
Implicit Types (graph : CompiledGraph V) (search : Search) (item : RecoveryWorkItem) (family : RecoveryFamily).

Lemma nested_outcomes_reached graph binding combination state availability :
  settle_nested_outcomes graph binding combination = Ok (state, availability) → rtc run_step (ssb_state binding) state.
Proof using Type.
  intros E. refine (py_for_state_prefix (λ _ st, rtc run_step (ssb_state binding) st.1) _ _ _ _ (_, _) _ E); [|done].
  intros _ outcome [st a] [st' a'] Hst Ho. cbn [fst] in *. etransitivity; [done|]. clear Hst E. unfold settle_nested_outcome in Ho.
  destruct (sb_kind _).
  - do 3 apply bind_Ok in Ho as (? & _ & Ho). apply bind_Ok in Ho as (settled & Hs%reduced & Ho). do 2 apply bind_Ok in Ho as (? & _ & Ho). by injection Ho as <- _.
  - by apply bind_Ok in Ho as (? & ?%child_failure_reached & [= <- _]).
  - by apply bind_Ok in Ho as (? & ?%child_failure_reached & [= <- _]).
  - by injection Ho as <- _.
  - done.
  - done.
Qed.

Lemma expand_combination_reached graph item family tasks children callable combination successor :
  expand_combination graph item family tasks children callable combination = Ok successor → successor_reached (wi_binding item) successor.
Proof using Type.
  unfold expand_combination. destruct (List.find _ _) as [limited|] eqn:Hf.
  { intros [= <-]. right. apply find_some in Hf as [_ Hl]. unfold is_limited in Hl. destruct (sb_kind _); [done..|by left|by right]. }
  destruct (_ && _); [by intros [= <-]; left|]. intros E. apply bind_Ok in E as (? & _ & E). apply seq_Ok_iff in E as [_ E].
  apply bind_Ok in E as (resources & _ & E). apply bind_Ok in E as (claimed & Hc%reduced & E).
  apply bind_Ok in E as ([settled availability] & Hs%nested_outcomes_reached & E). apply bind_Ok in E as (live & _ & E).
  apply bind_Ok in E as (finished & Hl & [= <-]). split; [done|]. cbn in *. etransitivity; [done|]. etransitivity; [done|].
  destruct (is_nil live); [by apply finish_reached in Hl|by injection Hl as <-].
Qed.

Lemma expand_quiescent_reached graph item family budget successors budget' :
  expand_quiescent_executable prover graph item family budget = Ok (successors, budget') → Forall (successor_reached (wi_binding item)) successors.
Proof using Type.
  unfold expand_quiescent_executable, try_or. destruct (plan_tasks _ _ _) as [tasks|e].
  - intros E. apply bind_Ok in E as (children & _ & E). apply bind_Ok in E as ([combinations n] & _ & E).
    apply bind_Ok in E as (callables & _ & E). apply bind_Ok in E as (found & Hm%mapM_Forall2 & [= <- _]).
    apply Forall_forall. intros successor Hin. destruct (DefinitionProofs.Forall2_elem_r _ _ _ _ Hm Hin) as (combination & _ & Hs).
    by eapply expand_combination_reached.
  - destruct (one_of _ _); [|done]. intros [= <- _]. constructor; [|constructor]. right. by left.
Qed.

Lemma expand_live_reached graph item family successors :
  expand_live graph item family = Ok successors → Forall (successor_reached (wi_binding item)) successors.
Proof using Type.
  unfold expand_live. destruct (wi_live item) as [|node_id live]; [done|]. intros (routes & _ & Hm%mapM_Forall2)%bind_Ok.
  apply Forall_forall. intros successor Hin. destruct (DefinitionProofs.Forall2_elem_r _ _ _ _ Hm Hin) as (route & _ & E).
  unfold expand_route in E. apply bind_Ok in E as (command & _ & E). apply bind_Ok in E as (settled & Hs%reduced & E).
  do 3 apply bind_Ok in E as (? & _ & E). apply bind_Ok in E as (finished & Hl & [= <-]). split; [done|]. cbn. etransitivity; [done|].
  case_match; [by apply finish_reached in Hl|by injection Hl as <-].
Qed.

(** A resolved frontier completes the run with its outputs available, or goes on. *)
Lemma resolve_quiescent_reached graph item successor : resolve_quiescent repr_tuple graph item = Ok successor →
  successor_reached (wi_binding item) successor.
Proof using Type.
  unfold resolve_quiescent. intros (facts & Hf & E)%bind_Ok. apply bind_Ok in E as (command & Hc & E).
  destruct command; try done; apply bind_Ok in E as (resolved & Hr%reduced & [= <-]); first [by split|by left; split].
Qed.

(** A boundary that says the scope completed has the outputs of the scope. *)
Definition outputs_ready graph (scope_run : ScopeRunCoordinate) (boundary : ScopeBoundary) : Prop :=
  sb_kind boundary = SCOPE_COMPLETED →
  st_status (ssb_state (sb_binding boundary)) = COMPLETED
  ∧ graph_outputs_available graph scope_run (st_superstep (ssb_state (sb_binding boundary))) (sb_availability boundary) = Ok true.
Definition successor_ready graph scope_run (successor : Successor) : Prop :=
  match successor with NextItem _ => True | AtBoundary boundary => outputs_ready graph scope_run boundary end.

Lemma complete_keeps_superstep state c state' : reduce_graph_run (Some state) (CmdComplete c) = Ok state' →
  st_status state' = COMPLETED ∧ st_superstep state' = st_superstep state.
Proof using Type.
  intros (_ & _ & u & Hu & -> & _)%reduce_inv. cbn in Hu. apply complete_inv in Hu as (_ & _ & ->). done.
Qed.

Lemma resolve_quiescent_ready graph item successor : resolve_quiescent repr_tuple graph item = Ok successor →
  successor_ready graph (ssb_scope_run (wi_binding item)) successor.
Proof using Type.
  unfold resolve_quiescent. intros (facts & Hf & E)%bind_Ok. apply bind_Ok in E as (command & Hc & E).
  destruct command; try done; apply bind_Ok in E as (resolved & Hr & [= <-]); try done. cbn. intros _. cbn [sb_binding ssb_state sb_availability].
  apply complete_keeps_superstep in Hr as [Hs ->]. split; [done|]. unfold project_routing_facts in Hc.
  do 3 (destruct (negb _); [done|]). destruct (negb (is_nil (unavailable_outputs facts))) eqn:Hn; [done|]. apply negb_false_iff in Hn.
  unfold resolve_routing_facts in Hf. apply bind_Ok in Hf as (status & _ & Hf). apply seq_Ok_iff in Hf as [_ Hf].
  apply bind_Ok in Hf as (evaluation & _ & Hf). destruct (admission_error evaluation); [done|]. do 2 apply bind_Ok in Hf as (? & _ & Hf).
  apply bind_Ok in Hf as (outputs & Ho & Hf). apply bind_Ok in Hf as (route & _ & [= <-]). unfold graph_outputs_available. rewrite Ho. cbn in Hn.
  cbn. by rewrite Hn.
Qed.

Lemma expand_quiescent_ready graph scope_run item family budget successors budget' :
  expand_quiescent_executable prover graph item family budget = Ok (successors, budget') → Forall (successor_ready graph scope_run) successors.
Proof using Type.
  unfold expand_quiescent_executable, try_or. destruct (plan_tasks _ _ _) as [tasks|e].
  - intros E. apply bind_Ok in E as (children & _ & E). apply bind_Ok in E as ([combinations n] & _ & E).
    apply bind_Ok in E as (callables & _ & E). apply bind_Ok in E as (found & Hm%mapM_Forall2 & [= <- _]).
    apply Forall_forall. intros successor Hin. destruct (DefinitionProofs.Forall2_elem_r _ _ _ _ Hm Hin) as (combination & _ & Hs).
    unfold expand_combination in Hs. destruct (List.find _ _) as [limited|] eqn:Hf.
    { injection Hs as <-. apply find_some in Hf as [_ Hl]. unfold is_limited in Hl. intros Hk. by rewrite Hk in Hl. }
    destruct (_ && _); [by injection Hs as <-|]. clear -Hs. apply bind_Ok in Hs as (? & _ & E). apply seq_Ok_iff in E as [_ E].
    do 2 apply bind_Ok in E as (? & _ & E). apply bind_Ok in E as ([? ?] & _ & E). do 2 apply bind_Ok in E as (? & _ & E). by injection E as <-.
  - destruct (one_of _ _); [|done]. intros [= <- _]. by constructor.
Qed.

Lemma expand_live_ready graph scope_run item family successors :
  expand_live graph item family = Ok successors → Forall (successor_ready graph scope_run) successors.
Proof using Type.
  unfold expand_live. destruct (wi_live item) as [|node_id live]; [done|]. intros (routes & _ & Hm%mapM_Forall2)%bind_Ok.
  apply Forall_forall. intros successor Hin. destruct (DefinitionProofs.Forall2_elem_r _ _ _ _ Hm Hin) as (route & _ & E).
  unfold expand_route in E. do 6 apply bind_Ok in E as (? & _ & E). by injection E as <-.
Qed.
End simulated.

(* ------------------------------------------------------------------ *)
(** ** Everything is explored *)

Section explored.
Context {V : Type} (descriptor_text : FrameDescriptorIdentity → str) (repr_tuple : list str → str).
Context (prover : CompiledGraph V → ScopedStateBinding → Availability → RecoveryFamily → Z → result (list ScopeBoundary * Z)).
Context (graph : CompiledGraph V) (family : RecoveryFamily).
Notation window := (publication_history_window graph).
Implicit Types (search : Search) (item : RecoveryWorkItem) (visited : list RecoveryWorkItem).

(** The turn of an item as the search computes it, given the items it visits. *)
Inductive expands visited item : list Successor → Prop :=
| expands_completed : st_status (item_state item) = COMPLETED →
    graph_outputs_available graph (ssb_scope_run (wi_binding item)) (st_superstep (item_state item)) (wi_availability item) = Ok true →
    expands visited item [item_boundary item SCOPE_COMPLETED]
| expands_failed : st_status (item_state item) = FAILED → expands visited item [item_boundary item SCOPE_FAILED]
| expands_aborted : st_status (item_state item) = ABORTED → expands visited item [item_boundary item SCOPE_ABORTED]
| expands_awaiting : st_status (item_state item) = RUNNING → frontier_status (st_frontier (item_state item)) = Ok AWAITING_RESUME →
    expands visited item [item_boundary item SCOPE_AWAITING_RESUME]
| expands_live successors : st_status (item_state item) = RUNNING → is_Some (st_execution (item_state item)) →
    expand_live graph item family = Ok successors → expands visited item successors
| expands_resolved successor : st_status (item_state item) = RUNNING → st_execution (item_state item) = None →
    frontier_status (st_frontier (item_state item)) = Ok SETTLED → resolve_quiescent repr_tuple graph item = Ok successor →
    expands visited item [successor]
| expands_executable budget successors budget' : st_status (item_state item) = RUNNING → st_execution (item_state item) = None →
    frontier_status (st_frontier (item_state item)) = Ok EXECUTABLE →
    expand_quiescent_executable prover graph item family budget = Ok (successors, budget') → expands visited item successors
| expands_recurrence signature earlier : st_status (item_state item) = RUNNING → earlier ∈ visited →
    recovery_cycle_signature graph earlier window = Ok (Some signature) → recovery_cycle_signature graph item window = Ok (Some signature) →
    st_superstep (item_state earlier) < st_superstep (item_state item) → expands visited item [item_boundary item BOUNDED_RECURRENCE].

Lemma expands_weaken visited visited' item successors : visited ⊆ visited' → expands visited item successors → expands visited' item successors.
Proof.
  intros Hs H. destruct H; [by constructor..|by eapply expands_live|by eapply expands_resolved|by eapply expands_executable|].
  eapply expands_recurrence; eauto.
Qed.

Definition items search : list RecoveryWorkItem := (snd ∘ snd) <$> se_pending search.

(** A search with some successors added. *)
Record added search search' (successors : list Successor) : Prop := {
  ad_seen : se_seen search' = se_seen search;
  ad_cycles : se_cycle_entries search' = se_cycle_entries search;
  ad_items : ∀ item, item ∈ items search' ↔ item ∈ items search ∨ NextItem item ∈ successors;
  ad_boundaries : ∀ boundary, boundary ∈ se_boundaries search' ↔ boundary ∈ se_boundaries search ∨ AtBoundary boundary ∈ successors
}.

Lemma add_successor_added search successor search' :
  add_successor descriptor_text family search successor = Ok search' → added search search' [successor].
Proof.
  destruct successor as [item|boundary]; cbn.
  - unfold enqueue. intros (key & _ & [= <-])%bind_Ok. split; [done|done| |].
    + intros item'. unfold items. cbn. rewrite fmap_app, elem_of_app. cbn. rewrite !list_elem_of_singleton.
      split; (intros [?|E]; [by left|right; congruence]).
    + intros boundary. cbn. rewrite list_elem_of_singleton. split; [by left|by intros [?|[=]]].
  - intros [= <-]. unfold add_boundary. destruct (mem boundary _) eqn:Hm.
    + apply mem_spec in Hm. split; [done|done| |]; intros x; rewrite list_elem_of_singleton; (split; [by left|]); [by intros [?|[=]]|].
      by intros [?|[= ->]].
    + split; [done|done| |]; intros x; cbn; [unfold items; cbn; rewrite list_elem_of_singleton; split; [by left|by intros [?|[=]]]|].
      rewrite elem_of_app, !list_elem_of_singleton. split; (intros [?|E]; [by left|right; congruence]).
Qed.

Lemma enqueue_successors_added search successors budget search' :
  enqueue_successors descriptor_text family search successors budget = Ok search' → added search search' successors.
Proof.
  unfold enqueue_successors. intros (n & _ & E)%bind_Ok.
  refine (py_for_state_prefix (λ dn st, added search st dn) _ _ _ _ _ _ E).
  - intros dn successor st st' [Hs Hc Hi Hb] [Hs' Hc' Hi' Hb']%add_successor_added. split; [by rewrite Hs'|by rewrite Hc'| |].
    + intros item. rewrite Hi', Hi, elem_of_app. naive_solver.
    + intros boundary. rewrite Hb', Hb, elem_of_app. naive_solver.
  - split; [done|done| |]; intros x; rewrite elem_of_nil; naive_solver.
Qed.

(** What the loop maintains for the items visited so far. *)
Context (start : ScopedStateBinding).
Notation transfer := (λ item, transfer_state item family).
Definition cycles_ok visited search : Prop := ∀ signature step, assoc signature (se_cycle_entries search) = Some step →
  ∃ item, item ∈ visited ∧ recovery_cycle_signature graph item window = Ok (Some signature) ∧ st_superstep (item_state item) = step.
Record search_inv visited search : Prop := {
  si_seen : se_seen search = transfer <$> visited;
  si_expanded : ∀ item, item ∈ visited → ∃ successors, expands visited item successors ∧ ∀ successor, successor ∈ successors →
    match successor with
    | AtBoundary boundary => boundary ∈ se_boundaries search
    | NextItem next => next ∈ items search ∨ transfer next ∈ se_seen search
    end;
  si_cycles : cycles_ok visited search;
  si_reached : ∀ item, item ∈ visited ∨ item ∈ items search → reached start (wi_binding item);
  si_boundaries : ∀ boundary, boundary ∈ se_boundaries search →
    boundary_reached start boundary ∧ outputs_ready graph (ssb_scope_run start) boundary
}.

(** The turn of an item: its successors are added, and its position may be entered. *)
Record item_turn visited search item search' (successors : list Successor) entered : Prop := {
  tn_added : added entered search' successors;
  tn_expands : expands visited item successors;
  tn_reached : Forall (successor_reached (wi_binding item)) successors;
  tn_ready : Forall (successor_ready graph (ssb_scope_run start)) successors;
  tn_items : items entered = items search;
  tn_seen : se_seen entered = se_seen search;
  tn_boundaries : se_boundaries entered = se_boundaries search;
  tn_cycles : se_cycle_entries entered = se_cycle_entries search
    ∨ ∃ signature, recovery_cycle_signature graph item window = Ok (Some signature)
        ∧ se_cycle_entries entered = dict_set signature (st_superstep (item_state item)) (se_cycle_entries search)
}.

(** A turn that ends at a boundary. *)
Lemma turn_boundary visited search item kind : expands visited item [item_boundary item kind] →
  successor_ready graph (ssb_scope_run start) (item_boundary item kind) →
  item_turn visited search item (add_boundary search (mkScopeBoundary kind (wi_availability item) (wi_binding item))) [item_boundary item kind] search.
Proof.
  intros He Hr. split; [|done| | |done|done|done|by left]; [by apply (add_successor_added search (item_boundary item kind))| |by constructor].
  constructor; [|constructor]. by left.
Qed.

Lemma running_turn visited search item status search' :
  cycles_ok visited search → ssb_scope_run (wi_binding item) = ssb_scope_run start → st_status (item_state item) = RUNNING →
  frontier_status (st_frontier (item_state item)) = Ok status → status = EXECUTABLE ∨ status = SETTLED →
  expand_running descriptor_text repr_tuple prover graph family window search item status = Ok search' →
  ∃ successors entered, item_turn visited search item search' successors entered.
Proof.
  intros Hcycles Hscope Hst Hstatus Hor. unfold expand_running. fold (item_state item). destruct (st_execution (item_state item)) eqn:Hex.
  - intros [_ (successors & Hl & E%enqueue_successors_added)%bind_Ok]%seq_Ok_iff. exists successors, search.
    split; [done| |by eapply expand_live_reached|by eapply expand_live_ready|done|done|done|by left]. eapply expands_live; [done|by rewrite Hex|done].
  - case_bool_decide as Hs.
    + subst status. intros (successor & Hr & E%enqueue_successors_added)%bind_Ok. exists [successor], search.
      split; [done|by eapply expands_resolved| | |done|done|done|by left]; (constructor; [|constructor]); [by eapply resolve_quiescent_reached|].
      rewrite <- Hscope. by apply resolve_quiescent_ready in Hr.
    + destruct Hor as [->|]; [|done]. intros (signature & Hsig & E)%bind_Ok. destruct (recurs _ _ _) eqn:Hrec.
      * injection E as <-. eexists _, search. apply turn_boundary; [|done]. unfold recurs in Hrec. destruct signature as [signature|]; [|done].
        destruct (assoc _ _) as [previous|] eqn:Ha; [|done]. destruct (Hcycles _ _ Ha) as (earlier & Hin & He & <-). apply Z.ltb_lt in Hrec.
        by eapply expands_recurrence.
      * apply bind_Ok in E as ([successors n] & Hq & E%enqueue_successors_added). eexists successors, _.
        split; [exact E|by eapply expands_executable|by eapply expand_quiescent_reached|by eapply expand_quiescent_ready| | | |];
          destruct signature as [signature|]; try done; [|by left]. right. by exists signature.
Qed.

Lemma cycles_ok_weaken visited visited' search : visited ⊆ visited' → cycles_ok visited search → cycles_ok visited' search.
Proof. intros Hs Hc signature step (i & Hi & ?)%Hc. exists i. split; [by apply Hs|done]. Qed.

Lemma visit_turn visited search item search' : cycles_ok visited search →
  mem (transfer item) (se_seen search) = false → reached start (wi_binding item) →
  visit_item descriptor_text repr_tuple prover graph (ssb_scope_run start) family window search item = Ok search' →
  ∃ successors entered, item_turn (visited ++ [item]) (mark_seen search (transfer item)) item search' successors entered.
Proof.
  intros Hcyc Hm [Hscope _] E. unfold visit_item in E. rewrite Hm in E. apply (cycles_ok_weaken _ (visited ++ [item])) in Hcyc; [|set_solver]. fold (item_state item) in E. destruct (st_status (item_state item)) eqn:Hst.
  - apply bind_Ok in E as (status & Hstatus & E). destruct status; [|done| |].
    + eapply running_turn; [done..|by left|done].
    + injection E as <-. eexists _, _. apply turn_boundary; [by apply expands_awaiting|done].
    + eapply running_turn; [done..|by right|done].
  - apply bind_Ok in E as (available & Hav & E). apply seq_Ok_iff in E as [Ha%raise_if_Ok%negb_false_iff [= <-]]. subst available.
    rewrite <- Hscope in Hav. eexists _, _. apply turn_boundary; [by apply expands_completed|]. intros _. split; [done|]. cbn. by rewrite <- Hscope.
  - injection E as <-. eexists _, _. apply turn_boundary; [by apply expands_failed|done].
  - injection E as <-. eexists _, _. apply turn_boundary; [by apply expands_aborted|done].
Qed.

Lemma heappop_items search item rest : heappop (se_pending search) = Some (item, rest) →
  ∀ i, i ∈ items search ↔ i = item ∨ i ∈ items (set_pending search rest).
Proof.
  unfold heappop. destruct (sorted_key _ _) as [|[key [sequence item']] rest'] eqn:E; [done|]. intros [= -> ->] i.
  assert (se_pending search ≡ₚ (key, (sequence, item)) :: rest) as Hp by by rewrite <- E; symmetry; apply sort_by_perm.
  unfold items. rewrite Hp. cbn. by rewrite elem_of_cons.
Qed.

(** One turn of the loop keeps the invariant. *)
Lemma visit_inv visited search item rest search' : search_inv visited search → heappop (se_pending search) = Some (item, rest) →
  visit_item descriptor_text repr_tuple prover graph (ssb_scope_run start) family window (set_pending search rest) item = Ok search' →
  ∃ visited', search_inv visited' search' ∧ visited ⊆ visited' ∧ transfer item ∈ se_seen search' ∧ items (set_pending search rest) ⊆ items search'.
Proof.
  intros [Hs He Hc Hr Hb] Hp Hv. pose proof (heappop_items _ _ _ Hp) as Hpop. clear Hp. assert (reached start (wi_binding item)) as Hri by by apply Hr; right; apply Hpop; left.
  destruct (mem (transfer item) (se_seen (set_pending search rest))) eqn:Hm.
  - assert (search' = set_pending search rest) as -> by (unfold visit_item in Hv; rewrite Hm in Hv; by injection Hv). apply mem_spec in Hm. cbn in Hm.
    exists visited. split_and!; [|done..]. split; [done| |done| |done].
    + intros i (successors & Hexp & Hcov)%He. exists successors. split; [done|]. intros [next|boundary] Hin; specialize (Hcov _ Hin); [|done].
      destruct Hcov as [[->|?]%Hpop|?]; [by right|by left|by right].
    + intros i [Hi|Hi]; apply Hr; [by left|right; apply Hpop; by right].
  - destruct (visit_turn visited (set_pending search rest) _ _ Hc Hm Hri Hv) as (successors & entered & [[As Ac Ai Ab] Te Tr Ty Ti Ts Tb Tc]). cbn in Ti, Ts, Tb, Tc.
    assert (se_seen search' = transfer <$> (visited ++ [item])) as Hseen by by rewrite As, Ts, fmap_app; cbn; rewrite Hs.
    assert (∀ s, match s with AtBoundary boundary => boundary ∈ se_boundaries search | NextItem next => next ∈ items search ∨ transfer next ∈ se_seen search end →
      match s with AtBoundary boundary => boundary ∈ se_boundaries search' | NextItem next => next ∈ items search' ∨ transfer next ∈ se_seen search' end) as Hgrow.
    { intros [next|boundary] Hold; [|by apply Ab; rewrite Tb; left]. rewrite As, Ts, elem_of_app, list_elem_of_singleton.
      destruct Hold as [[->|?]%Hpop|?]; [right; by right|left; apply Ai; rewrite Ti; by left|right; by left]. }
    exists (visited ++ [item]). split_and!; [|set_solver|rewrite As, Ts; set_solver|intros i Hi; apply Ai; rewrite Ti; by left]. split; [done| | | |].
    + intros i [Hi|Hi%list_elem_of_singleton]%elem_of_app; [|subst i].
      * destruct (He _ Hi) as (succs & Hexp & Hcov). exists succs. split; [eapply expands_weaken; [|done]; set_solver|]. intros s Hin. by apply Hgrow, Hcov.
      * exists successors. split; [done|]. intros [next|boundary] Hin; [left; apply Ai; by right|apply Ab; by right].
    + destruct Tc as [Tc|(signature & Hsig & Tc)]; intros sig step; rewrite Ac, Tc.
      * intros (i & Hi & ?)%Hc. exists i. split; [set_solver|done].
      * rewrite assoc_dict_set. case_decide as Ed; [subst sig; intros [= <-]; exists item; split; [set_solver|done]|].
        intros (i & Hi & ?)%Hc. exists i. split; [set_solver|done].
    + intros i [[Hi|Hi%list_elem_of_singleton]%elem_of_app|[Hi|Hi]%Ai]; [apply Hr; by left|by subst i| |].
      * rewrite Ti in Hi. apply Hr. right. apply Hpop. by right.
      * rewrite Forall_forall in Tr. specialize (Tr _ Hi). cbn in Tr. by etransitivity.
    + intros boundary [Hold|Hnew]%Ab; [rewrite Tb in Hold; by apply Hb|]. rewrite Forall_forall in Tr. rewrite Forall_forall in Ty.
      split; [|by apply (Ty _ Hnew)]. eapply boundary_reached_trans; [done|]. by apply (Tr _ Hnew).
Qed.

Lemma loop_inv fuel visited search search' : search_inv visited search →
  search_loop descriptor_text repr_tuple prover fuel graph (ssb_scope_run start) family window search = Ok search' →
  ∃ visited', search_inv visited' search' ∧ visited ⊆ visited' ∧ items search' = [] ∧ ∀ i, i ∈ items search → transfer i ∈ se_seen search'.
Proof.
  revert visited search. induction fuel as [|fuel IH]; intros visited search Hinv; cbn [search_loop];
    destruct (heappop (se_pending search)) as [[item rest]|] eqn:Hpop; [done| | |].
  - intros [= <-]. exists visited. assert (se_pending search = []) as Hnil by by apply heappop_None. unfold items. rewrite Hnil.
    split_and!; [done..|]. by intros i ?%elem_of_nil.
  - intros (search1 & Hv & E)%bind_Ok. destruct (visit_inv _ _ _ _ _ Hinv Hpop Hv) as (visited1 & Hinv1 & Hsub & Hseen & Hitems).
    destruct (IH _ _ Hinv1 E) as (visited' & Hinv' & Hsub' & Hnil & Hcov). exists visited'. split_and!; [done|by etransitivity|done|].
    intros i [->|Hi]%(heappop_items _ _ _ Hpop); [|by apply Hcov, Hitems]. rewrite (si_seen _ _ Hinv'). rewrite (si_seen _ _ Hinv1) in Hseen.
    apply list_elem_of_fmap in Hseen as (x & Hx & Hin). apply list_elem_of_fmap. exists x. split; [done|by apply Hsub'].
  - intros [= <-]. exists visited. assert (se_pending search = []) as Hnil by by apply heappop_None. unfold items. rewrite Hnil.
    split_and!; [done..|]. by intros i ?%elem_of_nil.
Qed.

(** The initial search satisfies the invariant. *)
Lemma initial_inv key item n : wi_binding item = start → search_inv [] (mkSearch [(key, (0, item))] 0 [] [] [] n).
Proof.
  intros Hi. split; [done| |done| |].
  - by intros ? ?%elem_of_nil.
  - intros i [?%elem_of_nil|Hin]; [done|]. unfold items in Hin. cbn in Hin. apply list_elem_of_singleton in Hin as ->. by rewrite Hi.
  - by intros b ?%elem_of_nil.
Qed.
End explored.

(** Whatever the turn of an item computes explores the item, if its successors are covered. *)
Lemma expands_explored {V : Type} repr_tuple prover (graph : CompiledGraph V) family (covered : Successor → Prop) visited item successors :
  steady prover → expands repr_tuple prover graph family visited item successors → (∀ successor, successor ∈ successors → covered successor) →
  explored repr_tuple prover graph family covered visited item.
Proof.
  intros Hsteady He Hcov. destruct He as [Hst Ha|Hst|Hst|Hst Hf|successors Hst Hex Hl|successor Hst Hex Hf Hr|n successors m Hst Hex Hf Hq|sig earlier Hst Hin Hs Hs' Hlt].
  - apply explored_completed; [done..|]. apply Hcov. by left.
  - apply explored_failed; [done|]. apply Hcov. by left.
  - apply explored_aborted; [done|]. apply Hcov. by left.
  - apply explored_waiting; [done..|]. apply Hcov. by left.
  - destruct (expand_live_steps _ _ _ _ Hl) as (node & rest & routes & Hlive & Hroutes & Hall). eapply explored_live; [done..|].
    intros route (next & Hstep & Hnext)%Hall. exists next. split; [done|by apply Hcov].
  - eapply explored_settled; [done..|by apply resolve_quiescent_step|]. apply Hcov. by left.
  - destruct (expand_quiescent_steps _ _ _ Hsteady _ _ _ _ Hq) as [(e & Hp & Hk & Hb)|(tasks & children & Hp & Hch & Hall)].
    + eapply explored_limit; [done..|]. by apply Hcov.
    + eapply explored_executable; [done..|]. intros outcomes availability (successor & Hstep & Hs)%Hall. exists successor. split; [done|by apply Hcov].
  - eapply explored_recurrence; [done..|]. apply Hcov. by left.
Qed.

Section coverage.
Context {V : Type} (descriptor_text : FrameDescriptorIdentity → str) (repr_tuple : list str → str).

(** A successor is covered by a returned boundary, or by a visited item with its transfer state. *)
Definition covered family (boundaries : list ScopeBoundary) (visited : list RecoveryWorkItem) (successor : Successor) : Prop :=
  match successor with
  | AtBoundary boundary => boundary ∈ boundaries
  | NextItem next => transfer_state next family ∈ (λ item, transfer_state item family) <$> visited
  end.

(** C13: the recovery proof covers every branch.  When [_prove_scope] returns its boundaries,
    there is a set of visited items that contains the given state, in which every item is a
    state the reducer reaches from the given one and is explored: a leased run was continued
    with every legal route of its first live node; a settled frontier with the command of
    the routing resolver, every value it reads being available; an executable frontier with
    every combination of endings of its nested runs (each the final state of the child, or
    any boundary that the proof of the child returns), the inputs of all callable nodes being
    available in each; and every such continuation is a returned boundary or has a visited
    item with the same transfer state.  The only items left unexplored repeat the position
    of a visited item of an earlier superstep.  Every returned boundary is such a reached
    state, or the limit of a child, and one that says the scope completed holds a completed
    state whose graph outputs are all available. *)
Theorem recovery_proof_covers (graph : CompiledGraph V) binding availability family budget boundaries budget' :
  scope_prover descriptor_text repr_tuple graph binding availability family budget = Ok (boundaries, budget') →
  ∃ visited children invocation_new,
    initial_children graph binding family invocation_new = Ok children
    ∧ covered family boundaries visited (NextItem (mkWorkItem binding availability [] children invocation_new))
    ∧ (∀ item, item ∈ visited → reached binding (wi_binding item)
        ∧ explored repr_tuple (scope_prover descriptor_text repr_tuple) graph family (covered family boundaries visited) visited item)
    ∧ ∀ boundary, boundary ∈ boundaries → boundary_reached binding boundary ∧ outputs_ready graph (ssb_scope_run binding) boundary.
Proof.
  rewrite scope_prover_unfold. unfold prove_scope_body. intros E. apply bind_Ok in E as (children & Hch & E).
  apply bind_Ok in E as (n & _ & E). apply bind_Ok in E as (key & _ & E). apply bind_Ok in E as (search & Hl & E).
  apply bind_Ok in E as (sorted & Hs & [= <- <-]).
  destruct (loop_inv _ _ _ _ _ binding _ _ _ _ (initial_inv _ _ _ _ binding key (mkWorkItem binding availability [] children _) n eq_refl) Hl)
    as (visited & [Hseen Hexp _ Hreach Hb] & _ & Hnil & Hcov). exists visited, children. eexists. split; [exact Hch|].
  assert (∀ boundary, boundary ∈ sorted ↔ boundary ∈ se_boundaries search) as Hsorted by (intros b; by rewrite (sorted_boundaries_perm _ _ _ _ Hs)). split_and!.
  - unfold covered. rewrite <- Hseen. apply Hcov. by left.
  - intros item Hin. split; [apply Hreach; by left|]. destruct (Hexp _ Hin) as (successors & He & Hsucc).
    eapply expands_explored; [apply scope_prover_steady|exact He|].
    intros [next|boundary] Hin'; specialize (Hsucc _ Hin'); [|by apply Hsorted]. unfold covered. rewrite <- Hseen. destruct Hsucc as [Hi|?]; [|done].
    rewrite Hnil in Hi. by apply elem_of_nil in Hi.
  - intros boundary Hin%Hsorted. by apply Hb.
Qed.
End coverage.

(* ------------------------------------------------------------------ *)
(** ** The recovered run of [signed] *)

Section demo.
#[local] Existing Instances signed_types demo_configs.

Definition descriptor_label (descriptor : FrameDescriptorIdentity) : str :=
  fdi_definition_id descriptor ++ str_int (kind_value (fdi_frame_kind descriptor)) ++ str_int (fdi_owner_ordinal descriptor).
Definition signed_recovery : RecoveryFamily := mkFamily [StateEvidence started_binding] (mkLimits 10 2) [].
Definition availability_of (r : result Availability) : Availability := match r with Ok a => a | Raise _ => mkAvailability [] [] [] [] end.
Definition started_availability : Availability := availability_of (from_frames started_frames).
Definition boundaries_of (r : result (list ScopeBoundary * Z)) : list ScopeBoundary := match r with Ok (b, _) => b | Raise _ => [] end.
Definition signed_search := scope_prover descriptor_label demo_repr signed started_binding started_availability signed_recovery 0.
Definition signed_boundaries : list ScopeBoundary := boundaries_of signed_search.

(** The one boundary: the run completes after the superstep of [b]. *)
Lemma signed_completes : (λ b, (sb_kind b, st_superstep (ssb_state (sb_binding b)))) <$> signed_boundaries = [(SCOPE_COMPLETED, 1)].
Proof. computed. Qed.

(** Without the persisted graph input the proof fails. *)
Lemma unavailable_input_found :
  scope_prover descriptor_label demo_repr signed started_binding (mkAvailability [] [] [] []) signed_recovery 0
  = Raise (Exn GraphValueUnavailableError "resume actions require unavailable historical values for pending nodes").
Proof. computed. Qed.

Lemma recovery_proof_covers_witness : ∃ visited children invocation_new,
  initial_children signed started_binding signed_recovery invocation_new = Ok children
  ∧ covered signed_recovery signed_boundaries visited (NextItem (mkWorkItem started_binding started_availability [] children invocation_new))
  ∧ (∀ item, item ∈ visited → reached started_binding (wi_binding item)
      ∧ explored demo_repr (scope_prover descriptor_label demo_repr) signed signed_recovery (covered signed_recovery signed_boundaries visited) visited item)
  ∧ ∀ boundary, boundary ∈ signed_boundaries →
      boundary_reached started_binding boundary ∧ outputs_ready signed (ssb_scope_run started_binding) boundary.
Proof.
  apply (recovery_proof_covers descriptor_label demo_repr signed started_binding started_availability signed_recovery 0 signed_boundaries 11).
  computed.
Defined.
End demo.
